(* ===== verification/_CoqProject ===== *)
-Q . S2P
Prelude.v
GoRuntime.v
Bitmap.v
BitmapOps.v
BitmapIter.v
Arena.v
LazyDim.v
Dimension.v
GlobDim.v
Namer.v
Policy.v
ScopePerms.v
IndexCore.v
IndexQuery.v
IndexQuerySpec.v
IndexLookup.v
Index.v
IndexSpec.v
ParentRoles.v
RuleTableBuild.v
RuleTable.v
Manager.v
Eval.v
Check.v
CheckSpec.v
Reference.v
Outcome.v
TableSpec.v
ManagerSpec.v
Serving.v
Engine.v
Decision.v
RolePolicies.v
PlanExpr.v
PlanFilter.v
PlanSem.v
PlanNode.v
PlanNodeSpec.v
Plan.v
PlanCombine.v
PlanSpec.v
Concrete.v
PlanConcrete.v
AuxData.v
Service.v
IndexMarshal.v
BitmapTheorems.v
IndexTheorems.v
PolicyTheorems.v
TableTheorems.v
EngineTheorems.v
ServiceTheorems.v
DecisionTheorems.v
Authzen.v
PlanTheorems.v
CompileSource.v
CompileDefs.v
Compile.v
CompileSpec.v
CompileVarSpec.v
CompileRuleSpec.v
CompileModuleSpec.v
CompilePolicySpec.v
CompileTypeSpec.v
CompileManager.v
StoreIndex.v
StoreIndexSpec.v
StoreUnitSpec.v
StoreBuild.v
CompileConcrete.v
CompileTheorems.v
StoreTheorems.v
Delivery.v
GoStrings.v
CelPath.v
CelFunctions.v
CelTheorems.v
Schema.v
Findings.v
