(* ===== verification/Prelude.v ===== *)
(** * The Cerbos policy decision point: from policy files to decisions

    The program answers, for a principal, a resource and a list of actions,
    whether each action is allowed (a check), and, for a principal, a kind of
    resource and a list of actions, which resources they are allowed for (a plan,
    whose result is a filter for a database query).  Policies are read from files
    into an index of modules and of the modules they import, compiled into policy
    sets and these into rule rows; the rows are kept in an in-memory index, and a
    check looks up the rows that apply to the request and evaluates their
    conditions, which a plan evaluates partially.  A manager keeps the table up to
    date while policies change.  In front of the table are an engine, which hands
    batches of requests to workers, and the API service, which checks limits, extracts
    the claims of tokens and turns requests into inputs and outputs into responses.
    This library models that path, from the files to the table and from a request to
    its response, on the Go sources under [src/internal].

    ** Parts, files and sources

    - [Prelude], [GoRuntime]: computations that may panic ([runs]), state
      passing ([ST], [sruns]), the order of map iteration ([GoMapOrder]), slices
      with capacity, 64-bit words and little-endian codecs.
    - [Bitmap], [BitmapOps], [BitmapIter] model
      [ruletable/index/bitmap.go]: two-level bitmaps, their iterator and their
      binary form.  [Arena] models [bitmap_pool.go], [LazyDim]
      [lazy_dimension.go], [Dimension] the literal dimensions of
      [bitmap_index.go], [GlobDim] [glob_dimension.go] and
      [util/globs_common.go].
    - [Policy]: the protobuf messages the table reads, and the interfaces of the
      code that is not modelled: CEL compiler ([CelCompiler]), content hashes
      ([ContentHash]).
    - [Namer] models [namer/namer.go] and [namer_non_embedded.go]; [ScopePerms]
      models [policy/scopeperms/scopeperms.go].
    - [IndexCore] models [index/core.go] and [bitmapIndex]; [IndexQuery],
      [IndexLookup] and [Index] model [index/index.go]: [Query], [QueryMulti],
      listings, existence tests, [IndexRule], [DeletePolicy], parent roles.
      [IndexQuerySpec], the end of [IndexLookup], [IndexSpec] and [ParentRoles] hold
      their correctness: [implements m rows] relates an index to the finite map
      from identifiers to rule rows it stands for.
    - [IndexMarshal] models [index/marshal.go], the whole index as a message and
      back, and says what the copy has in common with the original.
    - [RuleTableBuild] and [RuleTable] model [ruletable/ruletable.go]: rows of
      resource, principal and role policies, migrations, indexing, lookups.
      [Manager] models [ruletable/manager.go]: storage events, deletions,
      updates, reloads.  [TableSpec] and [ManagerSpec] relate them to rows:
      [table_inv rt rows].  [Serving] splits the handler of events into its critical
      sections ([task]), between which checks run.
    - [Eval] and [Check] model [ruletable/check.go], with parameters and CEL
      errors of [evaluator]: conditions, variables, outputs; the nested loops of
      [check] over actions, policy kinds, roles, scopes and bindings.
      The end of [Eval], [CheckSpec] and [Decision] hold their correctness;
      [Reference] has the loops of [check] without state and their declarative
      reading over bindings ([permits_on]), [RolePolicies] the one over rule rows;
      [Outcome] states what is decided ([decision]) apart from the loops and from the
      functions that merge effects, and proves that the loops come to it.
    - [Engine] models [engine/engine.go] and [engine/audit]: calls, their batches over
      the pool of workers and its channels, and the steps of workers, callers and
      cancellations.  [AuxData] models [auxdata]: key sets, their checks, and the claims
      of tokens.  [Service] models the handlers of [svc/cerbos_svc.go] for checks and
      plans and the builder of [svc/response.go], [Authzen] the AuthZEN API of
      [svc/authzen_svc.go].  [Schema] models [schema]: what
      validating a request against JSON schemas reports, and the cache of schemas.
      [Delivery] models [storage/subscriptionmgr.go] and [storage/reload.go]: how
      events reach their subscribers and how reloads are shared.
    - [PlanExpr], [PlanFilter], [PlanNode] and [Plan] model the query planner.
      [PlanExpr] has CEL syntax trees and their translation to operands of filters
      ([buildExpr] of [planner/ast.go], [planner/lambda.go]); [PlanFilter] filters,
      their normalisation ([normaliseFilter]), their text and their conjunction
      ([planner/merge.go]); [PlanNode] the nodes of plans ([planner/planner.go]):
      constructors, substitutions, lists of derived roles and
      [EvaluateCondition]; [Plan] the nested loops of [planWithAuditTrail]
      ([ruletable/plan.go]) over actions, policy kinds, roles, scopes and
      bindings.  [PlanSem] says what filters mean for a resource; it and
      [PlanNodeSpec] that filters and nodes mean the same, [PlanCombine] what
      combining nodes over scopes, roles and policy kinds comes to, in the terms
      of [permits_on]; [PlanSpec] holds the correctness of the loops.
    - [CompileSource] has source policies ([policy.proto]) and models
      [policy/policy.go] (kinds, scopes, dependencies, ancestors, [Wrapper],
      [CompilationUnit]), [policy/validate.go] and [conditions/identifiers.go];
      its end says what a validated policy is.  [CompileDefs] models the
      parts of [compile] that work on one module: [context.go], [errors.go],
      [conditions.go], [constants.go], [variables.go]; [Compile] models
      [compile.go]; [CompileManager] models [compile/manager.go] and says what a reload
      of the rule table over a store of source policies does.  Their
      correctness, bottom up: [CompileSpec] (errors only accumulate),
      [CompileVarSpec] (the graph of variables, which constants and variables are
      used, and their order), [CompileRuleSpec],
      [CompileModuleSpec] (exported definitions and derived roles),
      [CompilePolicySpec] ([unit_ok], [compiled_unit]: when a unit is well-formed and
      what it compiles to) and [CompileTypeSpec] ([set_typed], and the rows of compiled
      policies).
    - [StoreIndex] models [storage/index/index.go]: files by module and modules by
      file, dependencies and dependents, compilation units, updates and deletions
      with their events; [StoreIndexSpec] relates an index to the policies by file
      it stands for ([index_for]) and [StoreUnitSpec] says what units hold
      ([loaded]).  [StoreBuild] models [storage/index/builder.go] and the index as
      a store, and says which files a build accepts ([acceptable])
      and follows accepted files up to the units.
    - [GoStrings], [CelPath], [CelFunctions]: what conditions can call.  [CelPath]
      models [conditions/crosspath/crosspath.go] (paths of both operating systems)
      on the strings of bytes of [GoStrings]; [CelFunctions] models
      [conditions/types/hierarchy.go] and the functions on lists, paths and time of
      [conditions/cerbos_lib.go], with their argument checks.
    - [Concrete], [PlanConcrete] and [CompileConcrete] instantiate every parameter and have policies
      and requests on which the model runs; the witnesses use them.

    A check goes through the parts top to bottom: [check] asks [GetAllScopes] and
    the existence tests, and for each action, policy kind, role and scope calls
    [Query] on the index, which combines bitmaps of the dimensions through an
    arena and adds the synthetic denies of role policies; the bindings found are
    evaluated through the variable, condition and program caches.  Everything the
    source mutates is threaded explicitly: the index (a query materialises lazy
    entries), the bitmap pool, the caches, the evaluation context and the result.
    Panics are [None], returned errors are values of sum types.

    In front of it, the builder visits the policy files and makes the index;
    [Iter] of the compilation manager asks the index for the compilation unit of
    every module that is not only imported, compiles each, and hands the policy
    sets to the rule table; an event of the index names the module that changed
    and its importers; the subscription manager delivers it, and the rule table's
    manager loads these modules again.

    On the other side, a handler of the service makes the inputs of a request, the
    engine evaluates them one after the other or spreads them over its workers, each
    evaluation being a check under the read lock of the manager, and the handler puts
    the outputs into the response in the order of the inputs.  [step] (checks and
    critical sections), [engine_step] (calls, workers and their channels, over [step])
    and [sm_step] (the channel of events) are the step relations for what runs
    concurrently; the operations above are their steps.

    ** Theorems

    - [ServiceTheorems]: from a request to its response, whatever runs meanwhile,
      every resource has its decisions in its place and nothing is allowed that rows
      do not grant, or a status says what was wrong ([check_resources_answers],
      [resource_set_answers]).
    - [Authzen]: a batch is answered for the first evaluation of each name
      ([batch_asks_first]), which is as its evaluations are one by one
      ([authzen_batch_answers]) unless they give the same name to different subjects
      or resources ([first_subject_answers_all] on a table).
    - [EngineTheorems]: every call returns ([batch_returns]), and what it returns are
      answers to its inputs ([returned_answers]).
    - [AuxData]: claims are exactly those of verified tokens ([claims_verified]).
    - [Schema]: validation reports exactly what is wrong ([validation_reports]), and
      validating with the cache is validating against the store
      ([validated_as_stored]), except where [stale_schema_reference] and
      [stale_schema_load] show otherwise.
    - [Delivery]: events are delivered in order and to everyone
      ([delivered_in_order]); a call that reloads is served by a reload that starts
      after it ([reload_serves_later]).
    - [TableTheorems]: decisions are justified by rows of the table
      ([allow_is_granted], [default_deny]), every request is answered
      ([check_answers]), also between the critical sections of an event
      ([serving_while_updating]) and after any history ([events_then_check]), and
      storage events act on the rows as they should ([update_refines],
      [delete_refines], [reload_all_or_nothing], [update_failures]).
    - [DecisionTheorems]: for requests whose conditions have stable values
      ([stable_request]: the value of a condition does not depend on when it is
      evaluated, nor on the derived roles in the evaluation context), a response
      is what [answer] and [decision] state, also when validation rejects the
      request ([check_is_reference]), an action is allowed exactly when validation
      does not reject the request and the rows permit it ([allow_iff_permitted]), and
      the decision on an action is independent of the other actions
      ([decision_per_action]).
    - [PlanTheorems]: a filter selects only resources for which the check allows
      every action ([plan_sound]), and exactly those for one role and overriding
      scopes ([plan_exact]); planning answers ([plan_answers]); translation,
      normalisation and merging keep the meaning ([condition_node_means],
      [node_filter_means], [normalised_filter_means],
      [merged_filter_is_conjunction]) and translation terminates
      ([translation_returns]).  The hypotheses ([ideal], [plannable]) are that
      partial evaluation is faithful ([faithful]: residuals have, for the resource,
      the value that the check finds), that every scope consulted has one of the
      two kinds of permissions ([settled]), that no action has both an ALLOW in
      the principal policies and a DENY in the resource policies ([no_clash]),
      where plans and checks disagree, that some policy exists ([has_policy]), that
      texts of filters ([texts_distinct]) and hashes tell filters apart, and, where a
      plan is compared with a check, that validation does not reject the check, whose
      conditions have stable values ([checked]).
    - [IndexTheorems]: the index refines a multiset of rows ([index_history]);
      queries are equivalent to scanning the rows ([query_is_scan],
      [query_multi_is_scan], [query_rows], [existence_tests]); role policies
      deny what they do not list ([role_policy_denies]); role inheritance is a
      transitive closure ([parent_roles_closure]); an index written and read back
      answers queries the same way ([marshal_roundtrip]).
    - [CelTheorems]: where [pathHasPrefix] departs from its documentation
      ([path_prefix_departs]), relative paths lead to their target
      ([relative_path_joins]), hierarchies are ordered by their beginnings
      ([hierarchy_relations]), and the functions on lists agree with each other
      ([list_functions]); [dir_panics] says which paths make [Dir] panic.
    - [CompileTheorems]: the compiler accepts exactly the well-formed units
      ([compile_accepts_well_formed]), what it accepts is well typed
      ([compiled_sets_typed]), the rows are the rules that the source policies
      state ([resource_rows_of_source], [principal_rows_of_source]), and a reload
      over a store installs the rows of exactly its units ([source_reload]).
    - [StoreTheorems]: the index follows its files through every history
      ([store_history]), dependents are the closure of the import relation
      ([dependents_closure]), units hold exactly what a policy needs
      ([units_exact]), the builder accepts the files that fit together
      ([build_accepts]), and from files to rule table nothing is added, lost or
      changed ([files_to_table]).
    - [BitmapTheorems]: bitmaps and dimensions refine finite sets and relations
      under every history; the binary form round-trips and its decoder is total.
    - [PolicyTheorems]: names and scopes, the permissions tracker, the meaning of
      conditions and of parental consent.
    - [Findings]: behaviours on concrete inputs that documentation or intent do
      not suggest.

    ** Assumptions

    Parameters are type classes: [GlobEngine] (github.com/gobwas/glob),
    [CelCompiler] and [CelRuntime] (cel-go), [ContentHash], [StringHash] and
    [DerivedRoleHash] (xxhash over protobuf), [SchemaManager], [GoMapOrder]; for
    plans [CelPartial] (parsing and partial evaluation), [ProtoText], [OperandText]
    and [NodeHash] (text and hashes of messages), [PlanSchemaManager], and
    [FilterSem] with [FilterLaws] (what the operators of a filter do in a database);
    for the compiler [CelChecker] (parsing and type checking of expressions) and
    [DirectedGraph] with [GraphLaws] (the graph library that orders variables and
    detects their cycles); for the functions of conditions [CelTypes] with
    [CelTypesLaws] (values of cel-go, their equality and their types) and
    [ShellPattern] ([filepath.Match]); for the serialised index [IndexCodec] (the
    generated encoding of messages, with its round trip) and [StructValues] (constants
    as protobuf values); for tokens [JwtLibrary] (parsing and verification of
    tokens and keys) and [ProtoReflect] (whether reflection on messages accepts the
    descriptor of a foreign field); for schemas [JsonSchemas] with [JsonSchemasLaws] (what a schema
    compiles to is determined by the documents that its compilation loads) and
    [GoUrls].  The contents of a file ([FileContents]) are the policies
    the parser makes of it; theorems about files assume that a parsed policy has a
    type and a version and names without the separators of policy keys, as the
    constraints of the protobuf messages ensure ([unit_typed], [parses_well]).
    Tables and indexes key caches by content hashes, so theorems about them assume
    that the hashes involved do not collide on the rows in use ([no_collisions],
    [fqns_distinct]).  Identifiers are 32-bit: indexing assumes that fewer than
    2^32 slots are in use ([room], [has_room]).  Plans remove duplicate nodes and
    operands by hash, and filters with the same text, so their theorems take these
    hashes to be ideal ([hash_exact], [hash_separates]) and the texts of the filters
    of one plan to tell their conditions apart ([texts_distinct]).

    ** Bounds and fuel

    The loops of the sources are structural recursions or folds, except: the
    iterator of a bitmap, with as much fuel as there are words or bits left
    ([nextWord_loop], [advance_loop], [collect]); binary search ([bsearch_loop]),
    with the length of the slice; the traversal of parent roles
    ([collectParentRoles]), with two more than the number of roles declared
    ([role_fuel]), which bounds the depth since every nested call that does not
    return at once visits a new role; the translation of expressions
    ([buildExprImpl]), with one more than the size of the expression; the marking
    of used variables ([variables_use]), with one more than the number of
    variables, since a nested call that does not return at once marks a new one;
    dependents ([addTransitiveDependents]), with one more than their number; and
    the imports of a unit ([addDepsToCompilationUnit]), with [deps_fuel]: only
    derived roles have imports among what is imported, so imports of well-formed
    policies nest at most twice.  Enough fuel
    is proved, not assumed: the theorems state that a result is returned.  The steps
    of the engine are bounded by a measure ([work_left]), which every step but a new
    call lowers.

    ** Not modelled

    Tracing, logging, metrics, timeouts and garbage-collection pacing; the type
    checked trees of expressions and string deduplication, which do not influence
    decisions; in the planner, what cel-go does and the rewriting of residuals that
    is written against its environments ([evalComprehensionBody],
    [planner/struct_matcher.go]), which are parameters, and the identifiers of
    syntax tree nodes; of the functions of conditions SPIFFE identifiers, IP ranges
    and the registration of functions in the environments of cel-go; policy parsing;
    databases, git repositories, buckets and hubs as stores, the watcher of a directory
    and the overlay of two stores; the admin and playground services, the
    audit log, servers, the REPL, the test runner and the command line; of the
    compilation manager its cache and queue; of source policies exported metadata, and
    of errors their positions in a file.  Generated code and code that hands values to
    libraries or the operating system has no behaviour of its own to state.

    Concurrency is modelled where the code arranges it: by critical sections
    ([Serving]), channels ([Engine], [Delivery]) and the two halves of a load that
    misses the cache ([Schema]).  A check is one step, as it holds the read lock
    throughout; that checks running at the same time publish lazily built bitmaps
    and cache entries atomically is assumed, so they are modelled one after the other. *)
From Stdlib Require Export Ascii.
From stdpp Require Export base tactics decidable option numbers gmap strings.
From stdpp Require Export sorting list.

Create HintDb cerbos discriminated.

(** * Runs: total correctness for computations that may panic

    A Go function that can panic (index out of range, slice bounds) is a
    function into [option]; [None] is the panic.  [runs m P] says that [m]
    returns, and that what it returns satisfies [P]. *)

Definition runs {A} (m : option A) (P : A → Prop) : Prop :=
  ∃ x, m = Some x ∧ P x.

Section runs.
Context {A B : Type}.
Implicit Types (m : option A) (P : A → Prop).

Lemma runs_ret x P : P x → runs (Some x) P.
Proof. by exists x. Qed.

Lemma runs_bind m (k : A → option B) P (Q : B → Prop) :
  runs m P → (∀ x, P x → runs (k x) Q) → runs (m ≫= k) Q.
Proof. intros (x & -> & HP) Hk. exact (Hk x HP). Qed.

Lemma runs_mono m P Q : runs m P → (∀ x, P x → Q x) → runs m Q.
Proof. intros (x & -> & HP) HPQ. exists x. auto. Qed.

Lemma runs_and m P Q : runs m P → runs m Q → runs m (λ x, P x ∧ Q x).
Proof. intros (x & -> & HP) (y & [= <-] & HQ). by exists x. Qed.

Lemma runs_eq m x : m = Some x → runs m (λ y, y = x).
Proof. intros ->. by exists x. Qed.

Lemma runs_elim m x P : runs m P → m = Some x → P x.
Proof. intros (y & -> & HP) [= <-]. done. Qed.
End runs.

Lemma bind_some {A B} (x : A) (k : A → option B) : (Some x ≫= k) = k x.
Proof. done. Qed.

(** Reduce the binds whose first step is known to return. *)
Ltac bsimp := rewrite ?bind_some; cbv beta.

(** Sequencing steps of a [runs] goal. *)
Ltac rbind H := eapply runs_bind; [eapply H | ].
Tactic Notation "rret" := apply runs_ret.

(** * Loops over a list of steps *)

Fixpoint foldM {S A} (body : S → A → option S) (s : S) (l : list A) : option S :=
  match l with
  | [] => Some s
  | x :: l => s' ← body s x; foldM body s' l
  end.

Section foldM.
Context {S A : Type}.
Implicit Types (body : S → A → option S) (I : list A → S → Prop).

Lemma foldM_app body s l k :
  foldM body s (l ++ k) = s' ← foldM body s l; foldM body s' k.
Proof. revert s. induction l as [|x l IH]; intros s; [done|]. cbn. destruct (body s x); cbn; auto. Qed.

(** A loop whose steps all return is a fold. *)
Lemma foldM_foldl body (f : S → A → S) l s :
  (∀ s x, x ∈ l → body s x = Some (f s x)) → foldM body s l = Some (foldl f s l).
Proof.
  revert s. induction l as [|x l IH]; intros s Hb; [done|]. cbn [foldM foldl].
  rewrite Hb by left. rewrite bind_some. apply IH. intros s' y Hy. apply Hb. by right.
Qed.

(** The loop rule: an invariant indexed by the part already processed. *)
Lemma foldM_rule I body l s :
  I [] s →
  (∀ done x rest s, l = done ++ x :: rest → I done s → runs (body s x) (I (done ++ [x]))) →
  runs (foldM body s l) (I l).
Proof.
  intros H0 Hstep.
  assert (∀ done rest s, l = done ++ rest → I done s → runs (foldM body s rest) (I l)) as Hgen.
  { intros done rest. revert done. induction rest as [|x rest IH]; intros done s' Hl HI.
    - rewrite app_nil_r in Hl. subst. by rret.
    - cbn. eapply runs_bind; [by eapply Hstep|]. intros s'' HI''.
      apply (IH (done ++ [x])); [|done]. by rewrite <-app_assoc. }
  by apply (Hgen []).
Qed.

(** The same rule for a loop over consecutive indices. *)
Lemma foldM_seq_rule (I : nat → S → Prop) (body : S → nat → option S) n s :
  I 0 s →
  (∀ i s, i < n → I i s → runs (body s i) (I (Datatypes.S i))) →
  runs (foldM body s (seq 0 n)) (I n).
Proof.
  intros H0 Hstep.
  assert (∀ k i s, i + k = n → I i s → runs (foldM body s (seq i k)) (I n)) as Hgen.
  { induction k as [|k IH]; intros i s' Hik HI; cbn.
    - rewrite Nat.add_0_r in Hik. subst. by rret.
    - eapply runs_bind; [apply Hstep; [lia|done]|]. intros s'' HI''. apply IH; [lia|done]. }
  by apply Hgen.
Qed.
End foldM.

(** * Iterating over a Go map

    The order in which a [range] loop visits a map is unspecified.  Every
    definition that ranges over a map is parameterised by the order, of which
    only this much is known: it visits each entry exactly once. *)

Class GoMapOrder := {
  go_range : ∀ {K} `{Countable K} {V}, gmap K V → list (K * V);
  go_range_perm : ∀ {K} `{Countable K} {V} (m : gmap K V), go_range m ≡ₚ map_to_list m;
}.

(** The order used to run the model on concrete inputs. *)
Definition canonical_map_order : GoMapOrder :=
  {| go_range := λ K _ _ V m, map_to_list m; go_range_perm := λ K _ _ V m, reflexivity _ |}.

Section go_range.
Context `{GoMapOrder} `{Countable K} {V : Type}.
Implicit Types (m : gmap K V).

Lemma elem_of_go_range m k v : (k, v) ∈ go_range m ↔ m !! k = Some v.
Proof. rewrite go_range_perm. apply elem_of_map_to_list. Qed.

Lemma NoDup_go_range_keys m : NoDup (go_range m).*1.
Proof. rewrite go_range_perm. apply NoDup_fst_map_to_list. Qed.

Lemma NoDup_go_range m : NoDup (go_range m).
Proof. rewrite go_range_perm. apply NoDup_map_to_list. Qed.

Lemma elem_of_go_range_keys m k : k ∈ (go_range m).*1 ↔ is_Some (m !! k).
Proof.
  rewrite list_elem_of_fmap. split.
  - intros ([k' v] & -> & Hin%elem_of_go_range). cbn. eauto.
  - intros [v Hv]. exists (k, v). by rewrite elem_of_go_range.
Qed.

Lemma go_range_nil m : go_range m = [] ↔ m = ∅.
Proof.
  split.
  - intros Hm. apply map_empty. intros i. destruct (m !! i) as [x|] eqn:E; [|done].
    apply elem_of_go_range in E. rewrite Hm in E. by apply elem_of_nil in E.
  - intros ->. apply Permutation_nil. rewrite go_range_perm. by rewrite map_to_list_empty.
Qed.
End go_range.

(** * Lists *)

Section lists.
Context {A : Type}.
Implicit Types (l k : list A).

Lemma existsb_elem_of (f : A → bool) l : existsb f l = true ↔ ∃ x, x ∈ l ∧ f x = true.
Proof. rewrite existsb_exists. by setoid_rewrite list_elem_of_In. Qed.

Lemma filter_iff_in (P Q : A → Prop) `{∀ x, Decision (P x), ∀ x, Decision (Q x)} l :
  (∀ x, x ∈ l → P x ↔ Q x) → filter P l = filter Q l.
Proof.
  induction l as [|x l IH]; intros HPQ; [done|]. rewrite !filter_cons.
  pose proof (HPQ x (list_elem_of_here _ _)) as Hx.
  rewrite IH by (intros y Hy; apply HPQ; by apply list_elem_of_further).
  repeat case_decide; tauto || done.
Qed.

Lemma forallb_elem_of (f : A → bool) l : forallb f l = true ↔ ∀ x, x ∈ l → f x = true.
Proof. rewrite forallb_forall. by setoid_rewrite list_elem_of_In. Qed.
End lists.

(** * Maps *)

Lemma map_to_list_disjoint {A} (m1 m2 : gmap N A) : m1 ##ₘ m2 → map_to_list (m1 ∪ m2) ≡ₚ map_to_list m1 ++ map_to_list m2.
Proof.
  revert m2. induction m1 as [|i x m1 Hi IH] using map_ind; intros m2 Hd; [by rewrite map_empty_union, map_to_list_empty|].
  apply map_disjoint_insert_l in Hd as [Hi2 Hd]. rewrite <-insert_union_l, !map_to_list_insert; [|done|by apply lookup_union_None].
  by rewrite IH.
Qed.

(** * State passing

    Queries of the index change state that is not observable through the
    index's contents: a cold entry of a lazy dimension is materialised, pooled
    bitmaps are taken.  Such code is a computation in [ST S]: a state in, a
    result and a state out, or a panic.  [sruns R m s P] says that [m] returns
    from [s], that what it returns satisfies [P], and that the new state is
    related to [s] by [R], a partial equivalence whose domain is the set of
    well-formed states. *)

Definition ST (S A : Type) : Type := S → option (A * S).

#[export] Instance ST_ret S : MRet (ST S) := λ A x s, Some (x, s).
#[export] Instance ST_bind S : MBind (ST S) := λ A B k m s, '(x, s) ← m s; k x s.

(** A panicking computation that does not touch the state. *)
Definition lift {S A} (m : option A) : ST S A := λ s, x ← m; Some (x, s).
Definition gets {S A} (f : S → A) : ST S A := λ s, Some (f s, s).
(** Running a computation on a part of the state. *)
Definition zoom {S T A} (get : T → S) (put : S → T → T) (m : ST S A) : ST T A :=
  λ t, '(x, s) ← m (get t); Some (x, put s t).

Fixpoint foldST {S A B} (body : B → A → ST S B) (acc : B) (l : list A) : ST S B :=
  match l with
  | [] => mret acc
  | x :: l => acc ← body acc x; foldST body acc l
  end.

Definition sruns {S A} (R : S → S → Prop) (m : ST S A) (s : S) (P : A → Prop) : Prop :=
  ∃ x s', m s = Some (x, s') ∧ R s s' ∧ P x.

Section sruns.
Context {S : Type} (R : S → S → Prop) `{!RelationClasses.PER R}.

Lemma per_left s s' : R s s' → R s s.
Proof. intros Hs. etrans; [exact Hs|]. by symmetry. Qed.

Lemma per_right s s' : R s s' → R s' s'.
Proof. intros Hs. etrans; [|exact Hs]. by symmetry. Qed.

Lemma sruns_ret {A} (x : A) s (P : A → Prop) : R s s → P x → sruns R (mret x) s P.
Proof. intros Hs HP. by exists x, s. Qed.

Lemma sruns_gets {A} (f : S → A) s (P : A → Prop) : R s s → P (f s) → sruns R (gets f) s P.
Proof. intros Hs HP. by exists (f s), s. Qed.

Lemma sruns_lift {A} (m : option A) s (P : A → Prop) : R s s → runs m P → sruns R (lift m) s P.
Proof. intros Hs (x & -> & HP). by exists x, s. Qed.

Lemma sruns_bind {A B} (m : ST S A) (k : A → ST S B) s P (Q : B → Prop) :
  sruns R m s P → (∀ x s', R s s' → P x → sruns R (k x) s' Q) → sruns R (m ≫= k) s Q.
Proof.
  intros (x & s1 & Hm & HR & HP) Hk. destruct (Hk x s1 HR HP) as (y & s2 & Hk' & HR' & HQ).
  exists y, s2. split; [|split; [by etrans|done]].
  unfold mbind, ST_bind. rewrite Hm. exact Hk'.
Qed.

Lemma sruns_mono {A} (m : ST S A) s (P Q : A → Prop) : sruns R m s P → (∀ x, P x → Q x) → sruns R m s Q.
Proof. intros (x & s' & Hm & HR & HP) HPQ. exists x, s'. auto. Qed.

(** The loop rule: an invariant on the accumulator, indexed by the part already
    processed; the state stays in its class throughout. *)
Lemma sruns_foldST {A B} (I : list A → B → Prop) (body : B → A → ST S B) l acc s :
  R s s → I [] acc →
  (∀ done x rest acc s', l = done ++ x :: rest → R s s' → I done acc → sruns R (body acc x) s' (I (done ++ [x]))) →
  sruns R (foldST body acc l) s (I l).
Proof.
  intros Hs H0 Hstep.
  assert (∀ done rest acc s', l = done ++ rest → R s s' → I done acc → sruns R (foldST body acc rest) s' (I l)) as Hgen.
  { intros done rest. revert done. induction rest as [|x rest IH]; intros done acc' s' Hl HR HI; cbn [foldST].
    - rewrite app_nil_r in Hl. subst. apply sruns_ret; [by eapply per_right|done].
    - eapply sruns_bind; [by eapply Hstep|]. intros acc'' s'' HR' HI''.
      apply (IH (done ++ [x])); [by rewrite <-app_assoc|by etrans|done]. }
  by apply (Hgen []).
Qed.
End sruns.

Lemma sruns_zoom {S T A} (R : S → S → Prop) (R' : T → T → Prop) get put (m : ST S A) t (P : A → Prop) :
  sruns R m (get t) P → (∀ s', R (get t) s' → R' t (put s' t)) → sruns R' (zoom get put m) t P.
Proof.
  intros (x & s' & Hm & HR & HP) Hput. exists x, (put s' t). unfold zoom. rewrite Hm. auto.
Qed.

Ltac sbind H := eapply sruns_bind; [eapply H | ].

(** Two independent parts of a state. *)
Definition per_prod {S T} (R : S → S → Prop) (R' : T → T → Prop) (x y : S * T) : Prop :=
  R x.1 y.1 ∧ R' x.2 y.2.
#[export] Instance per_prod_per {S T} (R : S → S → Prop) (R' : T → T → Prop) :
  RelationClasses.PER R → RelationClasses.PER R' → RelationClasses.PER (per_prod R R').
Proof.
  intros HR HR'. split; unfold per_prod.
  - intros x y [? ?]. by split; symmetry.
  - intros x y z [? ?] [? ?]. split; by etrans.
Qed.
