(* ===== verification/GoRuntime.v ===== *)
(** The parts of Go the sources lean on: slices with a length and a capacity,
    the operations of [math/bits] on 64-bit words, and the little-endian codecs
    of [encoding/binary].  Machine words are [N] with their width written out. *)
From S2P Require Import Prelude.

Open Scope nat_scope.

(** * Slices

    [arr] is the backing array seen through the slice (its length is the
    capacity), [slen] the length.  Reads and writes outside the length, and
    reslicing beyond the capacity, panic. *)

Record slice (A : Type) := Slice { arr : list A; slen : nat }.
Arguments Slice {A}.
Arguments arr {A}.
Arguments slen {A}.

Section slice.
Context {A : Type}.
Implicit Types (s : slice A).

Definition slice_nil : slice A := Slice [] 0.
Definition slice_cap s : nat := length (arr s).
Definition slice_elems s : list A := take (slen s) (arr s).
Definition slice_get s (i : nat) : option A :=
  if decide (i < slen s) then arr s !! i else None.
Definition slice_set s (i : nat) (x : A) : option (slice A) :=
  if decide (i < slen s) then Some (Slice (<[i:=x]> (arr s)) (slen s)) else None.
(** [s[:n]] *)
Definition slice_upto s (n : nat) : option (slice A) :=
  if decide (n ≤ slice_cap s) then Some (Slice (arr s) n) else None.
(** [make([]A, n, c)] *)
Definition slice_make (zero : A) (n c : nat) : option (slice A) :=
  if decide (n ≤ c) then Some (Slice (replicate c zero) n) else None.
(** [copy(dst, src)] *)
Definition slice_copy (dst src : slice A) : slice A :=
  let k := slen dst `min` slen src in
  Slice (take k (arr src) ++ drop k (arr dst)) (slen dst).
(** [clear(s)] on a slice: zeroes the elements within the length. *)
Definition slice_clear (zero : A) s : slice A :=
  Slice (replicate (slen s) zero ++ drop (slen s) (arr s)) (slen s).
(** A slice literal: no spare capacity. *)
Definition slice_of (l : list A) : slice A := Slice l (length l).

Definition slice_ok s : Prop := slen s ≤ slice_cap s.

Lemma slice_set_runs s i x :
  slice_ok s → i < slen s →
  slice_set s i x = Some (Slice (<[i:=x]> (arr s)) (slen s)).
Proof. intros _ Hi. unfold slice_set. by rewrite decide_True. Qed.

Lemma slice_upto_runs s n :
  n ≤ slice_cap s → slice_upto s n = Some (Slice (arr s) n).
Proof. intros Hn. unfold slice_upto. by rewrite decide_True. Qed.
End slice.

(** Reading a word slice without its bounds check: [0] outside the array. *)
Definition wget (s : slice N) (i : nat) : N := default 0%N (arr s !! i).

Lemma slice_get_wget s i : slice_ok s → i < slen s → slice_get s i = Some (wget s i).
Proof.
  intros Hok Hi. unfold slice_get, wget, slice_ok, slice_cap in *. rewrite decide_True by done.
  destruct (lookup_lt_is_Some_2 (arr s) i) as [x ->]; [lia|done].
Qed.

Lemma wget_insert (l : list N) n i j x :
  i < length l → wget (Slice (<[i:=x]> l) n) j = if decide (i = j) then x else wget (Slice l n) j.
Proof.
  intros Hi. unfold wget; cbn. case_decide as E; [subst; by rewrite list_lookup_insert_eq|].
  by rewrite list_lookup_insert_ne.
Qed.

Lemma wget_len l n m i : wget (Slice l n) i = wget (Slice l m) i.
Proof. done. Qed.

Lemma wget_replicate n m i : wget (Slice (replicate n 0%N) m) i = 0%N.
Proof.
  unfold wget; cbn. destruct (replicate n 0%N !! i) eqn:E; [|done].
  by apply lookup_replicate in E as [-> _].
Qed.

Lemma wget_ge s i : slice_cap s ≤ i → wget s i = 0%N.
Proof. intros Hi. unfold wget. by rewrite lookup_ge_None_2. Qed.

(** * Words: [math/bits] *)

Open Scope N_scope.

Definition w64 : N := 2 ^ 64.

(** [1 << j] for a [uint64] *)
Definition bit (j : nat) : N := N.shiftl 1 (N.of_nat j) mod w64.

Fixpoint pos_ctz (p : positive) : nat :=
  match p with
  | xO q => S (pos_ctz q)
  | _ => 0%nat
  end.

(** [bits.TrailingZeros64] *)
Definition TrailingZeros64 (m : N) : nat :=
  match m with N0 => 64%nat | Npos p => pos_ctz p end.

Fixpoint pos_ones (p : positive) : N :=
  match p with
  | xH => 1
  | xO q => pos_ones q
  | xI q => 1 + pos_ones q
  end.

(** [bits.OnesCount64] *)
Definition OnesCount64 (m : N) : N :=
  match m with N0 => 0 | Npos p => pos_ones p end.

(** The test [w & (1 << j) != 0]. *)
Definition tb (w : N) (j : nat) : bool := N.testbit w (N.of_nat j).

Definition is_word (w : N) : Prop := w < w64.

Lemma word_eq_0 w : is_word w → (∀ j, (j < 64)%nat → tb w j = false) → w = 0.
Proof.
  intros Hw Hb. apply N.bits_inj_0. intros n. destruct (decide (n < 64)) as [Hn|Hn].
  - rewrite <-(N2Nat.id n). apply Hb. lia.
  - destruct (decide (w = 0)) as [->|Hz]; [apply N.bits_0|].
    apply N.bits_above_log2. apply N.log2_lt_pow2; [lia|].
    eapply N.lt_le_trans; [exact Hw|]. unfold w64. apply N.pow_le_mono_r; lia.
Qed.

Lemma tb_high w j : is_word w → (64 ≤ j)%nat → tb w j = false.
Proof.
  intros Hw Hj. unfold tb. destruct (decide (w = 0)) as [->|Hz]; [apply N.bits_0|].
  apply N.bits_above_log2. apply N.log2_lt_pow2; [lia|].
  eapply N.lt_le_trans; [exact Hw|]. unfold w64. apply N.pow_le_mono_r; lia.
Qed.

Lemma is_word_bits w : (∀ j, (64 ≤ j)%nat → tb w j = false) → is_word w.
Proof.
  intros Hb. unfold is_word, w64. destruct (decide (w = 0)) as [->|Hz]; [done|].
  apply N.log2_lt_pow2; [lia|]. apply N.nle_gt. intros Hle.
  pose proof (N.bit_log2 w Hz) as Ht. specialize (Hb (N.to_nat (N.log2 w))).
  unfold tb in Hb. rewrite N2Nat.id, Ht in Hb. discriminate Hb. lia.
Qed.

Lemma tb_0 j : tb 0 j = false.
Proof. apply N.bits_0. Qed.

Lemma tb_lor a b j : tb (N.lor a b) j = tb a j || tb b j.
Proof. apply N.lor_spec. Qed.

Lemma tb_land a b j : tb (N.land a b) j = tb a j && tb b j.
Proof. apply N.land_spec. Qed.

Lemma tb_ldiff a b j : tb (N.ldiff a b) j = tb a j && negb (tb b j).
Proof. apply N.ldiff_spec. Qed.

Lemma bit_shiftl j : (j < 64)%nat → bit j = N.shiftl 1 (N.of_nat j).
Proof.
  intros Hj. unfold bit. apply N.mod_small. rewrite N.shiftl_1_l. unfold w64.
  apply N.pow_lt_mono_r; lia.
Qed.

Lemma tb_bit i j : (i < 64)%nat → tb (bit i) j = bool_decide (i = j).
Proof.
  intros Hi. rewrite bit_shiftl by done. unfold tb. rewrite N.shiftl_1_l, N.pow2_bits_eqb.
  destruct (N.eqb_spec (N.of_nat i) (N.of_nat j)) as [E|E]; symmetry;
    [apply bool_decide_eq_true|apply bool_decide_eq_false]; lia.
Qed.

Lemma is_word_0 : is_word 0.
Proof. done. Qed.

Lemma is_word_lor a b : is_word a → is_word b → is_word (N.lor a b).
Proof. intros Ha Hb. apply is_word_bits. intros j Hj. by rewrite tb_lor, !tb_high. Qed.

Lemma is_word_land a b : is_word a → is_word (N.land a b).
Proof. intros Ha. apply is_word_bits. intros j Hj. by rewrite tb_land, tb_high. Qed.

Lemma is_word_ldiff a b : is_word a → is_word (N.ldiff a b).
Proof. intros Ha. apply is_word_bits. intros j Hj. by rewrite tb_ldiff, tb_high. Qed.

Lemma is_word_bit j : (j < 64)%nat → is_word (bit j).
Proof. intros. unfold is_word, bit. apply N.mod_lt. done. Qed.

#[export] Hint Resolve is_word_0 is_word_lor is_word_land is_word_ldiff is_word_bit : cerbos.

Lemma word_nonzero w : is_word w → w ≠ 0 ↔ ∃ j, (j < 64)%nat ∧ tb w j = true.
Proof.
  intros Hw. split.
  - intros Hz. destruct (existsb (tb w) (seq 0 64)) eqn:E.
    + apply existsb_elem_of in E as (j & Hj%elem_of_seq & Hb). exists j. split; [lia|done].
    + exfalso. apply Hz, word_eq_0; [done|]. intros j Hj. destruct (tb w j) eqn:Hb; [|done].
      enough (existsb (tb w) (seq 0 64) = true) by congruence.
      apply existsb_elem_of. exists j. split; [apply elem_of_seq; lia|done].
  - intros (j & _ & Hb) ->. by rewrite tb_0 in Hb.
Qed.

Lemma word_land_nonzero a b :
  is_word a → N.land a b ≠ 0 ↔ ∃ j, (j < 64)%nat ∧ tb a j = true ∧ tb b j = true.
Proof.
  intros Ha. rewrite word_nonzero by eauto with cerbos.
  setoid_rewrite tb_land. by setoid_rewrite andb_true_iff.
Qed.

Lemma tb_xO p j : tb (Npos p~0) (S j) = tb (Npos p) j.
Proof.
  unfold tb. change (Npos p~0) with (N.double (Npos p)).
  by rewrite Nat2N.inj_succ, N.double_bits_succ.
Qed.

Lemma tb_xI p j : tb (Npos p~1) (S j) = tb (Npos p) j.
Proof.
  unfold tb. change (Npos p~1) with (2 * Npos p + 1).
  by rewrite Nat2N.inj_succ, N.testbit_odd_succ by lia.
Qed.

Lemma ctz_spec m :
  m ≠ 0 → tb m (TrailingZeros64 m) = true ∧ ∀ j, (j < TrailingZeros64 m)%nat → tb m j = false.
Proof.
  destruct m as [|p]; [done|]. intros _. cbn [TrailingZeros64].
  induction p as [p _|p [IH1 IH2]|]; cbn [pos_ctz]; (split; [|intros j Hj]); try lia; try done.
  - by rewrite tb_xO.
  - destruct j as [|j]; [done|]. rewrite tb_xO. apply IH2. lia.
Qed.

Lemma ctz_lt m : is_word m → m ≠ 0 → (TrailingZeros64 m < 64)%nat.
Proof.
  intros Hm Hz. destruct (ctz_spec m Hz) as [Hb _]. destruct (decide (TrailingZeros64 m < 64)%nat); [done|].
  rewrite tb_high in Hb by (done || lia). done.
Qed.

(** The loop [for m != 0 { j := bits.TrailingZeros64(m); BODY; m &^= 1 << j }]
    over the set bits of a word.  A word has 64 bits, so 64 rounds are enough;
    running out of fuel counts as not returning. *)
Fixpoint bit_loop {S} (fuel : nat) (body : S → nat → option S) (m : N) (s : S) : option S :=
  if N.eqb m 0 then Some s else
  match fuel with
  | O => None
  | Datatypes.S fuel =>
      let j := TrailingZeros64 m in
      s' ← body s j;
      bit_loop fuel body (N.ldiff m (bit j)) s'
  end.

Definition for_bits {S} (m : N) (s : S) (body : S → nat → option S) : option S :=
  bit_loop 64 body m s.

(** The set bits of a word, in ascending order. *)
Definition bits_of (m : N) : list nat := filter (λ j, tb m j = true) (seq 0 64).

Lemma elem_of_bits_of m j : is_word m → j ∈ bits_of m ↔ tb m j = true.
Proof.
  intros Hm. unfold bits_of. rewrite list_elem_of_filter, elem_of_seq. split; [tauto|].
  intros Hb. split; [done|]. destruct (decide (j < 64)%nat); [lia|].
  rewrite tb_high in Hb by (done || lia). done.
Qed.

Lemma elem_of_bits_of_lt m j : j ∈ bits_of m → (j < 64)%nat.
Proof. unfold bits_of. rewrite list_elem_of_filter, elem_of_seq. lia. Qed.

Lemma filter_seq_none (P : nat → Prop) `{∀ x, Decision (P x)} i n :
  (∀ j, (i ≤ j < i + n)%nat → ¬ P j) → filter P (seq i n) = [].
Proof.
  revert i. induction n as [|n IH]; intros i Hj; [done|]. cbn [seq]. rewrite filter_cons_False by (apply Hj; lia).
  apply IH. intros j Hj'. apply Hj. lia.
Qed.

Lemma bit_loop_foldM {S} (body : S → nat → option S) n k m s :
  (64 ≤ n + k)%nat → (k ≤ 64)%nat → is_word m → (∀ j, (j < k)%nat → tb m j = false) →
  bit_loop n body m s = foldM body s (filter (λ j, tb m j = true) (seq k (64 - k))).
Proof.
  revert k m s. induction n as [|n IH]; intros k m s Hnk Hk Hm Hlow; cbn [bit_loop].
  - assert (k = 64%nat) as -> by lia. rewrite (word_eq_0 m) by auto. done.
  - destruct (N.eqb_spec m 0) as [->|Hz].
    { rewrite filter_seq_none; [done|]. intros j _. by rewrite tb_0. }
    destruct (ctz_spec m Hz) as [Hb Hbl]. pose proof (ctz_lt m Hm Hz) as Hlt.
    set (j := TrailingZeros64 m) in *.
    assert (k ≤ j)%nat as Hkj. { destruct (decide (k ≤ j)%nat); [done|]. rewrite Hlow in Hb by lia. done. }
    replace (64 - k)%nat with ((j - k) + Datatypes.S (63 - j))%nat by lia.
    rewrite seq_app, filter_app, filter_seq_none by (intros ? ?; rewrite Hbl by lia; done).
    replace (k + (j - k))%nat with j by lia. cbn [app seq]. rewrite filter_cons_True by done. cbn [foldM].
    destruct (body s j) as [s'|]; [|done]. cbn [mbind option_bind].
    rewrite (IH (Datatypes.S j)) by
      (lia || eauto with cerbos || (intros i Hi; rewrite tb_ldiff, tb_bit by done; destruct (decide (i = j)) as [->|];
        [by rewrite bool_decide_true, andb_false_r|by rewrite Hbl by lia])).
    f_equal. replace (64 - Datatypes.S j)%nat with (63 - j)%nat by lia.
    apply filter_iff_in. intros i Hi%elem_of_seq.
    rewrite tb_ldiff, tb_bit, bool_decide_false, andb_true_r by lia. done.
Qed.

Lemma for_bits_foldM {S} (body : S → nat → option S) m s :
  is_word m → for_bits m s body = foldM body s (bits_of m).
Proof. intros Hm. unfold for_bits. rewrite (bit_loop_foldM body 64 0) by (done || lia). done. Qed.

Lemma length_filter_fmap {A B} (P : B → Prop) `{∀ x, Decision (P x)} (f : A → B) l :
  length (filter P (f <$> l)) = length (filter (λ x, P (f x)) l).
Proof.
  induction l as [|x l IH]; [done|]. rewrite fmap_cons, !filter_cons.
  repeat case_decide; cbn; auto.
Qed.

Lemma pos_ones_filter p n :
  (∀ j, (n ≤ j)%nat → tb (Npos p) j = false) →
  pos_ones p = N.of_nat (length (filter (λ j, tb (Npos p) j = true) (seq 0 n))).
Proof.
  revert n. induction p as [p IH|p IH|]; intros n Hn; destruct n as [|n];
    try (specialize (Hn 0%nat ltac:(lia)); done).
  - cbn [pos_ones seq]. rewrite filter_cons_True by done. rewrite <-fmap_S_seq. cbn [length].
    rewrite length_filter_fmap, (IH n), Nat2N.inj_succ.
    2:{ intros j Hj. specialize (Hn (S j) ltac:(lia)). by rewrite tb_xI in Hn. }
    rewrite N.add_1_l. do 3 f_equal. apply filter_iff_in. intros j _. by rewrite tb_xI.
  - pose proof (ctz_spec (Npos p~0) ltac:(done)) as [Hc _].
    rewrite Hn in Hc by lia. done.
  - cbn [pos_ones seq]. rewrite filter_cons_False by done. rewrite <-fmap_S_seq.
    rewrite length_filter_fmap, (IH n).
    2:{ intros j Hj. specialize (Hn (S j) ltac:(lia)). by rewrite tb_xO in Hn. }
    do 2 f_equal. apply filter_iff_in. intros j _. by rewrite tb_xO.
  - cbn [pos_ones seq]. rewrite filter_cons_True by done.
    rewrite filter_seq_none; [done|]. intros j Hj. destruct j; [lia|done].
Qed.

Lemma OnesCount64_bits_of m : is_word m → OnesCount64 m = N.of_nat (length (bits_of m)).
Proof.
  intros Hm. destruct m as [|p]; cbn [OnesCount64].
  - unfold bits_of. rewrite filter_seq_none; [done|]. intros j _. by rewrite tb_0.
  - apply pos_ones_filter. intros j Hj. by apply tb_high.
Qed.

(** * Little-endian codecs of [encoding/binary]; a byte is an [N] below 256. *)

Fixpoint le_bytes (n : nat) (w : N) : list N :=
  match n with
  | O => []
  | S n => w mod 256 :: le_bytes n (w / 256)
  end.

Fixpoint le_value (bs : list N) : N :=
  match bs with
  | [] => 0
  | b :: bs => b + 256 * le_value bs
  end.

(** [binary.LittleEndian.PutUint32] and [PutUint64] *)
Definition PutUint32 (w : N) : list N := le_bytes 4 w.
Definition PutUint64 (w : N) : list N := le_bytes 8 w.

(** [binary.LittleEndian.Uint32(buf)] and [Uint64(buf)]: they read a prefix of
    the buffer, and panic when it is too short. *)
Definition Uint32 (buf : list N) : option N :=
  if decide (4 ≤ length buf)%nat then Some (le_value (take 4 buf)) else None.
Definition Uint64 (buf : list N) : option N :=
  if decide (8 ≤ length buf)%nat then Some (le_value (take 8 buf)) else None.

Lemma length_le_bytes n w : length (le_bytes n w) = n.
Proof. revert w. induction n; intros; cbn; auto. Qed.

Lemma le_value_bytes n w : le_value (le_bytes n w) = w mod 256 ^ N.of_nat n.
Proof.
  revert w. induction n as [|n IH]; intros w; cbn [le_bytes le_value].
  - by rewrite N.mod_1_r.
  - rewrite IH, Nat2N.inj_succ, N.pow_succ_r'. rewrite N.Div0.mod_mul_r. lia.
Qed.

Lemma le_value_word n w : w < 256 ^ N.of_nat n → le_value (le_bytes n w) = w.
Proof. intros Hw. by rewrite le_value_bytes, N.mod_small. Qed.

Lemma Uint32_Put w rest : w < 2 ^ 32 → Uint32 (PutUint32 w ++ rest) = Some w.
Proof.
  intros Hw. unfold Uint32, PutUint32. rewrite decide_True by (rewrite length_app, length_le_bytes; lia).
  rewrite take_app_le, take_ge by (rewrite length_le_bytes; lia). f_equal. apply le_value_word. exact Hw.
Qed.

Lemma Uint64_Put w rest : is_word w → Uint64 (PutUint64 w ++ rest) = Some w.
Proof.
  intros Hw. unfold Uint64, PutUint64. rewrite decide_True by (rewrite length_app, length_le_bytes; lia).
  rewrite take_app_le, take_ge by (rewrite length_le_bytes; lia). f_equal. apply le_value_word. exact Hw.
Qed.
