(* ===== verification/Bitmap.v ===== *)
(** The two-level bitset of the rule index: [src/internal/ruletable/index/bitmap.go].

    [words] holds the bits and [meta] one bit per word, set when the word is not
    zero.  Both are Go slices, so capacity matters: [Bitmap_ensure] reslices into
    memory beyond the length, and [Bitmap_Clear] hands the backing arrays back for
    reuse.  The invariant [Bitmap_ok] includes that this spare memory is zero.
    Every operation is total on well-formed bitmaps ([runs]) and is specified by
    its effect on the set [bm_mem] of identifiers. *)
From S2P Require Import Prelude GoRuntime.

Open Scope nat_scope.

Record Bitmap := MkBitmap { words : slice N; meta : slice N }.

Definition NewBitmap : Bitmap := MkBitmap slice_nil slice_nil.

Definition set_word (b : Bitmap) (i : nat) (w : N) : option Bitmap :=
  ws ← slice_set (words b) i w; Some (MkBitmap ws (meta b)).

Definition set_meta (b : Bitmap) (i : nat) (w : N) : option Bitmap :=
  ms ← slice_set (meta b) i w; Some (MkBitmap (words b) ms).

(** The word and the bit of an identifier: [id / 64] and [id % 64]. *)
Definition word_of (id : N) : nat := N.to_nat (id / 64).
Definition bit_of (id : N) : nat := N.to_nat (id mod 64).
Definition meta_len (n : nat) : nat := (n + 63) / 64.
Arguments word_of : simpl never.
Arguments bit_of : simpl never.
Arguments meta_len : simpl never.

Definition Bitmap_ensure (b : Bitmap) (n : nat) : option Bitmap :=
  if decide (n ≤ slen (words b)) then Some b
  else
    let nMeta := meta_len n in
    if decide (n ≤ slice_cap (words b)) then
      ws ← slice_upto (words b) n;
      ms ← slice_upto (meta b) nMeta;
      Some (MkBitmap ws ms)
    else
      let newCap := n `max` (slice_cap (words b) * 2) in
      newWords ← slice_make 0%N n newCap;
      let newMetaCap := meta_len newCap in
      newMeta ← slice_make 0%N nMeta newMetaCap;
      Some (MkBitmap (slice_copy newWords (words b)) (slice_copy newMeta (meta b))).

Definition Bitmap_Add (b : Bitmap) (id : N) : option Bitmap :=
  let i := word_of id in
  b ← Bitmap_ensure b (i + 1);
  w ← slice_get (words b) i;
  b ← set_word b i (N.lor w (bit (bit_of id)));
  m ← slice_get (meta b) (i / 64);
  set_meta b (i / 64) (N.lor m (bit (i mod 64))).

(** One flush of [AddSortedBatch]: [words[wi] |= w; meta[wi/64] |= 1 << (wi % 64)]. *)
Definition flush_word (b : Bitmap) (wi : nat) (w : N) : option Bitmap :=
  cur ← slice_get (words b) wi;
  b ← set_word b wi (N.lor cur w);
  m ← slice_get (meta b) (wi / 64);
  set_meta b (wi / 64) (N.lor m (bit (wi mod 64))).

Definition batch_step (st : Bitmap * nat * N) (id : N) : option (Bitmap * nat * N) :=
  let '(b, wi, w) := st in
  let i := word_of id in
  '(b, wi, w) ← (if decide (i ≠ wi) then b ← flush_word b wi w; Some (b, i, 0%N)
                 else Some (b, wi, w));
  Some (b, wi, N.lor w (bit (bit_of id))).

Definition Bitmap_AddSortedBatch (b : Bitmap) (ids : list N) : option Bitmap :=
  match ids with
  | [] => Some b
  | first :: _ =>
      b ← Bitmap_ensure b (word_of (List.last ids 0%N) + 1);
      '(b, wi, w) ← foldM batch_step (b, word_of first, 0%N) ids;
      flush_word b wi w
  end.

Definition Bitmap_Remove (b : Bitmap) (id : N) : option Bitmap :=
  let i := word_of id in
  if decide (slen (words b) ≤ i) then Some b
  else
    w ← slice_get (words b) i;
    b ← set_word b i (N.ldiff w (bit (bit_of id)));
    w' ← slice_get (words b) i;
    if N.eqb w' 0 then
      m ← slice_get (meta b) (i / 64);
      set_meta b (i / 64) (N.ldiff m (bit (i mod 64)))
    else Some b.

Definition Bitmap_Contains (b : Bitmap) (id : N) : option bool :=
  let i := word_of id in
  if decide (slen (words b) ≤ i) then Some false
  else
    w ← slice_get (words b) i;
    Some (negb (N.eqb (N.land w (bit (bit_of id))) 0)).

Definition Bitmap_IsEmpty (b : Bitmap) : bool :=
  forallb (λ m, N.eqb m 0) (slice_elems (meta b)).

Definition Bitmap_GetCardinality (b : Bitmap) : option N :=
  foldM (λ n mi,
    m ← slice_get (meta b) mi;
    for_bits m n (λ n j,
      w ← slice_get (words b) (mi * 64 + j);
      Some (n + OnesCount64 w)%N))
    0%N (seq 0 (slen (meta b))).

Definition Bitmap_WordsLen (b : Bitmap) : nat := slen (words b).

Definition Bitmap_Or (b other : Bitmap) : option Bitmap :=
  b ← Bitmap_ensure b (slen (words other));
  foldM (λ b mi,
    m ← slice_get (meta other) mi;
    if N.eqb m 0 then Some b
    else
      bm ← slice_get (meta b) mi;
      b ← set_meta b mi (N.lor bm m);
      let base := mi * 64 in
      for_bits m b (λ b j,
        w ← slice_get (words b) (base + j);
        ow ← slice_get (words other) (base + j);
        set_word b (base + j) (N.lor w ow)))
    b (seq 0 (slen (meta other))).

(** Zeroing the words named by a meta word. *)
Definition clear_group (b : Bitmap) (base : nat) (bm : N) : option Bitmap :=
  for_bits bm b (λ b j, set_word b (base + j) 0%N).

Definition Bitmap_And (b other : Bitmap) : option Bitmap :=
  foldM (λ b mi,
    bm ← slice_get (meta b) mi;
    if N.eqb bm 0 then Some b
    else
      let base := mi * 64 in
      overlap ← (if decide (slen (meta other) ≤ mi) then Some false
                 else om ← slice_get (meta other) mi; Some (negb (N.eqb (N.land bm om) 0)));
      if negb overlap then
        b ← clear_group b base bm;
        set_meta b mi 0%N
      else
        '(b, newMeta) ← for_bits bm (b, 0%N) (λ '(b, newMeta) j,
          let i := base + j in
          if decide (slen (words other) ≤ i) then
            b ← set_word b i 0%N; Some (b, newMeta)
          else
            w ← slice_get (words b) i;
            ow ← slice_get (words other) i;
            b ← set_word b i (N.land w ow);
            w' ← slice_get (words b) i;
            Some (b, if N.eqb w' 0 then newMeta else N.lor newMeta (bit j)));
        set_meta b mi newMeta)
    b (seq 0 (slen (meta b))).

(** The variadic helpers index [bitmaps[0]] first: no bitmap at all is a panic. *)
Definition min_len (len : Bitmap → nat) (first : Bitmap) (rest : list Bitmap) : nat :=
  foldl (λ n bm, if decide (len bm < n) then len bm else n) (len first) rest.

Definition MetaIntersects (bitmaps : list Bitmap) : option bool :=
  match bitmaps with
  | [] => None
  | first :: rest =>
      foldM (λ (found : bool) mi,
        if found then Some true
        else
          m0 ← slice_get (meta first) mi;
          combined ← foldM (λ c bm, m ← slice_get (meta bm) mi; Some (N.land c m)) m0 rest;
          Some (negb (N.eqb combined 0)))
        false (seq 0 (min_len (λ bm, slen (meta bm)) first rest))
  end.

(** The inner loop of [intersectionNonEmpty]: [val &= bm.words[w]] until zero. *)
Fixpoint and_until_zero (w : nat) (val : N) (rest : list Bitmap) : option N :=
  match rest with
  | [] => Some val
  | bm :: rest =>
      x ← slice_get (words bm) w;
      let val := N.land val x in
      if N.eqb val 0 then Some val else and_until_zero w val rest
  end.

Definition intersectionNonEmpty (bitmaps : list Bitmap) : option bool :=
  mi ← MetaIntersects bitmaps;
  if negb mi then Some false
  else
    match bitmaps with
    | [] => None
    | first :: rest =>
        foldM (λ (found : bool) w,
          if found then Some true
          else
            v0 ← slice_get (words first) w;
            val ← and_until_zero w v0 rest;
            Some (negb (N.eqb val 0)))
          false (seq 0 (min_len Bitmap_WordsLen first rest))
    end.

Definition shrink_slice (s : slice N) : option (slice N) :=
  if decide (slen s < slice_cap s) then
    w ← slice_make 0%N (slen s) (slen s);
    Some (slice_copy w s)
  else Some s.

Definition Bitmap_shrinkToFit (b : Bitmap) : option Bitmap :=
  ws ← shrink_slice (words b);
  ms ← shrink_slice (meta b);
  Some (MkBitmap ws ms).

Definition Bitmap_Clear (b : Bitmap) : option Bitmap :=
  ws ← slice_upto (slice_clear 0%N (words b)) 0;
  ms ← slice_upto (slice_clear 0%N (meta b)) 0;
  Some (MkBitmap ws ms).

(** ** Encoding *)

Definition wordLenSize : nat := 4.
Definition wordSize : nat := 8.

Definition Bitmap_MarshalBinary (b : Bitmap) : list N :=
  PutUint32 (N.of_nat (slen (words b)) mod 2 ^ 32) ++
  (slice_elems (words b) ≫= PutUint64) ++
  (slice_elems (meta b) ≫= PutUint64).

(** Reading [n] words from offset [off] on. *)
Fixpoint read_words (buf : list N) (off n : nat) : option (list N) :=
  match n with
  | O => Some []
  | S n =>
      w ← Uint64 (drop off buf);
      ws ← read_words buf (off + wordSize) n;
      Some (w :: ws)
  end.

(** The outer [option] is the panic, the inner one the returned error. *)
Definition Bitmap_UnmarshalBinary (buf : list N) : option (option (nat * Bitmap)) :=
  if decide (length buf < wordLenSize) then Some None
  else
    wl ← Uint32 buf;
    let wLen := N.to_nat wl in
    let mLen := meta_len wLen in
    let expected := wordLenSize + wLen * wordSize + mLen * wordSize in
    if decide (length buf < expected) then Some None
    else
      ws ← read_words buf wordLenSize wLen;
      ms ← read_words buf (wordLenSize + wLen * wordSize) mLen;
      Some (Some (expected, MkBitmap (slice_of ws) (slice_of ms))).

(** ** Iteration *)

Record BitmapIterator := MkIter {
  it_metaIdx : nat;
  it_metaW : N;
  it_word : N;
  it_wordIdx : nat;
}.

(** [nextWord]: each round drops a bit of [metaW] or moves to the next meta word,
    so 65 rounds per remaining meta word are enough. *)
Fixpoint nextWord_loop (fuel : nat) (b : Bitmap) (it : BitmapIterator) : option BitmapIterator :=
  match fuel with
  | O => None
  | S fuel =>
      if negb (N.eqb (it_metaW it) 0) then
        let j := TrailingZeros64 (it_metaW it) in
        let metaW := N.ldiff (it_metaW it) (bit j) in
        let wordIdx := it_metaIdx it * 64 + j in
        word ← slice_get (words b) wordIdx;
        let it := MkIter (it_metaIdx it) metaW word wordIdx in
        if negb (N.eqb word 0) then Some it else nextWord_loop fuel b it
      else
        let metaIdx := it_metaIdx it + 1 in
        if decide (slen (meta b) ≤ metaIdx) then
          Some (MkIter metaIdx (it_metaW it) 0%N (it_wordIdx it))
        else
          metaW ← slice_get (meta b) metaIdx;
          nextWord_loop fuel b (MkIter metaIdx metaW (it_word it) (it_wordIdx it))
  end.

Definition BitmapIterator_nextWord (b : Bitmap) (it : BitmapIterator) : option BitmapIterator :=
  nextWord_loop (65 * (slen (meta b) + 2)) b it.

(** [advance]: the first non-zero meta word from [metaIdx] on. *)
Fixpoint advance_loop (fuel : nat) (b : Bitmap) (it : BitmapIterator) : option BitmapIterator :=
  match fuel with
  | O => None
  | S fuel =>
      if decide (it_metaIdx it < slen (meta b)) then
        m ← slice_get (meta b) (it_metaIdx it);
        if negb (N.eqb m 0) then
          BitmapIterator_nextWord b (MkIter (it_metaIdx it) m (it_word it) (it_wordIdx it))
        else advance_loop fuel b (MkIter (it_metaIdx it + 1) (it_metaW it) (it_word it) (it_wordIdx it))
      else Some (MkIter (it_metaIdx it) (it_metaW it) 0%N (it_wordIdx it))
  end.

Definition BitmapIterator_advance (b : Bitmap) (it : BitmapIterator) : option BitmapIterator :=
  advance_loop (slen (meta b) + 1) b it.

Definition Bitmap_Iterator (b : Bitmap) : option BitmapIterator :=
  BitmapIterator_advance b (MkIter 0 0%N 0%N 0).

Definition BitmapIterator_HasNext (it : BitmapIterator) : bool := negb (N.eqb (it_word it) 0).

Definition BitmapIterator_Next (b : Bitmap) (it : BitmapIterator) : option (N * BitmapIterator) :=
  let j := TrailingZeros64 (it_word it) in
  let id := (N.of_nat (it_wordIdx it * 64 + j) mod 2 ^ 32)%N in
  let word := N.ldiff (it_word it) (bit j) in
  let it := MkIter (it_metaIdx it) (it_metaW it) word (it_wordIdx it) in
  if N.eqb word 0 then it ← BitmapIterator_nextWord b it; Some (id, it) else Some (id, it).

(** The loop every client writes: [for it.HasNext() { ids = append(ids, it.Next()) }].
    A bitmap of [n] words holds at most [64 * n] identifiers. *)
Fixpoint collect (fuel : nat) (b : Bitmap) (it : BitmapIterator) : option (list N) :=
  if BitmapIterator_HasNext it then
    match fuel with
    | O => None
    | S fuel =>
        '(id, it) ← BitmapIterator_Next b it;
        ids ← collect fuel b it;
        Some (id :: ids)
    end
  else Some [].

Definition Bitmap_ids (b : Bitmap) : option (list N) :=
  it ← Bitmap_Iterator b; collect (64 * slen (words b)) b it.

(** * The set a bitmap represents, and the representation invariant *)

Definition bm_mem (b : Bitmap) (id : N) : bool := tb (wget (words b) (word_of id)) (bit_of id).

Record Bitmap_ok (b : Bitmap) : Prop := {
  ok_words : slice_ok (words b);
  ok_meta : slice_ok (meta b);
  ok_len : slen (meta b) = meta_len (slen (words b));
  ok_cap : meta_len (slice_cap (words b)) ≤ slice_cap (meta b);
  ok_word : ∀ i, is_word (wget (words b) i);
  ok_mword : ∀ i, is_word (wget (meta b) i);
  ok_tail : ∀ i, slen (words b) ≤ i → wget (words b) i = 0%N;
  ok_max : (N.of_nat (slen (words b)) ≤ 2 ^ 26)%N;  (* identifiers are [uint32] *)
  ok_bits : ∀ i, tb (wget (meta b) (i / 64)) (i mod 64) = bool_decide (wget (words b) i ≠ 0%N);
}.
#[export] Hint Resolve ok_words ok_meta ok_word ok_mword : cerbos.

Lemma bit_of_lt id : bit_of id < 64.
Proof. unfold bit_of. pose proof (N.mod_lt id 64). lia. Qed.
#[export] Hint Resolve bit_of_lt : cerbos.

Lemma mod64_lt i : i mod 64 < 64.
Proof. pose proof (Nat.mod_upper_bound i 64). lia. Qed.
#[export] Hint Resolve mod64_lt : cerbos.

Lemma id_split id : id = N.of_nat (word_of id * 64 + bit_of id).
Proof. unfold word_of, bit_of. pose proof (N.div_mod id 64). lia. Qed.

Lemma word_of_join i j : j < 64 → word_of (N.of_nat (i * 64 + j)) = i.
Proof. intros Hj. unfold word_of. replace 64%N with (N.of_nat 64) by done. rewrite <-Nat2N.inj_div, Nat2N.id, Nat.div_add_l by lia. rewrite Nat.div_small by lia. lia. Qed.

Lemma bit_of_join i j : j < 64 → bit_of (N.of_nat (i * 64 + j)) = j.
Proof. intros Hj. unfold bit_of. replace 64%N with (N.of_nat 64) by done. rewrite <-Nat2N.inj_mod, Nat2N.id by lia. rewrite Nat.add_comm, Nat.Div0.mod_add, Nat.mod_small by lia. done. Qed.

Lemma meta_len_bound n i : i < n → i / 64 < meta_len n.
Proof. intros Hi. unfold meta_len. apply Nat.Div0.div_lt_upper_bound. pose proof (Nat.div_mod_eq (n + 63) 64). pose proof (mod64_lt (n+63)). lia. Qed.
#[export] Hint Resolve meta_len_bound : cerbos.

Lemma meta_len_mono n m : n ≤ m → meta_len n ≤ meta_len m.
Proof. intros. unfold meta_len. apply Nat.Div0.div_le_mono. lia. Qed.

Lemma group_words n mi j : mi * 64 + j < n → j < 64 → mi < meta_len n.
Proof. intros Hn Hj. pose proof (meta_len_bound n (mi * 64 + j) Hn) as H. rewrite Nat.div_add_l, (Nat.div_small j) in H by lia. lia. Qed.

Lemma join_div mi j : j < 64 → (mi * 64 + j) / 64 = mi.
Proof. intros. rewrite Nat.div_add_l, (Nat.div_small j) by lia. lia. Qed.

Lemma join_mod mi j : j < 64 → (mi * 64 + j) mod 64 = j.
Proof. intros. rewrite Nat.add_comm, Nat.Div0.mod_add. by apply Nat.mod_small. Qed.

Lemma join_inv i : i = (i / 64) * 64 + i mod 64.
Proof. pose proof (Nat.div_mod_eq i 64). lia. Qed.

Section facts.
Context (b : Bitmap) (Hb : Bitmap_ok b).

Lemma ok_bits_at mi j : j < 64 → tb (wget (meta b) mi) j = bool_decide (wget (words b) (mi * 64 + j) ≠ 0%N).
Proof using Hb. intros Hj. rewrite <-(ok_bits b Hb). by rewrite join_div, join_mod. Qed.

Lemma ok_meta_tail mi : slen (meta b) ≤ mi → wget (meta b) mi = 0%N.
Proof using Hb.
  intros Hmi. apply word_eq_0; [by apply ok_mword|]. intros j Hj. rewrite ok_bits_at by done.
  apply bool_decide_eq_false. rewrite (ok_tail b Hb); [tauto|].
  rewrite (ok_len b Hb) in Hmi. destruct (decide (mi * 64 + j < slen (words b))) as [Hlt|]; [|lia].
  apply group_words in Hlt; lia.
Qed.

Lemma bm_mem_tail id : slen (words b) ≤ word_of id → bm_mem b id = false.
Proof using Hb. intros Hi. unfold bm_mem. rewrite (ok_tail b Hb) by done. apply tb_0. Qed.

Lemma bm_mem_max id : bm_mem b id = true → (id < 2 ^ 32)%N.
Proof using Hb.
  intros Hm. destruct (decide (word_of id < slen (words b))) as [Hlt|]; [|by rewrite bm_mem_tail in Hm by lia].
  pose proof (ok_max b Hb) as Hmax. rewrite (id_split id). pose proof (bit_of_lt id).
  change (2 ^ 32)%N with (64 * 2 ^ 26)%N. lia.
Qed.

Lemma meta_group_bound mi j : j < 64 → tb (wget (meta b) mi) j = true → mi * 64 + j < slen (words b).
Proof using Hb.
  intros Hj Ht. rewrite ok_bits_at in Ht by done. apply bool_decide_eq_true in Ht.
  destruct (decide (mi * 64 + j < slen (words b))); [done|].
  rewrite (ok_tail b Hb) in Ht by lia. done.
Qed.

Lemma slice_get_word i : i < slen (words b) → slice_get (words b) i = Some (wget (words b) i).
Proof using Hb. intros. by apply slice_get_wget; [apply ok_words|]. Qed.

Lemma slice_get_meta i : i < slen (meta b) → slice_get (meta b) i = Some (wget (meta b) i).
Proof using Hb. intros. by apply slice_get_wget; [apply ok_meta|]. Qed.
End facts.

(** ** Writes and their frame *)

Definition shape (b : Bitmap) : nat * nat * nat * nat :=
  (slen (words b), slice_cap (words b), slen (meta b), slice_cap (meta b)).

Lemma shape_inv b b' :
  shape b' = shape b →
  slen (words b') = slen (words b) ∧ slice_cap (words b') = slice_cap (words b) ∧
  slen (meta b') = slen (meta b) ∧ slice_cap (meta b') = slice_cap (meta b).
Proof. unfold shape. intros [= -> -> -> ->]. done. Qed.

Lemma set_word_runs b i w :
  slice_ok (words b) → i < slen (words b) →
  runs (set_word b i w) (λ b', shape b' = shape b ∧ meta b' = meta b ∧
    ∀ k, wget (words b') k = if decide (i = k) then w else wget (words b) k).
Proof.
  intros Hok Hi. unfold set_word. rewrite slice_set_runs by done. cbn. rret.
  unfold shape, slice_cap; cbn. rewrite length_insert. split_and!; [done..|].
  intros k. rewrite wget_insert; [done|]. unfold slice_ok, slice_cap in Hok. lia.
Qed.

Lemma set_meta_runs b i w :
  slice_ok (meta b) → i < slen (meta b) →
  runs (set_meta b i w) (λ b', shape b' = shape b ∧ words b' = words b ∧
    ∀ k, wget (meta b') k = if decide (i = k) then w else wget (meta b) k).
Proof.
  intros Hok Hi. unfold set_meta. rewrite slice_set_runs by done. cbn. rret.
  unfold shape, slice_cap; cbn. rewrite length_insert. split_and!; [done..|].
  intros k. rewrite wget_insert; [done|]. unfold slice_ok, slice_cap in Hok. lia.
Qed.

(** A bitmap of the same shape is well formed when its words are and its meta
    level describes them. *)
Lemma ok_reshape b b' :
  Bitmap_ok b → shape b' = shape b →
  (∀ i, is_word (wget (words b') i)) → (∀ i, is_word (wget (meta b') i)) →
  (∀ i, wget (words b) i = 0%N → slen (words b) ≤ i → wget (words b') i = 0%N) →
  (∀ i, tb (wget (meta b') (i / 64)) (i mod 64) = bool_decide (wget (words b') i ≠ 0%N)) →
  Bitmap_ok b'.
Proof.
  intros [] (Hw & Hwc & Hm & Hmc)%shape_inv Hword Hmword Htail Hbits.
  unfold slice_ok in *. split; unfold slice_ok; rewrite ?Hw, ?Hwc, ?Hm, ?Hmc; auto.
Qed.

Lemma NewBitmap_ok : Bitmap_ok NewBitmap.
Proof. split; cbn; unfold slice_ok, slice_cap; try (cbn; lia); intros; unfold wget; cbn; rewrite ?lookup_nil; cbn; auto with cerbos; done. Qed.
#[export] Hint Resolve NewBitmap_ok : cerbos.

Lemma slice_copy_wget l s n m i :
  slice_ok s → n = length l → slen s ≤ n → (∀ i, wget (Slice l m) i = 0%N) →
  (∀ k, slen s ≤ k → wget s k = 0%N) → slen s ≤ m →
  wget (slice_copy (Slice l m) s) i = wget s i.
Proof.
  intros Hok -> Hn Hz Htail Hm. unfold slice_copy; cbn. rewrite Nat.min_r by done.
  unfold slice_ok, slice_cap in Hok. unfold wget in *; cbn in *.
  destruct (decide (i < slen s)).
  - rewrite lookup_app_l by (rewrite length_take; lia). by rewrite lookup_take_lt.
  - rewrite lookup_app_r by (rewrite length_take; lia). rewrite length_take, lookup_drop.
    rewrite Hz. symmetry. apply Htail. lia.
Qed.

(** The same contents in larger storage. *)
Lemma ok_regrow b b' :
  Bitmap_ok b → slen (words b) ≤ slen (words b') → slice_ok (words b') → slice_ok (meta b') →
  slen (meta b') = meta_len (slen (words b')) → meta_len (slice_cap (words b')) ≤ slice_cap (meta b') →
  (N.of_nat (slen (words b')) ≤ 2 ^ 26)%N →
  (∀ i, wget (words b') i = wget (words b) i) → (∀ i, wget (meta b') i = wget (meta b) i) →
  Bitmap_ok b'.
Proof.
  intros Hb Hgrow Hw Hm Hlen Hcap Hmax Ew Em. split; try done.
  - intros i. rewrite Ew. apply Hb.
  - intros i. rewrite Em. apply Hb.
  - intros i Hi. rewrite Ew. apply (ok_tail b Hb). lia.
  - intros i. rewrite Ew, Em. apply Hb.
Qed.

(** [ensure] grows the length and leaves the contents alone, on all three paths. *)
Lemma ensure_runs b n :
  Bitmap_ok b → (N.of_nat n ≤ 2 ^ 26)%N →
  runs (Bitmap_ensure b n) (λ b', Bitmap_ok b' ∧
    slen (words b') = slen (words b) `max` n ∧
    (∀ i, wget (words b') i = wget (words b) i) ∧ (∀ i, wget (meta b') i = wget (meta b) i)).
Proof.
  intros Hb Hmax. unfold Bitmap_ensure. case_decide as Hn; [rret; split_and!; [done|lia|done..]|].
  pose proof (ok_cap b Hb) as Hcap. pose proof (ok_words b Hb) as Hw. pose proof (ok_meta b Hb) as Hm.
  unfold slice_ok in Hw, Hm.
  case_decide as Hc.
  - pose proof (meta_len_mono _ _ Hc). rewrite !slice_upto_runs by lia. cbn. rret.
    split_and!; [|cbn; lia|done..].
    eapply ok_regrow; [done|..]; unfold slice_ok, slice_cap in *; cbn; done || lia.
  - set (c := n `max` (slice_cap (words b) * 2)).
    assert (n ≤ c) as Hnc by lia. pose proof (meta_len_mono _ _ Hnc).
    unfold slice_make. rewrite !decide_True by done. bsimp. rret.
    assert (slen (meta b) ≤ meta_len n) as Hmn by (rewrite (ok_len b Hb); apply meta_len_mono; lia).
    assert (∀ i, wget (slice_copy (Slice (replicate c 0%N) n) (words b)) i = wget (words b) i) as Ew.
    { intros i. eapply slice_copy_wget; rewrite ?length_replicate; auto with cerbos; try lia.
      - apply wget_replicate. - apply (ok_tail b Hb). }
    assert (∀ i, wget (slice_copy (Slice (replicate (meta_len c) 0%N) (meta_len n)) (meta b)) i = wget (meta b) i) as Em.
    { intros i. eapply slice_copy_wget; rewrite ?length_replicate; auto with cerbos; try lia.
      - apply wget_replicate. - apply (ok_meta_tail b Hb). }
    assert (∀ k m s, slen s ≤ k → slice_ok s → m ≤ k → slice_cap (slice_copy (Slice (replicate k 0%N) m) s) = k) as Ecap.
    { intros k m s Hsk Hok Hmk. unfold slice_ok, slice_cap in *. cbn.
      rewrite length_app, length_take, length_drop, length_replicate. lia. }
    split_and!; [|cbn; lia|done..].
    eapply ok_regrow; [done|..]; unfold slice_ok; cbn [words meta]; rewrite ?Ecap; cbn; done || lia.
Qed.

(** ** Adding *)

Lemma lor_nonzero_r a w : w ≠ 0%N → N.lor a w ≠ 0%N.
Proof. intros Hw E. apply N.lor_eq_0_iff in E as [_ ?]. done. Qed.

(** How the meta level follows the update of one word: a meta bit other than
    the updated one keeps describing its (unchanged) word. *)
Lemma meta_follows b (ws : nat → N) (ms : nat → N) i :
  Bitmap_ok b →
  (∀ k, k ≠ i → ws k = wget (words b) k) →
  (∀ mi j, j < 64 → mi * 64 + j ≠ i → tb (ms mi) j = tb (wget (meta b) mi) j) →
  tb (ms (i / 64)) (i mod 64) = bool_decide (ws i ≠ 0%N) →
  ∀ k, tb (ms (k / 64)) (k mod 64) = bool_decide (ws k ≠ 0%N).
Proof.
  intros Hb Hws Hms Hi k. destruct (decide (k = i)) as [->|Hk]; [done|].
  rewrite Hms, (Hws k Hk) by (auto with cerbos; rewrite <-join_inv; done). apply Hb.
Qed.

Lemma flush_word_runs b wi w :
  Bitmap_ok b → wi < slen (words b) → is_word w → w ≠ 0%N →
  runs (flush_word b wi w) (λ b', Bitmap_ok b' ∧ shape b' = shape b ∧
    ∀ k, wget (words b') k = if decide (wi = k) then N.lor (wget (words b) k) w else wget (words b) k).
Proof.
  intros Hb Hwi Hw Hz. unfold flush_word. rewrite slice_get_word by done. bsimp.
  eapply runs_bind; [apply set_word_runs; auto with cerbos|].
  intros b1 (Hs1 & Hm1 & Hw1). pose proof (shape_inv _ _ Hs1) as (E1 & _ & E2 & _).
  assert (wi / 64 < slen (meta b)) by (rewrite (ok_len b Hb); auto with cerbos).
  rewrite Hm1, slice_get_meta by done. bsimp.
  eapply runs_mono; [apply set_meta_runs; rewrite Hm1; auto with cerbos|].
  intros b2 (Hs2 & Hw2 & Hm2). rewrite Hm1 in Hm2.
  assert (∀ k, wget (words b2) k = if decide (wi = k) then N.lor (wget (words b) k) w else wget (words b) k) as Hwords.
  { intros k. rewrite Hw2, Hw1. by case_decide; subst. }
  split_and!; [|congruence|done].
  apply (ok_reshape b); [done|congruence|..].
  - intros k. rewrite Hwords. case_decide; auto with cerbos.
  - intros k. rewrite Hm2. case_decide; auto with cerbos.
  - intros k Hk0 Hk. rewrite Hwords, decide_False by lia. done.
  - eapply (meta_follows b _ _ wi); [done|..].
    + intros k Hk. rewrite Hwords, decide_False by done. done.
    + intros mi j Hj Hne. rewrite Hm2. case_decide as E; [|done].
      rewrite tb_lor, tb_bit, <-E by auto with cerbos.
      rewrite bool_decide_false, orb_false_r; [done|]. intros <-. apply Hne. rewrite <-E. symmetry. apply join_inv.
    + rewrite Hm2, decide_True, tb_lor, tb_bit, bool_decide_true, orb_true_r by auto with cerbos.
      rewrite Hwords, decide_True by done. symmetry. apply bool_decide_eq_true. by apply lor_nonzero_r.
Qed.

Lemma bit_nonzero j : j < 64 → bit j ≠ 0%N.
Proof. intros Hj E. pose proof (tb_bit j j Hj) as Ht. rewrite E, tb_0, bool_decide_true in Ht by done. done. Qed.
#[export] Hint Resolve bit_nonzero : cerbos.

Lemma id_eq_iff id id' : id = id' ↔ word_of id = word_of id' ∧ bit_of id = bit_of id'.
Proof. split; [by intros ->|]. intros [E1 E2]. by rewrite (id_split id), (id_split id'), E1, E2. Qed.

Lemma word_of_max id : (id < 2 ^ 32)%N → (N.of_nat (word_of id + 1) ≤ 2 ^ 26)%N.
Proof.
  intros Hid. unfold word_of. rewrite Nat2N.inj_add, N2Nat.id.
  assert (id / 64 < 2 ^ 26)%N; [|lia]. apply N.Div0.div_lt_upper_bound. done.
Qed.

Lemma Add_runs b id :
  Bitmap_ok b → (id < 2 ^ 32)%N →
  runs (Bitmap_Add b id) (λ b', Bitmap_ok b' ∧ ∀ id', bm_mem b' id' = bool_decide (id = id') || bm_mem b id').
Proof.
  intros Hb Hid. unfold Bitmap_Add.
  eapply runs_bind; [apply ensure_runs; [done|by apply word_of_max]|].
  intros b1 (Hb1 & Hlen & Hw1 & _).
  eapply runs_mono; [apply (flush_word_runs b1 (word_of id) (bit (bit_of id))); auto with cerbos; lia|].
  intros b2 (Hb2 & _ & Hw2). split; [done|]. intros id'. unfold bm_mem. rewrite Hw2.
  case_decide as E.
  - rewrite tb_lor, tb_bit, Hw1, orb_comm by auto with cerbos. f_equal.
    apply bool_decide_ext. rewrite id_eq_iff. tauto.
  - rewrite bool_decide_false by (rewrite id_eq_iff; tauto). by rewrite Hw1.
Qed.

(** The batch writer accumulates the bits of one word before storing them: what
    it will have written once [w] is flushed is the set so far. *)
Definition batch_inv (b0 : Bitmap) (first : N) (done : list N) (st : Bitmap * nat * N) : Prop :=
  let '(b, wi, w) := st in
  Bitmap_ok b ∧ slen (words b) = slen (words b0) ∧ wi < slen (words b0) ∧ is_word w ∧
  (if decide (done = []) then wi = word_of first ∧ w = 0%N else w ≠ 0%N) ∧
  ∀ id, (bm_mem b id || (bool_decide (wi = word_of id) && tb w (bit_of id)))
        = (bm_mem b0 id || bool_decide (id ∈ done)).

Lemma batch_step_runs b0 first done id st :
  batch_inv b0 first done st → word_of id < slen (words b0) → (done = [] → id = first) →
  runs (batch_step st id) (batch_inv b0 first (done ++ [id])).
Proof.
  destruct st as [[b wi] w]. intros (Hb & Hlen & Hwi & Hw & Hdone & Hmem) Hid Hfirst. cbn [batch_step].
  eapply (runs_bind _ _ (λ '(b', wi', w'), Bitmap_ok b' ∧ slen (words b') = slen (words b0) ∧ wi' = word_of id ∧
    is_word w' ∧ ∀ k, (bm_mem b' k || (bool_decide (wi' = word_of k) && tb w' (bit_of k)))
        = (bm_mem b0 k || bool_decide (k ∈ done)))).
  - destruct (decide (word_of id ≠ wi)) as [Hne|Hne].
    + destruct (decide (done = [])) as [Hnil|Hnil]. { destruct Hdone as [-> _]. by rewrite (Hfirst Hnil) in Hne. }
      eapply runs_bind; [apply flush_word_runs; auto; lia|].
      intros b' (Hb' & [E _]%shape_inv & Hw'). rret. split_and!; auto with cerbos; [lia|].
      intros k. rewrite tb_0, andb_false_r, orb_false_r, <-Hmem. unfold bm_mem. rewrite Hw'.
      case_decide as Ek; [by rewrite tb_lor, bool_decide_true by done|].
      by rewrite bool_decide_false, orb_false_r by done.
    + rret. apply dec_stable in Hne. split_and!; auto.
  - intros [[b' wi'] w'] (Hb' & Hlen' & -> & Hw' & Hmem'). rret. cbn.
    rewrite decide_False by (intros ?%app_eq_nil; naive_solver).
    split_and!; auto with cerbos.
    + apply lor_nonzero_r. auto with cerbos.
    + intros k. rewrite tb_lor, tb_bit, andb_orb_distrib_r, orb_assoc, Hmem' by auto with cerbos.
      rewrite <-orb_assoc. f_equal. rewrite <-bool_decide_and, <-bool_decide_or.
      apply bool_decide_ext. rewrite elem_of_app, list_elem_of_singleton, id_eq_iff. naive_solver.
Qed.

Lemma AddSortedBatch_runs b ids :
  Bitmap_ok b → StronglySorted N.le ids → Forall (λ id, id < 2 ^ 32)%N ids →
  runs (Bitmap_AddSortedBatch b ids) (λ b', Bitmap_ok b' ∧
    ∀ id, bm_mem b' id = bm_mem b id || bool_decide (id ∈ ids)).
Proof.
  intros Hb Hsorted Hmax. destruct ids as [|first ids0] eqn:Eids.
  { cbn. rret. split; [done|]. intros id. by rewrite bool_decide_false, orb_false_r by apply not_elem_of_nil. }
  rewrite <-Eids in *. assert (∀ id, id ∈ ids → (id ≤ List.last ids 0)%N ∧ List.last ids 0%N ∈ ids) as Hlast.
  { clear -Hsorted. induction Hsorted as [|x l Hl IH Hx]; intros id; [by intros ?%not_elem_of_nil|].
    destruct l as [|y l]; [cbn; intros ->%list_elem_of_singleton; split; [lia|by left]|].
    change (List.last (x :: y :: l) 0%N) with (List.last (y :: l) 0%N).
    destruct (IH y ltac:(left)) as [_ Hin].
    intros [->|Hid]%elem_of_cons; (split; [|by right]).
    - rewrite Forall_forall in Hx. by apply Hx. - by apply IH. }
  assert (first ∈ ids) as Hfin by (rewrite Eids; left).
  destruct (Hlast first Hfin) as [_ Hlin]. rewrite Forall_forall in Hmax.
  unfold Bitmap_AddSortedBatch. rewrite Eids at 1.
  eapply runs_bind; [apply ensure_runs; [done|by apply word_of_max, Hmax]|].
  intros b0 (Hb0 & Hlen & Hw0 & _).
  assert (∀ id, id ∈ ids → word_of id < slen (words b0)) as Hfit.
  { intros id Hid. destruct (Hlast id Hid) as [Hle _]. rewrite Hlen. unfold word_of.
    pose proof (N.Div0.div_le_mono _ _ 64 Hle). lia. }
  eapply runs_bind; [apply (foldM_rule (batch_inv b0 first))|].
  - split_and!; [done|done|by apply Hfit|apply is_word_0|by rewrite decide_True|]. intros k.
    by rewrite tb_0, andb_false_r, (bool_decide_false (k ∈ [])) by apply not_elem_of_nil.
  - intros done id rest st Hl Hinv. apply batch_step_runs; [done|..].
    + apply Hfit. rewrite Hl. set_solver.
    + intros ->. rewrite Eids in Hl. by injection Hl as -> _.
  - intros [[b1 wi] w] (Hb1 & Hlen1 & Hwi & Hw & Hz & Hmem).
    rewrite decide_False in Hz by (by rewrite Eids).
    eapply runs_mono; [apply flush_word_runs; auto; lia|].
    intros b2 (Hb2 & _ & Hw2). split; [done|]. intros id.
    trans (bm_mem b0 id || bool_decide (id ∈ ids)); [|unfold bm_mem; by rewrite Hw0].
    rewrite <-Hmem. unfold bm_mem. rewrite Hw2.
    case_decide as Ek; [by rewrite tb_lor, bool_decide_true by done|].
    by rewrite bool_decide_false, orb_false_r by done.
Qed.

(** ** Removing and testing *)

Lemma Remove_runs b id :
  Bitmap_ok b →
  runs (Bitmap_Remove b id) (λ b', Bitmap_ok b' ∧ slen (words b') = slen (words b) ∧
    ∀ id', bm_mem b' id' = bm_mem b id' && bool_decide (id' ≠ id)).
Proof.
  intros Hb. unfold Bitmap_Remove. set (i := word_of id). case_decide as Hi.
  { rret. split_and!; [done..|]. intros id'. destruct (decide (id' = id)) as [->|Hne].
    - by rewrite bm_mem_tail. - by rewrite bool_decide_true, andb_true_r. }
  rewrite slice_get_word by (done || lia). bsimp.
  eapply runs_bind; [apply set_word_runs; auto with cerbos; lia|].
  intros b1 (Hs1 & Hm1 & Hw1). pose proof (shape_inv _ _ Hs1) as (E1 & E1c & E2 & _).
  assert (slice_get (words b1) i = Some (N.ldiff (wget (words b) i) (bit (bit_of id)))) as ->.
  { rewrite slice_get_wget, Hw1, decide_True by (pose proof (ok_words b Hb); unfold slice_ok in *; lia || done). done. }
  bsimp.
  assert (∀ b', words b' = words b1 → ∀ id', bm_mem b' id' = bm_mem b id' && bool_decide (id' ≠ id)) as Hmem.
  { intros b' E id'. unfold bm_mem. rewrite E, Hw1. fold i. case_decide as Ei.
    - rewrite tb_ldiff, tb_bit, Ei by auto with cerbos. f_equal. rewrite <-bool_decide_not.
      apply bool_decide_ext. rewrite id_eq_iff. naive_solver.
    - rewrite bool_decide_true, andb_true_r; [done|]. intros ->. done. }
  assert (∀ k, is_word (wget (words b1) k)) as Hwd.
  { intros k. rewrite Hw1. case_decide; auto with cerbos. }
  destruct (N.eqb_spec (N.ldiff (wget (words b) i) (bit (bit_of id))) 0) as [Ez|Ez].
  - assert (i / 64 < slen (meta b)) by (rewrite (ok_len b Hb); apply meta_len_bound; lia).
    rewrite Hm1, slice_get_meta by done. bsimp.
    eapply runs_mono; [apply set_meta_runs; rewrite Hm1; auto with cerbos|].
    intros b2 (Hs2 & Hw2 & Hm2). rewrite Hm1 in Hm2.
    split_and!; [|rewrite Hw2; done|by apply Hmem].
    apply (ok_reshape b); [done|congruence|..]; rewrite ?Hw2.
    + done.
    + intros k. rewrite Hm2. case_decide; auto with cerbos.
    + intros k Hk0 Hk. rewrite Hw1, decide_False by lia. done.
    + eapply (meta_follows b _ _ i); [done|..].
      * intros k Hk. rewrite Hw1, decide_False by done. done.
      * intros mi j Hj Hne. rewrite Hm2. case_decide as E; [|done].
        rewrite tb_ldiff, tb_bit, <-E by auto with cerbos.
        rewrite bool_decide_false, andb_true_r; [done|]. intros <-. apply Hne. rewrite <-E. symmetry. apply join_inv.
      * rewrite Hm2, decide_True, tb_ldiff, tb_bit, (bool_decide_true (i mod 64 = i mod 64)), andb_false_r by auto with cerbos.
        rewrite Hw1, decide_True by done. symmetry. apply bool_decide_eq_false. tauto.
  - rret. split_and!; [|done|by apply Hmem].
    apply (ok_reshape b); [done|done|done|by rewrite Hm1; auto with cerbos|..].
    + intros k Hk0 Hk. rewrite Hw1, decide_False by lia. done.
    + intros k. rewrite Hm1, Hw1. rewrite (ok_bits b Hb). case_decide as E; [subst k|done].
      apply bool_decide_ext. split; [done|]. intros _ E0. apply Ez. by rewrite E0.
Qed.

Lemma testbit_land_bit w j : j < 64 → negb (N.eqb (N.land w (bit j)) 0) = tb w j.
Proof.
  intros Hj. destruct (N.eqb_spec (N.land w (bit j)) 0) as [E|E]; cbn.
  - pose proof (tb_land w (bit j) j) as Ht. rewrite E, tb_0, tb_bit, bool_decide_true, andb_true_r in Ht by done. done.
  - destruct (tb w j) eqn:Et; [done|]. exfalso. apply E. apply N.bits_inj_0. intros n.
    rewrite <-(N2Nat.id n). fold (tb (N.land w (bit j)) (N.to_nat n)). rewrite tb_land, tb_bit by done.
    destruct (bool_decide_reflect (j = N.to_nat n)) as [<-|]; [by rewrite Et|apply andb_false_r].
Qed.

Lemma Contains_runs b id : Bitmap_ok b → Bitmap_Contains b id = Some (bm_mem b id).
Proof.
  intros Hb. unfold Bitmap_Contains. case_decide as Hi; [by rewrite bm_mem_tail|].
  rewrite slice_get_word by (done || lia). cbn. f_equal. apply testbit_land_bit. auto with cerbos.
Qed.

Lemma elem_of_slice_elems (s : slice N) w :
  slice_ok s → w ∈ slice_elems s ↔ ∃ i, i < slen s ∧ w = wget s i.
Proof.
  intros Hok. unfold slice_elems. rewrite list_elem_of_lookup. split.
  - intros (i & [Hl Hi]%lookup_take_Some). exists i. unfold wget. rewrite Hl. done.
  - intros (i & Hi & ->). exists i. apply lookup_take_Some. split; [|done].
    unfold wget, slice_ok, slice_cap in *. destruct (lookup_lt_is_Some_2 (arr s) i) as [x ->]; [lia|done].
Qed.

Lemma IsEmpty_spec b : Bitmap_ok b → Bitmap_IsEmpty b = true ↔ ∀ id, bm_mem b id = false.
Proof.
  intros Hb. unfold Bitmap_IsEmpty. rewrite forallb_elem_of. setoid_rewrite elem_of_slice_elems; [|auto with cerbos].
  assert ((∀ mi, wget (meta b) mi = 0%N) ↔ ∀ i, wget (words b) i = 0%N) as Hmw.
  { split.
    - intros Hm i. pose proof (ok_bits b Hb i) as E. rewrite Hm, tb_0 in E. symmetry in E.
      apply bool_decide_eq_false in E. by apply dec_stable.
    - intros Hw mi. apply word_eq_0; [auto with cerbos|]. intros j Hj. rewrite ok_bits_at, Hw by done.
      apply bool_decide_eq_false. tauto. }
  split.
  - intros Hm id. unfold bm_mem. rewrite (proj1 Hmw); [apply tb_0|]. intros mi.
    destruct (decide (mi < slen (meta b))) as [Hlt|]; [|apply ok_meta_tail; lia || done].
    apply N.eqb_eq, Hm. eauto.
  - intros Hmem x (mi & Hmi & ->). apply N.eqb_eq. apply Hmw. intros i. apply word_eq_0; [auto with cerbos|].
    intros j Hj. specialize (Hmem (N.of_nat (i * 64 + j))). unfold bm_mem in Hmem.
    by rewrite word_of_join, bit_of_join in Hmem.
Qed.

Lemma IsEmpty_false b : Bitmap_ok b → Bitmap_IsEmpty b = false ↔ ∃ id, bm_mem b id = true.
Proof.
  intros Hb. rewrite <-not_true_iff_false, IsEmpty_spec by done. split.
  - intros Hn. destruct (Bitmap_IsEmpty b) eqn:E.
    { exfalso. apply Hn. by apply IsEmpty_spec. }
    unfold Bitmap_IsEmpty in E. apply not_true_iff_false in E. rewrite forallb_elem_of in E.
    destruct (existsb (λ m, negb (N.eqb m 0)) (slice_elems (meta b))) eqn:Ex.
    + apply existsb_elem_of in Ex as (m & (mi & Hmi & ->)%elem_of_slice_elems & Hm); [|auto with cerbos].
      apply negb_true_iff, N.eqb_neq, word_nonzero in Hm as (j & Hj & Ht); [|auto with cerbos].
      rewrite ok_bits_at in Ht by done. apply bool_decide_eq_true, word_nonzero in Ht as (k & Hk & Ht); [|auto with cerbos].
      exists (N.of_nat ((mi * 64 + j) * 64 + k)). unfold bm_mem. by rewrite word_of_join, bit_of_join.
    + exfalso. apply E. intros m Hm. destruct (N.eqb m 0) eqn:Em; [done|].
      enough (existsb (λ m, negb (N.eqb m 0)) (slice_elems (meta b)) = true) by congruence.
      apply existsb_elem_of. exists m. by rewrite Em.
  - intros (id & Hid) Hn. by rewrite Hn in Hid.
Qed.
