(* ===== verification/BitmapOps.v ===== *)
(** Bulk operations of the bitset ([Or], [And], [MetaIntersects],
    [intersectionNonEmpty]) and its storage management ([shrinkToFit], [Clear]):
    each is total on well-formed bitmaps and computes the set operation it is
    named after. *)
From S2P Require Import Prelude GoRuntime Bitmap.

Open Scope nat_scope.

(** ** Union and intersection *)

(** A group of words is the 64 words one meta word describes.  A loop over the
    set bits of a meta word that rewrites each word it names: *)
Lemma group_loop_runs b (bm : N) base (f : nat → N) (P : Bitmap → Prop) (body : Bitmap → nat → option Bitmap) :
  slice_ok (words b) → is_word bm → (∀ j, tb bm j = true → j < 64 → base + j < slen (words b)) →
  (∀ b' j, shape b' = shape b → meta b' = meta b → j < 64 → tb bm j = true →
     wget (words b') (base + j) = wget (words b) (base + j) →
     body b' j = set_word b' (base + j) (f j)) →
  (∀ b', shape b' = shape b → meta b' = meta b →
     (∀ j, j < 64 → wget (words b') (base + j) = if tb bm j then f j else wget (words b) (base + j)) →
     (∀ i, (i < base ∨ base + 64 ≤ i) → wget (words b') i = wget (words b) i) → P b') →
  runs (for_bits bm b body) P.
Proof.
  intros Hok Hbm Hfit Hbody Hpost. rewrite for_bits_foldM by done.
  eapply runs_mono; [apply (foldM_rule (λ done b', shape b' = shape b ∧ meta b' = meta b ∧
    (∀ j, j < 64 → wget (words b') (base + j) = if bool_decide (j ∈ done) then f j else wget (words b) (base + j)) ∧
    (∀ i, (i < base ∨ base + 64 ≤ i) → wget (words b') i = wget (words b) i)))|].
  - done.
  - intros done j rest b' Hl (Hs & Hm & Hin & Hout).
    assert (j ∈ bits_of bm) as Hj by (rewrite Hl; set_solver).
    pose proof (elem_of_bits_of_lt _ _ Hj) as Hj64. rewrite elem_of_bits_of in Hj by done.
    assert (j ∉ done) as Hnd.
    { intros Hd. assert (NoDup (bits_of bm)) as Hnd by (apply NoDup_filter, NoDup_seq).
      rewrite Hl in Hnd. apply NoDup_app in Hnd as (_ & Hnd & _). apply (Hnd j); [done|left]. }
    pose proof (shape_inv _ _ Hs) as (E1 & E2 & _ & _).
    rewrite Hbody; [|done..|rewrite Hin, bool_decide_false by done; done].
    eapply runs_mono; [apply set_word_runs|].
    { unfold slice_ok in *. lia. } { rewrite E1. by apply Hfit. }
    intros b'' (Hs'' & Hm'' & Hw''). split_and!; [congruence..| |].
    + intros k Hk. rewrite Hw''. destruct (decide (base + j = base + k)) as [E|E].
      * assert (j = k) as -> by lia. rewrite bool_decide_true by set_solver. done.
      * rewrite Hin, (bool_decide_ext (k ∈ done ++ [j]) (k ∈ done)); [done| |done].
        rewrite elem_of_app, list_elem_of_singleton. assert (k ≠ j) by lia. tauto.
    + intros i Hi. rewrite Hw'', decide_False by lia. auto.
  - intros b' (Hs & Hm & Hin & Hout). apply Hpost; auto. intros j Hj. rewrite Hin by done.
    destruct (tb bm j) eqn:Et; [rewrite bool_decide_true|rewrite bool_decide_false]; rewrite ?elem_of_bits_of by done; congruence || done.
Qed.

Lemma lor_nonzero a c : N.lor a c ≠ 0%N ↔ a ≠ 0%N ∨ c ≠ 0%N.
Proof. rewrite N.lor_eq_0_iff. destruct (decide (a = 0%N)), (decide (c = 0%N)); tauto. Qed.

Lemma div_lt_group i k : i / 64 < k ↔ i < k * 64.
Proof. split; intros; [pose proof (join_inv i); pose proof (mod64_lt i); nia|]. apply Nat.Div0.div_lt_upper_bound. lia. Qed.

(** Union on words: [b |= other]. *)
Lemma Or_words_runs b other :
  Bitmap_ok b → Bitmap_ok other →
  runs (Bitmap_Or b other) (λ b', Bitmap_ok b' ∧
    slen (words b') = slen (words b) `max` slen (words other) ∧
    ∀ i, wget (words b') i = N.lor (wget (words b) i) (wget (words other) i)).
Proof.
  intros Hb Ho. unfold Bitmap_Or.
  eapply runs_bind; [apply ensure_runs; [done|apply Ho]|]. intros b0 (Hb0 & Hlen & Hw0 & Hm0).
  assert (slen (meta other) ≤ slen (meta b0)) as Hml.
  { rewrite (ok_len _ Hb0), (ok_len _ Ho). apply meta_len_mono. lia. }
  eapply runs_mono; [apply (foldM_seq_rule (λ k b', shape b' = shape b0 ∧
    (∀ i, wget (words b') i = if decide (i < k * 64) then N.lor (wget (words b0) i) (wget (words other) i) else wget (words b0) i) ∧
    (∀ mi, wget (meta b') mi = if decide (mi < k) then N.lor (wget (meta b0) mi) (wget (meta other) mi) else wget (meta b0) mi)))|].
  - split_and!; [done|..]; intros ?; by rewrite decide_False by lia.
  - intros mi b1 Hmi (Hs & Hw1 & Hm1). pose proof (shape_inv _ _ Hs) as (E1 & E2 & E3 & E4).
    pose proof (ok_words _ Hb0) as Kw. pose proof (ok_meta _ Hb0) as Km. unfold slice_ok in Kw, Km.
    rewrite (slice_get_meta other) by done. bsimp.
    assert (∀ i, mi * 64 ≤ i < mi * 64 + 64 → wget (words b1) i = wget (words b0) i) as Hw1g.
    { intros i Hi. rewrite Hw1, decide_False by lia. done. }
    assert (∀ j, j < 64 → tb (wget (meta other) mi) j = false → wget (words other) (mi * 64 + j) = 0%N) as Hzero.
    { intros j Hj Et. rewrite ok_bits_at in Et by done. apply bool_decide_eq_false in Et. by apply dec_stable. }
    destruct (N.eqb_spec (wget (meta other) mi) 0) as [Ez|Ez].
    + rret. split_and!; [done|..].
      * intros i. rewrite Hw1. destruct (decide (i < mi * 64)); [by rewrite decide_True by lia|].
        case_decide; [|done]. replace i with (mi * 64 + (i - mi * 64)) by lia.
        rewrite Hzero by (lia || by rewrite Ez, tb_0). by rewrite N.lor_0_r.
      * intros k. rewrite Hm1. destruct (decide (k < mi)); [by rewrite decide_True by lia|].
        case_decide; [|done]. replace k with mi by lia. by rewrite Ez, N.lor_0_r.
    + rewrite slice_get_wget by (unfold slice_ok; lia). bsimp.
      eapply runs_bind; [apply set_meta_runs; unfold slice_ok; lia|].
      intros b2 (Hs2 & Hwe2 & Hm2). pose proof (shape_inv _ _ Hs2) as (F1 & F2 & F3 & F4).
      apply (group_loop_runs _ _ (mi * 64) (λ j, N.lor (wget (words b0) (mi * 64 + j)) (wget (words other) (mi * 64 + j)))).
      * unfold slice_ok. lia.
      * auto with cerbos.
      * intros j Et Hj. rewrite F1, E1. apply meta_group_bound in Et; [lia|done..].
      * intros b' j Hs' Hm' Hj Et Hsame. pose proof (shape_inv _ _ Hs') as (G1 & G2 & _).
        pose proof (meta_group_bound _ Ho mi j Hj Et).
        rewrite (slice_get_wget (words b')) by (unfold slice_ok; lia). bsimp.
        rewrite (slice_get_word other) by done. bsimp.
        by rewrite Hsame, Hwe2, Hw1g by lia.
      * intros b' Hs' Hm' Hin Hout. split_and!; [congruence|..].
        -- intros i. destruct (decide (mi * 64 ≤ i < mi * 64 + 64)) as [Hg|Hg].
           ++ rewrite decide_True by lia. replace i with (mi * 64 + (i - mi * 64)) by lia.
              rewrite Hin by lia. destruct (tb _ _) eqn:Et; [done|].
              rewrite Hwe2, Hw1g, Hzero by (lia || done). by rewrite N.lor_0_r.
           ++ rewrite Hout, Hwe2, Hw1 by lia. destruct (decide (i < mi * 64)), (decide (i < S mi * 64)); done || lia.
        -- intros k. rewrite Hm', Hm2, !Hm1. destruct (decide (mi = k)) as [<-|].
           ++ rewrite decide_False, decide_True by lia. done.
           ++ destruct (decide (k < mi)), (decide (k < S mi)); done || lia.
  - intros b' (Hs & Hw' & Hm'). pose proof (shape_inv _ _ Hs) as (E1 & E2 & E3 & E4).
    assert (∀ i, wget (words b') i = N.lor (wget (words b) i) (wget (words other) i)) as Hwords.
    { intros i. rewrite Hw', Hw0. case_decide as Hi; [done|].
      rewrite (ok_tail _ Ho i), N.lor_0_r; [done|]. destruct (decide (i < slen (words other))) as [Hlt|]; [|lia].
      apply meta_len_bound in Hlt. rewrite <-(ok_len _ Ho), div_lt_group in Hlt. lia. }
    split_and!; [|lia|done]. apply (ok_reshape b0); [done|done|..].
    + intros i. rewrite Hwords. auto with cerbos.
    + intros i. rewrite Hm'. case_decide; auto with cerbos.
    + intros i Hi0 Hi. rewrite Hwords, <-Hw0, Hi0. cbn. apply (ok_tail _ Ho). lia.
    + intros i. rewrite Hwords, Hm'. transitivity (tb (N.lor (wget (meta b0) (i/64)) (wget (meta other) (i/64))) (i mod 64)).
      { case_decide; [done|]. by rewrite (ok_meta_tail _ Ho), N.lor_0_r by lia. }
      rewrite tb_lor, (ok_bits _ Hb0), (ok_bits _ Ho), Hw0, <-bool_decide_or.
      apply bool_decide_ext. symmetry. apply lor_nonzero.
Qed.

Lemma Or_runs b other :
  Bitmap_ok b → Bitmap_ok other →
  runs (Bitmap_Or b other) (λ b', Bitmap_ok b' ∧ ∀ id, bm_mem b' id = bm_mem b id || bm_mem other id).
Proof.
  intros Hb Ho. eapply runs_mono; [by apply Or_words_runs|]. intros b' (Hb' & _ & Hw).
  split; [done|]. intros id. unfold bm_mem. by rewrite Hw, tb_lor.
Qed.

(** What one round of [And] leaves behind: group [mi] intersected, its meta word
    describing the result, everything else as before. *)
Definition and_group_post (b other b1 b2 : Bitmap) (mi : nat) : Prop :=
  shape b2 = shape b ∧
  (∀ j, j < 64 → wget (words b2) (mi * 64 + j) = N.land (wget (words b) (mi * 64 + j)) (wget (words other) (mi * 64 + j))) ∧
  (∀ i, (i < mi * 64 ∨ mi * 64 + 64 ≤ i) → wget (words b2) i = wget (words b1) i) ∧
  (∀ k, k ≠ mi → wget (meta b2) k = wget (meta b1) k) ∧
  is_word (wget (meta b2) mi) ∧
  (∀ j, j < 64 → tb (wget (meta b2) mi) j = bool_decide (wget (words b2) (mi * 64 + j) ≠ 0%N)).

Section and_group.
Context (b other b1 : Bitmap) (mi : nat).
Context (Hb : Bitmap_ok b) (Ho : Bitmap_ok other) (Hmi : mi < slen (meta b)).
Context (Hs : shape b1 = shape b).
Context (Hw1 : ∀ i, mi * 64 ≤ i → wget (words b1) i = wget (words b) i).
Context (Hm1 : ∀ k, mi ≤ k → wget (meta b1) k = wget (meta b) k).

#[local] Definition and_pair (b' : Bitmap) (base : nat) (newMeta : N) (j : nat) : option (Bitmap * N) :=
  let i := base + j in
  if decide (slen (words other) ≤ i) then
    b ← set_word b' i 0%N; Some (b, newMeta)
  else
    w ← slice_get (words b') i;
    ow ← slice_get (words other) i;
    b ← set_word b' i (N.land w ow);
    w' ← slice_get (words b) i;
    Some (b, if N.eqb w' 0 then newMeta else N.lor newMeta (bit j)).

#[local] Definition new_word (j : nat) : N :=
  N.land (wget (words b) (mi * 64 + j)) (wget (words other) (mi * 64 + j)).

Lemma and_pair_runs b' newMeta j :
  shape b' = shape b → j < 64 → mi * 64 + j < slen (words b) →
  wget (words b') (mi * 64 + j) = wget (words b) (mi * 64 + j) →
  runs (and_pair b' (mi * 64) newMeta j) (λ '(b'', nm), shape b'' = shape b ∧ meta b'' = meta b' ∧
    (∀ k, wget (words b'') k = if decide (mi * 64 + j = k) then new_word j else wget (words b') k) ∧
    nm = if decide (new_word j = 0%N) then newMeta else N.lor newMeta (bit j)).
Proof.
  intros Hs' Hj Hfit Hsame. pose proof (shape_inv _ _ Hs') as (E1 & E2 & _).
  pose proof (ok_words _ Hb) as Kw. unfold slice_ok in Kw. unfold and_pair, new_word.
  destruct (decide (slen (words other) ≤ mi * 64 + j)) as [Hge|Hlt].
  - rewrite (ok_tail _ Ho (mi * 64 + j)), N.land_0_r by done.
    eapply runs_bind; [apply set_word_runs; unfold slice_ok; lia|]. intros b'' (Hs'' & Hm'' & Hw''). rret.
    rewrite decide_True by done. split_and!; congruence || done.
  - rewrite (slice_get_wget (words b')) by (unfold slice_ok; lia). bsimp.
    rewrite (slice_get_word other) by (done || lia). bsimp. rewrite Hsame.
    eapply runs_bind; [apply set_word_runs; unfold slice_ok; lia|]. intros b'' (Hs'' & Hm'' & Hw'').
    pose proof (shape_inv _ _ Hs'') as (F1 & F2 & _).
    rewrite slice_get_wget by (unfold slice_ok; lia). bsimp. rret.
    rewrite Hw'', decide_True by done. split_and!; [congruence|done|done|].
    destruct (N.eqb_spec (N.land (wget (words b) (mi * 64 + j)) (wget (words other) (mi * 64 + j))) 0) as [->|E];
      [by rewrite decide_True|by rewrite decide_False].
Qed.

Lemma and_zero_outside j : j < 64 → tb (wget (meta b) mi) j = false → new_word j = 0%N.
Proof.
  intros Hj Et. rewrite ok_bits_at in Et by done. apply bool_decide_eq_false, dec_stable in Et.
  unfold new_word. by rewrite Et.
Qed.

Lemma and_loop_runs :
  runs (for_bits (wget (meta b) mi) (b1, 0%N) (λ '(b', newMeta) j, and_pair b' (mi * 64) newMeta j))
    (λ '(b2, nm), shape b2 = shape b ∧ meta b2 = meta b1 ∧ is_word nm ∧
      (∀ j, j < 64 → wget (words b2) (mi * 64 + j) = new_word j) ∧
      (∀ i, (i < mi * 64 ∨ mi * 64 + 64 ≤ i) → wget (words b2) i = wget (words b1) i) ∧
      (∀ j, j < 64 → tb nm j = bool_decide (new_word j ≠ 0%N))).
Proof.
  rewrite for_bits_foldM by auto with cerbos.
  eapply runs_mono; [apply (foldM_rule (λ done '(b2, nm), shape b2 = shape b ∧ meta b2 = meta b1 ∧ is_word nm ∧
    (∀ j, j < 64 → wget (words b2) (mi * 64 + j) = if bool_decide (j ∈ done) then new_word j else wget (words b) (mi * 64 + j)) ∧
    (∀ i, (i < mi * 64 ∨ mi * 64 + 64 ≤ i) → wget (words b2) i = wget (words b1) i) ∧
    (∀ j, j < 64 → tb nm j = bool_decide (j ∈ done ∧ new_word j ≠ 0%N))))|].
  - split_and!; [done|done|apply is_word_0|intros j Hj; apply Hw1; lia|done|].
    intros j Hj. rewrite tb_0. symmetry. apply bool_decide_eq_false. intros [?%not_elem_of_nil _]. done.
  - intros done j rest [b' nm] Hl (Hs' & Hm' & Hnm & Hin & Hout & Hbits).
    assert (j ∈ bits_of (wget (meta b) mi)) as Hj by (rewrite Hl; set_solver).
    pose proof (elem_of_bits_of_lt _ _ Hj) as Hj64. rewrite elem_of_bits_of in Hj by auto with cerbos.
    assert (j ∉ done) as Hnd.
    { intros Hd. assert (NoDup (bits_of (wget (meta b) mi))) as Hnd by (apply NoDup_filter, NoDup_seq).
      rewrite Hl in Hnd. apply NoDup_app in Hnd as (_ & Hnd & _). apply (Hnd j); [done|left]. }
    eapply runs_mono; [apply and_pair_runs; [done..|by apply meta_group_bound|rewrite Hin, bool_decide_false; done]|].
    intros [b'' nm''] (Hs'' & Hm'' & Hw'' & ->). split_and!; [done|congruence|case_decide; auto with cerbos|..].
    + intros k Hk. rewrite Hw''. destruct (decide (mi * 64 + j = mi * 64 + k)) as [E|E].
      * assert (j = k) as -> by lia. by rewrite bool_decide_true by set_solver.
      * rewrite Hin, (bool_decide_ext (k ∈ done ++ [j]) (k ∈ done)); [done| |done].
        rewrite elem_of_app, list_elem_of_singleton. assert (k ≠ j) by lia. tauto.
    + intros i Hi. rewrite Hw'', decide_False by lia. auto.
    + intros k Hk. trans (bool_decide (k ∈ done ∧ new_word k ≠ 0%N) || bool_decide (j = k ∧ new_word j ≠ 0%N)).
      * case_decide as E; [rewrite (bool_decide_false (j = k ∧ _)), orb_false_r by tauto; auto|].
        rewrite tb_lor, tb_bit, Hbits by done. f_equal. apply bool_decide_ext. tauto.
      * rewrite <-bool_decide_or. apply bool_decide_ext. rewrite elem_of_app, list_elem_of_singleton.
        split; [intros [?|[<- ?]]|intros [[?| ->] ?]]; tauto.
  - intros [b2 nm] (Hs2 & Hm2 & Hnm & Hin & Hout & Hbits). split_and!; auto.
    + intros j Hj. rewrite Hin by done. destruct (tb (wget (meta b) mi) j) eqn:Et.
      * rewrite bool_decide_true; [done|]. rewrite elem_of_bits_of by auto with cerbos. done.
      * pose proof Et as Et'. rewrite and_zero_outside by done. rewrite ok_bits_at in Et by done.
        apply bool_decide_eq_false, dec_stable in Et. rewrite Et. by case_bool_decide.
    + intros j Hj. rewrite Hbits by done. apply bool_decide_ext. split; [tauto|]. intros Hz. split; [|done].
      rewrite elem_of_bits_of by auto with cerbos. destruct (tb (wget (meta b) mi) j) eqn:Et; [done|].
      by rewrite and_zero_outside in Hz.
Qed.

#[local] Definition and_round : option Bitmap :=
  bm ← slice_get (meta b1) mi;
  if N.eqb bm 0 then Some b1
  else
    let base := mi * 64 in
    overlap ← (if decide (slen (meta other) ≤ mi) then Some false
               else om ← slice_get (meta other) mi; Some (negb (N.eqb (N.land bm om) 0)));
    if negb overlap then
      b ← clear_group b1 base bm;
      set_meta b mi 0%N
    else
      '(b, newMeta) ← for_bits bm (b1, 0%N) (λ '(b, newMeta) j, and_pair b base newMeta j);
      set_meta b mi newMeta.

(** Two groups whose meta words do not overlap have no word in common. *)
Lemma no_overlap_zero j :
  N.land (wget (meta b) mi) (wget (meta other) mi) = 0%N → j < 64 → new_word j = 0%N.
Proof.
  intros E Hj. destruct (decide (new_word j = 0%N)) as [|Hz]; [done|]. exfalso.
  apply word_land_nonzero in Hz as (k & Hk & Hk1 & Hk2); [|auto with cerbos].
  assert (tb (N.land (wget (meta b) mi) (wget (meta other) mi)) j = true) as Ht; [|by rewrite E, tb_0 in Ht].
  rewrite tb_land, !ok_bits_at by done. apply andb_true_iff. split; apply bool_decide_eq_true;
    (intros E0; rewrite E0, tb_0 in *; done).
Qed.

Lemma and_disjoint_runs :
  (∀ j, j < 64 → new_word j = 0%N) →
  runs (b' ← clear_group b1 (mi * 64) (wget (meta b) mi); set_meta b' mi 0%N)
    (λ b2, and_group_post b other b1 b2 mi).
Proof.
  intros Hz. pose proof (shape_inv _ _ Hs) as (E1 & E2 & E3 & E4).
  pose proof (ok_words _ Hb) as Kw. pose proof (ok_meta _ Hb) as Km. unfold slice_ok in Kw, Km.
  eapply runs_bind.
  { unfold clear_group. apply (group_loop_runs b1 _ (mi * 64) (λ _, 0%N) (λ b2, shape b2 = shape b ∧ meta b2 = meta b1 ∧
      (∀ j, j < 64 → wget (words b2) (mi * 64 + j) = 0%N) ∧
      (∀ i, (i < mi * 64 ∨ mi * 64 + 64 ≤ i) → wget (words b2) i = wget (words b1) i))).
    - unfold slice_ok. lia. - auto with cerbos.
    - intros j Et Hj. rewrite E1. by apply meta_group_bound. - done.
    - intros b2 Hs2 Hm2 Hin Hout. split_and!; [congruence|done| |done]. intros j Hj. rewrite Hin by done.
      destruct (tb _ _) eqn:Et; [done|]. rewrite ok_bits_at in Et by done.
      apply bool_decide_eq_false, dec_stable in Et. rewrite Hw1 by lia. done. }
  intros b2 (Hs2 & Hm2 & Hin & Hout). pose proof (shape_inv _ _ Hs2) as (F1 & F2 & F3 & F4).
  eapply runs_mono; [apply set_meta_runs; unfold slice_ok; lia|]. intros b3 (Hs3 & Hw3 & Hm3).
  assert (∀ k, wget (words b3) k = wget (words b2) k) as Ew by (intros; by rewrite Hw3).
  split_and!; [congruence|..].
  - intros j Hj. rewrite Ew, Hin by done. symmetry. by apply Hz.
  - intros i Hi. rewrite Ew. auto.
  - intros k Hk. by rewrite Hm3, decide_False, Hm2 by done.
  - rewrite Hm3, decide_True by done. apply is_word_0.
  - intros j Hj. rewrite Hm3, decide_True, tb_0, Ew, Hin by done. symmetry. apply bool_decide_eq_false. tauto.
Qed.

Lemma and_round_runs : runs and_round (λ b2, and_group_post b other b1 b2 mi).
Proof.
  pose proof (shape_inv _ _ Hs) as (E1 & E2 & E3 & E4).
  pose proof (ok_meta _ Hb) as Km. unfold slice_ok in Km.
  unfold and_round. rewrite (slice_get_wget (meta b1)), Hm1 by (unfold slice_ok; lia). bsimp.
  destruct (N.eqb_spec (wget (meta b) mi) 0) as [Ez|Ez].
  { rret. assert (∀ j, j < 64 → wget (words b) (mi * 64 + j) = 0%N) as Hz.
    { intros j Hj. pose proof (ok_bits_at b Hb mi j Hj) as E. rewrite Ez, tb_0 in E. symmetry in E.
      by apply bool_decide_eq_false, dec_stable in E. }
    split_and!; auto.
    - intros j Hj. rewrite Hw1, Hz by lia. done.
    - rewrite Hm1, Ez by lia. apply is_word_0.
    - intros j Hj. rewrite Hm1, Ez, tb_0, Hw1, Hz by lia. symmetry. apply bool_decide_eq_false. tauto. }
  destruct (decide (slen (meta other) ≤ mi)) as [Hge|Hlt]; bsimp.
  { apply and_disjoint_runs. intros j Hj. apply no_overlap_zero; [|done].
    by rewrite (ok_meta_tail _ Ho), N.land_0_r. }
  rewrite (slice_get_meta other) by (done || lia). bsimp.
  destruct (N.eqb_spec (N.land (wget (meta b) mi) (wget (meta other) mi)) 0) as [Eo|Eo].
  { apply and_disjoint_runs. intros j Hj. by apply no_overlap_zero. }
  eapply runs_bind; [apply and_loop_runs|]. intros [b2 nm] (Hs2 & Hm2 & Hnm & Hin & Hout & Hbits).
  pose proof (shape_inv _ _ Hs2) as (F1 & F2 & F3 & F4).
  eapply runs_mono; [apply set_meta_runs; unfold slice_ok; lia|]. intros b3 (Hs3 & Hw3 & Hm3).
  assert (∀ k, wget (words b3) k = wget (words b2) k) as Ew by (intros; by rewrite Hw3).
  split_and!; [congruence|..].
  - intros j Hj. rewrite Ew. by apply Hin.
  - intros i Hi. rewrite Ew. auto.
  - intros k Hk. by rewrite Hm3, decide_False, Hm2 by done.
  - by rewrite Hm3, decide_True.
  - intros j Hj. rewrite Hm3, decide_True, Ew, Hin by done. by apply Hbits.
Qed.
End and_group.

(** Intersection on words: [b &= other]. *)
Lemma And_words_runs b other :
  Bitmap_ok b → Bitmap_ok other →
  runs (Bitmap_And b other) (λ b', Bitmap_ok b' ∧ slen (words b') = slen (words b) ∧
    ∀ i, wget (words b') i = N.land (wget (words b) i) (wget (words other) i)).
Proof.
  intros Hb Ho. unfold Bitmap_And.
  eapply runs_mono; [apply (foldM_seq_rule (λ k b', shape b' = shape b ∧
    (∀ i, wget (words b') i = if decide (i < k * 64) then N.land (wget (words b) i) (wget (words other) i) else wget (words b) i) ∧
    (∀ mi, k ≤ mi → wget (meta b') mi = wget (meta b) mi) ∧
    (∀ mi, mi < k → is_word (wget (meta b') mi) ∧
      ∀ j, j < 64 → tb (wget (meta b') mi) j = bool_decide (wget (words b') (mi * 64 + j) ≠ 0%N))))|].
  - split_and!; [done|intros i; by rewrite decide_False by lia|done|lia].
  - intros mi b1 Hmi (Hs & Hw1 & Hm1 & Hd1).
    eapply runs_mono; [apply (and_round_runs b other b1 mi); auto; intros i Hi; rewrite Hw1, decide_False by lia; done|].
    intros b2 (Hs2 & Hin & Hout & Hmo & Hmw & Hmb). split_and!; [done|..].
    + intros i. destruct (decide (mi * 64 ≤ i < mi * 64 + 64)) as [Hg|Hg].
      * rewrite decide_True by lia. replace i with (mi * 64 + (i - mi * 64)) by lia. apply Hin. lia.
      * rewrite Hout, Hw1 by lia. destruct (decide (i < mi * 64)), (decide (i < S mi * 64)); done || lia.
    + intros k Hk. rewrite Hmo by lia. apply Hm1. lia.
    + intros k Hk. destruct (decide (k = mi)) as [->|]; [done|]. destruct (Hd1 k ltac:(lia)) as [Hkw Hkb].
      rewrite Hmo by done. split; [done|]. intros j Hj. rewrite Hkb by done. rewrite Hout by lia. done.
  - intros b' (Hs & Hw' & Hm' & Hd). pose proof (shape_inv _ _ Hs) as (E1 & E2 & E3 & E4).
    assert (∀ i, wget (words b') i = N.land (wget (words b) i) (wget (words other) i)) as Hwords.
    { intros i. rewrite Hw'. case_decide as Hi; [done|].
      rewrite (ok_tail _ Hb i); [done|]. destruct (decide (i < slen (words b))) as [Hlt|]; [|lia].
      apply meta_len_bound in Hlt. rewrite <-(ok_len _ Hb), div_lt_group in Hlt. lia. }
    split_and!; [|done|done]. apply (ok_reshape b); [done|done|..].
    + intros i. rewrite Hwords. auto with cerbos.
    + intros mi. destruct (decide (mi < slen (meta b))); [by apply Hd|]. rewrite Hm' by lia. auto with cerbos.
    + intros i Hi0 Hi. by rewrite Hwords, Hi0.
    + intros i. destruct (decide (i / 64 < slen (meta b))) as [Hlt|Hge].
      * rewrite (proj2 (Hd (i / 64) Hlt)) by auto with cerbos. by rewrite <-join_inv.
      * rewrite Hm', (ok_bits b Hb) by lia. rewrite Hwords. rewrite (ok_len b Hb) in Hge.
        rewrite (ok_tail b Hb i); [done|]. destruct (decide (i < slen (words b))) as [Hlt|]; [|lia].
        apply meta_len_bound in Hlt. done.
Qed.

Lemma And_runs b other :
  Bitmap_ok b → Bitmap_ok other →
  runs (Bitmap_And b other) (λ b', Bitmap_ok b' ∧ ∀ id, bm_mem b' id = bm_mem b id && bm_mem other id).
Proof.
  intros Hb Ho. eapply runs_mono; [by apply And_words_runs|]. intros b' (Hb' & _ & Hw).
  split; [done|]. intros id. unfold bm_mem. by rewrite Hw, tb_land.
Qed.

(** ** Intersection tests *)

Lemma min_len_le (len : Bitmap → nat) first rest bm :
  bm ∈ first :: rest → min_len len first rest ≤ len bm.
Proof.
  assert (∀ n, foldl (λ n bm, if decide (len bm < n) then len bm else n) n rest ≤ n ∧
               ∀ bm, bm ∈ rest → foldl (λ n bm, if decide (len bm < n) then len bm else n) n rest ≤ len bm) as H.
  { induction rest as [|x rest IH]; intros n; cbn; [split; [lia|by intros ? ?%not_elem_of_nil]|].
    destruct (IH (if decide (len x < n) then len x else n)) as [IH1 IH2].
    split; [case_decide; lia|]. intros y [->|Hy]%elem_of_cons; [case_decide; lia|auto]. }
  unfold min_len. destruct (H (len first)) as [H1 H2]. intros [->|Hb]%elem_of_cons; auto.
Qed.

Lemma min_len_attained (len : Bitmap → nat) first rest :
  ∃ bm, bm ∈ first :: rest ∧ min_len len first rest = len bm.
Proof.
  unfold min_len. assert (∀ n (bm0 : Bitmap), n = len bm0 → ∃ bm, (bm = bm0 ∨ bm ∈ rest) ∧
    foldl (λ n bm, if decide (len bm < n) then len bm else n) n rest = len bm) as H.
  { induction rest as [|x rest IH]; intros n bm0 ->; cbn; [exists bm0; auto|].
    case_decide; [destruct (IH _ x eq_refl) as (bm & Hbm & E)|destruct (IH _ bm0 eq_refl) as (bm & Hbm & E)];
      exists bm; (split; [|done]); set_solver. }
  destruct (H _ first eq_refl) as (bm & Hbm & E). exists bm. split; [|done]. set_solver.
Qed.

(** The disjunctive search loops: they stop at the first hit. *)
Lemma search_runs {A} (test : A → option bool) (l : list A) (P : A → bool) :
  (∀ x, x ∈ l → test x = Some (P x)) →
  foldM (λ (found : bool) x, if found then Some true else test x) false l = Some (existsb P l).
Proof.
  intros Ht. assert (∀ acc, foldM (λ (found : bool) x, if found then Some true else test x) acc l = Some (acc || existsb P l)) as H; [|apply H].
  induction l as [|x l IH]; intros acc; cbn [foldM existsb]; [by rewrite orb_false_r|].
  destruct acc; cbn [orb].
  - rewrite bind_some. rewrite IH; [done|]. intros y Hy. apply Ht. by right.
  - rewrite Ht by left. rewrite bind_some, IH; [done|]. intros y Hy. apply Ht. by right.
Qed.

Definition and_all (get : Bitmap → N) (first : Bitmap) (rest : list Bitmap) : N :=
  foldl (λ c bm, N.land c (get bm)) (get first) rest.

Lemma tb_and_all get first rest j :
  tb (and_all get first rest) j = forallb (λ bm, tb (get bm) j) (first :: rest).
Proof.
  unfold and_all. assert (∀ c, tb (foldl (λ c bm, N.land c (get bm)) c rest) j = tb c j && forallb (λ bm, tb (get bm) j) rest) as H.
  { induction rest as [|x rest IH]; intros c; cbn; [by rewrite andb_true_r|].
    by rewrite IH, tb_land, andb_assoc. }
  rewrite H. done.
Qed.

Lemma is_word_and_all get first rest : (∀ bm, bm ∈ first :: rest → is_word (get bm)) → is_word (and_all get first rest).
Proof.
  intros Hw. apply is_word_bits. intros j Hj. rewrite tb_and_all. cbn. rewrite tb_high; [done|apply Hw; left|done].
Qed.

Section intersect.
Context (first : Bitmap) (rest : list Bitmap).
Context (Hok : ∀ bm, bm ∈ first :: rest → Bitmap_ok bm).

Lemma MetaIntersects_runs :
  MetaIntersects (first :: rest) = Some (existsb (λ mi,
    negb (N.eqb (and_all (λ bm, wget (meta bm) mi) first rest) 0))
    (seq 0 (min_len (λ bm, slen (meta bm)) first rest))).
Proof.
  unfold MetaIntersects. apply search_runs. intros mi [_ Hmi]%elem_of_seq. cbn in Hmi.
  assert (∀ bm, bm ∈ first :: rest → slice_get (meta bm) mi = Some (wget (meta bm) mi)) as Hget.
  { intros bm Hin. pose proof (min_len_le (λ bm, slen (meta bm)) first rest bm Hin). apply slice_get_meta; auto; lia. }
  rewrite Hget by left. bsimp. unfold and_all.
  rewrite (foldM_foldl _ (λ c bm, N.land c (wget (meta bm) mi))), bind_some; [done|].
  intros c bm Hin. by rewrite Hget, bind_some by (by right).
Qed.

Lemma and_until_zero_runs w v l :
  (∀ bm, bm ∈ l → slice_get (words bm) w = Some (wget (words bm) w)) →
  runs (and_until_zero w v l) (λ v', v' = 0%N ↔ foldl (λ c bm, N.land c (wget (words bm) w)) v l = 0%N).
Proof.
  revert v. induction l as [|bm l IH]; intros v Hget; cbn [and_until_zero foldl]; [by rret|].
  rewrite Hget by left. bsimp. destruct (N.eqb_spec (N.land v (wget (words bm) w)) 0) as [->|E].
  - rret. split; [intros _|done]. clear. induction l as [|x l IH]; cbn; [done|]. exact IH.
  - apply IH. intros x Hx. apply Hget. by right.
Qed.

Lemma and_all_words_spec w :
  and_all (λ bm, wget (words bm) w) first rest ≠ 0%N ↔
  ∃ j, j < 64 ∧ ∀ bm, bm ∈ first :: rest → tb (wget (words bm) w) j = true.
Proof.
  rewrite word_nonzero by (apply is_word_and_all; intros bm Hin; by apply ok_word, Hok).
  setoid_rewrite tb_and_all. by setoid_rewrite forallb_elem_of.
Qed.

Lemma common_word_bounds w j :
  j < 64 → (∀ bm, bm ∈ first :: rest → tb (wget (words bm) w) j = true) →
  w < min_len Bitmap_WordsLen first rest ∧
  existsb (λ mi, negb (N.eqb (and_all (λ bm, wget (meta bm) mi) first rest) 0))
    (seq 0 (min_len (λ bm, slen (meta bm)) first rest)) = true.
Proof.
  intros Hj Hall.
  assert (∀ bm, bm ∈ first :: rest → wget (words bm) w ≠ 0%N) as Hnz.
  { intros bm Hin E. specialize (Hall bm Hin). by rewrite E, tb_0 in Hall. }
  assert (∀ bm, bm ∈ first :: rest → w < slen (words bm)) as Hlen.
  { intros bm Hin. destruct (decide (w < slen (words bm))); [done|].
    exfalso. apply (Hnz bm Hin). apply (ok_tail bm); auto; lia. }
  split.
  - destruct (min_len_attained Bitmap_WordsLen first rest) as (bm & Hin & ->). by apply Hlen.
  - apply existsb_elem_of. exists (w / 64). split.
    + apply elem_of_seq. split; [lia|].
      destruct (min_len_attained (λ bm, slen (meta bm)) first rest) as (bm & Hin & ->).
      rewrite (ok_len bm) by auto. apply meta_len_bound. auto.
    + apply negb_true_iff, N.eqb_neq, word_nonzero.
      { apply is_word_and_all. intros bm Hin. by apply ok_mword, Hok. }
      exists (w mod 64). split; [auto with cerbos|]. rewrite tb_and_all. apply forallb_elem_of.
      intros bm Hin. rewrite ok_bits by auto. apply bool_decide_eq_true. auto.
Qed.

Lemma intersectionNonEmpty_runs :
  runs (intersectionNonEmpty (first :: rest))
    (λ r, r = true ↔ ∃ id, ∀ bm, bm ∈ first :: rest → bm_mem bm id = true).
Proof.
  unfold intersectionNonEmpty. rewrite MetaIntersects_runs. bsimp.
  assert ((∃ id, ∀ bm, bm ∈ first :: rest → bm_mem bm id = true) ↔
          ∃ w j, j < 64 ∧ ∀ bm, bm ∈ first :: rest → tb (wget (words bm) w) j = true) as Hex.
  { split.
    - intros (id & Hid). exists (word_of id), (bit_of id). auto with cerbos.
    - intros (w & j & Hj & Hall). exists (N.of_nat (w * 64 + j)). intros bm Hin.
      unfold bm_mem. rewrite word_of_join, bit_of_join by done. auto. }
  match goal with |- runs (if negb ?m then _ else _) _ => destruct m eqn:Em end; cbn [negb].
  - set (test := λ w, negb (N.eqb (and_all (λ bm, wget (words bm) w) first rest) 0)).
    rewrite (search_runs _ _ test).
    + rret. rewrite Hex, existsb_elem_of. unfold test. setoid_rewrite negb_true_iff. setoid_rewrite N.eqb_neq.
      setoid_rewrite and_all_words_spec. setoid_rewrite elem_of_seq. split; [naive_solver|].
      intros (w & j & Hj & Hall). exists w. split; [|eauto].
      destruct (common_word_bounds w j Hj Hall). lia.
    + intros w [_ Hw]%elem_of_seq. cbn in Hw.
      assert (∀ bm, bm ∈ first :: rest → slice_get (words bm) w = Some (wget (words bm) w)) as Hget.
      { intros bm Hin. pose proof (min_len_le Bitmap_WordsLen first rest bm Hin) as Hle.
        change (Bitmap_WordsLen bm) with (slen (words bm)) in Hle.
        apply slice_get_word; auto; lia. }
      rewrite Hget by left. bsimp.
      destruct (and_until_zero_runs w (wget (words first) w) rest) as (v & -> & Hv).
      { intros bm Hin. apply Hget. by right. }
      bsimp. unfold test, and_all. f_equal. f_equal.
      destruct (N.eqb_spec v 0) as [E|E], (N.eqb_spec (foldl (λ c bm, N.land c (wget (words bm) w)) (wget (words first) w) rest) 0); tauto.
  - rret. rewrite Hex. split; [done|]. intros (w & j & Hj & Hall).
    destruct (common_word_bounds w j Hj Hall) as [_ E]. congruence.
Qed.
End intersect.

(** ** Storage management *)

Lemma shrink_slice_runs s :
  slice_ok s → (∀ i, slen s ≤ i → wget s i = 0%N) →
  runs (shrink_slice s) (λ s', slen s' = slen s ∧ slice_cap s' = slen s ∧ ∀ i, wget s' i = wget s i).
Proof.
  intros Hok Htail. unfold shrink_slice. unfold slice_ok in Hok. case_decide; [|rret; split_and!; lia || done].
  unfold slice_make. rewrite decide_True by lia. bsimp. rret. unfold slice_cap, slice_copy in *; cbn.
  rewrite Nat.min_id. split_and!; [done|rewrite length_app, length_take, length_drop, length_replicate; lia|].
  intros i. rewrite drop_ge, app_nil_r by (rewrite length_replicate; lia). unfold wget in *; cbn.
  destruct (decide (i < slen s)); [by rewrite lookup_take_lt|].
  rewrite lookup_take_ge by lia. symmetry. apply Htail. lia.
Qed.

Lemma shrinkToFit_runs b :
  Bitmap_ok b →
  runs (Bitmap_shrinkToFit b) (λ b', Bitmap_ok b' ∧ slice_cap (words b') = slen (words b) ∧
    ∀ id, bm_mem b' id = bm_mem b id).
Proof.
  intros Hb. unfold Bitmap_shrinkToFit.
  eapply runs_bind; [apply shrink_slice_runs; [auto with cerbos|apply (ok_tail b Hb)]|]. intros ws (E1 & E2 & Hw).
  eapply runs_bind; [apply shrink_slice_runs; [auto with cerbos|apply (ok_meta_tail b Hb)]|]. intros ms (F1 & F2 & Hm).
  rret. split_and!; [|done|intros id; unfold bm_mem; cbn; by rewrite Hw].
  pose proof (ok_len b Hb). eapply (ok_regrow b); cbn; auto; unfold slice_ok; rewrite ?E1, ?E2, ?F1, ?F2; try lia.
  apply Hb.
Qed.

(** Clearing leaves an empty bitmap whose spare storage is all zero, so the next
    [ensure] may reslice into it. *)
Lemma Clear_runs b :
  Bitmap_ok b →
  runs (Bitmap_Clear b) (λ b', Bitmap_ok b' ∧ slice_cap (words b') = slice_cap (words b) ∧ ∀ id, bm_mem b' id = false).
Proof.
  intros Hb. unfold Bitmap_Clear.
  assert (∀ s, slice_ok s → (∀ i, slen s ≤ i → wget s i = 0%N) →
    slice_upto (slice_clear 0%N s) 0 = Some (Slice (arr (slice_clear 0%N s)) 0) ∧
    slice_cap (slice_clear 0%N s) = slice_cap s ∧ ∀ i n, wget (Slice (arr (slice_clear 0%N s)) n) i = 0%N) as Hc.
  { intros s Hok Htail. unfold slice_ok, slice_cap, slice_upto, slice_clear in *; cbn.
    split_and!; [by rewrite decide_True by lia|rewrite length_app, length_replicate, length_drop; lia|].
    intros i n. unfold wget in *; cbn. destruct (decide (i < slen s)).
    - rewrite lookup_app_l by (rewrite length_replicate; lia). by rewrite lookup_replicate_2.
    - rewrite lookup_app_r, length_replicate, lookup_drop by (rewrite length_replicate; lia).
      replace (slen s + (i - slen s)) with i by lia. apply Htail. lia. }
  destruct (Hc (words b)) as (-> & Ecw & Hw); [auto with cerbos|apply (ok_tail b Hb)|].
  destruct (Hc (meta b)) as (-> & Ecm & Hm); [auto with cerbos|apply (ok_meta_tail b Hb)|].
  bsimp. rret. split_and!; [|exact Ecw|intros id; unfold bm_mem; cbn [words]; rewrite Hw; apply tb_0].
  pose proof (ok_cap b Hb). unfold slice_cap in *.
  split; unfold slice_ok, slice_cap; cbn [words meta slen arr]; rewrite ?Ecw, ?Ecm; try done; try lia.
  - intros i. rewrite Hw. apply is_word_0.
  - intros i. rewrite Hm. apply is_word_0.
  - intros i. rewrite Hw, Hm, tb_0. symmetry. apply bool_decide_eq_false. tauto.
Qed.
