(* ===== verification/BitmapIter.v ===== *)
(** Iteration over the bitset in ascending order ([BitmapIterator]): the ids
    collected are those of the set, sorted and without repetition. *)
From S2P Require Import Prelude GoRuntime Bitmap BitmapOps.

Open Scope nat_scope.

(** ** Iteration in ascending order *)

Definition ids_of_word (i : nat) (w : N) : list N := (λ j, N.of_nat (i * 64 + j)) <$> bits_of w.

(** The identifiers of a bitmap in ascending order, read off the words. *)
Definition bm_ids (b : Bitmap) : list N :=
  seq 0 (slen (words b)) ≫= λ i, ids_of_word i (wget (words b) i).

Lemma bits_of_0 : bits_of 0 = [].
Proof. unfold bits_of. apply filter_seq_none. intros j _. by rewrite tb_0. Qed.

Lemma bits_of_cons m :
  is_word m → m ≠ 0%N →
  bits_of m = TrailingZeros64 m :: bits_of (N.ldiff m (bit (TrailingZeros64 m))).
Proof.
  intros Hm Hz. destruct (ctz_spec m Hz) as [Hb Hbl]. pose proof (ctz_lt m Hm Hz) as Hlt.
  set (j := TrailingZeros64 m) in *. unfold bits_of.
  replace 64 with (j + S (63 - j)) by lia. rewrite seq_app, !filter_app. cbn [seq].
  rewrite !filter_seq_none, filter_cons_True, filter_cons_False; cbn [app Nat.add].
  - f_equal. apply filter_iff_in. intros i Hi%elem_of_seq.
    rewrite tb_ldiff, tb_bit, bool_decide_false, andb_true_r by lia. done.
  - rewrite tb_ldiff, tb_bit, bool_decide_true, andb_false_r by lia. done.
  - done.
  - intros i Hi. rewrite tb_ldiff, Hbl by lia. done.
  - intros i Hi. rewrite Hbl by lia. done.
Qed.

Lemma elem_of_ids_of_word i w id :
  is_word w → id ∈ ids_of_word i w ↔ word_of id = i ∧ tb w (bit_of id) = true.
Proof.
  intros Hw. unfold ids_of_word. rewrite list_elem_of_fmap. split.
  - intros (j & -> & Hj). pose proof (elem_of_bits_of_lt _ _ Hj). rewrite elem_of_bits_of in Hj by done.
    by rewrite word_of_join, bit_of_join.
  - intros [<- Ht]. exists (bit_of id). rewrite elem_of_bits_of, <-id_split by done. done.
Qed.

Lemma elem_of_bm_ids b id : Bitmap_ok b → id ∈ bm_ids b ↔ bm_mem b id = true.
Proof.
  intros Hb. unfold bm_ids. rewrite list_elem_of_bind. split.
  - intros (i & Hid & Hi). rewrite elem_of_ids_of_word in Hid by auto with cerbos. destruct Hid as [<- Ht]. done.
  - intros Hm. exists (word_of id). rewrite elem_of_ids_of_word, elem_of_seq by auto with cerbos.
    split; [done|]. destruct (decide (word_of id < slen (words b))); [lia|].
    by rewrite bm_mem_tail in Hm by (done || lia).
Qed.

Lemma seq_sorted i n : StronglySorted lt (seq i n).
Proof.
  revert i. induction n as [|n IH]; intros i; cbn; [constructor|]. constructor; [done|].
  apply Forall_forall. intros j Hj%elem_of_seq. lia.
Qed.

Lemma StronglySorted_filter_nat (P : nat → Prop) `{∀ x, Decision (P x)} l :
  StronglySorted lt l → StronglySorted lt (filter P l).
Proof.
  induction 1 as [|x l Hl IH Hx]; [constructor|]. rewrite filter_cons. case_decide; [|done].
  constructor; [done|]. rewrite Forall_forall in Hx. apply Forall_forall. intros y [_ Hy]%list_elem_of_filter. by apply Hx.
Qed.

Lemma StronglySorted_fmap_lt (f : nat → N) l :
  (∀ i j, i < j → (f i < f j)%N) → StronglySorted lt l → StronglySorted N.lt (f <$> l).
Proof.
  intros Hf. induction 1 as [|x l Hl IH Hx]; cbn; [constructor|]. constructor; [done|].
  rewrite Forall_forall in Hx. apply Forall_forall. intros y (z & -> & Hz)%list_elem_of_fmap. apply Hf. by apply Hx.
Qed.

Lemma StronglySorted_app_N (l k : list N) :
  StronglySorted N.lt l → StronglySorted N.lt k → (∀ x y, x ∈ l → y ∈ k → (x < y)%N) →
  StronglySorted N.lt (l ++ k).
Proof.
  induction 1 as [|x l Hl IH Hx]; intros Hk Hlk; [done|]. cbn. constructor.
  - apply IH; [done|]. intros y z Hy. apply Hlk. by right.
  - rewrite Forall_forall in Hx. apply Forall_forall. intros y [Hy|Hy]%elem_of_app; [auto|]. apply Hlk; [left|done].
Qed.

Lemma ids_of_word_sorted i w : StronglySorted N.lt (ids_of_word i w).
Proof.
  apply StronglySorted_fmap_lt; [lia|]. apply StronglySorted_filter_nat, seq_sorted.
Qed.

Lemma bm_ids_sorted b : Bitmap_ok b → StronglySorted N.lt (bm_ids b).
Proof.
  intros Hb. unfold bm_ids. generalize (slen (words b)). intros n.
  assert (∀ i, StronglySorted N.lt (seq i n ≫= λ i, ids_of_word i (wget (words b) i))) as H; [|apply H].
  induction n as [|n IH]; intros i; cbn [seq]; [constructor|]. rewrite bind_cons.
  apply StronglySorted_app_N; [apply ids_of_word_sorted|apply IH|].
  intros x y Hx (k & Hy & Hk%elem_of_seq)%list_elem_of_bind.
  rewrite elem_of_ids_of_word in Hx, Hy by auto with cerbos. destruct Hx as [Hx _], Hy as [Hy _].
  rewrite (id_split x), (id_split y), Hx, Hy. pose proof (bit_of_lt x). lia.
Qed.

(** A strictly ascending list is determined by its elements. *)
Lemma StronglySorted_lt_unique (l k : list N) :
  StronglySorted N.lt l → StronglySorted N.lt k → (∀ x, x ∈ l ↔ x ∈ k) → l = k.
Proof.
  intros Hl. revert k. induction Hl as [|x l Hl IH Hx]; intros k Hk Hlk.
  - destruct k as [|y k]; [done|]. exfalso. apply (not_elem_of_nil y), Hlk. left.
  - destruct Hk as [|y k Hk Hy]. { exfalso. apply (not_elem_of_nil x), Hlk. left. }
    rewrite Forall_forall in Hx, Hy. assert (x = y) as ->.
    { assert (x ∈ y :: k) as [->|Hxk]%elem_of_cons by (apply Hlk; left); [done|].
      assert (y ∈ x :: l) as [->|Hyl]%elem_of_cons by (apply Hlk; left); [done|].
      specialize (Hx _ Hyl). specialize (Hy _ Hxk). lia. }
    f_equal. apply IH; [done|]. intros z. split; intros Hz.
    + assert (z ∈ y :: k) as [->|]%elem_of_cons by (apply Hlk; by right); [|done]. specialize (Hx _ Hz). lia.
    + assert (z ∈ y :: l) as [->|]%elem_of_cons by (apply Hlk; by right); [|done]. specialize (Hy _ Hz). lia.
Qed.

(** Two bitmaps with the same members list the same identifiers. *)
Lemma bm_ids_ext b b' :
  Bitmap_ok b → Bitmap_ok b' → (∀ id, bm_mem b id = bm_mem b' id) → bm_ids b = bm_ids b'.
Proof.
  intros Hb Hb' Hm. apply StronglySorted_lt_unique; [by apply bm_ids_sorted..|].
  intros id. by rewrite !elem_of_bm_ids, Hm.
Qed.

Section iterator.
Context (b : Bitmap) (Hb : Bitmap_ok b).
Implicit Types (it : BitmapIterator).

(** The identifiers still to come: the rest of the current word, of the
    current group, and of the groups after it. *)
Definition group_ids (mi : nat) (m : N) : list N :=
  bits_of m ≫= λ j, ids_of_word (mi * 64 + j) (wget (words b) (mi * 64 + j)).
Definition rest_ids (mi : nat) : list N :=
  seq mi (slen (meta b) - mi) ≫= λ k, group_ids k (wget (meta b) k).
Definition rem_ids it : list N :=
  ids_of_word (it_wordIdx it) (it_word it) ++ group_ids (it_metaIdx it) (it_metaW it) ++ rest_ids (it_metaIdx it + 1).

Record iter_ok it : Prop := {
  iok_word : is_word (it_word it);
  iok_meta : is_word (it_metaW it);
  iok_sub : ∀ j, tb (it_metaW it) j = true → tb (wget (meta b) (it_metaIdx it)) j = true;
  iok_idx : it_word it ≠ 0%N → it_wordIdx it < slen (words b);
  iok_end : it_word it = 0%N → rem_ids it = [];
}.

Lemma ids_of_word_0 i : ids_of_word i 0 = [].
Proof. unfold ids_of_word. by rewrite bits_of_0. Qed.

Lemma group_ids_0 mi : group_ids mi 0 = [].
Proof. unfold group_ids. by rewrite bits_of_0. Qed.

Lemma rest_ids_end mi : slen (meta b) ≤ mi → rest_ids mi = [].
Proof. intros Hmi. unfold rest_ids. by replace (slen (meta b) - mi) with 0 by lia. Qed.

Lemma rest_ids_step mi : mi < slen (meta b) → rest_ids mi = group_ids mi (wget (meta b) mi) ++ rest_ids (mi + 1).
Proof.
  intros Hmi. unfold rest_ids. replace (slen (meta b) - mi) with (S (slen (meta b) - (mi + 1))) by lia.
  cbn [seq]. rewrite bind_cons. by rewrite Nat.add_1_r.
Qed.

Lemma group_ids_step mi m :
  is_word m → m ≠ 0%N →
  group_ids mi m = ids_of_word (mi * 64 + TrailingZeros64 m) (wget (words b) (mi * 64 + TrailingZeros64 m))
    ++ group_ids mi (N.ldiff m (bit (TrailingZeros64 m))).
Proof. intros Hm Hz. unfold group_ids. rewrite (bits_of_cons m) at 1 by done. by rewrite bind_cons. Qed.

Lemma nextWord_loop_runs fuel it :
  is_word (it_metaW it) → (∀ j, tb (it_metaW it) j = true → tb (wget (meta b) (it_metaIdx it)) j = true) →
  length (bits_of (it_metaW it)) + 65 * (slen (meta b) - it_metaIdx it) < fuel →
  runs (nextWord_loop fuel b it) (λ it', iter_ok it' ∧
    rem_ids it' = group_ids (it_metaIdx it) (it_metaW it) ++ rest_ids (it_metaIdx it + 1)).
Proof.
  revert it. induction fuel as [|fuel IH]; intros it Hw Hsub Hfuel; [lia|]. cbn [nextWord_loop].
  destruct (N.eqb_spec (it_metaW it) 0) as [Ez|Ez]; cbn [negb].
  - rewrite Ez, group_ids_0. cbn [app]. case_decide as Hend.
    + rret. assert (rest_ids (it_metaIdx it + 1) = []) as Er by (apply rest_ids_end; lia).
      assert (rem_ids (MkIter (it_metaIdx it + 1) 0 0 (it_wordIdx it)) = []) as Erem.
      { unfold rem_ids; cbn [it_word it_wordIdx it_metaW it_metaIdx].
        by rewrite ids_of_word_0, group_ids_0, rest_ids_end by lia. }
      rewrite Er. split; [|done]. split; cbn [it_word it_metaW it_metaIdx]; auto with cerbos.
      * intros j. by rewrite tb_0. * done.
    + rewrite slice_get_meta by (done || lia). bsimp.
      eapply runs_mono; [apply IH; cbn [it_metaW it_metaIdx]; auto with cerbos|].
      * unfold bits_of at 1. pose proof (length_filter (λ j, tb (wget (meta b) (it_metaIdx it + 1)) j = true) (seq 0 64)) as Hlen.
        rewrite length_seq in Hlen. rewrite Ez, bits_of_0 in Hfuel. cbn [length] in Hfuel. lia.
      * cbn [it_metaW it_metaIdx]. intros it' [Hok' ->]. split; [done|].
        symmetry. apply rest_ids_step. lia.
  - set (j := TrailingZeros64 (it_metaW it)). set (i := it_metaIdx it * 64 + j).
    destruct (ctz_spec _ Ez) as [Hj _]. pose proof (ctz_lt _ Hw Ez) as Hj64. fold j in Hj, Hj64.
    apply Hsub in Hj as Hjm. pose proof (meta_group_bound b Hb _ _ Hj64 Hjm) as Hi.
    rewrite slice_get_word by done. bsimp. rewrite group_ids_step by done. fold j i.
    assert (wget (words b) i ≠ 0%N) as Hnz.
    { rewrite ok_bits_at in Hjm by done. by apply bool_decide_eq_true in Hjm. }
    destruct (N.eqb_spec (wget (words b) i) 0) as [|_]; [done|]. cbn [negb]. rret.
    rewrite <-app_assoc. split; [|done]. split; cbn [it_word it_metaW it_metaIdx it_wordIdx]; auto with cerbos; [|done].
    intros k. rewrite tb_ldiff. intros [Hk _]%andb_true_iff. auto.
Qed.

Lemma nextWord_runs it :
  is_word (it_metaW it) → (∀ j, tb (it_metaW it) j = true → tb (wget (meta b) (it_metaIdx it)) j = true) →
  runs (BitmapIterator_nextWord b it) (λ it', iter_ok it' ∧
    rem_ids it' = group_ids (it_metaIdx it) (it_metaW it) ++ rest_ids (it_metaIdx it + 1)).
Proof.
  intros Hw Hsub. apply nextWord_loop_runs; [done..|].
  pose proof (length_filter (λ j, tb (it_metaW it) j = true) (seq 0 64)) as Hlen. rewrite length_seq in Hlen.
  fold (bits_of (it_metaW it)) in Hlen. lia.
Qed.

Lemma advance_loop_runs fuel it :
  it_word it = 0%N → it_metaW it = 0%N → slen (meta b) - it_metaIdx it < fuel →
  runs (advance_loop fuel b it) (λ it', iter_ok it' ∧ rem_ids it' = rest_ids (it_metaIdx it)).
Proof.
  revert it. induction fuel as [|fuel IH]; intros it Hw Hm Hfuel; [lia|]. cbn [advance_loop].
  case_decide as Hlt.
  - rewrite slice_get_meta by done. bsimp. rewrite (rest_ids_step _ Hlt).
    destruct (N.eqb_spec (wget (meta b) (it_metaIdx it)) 0) as [Ez|Ez]; cbn [negb].
    + rewrite Ez, group_ids_0. apply (IH (MkIter (it_metaIdx it + 1) _ _ _)); cbn [it_word it_metaW it_metaIdx]; done || lia.
    + eapply runs_mono; [apply nextWord_runs; cbn [it_metaW it_metaIdx]; auto with cerbos|].
      cbn [it_metaW it_metaIdx]. done.
  - rret. rewrite (rest_ids_end (it_metaIdx it)) by lia.
    assert (rem_ids (MkIter (it_metaIdx it) (it_metaW it) 0 (it_wordIdx it)) = []) as Erem.
    { unfold rem_ids; cbn [it_word it_wordIdx it_metaW it_metaIdx].
      by rewrite ids_of_word_0, Hm, group_ids_0, rest_ids_end by lia. }
    split; [|done]. rewrite Hm in *. split; cbn [it_word it_metaW it_metaIdx]; auto with cerbos; [intros j; by rewrite tb_0|done].
Qed.

Lemma ids_of_word_step i w :
  is_word w → w ≠ 0%N →
  ids_of_word i w = N.of_nat (i * 64 + TrailingZeros64 w) :: ids_of_word i (N.ldiff w (bit (TrailingZeros64 w))).
Proof. intros Hw Hz. unfold ids_of_word. rewrite (bits_of_cons w) at 1 by done. done. Qed.

(** [Next] returns the first of the remaining identifiers. *)
Lemma Next_runs it :
  iter_ok it → BitmapIterator_HasNext it = true →
  runs (BitmapIterator_Next b it) (λ '(id, it'), iter_ok it' ∧ rem_ids it = id :: rem_ids it').
Proof.
  intros Hit Hn%negb_true_iff%N.eqb_neq. unfold BitmapIterator_Next.
  pose proof (iok_word it Hit) as Hw. pose proof (ctz_lt _ Hw Hn) as Hj. pose proof (iok_idx it Hit Hn) as Hi.
  pose proof (ok_max b Hb) as Hmax.
  rewrite (N.mod_small (N.of_nat _)) by (change (2 ^ 32)%N with (64 * 2 ^ 26)%N; lia).
  unfold rem_ids at 1. rewrite (ids_of_word_step _ _ Hw Hn).
  set (w := N.ldiff (it_word it) (bit (TrailingZeros64 (it_word it)))).
  destruct (N.eqb_spec w 0) as [Ez|Ez].
  - eapply runs_bind; [apply nextWord_runs; cbn [it_metaW it_metaIdx]; apply Hit|].
    intros it' [Hok' Hrem]. rret. split; [done|]. rewrite Hrem, Ez, ids_of_word_0. done.
  - rret. split; [|done]. split; cbn [it_word it_metaW it_metaIdx it_wordIdx]; try apply Hit; [|done..].
    apply is_word_ldiff, Hw.
Qed.

Lemma collect_runs fuel it :
  iter_ok it → length (rem_ids it) ≤ fuel → collect fuel b it = Some (rem_ids it).
Proof.
  revert it. induction fuel as [|fuel IH]; intros it Hit Hlen; cbn [collect];
    destruct (BitmapIterator_HasNext it) eqn:En.
  - destruct (Next_runs it Hit En) as ([id it'] & _ & _ & E). rewrite E in Hlen. cbn [length] in Hlen. lia.
  - rewrite (iok_end it Hit); [done|]. by apply negb_false_iff, N.eqb_eq in En.
  - destruct (Next_runs it Hit En) as ([id it'] & -> & Hit' & E). bsimp. rewrite E in *. cbn [length] in Hlen.
    rewrite IH by (done || lia). done.
  - rewrite (iok_end it Hit); [done|]. by apply negb_false_iff, N.eqb_eq in En.
Qed.
End iterator.

(** Grouping the words by meta word does not change the list of identifiers. *)
Lemma rest_ids_all b : Bitmap_ok b → rest_ids b 0 = bm_ids b.
Proof.
  intros Hb. assert (∀ id mi, id ∈ group_ids b mi (wget (meta b) mi) ↔ word_of id / 64 = mi ∧ bm_mem b id = true) as Hg.
  { intros id mi. unfold group_ids. rewrite list_elem_of_bind. split.
    - intros (j & Hid & Hj). pose proof (elem_of_bits_of_lt _ _ Hj).
      rewrite elem_of_ids_of_word in Hid by auto with cerbos. destruct Hid as [Hw Ht].
      unfold bm_mem. by rewrite Hw, join_div.
    - intros [Hmi Hm]. exists (word_of id mod 64). rewrite elem_of_ids_of_word, elem_of_bits_of by auto with cerbos.
      rewrite <-Hmi, <-join_inv. split_and!; [done|done|]. rewrite ok_bits by done. apply bool_decide_eq_true.
      intros E. unfold bm_mem in Hm. by rewrite E, tb_0 in Hm. }
  apply StronglySorted_lt_unique; [|by apply bm_ids_sorted|].
  - unfold rest_ids. rewrite Nat.sub_0_r. generalize (slen (meta b)). intros n.
    assert (∀ i, StronglySorted N.lt (seq i n ≫= λ k, group_ids b k (wget (meta b) k))) as H; [|apply H].
    induction n as [|n IH]; intros i; cbn [seq]; [constructor|]. rewrite bind_cons.
    apply StronglySorted_app_N; [|apply IH|].
    + unfold group_ids. assert (StronglySorted lt (bits_of (wget (meta b) i))) as Hs by apply StronglySorted_filter_nat, seq_sorted.
      induction Hs as [|j l Hl IHl Hj]; [constructor|]. rewrite bind_cons.
      apply StronglySorted_app_N; [apply ids_of_word_sorted|done|].
      intros x y Hx (k & Hy & Hk)%list_elem_of_bind. rewrite Forall_forall in Hj. specialize (Hj _ Hk).
      rewrite elem_of_ids_of_word in Hx, Hy by auto with cerbos. destruct Hx as [Hx _], Hy as [Hy _].
      rewrite (id_split x), (id_split y), Hx, Hy. pose proof (bit_of_lt x). lia.
    + intros x y [Hx _]%Hg (k & [Hy _]%Hg & Hk%elem_of_seq)%list_elem_of_bind.
      rewrite (id_split x), (id_split y). pose proof (bit_of_lt x). pose proof (join_inv (word_of x)).
      pose proof (join_inv (word_of y)). pose proof (mod64_lt (word_of x)). nia.
  - intros id. rewrite elem_of_bm_ids by done. unfold rest_ids. rewrite list_elem_of_bind. setoid_rewrite Hg.
    split; [by intros (k & [_ ?] & _)|]. intros Hm. exists (word_of id / 64). split; [done|]. apply elem_of_seq.
    rewrite (ok_len b Hb). destruct (decide (word_of id < slen (words b))) as [Hlt|].
    + apply meta_len_bound in Hlt. lia. + by rewrite bm_mem_tail in Hm by (done || lia).
Qed.

Lemma length_bm_ids_le b : length (bm_ids b) ≤ 64 * slen (words b).
Proof.
  unfold bm_ids. generalize 0 at 1. induction (slen (words b)) as [|n IH]; intros i; cbn [seq]; [done|].
  rewrite bind_cons, length_app. specialize (IH (S i)). unfold ids_of_word at 1. rewrite length_fmap.
  pose proof (length_filter (λ j, tb (wget (words b) i) j = true) (seq 0 64)) as Hl. rewrite length_seq in Hl.
  fold (bits_of (wget (words b) i)) in Hl. lia.
Qed.

Lemma ids_runs b : Bitmap_ok b → Bitmap_ids b = Some (bm_ids b).
Proof.
  intros Hb. unfold Bitmap_ids, Bitmap_Iterator, BitmapIterator_advance.
  destruct (advance_loop_runs b Hb (slen (meta b) + 1) (MkIter 0 0 0 0)) as (it & -> & Hit & Hrem);
    [done|done|cbn; lia|]. bsimp. cbn [it_metaIdx] in Hrem. rewrite rest_ids_all in Hrem by done.
  rewrite (collect_runs b Hb); [by rewrite Hrem|done|]. rewrite Hrem. apply length_bm_ids_le.
Qed.

(** * Cardinality and encoding

    Cardinality of the bitset ([GetCardinality]) and its binary encoding
    ([MarshalBinary], [UnmarshalBinary]) of
    [src/internal/ruletable/index/bitmap.go]. *)

(** ** Cardinality *)

Lemma group_count b mi (l : list nat) n :
  Bitmap_ok b → (∀ j, j ∈ l → mi * 64 + j < slen (words b)) →
  foldM (λ n j, w ← slice_get (words b) (mi * 64 + j); Some (n + OnesCount64 w)%N) n l =
  Some (n + N.of_nat (length (l ≫= λ j, ids_of_word (mi * 64 + j) (wget (words b) (mi * 64 + j)))))%N.
Proof.
  intros Hb. revert n. induction l as [|j l IH]; intros n Hl; cbn [foldM].
  { cbn. f_equal. lia. }
  rewrite slice_get_word by (done || (apply Hl; left)). bsimp.
  rewrite IH by (intros k Hk; apply Hl; by right). rewrite bind_cons, length_app.
  unfold ids_of_word at 2. rewrite length_fmap, OnesCount64_bits_of by auto with cerbos. f_equal. lia.
Qed.

Lemma GetCardinality_runs b : Bitmap_ok b → Bitmap_GetCardinality b = Some (N.of_nat (length (bm_ids b))).
Proof.
  intros Hb. rewrite <-rest_ids_all by done. unfold Bitmap_GetCardinality, rest_ids. rewrite Nat.sub_0_r.
  edestruct (foldM_seq_rule (λ k n, n = N.of_nat (length (seq 0 k ≫= λ k, group_ids b k (wget (meta b) k)))))
    as (n & E & Hn); [| |rewrite Hn in E; exact E]; [done|].
  intros i n Hi ->. rewrite slice_get_meta by done. bsimp. rewrite for_bits_foldM by auto with cerbos.
  rewrite group_count; [|done|].
  - rret. rewrite seq_S, bind_app, length_app, bind_cons, app_nil_r. unfold group_ids. cbn [Nat.add]. lia.
  - intros j Hj. pose proof (elem_of_bits_of_lt _ _ Hj). rewrite elem_of_bits_of in Hj by auto with cerbos.
    by eapply meta_group_bound.
Qed.

(** ** Encoding *)

Lemma length_put_words (ws : list N) : length (ws ≫= PutUint64) = length ws * wordSize.
Proof.
  induction ws as [|w ws IH]; [done|]. rewrite bind_cons, length_app, IH.
  unfold PutUint64. rewrite length_le_bytes. cbn [length]. unfold wordSize. lia.
Qed.

Lemma read_words_put (ws pre post : list N) (off : nat) :
  Forall is_word ws → off = length pre →
  read_words (pre ++ (ws ≫= PutUint64) ++ post) off (length ws) = Some ws.
Proof.
  revert pre off. induction ws as [|w ws IH]; intros pre off Hws ->; [done|].
  apply Forall_cons in Hws as [Hw Hws]. cbn [length read_words]. rewrite drop_app_length, bind_cons, <-app_assoc.
  rewrite Uint64_Put by done. bsimp. rewrite (app_assoc pre), IH; [done|done|].
  rewrite length_app. unfold PutUint64. by rewrite length_le_bytes.
Qed.

Lemma length_slice_elems {A} (s : slice A) : slice_ok s → length (slice_elems s) = slen s.
Proof. intros Hs. unfold slice_elems. rewrite length_take. unfold slice_ok, slice_cap in Hs. lia. Qed.

Lemma slice_elems_words s : slice_ok s → (∀ i, is_word (wget s i)) → Forall is_word (slice_elems s).
Proof. intros Hs Hw. apply Forall_forall. intros w (i & _ & ->)%elem_of_slice_elems; [|done]. apply Hw. Qed.

Lemma wget_slice_of (s : slice N) i :
  slice_ok s → wget (slice_of (slice_elems s)) i = if decide (i < slen s) then wget s i else 0%N.
Proof.
  intros Hs. unfold wget, slice_of, slice_elems; cbn [arr]. case_decide.
  - by rewrite lookup_take_lt. - by rewrite lookup_take_ge by lia.
Qed.

Definition trim (b : Bitmap) : Bitmap := MkBitmap (slice_of (slice_elems (words b))) (slice_of (slice_elems (meta b))).

(** Decoding what was encoded gives the bitmap back, without its spare
    capacity; whatever follows the encoding is left unread. *)
Lemma Unmarshal_Marshal b rest :
  Bitmap_ok b →
  Bitmap_UnmarshalBinary (Bitmap_MarshalBinary b ++ rest) =
    Some (Some (length (Bitmap_MarshalBinary b), trim b)).
Proof.
  intros Hb. pose proof (ok_max b Hb) as Hmax. pose proof (ok_words b Hb) as Hw. pose proof (ok_meta b Hb) as Hm.
  pose proof (ok_len b Hb) as Hlen.
  assert (length (Bitmap_MarshalBinary b) = wordLenSize + slen (words b) * wordSize + slen (meta b) * wordSize) as El.
  { unfold Bitmap_MarshalBinary. rewrite !length_app, !length_put_words, !length_slice_elems by done.
    unfold PutUint32. rewrite length_le_bytes. unfold wordLenSize. lia. }
  set (wsb := slice_elems (words b) ≫= PutUint64). set (msb := slice_elems (meta b) ≫= PutUint64).
  set (hd := PutUint32 (N.of_nat (slen (words b)))).
  assert (Bitmap_MarshalBinary b ++ rest = hd ++ wsb ++ msb ++ rest) as Ebuf.
  { unfold Bitmap_MarshalBinary. rewrite (N.mod_small (N.of_nat _)) by lia. by rewrite <-!app_assoc. }
  assert (length hd = wordLenSize) as Ehd by (unfold hd, PutUint32; apply length_le_bytes).
  assert (length (Bitmap_MarshalBinary b ++ rest) = wordLenSize + slen (words b) * wordSize + slen (meta b) * wordSize + length rest)
    as Elen by by rewrite length_app, El.
  unfold Bitmap_UnmarshalBinary. rewrite decide_False by lia. rewrite Ebuf at 1. unfold hd at 1.
  rewrite Uint32_Put by lia. bsimp. rewrite Nat2N.id, <-Hlen, decide_False by lia. rewrite Ebuf, El.
  pose proof (read_words_put (slice_elems (words b)) hd (msb ++ rest) wordLenSize) as Rw.
  pose proof (read_words_put (slice_elems (meta b)) (hd ++ wsb) rest (wordLenSize + slen (words b) * wordSize)) as Rm.
  rewrite <-app_assoc in Rm. rewrite length_slice_elems in Rw, Rm by done.
  fold wsb in Rw. fold msb in Rm. rewrite Rw by (done || (apply slice_elems_words; auto with cerbos)). bsimp.
  rewrite Rm; [done|by apply slice_elems_words; auto with cerbos|].
  unfold wsb. by rewrite length_app, Ehd, length_put_words, length_slice_elems.
Qed.

Lemma trim_ok b : Bitmap_ok b → Bitmap_ok (trim b) ∧ ∀ id, bm_mem (trim b) id = bm_mem b id.
Proof.
  intros Hb. pose proof (ok_words b Hb) as Hw. pose proof (ok_meta b Hb) as Hm.
  assert (∀ i, wget (words (trim b)) i = wget (words b) i) as Ew.
  { intros i. unfold trim; cbn [words]. rewrite wget_slice_of by done. case_decide; [done|].
    symmetry. apply ok_tail; [done|lia]. }
  assert (∀ i, wget (meta (trim b)) i = wget (meta b) i) as Em.
  { intros i. unfold trim; cbn [meta]. rewrite wget_slice_of by done. case_decide; [done|].
    symmetry. apply ok_meta_tail; [done|lia]. }
  assert (slen (words (trim b)) = slen (words b) ∧ slen (meta (trim b)) = slen (meta b)) as [E1 E2].
  { unfold trim, slice_of; cbn [words meta slen]. by rewrite !length_slice_elems. }
  split; [|intros id; unfold bm_mem; by rewrite Ew].
  split.
  - unfold slice_ok, slice_cap, trim, slice_of; cbn [words slen arr]. lia.
  - unfold slice_ok, slice_cap, trim, slice_of; cbn [meta slen arr]. lia.
  - rewrite E1, E2. apply ok_len, Hb.
  - unfold slice_cap, trim, slice_of; cbn [words meta arr]. rewrite !length_slice_elems by done.
    by rewrite (ok_len b Hb).
  - intros i. rewrite Ew. auto with cerbos.
  - intros i. rewrite Em. auto with cerbos.
  - intros i. rewrite E1, Ew. apply ok_tail, Hb.
  - rewrite E1. apply ok_max, Hb.
  - intros i. rewrite Ew, Em. apply ok_bits, Hb.
Qed.

(** A buffer that is too short for the length it announces is an error, not a
    panic: the decoder never reads out of range. *)
Lemma read_words_total buf off n : off + n * wordSize ≤ length buf → is_Some (read_words buf off n).
Proof.
  unfold wordSize. revert off. induction n as [|n IH]; intros off Hl; cbn [read_words]; [done|].
  unfold Uint64. rewrite decide_True by (rewrite length_drop; lia). bsimp.
  destruct (IH (off + wordSize)) as [ws ->]; [unfold wordSize; lia|]. done.
Qed.

Lemma Unmarshal_total buf : is_Some (Bitmap_UnmarshalBinary buf).
Proof.
  unfold Bitmap_UnmarshalBinary. case_decide as Hl; [done|].
  unfold Uint32. rewrite decide_True by (unfold wordLenSize in Hl; lia). bsimp.
  set (n := N.to_nat _). case_decide as Hx; [done|].
  destruct (read_words_total buf wordLenSize n) as [ws ->]; [lia|]. bsimp.
  destruct (read_words_total buf (wordLenSize + n * wordSize) (meta_len n)) as [ms ->]; [lia|]. done.
Qed.
