(* ===== verification/Arena.v ===== *)
(** The pooled bitmaps of a query: [src/internal/ruletable/index/bitmap_pool.go].

    [bitmapPool] is a [sync.Pool]: it may hand out any bitmap put back earlier,
    or a new one.  The pool is a list; nothing is assumed about it except that
    what it holds was cleared.  The bitmaps an arena has taken are only written
    by the operation that takes them, so [used] holds what that operation left
    in them; [release] clears them and puts them back. *)
From S2P Require Import Prelude GoRuntime Bitmap BitmapOps.

Open Scope nat_scope.

Record bitmapArena := MkArena { pool : list Bitmap; used : list Bitmap }.

(** [sync.Pool.New]: no words, capacity for four words and one meta word. *)
Definition bitmapPool_New : Bitmap := MkBitmap (Slice (replicate 4 0%N) 0) (Slice (replicate 1 0%N) 0).

Definition emptyBitmap : Bitmap := NewBitmap.

Definition newBitmapArena (pool : list Bitmap) : bitmapArena := MkArena pool [].

(** [get], and the recording of the bitmap in [used] once it has been written. *)
Definition arena_get : ST bitmapArena Bitmap := λ a,
  match pool a with
  | [] => Some (bitmapPool_New, a)
  | bm :: rest => Some (bm, MkArena rest (used a))
  end.
Definition arena_track (bm : Bitmap) : ST bitmapArena Bitmap := λ a,
  Some (bm, MkArena (pool a) (used a ++ [bm])).

Definition release_step (pool : list Bitmap) (bm : Bitmap) : option (list Bitmap) :=
  bm ← Bitmap_Clear bm; Some (bm :: pool).

Definition arena_release (a : bitmapArena) : option (list Bitmap) := foldM release_step (pool a) (used a).

(** The index of the largest (smallest) bitmap: the first one among equals. *)
Definition best_step (better : nat → nat → bool) (parts : list Bitmap) (best i : nat) : option nat :=
  p ← parts !! i;
  b ← parts !! best;
  Some (if better (Bitmap_WordsLen p) (Bitmap_WordsLen b) then i else best).
Definition best_idx (better : nat → nat → bool) (parts : list Bitmap) : option nat :=
  foldM (best_step better parts) 0 (seq 1 (length parts - 1)).

Definition or_others (maxIdx : nat) (bm : Bitmap) (ip : nat * Bitmap) : option Bitmap :=
  if decide (ip.1 = maxIdx) then Some bm else Bitmap_Or bm ip.2.
Definition and_others (minIdx : nat) (bm : Bitmap) (ip : nat * Bitmap) : option Bitmap :=
  if decide (ip.1 = minIdx) then Some bm else Bitmap_And bm ip.2.

Definition arena_orInto (parts : list Bitmap) : ST bitmapArena Bitmap :=
  maxIdx ← lift (best_idx (λ p b, bool_decide (b < p)) parts);
  bm ← arena_get;
  first ← lift (parts !! maxIdx);
  bm ← lift (Bitmap_Or bm first);
  bm ← lift (foldM (or_others maxIdx) bm (imap pair parts));
  arena_track bm.

Definition arena_and2 (x y : Bitmap) : ST bitmapArena Bitmap :=
  bm ← arena_get;
  bm ← lift (if decide (Bitmap_WordsLen x ≤ Bitmap_WordsLen y) then
               bm ← Bitmap_Or bm x; Bitmap_And bm y
             else
               bm ← Bitmap_Or bm y; Bitmap_And bm x);
  arena_track bm.

Definition arena_andInto (bitmaps : list Bitmap) : ST bitmapArena Bitmap :=
  minIdx ← lift (best_idx (λ p b, bool_decide (p < b)) bitmaps);
  bm ← arena_get;
  first ← lift (bitmaps !! minIdx);
  bm ← lift (Bitmap_Or bm first);
  bm ← lift (foldM (and_others minIdx) bm (imap pair bitmaps));
  arena_track bm.

(** The switch on [len(parts)] that ends every multi-part lookup: nothing, the
    stored bitmap itself, or a union in a pooled bitmap. *)
Definition or_parts (parts : list Bitmap) : ST bitmapArena Bitmap :=
  match parts with
  | [] => mret emptyBitmap
  | [bm] => mret bm
  | _ => arena_orInto parts
  end.

(** * Invariant *)

Definition cleared (bm : Bitmap) : Prop := Bitmap_ok bm ∧ ∀ id, bm_mem bm id = false.

Record arena_ok (a : bitmapArena) : Prop := {
  aok_pool : ∀ bm, bm ∈ pool a → cleared bm;
  aok_used : ∀ bm, bm ∈ used a → Bitmap_ok bm;
}.

(** Arena states are interchangeable as long as they are well formed. *)
Definition arena_rel (a a' : bitmapArena) : Prop := arena_ok a ∧ arena_ok a'.
#[export] Instance arena_rel_per : RelationClasses.PER arena_rel.
Proof. split; unfold arena_rel; [intros x y; tauto|intros x y z; tauto]. Qed.

Lemma cleared_New : cleared bitmapPool_New.
Proof.
  assert (∀ i, wget (words bitmapPool_New) i = 0%N) as Hw by (intros i; apply wget_replicate).
  assert (∀ i, wget (meta bitmapPool_New) i = 0%N) as Hm by (intros i; apply wget_replicate).
  split.
  - split.
    + unfold slice_ok, slice_cap; cbn; lia.
    + unfold slice_ok, slice_cap; cbn; lia.
    + done.
    + unfold slice_cap; cbn; done.
    + intros i. rewrite Hw. auto with cerbos.
    + intros i. rewrite Hm. auto with cerbos.
    + intros i _. apply Hw.
    + done.
    + intros i. rewrite Hw, Hm, tb_0. symmetry. apply bool_decide_eq_false. tauto.
  - intros id. unfold bm_mem. by rewrite Hw, tb_0.
Qed.

Lemma emptyBitmap_ok : Bitmap_ok emptyBitmap.
Proof. apply NewBitmap_ok. Qed.

Lemma emptyBitmap_mem id : bm_mem emptyBitmap id = false.
Proof. done. Qed.
#[export] Hint Resolve emptyBitmap_ok : cerbos.

Section arena.
Implicit Types (a : bitmapArena).

Lemma get_runs a : arena_ok a → sruns arena_rel arena_get a cleared.
Proof.
  intros Ha. unfold arena_get, sruns. destruct (pool a) as [|bm rest] eqn:E.
  - exists bitmapPool_New, a. split_and!; [done|done|apply cleared_New].
  - exists bm, (MkArena rest (used a)). split; [done|]. split.
    + split; [done|]. split; cbn; [|apply Ha]. intros b Hb. apply (aok_pool a Ha). rewrite E. by right.
    + apply (aok_pool a Ha). rewrite E. left.
Qed.

Lemma track_runs a bm (P : Bitmap → Prop) :
  arena_ok a → Bitmap_ok bm → P bm → sruns arena_rel (arena_track bm) a P.
Proof.
  intros Ha Hb HP. eexists _, _. split; [done|]. split; [|done]. split; [done|].
  split; cbn; [apply Ha|]. intros x [Hx| ->%list_elem_of_singleton]%elem_of_app; [by apply (aok_used a Ha)|done].
Qed.

Lemma best_idx_runs better parts : parts ≠ [] → runs (best_idx better parts) (λ i, i < length parts).
Proof.
  intros Hne. unfold best_idx. destruct parts as [|p parts]; [done|]. set (l := p :: parts) in *.
  replace (length l - 1) with (length parts) by (cbn; lia).
  eapply runs_mono; [apply (foldM_rule (λ _ i, i < length l))|done]; [cbn; lia|].
  intros done x rest i Hs Hi. unfold best_step.
  assert (x < length l) as Hx.
  { assert (x ∈ seq 1 (length parts)) as Hin by (rewrite Hs; apply elem_of_app; right; left).
    apply elem_of_seq in Hin. cbn. lia. }
  destruct (lookup_lt_is_Some_2 l x Hx) as [y ->]. destruct (lookup_lt_is_Some_2 l i Hi) as [z ->]. bsimp.
  rret. by destruct (better _ _).
Qed.
End arena.

Lemma elem_of_imap_pair (l : list Bitmap) i (x : Bitmap) : (i, x) ∈ imap pair l ↔ l !! i = Some x.
Proof.
  rewrite elem_of_lookup_imap. split; [by intros (j & y & [= -> ->] & H)|]. intros H. by exists i, x.
Qed.

Lemma existsb_imap (l : list Bitmap) (P : Bitmap → bool) : existsb (λ ip, P ip.2) (imap pair l) = existsb P l.
Proof.
  apply eq_bool_prop_intro. rewrite !Is_true_true, !existsb_elem_of. split.
  - intros ([i x] & Hi%elem_of_imap_pair & Hp). exists x. split; [|done]. by eapply list_elem_of_lookup_2.
  - intros (x & (i & Hi)%list_elem_of_lookup & Hp). exists (i, x). by rewrite elem_of_imap_pair.
Qed.

Lemma forallb_imap (l : list Bitmap) (P : Bitmap → bool) : forallb (λ ip, P ip.2) (imap pair l) = forallb P l.
Proof.
  apply eq_bool_prop_intro. rewrite !Is_true_true, !forallb_elem_of. split.
  - intros H x (i & Hi)%list_elem_of_lookup. apply (H (i, x)). by rewrite elem_of_imap_pair.
  - intros H [i x] Hi%elem_of_imap_pair. apply H. by eapply list_elem_of_lookup_2.
Qed.

Section folds.
Context (parts : list Bitmap) (Hok : ∀ p, p ∈ parts → Bitmap_ok p).

Lemma or_fold_runs k first bm :
  parts !! k = Some first → Bitmap_ok bm → (∀ id, bm_mem bm id = bm_mem first id) →
  runs (foldM (or_others k) bm (imap pair parts)) (λ bm', Bitmap_ok bm' ∧
    ∀ id, bm_mem bm' id = existsb (λ p, bm_mem p id) parts).
Proof.
  intros Hk Hb Hm.
  eapply runs_mono; [apply (foldM_rule (λ done bm', Bitmap_ok bm' ∧
    ∀ id, bm_mem bm' id = bm_mem first id || existsb (λ ip, bm_mem ip.2 id) done))|].
  - split; [done|]. intros id. by rewrite Hm, orb_false_r.
  - intros done [i x] rest bm' Hl [Hb' Hm'].
    assert (parts !! i = Some x) as Hi.
    { apply elem_of_imap_pair. rewrite Hl. apply elem_of_app. right. left. }
    unfold or_others; cbn [fst snd]. case_decide as E.
    + subst k. rret. split; [done|]. intros id. rewrite Hm', existsb_app. cbn.
      rewrite Hi in Hk. injection Hk as ->. destruct (bm_mem first id); [done|]. by rewrite !orb_false_r.
    + eapply runs_mono; [apply Or_runs; [done|apply Hok; by eapply list_elem_of_lookup_2]|].
      intros b2 [Hb2 Hm2]. split; [done|]. intros id. rewrite Hm2, Hm', existsb_app. cbn.
      by rewrite orb_false_r, orb_assoc.
  - intros bm' [Hb' Hm']. split; [done|]. intros id. rewrite Hm', (existsb_imap parts (λ p, bm_mem p id)).
    destruct (bm_mem first id) eqn:E; [|done]. symmetry. cbn. apply existsb_elem_of. exists first. split; [|done].
    by eapply list_elem_of_lookup_2.
Qed.

Lemma and_fold_runs k first bm :
  parts !! k = Some first → Bitmap_ok bm → (∀ id, bm_mem bm id = bm_mem first id) →
  runs (foldM (and_others k) bm (imap pair parts)) (λ bm', Bitmap_ok bm' ∧
    ∀ id, bm_mem bm' id = forallb (λ p, bm_mem p id) parts).
Proof.
  intros Hk Hb Hm.
  eapply runs_mono; [apply (foldM_rule (λ done bm', Bitmap_ok bm' ∧
    ∀ id, bm_mem bm' id = bm_mem first id && forallb (λ ip, bm_mem ip.2 id) done))|].
  - split; [done|]. intros id. by rewrite Hm, andb_true_r.
  - intros done [i x] rest bm' Hl [Hb' Hm'].
    assert (parts !! i = Some x) as Hi.
    { apply elem_of_imap_pair. rewrite Hl. apply elem_of_app. right. left. }
    unfold and_others; cbn [fst snd]. case_decide as E.
    + subst k. rret. split; [done|]. intros id. rewrite Hm', forallb_app. cbn.
      rewrite Hi in Hk. injection Hk as ->. destruct (bm_mem first id); [|done]. by rewrite !andb_true_r.
    + eapply runs_mono; [apply And_runs; [done|apply Hok; by eapply list_elem_of_lookup_2]|].
      intros b2 [Hb2 Hm2]. split; [done|]. intros id. rewrite Hm2, Hm', forallb_app. cbn.
      by rewrite andb_true_r, andb_assoc.
  - intros bm' [Hb' Hm']. split; [done|]. intros id. rewrite Hm', (forallb_imap parts (λ p, bm_mem p id)).
    destruct (forallb (λ p, bm_mem p id) parts) eqn:E; [|by rewrite andb_false_r].
    rewrite forallb_elem_of in E. rewrite (E first); [done|]. by eapply list_elem_of_lookup_2.
Qed.

(** Loading the first operand into a cleared bitmap copies it. *)
Lemma load_runs bm p :
  cleared bm → Bitmap_ok p → runs (Bitmap_Or bm p) (λ bm', Bitmap_ok bm' ∧ ∀ id, bm_mem bm' id = bm_mem p id).
Proof.
  intros [Hb Hm] Hp. eapply runs_mono; [by apply Or_runs|]. intros bm' [Hb' Hm'].
  split; [done|]. intros id. by rewrite Hm', Hm.
Qed.

Lemma orInto_runs a :
  arena_ok a → parts ≠ [] →
  sruns arena_rel (arena_orInto parts) a (λ bm, Bitmap_ok bm ∧ ∀ id, bm_mem bm id = existsb (λ p, bm_mem p id) parts).
Proof.
  intros Ha Hne. unfold arena_orInto.
  eapply sruns_bind; [apply _|apply sruns_lift; [by split|by apply best_idx_runs]|]. cbv beta. intros k a1 [_ Ha1] Hk.
  eapply sruns_bind; [apply _|by apply get_runs|]. intros bm a2 [_ Ha2] Hbm.
  destruct (lookup_lt_is_Some_2 parts k Hk) as [first Hf].
  eapply sruns_bind; [apply _|apply sruns_lift; [by split|by apply runs_eq]|]. intros ? a3 [_ Ha3] ->.
  eapply sruns_bind; [apply _|apply sruns_lift; [by split|apply load_runs; [done|apply Hok; by eapply list_elem_of_lookup_2]]|].
  intros bm1 a4 [_ Ha4] [Hb1 Hm1].
  eapply sruns_bind; [apply _|apply sruns_lift; [by split|by eapply or_fold_runs]|]. intros bm2 a5 [_ Ha5] [Hb2 Hm2].
  by apply track_runs.
Qed.

Lemma andInto_runs a :
  arena_ok a → parts ≠ [] →
  sruns arena_rel (arena_andInto parts) a (λ bm, Bitmap_ok bm ∧ ∀ id, bm_mem bm id = forallb (λ p, bm_mem p id) parts).
Proof.
  intros Ha Hne. unfold arena_andInto.
  eapply sruns_bind; [apply _|apply sruns_lift; [by split|by apply best_idx_runs]|]. cbv beta. intros k a1 [_ Ha1] Hk.
  eapply sruns_bind; [apply _|by apply get_runs|]. intros bm a2 [_ Ha2] Hbm.
  destruct (lookup_lt_is_Some_2 parts k Hk) as [first Hf].
  eapply sruns_bind; [apply _|apply sruns_lift; [by split|by apply runs_eq]|]. intros ? a3 [_ Ha3] ->.
  eapply sruns_bind; [apply _|apply sruns_lift; [by split|apply load_runs; [done|apply Hok; by eapply list_elem_of_lookup_2]]|].
  intros bm1 a4 [_ Ha4] [Hb1 Hm1].
  eapply sruns_bind; [apply _|apply sruns_lift; [by split|by eapply and_fold_runs]|]. intros bm2 a5 [_ Ha5] [Hb2 Hm2].
  by apply track_runs.
Qed.

End folds.

Lemma or_parts_runs parts a :
  arena_ok a → (∀ p, p ∈ parts → Bitmap_ok p) →
  sruns arena_rel (or_parts parts) a (λ bm, Bitmap_ok bm ∧ ∀ id, bm_mem bm id = existsb (λ p, bm_mem p id) parts).
Proof.
  intros Ha Hok. destruct parts as [|p [|q l]]; cbn [or_parts].
  - apply sruns_ret; [by split|]. split; [auto with cerbos|done].
  - apply sruns_ret; [by split|]. split; [apply Hok; left|]. intros id. cbn. by rewrite orb_false_r.
  - by apply orInto_runs.
Qed.

Lemma and2_runs a x y :
  arena_ok a → Bitmap_ok x → Bitmap_ok y →
  sruns arena_rel (arena_and2 x y) a (λ bm, Bitmap_ok bm ∧ ∀ id, bm_mem bm id = bm_mem x id && bm_mem y id).
Proof.
  intros Ha Hx Hy. unfold arena_and2.
  eapply sruns_bind; [apply _|by apply get_runs|]. intros bm a1 [_ Ha1] Hbm.
  eapply sruns_bind; [apply _|apply (sruns_lift arena_rel _ _ (λ bm, Bitmap_ok bm ∧ ∀ id, bm_mem bm id = bm_mem x id && bm_mem y id)); [by split|]|].
  - case_decide.
    + eapply runs_bind; [by apply load_runs|]. intros b1 [Hb1 Hm1].
      eapply runs_mono; [by apply And_runs|]. intros b2 [Hb2 Hm2]. split; [done|]. intros id. by rewrite Hm2, Hm1.
    + eapply runs_bind; [by apply load_runs|]. intros b1 [Hb1 Hm1].
      eapply runs_mono; [by apply And_runs|]. intros b2 [Hb2 Hm2]. split; [done|]. intros id. by rewrite Hm2, Hm1, andb_comm.
  - intros bm2 a2 [_ Ha2] [Hb2 Hm2]. by apply track_runs.
Qed.

(** Releasing an arena returns its bitmaps cleared. *)
Lemma release_runs a :
  arena_ok a → runs (arena_release a) (λ pool, ∀ bm, bm ∈ pool → cleared bm).
Proof.
  intros Ha. unfold arena_release.
  eapply runs_mono; [apply (foldM_rule (λ _ pool, ∀ bm, bm ∈ pool → cleared bm))|done]; [apply Ha|].
  intros done x rest p Hu Hp. unfold release_step.
  eapply runs_bind; [apply Clear_runs; apply (aok_used a Ha); rewrite Hu; apply elem_of_app; right; left|].
  intros bm Hbm. rret. intros y [->|Hy]%elem_of_cons; [|auto]. split; apply Hbm.
Qed.

(** * Bitmaps as predicates on identifiers *)

(** [bm] is well formed and holds exactly the identifiers satisfying [P]. *)
Definition bm_is (bm : Bitmap) (P : N → Prop) : Prop := Bitmap_ok bm ∧ ∀ id, bm_mem bm id = true ↔ P id.

(** [parts] are well formed and together hold the identifiers satisfying [P]. *)
Definition parts_are (parts : list Bitmap) (P : N → Prop) : Prop :=
  (∀ p, p ∈ parts → Bitmap_ok p) ∧ ∀ id, (∃ p, p ∈ parts ∧ bm_mem p id = true) ↔ P id.

Lemma bm_is_iff bm (P Q : N → Prop) : bm_is bm P → (∀ id, P id ↔ Q id) → bm_is bm Q.
Proof. intros [Hb HP] HPQ. split; [done|]. intros id. by rewrite HP. Qed.

Lemma bm_is_self bm : Bitmap_ok bm → bm_is bm (λ id, bm_mem bm id = true).
Proof. by split. Qed.

Lemma bm_is_empty : bm_is emptyBitmap (λ _, False).
Proof. split; [auto with cerbos|]. intros id. by rewrite emptyBitmap_mem. Qed.

Lemma bm_is_IsEmpty bm P : bm_is bm P → Bitmap_IsEmpty bm = true ↔ ∀ id, ¬ P id.
Proof.
  intros [Hb HP]. rewrite IsEmpty_spec by done. setoid_rewrite <-HP. split; intros H id.
  - by rewrite H. - by apply not_true_is_false.
Qed.

Lemma bm_is_IsEmpty_false bm P : bm_is bm P → Bitmap_IsEmpty bm = false ↔ ∃ id, P id.
Proof. intros [Hb HP]. rewrite IsEmpty_false by done. by setoid_rewrite HP. Qed.

Lemma parts_nil : parts_are [] (λ _, False).
Proof. split; [by intros p ?%elem_of_nil|]. intros id. split; [by intros (p & ?%elem_of_nil & _)|done]. Qed.

Lemma parts_iff parts (P Q : N → Prop) : parts_are parts P → (∀ id, P id ↔ Q id) → parts_are parts Q.
Proof. intros [Hb HP] HPQ. split; [done|]. intros id. by rewrite HP. Qed.

Lemma parts_snoc parts bm (P Q : N → Prop) :
  parts_are parts P → bm_is bm Q → parts_are (parts ++ [bm]) (λ id, P id ∨ Q id).
Proof.
  intros [Hb HP] [Hbm HQ]. split.
  - intros p [?| ->%list_elem_of_singleton]%elem_of_app; auto.
  - intros id. rewrite <-HP, <-HQ. split.
    + intros (p & [?| ->%list_elem_of_singleton]%elem_of_app & ?); eauto.
    + intros [(p & ? & ?)|?]; [exists p|exists bm]; rewrite elem_of_app, list_elem_of_singleton; auto.
Qed.

Lemma or_parts_is parts P a :
  arena_ok a → parts_are parts P → sruns arena_rel (or_parts parts) a (λ bm, bm_is bm P).
Proof.
  intros Ha [Hb HP]. eapply sruns_mono; [by apply or_parts_runs|]. intros bm [Hbm Hm]. split; [done|].
  intros id. rewrite Hm, <-HP. apply existsb_elem_of.
Qed.

Lemma and2_is a x y P Q :
  arena_ok a → bm_is x P → bm_is y Q → sruns arena_rel (arena_and2 x y) a (λ bm, bm_is bm (λ id, P id ∧ Q id)).
Proof.
  intros Ha [Hx HP] [Hy HQ]. eapply sruns_mono; [by apply and2_runs|]. intros bm [Hbm Hm]. split; [done|].
  intros id. by rewrite Hm, andb_true_iff, HP, HQ.
Qed.

Lemma andInto_is a dims :
  arena_ok a → dims ≠ [] → (∀ p, p ∈ dims → Bitmap_ok p) →
  sruns arena_rel (arena_andInto dims) a (λ bm, bm_is bm (λ id, ∀ p, p ∈ dims → bm_mem p id = true)).
Proof.
  intros Ha Hne Hok. eapply sruns_mono; [by apply andInto_runs|]. intros bm [Hbm Hm]. split; [done|].
  intros id. rewrite Hm. apply forallb_elem_of.
Qed.
