(* ===== verification/LazyDim.v ===== *)
(** The lazily materialised dimension:
    [src/internal/ruletable/index/lazy_dimension.go].

    A key's identifiers are a sorted slice ("cold") or a bitmap; the bitmap is
    built and cached by the first query.  [lazy_mem] is the content of a
    dimension, which no query and no compaction changes ([lazy_rel]). *)
From S2P Require Import Prelude GoRuntime Bitmap BitmapOps BitmapIter.

Open Scope nat_scope.

(** Either [bm] is set, or [ids] holds the identifiers in ascending order. *)
Record lazyState := MkLazy { ls_bm : option Bitmap; ls_ids : list N }.

(** [m map[string]*atomic.Pointer[lazyState]]: the pointer cells are not shared
    between keys, so the map holds what they point to. *)
Abbreviation lazyDimension := (gmap string lazyState).

Definition newLazyDimension : lazyDimension := ∅.

(** [slices.BinarySearch]: the position of the first element not below the
    target, and whether it is the target.  [j - i] shrinks in every round. *)
Fixpoint bsearch_loop (fuel : nat) (l : list N) (target : N) (i j : nat) : option nat :=
  if decide (i < j) then
    match fuel with
    | O => None
    | S fuel =>
        let h := (i + j) / 2 in
        x ← l !! h;
        if (x <? target)%N then bsearch_loop fuel l target (h + 1) j else bsearch_loop fuel l target i h
    end
  else Some i.

Definition BinarySearch (l : list N) (target : N) : option (nat * bool) :=
  i ← bsearch_loop (length l) l target 0 (length l);
  Some (i, bool_decide (l !! i = Some target)).

Definition insertSortedUnique (ids : list N) (id : N) : option (list N) :=
  if bool_decide (ids = []) || (List.last ids 0 <? id)%N then Some (ids ++ [id])
  else
    '(i, found) ← BinarySearch ids id;
    if (found : bool) then Some ids else Some (take i ids ++ id :: drop i ids).

Definition newBitmapFromIDs (ids : list N) : option Bitmap := Bitmap_AddSortedBatch NewBitmap ids.

Definition lazyDimension_Add (d : lazyDimension) (key : string) (id : N) : option lazyDimension :=
  match d !! key with
  | None => Some (<[key := MkLazy None [id]]> d)
  | Some st =>
      match ls_bm st with
      | Some bm => bm ← Bitmap_Add bm id; Some (<[key := MkLazy (Some bm) (ls_ids st)]> d)
      | None => ids ← insertSortedUnique (ls_ids st) id; Some (<[key := MkLazy None ids]> d)
      end
  end.

Definition lazyDimension_Remove (d : lazyDimension) (key : string) (id : N) : option lazyDimension :=
  match d !! key with
  | None => Some d
  | Some st =>
      match ls_bm st with
      | Some bm =>
          bm ← Bitmap_Remove bm id;
          if Bitmap_IsEmpty bm then Some (delete key d)
          else Some (<[key := MkLazy (Some bm) (ls_ids st)]> d)
      | None =>
          '(i, found) ← BinarySearch (ls_ids st) id;
          if negb found then Some d
          else
            let ids := take i (ls_ids st) ++ drop (i + 1) (ls_ids st) in
            if decide (ids = []) then Some (delete key d) else Some (<[key := MkLazy None ids]> d)
      end
  end.

(** [Bitmap]: one caller, so the [CompareAndSwap] succeeds. *)
Definition lazyDimension_Bitmap (key : string) : ST lazyDimension (option Bitmap) := λ d,
  match d !! key with
  | None => Some (None, d)
  | Some st =>
      match ls_bm st with
      | Some bm => Some (Some bm, d)
      | None =>
          bm ← newBitmapFromIDs (ls_ids st);
          Some (Some bm, <[key := MkLazy (Some bm) []]> d)
      end
  end.

Definition lazyDimension_Keys `{GoMapOrder} (d : lazyDimension) : list string := (go_range d).*1.
Definition lazyDimension_len (d : lazyDimension) : nat := size d.
Definition lazyDimension_has (d : lazyDimension) (key : string) : bool := bool_decide (is_Some (d !! key)).

Definition preferBitmap (words metaWords cardinality : nat) : bool :=
  bool_decide ((words + metaWords) * wordSize ≤ cardinality * 4).

(** The body of [compact]'s loop; trimming the capacity of [ids] is the identity
    on its elements. *)
Definition compact_state (st : lazyState) : option lazyState :=
  match ls_bm st with
  | Some _ => Some st
  | None =>
      if decide (ls_ids st = []) then Some st
      else
        let words := word_of (List.last (ls_ids st) 0%N) + 1 in
        let metaWords := (words + 64 - 1) / 64 in
        if preferBitmap words metaWords (length (ls_ids st)) then
          bm ← newBitmapFromIDs (ls_ids st); Some (MkLazy (Some bm) [])
        else Some st
  end.

Definition lazyDimension_compact `{GoMapOrder} (d : lazyDimension) : option lazyDimension :=
  foldM (λ d '(k, st), st ← compact_state st; Some (<[k := st]> d)) d (go_range d).

Definition lazyDimension_setFromBitmap (d : lazyDimension) (key : string) (bm : Bitmap) : option lazyDimension :=
  card ← Bitmap_GetCardinality bm;
  if preferBitmap (slen (words bm)) (slen (meta bm)) (N.to_nat card) then
    Some (<[key := MkLazy (Some bm) []]> d)
  else
    ids ← Bitmap_ids bm;
    Some (<[key := MkLazy None ids]> d).

(** The bitmap [forEachBitmap] passes to its callback. *)
Definition state_bitmap (st : lazyState) : option Bitmap :=
  match ls_bm st with
  | Some bm => Some bm
  | None => newBitmapFromIDs (ls_ids st)
  end.

(** [forEachBitmap fn]: the callback returns an error ([inr]) or the new value
    of what it captures. *)
Fixpoint forEachBitmap_loop {A E} (fn : A → string → Bitmap → option (A + E)) (acc : A)
    (l : list (string * lazyState)) : option (A + E) :=
  match l with
  | [] => Some (inl acc)
  | (k, st) :: l =>
      bm ← state_bitmap st;
      r ← fn acc k bm;
      match r with
      | inl acc => forEachBitmap_loop fn acc l
      | inr e => Some (inr e)
      end
  end.
Definition lazyDimension_forEachBitmap `{GoMapOrder} {A E} (d : lazyDimension)
    (fn : A → string → Bitmap → option (A + E)) (acc : A) : option (A + E) :=
  forEachBitmap_loop fn acc (go_range d).

(** [slices.ContainsFunc(ids, filter.Contains)] *)
Definition ContainsFunc (ids : list N) (filter : Bitmap) : option bool :=
  foldM (λ (found : bool) id, if found then Some true else Bitmap_Contains filter id) false ids.

Definition state_intersects (st : lazyState) (filter : Bitmap) : option bool :=
  match ls_bm st with
  | Some bm => intersectionNonEmpty [bm; filter]
  | None => ContainsFunc (ls_ids st) filter
  end.

Definition lazyDimension_intersectingKeys `{GoMapOrder} (d : lazyDimension) (filter : Bitmap) : option (list string) :=
  foldM (λ keys '(k, st), b ← state_intersects st filter; Some (if (b : bool) then keys ++ [k] else keys)) [] (go_range d).

(** * Content and invariant *)

Definition state_mem (st : lazyState) (id : N) : bool :=
  match ls_bm st with
  | Some bm => bm_mem bm id
  | None => bool_decide (id ∈ ls_ids st)
  end.
Definition lazy_mem (d : lazyDimension) (key : string) (id : N) : bool :=
  match d !! key with Some st => state_mem st id | None => false end.

Definition ids_ok (ids : list N) : Prop := StronglySorted N.lt ids ∧ ∀ id, id ∈ ids → (id < 2 ^ 32)%N.

Record state_ok (st : lazyState) : Prop := {
  sok_bm : ∀ bm, ls_bm st = Some bm → Bitmap_ok bm;
  sok_ids : ls_bm st = None → ids_ok (ls_ids st);
  sok_ne : ∃ id, state_mem st id = true;
}.
Definition lazy_ok (d : lazyDimension) : Prop := ∀ k st, d !! k = Some st → state_ok st.

(** Two well-formed dimensions with the same content. *)
Definition lazy_rel (d d' : lazyDimension) : Prop :=
  lazy_ok d ∧ lazy_ok d' ∧ ∀ k id, lazy_mem d k id = lazy_mem d' k id.
#[export] Instance lazy_rel_per : RelationClasses.PER lazy_rel.
Proof.
  split; unfold lazy_rel.
  - intros x y (? & ? & H). split_and!; auto.
  - intros x y z (? & ? & H1) (? & ? & H2). split_and!; auto. intros k id. by rewrite H1.
Qed.

Lemma lazy_rel_refl d : lazy_ok d → lazy_rel d d.
Proof. done. Qed.
#[export] Hint Resolve lazy_rel_refl : cerbos.

Lemma lazy_has_iff d k : lazy_ok d → is_Some (d !! k) ↔ ∃ id, lazy_mem d k id = true.
Proof.
  intros Hd. unfold lazy_mem. split.
  - intros [st Hst]. rewrite Hst. apply (sok_ne st), (Hd k), Hst.
  - intros [id H]. destruct (d !! k); done.
Qed.

Lemma newLazyDimension_ok : lazy_ok newLazyDimension.
Proof. intros k st Hk. done. Qed.

(** ** Binary search *)

Lemma sorted_lookup_lt (l : list N) i j x y :
  StronglySorted N.lt l → l !! i = Some x → l !! j = Some y → i < j → (x < y)%N.
Proof.
  intros Hl. revert i j. induction Hl as [|z l Hl IH Hz]; intros i j Hi Hj Hij; [done|].
  destruct j as [|j]; [lia|]. destruct i as [|i]; cbn in Hi, Hj.
  - injection Hi as ->. rewrite Forall_forall in Hz. apply Hz. by eapply list_elem_of_lookup_2.
  - eapply IH; [done..|lia].
Qed.

Lemma sorted_lookup_le (l : list N) i j x y :
  StronglySorted N.lt l → l !! i = Some x → l !! j = Some y → i ≤ j → (x ≤ y)%N.
Proof.
  intros Hl Hi Hj Hij. destruct (decide (i = j)) as [->|]; [simplify_eq; lia|].
  apply N.lt_le_incl. eapply sorted_lookup_lt; [done..|lia].
Qed.

(** Everything before the returned position is below the target, everything
    from it on is not. *)
Definition splits (l : list N) (target : N) (i : nat) : Prop :=
  i ≤ length l ∧ (∀ k x, k < i → l !! k = Some x → (x < target)%N) ∧
  (∀ k x, i ≤ k → l !! k = Some x → (target ≤ x)%N).

Lemma bsearch_runs l target fuel i j :
  StronglySorted N.lt l → i ≤ j → j ≤ length l → j - i ≤ fuel →
  (∀ k x, k < i → l !! k = Some x → (x < target)%N) →
  (∀ k x, j ≤ k → l !! k = Some x → (target ≤ x)%N) →
  runs (bsearch_loop fuel l target i j) (splits l target).
Proof.
  intros Hl. revert i j. induction fuel as [|fuel IH]; intros i j Hij Hj Hf Hlo Hhi; cbn [bsearch_loop].
  - rewrite decide_False by lia. rret. replace j with i in Hhi by lia. split_and!; [lia|done|done].
  - case_decide as Hlt; [|rret; replace j with i in Hhi by lia; split_and!; [lia|done|done]].
    set (h := (i + j) / 2). assert (i ≤ h < j) as [Hh1 Hh2].
    { unfold h. split; [apply Nat.div_le_lower_bound; lia|apply Nat.Div0.div_lt_upper_bound; lia]. }
    destruct (lookup_lt_is_Some_2 l h) as [x Hx]; [lia|]. rewrite Hx. bsimp.
    destruct (N.ltb_spec x target) as [Hc|Hc].
    + apply IH; [lia..| |done]. intros k y Hk Hy. eapply N.le_lt_trans; [|exact Hc].
      eapply sorted_lookup_le; [done..|lia].
    + apply IH; [lia..|done|]. intros k y Hk Hy. etrans; [exact Hc|]. eapply sorted_lookup_le; [done..|lia].
Qed.

Lemma BinarySearch_runs l target :
  StronglySorted N.lt l →
  runs (BinarySearch l target) (λ '(i, found), splits l target i ∧ found = bool_decide (target ∈ l) ∧
    (found = true → l !! i = Some target)).
Proof.
  intros Hl. unfold BinarySearch. eapply runs_bind; [apply bsearch_runs; [done|lia|lia|lia|lia|]|].
  { intros k x Hk Hx. apply lookup_lt_Some in Hx. lia. }
  intros i Hi. rret. split; [done|]. split; [|by intros ->%bool_decide_eq_true].
  apply bool_decide_ext. split; [by eapply list_elem_of_lookup_2|].
  intros (k & Hk)%list_elem_of_lookup. destruct Hi as (Hle & Hlo & Hhi).
  destruct (lt_eq_lt_dec k i) as [[Hki| ->]|Hki]; [|done|].
  - specialize (Hlo _ _ Hki Hk). lia.
  - destruct (lookup_lt_is_Some_2 l i) as [x Hx]. { apply lookup_lt_Some in Hk. lia. }
    pose proof (sorted_lookup_lt _ _ _ _ _ Hl Hx Hk Hki). specialize (Hhi _ _ (le_n i) Hx). lia.
Qed.

Lemma StronglySorted_app_inv (l k : list N) :
  StronglySorted N.lt (l ++ k) → StronglySorted N.lt l ∧ StronglySorted N.lt k ∧ ∀ x y, x ∈ l → y ∈ k → (x < y)%N.
Proof.
  induction l as [|x l IH]; cbn; intros H.
  - split_and!; [constructor|done|]. intros x y Hx. by apply elem_of_nil in Hx.
  - apply StronglySorted_inv in H as [H Hx]. destruct (IH H) as (H1 & H2 & H3). rewrite Forall_forall in Hx.
    split_and!; [constructor; [done|]|done|].
    + apply Forall_forall. intros y Hy. apply Hx, elem_of_app. by left.
    + intros y z [->|Hy]%elem_of_cons Hz; [|by apply H3]. apply Hx, elem_of_app. by right.
Qed.

Lemma sorted_last_max (l : list N) x : StronglySorted N.lt l → x ∈ l → (x ≤ List.last l 0)%N.
Proof.
  intros Hl Hx. destruct (exists_last (l:=l)) as (l' & y & ->). { intros ->. by apply elem_of_nil in Hx. }
  rewrite List.last_last. apply StronglySorted_app_inv in Hl as (_ & _ & Hlt).
  apply elem_of_app in Hx as [Hx| ->%list_elem_of_singleton]; [|lia]. apply N.lt_le_incl, Hlt; [done|left].
Qed.

Lemma splits_sides l target i :
  splits l target i →
  (∀ x, x ∈ take i l → (x < target)%N) ∧ (∀ x, x ∈ drop i l → (target ≤ x)%N).
Proof.
  intros (Hle & Hlo & Hhi). split; intros x (k & Hk)%list_elem_of_lookup.
  - apply lookup_take_Some in Hk as [Hk Hki]. eauto.
  - rewrite lookup_drop in Hk. eapply Hhi; [|done]. lia.
Qed.

Lemma insertSortedUnique_runs ids id :
  ids_ok ids → (id < 2 ^ 32)%N →
  runs (insertSortedUnique ids id) (λ ids', ids_ok ids' ∧ ∀ x, x ∈ ids' ↔ x ∈ ids ∨ x = id).
Proof.
  intros [Hs Hr] Hid. unfold insertSortedUnique. destruct (_ || _)%bool eqn:E.
  - rret. split; [split|].
    + apply StronglySorted_app_N; [done|repeat constructor|]. intros x y Hx ->%list_elem_of_singleton.
      apply orb_true_iff in E as [E|E].
      * apply bool_decide_eq_true in E. subst ids. by apply elem_of_nil in Hx.
      * apply N.ltb_lt in E. pose proof (sorted_last_max _ _ Hs Hx). lia.
    + intros x [Hx| ->%list_elem_of_singleton]%elem_of_app; auto.
    + intros x. rewrite elem_of_app, list_elem_of_singleton. tauto.
  - eapply runs_bind; [by apply BinarySearch_runs|]. intros [i found] (Hi & Hf & _). cbn [fst snd].
    destruct found; [rret; split; [done|]|].
    { symmetry in Hf. apply bool_decide_eq_true in Hf. intros x. split; [tauto|]. by intros [?| ->]. }
    symmetry in Hf. apply bool_decide_eq_false in Hf. rret.
    destruct (splits_sides _ _ _ Hi) as [Hlo Hhi]. rewrite <-(take_drop i ids) in Hs, Hf.
    assert (∀ x, x ∈ take i ids ++ id :: drop i ids ↔ x ∈ ids ∨ x = id) as Hmem.
    { intros x. rewrite <-(take_drop i ids) at 3. rewrite !elem_of_app, elem_of_cons. tauto. }
    split; [split|done].
    + apply StronglySorted_app_inv in Hs as (S1 & S2 & S3). apply StronglySorted_app_N; [done|constructor; [done|]|].
      * apply Forall_forall. intros x Hx. destruct (decide (x = id)) as [->|]; [|specialize (Hhi _ Hx); lia].
        exfalso. apply Hf, elem_of_app. by right.
      * intros x y Hx [->|Hy]%elem_of_cons; [by apply Hlo|by apply S3].
    + intros x [Hx| ->]%Hmem; auto.
Qed.

Lemma remove_sorted_ok ids id i :
  ids_ok ids → ids !! i = Some id →
  ids_ok (take i ids ++ drop (i + 1) ids) ∧
  ∀ x, x ∈ take i ids ++ drop (i + 1) ids ↔ x ∈ ids ∧ x ≠ id.
Proof.
  intros [Hs Hr] Hi. pose proof (take_drop_middle ids i id Hi) as Em. rewrite Nat.add_1_r.
  rewrite <-Em in Hs. apply StronglySorted_app_inv in Hs as (S1 & S2 & S3).
  apply StronglySorted_inv in S2 as [S2 S2']. rewrite Forall_forall in S2'.
  assert (∀ x, x ∈ take i ids ++ drop (S i) ids ↔ x ∈ ids ∧ x ≠ id) as Hmem.
  { intros x. rewrite <-Em at 3. rewrite !elem_of_app, elem_of_cons. split.
    - intros [Hx|Hx]; (split; [tauto|intros ->]).
      + specialize (S3 id id Hx (list_elem_of_here _ _)). lia.
      + specialize (S2' _ Hx). lia.
    - intros [[?|[?|?]] ?]; [tauto|done|tauto]. }
  split; [split|done].
  - apply StronglySorted_app_N; [done|done|]. intros x y Hx Hy. apply S3; [done|by right].
  - intros x [Hx _]%Hmem. auto.
Qed.

(** ** Construction from sorted identifiers *)

Lemma newBitmapFromIDs_runs ids :
  ids_ok ids → runs (newBitmapFromIDs ids) (λ bm, Bitmap_ok bm ∧ ∀ id, bm_mem bm id = bool_decide (id ∈ ids)).
Proof.
  intros [Hs Hr]. unfold newBitmapFromIDs.
  eapply runs_mono; [apply AddSortedBatch_runs; [apply NewBitmap_ok|..]|].
  - clear Hr. induction Hs as [|x l Hl IH Hx]; [constructor|]. constructor; [done|].
    eapply Forall_impl; [exact Hx|]. cbn. lia.
  - by apply Forall_forall.
  - intros bm [Hb Hm]. split; [done|]. intros id. by rewrite Hm.
Qed.

Lemma state_bitmap_runs st :
  state_ok st → runs (state_bitmap st) (λ bm, Bitmap_ok bm ∧ ∀ id, bm_mem bm id = state_mem st id).
Proof.
  intros Hst. unfold state_bitmap, state_mem. destruct (ls_bm st) as [bm|] eqn:E.
  - rret. split; [by eapply sok_bm|done].
  - apply newBitmapFromIDs_runs. by apply sok_ids.
Qed.

(** ** Operations *)

Lemma lazy_mem_insert d key st k id :
  lazy_mem (<[key := st]> d) k id = if decide (key = k) then state_mem st id else lazy_mem d k id.
Proof.
  unfold lazy_mem. case_decide as E; [subst; by rewrite lookup_insert_eq|by rewrite lookup_insert_ne].
Qed.

Lemma lazy_mem_delete d key k id :
  lazy_mem (delete key d) k id = if decide (key = k) then false else lazy_mem d k id.
Proof.
  unfold lazy_mem. case_decide as E; [subst; by rewrite lookup_delete_eq|by rewrite lookup_delete_ne].
Qed.

Lemma lazy_mem_lookup d key st id : d !! key = Some st → lazy_mem d key id = state_mem st id.
Proof. unfold lazy_mem. by intros ->. Qed.

Lemma lazy_ok_insert d key st : lazy_ok d → state_ok st → lazy_ok (<[key := st]> d).
Proof. intros Hd Hst k st' [[<- <-]|[_ Hk]]%lookup_insert_Some; [done|by eapply Hd]. Qed.

Lemma lazy_ok_delete d key : lazy_ok d → lazy_ok (delete key d).
Proof. intros Hd k st [_ Hk]%lookup_delete_Some. by eapply Hd. Qed.
#[export] Hint Resolve lazy_ok_insert lazy_ok_delete : cerbos.

Lemma state_ok_bm bm ids : Bitmap_ok bm → (∃ id, bm_mem bm id = true) → state_ok (MkLazy (Some bm) ids).
Proof. intros Hb Hn. split; cbn; [by intros ? [= <-]|done|done]. Qed.

Lemma state_ok_ids ids : ids_ok ids → ids ≠ [] → state_ok (MkLazy None ids).
Proof.
  intros Hi Hn. split; cbn; [done|done|]. destruct ids as [|x l]; [done|]. exists x.
  apply bool_decide_eq_true. left.
Qed.

(** What adding an identifier does to the content. *)
Lemma lazy_Add_runs d key id :
  lazy_ok d → (id < 2 ^ 32)%N →
  runs (lazyDimension_Add d key id) (λ d', lazy_ok d' ∧
    ∀ k id', lazy_mem d' k id' = (bool_decide (key = k ∧ id = id') || lazy_mem d k id')%bool).
Proof.
  intros Hd Hid. unfold lazyDimension_Add.
  assert (∀ st', state_ok st' → (∀ id', state_mem st' id' = bool_decide (id = id') || lazy_mem d key id')%bool →
    lazy_ok (<[key := st']> d) ∧
    ∀ k id', lazy_mem (<[key := st']> d) k id' = (bool_decide (key = k ∧ id = id') || lazy_mem d k id')%bool) as Hput.
  { intros st' Hok Hm. split; [auto with cerbos|]. intros k id'. rewrite lazy_mem_insert. case_decide as E.
    - subst k. rewrite Hm. f_equal. apply bool_decide_ext. tauto.
    - rewrite bool_decide_false by tauto. done. }
  destruct (d !! key) as [st|] eqn:Ek.
  - pose proof (Hd _ _ Ek) as Hst. pose proof (lazy_mem_lookup d key st) as Em. specialize (λ id, Em id Ek).
    destruct (ls_bm st) as [bm|] eqn:Eb.
    + eapply runs_bind; [apply Add_runs; [by eapply sok_bm|done]|]. intros bm' [Hb' Hm']. rret. apply Hput.
      * apply state_ok_bm; [done|]. exists id. rewrite Hm'. by rewrite bool_decide_true.
      * intros id'. rewrite Em. unfold state_mem; rewrite Eb. cbn. apply Hm'.
    + eapply runs_bind; [apply insertSortedUnique_runs; [by apply sok_ids|done]|]. intros ids [Hi Hm']. rret. apply Hput.
      * apply state_ok_ids; [done|]. intros ->. apply (not_elem_of_nil id), Hm'. tauto.
      * intros id'. rewrite Em. unfold state_mem; rewrite Eb. cbn. apply eq_bool_prop_intro.
        rewrite Is_true_true, Is_true_true, orb_true_iff, !bool_decide_eq_true, Hm'.
        split; [intros [?| ->]|intros [->|?]]; auto.
  - rret. apply Hput.
    + apply state_ok_ids; [|done]. split; [repeat constructor|]. by intros x ->%list_elem_of_singleton.
    + intros id'. unfold lazy_mem. rewrite Ek, orb_false_r. cbn. apply bool_decide_ext.
      rewrite list_elem_of_singleton. split; congruence.
Qed.

Lemma lazy_Remove_runs d key id :
  lazy_ok d →
  runs (lazyDimension_Remove d key id) (λ d', lazy_ok d' ∧
    ∀ k id', lazy_mem d' k id' = (negb (bool_decide (key = k ∧ id = id')) && lazy_mem d k id')%bool).
Proof.
  intros Hd. unfold lazyDimension_Remove.
  assert (∀ d', lazy_ok d' → (∀ k id', k ≠ key → lazy_mem d' k id' = lazy_mem d k id') →
    (∀ id', lazy_mem d' key id' = (negb (bool_decide (id = id')) && lazy_mem d key id')%bool) → lazy_ok d' ∧
    ∀ k id', lazy_mem d' k id' = (negb (bool_decide (key = k ∧ id = id')) && lazy_mem d k id')%bool) as Hput.
  { intros d' Hok Hoth Hkey. split; [done|]. intros k id'. destruct (decide (key = k)) as [<-|Hne].
    - rewrite Hkey. f_equal. f_equal. apply bool_decide_ext. tauto.
    - rewrite Hoth by done. rewrite bool_decide_false by tauto. done. }
  destruct (d !! key) as [st|] eqn:Ek.
  2:{ rret. apply Hput; [done|done|]. intros id'. unfold lazy_mem. by rewrite Ek, andb_false_r. }
  pose proof (Hd _ _ Ek) as Hst. assert (∀ id, lazy_mem d key id = state_mem st id) as Em.
  { intros id'. by apply lazy_mem_lookup. }
  destruct (ls_bm st) as [bm|] eqn:Eb.
  - eapply runs_bind; [apply Remove_runs; by eapply sok_bm|]. intros bm' (Hb' & _ & Hm').
    assert (∀ id', bm_mem bm' id' = (negb (bool_decide (id = id')) && lazy_mem d key id')%bool) as Hm''.
    { intros id'. rewrite Hm', Em. unfold state_mem. rewrite Eb, andb_comm. f_equal.
      rewrite <-bool_decide_not. apply bool_decide_ext. split; congruence. }
    destruct (Bitmap_IsEmpty bm') eqn:Ee; rret; apply Hput; auto with cerbos.
    + intros k id' Hk. rewrite lazy_mem_delete, decide_False by done. done.
    + intros id'. rewrite lazy_mem_delete, decide_True, <-Hm'' by done. symmetry. by apply IsEmpty_spec.
    + apply lazy_ok_insert; [done|]. apply state_ok_bm; [done|]. by apply IsEmpty_false.
    + intros k id' Hk. rewrite lazy_mem_insert, decide_False by done. done.
    + intros id'. rewrite lazy_mem_insert, decide_True by done. apply Hm''.
  - eapply runs_bind; [apply BinarySearch_runs; by apply sok_ids|]. intros [i found] (_ & Hf & Hi).
    destruct found; cbn [negb].
    + destruct (remove_sorted_ok (ls_ids st) id i) as [Hok Hmem]; [by apply sok_ids|auto|].
      set (ids' := take i (ls_ids st) ++ drop (i + 1) (ls_ids st)) in *.
      assert (∀ id', bool_decide (id' ∈ ids') = (negb (bool_decide (id = id')) && lazy_mem d key id')%bool) as Hm''.
      { intros id'. rewrite Em. unfold state_mem. rewrite Eb, <-bool_decide_not. apply eq_bool_prop_intro.
        rewrite Is_true_true, Is_true_true, andb_true_iff, !bool_decide_eq_true, Hmem.
        split; intros [? ?]; split; congruence. }
      destruct (decide (ids' = [])) as [Ee|Ee]; rret; apply Hput; auto with cerbos.
      * intros k id' Hk. rewrite lazy_mem_delete, decide_False by done. done.
      * intros id'. rewrite lazy_mem_delete, decide_True, <-Hm'' by done. rewrite Ee. symmetry.
        apply bool_decide_eq_false, not_elem_of_nil.
      * apply lazy_ok_insert; [done|]. by apply state_ok_ids.
      * intros k id' Hk. rewrite lazy_mem_insert, decide_False by done. done.
      * intros id'. rewrite lazy_mem_insert, decide_True by done. apply Hm''.
    + rret. apply Hput; [done|done|]. intros id'. destruct (bool_decide_reflect (id = id')) as [<-|]; [|done].
      cbn. rewrite Em. unfold state_mem. by rewrite Eb.
Qed.

(** A query sees the content of the key, and leaves the content as it was. *)
Lemma lazy_Bitmap_runs d key :
  lazy_ok d →
  sruns lazy_rel (lazyDimension_Bitmap key) d (λ r,
    match r with
    | Some bm => Bitmap_ok bm ∧ ∀ id, bm_mem bm id = lazy_mem d key id
    | None => ∀ id, lazy_mem d key id = false
    end).
Proof.
  intros Hd. unfold lazyDimension_Bitmap, sruns. destruct (d !! key) as [st|] eqn:Ek.
  - pose proof (Hd _ _ Ek) as Hst. destruct (ls_bm st) as [bm|] eqn:Eb.
    + eexists _, _. split; [done|]. split; [auto with cerbos|]. split; [by eapply sok_bm|].
      intros id. rewrite (lazy_mem_lookup _ _ _ _ Ek). unfold state_mem. by rewrite Eb.
    + destruct (newBitmapFromIDs_runs (ls_ids st)) as (bm & -> & Hb & Hm); [by apply sok_ids|]. bsimp.
      assert (∀ id, bm_mem bm id = lazy_mem d key id) as Hc.
      { intros id. rewrite Hm, (lazy_mem_lookup _ _ _ _ Ek). unfold state_mem. by rewrite Eb. }
      eexists _, _. split; [done|]. split; [|done]. split_and!; [done|..].
      * apply lazy_ok_insert; [done|]. apply state_ok_bm; [done|]. setoid_rewrite Hc.
        apply lazy_has_iff; [done|]. by rewrite Ek.
      * intros k id. rewrite lazy_mem_insert. case_decide as E; [subst k|done]. cbn. by rewrite Hc.
  - eexists _, _. split; [done|]. split; [auto with cerbos|]. intros id. unfold lazy_mem. by rewrite Ek.
Qed.

Lemma compact_state_runs st :
  state_ok st → runs (compact_state st) (λ st', state_ok st' ∧ ∀ id, state_mem st' id = state_mem st id).
Proof.
  intros Hst. unfold compact_state. destruct (ls_bm st) as [bm|] eqn:Eb; [by rret|].
  case_decide; [by rret|]. destruct (preferBitmap _ _ _); [|by rret].
  eapply runs_bind; [apply newBitmapFromIDs_runs; by apply sok_ids|]. intros bm [Hb Hm]. rret.
  assert (∀ id, bm_mem bm id = state_mem st id) as Hc. { intros id. rewrite Hm. unfold state_mem. by rewrite Eb. }
  split; [|done]. apply state_ok_bm; [done|]. setoid_rewrite Hc. by apply sok_ne.
Qed.

Section range.
Context `{GoMapOrder}.

Lemma lazy_compact_runs d : lazy_ok d → runs (lazyDimension_compact d) (lazy_rel d).
Proof.
  intros Hd. unfold lazyDimension_compact.
  eapply runs_mono; [apply (foldM_rule (λ _ d', lazy_rel d d'))|done]; [auto with cerbos|].
  intros done [k st] rest d' Hl (_ & Hd' & Hm).
  assert (d !! k = Some st) as Hk. { apply elem_of_go_range. rewrite Hl. apply elem_of_app. right. left. }
  eapply runs_bind; [apply compact_state_runs; by eapply Hd|]. intros st' [Hst' Hc]. rret.
  split_and!; [done|auto with cerbos|]. intros k' id. rewrite lazy_mem_insert. case_decide as E; [|done].
  subst k'. by rewrite (lazy_mem_lookup _ _ _ _ Hk), Hc.
Qed.

Lemma lazy_setFromBitmap_runs d key bm :
  lazy_ok d → Bitmap_ok bm → (∃ id, bm_mem bm id = true) →
  runs (lazyDimension_setFromBitmap d key bm) (λ d', lazy_ok d' ∧
    ∀ k id, lazy_mem d' k id = if decide (key = k) then bm_mem bm id else lazy_mem d k id).
Proof.
  intros Hd Hb Hn. unfold lazyDimension_setFromBitmap. rewrite GetCardinality_runs by done. bsimp.
  destruct (preferBitmap _ _ _).
  - rret. split; [apply lazy_ok_insert; [done|by apply state_ok_bm]|]. intros k id. by rewrite lazy_mem_insert.
  - rewrite ids_runs by done. bsimp. rret. split.
    + apply lazy_ok_insert; [done|]. apply state_ok_ids.
      * split; [by apply bm_ids_sorted|]. intros id Hid%elem_of_bm_ids; [|done]. by eapply bm_mem_max.
      * destruct Hn as [id Hid]. intros E. apply elem_of_bm_ids in Hid; [|done]. rewrite E in Hid. by apply elem_of_nil in Hid.
    + intros k id. rewrite lazy_mem_insert. case_decide; [|done]. cbn. apply eq_bool_prop_intro.
      by rewrite Is_true_true, Is_true_true, bool_decide_eq_true, elem_of_bm_ids.
Qed.

Lemma state_intersects_runs st filter :
  state_ok st → Bitmap_ok filter →
  runs (state_intersects st filter) (λ r, r = true ↔ ∃ id, state_mem st id = true ∧ bm_mem filter id = true).
Proof.
  intros Hst Hf. unfold state_intersects, state_mem. destruct (ls_bm st) as [bm|] eqn:Eb.
  - eapply runs_mono; [apply intersectionNonEmpty_runs|].
    + intros x [->|[->|Hx]%elem_of_cons]%elem_of_cons; [by eapply sok_bm|done|by apply elem_of_nil in Hx].
    + intros r ->. split.
      * intros [id Hid]. exists id. split; apply Hid; [left|right; left].
      * intros (id & H1 & H2). exists id.
        intros x [->|[->|Hx]%elem_of_cons]%elem_of_cons; [done|done|by apply elem_of_nil in Hx].
  - unfold ContainsFunc. rewrite (search_runs _ _ (λ id, bm_mem filter id)) by (intros; by apply Contains_runs).
    rret. rewrite existsb_elem_of. setoid_rewrite bool_decide_eq_true. done.
Qed.

(** The keys with an identifier in [filter], each once. *)
Lemma lazy_intersectingKeys_runs d filter :
  lazy_ok d → Bitmap_ok filter →
  runs (lazyDimension_intersectingKeys d filter) (λ keys, NoDup keys ∧
    ∀ k, k ∈ keys ↔ ∃ id, lazy_mem d k id = true ∧ bm_mem filter id = true).
Proof.
  intros Hd Hf. unfold lazyDimension_intersectingKeys.
  eapply runs_mono; [apply (foldM_rule (λ done keys, (NoDup keys ∧ keys ⊆ done.*1) ∧
    ∀ k st, (k, st) ∈ done → k ∈ keys ↔ ∃ id, state_mem st id = true ∧ bm_mem filter id = true))|].
  - split; [split; [constructor|done]|]. intros k st Hk. by apply elem_of_nil in Hk.
  - intros done [k st] rest keys Hl [[Hn Hs] Hk].
    assert (k ∉ done.*1) as Hfresh.
    { pose proof (NoDup_go_range_keys d) as Hnd. rewrite Hl, fmap_app in Hnd. cbn in Hnd.
      apply NoDup_app in Hnd as (_ & Hnd & _). intros Hin. apply (Hnd _ Hin). left. }
    assert (d !! k = Some st) as Hst. { apply elem_of_go_range. rewrite Hl. apply elem_of_app. right. left. }
    eapply runs_bind; [apply state_intersects_runs; [by eapply Hd|done]|]. intros r Hr. rret.
    rewrite fmap_app. cbn [fmap list_fmap fst]. destruct r; (split; [split|]).
    + apply NoDup_app. split_and!; [done| |apply NoDup_singleton]. intros x Hx ->%list_elem_of_singleton. by apply Hfresh, Hs.
    + set_solver.
    + intros k' st' [Hin|[= -> ->]%list_elem_of_singleton]%elem_of_app.
      * rewrite elem_of_app, list_elem_of_singleton, <-(Hk k' st') by done. split; [|tauto].
        intros [?| ->]; [done|]. exfalso. apply Hfresh. apply list_elem_of_fmap. by exists (k, st').
      * rewrite elem_of_app, list_elem_of_singleton. split; [intros _; by apply Hr|tauto].
    + done.
    + set_solver.
    + intros k' st' [Hin|[= -> ->]%list_elem_of_singleton]%elem_of_app; [by apply Hk|].
      split; [intros Hin; exfalso; by apply Hfresh, Hs|]. intros Hex. apply Hr in Hex. done.
  - intros keys [[Hn Hs] Hk]. split; [done|]. intros k. unfold lazy_mem. destruct (d !! k) as [st|] eqn:Ek.
    + apply Hk. by apply elem_of_go_range.
    + split; [|by intros (id & ? & _)]. intros Hin%Hs. apply elem_of_go_range_keys in Hin. rewrite Ek in Hin. by destruct Hin.
Qed.
End range.
