(* ===== verification/Dimension.v ===== *)
(** Exact-match dimensions and the FQN dimension:
    [dimension] and [fqnDimension] of
    [src/internal/ruletable/index/bitmap_index.go]. *)
From S2P Require Import Prelude GoRuntime Bitmap BitmapOps Arena.

Open Scope nat_scope.

Section dimension.
Context {T : Type} `{Countable T}.

(** [m map[T]*Bitmap]: every key owns its bitmap. *)
Definition dimension : Type := gmap T Bitmap.

Definition newDimension : dimension := (∅ : gmap T Bitmap).

Definition dimension_Add (d : gmap T Bitmap) (key : T) (id : N) : option (gmap T Bitmap) :=
  let bm := match d !! key with Some bm => bm | None => NewBitmap end in
  bm ← Bitmap_Add bm id;
  Some (<[key := bm]> d).

Definition dimension_Remove (d : gmap T Bitmap) (key : T) (id : N) : option (gmap T Bitmap) :=
  match d !! key with
  | None => Some d
  | Some bm =>
      bm ← Bitmap_Remove bm id;
      Some (if Bitmap_IsEmpty bm then delete key d else <[key := bm]> d)
  end.

Definition dimension_Get (d : gmap T Bitmap) (key : T) : option Bitmap := d !! key.

Definition dimension_Delete (d : gmap T Bitmap) (key : T) : gmap T Bitmap := delete key d.

Definition dimension_Keys `{GoMapOrder} (d : gmap T Bitmap) : list T := (go_range d).*1.

Definition dimension_intersectingKeys `{GoMapOrder} (d : gmap T Bitmap) (filter : Bitmap) : option (list T) :=
  foldM (λ keys '(k, bm), b ← intersectionNonEmpty [bm; filter]; Some (if (b : bool) then keys ++ [k] else keys))
    [] (go_range d).

Definition dimension_parts (d : gmap T Bitmap) (keys : list T) : list Bitmap :=
  foldl (λ parts k, match d !! k with Some bm => parts ++ [bm] | None => parts end) [] keys.

Definition dimension_QueryMultiple (d : gmap T Bitmap) (keys : list T) : ST bitmapArena Bitmap :=
  or_parts (dimension_parts d keys).

(** The loop of [bitmapIndex.compact] over one dimension. *)
Definition dimension_shrink `{GoMapOrder} (d : gmap T Bitmap) : option (gmap T Bitmap) :=
  foldM (λ d '(k, bm), bm ← Bitmap_shrinkToFit bm; Some (<[k := bm]> d)) d (go_range d).

(** ** Content and invariant *)

Definition dim_mem (d : gmap T Bitmap) (key : T) (id : N) : bool :=
  match d !! key with Some bm => bm_mem bm id | None => false end.

Definition dim_ok (d : gmap T Bitmap) : Prop :=
  ∀ k bm, d !! k = Some bm → Bitmap_ok bm ∧ ∃ id, bm_mem bm id = true.

Lemma dim_mem_insert d key bm k id :
  dim_mem (<[key := bm]> d) k id = if decide (key = k) then bm_mem bm id else dim_mem d k id.
Proof.
  unfold dim_mem. case_decide as E; [subst; by rewrite lookup_insert_eq|by rewrite lookup_insert_ne].
Qed.

Lemma dim_mem_delete d key k id :
  dim_mem (delete key d) k id = if decide (key = k) then false else dim_mem d k id.
Proof.
  unfold dim_mem. case_decide as E; [subst; by rewrite lookup_delete_eq|by rewrite lookup_delete_ne].
Qed.

Lemma dim_ok_insert d key bm :
  dim_ok d → Bitmap_ok bm → (∃ id, bm_mem bm id = true) → dim_ok (<[key := bm]> d).
Proof. intros Hd Hb Hn k bm' [[<- <-]|[_ Hk]]%lookup_insert_Some; [done|by eapply Hd]. Qed.

Lemma dim_ok_delete d key : dim_ok d → dim_ok (delete key d).
Proof. intros Hd k bm [_ Hk]%lookup_delete_Some. by eapply Hd. Qed.

Lemma newDimension_ok : dim_ok newDimension.
Proof. intros k bm Hk. unfold newDimension in Hk. by rewrite lookup_empty in Hk. Qed.

Lemma dim_has_iff d k : dim_ok d → is_Some (d !! k) ↔ ∃ id, dim_mem d k id = true.
Proof.
  intros Hd. unfold dim_mem. split.
  - intros [bm Hk]. rewrite Hk. by apply (Hd k).
  - intros [id Hid]. destruct (d !! k); done.
Qed.

Lemma dim_Add_runs d key id :
  dim_ok d → (id < 2 ^ 32)%N →
  runs (dimension_Add d key id) (λ d', dim_ok d' ∧
    ∀ k id', dim_mem d' k id' = (bool_decide (key = k ∧ id = id') || dim_mem d k id')%bool).
Proof.
  intros Hd Hid. unfold dimension_Add.
  set (bm := match d !! key with Some bm => bm | None => NewBitmap end).
  assert (Bitmap_ok bm ∧ ∀ id, bm_mem bm id = dim_mem d key id) as [Hb Hm].
  { unfold bm, dim_mem. destruct (d !! key) as [b|] eqn:E; [split; [by eapply Hd|done]|].
    split; [apply NewBitmap_ok|done]. }
  eapply runs_bind; [by apply Add_runs|]. intros bm' [Hb' Hm']. rret. split.
  - apply dim_ok_insert; [done|done|]. exists id. by rewrite Hm', bool_decide_true.
  - intros k id'. rewrite dim_mem_insert. case_decide as E.
    + subst k. rewrite Hm', Hm. f_equal. apply bool_decide_ext. tauto.
    + by rewrite bool_decide_false by tauto.
Qed.

Lemma dim_Remove_runs d key id :
  dim_ok d →
  runs (dimension_Remove d key id) (λ d', dim_ok d' ∧
    ∀ k id', dim_mem d' k id' = (negb (bool_decide (key = k ∧ id = id')) && dim_mem d k id')%bool).
Proof.
  intros Hd. unfold dimension_Remove. destruct (d !! key) as [bm|] eqn:Ek.
  - eapply runs_bind; [apply Remove_runs; by eapply Hd|]. intros bm' (Hb' & _ & Hm'). rret.
    assert (∀ id', bm_mem bm' id' = (negb (bool_decide (id = id')) && dim_mem d key id')%bool) as Hc.
    { intros id'. rewrite Hm'. unfold dim_mem. rewrite Ek, andb_comm. f_equal. rewrite <-bool_decide_not.
      apply bool_decide_ext. split; congruence. }
    assert (∀ d', (∀ k id', dim_mem d' k id' = if decide (key = k) then bm_mem bm' id' else dim_mem d k id') →
      ∀ k id', dim_mem d' k id' = (negb (bool_decide (key = k ∧ id = id')) && dim_mem d k id')%bool) as Hput.
    { intros d' Hd' k id'. rewrite Hd'. case_decide as E.
      - subst k. rewrite Hc. f_equal. f_equal. apply bool_decide_ext. tauto.
      - by rewrite bool_decide_false by tauto. }
    destruct (Bitmap_IsEmpty bm') eqn:Ee; split.
    + by apply dim_ok_delete.
    + apply Hput. intros k id'. rewrite dim_mem_delete. case_decide; [|done].
      symmetry. by apply IsEmpty_spec.
    + apply dim_ok_insert; [done|done|by apply IsEmpty_false].
    + apply Hput. intros k id'. by rewrite dim_mem_insert.
  - rret. split; [done|]. intros k id'. destruct (decide (key = k)) as [<-|]; [|by rewrite bool_decide_false by tauto].
    unfold dim_mem. by rewrite Ek, andb_false_r.
Qed.

Lemma dim_Get_is d key :
  dim_ok d →
  match dimension_Get d key with
  | Some bm => bm_is bm (λ id, dim_mem d key id = true)
  | None => ∀ id, dim_mem d key id = false
  end.
Proof.
  intros Hd. unfold dimension_Get, dim_mem. destruct (d !! key) as [bm|] eqn:E; [|done].
  apply bm_is_self. by eapply Hd.
Qed.

Lemma dim_parts_are d keys :
  dim_ok d → parts_are (dimension_parts d keys) (λ id, ∃ k, k ∈ keys ∧ dim_mem d k id = true).
Proof.
  intros Hd. induction keys as [|k keys IH] using rev_ind.
  { eapply parts_iff; [apply parts_nil|]. intros id. split; [done|]. by intros (k & ?%elem_of_nil & _). }
  unfold dimension_parts. rewrite foldl_app. cbn [foldl]. fold (dimension_parts d keys).
  pose proof (dim_Get_is d k Hd) as Hk. unfold dimension_Get in Hk. destruct (d !! k) as [bm|] eqn:E.
  - eapply parts_iff; [by apply parts_snoc|]. intros id. setoid_rewrite elem_of_app. setoid_rewrite list_elem_of_singleton.
    split; [intros [(x & ? & ?)|?]; eauto|]. intros (x & [?| ->] & ?); eauto.
  - eapply parts_iff; [exact IH|]. intros id. setoid_rewrite elem_of_app. setoid_rewrite list_elem_of_singleton.
    split; [intros (x & ? & ?); eauto|]. intros (x & [?| ->] & Hx); [eauto|]. by rewrite Hk in Hx.
Qed.

Lemma dim_QueryMultiple_is d keys a :
  dim_ok d → arena_ok a →
  sruns arena_rel (dimension_QueryMultiple d keys) a (λ bm, bm_is bm (λ id, ∃ k, k ∈ keys ∧ dim_mem d k id = true)).
Proof. intros Hd Ha. apply or_parts_is; [done|]. by apply dim_parts_are. Qed.

Lemma dim_shrink_runs `{GoMapOrder} d :
  dim_ok d → runs (dimension_shrink d) (λ d', dim_ok d' ∧ ∀ k id, dim_mem d' k id = dim_mem d k id).
Proof.
  intros Hd. unfold dimension_shrink.
  eapply runs_mono; [apply (foldM_rule (λ _ d', dim_ok d' ∧ ∀ k id, dim_mem d' k id = dim_mem d k id))|done]; [done|].
  intros done [k bm] rest d' Hl [Hd' Hm].
  assert (d !! k = Some bm) as Hk. { apply elem_of_go_range. rewrite Hl. apply elem_of_app. right. left. }
  eapply runs_bind; [apply shrinkToFit_runs; by eapply Hd|]. intros bm' (Hb' & _ & Hc). rret. split.
  - apply dim_ok_insert; [done|done|]. setoid_rewrite Hc. by eapply Hd.
  - intros k' id. rewrite dim_mem_insert. case_decide; [subst k'|done]. unfold dim_mem. by rewrite Hk, Hc.
Qed.

(** The keys with an identifier in [filter]. *)
Lemma dim_intersectingKeys_runs `{GoMapOrder} d filter :
  dim_ok d → Bitmap_ok filter →
  runs (dimension_intersectingKeys d filter) (λ keys,
    ∀ k, k ∈ keys ↔ ∃ id, dim_mem d k id = true ∧ bm_mem filter id = true).
Proof.
  intros Hd Hf. unfold dimension_intersectingKeys.
  eapply runs_mono; [apply (foldM_rule (λ done keys,
    ∀ k, k ∈ keys ↔ ∃ bm id, (k, bm) ∈ done ∧ bm_mem bm id = true ∧ bm_mem filter id = true))|].
  - intros k. split; [by intros ?%elem_of_nil|]. by intros (bm & id & ?%elem_of_nil & _).
  - intros done [k bm] rest keys Hl Hk.
    assert (d !! k = Some bm) as Hbm. { apply elem_of_go_range. rewrite Hl. apply elem_of_app. right. left. }
    eapply runs_bind; [apply intersectionNonEmpty_runs|].
    { intros x [->|[->|Hx]%elem_of_cons]%elem_of_cons; [by eapply Hd|done|by apply elem_of_nil in Hx]. }
    intros r Hr. rret. intros k'.
    assert (k' ∈ (if r then keys ++ [k] else keys) ↔ k' ∈ keys ∨ r = true ∧ k' = k) as ->.
    { destruct r; rewrite ?elem_of_app, ?list_elem_of_singleton; [tauto|]. intuition congruence. }
    rewrite Hk, Hr. setoid_rewrite elem_of_app. setoid_rewrite list_elem_of_singleton. split.
    + intros [(b & id & ? & ? & ?)|[[id Hid] ->]]; [eauto 8|]. exists bm, id.
      split; [auto|]. split; apply Hid; [left|right; left].
    + intros (b & id & [?|[= -> ->]] & ? & ?); [left; eauto|]. right. split; [|done]. exists id.
      intros x [->|[->|Hx]%elem_of_cons]%elem_of_cons; [done|done|by apply elem_of_nil in Hx].
  - intros keys Hk k. cbv beta in Hk. rewrite Hk. unfold dim_mem. split.
    + intros (bm & id & Hin%elem_of_go_range & ? & ?). exists id. by rewrite Hin.
    + intros (id & Hm & Hfi). destruct (d !! k) as [bm|] eqn:E; [|done]. exists bm, id. by rewrite elem_of_go_range.
Qed.
End dimension.
Arguments dimension T {_ _}.

(** ** FQN dimension *)

Definition fqnDimension : Type := gmap string (list N).
Definition newFqnDimension : gmap string (list N) := ∅.

Definition fqnDimension_Add (d : gmap string (list N)) (fqn : string) (id : N) : gmap string (list N) :=
  let ids := match d !! fqn with Some ids => ids | None => [] end in
  <[fqn := ids ++ [id]]> d.
Definition fqnDimension_Get (d : gmap string (list N)) (fqn : string) : option (list N) := d !! fqn.
Definition fqnDimension_Delete (d : gmap string (list N)) (fqn : string) : gmap string (list N) := delete fqn d.
