(* ===== verification/GlobDim.v ===== *)
(** Glob keys ([src/internal/util/globs_common.go]) and the dimension that
    supports them ([src/internal/ruletable/index/glob_dimension.go]).

    The glob compiler is a third-party package (github.com/gobwas/glob): the
    class [GlobEngine] is its interface, [glob.Compile(expr, ':')] and [Match].
    Nothing is assumed about which strings a pattern matches.  The process-wide
    cache of compiled patterns only holds results of [Compile], which is a
    function of the expression, so looking a pattern up in it is compiling it. *)
From S2P Require Import Prelude GoRuntime Bitmap BitmapOps Arena LazyDim.

Open Scope nat_scope.

Class GlobEngine := {
  pattern : Type;
  glob_Compile : string → option pattern;
  glob_Match : pattern → string → bool;
}.

(** [strings.ContainsRune(s, '*')] *)
Fixpoint IsGlob (s : string) : bool :=
  match s with
  | EmptyString => false
  | String c s => bool_decide (c = "*"%char) || IsGlob s
  end.

Definition fixGlob (g : string) : string := if decide (g = "*"%string) then "**"%string else g.

Section glob.
Context `{GlobEngine}.

Definition GetOrCompileGlob (globExpr : string) : option pattern := glob_Compile (fixGlob globExpr).

Definition MatchesGlob (g val : string) : bool :=
  match GetOrCompileGlob g with
  | None => false
  | Some p => glob_Match p val
  end.

Definition FilterGlob (g : string) (values : list string) : list string :=
  foldl (λ out v, if MatchesGlob g v then out ++ [v] else out) [] values.

Definition FilterGlobNotMatches (g : string) (values : list string) : list string :=
  foldl (λ out v, if negb (MatchesGlob g v) then out ++ [v] else out) [] values.

Record globDimension := MkGlobDim {
  literals : gmap string lazyState;
  globs : gmap string lazyState;
  compiled : gmap string pattern;
}.

Definition newGlobDimension : globDimension := MkGlobDim newLazyDimension newLazyDimension ∅.

Definition set_literals (l : gmap string lazyState) (gd : globDimension) : globDimension := MkGlobDim l (globs gd) (compiled gd).
Definition set_globs (g : gmap string lazyState) (gd : globDimension) : globDimension := MkGlobDim (literals gd) g (compiled gd).
Definition set_compiled (c : gmap string pattern) (gd : globDimension) : globDimension := MkGlobDim (literals gd) (globs gd) c.

Definition globDimension_Set (gd : globDimension) (key : string) (id : N) : option globDimension :=
  if IsGlob key then
    match compiled gd !! key with
    | Some _ => g ← lazyDimension_Add (globs gd) key id; Some (set_globs g gd)
    | None =>
        match GetOrCompileGlob key with
        | None => Some gd
        | Some p =>
            let gd := set_compiled (<[key := p]> (compiled gd)) gd in
            g ← lazyDimension_Add (globs gd) key id; Some (set_globs g gd)
        end
    end
  else
    l ← lazyDimension_Add (literals gd) key id; Some (set_literals l gd).

Definition globDimension_Remove (gd : globDimension) (key : string) (id : N) : option globDimension :=
  if IsGlob key then
    g ← lazyDimension_Remove (globs gd) key id;
    let gd := set_globs g gd in
    Some (if negb (lazyDimension_has (globs gd) key) then set_compiled (delete key (compiled gd)) gd else gd)
  else
    l ← lazyDimension_Remove (literals gd) key id; Some (set_literals l gd).

(** The state of a query: the dimension, whose cold entries get materialised,
    and the arena. *)
Definition gstate : Type := globDimension * bitmapArena.

Definition literals_Bitmap (key : string) : ST gstate (option Bitmap) :=
  zoom (λ s, literals s.1) (λ l s, (set_literals l s.1, s.2)) (lazyDimension_Bitmap key).
Definition globs_Bitmap (key : string) : ST gstate (option Bitmap) :=
  zoom (λ s, globs s.1) (λ g s, (set_globs g s.1, s.2)) (lazyDimension_Bitmap key).
Definition in_arena {A} (m : ST bitmapArena A) : ST gstate A := zoom snd (λ a s, (s.1, a)) m.

Definition app_part (parts : list Bitmap) (bm : option Bitmap) : list Bitmap :=
  match bm with Some bm => parts ++ [bm] | None => parts end.

Section query.
Context `{GoMapOrder}.

(** [for pattern, compiled := range gd.compiled { if compiled.Match(value) ... }] *)
Definition glob_parts (value : string) (parts : list Bitmap) : ST gstate (list Bitmap) :=
  cs ← gets (λ s, go_range (compiled s.1));
  foldST (λ parts '(pat, p),
    if glob_Match p value then bm ← globs_Bitmap pat; mret (app_part parts bm) else mret parts) parts cs.

Definition globDimension_Query (value : string) : ST gstate Bitmap :=
  literalBM ← literals_Bitmap value;
  n ← gets (λ s, size (compiled s.1));
  if decide (n = 0) then
    mret (match literalBM with Some bm => bm | None => emptyBitmap end)
  else
    parts ← glob_parts value (app_part [] literalBM);
    in_arena (or_parts parts).

Definition globDimension_QueryMultiple (values : list string) : ST gstate Bitmap :=
  parts ← foldST (λ parts v,
    bm ← literals_Bitmap v;
    glob_parts v (app_part parts bm)) [] values;
  in_arena (or_parts parts).

Definition globDimension_GetAllKeys (gd : globDimension) : list string :=
  lazyDimension_Keys (literals gd) ++ lazyDimension_Keys (globs gd).

Definition globDimension_intersectingKeys (gd : globDimension) (filter : Bitmap) : option (list string) :=
  keys ← lazyDimension_intersectingKeys (literals gd) filter;
  gkeys ← lazyDimension_intersectingKeys (globs gd) filter;
  Some (keys ++ gkeys).

Definition globDimension_compact (gd : globDimension) : option globDimension :=
  l ← lazyDimension_compact (literals gd);
  g ← lazyDimension_compact (globs gd);
  Some (MkGlobDim l g (compiled gd)).
End query.

(** * Content and invariant *)

(** Whether a key of the dimension (a literal or a glob) matches a value. *)
Definition key_matches (key value : string) : bool :=
  if IsGlob key then MatchesGlob key value else bool_decide (key = value).

(** Keys that cannot be compiled are dropped by [Set]. *)
Definition key_valid (key : string) : bool :=
  negb (IsGlob key) || bool_decide (is_Some (GetOrCompileGlob key)).

Definition gd_mem (gd : globDimension) (key : string) (id : N) : bool :=
  if IsGlob key then lazy_mem (globs gd) key id else lazy_mem (literals gd) key id.

Record gd_ok (gd : globDimension) : Prop := {
  gok_literals : lazy_ok (literals gd);
  gok_globs : lazy_ok (globs gd);
  gok_lit_keys : ∀ k, is_Some (literals gd !! k) → IsGlob k = false;
  gok_compiled : ∀ k p, compiled gd !! k = Some p ↔ is_Some (globs gd !! k) ∧ IsGlob k = true ∧ GetOrCompileGlob k = Some p;
  gok_globs_compiled : ∀ k, is_Some (globs gd !! k) → is_Some (compiled gd !! k);
}.

(** A value is looked up through every key that matches it. *)
Definition gd_hit (gd : globDimension) (value : string) (id : N) : Prop :=
  ∃ key, key_matches key value = true ∧ gd_mem gd key id = true.

Definition gd_rel (gd gd' : globDimension) : Prop :=
  gd_ok gd ∧ gd_ok gd' ∧ compiled gd = compiled gd' ∧
  lazy_rel (literals gd) (literals gd') ∧ lazy_rel (globs gd) (globs gd').
#[export] Instance gd_rel_per : RelationClasses.PER gd_rel.
Proof.
  split; unfold gd_rel.
  - intros x y (? & ? & ? & ? & ?). split_and!; try done; by symmetry.
  - intros x y z (? & ? & ? & ? & ?) (? & ? & ? & ? & ?). split_and!; try done; by etrans.
Qed.

Lemma gd_rel_refl gd : gd_ok gd → gd_rel gd gd.
Proof. intros Hg. split_and!; try done; apply lazy_rel_refl, Hg. Qed.

Lemma gd_rel_mem gd gd' k id : gd_rel gd gd' → gd_mem gd k id = gd_mem gd' k id.
Proof.
  intros (_ & _ & _ & (_ & _ & Hl) & (_ & _ & Hg)). unfold gd_mem. by rewrite Hl, Hg.
Qed.

Lemma gd_rel_hit gd gd' v id : gd_rel gd gd' → gd_hit gd v id ↔ gd_hit gd' v id.
Proof. intros Hr. unfold gd_hit. by setoid_rewrite (gd_rel_mem gd gd' _ _ Hr). Qed.

Lemma lazy_rel_has d d' k : lazy_rel d d' → is_Some (d !! k) ↔ is_Some (d' !! k).
Proof. intros (H1 & H2 & H3). rewrite !lazy_has_iff by done. by setoid_rewrite H3. Qed.

(** Replacing either part by one with the same content keeps the dimension. *)
Lemma gd_rel_build gd l g :
  gd_ok gd → lazy_rel (literals gd) l → lazy_rel (globs gd) g → gd_rel gd (MkGlobDim l g (compiled gd)).
Proof.
  intros Hg Hl Hgl. split_and!; try done. pose proof Hl as (_ & Hl2 & _). pose proof Hgl as (_ & Hg2 & _).
  split; cbn; [done|done|..].
  - intros k Hk. apply (gok_lit_keys gd Hg). by rewrite (lazy_rel_has _ _ k Hl).
  - intros k p. rewrite <-(lazy_rel_has _ _ k Hgl). apply gok_compiled, Hg.
  - intros k. rewrite <-(lazy_rel_has _ _ k Hgl). apply gok_globs_compiled, Hg.
Qed.

Lemma newGlobDimension_ok : gd_ok newGlobDimension.
Proof.
  split; cbn; unfold newLazyDimension.
  - apply newLazyDimension_ok.
  - apply newLazyDimension_ok.
  - intros k. rewrite lookup_empty. by intros [? ?].
  - intros k p. rewrite !lookup_empty. split; [done|]. by intros [[? ?] _].
  - intros k. rewrite lookup_empty. by intros [? ?].
Qed.

Lemma lazy_Add_has d d' key id k :
  lazy_ok d → lazy_ok d' →
  (∀ k id', lazy_mem d' k id' = (bool_decide (key = k ∧ id = id') || lazy_mem d k id')%bool) →
  is_Some (d' !! k) ↔ k = key ∨ is_Some (d !! k).
Proof.
  intros Hd Hd' Hm. rewrite !lazy_has_iff by done. setoid_rewrite Hm. setoid_rewrite orb_true_iff.
  setoid_rewrite bool_decide_eq_true. split.
  - intros [id' [[-> _]|?]]; eauto.
  - intros [->|[id' ?]]; [exists id|exists id']; auto.
Qed.

Lemma gd_mem_set_globs g gd k id :
  gd_mem (set_globs g gd) k id = if IsGlob k then lazy_mem g k id else gd_mem gd k id.
Proof. unfold gd_mem. cbn. by destruct (IsGlob k). Qed.

Lemma gd_mem_set_literals l gd k id :
  gd_mem (set_literals l gd) k id = if IsGlob k then gd_mem gd k id else lazy_mem l k id.
Proof. unfold gd_mem. cbn. by destruct (IsGlob k). Qed.

(** Adding under a glob key that is (now) compiled. *)
Lemma Set_glob_runs gd key id p c :
  gd_ok gd → (id < 2 ^ 32)%N → IsGlob key = true → GetOrCompileGlob key = Some p →
  c = <[key := p]> (compiled gd) →
  runs (g ← lazyDimension_Add (globs gd) key id; Some (MkGlobDim (literals gd) g c)) (λ gd', gd_ok gd' ∧
    ∀ k id', gd_mem gd' k id' = (bool_decide (key = k ∧ id = id') || gd_mem gd k id')%bool).
Proof.
  intros Hg Hid Hkey Hp ->. eapply runs_bind; [apply lazy_Add_runs; [apply Hg|done]|]. intros g [Hgl Hm]. rret.
  pose proof (λ k, lazy_Add_has _ _ key id k (gok_globs gd Hg) Hgl Hm) as Hhas. split.
  - split; cbn; [apply Hg|done|apply Hg|..].
    + intros k q. rewrite Hhas, lookup_insert_Some, (gok_compiled gd Hg). split.
      * intros [[<- <-]|[? (? & ? & ?)]]; auto.
      * intros ([->|?] & ? & ?); [left; split; [done|congruence]|].
        destruct (decide (key = k)) as [<-|]; [left; split; [done|congruence]|auto].
    + intros k. rewrite Hhas, lookup_insert_is_Some. intros [->|Hk]; [auto|].
      destruct (decide (key = k)); [auto|]. right. split; [done|]. by apply (gok_globs_compiled gd Hg).
  - intros k id'. unfold gd_mem; cbn. destruct (IsGlob k) eqn:Ek; [apply Hm|].
    rewrite bool_decide_false; [done|]. intros [-> _]. congruence.
Qed.

Lemma gd_Set_runs gd key id :
  gd_ok gd → (id < 2 ^ 32)%N →
  runs (globDimension_Set gd key id) (λ gd', gd_ok gd' ∧
    ∀ k id', gd_mem gd' k id' = ((bool_decide (key = k ∧ id = id') && key_valid key) || gd_mem gd k id')%bool).
Proof.
  intros Hg Hid. unfold globDimension_Set, key_valid. destruct (IsGlob key) eqn:Ekey; cbn [negb orb].
  - destruct (compiled gd !! key) as [p|] eqn:Ec.
    + pose proof Ec as (_ & _ & Hp)%(gok_compiled gd Hg).
      eapply runs_mono; [apply (Set_glob_runs gd key id p (compiled gd)); [done..|by rewrite insert_id]|].
      intros gd' [Hok Hm]. split; [done|]. intros k id'.
      rewrite Hm, Hp, (bool_decide_true (is_Some _)), andb_true_r by done. done.
    + destruct (GetOrCompileGlob key) as [p|] eqn:Hp.
      * eapply runs_mono; [by apply (Set_glob_runs gd key id p)|]. intros gd' [Hok Hm]. split; [done|].
        intros k id'. rewrite Hm, (bool_decide_true (is_Some _)), andb_true_r by done. done.
      * rret. split; [done|]. intros k id'. by rewrite (bool_decide_false (is_Some _)), andb_false_r by by intros [? ?].
  - eapply runs_bind; [apply lazy_Add_runs; [apply Hg|done]|]. intros l [Hl Hm]. rret.
    pose proof (λ k, lazy_Add_has _ _ key id k (gok_literals gd Hg) Hl Hm) as Hhas. split.
    + split; cbn; try apply Hg; [done|]. intros k. rewrite Hhas. intros [->|?]; [done|]. by apply (gok_lit_keys gd Hg).
    + intros k id'. rewrite gd_mem_set_literals, andb_true_r. destruct (IsGlob k) eqn:Ek.
      * rewrite bool_decide_false; [done|]. intros [-> _]. congruence.
      * rewrite Hm. unfold gd_mem. by rewrite Ek.
Qed.

Lemma lazy_Remove_has d d' key id k :
  lazy_ok d → lazy_ok d' →
  (∀ k id', lazy_mem d' k id' = (negb (bool_decide (key = k ∧ id = id')) && lazy_mem d k id')%bool) →
  (is_Some (d' !! k) → is_Some (d !! k)) ∧ (k ≠ key → is_Some (d !! k) → is_Some (d' !! k)).
Proof.
  intros Hd Hd' Hm. rewrite !lazy_has_iff by done. setoid_rewrite Hm. setoid_rewrite andb_true_iff. split.
  - intros (id' & _ & ?). eauto.
  - intros Hk (id' & ?). exists id'. split; [|done]. rewrite bool_decide_false; [done|]. by intros [-> _].
Qed.

Lemma gd_Remove_runs gd key id :
  gd_ok gd →
  runs (globDimension_Remove gd key id) (λ gd', gd_ok gd' ∧
    ∀ k id', gd_mem gd' k id' = (negb (bool_decide (key = k ∧ id = id')) && gd_mem gd k id')%bool).
Proof.
  intros Hg. unfold globDimension_Remove. destruct (IsGlob key) eqn:Ekey.
  - eapply runs_bind; [apply lazy_Remove_runs, Hg|]. intros g [Hgl Hm]. rret.
    pose proof (λ k, lazy_Remove_has _ _ key id k (gok_globs gd Hg) Hgl Hm) as Hhas.
    assert (∀ c, (∀ k, c !! k = if decide (is_Some (g !! k)) then compiled gd !! k else None) →
      gd_ok (MkGlobDim (literals gd) g c)) as Hok.
    { intros c Hc. split; cbn; [apply Hg|done|apply Hg|..].
      - intros k p. rewrite Hc. case_decide as Hk; [|split; [done|tauto]]. rewrite (gok_compiled gd Hg).
        pose proof (proj1 (Hhas k) Hk). tauto.
      - intros k Hk. rewrite Hc, decide_True by done. apply (gok_globs_compiled gd Hg). by apply Hhas. }
    assert (∀ c k id', gd_mem (MkGlobDim (literals gd) g c) k id' =
      (negb (bool_decide (key = k ∧ id = id')) && gd_mem gd k id')%bool) as Hmem.
    { intros c k id'. unfold gd_mem; cbn. destruct (IsGlob k) eqn:Ek; [apply Hm|].
      rewrite bool_decide_false; [done|]. intros [-> _]. congruence. }
    unfold lazyDimension_has, set_globs, set_compiled; cbn.
    case_bool_decide as Hk; cbn [negb]; (split; [apply Hok|apply Hmem]); intros k.
    + case_decide as Hk'; [done|]. destruct (compiled gd !! k) as [p|] eqn:Ec; [|done].
      apply (gok_compiled gd Hg) in Ec as (Hgk & _). exfalso. apply Hk'.
      destruct (decide (k = key)) as [->|]; [done|]. by apply Hhas.
    + destruct (decide (k = key)) as [->|Hne]; [rewrite lookup_delete_eq; by rewrite decide_False|].
      rewrite lookup_delete_ne by done. case_decide as Hk'; [done|].
      destruct (compiled gd !! k) as [p|] eqn:Ec; [|done]. apply (gok_compiled gd Hg) in Ec as (Hgk & _).
      exfalso. by apply Hk', Hhas.
  - eapply runs_bind; [apply lazy_Remove_runs, Hg|]. intros l [Hl Hm]. rret.
    pose proof (λ k, lazy_Remove_has _ _ key id k (gok_literals gd Hg) Hl Hm) as Hhas. split.
    + split; cbn; try apply Hg; [done|]. intros k Hk%Hhas. by apply (gok_lit_keys gd Hg).
    + intros k id'. rewrite gd_mem_set_literals. destruct (IsGlob k) eqn:Ek.
      * rewrite bool_decide_false; [done|]. intros [-> _]. congruence.
      * rewrite Hm. unfold gd_mem. by rewrite Ek.
Qed.

(** ** Queries *)

Definition g_rel : gstate → gstate → Prop := per_prod gd_rel arena_rel.

Lemma g_rel_ok gd a : gd_ok gd → arena_ok a → g_rel (gd, a) (gd, a).
Proof. intros Hg Ha. split; [by apply gd_rel_refl|by split]. Qed.

Lemma literals_Bitmap_runs key s :
  g_rel s s →
  sruns g_rel (literals_Bitmap key) s (λ r,
    match r with
    | Some bm => bm_is bm (λ id, lazy_mem (literals s.1) key id = true)
    | None => ∀ id, lazy_mem (literals s.1) key id = false
    end).
Proof.
  intros [[Hg _] [Ha _]]. eapply sruns_zoom.
  - eapply sruns_mono; [apply lazy_Bitmap_runs, Hg|]. intros [bm|]; [|done]. intros [Hb Hm]. split; [done|].
    intros id. by rewrite Hm.
  - intros l Hl. split; [|done]. apply gd_rel_build; [done|done|]. apply lazy_rel_refl, Hg.
Qed.

Lemma globs_Bitmap_runs key s :
  g_rel s s →
  sruns g_rel (globs_Bitmap key) s (λ r,
    match r with
    | Some bm => bm_is bm (λ id, lazy_mem (globs s.1) key id = true)
    | None => ∀ id, lazy_mem (globs s.1) key id = false
    end).
Proof.
  intros [[Hg _] [Ha _]]. eapply sruns_zoom.
  - eapply sruns_mono; [apply lazy_Bitmap_runs, Hg|]. intros [bm|]; [|done]. intros [Hb Hm]. split; [done|].
    intros id. by rewrite Hm.
  - intros l Hl. split; [|done]. apply gd_rel_build; [done| |done]. apply lazy_rel_refl, Hg.
Qed.

Lemma app_part_are parts r P (Q : N → Prop) :
  parts_are parts P →
  match r with Some bm => bm_is bm Q | None => ∀ id, ¬ Q id end →
  parts_are (app_part parts r) (λ id, P id ∨ Q id).
Proof.
  intros HP HQ. destruct r as [bm|]; cbn; [by apply parts_snoc|]. eapply parts_iff; [exact HP|].
  intros id. specialize (HQ id). tauto.
Qed.

Lemma in_arena_runs {A} (m : ST bitmapArena A) s P :
  g_rel s s → sruns arena_rel m s.2 P → sruns g_rel (in_arena m) s P.
Proof. intros [Hg Ha] Hm. eapply sruns_zoom; [exact Hm|]. intros a Ha'. split; [exact Hg|exact Ha']. Qed.

Section query_specs.
Context `{GoMapOrder}.

(** The identifiers found through glob keys. *)
Definition glob_hit (gd : globDimension) (value : string) (id : N) : Prop :=
  ∃ pat p, compiled gd !! pat = Some p ∧ glob_Match p value = true ∧ lazy_mem (globs gd) pat id = true.

Lemma glob_parts_runs value parts P s :
  g_rel s s → parts_are parts P →
  sruns g_rel (glob_parts value parts) s (λ ps, parts_are ps (λ id, P id ∨ glob_hit s.1 value id)).
Proof.
  intros Hs HP. unfold glob_parts.
  eapply sruns_bind; [apply _|apply (sruns_gets g_rel _ _ (λ cs, cs = go_range (compiled s.1))); done|].
  intros cs s1 Hs1 ->.
  eapply sruns_mono; [apply (sruns_foldST g_rel (λ done ps, parts_are ps (λ id, P id ∨
    ∃ pat p, (pat, p) ∈ done ∧ glob_Match p value = true ∧ lazy_mem (globs s.1) pat id = true)))|].
  - by eapply per_right; [apply _|].
  - eapply parts_iff; [exact HP|]. intros id. split; [auto|]. intros [?|(pat & p & Hin & _)]; [done|].
    by apply elem_of_nil in Hin.
  - intros done [pat p] rest ps s2 _ Hs2 Hps.
    assert (g_rel s s2) as Hs' by by etrans. pose proof Hs' as [(_ & _ & _ & _ & (_ & _ & Hm)) _].
    destruct (glob_Match p value) eqn:Em.
    + eapply sruns_bind; [apply _|apply globs_Bitmap_runs; by eapply per_right; [apply _|]|].
      intros r s3 Hs3 Hr. apply sruns_ret; [by eapply per_right; [apply _|]|].
      eapply parts_iff; [eapply (app_part_are ps r) with (Q := λ id, lazy_mem (globs s.1) pat id = true); [exact Hps|]|].
      * destruct r as [bm|].
        -- eapply bm_is_iff; [exact Hr|]. intros id. cbn. by rewrite <-Hm.
        -- intros id Hx. rewrite Hm in Hx. by rewrite Hr in Hx.
      * intros id. setoid_rewrite elem_of_app. setoid_rewrite list_elem_of_singleton. split.
        -- intros [[?|(x & y & ? & ? & ?)]|?]; [auto|right; eauto 8|right; exists pat, p; auto].
        -- intros [?|(x & y & [?|[= -> ->]] & ? & ?)]; [auto|left; right; eauto 8|auto].
    + apply sruns_ret; [by eapply per_right; [apply _|]|]. eapply parts_iff; [exact Hps|]. intros id.
      setoid_rewrite elem_of_app. setoid_rewrite list_elem_of_singleton. split.
      * intros [?|(x & y & ? & ? & ?)]; [auto|right; eauto 8].
      * intros [?|(x & y & [?|[= -> ->]] & ? & ?)]; [auto|right; eauto 8|congruence].
  - intros ps Hps. eapply parts_iff; [exact Hps|]. intros id. unfold glob_hit. by setoid_rewrite elem_of_go_range.
Qed.

(** Literal and glob lookups together are the hits of the value. *)
Lemma gd_hit_split gd value id :
  gd_ok gd → gd_hit gd value id ↔ lazy_mem (literals gd) value id = true ∨ glob_hit gd value id.
Proof.
  intros Hg. unfold gd_hit, glob_hit, key_matches, gd_mem. split.
  - intros (key & Hk & Hm). destruct (IsGlob key) eqn:Eg.
    + right. destruct (proj2 (lazy_has_iff _ key (gok_globs gd Hg))) as [st Hst]; [eauto|].
      destruct (gok_globs_compiled gd Hg key) as [p Hp]; [eauto|]. exists key, p. split_and!; [done| |done].
      apply (gok_compiled gd Hg) in Hp as (_ & _ & Hp). unfold MatchesGlob in Hk. by rewrite Hp in Hk.
    + left. apply bool_decide_eq_true in Hk. by subst.
  - intros [Hm|(pat & p & Hc & Hmatch & Hm)].
    + exists value. assert (IsGlob value = false) as ->.
      { apply (gok_lit_keys gd Hg). apply lazy_has_iff; [apply Hg|eauto]. }
      by rewrite bool_decide_true.
    + apply (gok_compiled gd Hg) in Hc as (_ & Hp & Hc). exists pat. rewrite Hp. unfold MatchesGlob. by rewrite Hc.
Qed.

Lemma gd_Query_is value s :
  g_rel s s → sruns g_rel (globDimension_Query value) s (λ bm, bm_is bm (gd_hit s.1 value)).
Proof.
  intros Hs. pose proof Hs as [[Hg _] _]. unfold globDimension_Query.
  eapply sruns_bind; [apply _|by apply literals_Bitmap_runs|]. intros r s1 Hs1 Hr.
  eapply sruns_bind; [apply _|apply (sruns_gets g_rel _ _ (λ n, n = size (compiled s1.1))); [by eapply per_right; [apply _|]|done]|].
  intros n s2 Hs2 ->. pose proof Hs1 as [(_ & _ & Hc & _) _]. case_decide as Hn.
  - apply sruns_ret; [by eapply per_right; [apply _|]|]. rewrite <-Hc in Hn. apply map_size_empty_inv in Hn.
    assert (∀ id, gd_hit s.1 value id ↔ lazy_mem (literals s.1) value id = true) as Hh.
    { intros id. rewrite gd_hit_split by done. unfold glob_hit. rewrite Hn. split; [|auto].
      intros [?|(? & ? & Hx & _)]; [done|]. by rewrite lookup_empty in Hx. }
    destruct r as [bm|]; (eapply bm_is_iff; [exact Hr || exact bm_is_empty|]); intros id; rewrite Hh; [done|].
    by rewrite Hr.
  - assert (g_rel s s2) as Hs' by by etrans.
    eapply sruns_bind; [apply _|apply (glob_parts_runs value (app_part [] r) (λ id, False ∨ lazy_mem (literals s.1) value id = true))|].
    + by eapply per_right; [apply _|].
    + apply app_part_are; [apply parts_nil|]. destruct r; [done|]. intros id. by rewrite Hr.
    + intros parts s3 Hs3 Hp. apply in_arena_runs; [by eapply per_right; [apply _|]|].
      apply or_parts_is. { assert (g_rel s3 s3) as [_ [? _]] by (by eapply per_right; [apply _|]). done. }
      eapply parts_iff; [exact Hp|]. intros id. rewrite gd_hit_split by done. unfold glob_hit.
      pose proof Hs' as [(_ & _ & Hc' & _ & (_ & _ & Hgm)) _]. rewrite <-Hc'. setoid_rewrite <-Hgm. tauto.
Qed.

Lemma gd_QueryMultiple_is values s :
  g_rel s s →
  sruns g_rel (globDimension_QueryMultiple values) s (λ bm, bm_is bm (λ id, ∃ v, v ∈ values ∧ gd_hit s.1 v id)).
Proof.
  intros Hs. pose proof Hs as [[Hg _] _]. unfold globDimension_QueryMultiple.
  eapply sruns_bind; [apply _|apply (sruns_foldST g_rel (λ done ps, parts_are ps (λ id, ∃ v, v ∈ done ∧ gd_hit s.1 v id)))|].
  - done.
  - eapply parts_iff; [apply parts_nil|]. intros id. split; [done|]. by intros (v & ?%elem_of_nil & _).
  - intros done v rest ps s1 _ Hs1 Hps.
    eapply sruns_bind; [apply _|apply literals_Bitmap_runs; by eapply per_right; [apply _|]|]. intros r s2 Hs2 Hr.
    assert (g_rel s s2) as Hs' by by etrans.
    pose proof Hs1 as [(_ & _ & _ & (_ & _ & Hlm) & _) _]. pose proof Hs' as [(_ & Hg2 & Hc & _ & (_ & _ & Hgm)) _].
    eapply sruns_mono; [apply (glob_parts_runs v _ (λ id, (∃ v, v ∈ done ∧ gd_hit s.1 v id) ∨ lazy_mem (literals s.1) v id = true))|].
    + by eapply per_right; [apply _|].
    + apply app_part_are; [done|]. destruct r as [bm|].
      * eapply bm_is_iff; [exact Hr|]. intros id. cbn. by rewrite <-Hlm.
      * intros id. by rewrite Hlm, Hr.
    + intros ps' Hps'. eapply parts_iff; [exact Hps'|]. intros id. setoid_rewrite elem_of_app.
      setoid_rewrite list_elem_of_singleton.
      assert (glob_hit s2.1 v id ↔ glob_hit s.1 v id) as ->.
      { unfold glob_hit. rewrite <-Hc. by setoid_rewrite <-Hgm. }
      pose proof (gd_hit_split s.1 v id Hg) as Hh. split.
      * intros [[(x & ? & ?)|?]|?]; [eauto|exists v; tauto..].
      * intros (x & [?| ->] & ?); [eauto|tauto].
  - intros ps s1 Hs1 Hps. apply in_arena_runs; [by eapply per_right; [apply _|]|].
    apply or_parts_is; [|done]. by destruct Hs1 as [_ [_ ?]].
Qed.

Lemma gd_compact_runs gd : gd_ok gd → runs (globDimension_compact gd) (gd_rel gd).
Proof.
  intros Hg. unfold globDimension_compact.
  eapply runs_bind; [apply lazy_compact_runs, Hg|]. intros l Hl.
  eapply runs_bind; [apply lazy_compact_runs, Hg|]. intros g Hgl. rret. by apply gd_rel_build.
Qed.

Lemma gd_intersectingKeys_runs gd filter :
  gd_ok gd → Bitmap_ok filter →
  runs (globDimension_intersectingKeys gd filter) (λ keys,
    ∀ k, k ∈ keys ↔ ∃ id, gd_mem gd k id = true ∧ bm_mem filter id = true).
Proof.
  intros Hg Hf. unfold globDimension_intersectingKeys.
  eapply runs_bind; [apply lazy_intersectingKeys_runs; [apply Hg|done]|]. intros ks [_ Hks].
  eapply runs_bind; [apply lazy_intersectingKeys_runs; [apply Hg|done]|]. intros gs [_ Hgs]. rret.
  intros k. rewrite elem_of_app, Hks, Hgs. unfold gd_mem. destruct (IsGlob k) eqn:Ek.
  - split; [|auto]. intros [(id & Hm & _)|?]; [|done]. exfalso.
    enough (IsGlob k = false) by congruence. apply (gok_lit_keys gd Hg), lazy_has_iff; [apply Hg|eauto].
  - split; [|auto]. intros [?|(id & Hm & _)]; [done|]. exfalso.
    destruct (gok_globs_compiled gd Hg k) as [p Hp]; [apply lazy_has_iff; [apply Hg|eauto]|].
    apply (gok_compiled gd Hg) in Hp as (_ & ? & _). congruence.
Qed.
End query_specs.
End glob.
