(* ===== verification/Namer.v ===== *)
(** Names of policies: [src/internal/namer/namer.go] and
    [namer_non_embedded.go].

    Go strings are sequences of bytes, as [string] is here.  The character
    classes of the two regular expressions are ASCII, and every byte of a
    non-ASCII rune is outside them, so matching bytes is matching runes.
    The hash behind module identifiers (xxhash) is a third-party package: it is
    the parameter [HashStr]. *)
From S2P Require Import Prelude.

Local Open Scope string_scope.

(** * Characters *)

Definition in_range (lo hi c : ascii) : bool :=
  bool_decide (nat_of_ascii lo ≤ nat_of_ascii c ∧ nat_of_ascii c ≤ nat_of_ascii hi)%nat.
Definition is_alpha (c : ascii) : bool := in_range "a" "z" c || in_range "A" "Z" c.
Definition is_digit (c : ascii) : bool := in_range "0" "9" c.
Definition is_word_char (c : ascii) : bool := is_alpha c || is_digit c || bool_decide (c = "_"%char).

Definition isInvalidIdentifierChar (r : ascii) : bool :=
  if decide (r = "."%char ∨ r = "_"%char) then false
  else if is_digit r || in_range "a" "z" r || in_range "A" "Z" r then false
  else true.

Fixpoint ContainsChar (f : ascii → bool) (s : string) : bool :=
  match s with
  | EmptyString => false
  | String c s => f c || ContainsChar f s
  end.

(** [oldNamePattern]: the whole string is segments separated by colons, each a
    letter followed by word characters and the characters at, dot, dash, slash. *)
Definition is_name_char (c : ascii) : bool :=
  is_word_char c || bool_decide (c ∈ ["@"; "."; "-"; "/"]%char).
Fixpoint name_rest (s : string) : bool :=
  match s with
  | EmptyString => true
  | String c s =>
      if is_name_char c then name_rest s
      else if decide (c = ":"%char) then
        match s with
        | String c s => is_alpha c && name_rest s
        | EmptyString => false
        end
      else false
  end.
Definition oldNamePattern_MatchString (s : string) : bool :=
  match s with
  | String c s => is_alpha c && name_rest s
  | EmptyString => false
  end.

(** [invalidIdentifierChars.ReplaceAllLiteralString(v, "_")]: every maximal run
    of characters outside [\w.] becomes one underscore. *)
Definition is_ident_char (c : ascii) : bool := is_word_char c || bool_decide (c = "."%char).
Fixpoint replace_invalid (in_run : bool) (s : string) : string :=
  match s with
  | EmptyString => ""
  | String c s =>
      if is_ident_char c then String c (replace_invalid false s)
      else if in_run then replace_invalid true s
      else String "_" (replace_invalid true s)
  end.

Definition sanitize (v : string) : string :=
  if negb (ContainsChar isInvalidIdentifierChar v) then v
  else if oldNamePattern_MatchString v then replace_invalid false v
  else v.

Definition SanitizedResource (resource : string) : string := sanitize resource.

(** * Fully-qualified names *)

Definition fqnPrefix : string := "cerbos.".
Definition DerivedRolesPrefix : string := fqnPrefix +:+ "derived_roles".
Definition ExportConstantsPrefix : string := fqnPrefix +:+ "export_constants".
Definition ExportVariablesPrefix : string := fqnPrefix +:+ "export_variables".
Definition PrincipalPoliciesPrefix : string := fqnPrefix +:+ "principal".
Definition ResourcePoliciesPrefix : string := fqnPrefix +:+ "resource".
Definition RolePoliciesPrefix : string := fqnPrefix +:+ "role".
Definition DefaultVersion : string := "default".
Definition DefaultScope : string := "".

Definition withScope (fqn scope : string) : string :=
  if decide (scope = "") then fqn else fqn +:+ "/" +:+ scope.

Definition versioned (prefix name version : string) : string :=
  prefix +:+ "." +:+ sanitize name +:+ ".v" +:+ sanitize version.

Definition ResourcePolicyFQN (resource version scope : string) : string :=
  withScope (versioned ResourcePoliciesPrefix resource version) scope.
Definition PrincipalPolicyFQN (principal version scope : string) : string :=
  withScope (versioned PrincipalPoliciesPrefix principal version) scope.
Definition RolePolicyFQN (role version scope : string) : string :=
  let version := if decide (version = "") then DefaultVersion else version in
  withScope (versioned RolePoliciesPrefix role version) scope.
Definition DerivedRolesFQN (roleSetName : string) : string :=
  DerivedRolesPrefix +:+ "." +:+ sanitize roleSetName.
Definition ExportConstantsFQN (constantsName : string) : string :=
  ExportConstantsPrefix +:+ "." +:+ sanitize constantsName.
Definition ExportVariablesFQN (variablesName : string) : string :=
  ExportVariablesPrefix +:+ "." +:+ sanitize variablesName.

(** [strings.TrimPrefix] *)
Fixpoint strip_prefix (p s : string) : option string :=
  match p, s with
  | EmptyString, _ => Some s
  | String a p, String b s => if decide (a = b) then strip_prefix p s else None
  | String _ _, EmptyString => None
  end.
Definition TrimPrefix (s p : string) : string := default s (strip_prefix p s).

(** [strings.Cut(s, "/")]: what follows the first slash. *)
Fixpoint after_slash (s : string) : string :=
  match s with
  | EmptyString => ""
  | String c s => if decide (c = "/"%char) then s else after_slash s
  end.

Definition ScopeFromFQN (fqn : string) : string := after_slash fqn.
Definition PolicyKeyFromFQN (m : string) : string := TrimPrefix m fqnPrefix.
Definition FQNFromPolicyKey (s : string) : string := fqnPrefix +:+ s.
Definition SimpleName (fqn : string) : string :=
  TrimPrefix (TrimPrefix (TrimPrefix fqn (ExportVariablesPrefix +:+ ".")) (ExportConstantsPrefix +:+ ".")) (DerivedRolesPrefix +:+ ".").
Definition ScopeValue (scope : string) : string := TrimPrefix scope ".".

(** * Scope ancestry

    [for i := len(scope) - 1; i >= 0; i--]: positions from the last to the first. *)

Definition down (n : nat) : list nat := rev (seq 0 n).

Definition parent_at (scope : string) (i : nat) : option string :=
  if decide (String.get i scope = Some "."%char ∨ i = 0%nat) then Some (String.substring 0 i scope) else None.

Definition ScopeParents (scope : string) : list string := omap (parent_at scope) (down (String.length scope)).

Definition buildFQNTree {T} (fqn scope : string) (elementFn : string → T) : list T :=
  if decide (scope = "") then [elementFn fqn]
  else
    ([elementFn (withScope fqn scope)] ++
    omap (λ i, if decide (String.get i scope = Some "."%char)
               then Some (elementFn (withScope fqn (String.substring 0 i scope))) else None)
      (down (String.length scope)) ++
    [elementFn fqn])%list.

(** * Rule and policy names *)

(** The policy kinds as [Policy] and [PolicyCoords] name them. *)
Inductive PolicyType :=
  | Policy_ResourcePolicy (resource version scope : string)
  | Policy_PrincipalPolicy (principal version scope : string)
  | Policy_RolePolicy (role version scope : string)
  | Policy_DerivedRoles (name : string)
  | Policy_ExportConstants (name : string)
  | Policy_ExportVariables (name : string).

Definition FQN (p : PolicyType) : string :=
  match p with
  | Policy_ResourcePolicy resource version scope => ResourcePolicyFQN resource version scope
  | Policy_PrincipalPolicy principal version scope => PrincipalPolicyFQN principal version scope
  | Policy_RolePolicy role version scope => RolePolicyFQN role version scope
  | Policy_DerivedRoles name => DerivedRolesFQN name
  | Policy_ExportConstants name => ExportConstantsFQN name
  | Policy_ExportVariables name => ExportVariablesFQN name
  end.

Definition FQNTree (p : PolicyType) : list string :=
  match p with
  | Policy_ResourcePolicy resource version scope => buildFQNTree (ResourcePolicyFQN resource version "") scope id
  | Policy_PrincipalPolicy principal version scope => buildFQNTree (PrincipalPolicyFQN principal version "") scope id
  | Policy_RolePolicy role version scope => [RolePolicyFQN role version scope]
  | Policy_DerivedRoles name => buildFQNTree (DerivedRolesFQN name) "" id
  | Policy_ExportConstants name => buildFQNTree (ExportConstantsFQN name) "" id
  | Policy_ExportVariables name => buildFQNTree (ExportVariablesFQN name) "" id
  end.

Definition PolicyKey (p : PolicyType) : string := PolicyKeyFromFQN (FQN p).

Record PolicyCoords := { pc_Kind : string; pc_Name : string; pc_Version : string; pc_Scope : string }.

Definition lower (c : ascii) : ascii :=
  if in_range "A" "Z" c then ascii_of_nat (nat_of_ascii c + 32) else c.
Fixpoint ToLower (s : string) : string :=
  match s with EmptyString => "" | String c s => String (lower c) (ToLower s) end.

(** [None] is the panic on an unknown kind. *)
Definition PolicyCoords_FQN (pc : PolicyCoords) : option string :=
  let prefix := fqnPrefix +:+ ToLower (pc_Kind pc) in
  if decide (prefix = DerivedRolesPrefix) then Some (DerivedRolesFQN (pc_Name pc))
  else if decide (prefix = ExportConstantsPrefix) then Some (ExportConstantsFQN (pc_Name pc))
  else if decide (prefix = ExportVariablesPrefix) then Some (ExportVariablesFQN (pc_Name pc))
  else if decide (prefix = PrincipalPoliciesPrefix) then Some (PrincipalPolicyFQN (pc_Name pc) (pc_Version pc) (pc_Scope pc))
  else if decide (prefix = ResourcePoliciesPrefix) then Some (ResourcePolicyFQN (pc_Name pc) (pc_Version pc) (pc_Scope pc))
  else if decide (prefix = RolePoliciesPrefix) then Some (RolePolicyFQN (pc_Name pc) (pc_Version pc) (pc_Scope pc))
  else None.

Definition PolicyCoords_PolicyKey (pc : PolicyCoords) : option string :=
  fqn ← PolicyCoords_FQN pc; Some (PolicyKeyFromFQN fqn).

(** The metadata of a policy in the rule table. *)
Inductive MetaName :=
  | Meta_Principal (principal : string)
  | Meta_Resource (resource : string)
  | Meta_Role (role : string).
Record RuleTableMetadata := MkMeta {
  meta_Fqn : string;
  meta_Name : option MetaName;
  meta_Version : string;
  meta_SourceAttributes : gmap string string;
}.

(** [RuleFQN] on rule table metadata; dereferencing a nil metadata panics. *)
Definition RuleFQN (rpsMeta : option RuleTableMetadata) (scope ruleName : string) : option string :=
  m ← rpsMeta;
  let policyFqn :=
    match meta_Name m with
    | Some (Meta_Principal p) => PrincipalPolicyFQN p (meta_Version m) scope
    | Some (Meta_Resource r) => ResourcePolicyFQN r (meta_Version m) scope
    | Some (Meta_Role r) => RolePolicyFQN r (meta_Version m) scope
    | None => ""
    end in
  Some (PolicyKeyFromFQN policyFqn +:+ "#" +:+ ruleName).

(** ** Module identifiers *)

Class StringHash := { HashStr : string → N }.

Section module_ids.
Context `{StringHash}.

Definition ModuleID : Type := N.
Definition GenModuleIDFromFQN (name : string) : ModuleID := HashStr name.
Definition GenModuleID (p : PolicyType) : ModuleID := GenModuleIDFromFQN (FQN p).
Definition ResourcePolicyModuleID (resource version scope : string) : ModuleID :=
  GenModuleIDFromFQN (ResourcePolicyFQN resource version scope).
Definition PrincipalPolicyModuleID (principal version scope : string) : ModuleID :=
  GenModuleIDFromFQN (PrincipalPolicyFQN principal version scope).
Definition RolePolicyModuleID (role version scope : string) : ModuleID :=
  GenModuleIDFromFQN (RolePolicyFQN role version scope).
Definition DerivedRolesModuleID (roleSetName : string) : ModuleID := GenModuleIDFromFQN (DerivedRolesFQN roleSetName).

Definition ScopedResourcePolicyModuleIDs (resource version scope : string) (genTree : bool) : list ModuleID :=
  if negb genTree || bool_decide (scope = "") then [ResourcePolicyModuleID resource version scope]
  else buildFQNTree (ResourcePolicyFQN resource version "") scope GenModuleIDFromFQN.
Definition ScopedPrincipalPolicyModuleIDs (principal version scope : string) (genTree : bool) : list ModuleID :=
  if negb genTree || bool_decide (scope = "") then [PrincipalPolicyModuleID principal version scope]
  else buildFQNTree (PrincipalPolicyFQN principal version "") scope GenModuleIDFromFQN.
End module_ids.

(** * Lemmas on strings *)

Lemma string_app_cons c (a b : string) : String c a +:+ b = String c (a +:+ b).
Proof. done. Qed.

Lemma strip_prefix_app p s : strip_prefix p (p +:+ s) = Some s.
Proof. induction p as [|c p IH]; [done|]. rewrite string_app_cons. cbn [strip_prefix]. by rewrite decide_True. Qed.

Lemma strip_prefix_Some p s r : strip_prefix p s = Some r → s = p +:+ r.
Proof.
  revert s. induction p as [|a p IH]; intros s; [by intros [= ->]|].
  destruct s as [|b s]; [done|]. cbn [strip_prefix]. destruct (decide (a = b)) as [->|]; [|done].
  intros ->%IH. done.
Qed.

Lemma TrimPrefix_app p s : TrimPrefix (p +:+ s) p = s.
Proof. unfold TrimPrefix. by rewrite strip_prefix_app. Qed.

Lemma string_app_assoc (a b c : string) : (a +:+ b) +:+ c = a +:+ (b +:+ c).
Proof. induction a as [|x a IH]; [done|]. by rewrite !string_app_cons, IH. Qed.

Lemma string_app_nil_r (a : string) : a +:+ "" = a.
Proof. induction a as [|x a IH]; [done|]. by rewrite !string_app_cons, IH. Qed.

Lemma string_length_app (a b : string) : String.length (a +:+ b) = (String.length a + String.length b)%nat.
Proof. induction a as [|x a IH]; [done|]. rewrite string_app_cons. cbn [String.length]. by rewrite IH. Qed.

Lemma get_app_l i (a b : string) : (i < String.length a)%nat → String.get i (a +:+ b) = String.get i a.
Proof.
  revert i. induction a as [|x a IH]; intros i; cbn [String.length]; [lia|]. intros Hi.
  rewrite string_app_cons. destruct i as [|i]; cbn [String.get]; [done|]. apply IH. lia.
Qed.

Lemma get_app_r i (a b : string) : String.get (String.length a + i) (a +:+ b) = String.get i b.
Proof. induction a as [|x a IH]; [done|]. rewrite string_app_cons. exact IH. Qed.

Lemma substring_0 (a : string) : String.substring 0 0 a = "".
Proof. by destruct a. Qed.

Lemma substring_app_lt i (a b : string) :
  (i ≤ String.length a)%nat → String.substring 0 i (a +:+ b) = String.substring 0 i a.
Proof.
  revert i. induction a as [|x a IH]; intros [|i]; cbn [String.length]; intros Hi; rewrite ?substring_0; [done|lia|done|].
  rewrite string_app_cons. cbn [String.substring]. by rewrite IH by lia.
Qed.

Lemma substring_all (a : string) : String.substring 0 (String.length a) a = a.
Proof. induction a as [|x a IH]; [done|]. cbn [String.length String.substring]. by rewrite IH. Qed.

Lemma substring_app_l (a b : string) : String.substring 0 (String.length a) (a +:+ b) = a.
Proof. by rewrite substring_app_lt, substring_all. Qed.

Lemma get_lt_Some i (s : string) : (i < String.length s)%nat → is_Some (String.get i s).
Proof. revert i. induction s as [|c s IH]; intros [|i]; cbn; intros; [lia|lia|done|]. apply IH. lia. Qed.

(** Splitting at a position. *)
Lemma get_split i (s : string) c :
  String.get i s = Some c → ∃ r, s = String.substring 0 i s +:+ String c r ∧ String.length (String.substring 0 i s) = i.
Proof.
  revert i. induction s as [|x s IH]; intros [|i]; cbn [String.get String.substring]; intros E; [done|done|..].
  - injection E as ->. by exists s.
  - apply IH in E as (r & E & El). exists r. rewrite string_app_cons, <-E. split; [done|]. cbn [String.length]. by rewrite El.
Qed.

(** * Sanitisation *)

Lemma ident_char_spec c : isInvalidIdentifierChar c = negb (is_ident_char c).
Proof.
  unfold isInvalidIdentifierChar, is_ident_char, is_word_char, is_alpha.
  repeat case_decide; repeat case_bool_decide; destruct (is_digit c), (in_range "a" "z" c), (in_range "A" "Z" c); cbn; naive_solver.
Qed.

Lemma replace_invalid_clean b s : ContainsChar isInvalidIdentifierChar (replace_invalid b s) = false.
Proof.
  revert b. induction s as [|c s IH]; intros b; cbn; [done|]. destruct (is_ident_char c) eqn:Ec; cbn.
  - by rewrite ident_char_spec, Ec, IH.
  - destruct b; cbn; [done|]. by rewrite IH.
Qed.

Lemma sanitize_clean v : ContainsChar isInvalidIdentifierChar v = false → sanitize v = v.
Proof. unfold sanitize. by intros ->. Qed.

(** No slash survives sanitisation of a name that the old pattern covers. *)
Lemma no_slash_clean v : ContainsChar isInvalidIdentifierChar v = false → ContainsChar (λ c, bool_decide (c = "/"%char)) v = false.
Proof.
  induction v as [|c v IH]; cbn; [done|]. intros [H1 H2]%orb_false_iff. rewrite IH by done.
  rewrite bool_decide_false; [done|]. by intros ->.
Qed.

Lemma after_slash_app s scope :
  ContainsChar (λ c, bool_decide (c = "/"%char)) s = false → after_slash (s +:+ "/" +:+ scope) = scope.
Proof.
  induction s as [|c s IH]; [done|]. rewrite ?string_app_cons. cbn [ContainsChar after_slash].
  intros [H1%bool_decide_eq_false H2]%orb_false_iff. rewrite decide_False by done. by apply IH.
Qed.

Lemma after_slash_none s : ContainsChar (λ c, bool_decide (c = "/"%char)) s = false → after_slash s = "".
Proof.
  induction s as [|c s IH]; [done|]. rewrite ?string_app_cons. cbn [ContainsChar after_slash].
  intros [H1%bool_decide_eq_false H2]%orb_false_iff. rewrite decide_False by done. by apply IH.
Qed.

Lemma ContainsChar_app f a b : ContainsChar f (a +:+ b) = ContainsChar f a || ContainsChar f b.
Proof. induction a as [|c a IH]; [done|]. rewrite string_app_cons. cbn [ContainsChar]. by rewrite IH, orb_assoc. Qed.

(** * Scope ancestry *)

Lemma down_S n : down (S n) = n :: down n.
Proof. unfold down. by rewrite seq_S, rev_app_distr. Qed.

Lemma elem_of_down i n : i ∈ down n ↔ (i < n)%nat.
Proof.
  unfold down. rewrite list_elem_of_In, <-in_rev, <-list_elem_of_In, elem_of_seq. lia.
Qed.

Lemma omap_ext_in {A B} (f g : A → option B) (l : list A) : (∀ x, x ∈ l → f x = g x) → omap f l = omap g l.
Proof.
  induction l as [|x l IH]; intros Hfg; [done|]. cbn. rewrite Hfg by left.
  rewrite IH by (intros y Hy; apply Hfg; by right). done.
Qed.

Lemma omap_none {A B} (f : A → option B) (l : list A) : (∀ x, x ∈ l → f x = None) → omap f l = [].
Proof.
  induction l as [|x l IH]; intros Hf; [done|]. cbn. rewrite Hf by left. apply IH. intros y Hy. apply Hf. by right.
Qed.

Lemma down_app n m : down (n + m) = (((λ i, n + i)%nat <$> down m) ++ down n)%list.
Proof.
  induction m as [|m IH]; [by rewrite Nat.add_0_r|]. rewrite Nat.add_succ_r, !down_S, IH. done.
Qed.

Lemma get_no_dot seg k :
  ContainsChar (λ c, bool_decide (c = "."%char)) seg = false → String.get k seg ≠ Some "."%char.
Proof.
  revert k. induction seg as [|c seg IH]; intros [|k]; cbn [ContainsChar String.get]; try done;
    intros [H1%bool_decide_eq_false H2]%orb_false_iff; [congruence|by apply IH].
Qed.

Lemma get_dot s rest : String.get (String.length s) (s +:+ "." +:+ rest) = Some "."%char.
Proof. pose proof (get_app_r 0 s ("." +:+ rest)) as E. by rewrite Nat.add_0_r in E. Qed.

(** The ancestors of [s.seg] are [s] and then the ancestors of [s]. *)
Lemma ScopeParents_step s seg :
  s ≠ "" → ContainsChar (λ c, bool_decide (c = "."%char)) seg = false →
  ScopeParents (s +:+ "." +:+ seg) = s :: ScopeParents s.
Proof.
  intros Hs Hseg. unfold ScopeParents. rewrite !string_length_app. cbn [String.length].
  rewrite down_app, down_app, fmap_app, !omap_app.
  replace (down 1) with [0%nat] by done. rewrite (omap_none _ (_ <$> (_ <$> _))).
  - cbn [app fmap list_fmap omap list_omap]. rewrite Nat.add_0_r. unfold parent_at at 1.
    rewrite decide_True by (left; apply get_dot). rewrite substring_app_l. f_equal. apply omap_ext_in.
    intros i Hi%elem_of_down. unfold parent_at. rewrite get_app_l, substring_app_lt by lia. done.
  - intros i (j & -> & (k & -> & Hk%elem_of_down)%list_elem_of_fmap)%list_elem_of_fmap.
    unfold parent_at. rewrite get_app_r. change (String.get (1 + k) ("." +:+ seg)) with (String.get k seg).
    rewrite decide_False; [done|]. intros [E|E]; [by eapply get_no_dot|destruct s; [done|cbn in E; lia]].
Qed.

(** A top-level scope has the root scope as its only ancestor. *)
Lemma ScopeParents_top seg :
  seg ≠ "" → ContainsChar (λ c, bool_decide (c = "."%char)) seg = false → ScopeParents seg = [""].
Proof.
  intros Hne Hseg. destruct seg as [|c seg]; [done|]. unfold ScopeParents. cbn [String.length].
  replace (S (String.length seg)) with (1 + String.length seg)%nat by lia. rewrite down_app, omap_app.
  rewrite omap_none.
  { replace (down 1) with [0%nat] by done. cbn [app omap list_omap]. unfold parent_at.
    by rewrite decide_True by (by right). }
  intros i (k & -> & Hk%elem_of_down)%list_elem_of_fmap. unfold parent_at.
  change (String.get (1 + k) (String c seg)) with (String.get k seg).
  rewrite decide_False; [done|]. intros [E|E]; [|lia]. eapply get_no_dot; [|exact E].
  by apply orb_false_iff in Hseg as [_ Hseg].
Qed.

(** Every ancestor is the root scope or a prefix ending before a dot. *)
Lemma elem_of_ScopeParents scope s :
  s ∈ ScopeParents scope ↔ scope ≠ "" ∧ (s = "" ∨ ∃ rest, scope = s +:+ "." +:+ rest).
Proof.
  unfold ScopeParents. rewrite list_elem_of_omap. split.
  - intros (i & Hi%elem_of_down & E). unfold parent_at in E. case_decide as Hd; [|done]. injection E as <-.
    split; [by intros ->; cbn in Hi; lia|]. destruct Hd as [Hd| ->]; [|left; by destruct scope].
    right. apply get_split in Hd as (r & Hr & _). exists r. exact Hr.
  - intros [Hne [->|[rest ->]]].
    + exists 0%nat. split; [apply elem_of_down; destruct scope; [done|cbn; lia]|]. unfold parent_at.
      rewrite decide_True by (by right). by destruct scope.
    + exists (String.length s). split; [apply elem_of_down; rewrite !string_length_app; cbn; lia|].
      unfold parent_at. rewrite decide_True by (left; apply get_dot). by rewrite substring_app_l.
Qed.
