(* ===== verification/Policy.v ===== *)
(** The data of the rule table: the messages of
    [src/api/private/cerbos/runtime/v1/runtime.proto] and
    [src/api/public/cerbos/policy/v1/policy.proto] that the rule table and its
    index read, and the interfaces of the third-party code they are handed to
    (the CEL compiler and the hash functions). *)
From S2P Require Import Prelude.

Open Scope nat_scope.

(** * Enumerations *)

Inductive Kind :=
  | KIND_UNSPECIFIED | KIND_DERIVED_ROLES | KIND_EXPORT_VARIABLES | KIND_PRINCIPAL
  | KIND_RESOURCE | KIND_ROLE_POLICY | KIND_EXPORT_CONSTANTS.

Definition Kind_number (k : Kind) : nat :=
  match k with
  | KIND_UNSPECIFIED => 0 | KIND_DERIVED_ROLES => 1 | KIND_EXPORT_VARIABLES => 2 | KIND_PRINCIPAL => 3
  | KIND_RESOURCE => 4 | KIND_ROLE_POLICY => 5 | KIND_EXPORT_CONSTANTS => 6
  end.
Definition Kind_of_number (n : nat) : option Kind :=
  match n with
  | 0 => Some KIND_UNSPECIFIED | 1 => Some KIND_DERIVED_ROLES | 2 => Some KIND_EXPORT_VARIABLES
  | 3 => Some KIND_PRINCIPAL | 4 => Some KIND_RESOURCE | 5 => Some KIND_ROLE_POLICY
  | 6 => Some KIND_EXPORT_CONSTANTS | _ => None
  end.

#[export] Instance Kind_eq_dec : EqDecision Kind.
Proof. solve_decision. Defined.
#[export] Instance Kind_countable : Countable Kind.
Proof. refine (inj_countable Kind_number Kind_of_number _). by intros []. Defined.

Inductive ScopePermissions :=
  | SCOPE_PERMISSIONS_UNSPECIFIED
  | SCOPE_PERMISSIONS_OVERRIDE_PARENT
  | SCOPE_PERMISSIONS_REQUIRE_PARENTAL_CONSENT_FOR_ALLOWS.
#[export] Instance ScopePermissions_eq_dec : EqDecision ScopePermissions.
Proof. solve_decision. Defined.

Inductive Effect := EFFECT_UNSPECIFIED | EFFECT_ALLOW | EFFECT_DENY | EFFECT_NO_MATCH.
#[export] Instance Effect_eq_dec : EqDecision Effect.
Proof. solve_decision. Defined.

(** * Expressions, conditions, outputs *)

(** The type-checked tree of an expression is dropped after loading; only the
    source text is used at run time. *)
Record Expr := MkExpr { Original : string }.
#[export] Instance Expr_eq_dec : EqDecision Expr.
Proof. solve_decision. Defined.

(** A condition; [Cond_unset] is a message whose [op] is not set.  A nil
    condition is [None] of [option Condition]. *)
Inductive Condition :=
  | Cond_Expr (e : Expr)
  | Cond_All (l : list Condition)
  | Cond_Any (l : list Condition)
  | Cond_None (l : list Condition)
  | Cond_unset.

Record Output_When := MkWhen { RuleActivated : option Expr; ConditionNotMet : option Expr }.
Record Output := MkOutput { When : option Output_When }.

Record Variable_ := MkVariable { var_Name : string; var_Expr : Expr }.

(** [google.protobuf.Value]; a number is kept as its IEEE-754 bits. *)
Inductive Value :=
  | V_null | V_number (bits : N) | V_string (s : string) | V_bool (b : bool)
  | V_struct (fields : list (string * Value)) | V_list (l : list Value).

Record Params := MkParams { OrderedVariables : list Variable_; pm_Constants : gmap string Value }.

(** * Rule rows *)

Inductive ActionSet :=
  | ActionSet_none
  | ActionSet_Action (action : string)
  | ActionSet_AllowActions (actions : gset string).

Record EvaluationKeyTuplePB := MkKeyPB {
  pbk_Prefix : string; pbk_Resource : string; pbk_Principal : string; pbk_Role : string;
  pbk_DerivedRole : string; pbk_Version : string; pbk_Scope : string; pbk_RuleName : string; pbk_RuleId : N;
}.

Record RuleRow := MkRow {
  r_OriginFqn : string;
  r_Resource : string;
  r_Role : string;
  r_ActionSet : ActionSet;
  r_Condition : option Condition;
  r_DerivedRoleCondition : option Condition;
  r_Effect : Effect;
  r_Scope : string;
  r_ScopePermissions : ScopePermissions;
  r_Version : string;
  r_OriginDerivedRole : string;
  r_EmitOutput : option Output;
  r_Name : string;
  r_Principal : string;
  r_Params : option Params;
  r_DerivedRoleParams : option Params;
  r_EvaluationKey : string;
  r_EvaluationKeyTuple : option EvaluationKeyTuplePB;
  r_PolicyKind : Kind;
  r_FromRolePolicy : bool;
}.

(** * Third-party code *)

(** CEL (cel.dev/cel-go): compiling an expression to a program may fail. *)
Class CelCompiler := {
  cel_program : Type;
  cel_compile : string → option cel_program;
}.

(** The fields that take part in the functional checksum of a rule row: exactly
    those of [functionalRuleRowFields]. *)
Record FunctionalFields := MkFunctional {
  ff_condition : option Condition;
  ff_derived_role_condition : option Condition;
  ff_effect : Effect;
  ff_scope_permissions : ScopePermissions;
  ff_emit_output : option Output;
  ff_params : option Params;
  ff_derived_role_params : option Params;
  ff_policy_kind : Kind;
  ff_from_role_policy : bool;
}.
Definition functionalRuleRowFields (r : RuleRow) : FunctionalFields :=
  MkFunctional (r_Condition r) (r_DerivedRoleCondition r) (r_Effect r) (r_ScopePermissions r) (r_EmitOutput r)
    (r_Params r) (r_DerivedRoleParams r) (r_PolicyKind r) (r_FromRolePolicy r).

(** The content hashes (hashpb over xxhash).  [hash_functional] is fed the
    functional fields and then the discriminator byte. *)
Class ContentHash := {
  hash_functional : FunctionalFields → N → N;
  hash_params : option Params → N;
}.
