(* ===== verification/ScopePerms.v ===== *)
(** Scope permissions: the tracker of
    [src/internal/policy/scopeperms/scopeperms.go], which rejects policies that
    share a scope and disagree on [scopePermissions]. *)
From S2P Require Import Prelude Policy.

Open Scope nat_scope.

Record PolicySetting := MkSetting { ps_PolicyKey : string; ps_Permissions : ScopePermissions }.
Record Conflict := MkConflict { c_Scope : string; c_PolicySettings : list PolicySetting }.

Definition Normalise (sp : ScopePermissions) : ScopePermissions :=
  if decide (sp = SCOPE_PERMISSIONS_UNSPECIFIED) then SCOPE_PERMISSIONS_OVERRIDE_PARENT else sp.

Definition Constrained (kind : Kind) : bool := bool_decide (kind = KIND_RESOURCE ∨ kind = KIND_PRINCIPAL).

Record Tracker := MkTracker {
  t_scopes : gmap string (gmap string ScopePermissions);
  t_policies : gmap string string;
}.

Definition NewTracker : Tracker := MkTracker ∅ ∅.

(** Indexing a missing scope gives the nil map, which holds nothing. *)
Definition settings_of (t : Tracker) (scope : string) : gmap string ScopePermissions :=
  default ∅ (t_scopes t !! scope).

Definition Tracker_Remove (t : Tracker) (policyKey : string) : Tracker :=
  match t_policies t !! policyKey with
  | None => t
  | Some scope =>
      let policies := delete policyKey (t_policies t) in
      match t_scopes t !! scope with
      | None => MkTracker (t_scopes t) policies
      | Some settings =>
          let settings := delete policyKey settings in
          if decide (size settings = 0) then MkTracker (delete scope (t_scopes t)) policies
          else MkTracker (<[scope := settings]> (t_scopes t)) policies
      end
  end.

Definition Tracker_Add (t : Tracker) (kind : Kind) (policyKey scope : string) (sp : ScopePermissions) : Tracker :=
  if negb (Constrained kind) then t
  else
    let sp1 := Normalise sp in
    if decide (settings_of t scope !! policyKey = Some sp1) then t
    else
      let t := Tracker_Remove t policyKey in
      let settings := settings_of t scope in
      MkTracker (<[scope := <[policyKey := sp1]> settings]> (t_scopes t)) (<[policyKey := scope]> (t_policies t)).

(** Byte-wise string order, as [<] on Go strings. *)
Fixpoint string_le (a b : string) : Prop :=
  match a, b with
  | EmptyString, _ => True
  | String _ _, EmptyString => False
  | String x a, String y b =>
      nat_of_ascii x < nat_of_ascii y ∨ nat_of_ascii x = nat_of_ascii y ∧ string_le a b
  end.
#[export] Instance string_le_dec a b : Decision (string_le a b).
Proof.
  revert b. induction a as [|x a IH]; intros [|y b]; cbn; [left; done..|right; tauto|].
  destruct (decide (nat_of_ascii x < nat_of_ascii y)); [left; auto|].
  destruct (decide (nat_of_ascii x = nat_of_ascii y)); [|right; tauto].
  destruct (IH b); [left; auto|right; tauto].
Defined.

Definition setting_le (a b : PolicySetting) : Prop := string_le (ps_PolicyKey a) (ps_PolicyKey b).
#[export] Instance setting_le_dec a b : Decision (setting_le a b) := string_le_dec _ _.
Definition conflict_le (a b : Conflict) : Prop := string_le (c_Scope a) (c_Scope b).
#[export] Instance conflict_le_dec a b : Decision (conflict_le a b) := string_le_dec _ _.

(** [sort.Slice]: any sorting algorithm; the keys are distinct wherever the code
    sorts, so the result is determined. *)
Definition sortSettings (s : list PolicySetting) : list PolicySetting := merge_sort setting_le s.

Section tracker.
Context `{GoMapOrder}.

Definition Tracker_Check (t : Tracker) (kind : Kind) (policyKey scope : string) (sp : ScopePermissions)
    (ignoredPolicyKey : string) : option Conflict :=
  if negb (Constrained kind) then None
  else
    let want := Normalise sp in
    let others := foldl (λ others '(key, have),
      if decide (key = policyKey ∨ key = ignoredPolicyKey ∨ have = want) then others
      else others ++ [MkSetting key have]) [] (go_range (settings_of t scope)) in
    if decide (length others = 0) then None
    else Some (MkConflict scope (sortSettings (others ++ [MkSetting policyKey want]))).

Definition Tracker_Tracked (t : Tracker) (scope : string) : bool := bool_decide (0 < size (settings_of t scope)).

(** The loop of [disagree]: [first] is unset until the first setting is seen. *)
Fixpoint disagree_loop (first : ScopePermissions) (l : list (string * ScopePermissions)) : bool :=
  match l with
  | [] => false
  | (_, sp) :: l =>
      if decide (first = SCOPE_PERMISSIONS_UNSPECIFIED) then disagree_loop sp l
      else if decide (sp ≠ first) then true
      else disagree_loop first l
  end.
Definition disagree (settings : gmap string ScopePermissions) : bool :=
  disagree_loop SCOPE_PERMISSIONS_UNSPECIFIED (go_range settings).

Definition Tracker_Conflicts (t : Tracker) : list Conflict :=
  merge_sort conflict_le (foldl (λ conflicts '(scope, settings),
    if negb (disagree settings) then conflicts
    else conflicts ++ [MkConflict scope (sortSettings ((λ '(key, sp), MkSetting key sp) <$> go_range settings))])
    [] (go_range (t_scopes t))).

(** [Err]: the error carries the conflicts. *)
Definition Tracker_Err (t : Tracker) : option (list Conflict) :=
  let conflicts := Tracker_Conflicts t in
  if decide (length conflicts = 0) then None else Some conflicts.
End tracker.

(** * Specification: what is recorded of a policy *)

(** The abstract state: the scope and setting of every recorded policy. *)
Definition recorded (t : Tracker) (policyKey : string) : option (string * ScopePermissions) :=
  scope ← t_policies t !! policyKey;
  sp ← settings_of t scope !! policyKey;
  Some (scope, sp).

Record Tracker_ok (t : Tracker) : Prop := {
  tok_back : ∀ scope key sp, settings_of t scope !! key = Some sp → t_policies t !! key = Some scope;
  tok_forth : ∀ scope key, t_policies t !! key = Some scope → is_Some (settings_of t scope !! key);
  tok_nonempty : ∀ scope settings, t_scopes t !! scope = Some settings → settings ≠ ∅;
  tok_normal : ∀ scope key sp, settings_of t scope !! key = Some sp → sp ≠ SCOPE_PERMISSIONS_UNSPECIFIED;
}.

Lemma NewTracker_ok : Tracker_ok NewTracker.
Proof.
  unfold NewTracker. split; cbn; intros; unfold settings_of in *; cbn in *.
  - by rewrite lookup_empty in H.
  - by rewrite lookup_empty in H.
  - by rewrite lookup_empty in H.
  - by rewrite lookup_empty in H.
Qed.

Lemma settings_of_insert t scope settings policies s :
  settings_of (MkTracker (<[scope := settings]> (t_scopes t)) policies) s =
  if decide (scope = s) then settings else settings_of t s.
Proof.
  unfold settings_of; cbn. case_decide; [subst; by rewrite lookup_insert_eq|by rewrite lookup_insert_ne].
Qed.

Lemma Normalise_normal sp : Normalise sp ≠ SCOPE_PERMISSIONS_UNSPECIFIED.
Proof. unfold Normalise. by case_decide. Qed.

(** The settings left in a scope once a policy is removed. *)
Lemma Remove_settings t policyKey s key :
  Tracker_ok t →
  settings_of (Tracker_Remove t policyKey) s !! key = if decide (key = policyKey) then None else settings_of t s !! key.
Proof.
  intros Ht. unfold Tracker_Remove. destruct (t_policies t !! policyKey) as [scope|] eqn:Ep.
  - destruct (tok_forth t Ht _ _ Ep) as [sp Hsp]. unfold settings_of in Hsp.
    destruct (t_scopes t !! scope) as [settings|] eqn:Es; cbn in Hsp; [|by rewrite lookup_empty in Hsp].
    assert (∀ s', key = policyKey → s' ≠ scope → settings_of t s' !! key = None) as Hother.
    { intros s' -> Hs'. destruct (settings_of t s' !! policyKey) as [x|] eqn:E; [|done].
      apply (tok_back t Ht) in E. congruence. }
    case_decide as Hsz.
    + apply map_size_empty_inv in Hsz. unfold settings_of at 1; cbn. destruct (decide (s = scope)) as [->|Hs].
      * rewrite lookup_delete_eq. cbn. rewrite lookup_empty. case_decide; [done|].
        unfold settings_of. rewrite Es. cbn. assert (delete policyKey settings !! key = None) as Hd by by rewrite Hsz, lookup_empty.
        by rewrite lookup_delete_ne in Hd.
      * rewrite lookup_delete_ne by done. fold (settings_of t s). case_decide; [by apply Hother|done].
    + rewrite settings_of_insert. destruct (decide (scope = s)) as [<-|Hs].
      * unfold settings_of. rewrite Es. cbn. case_decide; [subst; by rewrite lookup_delete_eq|by rewrite lookup_delete_ne].
      * case_decide; [apply Hother; [done|congruence]|done].
  - case_decide; [subst|done]. destruct (settings_of t s !! policyKey) eqn:E; [|done].
    apply (tok_back t Ht) in E. congruence.
Qed.

Lemma Remove_policies t policyKey : t_policies (Tracker_Remove t policyKey) = delete policyKey (t_policies t).
Proof.
  unfold Tracker_Remove. destruct (t_policies t !! policyKey) as [scope|] eqn:Ep; [|by rewrite delete_id].
  destruct (t_scopes t !! scope); [|done]. by case_decide.
Qed.

Lemma Remove_nonempty t policyKey scope settings :
  Tracker_ok t → t_scopes (Tracker_Remove t policyKey) !! scope = Some settings → settings ≠ ∅.
Proof.
  intros Ht. unfold Tracker_Remove. destruct (t_policies t !! policyKey) as [sc|]; [|by apply tok_nonempty].
  destruct (t_scopes t !! sc) as [st|]; [|cbn; by apply tok_nonempty]. case_decide as Hsz; cbn.
  - intros [_ Hl]%lookup_delete_Some. by eapply tok_nonempty.
  - intros [[<- <-]|[_ Hl]]%lookup_insert_Some; [|by eapply tok_nonempty]. intros E. apply Hsz. by rewrite E, map_size_empty.
Qed.

Lemma Tracker_Remove_ok t policyKey : Tracker_ok t → Tracker_ok (Tracker_Remove t policyKey).
Proof.
  intros Ht. split.
  - intros scope key sp. rewrite Remove_settings, Remove_policies by done. case_decide; [done|].
    intros E. rewrite lookup_delete_ne by done. by eapply tok_back.
  - intros scope key. rewrite Remove_settings, Remove_policies by done.
    intros [Hne E]%lookup_delete_Some. rewrite decide_False by done. by apply tok_forth.
  - intros scope settings. by apply Remove_nonempty.
  - intros scope key sp. rewrite Remove_settings by done. case_decide; [done|]. by apply tok_normal.
Qed.

Lemma Add_settings t kind policyKey scope sp s key :
  Tracker_ok t → Constrained kind = true →
  settings_of (Tracker_Add t kind policyKey scope sp) s !! key =
  if decide (key = policyKey) then (if decide (s = scope) then Some (Normalise sp) else None) else settings_of t s !! key.
Proof.
  intros Ht Hc. unfold Tracker_Add. rewrite Hc. cbn [negb]. case_decide as Hsame.
  - case_decide as Hk; [subst key|done]. case_decide as Hs; [by subst|].
    destruct (settings_of t s !! policyKey) eqn:E; [|done].
    apply (tok_back t Ht) in E, Hsame. congruence.
  - rewrite settings_of_insert. destruct (decide (scope = s)) as [<-|Hs].
    + rewrite (decide_True _ _ (eq_refl scope)). destruct (decide (key = policyKey)) as [->|Hk].
      * by rewrite lookup_insert_eq.
      * rewrite lookup_insert_ne by done. by rewrite Remove_settings, decide_False.
    + rewrite Remove_settings by done. case_decide; [|done]. by rewrite decide_False by congruence.
Qed.

Lemma Add_policies t kind policyKey scope sp key :
  Tracker_ok t → Constrained kind = true →
  t_policies (Tracker_Add t kind policyKey scope sp) !! key = if decide (key = policyKey) then Some scope else t_policies t !! key.
Proof.
  intros Ht Hc. unfold Tracker_Add. rewrite Hc. cbn [negb]. case_decide as Hsame.
  - case_decide as Hk; [subst key|done]. by eapply tok_back.
  - cbn. rewrite Remove_policies. case_decide as Hk; [subst; by rewrite lookup_insert_eq|].
    by rewrite lookup_insert_ne, lookup_delete_ne by done.
Qed.

Lemma Tracker_Add_ok t kind policyKey scope sp : Tracker_ok t → Tracker_ok (Tracker_Add t kind policyKey scope sp).
Proof.
  intros Ht. destruct (Constrained kind) eqn:Hc; [|unfold Tracker_Add; by rewrite Hc]. split.
  - intros s key p. rewrite Add_settings, Add_policies by done.
    repeat case_decide; [congruence|done|by apply tok_back].
  - intros s key. rewrite Add_settings, Add_policies by done. case_decide; [intros [= ->]; by rewrite decide_True|].
    by apply tok_forth.
  - intros s settings. unfold Tracker_Add. rewrite Hc. cbn [negb]. case_decide; [by apply tok_nonempty|]. cbn.
    intros [[<- <-]|[_ Hl]]%lookup_insert_Some; [apply insert_non_empty|by eapply Remove_nonempty].
  - intros s key p. rewrite Add_settings by done. repeat case_decide; [|done|by apply tok_normal].
    intros [= <-]. apply Normalise_normal.
Qed.

(** ** Disagreement *)

Section disagree.
Context `{GoMapOrder}.

Lemma disagree_loop_spec first l :
  (∀ k sp, (k, sp) ∈ l → sp ≠ SCOPE_PERMISSIONS_UNSPECIFIED) → first ≠ SCOPE_PERMISSIONS_UNSPECIFIED →
  disagree_loop first l = true ↔ ∃ k sp, (k, sp) ∈ l ∧ sp ≠ first.
Proof.
  intros Hn Hf. induction l as [|[k sp] l IH]; cbn [disagree_loop].
  - split; [done|]. by intros (? & ? & ?%elem_of_nil & _).
  - rewrite decide_False by done. case_decide as Hd.
    + split; [intros _|done]. exists k, sp. split; [left|done].
    + rewrite IH by (intros k' sp' Hin; apply (Hn k'); by right). subst sp. split.
      * intros (k' & sp' & ? & ?). exists k', sp'. split; [by right|done].
      * intros (k' & sp' & [[= -> ->]|?]%elem_of_cons & ?); [done|eauto].
Qed.

(** With normalised settings, [disagree] says that two policies differ. *)
Lemma disagree_spec settings :
  (∀ k sp, settings !! k = Some sp → sp ≠ SCOPE_PERMISSIONS_UNSPECIFIED) →
  disagree settings = true ↔ ∃ k1 sp1 k2 sp2, settings !! k1 = Some sp1 ∧ settings !! k2 = Some sp2 ∧ sp1 ≠ sp2.
Proof.
  intros Hn. unfold disagree.
  assert (∀ k sp, (k, sp) ∈ go_range settings ↔ settings !! k = Some sp) as Hr by (intros; apply elem_of_go_range).
  destruct (go_range settings) as [|[k0 sp0] l] eqn:El; cbn [disagree_loop].
  - split; [done|]. intros (k1 & sp1 & _ & _ & E & _). apply Hr, elem_of_nil in E. done.
  - rewrite decide_True by done.
    assert (settings !! k0 = Some sp0) as H0 by (apply Hr; left).
    rewrite disagree_loop_spec.
    + split.
      * intros (k & sp & Hin & Hne). exists k, sp, k0, sp0. split_and!; [apply Hr; by right|done|done].
      * intros (k1 & sp1 & k2 & sp2 & H1 & H2 & Hne). apply Hr in H1, H2.
        destruct (decide (sp1 = sp0)) as [->|Hd].
        -- exists k2, sp2. split; [|done]. apply elem_of_cons in H2 as [[= -> ->]|?]; [done|done].
        -- exists k1, sp1. split; [|done]. apply elem_of_cons in H1 as [[= -> ->]|?]; [done|done].
    + intros k sp Hin. apply (Hn k), Hr. by right.
    + by apply (Hn k0).
Qed.

Lemma conflict_loop_scopes l acc scope :
  (∃ c, c ∈ foldl (λ conflicts '(scope, settings),
      if negb (disagree settings) then conflicts
      else conflicts ++ [MkConflict scope (sortSettings ((λ '(key, sp), MkSetting key sp) <$> go_range settings))])
      acc l ∧ c_Scope c = scope) ↔
  (∃ c, c ∈ acc ∧ c_Scope c = scope) ∨ ∃ settings, (scope, settings) ∈ l ∧ disagree settings = true.
Proof.
  revert acc. induction l as [|[s st] l IH]; intros acc; cbn [foldl].
  - split; [by left|]. intros [?|(? & ?%elem_of_nil & _)]; done.
  - rewrite IH. destruct (disagree st) eqn:Ed; cbn [negb].
    + split.
      * intros [(c & [?| ->%list_elem_of_singleton]%elem_of_app & <-)|(x & ? & ?)]; [left; eauto| |].
        -- right. exists st. split; [left|done]. -- right. exists x. split; [by right|done].
      * intros [(c & ? & <-)|(x & [[= -> ->]|?]%elem_of_cons & ?)].
        -- left. exists c. split; [apply elem_of_app; by left|done].
        -- left. eexists. split; [apply elem_of_app; right; left|done].
        -- right. eauto.
    + split.
      * intros [?|(x & ? & ?)]; [by left|]. right. exists x. split; [by right|done].
      * intros [?|(x & [[= -> ->]|?]%elem_of_cons & ?)]; [by left|congruence|eauto].
Qed.

(** The reported conflicts are exactly the scopes whose policies disagree. *)
Lemma Conflicts_scopes t scope :
  Tracker_ok t →
  (∃ c, c ∈ Tracker_Conflicts t ∧ c_Scope c = scope) ↔
  ∃ k1 sp1 k2 sp2, settings_of t scope !! k1 = Some sp1 ∧ settings_of t scope !! k2 = Some sp2 ∧ sp1 ≠ sp2.
Proof.
  intros Ht. unfold Tracker_Conflicts.
  assert (∀ c l, c ∈ merge_sort conflict_le l ↔ c ∈ l) as Hms by (intros c l; by rewrite merge_sort_Permutation).
  setoid_rewrite Hms. rewrite conflict_loop_scopes. split.
  - intros [(c & ?%elem_of_nil & _)|(settings & Hin%elem_of_go_range & Hd)]; [done|].
    apply disagree_spec in Hd.
    + unfold settings_of. rewrite Hin. exact Hd.
    + intros k sp Hk. apply (tok_normal t Ht scope k). unfold settings_of. by rewrite Hin.
  - intros Hex. right. unfold settings_of in Hex. destruct (t_scopes t !! scope) as [settings|] eqn:Es.
    + exists settings. split; [by apply elem_of_go_range|]. apply disagree_spec; [|exact Hex].
      intros k sp Hk. apply (tok_normal t Ht scope k). unfold settings_of. by rewrite Es.
    + destruct Hex as (k1 & sp1 & _ & _ & E & _). cbn in E. by rewrite lookup_empty in E.
Qed.

Lemma check_loop_nonempty l acc policyKey ignored want :
  length (foldl (λ others '(key, have),
      if decide (key = policyKey ∨ key = ignored ∨ have = want) then others
      else others ++ [MkSetting key have]) acc l) ≠ 0 ↔
  length acc ≠ 0 ∨ ∃ key have, (key, have) ∈ l ∧ key ≠ policyKey ∧ key ≠ ignored ∧ have ≠ want.
Proof.
  revert acc. induction l as [|[k h] l IH]; intros acc; cbn [foldl].
  - split; [by left|]. intros [?|(? & ? & ?%elem_of_nil & _)]; done.
  - rewrite IH. case_decide as Hd.
    + split; [intros [?|(x & y & ? & ?)]; [by left|right; exists x, y; split; [by right|done]]|].
      intros [?|(x & y & [[= -> ->]|?]%elem_of_cons & ?)]; [by left|tauto|eauto].
    + rewrite length_app. cbn [length]. split; [|intros _; left; lia]. intros _. right. exists k, h.
      split; [left|tauto].
Qed.

(** [Check] reports a conflict exactly when another policy of the scope, not
    the ignored one, has a different setting. *)
Lemma Check_spec t kind policyKey scope sp ignored :
  Constrained kind = true →
  is_Some (Tracker_Check t kind policyKey scope sp ignored) ↔
  ∃ key have, settings_of t scope !! key = Some have ∧ key ≠ policyKey ∧ key ≠ ignored ∧ have ≠ Normalise sp.
Proof.
  intros Hc. unfold Tracker_Check. rewrite Hc. cbn [negb].
  pose proof (check_loop_nonempty (go_range (settings_of t scope)) [] policyKey ignored (Normalise sp)) as Hl.
  setoid_rewrite elem_of_go_range in Hl. cbn [length] in Hl. case_decide as Hd.
  - split; [by intros [? ?]|]. intros Hex. exfalso. apply Hl; [by right|done].
  - split; [|done]. intros _. apply Hl in Hd as [?|?]; done.
Qed.
End disagree.
