(* ===== verification/IndexCore.v ===== *)
(** Bindings and the bitmap index proper: [src/internal/ruletable/index/core.go]
    and [bitmapIndex] of [bitmap_index.go].

    Pointers: a [FunctionalCore] is shared by bindings and only its [origins] set
    is ever written after construction, a [RowParams] only its [refcount]; both
    live in a heap of the index ([Index.v]) and the records hold references.
    Everything else is immutable and held by value.  The invariant [bi_ok] says
    that every dimension is exactly the inverse image of the live bindings. *)
From S2P Require Import Prelude GoRuntime Bitmap BitmapOps Arena LazyDim Dimension GlobDim Policy.

Open Scope nat_scope.

(** * Handles *)

(** [unique.Handle[string]]: the zero handle, or a handle of a string; handles
    are equal exactly when their strings are. *)
Definition Handle : Type := option string.
Definition EmptyHandle : Handle := None.

Definition mkStringHandle (s : string) : Handle := if decide (s = ""%string) then EmptyHandle else Some s.
Definition HandleStr (h : Handle) : string := match h with None => ""%string | Some s => s end.

(** A handle made by [mkStringHandle]. *)
Definition handle_ok (h : Handle) : Prop := h ≠ Some ""%string.

Lemma mkStringHandle_ok s : handle_ok (mkStringHandle s).
Proof. unfold mkStringHandle, handle_ok. case_decide; [done|]. by intros [= ->]. Qed.

Lemma HandleStr_mk s : HandleStr (mkStringHandle s) = s.
Proof. unfold mkStringHandle. by case_decide. Qed.

Lemma handle_eq h h' : handle_ok h → handle_ok h' → HandleStr h = HandleStr h' → h = h'.
Proof.
  unfold handle_ok. destruct h as [s|], h' as [s'|]; cbn; intros H1 H2 E; [by subst|subst; done|subst; done|done].
Qed.

(** * Evaluation keys *)

Record EvaluationKeyTuple := MkKey {
  k_Prefix : Handle; k_Resource : Handle; k_Principal : Handle; k_Role : Handle; k_DerivedRole : Handle;
  k_Version : Handle; k_Scope : Handle; k_RuleName : Handle; k_RuleID : N;
}.
#[export] Instance EvaluationKeyTuple_eq_dec : EqDecision EvaluationKeyTuple.
Proof. solve_decision. Defined.
#[export] Instance EvaluationKeyTuple_countable : Countable EvaluationKeyTuple.
Proof.
  refine (inj_countable'
    (λ k, (k_Prefix k, k_Resource k, k_Principal k, k_Role k, k_DerivedRole k, k_Version k, k_Scope k, k_RuleName k, k_RuleID k))
    (λ '(a, b, c, d, e, f, g, h, i), MkKey a b c d e f g h i) _). by intros [].
Defined.

Definition zeroKey : EvaluationKeyTuple := MkKey None None None None None None None None 0.
Definition EvaluationKeyTuple_IsZero (t : EvaluationKeyTuple) : bool := bool_decide (t = zeroKey).

Definition makeEvaluationKeyTuple (pb : option EvaluationKeyTuplePB) (fallbackKey : string) : EvaluationKeyTuple :=
  match pb with
  | None => MkKey None None None None None None None (mkStringHandle fallbackKey) 0
  | Some pb =>
      MkKey (mkStringHandle (pbk_Prefix pb)) (mkStringHandle (pbk_Resource pb)) (mkStringHandle (pbk_Principal pb))
        (mkStringHandle (pbk_Role pb)) (mkStringHandle (pbk_DerivedRole pb)) (mkStringHandle (pbk_Version pb))
        (mkStringHandle (pbk_Scope pb)) (mkStringHandle (pbk_RuleName pb)) (pbk_RuleId pb)
  end.

Definition EvaluationKeyTuple_toProto (t : EvaluationKeyTuple) : EvaluationKeyTuplePB :=
  MkKeyPB (HandleStr (k_Prefix t)) (HandleStr (k_Resource t)) (HandleStr (k_Principal t)) (HandleStr (k_Role t))
    (HandleStr (k_DerivedRole t)) (HandleStr (k_Version t)) (HandleStr (k_Scope t)) (HandleStr (k_RuleName t)) (k_RuleID t).

Section core.
Context `{GlobEngine} `{CelCompiler}.

(** * Parameters, cores and bindings *)

Record CelProgram := MkProgram { Prog : cel_program; prog_Name : string; prog_Expr : string }.

Record RowParams := MkRowParams {
  rp_Constants : gmap string Value;
  rp_CelPrograms : list CelProgram;
  rp_Variables : list Variable_;
  rp_Key : N;
  rp_ref : N;  (* the cell holding [refcount] *)
}.

Record FunctionalCore := MkCore {
  co_Condition : option Condition;
  co_DerivedRoleCondition : option Condition;
  co_EmitOutput : option Output;
  co_Params : option RowParams;
  co_DerivedRoleParams : option RowParams;
  co_origins : option N;  (* the cell holding [origins]; nil in synthetic cores *)
  co_sum : N;
  co_Effect : Effect;
  co_ScopePermissions : ScopePermissions;
  co_PolicyKind : Kind;
  co_FromRolePolicy : bool;
}.

Record BindingHandle := MkBinding {
  bh_Resource : Handle;
  bh_OriginDerivedRole : Handle;
  bh_Action : Handle;
  bh_Role : Handle;
  bh_Scope : Handle;
  bh_Version : Handle;
  bh_Principal : Handle;
  bh_Name : Handle;
  bh_AllowActions : option (gset string);
  bh_OriginFqn : Handle;
  bh_Core : FunctionalCore;
  bh_AllowActionGlobs : list string;
  bh_ID : N;
  bh_NoMatchForScopePermissions : bool;
}.

Definition set_ID (b : BindingHandle) (id : N) : BindingHandle :=
  MkBinding (bh_Resource b) (bh_OriginDerivedRole b) (bh_Action b) (bh_Role b) (bh_Scope b) (bh_Version b)
    (bh_Principal b) (bh_Name b) (bh_AllowActions b) (bh_OriginFqn b) (bh_Core b) (bh_AllowActionGlobs b) id
    (bh_NoMatchForScopePermissions b).
Definition set_Action (b : BindingHandle) (a : Handle) : BindingHandle :=
  MkBinding (bh_Resource b) (bh_OriginDerivedRole b) a (bh_Role b) (bh_Scope b) (bh_Version b)
    (bh_Principal b) (bh_Name b) (bh_AllowActions b) (bh_OriginFqn b) (bh_Core b) (bh_AllowActionGlobs b) (bh_ID b)
    (bh_NoMatchForScopePermissions b).

(** [setAllowActions]: the set, and the glob patterns among its elements. *)
Definition setAllowActions (b : BindingHandle) (actions : list string) : BindingHandle :=
  let '(set, gl) := foldl (λ '(set, gl) a,
    let a := HandleStr (mkStringHandle a) in
    ({[a]} ∪ set, if IsGlob a then gl ++ [a] else gl)) (∅ : gset string, []) actions in
  MkBinding (bh_Resource b) (bh_OriginDerivedRole b) (bh_Action b) (bh_Role b) (bh_Scope b) (bh_Version b)
    (bh_Principal b) (bh_Name b) (Some set) (bh_OriginFqn b) (bh_Core b) gl (bh_ID b)
    (bh_NoMatchForScopePermissions b).

Definition allowsAction (b : BindingHandle) (action : string) : bool :=
  if decide (action ∈ default ∅ (bh_AllowActions b)) then true
  else existsb (λ g, MatchesGlob g action) (bh_AllowActionGlobs b).

(** The string-typed view returned by [QueryMulti]. *)
Record Binding := MkStringBinding {
  b_Core : FunctionalCore; b_AllowActions : option (gset string);
  b_Role : string; b_Scope : string; b_Version : string; b_Resource : string; b_Action : string;
  b_Principal : string; b_OriginFqn : string; b_OriginDerivedRole : string; b_Name : string;
  b_EvaluationKey : EvaluationKeyTuple; b_ID : N; b_NoMatchForScopePermissions : bool;
}.
Definition toBinding (b : BindingHandle) (evalKey : EvaluationKeyTuple) : Binding :=
  MkStringBinding (bh_Core b) (bh_AllowActions b) (HandleStr (bh_Role b)) (HandleStr (bh_Scope b))
    (HandleStr (bh_Version b)) (HandleStr (bh_Resource b)) (HandleStr (bh_Action b)) (HandleStr (bh_Principal b))
    (HandleStr (bh_OriginFqn b)) (HandleStr (bh_OriginDerivedRole b)) (HandleStr (bh_Name b)) evalKey (bh_ID b)
    (bh_NoMatchForScopePermissions b).

(** * The bitmap index *)

Record bitmapIndex := MkIndex {
  action : globDimension;
  coresBySum : gmap N FunctionalCore;
  version : gmap string Bitmap;
  scope : gmap string Bitmap;
  role : globDimension;
  policyKind : gmap Kind Bitmap;
  resource : globDimension;
  fqnBindings : gmap string (list N);
  principal : gmap string lazyState;
  universe : Bitmap;
  allowActionsBitmap : Bitmap;
  freeIDs : list N;
  bindings : list (option BindingHandle);
  evalKeys : list EvaluationKeyTuple;
}.

Definition noEvalKey : N := 2 ^ 32 - 1.

Definition newBitmapIndex : bitmapIndex :=
  MkIndex newGlobDimension ∅ ∅ ∅ newGlobDimension ∅ newGlobDimension newFqnDimension newLazyDimension
    NewBitmap NewBitmap [] [] [].

(** [l[i] = x] on a slice: out of range panics. *)
Definition list_set {A} (l : list A) (i : nat) (x : A) : option (list A) :=
  if decide (i < length l) then Some (<[i := x]> l) else None.

(** The dimensions, as one value, so that an operation on them is one function. *)
Definition set_slots (free : list N) (bs : list (option BindingHandle)) (ks : list EvaluationKeyTuple) (x : bitmapIndex) : bitmapIndex :=
  MkIndex (action x) (coresBySum x) (version x) (scope x) (role x) (policyKind x) (resource x) (fqnBindings x)
    (principal x) (universe x) (allowActionsBitmap x) free bs ks.
Definition set_dims (act : globDimension) (ver sco : gmap string Bitmap) (rol : globDimension)
    (kin : gmap Kind Bitmap) (res : globDimension) (pri : gmap string lazyState) (uni aab : Bitmap) (x : bitmapIndex) : bitmapIndex :=
  MkIndex act (coresBySum x) ver sco rol kin res (fqnBindings x) pri uni aab (freeIDs x) (bindings x) (evalKeys x).
Definition set_fqnBindings (f : gmap string (list N)) (x : bitmapIndex) : bitmapIndex :=
  MkIndex (action x) (coresBySum x) (version x) (scope x) (role x) (policyKind x) (resource x) f
    (principal x) (universe x) (allowActionsBitmap x) (freeIDs x) (bindings x) (evalKeys x).
Definition set_coresBySum (c : gmap N FunctionalCore) (x : bitmapIndex) : bitmapIndex :=
  MkIndex (action x) c (version x) (scope x) (role x) (policyKind x) (resource x) (fqnBindings x)
    (principal x) (universe x) (allowActionsBitmap x) (freeIDs x) (bindings x) (evalKeys x).

Definition allocID (idx : bitmapIndex) : N * bitmapIndex :=
  match last (freeIDs idx) with
  | Some id => (id, set_slots (take (length (freeIDs idx) - 1) (freeIDs idx)) (bindings idx) (evalKeys idx) idx)
  | None => (N.of_nat (length (bindings idx)) mod 2 ^ 32, idx)%N
  end.

Definition freeID (idx : bitmapIndex) (id : N) : option bitmapIndex :=
  bs ← list_set (bindings idx) (N.to_nat id) None;
  ks ← list_set (evalKeys idx) (N.to_nat id) zeroKey;
  Some (set_slots (freeIDs idx ++ [id]) bs ks idx).

Definition evalKey (idx : bitmapIndex) (id : N) : option EvaluationKeyTuple :=
  if decide (id = noEvalKey) then Some zeroKey else evalKeys idx !! N.to_nat id.

(** [getBinding]: the outer [option] is the panic, the inner one nil. *)
Definition getBinding (idx : bitmapIndex) (id : N) : option (option BindingHandle) := bindings idx !! N.to_nat id.

Definition place (idx : bitmapIndex) (id : N) (b : BindingHandle) (k : EvaluationKeyTuple) : option bitmapIndex :=
  if decide (N.to_nat id < length (bindings idx)) then
    bs ← list_set (bindings idx) (N.to_nat id) (Some b);
    ks ← list_set (evalKeys idx) (N.to_nat id) k;
    Some (set_slots (freeIDs idx) bs ks idx)
  else Some (set_slots (freeIDs idx) (bindings idx ++ [Some b]) (evalKeys idx ++ [k]) idx).

Definition add_handle {D} (add : D → string → N → option D) (d : D) (h : Handle) (id : N) : option D :=
  match h with None => Some d | Some s => add d s id end.

Definition addBinding (idx : bitmapIndex) (b : BindingHandle) (k : EvaluationKeyTuple) : option bitmapIndex :=
  let '(id, idx) := allocID idx in
  let b := set_ID b id in
  idx ← place idx id b k;
  uni ← Bitmap_Add (universe idx) id;
  sco ← dimension_Add (scope idx) (HandleStr (bh_Scope b)) id;
  ver ← add_handle dimension_Add (version idx) (bh_Version b) id;
  rol ← add_handle globDimension_Set (role idx) (bh_Role b) id;
  res ← add_handle globDimension_Set (resource idx) (bh_Resource b) id;
  '(aab, act) ← (match bh_AllowActions b with
                 | Some _ => aab ← Bitmap_Add (allowActionsBitmap idx) id; Some (aab, action idx)
                 | None => act ← add_handle globDimension_Set (action idx) (bh_Action b) id; Some (allowActionsBitmap idx, act)
                 end);
  kin ← dimension_Add (policyKind idx) (co_PolicyKind (bh_Core b)) id;
  pri ← add_handle lazyDimension_Add (principal idx) (bh_Principal b) id;
  Some (set_fqnBindings (fqnDimension_Add (fqnBindings idx) (HandleStr (bh_OriginFqn b)) id)
          (set_dims act ver sco rol kin res pri uni aab idx)).

Definition removeBinding (idx : bitmapIndex) (b : BindingHandle) : option bitmapIndex :=
  let id := bh_ID b in
  uni ← Bitmap_Remove (universe idx) id;
  ver ← dimension_Remove (version idx) (HandleStr (bh_Version b)) id;
  sco ← dimension_Remove (scope idx) (HandleStr (bh_Scope b)) id;
  rol ← globDimension_Remove (role idx) (HandleStr (bh_Role b)) id;
  res ← globDimension_Remove (resource idx) (HandleStr (bh_Resource b)) id;
  '(aab, act) ← (match bh_AllowActions b with
                 | Some _ => aab ← Bitmap_Remove (allowActionsBitmap idx) id; Some (aab, action idx)
                 | None =>
                     act ← (match bh_Action b with
                            | Some a => globDimension_Remove (action idx) a id
                            | None => Some (action idx)
                            end);
                     Some (allowActionsBitmap idx, act)
                 end);
  kin ← dimension_Remove (policyKind idx) (co_PolicyKind (bh_Core b)) id;
  pri ← lazyDimension_Remove (principal idx) (HandleStr (bh_Principal b)) id;
  freeID (set_dims act ver sco rol kin res pri uni aab idx) id.

Definition bitmapIndex_compact `{GoMapOrder} (idx : bitmapIndex) : option bitmapIndex :=
  ver ← dimension_shrink (version idx);
  sco ← dimension_shrink (scope idx);
  kin ← dimension_shrink (policyKind idx);
  pri ← lazyDimension_compact (principal idx);
  rol ← globDimension_compact (role idx);
  act ← globDimension_compact (action idx);
  res ← globDimension_compact (resource idx);
  uni ← Bitmap_shrinkToFit (universe idx);
  aab ← Bitmap_shrinkToFit (allowActionsBitmap idx);
  Some (set_dims act ver sco rol kin res pri uni aab idx).

(** * Invariant *)

(** The live binding at an identifier. *)
Definition lv (idx : bitmapIndex) (id : N) : option BindingHandle := mjoin (bindings idx !! N.to_nat id).

(** A dimension is the inverse image of the live bindings under [key_of]. *)
Definition indexes {K} (mem : K → N → bool) (lv : N → option BindingHandle) (key_of : BindingHandle → option K) : Prop :=
  ∀ k id, mem k id = true ↔ ∃ b, lv id = Some b ∧ key_of b = Some k.

Definition valid_key (h : Handle) : option string := s ← h; if key_valid s then Some s else None.

Definition scope_key (b : BindingHandle) : option string := Some (HandleStr (bh_Scope b)).
Definition kind_key (b : BindingHandle) : option Kind := Some (co_PolicyKind (bh_Core b)).
Definition role_key (b : BindingHandle) : option string := valid_key (bh_Role b).
Definition resource_key (b : BindingHandle) : option string := valid_key (bh_Resource b).
Definition action_key (b : BindingHandle) : option string :=
  match bh_AllowActions b with Some _ => None | None => valid_key (bh_Action b) end.
Definition allow_key (b : BindingHandle) : option unit := _ ← bh_AllowActions b; Some ().
Definition fqn_key (b : BindingHandle) : option string := Some (HandleStr (bh_OriginFqn b)).
Definition fqn_mem (m : gmap string (list N)) (f : string) (id : N) : bool := bool_decide (id ∈ default [] (m !! f)).

Record handles_ok (b : BindingHandle) : Prop := {
  hok_version : handle_ok (bh_Version b);
  hok_role : handle_ok (bh_Role b);
  hok_resource : handle_ok (bh_Resource b);
  hok_principal : handle_ok (bh_Principal b);
  hok_scope : handle_ok (bh_Scope b);
  hok_action : handle_ok (bh_Action b);
}.

Record dims_ok (idx : bitmapIndex) (live : N → option BindingHandle) : Prop := {
  dok_universe : Bitmap_ok (universe idx);
  dok_universe_is : indexes (λ (_ : unit), bm_mem (universe idx)) live (λ _, Some ());
  dok_scope : dim_ok (scope idx);
  dok_scope_is : indexes (dim_mem (scope idx)) live scope_key;
  dok_version : dim_ok (version idx);
  dok_version_is : indexes (dim_mem (version idx)) live bh_Version;
  dok_role : gd_ok (role idx);
  dok_role_is : indexes (gd_mem (role idx)) live role_key;
  dok_resource : gd_ok (resource idx);
  dok_resource_is : indexes (gd_mem (resource idx)) live resource_key;
  dok_allow : Bitmap_ok (allowActionsBitmap idx);
  dok_allow_is : indexes (λ (_ : unit), bm_mem (allowActionsBitmap idx)) live allow_key;
  dok_action : gd_ok (action idx);
  dok_action_is : indexes (gd_mem (action idx)) live action_key;
  dok_kind : dim_ok (policyKind idx);
  dok_kind_is : indexes (dim_mem (policyKind idx)) live kind_key;
  dok_principal : lazy_ok (principal idx);
  dok_principal_is : indexes (lazy_mem (principal idx)) live bh_Principal;
}.

Record slots_ok (idx : bitmapIndex) : Prop := {
  slok_keys : length (evalKeys idx) = length (bindings idx);
  slok_max : (N.of_nat (length (bindings idx)) < 2 ^ 32)%N;
  slok_id : ∀ id b, lv idx id = Some b → bh_ID b = id ∧ handles_ok b;
  slok_free : ∀ id, id ∈ freeIDs idx → bindings idx !! N.to_nat id = Some None;
  slok_free_nodup : NoDup (freeIDs idx);
}.

Record bi_ok (idx : bitmapIndex) : Prop := {
  bok_slots : slots_ok idx;
  bok_dims : dims_ok idx (lv idx);
}.

(** The bindings of a policy, by its fully-qualified name. *)
Record fqn_ok (idx : bitmapIndex) : Prop := {
  fok_is : indexes (fqn_mem (fqnBindings idx)) (lv idx) fqn_key;
  fok_nodup : ∀ f ids, fqnBindings idx !! f = Some ids → NoDup ids;
}.

(** ** Updating a dimension *)

Definition upd (live : N → option BindingHandle) (id : N) (b : option BindingHandle) (id' : N) : option BindingHandle :=
  if decide (id = id') then b else live id'.

Section indexes.
Context {K : Type} `{EqDecision K} (mem mem' : K → N → bool) (live : N → option BindingHandle)
  (key_of : BindingHandle → option K) (Hidx : indexes mem live key_of).
Implicit Types (id : N) (b : BindingHandle).

Lemma indexes_add id b key :
  live id = None → key_of b = Some key →
  (∀ k id', mem' k id' = (bool_decide (key = k ∧ id = id') || mem k id')%bool) →
  indexes mem' (upd live id (Some b)) key_of.
Proof using Hidx.
  intros Hfree Hkey Hm k id'. rewrite Hm, orb_true_iff, bool_decide_eq_true, (Hidx k id'). unfold upd.
  destruct (decide (id = id')) as [<-|Hne].
  - split; [|intros (b' & [= <-] & ?); left; split; congruence].
    intros [[-> _]|(b' & E & _)]; [eauto|congruence].
  - split; [intros [[_ ?]|?]; [done|done]|auto].
Qed.

Lemma indexes_skip id b :
  live id = None → key_of b = None → (∀ k id', mem' k id' = mem k id') →
  indexes mem' (upd live id (Some b)) key_of.
Proof using Hidx.
  intros Hfree Hkey Hm k id'. rewrite Hm, (Hidx k id'). unfold upd. destruct (decide (id = id')) as [<-|]; [|done].
  split; intros (b' & ? & ?); congruence.
Qed.

Lemma indexes_remove id b key :
  live id = Some b → (∀ k, key_of b = Some k → k = key) →
  (∀ k id', mem' k id' = (negb (bool_decide (key = k ∧ id = id')) && mem k id')%bool) →
  indexes mem' (upd live id None) key_of.
Proof using Hidx.
  intros Hlive Hkey Hm k id'. rewrite Hm, andb_true_iff, negb_true_iff, bool_decide_eq_false, (Hidx k id'). unfold upd.
  destruct (decide (id = id')) as [<-|Hne].
  - split; [|by intros (? & ? & _)]. intros [Hno (b' & Hb' & Hk)]. exfalso. apply Hno.
    rewrite Hlive in Hb'. injection Hb' as <-. split; [symmetry; by apply Hkey|done].
  - split; [by intros [_ ?]|]. intros ?. split; [|done]. by intros [_ ?].
Qed.

Lemma indexes_none id b :
  live id = Some b → key_of b = None → (∀ k id', mem' k id' = mem k id') → indexes mem' (upd live id None) key_of.
Proof using Hidx.
  intros Hlive Hkey Hm k id'. rewrite Hm, (Hidx k id'). unfold upd.
  destruct (decide (id = id')) as [<-|Hne]; [|done].
  split; [|by intros (? & ? & _)]. intros (b' & ? & ?). congruence.
Qed.

Lemma indexes_ext live' : (∀ id, live' id = live id) → (∀ k id, mem' k id = mem k id) → indexes mem' live' key_of.
Proof using Hidx. intros Hl Hm k id. rewrite Hm, (Hidx k id). by rewrite Hl. Qed.
End indexes.

Lemma lv_bound idx id b : lv idx id = Some b → N.to_nat id < length (bindings idx).
Proof. unfold lv. intros E. destruct (bindings idx !! N.to_nat id) eqn:El; [|done]. by eapply lookup_lt_Some. Qed.

Lemma list_set_lt {A} (l : list A) i x : i < length l → list_set l i x = Some (<[i := x]> l).
Proof. intros Hi. unfold list_set. by rewrite decide_True. Qed.

Lemma lv_insert idx free ks id b id' :
  N.to_nat id < length (bindings idx) →
  lv (set_slots free (<[N.to_nat id := b]> (bindings idx)) ks idx) id' = upd (lv idx) id b id'.
Proof.
  intros Hi. unfold lv, upd; cbn. case_decide as E.
  - subst. by rewrite list_lookup_insert_eq.
  - rewrite list_lookup_insert_ne; [done|]. lia.
Qed.

Lemma lv_append idx free ks id b id' :
  N.to_nat id = length (bindings idx) →
  lv (set_slots free (bindings idx ++ [b]) ks idx) id' = upd (lv idx) id b id'.
Proof.
  intros Hi. unfold lv, upd; cbn. case_decide as E.
  - subst id'. rewrite Hi, lookup_app_r, Nat.sub_diag by lia. done.
  - destruct (decide (N.to_nat id' < length (bindings idx))).
    + by rewrite lookup_app_l.
    + rewrite lookup_app_r, (lookup_ge_None_2 (bindings idx)) by lia.
      rewrite lookup_ge_None_2; [done|]. cbn. lia.
Qed.

(** ** Empty index *)

Lemma indexes_empty {K} (mem : K → N → bool) live key_of :
  (∀ id, live id = None) → (∀ k id, mem k id = false) → indexes mem live key_of.
Proof. intros Hl Hm k id. rewrite Hm. split; [done|]. intros (b & Hb & _). by rewrite Hl in Hb. Qed.

Lemma newGlobDimension_mem k id : gd_mem newGlobDimension k id = false.
Proof. unfold gd_mem. by destruct (IsGlob k). Qed.

Lemma newBitmapIndex_ok : bi_ok newBitmapIndex ∧ fqn_ok newBitmapIndex.
Proof.
  assert (∀ id, lv newBitmapIndex id = None) as Hlv by (intros id; unfold lv; cbn; by rewrite lookup_nil).
  split; [split; split|split]; try apply newGlobDimension_ok; try apply NewBitmap_ok; try (apply newDimension_ok);
    try (apply indexes_empty; [done|]; intros; done || apply newGlobDimension_mem); try done.
  - intros id Hid. by apply elem_of_nil in Hid.
  - constructor.
Qed.

(** ** Adding a binding *)

Section add_dims.
Context (live : N → option BindingHandle) (b : BindingHandle) (id : N).
Context (Hfree : live id = None) (Hid : (id < 2 ^ 32)%N).
Local Abbreviation live' := (upd live id (Some b)).

Lemma universe_add bm key_of :
  Bitmap_ok bm → indexes (λ (_ : unit), bm_mem bm) live key_of → key_of b = Some () →
  runs (Bitmap_Add bm id) (λ bm', Bitmap_ok bm' ∧ indexes (λ (_ : unit), bm_mem bm') live' key_of).
Proof using Hfree Hid.
  intros Hb Hi Hk. eapply runs_mono; [by apply Add_runs|]. intros bm' [Hb' Hm]. split; [done|].
  eapply (indexes_add _ _ _ _ Hi); [done..|]. intros [] id'. rewrite Hm. f_equal. apply bool_decide_ext. tauto.
Qed.

Lemma dim_add {T} `{Countable T} (d : gmap T Bitmap) key key_of :
  dim_ok d → indexes (dim_mem d) live key_of → key_of b = Some key →
  runs (dimension_Add d key id) (λ d', dim_ok d' ∧ indexes (dim_mem d') live' key_of).
Proof using Hfree Hid.
  intros Hd Hi Hk. eapply runs_mono; [by apply dim_Add_runs|]. intros d' [Hd' Hm]. split; [done|].
  by eapply (indexes_add _ _ _ _ Hi).
Qed.

Lemma dim_add_handle d h key_of :
  dim_ok d → indexes (dim_mem d) live key_of → key_of b = h →
  runs (add_handle dimension_Add d h id) (λ d', dim_ok d' ∧ indexes (dim_mem d') live' key_of).
Proof using Hfree Hid.
  intros Hd Hi Hk. destruct h as [s|]; cbn [add_handle]; [by apply dim_add|].
  rret. split; [done|]. by eapply indexes_skip.
Qed.

Lemma lazy_add_handle d h key_of :
  lazy_ok d → indexes (lazy_mem d) live key_of → key_of b = h →
  runs (add_handle lazyDimension_Add d h id) (λ d', lazy_ok d' ∧ indexes (lazy_mem d') live' key_of).
Proof using Hfree Hid.
  intros Hd Hi Hk. destruct h as [s|]; cbn [add_handle].
  - eapply runs_mono; [by apply lazy_Add_runs|]. intros d' [Hd' Hm]. split; [done|]. by eapply (indexes_add _ _ _ _ Hi).
  - rret. split; [done|]. by eapply indexes_skip.
Qed.

Lemma gd_add_handle gd h key_of :
  gd_ok gd → indexes (gd_mem gd) live key_of → key_of b = valid_key h →
  runs (add_handle globDimension_Set gd h id) (λ gd', gd_ok gd' ∧ indexes (gd_mem gd') live' key_of).
Proof using Hfree Hid.
  intros Hd Hi Hk. destruct h as [s|]; cbn [add_handle].
  - eapply runs_mono; [by apply gd_Set_runs|]. intros d' [Hd' Hm]. split; [done|].
    unfold valid_key in Hk; rewrite bind_some in Hk. destruct (key_valid s) eqn:Ev.
    + eapply (indexes_add _ _ _ _ Hi); [done..|]. intros k id'. by rewrite Hm, andb_true_r.
    + eapply (indexes_skip _ _ _ _ Hi); [done..|]. intros k id'. by rewrite Hm, andb_false_r.
  - rret. split; [done|]. by eapply indexes_skip.
Qed.
End add_dims.

(** There is a free identifier, or one more fits in [uint32]. *)
Definition has_room (idx : bitmapIndex) : Prop :=
  freeIDs idx ≠ [] ∨ (N.of_nat (length (bindings idx)) + 1 < 2 ^ 32)%N.

Lemma alloc_place_runs idx b k :
  slots_ok idx → handles_ok b → has_room idx →
  ∃ id idx1, allocID idx = (id, idx1) ∧ (id < 2 ^ 32)%N ∧ lv idx id = None ∧
    runs (place idx1 id (set_ID b id) k) (λ idx2,
      (∃ free bs ks, idx2 = set_slots free bs ks idx) ∧ slots_ok idx2 ∧
      (∀ id', lv idx2 id' = upd (lv idx) id (Some (set_ID b id)) id') ∧
      evalKeys idx2 !! N.to_nat id = Some k ∧
      (∀ id', id' ≠ id → N.to_nat id' < length (bindings idx) → evalKeys idx2 !! N.to_nat id' = evalKeys idx !! N.to_nat id') ∧
      length (bindings idx2) ≤ S (length (bindings idx))).
Proof.
  intros Hs Hb Hroom. pose proof (slok_max idx Hs) as Hmax. pose proof (slok_keys idx Hs) as Hkeys.
  assert (∀ idx2 id, (∀ id', lv idx2 id' = upd (lv idx) id (Some (set_ID b id)) id') →
    ∀ id' b', lv idx2 id' = Some b' → bh_ID b' = id' ∧ handles_ok b') as Hids.
  { intros idx2 id Hl id' b'. rewrite Hl. unfold upd. case_decide as E.
    - intros [= <-]. subst. split; [done|]. split; cbn; apply Hb.
    - apply (slok_id idx Hs). }
  unfold allocID. destruct (last (freeIDs idx)) as [id|] eqn:Elast.
  - set (free := take (length (freeIDs idx) - 1) (freeIDs idx)).
    apply last_Some in Elast as [l Hl].
    assert (free = l) as Efree.
    { unfold free. rewrite Hl, length_app. cbn. rewrite Nat.add_sub. by rewrite take_app_length. }
    assert (bindings idx !! N.to_nat id = Some None) as Hnone.
    { apply (slok_free idx Hs). rewrite Hl. apply elem_of_app. right. left. }
    pose proof (lookup_lt_Some _ _ _ Hnone) as Hlt.
    exists id, (set_slots free (bindings idx) (evalKeys idx) idx). split; [done|]. split; [lia|].
    split; [unfold lv; by rewrite Hnone|]. unfold place. cbn. rewrite decide_True by done.
    rewrite !list_set_lt by (done || lia). bsimp. rret.
    pose proof (λ id', lv_insert idx free (<[N.to_nat id := k]> (evalKeys idx)) id (Some (set_ID b id)) id' Hlt) as Hlv.
    split; [by eexists _, _, _|]. split_and!.
    + split; cbn.
      * by rewrite !length_insert. * by rewrite length_insert. * by apply (Hids _ id).
      * intros id' Hin. assert (id' ≠ id) as Hne.
        { intros ->. pose proof (slok_free_nodup idx Hs) as Hnd. rewrite Hl in Hnd. rewrite Efree in Hin.
          apply NoDup_app in Hnd as (_ & Hnd & _). apply (Hnd id); [done|left]. }
        rewrite list_lookup_insert_ne by lia. apply (slok_free idx Hs). rewrite Hl, <-Efree. apply elem_of_app. by left.
      * pose proof (slok_free_nodup idx Hs) as Hnd. rewrite Hl in Hnd. rewrite Efree. by apply NoDup_app in Hnd as (? & _).
    + exact Hlv.
    + cbn. rewrite list_lookup_insert_eq by lia. done.
    + intros id' Hne _. cbn. rewrite list_lookup_insert_ne by lia. done.
    + cbn. rewrite length_insert. lia.
  - apply last_None in Elast. destruct Hroom as [?|Hroom]; [done|].
    set (id := (N.of_nat (length (bindings idx)) mod 2 ^ 32)%N).
    assert (id = N.of_nat (length (bindings idx))) as Eid by (apply N.mod_small; lia).
    exists id, idx. split; [done|]. split; [lia|].
    split; [unfold lv; rewrite lookup_ge_None_2; [done|lia]|].
    unfold place. rewrite decide_False by lia. rret.
    pose proof (λ id', lv_append idx (freeIDs idx) (evalKeys idx ++ [k]) id (Some (set_ID b id)) id' ltac:(lia)) as Hlv.
    split; [by eexists _, _, _|]. split_and!.
    + split; cbn; rewrite ?Elast.
      * rewrite !length_app. cbn. lia. * rewrite length_app. cbn. lia. * rewrite <-Elast. by apply (Hids _ id).
      * intros id' Hin. by apply elem_of_nil in Hin.
      * constructor.
    + exact Hlv.
    + cbn. rewrite Eid, Nat2N.id, <-Hkeys, lookup_app_r, Nat.sub_diag by lia. done.
    + intros id' _ Hlt. cbn. by rewrite lookup_app_l by lia.
    + cbn. rewrite length_app. cbn. lia.
Qed.

(** What [addBinding] does: a fresh identifier, the binding live there, and
    every dimension updated accordingly. *)
Record added (idx idx' : bitmapIndex) (b : BindingHandle) (k : EvaluationKeyTuple) (id : N) : Prop := {
  add_fresh : lv idx id = None;
  add_lv : ∀ id', lv idx' id' = upd (lv idx) id (Some (set_ID b id)) id';
  add_key : evalKeys idx' !! N.to_nat id = Some k;
  add_keys : ∀ id', id' ≠ id → N.to_nat id' < length (bindings idx) → evalKeys idx' !! N.to_nat id' = evalKeys idx !! N.to_nat id';
  add_cores : coresBySum idx' = coresBySum idx;
  add_len : length (bindings idx') ≤ S (length (bindings idx));
}.

Lemma allow_action_add idx b id :
  dims_ok idx (lv idx) → lv idx id = None → (id < 2 ^ 32)%N →
  runs (match bh_AllowActions b with
        | Some _ => aab ← Bitmap_Add (allowActionsBitmap idx) id; Some (aab, action idx)
        | None => act ← add_handle globDimension_Set (action idx) (bh_Action b) id; Some (allowActionsBitmap idx, act)
        end) (λ '(aab, act), Bitmap_ok aab ∧
          indexes (λ (_ : unit), bm_mem aab) (upd (lv idx) id (Some b)) allow_key ∧
          gd_ok act ∧ indexes (gd_mem act) (upd (lv idx) id (Some b)) action_key).
Proof.
  intros Hd Hf Hid. destruct (bh_AllowActions b) as [aa|] eqn:Ea.
  - eapply runs_bind; [apply (universe_add (lv idx) b id Hf Hid); [apply Hd|apply Hd|unfold allow_key; by rewrite Ea]|].
    intros aab [Hb Hi]. rret. split_and!; [done|done|apply Hd|].
    eapply indexes_skip; [apply Hd|done|unfold action_key; by rewrite Ea|done].
  - eapply runs_bind; [apply (gd_add_handle (lv idx) b id Hf Hid); [apply Hd|apply Hd|unfold action_key; by rewrite Ea]|].
    intros act [Hg Hi]. rret. split_and!; [apply Hd| |done|done].
    eapply (indexes_skip (λ _ : unit, bm_mem (allowActionsBitmap idx))); [apply Hd|done|unfold allow_key; by rewrite Ea|done].
Qed.

Lemma fqn_Add_mem m f id f' id' :
  fqn_mem (fqnDimension_Add m f id) f' id' = (bool_decide (f = f' ∧ id = id') || fqn_mem m f' id')%bool.
Proof.
  unfold fqn_mem, fqnDimension_Add. apply eq_bool_prop_intro.
  rewrite !Is_true_true, orb_true_iff, !bool_decide_eq_true. destruct (decide (f = f')) as [<-|Hne].
  - rewrite lookup_insert_eq. match goal with |- context [default [] (Some ?l)] => change (default [] (Some l)) with l end. rewrite elem_of_app, list_elem_of_singleton.
    destruct (m !! f); cbn; naive_solver.
  - rewrite lookup_insert_ne by done. naive_solver.
Qed.

Lemma fqn_add_ok idx b id :
  fqn_ok idx → lv idx id = None → ∀ idx', fqnBindings idx' = fqnDimension_Add (fqnBindings idx) (HandleStr (bh_OriginFqn b)) id →
  (∀ id', lv idx' id' = upd (lv idx) id (Some b) id') → fqn_ok idx'.
Proof.
  intros Hf Hfree idx' Efqn Hlv. split.
  - rewrite Efqn. eapply indexes_ext; [eapply (indexes_add _ _ _ _ (fok_is idx Hf)); [exact Hfree|done|apply fqn_Add_mem]|done|done].
  - intros f ids. rewrite Efqn. unfold fqnDimension_Add. intros [[<- <-]|[_ E]]%lookup_insert_Some; [|by eapply fok_nodup].
    set (f := HandleStr (bh_OriginFqn b)).
    apply NoDup_app. split_and!; [| |apply NoDup_singleton].
    + destruct (fqnBindings idx !! f) eqn:E; [by eapply fok_nodup|constructor].
    + intros x Hx ->%list_elem_of_singleton. destruct (proj1 (fok_is idx Hf f id)) as (b' & Hb' & _); [|congruence].
      unfold fqn_mem. apply bool_decide_eq_true. destruct (fqnBindings idx !! f); [done|by apply elem_of_nil in Hx].
Qed.

Lemma addBinding_runs idx b k :
  bi_ok idx → fqn_ok idx → handles_ok b → has_room idx →
  runs (addBinding idx b k) (λ idx', bi_ok idx' ∧ fqn_ok idx' ∧ ∃ id, added idx idx' b k id).
Proof.
  intros [Hs Hd] Hf Hb Hroom. unfold addBinding.
  destruct (alloc_place_runs idx b k Hs Hb Hroom) as (id & idx1 & -> & Hid & Hfree & Hplace).
  eapply runs_bind; [exact Hplace|]. intros idx2 ((free & bs & ks & E2) & Hs2 & Hlv & Hkey & Hkeys & Hlen).
  set (b' := set_ID b id) in *. subst idx2. cbn [universe scope version role resource policyKind principal action allowActionsBitmap set_slots].
  eapply runs_bind; [apply (universe_add (lv idx) b' id Hfree Hid _ (λ _, Some ())); [apply Hd|apply Hd|done]|]. intros uni [U1 U2].
  eapply runs_bind; [apply (dim_add (lv idx) b' id Hfree Hid _ _ scope_key); [apply Hd|apply Hd|done]|]. intros sco [S1 S2].
  eapply runs_bind; [apply (dim_add_handle (lv idx) b' id Hfree Hid _ _ bh_Version); [apply Hd|apply Hd|done]|]. intros ver [V1 V2].
  eapply runs_bind; [apply (gd_add_handle (lv idx) b' id Hfree Hid _ _ role_key); [apply Hd|apply Hd|done]|]. intros rol [R1 R2].
  eapply runs_bind; [apply (gd_add_handle (lv idx) b' id Hfree Hid _ _ resource_key); [apply Hd|apply Hd|done]|]. intros res [Q1 Q2].
  eapply runs_bind; [apply (allow_action_add idx b' id Hd Hfree Hid)|]. intros [aab act] (B1 & B2 & A1 & A2).
  eapply runs_bind; [apply (dim_add (lv idx) b' id Hfree Hid _ _ kind_key); [apply Hd|apply Hd|done]|]. intros kin [K1 K2].
  eapply runs_bind; [apply (lazy_add_handle (lv idx) b' id Hfree Hid _ _ bh_Principal); [apply Hd|apply Hd|done]|]. intros pri [P1 P2].
  rret. set (idx' := set_fqnBindings _ _).
  assert (∀ id', lv idx' id' = upd (lv idx) id (Some b') id') as Hlv' by exact Hlv.
  assert (∀ K (mem : K → N → bool) ko, indexes mem (upd (lv idx) id (Some b')) ko → indexes mem (lv idx') ko) as Hto.
  { intros K mem ko Hi. eapply indexes_ext; [exact Hi|done|done]. }
  split_and!.
  - split; [destruct Hs2; by split|]. split; cbn; try done; by apply Hto.
  - by eapply (fqn_add_ok idx b' id).
  - exists id. by split.
Qed.

(** ** Removing a binding *)

Section remove_dims.
Context (live : N → option BindingHandle) (b : BindingHandle) (id : N) (Hlive : live id = Some b).
Local Abbreviation live' := (upd live id None).

Lemma bm_remove bm key_of :
  Bitmap_ok bm → indexes (λ (_ : unit), bm_mem bm) live key_of →
  runs (Bitmap_Remove bm id) (λ bm', Bitmap_ok bm' ∧ indexes (λ (_ : unit), bm_mem bm') live' key_of).
Proof using Hlive.
  intros Hb Hi. eapply runs_mono; [by apply Remove_runs|]. intros bm' (Hb' & _ & Hm). split; [done|].
  eapply (indexes_remove _ _ _ _ Hi id b ()); [done|by intros []|]. intros [] id'. rewrite Hm, andb_comm. f_equal.
  rewrite <-bool_decide_not. apply bool_decide_ext. split; [intros ? [_ ?]; congruence|]. intros Hn ->. by apply Hn.
Qed.

Lemma dim_remove {T} `{Countable T} (d : gmap T Bitmap) key key_of :
  dim_ok d → indexes (dim_mem d) live key_of → (∀ k, key_of b = Some k → k = key) →
  runs (dimension_Remove d key id) (λ d', dim_ok d' ∧ indexes (dim_mem d') live' key_of).
Proof using Hlive.
  intros Hd Hi Hk. eapply runs_mono; [by apply dim_Remove_runs|]. intros d' [Hd' Hm]. split; [done|].
  by eapply (indexes_remove _ _ _ _ Hi).
Qed.

Lemma lazy_remove d key key_of :
  lazy_ok d → indexes (lazy_mem d) live key_of → (∀ k, key_of b = Some k → k = key) →
  runs (lazyDimension_Remove d key id) (λ d', lazy_ok d' ∧ indexes (lazy_mem d') live' key_of).
Proof using Hlive.
  intros Hd Hi Hk. eapply runs_mono; [by apply lazy_Remove_runs|]. intros d' [Hd' Hm]. split; [done|].
  by eapply (indexes_remove _ _ _ _ Hi).
Qed.

Lemma gd_remove gd key key_of :
  gd_ok gd → indexes (gd_mem gd) live key_of → (∀ k, key_of b = Some k → k = key) →
  runs (globDimension_Remove gd key id) (λ gd', gd_ok gd' ∧ indexes (gd_mem gd') live' key_of).
Proof using Hlive.
  intros Hd Hi Hk. eapply runs_mono; [by apply gd_Remove_runs|]. intros d' [Hd' Hm]. split; [done|].
  by eapply (indexes_remove _ _ _ _ Hi).
Qed.
End remove_dims.

Lemma allow_action_remove idx b id :
  dims_ok idx (lv idx) → lv idx id = Some b →
  runs (match bh_AllowActions b with
        | Some _ => aab ← Bitmap_Remove (allowActionsBitmap idx) id; Some (aab, action idx)
        | None =>
            act ← (match bh_Action b with Some a => globDimension_Remove (action idx) a id | None => Some (action idx) end);
            Some (allowActionsBitmap idx, act)
        end) (λ '(aab, act), Bitmap_ok aab ∧
          indexes (λ (_ : unit), bm_mem aab) (upd (lv idx) id None) allow_key ∧
          gd_ok act ∧ indexes (gd_mem act) (upd (lv idx) id None) action_key).
Proof.
  intros Hd Hl. destruct (bh_AllowActions b) as [aa|] eqn:Ea.
  - eapply runs_bind; [apply (bm_remove (lv idx) b id Hl); apply Hd|]. intros aab [Hb Hi]. rret.
    split_and!; [done|done|apply Hd|]. eapply indexes_none; [apply Hd|done|unfold action_key; by rewrite Ea|done].
  - assert (indexes (λ (_ : unit), bm_mem (allowActionsBitmap idx)) (upd (lv idx) id None) allow_key) as Hallow.
    { eapply (indexes_none (λ (_ : unit), bm_mem (allowActionsBitmap idx)));
        [apply Hd|done|unfold allow_key; by rewrite Ea|done]. }
    destruct (bh_Action b) as [a|] eqn:Eact.
    + eapply runs_bind; [apply (gd_remove (lv idx) b id Hl _ _ action_key); [apply Hd|apply Hd|]|].
      { intros k. unfold action_key, valid_key. rewrite Ea, Eact, bind_some. destruct (key_valid a); congruence. }
      intros act [Hg Hi]. rret. split_and!; [apply Hd|done|done|done].
    + rewrite bind_some. rret. split_and!; [apply Hd|done|apply Hd|].
      eapply indexes_none; [apply Hd|done|unfold action_key; by rewrite Ea, Eact|done].
Qed.

(** What [removeBinding] does: the binding's slot is freed and no dimension
    mentions its identifier any more. *)
Record removed (idx idx' : bitmapIndex) (id : N) : Prop := {
  rem_lv : ∀ id', lv idx' id' = upd (lv idx) id None id';
  rem_keys : ∀ id', id' ≠ id → evalKeys idx' !! N.to_nat id' = evalKeys idx !! N.to_nat id';
  rem_free : freeIDs idx' = freeIDs idx ++ [id];
  rem_cores : coresBySum idx' = coresBySum idx;
  rem_fqn : fqnBindings idx' = fqnBindings idx;
  rem_len : length (bindings idx') = length (bindings idx);
}.

Lemma HandleStr_key h k : h = Some k → k = HandleStr h.
Proof. by intros ->. Qed.

Lemma valid_key_str h k : valid_key h = Some k → k = HandleStr h.
Proof. unfold valid_key. destruct h as [s|]; [|done]. rewrite bind_some. destruct (key_valid s); [|done]. by intros [= ->]. Qed.

Lemma removeBinding_runs idx id b :
  bi_ok idx → lv idx id = Some b →
  runs (removeBinding idx b) (λ idx', bi_ok idx' ∧ removed idx idx' id).
Proof.
  intros [Hs Hd] Hl. destruct (slok_id idx Hs _ _ Hl) as [Eid Hok]. unfold removeBinding. rewrite Eid.
  eapply runs_bind; [apply (bm_remove (lv idx) b id Hl); apply Hd|]. intros uni [U1 U2].
  eapply runs_bind; [apply (dim_remove (lv idx) b id Hl); [apply Hd|apply (dok_version_is _ _ Hd)|apply HandleStr_key]|]. intros ver [V1 V2].
  eapply runs_bind; [apply (dim_remove (lv idx) b id Hl); [apply Hd|apply (dok_scope_is _ _ Hd)|by intros k [= <-]]|]. intros sco [S1 S2].
  eapply runs_bind; [apply (gd_remove (lv idx) b id Hl); [apply Hd|apply (dok_role_is _ _ Hd)|apply valid_key_str]|]. intros rol [R1 R2].
  eapply runs_bind; [apply (gd_remove (lv idx) b id Hl); [apply Hd|apply (dok_resource_is _ _ Hd)|apply valid_key_str]|]. intros res [Q1 Q2].
  eapply runs_bind; [by apply allow_action_remove|]. intros [aab act] (B1 & B2 & A1 & A2).
  eapply runs_bind; [apply (dim_remove (lv idx) b id Hl); [apply Hd|apply (dok_kind_is _ _ Hd)|by intros k [= <-]]|]. intros kin [K1 K2].
  eapply runs_bind; [apply (lazy_remove (lv idx) b id Hl); [apply Hd|apply (dok_principal_is _ _ Hd)|apply HandleStr_key]|]. intros pri [P1 P2].
  pose proof (lv_bound _ _ _ Hl) as Hlt. pose proof (slok_keys idx Hs) as Hkeys.
  unfold freeID. cbn [bindings evalKeys freeIDs set_dims]. rewrite !list_set_lt by lia. bsimp. rret.
  set (idx' := set_slots _ _ _ _).
  assert (∀ id', lv idx' id' = upd (lv idx) id None id') as Hlv'.
  { intros id'. pose proof (lv_insert idx (freeIDs idx ++ [id]) [] id None id' Hlt) as E. exact E. }
  assert (∀ K (mem : K → N → bool) ko, indexes mem (upd (lv idx) id None) ko → indexes mem (lv idx') ko) as Hto.
  { intros K mem ko Hi. eapply indexes_ext; [exact Hi|done|done]. }
  split; [split; [|split; cbn; try done; by apply Hto]|].
  - split; cbn.
    + by rewrite !length_insert. + rewrite length_insert. apply Hs.
    + intros id' b'. rewrite Hlv'. unfold upd. case_decide; [done|]. apply (slok_id idx Hs).
    + intros id' [Hin| ->%list_elem_of_singleton]%elem_of_app; [|by rewrite list_lookup_insert_eq].
      destruct (decide (id' = id)) as [->|]; [by rewrite list_lookup_insert_eq|].
      rewrite list_lookup_insert_ne by lia. by apply (slok_free idx Hs).
    + apply NoDup_app. split_and!; [apply Hs| |apply NoDup_singleton]. intros x Hx ->%list_elem_of_singleton.
      apply (slok_free idx Hs) in Hx. unfold lv in Hl. by rewrite Hx in Hl.
  - split; cbn; try done; [|by rewrite length_insert]. intros id' Hne. rewrite list_lookup_insert_ne by lia. done.
Qed.
End core.
