(* ===== verification/IndexQuery.v ===== *)
(** Queries of the rule index: [Query], [resourceQuery],
    [appendRolePolicyDenies] and their helpers in
    [src/internal/ruletable/index/index.go].

    A query runs in [ST (bitmapIndex * bitmapArena)]: it materialises cold
    entries and takes pooled bitmaps, but leaves the content of every dimension
    as it is ([bi_rel]).  Its result is specified by scanning the live bindings:
    [scan idx f] lists those satisfying [f] in the order of their identifiers. *)
From S2P Require Import Prelude GoRuntime Bitmap BitmapOps BitmapIter Arena LazyDim Dimension GlobDim Namer Policy IndexCore.

Local Open Scope string_scope.
Local Open Scope list_scope.
Open Scope nat_scope.

(** * Resource kinds *)

Record ResourceKind := MkResourceKind { raw : string; sanitized : string }.

Definition NewResourceKind (kind : string) : ResourceKind :=
  let s := SanitizedResource kind in
  if decide (s ≠ kind) then MkResourceKind kind s else MkResourceKind kind "".

Definition newResourceKinds (kinds : list string) : list ResourceKind := NewResourceKind <$> kinds.

Section query.
Context `{GlobEngine} `{CelCompiler} `{GoMapOrder}.

(** * The state of a query *)

Definition qstate : Type := bitmapIndex * bitmapArena.

Definition set_role (g : globDimension) (x : bitmapIndex) : bitmapIndex :=
  set_dims (action x) (version x) (scope x) g (policyKind x) (resource x) (principal x) (universe x) (allowActionsBitmap x) x.
Definition set_action (g : globDimension) (x : bitmapIndex) : bitmapIndex :=
  set_dims g (version x) (scope x) (role x) (policyKind x) (resource x) (principal x) (universe x) (allowActionsBitmap x) x.
Definition set_resource (g : globDimension) (x : bitmapIndex) : bitmapIndex :=
  set_dims (action x) (version x) (scope x) (role x) (policyKind x) g (principal x) (universe x) (allowActionsBitmap x) x.
Definition set_principal (p : gmap string lazyState) (x : bitmapIndex) : bitmapIndex :=
  set_dims (action x) (version x) (scope x) (role x) (policyKind x) (resource x) p (universe x) (allowActionsBitmap x) x.

Definition on_role {A} (m : ST gstate A) : ST qstate A :=
  zoom (λ s, (role s.1, s.2)) (λ g s, (set_role g.1 s.1, g.2)) m.
Definition on_action {A} (m : ST gstate A) : ST qstate A :=
  zoom (λ s, (action s.1, s.2)) (λ g s, (set_action g.1 s.1, g.2)) m.
Definition on_resource {A} (m : ST gstate A) : ST qstate A :=
  zoom (λ s, (resource s.1, s.2)) (λ g s, (set_resource g.1 s.1, g.2)) m.
Definition on_principal {A} (m : ST (gmap string lazyState) A) : ST qstate A :=
  zoom (λ s, principal s.1) (λ p s, (set_principal p s.1, s.2)) m.
Definition on_arena {A} (m : ST bitmapArena A) : ST qstate A := zoom snd (λ a s, (s.1, a)) m.

(** [for it.HasNext() { if b := bi.getBinding(it.Next()); b != nil { ... } }] *)
Definition bindings_of (idx : bitmapIndex) (bm : Bitmap) : option (list BindingHandle) :=
  ids ← Bitmap_ids bm;
  foldM (λ acc id, ob ← getBinding idx id; Some (match ob with Some b => acc ++ [b] | None => acc end)) [] ids.
Definition read_bindings (bm : Bitmap) : ST qstate (list BindingHandle) := λ s,
  bs ← bindings_of s.1 bm; Some (bs, s).

(** * [resourceQuery] *)

(** Which principal policy globs are matched against the sanitized kind, and the
    mask to apply to them. *)
Definition sanitized_mode (pk : Kind) (idx : bitmapIndex) : option Bitmap * bool :=
  match pk with
  | KIND_RESOURCE => (None, false)
  | KIND_PRINCIPAL => (None, true)
  | _ => match dimension_Get (policyKind idx) KIND_PRINCIPAL with
         | Some bm => (Some bm, true)
         | None => (None, false)
         end
  end.

Definition resource_globs (rk : ResourceKind) (matchSanitized : bool) (parts : list Bitmap) : ST qstate (list Bitmap * list Bitmap) :=
  cs ← gets (λ s, go_range (compiled (resource s.1)));
  foldST (λ '(parts, sanitizedOnlyGlobs) '(pat, p),
    if glob_Match p (raw rk) then
      bm ← on_resource (globs_Bitmap pat); mret (app_part parts bm, sanitizedOnlyGlobs)
    else if matchSanitized && glob_Match p (sanitized rk) then
      bm ← on_resource (globs_Bitmap pat); mret (parts, app_part sanitizedOnlyGlobs bm)
    else mret (parts, sanitizedOnlyGlobs)) (parts, []) cs.

Definition mask_globs (sanitizedOnlyGlobs : list Bitmap) (principalBM : option Bitmap) (parts : list Bitmap) : ST bitmapArena (list Bitmap) :=
  match sanitizedOnlyGlobs with
  | [] => mret parts
  | _ =>
      globsBM ← (match sanitizedOnlyGlobs with [bm] => mret bm | _ => arena_orInto sanitizedOnlyGlobs end);
      globsBM ← (match principalBM with Some p => arena_and2 globsBM p | None => mret globsBM end);
      mret (if Bitmap_IsEmpty globsBM then parts else parts ++ [globsBM])
  end.

Definition resourceQuery (rk : ResourceKind) (pk : Kind) : ST qstate Bitmap :=
  if decide (sanitized rk = "") then on_resource (globDimension_Query (raw rk))
  else
    r1 ← on_resource (literals_Bitmap (raw rk));
    r2 ← on_resource (literals_Bitmap (sanitized rk));
    '(principalBM, matchSanitized) ← gets (λ s, sanitized_mode pk s.1);
    '(parts, sanitizedOnlyGlobs) ← resource_globs rk matchSanitized (app_part (app_part [] r1) r2);
    parts ← on_arena (mask_globs sanitizedOnlyGlobs principalBM parts);
    on_arena (or_parts parts).

Definition nonempty (m : ST qstate Bitmap) : ST qstate (option Bitmap) :=
  bm ← m; mret (if Bitmap_IsEmpty bm then None else Some bm).

(** * [Query] *)

(** A filter that is only applied when [cond] holds; when it applies and finds
    nothing the query returns early ([None]). *)
Definition filter_if {A} (cond : bool) (m : ST qstate (option Bitmap)) (k : option Bitmap → ST qstate (option A)) : ST qstate (option A) :=
  if cond then
    r ← m;
    match r with
    | None => mret None
    | Some bm => k (Some bm)
    end
  else k None.

Record Filters := MkFilters {
  f_version : option Bitmap; f_scope : option Bitmap; f_resource : option Bitmap;
  f_role : option Bitmap; f_kind : option Bitmap; f_principal : option Bitmap;
}.

Definition Query_filters (ver : string) (rk : ResourceKind) (sco : string) (roles : list string) (pk : Kind)
    (principalID : string) : ST qstate (option Filters) :=
  filter_if (negb (bool_decide (principalID = ""))) (on_principal (lazyDimension_Bitmap principalID)) (λ principalBM,
  filter_if true (gets (λ s, dimension_Get (scope s.1) sco)) (λ scopeBM,
  filter_if (negb (bool_decide (ver = ""))) (gets (λ s, dimension_Get (version s.1) ver)) (λ versionBM,
  filter_if (negb (bool_decide (raw rk = ""))) (nonempty (resourceQuery rk pk)) (λ resourceBM,
  filter_if (bool_decide (0 < length roles)) (nonempty (on_role (globDimension_QueryMultiple roles))) (λ roleBM,
  filter_if (negb (bool_decide (pk = KIND_UNSPECIFIED))) (gets (λ s, dimension_Get (policyKind s.1) pk)) (λ kindBM,
  mret (Some (MkFilters versionBM scopeBM resourceBM roleBM kindBM principalBM)))))))).

Definition Filters_dims (f : Filters) : list Bitmap :=
  app_part (app_part (app_part (app_part (app_part (app_part [] (f_version f)) (f_scope f)) (f_resource f))
    (f_role f)) (f_kind f)) (f_principal f).

(** The intersection of the dimensions; the universe when there is none.  [Query]
    uses [and2] for two dimensions, the other callers [andInto]. *)
Definition combine_dims (two : bool) (dims : list Bitmap) : ST qstate Bitmap :=
  match dims with
  | [] => gets (λ s, universe s.1)
  | [bm] => mret bm
  | [x; y] => on_arena (if two then arena_and2 x y else arena_andInto dims)
  | _ => on_arena (arena_andInto dims)
  end.

(** ** Synthetic denies of role policies *)

Definition newNoMatchRolePolicyDeny (role version scope resource action : string) : BindingHandle :=
  MkBinding (mkStringHandle resource) EmptyHandle (mkStringHandle action) (mkStringHandle role) (mkStringHandle scope)
    (mkStringHandle version) EmptyHandle EmptyHandle None (mkStringHandle (RolePolicyFQN role version scope))
    (MkCore None None None None None None 0 EFFECT_DENY SCOPE_PERMISSIONS_UNSPECIFIED KIND_RESOURCE true)
    [] noEvalKey true.

(** What an allowing role policy row contributes: nothing when it is
    unconditional and silent, its output when it is unconditional, and otherwise
    a deny guarded by the negated condition with the outputs swapped. *)
Definition synthesise (action : string) (mb : BindingHandle) : list BindingHandle :=
  let core := bh_Core mb in
  match co_Condition core with
  | None =>
      match co_EmitOutput core with
      | None => []
      | Some out =>
          [MkBinding (bh_Resource mb) EmptyHandle (mkStringHandle action) (bh_Role mb) (bh_Scope mb) (bh_Version mb)
             EmptyHandle (bh_Name mb) None (bh_OriginFqn mb)
             (MkCore None None (Some out) (co_Params core) None None 0 EFFECT_UNSPECIFIED SCOPE_PERMISSIONS_UNSPECIFIED KIND_RESOURCE true)
             [] (bh_ID mb) false]
      end
  | Some c =>
      let emitOutput :=
        out ← co_EmitOutput core;
        w ← When out;
        Some (MkOutput (Some (MkWhen (ConditionNotMet w) (RuleActivated w)))) in
      [MkBinding (bh_Resource mb) EmptyHandle (mkStringHandle action) (bh_Role mb) (bh_Scope mb) (bh_Version mb)
         EmptyHandle (bh_Name mb) None (bh_OriginFqn mb)
         (MkCore (Some (Cond_None [c])) None emitOutput (co_Params core) None None 0 EFFECT_DENY
            SCOPE_PERMISSIONS_REQUIRE_PARENTAL_CONSENT_FOR_ALLOWS KIND_RESOURCE true)
         [] (bh_ID mb) false]
  end.

Definition denies_for_action (role : string) (roleBindings : list BindingHandle) (action : string) : list BindingHandle :=
  let matched := filter (λ rb, allowsAction rb action = true) roleBindings in
  match matched, roleBindings with
  | [], rep :: _ => [newNoMatchRolePolicyDeny role (HandleStr (bh_Version rep)) (HandleStr (bh_Scope rep)) (HandleStr (bh_Resource rep)) action]
  | _, _ => matched ≫= synthesise action
  end.

Definition denies_for_role (rawKind : string) (actions : list string) (role : string) (rep : BindingHandle)
    (roleBindings : list BindingHandle) : list BindingHandle :=
  match roleBindings with
  | [] => (λ a, newNoMatchRolePolicyDeny role (HandleStr (bh_Version rep)) (HandleStr (bh_Scope rep)) rawKind a) <$> actions
  | _ => actions ≫= denies_for_action role roleBindings
  end.

(** One sample binding per role, and the roles in discovery order. *)
Definition add_rep (st : gmap string BindingHandle * list string) (b : BindingHandle) : gmap string BindingHandle * list string :=
  let '(rep, order) := st in
  let r := HandleStr (bh_Role b) in
  match rep !! r with
  | Some _ => (rep, order)
  | None => (<[r := b]> rep, order ++ [r])
  end.
Definition rolePolicyReps (l : list BindingHandle) : gmap string BindingHandle * list string := foldl add_rep (∅, []) l.

Definition add_by_role (m : gmap string (list BindingHandle)) (b : BindingHandle) : gmap string (list BindingHandle) :=
  let r := HandleStr (bh_Role b) in <[r := default [] (m !! r) ++ [b]]> m.
Definition matchedByRole (l : list BindingHandle) : gmap string (list BindingHandle) := foldl add_by_role ∅ l.

Definition denies_for_resource (rawKind : string) (actions roles : list string) (reps : gmap string BindingHandle)
    (byRole : gmap string (list BindingHandle)) : list BindingHandle :=
  roles ≫= λ role,
    match reps !! role with
    | None => []
    | Some rep => denies_for_role rawKind actions role rep (default [] (byRole !! role))
    end.

(** The actions a binding refers to. *)
Definition binding_actions (b : BindingHandle) : gset string :=
  (match bh_Action b with Some a => {[a]} | None => ∅ end) ∪ default ∅ (bh_AllowActions b).

Definition collect_actions (l : list BindingHandle) : gset string :=
  foldl (λ acc b, if decide (co_PolicyKind (bh_Core b) = KIND_PRINCIPAL) then acc else acc ∪ binding_actions b) ∅ l.

Definition set_range (X : gset string) : list string := (go_range (gset_to_gmap () X)).*1.

Definition collectResourceActions (resBM : Bitmap) (versionBM scopeBM : option Bitmap) : ST qstate (list string) :=
  if Bitmap_IsEmpty resBM then mret []
  else
    bm ← combine_dims false (app_part (app_part [resBM] versionBM) scopeBM);
    if Bitmap_IsEmpty bm then mret []
    else
      bs ← read_bindings bm;
      mret (set_range (collect_actions bs)).

Definition denies_step (candidateBM : Bitmap) (reps : gmap string BindingHandle) (roles targetActions : list string)
    (versionBM scopeBM : option Bitmap) (res : list BindingHandle) (rk : ResourceKind) : ST qstate (list BindingHandle) :=
  resBM ← resourceQuery rk KIND_RESOURCE;
  matchedBM ← (if Bitmap_IsEmpty resBM then mret emptyBitmap else on_arena (arena_and2 candidateBM resBM));
  matched ← read_bindings matchedBM;
  actions ← (match targetActions with [] => collectResourceActions resBM versionBM scopeBM | _ => mret targetActions end);
  mret (match actions with
        | [] => res
        | _ => res ++ denies_for_resource (raw rk) actions roles reps (matchedByRole matched)
        end).

Definition appendRolePolicyDenies (resources : list ResourceKind) (roles targetActions : list string)
    (versionBM scopeBM roleBM : option Bitmap) (res : list BindingHandle) : ST qstate (list BindingHandle) :=
  aab ← gets (λ s, allowActionsBitmap s.1);
  let candidateDims := app_part (app_part (app_part [] versionBM) scopeBM) roleBM ++ [aab] in
  candidateBM ← combine_dims false candidateDims;
  if Bitmap_IsEmpty candidateBM then mret res
  else
    candidates ← read_bindings candidateBM;
    let '(reps, roleOrder) := rolePolicyReps candidates in
    let roles := match roles with [] => roleOrder | _ => roles end in
    foldST (denies_step candidateBM reps roles targetActions versionBM scopeBM) res resources.

Definition Query_state (ver : string) (rk : ResourceKind) (sco act : string) (roles : list string) (pk : Kind)
    (principalID : string) (buf : list BindingHandle) : ST qstate (list BindingHandle) :=
  empty ← gets (λ s, Bitmap_IsEmpty (universe s.1));
  if (empty : bool) then mret buf
  else
    fs ← Query_filters ver rk sco roles pk principalID;
    match fs with
    | None => mret buf
    | Some f =>
        baseBM ← combine_dims true (Filters_dims f);
        if Bitmap_IsEmpty baseBM then mret buf
        else
          resultBM ← (if decide (act = "") then mret baseBM
                      else
                        actionBM ← on_action (globDimension_Query act);
                        if Bitmap_IsEmpty actionBM then mret emptyBitmap else on_arena (arena_and2 baseBM actionBM));
          allowEmpty ← gets (λ s, Bitmap_IsEmpty (allowActionsBitmap s.1));
          buf ← (if bool_decide (act ≠ "" ∧ raw rk ≠ "" ∧ pk = KIND_RESOURCE) && negb allowEmpty
                 then appendRolePolicyDenies [rk] roles [act] (f_version f) (f_scope f) (f_role f) buf
                 else mret buf);
          if Bitmap_IsEmpty resultBM then mret buf
          else
            bs ← read_bindings resultBM;
            mret (buf ++ bs)
    end.

(** A query takes the pool, runs on a new arena and releases it at the end
    ([defer arena.release()]). *)
Definition with_arena {A} (m : ST qstate A) (idx : bitmapIndex) (pool : list Bitmap) : option (A * bitmapIndex * list Bitmap) :=
  '(x, (idx, a)) ← m (idx, newBitmapArena pool);
  pool ← arena_release a;
  Some (x, idx, pool).

Definition Query (idx : bitmapIndex) (pool : list Bitmap) (ver : string) (rk : ResourceKind) (sco act : string)
    (roles : list string) (pk : Kind) (principalID : string) (buf : list BindingHandle) :
    option (list BindingHandle * bitmapIndex * list Bitmap) :=
  with_arena (Query_state ver rk sco act roles pk principalID buf) idx pool.

(** * Reference: scanning the live bindings *)

Definition scan (idx : bitmapIndex) (f : BindingHandle → bool) : list BindingHandle :=
  omap (λ ob, b ← ob; if f b then Some b else None) (bindings idx).

Definition version_matches (v : string) (b : BindingHandle) : bool := bool_decide (v = "" ∨ bh_Version b = Some v).
Definition scope_matches (s : string) (b : BindingHandle) : bool := bool_decide (HandleStr (bh_Scope b) = s).
Definition handle_matches (h : Handle) (values : list string) : bool :=
  match h with None => false | Some k => existsb (key_matches k) values end.
Definition role_matches (roles : list string) (b : BindingHandle) : bool :=
  bool_decide (roles = []) || handle_matches (bh_Role b) roles.
Definition kind_matches (k : Kind) (b : BindingHandle) : bool :=
  bool_decide (k = KIND_UNSPECIFIED ∨ co_PolicyKind (bh_Core b) = k).
Definition principal_matches (p : string) (b : BindingHandle) : bool := bool_decide (p = "" ∨ bh_Principal b = Some p).
Definition action_matches (a : string) (b : BindingHandle) : bool :=
  bool_decide (a = "") || (bool_decide (bh_AllowActions b = None) && handle_matches (bh_Action b) [a]).

(** A resource key matches the kind as written; its sanitized form is also
    matched by literals, and by the globs of principal policies. *)
Definition sanitized_glob (pk : Kind) (b : BindingHandle) : bool :=
  match pk with
  | KIND_RESOURCE => false
  | KIND_PRINCIPAL => true
  | _ => bool_decide (co_PolicyKind (bh_Core b) = KIND_PRINCIPAL)
  end.
Definition res_matches (rk : ResourceKind) (pk : Kind) (b : BindingHandle) : bool :=
  match bh_Resource b with
  | None => false
  | Some k =>
      key_matches k (raw rk) ||
      (negb (bool_decide (sanitized rk = "")) && (negb (IsGlob k) || sanitized_glob pk b) && key_matches k (sanitized rk))
  end.
Definition resource_matches (rk : ResourceKind) (pk : Kind) (b : BindingHandle) : bool :=
  bool_decide (raw rk = "") || res_matches rk pk b.

Definition base_matches (ver : string) (rk : ResourceKind) (sco : string) (roles : list string) (pk : Kind) (p : string)
    (b : BindingHandle) : bool :=
  version_matches ver b && scope_matches sco b && resource_matches rk pk b && role_matches roles b &&
  kind_matches pk b && principal_matches p b.

(** The synthetic denies, as a function of the live bindings: [vf], [sf] and [rf]
    are the version, scope and role filters. *)
Definition candidate (vf sf rf : BindingHandle → bool) (b : BindingHandle) : bool :=
  vf b && sf b && rf b && bool_decide (is_Some (bh_AllowActions b)).

Definition actions_spec (idx : bitmapIndex) (vf sf : BindingHandle → bool) (rk : ResourceKind) : list string :=
  set_range (collect_actions (scan idx (λ b, res_matches rk KIND_RESOURCE b && vf b && sf b))).

Definition denies_spec (idx : bitmapIndex) (vf sf rf : BindingHandle → bool) (resources : list ResourceKind)
    (roles targetActions : list string) : list BindingHandle :=
  let '(reps, order) := rolePolicyReps (scan idx (candidate vf sf rf)) in
  resources ≫= λ rk,
    denies_for_resource (raw rk)
      (match targetActions with [] => actions_spec idx vf sf rk | _ => targetActions end)
      (match roles with [] => order | _ => roles end) reps
      (matchedByRole (scan idx (λ b, candidate vf sf rf b && res_matches rk KIND_RESOURCE b))).

Definition Query_spec (idx : bitmapIndex) (ver : string) (rk : ResourceKind) (sco act : string) (roles : list string)
    (pk : Kind) (p : string) (buf : list BindingHandle) : list BindingHandle :=
  match scan idx (base_matches ver rk sco roles pk p) with
  | [] => buf
  | _ =>
      buf ++
      (if bool_decide (act ≠ "" ∧ raw rk ≠ "" ∧ pk = KIND_RESOURCE) 
       then denies_spec idx (version_matches ver) (scope_matches sco) (role_matches roles) [rk] roles [act] else []) ++
      scan idx (λ b, base_matches ver rk sco roles pk p b && action_matches act b)
  end.
End query.
