(* ===== verification/IndexQuerySpec.v ===== *)
(** Correctness of [Query]: the bitmap pipeline computes the linear scan of the
    live bindings ([Query_spec]), and leaves the index as it found it. *)
From S2P Require Import Prelude GoRuntime Bitmap BitmapOps BitmapIter Arena LazyDim Dimension GlobDim Namer Policy IndexCore IndexQuery.

Local Open Scope string_scope.
Local Open Scope list_scope.
Open Scope nat_scope.

Section spec.
Context `{GlobEngine} `{CelCompiler} `{GoMapOrder}.

(** * Index states a query may move between *)

Definition fixed_part (x : bitmapIndex) :=
  (coresBySum x, version x, scope x, policyKind x, fqnBindings x, universe x, allowActionsBitmap x,
   freeIDs x, bindings x, evalKeys x).

(** Well-formed indexes that differ at most in which cold entries are materialised. *)
Record bi_rel (x y : bitmapIndex) : Prop := {
  br_left : bi_ok x;
  br_right : bi_ok y;
  br_fixed : fixed_part x = fixed_part y;
  br_role : gd_rel (role x) (role y);
  br_action : gd_rel (action x) (action y);
  br_resource : gd_rel (resource x) (resource y);
  br_principal : lazy_rel (principal x) (principal y);
}.
#[export] Instance bi_rel_per : RelationClasses.PER bi_rel.
Proof.
  split.
  - intros x y [? ? ? ? ? ? ?]. split; [done|done|..]; by symmetry.
  - intros x y z [? ? ? ? ? ? ?] [? ? ? ? ? ? ?]. split; [done|done|..]; by etrans.
Qed.

Lemma bi_rel_refl x : bi_ok x → bi_rel x x.
Proof.
  intros Hx. pose proof (bok_dims x Hx) as Hd.
  split; [done|done|done|apply gd_rel_refl, Hd|apply gd_rel_refl, Hd|apply gd_rel_refl, Hd|apply lazy_rel_refl, Hd].
Qed.

Lemma bi_rel_lv x y id : bi_rel x y → lv y id = lv x id.
Proof. intros [_ _ E _ _ _ _]. unfold lv. by injection E as _ _ _ _ _ _ _ _ -> _. Qed.

Lemma bi_rel_bindings x y : bi_rel x y → bindings y = bindings x.
Proof. intros [_ _ E _ _ _ _]. by injection E as _ _ _ _ _ _ _ _ -> _. Qed.

Lemma evalKey_rel x y id : bi_rel x y → evalKey y id = evalKey x id.
Proof. intros [_ _ E _ _ _ _]. unfold evalKey. by injection E as _ _ _ _ _ _ _ _ _ ->. Qed.

Lemma indexes_gd_rel gd gd' live key_of :
  gd_rel gd gd' → indexes (gd_mem gd) live key_of → indexes (gd_mem gd') live key_of.
Proof. intros Hr Hi. eapply indexes_ext; [exact Hi|done|]. intros k id. symmetry. by apply gd_rel_mem. Qed.

(** Replacing the lazy dimensions by equivalent ones. *)
Lemma bi_rel_replace x act rol res pri :
  bi_ok x → gd_rel (action x) act → gd_rel (role x) rol → gd_rel (resource x) res → lazy_rel (principal x) pri →
  bi_rel x (set_dims act (version x) (scope x) rol (policyKind x) res pri (universe x) (allowActionsBitmap x) x).
Proof.
  intros Hx Ha Hr Hs Hp. pose proof (bok_dims x Hx) as Hd.
  split; [done| |done|done|done|done|done]. split; [destruct (bok_slots x Hx); by split|].
  destruct Hd. split; cbn; try done; try (by eapply indexes_gd_rel).
  - by destruct Hr as (_ & ? & _). - by destruct Hs as (_ & ? & _). - by destruct Ha as (_ & ? & _).
  - by destruct Hp as (_ & ? & _).
  - destruct Hp as (_ & _ & Hm). eapply indexes_ext; [eassumption|done|]. intros k id. by rewrite Hm.
Qed.

Section query.
Context (idx : bitmapIndex) (Hidx : bi_ok idx).

(** Throughout a query, the index is [idx] up to materialisation. *)
Definition q_inv (s : qstate) : Prop := bi_rel idx s.1 ∧ arena_ok s.2.
Definition q_rel (s s' : qstate) : Prop := q_inv s ∧ q_inv s'.
#[export] Instance q_rel_per : RelationClasses.PER q_rel.
Proof. split; unfold q_rel; [intros x y; tauto|intros x y z; tauto]. Qed.

(** The identifiers whose live binding satisfies [f]. *)
Definition sel (f : BindingHandle → bool) (id : N) : Prop := ∃ b, lv idx id = Some b ∧ f b = true.

Lemma sel_and f g id : sel (λ b, f b && g b) id ↔ sel f id ∧ sel g id.
Proof.
  unfold sel. split.
  - intros (b & Hb & [? ?]%andb_true_iff). split; eauto.
  - intros [(b & Hb & ?) (b' & Hb' & ?)]. assert (b' = b) as -> by congruence. exists b. by rewrite andb_true_iff.
Qed.

Lemma sel_ext f g id : (∀ b, f b = g b) → sel f id ↔ sel g id.
Proof. intros Hfg. unfold sel. by setoid_rewrite Hfg. Qed.

Lemma indexes_sel {K} (mem : K → N → bool) key_of (k : K) (f : BindingHandle → bool) id :
  indexes mem (lv idx) key_of → (∀ b, f b = true ↔ key_of b = Some k) → mem k id = true ↔ sel f id.
Proof. intros Hi Hf. rewrite (Hi k id). unfold sel. by setoid_rewrite Hf. Qed.

Lemma q_inv_ok s : q_inv s → bi_ok s.1.
Proof. intros [[? ? ? ? ? ? ?] _]. done. Qed.

Lemma q_inv_dims s : q_inv s → dims_ok s.1 (lv idx).
Proof.
  intros [Hr _]. pose proof (bok_dims _ (br_right _ _ Hr)) as Hd.
  assert (∀ K (mem : K → N → bool) ko, indexes mem (lv s.1) ko → indexes mem (lv idx) ko) as Hto.
  { intros K mem ko Hi. eapply indexes_ext; [exact Hi| |done]. intros id. symmetry. by apply bi_rel_lv. }
  destruct Hd. split; try done; by apply Hto.
Qed.

(** ** Running parts of the query *)

Lemma on_arena_runs {A} (m : ST bitmapArena A) s (P : A → Prop) :
  q_inv s → sruns arena_rel m s.2 P → sruns q_rel (on_arena m) s P.
Proof. intros [Hi Ha] Hm. eapply sruns_zoom; [exact Hm|]. intros a [_ Ha']. split; by split. Qed.

Lemma on_role_runs {A} (m : ST gstate A) s (P : A → Prop) :
  q_inv s → sruns g_rel m (role s.1, s.2) P → sruns q_rel (on_role m) s P.
Proof.
  intros [Hi Ha] Hm. eapply sruns_zoom; [exact Hm|]. intros [g a] [Hg [_ Ha']]. split; [by split|]. split; [|done].
  etrans; [exact Hi|]. pose proof (bok_dims _ (br_right _ _ Hi)) as Hd. apply bi_rel_replace;
    [apply Hi|apply gd_rel_refl, Hd|exact Hg|apply gd_rel_refl, Hd|apply lazy_rel_refl, Hd].
Qed.

Lemma on_action_runs {A} (m : ST gstate A) s (P : A → Prop) :
  q_inv s → sruns g_rel m (action s.1, s.2) P → sruns q_rel (on_action m) s P.
Proof.
  intros [Hi Ha] Hm. eapply sruns_zoom; [exact Hm|]. intros [g a] [Hg [_ Ha']]. split; [by split|]. split; [|done].
  etrans; [exact Hi|]. pose proof (bok_dims _ (br_right _ _ Hi)) as Hd. apply bi_rel_replace;
    [apply Hi|exact Hg|apply gd_rel_refl, Hd|apply gd_rel_refl, Hd|apply lazy_rel_refl, Hd].
Qed.

Lemma on_resource_runs {A} (m : ST gstate A) s (P : A → Prop) :
  q_inv s → sruns g_rel m (resource s.1, s.2) P → sruns q_rel (on_resource m) s P.
Proof.
  intros [Hi Ha] Hm. eapply sruns_zoom; [exact Hm|]. intros [g a] [Hg [_ Ha']]. split; [by split|]. split; [|done].
  etrans; [exact Hi|]. pose proof (bok_dims _ (br_right _ _ Hi)) as Hd. apply bi_rel_replace;
    [apply Hi|apply gd_rel_refl, Hd|apply gd_rel_refl, Hd|exact Hg|apply lazy_rel_refl, Hd].
Qed.

Lemma on_principal_runs {A} (m : ST (gmap string lazyState) A) s (P : A → Prop) :
  q_inv s → sruns lazy_rel m (principal s.1) P → sruns q_rel (on_principal m) s P.
Proof.
  intros [Hi Ha] Hm. eapply sruns_zoom; [exact Hm|]. intros p Hp. split; [by split|]. split; [|done].
  etrans; [exact Hi|]. pose proof (bok_dims _ (br_right _ _ Hi)) as Hd. apply bi_rel_replace;
    [apply Hi|apply gd_rel_refl, Hd|apply gd_rel_refl, Hd|apply gd_rel_refl, Hd|exact Hp].
Qed.

Lemma q_gstate gd s : q_inv s → gd_ok gd → g_rel (gd, s.2) (gd, s.2).
Proof. intros [_ Ha] Hg. by apply g_rel_ok. Qed.

Lemma q_ret {A} (x : A) s (P : A → Prop) : q_inv s → P x → sruns q_rel (mret x) s P.
Proof. intros Hs HP. apply sruns_ret; [by split|done]. Qed.

Lemma q_bind {A B} (m : ST qstate A) (k : A → ST qstate B) s P (Q : B → Prop) :
  sruns q_rel m s P → (∀ x s', q_inv s' → P x → sruns q_rel (k x) s' Q) → sruns q_rel (m ≫= k) s Q.
Proof. intros Hm Hk. eapply sruns_bind; [apply _|exact Hm|]. intros x s' [_ Hs'] HP. by apply Hk. Qed.

Lemma q_gets {A} (f : qstate → A) s (P : A → Prop) : q_inv s → P (f s) → sruns q_rel (gets f) s P.
Proof. intros Hs HP. apply sruns_gets; [by split|done]. Qed.

(** ** Lookups as selections *)

Lemma key_matches_valid k v : key_matches k v = true → key_valid k = true.
Proof.
  unfold key_matches, key_valid, MatchesGlob. destruct (IsGlob k); [|done]. cbn.
  destruct (GetOrCompileGlob k); [|done]. intros _. by rewrite bool_decide_true.
Qed.

Lemma valid_key_matches h v :
  (∃ k, valid_key h = Some k ∧ key_matches k v = true) ↔ handle_matches h [v] = true.
Proof.
  unfold valid_key, handle_matches. destruct h as [s|]; cbn [mbind option_bind].
  - cbn. rewrite orb_false_r. split.
    + intros (k & E & Hm). destruct (key_valid s); [|done]. by injection E as ->.
    + intros Hm. exists s. by rewrite (key_matches_valid s v).
  - split; [by intros (? & ? & _)|done].
Qed.

Lemma hit_sel gd key_of h v id :
  indexes (gd_mem gd) (lv idx) key_of → (∀ b, key_of b = valid_key (h b)) →
  gd_hit gd v id ↔ sel (λ b, handle_matches (h b) [v]) id.
Proof.
  intros Hi Hk. unfold gd_hit, sel. split.
  - intros (k & Hm & Hg). apply Hi in Hg as (b & Hb & Eb). exists b. split; [done|]. apply valid_key_matches.
    rewrite <-Hk. eauto.
  - intros (b & Hb & (k & Ek & Hm)%valid_key_matches). exists k. split; [done|]. apply Hi. exists b. by rewrite Hk.
Qed.

Lemma action_hit_sel gd v id :
  indexes (gd_mem gd) (lv idx) action_key →
  gd_hit gd v id ↔ sel (λ b, bool_decide (bh_AllowActions b = None) && handle_matches (bh_Action b) [v]) id.
Proof.
  intros Hi. unfold gd_hit, sel. split.
  - intros (k & Hm & Hg). apply Hi in Hg as (b & Hb & Eb). unfold action_key in Eb.
    exists b. split; [done|]. destruct (bh_AllowActions b) eqn:Ea; [done|]. rewrite bool_decide_true by done.
    apply valid_key_matches. eauto.
  - intros (b & Hb & [Ha%bool_decide_eq_true (k & Ek & Hm)%valid_key_matches]%andb_true_iff).
    exists k. split; [done|]. apply Hi. exists b. unfold action_key. by rewrite Ha.
Qed.

Lemma handle_matches_existsb h vs : handle_matches h vs = existsb (λ v, handle_matches h [v]) vs.
Proof.
  unfold handle_matches. destruct h as [k|]; [|induction vs; done].
  induction vs as [|v vs IH]; [done|]. cbn [existsb]. by rewrite orb_false_r, IH.
Qed.

(** ** [resourceQuery] *)

Section resource.
Context (rk : ResourceKind) (pk : Kind).

(** A glob key matching only the sanitized kind. *)
Definition san_only (b : BindingHandle) : bool :=
  match bh_Resource b with
  | None => false
  | Some k => IsGlob k && key_valid k && negb (MatchesGlob k (raw rk)) && MatchesGlob k (sanitized rk)
  end.
Definition lit_match (v : string) (b : BindingHandle) : bool :=
  match bh_Resource b with None => false | Some k => negb (IsGlob k) && bool_decide (k = v) end.
Definition glob_match (v : string) (b : BindingHandle) : bool :=
  match bh_Resource b with None => false | Some k => IsGlob k && MatchesGlob k v end.

Lemma literals_sel gd v id :
  gd_ok gd → indexes (gd_mem gd) (lv idx) resource_key →
  lazy_mem (literals gd) v id = true ↔ sel (lit_match v) id.
Proof.
  intros Hg Hi. unfold sel, lit_match. split.
  - intros Hm. assert (IsGlob v = false) as Ev.
    { apply (gok_lit_keys gd Hg), lazy_has_iff; [apply Hg|eauto]. }
    assert (gd_mem gd v id = true) as (b & Hb & Eb)%Hi by (unfold gd_mem; by rewrite Ev).
    exists b. split; [done|]. unfold resource_key, valid_key in Eb. destruct (bh_Resource b) as [s|]; [|done].
    rewrite bind_some in Eb. destruct (key_valid s); [|done]. injection Eb as ->. by rewrite Ev, bool_decide_true.
  - intros (b & Hb & Hm). destruct (bh_Resource b) as [s|] eqn:Er; [|done].
    apply andb_true_iff in Hm as [Hn%negb_true_iff ->%bool_decide_eq_true].
    assert (gd_mem gd v id = true) as Hmem.
    { apply Hi. exists b. unfold resource_key, valid_key, key_valid. by rewrite Er, bind_some, Hn. }
    unfold gd_mem in Hmem. by rewrite Hn in Hmem.
Qed.

(** A compiled pattern with an identifier is the resource key of its binding. *)
Lemma globs_sel gd id (Q : pattern → bool) (f : BindingHandle → bool) :
  gd_ok gd → indexes (gd_mem gd) (lv idx) resource_key →
  (∀ b, f b = true ↔ ∃ k p, bh_Resource b = Some k ∧ IsGlob k = true ∧ GetOrCompileGlob k = Some p ∧ Q p = true) →
  (∃ pat p, compiled gd !! pat = Some p ∧ Q p = true ∧ lazy_mem (globs gd) pat id = true) ↔ sel f id.
Proof.
  intros Hg Hi Hf. unfold sel. split.
  - intros (pat & p & Hc & HQ & Hm). apply (gok_compiled gd Hg) in Hc as (_ & Hp & Hc).
    assert (gd_mem gd pat id = true) as (b & Hb & Eb)%Hi by (unfold gd_mem; by rewrite Hp).
    exists b. split; [done|]. apply Hf. exists pat, p. split; [|done].
    unfold resource_key, valid_key in Eb. destruct (bh_Resource b) as [s|]; [|done].
    rewrite bind_some in Eb. destruct (key_valid s); [|done]. by injection Eb as ->.
  - intros (b & Hb & (k & p & Hk & Hglob & Hc & HQ)%Hf). exists k, p.
    assert (gd_mem gd k id = true) as Hmem.
    { apply Hi. exists b. unfold resource_key, valid_key, key_valid. rewrite Hk, bind_some, Hglob, Hc.
      by rewrite bool_decide_true. }
    unfold gd_mem in Hmem. rewrite Hglob in Hmem. split_and!; [|done|done].
    apply (gok_compiled gd Hg). split_and!; [|done|done]. apply lazy_has_iff; [apply Hg|eauto].
Qed.

Lemma glob_match_iff v b :
  glob_match v b = true ↔ ∃ k p, bh_Resource b = Some k ∧ IsGlob k = true ∧ GetOrCompileGlob k = Some p ∧ glob_Match p v = true.
Proof.
  unfold glob_match. destruct (bh_Resource b) as [s|]; [|split; [done|by intros (? & ? & ? & _)]].
  rewrite andb_true_iff. unfold MatchesGlob. split.
  - intros [Hg Hm]. destruct (GetOrCompileGlob s) as [p|] eqn:Ec; [|done]. eauto 8.
  - intros (k & p & [= ->] & ? & -> & ?). done.
Qed.

Lemma san_only_iff b :
  san_only b = true ↔ ∃ k p, bh_Resource b = Some k ∧ IsGlob k = true ∧ GetOrCompileGlob k = Some p ∧
    (negb (glob_Match p (raw rk)) && glob_Match p (sanitized rk)) = true.
Proof.
  unfold san_only. destruct (bh_Resource b) as [s|]; [|split; [done|by intros (? & ? & ? & _)]].
  rewrite !andb_true_iff. unfold MatchesGlob, key_valid. split.
  - intros [[[Hg Hv] Hn] Hm]. rewrite Hg in Hv. cbn in Hv. apply bool_decide_eq_true in Hv as [p Hp].
    rewrite Hp in *. exists s, p. by rewrite andb_true_iff.
  - intros (k & p & [= ->] & Hg & Hp & [? ?]%andb_true_iff). rewrite Hg, Hp. by cbn.
Qed.

(** The glob loop of [resourceQuery]. *)
Lemma resource_globs_runs ms parts P s :
  q_inv s → parts_are parts P →
  sruns q_rel (resource_globs rk ms parts) s (λ '(ps, so),
    parts_are ps (λ id, P id ∨ sel (glob_match (raw rk)) id) ∧
    parts_are so (λ id, ms = true ∧ sel san_only id)).
Proof.
  intros Hs HP. unfold resource_globs.
  eapply q_bind; [apply (q_gets _ _ (λ cs, cs = go_range (compiled (resource s.1)))); done|].
  intros cs s1 Hs1 ->. pose proof (q_inv_dims s Hs) as Hd.
  set (gd := resource s.1) in *.
  set (hit := λ (l : list (string * pattern)) (Q : pattern → bool) (id : N),
    ∃ pat p, (pat, p) ∈ l ∧ Q p = true ∧ lazy_mem (globs gd) pat id = true).
  set (Q2 := λ p, negb (glob_Match p (raw rk)) && glob_Match p (sanitized rk)).
  assert (∀ l pat p Q id, hit (l ++ [(pat, p)]) Q id ↔ hit l Q id ∨ Q p = true ∧ lazy_mem (globs gd) pat id = true) as Hsnoc.
  { intros l pat p Q id. unfold hit. setoid_rewrite elem_of_app. setoid_rewrite list_elem_of_singleton. split.
    - intros (x & y & [?|[= -> ->]] & ? & ?); [left; eauto|auto].
    - intros [(x & y & ? & ? & ?)|[? ?]]; [eauto 8|]. exists pat, p. auto. }
  eapply sruns_mono; [apply (sruns_foldST q_rel (λ done '(ps, so),
    parts_are ps (λ id, P id ∨ hit done (λ p, glob_Match p (raw rk)) id) ∧
    parts_are so (λ id, ms = true ∧ hit done Q2 id)))|].
  - by split.
  - split.
    + eapply parts_iff; [exact HP|]. intros id. split; [auto|]. intros [?|(? & ? & ?%elem_of_nil & _)]; done.
    + eapply parts_iff; [apply parts_nil|]. intros id. split; [done|]. by intros [_ (? & ? & ?%elem_of_nil & _)].
  - intros done [pat p] rest [ps so] s2 Hl [_ Hs2] [Hps Hso].
    assert (∀ id, lazy_mem (globs (resource s2.1)) pat id = lazy_mem (globs gd) pat id) as Hm.
    { destruct Hs as [Hr1 _], Hs2 as [Hr2 _]. intros id.
      destruct (br_resource _ _ Hr1) as (_ & _ & _ & _ & (_ & _ & M1)).
      destruct (br_resource _ _ Hr2) as (_ & _ & _ & _ & (_ & _ & M2)). unfold gd. by rewrite <-M1, M2. }
    assert (sruns q_rel (on_resource (globs_Bitmap pat)) s2 (λ r,
      match r with Some bm => bm_is bm (λ id, lazy_mem (globs gd) pat id = true) | None => ∀ id, ¬ lazy_mem (globs gd) pat id = true end)) as Hget.
    { apply on_resource_runs; [done|]. eapply sruns_mono; [apply globs_Bitmap_runs, q_gstate; [done|apply (q_inv_dims _ Hs2)]|].
      cbn [fst]. intros [bm|].
      - intros Hbm. eapply bm_is_iff; [exact Hbm|]. intros id. cbn [fst]. by rewrite Hm.
      - intros Hn id. cbn [fst] in Hn. rewrite <-Hm, Hn. done. }
    destruct (glob_Match p (raw rk)) eqn:Eraw.
    + eapply q_bind; [exact Hget|]. intros r s3 Hs3 Hr. apply q_ret; [done|]. split.
      * eapply parts_iff; [eapply app_part_are; [exact Hps|exact Hr]|]. intros id. rewrite Hsnoc. cbv beta. rewrite Eraw. tauto.
      * eapply parts_iff; [exact Hso|]. intros id. rewrite Hsnoc. change (Q2 p) with (negb (glob_Match p (raw rk)) && glob_Match p (sanitized rk)). rewrite Eraw. cbn. intuition congruence.
    + destruct (ms && glob_Match p (sanitized rk)) eqn:Esan.
      * apply andb_true_iff in Esan as [-> Esan]. eapply q_bind; [exact Hget|]. intros r s3 Hs3 Hr. apply q_ret; [done|]. split.
        -- eapply parts_iff; [exact Hps|]. intros id. rewrite Hsnoc. cbv beta. rewrite Eraw. intuition congruence.
        -- eapply parts_iff; [eapply app_part_are; [exact Hso|exact Hr]|]. intros id. rewrite Hsnoc.
           change (Q2 p) with (negb (glob_Match p (raw rk)) && glob_Match p (sanitized rk)). rewrite Eraw, Esan. cbn. tauto.
      * apply q_ret; [done|]. split.
        -- eapply parts_iff; [exact Hps|]. intros id. rewrite Hsnoc. cbv beta. rewrite Eraw. intuition congruence.
        -- eapply parts_iff; [exact Hso|]. intros id. rewrite Hsnoc. change (Q2 p) with (negb (glob_Match p (raw rk)) && glob_Match p (sanitized rk)). rewrite Eraw.
           destruct ms; [cbn in Esan; rewrite Esan; cbn; intuition congruence|intuition congruence].
  - assert (∀ Q id, hit (go_range (compiled gd)) Q id ↔
      ∃ pat p, compiled gd !! pat = Some p ∧ Q p = true ∧ lazy_mem (globs gd) pat id = true) as Hall.
    { intros Q id. unfold hit. by setoid_rewrite elem_of_go_range. }
    intros [ps so] [Hps Hso]. split; [eapply parts_iff; [exact Hps|]|eapply parts_iff; [exact Hso|]]; intros id; cbv beta; rewrite Hall.
    + rewrite (globs_sel gd id (λ p, glob_Match p (raw rk)) (glob_match (raw rk))); [done|apply Hd|apply Hd|]. intros b. apply glob_match_iff.
    + rewrite (globs_sel gd id Q2 san_only); [done|apply Hd|apply Hd|]. intros b. apply san_only_iff.
Qed.

(** Masking the globs that match only the sanitized kind. *)
Lemma mask_globs_runs so pbm parts P Q (M : N → Prop) a :
  arena_ok a → parts_are parts P → parts_are so Q →
  match pbm with Some bm => bm_is bm M | None => ∀ id, M id end →
  sruns arena_rel (mask_globs so pbm parts) a (λ ps, parts_are ps (λ id, P id ∨ Q id ∧ M id)).
Proof.
  intros Ha HP HQ HM. unfold mask_globs. destruct so as [|x so'] eqn:Eso.
  - apply sruns_ret; [by split|]. eapply parts_iff; [exact HP|]. intros id. destruct HQ as [_ HQ].
    rewrite <-HQ. split; [auto|]. intros [?|[(p & ?%elem_of_nil & _) _]]; done.
  - eapply sruns_bind; [apply _|apply (or_parts_is (x :: so') Q a Ha HQ)|].
    + intros g a1 [_ Ha1] Hg.
      assert (sruns arena_rel (match pbm with Some p => arena_and2 g p | None => mret g end) a1
        (λ bm, bm_is bm (λ id, Q id ∧ M id))) as Hmask.
      { destruct pbm as [bm|]; [by apply and2_is|]. apply sruns_ret; [by split|]. eapply bm_is_iff; [exact Hg|].
        intros id. specialize (HM id). tauto. }
      eapply sruns_bind; [apply _|exact Hmask|].
      * intros g' a2 [_ Ha2] Hg'. apply sruns_ret; [by split|]. destruct (Bitmap_IsEmpty g') eqn:Ee.
        -- eapply parts_iff; [exact HP|]. intros id. apply (bm_is_IsEmpty _ _ Hg') with (id := id) in Ee. tauto.
        -- by apply parts_snoc.
Qed.

Lemma sanitized_mode_spec s pbm ms :
  q_inv s → sanitized_mode pk s.1 = (pbm, ms) →
  match pbm with Some bm => bm_is bm (sel (λ b, bool_decide (co_PolicyKind (bh_Core b) = KIND_PRINCIPAL))) | None => True end ∧
  (∀ b id, lv idx id = Some b → sanitized_glob pk b = true ↔
     ms = true ∧ (pbm = None ∨ co_PolicyKind (bh_Core b) = KIND_PRINCIPAL)).
Proof.
  intros Hs E. pose proof (q_inv_dims s Hs) as Hd.
  pose proof (dim_Get_is (policyKind s.1) KIND_PRINCIPAL (dok_kind _ _ Hd)) as Hget.
  assert (∀ id, dim_mem (policyKind s.1) KIND_PRINCIPAL id = true ↔
    sel (λ b, bool_decide (co_PolicyKind (bh_Core b) = KIND_PRINCIPAL)) id) as Hsel.
  { intros id. apply (indexes_sel _ kind_key); [apply Hd|]. intros b. rewrite bool_decide_eq_true. unfold kind_key. split; congruence. }
  unfold sanitized_mode in E. unfold sanitized_glob.
  destruct pk; try (injection E as <- <-; split; [done|]; intros b id _; intuition congruence);
    (destruct (dimension_Get (policyKind s.1) KIND_PRINCIPAL) as [bm|]; injection E as <- <-; split;
      [by eapply bm_is_iff| |done|]; intros b id Hb; rewrite bool_decide_eq_true;
      [intuition congruence|split; [|by intros [? _]]; intros Hk; exfalso;
        enough (dim_mem (policyKind s.1) KIND_PRINCIPAL id = true) by (rewrite Hget in *; done);
        apply Hsel; exists b; by rewrite bool_decide_true]).
Qed.

Lemma res_matches_split b id ms (pbm : option Bitmap) :
  sanitized rk ≠ "" → lv idx id = Some b →
  (sanitized_glob pk b = true ↔ ms = true ∧ (pbm = None ∨ co_PolicyKind (bh_Core b) = KIND_PRINCIPAL)) →
  res_matches rk pk b = true ↔
    lit_match (raw rk) b = true ∨ lit_match (sanitized rk) b = true ∨ glob_match (raw rk) b = true ∨
    (ms = true ∧ san_only b = true) ∧ (pbm = None ∨ co_PolicyKind (bh_Core b) = KIND_PRINCIPAL).
Proof.
  intros Hsan Hb Hg. unfold res_matches, lit_match, glob_match, san_only, key_matches.
  destruct (bh_Resource b) as [k|]; [|intuition congruence].
  rewrite (bool_decide_false (sanitized rk = "")) by done. cbn [negb andb]. destruct (IsGlob k) eqn:Ek; cbn [negb andb orb].
  - destruct (MatchesGlob k (raw rk)) eqn:Er; cbn [negb andb orb]; [rewrite andb_false_r; intuition congruence|].
    rewrite !andb_true_r, !andb_true_iff, Hg.
    split; [intros [[? ?] Hm]; right; right; right|intros [?|[?|[?|[[? [? Hm]] ?]]]]; [done|done|done|auto]].
    split; [split; [done|split; [|done]]|done]. apply (key_matches_valid k (sanitized rk)). unfold key_matches. by rewrite Ek.
  - rewrite !orb_true_iff, !bool_decide_eq_true. intuition congruence.
Qed.

Lemma resourceQuery_is s :
  q_inv s → sruns q_rel (resourceQuery rk pk) s (λ bm, bm_is bm (sel (res_matches rk pk))).
Proof.
  intros Hs. pose proof (q_inv_dims s Hs) as Hd. unfold resourceQuery. case_decide as Hsan.
  - eapply sruns_mono; [apply on_resource_runs; [done|apply gd_Query_is, q_gstate; [done|apply Hd]]|].
    intros bm Hbm. eapply bm_is_iff; [exact Hbm|]. intros id. cbn [fst].
    rewrite (hit_sel _ resource_key bh_Resource) by (apply Hd || done). apply sel_ext. intros b.
    unfold res_matches, handle_matches. destruct (bh_Resource b); [|done]. cbn. by rewrite bool_decide_true.
  - assert (∀ s v, q_inv s → sruns q_rel (on_resource (literals_Bitmap v)) s (λ r,
      match r with Some bm => bm_is bm (sel (lit_match v)) | None => ∀ id, ¬ sel (lit_match v) id end)) as Hlit.
    { intros s' v Hs'. pose proof (q_inv_dims s' Hs') as Hd'.
      eapply sruns_mono; [apply on_resource_runs; [done|apply literals_Bitmap_runs, q_gstate; [done|apply Hd']]|].
      cbn [fst]. intros [bm|].
      - intros Hbm. eapply bm_is_iff; [exact Hbm|]. intros id. apply literals_sel; apply Hd'.
      - intros Hn id. rewrite <-(literals_sel (resource s'.1)), Hn by apply Hd'. done. }
    eapply q_bind; [by apply Hlit|]. intros r1 s1 Hs1 Hr1.
    eapply q_bind; [by apply Hlit|]. intros r2 s2 Hs2 Hr2.
    eapply q_bind; [apply (q_gets _ _ (λ m, m = sanitized_mode pk s2.1)); done|]. intros [pbm ms] s3 Hs3 Em.
    pose proof (sanitized_mode_spec _ _ _ Hs2 (eq_sym Em)) as [Hpbm Hms].
    eapply q_bind; [apply resource_globs_runs; [done|]|].
    { eapply app_part_are; [eapply app_part_are; [apply parts_nil|exact Hr1]|exact Hr2]. }
    intros [ps so] s4 Hs4 [Hps Hso].
    set (M := λ id, match pbm with
      Some _ => sel (λ b, bool_decide (co_PolicyKind (bh_Core b) = KIND_PRINCIPAL)) id | None => True end).
    eapply q_bind; [apply on_arena_runs; [done|eapply (mask_globs_runs so pbm ps) with (M := M); [apply Hs4|exact Hps|exact Hso|by destruct pbm]]|].
    intros ps' s5 Hs5 Hps'. apply on_arena_runs; [done|]. apply or_parts_is; [apply Hs5|].
    eapply parts_iff; [exact Hps'|]. intros id. unfold M.
    assert (match pbm with Some _ => sel (λ b, bool_decide (co_PolicyKind (bh_Core b) = KIND_PRINCIPAL)) id | None => True end
      ↔ (pbm = None ∨ sel (λ b, bool_decide (co_PolicyKind (bh_Core b) = KIND_PRINCIPAL)) id)) as ->.
    { destruct pbm; [intuition congruence|tauto]. }
    unfold sel. split.
    + intros [[[[?|(b & Hb & ?)]|(b & Hb & ?)]|(b & Hb & ?)]|[[? (b & Hb & ?)] Hor]]; [done|..];
        exists b; (split; [done|]); apply (res_matches_split b id ms pbm Hsan Hb (Hms b id Hb)); auto.
      right; right; right. split; [done|]. destruct Hor as [?|(b' & Hb' & Hk%bool_decide_eq_true)]; [by left|].
      right. congruence.
    + intros (b & Hb & Hm). apply (res_matches_split b id ms pbm Hsan Hb (Hms b id Hb)) in Hm.
      destruct Hm as [?|[?|[?|[[? ?] Hor]]]]; [eauto 8|eauto 8|eauto 8|]. right. split; [eauto|].
      destruct Hor as [?|Hk]; [by left|]. right. exists b. by rewrite bool_decide_true.
Qed.
End resource.

(** ** Filters and their intersection *)

(** A filter in force, or none. *)
Definition filt (o : option Bitmap) (g : BindingHandle → bool) : Prop :=
  match o with Some bm => bm_is bm (sel g) | None => ∀ b, g b = true end.

Definition found (o : option Bitmap) (g : BindingHandle → bool) : Prop :=
  match o with Some bm => bm_is bm (sel g) | None => ∀ id, ¬ sel g id end.

Lemma filter_if_runs {A} cond m (k : option Bitmap → ST qstate (option A)) s g (Q : option A → Prop) :
  q_inv s →
  (cond = true → sruns q_rel m s (λ r, found r g)) →
  (cond = false → ∀ b, g b = true) →
  ((∀ id, ¬ sel g id) → Q None) →
  (∀ o s', q_inv s' → filt o g → sruns q_rel (k o) s' Q) →
  sruns q_rel (filter_if cond m k) s Q.
Proof.
  intros Hs Hm Hall Hnone Hk. unfold filter_if. destruct cond; [|apply Hk; [done|exact (Hall eq_refl)]].
  eapply q_bind; [by apply Hm|]. intros [bm|] s' Hs' Hr; [by apply Hk|]. apply q_ret; auto.
Qed.

Lemma nonempty_runs m s g :
  sruns q_rel m s (λ bm, bm_is bm (sel g)) → sruns q_rel (nonempty m) s (λ r, found r g).
Proof.
  intros Hm. eapply q_bind; [exact Hm|]. intros bm s' Hs' Hbm. apply q_ret; [done|].
  destruct (Bitmap_IsEmpty bm) eqn:E; [|done]. cbn [found]. by apply (bm_is_IsEmpty _ _ Hbm).
Qed.

Lemma dim_found {T} `{Countable T} (d : gmap T Bitmap) key_of (k : T) g :
  dim_ok d → indexes (dim_mem d) (lv idx) key_of → (∀ b, g b = true ↔ key_of b = Some k) →
  found (dimension_Get d k) g.
Proof.
  intros Hd Hi Hg. pose proof (dim_Get_is d k Hd) as Hget. unfold found.
  assert (∀ id, dim_mem d k id = true ↔ sel g id) as Hs. { intros id. by apply (indexes_sel _ key_of). }
  destruct (dimension_Get d k); [by eapply bm_is_iff|]. intros id. by rewrite <-Hs, Hget.
Qed.

Lemma role_query_runs roles s :
  q_inv s → sruns q_rel (on_role (globDimension_QueryMultiple roles)) s (λ bm, bm_is bm (sel (λ b, handle_matches (bh_Role b) roles))).
Proof.
  intros Hs. pose proof (q_inv_dims s Hs) as Hd.
  eapply sruns_mono; [apply on_role_runs; [done|apply gd_QueryMultiple_is, q_gstate; [done|apply Hd]]|].
  intros bm Hbm. eapply bm_is_iff; [exact Hbm|]. intros id. cbn [fst].
  setoid_rewrite (hit_sel _ role_key bh_Role); [|apply Hd|done]. unfold sel. split.
  - intros (v & Hv & b & Hb & Hm). exists b. split; [done|]. rewrite handle_matches_existsb. apply existsb_elem_of. eauto.
  - intros (b & Hb & Hm). rewrite handle_matches_existsb in Hm. apply existsb_elem_of in Hm as (v & ? & ?). eauto.
Qed.

Lemma sel_sub (f g : BindingHandle → bool) id : (∀ b, f b = true → g b = true) → sel f id → sel g id.
Proof. intros Hfg (b & Hb & Hf). exists b. auto. Qed.

Definition filters_ok (f : Filters) (ver : string) (rk : ResourceKind) (sco : string) (roles : list string) (pk : Kind) (p : string) : Prop :=
  filt (f_version f) (version_matches ver) ∧ filt (f_scope f) (scope_matches sco) ∧
  filt (f_resource f) (resource_matches rk pk) ∧ filt (f_role f) (role_matches roles) ∧
  filt (f_kind f) (kind_matches pk) ∧ filt (f_principal f) (principal_matches p).

Lemma Query_filters_runs ver rk sco roles pk p s :
  q_inv s →
  sruns q_rel (Query_filters ver rk sco roles pk p) s (λ r,
    match r with
    | Some f => filters_ok f ver rk sco roles pk p
    | None => ∀ id, ¬ sel (base_matches ver rk sco roles pk p) id
    end).
Proof.
  intros Hs. unfold Query_filters.
  assert (∀ (g : BindingHandle → bool), (∀ b, base_matches ver rk sco roles pk p b = true → g b = true) →
    (∀ id, ¬ sel g id) → ∀ id, ¬ sel (base_matches ver rk sco roles pk p) id) as Hnone.
  { intros g Hg Hn id Hb. apply (Hn id). eapply sel_sub; [exact Hg|exact Hb]. }
  assert (∀ b, base_matches ver rk sco roles pk p b = true →
    version_matches ver b = true ∧ scope_matches sco b = true ∧ resource_matches rk pk b = true ∧
    role_matches roles b = true ∧ kind_matches pk b = true ∧ principal_matches p b = true) as Hbase.
  { intros b. unfold base_matches. rewrite !andb_true_iff. tauto. }
  eapply (filter_if_runs _ _ _ _ (principal_matches p)); [done|..].
  { intros Hc%negb_true_iff%bool_decide_eq_false. pose proof (q_inv_dims s Hs) as Hd.
    eapply sruns_mono; [apply on_principal_runs; [done|apply lazy_Bitmap_runs, Hd]|].
    assert (∀ id, lazy_mem (principal s.1) p id = true ↔ sel (principal_matches p) id) as Hsel.
    { intros id. apply (indexes_sel _ bh_Principal); [apply Hd|]. intros b. unfold principal_matches.
      rewrite bool_decide_eq_true. tauto. }
    intros [bm|]; cbn [found].
    - intros [Hb Hm]. split; [done|]. intros id. by rewrite Hm, Hsel.
    - intros Hm id. by rewrite <-Hsel, Hm. }
  { intros Hc%negb_false_iff%bool_decide_eq_true b. unfold principal_matches. apply bool_decide_eq_true. auto. }
  { intros Hn. eapply Hnone; [|exact Hn]. intros b Hb. apply Hbase in Hb. tauto. }
  intros pbm s1 Hs1 Hp. eapply (filter_if_runs _ _ _ _ (scope_matches sco)); [done|..].
  { intros _. apply q_gets; [done|]. pose proof (q_inv_dims s1 Hs1) as Hd. apply (dim_found _ scope_key); [apply Hd|apply Hd|].
    intros b. unfold scope_matches, scope_key. rewrite bool_decide_eq_true. split; congruence. }
  { done. }
  { intros Hn. eapply Hnone; [|exact Hn]. intros b Hb. apply Hbase in Hb. tauto. }
  intros sbm s2 Hs2 Hsc. eapply (filter_if_runs _ _ _ _ (version_matches ver)); [done|..].
  { intros Hc%negb_true_iff%bool_decide_eq_false. apply q_gets; [done|]. pose proof (q_inv_dims s2 Hs2) as Hd.
    apply (dim_found _ bh_Version); [apply Hd|apply Hd|]. intros b. unfold version_matches. rewrite bool_decide_eq_true. tauto. }
  { intros Hc%negb_false_iff%bool_decide_eq_true b. unfold version_matches. apply bool_decide_eq_true. auto. }
  { intros Hn. eapply Hnone; [|exact Hn]. intros b Hb. apply Hbase in Hb. tauto. }
  intros vbm s3 Hs3 Hv. eapply (filter_if_runs _ _ _ _ (resource_matches rk pk)); [done|..].
  { intros Hc%negb_true_iff. apply nonempty_runs. eapply sruns_mono; [by apply resourceQuery_is|]. intros bm Hbm.
    eapply bm_is_iff; [exact Hbm|]. intros id. apply sel_ext. intros b. unfold resource_matches. by rewrite Hc. }
  { intros Hc%negb_false_iff b. unfold resource_matches. by rewrite Hc. }
  { intros Hn. eapply Hnone; [|exact Hn]. intros b Hb. apply Hbase in Hb. tauto. }
  intros rbm s4 Hs4 Hr. eapply (filter_if_runs _ _ _ _ (role_matches roles)); [done|..].
  { intros Hc%bool_decide_eq_true. apply nonempty_runs. eapply sruns_mono; [by apply role_query_runs|]. intros bm Hbm.
    eapply bm_is_iff; [exact Hbm|]. intros id. apply sel_ext. intros b. unfold role_matches.
    rewrite bool_decide_false; [done|]. intros ->. cbn in Hc. lia. }
  { intros Hc%bool_decide_eq_false b. unfold role_matches. destruct roles; [done|]. cbn in Hc. lia. }
  { intros Hn. eapply Hnone; [|exact Hn]. intros b Hb. apply Hbase in Hb. tauto. }
  intros lbm s5 Hs5 Hl. eapply (filter_if_runs _ _ _ _ (kind_matches pk)); [done|..].
  { intros Hc%negb_true_iff%bool_decide_eq_false. apply q_gets; [done|]. pose proof (q_inv_dims s5 Hs5) as Hd.
    apply (dim_found _ kind_key); [apply Hd|apply Hd|]. intros b. unfold kind_matches, kind_key. rewrite bool_decide_eq_true.
    split; [intros [?|?]; congruence|intros [= ?]; auto]. }
  { intros Hc%negb_false_iff%bool_decide_eq_true b. unfold kind_matches. apply bool_decide_eq_true. auto. }
  { intros Hn. eapply Hnone; [|exact Hn]. intros b Hb. apply Hbase in Hb. tauto. }
  intros kbm s6 Hs6 Hk. apply q_ret; [done|]. by split_and!.
Qed.

(** An intersection of dimensions that computes a filter on bindings. *)
Record dims_are (dims : list Bitmap) (f : BindingHandle → bool) : Prop := {
  da_ok : ∀ p, p ∈ dims → Bitmap_ok p;
  da_live : ∀ id, dims ≠ [] → (∀ p, p ∈ dims → bm_mem p id = true) → is_Some (lv idx id);
  da_is : ∀ id b, lv idx id = Some b → (∀ p, p ∈ dims → bm_mem p id = true) ↔ f b = true;
}.

Lemma dims_nil : dims_are [] (λ _, true).
Proof. split; [by intros p ?%elem_of_nil|done|]. intros id b Hb. split; [done|]. by intros _ p ?%elem_of_nil. Qed.

Lemma dims_app dims o f g :
  dims_are dims f → filt o g → dims_are (app_part dims o) (λ b, f b && g b).
Proof.
  intros Hd Ho. destruct o as [bm|]; cbn [app_part].
  - destruct Ho as [Hb Hm]. split.
    + intros p [?| ->%list_elem_of_singleton]%elem_of_app; [by apply (da_ok _ _ Hd)|done].
    + intros id _ Hall. specialize (Hall bm). rewrite Hm in Hall. destruct Hall as (b & ? & _); [|by exists b].
      apply elem_of_app. right. left.
    + intros id b Hlv. rewrite andb_true_iff, <-(da_is _ _ Hd id b Hlv). split.
      * intros Hall. split; [intros p Hp; apply Hall, elem_of_app; by left|].
        destruct (proj1 (Hm id)) as (b' & Hb' & ?); [apply Hall, elem_of_app; right; left|]. congruence.
      * intros [Hall Hg] p [?| ->%list_elem_of_singleton]%elem_of_app; [by apply Hall|]. apply Hm. by exists b.
  - split; [apply Hd|apply Hd|]. intros id b Hlv. by rewrite Ho, andb_true_r, (da_is _ _ Hd id b Hlv).
Qed.

Lemma dims_sel dims f id :
  dims_are dims f → dims ≠ [] → (∀ p, p ∈ dims → bm_mem p id = true) ↔ sel f id.
Proof.
  intros Hd Hne. split.
  - intros Hall. destruct (da_live _ _ Hd id Hne Hall) as [b Hb]. exists b. split; [done|]. by apply (da_is _ _ Hd id b Hb).
  - intros (b & Hb & Hf). by apply (da_is _ _ Hd id b Hb).
Qed.

Lemma combine_dims_is two dims f s :
  q_inv s → dims_are dims f → sruns q_rel (combine_dims two dims) s (λ bm, bm_is bm (sel f)).
Proof.
  intros Hs Hd.
  assert (dims ≠ [] → sruns q_rel (on_arena (arena_andInto dims)) s (λ bm, bm_is bm (sel f))) as Hinto.
  { intros Hne. apply on_arena_runs; [done|]. eapply sruns_mono; [apply andInto_is; [apply Hs|done|apply Hd]|].
    intros bm Hbm. eapply bm_is_iff; [exact Hbm|]. intros id. by apply dims_sel. }
  destruct dims as [|x [|y [|z l]]]; cbn [combine_dims].
  - apply q_gets; [done|]. pose proof (q_inv_dims s Hs) as Hu. split; [apply Hu|]. intros id.
    rewrite (dok_universe_is _ _ Hu () id). unfold sel. split.
    + intros (b & Hb & _). exists b. split; [done|]. apply (da_is _ _ Hd id b Hb). by intros p ?%elem_of_nil.
    + intros (b & Hb & _). by exists b.
  - apply q_ret; [done|]. split; [apply (da_ok _ _ Hd); left|]. intros id. rewrite <-(dims_sel [x]) by done.
    split; [by intros ? p ->%list_elem_of_singleton|]. intros Hall. apply Hall. left.
  - destruct two; [|by apply Hinto]. apply on_arena_runs; [done|].
    eapply sruns_mono; [apply (and2_is _ _ _ (λ id, bm_mem x id = true) (λ id, bm_mem y id = true)); [apply Hs|..];
      apply bm_is_self, (da_ok _ _ Hd); [left|right; left]|].
    intros bm Hbm. eapply bm_is_iff; [exact Hbm|]. intros id. cbv beta. rewrite <-(dims_sel [x; y]) by done. split.
    + intros [? ?] p [->|[->|Hp]%elem_of_cons]%elem_of_cons; [done|done|by apply elem_of_nil in Hp].
    + intros Hall. split; apply Hall; [left|right; left].
  - by apply Hinto.
Qed.

(** ** Reading bindings off a bitmap *)

Definition selb (f : BindingHandle → bool) (id : N) : bool := match lv idx id with Some b => f b | None => false end.

Lemma selb_sel f id : selb f id = true ↔ sel f id.
Proof.
  unfold selb, sel. split; [destruct (lv idx id) as [b|] eqn:E; [|done]; eauto|]. by intros (b & -> & ?).
Qed.

Lemma bm_ids_sel bm f :
  bm_is bm (sel f) → bm_ids bm = filter (λ id, selb f id = true) (N.of_nat <$> seq 0 (length (bindings idx))).
Proof.
  intros [Hb Hm]. apply StronglySorted_lt_unique; [by apply bm_ids_sorted|..].
  - assert (StronglySorted N.lt (N.of_nat <$> seq 0 (length (bindings idx)))) as Hs.
    { apply StronglySorted_fmap_lt; [lia|apply seq_sorted]. }
    induction Hs as [|x l Hl IH Hx]; [constructor|]. rewrite filter_cons. case_decide; [|done].
    constructor; [done|]. rewrite Forall_forall in Hx. apply Forall_forall. intros y [_ Hy]%list_elem_of_filter. by apply Hx.
  - intros id. rewrite elem_of_bm_ids, Hm, list_elem_of_filter, selb_sel by done. split; [|by intros [? _]].
    intros Hs. split; [done|]. destruct Hs as (b & Hlv & _). apply lv_bound in Hlv.
    apply list_elem_of_fmap. exists (N.to_nat id). split; [lia|]. apply elem_of_seq. lia.
Qed.

Lemma omap_cons_match {A B} (g : A → option B) (x : A) (l : list A) :
  omap g (x :: l) = match g x with Some y => y :: omap g l | None => omap g l end.
Proof. done. Qed.

Lemma omap_seq_lookup {A B} (g : A → option B) (l : list A) k :
  omap (λ i, x ← l !! (i - k); g x) (seq k (length l)) = omap g l.
Proof.
  revert k. induction l as [|x l IH]; intros k; [done|]. cbn [length seq].
  cbn [omap list_omap]. rewrite Nat.sub_diag. cbn [lookup list_lookup]. rewrite bind_some.
  rewrite (omap_ext_in _ (λ i, y ← l !! (i - S k); g y)).
  - rewrite IH. done.
  - intros i Hi%elem_of_seq. replace (i - k) with (S (i - S k)) by lia. done.
Qed.

Lemma scan_ids f :
  omap (lv idx) (filter (λ id, selb f id = true) (N.of_nat <$> seq 0 (length (bindings idx)))) = scan idx f.
Proof.
  unfold scan. rewrite <-(omap_seq_lookup _ (bindings idx) 0).
  induction (seq 0 (length (bindings idx))) as [|i l IH]; [done|]. rewrite fmap_cons, filter_cons.
  assert (lv idx (N.of_nat i) = mjoin (bindings idx !! i)) as Elv by (unfold lv; by rewrite Nat2N.id).
  rewrite (omap_cons_match _ i), Nat.sub_0_r. destruct (bindings idx !! i) as [[b|]|]; cbn [mjoin option_join] in Elv.
  - rewrite !bind_some. case_decide as Hf; unfold selb in Hf; rewrite Elv in Hf.
    + rewrite omap_cons_match, Elv, Hf. by f_equal.
    + destruct (f b); [done|]. exact IH.
  - rewrite bind_some. case_decide as Hf; [|exact IH]. unfold selb in Hf. by rewrite Elv in Hf.
  - case_decide as Hf; [|exact IH]. unfold selb in Hf. by rewrite Elv in Hf.
Qed.

Lemma read_bindings_runs bm f s :
  q_inv s → bm_is bm (sel f) → sruns q_rel (read_bindings bm) s (λ l, l = scan idx f).
Proof.
  intros Hs Hbm. exists (scan idx f), s. split; [|split; [by split|done]].
  unfold read_bindings, bindings_of. rewrite (ids_runs bm (proj1 Hbm)). bsimp.
  assert (∀ id, getBinding s.1 id = bindings idx !! N.to_nat id) as Hg.
  { intros id. unfold getBinding. by rewrite (bi_rel_bindings idx) by apply Hs. }
  assert (∀ l acc, (∀ id, id ∈ l → is_Some (bindings idx !! N.to_nat id)) →
    foldM (λ acc id, ob ← getBinding s.1 id; Some (match ob with Some b => acc ++ [b] | None => acc end)) acc l =
    Some (acc ++ omap (lv idx) l)) as Hfold.
  { induction l as [|id l IH]; intros acc Hl; cbn [foldM omap list_omap]; [by rewrite app_nil_r|].
    destruct (Hl id) as [ob Hob]; [left|]. rewrite (Hg id), Hob. bsimp. unfold lv at 1. rewrite Hob. cbn [mjoin option_join].
    rewrite IH by (intros x Hx; apply Hl; by right). destruct ob; [by rewrite <-app_assoc|done]. }
  rewrite Hfold.
  - bsimp. rewrite (bm_ids_sel bm f Hbm), scan_ids. done.
  - intros id Hid%elem_of_bm_ids; [|apply Hbm]. apply Hbm in Hid as (b & Hb & _). apply lv_bound in Hb.
    by apply lookup_lt_is_Some_2.
Qed.

Lemma elem_of_scan b f : b ∈ scan idx f ↔ ∃ id, lv idx id = Some b ∧ f b = true.
Proof.
  unfold scan. rewrite list_elem_of_omap. unfold lv. split.
  - intros ([b'|] & (i & Hi)%list_elem_of_lookup & E); [|done]. rewrite bind_some in E.
    destruct (f b') eqn:Ef; [|done]. injection E as ->. exists (N.of_nat i). by rewrite Nat2N.id, Hi.
  - intros (id & Hl & Hf). destruct (bindings idx !! N.to_nat id) as [ob|] eqn:E; [|done]. cbn in Hl. subst ob.
    exists (Some b). split; [by eapply list_elem_of_lookup_2|]. by rewrite bind_some, Hf.
Qed.

Lemma scan_nil f : (∀ id, ¬ sel f id) → scan idx f = [].
Proof.
  intros Hn. destruct (scan idx f) as [|b l] eqn:E; [done|]. exfalso.
  assert (b ∈ scan idx f) as (id & ? & ?)%elem_of_scan by (rewrite E; left). apply (Hn id). by exists b.
Qed.

Lemma scan_nil_iff f : scan idx f = [] ↔ ∀ id, ¬ sel f id.
Proof.
  split; [|apply scan_nil]. intros E id (b & Hb & Hf).
  assert (b ∈ scan idx f) as Hin by (apply elem_of_scan; eauto). rewrite E in Hin. by apply elem_of_nil in Hin.
Qed.

Lemma scan_ext f g : (∀ b, f b = g b) → scan idx f = scan idx g.
Proof.
  intros Hfg. unfold scan. apply omap_ext_in. intros [b|] _; [|done]. rewrite !bind_some. by rewrite Hfg.
Qed.

(** ** Synthetic denies *)

Lemma denies_for_resource_no_actions rawKind roles reps byRole : denies_for_resource rawKind [] roles reps byRole = [].
Proof.
  unfold denies_for_resource. induction roles as [|r roles IH]; [done|]. rewrite bind_cons, IH, app_nil_r.
  destruct (reps !! r); [|done]. unfold denies_for_role. by destruct (default [] (byRole !! r)).
Qed.

Lemma denies_for_resource_no_reps rawKind actions roles byRole : denies_for_resource rawKind actions roles ∅ byRole = [].
Proof.
  unfold denies_for_resource. induction roles as [|r roles IH]; [done|]. by rewrite bind_cons, IH, lookup_empty.
Qed.

Lemma denies_spec_none vf sf rf resources roles actions :
  scan idx (candidate vf sf rf) = [] → denies_spec idx vf sf rf resources roles actions = [].
Proof.
  intros E. unfold denies_spec. rewrite E. cbn [rolePolicyReps foldl].
  induction resources as [|rk resources IH]; [done|]. by rewrite bind_cons, IH, denies_for_resource_no_reps.
Qed.

Lemma dims_one bm f : bm_is bm (sel f) → dims_are [bm] f.
Proof.
  intros [Hb Hm]. split.
  - by intros p ->%list_elem_of_singleton.
  - intros id _ Hall. destruct (proj1 (Hm id)) as (b & ? & _); [apply Hall; left|]. by exists b.
  - intros id b Hlv. split.
    + intros Hall. destruct (proj1 (Hm id)) as (b' & Hb' & ?); [apply Hall; left|]. congruence.
    + intros Hf p ->%list_elem_of_singleton. apply Hm. by exists b.
Qed.

Lemma dims_ext dims f g : dims_are dims f → (∀ b, f b = g b) → dims_are dims g.
Proof. intros [? ? Hi] Hfg. split; [done|done|]. intros id b Hb. by rewrite <-Hfg, Hi. Qed.

Lemma collectResourceActions_runs resBM vbm sbm rk vf sf s :
  q_inv s → bm_is resBM (sel (res_matches rk KIND_RESOURCE)) → filt vbm vf → filt sbm sf →
  sruns q_rel (collectResourceActions resBM vbm sbm) s (λ l, l = actions_spec idx vf sf rk).
Proof.
  intros Hs Hres Hv Hsf. unfold collectResourceActions, actions_spec.
  assert ((∀ id, ¬ sel (λ b, res_matches rk KIND_RESOURCE b && vf b && sf b) id) →
    [] = set_range (collect_actions (scan idx (λ b, res_matches rk KIND_RESOURCE b && vf b && sf b)))) as Hempty.
  { intros Hn. rewrite (scan_nil _ Hn). cbn. unfold set_range.
    assert (gset_to_gmap () (∅ : gset string) = ∅) as -> by apply gset_to_gmap_empty.
    by rewrite (proj2 (go_range_nil _) eq_refl). }
  destruct (Bitmap_IsEmpty resBM) eqn:Ee.
  - apply q_ret; [done|]. apply Hempty. intros id Hsel. apply (proj1 (bm_is_IsEmpty _ _ Hres) Ee id).
    eapply sel_sub; [|exact Hsel]. intros b. cbn. rewrite !andb_true_iff. tauto.
  - eapply q_bind; [apply (combine_dims_is _ _ (λ b, res_matches rk KIND_RESOURCE b && vf b && sf b)); [done|]|].
    { apply dims_app; [apply dims_app; [by apply dims_one|done]|done]. }
    intros bm s1 Hs1 Hbm. destruct (Bitmap_IsEmpty bm) eqn:Eb.
    + apply q_ret; [done|]. apply Hempty. by apply (bm_is_IsEmpty _ _ Hbm).
    + eapply q_bind; [eapply read_bindings_runs; [done|exact Hbm]|]. intros bs s2 Hs2 ->. by apply q_ret.
Qed.

Lemma denies_step_runs cbm cand reps roles targets vbm sbm vf sf res rk s :
  q_inv s → bm_is cbm (sel cand) → filt vbm vf → filt sbm sf →
  sruns q_rel (denies_step cbm reps roles targets vbm sbm res rk) s (λ l, l = res ++
    denies_for_resource (raw rk) (match targets with [] => actions_spec idx vf sf rk | _ => targets end) roles reps
      (matchedByRole (scan idx (λ b, cand b && res_matches rk KIND_RESOURCE b)))).
Proof.
  intros Hs Hc Hv Hsf. unfold denies_step.
  eapply q_bind; [by apply resourceQuery_is|]. intros resBM s1 Hs1 Hres.
  assert (sruns q_rel (if Bitmap_IsEmpty resBM then mret emptyBitmap else on_arena (arena_and2 cbm resBM)) s1
    (λ bm, bm_is bm (sel (λ b, cand b && res_matches rk KIND_RESOURCE b)))) as Hmatched.
  { destruct (Bitmap_IsEmpty resBM) eqn:Ee.
    - apply q_ret; [done|]. eapply bm_is_iff; [apply bm_is_empty|]. intros id. split; [done|].
      rewrite sel_and. intros [_ ?]. by apply (proj1 (bm_is_IsEmpty _ _ Hres) Ee id).
    - apply on_arena_runs; [done|]. eapply sruns_mono; [by apply and2_is; [apply Hs1|exact Hc|exact Hres]|].
      intros bm Hbm. eapply bm_is_iff; [exact Hbm|]. intros id. cbv beta. by rewrite sel_and. }
  eapply q_bind; [exact Hmatched|]. intros mbm s2 Hs2 Hmbm.
  eapply q_bind; [eapply read_bindings_runs; [done|exact Hmbm]|]. intros matched s3 Hs3 ->.
  assert (sruns q_rel (match targets with [] => collectResourceActions resBM vbm sbm | _ => mret targets end) s3
    (λ l, l = match targets with [] => actions_spec idx vf sf rk | _ => targets end)) as Hact.
  { destruct targets; [by apply collectResourceActions_runs|by apply q_ret]. }
  eapply q_bind; [exact Hact|]. intros actions s4 Hs4 ->. apply q_ret; [done|].
  destruct (match targets with [] => _ | _ => _ end) eqn:Ea; [|done].
  by rewrite denies_for_resource_no_actions, app_nil_r.
Qed.

Lemma appendRolePolicyDenies_runs resources roles targets vbm sbm rbm vf sf rf res s :
  q_inv s → filt vbm vf → filt sbm sf → filt rbm rf →
  sruns q_rel (appendRolePolicyDenies resources roles targets vbm sbm rbm res) s
    (λ l, l = res ++ denies_spec idx vf sf rf resources roles targets).
Proof.
  intros Hs Hv Hsf Hr. unfold appendRolePolicyDenies.
  eapply q_bind; [apply (q_gets _ _ (λ aab, bm_is aab (sel (λ b, bool_decide (is_Some (bh_AllowActions b))))))|].
  { done. }
  { pose proof (q_inv_dims s Hs) as Hd. split; [apply Hd|]. intros id.
    rewrite (indexes_sel _ allow_key () (λ b, bool_decide (is_Some (bh_AllowActions b))) id (dok_allow_is _ _ Hd)); [done|].
    intros b. rewrite bool_decide_eq_true. unfold allow_key. destruct (bh_AllowActions b); cbn.
    - split; [done|]. intros _. by eexists. - split; [by intros [? ?]|done]. }
  intros aab s1 Hs1 Haab.
  eapply q_bind; [apply (combine_dims_is _ _ (candidate vf sf rf)); [done|]|].
  { apply (dims_app _ (Some aab)); [|exact Haab]. eapply dims_ext; [apply dims_app; [apply dims_app; [apply dims_app; [apply dims_nil|done]|done]|done]|done]. }
  intros cbm s2 Hs2 Hc. destruct (Bitmap_IsEmpty cbm) eqn:Ee.
  - apply q_ret; [done|]. rewrite denies_spec_none, app_nil_r; [done|]. apply scan_nil. by apply (bm_is_IsEmpty _ _ Hc).
  - eapply q_bind; [eapply read_bindings_runs; [done|exact Hc]|]. intros cands s3 Hs3 ->.
    unfold denies_spec. destruct (rolePolicyReps (scan idx (candidate vf sf rf))) as [reps order].
    eapply sruns_mono; [apply (sruns_foldST q_rel (λ done l, l = res ++ (done ≫= λ rk,
      denies_for_resource (raw rk) (match targets with [] => actions_spec idx vf sf rk | _ => targets end)
        (match roles with [] => order | _ => roles end) reps
        (matchedByRole (scan idx (λ b, candidate vf sf rf b && res_matches rk KIND_RESOURCE b))))))|].
    + by split.
    + by rewrite app_nil_r.
    + intros done rk rest acc s4 _ [_ Hs4] ->. eapply sruns_mono; [eapply denies_step_runs; [exact Hs4|exact Hc|exact Hv|exact Hsf]|]. intros l ->.
      by rewrite bind_app, bind_cons, app_nil_r, app_assoc.
    + done.
Qed.

(** ** The whole query *)

Lemma scan_cons_base f (l k : list BindingHandle) :
  (match scan idx f with [] => l | _ => k end) = if decide (scan idx f = []) then l else k.
Proof. by destruct (scan idx f). Qed.

Lemma Query_state_runs ver rk sco act roles pk p buf s :
  q_inv s →
  sruns q_rel (Query_state ver rk sco act roles pk p buf) s (λ l, l = Query_spec idx ver rk sco act roles pk p buf).
Proof.
  intros Hs. unfold Query_state, Query_spec. rewrite scan_cons_base. set (base := base_matches ver rk sco roles pk p).
  eapply q_bind; [apply (q_gets _ _ (λ e, e = true → ∀ id, ¬ sel base id)); [done|]|].
  { intros He id (b & Hb & _). pose proof (q_inv_dims s Hs) as Hd. apply IsEmpty_spec with (id := id) in He; [|apply Hd].
    enough (bm_mem (universe s.1) id = true) by congruence. apply (dok_universe_is _ _ Hd () id). by exists b. }
  intros [|] s1 Hs1 He; [apply q_ret; [done|]; rewrite decide_True; [done|apply scan_nil; auto]|]. clear He.
  eapply q_bind; [by apply Query_filters_runs|]. intros [f|] s2 Hs2 Hf; [|apply q_ret; [done|]; rewrite decide_True; [done|by apply scan_nil]].
  destruct Hf as (Hv & Hsc & Hrs & Hrl & Hk & Hp).
  eapply q_bind; [apply (combine_dims_is _ _ base); [done|]|].
  { eapply dims_ext; [repeat (apply dims_app; [|eassumption]); apply dims_nil|]. done. }
  intros bbm s3 Hs3 Hb. destruct (Bitmap_IsEmpty bbm) eqn:Ee.
  { apply q_ret; [done|]. rewrite decide_True; [done|]. apply scan_nil. by apply (bm_is_IsEmpty _ _ Hb). }
  rewrite (decide_False (P := scan idx base = [])). 2:{ apply (bm_is_IsEmpty_false _ _ Hb) in Ee as [id Hid]. intros Hn. by apply (proj1 (scan_nil_iff base) Hn id). }
  set (full := λ b, base b && action_matches act b).
  assert (sruns q_rel (if decide (act = "") then mret bbm else
     actionBM ← on_action (globDimension_Query act);
     if Bitmap_IsEmpty actionBM then mret emptyBitmap else on_arena (arena_and2 bbm actionBM)) s3
     (λ bm, bm_is bm (sel full))) as Hres.
  { case_decide as Ha.
    - apply q_ret; [done|]. eapply bm_is_iff; [exact Hb|]. intros id. apply sel_ext. intros b.
      unfold full, action_matches. by rewrite (bool_decide_true _ Ha), andb_true_r.
    - pose proof (q_inv_dims s3 Hs3) as Hd.
      eapply q_bind; [apply on_action_runs; [done|apply gd_Query_is, q_gstate; [done|apply Hd]]|].
      intros abm s4 Hs4 Habm. cbn [fst] in Habm.
      assert (bm_is abm (sel (action_matches act))) as Habm'.
      { eapply bm_is_iff; [exact Habm|]. intros id. rewrite action_hit_sel by apply Hd. apply sel_ext. intros b.
        unfold action_matches. by rewrite (bool_decide_false _ Ha). }
      destruct (Bitmap_IsEmpty abm) eqn:Ea.
      + apply q_ret; [done|]. eapply bm_is_iff; [apply bm_is_empty|]. intros id. split; [done|]. unfold full.
        rewrite sel_and. intros [_ ?]. by apply (proj1 (bm_is_IsEmpty _ _ Habm') Ea id).
      + apply on_arena_runs; [done|]. eapply sruns_mono; [apply and2_is; [apply Hs4|exact Hb|exact Habm']|].
        intros bm Hbm. eapply bm_is_iff; [exact Hbm|]. intros id. unfold full. by rewrite sel_and. }
  eapply q_bind; [exact Hres|]. intros rbm s4 Hs4 Hrbm.
  set (vf := version_matches ver) in *. set (sf := scope_matches sco) in *. set (rf := role_matches roles) in *.
  eapply q_bind; [apply (q_gets _ _ (λ e, e = true → ∀ vf sf rf resources roles actions, denies_spec idx vf sf rf resources roles actions = []))|].
  { done. }
  { intros He vf' sf' rf' rs rl ac. apply denies_spec_none, scan_nil. intros id (b & Hlv & Hc).
    unfold candidate in Hc. apply andb_true_iff in Hc as [_ Hc%bool_decide_eq_true].
    pose proof (q_inv_dims s4 Hs4) as Hd. apply IsEmpty_spec with (id := id) in He; [|apply Hd].
    enough (bm_mem (allowActionsBitmap s4.1) id = true) by congruence. apply (dok_allow_is _ _ Hd () id). exists b.
    split; [done|]. unfold allow_key. destruct Hc as [aa ->]. done. }
  intros ae s5 Hs5 Hae.
  set (cond := bool_decide (act ≠ "" ∧ raw rk ≠ "" ∧ pk = KIND_RESOURCE)).
  assert (sruns q_rel (if cond && negb ae then appendRolePolicyDenies [rk] roles [act] (f_version f) (f_scope f) (f_role f) buf else mret buf) s5
    (λ l, l = buf ++ (if cond then denies_spec idx vf sf rf [rk] roles [act] else []))) as Hden.
  { destruct cond; cbn [andb]; [|apply q_ret; [done|by rewrite app_nil_r]].
    destruct ae; cbn [negb]; [apply q_ret; [done|]; rewrite Hae by done; by rewrite app_nil_r|].
    by apply appendRolePolicyDenies_runs. }
  eapply q_bind; [exact Hden|]. intros buf' s6 Hs6 ->. destruct (Bitmap_IsEmpty rbm) eqn:Er.
  - apply q_ret; [done|]. rewrite (scan_nil full), app_nil_r by (by apply (bm_is_IsEmpty _ _ Hrbm)). done.
  - eapply q_bind; [eapply read_bindings_runs; [done|exact Hrbm]|]. intros bs s7 Hs7 ->. apply q_ret; [done|]. by rewrite app_assoc.
Qed.

(** Running on a fresh arena and releasing it. *)
Lemma with_arena_runs_rel {A} i (m : ST qstate A) pool (P : A → Prop) :
  bi_rel idx i → (∀ bm, bm ∈ pool → cleared bm) → (∀ s, q_inv s → sruns q_rel m s P) →
  runs (with_arena m i pool) (λ '(x, idx', pool'), P x ∧ bi_rel idx idx' ∧ ∀ bm, bm ∈ pool' → cleared bm).
Proof.
  intros Hi Hpool Hm. unfold with_arena.
  destruct (Hm (i, newBitmapArena pool)) as (x & [idx' a] & -> & [_ [Hr Ha]] & HP).
  { split; [done|]. split; cbn; [done|]. by intros bm ?%elem_of_nil. }
  bsimp. eapply runs_bind; [by apply release_runs|]. intros pool' Hpool'. rret. done.
Qed.

Lemma with_arena_runs {A} (m : ST qstate A) pool (P : A → Prop) :
  (∀ bm, bm ∈ pool → cleared bm) → (∀ s, q_inv s → sruns q_rel m s P) →
  runs (with_arena m idx pool) (λ '(x, idx', pool'), P x ∧ bi_rel idx idx' ∧ ∀ bm, bm ∈ pool' → cleared bm).
Proof using Hidx. intros. by apply with_arena_runs_rel; [apply bi_rel_refl|..]. Qed.
End query.
End spec.
