(* ===== verification/IndexLookup.v ===== *)
(** Lookups of the index other than [Query]: [QueryMulti], the existence tests
    that [check] starts from, and the listings of keys
    ([src/internal/ruletable/index/index.go]).  Each is shown to compute a filter
    over the live bindings. *)
From S2P Require Import Prelude GoRuntime Bitmap BitmapOps BitmapIter Arena LazyDim Dimension GlobDim Namer Policy IndexCore IndexQuery IndexQuerySpec.

Local Open Scope string_scope.
Local Open Scope list_scope.
Open Scope nat_scope.

(** [keyDimension]: what [resourceDimensionKeys] needs of a dimension. *)
Class KeyDimension (D : Type) := {
  intersectingKeys : D → Bitmap → option (list string);
  kd_mem : D → string → N → bool;
  kd_ok : D → Prop;
  intersectingKeys_runs : ∀ d filter, kd_ok d → Bitmap_ok filter →
    runs (intersectingKeys d filter) (λ keys, ∀ k, k ∈ keys ↔ ∃ id, kd_mem d k id = true ∧ bm_mem filter id = true);
}.

Section lookup.
Context `{GlobEngine} `{CelCompiler} `{GoMapOrder}.

#[export] Instance dimension_keys : KeyDimension (gmap string Bitmap) := {|
  intersectingKeys := dimension_intersectingKeys;
  kd_mem := dim_mem;
  kd_ok := dim_ok;
  intersectingKeys_runs := dim_intersectingKeys_runs;
|}.
#[export] Instance globDimension_keys : KeyDimension globDimension := {|
  intersectingKeys := globDimension_intersectingKeys;
  kd_mem := gd_mem;
  kd_ok := gd_ok;
  intersectingKeys_runs := gd_intersectingKeys_runs;
|}.

(** * Filters on several values *)

Definition on_dimension (d : bitmapIndex → gmap string Bitmap) (keys : list string) : ST qstate Bitmap := λ s,
  on_arena (dimension_QueryMultiple (d s.1) keys) s.

Definition resourceQueryMulti (resources : list ResourceKind) (pk : Kind) : ST qstate Bitmap :=
  match resources with
  | [] => mret emptyBitmap
  | [r] => resourceQuery r pk
  | _ =>
      parts ← foldST (λ parts r, o ← nonempty (resourceQuery r pk); mret (app_part parts o)) [] resources;
      on_arena (or_parts parts)
  end.

(** [versionScopeFilters]: [None] when a filter that is given matches nothing. *)
Definition versionScopeFilters {A} (versions scopes : list string) (k : option Bitmap → option Bitmap → ST qstate (option A)) :
    ST qstate (option A) :=
  filter_if (bool_decide (0 < length versions)) (nonempty (on_dimension version versions)) (λ versionBM,
  filter_if (bool_decide (0 < length scopes)) (nonempty (on_dimension scope scopes)) (λ scopeBM,
  k versionBM scopeBM)).

Definition applyActionFilter (baseBM : Bitmap) (actions : list string) : ST qstate Bitmap :=
  match actions with
  | [] => mret baseBM
  | _ =>
      actionBM ← on_action (globDimension_QueryMultiple actions);
      parts ← (if Bitmap_IsEmpty actionBM then mret [] else bm ← on_arena (arena_and2 baseBM actionBM); mret [bm]);
      aab ← gets (λ s, allowActionsBitmap s.1);
      parts ← (if Bitmap_IsEmpty aab then mret parts
               else
                 aaBM ← on_arena (arena_and2 baseBM aab);
                 mret (if Bitmap_IsEmpty aaBM then parts else parts ++ [aaBM]));
      on_arena (or_parts parts)
  end.

(** * [QueryMulti] *)

(** The handles [QueryMulti] collects before materialising them; [None] for its
    early returns. *)
Definition QueryMulti_handles (versions resources scopes roles actions : list string) (withRolePolicyDenies : bool) :
    ST qstate (option (list BindingHandle)) :=
  empty ← gets (λ s, Bitmap_IsEmpty (universe s.1));
  if (empty : bool) then mret None
  else
    versionScopeFilters versions scopes (λ versionBM scopeBM,
    filter_if (bool_decide (0 < length roles)) (nonempty (on_role (globDimension_QueryMultiple roles))) (λ roleBM,
    resourceBM ← (match resources with
                  | [] => mret None
                  | _ => bm ← resourceQueryMulti (newResourceKinds resources) KIND_UNSPECIFIED; mret (Some bm)
                  end);
    baseBM ← combine_dims false (app_part (app_part (app_part (app_part [] versionBM) scopeBM) resourceBM) roleBM);
    res ← (if Bitmap_IsEmpty baseBM then mret []
           else
             resultBM ← applyActionFilter baseBM actions;
             if Bitmap_IsEmpty resultBM then mret [] else read_bindings resultBM);
    res ← (if withRolePolicyDenies
           then appendRolePolicyDenies (newResourceKinds resources) roles actions versionBM scopeBM roleBM res
           else mret res);
    mret (Some res))).

Definition toBindings (idx : bitmapIndex) (l : list BindingHandle) : option (list Binding) :=
  mapM (λ b, k ← evalKey idx (bh_ID b); Some (toBinding b k)) l.

Definition QueryMulti (idx : bitmapIndex) (pool : list Bitmap) (versions resources scopes roles actions : list string)
    (withRolePolicyDenies : bool) : option (list Binding * bitmapIndex * list Bitmap) :=
  '(o, idx, pool) ← with_arena (QueryMulti_handles versions resources scopes roles actions withRolePolicyDenies) idx pool;
  l ← toBindings idx (default [] o);
  Some (l, idx, pool).

(** * Listings *)

Definition GetScopes (idx : bitmapIndex) : list string := dimension_Keys (scope idx).
Definition GetVersions (idx : bitmapIndex) : list string := dimension_Keys (version idx).
Definition GetRoles (idx : bitmapIndex) : list string := globDimension_GetAllKeys (role idx).
Definition GetActions (idx : bitmapIndex) : list string := globDimension_GetAllKeys (action idx).
Definition GetResources (idx : bitmapIndex) : list string := globDimension_GetAllKeys (resource idx).

(** The rows of resource and role policies matching the filters. *)
Definition resource_filter (versions scopes resources : list string) : ST qstate (option Bitmap) :=
  filter_if true (gets (λ s, dimension_Get (policyKind s.1) KIND_RESOURCE)) (λ resourceKindBM,
  versionScopeFilters versions scopes (λ versionBM scopeBM,
  filter_if (bool_decide (0 < length resources)) (nonempty (resourceQueryMulti (newResourceKinds resources) KIND_RESOURCE)) (λ resourceBM,
  filterBM ← combine_dims false (app_part (app_part (app_part (app_part [] resourceKindBM) versionBM) scopeBM) resourceBM);
  mret (if Bitmap_IsEmpty filterBM then None else Some filterBM)))).

Definition keys_in `{KeyDimension D} (d : bitmapIndex → D) (filterBM : Bitmap) : ST qstate (list string) := λ s,
  keys ← intersectingKeys (d s.1) filterBM; Some (keys, s).

Definition resourceDimensionKeys `{KeyDimension D} (d : bitmapIndex → D) (versions scopes resources : list string) :
    ST qstate (list string) :=
  o ← resource_filter versions scopes resources;
  match o with
  | None => mret []
  | Some filterBM => keys_in d filterBM
  end.

Definition Versions (scopes resources : list string) := resourceDimensionKeys version [] scopes resources.
Definition Scopes (versions resources : list string) := resourceDimensionKeys scope versions [] resources.
Definition Roles (versions scopes resources : list string) := resourceDimensionKeys role versions scopes resources.
Definition Actions (versions scopes resources : list string) := resourceDimensionKeys action versions scopes resources.
Definition Resources (versions scopes : list string) := resourceDimensionKeys resource versions scopes [].

Definition ActionsForResource (res : string) (versions scopes : list string) : ST qstate (list string) :=
  if decide (res = "") then mret []
  else
    o ← versionScopeFilters versions scopes (λ versionBM scopeBM,
      resBM ← resourceQuery (NewResourceKind res) KIND_RESOURCE;
      l ← collectResourceActions resBM versionBM scopeBM;
      mret (Some l));
    mret (default [] o).

(** * Existence *)

Definition exists_in (l : list Bitmap) : ST qstate (option unit) :=
  b ← lift (intersectionNonEmpty l); mret (if (b : bool) then Some () else None).

Definition ScopedResourceExists_state (ver : string) (rk : ResourceKind) (scopes : list string) : ST qstate bool :=
  match scopes with
  | [] => mret false
  | _ =>
      o ← filter_if true (gets (λ s, dimension_Get (version s.1) ver)) (λ versionBM,
          filter_if true (nonempty (on_dimension scope scopes)) (λ scopeBM,
          filter_if true (nonempty (resourceQuery rk KIND_RESOURCE)) (λ resourceBM,
          filter_if true (gets (λ s, dimension_Get (policyKind s.1) KIND_RESOURCE)) (λ kindBM,
          exists_in (omap id [versionBM; scopeBM; resourceBM; kindBM])))));
      mret (bool_decide (is_Some o))
  end.

Definition ScopedPrincipalExists_state (ver : string) (scopes : list string) : ST qstate bool :=
  match scopes with
  | [] => mret false
  | _ =>
      o ← filter_if true (gets (λ s, dimension_Get (version s.1) ver)) (λ versionBM,
          filter_if true (nonempty (on_dimension scope scopes)) (λ scopeBM,
          filter_if true (gets (λ s, dimension_Get (policyKind s.1) KIND_PRINCIPAL)) (λ kindBM,
          exists_in (omap id [versionBM; scopeBM; kindBM]))));
      mret (bool_decide (is_Some o))
  end.

Definition ScopedResourceExists (idx : bitmapIndex) (pool : list Bitmap) (ver : string) (rk : ResourceKind) (scopes : list string) :=
  with_arena (ScopedResourceExists_state ver rk scopes) idx pool.
Definition ScopedPrincipalExists (idx : bitmapIndex) (pool : list Bitmap) (ver : string) (scopes : list string) :=
  with_arena (ScopedPrincipalExists_state ver scopes) idx pool.
End lookup.

(** * Correctness of the lookups

    Correctness of the lookups of [IndexLookup]: each computes a filter over the
    live bindings. *)

Section spec.
Context `{GlobEngine} `{CelCompiler} `{GoMapOrder}.

(** * Reference predicates: an empty list of values matches everything *)

Definition in_versions (vs : list string) (b : BindingHandle) : bool :=
  match bh_Version b with Some v => bool_decide (v ∈ vs) | None => false end.
Definition in_scopes (ss : list string) (b : BindingHandle) : bool := bool_decide (HandleStr (bh_Scope b) ∈ ss).
Definition in_resources (rks : list ResourceKind) (pk : Kind) (b : BindingHandle) : bool := existsb (λ rk, res_matches rk pk b) rks.
Definition in_actions (acts : list string) (b : BindingHandle) : bool :=
  match bh_AllowActions b with Some _ => true | None => handle_matches (bh_Action b) acts end.

Definition any_or {A} (l : list A) (f : list A → BindingHandle → bool) (b : BindingHandle) : bool :=
  match l with [] => true | _ => f l b end.
Definition versions_match (vs : list string) := any_or vs in_versions.
Definition scopes_match (ss : list string) := any_or ss in_scopes.
Definition roles_match (roles : list string) := any_or roles (λ r b, handle_matches (bh_Role b) r).
Definition resources_match (rs : list string) (pk : Kind) := any_or rs (λ r, in_resources (newResourceKinds r) pk).
Definition actions_match (acts : list string) := any_or acts in_actions.

Definition multi_matches (versions resources scopes roles : list string) (b : BindingHandle) : bool :=
  versions_match versions b && scopes_match scopes b && resources_match resources KIND_UNSPECIFIED b && roles_match roles b.

Lemma in_versions_iff vs b : in_versions vs b = true ↔ ∃ v, v ∈ vs ∧ bh_Version b = Some v.
Proof.
  unfold in_versions. destruct (bh_Version b) as [v|].
  - rewrite bool_decide_eq_true. split; [by exists v|]. by intros (? & ? & [= ->]).
  - split; [done|]. by intros (? & _ & ?).
Qed.

Section query.
Context (idx : bitmapIndex).
Local Abbreviation q_inv := (q_inv idx).
Local Abbreviation q_rel := (q_rel idx).
Local Abbreviation sel := (sel idx).

Lemma filter_found_runs {A} m (k : option Bitmap → ST qstate (option A)) s g (Q : option A → Prop) :
  sruns q_rel m s (λ r, found idx r g) → ((∀ id, ¬ sel g id) → Q None) →
  (∀ bm s', q_inv s' → bm_is bm (sel g) → sruns q_rel (k (Some bm)) s' Q) →
  sruns q_rel (filter_if true m k) s Q.
Proof.
  intros Hm Hnone Hk. unfold filter_if. eapply q_bind; [exact Hm|].
  intros [bm|] s' Hs' Hr; [by apply Hk|]. apply q_ret; [done|]. by apply Hnone.
Qed.

(** A filter on a list of values, applied only when the list is not empty. *)
Lemma filter_any_runs {A B} (l : list B) m (k : option Bitmap → ST qstate (option A)) s f (Q : option A → Prop) :
  q_inv s → sruns q_rel m s (λ bm, bm_is bm (sel (f l))) →
  ((∀ id, ¬ sel (any_or l f) id) → Q None) →
  (∀ o s', q_inv s' → filt idx o (any_or l f) → sruns q_rel (k o) s' Q) →
  sruns q_rel (filter_if (bool_decide (0 < length l)) (nonempty m) k) s Q.
Proof.
  intros Hs Hm Hnone Hk. destruct l as [|x l]; cbn [length].
  - rewrite bool_decide_false by lia. by apply Hk.
  - rewrite bool_decide_true by lia. apply (filter_found_runs _ _ _ (any_or (x :: l) f)); [|done|].
    + by apply nonempty_runs.
    + intros bm s' Hs' Hbm. by apply Hk.
Qed.

Lemma versions_query_runs vs s :
  q_inv s → sruns q_rel (on_dimension version vs) s (λ bm, bm_is bm (sel (in_versions vs))).
Proof.
  intros Hs. pose proof (q_inv_dims idx s Hs) as Hd. unfold on_dimension. cbv beta.
  apply on_arena_runs; [done|]. eapply sruns_mono; [apply dim_QueryMultiple_is; [apply Hd|apply Hs]|].
  intros bm Hbm. eapply bm_is_iff; [exact Hbm|]. intros id. unfold IndexQuerySpec.sel.
  setoid_rewrite in_versions_iff. split.
  - intros (v & Hv & (b & Hb & Hk)%(dok_version_is _ _ Hd)). eauto.
  - intros (b & Hb & v & Hv & Hk). exists v. split; [done|]. apply (dok_version_is _ _ Hd). eauto.
Qed.

Lemma scopes_query_runs ss s :
  q_inv s → sruns q_rel (on_dimension scope ss) s (λ bm, bm_is bm (sel (in_scopes ss))).
Proof.
  intros Hs. pose proof (q_inv_dims idx s Hs) as Hd. unfold on_dimension. cbv beta.
  apply on_arena_runs; [done|]. eapply sruns_mono; [apply dim_QueryMultiple_is; [apply Hd|apply Hs]|].
  intros bm Hbm. eapply bm_is_iff; [exact Hbm|]. intros id. unfold IndexQuerySpec.sel, in_scopes.
  setoid_rewrite bool_decide_eq_true. split.
  - intros (v & Hv & (b & Hb & [= Hk])%(dok_scope_is _ _ Hd)). exists b. by rewrite Hk.
  - intros (b & Hb & Hv). exists (HandleStr (bh_Scope b)). split; [done|]. apply (dok_scope_is _ _ Hd). eauto.
Qed.

Lemma resourceQueryMulti_runs rks pk s :
  q_inv s → sruns q_rel (resourceQueryMulti rks pk) s (λ bm, bm_is bm (sel (in_resources rks pk))).
Proof.
  intros Hs. assert (∀ id rk rks, sel (in_resources (rk :: rks) pk) id ↔ sel (res_matches rk pk) id ∨ sel (in_resources rks pk) id) as Hcons.
  { intros id rk l. unfold IndexQuerySpec.sel, in_resources. cbn [existsb]. setoid_rewrite orb_true_iff. naive_solver. }
  assert (∀ id, ¬ sel (in_resources [] pk) id) as Hnil by (intros id (b & _ & Hb); done).
  destruct rks as [|rk [|rk' rks]]; cbn [resourceQueryMulti].
  - apply q_ret; [done|]. eapply bm_is_iff; [apply bm_is_empty|]. intros id. split; [done|]. apply Hnil.
  - eapply sruns_mono; [by apply resourceQuery_is|]. intros bm Hbm. eapply bm_is_iff; [exact Hbm|].
    intros id. rewrite Hcons. pose proof (Hnil id). tauto.
  - eapply q_bind.
    { apply (sruns_foldST q_rel (λ done ps, parts_are ps (λ id, ∃ rk, rk ∈ done ∧ sel (res_matches rk pk) id))).
      - by split.
      - eapply parts_iff; [apply parts_nil|]. intros id. split; [done|]. by intros (x & ?%elem_of_nil & _).
      - intros done x rest ps s1 _ [_ Hs1] Hps.
        eapply q_bind; [apply nonempty_runs; by apply resourceQuery_is|]. intros o s2 Hs2 Ho. apply q_ret; [done|].
        assert (∀ id, (∃ rk, rk ∈ done ++ [x] ∧ sel (res_matches rk pk) id) ↔
          (∃ rk, rk ∈ done ∧ sel (res_matches rk pk) id) ∨ sel (res_matches x pk) id) as Hx.
        { intros id. setoid_rewrite elem_of_app. setoid_rewrite list_elem_of_singleton. naive_solver. }
        destruct o as [bm|]; cbn [app_part found] in *.
        + eapply parts_iff; [by apply parts_snoc|]. intros id. by rewrite Hx.
        + eapply parts_iff; [exact Hps|]. intros id. rewrite Hx. specialize (Ho id). tauto. }
    intros ps s1 Hs1 Hps. apply on_arena_runs; [done|].
    eapply sruns_mono; [apply or_parts_is; [apply Hs1|exact Hps]|]. intros bm Hbm. eapply bm_is_iff; [exact Hbm|].
    intros id. unfold IndexQuerySpec.sel, in_resources. setoid_rewrite existsb_elem_of. naive_solver.
Qed.

Lemma versionScopeFilters_runs {A} versions scopes (k : option Bitmap → option Bitmap → ST qstate (option A)) s (Q : option A → Prop) :
  q_inv s →
  ((∀ id, ¬ sel (λ b, versions_match versions b && scopes_match scopes b) id) → Q None) →
  (∀ vbm sbm s', q_inv s' → filt idx vbm (versions_match versions) → filt idx sbm (scopes_match scopes) →
    sruns q_rel (k vbm sbm) s' Q) →
  sruns q_rel (versionScopeFilters versions scopes k) s Q.
Proof.
  intros Hs Hnone Hk. unfold versionScopeFilters.
  apply (filter_any_runs versions _ _ _ in_versions); [done|by apply versions_query_runs| |].
  { intros Hn. apply Hnone. intros id Hid. apply (Hn id). eapply (sel_sub idx); [|exact Hid]. intros b [? _]%andb_true_iff. done. }
  intros vbm s1 Hs1 Hv. apply (filter_any_runs scopes _ _ _ in_scopes); [done|by apply scopes_query_runs| |].
  { intros Hn. apply Hnone. intros id Hid. apply (Hn id). eapply (sel_sub idx); [|exact Hid]. intros b [_ ?]%andb_true_iff. done. }
  intros sbm s2 Hs2 Hsc. by apply Hk.
Qed.

Lemma applyActionFilter_runs bm actions f s :
  q_inv s → bm_is bm (sel f) →
  sruns q_rel (applyActionFilter bm actions) s (λ r, bm_is r (sel (λ b, f b && actions_match actions b))).
Proof.
  intros Hs Hbm. destruct actions as [|a actions]; cbn [applyActionFilter].
  { apply q_ret; [done|]. eapply bm_is_iff; [exact Hbm|]. intros id. apply (sel_ext idx). intros b. cbn. by rewrite andb_true_r. }
  set (acts := a :: actions). pose proof (q_inv_dims idx s Hs) as Hd.
  set (g := λ b, bool_decide (bh_AllowActions b = None) && handle_matches (bh_Action b) acts).
  set (h := λ b : BindingHandle, bool_decide (is_Some (bh_AllowActions b))).
  eapply q_bind.
  { apply on_action_runs; [done|]. apply gd_QueryMultiple_is, (q_gstate idx); [done|apply Hd]. }
  cbn [fst]. intros abm s1 Hs1 Habm.
  assert (bm_is abm (sel g)) as Hg.
  { eapply bm_is_iff; [exact Habm|]. intros id. setoid_rewrite (action_hit_sel idx); [|apply Hd]. unfold IndexQuerySpec.sel, g. split.
    - intros (v & Hv & b & Hb & [? ?]%andb_true_iff). exists b. split; [done|]. apply andb_true_iff. split; [done|].
      rewrite handle_matches_existsb. apply existsb_elem_of. eauto.
    - intros (b & Hb & [? Hm]%andb_true_iff). rewrite handle_matches_existsb in Hm. apply existsb_elem_of in Hm as (v & Hv & Hm).
      exists v. split; [done|]. exists b. by rewrite andb_true_iff. }
  eapply (q_bind _ _ _ _ (λ ps, parts_are ps (sel (λ b, f b && g b)))).
  { destruct (Bitmap_IsEmpty abm) eqn:E.
    - apply q_ret; [done|]. eapply parts_iff; [apply parts_nil|]. intros id. rewrite sel_and.
      pose proof (proj1 (bm_is_IsEmpty _ _ Hg) E id). tauto.
    - eapply q_bind; [apply on_arena_runs; [done|]; apply and2_is; [apply Hs1|exact Hbm|exact Hg]|]. intros r s2 Hs2 Hr.
      apply q_ret; [done|]. eapply parts_iff; [apply (parts_snoc [] r _ _ parts_nil Hr)|]. intros id. rewrite sel_and. tauto. }
  intros ps s2 Hs2 Hps. pose proof (q_inv_dims idx s2 Hs2) as Hd2.
  eapply q_bind; [apply (q_gets _ _ _ (λ aab, bm_is aab (sel h))); [done|]|].
  { eapply bm_is_iff; [apply bm_is_self, Hd2|]. intros id. rewrite (dok_allow_is _ _ Hd2 () id). unfold IndexQuerySpec.sel, h.
    setoid_rewrite bool_decide_eq_true. unfold allow_key. split.
    - intros (b & Hb & E). exists b. split; [done|]. destruct (bh_AllowActions b); [eauto|done].
    - intros (b & Hb & [x E]). exists b. by rewrite E. }
  intros aab s3 Hs3 Haab.
  eapply (q_bind _ _ _ _ (λ ps, parts_are ps (sel (λ b, f b && actions_match acts b)))).
  { assert (∀ id, sel (λ b, f b && actions_match acts b) id ↔ sel (λ b, f b && g b) id ∨ sel (λ b, f b && h b) id) as Hsplit.
    { intros id. unfold IndexQuerySpec.sel, g, h, actions_match, any_or, in_actions, acts. setoid_rewrite andb_true_iff.
      setoid_rewrite andb_true_iff. setoid_rewrite bool_decide_eq_true. split.
      - intros (b & Hb & Hf & Hm). destruct (bh_AllowActions b) eqn:Ea; [right|left]; exists b; rewrite Ea; split_and!; eauto.
      - intros [(b & Hb & Hf & Ea & Hm)|(b & Hb & Hf & [x Ea])]; exists b; rewrite Ea; eauto. }
    destruct (Bitmap_IsEmpty aab) eqn:E.
    - apply q_ret; [done|]. eapply parts_iff; [exact Hps|]. intros id. rewrite Hsplit, (sel_and idx f h).
      pose proof (proj1 (bm_is_IsEmpty _ _ Haab) E id). tauto.
    - eapply q_bind; [apply on_arena_runs; [done|]; apply and2_is; [apply Hs3|exact Hbm|exact Haab]|]. intros r s4 Hs4 Hr.
      apply q_ret; [done|]. destruct (Bitmap_IsEmpty r) eqn:Er.
      + eapply parts_iff; [exact Hps|]. intros id. rewrite Hsplit, (sel_and idx f h).
        pose proof (proj1 (bm_is_IsEmpty _ _ Hr) Er id). tauto.
      + eapply parts_iff; [apply (parts_snoc _ _ _ _ Hps Hr)|]. intros id. rewrite Hsplit, (sel_and idx f h). tauto. }
  intros ps' s4 Hs4 Hps'. apply on_arena_runs; [done|]. apply or_parts_is; [apply Hs4|done].
Qed.

(** What [QueryMulti] selects: the matching rows, then the synthetic denies. *)
Definition QueryMulti_spec (versions resources scopes roles actions : list string) (withRolePolicyDenies : bool) : list BindingHandle :=
  scan idx (λ b, multi_matches versions resources scopes roles b && actions_match actions b) ++
  (if withRolePolicyDenies
   then denies_spec idx (versions_match versions) (scopes_match scopes) (roles_match roles) (newResourceKinds resources) roles actions
   else []).

Lemma QueryMulti_spec_none versions resources scopes roles actions denies :
  (∀ id, ¬ sel (λ b, versions_match versions b && scopes_match scopes b && roles_match roles b) id) →
  QueryMulti_spec versions resources scopes roles actions denies = [].
Proof.
  intros Hn. unfold QueryMulti_spec. rewrite scan_nil.
  - destruct denies; [|done]. apply denies_spec_none, scan_nil. intros id Hid. apply (Hn id). eapply (sel_sub idx); [|exact Hid].
    intros b. unfold candidate. rewrite !andb_true_iff. tauto.
  - intros id Hid. apply (Hn id). eapply (sel_sub idx); [|exact Hid]. intros b. unfold multi_matches. rewrite !andb_true_iff. tauto.
Qed.

Lemma QueryMulti_handles_runs versions resources scopes roles actions denies s :
  q_inv s → sruns q_rel (QueryMulti_handles versions resources scopes roles actions denies) s
    (λ o, default [] o = QueryMulti_spec versions resources scopes roles actions denies).
Proof.
  intros Hs. unfold QueryMulti_handles.
  eapply q_bind; [apply (q_gets _ _ _ (λ e, e = Bitmap_IsEmpty (universe s.1))); done|]. intros e s1 Hs1 ->.
  pose proof (q_inv_dims idx s Hs) as Hd.
  destruct (Bitmap_IsEmpty (universe s.1)) eqn:E.
  { apply q_ret; [done|]. symmetry. apply QueryMulti_spec_none. intros id (b & Hb & _).
    assert (bm_is (universe s.1) (λ id, is_Some (lv idx id))) as Hu.
    { eapply bm_is_iff; [apply bm_is_self, Hd|]. intros i. rewrite (dok_universe_is _ _ Hd () i). unfold is_Some. naive_solver. }
    apply (proj1 (bm_is_IsEmpty _ _ Hu) E id). by exists b. }
  apply versionScopeFilters_runs; [done| |].
  { intros Hn. symmetry. apply QueryMulti_spec_none. intros id Hid. apply (Hn id). eapply (sel_sub idx); [|exact Hid].
    intros b [? _]%andb_true_iff. done. }
  intros vbm sbm s2 Hs2 Hv Hsc.
  apply (filter_any_runs roles _ _ _ (λ r b, handle_matches (bh_Role b) r)); [done|by apply role_query_runs| |].
  { intros Hn. symmetry. apply QueryMulti_spec_none. intros id Hid. apply (Hn id). eapply (sel_sub idx); [|exact Hid].
    intros b [_ ?]%andb_true_iff. done. }
  intros rbm s3 Hs3 Hr.
  eapply (q_bind _ _ _ _ (λ o, filt idx o (resources_match resources KIND_UNSPECIFIED))).
  { unfold resources_match. destruct resources as [|r resources]; [by apply q_ret|].
    eapply q_bind; [by apply resourceQueryMulti_runs|]. intros bm s4 Hs4 Hbm. by apply q_ret. }
  intros resbm s4 Hs4 Hres.
  eapply q_bind; [apply (combine_dims_is _ _ _ (multi_matches versions resources scopes roles)); [done|]|].
  { apply (dims_app _ (app_part (app_part (app_part [] vbm) sbm) resbm)); [|done].
    apply (dims_app _ (app_part (app_part [] vbm) sbm)); [|done]. apply (dims_app _ (app_part [] vbm)); [|done].
    eapply dims_ext; [apply (dims_app _ [] vbm _ _ (dims_nil idx) Hv)|done]. }
  intros bbm s5 Hs5 Hb.
  eapply (q_bind _ _ _ _ (λ l, l = scan idx (λ b, multi_matches versions resources scopes roles b && actions_match actions b))).
  { destruct (Bitmap_IsEmpty bbm) eqn:Eb.
    - apply q_ret; [done|]. symmetry. apply scan_nil. intros id [Hm _]%sel_and. by apply (proj1 (bm_is_IsEmpty _ _ Hb) Eb id).
    - eapply q_bind; [apply applyActionFilter_runs; [done|exact Hb]|]. intros r s6 Hs6 Hrr. destruct (Bitmap_IsEmpty r) eqn:Er.
      + apply q_ret; [done|]. symmetry. apply scan_nil. by apply (bm_is_IsEmpty _ _ Hrr).
      + by apply read_bindings_runs. }
  intros l s6 Hs6 ->.
  eapply (q_bind _ _ _ _ (λ l, l = QueryMulti_spec versions resources scopes roles actions denies)).
  { unfold QueryMulti_spec. destruct denies; [by apply appendRolePolicyDenies_runs|]. apply q_ret; [done|]. by rewrite app_nil_r. }
  intros l s7 Hs7 ->. by apply q_ret.
Qed.

(** ** Listings *)

Definition resource_rows (versions scopes resources : list string) (b : BindingHandle) : bool :=
  kind_matches KIND_RESOURCE b && versions_match versions b && scopes_match scopes b && resources_match resources KIND_RESOURCE b.

Lemma kind_found s k :
  q_inv s → k ≠ KIND_UNSPECIFIED → found idx (dimension_Get (policyKind s.1) k) (kind_matches k).
Proof.
  intros Hs Hk. pose proof (q_inv_dims idx s Hs) as Hd. apply (dim_found _ _ kind_key); [apply Hd|apply Hd|].
  intros b. unfold kind_matches, kind_key. rewrite bool_decide_eq_true. split; [intros [?|<-]; done|]. intros [= <-]. by right.
Qed.

Lemma resource_filter_runs versions scopes resources s :
  q_inv s → sruns q_rel (resource_filter versions scopes resources) s (λ o, found idx o (resource_rows versions scopes resources)).
Proof.
  intros Hs. unfold resource_filter.
  assert (∀ (g : BindingHandle → bool), (∀ id, ¬ sel g id) → (∀ b, resource_rows versions scopes resources b = true → g b = true) →
    found idx None (resource_rows versions scopes resources)) as Hnone.
  { intros g Hg Hsub id Hid. apply (Hg id). eapply (sel_sub idx); [|exact Hid]. done. }
  apply (filter_found_runs _ _ _ (kind_matches KIND_RESOURCE)); [apply q_gets; [done|by apply kind_found]| |].
  { intros Hn. apply (Hnone _ Hn). intros b. unfold resource_rows. rewrite !andb_true_iff. tauto. }
  intros kbm s1 Hs1 Hk. apply versionScopeFilters_runs; [done| |].
  { intros Hn. apply (Hnone _ Hn). intros b. unfold resource_rows. rewrite !andb_true_iff. tauto. }
  intros vbm sbm s2 Hs2 Hv Hsc.
  apply (filter_any_runs resources _ _ _ (λ r, in_resources (newResourceKinds r) KIND_RESOURCE)); [done|by apply resourceQueryMulti_runs| |].
  { intros Hn. apply (Hnone _ Hn). intros b. unfold resource_rows. rewrite !andb_true_iff. tauto. }
  intros rbm s3 Hs3 Hr.
  eapply q_bind; [apply (combine_dims_is _ _ _ (resource_rows versions scopes resources)); [done|]|].
  { apply (dims_app _ (app_part (app_part [kbm] vbm) sbm)); [|done].
    apply (dims_app _ (app_part [kbm] vbm)); [|done]. apply (dims_app _ [kbm]); [|done]. by apply dims_one. }
  intros bm s4 Hs4 Hb. apply q_ret; [done|]. destruct (Bitmap_IsEmpty bm) eqn:E; [|done]. cbn [found]. by apply (bm_is_IsEmpty _ _ Hb).
Qed.

(** A listing returns the keys of the dimension that occur in a matching row. *)
Lemma resourceDimensionKeys_runs `{KeyDimension D} (d : bitmapIndex → D) key_of versions scopes resources s :
  q_inv s → (∀ s, q_inv s → kd_ok (d s.1) ∧ indexes (kd_mem (d s.1)) (lv idx) key_of) →
  sruns q_rel (resourceDimensionKeys d versions scopes resources) s (λ keys,
    ∀ k, k ∈ keys ↔ ∃ b, b ∈ scan idx (resource_rows versions scopes resources) ∧ key_of b = Some k).
Proof.
  intros Hs Hd. unfold resourceDimensionKeys. eapply q_bind; [by apply resource_filter_runs|].
  intros [bm|] s1 Hs1 Ho; cbn [found] in Ho.
  - destruct (Hd s1 Hs1) as [Hok Hi]. destruct (intersectingKeys_runs (d s1.1) bm Hok (proj1 Ho)) as (keys & Ek & Hkeys).
    exists keys, s1. unfold keys_in. rewrite Ek. split; [done|]. split; [by split|]. intros k. rewrite Hkeys.
    setoid_rewrite (elem_of_scan idx). split.
    + intros (id & (b & Hb & Hk)%Hi & (b' & Hb' & Hf)%Ho). assert (b' = b) as -> by congruence. eauto.
    + intros (b & (id & Hb & Hf) & Hk). exists id. split; [apply Hi; eauto|]. apply Ho. by exists b.
  - apply q_ret; [done|]. intros k. rewrite elem_of_nil. split; [done|]. intros (b & (id & Hb & Hf)%elem_of_scan & _).
    apply (Ho id). by exists b.
Qed.

Lemma ActionsForResource_runs res versions scopes s :
  q_inv s → res ≠ "" →
  sruns q_rel (ActionsForResource res versions scopes) s
    (λ l, l = actions_spec idx (versions_match versions) (scopes_match scopes) (NewResourceKind res)).
Proof.
  intros Hs Hne. unfold ActionsForResource. rewrite decide_False by done.
  eapply (q_bind _ _ _ _ (λ o, default [] o = actions_spec idx (versions_match versions) (scopes_match scopes) (NewResourceKind res))).
  - apply versionScopeFilters_runs; [done| |].
    + intros Hn. unfold actions_spec. rewrite scan_nil.
      * unfold collect_actions, set_range. cbn [foldl]. rewrite gset_to_gmap_empty. by rewrite (proj2 (go_range_nil _) eq_refl).
      * intros id Hid. apply (Hn id). eapply (sel_sub idx); [|exact Hid]. intros b. rewrite !andb_true_iff. tauto.
    + intros vbm sbm s1 Hs1 Hv Hsc. eapply q_bind; [by apply resourceQuery_is|]. intros bm s2 Hs2 Hbm.
      eapply q_bind; [apply (collectResourceActions_runs _ _ _ _ (NewResourceKind res)); done|]. intros l s3 Hs3 ->. by apply q_ret.
  - intros o s1 Hs1 Ho. by apply q_ret.
Qed.

(** ** Existence *)

Lemma exists_in_runs x l f s :
  q_inv s → dims_are idx (x :: l) f → sruns q_rel (exists_in (x :: l)) s (λ o, is_Some o ↔ ∃ id, sel f id).
Proof.
  intros Hs Hd. unfold exists_in.
  destruct (intersectionNonEmpty_runs x l) as (b & E & Hb); [apply Hd|].
  exists (if b then Some () else None), s. unfold lift. rewrite E. split; [done|]. split; [by split|].
  assert ((∃ id, ∀ bm, bm ∈ x :: l → bm_mem bm id = true) ↔ ∃ id, sel f id) as Hiff
    by (split; intros [id Hid]; exists id; by apply (dims_sel idx (x :: l) f id Hd)).
  rewrite <-Hiff, <-Hb. destruct b; split; try done; by intros [].
Qed.

Lemma scan_exists g : (∃ b, b ∈ scan idx g) ↔ ∃ id, sel g id.
Proof. unfold IndexQuerySpec.sel. setoid_rewrite (elem_of_scan idx). naive_solver. Qed.

Lemma resource_exists_runs ver rk scopes s :
  q_inv s → sruns q_rel (ScopedResourceExists_state ver rk scopes) s (λ r, r = true ↔
    ∃ b, b ∈ scan idx (λ b, bool_decide (bh_Version b = Some ver) && in_scopes scopes b && res_matches rk KIND_RESOURCE b && kind_matches KIND_RESOURCE b)).
Proof.
  intros Hs. unfold ScopedResourceExists_state.
  set (g := λ b, bool_decide (bh_Version b = Some ver) && in_scopes scopes b && res_matches rk KIND_RESOURCE b && kind_matches KIND_RESOURCE b).
  enough (sruns q_rel _ s (λ r, r = true ↔ ∃ id, sel g id)) as Hen by (eapply sruns_mono; [exact Hen|]; intros r ->; by rewrite scan_exists).
  destruct scopes as [|sc scopes].
  { apply q_ret; [done|]. split; [done|]. intros (id & b & _ & Hg). unfold g, in_scopes in Hg.
    rewrite (bool_decide_false (_ ∈ [])) in Hg by apply not_elem_of_nil. rewrite andb_false_r in Hg. done. }
  set (ss := sc :: scopes) in *.
  assert (∀ h : BindingHandle → bool, (∀ id, ¬ sel h id) → (∀ b, g b = true → h b = true) → is_Some (@None unit) ↔ ∃ id, sel g id) as Hnone.
  { intros h Hh Hsub. split; [by intros []|]. intros [id Hid]. destruct (Hh id). by eapply (sel_sub idx). }
  eapply (q_bind _ _ _ _ (λ o : option unit, is_Some o ↔ ∃ id, sel g id)).
  2:{ intros o s1 Hs1 Ho. apply q_ret; [done|]. by rewrite bool_decide_eq_true. }
  pose proof (q_inv_dims idx s Hs) as Hd.
  apply (filter_found_runs _ _ _ (λ b, bool_decide (bh_Version b = Some ver))).
  { apply q_gets; [done|]. apply (dim_found _ _ bh_Version); [apply Hd|apply Hd|]. intros b. apply bool_decide_eq_true. }
  { intros Hn. apply (Hnone _ Hn). intros b. unfold g. rewrite !andb_true_iff. tauto. }
  intros vbm s1 Hs1 Hv. apply (filter_found_runs _ _ _ (in_scopes ss)).
  { apply nonempty_runs. by apply scopes_query_runs. }
  { intros Hn. apply (Hnone _ Hn). intros b. unfold g. rewrite !andb_true_iff. tauto. }
  intros sbm s2 Hs2 Hsc. apply (filter_found_runs _ _ _ (res_matches rk KIND_RESOURCE)).
  { apply nonempty_runs. by apply resourceQuery_is. }
  { intros Hn. apply (Hnone _ Hn). intros b. unfold g. rewrite !andb_true_iff. tauto. }
  intros rbm s3 Hs3 Hr. apply (filter_found_runs _ _ _ (kind_matches KIND_RESOURCE)).
  { apply q_gets; [done|by apply kind_found]. }
  { intros Hn. apply (Hnone _ Hn). intros b. unfold g. rewrite !andb_true_iff. tauto. }
  intros kbm s4 Hs4 Hk. apply exists_in_runs; [done|].
  apply (dims_app _ [vbm; sbm; rbm] (Some kbm)); [|done]. apply (dims_app _ [vbm; sbm] (Some rbm)); [|done].
  apply (dims_app _ [vbm] (Some sbm)); [|done]. by apply dims_one.
Qed.

Lemma principal_exists_runs ver scopes s :
  q_inv s → sruns q_rel (ScopedPrincipalExists_state ver scopes) s (λ r, r = true ↔
    ∃ b, b ∈ scan idx (λ b, bool_decide (bh_Version b = Some ver) && in_scopes scopes b && kind_matches KIND_PRINCIPAL b)).
Proof.
  intros Hs. unfold ScopedPrincipalExists_state.
  set (g := λ b, bool_decide (bh_Version b = Some ver) && in_scopes scopes b && kind_matches KIND_PRINCIPAL b).
  enough (sruns q_rel _ s (λ r, r = true ↔ ∃ id, sel g id)) as Hen by (eapply sruns_mono; [exact Hen|]; intros r ->; by rewrite scan_exists).
  destruct scopes as [|sc scopes].
  { apply q_ret; [done|]. split; [done|]. intros (id & b & _ & Hg). unfold g, in_scopes in Hg.
    rewrite (bool_decide_false (_ ∈ [])) in Hg by apply not_elem_of_nil. rewrite andb_false_r in Hg. done. }
  set (ss := sc :: scopes) in *.
  assert (∀ h : BindingHandle → bool, (∀ id, ¬ sel h id) → (∀ b, g b = true → h b = true) → is_Some (@None unit) ↔ ∃ id, sel g id) as Hnone.
  { intros h Hh Hsub. split; [by intros []|]. intros [id Hid]. destruct (Hh id). by eapply (sel_sub idx). }
  eapply (q_bind _ _ _ _ (λ o : option unit, is_Some o ↔ ∃ id, sel g id)).
  2:{ intros o s1 Hs1 Ho. apply q_ret; [done|]. by rewrite bool_decide_eq_true. }
  pose proof (q_inv_dims idx s Hs) as Hd.
  apply (filter_found_runs _ _ _ (λ b, bool_decide (bh_Version b = Some ver))).
  { apply q_gets; [done|]. apply (dim_found _ _ bh_Version); [apply Hd|apply Hd|]. intros b. apply bool_decide_eq_true. }
  { intros Hn. apply (Hnone _ Hn). intros b. unfold g. rewrite !andb_true_iff. tauto. }
  intros vbm s1 Hs1 Hv. apply (filter_found_runs _ _ _ (in_scopes ss)).
  { apply nonempty_runs. by apply scopes_query_runs. }
  { intros Hn. apply (Hnone _ Hn). intros b. unfold g. rewrite !andb_true_iff. tauto. }
  intros sbm s2 Hs2 Hsc. apply (filter_found_runs _ _ _ (kind_matches KIND_PRINCIPAL)).
  { apply q_gets; [done|by apply kind_found]. }
  { intros Hn. apply (Hnone _ Hn). intros b. unfold g. rewrite !andb_true_iff. tauto. }
  intros kbm s4 Hs4 Hk. apply exists_in_runs; [done|].
  apply (dims_app _ [vbm; sbm] (Some kbm)); [|done].
  apply (dims_app _ [vbm] (Some sbm)); [|done]. by apply dims_one.
Qed.

(** ** What the synthetic denies are *)

(** A deny for a role without a matching rule, or what an allowing role policy
    row [mb] contributes. *)
Definition synthetic (l : list BindingHandle) (b : BindingHandle) : Prop :=
  (∃ role v sc r a, b = newNoMatchRolePolicyDeny role v sc r a) ∨ ∃ mb a, mb ∈ l ∧ b ∈ synthesise a mb.

Lemma denies_for_role_elem rawKind actions role rep rbs b :
  b ∈ denies_for_role rawKind actions role rep rbs → synthetic rbs b.
Proof.
  unfold denies_for_role. destruct rbs as [|rb rbs].
  - intros (a & -> & _)%list_elem_of_fmap. left. eauto 8.
  - intros (a & Hb & _)%list_elem_of_bind. unfold denies_for_action in Hb. destruct (filter _ _) as [|x l] eqn:E.
    + apply list_elem_of_singleton in Hb as ->. left. eauto 8.
    + apply list_elem_of_bind in Hb as (mb & Hb & Hmb). right. exists mb, a. split; [|done].
      rewrite <-E in Hmb. by apply list_elem_of_filter in Hmb as [_ ?].
Qed.

Lemma matchedByRole_sub l r bs b : matchedByRole l !! r = Some bs → b ∈ bs → b ∈ l.
Proof.
  unfold matchedByRole.
  assert (∀ m, foldl add_by_role m l !! r = Some bs → b ∈ bs → b ∈ l ∨ b ∈ default [] (m !! r)) as Hgen.
  { induction l as [|x l IH]; intros m Hm Hb; cbn [foldl] in Hm; [right; by rewrite Hm|].
    destruct (IH _ Hm Hb) as [?|Hin]; [left; by right|]. unfold add_by_role in Hin.
    destruct (decide (HandleStr (bh_Role x) = r)) as [E|E].
    - rewrite E, lookup_insert_eq in Hin. change (default [] (Some ?x)) with x in Hin.
      apply elem_of_app in Hin as [?| ->%list_elem_of_singleton]; [by right|]. left. left.
    - rewrite lookup_insert_ne in Hin by done. by right. }
  intros Hm Hb. destruct (Hgen ∅ Hm Hb) as [?|Hin]; [done|]. rewrite lookup_empty in Hin. by apply elem_of_nil in Hin.
Qed.

Lemma denies_elem vf sf rf resources roles actions b :
  b ∈ denies_spec idx vf sf rf resources roles actions → synthetic (scan idx (candidate vf sf rf)) b.
Proof.
  unfold denies_spec. destruct (rolePolicyReps _) as [reps order].
  intros (rk & Hb & _)%list_elem_of_bind. unfold denies_for_resource in Hb.
  apply list_elem_of_bind in Hb as (role & Hb & _). destruct (reps !! role) as [rep|]; [|by apply elem_of_nil in Hb].
  apply denies_for_role_elem in Hb as [?|(mb & a & Hmb & Hb)]; [by left|]. right. exists mb, a. split; [|done].
  destruct (matchedByRole _ !! role) as [bs|] eqn:E; [|by apply elem_of_nil in Hmb].
  pose proof (matchedByRole_sub _ _ _ _ E Hmb) as Hin. apply elem_of_scan in Hin as (id & Hl & [Hf _]%andb_true_iff).
  apply elem_of_scan. eauto.
Qed.

(** What [Query] returns: matching rows, and synthetic denies. *)
Lemma Query_spec_elem ver rk sco act roles pk p b :
  b ∈ Query_spec idx ver rk sco act roles pk p [] →
  b ∈ scan idx (λ b, base_matches ver rk sco roles pk p b && action_matches act b) ∨
  synthetic (scan idx (candidate (version_matches ver) (scope_matches sco) (role_matches roles))) b ∧ pk = KIND_RESOURCE.
Proof.
  unfold Query_spec. destruct (scan idx (base_matches _ _ _ _ _ _)); [by intros ?%elem_of_nil|].
  rewrite app_nil_l, elem_of_app. intros [Hb|Hb]; [|by left].
  destruct (bool_decide _) eqn:E; [|by apply elem_of_nil in Hb]. apply bool_decide_eq_true in E as (_ & _ & ?).
  right. split; [|done]. by eapply denies_elem.
Qed.

(** ** Evaluation keys of the results *)

(** Every binding a query returns has an evaluation key. *)
Definition has_key (b : BindingHandle) : Prop := is_Some (evalKey idx (bh_ID b)).

Lemma scan_has_key f b : bi_ok idx → b ∈ scan idx f → has_key b.
Proof.
  intros Hok (id & Hl & _)%elem_of_scan. pose proof (bok_slots _ Hok) as Hs. destruct (slok_id _ Hs _ _ Hl) as [E _].
  unfold has_key, evalKey. rewrite E. case_decide; [eauto|]. apply lookup_lt_is_Some_2. rewrite (slok_keys _ Hs). by eapply lv_bound.
Qed.

Lemma synthesise_key a mb b : b ∈ synthesise a mb → bh_ID b = bh_ID mb.
Proof.
  unfold synthesise. destruct (co_Condition (bh_Core mb)); [|destruct (co_EmitOutput (bh_Core mb))].
  1,2: by intros ->%list_elem_of_singleton. by intros ?%elem_of_nil.
Qed.

Lemma synthetic_has_key f b : bi_ok idx → synthetic (scan idx f) b → has_key b.
Proof.
  intros Hok [(role & v & sc & r & a & ->)|(mb & a & Hmb & Hb)]; [by exists zeroKey|].
  unfold has_key. rewrite (synthesise_key a mb) by done. by eapply scan_has_key.
Qed.

Lemma Query_has_key ver rk sco act roles pk p b :
  bi_ok idx → b ∈ Query_spec idx ver rk sco act roles pk p [] → has_key b.
Proof. intros Hok [Hb|[Hb _]]%Query_spec_elem; [by eapply scan_has_key|by eapply synthetic_has_key]. Qed.

Lemma toBindings_runs idx' l :
  evalKeys idx' = evalKeys idx → (∀ b, b ∈ l → has_key b) →
  runs (toBindings idx' l) (λ out, Forall2 (λ b s, ∃ k, evalKey idx (bh_ID b) = Some k ∧ s = toBinding b k) l out).
Proof.
  intros Ek. unfold toBindings. induction l as [|b l IH]; intros Hl.
  - rret. constructor.
  - destruct (Hl b ltac:(left)) as [k Hk]. cbn [mapM]. 
    replace (evalKey idx' (bh_ID b)) with (Some k) by (rewrite <-Hk; unfold evalKey; by rewrite Ek). bsimp.
    destruct IH as (out & E & HF); [intros x Hx; apply Hl; by right|]. rewrite E. rret. constructor; [|done]. eauto.
Qed.
End query.

Lemma QueryMulti_runs idx pool versions resources scopes roles actions denies :
  bi_ok idx → (∀ bm, bm ∈ pool → cleared bm) →
  runs (QueryMulti idx pool versions resources scopes roles actions denies) (λ '(out, idx', pool'),
    Forall2 (λ b s, ∃ k, evalKey idx (bh_ID b) = Some k ∧ s = toBinding b k)
      (QueryMulti_spec idx versions resources scopes roles actions denies) out ∧
    bi_rel idx idx' ∧ ∀ bm, bm ∈ pool' → cleared bm).
Proof.
  intros Hok Hpool. unfold QueryMulti.
  eapply runs_bind; [apply (with_arena_runs idx Hok); [done|]; intros s Hs; by apply QueryMulti_handles_runs|].
  intros [[o idx'] pool'] (Ho & Hrel & Hp). cbn in Ho. rewrite Ho.
  eapply runs_bind; [apply (toBindings_runs idx)|].
  - pose proof (br_fixed _ _ Hrel) as E. unfold fixed_part in E. congruence.
  - intros b. unfold QueryMulti_spec. rewrite elem_of_app. intros [Hb|Hb]; [by eapply scan_has_key|].
    destruct denies; [|by apply elem_of_nil in Hb]. by eapply synthetic_has_key, denies_elem.
  - intros out Hout. by rret.
Qed.
End spec.
