(* ===== verification/Index.v ===== *)
(** The rule index: [Index] of [src/internal/ruletable/index/index.go].
    Adding rule rows, deleting the rows of a policy, and parent roles.

    [FunctionalCore.origins] and [RowParams.refcount] are written through shared
    pointers; the fields [origins] and [refcounts] are that part of the heap, and
    [next_ref] the next unused cell. *)
From S2P Require Import Prelude GoRuntime Bitmap BitmapOps BitmapIter Arena LazyDim Dimension GlobDim Namer Policy IndexCore IndexQuery.

Open Scope nat_scope.

Section index.
Context `{GlobEngine} `{CelCompiler} `{GoMapOrder} `{ContentHash}.

Record Index := MkIdx {
  bi : bitmapIndex;
  parentRoles : gmap string (gmap string (list string));
  paramsCache : gmap N RowParams;
  drParamsCache : gmap N RowParams;
  origins : gmap N (gset string);
  refcounts : gmap N Z;
  next_ref : N;
}.

Definition New : Index := MkIdx newBitmapIndex ∅ ∅ ∅ ∅ ∅ 0.

Definition set_bi (x : bitmapIndex) (m : Index) : Index :=
  MkIdx x (parentRoles m) (paramsCache m) (drParamsCache m) (origins m) (refcounts m) (next_ref m).
Definition set_parentRoles (p : gmap string (gmap string (list string))) (m : Index) : Index :=
  MkIdx (bi m) p (paramsCache m) (drParamsCache m) (origins m) (refcounts m) (next_ref m).
Definition set_origins (o : gmap N (gset string)) (m : Index) : Index :=
  MkIdx (bi m) (parentRoles m) (paramsCache m) (drParamsCache m) o (refcounts m) (next_ref m).
Definition set_params (p dp : gmap N RowParams) (rc : gmap N Z) (next : N) (m : Index) : Index :=
  MkIdx (bi m) (parentRoles m) p dp (origins m) rc next.

(** * Parameters *)

(** Errors are the message of the CEL compiler. *)
Definition getCelProgramsFromExpressions (vars : list Variable_) : option (list CelProgram) :=
  mapM (λ v, p ← cel_compile (Original (var_Expr v)); Some (MkProgram p (var_Name v) (Original (var_Expr v)))) vars.

(** [getOrGenerateParams]: the cache after the call, and the parameters or [None]
    when an expression does not compile. *)
Definition getOrGenerateParams (cache : gmap N RowParams) (proto : option Params) (rc : gmap N Z) (next : N) :
    option RowParams * gmap N RowParams * gmap N Z * N :=
  let h := hash_params proto in
  match cache !! h with
  | Some cached => (Some cached, cache, rc, next)
  | None =>
      let vars := match proto with Some p => OrderedVariables p | None => [] end in
      let constants := match proto with Some p => pm_Constants p | None => ∅ end in
      match getCelProgramsFromExpressions vars with
      | None => (None, cache, rc, next)
      | Some progs =>
          let params := MkRowParams constants progs vars h next in
          (Some params, <[h := params]> cache, <[next := 0%Z]> rc, (next + 1)%N)
      end
  end.

Definition addRef (p : option RowParams) (rc : gmap N Z) : gmap N Z :=
  match p with
  | None => rc
  | Some p => <[rp_ref p := (default 0 (rc !! rp_ref p) + 1)%Z]> rc
  end.

Definition removeRef (p : option RowParams) (m : gmap N RowParams) (rc : gmap N Z) : gmap N RowParams * gmap N Z :=
  match p with
  | None => (m, rc)
  | Some p =>
      let n := (default 0 (rc !! rp_ref p) - 1)%Z in
      let rc := <[rp_ref p := n]> rc in
      (if decide (n ≤ 0)%Z then delete (rp_Key p) m else m, rc)
  end.

(** * Adding rule rows *)

(** The checksum of a row: its functional fields, then the discriminator byte. *)
Definition condDisc (rule : RuleRow) : N :=
  N.lor (match r_Condition rule with Some _ => 1 | None => 0 end)
        (match r_DerivedRoleCondition rule with Some _ => 2 | None => 0 end).
Definition funcSum (rule : RuleRow) : N := hash_functional (functionalRuleRowFields rule) (condDisc rule).

(** The parameters of a row: [inl] them, or [inr] when one does not compile. *)
Definition rule_params (m : Index) (rule : RuleRow) : (option RowParams * option RowParams + unit) * Index :=
  match r_PolicyKind rule with
  | KIND_RESOURCE =>
      let '(p, pc, rc, next) := getOrGenerateParams (paramsCache m) (r_Params rule) (refcounts m) (next_ref m) in
      let m := set_params pc (drParamsCache m) rc next m in
      match p with
      | None => (inr (), m)
      | Some p =>
          if decide (r_OriginDerivedRole rule ≠ ""%string) then
            let '(drp, dc, rc, next) := getOrGenerateParams (drParamsCache m) (r_DerivedRoleParams rule) (refcounts m) (next_ref m) in
            let m := set_params (paramsCache m) dc rc next m in
            match drp with
            | None => (inr (), m)
            | Some drp => (inl (Some p, Some drp), m)
            end
          else (inl (Some p, None), m)
      end
  | KIND_PRINCIPAL =>
      let '(p, pc, rc, next) := getOrGenerateParams (paramsCache m) (r_Params rule) (refcounts m) (next_ref m) in
      let m := set_params pc (drParamsCache m) rc next m in
      match p with
      | None => (inr (), m)
      | Some p => (inl (Some p, None), m)
      end
  | _ => (inl (None, None), m)
  end.

(** The functional core of a row: the existing one, or a new one. *)
Definition rule_core (m : Index) (rule : RuleRow) (params drParams : option RowParams) : FunctionalCore * Index :=
  let s := funcSum rule in
  match coresBySum (bi m) !! s with
  | Some core => (core, m)
  | None =>
      let core := MkCore (r_Condition rule) (r_DerivedRoleCondition rule) (r_EmitOutput rule) params drParams
        (Some (next_ref m)) s (r_Effect rule) (r_ScopePermissions rule) (r_PolicyKind rule) (r_FromRolePolicy rule) in
      let rc := addRef drParams (addRef params (refcounts m)) in
      (core, MkIdx (set_coresBySum (<[s := core]> (coresBySum (bi m))) (bi m)) (parentRoles m) (paramsCache m)
         (drParamsCache m) (<[next_ref m := ∅]> (origins m)) rc (next_ref m + 1))
  end.

(** Recording an origin in the core's set; writing to a nil map panics. *)
Definition add_origin (m : Index) (core : FunctionalCore) (fqn : string) : option Index :=
  match co_origins core with
  | None => None
  | Some o => Some (set_origins (<[o := {[fqn]} ∪ default ∅ (origins m !! o)]> (origins m)) m)
  end.

Definition rule_binding (rule : RuleRow) (core : FunctionalCore) : BindingHandle :=
  let b := MkBinding (mkStringHandle (r_Resource rule)) (mkStringHandle (r_OriginDerivedRole rule)) EmptyHandle
    (mkStringHandle (r_Role rule)) (mkStringHandle (r_Scope rule)) (mkStringHandle (r_Version rule))
    (mkStringHandle (r_Principal rule)) (mkStringHandle (r_Name rule)) None (mkStringHandle (r_OriginFqn rule))
    core [] 0 false in
  match r_ActionSet rule with
  | ActionSet_AllowActions actions => setAllowActions b (set_range actions)
  | ActionSet_Action a => set_Action b (mkStringHandle a)
  | ActionSet_none => b
  end.

(** [IndexRule]: the flag is false when an error is returned; what was cached
    before the error stays cached. *)
Definition IndexRule (m : Index) (rule : RuleRow) : option (Index * bool) :=
  let '(r, m) := rule_params m rule in
  match r with
  | inr _ => Some (m, false)
  | inl (params, drParams) =>
      let '(core, m) := rule_core m rule params drParams in
      m ← add_origin m core (r_OriginFqn rule);
      x ← addBinding (bi m) (rule_binding rule core) (makeEvaluationKeyTuple (r_EvaluationKeyTuple rule) (r_EvaluationKey rule));
      Some (set_bi x m, true)
  end.

Fixpoint IndexRules (m : Index) (rules : list RuleRow) : option (Index * bool) :=
  match rules with
  | [] => Some (m, true)
  | rule :: rules =>
      '(m, ok) ← IndexRule m rule;
      if (ok : bool) then IndexRules m rules else Some (m, false)
  end.

Definition GetAllRows (m : Index) : list BindingHandle := omap id (bindings (bi m)).

Definition Index_Compact (m : Index) : option Index :=
  x ← bitmapIndex_compact (bi m); Some (set_bi x m).

(** * Deleting a policy *)

Definition delete_origin (m : Index) (core : FunctionalCore) (fqn : string) : Index :=
  match co_origins core with
  | None => m
  | Some o => set_origins (<[o := default ∅ (origins m !! o) ∖ {[fqn]}]> (origins m)) m
  end.

Definition origins_of (m : Index) (core : FunctionalCore) : gset string :=
  match co_origins core with None => ∅ | Some o => default ∅ (origins m !! o) end.

(** Dropping a core whose last origin has gone. *)
Definition drop_core (m : Index) (core : FunctionalCore) : Index :=
  match coresBySum (bi m) !! co_sum core with
  | None => m
  | Some _ =>
      let x := set_coresBySum (delete (co_sum core) (coresBySum (bi m))) (bi m) in
      let '(pc, rc) := removeRef (co_Params core) (paramsCache m) (refcounts m) in
      let '(dc, rc) := removeRef (co_DerivedRoleParams core) (drParamsCache m) rc in
      MkIdx x (parentRoles m) pc dc (origins m) rc (next_ref m)
  end.

Definition delete_binding (fqn : string) (m : Index) (id : N) : option Index :=
  ob ← getBinding (bi m) id;
  match ob with
  | None => Some m
  | Some b =>
      let m := delete_origin m (bh_Core b) fqn in
      x ← removeBinding (bi m) b;
      let m := set_bi x m in
      Some (if decide (size (origins_of m (bh_Core b)) = 0) then drop_core m (bh_Core b) else m)
  end.

Definition DeletePolicy (m : Index) (fqn : string) : option Index :=
  if decide (fqn = ""%string) then Some m
  else
    match fqnDimension_Get (fqnBindings (bi m)) fqn with
    | None => Some m
    | Some ids =>
        m ← foldM (delete_binding fqn) m ids;
        Some (set_bi (set_fqnBindings (fqnDimension_Delete (fqnBindings (bi m)) fqn) (bi m)) m)
    end.

(** * Parent roles *)

(** [scopeParentRoles]: per scope (nil messages are [None]), the declared parents of each role. *)
Definition ScopeParentRoles : Type := gmap string (option (gmap string (list string))).

(** [collectParentRoles]: depth-first, with the roles already visited.  Each
    nested call that does not return at once visits a role for the first time;
    [fuel] bounds the depth by the number of roles that can be visited. *)
Fixpoint collectParentRoles (fuel : nat) (spr : ScopeParentRoles) (scope role : string)
    (parentRoleSet visited : gset string) : option (gset string * gset string) :=
  match fuel with
  | O => None
  | S fuel =>
      if decide (role ∈ visited) then Some (parentRoleSet, visited)
      else
        let visited := {[role]} ∪ visited in
        match mjoin (spr !! scope) with
        | None => Some (parentRoleSet, visited)
        | Some parentRoles =>
            match parentRoles !! role with
            | None => Some (parentRoleSet, visited)
            | Some prs =>
                foldM (λ '(parentRoleSet, visited) pr,
                  collectParentRoles fuel spr scope pr ({[pr]} ∪ parentRoleSet) visited)
                  (parentRoleSet, visited) prs
            end
        end
  end.

(** The declared roles and their parents: all the roles a traversal can visit. *)
Definition all_roles (pr : gmap string (list string)) : gset string :=
  dom pr ∪ ⋃ (list_to_set <$> (map_to_list pr).*2).

Definition role_fuel (pr : gmap string (list string)) : nat := S (S (size (all_roles pr))).

Definition compileParentRoleAncestors (spr : ScopeParentRoles) : option (gmap string (gmap string (list string))) :=
  foldM (λ compiled '(scope, opr),
    match opr with
    | None => Some compiled
    | Some pr =>
        roles ← foldM (λ acc '(role, _),
          '(set, _) ← collectParentRoles (role_fuel pr) spr scope role ∅ ∅;
          Some (<[role := set_range set]> acc)) ∅ (go_range pr);
        Some (<[scope := roles]> compiled)
    end) ∅ (go_range spr).

Definition IndexParentRoles (m : Index) (spr : ScopeParentRoles) : option Index :=
  p ← compileParentRoleAncestors spr; Some (set_parentRoles p m).

Definition AddParentRoles (m : Index) (scopes roles : list string) : list string :=
  if decide (size (parentRoles m) = 0) then roles
  else
    let merged := foldl (λ merged scope,
      match parentRoles m !! scope with
      | None => merged
      | Some c => foldl (λ merged '(role, parents), <[role := default [] (merged !! role) ++ parents]> merged) merged (go_range c)
      end) (∅ : gmap string (list string)) scopes in
    if decide (size merged = 0) then roles
    else roles ++ flat_map (λ role, default [] (merged !! role)) roles.
End index.
