(* ===== verification/IndexSpec.v ===== *)
(** The rule index as a table of rule rows.

    [implements m rows] relates an index to the abstract table it stands for: a
    finite map from identifiers to rule rows.  [IndexRule] adds one row under an
    unused identifier, [DeletePolicy] removes exactly the rows of one policy, and
    both keep the functional cores that rows share, the sets of origins of those
    cores and the reference counts of their parameters consistent. *)
From S2P Require Import Prelude GoRuntime Bitmap BitmapOps BitmapIter Arena LazyDim Dimension GlobDim Namer Policy IndexCore IndexQuery IndexQuerySpec Index.

Open Scope nat_scope.

Lemma default_some {A} (x y : A) : default x (Some y) = y.
Proof. done. Qed.

Section spec.
Context `{GlobEngine} `{CelCompiler} `{GoMapOrder} `{ContentHash}.

(** The rows that are ever added.  The index identifies cores and parameters by
    a 64-bit hash of their contents, so the rows in play must not collide; and a
    row has a derived role condition only if it comes from a derived role. *)
Context (known : RuleRow → Prop).
Definition known_params (proto : option Params) : Prop :=
  ∃ r, known r ∧ (proto = r_Params r ∨ proto = r_DerivedRoleParams r).
Record no_collisions : Prop := {
  nc_sum : ∀ r r', known r → known r' → funcSum r = funcSum r' → functionalRuleRowFields r = functionalRuleRowFields r';
  nc_params : ∀ p p', known_params p → known_params p' → hash_params p = hash_params p' → p = p';
  nc_derived : ∀ r, known r → r_DerivedRoleCondition r ≠ None → r_OriginDerivedRole r ≠ ""%string;
}.
Context (Hnc : no_collisions).

(** * What parameters and cores hold *)

Definition proto_vars (proto : option Params) : list Variable_ := match proto with Some p => OrderedVariables p | None => [] end.
Definition proto_constants (proto : option Params) : gmap string Value := match proto with Some p => pm_Constants p | None => ∅ end.

(** [p] is what compiling [proto] gives. *)
Record params_for (proto : option Params) (p : RowParams) : Prop := {
  pf_key : rp_Key p = hash_params proto;
  pf_vars : rp_Variables p = proto_vars proto;
  pf_constants : rp_Constants p = proto_constants proto;
  pf_progs : getCelProgramsFromExpressions (proto_vars proto) = Some (rp_CelPrograms p);
}.

(** [core] is the functional part of [r]. *)
Record core_of (r : RuleRow) (core : FunctionalCore) : Prop := {
  cof_sum : co_sum core = funcSum r;
  cof_cond : co_Condition core = r_Condition r;
  cof_dr_cond : co_DerivedRoleCondition core = r_DerivedRoleCondition r;
  cof_output : co_EmitOutput core = r_EmitOutput r;
  cof_effect : co_Effect core = r_Effect r;
  cof_sp : co_ScopePermissions core = r_ScopePermissions r;
  cof_kind : co_PolicyKind core = r_PolicyKind r;
  cof_role_policy : co_FromRolePolicy core = r_FromRolePolicy r;
  cof_params :
    if decide (r_PolicyKind r = KIND_RESOURCE ∨ r_PolicyKind r = KIND_PRINCIPAL)
    then ∃ p, co_Params core = Some p ∧ params_for (r_Params r) p else co_Params core = None;
  cof_dr_params : r_PolicyKind r = KIND_RESOURCE → r_DerivedRoleCondition r ≠ None →
    ∃ p, co_DerivedRoleParams core = Some p ∧ params_for (r_DerivedRoleParams r) p;
}.

Lemma core_of_same r r' core :
  known r → known r' → funcSum r = funcSum r' → core_of r core → core_of r' core.
Proof using Hnc.
  intros Hk Hk' Hs Hc. pose proof (nc_sum Hnc _ _ Hk Hk' Hs) as E.
  injection E as E1 E2 E3 E4 E5 E6 E7 E8 E9. destruct Hc. split; try congruence.
  - rewrite <-E8, <-E6. done.
  - rewrite <-E8, <-E2, <-E7. done.
Qed.

(** * Parameter caches *)

Section caches.
Context (sel : FunctionalCore → option RowParams).

Definition uses (ref : N) (x : N * FunctionalCore) : Prop := rp_ref <$> sel x.2 = Some ref.
#[local] Instance uses_dec ref x : Decision (uses ref x) := ltac:(unfold uses; apply _).
(** How many cores refer to the parameters at [ref]. *)
Definition uses_count (ref : N) (cores : gmap N FunctionalCore) : Z := Z.of_nat (size (filter (uses ref) cores)).

(** A cache holds what its keys stand for; it holds the parameters of every
    core; and each entry's reference count is the number of those cores. *)
Record cache_ok (cache : gmap N RowParams) (rc : gmap N Z) (next : N) (cores : gmap N FunctionalCore) : Prop := {
  ca_key : ∀ h p, cache !! h = Some p → rp_Key p = h ∧ (rp_ref p < next)%N ∧ ∃ proto, known_params proto ∧ params_for proto p;
  ca_inj : ∀ h h' p p', cache !! h = Some p → cache !! h' = Some p' → rp_ref p = rp_ref p' → h = h';
  ca_used : ∀ s core p, cores !! s = Some core → sel core = Some p → cache !! rp_Key p = Some p;
  ca_count : ∀ h p, cache !! h = Some p → rc !! rp_ref p = Some (uses_count (rp_ref p) cores);
}.

Lemma uses_count_insert ref s core cores :
  cores !! s = None →
  uses_count ref (<[s := core]> cores) = ((if decide (rp_ref <$> sel core = Some ref) then 1 else 0) + uses_count ref cores)%Z.
Proof.
  intros Hs. unfold uses_count. rewrite map_filter_insert. unfold uses at 1. cbn [snd].
  case_decide.
  - rewrite map_size_insert_None by (apply map_lookup_filter_None; by left).
    rewrite decide_True by done. lia.
  - rewrite map_filter_delete, delete_id by (apply map_lookup_filter_None; by left).
    rewrite decide_False by done. lia.
Qed.

Lemma uses_count_delete ref s core cores :
  cores !! s = Some core →
  uses_count ref (delete s cores) = (uses_count ref cores - (if decide (rp_ref <$> sel core = Some ref) then 1 else 0))%Z.
Proof.
  intros Hs. rewrite <-(insert_delete_id cores s core Hs) at 2.
  rewrite uses_count_insert by apply lookup_delete_eq. lia.
Qed.

Lemma uses_count_pos ref s core cores :
  cores !! s = Some core → rp_ref <$> sel core = Some ref → (0 < uses_count ref cores)%Z.
Proof.
  intros Hs Hu. unfold uses_count. assert (size (filter (uses ref) cores) ≠ 0); [|lia].
  intros E%map_size_empty_inv. assert (filter (uses ref) cores !! s = Some core) as Hl
    by (by apply map_lookup_filter_Some). rewrite E in Hl. done.
Qed.

Lemma uses_count_fresh cache rc next cores : cache_ok cache rc next cores → uses_count next cores = 0%Z.
Proof.
  intros Hc. unfold uses_count. rewrite map_empty_filter_2; [done|].
  intros s core Hs. unfold uses. cbn. destruct (sel core) as [p|] eqn:E; [|done]. cbn. intros [= Hr].
  pose proof (ca_used _ _ _ _ Hc _ _ _ Hs E) as Hp. apply (ca_key _ _ _ _ Hc) in Hp. lia.
Qed.

(** Allocating a cell elsewhere. *)
Lemma cache_ok_alloc cache rc next cores x :
  cache_ok cache rc next cores → cache_ok cache (<[next := x]> rc) (next + 1) cores.
Proof.
  intros Hc. split.
  - intros h p Hp. destruct (ca_key _ _ _ _ Hc _ _ Hp) as (? & ? & ?). split_and!; [done|lia|done].
  - apply Hc.
  - apply Hc.
  - intros h p Hp. rewrite lookup_insert_ne; [by eapply Hc|]. apply (ca_key _ _ _ _ Hc) in Hp. lia.
Qed.

(** Changing the count of a cell that is not in this cache. *)
Lemma cache_ok_other cache rc next cores ref x :
  cache_ok cache rc next cores → (∀ h p, cache !! h = Some p → rp_ref p ≠ ref) →
  cache_ok cache (<[ref := x]> rc) next cores.
Proof.
  intros Hc Hne. split; [apply Hc..|]. intros h p Hp. rewrite lookup_insert_ne; [by eapply Hc|].
  intros E. by apply (Hne _ _ Hp).
Qed.

Lemma cache_ok_next cache rc next next' cores :
  cache_ok cache rc next cores → (next ≤ next')%N → cache_ok cache rc next' cores.
Proof.
  intros Hc Hle. split; [|apply Hc..]. intros h p Hp.
  destruct (ca_key _ _ _ _ Hc _ _ Hp) as (? & ? & ?). split_and!; [done|lia|done].
Qed.

(** A new entry, not used yet. *)
Lemma cache_ok_new cache rc next cores p proto :
  cache_ok cache rc next cores → cache !! rp_Key p = None → rp_ref p = next → known_params proto → params_for proto p →
  cache_ok (<[rp_Key p := p]> cache) (<[next := 0%Z]> rc) (next + 1) cores.
Proof.
  intros Hc Hnone Href Hkp Hp. pose proof (cache_ok_alloc _ _ _ _ 0%Z Hc) as Hc'. split.
  - intros h q [[<- <-]|[_ Hq]]%lookup_insert_Some; [|by apply (ca_key _ _ _ _ Hc')].
    split_and!; [done|lia|by exists proto].
  - intros h h' q q' [[<- <-]|[Hh Hq]]%lookup_insert_Some [[<- <-]|[Hh' Hq']]%lookup_insert_Some E; [done|..|by eapply Hc].
    + apply (ca_key _ _ _ _ Hc) in Hq'. lia.
    + apply (ca_key _ _ _ _ Hc) in Hq. lia.
  - intros s core q Hs Hq. pose proof (ca_used _ _ _ _ Hc _ _ _ Hs Hq) as Hl. rewrite lookup_insert_ne; [done|]. congruence.
  - intros h q [[<- <-]|[_ Hq]]%lookup_insert_Some; [|by apply (ca_count _ _ _ _ Hc' _ _ Hq)].
    rewrite Href, lookup_insert_eq. f_equal. symmetry. by eapply uses_count_fresh.
Qed.

Lemma getOrGenerateParams_spec cache rc next cores proto :
  cache_ok cache rc next cores → known_params proto →
  let '(op, cache', rc', next') := getOrGenerateParams cache proto rc next in
  cache_ok cache' rc' next' cores ∧
  match op with
  | None => getCelProgramsFromExpressions (proto_vars proto) = None ∧ cache' = cache ∧ rc' = rc ∧ next' = next
  | Some p => params_for proto p ∧ cache' !! rp_Key p = Some p ∧
      (cache' = cache ∧ rc' = rc ∧ next' = next ∨ rp_ref p = next ∧ rc' = <[next := 0%Z]> rc ∧ next' = (next + 1)%N ∧
        ∀ h q, cache' !! h = Some q → q = p ∨ cache !! h = Some q)
  end.
Proof using Hnc.
  intros Hc Hkp. unfold getOrGenerateParams. destruct (cache !! hash_params proto) as [p|] eqn:E.
  - split; [done|]. destruct (ca_key _ _ _ _ Hc _ _ E) as (Hk & _ & proto' & Hkp' & Hp).
    assert (proto' = proto) as -> by (apply (nc_params Hnc); [done..|]; by rewrite <-(pf_key _ _ Hp)).
    split_and!; [done|by rewrite Hk|by left].
  - fold (proto_vars proto). fold (proto_constants proto).
    destruct (getCelProgramsFromExpressions (proto_vars proto)) as [progs|] eqn:Ep; [|by split_and!].
    set (p := MkRowParams _ _ _ _ _). split_and!.
    + by apply (cache_ok_new cache rc next cores p proto).
    + by split.
    + by rewrite lookup_insert_eq.
    + right. split_and!; [done..|]. intros h q [[_ <-]|[_ ?]]%lookup_insert_Some; auto.
Qed.

(** A new core takes a reference to its parameters. *)
Lemma cache_ok_addRef cache rc next cores s core :
  cache_ok cache rc next cores → cores !! s = None → (∀ p, sel core = Some p → cache !! rp_Key p = Some p) →
  cache_ok cache (addRef (sel core) rc) next (<[s := core]> cores).
Proof.
  intros Hc Hs Hin. split.
  - apply Hc.
  - apply Hc.
  - intros s' core' p [[<- <-]|[_ Hs']]%lookup_insert_Some Hp; [by apply Hin|by eapply Hc].
  - intros h p Hp. rewrite uses_count_insert by done. unfold addRef. destruct (sel core) as [q|]; cbn.
    + destruct (decide (rp_ref q = rp_ref p)) as [E|E].
      * rewrite E, lookup_insert_eq, (ca_count _ _ _ _ Hc _ _ Hp), decide_True by congruence. cbn. f_equal. lia.
      * rewrite lookup_insert_ne by done. rewrite decide_False by congruence. by eapply Hc.
    + rewrite decide_False by done. by eapply Hc.
Qed.

(** Dropping a core releases its reference; the entry goes with the last one. *)
Lemma cache_ok_removeRef cache rc next cores s core :
  cache_ok cache rc next cores → cores !! s = Some core →
  let '(cache', rc') := removeRef (sel core) cache rc in
  cache_ok cache' rc' next (delete s cores) ∧ (∀ h p, cache' !! h = Some p → cache !! h = Some p).
Proof.
  intros Hc Hs. unfold removeRef. destruct (sel core) as [q|] eqn:Eq.
  - pose proof (ca_used _ _ _ _ Hc _ _ _ Hs Eq) as Hq. rewrite (ca_count _ _ _ _ Hc _ _ Hq). cbn [default from_option id].
    set (n := uses_count (rp_ref q) cores). set (cache' := if decide _ then _ else _).
    assert (∀ h p, cache' !! h = Some p → cache !! h = Some p) as Hsub.
    { unfold cache'. intros h p. case_decide; [|done]. by intros [_ ?]%lookup_delete_Some. }
    split; [split|done].
    + intros h p Hp. by apply (ca_key _ _ _ _ Hc), Hsub.
    + intros h h' p p' Hp Hp'. apply (ca_inj _ _ _ _ Hc); auto.
    + intros s' core' p [Hne Hs']%lookup_delete_Some Hp. pose proof (ca_used _ _ _ _ Hc _ _ _ Hs' Hp) as Hl.
      unfold cache'. case_decide as Hle; [|done]. apply lookup_delete_Some. split; [|done]. intros E.
      assert (p = q) as -> by congruence.
      pose proof (uses_count_pos (rp_ref q) s' core' (delete s cores)) as Hpos.
      rewrite lookup_delete_ne in Hpos by done. rewrite (uses_count_delete _ _ core) in Hpos by done.
      rewrite Eq, decide_True in Hpos by done. rewrite Hp in Hpos. specialize (Hpos Hs' eq_refl). unfold n in Hle. lia.
    + intros h p Hp%Hsub. rewrite (uses_count_delete _ _ core), Eq by done. cbn.
      destruct (decide (rp_ref q = rp_ref p)) as [E|E].
      * rewrite E, lookup_insert_eq, decide_True by congruence. unfold n. by rewrite E.
      * rewrite lookup_insert_ne, decide_False by congruence. rewrite Z.sub_0_r. by eapply Hc.
  - split; [|done]. split; [apply Hc..| |].
    + intros s' core' p [_ Hs']%lookup_delete_Some. by eapply Hc.
    + intros h p Hp. rewrite (uses_count_delete _ _ core), Eq, decide_False, Z.sub_0_r by done. by eapply Hc.
Qed.
End caches.

(** * The invariant *)

Record caches_ok (m : Index) : Prop := {
  co_params_ok : cache_ok co_Params (paramsCache m) (refcounts m) (next_ref m) (coresBySum (bi m));
  co_dr_params_ok : cache_ok co_DerivedRoleParams (drParamsCache m) (refcounts m) (next_ref m) (coresBySum (bi m));
  co_disjoint : ∀ h h' p p', paramsCache m !! h = Some p → drParamsCache m !! h' = Some p' → rp_ref p ≠ rp_ref p';
}.

Definition row_key (r : RuleRow) : EvaluationKeyTuple := makeEvaluationKeyTuple (r_EvaluationKeyTuple r) (r_EvaluationKey r).

(** A row with functional checksum [s] that comes from the policy [f]. *)
Definition origin_row (rows : gmap N RuleRow) (s : N) (f : string) : Prop :=
  ∃ id r, rows !! id = Some r ∧ funcSum r = s ∧ r_OriginFqn r = f.

(** The origins of the core with checksum [s]: those of its rows, except that
    policies being deleted ([dying]) may be missing. *)
Record core_ok (dying : string → Prop) (og : gmap N (gset string)) (next : N) (rows : gmap N RuleRow)
    (s : N) (core : FunctionalCore) : Prop := {
  ck_sum : co_sum core = s;
  ck_origins : ∃ o X, co_origins core = Some o ∧ (o < next)%N ∧ og !! o = Some X ∧
    ∀ f, (f ∈ X → origin_row rows s f) ∧ (¬ dying f → origin_row rows s f → f ∈ X);
}.

(** [cm] holds the cores of all rows; [coresBySum] those that are still registered. *)
Record rows_ok (dying : string → Prop) (x : bitmapIndex) (og : gmap N (gset string)) (next : N)
    (cm : gmap N FunctionalCore) (rows : gmap N RuleRow) : Prop := {
  ro_known : ∀ id r, rows !! id = Some r → known r;
  ro_none : ∀ id, rows !! id = None → lv x id = None;
  ro_row : ∀ id r, rows !! id = Some r → ∃ core, cm !! funcSum r = Some core ∧ core_of r core ∧
    lv x id = Some (set_ID (rule_binding r core) id) ∧ evalKeys x !! N.to_nat id = Some (row_key r);
  ro_sub : ∀ s core, coresBySum x !! s = Some core → cm !! s = Some core ∧
    ∃ o X, co_origins core = Some o ∧ og !! o = Some X ∧ X ≠ ∅;
  ro_kept : ∀ id r, rows !! id = Some r → ¬ dying (r_OriginFqn r) → coresBySum x !! funcSum r = cm !! funcSum r;
  ro_core : ∀ s core, cm !! s = Some core → core_ok dying og next rows s core;
  ro_inj : ∀ s s' core core', cm !! s = Some core → cm !! s' = Some core' → co_origins core = co_origins core' → s = s';
}.

Definition nobody (f : string) : Prop := False.

(** The index [m] holds exactly the rows [rows]. *)
Record implements (m : Index) (rows : gmap N RuleRow) : Prop := {
  im_bi : bi_ok (bi m);
  im_fqn : fqn_ok (bi m);
  im_rows : rows_ok nobody (bi m) (origins m) (next_ref m) (coresBySum (bi m)) rows;
  im_caches : caches_ok m;
}.

Lemma New_implements : implements New ∅.
Proof.
  split; [apply newBitmapIndex_ok..| |].
  - by split.
  - split; [split; done..|done].
Qed.

(** * Adding a row *)

(** The expressions of the row's variables compile. *)
Definition row_compiles (r : RuleRow) : Prop :=
  match r_PolicyKind r with
  | KIND_RESOURCE => is_Some (getCelProgramsFromExpressions (proto_vars (r_Params r))) ∧
      (r_OriginDerivedRole r ≠ ""%string → is_Some (getCelProgramsFromExpressions (proto_vars (r_DerivedRoleParams r))))
  | KIND_PRINCIPAL => is_Some (getCelProgramsFromExpressions (proto_vars (r_Params r)))
  | _ => True
  end.

Record params_of_row (m : Index) (r : RuleRow) (p dp : option RowParams) : Prop := {
  pr_params : if decide (r_PolicyKind r = KIND_RESOURCE ∨ r_PolicyKind r = KIND_PRINCIPAL)
    then ∃ q, p = Some q ∧ params_for (r_Params r) q else p = None;
  pr_dr : r_PolicyKind r = KIND_RESOURCE → r_OriginDerivedRole r ≠ ""%string → ∃ q, dp = Some q ∧ params_for (r_DerivedRoleParams r) q;
  pr_in : ∀ q, p = Some q → paramsCache m !! rp_Key q = Some q;
  pr_dr_in : ∀ q, dp = Some q → drParamsCache m !! rp_Key q = Some q;
  pr_compiles : row_compiles r;
}.

(** What [rule_params] leaves alone. *)
Record same_rows (m m' : Index) : Prop := {
  sr_bi : bi m' = bi m;
  sr_origins : origins m' = origins m;
  sr_next : (next_ref m ≤ next_ref m')%N;
  sr_parents : parentRoles m' = parentRoles m;
}.

Lemma same_rows_trans m m' m'' : same_rows m m' → same_rows m' m'' → same_rows m m''.
Proof. intros [] []. split; [congruence..|lia|congruence]. Qed.

Lemma main_params_spec m r :
  caches_ok m → known r →
  let '(op, pc, rc, next) := getOrGenerateParams (paramsCache m) (r_Params r) (refcounts m) (next_ref m) in
  let m' := set_params pc (drParamsCache m) rc next m in
  caches_ok m' ∧ same_rows m m' ∧
  match op with
  | None => getCelProgramsFromExpressions (proto_vars (r_Params r)) = None
  | Some p => params_for (r_Params r) p ∧ pc !! rp_Key p = Some p
  end.
Proof using Hnc.
  intros [Hp Hd Hdis] Hk.
  pose proof (getOrGenerateParams_spec co_Params _ _ _ _ (r_Params r) Hp ltac:(exists r; auto)) as Hg.
  destruct (getOrGenerateParams _ _ _ _) as [[[[p|] pc] rc] next]; destruct Hg as [Hc Hres].
  - destruct Hres as (Hpf & Hin & [(-> & -> & ->)|(Href & -> & -> & Hsub)]).
    + split; [by split|]. split; [by split|done].
    + split; [split|split; [split; [done..|cbn [next_ref set_params]; lia|done]|done]].
      * done.
      * by apply cache_ok_alloc.
      * intros h h' q q' Hq Hq'. destruct (Hsub _ _ Hq) as [->|Hq2]; [|by eapply Hdis].
        apply (ca_key _ _ _ _ _ Hd) in Hq'. lia.
  - destruct Hres as (Hn & -> & -> & ->). split; [by split|]. split; [by split|done].
Qed.

Lemma dr_params_spec m r :
  caches_ok m → known r →
  let '(op, dc, rc, next) := getOrGenerateParams (drParamsCache m) (r_DerivedRoleParams r) (refcounts m) (next_ref m) in
  let m' := set_params (paramsCache m) dc rc next m in
  caches_ok m' ∧ same_rows m m' ∧
  match op with
  | None => getCelProgramsFromExpressions (proto_vars (r_DerivedRoleParams r)) = None
  | Some p => params_for (r_DerivedRoleParams r) p ∧ dc !! rp_Key p = Some p
  end.
Proof using Hnc.
  intros [Hp Hd Hdis] Hk.
  pose proof (getOrGenerateParams_spec co_DerivedRoleParams _ _ _ _ (r_DerivedRoleParams r) Hd ltac:(exists r; auto)) as Hg.
  destruct (getOrGenerateParams _ _ _ _) as [[[[p|] dc] rc] next]; destruct Hg as [Hc Hres].
  - destruct Hres as (Hpf & Hin & [(-> & -> & ->)|(Href & -> & -> & Hsub)]).
    + split; [by split|]. split; [by split|done].
    + split; [split|split; [split; [done..|cbn [next_ref set_params]; lia|done]|done]].
      * by apply cache_ok_alloc.
      * done.
      * intros h h' q q' Hq Hq'. destruct (Hsub _ _ Hq') as [->|Hq2]; [|by eapply Hdis].
        apply (ca_key _ _ _ _ _ Hp) in Hq. lia.
  - destruct Hres as (Hn & -> & -> & ->). split; [by split|]. split; [by split|done].
Qed.

Lemma rule_params_spec m r :
  caches_ok m → known r →
  let '(res, m') := rule_params m r in
  caches_ok m' ∧ same_rows m m' ∧
  match res with
  | inr _ => ¬ row_compiles r
  | inl (p, dp) => params_of_row m' r p dp
  end.
Proof using Hnc.
  intros Hc Hk. pose proof (main_params_spec m r Hc Hk) as Hm. unfold rule_params, row_compiles.
  destruct (r_PolicyKind r) eqn:Ek;
    try (split_and!; [done|split; done|]; split; rewrite ?Ek; [rewrite decide_False by naive_solver; done|done..|unfold row_compiles; by rewrite Ek]).
  - destruct (getOrGenerateParams _ _ _ _) as [[[[p|] pc] rc] next]; destruct Hm as (Hc1 & Hs & Hres); cbn zeta in *; [|split_and!; [done..|]].
    + split_and!; [done..|]. destruct Hres as [Hpf Hin].
      split; rewrite ?Ek; [rewrite decide_True by auto; by exists p|done|by intros q [= <-]|done|].
      unfold row_compiles. rewrite Ek. eexists. by apply Hpf.
    + rewrite Hres. by intros [? ?].
  - destruct (getOrGenerateParams (paramsCache m) _ _ _) as [[[[p|] pc] rc] next]; destruct Hm as (Hc1 & Hs & Hres); cbn zeta in *; [|split_and!; [done..|]].
    + destruct Hres as [Hpf Hin]. case_decide as Ed.
      * pose proof (dr_params_spec _ r Hc1 Hk) as Hd.
        destruct (getOrGenerateParams _ _ _ _) as [[[[q|] dc] rc'] next']; destruct Hd as (Hc2 & Hs2 & Hres2).
        -- destruct Hres2 as [Hqf Hqin]. split_and!; [done|by eapply same_rows_trans|].
           split; rewrite ?Ek; [rewrite decide_True by auto; by exists p|intros _ _; by exists q|by intros ? [= <-]|by intros ? [= <-]|].
           unfold row_compiles. rewrite Ek. split; [|intros _]; eexists; [apply Hpf|apply Hqf].
        -- split_and!; [done|by eapply same_rows_trans|]. rewrite Hres2. intros [_ Hx]. by destruct (Hx Ed).
      * split_and!; [done..|].
        split; rewrite ?Ek; [rewrite decide_True by auto; by exists p|done|by intros ? [= <-]|done|].
        unfold row_compiles. rewrite Ek. split; [eexists; apply Hpf|done].
    + rewrite Hres. intros [[? ?] _]. done.
Qed.

Lemma addRef_other sel cache rc next cores (p : option RowParams) :
  cache_ok sel cache rc next cores → (∀ q h r, p = Some q → cache !! h = Some r → rp_ref r ≠ rp_ref q) →
  cache_ok sel cache (addRef p rc) next cores.
Proof. intros Hc Hne. unfold addRef. destruct p as [q|]; [|done]. apply cache_ok_other; [done|]. intros h r. by apply Hne. Qed.

Lemma cache_ok_ext sel cache rc next cores s core :
  cache_ok sel cache rc next cores → cores !! s = None → (∀ p, sel core = Some p → cache !! rp_Key p = Some p) →
  ∀ q, sel core = q → cache_ok sel cache (addRef q rc) next (<[s := core]> cores).
Proof. intros Hc Hs Hin q <-. by apply cache_ok_addRef. Qed.

(** The core a row gets: the registered one, or a new one without origins. *)
Record core_for (m m' : Index) (rows : gmap N RuleRow) (r : RuleRow) (core : FunctionalCore) : Prop := {
  cf_lookup : coresBySum (bi m') !! funcSum r = Some core;
  cf_others : ∀ s, s ≠ funcSum r → coresBySum (bi m') !! s = coresBySum (bi m) !! s;
  cf_core : core_of r core;
  cf_origin : ∃ o X, co_origins core = Some o ∧ (o < next_ref m')%N ∧ origins m' !! o = Some X ∧
    (∀ f, f ∈ X ↔ origin_row rows (funcSum r) f) ∧
    ∀ s core' o', s ≠ funcSum r → coresBySum (bi m) !! s = Some core' → co_origins core' = Some o' →
      o' ≠ o ∧ origins m' !! o' = origins m !! o';
  cf_shared : ∀ id r', rows !! id = Some r' → funcSum r' = funcSum r → coresBySum (bi m) !! funcSum r = Some core;
  cf_next : (next_ref m ≤ next_ref m')%N;
  cf_bi : ∃ c, bi m' = set_coresBySum c (bi m);
}.

Lemma new_core_caches m r p dp core :
  caches_ok m → coresBySum (bi m) !! funcSum r = None → params_of_row m r p dp →
  co_Params core = p → co_DerivedRoleParams core = dp →
  caches_ok (MkIdx (set_coresBySum (<[funcSum r := core]> (coresBySum (bi m))) (bi m)) (parentRoles m) (paramsCache m)
     (drParamsCache m) (<[next_ref m := ∅]> (origins m)) (addRef dp (addRef p (refcounts m))) (next_ref m + 1)).
Proof.
  intros [Hp Hd Hdis] Hs Hpr <- <-. split; cbn [paramsCache drParamsCache refcounts next_ref bi coresBySum set_coresBySum].
  - apply (cache_ok_next _ _ _ (next_ref m)); [|lia]. apply addRef_other.
    + apply cache_ok_addRef; [done..|]. apply Hpr.
    + intros q h r' Hq Hr'. eapply Hdis; [done|]. by apply (pr_dr_in _ _ _ _ Hpr).
  - apply (cache_ok_next _ _ _ (next_ref m)); [|lia]. apply cache_ok_addRef; [|done|apply Hpr].
    apply addRef_other; [done|]. intros q h r' Hq Hr' E. eapply Hdis; [by apply (pr_in _ _ _ _ Hpr)|exact Hr'|done].
  - done.
Qed.

Lemma rule_core_spec m rows r p dp :
  rows_ok nobody (bi m) (origins m) (next_ref m) (coresBySum (bi m)) rows → caches_ok m → known r → params_of_row m r p dp →
  let '(core, m') := rule_core m r p dp in caches_ok m' ∧ core_for m m' rows r core.
Proof using Hnc.
  intros Hr Hc Hk Hpr. unfold rule_core. destruct (coresBySum (bi m) !! funcSum r) as [core|] eqn:E.
  - split; [done|]. destruct (ro_core _ _ _ _ _ _ Hr _ _ E) as [Hsum (o & X & Ho & Hlt & HX & Hf)].
    destruct (ro_sub _ _ _ _ _ _ Hr _ _ E) as (_ & o' & X' & Ho' & HX' & Hne).
    assert (X' = X) as -> by congruence. apply set_choose_L in Hne as [f Hin].
    destruct (proj1 (Hf f) Hin) as (id & r' & Hrow & Hs & _).
    split; try done.
    + destruct (ro_row _ _ _ _ _ _ Hr _ _ Hrow) as (core' & Hl & Hco & _).
      rewrite Hs, E in Hl. injection Hl as <-. eapply (core_of_same r'); [by eapply ro_known|done..].
    + exists o, X. split_and!; [done..| |].
      * intros g. split; [apply Hf|]. apply Hf. by intros [].
      * intros s core' o'' Hne Hl Ho''. split; [|done]. intros ->. apply Hne. eapply (ro_inj _ _ _ _ _ _ Hr); [done..|]. congruence.
    + exists (coresBySum (bi m)). by destruct (bi m).
  - set (core := MkCore _ _ _ _ _ _ _ _ _ _ _). split; [by apply new_core_caches|].
    assert (∀ f, origin_row rows (funcSum r) f → False) as Hnone.
    { intros f (id & r' & Hrow & Hs & _). destruct (ro_row _ _ _ _ _ _ Hr _ _ Hrow) as (core' & Hl & _). congruence. }
    split; cbn [bi coresBySum set_coresBySum origins next_ref].
    + apply lookup_insert_eq.
    + intros s Hne. by rewrite lookup_insert_ne.
    + split; try done; [apply Hpr|]. cbn. intros Hkind Hdr. apply (pr_dr _ _ _ _ Hpr Hkind). by apply (nc_derived Hnc).
    + exists (next_ref m), ∅. split_and!; [done|lia|by rewrite lookup_insert_eq| |].
      * intros f. split; [set_solver|]. intros Hf. by destruct (Hnone f).
      * intros s core' o' Hne Hl Ho'. destruct (ro_core _ _ _ _ _ _ Hr _ _ Hl) as [_ (o & X & Ho & Hlt & _)].
        assert (o' = o) as -> by congruence. split; [lia|]. rewrite lookup_insert_ne; [done|lia].
    + intros id r' Hrow Hs. exfalso. eapply Hnone. by exists id, r'.
    + lia.
    + by eexists.
Qed.

Lemma origin_row_insert rows id r s f :
  rows !! id = None → origin_row (<[id := r]> rows) s f ↔ origin_row rows s f ∨ (funcSum r = s ∧ r_OriginFqn r = f).
Proof.
  intros Hid. unfold origin_row. split.
  - intros (id' & r' & [[<- <-]|[_ Hl]]%lookup_insert_Some & ? & ?); [by right|left; by exists id', r'].
  - intros [(id' & r' & Hl & ? & ?)|[? ?]]; [|exists id, r; by rewrite lookup_insert_eq].
    exists id', r'. rewrite lookup_insert_ne; [done|]. congruence.
Qed.

(** Recording the origin and adding the binding gives the table with one more row. *)
Lemma rows_ok_add m m' rows r core o X x id :
  rows_ok nobody (bi m) (origins m) (next_ref m) (coresBySum (bi m)) rows → bi_ok (bi m) →
  core_for m m' rows r core → known r → co_origins core = Some o → origins m' !! o = Some X →
  added (bi m') x (rule_binding r core) (row_key r) id → coresBySum x = coresBySum (bi m') →
  rows !! id = None ∧
  rows_ok nobody x (<[o := {[r_OriginFqn r]} ∪ X]> (origins m')) (next_ref m') (coresBySum x) (<[id := r]> rows).
Proof.
  intros Hr Hbi Hcf Hk Ho HX Hadd Hcores. destruct (cf_bi _ _ _ _ _ Hcf) as [c Ebi].
  destruct (cf_origin _ _ _ _ _ Hcf) as (o2 & X2 & Ho2 & Hlt & HX2 & Hf & Hoth).
  assert (o2 = o) as -> by congruence. assert (X2 = X) as -> by congruence.
  assert (∀ i, lv (bi m') i = lv (bi m) i) as Hlv by (intros i; by rewrite Ebi).
  assert (rows !! id = None) as Hid.
  { destruct (rows !! id) as [r'|] eqn:E; [|done]. destruct (ro_row _ _ _ _ _ _ Hr _ _ E) as (? & _ & _ & Hl & _).
    pose proof (add_fresh _ _ _ _ _ Hadd) as Hn. rewrite Hlv in Hn. congruence. }
  split; [done|]. rewrite Hcores. split.
  - intros i r' [[<- <-]|[_ Hl]]%lookup_insert_Some; [done|by eapply Hr].
  - intros i [Hl Hne]%lookup_insert_None. rewrite (add_lv _ _ _ _ _ Hadd). unfold upd. rewrite decide_False, Hlv by done. by apply Hr.
  - intros i r' [[<- <-]|[Hne Hl]]%lookup_insert_Some.
    + exists core. split_and!; [apply Hcf|apply Hcf| |apply Hadd]. rewrite (add_lv _ _ _ _ _ Hadd). unfold upd. by rewrite decide_True.
    + destruct (ro_row _ _ _ _ _ _ Hr _ _ Hl) as (core' & Hco & Hof & Hb & Hkey). exists core'. split_and!; [|done|..].
      * destruct (decide (funcSum r' = funcSum r)) as [E|E]; [|by rewrite (cf_others _ _ _ _ _ Hcf)].
        rewrite E in *. rewrite (cf_lookup _ _ _ _ _ Hcf). rewrite <-Hco. symmetry. by eapply (cf_shared _ _ _ _ _ Hcf).
      * rewrite (add_lv _ _ _ _ _ Hadd). unfold upd. by rewrite decide_False, Hlv.
      * rewrite (add_keys _ _ _ _ _ Hadd); [by rewrite Ebi|done|]. rewrite Ebi. cbn. by eapply lv_bound.
  - intros s core'. rewrite Hcores. intros Hs. split; [done|]. destruct (decide (s = funcSum r)) as [->|Hne].
    + rewrite (cf_lookup _ _ _ _ _ Hcf) in Hs. injection Hs as <-. exists o, ({[r_OriginFqn r]} ∪ X).
      rewrite lookup_insert_eq. split_and!; [done..|set_solver].
    + rewrite (cf_others _ _ _ _ _ Hcf) in Hs by done. destruct (ro_sub _ _ _ _ _ _ Hr _ _ Hs) as (_ & o' & X' & Ho' & HX' & HneX).
      destruct (Hoth _ _ _ Hne Hs Ho') as [Hoo Hsame]. exists o', X'. rewrite lookup_insert_ne, Hsame by done. done.
  - intros i r' _ _. by rewrite Hcores.
  - intros s core' Hs. destruct (decide (s = funcSum r)) as [->|Hne].
    + rewrite (cf_lookup _ _ _ _ _ Hcf) in Hs. injection Hs as <-. split; [apply Hcf|].
      exists o, ({[r_OriginFqn r]} ∪ X). rewrite lookup_insert_eq. split_and!; [done..|].
      intros f. rewrite origin_row_insert, elem_of_union, elem_of_singleton, Hf by done. naive_solver.
    + rewrite (cf_others _ _ _ _ _ Hcf) in Hs by done.
      destruct (ro_core _ _ _ _ _ _ Hr _ _ Hs) as [Hsum (o' & X' & Ho' & Hlt' & HX' & Hf')].
      split; [done|]. destruct (Hoth _ _ _ Hne Hs Ho') as [Hoo Hsame]. exists o', X'.
      rewrite lookup_insert_ne, Hsame by done. split_and!; [done| |done|].
      * pose proof (cf_next _ _ _ _ _ Hcf). lia.
      * intros f. rewrite origin_row_insert by done. specialize (Hf' f). naive_solver.
  - intros s s' c1 c2 H1' H2' Eo. destruct (decide (s = funcSum r)) as [->|Hs], (decide (s' = funcSum r)) as [->|Hs']; [done|..].
    + rewrite (cf_lookup _ _ _ _ _ Hcf) in H1'. rewrite (cf_others _ _ _ _ _ Hcf) in H2' by done. injection H1' as <-.
      rewrite Ho in Eo. symmetry in Eo. by destruct (Hoth _ _ _ Hs' H2' Eo).
    + rewrite (cf_lookup _ _ _ _ _ Hcf) in H2'. rewrite (cf_others _ _ _ _ _ Hcf) in H1' by done. injection H2' as <-.
      rewrite Ho in Eo. by destruct (Hoth _ _ _ Hs H1' Eo).
    + rewrite (cf_others _ _ _ _ _ Hcf) in H1', H2' by done. by eapply (ro_inj _ _ _ _ _ _ Hr).
Qed.

Lemma setAllowActions_handles b l : handles_ok b → handles_ok (setAllowActions b l).
Proof. intros Hb. unfold setAllowActions. destruct (foldl _ _ _) as [st gl]. split; cbn; apply Hb. Qed.

Lemma rule_binding_handles r core : handles_ok (rule_binding r core).
Proof.
  unfold rule_binding. set (b := MkBinding _ _ _ _ _ _ _ _ _ _ _ _ _ _).
  assert (handles_ok b) as Hb by (split; cbn; done || apply mkStringHandle_ok).
  destruct (r_ActionSet r); [done| |by apply setAllowActions_handles]. split; cbn; try apply Hb; apply mkStringHandle_ok.
Qed.

Lemma rows_ok_next dying x og next next' cm rows :
  rows_ok dying x og next cm rows → (next ≤ next')%N → rows_ok dying x og next' cm rows.
Proof.
  intros Hr Hle. split; [apply Hr..| |apply Hr]. intros s core Hs.
  destruct (ro_core _ _ _ _ _ _ Hr _ _ Hs) as [? (o & X & ? & ? & ?)]. split; [done|]. exists o, X. split_and!; [done|lia|naive_solver..].
Qed.

Lemma same_rows_implements m m' rows :
  implements m rows → same_rows m m' → caches_ok m' → implements m' rows.
Proof.
  intros [Hb Hf Hr _] [E1 E2 Hn _] Hc. split; rewrite ?E1, ?E2; [done..| |done]. by eapply rows_ok_next.
Qed.

Lemma bi_ok_cores x c : bi_ok x → bi_ok (set_coresBySum c x).
Proof. intros [[] []]. split; by split. Qed.
Lemma fqn_ok_cores x c : fqn_ok x → fqn_ok (set_coresBySum c x).
Proof. intros []. by split. Qed.

Lemma IndexRule_runs m rows r :
  implements m rows → known r → has_room (bi m) →
  runs (IndexRule m r) (λ '(m', ok), parentRoles m' = parentRoles m ∧ length (bindings (bi m')) ≤ S (length (bindings (bi m))) ∧
    if (ok : bool) then row_compiles r ∧ ∃ id, rows !! id = None ∧ implements m' (<[id := r]> rows)
    else ¬ row_compiles r ∧ implements m' rows).
Proof using Hnc.
  intros Hi Hk Hroom. unfold IndexRule.
  pose proof (rule_params_spec m r (im_caches _ _ Hi) Hk) as Hp.
  destruct (rule_params m r) as [[[p dp]|[]] m1]; destruct Hp as (Hc1 & Hs1 & Hpr).
  2:{ rret. split_and!; [apply Hs1|rewrite (sr_bi _ _ Hs1); lia|done|by eapply same_rows_implements]. }
  pose proof (same_rows_implements _ _ _ Hi Hs1 Hc1) as Hi1.
  pose proof (rule_core_spec m1 rows r p dp (im_rows _ _ Hi1) Hc1 Hk Hpr) as Hcore.
  assert (parentRoles (rule_core m1 r p dp).2 = parentRoles m1) as Hpar by (unfold rule_core; by destruct (_ !! _)).
  destruct (rule_core m1 r p dp) as [core m2]. cbn [snd] in Hpar. destruct Hcore as [Hc2 Hcf].
  destruct (cf_origin _ _ _ _ _ Hcf) as (o & X & Ho & _ & HX & _). destruct (cf_bi _ _ _ _ _ Hcf) as [c Ebi].
  unfold add_origin. rewrite Ho, HX. bsimp. cbn [default from_option id].
  eapply runs_bind; [apply (addBinding_runs (bi m2) (rule_binding r core) (row_key r))|].
  - rewrite Ebi. by apply bi_ok_cores, Hi1.
  - rewrite Ebi. by apply fqn_ok_cores, Hi1.
  - apply rule_binding_handles.
  - rewrite Ebi. unfold has_room. cbn. by rewrite (sr_bi _ _ Hs1).
  - intros x (Hb & Hf & id & Hadd). rret.
    pose proof (add_cores _ _ _ _ _ Hadd) as Hcores.
    destruct (rows_ok_add m1 m2 rows r core o X x id (im_rows _ _ Hi1) (im_bi _ _ Hi1) Hcf Hk Ho HX Hadd Hcores) as [Hid Hro].
    split; [|split; [|split; [apply Hpr|]]].
    + cbn. rewrite Hpar. apply Hs1.
    + pose proof (add_len _ _ _ _ _ Hadd) as Hl. rewrite Ebi, (sr_bi _ _ Hs1) in Hl. exact Hl.
    + exists id. split; [done|]. split; [done..|exact Hro|].
      destruct Hc2. split; cbn; [by rewrite Hcores..|done].
Qed.

(** Rows are added under fresh identifiers; an error stops at the first row that
    does not compile, keeping those before it. *)
Lemma IndexRules_runs m rows rules :
  implements m rows → (∀ r, r ∈ rules → known r) → (N.of_nat (length (bindings (bi m)) + length rules) < 2 ^ 32)%N →
  runs (IndexRules m rules) (λ '(m', ok), parentRoles m' = parentRoles m ∧
    length (bindings (bi m')) ≤ length (bindings (bi m)) + length rules ∧ ∃ added rows',
    implements m' (rows ∪ rows') ∧ rows ##ₘ rows' ∧ (map_to_list rows').*2 ≡ₚ added ∧
    (∀ r, r ∈ added → row_compiles r) ∧
    if (ok : bool) then added = rules else ∃ r rest, rules = added ++ r :: rest ∧ ¬ row_compiles r).
Proof using Hnc.
  revert m rows. induction rules as [|r rules IH]; intros m rows Hi Hk Hroom; cbn [IndexRules].
  - rret. split; [done|]. split; [lia|]. exists [], ∅. rewrite map_union_empty, map_to_list_empty. split_and!; [done|apply map_disjoint_empty_r|done| |done]. intros r Hr. by apply elem_of_nil in Hr.
  - cbn [length] in Hroom. eapply runs_bind; [apply IndexRule_runs; [done|apply Hk; left|right; lia]|].
    intros [m1 [|]] (Hpar & Hlen & Hc & Hres).
    + destruct Hres as (id & Hid & Hi1). eapply runs_mono; [apply (IH m1 _ Hi1)|].
      * intros r' Hr'. apply Hk. by right.
      * lia.
      * intros [m' ok] (Hpar' & Hlen' & added & rows' & Hi' & Hdis & Hperm & Hall & Hok). split; [congruence|]. split; [cbn [length]; lia|].
        apply map_disjoint_insert_l in Hdis as [Hid' Hdis].
        exists (r :: added), (<[id := r]> rows'). split_and!.
        -- by rewrite <-insert_union_r, insert_union_l.
        -- by apply map_disjoint_insert_r.
        -- rewrite map_to_list_insert by done. cbn. by rewrite Hperm.
        -- intros r' [->|Hr']%elem_of_cons; [done|by apply Hall].
        -- destruct ok.
           ++ by rewrite Hok.
           ++ destruct Hok as (r' & rest & -> & Hn). by exists r', rest.
    + rret. split; [done|]. split; [cbn [length]; lia|]. exists [], ∅. rewrite map_union_empty, map_to_list_empty. split_and!; [done|apply map_disjoint_empty_r|done|by intros r' ?%elem_of_nil|]. by exists r, rules.
Qed.

(** * Deleting a policy *)

Section delete.
Context (fqn : string).
Definition dying (f : string) : Prop := f = fqn.

Lemma rows_ok_restrict x og next cm rows : rows_ok nobody x og next cm rows → rows_ok dying x og next cm rows.
Proof.
  intros Hr. split; [apply Hr..| | |apply Hr].
  - intros id r Hl _. eapply Hr; [done|]. by intros [].
  - intros s core Hs. destruct (ro_core _ _ _ _ _ _ Hr _ _ Hs) as [? (o & X & ? & ? & ? & Hf)]. split; [done|].
    exists o, X. split_and!; [done..|]. intros f. split; [apply Hf|]. intros _. apply Hf. by intros [].
Qed.

(** A row of the policy goes: its binding, and the policy from its core's origins. *)
Lemma rows_ok_remove x x' og next cm rows id r core o X :
  rows_ok dying x og next cm rows → rows !! id = Some r → r_OriginFqn r = fqn →
  cm !! funcSum r = Some core → co_origins core = Some o → og !! o = Some X →
  removed x x' id →
  ∀ cores, (if decide (X ∖ {[fqn]} = ∅) then cores = delete (funcSum r) (coresBySum x') else cores = coresBySum x') →
  rows_ok dying (set_coresBySum cores x') (<[o := X ∖ {[fqn]}]> og) next cm (delete id rows).
Proof.
  intros Hr Hrow Hfq Hcm Ho HX Hrem cores Hcores.
  assert (∀ s f, origin_row (delete id rows) s f → origin_row rows s f) as Hsub.
  { intros s f (i & r' & [_ Hl]%lookup_delete_Some & ? & ?). by exists i, r'. }
  assert (∀ s f, f ≠ fqn → origin_row rows s f → origin_row (delete id rows) s f) as Hkeep.
  { intros s f Hne (i & r' & Hl & ? & ?). exists i, r'. split; [|done]. apply lookup_delete_Some. split; [|done].
    intros ->. congruence. }
  destruct (ro_core _ _ _ _ _ _ Hr _ _ Hcm) as [_ (o2 & X2 & Ho2 & _ & HX2 & HfX)].
  assert (o2 = o) as -> by congruence. assert (X2 = X) as -> by congruence.
  assert (∀ s core' o', s ≠ funcSum r → cm !! s = Some core' → co_origins core' = Some o' → o' ≠ o) as Hoth.
  { intros s core' o' Hne Hl Ho' ->. apply Hne. eapply (ro_inj _ _ _ _ _ _ Hr); [done..|]. congruence. }
  assert (∀ s c, cores !! s = Some c → coresBySum x !! s = Some c ∧ (s = funcSum r → X ∖ {[fqn]} ≠ ∅)) as Hcs.
  { intros s c Hs. rewrite <-(rem_cores _ _ _ Hrem). case_decide as Hd; subst cores; [|done].
    apply lookup_delete_Some in Hs as [Hne Hs]. split; [done|]. congruence. }
  split; cbn [coresBySum set_coresBySum].
  - intros i r' [_ Hl]%lookup_delete_Some. by eapply Hr.
  - intros i Hl. change (lv x' i = None). rewrite (rem_lv _ _ _ Hrem). unfold upd. destruct (decide (id = i)) as [|Hd]; [done|].
    apply Hr. by rewrite lookup_delete_ne in Hl.
  - intros i r' [Hne Hl]%lookup_delete_Some. destruct (ro_row _ _ _ _ _ _ Hr _ _ Hl) as (c & ? & ? & Hlv & Hkey).
    exists c. split_and!; [done..| |].
    + change (lv x' i = Some (set_ID (rule_binding r' c) i)). rewrite (rem_lv _ _ _ Hrem). unfold upd. by rewrite decide_False.
    + change (evalKeys x' !! N.to_nat i = Some (row_key r')). by rewrite (rem_keys _ _ _ Hrem).
  - intros s c Hs. destruct (Hcs _ _ Hs) as [Hl Hne]. destruct (ro_sub _ _ _ _ _ _ Hr _ _ Hl) as (Hc & o' & X' & Ho' & HX' & HneX).
    split; [done|]. destruct (decide (s = funcSum r)) as [->|Hsr].
    + assert (c = core) as -> by congruence. exists o, (X ∖ {[fqn]}). rewrite lookup_insert_eq. split_and!; [done..|by apply Hne].
    + exists o', X'. rewrite lookup_insert_ne; [done|]. intros <-. by eapply Hoth.
  - intros i r' [Hne Hl]%lookup_delete_Some Hdy. rewrite <-(ro_kept _ _ _ _ _ _ Hr _ _ Hl Hdy), <-(rem_cores _ _ _ Hrem).
    case_decide as Hd; subst cores; [|done]. rewrite lookup_delete_ne; [done|]. intros E.
    assert (r_OriginFqn r' ∈ X ∖ {[fqn]}) as Hin; [|by rewrite Hd in Hin; apply elem_of_empty in Hin].
    apply elem_of_difference. split; [|by rewrite elem_of_singleton]. apply (HfX (r_OriginFqn r')); [done|]. by exists i, r'.
  - intros s c Hs. destruct (ro_core _ _ _ _ _ _ Hr _ _ Hs) as [Hsum (o' & X' & Ho' & Hlt & HX' & Hf)]. split; [done|].
    destruct (decide (s = funcSum r)) as [->|Hsr].
    + assert (c = core) as -> by congruence. exists o, (X ∖ {[fqn]}). rewrite lookup_insert_eq.
      assert (o' = o) as -> by congruence. split_and!; [done..|]. intros f. rewrite elem_of_difference, elem_of_singleton.
      specialize (HfX f). unfold dying in *. split; [intros [? ?]; apply Hkeep; tauto|]. intros ? ?%Hsub. tauto.
    + exists o', X'. rewrite lookup_insert_ne by (intros <-; by eapply Hoth). split_and!; [done..|]. intros f. split.
      * intros Hin. apply Hf in Hin as (i & r' & Hl & Hs' & Hf'). exists i, r'. split; [|done].
        apply lookup_delete_Some. split; [|done]. intros ->. congruence.
      * intros Hd ?%Hsub. by apply Hf.
  - apply Hr.
Qed.

Lemma rule_binding_core r core : bh_Core (rule_binding r core) = core.
Proof. unfold rule_binding. destruct (r_ActionSet r); [done..|]. unfold setAllowActions. by destruct (foldl _ _ _). Qed.
Lemma rule_binding_fqn r core : HandleStr (bh_OriginFqn (rule_binding r core)) = r_OriginFqn r.
Proof.
  unfold rule_binding. destruct (r_ActionSet r); [apply HandleStr_mk..|]. unfold setAllowActions.
  destruct (foldl _ _ _). apply HandleStr_mk.
Qed.
Lemma rule_binding_scope r core : HandleStr (bh_Scope (rule_binding r core)) = r_Scope r.
Proof.
  unfold rule_binding. destruct (r_ActionSet r); [apply HandleStr_mk..|]. unfold setAllowActions.
  destruct (foldl _ _ _). apply HandleStr_mk.
Qed.

Lemma drop_core_spec m core :
  caches_ok m → (∀ core', coresBySum (bi m) !! co_sum core = Some core' → core' = core) →
  caches_ok (drop_core m core) ∧ bi (drop_core m core) = set_coresBySum (delete (co_sum core) (coresBySum (bi m))) (bi m) ∧
  origins (drop_core m core) = origins m ∧ next_ref (drop_core m core) = next_ref m ∧ parentRoles (drop_core m core) = parentRoles m.
Proof.
  intros [Hp Hd Hdis] Hsame. unfold drop_core. destruct (coresBySum (bi m) !! co_sum core) as [core'|] eqn:E.
  - rewrite (Hsame _ eq_refl) in E. pose proof (cache_ok_removeRef _ _ _ _ _ _ _ Hp E) as H1'.
    destruct (removeRef (co_Params core) _ _) as [pc rc] eqn:E1. destruct H1' as [Hp1 Hsub1].
    assert (cache_ok co_DerivedRoleParams (drParamsCache m) rc (next_ref m) (coresBySum (bi m))) as Hd1.
    { unfold removeRef in E1. destruct (co_Params core) as [q|] eqn:Eq; [|by injection E1 as <- <-].
      injection E1 as _ <-. apply cache_ok_other; [done|]. intros h p Hl Href.
      eapply Hdis; [by eapply (ca_used _ _ _ _ _ Hp)|exact Hl|done]. }
    pose proof (cache_ok_removeRef _ _ _ _ _ _ _ Hd1 E) as H2'.
    destruct (removeRef (co_DerivedRoleParams core) _ _) as [dc rc'] eqn:E2. destruct H2' as [Hd2 Hsub2].
    split_and!; [|done..]. split; cbn; [|done|].
    + unfold removeRef in E2. destruct (co_DerivedRoleParams core) as [q|] eqn:Eq; [|by injection E2 as <- <-].
      injection E2 as _ <-. apply cache_ok_other; [done|]. intros h p Hl%Hsub1 Href.
      eapply Hdis; [exact Hl|by eapply (ca_used _ _ _ _ _ Hd)|done].
    + intros h h' p p' Hl%Hsub1 Hl'%Hsub2. by eapply Hdis.
  - split_and!; [done| |done..]. rewrite delete_id by done. by destruct (bi m).
Qed.

Lemma delete_binding_runs m cm rows id r :
  bi_ok (bi m) → rows_ok dying (bi m) (origins m) (next_ref m) cm rows → caches_ok m →
  rows !! id = Some r → r_OriginFqn r = fqn →
  runs (delete_binding fqn m id) (λ m', bi_ok (bi m') ∧ rows_ok dying (bi m') (origins m') (next_ref m') cm (delete id rows) ∧
    caches_ok m' ∧ fqnBindings (bi m') = fqnBindings (bi m) ∧ parentRoles m' = parentRoles m ∧
    length (bindings (bi m')) = length (bindings (bi m))).
Proof.
  intros Hb Hr Hc Hrow Hfq. destruct (ro_row _ _ _ _ _ _ Hr _ _ Hrow) as (core & Hcm & Hco & Hlv & _).
  unfold delete_binding, getBinding. pose proof Hlv as Hget. unfold lv in Hget.
  destruct (bindings (bi m) !! N.to_nat id) as [ob|]; [|done]. cbn [mjoin option_join] in Hget. rewrite Hget. bsimp.
  change (bh_Core (set_ID (rule_binding r core) id)) with (bh_Core (rule_binding r core)). rewrite rule_binding_core.
  destruct (ro_core _ _ _ _ _ _ Hr _ _ Hcm) as [Hsum (o & X & Ho & _ & HX & _)].
  unfold delete_origin, origins_of. rewrite Ho, HX, default_some. cbn [bi set_origins origins].
  eapply runs_bind; [by apply (removeBinding_runs _ id)|]. intros x [Hbx Hrem]. rret.
  set (m1 := set_bi x _). assert (origins m1 !! o = Some (X ∖ {[fqn]})) as -> by apply lookup_insert_eq. rewrite default_some.
  pose proof (rows_ok_remove _ _ _ _ _ _ _ _ _ _ _ Hr Hrow Hfq Hcm Ho HX Hrem) as Hstep.
  assert (caches_ok m1) as Hc1 by (destruct Hc; split; cbn; [by rewrite (rem_cores _ _ _ Hrem)..|done]).
  destruct (decide (size (X ∖ {[fqn]}) = 0)) as [Hsz|Hsz].
  - apply size_empty_inv, leibniz_equiv in Hsz.
    destruct (drop_core_spec m1 core Hc1) as (Hc2 & Eb & Eo & En & Ep).
    { intros core'. cbn. rewrite Hsum, (rem_cores _ _ _ Hrem). intros Hl. apply (ro_sub _ _ _ _ _ _ Hr) in Hl as [Hl _]. congruence. }
    rewrite Eb, Eo, En, Ep. split_and!; [by apply bi_ok_cores| |done|by cbn; apply Hrem|done|by cbn; apply Hrem].
    apply Hstep. rewrite decide_True by done. cbn. by rewrite Hsum.
  - split_and!; [done| |done|by cbn; apply Hrem|done|by cbn; apply Hrem].
    replace (bi m1) with (set_coresBySum (coresBySum x) x) by (by destruct x). apply Hstep.
    rewrite decide_False; [done|]. intros Hd. apply Hsz. rewrite Hd. apply size_empty.
Qed.

(** The index without the rows of the policy. *)
Definition without (rows : gmap N RuleRow) : gmap N RuleRow := filter (λ x, r_OriginFqn x.2 ≠ fqn) rows.

Lemma rows_ok_final x og next cm rows :
  rows_ok dying x og next cm rows → (∀ id r, rows !! id = Some r → r_OriginFqn r ≠ fqn) →
  rows_ok nobody x og next (coresBySum x) rows.
Proof.
  intros Hr Hall. split.
  - apply Hr.
  - apply Hr.
  - intros id r Hl. destruct (ro_row _ _ _ _ _ _ Hr _ _ Hl) as (core & Hc & ? & ? & ?). exists core. split_and!; [|done..].
    rewrite (ro_kept _ _ _ _ _ _ Hr _ _ Hl); [done|]. by apply (Hall id).
  - intros s core Hs. split; [done|]. by apply (ro_sub _ _ _ _ _ _ Hr _ _ Hs).
  - done.
  - intros s core Hs. destruct (ro_sub _ _ _ _ _ _ Hr _ _ Hs) as [Hl _].
    destruct (ro_core _ _ _ _ _ _ Hr _ _ Hl) as [? (o & X & ? & ? & ? & Hf)]. split; [done|]. exists o, X. split_and!; [done..|].
    intros f. split; [apply Hf|]. intros _ Hrow. apply Hf; [|done]. destruct Hrow as (i & r & Hl' & _ & <-). by apply (Hall i).
  - intros s s' c c' Hs Hs'. by apply (ro_inj _ _ _ _ _ _ Hr); eapply ro_sub.
Qed.

Lemma rows_fqn dy x og next cm rows id f :
  rows_ok dy x og next cm rows → (∃ b, lv x id = Some b ∧ fqn_key b = Some f) ↔ ∃ r, rows !! id = Some r ∧ r_OriginFqn r = f.
Proof.
  intros Hr. split.
  - intros (b & Hl & [= Hf]). destruct (rows !! id) as [r|] eqn:E.
    + exists r. split; [done|]. destruct (ro_row _ _ _ _ _ _ Hr _ _ E) as (core & _ & _ & Hl' & _).
      rewrite Hl in Hl'. injection Hl' as ->. rewrite <-Hf. symmetry. apply rule_binding_fqn.
    + apply (ro_none _ _ _ _ _ _ Hr) in E. congruence.
  - intros (r & E & <-). destruct (ro_row _ _ _ _ _ _ Hr _ _ E) as (core & _ & _ & Hl & _).
    exists (set_ID (rule_binding r core) id). split; [done|]. unfold fqn_key. f_equal. apply rule_binding_fqn.
Qed.

Lemma fqn_row m rows id f : implements m rows → fqn_mem (fqnBindings (bi m)) f id = true ↔ ∃ r, rows !! id = Some r ∧ r_OriginFqn r = f.
Proof. intros Hi. rewrite <-(rows_fqn _ _ _ _ _ _ _ _ (im_rows _ _ Hi)). apply (fok_is _ (im_fqn _ _ Hi)). Qed.

Lemma rows_ok_fqn dy x og next cm rows F : rows_ok dy x og next cm rows → rows_ok dy (set_fqnBindings F x) og next cm rows.
Proof. intros []. by split. Qed.

Lemma DeletePolicy_runs m rows :
  implements m rows → fqn ≠ ""%string →
  runs (DeletePolicy m fqn) (λ m', implements m' (without rows) ∧ parentRoles m' = parentRoles m ∧
    length (bindings (bi m')) = length (bindings (bi m))).
Proof.
  intros Hi Hne. unfold DeletePolicy. rewrite decide_False by done. pose proof (λ id, fqn_row m rows id fqn Hi) as Hfr.
  unfold fqnDimension_Get. destruct (fqnBindings (bi m) !! fqn) as [ids|] eqn:E.
  2:{ rret. split; [|done]. replace (without rows) with rows; [done|]. symmetry. apply map_filter_id. intros id r Hl. cbn. intros Hf.
      assert (fqn_mem (fqnBindings (bi m)) fqn id = true) as Hx by (apply Hfr; eauto).
      unfold fqn_mem in Hx. rewrite E in Hx. apply bool_decide_eq_true in Hx. by apply elem_of_nil in Hx. }
  assert (∀ id, id ∈ ids ↔ ∃ r, rows !! id = Some r ∧ r_OriginFqn r = fqn) as Hids.
  { intros id. rewrite <-Hfr. unfold fqn_mem. rewrite E, bool_decide_eq_true. done. }
  pose proof (fok_nodup _ (im_fqn _ _ Hi) _ _ E) as Hnd.
  eapply runs_bind; [apply (foldM_rule (λ done m', bi_ok (bi m') ∧
    rows_ok dying (bi m') (origins m') (next_ref m') (coresBySum (bi m)) (filter (λ x, x.1 ∉ done) rows) ∧
    caches_ok m' ∧ fqnBindings (bi m') = fqnBindings (bi m) ∧ parentRoles m' = parentRoles m ∧
    length (bindings (bi m')) = length (bindings (bi m))))|].
  - split_and!; [apply Hi| |apply Hi|done..]. rewrite map_filter_id; [apply rows_ok_restrict, Hi|]. intros id r _. cbn. apply not_elem_of_nil.
  - intros done_ id rest m' -> (Hb & Hr & Hc & Hf & Hp & Hle). cbv beta in *.
    assert (id ∉ done_) as Hnin.
    { apply NoDup_app in Hnd as (_ & Hd & _). intros Hin. apply (Hd _ Hin). left. }
    destruct (proj1 (Hids id)) as (r & Hrow & Hfq); [apply elem_of_app; right; left|].
    eapply runs_mono; [apply (delete_binding_runs m' (coresBySum (bi m)) _ id r Hb Hr Hc); [|done]|].
    + by apply map_lookup_filter_Some.
    + intros m'' (Hb' & Hr' & Hc' & Hf' & Hp' & Hle'). split_and!; [done| |done|congruence..].
      replace (filter (λ x, x.1 ∉ done_ ++ [id]) rows) with (delete id (filter (λ x, x.1 ∉ done_) rows)); [done|].
      apply map_eq. intros i. apply option_eq. intros r'.
      rewrite lookup_delete_Some, !map_lookup_filter_Some. cbn. rewrite elem_of_app, list_elem_of_singleton. naive_solver.
  - intros m' (Hb & Hr & Hc & Hf & Hp & Hle). cbv beta in *. rret. split; [|done].
    replace (filter (λ x, x.1 ∉ ids) rows) with (without rows) in Hr.
    2:{ apply map_eq. intros i. apply option_eq. intros r'. unfold without. rewrite !map_lookup_filter_Some. cbn. rewrite Hids. naive_solver. }
    split; cbn [bi set_bi].
    + destruct Hb as [[] []]. split; by split.
    + split; cbn [fqnBindings set_fqnBindings].
      * intros f id. change (lv (set_fqnBindings _ (bi m')) id) with (lv (bi m') id). rewrite (rows_fqn _ _ _ _ _ _ _ _ Hr).
        unfold fqn_mem, fqnDimension_Delete. rewrite Hf. destruct (decide (f = fqn)) as [->|Hne'].
        -- rewrite lookup_delete_eq. split; [intros Hx%bool_decide_eq_true; by apply elem_of_nil in Hx|].
           intros (r & [_ Hl]%map_lookup_filter_Some & ?). done.
        -- rewrite lookup_delete_ne by done. change (fqn_mem (fqnBindings (bi m)) f id = true ↔ ∃ r, without rows !! id = Some r ∧ r_OriginFqn r = f).
           rewrite (fqn_row m rows) by done. unfold without. setoid_rewrite map_lookup_filter_Some. cbn. naive_solver.
      * unfold fqnDimension_Delete. intros f l [_ Hl]%lookup_delete_Some. rewrite Hf in Hl. by eapply (fok_nodup _ (im_fqn _ _ Hi)).
    + eapply rows_ok_final; [apply rows_ok_fqn; exact Hr|]. intros id r [_ Hl]%map_lookup_filter_Some. exact Hl.
    + destruct Hc. by split.
Qed.
End delete.

(** * Compaction and queries keep the table *)

Lemma implements_bi m x rows :
  implements m rows → bi_ok x → (∀ id, lv x id = lv (bi m) id) → evalKeys x = evalKeys (bi m) →
  coresBySum x = coresBySum (bi m) → fqnBindings x = fqnBindings (bi m) → implements (set_bi x m) rows.
Proof.
  intros [Hb [Hf Hnd] Hr Hc] Hx Hlv Hk Hcs Hfq. split; cbn [bi set_bi origins next_ref].
  - done.
  - split; rewrite Hfq; [|done]. by eapply indexes_ext; [exact Hf|..].
  - destruct Hr. split; rewrite ?Hcs; try done.
    + intros id Hl. rewrite Hlv. auto.
    + intros id r Hl. rewrite Hlv, Hk. auto.
  - destruct Hc. split; cbn; rewrite ?Hcs; done.
Qed.

Lemma compact_runs x :
  bi_ok x → runs (bitmapIndex_compact x) (λ y, bi_ok y ∧ (∀ id, lv y id = lv x id) ∧ evalKeys y = evalKeys x ∧
    coresBySum y = coresBySum x ∧ fqnBindings y = fqnBindings x ∧ bindings y = bindings x ∧ freeIDs y = freeIDs x).
Proof.
  intros Hx. pose proof (bok_dims x Hx) as Hd. unfold bitmapIndex_compact.
  eapply runs_bind; [apply dim_shrink_runs, Hd|]. intros ver [V1 V2].
  eapply runs_bind; [apply dim_shrink_runs, Hd|]. intros sco [S1 S2].
  eapply runs_bind; [apply dim_shrink_runs, Hd|]. intros kin [K1 K2].
  eapply runs_bind; [apply lazy_compact_runs, Hd|]. intros pri P.
  eapply runs_bind; [apply gd_compact_runs, Hd|]. intros rol R.
  eapply runs_bind; [apply gd_compact_runs, Hd|]. intros act A.
  eapply runs_bind; [apply gd_compact_runs, Hd|]. intros res Q.
  eapply runs_bind; [apply shrinkToFit_runs, Hd|]. intros uni (U1 & _ & U2).
  eapply runs_bind; [apply shrinkToFit_runs, Hd|]. intros aab (B1 & _ & B2).
  rret. split; [|done]. pose proof (bi_rel_replace x act rol res pri Hx A R Q P) as Hrel.
  destruct (br_right _ _ Hrel) as [[] []]. split; [by split|]. cbn in *.
  split; cbn; try done; (eapply indexes_ext; [eassumption|done|done]).
Qed.

Lemma Index_Compact_runs m rows :
  implements m rows → runs (Index_Compact m) (λ m', implements m' rows ∧ parentRoles m' = parentRoles m ∧
    length (bindings (bi m')) = length (bindings (bi m))).
Proof.
  intros Hi. unfold Index_Compact. eapply runs_bind; [apply compact_runs, Hi|].
  intros x (Hx & Hlv & Hk & Hc & Hf & Hbs & _). rret. split_and!; [by apply implements_bi|done|by cbn; rewrite Hbs].
Qed.

(** A query may materialise bitmaps; the rows stay the same. *)
Lemma bi_rel_implements m x rows : implements m rows → bi_rel (bi m) x → implements (set_bi x m) rows.
Proof.
  intros Hi Hr. pose proof (br_fixed _ _ Hr) as E. apply implements_bi; [done|apply Hr|by intros; apply bi_rel_lv|..];
    unfold fixed_part in E; congruence.
Qed.
End spec.
