(* ===== verification/ParentRoles.v ===== *)
(** Parent roles: [IndexParentRoles] closes the declared parents of each scope
    transitively, whatever the order and even when they form a cycle, and
    [AddParentRoles] adds the ancestors of the given roles. *)
From S2P Require Import Prelude GoRuntime Bitmap BitmapOps BitmapIter Arena LazyDim Dimension GlobDim Namer Policy IndexCore IndexQuery Index.

Open Scope nat_scope.

Section parents.
Context `{GlobEngine} `{CelCompiler} `{GoMapOrder} `{ContentHash}.

(** [b] is declared a parent of [a]. *)
Definition parent (pr : gmap string (list string)) (a b : string) : Prop := ∃ prs, pr !! a = Some prs ∧ b ∈ prs.

Lemma parent_all pr a b : parent pr a b → a ∈ all_roles pr ∧ b ∈ all_roles pr.
Proof.
  intros (prs & Hl & Hb). unfold all_roles. split; apply elem_of_union.
  - left. apply elem_of_dom. eauto.
  - right. apply elem_of_union_list. exists (list_to_set prs). split; [|by apply elem_of_list_to_set].
    apply list_elem_of_fmap. exists prs. split; [done|]. apply list_elem_of_fmap. exists (a, prs). split; [done|].
    by apply elem_of_map_to_list.
Qed.

(** Every visited role that is not still open has its parents collected and visited. *)
Definition closed_but (pr : gmap string (list string)) (G S V : gset string) : Prop :=
  ∀ a b, a ∈ V → a ∉ G → parent pr a b → b ∈ S ∧ b ∈ V.

Record collected (pr : gmap string (list string)) (G S V : gset string) (role : string) (res : gset string * gset string) : Prop := {
  cl_S : S ⊆ res.1;
  cl_V : V ⊆ res.2;
  cl_role : role ∈ res.2;
  cl_closed : closed_but pr G res.1 res.2;
  cl_sound : ∀ b, b ∈ res.1 → b ∈ S ∨ tc (parent pr) role b;
}.

(** The part of [collected] that holds between two iterations of the loop over
    the parents of [role]. *)
Record collecting (pr : gmap string (list string)) (G S V : gset string) (role : string) (seen : list string)
    (res : gset string * gset string) : Prop := {
  cg_S : S ⊆ res.1;
  cg_V : {[role]} ∪ V ⊆ res.2;
  cg_closed : closed_but pr ({[role]} ∪ G) res.1 res.2;
  cg_sound : ∀ b, b ∈ res.1 → b ∈ S ∨ tc (parent pr) role b;
  cg_seen : ∀ b, b ∈ seen → b ∈ res.1 ∧ b ∈ res.2;
}.

Lemma collectParentRoles_runs (spr : ScopeParentRoles) scope pr fuel role G S V :
  spr !! scope = Some (Some pr) → role ∈ all_roles pr → size (all_roles pr ∖ V) < fuel →
  closed_but pr G S V →
  runs (collectParentRoles fuel spr scope role S V) (collected pr G S V role).
Proof.
  intros Hspr. revert role G S V. induction fuel as [|fuel IH]; intros role G S V Hrole Hfuel Hcl; [lia|].
  cbn [collectParentRoles]. case_decide as Hvis.
  { rret. split; cbn; auto. }
  rewrite Hspr. cbn [mjoin option_join]. destruct (pr !! role) as [prs|] eqn:Epr.
  - assert (∀ b, b ∈ prs → parent pr role b) as Hpar by (intros b Hb; by exists prs).
    assert (size (all_roles pr ∖ ({[role]} ∪ V)) < size (all_roles pr ∖ V)) as Hsz by (apply subset_size; set_solver).
    eapply runs_mono; [apply (foldM_rule (collecting pr G S V role))|].
    + split; cbn; [done|done| |auto|].
      * intros a b Ha Hna Hp. destruct (Hcl a b); set_solver.
      * intros b Hb. by apply elem_of_nil in Hb.
    + intros seen pr' rest [S1 V1] E [HS HV Hc Hso Hsn]. cbn in *.
      assert (pr' ∈ prs) as Hin by (rewrite E; apply elem_of_app; right; left).
      assert (size (all_roles pr ∖ V1) ≤ size (all_roles pr ∖ ({[role]} ∪ V))) as Hsz1 by (apply subseteq_size; set_solver).
      eapply runs_mono; [apply (IH pr' ({[role]} ∪ G))|].
      * by eapply (parent_all pr role), Hpar.
      * lia.
      * intros a b Ha Hna Hp. destruct (Hc a b Ha Hna Hp). set_solver.
      * intros [S2 V2] [HS2 HV2 Hr2 Hc2 Hso2]. cbn in *. split; cbn.
        -- set_solver.
        -- set_solver.
        -- done.
        -- intros b [Hb|Hb]%Hso2.
           ++ apply elem_of_union in Hb as [->%elem_of_singleton|Hb]; [right; by apply tc_once, Hpar|auto].
           ++ right. eapply tc_l; [by apply Hpar|done].
        -- intros b [Hb|Hb]%elem_of_app; [apply Hsn in Hb as [??]; set_solver|].
           apply list_elem_of_singleton in Hb as ->. set_solver.
    + intros [S2 V2] [HS HV Hc Hso Hsn]. cbn in *. split; cbn; [done|set_solver|set_solver| |done].
      intros a b Ha Hna Hp. destruct (decide (a = role)) as [->|Hne]; [|apply (Hc a b); set_solver].
      destruct Hp as (prs' & E' & Hb). apply Hsn. congruence.
  - rret. split; cbn; [done|set_solver|set_solver| |auto].
    intros a b Ha Hna Hp. destruct (decide (a = role)) as [->|Hne].
    + destruct Hp as (prs & E & _). congruence.
    + destruct (Hcl a b); set_solver.
Qed.

(** The ancestors of a role: the transitive closure of the declared parents. *)
Lemma ancestors_runs (spr : ScopeParentRoles) scope pr role :
  spr !! scope = Some (Some pr) → is_Some (pr !! role) →
  runs (collectParentRoles (role_fuel pr) spr scope role ∅ ∅) (λ res, ∀ b, b ∈ res.1 ↔ tc (parent pr) role b).
Proof.
  intros Hspr Hr. eapply runs_mono; [apply (collectParentRoles_runs spr scope pr _ role ∅ ∅ ∅ Hspr)|].
  - apply elem_of_union_l, elem_of_dom, Hr.
  - unfold role_fuel. rewrite difference_empty_L. lia.
  - intros a b Ha. set_solver.
  - intros [S V] [_ _ HrV Hcl Hso]. cbn in *. intros b. split; [intros [?|?]%Hso; [set_solver|done]|].
    intros Htc. assert (b ∈ S ∧ b ∈ V) as [? _]; [|done].
    clear Hr Hso. revert HrV. induction Htc as [x y Hxy|x y z Hxy Htc IH]; intros HrV; [apply (Hcl x y); set_solver|].
    apply IH. destruct (Hcl x y); set_solver.
Qed.

Lemma elem_of_set_range (X : gset string) a : a ∈ set_range X ↔ a ∈ X.
Proof.
  unfold set_range. rewrite elem_of_go_range_keys. destruct (gset_to_gmap () X !! a) as [[]|] eqn:E.
  - apply lookup_gset_to_gmap_Some in E as [? _]. split; [done|]. eauto.
  - apply lookup_gset_to_gmap_None in E. split; [by intros []|done].
Qed.

(** What [IndexParentRoles] must compute. *)
Definition ancestors_of (spr : ScopeParentRoles) (compiled : gmap string (gmap string (list string))) : Prop :=
  ∀ scope, match mjoin (spr !! scope) with
           | None => compiled !! scope = None
           | Some pr => ∃ roles, compiled !! scope = Some roles ∧ dom roles = dom pr ∧
               ∀ role l, roles !! role = Some l → NoDup l ∧ ∀ b, b ∈ l ↔ tc (parent pr) role b
           end.

Lemma NoDup_set_range (X : gset string) : NoDup (set_range X).
Proof. apply NoDup_go_range_keys. Qed.

(** The table of one scope. *)
Lemma scope_ancestors_runs (spr : ScopeParentRoles) scope pr :
  spr !! scope = Some (Some pr) →
  runs (foldM (λ (acc : gmap string (list string)) '(role, _),
          '(set, _) ← collectParentRoles (role_fuel pr) spr scope role ∅ ∅;
          Some (<[role := set_range set]> acc)) ∅ (go_range pr)) (λ roles, dom roles = dom pr ∧
    ∀ role l, roles !! role = Some l → NoDup l ∧ ∀ b, b ∈ l ↔ tc (parent pr) role b).
Proof.
  intros Hspr. eapply runs_mono; [apply (foldM_rule (λ done (acc : gmap string (list string)),
    (∀ role, is_Some (acc !! role) ↔ role ∈ done.*1) ∧
    ∀ role l, acc !! role = Some l → NoDup l ∧ ∀ b, b ∈ l ↔ tc (parent pr) role b))|].
  - split; [|done]. intros role. rewrite lookup_empty. cbn. rewrite elem_of_nil. split; [by intros []|done].
  - intros done [role prs] rest acc E [Hd Hl].
    assert (pr !! role = Some prs) as Hrole. { apply elem_of_go_range. rewrite E. apply elem_of_app. right. left. }
    eapply runs_bind; [apply (ancestors_runs spr scope pr role Hspr); eauto|]. intros [S V] HS. cbn in HS. rret. split.
    + intros role'. rewrite fmap_app, elem_of_app. change ([(role, prs)].*1) with [role]. rewrite list_elem_of_singleton. destruct (decide (role' = role)) as [->|Hne].
      * rewrite lookup_insert_eq. split; eauto.
      * rewrite lookup_insert_ne, Hd by done. naive_solver.
    + intros role' l [[<- <-]|[_ Hx]]%lookup_insert_Some; [|by apply Hl].
      split; [apply NoDup_set_range|]. intros b. by rewrite elem_of_set_range.
  - intros roles [Hd Hl]. cbv beta in *. split; [|done]. apply set_eq. intros role.
    rewrite !elem_of_dom, Hd. apply elem_of_go_range_keys.
Qed.

Lemma compileParentRoleAncestors_runs spr : runs (compileParentRoleAncestors spr) (ancestors_of spr).
Proof.
  unfold compileParentRoleAncestors. eapply runs_mono; [apply (foldM_rule (λ done (compiled : gmap string (gmap string (list string))),
    ∀ scope, match mjoin (spr !! scope) with
             | Some pr => if decide (scope ∈ done.*1) then ∃ roles, compiled !! scope = Some roles ∧ dom roles = dom pr ∧
                 ∀ role l, roles !! role = Some l → NoDup l ∧ ∀ b, b ∈ l ↔ tc (parent pr) role b
                 else compiled !! scope = None
             | None => compiled !! scope = None
             end))|].
  - intros scope. destruct (mjoin _); [|done]. rewrite decide_False; [done|]. apply not_elem_of_nil.
  - intros done [scope opr] rest compiled E HI.
    assert (spr !! scope = Some opr) as Hs. { apply elem_of_go_range. rewrite E. apply elem_of_app. right. left. }
    assert (∀ scope', scope' ≠ scope → scope' ∈ (done ++ [(scope, opr)]).*1 ↔ scope' ∈ done.*1) as Hother.
    { intros scope' Hne. rewrite fmap_app, elem_of_app. cbn. rewrite list_elem_of_singleton. naive_solver. }
    destruct opr as [pr|].
    + eapply runs_bind; [by apply (scope_ancestors_runs spr scope)|]. intros roles Hroles. rret. intros scope'.
      destruct (decide (scope' = scope)) as [->|Hne].
      * rewrite Hs, lookup_insert_eq. cbn [mjoin option_join]. rewrite decide_True; [by exists roles|].
        rewrite fmap_app, elem_of_app. right. left.
      * specialize (HI scope'). rewrite lookup_insert_ne by done. destruct (mjoin _); [|done].
        erewrite decide_ext; [exact HI|by apply Hother].
    + rret. intros scope'. specialize (HI scope'). destruct (decide (scope' = scope)) as [->|Hne].
      * rewrite Hs in *. done.
      * destruct (mjoin _); [|done]. erewrite decide_ext; [exact HI|by apply Hother].
  - intros compiled HI scope. cbv beta in *. specialize (HI scope). destruct (spr !! scope) as [[pr|]|] eqn:E; cbn [mjoin option_join] in *; [|done..].
    rewrite decide_True in HI; [done|]. apply elem_of_go_range_keys. eauto.
Qed.

(** * Adding the ancestors of roles *)

(** [b] is an ancestor of [a] in one of the scopes. *)
Definition ancestor_in (p : gmap string (gmap string (list string))) (scopes : list string) (a b : string) : Prop :=
  ∃ scope c l, scope ∈ scopes ∧ p !! scope = Some c ∧ c !! a = Some l ∧ b ∈ l.

Definition merge_scope (merged c : gmap string (list string)) : gmap string (list string) :=
  foldl (λ merged '(role, parents), <[role := default [] (merged !! role) ++ parents]> merged) merged (go_range c).

Lemma merge_scope_spec merged c a b :
  b ∈ default [] (merge_scope merged c !! a) ↔ b ∈ default [] (merged !! a) ∨ ∃ l, c !! a = Some l ∧ b ∈ l.
Proof.
  unfold merge_scope. setoid_rewrite <-(elem_of_go_range c). revert merged.
  induction (go_range c) as [|[role parents] l IH]; intros merged; cbn [foldl].
  - split; [auto|]. intros [?|(l & Hl & _)]; [done|]. by apply elem_of_nil in Hl.
  - rewrite IH. setoid_rewrite elem_of_cons. destruct (decide (role = a)) as [->|Hne].
    + rewrite lookup_insert_eq. change (default [] (Some ?x)) with x. rewrite elem_of_app. naive_solver.
    + rewrite lookup_insert_ne by done. naive_solver.
Qed.

Definition merge_scopes (p : gmap string (gmap string (list string))) (scopes : list string) : gmap string (list string) :=
  foldl (λ merged scope, match p !! scope with None => merged | Some c => merge_scope merged c end) ∅ scopes.

Lemma merge_scopes_spec p scopes a b : b ∈ default [] (merge_scopes p scopes !! a) ↔ ancestor_in p scopes a b.
Proof.
  unfold merge_scopes.
  assert (∀ merged : gmap string (list string), b ∈ default [] (foldl (λ merged scope, match p !! scope with None => merged | Some c => merge_scope merged c end) merged scopes !! a)
    ↔ b ∈ default [] (merged !! a) ∨ ancestor_in p scopes a b) as Hgen.
  { unfold ancestor_in. induction scopes as [|scope scopes IH]; intros merged; cbn [foldl].
    - split; [auto|]. intros [?|(s & c & l & Hs & _)]; [done|]. by apply elem_of_nil in Hs.
    - rewrite IH. setoid_rewrite elem_of_cons. destruct (p !! scope) as [c|] eqn:E; [rewrite merge_scope_spec|]; naive_solver. }
  rewrite Hgen, lookup_empty. cbn. rewrite elem_of_nil. tauto.
Qed.

(** The given roles, followed by exactly their ancestors in the given scopes. *)
Lemma AddParentRoles_spec m scopes roles :
  ∃ ancestors, AddParentRoles m scopes roles = roles ++ ancestors ∧
    ∀ b, b ∈ ancestors ↔ ∃ a, a ∈ roles ∧ ancestor_in (parentRoles m) scopes a b.
Proof.
  assert (∀ merged : gmap string (list string), (∀ a b, b ∈ default [] (merged !! a) ↔ ancestor_in (parentRoles m) scopes a b) → size merged = 0 →
    ∀ b, b ∈ ([] : list string) ↔ ∃ a, a ∈ roles ∧ ancestor_in (parentRoles m) scopes a b) as Hempty.
  { intros merged Hm ->%map_size_empty_inv b. rewrite elem_of_nil. split; [done|]. intros (a & _ & Ha).
    apply Hm in Ha. rewrite lookup_empty in Ha. by apply elem_of_nil in Ha. }
  pose proof (merge_scopes_spec (parentRoles m) scopes) as Hms.
  unfold AddParentRoles. case_decide as Hsz.
  - exists []. rewrite app_nil_r. split; [done|]. intros b. rewrite elem_of_nil. split; [done|].
    intros (a & _ & scope & c & l & _ & Hl & _). apply map_size_empty_inv in Hsz. rewrite Hsz in Hl. done.
  - change (foldl _ _ scopes) with (merge_scopes (parentRoles m) scopes). set (merged := merge_scopes _ _) in *.
    case_decide as Hsz'.
    + exists []. rewrite app_nil_r. split; [done|]. by apply (Hempty merged).
    + eexists. split; [done|]. intros b. rewrite list_elem_of_In, in_flat_map.
      setoid_rewrite <-list_elem_of_In. setoid_rewrite Hms. done.
Qed.

(** Once the declared parents are indexed, these are the transitive ancestors. *)
Lemma ancestor_in_indexed spr compiled scopes a b :
  ancestors_of spr compiled →
  ancestor_in compiled scopes a b ↔
  ∃ scope pr, scope ∈ scopes ∧ spr !! scope = Some (Some pr) ∧ tc (parent pr) a b.
Proof.
  intros Ha. unfold ancestor_in. split.
  - intros (scope & c & l & Hs & Hc & Hl & Hb). specialize (Ha scope).
    destruct (spr !! scope) as [[pr|]|] eqn:E; cbn in Ha; [|congruence..].
    destruct Ha as (roles & Hroles & _ & Hspec). assert (roles = c) as -> by congruence.
    exists scope, pr. split_and!; [done..|]. by apply (Hspec _ _ Hl).
  - intros (scope & pr & Hs & E & Htc). specialize (Ha scope). rewrite E in Ha. cbn in Ha.
    destruct Ha as (roles & Hroles & Hdom & Hspec).
    assert (is_Some (roles !! a)) as [l Hl].
    { apply elem_of_dom. rewrite Hdom. apply elem_of_dom. destruct Htc as [x y (prs & ? & _)|x y z (prs & ? & _)]; eauto. }
    exists scope, roles, l. split_and!; [done..|]. by apply (Hspec _ _ Hl).
Qed.
End parents.
