(* ===== verification/RuleTableBuild.v ===== *)
(** Building rule rows from compiled policies: [AddPolicy] and the migrations of
    [src/internal/ruletable/ruletable.go]. *)
From stdpp Require Import pretty.
From S2P Require Import Prelude GoRuntime Bitmap Arena LazyDim Dimension GlobDim Namer Policy IndexCore IndexQuery Index.

Local Open Scope string_scope.
Local Open Scope list_scope.
Open Scope nat_scope.

(** * Compiled policies *)

Record RunnableDerivedRole := MkDerivedRole {
  dr_Name : string;
  dr_ParentRoles : gset string;
  dr_Condition : option Condition;
  dr_OrderedVariables : list Variable_;
  dr_Constants : gmap string Value;
  dr_OriginFqn : string;
}.

Record SetMetadata := MkSetMeta {
  sm_Fqn : string;
  sm_Name : string;  (* the principal or the resource *)
  sm_Version : string;
  sm_SourceAttributes : gmap string string;
}.

Record ActionRule := MkActionRule {
  ar_Action : string; ar_Name : string; ar_Condition : option Condition; ar_Effect : Effect;
  ar_Output : option Expr; ar_EmitOutput : option Output;
}.
Record PrincipalPolicy := MkPrincipalPolicy {
  pp_Scope : string;
  pp_ResourceRules : gmap string (list ActionRule);
  pp_OrderedVariables : list Variable_;
  pp_ScopePermissions : ScopePermissions;
  pp_Constants : gmap string Value;
}.

Record ResourceRule := MkResourceRule {
  rr_Name : string; rr_Actions : gset string; rr_DerivedRoles : gset string; rr_Roles : gset string;
  rr_Condition : option Condition; rr_Effect : Effect; rr_Output : option Expr; rr_EmitOutput : option Output;
}.
Record ResourcePolicy := MkResourcePolicy {
  rp_Scope : string;
  rp_DerivedRoles : gmap string RunnableDerivedRole;
  rp_Rules : list ResourceRule;
  rp_OrderedVariables : list Variable_;
  rp_ScopePermissions : ScopePermissions;
  rp_PolicyConstants : gmap string Value;
}.

Record RoleRule := MkRoleRule {
  ro_AllowActions : gset string; ro_Condition : option Condition; ro_EmitOutput : option Output; ro_Name : string;
}.
Record RolePolicySet := MkRolePolicySet {
  rps_Meta : SetMetadata;
  rps_Role : string;
  rps_Scope : string;
  rps_Resources : gmap string (list RoleRule);
  rps_ParentRoles : list string;
  rps_OrderedVariables : list Variable_;
  rps_Constants : gmap string Value;
}.

(** The schemas a policy refers to, by reference. *)
(** Schemas of a policy, with the actions that need no validation, and what
    validation reports. *)
Record SchemaRef := MkSchemaRef { schema_Ref : string; IgnoreWhen : option (list string) }.
Record Schemas_ := MkSchemas { PrincipalSchemaRef : option SchemaRef; ResourceSchemaRef : option SchemaRef }.
Definition GetRef (s : option SchemaRef) : string := match s with Some s => schema_Ref s | None => "" end.
Definition PrincipalSchema (s : Schemas_) : string := GetRef (PrincipalSchemaRef s).
Definition ResourceSchema (s : Schemas_) : string := GetRef (ResourceSchemaRef s).

Inductive ErrSource := ErrSourcePrincipal | ErrSourceResource.
Record ValidationError := MkValidationError { ve_Path : string; ve_Message : string; ve_Source : ErrSource }.


(** [RunnablePolicySet]; the other members of the union have no rules. *)
Inductive RunnablePolicySet :=
  | PS_Resource (meta : SetMetadata) (policies : list ResourcePolicy) (schemas : option Schemas_)
  | PS_Role (p : RolePolicySet)
  | PS_Principal (meta : SetMetadata) (policies : list PrincipalPolicy)
  | PS_Other (fqn : string).

(** The [fqn] field, which the compiler sets to that of the policy. *)
Definition GetFqn (rps : RunnablePolicySet) : string :=
  match rps with
  | PS_Resource m _ _ | PS_Principal m _ => sm_Fqn m
  | PS_Role p => sm_Fqn (rps_Meta p)
  | PS_Other f => f
  end.

(** * The rule table message *)

Record ProtoRuleTable := MkProto {
  pt_Rules : list RuleRow;
  pt_Schemas : gmap N Schemas_;
  pt_Meta : gmap N RuleTableMetadata;
  pt_ScopeParentRoles : ScopeParentRoles;
  pt_PolicyDerivedRoles : gmap N (gmap string RunnableDerivedRole);
  pt_CompilerVersion : N;
}.

Definition compilerVersion : N := 2.
Definition NewProtoRuletable : ProtoRuleTable := MkProto [] ∅ ∅ ∅ ∅ compilerVersion.

Definition set_Rules (r : list RuleRow) (t : ProtoRuleTable) : ProtoRuleTable :=
  MkProto r (pt_Schemas t) (pt_Meta t) (pt_ScopeParentRoles t) (pt_PolicyDerivedRoles t) (pt_CompilerVersion t).
Definition set_Schemas (s : gmap N Schemas_) (t : ProtoRuleTable) : ProtoRuleTable :=
  MkProto (pt_Rules t) s (pt_Meta t) (pt_ScopeParentRoles t) (pt_PolicyDerivedRoles t) (pt_CompilerVersion t).
Definition set_Meta (m : gmap N RuleTableMetadata) (t : ProtoRuleTable) : ProtoRuleTable :=
  MkProto (pt_Rules t) (pt_Schemas t) m (pt_ScopeParentRoles t) (pt_PolicyDerivedRoles t) (pt_CompilerVersion t).
Definition set_ScopeParentRoles (s : ScopeParentRoles) (t : ProtoRuleTable) : ProtoRuleTable :=
  MkProto (pt_Rules t) (pt_Schemas t) (pt_Meta t) s (pt_PolicyDerivedRoles t) (pt_CompilerVersion t).
Definition set_PolicyDerivedRoles (d : gmap N (gmap string RunnableDerivedRole)) (t : ProtoRuleTable) : ProtoRuleTable :=
  MkProto (pt_Rules t) (pt_Schemas t) (pt_Meta t) (pt_ScopeParentRoles t) d (pt_CompilerVersion t).

Section build.
Context `{GoMapOrder} `{StringHash}.

(** * Rows *)

(** [emitOutput]: the deprecated [output] becomes an output on activation. *)
Definition rule_output (emit : option Output) (out : option Expr) : option Output :=
  match emit, out with
  | None, Some e => Some (MkOutput (Some (MkWhen (Some e) None)))
  | _, _ => emit
  end.

Definition effective_permissions (sp : ScopePermissions) : ScopePermissions :=
  match sp with SCOPE_PERMISSIONS_UNSPECIFIED => SCOPE_PERMISSIONS_OVERRIDE_PARENT | _ => sp end.

(** Under parental consent, a conditional ALLOW becomes a DENY on the negated condition. *)
Definition consent_row (sp : ScopePermissions) (row : RuleRow) : RuleRow :=
  match sp, r_Effect row, r_Condition row with
  | SCOPE_PERMISSIONS_REQUIRE_PARENTAL_CONSENT_FOR_ALLOWS, EFFECT_ALLOW, Some c =>
      MkRow (r_OriginFqn row) (r_Resource row) (r_Role row) (r_ActionSet row) (Some (Cond_None [c])) (r_DerivedRoleCondition row)
        EFFECT_DENY (r_Scope row) (r_ScopePermissions row) (r_Version row) (r_OriginDerivedRole row) (r_EmitOutput row)
        (r_Name row) (r_Principal row) (r_Params row) (r_DerivedRoleParams row) (r_EvaluationKey row)
        (r_EvaluationKeyTuple row) (r_PolicyKind row) (r_FromRolePolicy row)
  | _, _, _ => row
  end.

Definition emptyParams : Params := MkParams [] ∅.

(** The row of a policy without rules. *)
Definition noop_row (fqn res scope version principal : string) (sp : ScopePermissions) (kind : Kind) : RuleRow :=
  MkRow fqn res "" ActionSet_none None None EFFECT_UNSPECIFIED scope sp version "" None "" principal
    (Some emptyParams) (Some emptyParams) "" None kind false.

(** ** Principal policies *)

Definition principal_row (meta : SetMetadata) (p : PrincipalPolicy) (resource : string) (rule : ActionRule)
    (ruleFqn : string) : RuleRow :=
  consent_row (pp_ScopePermissions p)
    (MkRow (sm_Fqn meta) (SanitizedResource resource) "*" (ActionSet_Action (ar_Action rule)) (ar_Condition rule) None
       (ar_Effect rule) (pp_Scope p) (effective_permissions (pp_ScopePermissions p)) (sm_Version meta) ""
       (rule_output (ar_EmitOutput rule) (ar_Output rule)) (ar_Name rule) (sm_Name meta)
       (Some (MkParams (pp_OrderedVariables p) (pp_Constants p))) None
       (PrincipalPolicyFQN (sm_Name meta) (sm_Version meta) (pp_Scope p) +:+ "#" +:+ ruleFqn +:+ "#" +:+ resource)
       (Some (MkKeyPB PrincipalPoliciesPrefix resource (sm_Name meta) "" "" (sm_Version meta) (pp_Scope p) (ar_Name rule) 0))
       KIND_PRINCIPAL false).

Definition addPrincipalPolicy (rt : ProtoRuleTable) (meta : SetMetadata) (policies : list PrincipalPolicy) :
    option (list RuleRow * ProtoRuleTable) :=
  match policies with
  | [] => Some ([], rt)
  | p :: _ =>
      let moduleID := GenModuleIDFromFQN (sm_Fqn meta) in
      let rt := set_Meta (<[moduleID := MkMeta (sm_Fqn meta) (Some (Meta_Principal (sm_Name meta))) (sm_Version meta)
                                          (sm_SourceAttributes meta)]> (pt_Meta rt)) rt in
      let noop := if decide (size (pp_ResourceRules p) = 0)
                  then [noop_row (sm_Fqn meta) "" (pp_Scope p) (sm_Version meta) (sm_Name meta)
                          (effective_permissions (pp_ScopePermissions p)) KIND_PRINCIPAL]
                  else [] in
      rows ← mapM (λ '(resource, rules), mapM (λ rule,
               ruleFqn ← RuleFQN (pt_Meta rt !! moduleID) (pp_Scope p) (ar_Name rule);
               Some (principal_row meta p resource rule ruleFqn)) rules) (go_range (pp_ResourceRules p));
      Some (noop ++ concat rows, rt)
  end.

(** ** Resource policies *)

Definition resource_row (meta : SetMetadata) (p : ResourcePolicy) (rule : ResourceRule) (action role : string)
    (drCond : option Condition) (originDR : string) (drParams : option Params) (evaluationKey : string)
    (tuple : EvaluationKeyTuplePB) : RuleRow :=
  consent_row (rp_ScopePermissions p)
    (MkRow (sm_Fqn meta) (SanitizedResource (sm_Name meta)) role (ActionSet_Action action) (rr_Condition rule) drCond
       (rr_Effect rule) (rp_Scope p) (effective_permissions (rp_ScopePermissions p)) (sm_Version meta) originDR
       (rule_output (rr_EmitOutput rule) (rr_Output rule)) (rr_Name rule) ""
       (Some (MkParams (rp_OrderedVariables p) (rp_PolicyConstants p))) drParams evaluationKey (Some tuple) KIND_RESOURCE false).

Definition role_rows (meta : SetMetadata) (p : ResourcePolicy) (rule : ResourceRule) (ruleFqn a : string) : list RuleRow :=
  let res := SanitizedResource (sm_Name meta) in
  (λ r, resource_row meta p rule a r None "" None
          (ResourcePolicyFQN res (sm_Version meta) (rp_Scope p) +:+ "#" +:+ ruleFqn)
          (MkKeyPB ResourcePoliciesPrefix res "" "" "" (sm_Version meta) (rp_Scope p) (rr_Name rule) 0))
  <$> set_range (rr_Roles rule).

(** Derived roles become rows for their parent roles, with an added condition. *)
Definition derived_role_rows (meta : SetMetadata) (p : ResourcePolicy) (rule : ResourceRule) (ruleFqn a : string) : list RuleRow :=
  let res := SanitizedResource (sm_Name meta) in
  set_range (rr_DerivedRoles rule) ≫= λ dr,
    match rp_DerivedRoles p !! dr with
    | None => []
    | Some rdr =>
        (λ pr, resource_row meta p rule a pr (dr_Condition rdr) dr
                 (Some (MkParams (dr_OrderedVariables rdr) (dr_Constants rdr)))
                 (DerivedRolesFQN dr +:+ "#" +:+ ruleFqn)
                 (MkKeyPB DerivedRolesPrefix res "" "" dr (sm_Version meta) (rp_Scope p) (rr_Name rule) 0))
        <$> set_range (dr_ParentRoles rdr)
    end.

Definition rule_rows (meta : SetMetadata) (p : ResourcePolicy) (rule : ResourceRule) (ruleFqn : string) : list RuleRow :=
  set_range (rr_Actions rule) ≫= λ a, role_rows meta p rule ruleFqn a ++ derived_role_rows meta p rule ruleFqn a.

Definition addResourcePolicy (rt : ProtoRuleTable) (meta : SetMetadata) (policies : list ResourcePolicy) (schemas : option Schemas_) :
    option (list RuleRow * ProtoRuleTable) :=
  match policies with
  | [] => Some ([], rt)
  | p :: _ =>
      let sanitizedResource := SanitizedResource (sm_Name meta) in
      let moduleID := GenModuleIDFromFQN (sm_Fqn meta) in
      let rt := match schemas with Some s => set_Schemas (<[moduleID := s]> (pt_Schemas rt)) rt | None => rt end in
      let rt := set_Meta (<[moduleID := MkMeta (sm_Fqn meta) (Some (Meta_Resource sanitizedResource)) (sm_Version meta)
                                          (sm_SourceAttributes meta)]> (pt_Meta rt)) rt in
      let rt := if decide (0 < size (rp_DerivedRoles p))
                then set_PolicyDerivedRoles (<[moduleID := rp_DerivedRoles p]> (pt_PolicyDerivedRoles rt)) rt else rt in
      let noop := match rp_Rules p with
                  | [] => [noop_row (sm_Fqn meta) sanitizedResource (rp_Scope p) (sm_Version meta) ""
                             (effective_permissions (rp_ScopePermissions p)) KIND_RESOURCE]
                  | _ => []
                  end in
      rows ← mapM (λ rule,
               ruleFqn ← RuleFQN (pt_Meta rt !! moduleID) (rp_Scope p) (rr_Name rule);
               Some (rule_rows meta p rule ruleFqn)) (rp_Rules p);
      Some (noop ++ concat rows, rt)
  end.

(** ** Role policies *)

(** [%03d] *)
Definition pad3 (n : nat) : string :=
  let s := pretty n in
  match String.length s with 1 => "00" +:+ s | 2 => "0" +:+ s | _ => s end.

Definition role_policy_row (p : RolePolicySet) (resource : string) (idx : nat) (rule : RoleRule) : RuleRow :=
  let ver := sm_Version (rps_Meta p) in
  MkRow (sm_Fqn (rps_Meta p)) resource (rps_Role p) (ActionSet_AllowActions (ro_AllowActions rule)) (ro_Condition rule) None
    EFFECT_UNSPECIFIED (rps_Scope p) SCOPE_PERMISSIONS_UNSPECIFIED ver "" (ro_EmitOutput rule) (ro_Name rule) ""
    (Some (MkParams (rps_OrderedVariables p) (rps_Constants p))) None
    (PolicyKeyFromFQN (RolePolicyFQN (rps_Role p) ver (rps_Scope p)) +:+ "#" +:+ rps_Role p +:+ "_" +:+ resource +:+ "_rule-" +:+ pad3 idx)
    (Some (MkKeyPB RolePoliciesPrefix resource "" (rps_Role p) "" ver (rps_Scope p) "" (N.of_nat idx mod 2 ^ 32)))
    KIND_RESOURCE true.

(** The declared parents of the role; reading through a nil message would panic. *)
Definition record_parents (spr : ScopeParentRoles) (scope role : string) (parents : list string) : option ScopeParentRoles :=
  match spr !! scope with
  | None => Some (<[scope := Some {[role := parents]}]> spr)
  | Some (Some m) => Some (<[scope := Some (<[role := parents]> m)]> spr)
  | Some None => None
  end.

Definition addRolePolicy (rt : ProtoRuleTable) (p : RolePolicySet) : option (list RuleRow * ProtoRuleTable) :=
  let meta := rps_Meta p in
  let moduleID := GenModuleIDFromFQN (sm_Fqn meta) in
  let rt := set_Meta (<[moduleID := MkMeta (sm_Fqn meta) (Some (Meta_Role (rps_Role p))) (sm_Version meta)
                                      (sm_SourceAttributes meta)]> (pt_Meta rt)) rt in
  let rows := go_range (rps_Resources p) ≫= λ '(resource, rules), imap (role_policy_row p resource) rules in
  spr ← record_parents (pt_ScopeParentRoles rt) (rps_Scope p) (rps_Role p) (rps_ParentRoles p);
  Some (rows, set_ScopeParentRoles spr rt).

Definition AddPolicy (rt : ProtoRuleTable) (rps : RunnablePolicySet) : option (list RuleRow * ProtoRuleTable) :=
  match rps with
  | PS_Resource meta policies schemas => addResourcePolicy rt meta policies schemas
  | PS_Role p => addRolePolicy rt p
  | PS_Principal meta policies => addPrincipalPolicy rt meta policies
  | PS_Other _ => Some ([], rt)
  end.

(** * Loading *)

(** [LoadPolicies]: the rows of all policies, in order. *)
Definition LoadPolicies (rt : ProtoRuleTable) (all : list RunnablePolicySet) : option ProtoRuleTable :=
  '(rules, rt) ← foldM (λ '(acc, rt) p, '(rules, rt) ← AddPolicy rt p; Some (acc ++ rules, rt)) ([], rt) all;
  Some (set_Rules rules rt).

(** [LoadPoliciesIter]: policies one at a time; [None] elements are nil sets. *)
Definition LoadPoliciesIter (rt : ProtoRuleTable) (all : list (option RunnablePolicySet)) : option ProtoRuleTable :=
  foldM (λ rt o,
    match o with
    | None => Some rt
    | Some p => '(rules, rt) ← AddPolicy rt p; Some (set_Rules (pt_Rules rt ++ rules) rt)
    end) rt all.

(** * Migrations *)

(** [strings.LastIndex(s, "_rule-")], as a split of [s]. *)
Definition rule_marker : string := "_rule-".
Fixpoint split_last_rule (s : string) : option (string * string) :=
  match s with
  | EmptyString => None
  | String c s' =>
      match split_last_rule s' with
      | Some (a, b) => Some (String c a, b)
      | None => if String.prefix rule_marker s then Some ("", s) else None
      end
  end.

Definition set_key (row : RuleRow) (key : string) (tuple : option EvaluationKeyTuplePB) : RuleRow :=
  MkRow (r_OriginFqn row) (r_Resource row) (r_Role row) (r_ActionSet row) (r_Condition row) (r_DerivedRoleCondition row)
    (r_Effect row) (r_Scope row) (r_ScopePermissions row) (r_Version row) (r_OriginDerivedRole row) (r_EmitOutput row)
    (r_Name row) (r_Principal row) (r_Params row) (r_DerivedRoleParams row) key tuple (r_PolicyKind row) (r_FromRolePolicy row).

Definition set_tuple_resource (t : EvaluationKeyTuplePB) (res : string) : EvaluationKeyTuplePB :=
  MkKeyPB (pbk_Prefix t) res (pbk_Principal t) (pbk_Role t) (pbk_DerivedRole t) (pbk_Version t) (pbk_Scope t) (pbk_RuleName t) (pbk_RuleId t).

Definition migrate_row_1To2 (row : RuleRow) : RuleRow :=
  let tuple := (λ t, set_tuple_resource t (r_Resource row)) <$> r_EvaluationKeyTuple row in
  if r_FromRolePolicy row then
    set_key row (match split_last_rule (r_EvaluationKey row) with
                 | Some (a, b) => a +:+ "_" +:+ r_Resource row +:+ b
                 | None => r_EvaluationKey row
                 end) tuple
  else if decide (r_PolicyKind row = KIND_PRINCIPAL) then
    set_key row (if decide (r_EvaluationKey row ≠ "") then r_EvaluationKey row +:+ "#" +:+ r_Resource row else r_EvaluationKey row) tuple
  else row.

(** The first migration rewrites type-checked trees, which the model does not
    keep; the second rewrites evaluation keys. *)
Definition migrateFromCompilerVersion0To1 (rt : ProtoRuleTable) : ProtoRuleTable := rt.
Definition migrateFromCompilerVersion1To2 (rt : ProtoRuleTable) : ProtoRuleTable :=
  set_Rules (migrate_row_1To2 <$> pt_Rules rt) rt.
Definition compilerVersionMigrations : list (ProtoRuleTable → ProtoRuleTable) :=
  [migrateFromCompilerVersion0To1; migrateFromCompilerVersion1To2].

(** [migrate] runs the migrations from the table's version on; tables of the
    current or a newer version are left alone. *)
Definition migrate (rt : ProtoRuleTable) : ProtoRuleTable :=
  if decide (compilerVersion ≤ pt_CompilerVersion rt)%N then rt
  else foldl (λ rt f, f rt) rt (drop (N.to_nat (pt_CompilerVersion rt)) compilerVersionMigrations).
End build.
