(* ===== verification/RuleTable.v ===== *)
(** The rule table: [RuleTable] of [src/internal/ruletable/ruletable.go].  Its
    in-memory state, how rows get into it, and the lookups [check] makes. *)
From S2P Require Import Prelude GoRuntime Bitmap Arena LazyDim Dimension GlobDim Namer Policy ScopePerms IndexCore IndexQuery IndexLookup Index RuleTableBuild.

Local Open Scope string_scope.
Local Open Scope list_scope.
Open Scope nat_scope.

(** [util.HashPB] of a derived role. *)
Class DerivedRoleHash := { hash_derived_role : RunnableDerivedRole → N }.

Record WrappedRunnableDerivedRole := MkWrapped {
  w_role : RunnableDerivedRole;
  w_Constants : gmap string Value;
  w_VarCacheKey : N;
}.

Section ruletable.
Context `{GlobEngine} `{CelCompiler} `{GoMapOrder} `{ContentHash} `{StringHash} `{DerivedRoleHash}.

(** [ProgramCache]: compiled programs by source text. *)
Definition ProgramCache : Type := gmap string cel_program.
Definition NewProgramCache : ProgramCache := ∅.
Definition ProgramCache_Clear (c : ProgramCache) : ProgramCache := ∅.
Definition ProgramCache_GetOrCreate (c : ProgramCache) (e : Expr) : option cel_program * ProgramCache :=
  match c !! Original e with
  | Some p => (Some p, c)
  | None =>
      match cel_compile (Original e) with
      | None => (None, c)
      | Some p => (Some p, <[Original e := p]> c)
      end
  end.

Record RuleTable := MkRuleTable {
  rt_proto : ProtoRuleTable;
  rt_idx : Index;
  rt_principalScopeMap : gset string;
  rt_resourceScopeMap : gset string;
  rt_scopePermsTracker : Tracker;
  rt_scopeScopePermissions : gmap string ScopePermissions;
  rt_policyDerivedRoles : gmap ModuleID (gmap string WrappedRunnableDerivedRole);
  rt_programCache : ProgramCache;
  rt_pool : list Bitmap;
}.

Definition set_proto (p : ProtoRuleTable) (rt : RuleTable) : RuleTable :=
  MkRuleTable p (rt_idx rt) (rt_principalScopeMap rt) (rt_resourceScopeMap rt) (rt_scopePermsTracker rt)
    (rt_scopeScopePermissions rt) (rt_policyDerivedRoles rt) (rt_programCache rt) (rt_pool rt).
Definition set_idx (i : Index) (rt : RuleTable) : RuleTable :=
  MkRuleTable (rt_proto rt) i (rt_principalScopeMap rt) (rt_resourceScopeMap rt) (rt_scopePermsTracker rt)
    (rt_scopeScopePermissions rt) (rt_policyDerivedRoles rt) (rt_programCache rt) (rt_pool rt).
Definition set_scope_maps (p r : gset string) (rt : RuleTable) : RuleTable :=
  MkRuleTable (rt_proto rt) (rt_idx rt) p r (rt_scopePermsTracker rt)
    (rt_scopeScopePermissions rt) (rt_policyDerivedRoles rt) (rt_programCache rt) (rt_pool rt).
Definition set_permissions (t : Tracker) (sp : gmap string ScopePermissions) (rt : RuleTable) : RuleTable :=
  MkRuleTable (rt_proto rt) (rt_idx rt) (rt_principalScopeMap rt) (rt_resourceScopeMap rt) t sp
    (rt_policyDerivedRoles rt) (rt_programCache rt) (rt_pool rt).
Definition set_policyDerivedRoles (d : gmap ModuleID (gmap string WrappedRunnableDerivedRole)) (rt : RuleTable) : RuleTable :=
  MkRuleTable (rt_proto rt) (rt_idx rt) (rt_principalScopeMap rt) (rt_resourceScopeMap rt) (rt_scopePermsTracker rt)
    (rt_scopeScopePermissions rt) d (rt_programCache rt) (rt_pool rt).
Definition set_programCache (c : ProgramCache) (rt : RuleTable) : RuleTable :=
  MkRuleTable (rt_proto rt) (rt_idx rt) (rt_principalScopeMap rt) (rt_resourceScopeMap rt) (rt_scopePermsTracker rt)
    (rt_scopeScopePermissions rt) (rt_policyDerivedRoles rt) c (rt_pool rt).

(** * Indexing rows *)

Definition wrap_derived_role (dr : RunnableDerivedRole) : WrappedRunnableDerivedRole :=
  MkWrapped dr (dr_Constants dr) (hash_derived_role dr).

(** The derived roles of the policy a row comes from. *)
Definition note_derived_roles (rt : RuleTable) (rule : RuleRow) : RuleTable :=
  if decide (r_PolicyKind rule = KIND_RESOURCE ∧ r_FromRolePolicy rule = false) then
    let modID := GenModuleIDFromFQN (r_OriginFqn rule) in
    match pt_PolicyDerivedRoles (rt_proto rt) !! modID with
    | None => rt
    | Some pdr =>
        let have := default ∅ (rt_policyDerivedRoles rt !! modID) in
        let have := foldl (λ m '(n, dr), <[n := wrap_derived_role dr]> m) have (go_range pdr) in
        set_policyDerivedRoles (<[modID := have]> (rt_policyDerivedRoles rt)) rt
    end
  else rt.

Definition note_permissions (rt : RuleTable) (rule : RuleRow) : RuleTable :=
  if r_FromRolePolicy rule then rt
  else
    set_permissions
      (Tracker_Add (rt_scopePermsTracker rt) (r_PolicyKind rule) (PolicyKeyFromFQN (r_OriginFqn rule)) (r_Scope rule) (r_ScopePermissions rule))
      (<[r_Scope rule := Normalise (r_ScopePermissions rule)]> (rt_scopeScopePermissions rt)) rt.

Definition note_scope (rt : RuleTable) (rule : RuleRow) : RuleTable :=
  match r_PolicyKind rule with
  | KIND_PRINCIPAL => set_scope_maps ({[r_Scope rule]} ∪ rt_principalScopeMap rt) (rt_resourceScopeMap rt) rt
  | KIND_RESOURCE => set_scope_maps (rt_principalScopeMap rt) ({[r_Scope rule]} ∪ rt_resourceScopeMap rt) rt
  | _ => rt
  end.

(** [indexRules]: the flag is false when a row does not compile. *)
Definition indexRules (rt : RuleTable) (rules : list RuleRow) : option (RuleTable * bool) :=
  let rt := foldl (λ rt rule, note_scope (note_permissions (note_derived_roles rt rule) rule) rule) rt rules in
  '(idx, ok) ← IndexRules (rt_idx rt) rules;
  let rt := set_idx idx rt in
  if (ok : bool) then
    idx ← IndexParentRoles (rt_idx rt) (pt_ScopeParentRoles (rt_proto rt));
    Some (set_idx idx rt, true)
  else Some (rt, false).

(** [ingestPolicy]; releasing the checked expressions has no counterpart here. *)
Definition ingestPolicy (rt : RuleTable) (rps : option RunnablePolicySet) : option (RuleTable * bool) :=
  match rps with
  | None => Some (rt, true)
  | Some rps =>
      '(rows, proto) ← AddPolicy (rt_proto rt) rps;
      indexRules (set_proto proto rt) rows
  end.

(** * Building a table *)

Definition initBuildState (rt : RuleTable) : RuleTable :=
  MkRuleTable (rt_proto rt) (rt_idx rt) ∅ ∅ NewTracker ∅ ∅ (rt_programCache rt) (rt_pool rt).

Definition finalizeBuild (rt : RuleTable) : option RuleTable :=
  idx ← Index_Compact (rt_idx rt);
  Some (set_idx idx (set_proto (set_PolicyDerivedRoles ∅ (set_Rules [] (rt_proto rt))) rt)).

Inductive BuildError :=
  | CompileFailed
  | ScopePermissionConflicts (l : list Conflict)
  | LoadFailed.

Definition emptyRuleTable (proto : ProtoRuleTable) (pool : list Bitmap) : RuleTable :=
  MkRuleTable proto New ∅ ∅ NewTracker ∅ ∅ NewProgramCache pool.

Definition init (rt : RuleTable) (protoRT : ProtoRuleTable) : option (RuleTable + BuildError) :=
  let rt := initBuildState (set_proto (migrate protoRT) rt) in
  '(rt, ok) ← indexRules rt (pt_Rules (rt_proto rt));
  if (ok : bool) then
    match Tracker_Err (rt_scopePermsTracker rt) with
    | Some c => Some (inr (ScopePermissionConflicts c))
    | None => rt ← finalizeBuild rt; Some (inl rt)
    end
  else Some (inr CompileFailed).

Definition NewRuleTable (protoRT : ProtoRuleTable) (pool : list Bitmap) : option (RuleTable + BuildError) :=
  init (emptyRuleTable protoRT pool) protoRT.

(** [newRuleTableFromIterableLoader]: [inr] elements are loader errors. *)
Fixpoint ingestAll (rt : RuleTable) (all : list (option RunnablePolicySet + unit)) : option (RuleTable + BuildError) :=
  match all with
  | [] => Some (inl rt)
  | inr _ :: _ => Some (inr LoadFailed)
  | inl rps :: all =>
      '(rt, ok) ← ingestPolicy rt rps;
      if (ok : bool) then ingestAll rt all else Some (inr CompileFailed)
  end.

Definition newRuleTableFromIterableLoader (all : list (option RunnablePolicySet + unit)) (pool : list Bitmap) : option (RuleTable + BuildError) :=
  r ← ingestAll (initBuildState (emptyRuleTable NewProtoRuletable pool)) all;
  match r with
  | inr e => Some (inr e)
  | inl rt =>
      match Tracker_Err (rt_scopePermsTracker rt) with
      | Some c => Some (inr (ScopePermissionConflicts c))
      | None => rt ← finalizeBuild rt; Some (inl rt)
      end
  end.

(** * Lookups *)

Definition GetDerivedRoles (rt : RuleTable) (fqn : string) : gmap string WrappedRunnableDerivedRole :=
  default ∅ (rt_policyDerivedRoles rt !! GenModuleIDFromFQN fqn).
Definition GetSchema (rt : RuleTable) (fqn : string) : option Schemas_ := pt_Schemas (rt_proto rt) !! GenModuleIDFromFQN fqn.
Definition GetMeta (rt : RuleTable) (fqn : string) : option RuleTableMetadata := pt_Meta (rt_proto rt) !! GenModuleIDFromFQN fqn.
Definition GetScopeScopePermissions (rt : RuleTable) (scope : string) : ScopePermissions :=
  default SCOPE_PERMISSIONS_UNSPECIFIED (rt_scopeScopePermissions rt !! scope).

(** [GetAllScopes]: the scopes with policies of the kind, from the requested one
    up, and the key and FQN of the first.  Both callers pass a principal or a
    resource kind; for any other kind the scope map is nil. *)
Definition GetAllScopes (rt : RuleTable) (pt : Kind) (scope name version : string) (lenient : bool) : list string * string * string :=
  let '(fqnFn, scopeMap) :=
    match pt with
    | KIND_PRINCIPAL => (PrincipalPolicyFQN, rt_principalScopeMap rt)
    | KIND_RESOURCE => (ResourcePolicyFQN, rt_resourceScopeMap rt)
    | _ => (ResourcePolicyFQN, ∅)
    end in
  let step '(scopes, key, fqn) s :=
    if decide (s ∈ scopeMap) then
      (scopes ++ [s], if decide (key = "") then PolicyKeyFromFQN (fqnFn name version s) else key,
       if decide (key = "") then fqnFn name version s else fqn)
    else (scopes, key, fqn) in
  if decide (scope ∈ scopeMap) then
    let firstFqn := fqnFn name version scope in
    foldl step ([scope], PolicyKeyFromFQN firstFqn, firstFqn) (ScopeParents scope)
  else if negb lenient then ([], "", "")
  else foldl step ([], "", "") (ScopeParents scope).

(** [checkScopePermissions]: the conflict adding the policy set would create. *)
Definition checkScopePermissions (rt : RuleTable) (rps : RunnablePolicySet) (ignoredPolicyKey : string) : option Conflict :=
  let check kind scope sp := Tracker_Check (rt_scopePermsTracker rt) kind (PolicyKeyFromFQN (GetFqn rps)) scope sp ignoredPolicyKey in
  match rps with
  | PS_Resource _ (p :: _) _ => check KIND_RESOURCE (rp_Scope p) (rp_ScopePermissions p)
  | PS_Principal _ (p :: _) => check KIND_PRINCIPAL (pp_Scope p) (pp_ScopePermissions p)
  | _ => None
  end.
End ruletable.
