(* ===== verification/Manager.v ===== *)
(** Keeping a rule table up to date: [Manager] of
    [src/internal/ruletable/manager.go].  Events are handled one after the other,
    so a history of the manager is a sequence of these steps; what checks see between
    the critical sections of one event is the subject of [Serving]. *)
From S2P Require Import Prelude GoRuntime Bitmap Arena LazyDim Dimension GlobDim Namer Policy ScopePerms IndexCore IndexQuery IndexLookup Index RuleTableBuild RuleTable.

Local Open Scope string_scope.
Local Open Scope list_scope.
Open Scope nat_scope.

Section manager.
Context `{GlobEngine} `{CelCompiler} `{GoMapOrder} `{ContentHash} `{StringHash} `{DerivedRoleHash}.

(** * Storage events *)

Inductive EventKind := EventReload | EventAddOrUpdatePolicy | EventDeleteOrDisablePolicy | EventOther.
Record Event := MkEvent {
  ev_Kind : EventKind;
  ev_PolicyID : ModuleID;
  ev_OldPolicyID : option ModuleID;
  ev_Dependents : list ModuleID;
}.

(** [policyloader.PolicyLoader] is an interface: each call returns a result or
    fails ([None]); the policy sets may be nil. *)
Record PolicyLoader := MkLoader {
  GetFirstMatch : list ModuleID → option (option RunnablePolicySet);
  GetAllMatching : list ModuleID → option (list (option RunnablePolicySet));
  LoadAll : option (list (option RunnablePolicySet + unit));
}.

(** * State *)

Inductive ManagerError :=
  | LoaderFailed | Rejected (c : Conflict) | AddFailed | ReloadFailed (e : option BuildError).

Record Manager := MkManager {
  mgr_RuleTable : RuleTable;
  lastReloadErr : option ManagerError;
}.
Definition set_table (rt : RuleTable) (m : Manager) : Manager := MkManager rt (lastReloadErr m).

(** * Deleting a policy *)

(** The role of role policy metadata ([meta.GetRole()]). *)
Definition GetRole (m : RuleTableMetadata) : string :=
  match meta_Name m with Some (Meta_Role r) => r | _ => "" end.

Definition drop_parents (spr : ScopeParentRoles) (scope role : string) : ScopeParentRoles :=
  match spr !! scope with
  | Some (Some m) => let m := delete role m in if decide (size m = 0) then delete scope spr else <[scope := Some m]> spr
  | _ => spr
  end.

Definition doDeletePolicy (rt : RuleTable) (moduleID : ModuleID) : option RuleTable :=
  match pt_Meta (rt_proto rt) !! moduleID with
  | None => Some rt
  | Some meta =>
      let rt := set_programCache (ProgramCache_Clear (rt_programCache rt)) rt in
      idx ← DeletePolicy (rt_idx rt) (meta_Fqn meta);
      let rt := set_idx idx rt in
      let activeScopeSet : gset string := list_to_set (GetScopes (bi (rt_idx rt))) in
      let scope := ScopeFromFQN (meta_Fqn meta) in
      rt ← (if decide (GetRole meta = "") then Some rt
            else
              let spr := drop_parents (pt_ScopeParentRoles (rt_proto rt)) scope (GetRole meta) in
              idx ← IndexParentRoles (rt_idx rt) spr;
              Some (set_idx idx (set_proto (set_ScopeParentRoles spr (rt_proto rt)) rt)));
      let rt := set_scope_maps (rt_principalScopeMap rt ∩ activeScopeSet) (rt_resourceScopeMap rt ∩ activeScopeSet) rt in
      let tracker := Tracker_Remove (rt_scopePermsTracker rt) (PolicyKeyFromFQN (meta_Fqn meta)) in
      let rt := set_permissions tracker
                  (if Tracker_Tracked tracker scope then rt_scopeScopePermissions rt else delete scope (rt_scopeScopePermissions rt)) rt in
      let proto := rt_proto rt in
      let rt := set_proto (set_Schemas (delete moduleID (pt_Schemas proto)) (set_Meta (delete moduleID (pt_Meta proto)) proto)) rt in
      Some (set_policyDerivedRoles (delete moduleID (rt_policyDerivedRoles rt)) rt)
  end.

(** * Adding a policy *)

(** [checkPolicy]: the conflict that makes the policy rejected. *)
Definition checkPolicy (rt : RuleTable) (rps : option RunnablePolicySet) (oldPolicyID : option ModuleID) : option Conflict :=
  match rps with
  | None => None
  | Some rps =>
      let ignoredPolicyKey :=
        match oldPolicyID with
        | Some id => match pt_Meta (rt_proto rt) !! id with Some meta => PolicyKeyFromFQN (meta_Fqn meta) | None => "" end
        | None => ""
        end in
      checkScopePermissions rt rps ignoredPolicyKey
  end.

Definition addPolicy (rt : RuleTable) (rps : option RunnablePolicySet) : option (RuleTable * bool) := ingestPolicy rt rps.

(** * Events *)

Definition addOrUpdate (ld : PolicyLoader) (rt : RuleTable) (evt : Event) : option (RuleTable * option ManagerError) :=
  match GetFirstMatch ld [ev_PolicyID evt] with
  | None => Some (rt, Some LoaderFailed)
  | Some rps =>
      match checkPolicy rt rps (ev_OldPolicyID evt) with
      | Some c => Some (rt, Some (Rejected c))
      | None =>
          rt ← doDeletePolicy rt (ev_PolicyID evt);
          rt ← (match ev_OldPolicyID evt with Some id => doDeletePolicy rt id | None => Some rt end);
          '(rt, ok) ← addPolicy rt rps;
          Some (rt, if (ok : bool) then None else Some AddFailed)
      end
  end.

(** Adding a dependent again: nothing more is added after a failure. *)
Definition readd (s : RuleTable * option ManagerError) (rps : option RunnablePolicySet) : option (RuleTable * option ManagerError) :=
  let '(rt, e) := s in
  match e with
  | Some _ => Some (rt, e)
  | None => '(rt, ok) ← addPolicy rt rps; Some (rt, if (ok : bool) then None else Some AddFailed)
  end.

(** Dependents are loaded first, then deleted and added again. *)
Definition reloadDependents (ld : PolicyLoader) (rt : RuleTable) (deps : list ModuleID) : option (RuleTable * option ManagerError) :=
  match deps with
  | [] => Some (rt, None)
  | _ =>
      match GetAllMatching ld deps with
      | None => Some (rt, Some LoaderFailed)
      | Some toReload =>
          rt ← foldM doDeletePolicy rt deps;
          foldM readd (rt, None) toReload
      end
  end.

Definition processPolicyEvent (ld : PolicyLoader) (rt : RuleTable) (evt : Event) : option (RuleTable * option ManagerError) :=
  '(rt, e) ← (match ev_Kind evt with
              | EventAddOrUpdatePolicy => addOrUpdate ld rt evt
              | EventDeleteOrDisablePolicy => rt ← doDeletePolicy rt (ev_PolicyID evt); Some (rt, None)
              | _ => Some (rt, None)
              end);
  match e with
  | Some _ => Some (rt, e)
  | None => reloadDependents ld rt (ev_Dependents evt)
  end.

(** [reload]: a new table is built aside and only replaces the current one when
    that succeeds.  [pool] is the pool of bitmaps, which tables share. *)
Definition reload (ld : PolicyLoader) (m : Manager) : option Manager :=
  match LoadAll ld with
  | None => Some (MkManager (mgr_RuleTable m) (Some (ReloadFailed None)))
  | Some all =>
      r ← newRuleTableFromIterableLoader all (rt_pool (mgr_RuleTable m));
      Some (match r with
            | inr e => MkManager (mgr_RuleTable m) (Some (ReloadFailed (Some e)))
            | inl rt => MkManager rt None
            end)
  end.

Definition OnStorageEvent1 (ld : PolicyLoader) (m : Manager) (evt : Event) : option Manager :=
  match ev_Kind evt with
  | EventReload => reload ld m
  | EventAddOrUpdatePolicy | EventDeleteOrDisablePolicy =>
      '(rt, _) ← processPolicyEvent ld (mgr_RuleTable m) evt; Some (set_table rt m)
  | EventOther => Some m
  end.
Definition OnStorageEvent (ld : PolicyLoader) (m : Manager) (events : list Event) : option Manager :=
  foldM (OnStorageEvent1 ld) m events.
End manager.
