(* ===== verification/Eval.v ===== *)
(** Evaluating conditions, variables and outputs: [EvalContext] of
    [src/internal/ruletable/check.go], [CELErrors] and the parameters of
    [src/internal/evaluator]. *)
From S2P Require Import Prelude GoRuntime Bitmap Arena LazyDim Dimension GlobDim Namer Policy ScopePerms IndexCore IndexQuery Index RuleTableBuild RuleTable.

Local Open Scope string_scope.
Local Open Scope list_scope.
Open Scope nat_scope.

(** * Requests *)

Record Principal_ := MkPrincipal {
  pr_Id : string; pr_PolicyVersion : string; pr_Roles : list string; pr_Attr : gmap string Value; pr_Scope : string;
}.
Record Resource_ := MkResource {
  rs_Kind : string; rs_PolicyVersion : string; rs_Id : string; rs_Attr : gmap string Value; rs_Scope : string;
}.
Record CheckInput := MkCheckInput {
  ci_RequestId : string;
  ci_Resource : Resource_;
  ci_Principal : Principal_;
  ci_Actions : list string;
  ci_AuxData : gmap string Value;
}.

(** The [request] object of conditions. *)
Record Request := MkRequest { rq_Principal : Principal_; rq_Resource : Resource_; rq_AuxData : gmap string Value }.
Definition checkInputToRequest (input : CheckInput) : Request :=
  let p := ci_Principal input in
  let r := ci_Resource input in
  MkRequest (MkPrincipal (pr_Id p) (pr_PolicyVersion p) (pr_Roles p) (pr_Attr p) (ScopeValue (pr_Scope p)))
    (MkResource (rs_Kind r) (rs_PolicyVersion r) (rs_Id r) (rs_Attr r) (ScopeValue (rs_Scope r))) (ci_AuxData input).

Record EvalParams := MkEvalParams {
  Globals : gmap string Value;
  NowFunc : Z;  (* the timestamp [NowFunc] returns every time it is invoked *)
  DefaultPolicyVersion : string;
  EP_DefaultScope : string;
  LenientScopeSearch : bool;
  StrictEvaluation : bool;
}.

Definition PolicyVersion (version : string) (params : EvalParams) : string :=
  if decide (version = "") then DefaultPolicyVersion params else version.
Definition Scope (scope : string) (params : EvalParams) : string :=
  ScopeValue (if decide (scope = "") then EP_DefaultScope params else scope).

(** * CEL (cel.dev/cel-go) *)

(** What an expression can refer to.  Reading [runtime] is an error when the
    derived roles could not be computed. *)
Record Activation (V : Type) := MkActivation {
  act_request : Request;
  act_runtime : list string + string;
  act_constants : gmap string Value;
  act_variables : gmap string (option V);  (* [None] is a variable set to nil *)
  act_globals : gmap string Value;
  act_now : Z;
}.
Arguments MkActivation {V}.

(** The three outcomes of running a program: a value, an error value (a CEL
    runtime error), or a failure to run. *)
Inductive CelOutcome (V : Type) :=
  | CelValue (v : V) | CelError (msg : string) | CelFailure (msg : string).
Arguments CelValue {V}. Arguments CelError {V}. Arguments CelFailure {V}.

Class CelRuntime `{CelCompiler} := {
  cel_value : Type;
  cel_eval : cel_program → Activation cel_value → CelOutcome cel_value;
  cel_bool : cel_value → option bool;      (* [val.(bool)] *)
  cel_to_pb : cel_value → Value + string;  (* [ConvertToNative] to [structpb.Value] *)
  cel_compile_error : string → string;
}.

(** * CEL errors *)

(** [CELErrors]: the distinct (expression, message) pairs seen. *)
Definition CELErrors : Type := gset (string * string).
Definition CELErrors_Add (c : CELErrors) (expression msg : string) : CELErrors := {[(expression, msg)]} ∪ c.
Definition celError_le (a b : string * string) : Prop := string_le a.1 b.1 ∧ (a.1 = b.1 → string_le a.2 b.2).
#[export] Instance celError_le_dec a b : Decision (celError_le a b).
Proof. unfold celError_le. destruct (decide (a.1 = b.1)), (decide (string_le a.1 b.1)), (decide (string_le a.2 b.2)); (left; tauto) || (right; tauto). Defined.
Definition CELErrors_All (c : CELErrors) : list (string * string) := merge_sort celError_le (elements c).

Section eval.
Context `{GlobEngine} `{CelRuntime} `{GoMapOrder}.

(** * The evaluation context *)

Record EvalContext := MkEvalContext {
  ec_params : EvalParams;
  ec_request : Request;
  effectiveDerivedRoles : gset string;
  errDerivedRoles : list string;
}.

Definition NewEvalContext (ep : EvalParams) (request : Request) : EvalContext := MkEvalContext ep request ∅ [].
Definition withEffectiveDerivedRoles (ec : EvalContext) (edr : gset string) (err : list string) : EvalContext :=
  MkEvalContext (ec_params ec) (ec_request ec) edr err.

Definition Strings_Join (l : list string) (sep : string) : string :=
  match l with [] => "" | x :: l => foldl (λ acc s, acc +:+ sep +:+ s) x l end.

(** [lazyRuntime] *)
Definition lazyRuntime (ec : EvalContext) : list string + string :=
  match errDerivedRoles ec with
  | [] => inl (merge_sort string_le (set_range (effectiveDerivedRoles ec)))
  | l => inr ("failed to compute effective derived roles [" +:+ Strings_Join l ", " +:+ "]")
  end.

Definition buildEvalVars (ec : EvalContext) (constants : gmap string Value) (variables : gmap string (option cel_value)) : Activation cel_value :=
  MkActivation (ec_request ec) (lazyRuntime ec) constants variables (Globals (ec_params ec)) (NowFunc (ec_params ec)).

(** The state evaluation threads: the program cache and the CEL errors. *)
Definition evstate : Type := ProgramCache * CELErrors.

(** A strict evaluation error, or any other error. *)
Inductive EvalErr := StrictEvaluationError (expression msg : string) | OtherError (msg : string).

Definition evaluateCELExpr (ec : EvalContext) (expr : Expr) (constants : gmap string Value) (variables : gmap string (option cel_value))
    (st : evstate) : CelOutcome cel_value * evstate :=
  let '(o, c) := ProgramCache_GetOrCreate st.1 expr in
  match o with
  | None => (CelFailure (cel_compile_error (Original expr)), (c, st.2))
  | Some prg => (cel_eval prg (buildEvalVars ec constants variables), (c, st.2))
  end.

(** The raw value; [None] is nil, the value of an erroring expression outside strict mode. *)
Definition evaluateCELExprToRaw (ec : EvalContext) (expr : Expr) (constants : gmap string Value) (variables : gmap string (option cel_value))
    (st : evstate) : (option cel_value + EvalErr) * evstate :=
  let '(r, st) := evaluateCELExpr ec expr constants variables st in
  match r with
  | CelValue v => (inl (Some v), st)
  | CelError msg =>
      let st := (st.1, CELErrors_Add st.2 (Original expr) msg) in
      if StrictEvaluation (ec_params ec) then (inr (StrictEvaluationError (Original expr) msg), st) else (inl None, st)
  | CelFailure msg => (inr (OtherError msg), st)
  end.

Definition evaluateBoolCELExpr (ec : EvalContext) (expr : Expr) (constants : gmap string Value) (variables : gmap string (option cel_value))
    (st : evstate) : (bool + EvalErr) * evstate :=
  let '(r, st) := evaluateCELExprToRaw ec expr constants variables st in
  match r with
  | inr e => (inr e, st)
  | inl None => (inl false, st)
  | inl (Some v) => (inl (default false (cel_bool v)), st)
  end.

(** Running a list of conditions until one is an error or has value [stop]. *)
Section cond_list.
Context (sat : Condition → evstate → (bool + EvalErr) * evstate) (stop on_stop on_end : bool).
Fixpoint cond_list (l : list Condition) (st : evstate) : (bool + EvalErr) * evstate :=
  match l with
  | [] => (inl on_end, st)
  | c :: l =>
      let '(r, st) := sat c st in
      match r with
      | inr e => (inr e, st)
      | inl v => if Bool.eqb v stop then (inl on_stop, st) else cond_list l st
      end
  end.
End cond_list.

Section satisfies.
Context (ec : EvalContext) (constants : gmap string Value) (variables : gmap string (option cel_value)).

Fixpoint satisfies (cond : Condition) (st : evstate) : (bool + EvalErr) * evstate :=
  match cond with
  | Cond_Expr e => evaluateBoolCELExpr ec e constants variables st
  | Cond_All l => cond_list satisfies false false true l st
  | Cond_Any l => cond_list satisfies true true false l st
  | Cond_None l => cond_list satisfies true false true l st
  | Cond_unset => (inr (OtherError "unknown op type <nil>"), st)
  end.
End satisfies.

(** [SatisfiesCondition]: a nil condition holds. *)
Definition SatisfiesCondition (ec : EvalContext) (cond : option Condition) (constants : gmap string Value)
    (variables : gmap string (option cel_value)) (st : evstate) : (bool + EvalErr) * evstate :=
  match cond with
  | None => (inl true, st)
  | Some c => satisfies ec constants variables c st
  end.

(** * Variables *)

(** [evaluateVariables]: an expression that raises a CEL error sets its variable
    to nil, or in strict mode leaves it unset; other errors are collected. *)
Definition evaluateVariables (ec : EvalContext) (constants : gmap string Value) (vars : list Variable_) (st : evstate) :
    gmap string (option cel_value) * list string * evstate :=
  foldl (λ '(evalVars, errs, st) v,
    let '(r, st) := evaluateCELExprToRaw ec (var_Expr v) constants evalVars st in
    match r with
    | inl x => (<[var_Name v := x]> evalVars, errs, st)
    | inr (StrictEvaluationError _ _) => (evalVars, errs, st)
    | inr (OtherError msg) => (evalVars, errs ++ [msg], st)
    end) (∅, [], st) vars.

(** [evaluatePrograms]: an expression that raises a CEL error leaves its variable unset. *)
Definition evaluatePrograms (ec : EvalContext) (constants : gmap string Value) (progs : list CelProgram) (st : evstate) :
    gmap string (option cel_value) * list string * evstate :=
  foldl (λ '(evalVars, errs, st) prg,
    match cel_eval (Prog prg) (buildEvalVars ec constants evalVars) with
    | CelValue v => (<[prog_Name prg := Some v]> evalVars, errs, st)
    | CelError msg => (evalVars, errs, (st.1, CELErrors_Add st.2 (prog_Expr prg) msg))
    | CelFailure msg => (evalVars, errs ++ [msg], st)
    end) (∅, [], st) progs.

(** * Outputs *)

Record OutputEntry := MkOutputEntry { oe_Src : string; oe_Action : string; oe_Val : option Value; oe_Error : string }.

Definition evaluateOutput (ec : EvalContext) (src action : string) (expr : Expr) (constants : gmap string Value)
    (variables : gmap string (option cel_value)) (st : evstate) : OutputEntry * evstate :=
  let '(r, st) := evaluateCELExpr ec expr constants variables st in
  (match r with
   | CelValue v =>
       match cel_to_pb v with
       | inl pb => MkOutputEntry src action (Some pb) ""
       | inr msg => MkOutputEntry src action None msg
       end
   | CelError msg | CelFailure msg => MkOutputEntry src action None msg
   end, st).
End eval.

(** * Properties of condition evaluation

    Properties of condition evaluation: the program cache is transparent, and
    conditions mean what their operators say. *)

(** The induction principle for conditions, which nest lists. *)
Section condition_ind.
Context (P : Condition → Prop).
Context (He : ∀ e, P (Cond_Expr e)) (Ha : ∀ l, Forall P l → P (Cond_All l)) (Hy : ∀ l, Forall P l → P (Cond_Any l)).
Context (Hn : ∀ l, Forall P l → P (Cond_None l)) (Hu : P Cond_unset).
Fixpoint Condition_nested_ind (c : Condition) : P c :=
  let all := fix go l : Forall P l :=
    match l with [] => Forall_nil_2 P | c :: l => Forall_cons_2 P c l (Condition_nested_ind c) (go l) end in
  match c with
  | Cond_Expr e => He e
  | Cond_All l => Ha l (all l)
  | Cond_Any l => Hy l (all l)
  | Cond_None l => Hn l (all l)
  | Cond_unset => Hu
  end.
End condition_ind.

Section eval.
Context `{GlobEngine} `{CelRuntime} `{GoMapOrder}.

(** * The program cache *)

(** Every cached program is what compiling its source gives. *)
Definition programs_ok (c : ProgramCache) : Prop := ∀ src p, c !! src = Some p → cel_compile src = Some p.

Lemma GetOrCreate_spec c e :
  programs_ok c → (ProgramCache_GetOrCreate c e).1 = cel_compile (Original e) ∧ programs_ok (ProgramCache_GetOrCreate c e).2.
Proof.
  intros Hc. unfold ProgramCache_GetOrCreate. destruct (c !! Original e) as [p|] eqn:E.
  - split; [|done]. symmetry. by apply Hc.
  - destruct (cel_compile (Original e)) as [p|] eqn:Ec; [|done]. split; [done|].
    cbn [snd]. intros src q. unfold ProgramCache in *. rewrite lookup_insert_Some. intros [[<- <-]|[_ Hl]]; auto.
Qed.

(** Running an expression without a cache. *)
Definition run_expr (ec : EvalContext) (e : Expr) (constants : gmap string Value) (vars : gmap string (option cel_value)) : CelOutcome cel_value :=
  match cel_compile (Original e) with
  | None => CelFailure (cel_compile_error (Original e))
  | Some p => cel_eval p (buildEvalVars ec constants vars)
  end.

Lemma evaluateCELExpr_spec ec e consts vars st :
  programs_ok st.1 →
  (evaluateCELExpr ec e consts vars st).1 = run_expr ec e consts vars ∧
  programs_ok (evaluateCELExpr ec e consts vars st).2.1 ∧ (evaluateCELExpr ec e consts vars st).2.2 = st.2.
Proof.
  intros Hst. unfold evaluateCELExpr, run_expr. pose proof (GetOrCreate_spec st.1 e Hst) as [E Hok].
  destruct (ProgramCache_GetOrCreate st.1 e) as [o c]. cbn in *. subst o. by destruct (cel_compile (Original e)).
Qed.

(** The boolean reading of one expression: errors are [inr] in strict mode, and
    false otherwise; a value that is not a boolean is false. *)
Definition bool_expr (ec : EvalContext) (e : Expr) (consts : gmap string Value) (vars : gmap string (option cel_value)) : bool + EvalErr :=
  match run_expr ec e consts vars with
  | CelValue v => inl (default false (cel_bool v))
  | CelError msg => if StrictEvaluation (ec_params ec) then inr (StrictEvaluationError (Original e) msg) else inl false
  | CelFailure msg => inr (OtherError msg)
  end.

Lemma evaluateCELExprToRaw_ok ec e consts vars st :
  programs_ok st.1 → programs_ok (evaluateCELExprToRaw ec e consts vars st).2.1.
Proof.
  intros Hst. unfold evaluateCELExprToRaw. destruct (evaluateCELExpr_spec ec e consts vars st Hst) as (_ & Hok & _).
  destruct (evaluateCELExpr ec e consts vars st) as [[]]; cbn in *; [done| |done]. by destruct (StrictEvaluation _).
Qed.

Lemma evaluateBoolCELExpr_spec ec e consts vars st :
  programs_ok st.1 →
  (evaluateBoolCELExpr ec e consts vars st).1 = bool_expr ec e consts vars ∧
  programs_ok (evaluateBoolCELExpr ec e consts vars st).2.1.
Proof.
  intros Hst. unfold evaluateBoolCELExpr, bool_expr, evaluateCELExprToRaw.
  destruct (evaluateCELExpr_spec ec e consts vars st Hst) as (<- & Hok & _).
  destruct (evaluateCELExpr ec e consts vars st) as [[v|msg|msg] st1]; cbn in *; [done| |done].
  by destruct (StrictEvaluation _).
Qed.

(** * The meaning of conditions *)

(** The value of a list of conditions read from the left, up to the first error
    or the first one with value [stop]. *)
Definition first_stop (den : Condition → bool + EvalErr) (stop on_stop on_end : bool) : list Condition → bool + EvalErr :=
  fix go l := match l with
              | [] => inl on_end
              | c :: l => match den c with inr e => inr e | inl v => if Bool.eqb v stop then inl on_stop else go l end
              end.

Section denote.
Context (ec : EvalContext) (consts : gmap string Value) (vars : gmap string (option cel_value)).

(** The denotation of a condition: no state, no cache. *)
Fixpoint denote (c : Condition) : bool + EvalErr :=
  match c with
  | Cond_Expr e => bool_expr ec e consts vars
  | Cond_All l => first_stop denote false false true l
  | Cond_Any l => first_stop denote true true false l
  | Cond_None l => first_stop denote true false true l
  | Cond_unset => inr (OtherError "unknown op type <nil>")
  end.
Definition denote_opt (c : option Condition) : bool + EvalErr := match c with None => inl true | Some c => denote c end.

Lemma cond_list_spec stop on_stop on_end l :
  Forall (λ c, ∀ st, programs_ok st.1 → (satisfies ec consts vars c st).1 = denote c ∧ programs_ok (satisfies ec consts vars c st).2.1) l →
  ∀ st, programs_ok st.1 →
  (cond_list (satisfies ec consts vars) stop on_stop on_end l st).1 = first_stop denote stop on_stop on_end l ∧
  programs_ok (cond_list (satisfies ec consts vars) stop on_stop on_end l st).2.1.
Proof.
  induction 1 as [|c l Hc _ IH]; intros st Hst; [done|]. cbn [cond_list first_stop]. destruct (Hc st Hst) as [E Hok].
  destruct (satisfies ec consts vars c st) as [r st1]. cbn in E, Hok. rewrite <-E. destruct r as [v|e]; [|done].
  destruct (Bool.eqb v stop); [done|]. by apply IH.
Qed.

Lemma satisfies_spec c st :
  programs_ok st.1 → (satisfies ec consts vars c st).1 = denote c ∧ programs_ok (satisfies ec consts vars c st).2.1.
Proof.
  revert st. induction c as [e|l IH|l IH|l IH|] using Condition_nested_ind; intros st Hst; cbn [satisfies denote].
  - by apply evaluateBoolCELExpr_spec.
  - by apply cond_list_spec.
  - by apply cond_list_spec.
  - by apply cond_list_spec.
  - done.
Qed.

Lemma SatisfiesCondition_spec c st :
  programs_ok st.1 →
  (SatisfiesCondition ec c consts vars st).1 = denote_opt c ∧ programs_ok (SatisfiesCondition ec c consts vars st).2.1.
Proof. intros Hst. destruct c as [c|]; [|done]. by apply satisfies_spec. Qed.

(** Without errors the operators are conjunction, disjunction and "none of". *)
Fixpoint truth (val : Expr → bool) (c : Condition) : bool :=
  match c with
  | Cond_Expr e => val e
  | Cond_All l => forallb (truth val) l
  | Cond_Any l => existsb (truth val) l
  | Cond_None l => negb (existsb (truth val) l)
  | Cond_unset => false
  end.

(** All operators in the condition are set. *)
Fixpoint well_formed (c : Condition) : bool :=
  match c with
  | Cond_Expr _ => true
  | Cond_All l | Cond_Any l | Cond_None l => forallb well_formed l
  | Cond_unset => false
  end.

(** The expressions of a condition. *)
Fixpoint cond_exprs (c : Condition) : list Expr :=
  match c with
  | Cond_Expr e => [e]
  | Cond_All l | Cond_Any l | Cond_None l => flat_map cond_exprs l
  | Cond_unset => []
  end.

Lemma first_stop_value val stop on_stop on_end l :
  Forall (λ c, denote c = inl (truth val c)) l →
  first_stop denote stop on_stop on_end l = inl (if existsb (λ c, Bool.eqb (truth val c) stop) l then on_stop else on_end).
Proof.
  induction 1 as [|c l Hc _ IH]; [done|]. cbn [first_stop existsb]. rewrite Hc.
  destruct (Bool.eqb (truth val c) stop); [done|]. by apply IH.
Qed.

Lemma denote_truth val c :
  (∀ e, e ∈ cond_exprs c → bool_expr ec e consts vars = inl (val e)) → well_formed c = true → denote c = inl (truth val c).
Proof.
  assert (∀ l, Forall (λ c, (∀ e, e ∈ cond_exprs c → bool_expr ec e consts vars = inl (val e)) → well_formed c = true → denote c = inl (truth val c)) l →
    (∀ e, e ∈ flat_map cond_exprs l → bool_expr ec e consts vars = inl (val e)) → forallb well_formed l = true →
    Forall (λ c, denote c = inl (truth val c)) l) as Hl.
  { clear c. induction 1 as [|c l Hc _ IH]; intros He Hwf; [constructor|]. cbn in Hwf, He. apply andb_true_iff in Hwf as [Hw1 Hw2]. constructor.
    - apply Hc; [|done]. intros e Hin. apply He, elem_of_app. by left.
    - apply IH; [|done]. intros e Hin. apply He, elem_of_app. by right. }
  induction c as [e|l IH|l IH|l IH|] using Condition_nested_ind; intros He Hwf; cbn [denote truth well_formed cond_exprs] in *.
  - apply He. left.
  - rewrite (first_stop_value val) by auto. f_equal. clear. induction l as [|x l IH]; [done|]. cbn.
    destruct (truth val x); cbn; [exact IH|done].
  - rewrite (first_stop_value val) by auto. f_equal. clear. induction l as [|x l IH]; [done|]. cbn.
    destruct (truth val x); cbn; [done|exact IH].
  - rewrite (first_stop_value val) by auto. f_equal. clear. induction l as [|x l IH]; [done|]. cbn.
    destruct (truth val x); cbn; [done|exact IH].
  - done.
Qed.
End denote.

(** A condition means the same wherever its expressions do. *)
Lemma denote_ext ec consts vars ec' consts' vars' c :
  (∀ e, e ∈ cond_exprs c → bool_expr ec e consts vars = bool_expr ec' e consts' vars') →
  denote ec consts vars c = denote ec' consts' vars' c.
Proof.
  assert (∀ stop on_stop on_end l, Forall (λ c, (∀ e, e ∈ cond_exprs c → bool_expr ec e consts vars = bool_expr ec' e consts' vars') →
      denote ec consts vars c = denote ec' consts' vars' c) l →
    (∀ e, e ∈ flat_map cond_exprs l → bool_expr ec e consts vars = bool_expr ec' e consts' vars') →
    first_stop (denote ec consts vars) stop on_stop on_end l = first_stop (denote ec' consts' vars') stop on_stop on_end l) as Hl.
  { intros stop on_stop on_end. induction 1 as [|x l Hx _ IH]; intros He; [done|]. cbn in He. cbn [first_stop].
    rewrite Hx by (intros e Hin; apply He, elem_of_app; by left). destruct (denote ec' consts' vars' x); [|done].
    case_match; [done|]. apply IH. intros e Hin. apply He, elem_of_app. by right. }
  induction c as [e|l IH|l IH|l IH|] using Condition_nested_ind; intros He; cbn [denote cond_exprs] in *; [apply He; left|by apply Hl..|done].
Qed.

(** * Variables and outputs keep the cache *)

Lemma fold_ok {A B} (f : B * evstate → A → B * evstate) l acc :
  programs_ok acc.2.1 → (∀ acc x, programs_ok acc.2.1 → programs_ok (f acc x).2.1) → programs_ok (foldl f acc l).2.1.
Proof. revert acc. induction l as [|x l IH]; intros acc Hacc Hf; [done|]. cbn [foldl]. auto. Qed.

Lemma evaluateVariables_ok ec consts vs st : programs_ok st.1 → programs_ok (evaluateVariables ec consts vs st).2.1.
Proof.
  intros Hst. unfold evaluateVariables. apply fold_ok; [done|]. intros [[ev errs] st1] v Hst1.
  pose proof (evaluateCELExprToRaw_ok ec (var_Expr v) consts ev st1 Hst1) as Hok.
  by destruct (evaluateCELExprToRaw ec (var_Expr v) consts ev st1) as [[x|[]] st2].
Qed.

Lemma evaluatePrograms_ok ec consts ps st : programs_ok st.1 → programs_ok (evaluatePrograms ec consts ps st).2.1.
Proof.
  intros Hst. unfold evaluatePrograms. apply fold_ok; [done|]. intros [[ev errs] st1] p Hst1.
  by destruct (cel_eval (Prog p) _).
Qed.

Lemma evaluateOutput_ok ec src act e consts vars st :
  programs_ok st.1 → programs_ok (evaluateOutput ec src act e consts vars st).2.1.
Proof.
  intros Hst. unfold evaluateOutput. destruct (evaluateCELExpr_spec ec e consts vars st Hst) as (_ & Hok & _).
  by destruct (evaluateCELExpr ec e consts vars st) as [[]].
Qed.
End eval.
