(* ===== verification/Check.v ===== *)
(** Deciding requests: [check] of [src/internal/ruletable/check.go].

    The nested labelled loops of the source are one definition per loop; a loop
    body returns how the loops around it go on ([Flow]).  Tracing and spans are
    left out. *)
From S2P Require Import Prelude GoRuntime Bitmap Arena LazyDim Dimension GlobDim Namer Policy ScopePerms IndexCore IndexQuery IndexLookup Index RuleTableBuild RuleTable Eval.

Local Open Scope string_scope.
Local Open Scope list_scope.
Open Scope nat_scope.

Definition noMatchScopePermissions : string := "NO_MATCH_FOR_SCOPE_PERMISSIONS".
Definition noPolicyMatch : string := "NO_MATCH".

(** [schema.Manager] is an interface the table is handed: validation errors and
    whether to reject the request, or a failure. *)
Class SchemaManager := {
  ValidateCheckInput : option Schemas_ → CheckInput → (list ValidationError * bool) + string;
}.

(** [SetIntersects] of [src/internal/ruletable/internal/utils.go]. *)
Definition anyRoleVal : string := "*".
Definition SetIntersects `{GoMapOrder} (s1 s2 : gset string) : bool :=
  existsb (λ v, bool_decide (v = anyRoleVal) || bool_decide (v ∈ s2)) (set_range s1).

Record EffectInfo := MkEffectInfo { ei_Policy : string; ei_Scope : string; ei_Effect : Effect }.

Record scopedDerivedRoles := MkScoped { sdr_roles : gset string; sdr_err : list string }.

Section check.
Context `{GlobEngine} `{CelRuntime} `{GoMapOrder} `{ContentHash} `{StringHash} `{DerivedRoleHash} `{SchemaManager}.

(** * State *)

(** Everything [check] mutates: the caches of the table it reads through, its
    local caches, the evaluation context and the result. *)
Record chk := MkChk {
  k_idx : bitmapIndex;
  k_pool : list Bitmap;
  k_ev : evstate;
  varCache : gmap N (gmap string (option cel_value));
  conditionCache : gmap EvaluationKeyTuple bool;
  processedScopedDerivedRoles : gmap string scopedDerivedRoles;
  evalCtx : EvalContext;
  res_outputs : list OutputEntry;
  res_effectiveDerivedRoles : gset string;
  res_trail : gmap string string;
}.

Definition set_kidx (i : bitmapIndex) (p : list Bitmap) (k : chk) : chk :=
  MkChk i p (k_ev k) (varCache k) (conditionCache k) (processedScopedDerivedRoles k) (evalCtx k) (res_outputs k)
    (res_effectiveDerivedRoles k) (res_trail k).
Definition set_ev (e : evstate) (k : chk) : chk :=
  MkChk (k_idx k) (k_pool k) e (varCache k) (conditionCache k) (processedScopedDerivedRoles k) (evalCtx k) (res_outputs k)
    (res_effectiveDerivedRoles k) (res_trail k).
Definition set_varCache (c : gmap N (gmap string (option cel_value))) (k : chk) : chk :=
  MkChk (k_idx k) (k_pool k) (k_ev k) c (conditionCache k) (processedScopedDerivedRoles k) (evalCtx k) (res_outputs k)
    (res_effectiveDerivedRoles k) (res_trail k).
Definition set_conditionCache (c : gmap EvaluationKeyTuple bool) (k : chk) : chk :=
  MkChk (k_idx k) (k_pool k) (k_ev k) (varCache k) c (processedScopedDerivedRoles k) (evalCtx k) (res_outputs k)
    (res_effectiveDerivedRoles k) (res_trail k).
Definition set_processed (c : gmap string scopedDerivedRoles) (k : chk) : chk :=
  MkChk (k_idx k) (k_pool k) (k_ev k) (varCache k) (conditionCache k) c (evalCtx k) (res_outputs k)
    (res_effectiveDerivedRoles k) (res_trail k).
Definition set_evalCtx (c : EvalContext) (k : chk) : chk :=
  MkChk (k_idx k) (k_pool k) (k_ev k) (varCache k) (conditionCache k) (processedScopedDerivedRoles k) c (res_outputs k)
    (res_effectiveDerivedRoles k) (res_trail k).
Definition add_output (o : OutputEntry) (k : chk) : chk :=
  MkChk (k_idx k) (k_pool k) (k_ev k) (varCache k) (conditionCache k) (processedScopedDerivedRoles k) (evalCtx k) (res_outputs k ++ [o])
    (res_effectiveDerivedRoles k) (res_trail k).
Definition add_derived_role (r : string) (k : chk) : chk :=
  MkChk (k_idx k) (k_pool k) (k_ev k) (varCache k) (conditionCache k) (processedScopedDerivedRoles k) (evalCtx k) (res_outputs k)
    ({[r]} ∪ res_effectiveDerivedRoles k) (res_trail k).
Definition add_trail (t : gmap string string) (k : chk) : chk :=
  MkChk (k_idx k) (k_pool k) (k_ev k) (varCache k) (conditionCache k) (processedScopedDerivedRoles k) (evalCtx k) (res_outputs k)
    (res_effectiveDerivedRoles k) (t ∪ res_trail k).

(** [check] as a computation: it may panic ([None]), return an error ([inr]) or
    go on with a result. *)
Definition CM (A : Type) : Type := chk → option ((A + list string) * chk).
#[global] Instance CM_ret : MRet CM := λ A x k, Some (inl x, k).
#[global] Instance CM_bind : MBind CM := λ A B f m k,
  '(r, k) ← m k;
  match r with inl x => f x k | inr e => Some (inr e, k) end.
Definition throw {A} (e : list string) : CM A := λ k, Some (inr e, k).
Definition panic_if_none {A} (o : option A) : CM A := λ k, x ← o; Some (inl x, k).
Definition modify (f : chk → chk) : CM unit := λ k, Some (inl (), f k).
Definition look {A} (f : chk → A) : CM A := λ k, Some (inl (f k), k).
(** Running an evaluation in the current context. *)
Definition eval {A} (f : EvalContext → evstate → A * evstate) : CM A := λ k,
  let '(x, e) := f (evalCtx k) (k_ev k) in Some (inl x, set_ev e k).
(** Running a query of the index. *)
Definition query {A} (m : bitmapIndex → list Bitmap → option (A * bitmapIndex * list Bitmap)) : CM A := λ k,
  '(x, i, p) ← m (k_idx k) (k_pool k); Some (inl x, set_kidx i p k).

Fixpoint foldCM {A B} (f : B → A → CM B) (acc : B) (l : list A) : CM B :=
  match l with
  | [] => mret acc
  | x :: l => acc ← f acc x; foldCM f acc l
  end.

(** * Variables through the cache *)

(** Cached variables, or those [compute] gives; an error stops the check. *)
Definition cached_vars (key : N) (compute : EvalContext → evstate → (gmap string (option cel_value) * list string) * evstate) :
    CM (gmap string (option cel_value)) :=
  c ← look (λ k, varCache k !! key);
  match c with
  | Some vars => mret vars
  | None =>
      '(vars, errs) ← eval compute;
      match errs with
      | [] => modify (λ k, set_varCache (<[key := vars]> (varCache k)) k);; mret vars
      | _ => throw errs
      end
  end.

Definition params_vars (p : option RowParams) : CM (gmap string Value * gmap string (option cel_value)) :=
  match p with
  | None => mret (∅, ∅)
  | Some p =>
      vars ← cached_vars (rp_Key p) (λ ec st, evaluatePrograms ec (rp_Constants p) (rp_CelPrograms p) st);
      mret (rp_Constants p, vars)
  end.

(** * Derived roles of a scope *)

Definition eval_derived_role (includingParentRoles : gset string) (sdr : scopedDerivedRoles) '((name, w) : string * WrappedRunnableDerivedRole) :
    CM scopedDerivedRoles :=
  let dr := w_role w in
  if negb (SetIntersects (dr_ParentRoles dr) includingParentRoles) then mret sdr
  else
    vars ← cached_vars (w_VarCacheKey w) (λ ec st, evaluateVariables ec (w_Constants w) (dr_OrderedVariables dr) st);
    r ← eval (λ ec, SatisfiesCondition ec (dr_Condition dr) (w_Constants w) vars);
    match r with
    | inr _ =>
        strict ← look (λ k, StrictEvaluation (ec_params (evalCtx k)));
        mret (if (strict : bool) then MkScoped (sdr_roles sdr) (sdr_err sdr ++ [name]) else sdr)
    | inl true => modify (add_derived_role name);; mret (MkScoped ({[name]} ∪ sdr_roles sdr) (sdr_err sdr))
    | inl false => mret sdr
    end.

Definition scope_derived_roles (rt : RuleTable) (kind resourceVersion scope : string) (includingParentRoles : gset string) : CM unit :=
  processed ← look (λ k, processedScopedDerivedRoles k !! scope);
  sdr ← (match processed with
         | Some sdr => mret sdr
         | None =>
             sdr ← foldCM (eval_derived_role includingParentRoles) (MkScoped ∅ [])
                     (go_range (GetDerivedRoles rt (ResourcePolicyFQN kind resourceVersion scope)));
             let sdr := MkScoped (sdr_roles sdr) (merge_sort string_le (sdr_err sdr)) in
             modify (λ k, set_processed (<[scope := sdr]> (processedScopedDerivedRoles k)) k);;
             mret sdr
         end);
  modify (λ k, set_evalCtx (withEffectiveDerivedRoles (evalCtx k) (sdr_roles sdr) (sdr_err sdr)) k).

(** * One binding *)

(** How a binding leaves the loops: on to the next binding, out of the scopes
    with the role's effect, or out of the policies with the action's effect. *)
Inductive Flow :=
  | F_next (hasAllow : bool) (roleEffectInfo : EffectInfo)
  | F_scopes (roleEffectInfo : EffectInfo)
  | F_policies (actionEffectInfo : EffectInfo).

(** The condition of a binding: satisfied or not ([inl]), or the loop is left or
    the binding skipped because of an error or an unmet derived role. *)
Inductive CondResult := C_value (b : bool) | C_skip | C_deny.

Definition on_eval_error : CM CondResult :=
  strict ← look (λ k, StrictEvaluation (ec_params (evalCtx k)));
  mret (if (strict : bool) then C_deny else C_skip).

(** The derived role condition of a row: [None] to go on. *)
Definition derived_role_condition (b : BindingHandle) (key : EvaluationKeyTuple) : CM (option CondResult) :=
  match co_DerivedRoleCondition (bh_Core b) with
  | None => mret None
  | Some c =>
      '(consts, vars) ← params_vars (co_DerivedRoleParams (bh_Core b));
      r ← eval (λ ec, SatisfiesCondition ec (Some c) consts vars);
      match r with
      | inr _ => x ← on_eval_error; mret (Some x)
      | inl false => modify (λ k, set_conditionCache (<[key := false]> (conditionCache k)) k);; mret (Some C_skip)
      | inl true => mret None
      end
  end.

Definition binding_condition (b : BindingHandle) (key : EvaluationKeyTuple) (constants : gmap string Value)
    (variables : gmap string (option cel_value)) : CM CondResult :=
  c ← look (λ k, conditionCache k !! key);
  match c with
  | Some v => mret (C_value v)
  | None =>
      d ← derived_role_condition b key;
      match d with
      | Some x => mret x
      | None =>
          r ← eval (λ ec, SatisfiesCondition ec (co_Condition (bh_Core b)) constants variables);
          match r with
          | inr _ => on_eval_error
          | inl v => modify (λ k, set_conditionCache (<[key := v]> (conditionCache k)) k);; mret (C_value v)
          end
      end
  end.

Definition emit (rt : RuleTable) (b : BindingHandle) (action : string) (e : option Expr) (constants : gmap string Value)
    (variables : gmap string (option cel_value)) : CM unit :=
  match e with
  | None => mret ()
  | Some e =>
      src ← panic_if_none (RuleFQN (GetMeta rt (HandleStr (bh_OriginFqn b))) (HandleStr (bh_Scope b)) (HandleStr (bh_Name b)));
      o ← eval (λ ec, evaluateOutput ec src action e constants variables);
      modify (add_output o)
  end.

Definition output_when (b : BindingHandle) (sel : Output_When → option Expr) : option Expr :=
  o ← co_EmitOutput (bh_Core b); w ← When o; sel w.

Definition set_Effect (i : EffectInfo) (e : Effect) (scope : string) : EffectInfo := MkEffectInfo (ei_Policy i) scope e.

(** What a satisfied binding does to the role's effect. *)
Definition apply_effect (b : BindingHandle) (scope : string) (hasAllow : bool) (info : EffectInfo) : Flow :=
  let core := bh_Core b in
  let hasAllow := if decide (co_Effect core = EFFECT_ALLOW) then true else hasAllow in
  if decide (co_Effect core = EFFECT_DENY) then
    F_scopes (MkEffectInfo (if co_FromRolePolicy core then PolicyKeyFromFQN (HandleStr (bh_OriginFqn b)) else ei_Policy info) scope EFFECT_DENY)
  else if bh_NoMatchForScopePermissions b then F_next hasAllow (MkEffectInfo noMatchScopePermissions scope (ei_Effect info))
  else F_next hasAllow info.

Definition eval_binding (rt : RuleTable) (action scope : string) (b : BindingHandle) (hasAllow : bool) (info : EffectInfo) : CM Flow :=
  idx ← look k_idx;
  key ← panic_if_none (evalKey idx (bh_ID b));
  (match GetMeta rt (HandleStr (bh_OriginFqn b)) with
   | Some m => modify (add_trail (meta_SourceAttributes m))
   | None => mret ()
   end);;
  '(constants, variables) ← params_vars (co_Params (bh_Core b));
  c ← binding_condition b key constants variables;
  match c with
  | C_skip => mret (F_next hasAllow info)
  | C_deny => mret (F_policies (MkEffectInfo (PolicyKeyFromFQN (HandleStr (bh_OriginFqn b))) scope EFFECT_DENY))
  | C_value true =>
      emit rt b action (output_when b RuleActivated) constants variables;;
      mret (apply_effect b scope hasAllow info)
  | C_value false =>
      emit rt b action (output_when b ConditionNotMet) constants variables;;
      mret (F_next hasAllow info)
  end.

(** [for _, b := range bindings] *)
Fixpoint bindings_loop (rt : RuleTable) (action scope : string) (bs : list BindingHandle) (hasAllow : bool) (info : EffectInfo) : CM Flow :=
  match bs with
  | [] => mret (F_next hasAllow info)
  | b :: bs =>
      f ← eval_binding rt action scope b hasAllow info;
      match f with
      | F_next hasAllow info => bindings_loop rt action scope bs hasAllow info
      | _ => mret f
      end
  end.

(** * Scopes, roles, policies, actions *)

(** What is fixed during a check. *)
Record Fixed := MkFixed {
  fx_input : CheckInput;
  fx_resourceVersion : string;
  fx_resourceKind : ResourceKind;
  fx_resourceScope : string;
  fx_principalScopes : list string;
  fx_principalPolicyKey : string;
  fx_resourceScopes : list string;
  fx_resourcePolicyKey : string;
  fx_scopedPrincipalExists : bool;
  fx_scopedResourceExists : bool;
  fx_includingParentRoles : gset string;
}.

(** The effect a scope's ALLOW has: under parental consent it is left to the
    parents, otherwise it decides. *)
Definition scope_allow (sp : ScopePermissions) (hasAllow : bool) : bool * bool :=
  if hasAllow then
    match sp with
    | SCOPE_PERMISSIONS_REQUIRE_PARENTAL_CONSENT_FOR_ALLOWS => (false, false)
    | SCOPE_PERMISSIONS_OVERRIDE_PARENT => (true, true)
    | _ => (true, false)
    end
  else (false, false).

(** [scopesLoop]: the role's effect, or the action's when policies are left. *)
Fixpoint scopes_loop (rt : RuleTable) (fx : Fixed) (pt : Kind) (action : string) (parentRoles : list string) (scopes : list string)
    (hasAllow : bool) (info : EffectInfo) : CM (EffectInfo + EffectInfo) :=
  match scopes with
  | [] => mret (inl info)
  | scope :: scopes =>
      let input := fx_input fx in
      (if decide (pt = KIND_RESOURCE)
       then scope_derived_roles rt (rs_Kind (ci_Resource input)) (fx_resourceVersion fx) scope (fx_includingParentRoles fx)
       else mret ());;
      if decide (ei_Effect info ≠ EFFECT_NO_MATCH) then mret (inl info)
      else
        let pid := if decide (pt = KIND_PRINCIPAL) then pr_Id (ci_Principal input) else "" in
        bs ← query (λ idx pool, Query idx pool (fx_resourceVersion fx) (fx_resourceKind fx) scope action parentRoles pt pid []);
        f ← bindings_loop rt action scope bs hasAllow info;
        match f with
        | F_policies a => mret (inr a)
        | F_scopes info => mret (inl info)
        | F_next hasAllow info =>
            match scope_allow (GetScopeScopePermissions rt scope) hasAllow with
            | (_, true) => mret (inl (set_Effect info EFFECT_ALLOW scope))
            | (hasAllow, false) => scopes_loop rt fx pt action parentRoles scopes hasAllow info
            end
        end
  end.

(** How the effect of a role is merged into that of the action. *)
Definition merge_role (actionInfo roleInfo : EffectInfo) : EffectInfo :=
  let actionInfo := if decide (ei_Effect actionInfo = EFFECT_NO_MATCH) then roleInfo else actionInfo in
  if decide (ei_Effect roleInfo = EFFECT_ALLOW) then roleInfo
  else if decide (ei_Effect roleInfo = EFFECT_DENY ∧ ei_Policy actionInfo = noMatchScopePermissions ∧ ei_Policy roleInfo ≠ noMatchScopePermissions)
       then roleInfo
  else actionInfo.

(** [for i, role := range input.Principal.Roles]; principal policies take the
    first role only. *)
Fixpoint roles_loop (rt : RuleTable) (fx : Fixed) (pt : Kind) (action : string) (roles : list string) (actionInfo : EffectInfo) :
    CM (EffectInfo + EffectInfo) :=
  match roles with
  | [] => mret (inl actionInfo)
  | role :: roles =>
      let '(scopes, mainPolicyKey, found) :=
        if decide (pt = KIND_PRINCIPAL) then (fx_principalScopes fx, fx_principalPolicyKey fx, fx_scopedPrincipalExists fx)
        else (fx_resourceScopes fx, fx_resourcePolicyKey fx, fx_scopedResourceExists fx) in
      let info := MkEffectInfo (if (found : bool) then mainPolicyKey else noPolicyMatch) "" EFFECT_NO_MATCH in
      let parentRoles := AddParentRoles (rt_idx rt) [fx_resourceScope fx] [role] in
      r ← scopes_loop rt fx pt action parentRoles scopes false info;
      match r with
      | inr a => mret (inr a)
      | inl roleInfo =>
          let actionInfo := merge_role actionInfo roleInfo in
          if decide (ei_Effect roleInfo = EFFECT_ALLOW ∨ pt = KIND_PRINCIPAL) then mret (inl actionInfo)
          else roles_loop rt fx pt action roles actionInfo
      end
  end.

(** [policiesLoop]: principal policies, then resource policies. *)
Fixpoint policies_loop (rt : RuleTable) (fx : Fixed) (action : string) (pts : list Kind) (actionInfo : EffectInfo) : CM EffectInfo :=
  match pts with
  | [] => mret actionInfo
  | pt :: pts =>
      let actionInfo := MkEffectInfo (ei_Policy actionInfo) (ei_Scope actionInfo) EFFECT_NO_MATCH in
      r ← roles_loop rt fx pt action (pr_Roles (ci_Principal (fx_input fx))) actionInfo;
      match r with
      | inr a => mret a
      | inl actionInfo =>
          if decide (ei_Effect actionInfo = EFFECT_ALLOW ∨ ei_Effect actionInfo = EFFECT_DENY) then mret actionInfo
          else policies_loop rt fx action pts actionInfo
      end
  end.

Definition check_action (rt : RuleTable) (fx : Fixed) (action : string) : CM EffectInfo :=
  a ← policies_loop rt fx action [KIND_PRINCIPAL; KIND_RESOURCE] (MkEffectInfo "" "" EFFECT_UNSPECIFIED);
  mret (if decide (ei_Effect a = EFFECT_NO_MATCH) then MkEffectInfo (ei_Policy a) (ei_Scope a) EFFECT_DENY else a).

(** * The result *)

Record policyEvalResult := MkResult {
  effects : gmap string EffectInfo;
  toResolve : gset string;
  rs_actions : list string;
  rs_effectiveDerivedRoles : gset string;
  rs_trail : gmap string string;
  rs_celErrors : CELErrors;
  rs_validationErrors : list ValidationError;
  rs_outputs : list OutputEntry;
}.

Definition newEvalResult (actions : list string) : policyEvalResult :=
  MkResult ∅ (list_to_set actions) actions ∅ ∅ ∅ [] [].

Definition unresolvedActions (er : policyEvalResult) : list string := filter (λ a, a ∈ toResolve er) (rs_actions er).

(** [setEffect]: DENY always takes precedence. *)
Definition setEffect (er : policyEvalResult) (action : string) (effect : EffectInfo) : policyEvalResult :=
  let keep := match effects er !! action with
              | Some current => bool_decide (ei_Effect current = EFFECT_DENY) && negb (bool_decide (ei_Effect effect = EFFECT_DENY))
              | None => false
              end in
  MkResult (if keep then effects er else <[action := effect]> (effects er)) (toResolve er ∖ {[action]}) (rs_actions er)
    (rs_effectiveDerivedRoles er) (rs_trail er) (rs_celErrors er) (rs_validationErrors er) (rs_outputs er).

Definition with_validation (er : policyEvalResult) (errs : list ValidationError) : policyEvalResult :=
  MkResult (effects er) (toResolve er) (rs_actions er) (rs_effectiveDerivedRoles er) (rs_trail er) (rs_celErrors er) errs (rs_outputs er).

(** What [check] accumulated outside the effects. *)
Definition with_chk (er : policyEvalResult) (k : chk) : policyEvalResult :=
  MkResult (effects er) (toResolve er) (rs_actions er) (res_effectiveDerivedRoles k) (res_trail k) (k_ev k).2
    (rs_validationErrors er) (res_outputs k).

(** The table after a check: its index and program cache. *)
Definition with_caches (rt : RuleTable) (i : bitmapIndex) (pool : list Bitmap) (c : ProgramCache) : RuleTable :=
  MkRuleTable (rt_proto rt) (set_bi i (rt_idx rt)) (rt_principalScopeMap rt) (rt_resourceScopeMap rt) (rt_scopePermsTracker rt)
    (rt_scopeScopePermissions rt) (rt_policyDerivedRoles rt) c pool.

(** The loop over the actions to resolve. *)
Definition actions_loop (rt : RuleTable) (fx : Fixed) (er : policyEvalResult) (actions : list string) : CM policyEvalResult :=
  foldCM (λ er action, a ← check_action rt fx action; mret (setEffect er action a)) er actions.

(** [check]; [inr] is the error returned. *)
Definition check (rt : RuleTable) (evalParams : EvalParams) (input : CheckInput) : option ((policyEvalResult + list string) * RuleTable) :=
  let principal := ci_Principal input in
  let res := ci_Resource input in
  let principalScope := Scope (pr_Scope principal) evalParams in
  let principalVersion := PolicyVersion (pr_PolicyVersion principal) evalParams in
  let resourceScope := Scope (rs_Scope res) evalParams in
  let resourceVersion := PolicyVersion (rs_PolicyVersion res) evalParams in
  let result := newEvalResult (ci_Actions input) in
  let '(principalScopes, principalPolicyKey, _) :=
    GetAllScopes rt KIND_PRINCIPAL principalScope (pr_Id principal) principalVersion (LenientScopeSearch evalParams) in
  let '(resourceScopes, resourcePolicyKey, resourcePolicyFQN) :=
    GetAllScopes rt KIND_RESOURCE resourceScope (rs_Kind res) resourceVersion (LenientScopeSearch evalParams) in
  if decide (principalScopes = [] ∧ resourceScopes = []) then Some (inl result, rt)
  else
    match ValidateCheckInput (GetSchema rt resourcePolicyFQN) input with
    | inr err => Some (inr [err], rt)
    | inl (errs, reject) =>
        let result := match errs with [] => result | _ => with_validation result errs end in
        if bool_decide (errs ≠ []) && reject then
          Some (inl (foldl (λ er a, setEffect er a (MkEffectInfo resourcePolicyKey "" EFFECT_DENY)) result (ci_Actions input)), rt)
        else
          match unresolvedActions result with
          | [] => Some (inl result, rt)
          | actionsToResolve =>
              '(scopedPrincipalExists, i, pool) ← ScopedPrincipalExists (bi (rt_idx rt)) (rt_pool rt) principalVersion principalScopes;
              let resourceKind := NewResourceKind (rs_Kind res) in
              '(scopedResourceExists, i, pool) ← ScopedResourceExists i pool resourceVersion resourceKind resourceScopes;
              if negb scopedPrincipalExists && negb scopedResourceExists
              then Some (inl result, with_caches rt i pool (rt_programCache rt))
              else
                let allRoles := AddParentRoles (rt_idx rt) [resourceScope] (pr_Roles principal) in
                let fx := MkFixed input resourceVersion resourceKind resourceScope principalScopes principalPolicyKey
                            resourceScopes resourcePolicyKey scopedPrincipalExists scopedResourceExists (list_to_set allRoles) in
                let k := MkChk i pool (rt_programCache rt, ∅) ∅ ∅ ∅ (NewEvalContext evalParams (checkInputToRequest input)) [] ∅ ∅ in
                '(r, k) ← actions_loop rt fx result actionsToResolve k;
                let rt := with_caches rt (k_idx k) (k_pool k) (k_ev k).1 in
                match r with
                | inl er => Some (inl (with_chk er k), rt)
                | inr e => Some (inr e, rt)
                end
          end
    end.

(** * The response *)

Record CheckOutput := MkCheckOutput {
  co_RequestId : string;
  co_ResourceId : string;
  co_Actions : gmap string EffectInfo;
  co_EffectiveDerivedRoles : list string;
  co_ValidationErrors : list ValidationError;
  co_Outputs : list OutputEntry;
  co_EvaluationErrors : list (string * string);
}.

Definition checkWithAuditTrail (rt : RuleTable) (evalParams : EvalParams) (input : CheckInput) :
    option ((CheckOutput * gmap string string + list string) * RuleTable) :=
  '(r, rt) ← check rt evalParams input;
  Some (match r with
        | inr e => inr e
        | inl result =>
            inl (MkCheckOutput (ci_RequestId input) (rs_Id (ci_Resource input))
              (foldl (λ m action,
                <[action := default (MkEffectInfo noPolicyMatch "" EFFECT_DENY) (effects result !! action)]> m) ∅ (ci_Actions input))
              (set_range (rs_effectiveDerivedRoles result)) (rs_validationErrors result) (rs_outputs result)
              (CELErrors_All (rs_celErrors result)), rs_trail result)
        end, rt).

(** [Check]: the inputs in order; the first error is returned.  [MergeTrails]
    unites the trails. *)
Definition Check_ (rt : RuleTable) (evalParams : EvalParams) (inputs : list CheckInput) :
    option ((list CheckOutput * gmap string string + list string) * RuleTable) :=
  foldM (λ '(acc, rt) input,
    match acc with
    | inr e => Some (inr e, rt)
    | inl (outs, trail) =>
        '(r, rt) ← checkWithAuditTrail rt evalParams input;
        Some (match r with inr e => inr e | inl (out, t) => inl (outs ++ [out], t ∪ trail) end, rt)
    end) (inl ([], ∅), rt) inputs.
End check.
