(* ===== verification/CheckSpec.v ===== *)
(** Correctness of [check]: it never panics, every requested action gets ALLOW
    or DENY, an ALLOW is always backed by a rule row of the table that matches the
    request and whose condition held, and a satisfied DENY row wins over ALLOW. *)
From S2P Require Import Prelude GoRuntime Bitmap Arena LazyDim Dimension GlobDim Namer Policy ScopePerms IndexCore IndexQuery IndexQuerySpec IndexLookup Index RuleTableBuild RuleTable Eval Check.

Local Open Scope string_scope.
Local Open Scope list_scope.
Open Scope nat_scope.

Section spec.
Context `{GlobEngine} `{CelRuntime} `{GoMapOrder} `{ContentHash} `{StringHash} `{DerivedRoleHash} `{SchemaManager}.

(** A table [check] can run on: the index is well formed, pooled bitmaps are
    clear, cached programs are right, and the policy of every row is known. *)
Record table_ok (rt : RuleTable) : Prop := {
  to_bi : bi_ok (bi (rt_idx rt));
  to_pool : ∀ bm, bm ∈ rt_pool rt → cleared bm;
  to_programs : programs_ok (rt_programCache rt);
  to_meta : ∀ id b, lv (bi (rt_idx rt)) id = Some b → is_Some (GetMeta rt (HandleStr (bh_OriginFqn b)));
}.

Section run.
Context (rt : RuleTable) (idx : bitmapIndex) (ep : EvalParams) (req : Request) (fx : Fixed).
Context (Hbi : bi_ok idx) (Hmeta : ∀ id b, lv idx id = Some b → is_Some (GetMeta rt (HandleStr (bh_OriginFqn b)))).

(** * Evidence *)

(** An evaluation context of this request. *)
Definition ctx_ok (ec : EvalContext) : Prop := ec_params ec = ep ∧ ec_request ec = req.

(** The bindings consulted for an action, a role and a scope. *)
Definition pid (pt : Kind) : string := if decide (pt = KIND_PRINCIPAL) then pr_Id (ci_Principal (fx_input fx)) else "".
Definition with_parents (role : string) : list string := AddParentRoles (rt_idx rt) [fx_resourceScope fx] [role].
Definition consulted (pt : Kind) (action role scope : string) : list BindingHandle :=
  Query_spec idx (fx_resourceVersion fx) (fx_resourceKind fx) scope action (with_parents role) pt (pid pt) [].

Definition scopes_of (pt : Kind) : list string := if decide (pt = KIND_PRINCIPAL) then fx_principalScopes fx else fx_resourceScopes fx.
Local Abbreviation all_roles := (pr_Roles (ci_Principal (fx_input fx))).

(** A binding that some query of the check returns. *)
Definition asked (pt : Kind) (action role scope : string) : Prop :=
  (pt = KIND_PRINCIPAL ∨ pt = KIND_RESOURCE) ∧ action ∈ ci_Actions (fx_input fx) ∧ role ∈ all_roles ∧ scope ∈ scopes_of pt.
Definition queried (b : BindingHandle) : Prop :=
  ∃ pt action role scope, asked pt action role scope ∧ b ∈ consulted pt action role scope.

(** The variables cached under [key]: they were computed, without an error, from
    the programs of a binding or the variables of a derived role with that key. *)
Definition computed (key : N) (vars : gmap string (option cel_value)) : Prop :=
  ∃ ec, ctx_ok ec ∧
    ((∃ b p, queried b ∧ (co_Params (bh_Core b) = Some p ∨ co_DerivedRoleParams (bh_Core b) = Some p) ∧ rp_Key p = key ∧
        ∃ st, (evaluatePrograms ec (rp_Constants p) (rp_CelPrograms p) st).1 = (vars, [])) ∨
     (∃ fqn name w, GetDerivedRoles rt fqn !! name = Some w ∧ w_VarCacheKey w = key ∧
        ∃ st, programs_ok st.1 ∧ (evaluateVariables ec (w_Constants w) (dr_OrderedVariables (w_role w)) st).1 = (vars, []))).

(** The constants and variables an expression of the binding is evaluated with. *)
Definition vars_of (p : option RowParams) (consts : gmap string Value) (vars : gmap string (option cel_value)) : Prop :=
  match p with
  | None => consts = ∅ ∧ vars = ∅
  | Some p => consts = rp_Constants p ∧ computed (rp_Key p) vars
  end.

(** The conditions of a binding evaluated to [v] for this request: the derived
    role condition, if any, did not hold, or it did and the condition has value
    [v]. *)
Definition conditions_are (b : BindingHandle) (v : bool) : Prop :=
  (v = false ∧ ∃ c ec consts vars, co_DerivedRoleCondition (bh_Core b) = Some c ∧ ctx_ok ec ∧
    vars_of (co_DerivedRoleParams (bh_Core b)) consts vars ∧ denote ec consts vars c = inl false) ∨
  ((∀ c, co_DerivedRoleCondition (bh_Core b) = Some c → ∃ ec consts vars, ctx_ok ec ∧
     vars_of (co_DerivedRoleParams (bh_Core b)) consts vars ∧ denote ec consts vars c = inl true) ∧
   ∃ ec consts vars, ctx_ok ec ∧ vars_of (co_Params (bh_Core b)) consts vars ∧
     denote_opt ec consts vars (co_Condition (bh_Core b)) = inl v).

(** The outcome of a binding was established for a binding with the same
    evaluation key (the key of the condition cache). *)
Definition outcome (b : BindingHandle) (v : bool) : Prop :=
  ∃ b', queried b' ∧ evalKey idx (bh_ID b') = evalKey idx (bh_ID b) ∧ conditions_are b' v.

(** * Running [check] *)

Record k_inv (k : chk) : Prop := {
  ki_idx : bi_rel idx (k_idx k);
  ki_pool : ∀ bm, bm ∈ k_pool k → cleared bm;
  ki_programs : programs_ok (k_ev k).1;
  ki_ctx : ctx_ok (evalCtx k);
  ki_cond : ∀ key v, conditionCache k !! key = Some v → ∃ b, queried b ∧ evalKey idx (bh_ID b) = Some key ∧ conditions_are b v;
  ki_vars : ∀ key vars, varCache k !! key = Some vars → computed key vars;
}.

Definition cruns {A} (m : CM A) (k : chk) (Q : A → Prop) : Prop :=
  ∃ r k', m k = Some (r, k') ∧ k_inv k' ∧ match r with inl x => Q x | inr _ => True end.

Lemma c_ret {A} (x : A) k (Q : A → Prop) : k_inv k → Q x → cruns (mret x) k Q.
Proof. intros Hk HQ. by exists (inl x), k. Qed.

Lemma c_bind {A B} (m : CM A) (f : A → CM B) k P (Q : B → Prop) :
  cruns m k P → (∀ x k', k_inv k' → P x → cruns (f x) k' Q) → cruns (m ≫= f) k Q.
Proof.
  intros (r & k1 & Hm & Hk1 & Hr) Hf. unfold cruns, mbind, CM_bind. rewrite Hm. cbn. destruct r as [x|e].
  - exact (Hf x k1 Hk1 Hr).
  - by exists (inr e), k1.
Qed.

Lemma c_mono {A} (m : CM A) k (P Q : A → Prop) : cruns m k P → (∀ x, P x → Q x) → cruns m k Q.
Proof. intros (r & k1 & Hm & Hk1 & Hr) HPQ. exists r, k1. split_and!; [done..|]. destruct r; auto. Qed.

Lemma c_throw {A} e k (Q : A → Prop) : k_inv k → cruns (throw e) k Q.
Proof. intros Hk. by exists (inr e), k. Qed.

Lemma c_modify f k (Q : unit → Prop) : k_inv (f k) → Q () → cruns (modify f) k Q.
Proof. intros Hk HQ. by exists (inl ()), (f k). Qed.

Lemma c_look {A} (f : chk → A) k (Q : A → Prop) : k_inv k → Q (f k) → cruns (look f) k Q.
Proof. intros Hk HQ. by exists (inl (f k)), k. Qed.

Lemma c_panic {A} (o : option A) k (Q : A → Prop) : k_inv k → runs o Q → cruns (panic_if_none o) k Q.
Proof. intros Hk (x & -> & HQ). by exists (inl x), k. Qed.

Lemma c_eval {A} (f : EvalContext → evstate → A * evstate) k (Q : A → Prop) :
  k_inv k → (programs_ok (f (evalCtx k) (k_ev k)).2.1 ∧ Q (f (evalCtx k) (k_ev k)).1) → cruns (eval f) k Q.
Proof.
  intros [? ? ? ? ? ?] [Hok HQ]. unfold cruns, eval. destruct (f (evalCtx k) (k_ev k)) as [x e].
  exists (inl x), (set_ev e k). split_and!; [done|by split|done].
Qed.

Lemma c_fold {A B} (f : B → A → CM B) (P : B → Prop) l acc k :
  k_inv k → P acc → (∀ acc x k, k_inv k → x ∈ l → P acc → cruns (f acc x) k P) → cruns (foldCM f acc l) k P.
Proof.
  intros Hk HP Hf. revert acc k Hk HP. induction l as [|x l IH]; intros acc k Hk HP; cbn [foldCM]; [by apply c_ret|].
  eapply c_bind; [apply Hf; [done|left|done]|]. intros acc' k' Hk' HP'. apply IH; [|done|done].
  intros acc2 y k2 Hk2 Hy. apply Hf; [done|by right].
Qed.

(** ** Variables *)

Lemma cached_vars_runs key compute k :
  k_inv k → (∀ ec st, programs_ok st.1 → programs_ok (compute ec st).2.1) →
  (∀ ec st vars, ctx_ok ec → programs_ok st.1 → (compute ec st).1 = (vars, []) → computed key vars) →
  cruns (cached_vars key compute) k (computed key).
Proof.
  intros Hk Hc Hv. unfold cached_vars. eapply c_bind; [apply (c_look _ _ (λ c, ∀ vars, c = Some vars → computed key vars)); [done|apply Hk]|].
  intros [vars|] k1 Hk1 Hl; [apply c_ret; auto|].
  eapply c_bind; [apply (c_eval _ _ (λ r, r = (compute (evalCtx k1) (k_ev k1)).1)); [done|split; [apply Hc, Hk1|done]]|]. intros [vars errs] k2 Hk2 E.
  destruct errs; [|by apply c_throw].
  assert (computed key vars) as Hcomp by (eapply Hv; [apply Hk1|apply Hk1|done]).
  eapply c_bind; [apply (c_modify _ _ (λ _, True)); [|done]|intros _ k3 Hk3 _; by apply c_ret].
  destruct Hk2 as [? ? ? ? ? Hvs]. split; [done..|]. cbn. intros key' vars' [[<- <-]|[_ Hl']]%lookup_insert_Some; [done|by apply Hvs].
Qed.

Lemma params_vars_runs b p k :
  k_inv k → queried b → (co_Params (bh_Core b) = p ∨ co_DerivedRoleParams (bh_Core b) = p) →
  cruns (params_vars p) k (λ '(consts, vars), vars_of p consts vars).
Proof.
  intros Hk Hq Hp. destruct p as [p|]; cbn [params_vars]; [|by apply c_ret].
  eapply c_bind; [apply cached_vars_runs; [done|..]|].
  - intros ec st Hst. by apply evaluatePrograms_ok.
  - intros ec st vars Hec _ E. exists ec. split; [done|]. left. exists b, p. split_and!; [done..|by exists st].
  - intros vars k1 Hk1 Hv. by apply c_ret.
Qed.

(** Evaluating a condition gives its denotation in the current context. *)
Lemma eval_condition_runs c consts vars k :
  k_inv k → cruns (eval (λ ec, SatisfiesCondition ec c consts vars)) k (λ r, ∃ ec, ctx_ok ec ∧ r = denote_opt ec consts vars c).
Proof.
  intros Hk. destruct (SatisfiesCondition_spec (evalCtx k) consts vars c (k_ev k) (ki_programs _ Hk)) as [E Hok].
  apply c_eval; [done|]. split; [done|]. exists (evalCtx k). split; [apply Hk|done].
Qed.

(** ** Derived roles *)

Lemma scope_derived_roles_runs kind ver scope incl k : k_inv k → cruns (scope_derived_roles rt kind ver scope incl) k (λ _, True).
Proof.
  intros Hk. unfold scope_derived_roles. eapply c_bind; [apply (c_look _ _ (λ _, True)); done|]. intros processed k1 Hk1 _.
  eapply (c_bind _ _ _ (λ _, True)).
  - destruct processed as [sdr|]; [by apply c_ret|]. eapply (c_bind _ _ _ (λ _, True)).
    + apply c_fold; [done|done|]. intros sdr [name w] k2 Hk2 Hin _. unfold eval_derived_role.
      destruct (negb _); [by apply c_ret|].
      eapply c_bind; [apply cached_vars_runs; [done|intros ec st Hst; by apply evaluateVariables_ok|]|].
      { intros ec st vars Hec Hst E. exists ec. split; [done|]. right.
        exists (ResourcePolicyFQN kind ver scope), name, w. split_and!; [by apply elem_of_go_range|done|by exists st]. }
      intros vars k3 Hk3 _.
      eapply c_bind; [by apply eval_condition_runs|]. intros [[|]|e] k4 Hk4 _.
      * eapply c_bind; [apply (c_modify _ _ (λ _, True)); [destruct Hk4; by split|done]|]. intros _ k5 Hk5 _. by apply c_ret.
      * by apply c_ret.
      * eapply c_bind; [apply (c_look _ _ (λ _, True)); done|]. intros strict k5 Hk5 _. by apply c_ret.
    + intros sdr k2 Hk2 _. eapply c_bind; [apply (c_modify _ _ (λ _, True)); [destruct Hk2; by split|done]|].
      intros _ k3 Hk3 _. by apply c_ret.
  - intros sdr k2 Hk2 _. apply c_modify; [|done]. destruct Hk2 as [? ? ? [? ?] ? ?]. by split.
Qed.

(** ** The condition of a binding *)

Definition strict : Prop := StrictEvaluation ep = true.

(** Evaluating one of the conditions of a binding failed. *)
Definition errored (b : BindingHandle) : Prop :=
  ∃ ec consts vars e, ctx_ok ec ∧
    ((∃ c, co_DerivedRoleCondition (bh_Core b) = Some c ∧ vars_of (co_DerivedRoleParams (bh_Core b)) consts vars ∧
        denote ec consts vars c = inr e) ∨
     (∀ c, co_DerivedRoleCondition (bh_Core b) = Some c → ∃ ec consts vars, ctx_ok ec ∧
        vars_of (co_DerivedRoleParams (bh_Core b)) consts vars ∧ denote ec consts vars c = inl true) ∧
     vars_of (co_Params (bh_Core b)) consts vars ∧ denote_opt ec consts vars (co_Condition (bh_Core b)) = inr e).

(** The rule does not apply: its conditions do not hold, or fail outside strict mode. *)
Definition inapplicable (b : BindingHandle) : Prop := outcome b false ∨ errored b ∧ ¬ strict.

Definition cond_post (b : BindingHandle) (c : CondResult) : Prop :=
  match c with C_value v => outcome b v | C_skip => inapplicable b | C_deny => errored b ∧ strict end.

Lemma on_eval_error_runs b k : k_inv k → errored b → cruns on_eval_error k (λ c, (c = C_skip ∨ c = C_deny) ∧ cond_post b c).
Proof.
  intros Hk Hb. unfold on_eval_error. eapply c_bind; [apply (c_look _ _ (λ s, s = StrictEvaluation ep)); [done|]|].
  - by rewrite (proj1 (ki_ctx _ Hk)).
  - intros s k1 Hk1 ->. apply c_ret; [done|]. unfold cond_post, inapplicable, strict.
    destruct (StrictEvaluation ep); split; auto.
Qed.

Lemma cache_condition k b key v :
  k_inv k → queried b → evalKey idx (bh_ID b) = Some key → conditions_are b v →
  k_inv (set_conditionCache (<[key := v]> (conditionCache k)) k).
Proof.
  intros [? ? ? ? Hc ?] Hq Hkey Hb. split; try done. cbn. intros key' v' [[<- <-]|[_ Hl]]%lookup_insert_Some; [eauto|by apply Hc].
Qed.

Lemma binding_condition_runs b key consts vars k :
  k_inv k → queried b → evalKey idx (bh_ID b) = Some key → vars_of (co_Params (bh_Core b)) consts vars →
  cruns (binding_condition b key consts vars) k (cond_post b).
Proof.
  intros Hk Hq Hkey Hvars. unfold binding_condition.
  eapply c_bind; [apply (c_look _ _ (λ c, ∀ v, c = Some v → outcome b v)); [done|]|].
  { intros v Hv. destruct (ki_cond _ Hk _ _ Hv) as (b' & Hq' & Hb' & Hc). exists b'. split_and!; [done|by rewrite Hb', Hkey|done]. }
  intros [v|] k1 Hk1 Hc; [apply c_ret; [done|by apply Hc]|]. clear Hc.
  eapply (c_bind _ _ _ (λ d, match d with
    | Some (C_value _) => False | Some x => cond_post b x
    | None => ∀ c, co_DerivedRoleCondition (bh_Core b) = Some c → ∃ ec consts vars, ctx_ok ec ∧
        vars_of (co_DerivedRoleParams (bh_Core b)) consts vars ∧ denote ec consts vars c = inl true
    end)).
  - unfold derived_role_condition. destruct (co_DerivedRoleCondition (bh_Core b)) as [c|] eqn:Ed; [|by apply c_ret].
    eapply c_bind; [apply (params_vars_runs b); auto|]. intros [dc dv] k2 Hk2 Hdv.
    eapply c_bind; [by apply eval_condition_runs|]. intros r k3 Hk3 (ec & Hec & Er). cbn [denote_opt] in Er.
    destruct r as [[|]|e].
    + apply c_ret; [done|]. intros c' [= <-]. eauto 6.
    + assert (conditions_are b false) as Hb by (left; split; [done|]; eauto 8).
      eapply c_bind; [apply (c_modify _ _ (λ _, True)); [by apply (cache_condition k3 b)|done]|].
      intros _ k4 Hk4 _. apply c_ret; [done|]. left. by exists b.
    + eapply c_bind; [apply (on_eval_error_runs b); [done|]; eexists ec, dc, dv, e; eauto 6|].
      intros x k4 Hk4 [[->| ->] Hx]; by apply c_ret.
  - intros [[v| |]|] k2 Hk2 Hd; [done|by apply c_ret..|].
    eapply c_bind; [by apply eval_condition_runs|]. intros r k3 Hk3 (ec & Hec & Er). destruct r as [v|e].
    + assert (conditions_are b v) as Hb by (right; eauto 8).
      eapply c_bind; [apply (c_modify _ _ (λ _, True)); [by apply (cache_condition k3 b)|done]|].
      intros _ k4 Hk4 _. apply c_ret; [done|]. by exists b.
    + eapply c_mono; [apply (on_eval_error_runs b); [done|]; exists ec, consts, vars, e; auto|]. by intros x [_ ?].
Qed.

(** ** One binding *)

(** What [check] needs of a binding: a key, and metadata when it has an output. *)
Definition binding_ok (b : BindingHandle) : Prop :=
  queried b ∧ has_key idx b ∧ (co_EmitOutput (bh_Core b) ≠ None → is_Some (GetMeta rt (HandleStr (bh_OriginFqn b)))).

Lemma emit_runs b action sel consts vars k :
  k_inv k → binding_ok b → cruns (emit rt b action (output_when b sel) consts vars) k (λ _, True).
Proof.
  intros Hk (_ & _ & Hm). unfold emit, output_when. destruct (co_EmitOutput (bh_Core b)) as [o|]; [|by apply c_ret]. bsimp.
  destruct (When o ≫= sel) as [e|]; [|by apply c_ret].
  destruct Hm as [m Hm]; [done|]. rewrite Hm.
  eapply c_bind; [apply (c_panic _ _ (λ _, True)); [done|by eexists]|]. intros src k1 Hk1 _.
  eapply c_bind; [apply (c_eval _ _ (λ _, True)); [done|split; [|done]]|].
  { apply evaluateOutput_ok, Hk1. }
  intros out k2 Hk2 _. apply c_modify; [destruct Hk2; by split|done].
Qed.

Definition allows (b : BindingHandle) : Prop := co_Effect (bh_Core b) = EFFECT_ALLOW ∧ outcome b true.
Definition denies (b : BindingHandle) : Prop := co_Effect (bh_Core b) = EFFECT_DENY ∧ outcome b true.

(** What a loop over bindings establishes about those it went through. *)
Definition flow_post (bs : list BindingHandle) (scope : string) (hasAllow : bool) (info : EffectInfo) (f : Flow) : Prop :=
  match f with
  | F_next h i => (h = true → hasAllow = true ∨ ∃ b, b ∈ bs ∧ allows b) ∧ ei_Effect i = ei_Effect info ∧
      ∀ b, b ∈ bs → co_Effect (bh_Core b) = EFFECT_DENY → inapplicable b
  | F_scopes i => ei_Effect i = EFFECT_DENY ∧ ei_Scope i = scope ∧ ∃ b, b ∈ bs ∧ denies b
  | F_policies a => ei_Effect a = EFFECT_DENY ∧ ei_Scope a = scope ∧ strict ∧ ∃ b, b ∈ bs ∧ errored b
  end.

Lemma apply_effect_post b scope hasAllow info :
  outcome b true → flow_post [b] scope hasAllow info (apply_effect b scope hasAllow info).
Proof.
  intros Hb. assert (b ∈ [b]) as Hin by left. unfold apply_effect. destruct (decide (co_Effect (bh_Core b) = EFFECT_DENY)) as [Ed|Ed].
  - split_and!; [done..|]. exists b. done.
  - assert (flow_post [b] scope hasAllow info
      (F_next (if decide (co_Effect (bh_Core b) = EFFECT_ALLOW) then true else hasAllow) info)) as Hn.
    { split_and!; [|done|by intros b' ->%list_elem_of_singleton ?].
      case_decide as Ea; [intros _; right; exists b; done|by left]. }
    by destruct (bh_NoMatchForScopePermissions b).
Qed.

Lemma eval_binding_runs action scope b hasAllow info k :
  k_inv k → binding_ok b → cruns (eval_binding rt action scope b hasAllow info) k (flow_post [b] scope hasAllow info).
Proof.
  intros Hk Hb. pose proof Hb as (Hq & [key Hkey] & _). unfold eval_binding.
  eapply c_bind; [apply (c_look _ _ (λ i, bi_rel idx i)); [done|apply Hk]|]. intros i k1 Hk1 Hi.
  assert (evalKey i (bh_ID b) = Some key) as -> by (by rewrite (evalKey_rel idx)).
  eapply c_bind; [apply (c_panic _ _ (λ x, x = key)); [done|by rret]|]. intros ? k2 Hk2 ->.
  eapply (c_bind _ _ _ (λ _, True)).
  { destruct (GetMeta rt _); [|by apply c_ret]. apply c_modify; [destruct Hk2; by split|done]. }
  intros _ k3 Hk3 _. eapply c_bind; [apply (params_vars_runs b); auto|]. intros [consts vars] k4 Hk4 Hvars.
  eapply c_bind; [by apply binding_condition_runs|]. intros c k5 Hk5 Hc.
  assert (inapplicable b → flow_post [b] scope hasAllow info (F_next hasAllow info)) as Hskip.
  { intros Hn. split_and!; [auto|done|]. by intros b' ->%list_elem_of_singleton ?. }
  destruct c as [[|]| |]; cbn [cond_post] in Hc.
  - eapply c_bind; [by apply emit_runs|]. intros _ k6 Hk6 _. apply c_ret; [done|]. by apply apply_effect_post.
  - eapply c_bind; [by apply emit_runs|]. intros _ k6 Hk6 _. apply c_ret; [done|]. apply Hskip. by left.
  - apply c_ret; [done|]. by apply Hskip.
  - apply c_ret; [done|]. destruct Hc as [? ?]. split_and!; [done..|]. exists b. split; [left|done].
Qed.

Lemma bindings_loop_runs action scope bs hasAllow info k :
  k_inv k → (∀ b, b ∈ bs → binding_ok b) →
  cruns (bindings_loop rt action scope bs hasAllow info) k (flow_post bs scope hasAllow info).
Proof.
  intros Hk Hbs. revert hasAllow info k Hk. induction bs as [|b bs IH]; intros hasAllow info k Hk; cbn [bindings_loop].
  { apply c_ret; [done|]. split_and!; [auto|done|]. intros b Hb. by apply elem_of_nil in Hb. }
  eapply c_bind; [apply eval_binding_runs; [done|apply Hbs; left]|]. intros f k1 Hk1 Hf.
  assert (∀ P : BindingHandle → Prop, (∃ x, x ∈ [b] ∧ P x) → ∃ x, x ∈ b :: bs ∧ P x) as Hw.
  { intros P (x & ->%list_elem_of_singleton & Hx). exists b. split; [left|done]. }
  destruct f as [h i|i|a].
  - destruct Hf as (Ha & He & Hd). eapply c_mono; [apply IH; [|done]; intros x Hx; apply Hbs; by right|].
    assert (∀ P : BindingHandle → Prop, (∃ x, x ∈ bs ∧ P x) → ∃ x, x ∈ b :: bs ∧ P x) as Hw2.
    { intros P (x & Hx & HP). exists x. split; [by right|done]. }
    intros [h' i'|i'|a']; cbn [flow_post].
    + intros (Ha' & He' & Hd'). split_and!; [|congruence|].
      * intros Hh. destruct (Ha' Hh) as [Hh'|?]; [|auto]. destruct (Ha Hh'); auto.
      * intros x [->|Hx]%elem_of_cons; [apply Hd; left|by apply Hd'].
    + intros (? & ? & ?). split_and!; [done..|auto].
    + intros (? & ? & ? & ?). split_and!; [done..|auto].
  - apply c_ret; [done|]. destruct Hf as (? & ? & ?). split_and!; [done..|auto].
  - apply c_ret; [done|]. destruct Hf as (? & ? & ? & ?). split_and!; [done..|auto].
Qed.

(** ** Scopes *)

Lemma consulted_ok pt action role scope b : asked pt action role scope → b ∈ consulted pt action role scope → binding_ok b.
Proof using Hbi Hmeta.
  intros Hask Hb. split; [by repeat eexists; [apply Hask..|]|]. split; [by eapply Query_has_key|]. intros Ho.
  assert (∀ f x, x ∈ scan idx f → is_Some (GetMeta rt (HandleStr (bh_OriginFqn x)))) as Hscan.
  { intros f x (id & Hl & _)%elem_of_scan. by eapply Hmeta. }
  apply Query_spec_elem in Hb as [Hb|[[(r & v & sc & rs & a & ->)|(mb & a & Hmb & Hb)] _]]; [by eapply Hscan|done|].
  replace (bh_OriginFqn b) with (bh_OriginFqn mb); [by eapply Hscan|]. unfold synthesise in Hb.
  destruct (co_Condition (bh_Core mb)); [|destruct (co_EmitOutput (bh_Core mb))];
    [by apply list_elem_of_singleton in Hb as ->..|by apply elem_of_nil in Hb].
Qed.

(** No DENY rule of the scope applies. *)
Definition not_denied (pt : Kind) (action role scope : string) : Prop :=
  ∀ b, b ∈ consulted pt action role scope → co_Effect (bh_Core b) = EFFECT_DENY → inapplicable b.

(** An ALLOW rule applies in one of the scopes, and neither that scope nor any
    after it leaves ALLOWs to its parents. *)
Definition granting (pt : Kind) (action role : string) (scopes : list string) : Prop :=
  ∃ before s after b, scopes = before ++ s :: after ∧ b ∈ consulted pt action role s ∧ allows b ∧
    ∀ t, t ∈ s :: after → GetScopeScopePermissions rt t ≠ SCOPE_PERMISSIONS_REQUIRE_PARENTAL_CONSENT_FOR_ALLOWS.

(** Why a role is allowed: in the scopes up to the deciding one, which overrides
    its parents, no DENY rule applies, and an ALLOW rule does that no scope from
    its own on leaves to the parents. *)
Definition role_allowed (pt : Kind) (action role : string) (scopes : list string) (i : EffectInfo) : Prop :=
  ei_Effect i = EFFECT_ALLOW ∧
  ∃ pre post, scopes = pre ++ ei_Scope i :: post ∧
    GetScopeScopePermissions rt (ei_Scope i) = SCOPE_PERMISSIONS_OVERRIDE_PARENT ∧
    granting pt action role (pre ++ [ei_Scope i]) ∧
    ∀ s, s ∈ pre ++ [ei_Scope i] → not_denied pt action role s.

Definition role_denied (pt : Kind) (action role : string) (scopes : list string) (i : EffectInfo) : Prop :=
  ei_Effect i = EFFECT_DENY ∧ ei_Scope i ∈ scopes ∧ ∃ b, b ∈ consulted pt action role (ei_Scope i) ∧ denies b.

(** In strict mode an evaluation error denies the action. *)
Definition error_denied (pt : Kind) (action role : string) (scopes : list string) (i : EffectInfo) : Prop :=
  ei_Effect i = EFFECT_DENY ∧ strict ∧ ei_Scope i ∈ scopes ∧ ∃ b, b ∈ consulted pt action role (ei_Scope i) ∧ errored b.

Definition scopes_post (pt : Kind) (action role : string) (scopes : list string) (r : EffectInfo + EffectInfo) : Prop :=
  match r with
  | inl i => (ei_Effect i = EFFECT_NO_MATCH ∧ ∀ s, s ∈ scopes → not_denied pt action role s) ∨
      role_denied pt action role scopes i ∨ role_allowed pt action role scopes i
  | inr a => error_denied pt action role scopes a
  end.

Lemma query_runs pt action role scope k :
  k_inv k → cruns (query (λ i pool, Query i pool (fx_resourceVersion fx) (fx_resourceKind fx) scope action (with_parents role) pt (pid pt) [])) k
    (λ bs, bs = consulted pt action role scope).
Proof using Hbi.
  intros Hk. unfold cruns, query.
  destruct (with_arena_runs_rel idx (k_idx k) (Query_state (fx_resourceVersion fx) (fx_resourceKind fx) scope action (with_parents role) pt (pid pt) [])
    (k_pool k) (λ l, l = consulted pt action role scope)) as ([[l i] pool] & E & Hl & Hi & Hp).
  - apply Hk.
  - apply Hk.
  - intros s Hs. by apply Query_state_runs.
  - unfold Query. rewrite E. exists (inl l), (set_kidx i pool k). split_and!; [done| |done]. destruct Hk. by split.
Qed.

Lemma granting_snoc pt action role seen scope :
  GetScopeScopePermissions rt scope ≠ SCOPE_PERMISSIONS_REQUIRE_PARENTAL_CONSENT_FOR_ALLOWS →
  granting pt action role seen ∨ (∃ b, b ∈ consulted pt action role scope ∧ allows b) →
  granting pt action role (seen ++ [scope]).
Proof.
  intros Hsp [(l & s & l' & b & -> & Hb & Ha & Hc)|(b & Hb & Ha)].
  - exists l, s, (l' ++ [scope]), b. split_and!; [by rewrite <-app_assoc|done|done|].
    intros t [->|[Ht| ->%list_elem_of_singleton]%elem_of_app]%elem_of_cons; [apply Hc; left|apply Hc; by right|done].
  - exists seen, scope, [], b. split_and!; [done..|]. by intros t ->%list_elem_of_singleton.
Qed.

Lemma scopes_loop_runs pt action role seen scopes hasAllow info k :
  k_inv k → (∀ s, s ∈ scopes → asked pt action role s) → ei_Effect info = EFFECT_NO_MATCH →
  (hasAllow = true → granting pt action role seen) →
  (∀ s, s ∈ seen → not_denied pt action role s) →
  cruns (scopes_loop rt fx pt action (with_parents role) scopes hasAllow info) k (scopes_post pt action role (seen ++ scopes)).
Proof using Hbi Hmeta.
  revert seen hasAllow info k. induction scopes as [|scope scopes IH]; intros seen hasAllow info k Hk Hask Hinfo Hallow Hseen; cbn [scopes_loop].
  { apply c_ret; [done|]. left. split; [done|]. intros s [?|?%elem_of_nil]%elem_of_app; auto. done. }
  eapply (c_bind _ _ _ (λ _, True)).
  { case_decide; [by apply scope_derived_roles_runs|by apply c_ret]. }
  intros _ k1 Hk1 _. rewrite decide_False by (by intros ?).
  eapply c_bind; [by apply query_runs|]. intros bs k2 Hk2 ->.
  eapply c_bind; [apply bindings_loop_runs; [done|]; intros b Hb; eapply consulted_ok; [apply Hask; left|done]|]. intros f k3 Hk3 Hf.
  assert (scope ∈ seen ++ scope :: scopes) as Hin by (apply elem_of_app; right; left).
  destruct f as [h i|i|a].
  - destruct Hf as (Ha & He & Hd).
    assert (h = true → GetScopeScopePermissions rt scope ≠ SCOPE_PERMISSIONS_REQUIRE_PARENTAL_CONSENT_FOR_ALLOWS →
      granting pt action role (seen ++ [scope])) as Hallow'.
    { intros Hh Hsp. apply granting_snoc; [done|]. destruct (Ha Hh) as [Hh'|?]; auto. }
    assert (∀ s, s ∈ seen ++ [scope] → not_denied pt action role s) as Hseen'.
    { intros s [?| ->%list_elem_of_singleton]%elem_of_app; [by apply Hseen|done]. }
    assert (∀ h', (h' = true → granting pt action role (seen ++ [scope])) → cruns (scopes_loop rt fx pt action (with_parents role) scopes h' i) k3
      (scopes_post pt action role (seen ++ scope :: scopes))) as Hgo.
    { intros h' Hh'. replace (seen ++ scope :: scopes) with ((seen ++ [scope]) ++ scopes) by (by rewrite <-app_assoc).
      apply IH; [done|intros s Hs; apply Hask; by right|congruence|auto|done]. }
    unfold scope_allow. destruct h; [|by apply Hgo].
    destruct (GetScopeScopePermissions rt scope) eqn:Esp; [apply Hgo; intros _; by apply Hallow'| |by apply Hgo].
    apply c_ret; [done|]. right. right. split; [done|]. exists seen, scopes. cbn. split_and!; [done..| |done]. apply Hallow'; [done|congruence].
  - apply c_ret; [done|]. destruct Hf as (? & Es & ?). right. left. unfold role_denied. by rewrite Es.
  - apply c_ret; [done|]. destruct Hf as (? & Es & ? & ?). cbn [scopes_post]. unfold error_denied. by rewrite Es.
Qed.

(** ** Roles *)

Definition some_role (P : string → Prop) : Prop := ∃ role, role ∈ all_roles ∧ P role.

(** What is known of an action's effect after the policies of one kind. *)
Definition kind_post (pt : Kind) (action : string) (r : EffectInfo + EffectInfo) : Prop :=
  match r with
  | inl i => ei_Effect i = EFFECT_NO_MATCH ∨
      some_role (λ role, role_denied pt action role (scopes_of pt) i) ∨
      some_role (λ role, role_allowed pt action role (scopes_of pt) i)
  | inr a => some_role (λ role, error_denied pt action role (scopes_of pt) a)
  end.

(** Without a match, no DENY rule applies to the first role. *)
Definition head_clear (pt : Kind) (action : string) (roles : list string) : Prop :=
  ∀ role s, head roles = Some role → s ∈ scopes_of pt → not_denied pt action role s.

Lemma merge_role_effect a i : merge_role a i = i ∨ (merge_role a i = a ∧ ei_Effect a ≠ EFFECT_NO_MATCH ∧ ei_Effect i ≠ EFFECT_ALLOW).
Proof. unfold merge_role. repeat case_decide; auto. Qed.

Lemma merge_role_deny a i : ei_Effect a = EFFECT_DENY → ei_Effect i = EFFECT_NO_MATCH → merge_role a i = a.
Proof.
  intros Ha Hi. unfold merge_role. repeat case_decide; intuition congruence.
Qed.

Lemma roles_loop_runs pt action roles actionInfo k :
  k_inv k → (pt = KIND_PRINCIPAL ∨ pt = KIND_RESOURCE) → action ∈ ci_Actions (fx_input fx) → (∀ role, role ∈ roles → role ∈ all_roles) →
  ei_Effect actionInfo = EFFECT_NO_MATCH ∨ some_role (λ role, role_denied pt action role (scopes_of pt) actionInfo) →
  cruns (roles_loop rt fx pt action roles actionInfo) k (λ r, kind_post pt action r ∧
    ∀ i, r = inl i → ei_Effect i = EFFECT_NO_MATCH → ei_Effect actionInfo = EFFECT_NO_MATCH ∧ head_clear pt action roles).
Proof using Hbi Hmeta.
  revert actionInfo k. induction roles as [|role roles IH]; intros actionInfo k Hk Hpt Hact Hsub Ha; cbn [roles_loop].
  { apply c_ret; [done|]. split; [naive_solver|]. intros i [= <-] He. split; [done|]. by intros ? ? [=]. }
  assert (role ∈ all_roles) as Hrole by (apply Hsub; left).
  assert (∃ key fnd, (if decide (pt = KIND_PRINCIPAL) then (fx_principalScopes fx, fx_principalPolicyKey fx, fx_scopedPrincipalExists fx)
    else (fx_resourceScopes fx, fx_resourcePolicyKey fx, fx_scopedResourceExists fx)) = (scopes_of pt, key, fnd)) as (key & fnd & ->)
    by (unfold scopes_of; case_decide; eauto).
  eapply c_bind; [apply (scopes_loop_runs pt action role []); [done|done|done|done|by intros s ?%elem_of_nil]|].
  intros r k1 Hk1 Hr. cbn [app] in Hr. destruct r as [i|a].
  2:{ apply c_ret; [done|]. split; [by exists role|done]. }
  assert (ei_Effect (merge_role actionInfo i) = EFFECT_NO_MATCH →
    ei_Effect actionInfo = EFFECT_NO_MATCH ∧ head_clear pt action (role :: roles)) as Hnm.
  { intros He. destruct (merge_role_effect actionInfo i) as [E|(E & ? & _)]; rewrite E in He; [|done].
    destruct Hr as [[_ Hc]|[[? _]|[? _]]]; [|congruence..]. split.
    - destruct Ha as [?|(r & _ & Hd & _)]; [done|]. rewrite (merge_role_deny _ _ Hd He) in E. congruence.
    - intros role' s [= <-] Hs. by apply Hc. }
  case_decide as Hstop.
  - apply c_ret; [done|]. split; [|intros j [= <-]; exact Hnm].
    destruct (merge_role_effect actionInfo i) as [->|(-> & Hne & _)]; cbn [kind_post].
    + destruct Hr as [[? _]|[?|?]]; [by left|right; left; by exists role|right; right; by exists role].
    + destruct Ha as [?|?]; [done|]. auto.
  - eapply c_mono; [apply IH; [done|done|done|intros r Hin; apply Hsub; by right|]|].
    + destruct (merge_role_effect actionInfo i) as [->|(-> & Hne & _)]; [|done].
      destruct Hr as [[? _]|[?|[? _]]]; [by left|right; by exists role|]. exfalso. apply Hstop. by left.
    + intros r [Hkp Hn]. split; [done|]. intros j Ej Hj. destruct (Hn j Ej Hj) as [He _]. by apply Hnm.
Qed.

(** ** Policies and actions *)

Definition allowed (action : string) (i : EffectInfo) : Prop :=
  some_role (λ role, role_allowed KIND_PRINCIPAL action role (fx_principalScopes fx) i) ∨
  some_role (λ role, role_allowed KIND_RESOURCE action role (fx_resourceScopes fx) i) ∧ head_clear KIND_PRINCIPAL action all_roles.

Definition action_post (action : string) (i : EffectInfo) : Prop :=
  ei_Effect i = EFFECT_DENY ∨ allowed action i.

Lemma check_action_runs action k : k_inv k → action ∈ ci_Actions (fx_input fx) → cruns (check_action rt fx action) k (action_post action).
Proof using Hbi Hmeta.
  intros Hk Hact. unfold check_action.
  eapply (c_bind _ _ _ (λ i, ei_Effect i = EFFECT_NO_MATCH ∨ action_post action i)).
  - cbn [policies_loop]. eapply c_bind; [apply (roles_loop_runs KIND_PRINCIPAL); [done|by left|done|done|by left]|].
    intros [i|a] k1 Hk1 [Hp Hn].
    2:{ apply c_ret; [done|]. destruct Hp as (role & _ & ? & _). right. by left. }
    case_decide as Hd.
    { apply c_ret; [done|]. right. destruct Hp as [E|[(role & _ & ? & _)|?]]; [destruct Hd; congruence|by left|by right; left]. }
    assert (ei_Effect i = EFFECT_NO_MATCH) as Hi.
    { destruct Hp as [?|[(role & _ & ? & _)|(role & _ & ? & _)]]; [done|exfalso; apply Hd; auto..]. }
    destruct (Hn i eq_refl Hi) as [_ Hclear].
    eapply c_bind; [apply (roles_loop_runs KIND_RESOURCE); [done|by right|done|done|by left]|].
    intros [j|a] k2 Hk2 [Hp2 _].
    2:{ apply c_ret; [done|]. destruct Hp2 as (role & _ & ? & _). right. by left. }
    assert (ei_Effect j = EFFECT_NO_MATCH ∨ action_post action j) as Hj.
    { destruct Hp2 as [?|[(role & _ & ? & _)|?]]; [by left|by right; left|right; right; by right]. }
    case_decide; by apply c_ret.
  - intros i k1 Hk1 Hi. apply c_ret; [done|]. case_decide as He; [by left|]. destruct Hi; [done|done].
Qed.

(** Every action of the list gets an effect. *)
Lemma actions_loop_runs er actions k :
  k_inv k → (∀ a, a ∈ actions → a ∈ ci_Actions (fx_input fx)) →
  (∀ a i, effects er !! a = Some i → action_post a i) →
  cruns (actions_loop rt fx er actions) k (λ er', rs_actions er' = rs_actions er ∧ rs_validationErrors er' = rs_validationErrors er ∧
    (∀ a i, effects er' !! a = Some i → action_post a i) ∧
    ∀ a, (is_Some (effects er !! a) ∨ a ∈ actions) → is_Some (effects er' !! a)).
Proof using Hbi Hmeta.
  unfold actions_loop. revert er k. induction actions as [|action actions IH]; intros er k Hk Hsub Her; cbn [foldCM].
  { apply c_ret; [done|]. split_and!; [done..|]. intros a [?|?%elem_of_nil]; done. }
  eapply (c_bind _ _ _ (λ er1, rs_actions er1 = rs_actions er ∧ rs_validationErrors er1 = rs_validationErrors er ∧
    (∀ a i, effects er1 !! a = Some i → action_post a i) ∧ ∀ a, (is_Some (effects er !! a) ∨ a = action) → is_Some (effects er1 !! a))).
  - eapply c_bind; [apply check_action_runs; [done|apply Hsub; left]|]. intros i k1 Hk1 Hi. apply c_ret; [done|]. split_and!; [done..| |].
    + intros a j. unfold setEffect. cbn [effects]. match goal with |- (if ?x then _ else _) !! _ = _ → _ => destruct x end; [apply Her|].
      intros [[<- <-]|[_ Hl]]%lookup_insert_Some; [done|by apply Her].
    + intros a Ha. unfold setEffect. cbn [effects]. destruct (effects er !! action) as [cur|] eqn:E.
      * match goal with |- is_Some ((if ?x then _ else _) !! _) => destruct x end.
        -- destruct Ha as [?| ->]; [done|by rewrite E].
        -- destruct (decide (action = a)) as [<-|Hne]; [rewrite lookup_insert_eq; eauto|]. rewrite lookup_insert_ne by done.
           destruct Ha as [?| ->]; done.
      * destruct (decide (action = a)) as [<-|Hne]; [rewrite lookup_insert_eq; eauto|]. rewrite lookup_insert_ne by done.
        destruct Ha as [?| ->]; done.
  - intros er1 k1 Hk1 (E1 & E2 & Hp & Hs). eapply c_mono; [apply IH; [done|intros a Hin; apply Hsub; by right|done]|].
    intros er2 (E3 & E4 & Hp2 & Hs2). split_and!; [congruence..|done|]. intros a Ha. apply Hs2.
    destruct Ha as [?|[->|?]%elem_of_cons]; auto.
Qed.
End run.

(** * The whole check *)

(** What [check] fixes before its loops; [pe] and [re] say whether principal and
    resource policies exist in the scopes. *)
Definition fixed_of (rt : RuleTable) (ep : EvalParams) (input : CheckInput) (pe re : bool) : Fixed :=
  let p := ci_Principal input in
  let r := ci_Resource input in
  let resourceScope := Scope (rs_Scope r) ep in
  let resourceVersion := PolicyVersion (rs_PolicyVersion r) ep in
  let ps := GetAllScopes rt KIND_PRINCIPAL (Scope (pr_Scope p) ep) (pr_Id p) (PolicyVersion (pr_PolicyVersion p) ep) (LenientScopeSearch ep) in
  let rs := GetAllScopes rt KIND_RESOURCE resourceScope (rs_Kind r) resourceVersion (LenientScopeSearch ep) in
  MkFixed input resourceVersion (NewResourceKind (rs_Kind r)) resourceScope ps.1.1 ps.1.2 rs.1.1 rs.1.2 pe re
    (list_to_set (AddParentRoles (rt_idx rt) [resourceScope] (pr_Roles p))).

(** The effect of an action is DENY, or an ALLOW for which there is a reason. *)
Definition justified (rt : RuleTable) (ep : EvalParams) (input : CheckInput) (action : string) (i : EffectInfo) : Prop :=
  ei_Effect i = EFFECT_DENY ∨
  ∃ pe re, allowed rt (bi (rt_idx rt)) ep (checkInputToRequest input) (fixed_of rt ep input pe re) action i.

(** A check changes the table's caches only. *)
Definition cached (rt rt' : RuleTable) : Prop :=
  ∃ i pool c, rt' = with_caches rt i pool c ∧ bi_rel (bi (rt_idx rt)) i ∧ (∀ bm, bm ∈ pool → cleared bm) ∧ programs_ok c.

Definition check_post (rt : RuleTable) (ep : EvalParams) (input : CheckInput) (r : (policyEvalResult + list string) * RuleTable) : Prop :=
  cached rt r.2 ∧
  match r.1 with
  | inr _ => True
  | inl er => rs_actions er = ci_Actions input ∧ ∀ a i, effects er !! a = Some i → justified rt ep input a i
  end.

Lemma table_ok_caches rt i pool c :
  table_ok rt → bi_rel (bi (rt_idx rt)) i → (∀ bm, bm ∈ pool → cleared bm) → programs_ok c → table_ok (with_caches rt i pool c).
Proof.
  intros [Hb Hp Hc Hm] Hi Hpool Hprog. split; [apply Hi|done|done|]. intros id b. cbn. rewrite (bi_rel_lv (bi (rt_idx rt))) by done. apply Hm.
Qed.

Lemma cached_ok rt rt' : table_ok rt → cached rt rt' → table_ok rt'.
Proof. intros Hrt (i & pool & c & -> & ? & ? & ?). by apply table_ok_caches. Qed.

Lemma cached_refl rt : table_ok rt → cached rt rt.
Proof.
  intros [Hb Hp Hc _]. exists (bi (rt_idx rt)), (rt_pool rt), (rt_programCache rt). split_and!; [|by apply bi_rel_refl|done..].
  by destruct rt as [? []].
Qed.

Lemma setEffect_all l er i :
  rs_actions (foldl (λ er a, setEffect er a i) er l) = rs_actions er ∧
  ∀ a j, effects (foldl (λ er a, setEffect er a i) er l) !! a = Some j → j = i ∨ effects er !! a = Some j.
Proof.
  revert er. induction l as [|x l IH]; intros er; [auto|]. cbn [foldl]. destruct (IH (setEffect er x i)) as [-> Hj]. split; [done|].
  intros a j Ha. apply Hj in Ha as [?|Ha]; [auto|]. unfold setEffect in Ha. cbn [effects] in Ha.
  match type of Ha with (if ?x then _ else _) !! _ = _ => destruct x end; [auto|].
  apply lookup_insert_Some in Ha as [[_ ?]|[_ ?]]; auto.
Qed.

Lemma check_runs rt ep input : table_ok rt → runs (check rt ep input) (check_post rt ep input).
Proof.
  intros Hrt. pose proof (cached_refl _ Hrt) as Hrefl. unfold check.
  set (ps := GetAllScopes rt KIND_PRINCIPAL _ _ _ _). set (rs := GetAllScopes rt KIND_RESOURCE _ _ _ _).
  assert (∀ pe re, fixed_of rt ep input pe re = MkFixed input (PolicyVersion (rs_PolicyVersion (ci_Resource input)) ep)
    (NewResourceKind (rs_Kind (ci_Resource input))) (Scope (rs_Scope (ci_Resource input)) ep) ps.1.1 ps.1.2 rs.1.1 rs.1.2 pe re
    (list_to_set (AddParentRoles (rt_idx rt) [Scope (rs_Scope (ci_Resource input)) ep] (pr_Roles (ci_Principal input))))) as Hfx by done.
  destruct ps as [[pscopes pkey] pfqn], rs as [[rscopes rkey] rfqn]. cbn [fst snd] in Hfx.
  assert (∀ er, rs_actions er = ci_Actions input → effects er = ∅ → check_post rt ep input (inl er, rt)) as Hempty.
  { intros er E1 E2. split; [done|]. split; [done|]. intros a i. by rewrite E2. }
  case_decide; [rret; by apply Hempty|].
  destruct (ValidateCheckInput _ _) as [[errs reject]|err]; [|by rret].
  set (result := match errs with [] => _ | _ => _ end).
  assert (rs_actions result = ci_Actions input ∧ effects result = ∅) as [Ra Re] by (by destruct errs).
  destruct (bool_decide (errs ≠ []) && reject).
  { rret. destruct (setEffect_all (ci_Actions input) result (MkEffectInfo rkey "" EFFECT_DENY)) as [Ea Ej].
    split; [done|]. cbn. split; [congruence|]. intros a i Hi. apply Ej in Hi as [->|Hi]; [by left|by rewrite Re in Hi]. }
  destruct (unresolvedActions result) as [|a0 acts] eqn:Eacts; [rret; by apply Hempty|].
  unfold ScopedPrincipalExists. eapply runs_bind; [apply (with_arena_runs (bi (rt_idx rt)) (to_bi _ Hrt)); [apply Hrt|]; intros s Hs; by apply principal_exists_runs|].
  intros [[pe i1] pool1] (_ & Hi1 & Hp1).
  unfold ScopedResourceExists. eapply runs_bind; [apply (with_arena_runs_rel (bi (rt_idx rt)) i1); [done|done|]; intros s Hs; by apply resource_exists_runs|].
  intros [[re i2] pool2] (_ & Hi2 & Hp2).
  destruct (negb pe && negb re).
  { rret. split; [exists i2, pool2, (rt_programCache rt); split_and!; [done..|apply Hrt]|]. split; [done|]. intros a i. cbn. by rewrite Re. }
  rewrite <-(Hfx pe re). set (k0 := MkChk _ _ _ _ _ _ _ _ _ _).
  destruct (actions_loop_runs rt (bi (rt_idx rt)) ep (checkInputToRequest input) (fixed_of rt ep input pe re) (to_bi _ Hrt) (to_meta _ Hrt)
    result (a0 :: acts) k0) as (r & k & Er & Hk & Hr).
  { split; [done|done|apply Hrt|done|done|done]. }
  { intros a. rewrite <-Eacts. unfold unresolvedActions. rewrite list_elem_of_filter, Ra. by intros [_ ?]. }
  { intros a i. by rewrite Re. }
  rewrite Er. bsimp.
  assert (cached rt (with_caches rt (k_idx k) (k_pool k) (k_ev k).1)) as Hrt' by (destruct Hk; by exists (k_idx k), (k_pool k), (k_ev k).1).
  destruct r as [er|e]; rret; (split; [done|]); [|done].
  destruct Hr as (Ea & _ & Hj & _). cbn. split; [congruence|]. intros a i Hi. destruct (Hj a i Hi) as [?|?]; [by left|right; eauto].
Qed.

(** The response has exactly the requested actions, each ALLOW or DENY. *)
Lemma response_runs rt ep input :
  table_ok rt →
  runs (checkWithAuditTrail rt ep input) (λ '(r, rt'), cached rt rt' ∧
    match r with
    | inr _ => True
    | inl (out, _) => (∀ a, a ∈ ci_Actions input ↔ is_Some (co_Actions out !! a)) ∧
        ∀ a i, co_Actions out !! a = Some i → justified rt ep input a i
    end).
Proof.
  intros Hrt. unfold checkWithAuditTrail. eapply runs_bind; [by apply check_runs|].
  intros [r rt'] [Hrt' Hr]. rret. split; [done|]. destruct r as [er|e]; [|done]. destruct Hr as [Ea Hj]. cbn [co_Actions].
  set (f := λ (m : gmap string EffectInfo) action, <[action := default (MkEffectInfo noPolicyMatch "" EFFECT_DENY) (effects er !! action)]> m).
  assert (∀ l m, (∀ a, is_Some (foldl f m l !! a) ↔ a ∈ l ∨ is_Some (m !! a)) ∧
    ((∀ a i, m !! a = Some i → justified rt ep input a i) → ∀ a i, foldl f m l !! a = Some i → justified rt ep input a i)) as Hfold.
  { induction l as [|x l IH]; intros m; cbn [foldl].
    - split; [|auto]. intros a. rewrite elem_of_nil. tauto.
    - destruct (IH (f m x)) as [Hd Hi]. split.
      + intros a. rewrite Hd, elem_of_cons. unfold f. destruct (decide (x = a)) as [<-|Hne].
        * rewrite lookup_insert_eq. split; eauto.
        * rewrite lookup_insert_ne by done. naive_solver.
      + intros Hm. apply Hi. unfold f. intros a i [[<- <-]|[_ Hl]]%lookup_insert_Some; [|by apply Hm].
        destruct (effects er !! x) as [j|] eqn:Ex; [by apply Hj|by left]. }
  destruct (Hfold (ci_Actions input) ∅) as [Hd Hi]. split.
  - intros a. rewrite Hd, lookup_empty. split; [auto|]. intros [?|[]]; done.
  - by apply Hi.
Qed.
End spec.
