(* ===== verification/Reference.v ===== *)
(** The loops of [check] without cache and state: the decision on one action as a
    function of the bindings a scan of the index gives and of the value of their
    conditions.

    [verdict] gives the value of the conditions of a binding, or [None] when they
    fail to evaluate.  [stable] says that it is what evaluating them gives for
    this request, whenever it is done; these loops then give what [check] returns
    ([check_action_judges]).  The second half says, as a predicate, when they allow an
    action; Outcome.v states their result without loops. *)
From S2P Require Import Prelude GoRuntime Bitmap Arena LazyDim Dimension GlobDim Namer Policy ScopePerms IndexCore IndexQuery IndexQuerySpec IndexLookup Index RuleTableBuild RuleTable Eval Check CheckSpec.

Local Open Scope string_scope.
Local Open Scope list_scope.
Open Scope nat_scope.

(** Setting an effect that is already there, or none. *)
Lemma setEffect_same er action i :
  (∀ j, effects er !! action = Some j → j = i) →
  setEffect er action i = MkResult (<[action := i]> (effects er)) (toResolve er ∖ {[action]}) (rs_actions er)
    (rs_effectiveDerivedRoles er) (rs_trail er) (rs_celErrors er) (rs_validationErrors er) (rs_outputs er).
Proof.
  intros Hj. unfold setEffect. destruct (effects er !! action) as [j|] eqn:E; [|done]. rewrite (Hj j eq_refl).
  by destruct (bool_decide (ei_Effect i = EFFECT_DENY)).
Qed.

Lemma setEffect_all_same l er i a :
  a ∈ l → (∀ b j, effects er !! b = Some j → j = i) → effects (foldl (λ er a, setEffect er a i) er l) !! a = Some i.
Proof.
  intros Ha He. assert (∀ l er, (∀ b j, effects er !! b = Some j → j = i) → a ∈ l ∨ effects er !! a = Some i →
    effects (foldl (λ er a, setEffect er a i) er l) !! a = Some i) as Hl; [|by apply Hl; [|left]].
  clear. induction l as [|x l IH]; intros er He Ha; cbn [foldl]; [by destruct Ha as [?%elem_of_nil|]|].
  rewrite setEffect_same by (intros j; apply He). apply IH; cbn [effects].
  - intros b j [[_ <-]|[_ Hb]]%lookup_insert_Some; [done|by apply (He b)].
  - destruct (decide (x = a)) as [->|Hne]; [right; by rewrite lookup_insert_eq|]. rewrite lookup_insert_ne by done.
    destruct Ha as [[?|?]%elem_of_cons|?]; auto. done.
Qed.

Section reference.
Context `{GlobEngine} `{CelRuntime} `{GoMapOrder} `{ContentHash} `{StringHash} `{DerivedRoleHash} `{SchemaManager}.
Context (rt : RuleTable) (idx : bitmapIndex) (ep : EvalParams) (fx : Fixed) (verdict : BindingHandle → option bool).

(** * The reference *)

Local Abbreviation consulted := (consulted rt idx fx).
Local Abbreviation all_roles := (pr_Roles (ci_Principal (fx_input fx))).

(** A binding applies, does not apply, or fails: in strict mode a failure denies
    the action, otherwise the binding is passed over. *)
Definition judge (b : BindingHandle) (scope : string) (hasAllow : bool) (info : EffectInfo) : Flow :=
  match verdict b with
  | Some true => apply_effect b scope hasAllow info
  | Some false => F_next hasAllow info
  | None => if StrictEvaluation ep then F_policies (MkEffectInfo (PolicyKeyFromFQN (HandleStr (bh_OriginFqn b))) scope EFFECT_DENY)
            else F_next hasAllow info
  end.

Fixpoint judge_bindings (scope : string) (bs : list BindingHandle) (hasAllow : bool) (info : EffectInfo) : Flow :=
  match bs with
  | [] => F_next hasAllow info
  | b :: bs =>
      match judge b scope hasAllow info with
      | F_next hasAllow info => judge_bindings scope bs hasAllow info
      | f => f
      end
  end.

Fixpoint judge_scopes (pt : Kind) (action role : string) (scopes : list string) (hasAllow : bool) (info : EffectInfo) : EffectInfo + EffectInfo :=
  match scopes with
  | [] => inl info
  | scope :: scopes =>
      match judge_bindings scope (consulted pt action role scope) hasAllow info with
      | F_policies a => inr a
      | F_scopes info => inl info
      | F_next hasAllow info =>
          match scope_allow (GetScopeScopePermissions rt scope) hasAllow with
          | (_, true) => inl (set_Effect info EFFECT_ALLOW scope)
          | (hasAllow, false) => judge_scopes pt action role scopes hasAllow info
          end
      end
  end.

(** The effect a role starts with. *)
Definition initial_info (pt : Kind) : EffectInfo :=
  let '(key, found) := if decide (pt = KIND_PRINCIPAL) then (fx_principalPolicyKey fx, fx_scopedPrincipalExists fx)
                       else (fx_resourcePolicyKey fx, fx_scopedResourceExists fx) in
  MkEffectInfo (if (found : bool) then key else noPolicyMatch) "" EFFECT_NO_MATCH.

Definition judge_role (pt : Kind) (action role : string) : EffectInfo + EffectInfo :=
  judge_scopes pt action role (scopes_of fx pt) false (initial_info pt).

Fixpoint judge_roles (pt : Kind) (action : string) (roles : list string) (actionInfo : EffectInfo) : EffectInfo + EffectInfo :=
  match roles with
  | [] => inl actionInfo
  | role :: roles =>
      match judge_role pt action role with
      | inr a => inr a
      | inl roleInfo =>
          let actionInfo := merge_role actionInfo roleInfo in
          if decide (ei_Effect roleInfo = EFFECT_ALLOW ∨ pt = KIND_PRINCIPAL) then inl actionInfo
          else judge_roles pt action roles actionInfo
      end
  end.

Fixpoint judge_policies (action : string) (pts : list Kind) (actionInfo : EffectInfo) : EffectInfo :=
  match pts with
  | [] => actionInfo
  | pt :: pts =>
      match judge_roles pt action all_roles (MkEffectInfo (ei_Policy actionInfo) (ei_Scope actionInfo) EFFECT_NO_MATCH) with
      | inr a => a
      | inl actionInfo =>
          if decide (ei_Effect actionInfo = EFFECT_ALLOW ∨ ei_Effect actionInfo = EFFECT_DENY) then actionInfo
          else judge_policies action pts actionInfo
      end
  end.

Definition judge_action (action : string) : EffectInfo :=
  let a := judge_policies action [KIND_PRINCIPAL; KIND_RESOURCE] (MkEffectInfo "" "" EFFECT_UNSPECIFIED) in
  if decide (ei_Effect a = EFFECT_NO_MATCH) then MkEffectInfo (ei_Policy a) (ei_Scope a) EFFECT_DENY else a.

(** * Stable conditions *)

Context (req : Request).
Local Abbreviation ctx_ok := (ctx_ok ep req).
Local Abbreviation queried := (queried rt idx fx).
Local Abbreviation vars_of := (vars_of rt idx ep req fx).

(** Evaluating the conditions of a binding can give [o]: the derived role
    condition first, then the condition, each in some context of this request
    and with variables computed in such a context. *)
Definition yields (b : BindingHandle) (o : option bool) : Prop :=
  match o with
  | Some v => conditions_are rt idx ep req fx b v
  | None => errored rt idx ep req fx b
  end.

(** The verdict on a binding does not depend on when its conditions are
    evaluated, and bindings that share an evaluation key share their verdict. *)
Record stable : Prop := {
  st_yields : ∀ b o, queried b → yields b o → verdict b = o;
  st_key : ∀ b b', queried b → queried b' → evalKey idx (bh_ID b) = evalKey idx (bh_ID b') → verdict b = verdict b';
}.

Context (Hst : stable) (Hbi : bi_ok idx) (Hmeta : ∀ id b, lv idx id = Some b → is_Some (GetMeta rt (HandleStr (bh_OriginFqn b)))).
Local Abbreviation k_inv := (k_inv rt idx ep req fx).
Local Abbreviation cruns := (cruns rt idx ep req fx).
Local Abbreviation binding_ok := (binding_ok rt idx fx).

Lemma outcome_verdict b v : queried b → outcome rt idx ep req fx b v → verdict b = Some v.
Proof using Hst. intros Hq (b' & Hq' & Hk & Hc). rewrite <-(st_key Hst b' b) by done. by apply (st_yields Hst). Qed.

Lemma errored_verdict b : queried b → errored rt idx ep req fx b → verdict b = None.
Proof using Hst. intros Hq He. by apply (st_yields Hst). Qed.

Lemma eval_binding_judges action scope b hasAllow info k :
  k_inv k → binding_ok b → cruns (eval_binding rt action scope b hasAllow info) k (λ f, f = judge b scope hasAllow info).
Proof using Hst.
  intros Hk Hb. pose proof Hb as (Hq & [key Hkey] & _). unfold eval_binding.
  eapply c_bind; [apply (c_look _ _ _ _ _ _ _ (λ i, bi_rel idx i)); [done|apply Hk]|]. intros i k1 Hk1 Hi.
  assert (evalKey i (bh_ID b) = Some key) as -> by (by rewrite (evalKey_rel idx)).
  eapply c_bind; [apply (c_panic _ _ _ _ _ _ _ (λ x, x = key)); [done|by rret]|]. intros ? k2 Hk2 ->.
  eapply (c_bind _ _ _ _ _ _ _ _ (λ _, True)).
  { destruct (GetMeta rt _); [|by apply c_ret]. apply c_modify; [destruct Hk2; by split|done]. }
  intros _ k3 Hk3 _. eapply c_bind; [apply (params_vars_runs _ _ _ _ _ b); auto|]. intros [consts vars] k4 Hk4 Hvars.
  eapply c_bind; [by apply binding_condition_runs|]. intros c k5 Hk5 Hc. unfold judge.
  destruct c as [[|]| |]; cbn [cond_post] in Hc.
  - eapply c_bind; [by apply emit_runs|]. intros _ k6 Hk6 _. apply c_ret; [done|]. by rewrite (outcome_verdict b true).
  - eapply c_bind; [by apply emit_runs|]. intros _ k6 Hk6 _. apply c_ret; [done|]. by rewrite (outcome_verdict b false).
  - apply c_ret; [done|]. destruct Hc as [Hc|[Hc Hns]]; [by rewrite (outcome_verdict b false)|].
    rewrite (errored_verdict b) by done. unfold strict in Hns. by destruct (StrictEvaluation ep).
  - apply c_ret; [done|]. destruct Hc as [Hc Hs]. rewrite (errored_verdict b) by done. unfold strict in Hs. by rewrite Hs.
Qed.

Lemma bindings_loop_judges action scope bs hasAllow info k :
  k_inv k → (∀ b, b ∈ bs → binding_ok b) →
  cruns (bindings_loop rt action scope bs hasAllow info) k (λ f, f = judge_bindings scope bs hasAllow info).
Proof using Hst.
  intros Hk Hbs. revert hasAllow info k Hk. induction bs as [|b bs IH]; intros hasAllow info k Hk; cbn [bindings_loop judge_bindings]; [by apply c_ret|].
  eapply c_bind; [apply eval_binding_judges; [done|apply Hbs; left]|]. intros f k1 Hk1 ->.
  destruct (judge b scope hasAllow info); [|by apply c_ret..]. apply IH; [|done]. intros x Hx. apply Hbs. by right.
Qed.

Lemma apply_effect_next b scope h info h' info' : apply_effect b scope h info = F_next h' info' → ei_Effect info' = ei_Effect info.
Proof. unfold apply_effect. repeat case_match; intros [=]; by subst. Qed.

(** Going on to the next binding never changes the effect. *)
Lemma judge_bindings_next scope bs h info h' info' :
  judge_bindings scope bs h info = F_next h' info' → ei_Effect info' = ei_Effect info.
Proof.
  revert h info. induction bs as [|b bs IH]; intros h info; cbn [judge_bindings]; [by intros [= _ <-]|].
  destruct (judge b scope h info) as [h1 i1| |] eqn:E; [|done..]. intros ->%IH. unfold judge in E.
  destruct (verdict b) as [[]|]; [by apply apply_effect_next in E|by injection E as _ <-|].
  destruct (StrictEvaluation ep); [done|]. by injection E as _ <-.
Qed.

Lemma scopes_loop_judges pt action role scopes hasAllow info k :
  k_inv k → (∀ s, s ∈ scopes → asked fx pt action role s) → ei_Effect info = EFFECT_NO_MATCH →
  cruns (scopes_loop rt fx pt action (with_parents rt fx role) scopes hasAllow info) k (λ r, r = judge_scopes pt action role scopes hasAllow info).
Proof using Hst Hbi Hmeta.
  revert hasAllow info k. induction scopes as [|scope scopes IH]; intros hasAllow info k Hk Hask Hinfo; cbn [scopes_loop judge_scopes]; [by apply c_ret|].
  eapply (c_bind _ _ _ _ _ _ _ _ (λ _, True)).
  { case_decide; [by apply scope_derived_roles_runs|by apply c_ret]. }
  intros _ k1 Hk1 _. rewrite decide_False by (by intros ?).
  eapply c_bind; [by apply query_runs|]. intros bs k2 Hk2 ->.
  eapply c_bind; [apply bindings_loop_judges; [done|]; intros b Hb; eapply consulted_ok; [done|done|apply Hask; left|done]|].
  intros f k3 Hk3 ->. destruct (judge_bindings scope _ hasAllow info) as [h i|i|a] eqn:E; [|by apply c_ret..].
  destruct (scope_allow (GetScopeScopePermissions rt scope) h) as [h' [|]]; [by apply c_ret|].
  apply IH; [done|intros s Hs; apply Hask; by right|]. by rewrite (judge_bindings_next _ _ _ _ _ _ E).
Qed.

Lemma roles_loop_judges pt action roles actionInfo k :
  k_inv k → (pt = KIND_PRINCIPAL ∨ pt = KIND_RESOURCE) → action ∈ ci_Actions (fx_input fx) → (∀ role, role ∈ roles → role ∈ all_roles) →
  cruns (roles_loop rt fx pt action roles actionInfo) k (λ r, r = judge_roles pt action roles actionInfo).
Proof using Hst Hbi Hmeta.
  revert actionInfo k. induction roles as [|role roles IH]; intros actionInfo k Hk Hpt Hact Hsub; cbn [roles_loop judge_roles]; [by apply c_ret|].
  assert (role ∈ all_roles) as Hrole by (apply Hsub; left).
  assert (∃ key fnd, (if decide (pt = KIND_PRINCIPAL) then (fx_principalScopes fx, fx_principalPolicyKey fx, fx_scopedPrincipalExists fx)
    else (fx_resourceScopes fx, fx_resourcePolicyKey fx, fx_scopedResourceExists fx)) = (scopes_of fx pt, key, fnd) ∧
    initial_info pt = MkEffectInfo (if (fnd : bool) then key else noPolicyMatch) "" EFFECT_NO_MATCH) as (key & fnd & -> & Ei).
  { unfold scopes_of, initial_info. case_decide; eauto. }
  unfold judge_role. rewrite Ei. eapply c_bind; [apply (scopes_loop_judges pt action role); [done|done|done]|].
  intros r k1 Hk1 ->. destruct (judge_scopes _ _ _ _ _ _) as [i|a]; [|by apply c_ret].
  case_decide; [by apply c_ret|]. apply IH; [done|done|done|]. intros r Hr. apply Hsub. by right.
Qed.

Lemma policies_loop_judges action pts actionInfo k :
  k_inv k → (∀ pt, pt ∈ pts → pt = KIND_PRINCIPAL ∨ pt = KIND_RESOURCE) → action ∈ ci_Actions (fx_input fx) →
  cruns (policies_loop rt fx action pts actionInfo) k (λ r, r = judge_policies action pts actionInfo).
Proof using Hst Hbi Hmeta.
  intros Hk Hpts Hact. revert actionInfo k Hk. induction pts as [|pt pts IH]; intros actionInfo k Hk; cbn [policies_loop judge_policies]; [by apply c_ret|].
  eapply c_bind; [apply roles_loop_judges; [done|apply Hpts; left|done|done]|]. intros r k1 Hk1 ->. destruct (judge_roles _ _ _ _) as [i|a]; [|by apply c_ret].
  case_decide; [by apply c_ret|]. apply IH; [|done]. intros x Hx. apply Hpts. by right.
Qed.

Lemma check_action_judges action k :
  k_inv k → action ∈ ci_Actions (fx_input fx) → cruns (check_action rt fx action) k (λ i, i = judge_action action).
Proof using Hst Hbi Hmeta.
  intros Hk Hact. unfold check_action, judge_action. eapply c_bind; [apply policies_loop_judges; [done|set_solver|done]|].
  intros i k1 Hk1 ->. by apply c_ret.
Qed.

(** Every action of the list gets the effect of the reference. *)
Lemma actions_loop_judges er actions k :
  k_inv k → (∀ a, a ∈ actions → a ∈ ci_Actions (fx_input fx)) →
  (∀ a i, effects er !! a = Some i → i = judge_action a) →
  cruns (actions_loop rt fx er actions) k (λ er', ∀ a,
    (a ∈ actions → effects er' !! a = Some (judge_action a)) ∧ (∀ i, effects er' !! a = Some i → i = judge_action a)).
Proof using Hst Hbi Hmeta.
  intros Hk Hsub Her. unfold actions_loop.
  eapply (c_mono _ _ _ _ _ _ _ (λ er', (∀ a i, effects er' !! a = Some i → i = judge_action a) ∧
    ∀ a, a ∈ actions ∨ is_Some (effects er !! a) → is_Some (effects er' !! a))).
  2:{ intros er' [Hj Hs] a. split; [|apply Hj]. intros Ha. destruct (Hs a) as [i Hi]; [by left|]. rewrite Hi. f_equal. by apply Hj. }
  revert er k Hk Her. induction actions as [|action actions IH]; intros er k Hk Her; cbn [foldCM].
  { apply c_ret; [done|]. split; [done|]. intros a [?%elem_of_nil|?]; done. }
  eapply c_bind; [eapply c_bind; [apply check_action_judges; [done|apply Hsub; left]|]|].
  { intros i k1 Hk1 ->. apply (c_ret _ _ _ _ _ _ _ (λ er1, er1 = setEffect er action (judge_action action))); done. }
  intros er1 k1 Hk1 ->. rewrite setEffect_same by (intros j Hj; by rewrite (Her _ _ Hj)).
  eapply c_mono; [apply IH; [intros a Ha; apply Hsub; by right|done|]|].
  - cbn [effects]. intros a i [[<- <-]|[_ Hl]]%lookup_insert_Some; [done|by apply Her].
  - cbn [effects]. intros er2 [Hj Hs]. split; [done|]. intros a Ha. apply Hs. destruct (decide (a = action)) as [->|Hne].
    + right. rewrite lookup_insert_eq. eauto.
    + rewrite lookup_insert_ne by done. destruct Ha as [[->|Ha]%elem_of_cons|Ha]; auto. done.
Qed.
End reference.

(** * The whole check *)

Section whole.
Context `{GlobEngine} `{CelRuntime} `{GoMapOrder} `{ContentHash} `{StringHash} `{DerivedRoleHash} `{SchemaManager}.
Context (rt : RuleTable) (ep : EvalParams) (input : CheckInput) (verdict : BindingHandle → option bool).
Local Abbreviation idx := (bi (rt_idx rt)).

Definition some_binding (f : BindingHandle → bool) : bool := bool_decide (scan idx f ≠ []).

(** What is fixed for the request, with the existence tests as scans. *)
Definition fixed : Fixed :=
  let fx := fixed_of rt ep input true true in
  let pver := PolicyVersion (pr_PolicyVersion (ci_Principal input)) ep in
  fixed_of rt ep input
    (some_binding (λ b, bool_decide (bh_Version b = Some pver) && in_scopes (fx_principalScopes fx) b && kind_matches KIND_PRINCIPAL b))
    (some_binding (λ b, bool_decide (bh_Version b = Some (fx_resourceVersion fx)) && in_scopes (fx_resourceScopes fx) b &&
       res_matches (fx_resourceKind fx) KIND_RESOURCE b && kind_matches KIND_RESOURCE b)).

(** Without any policy in the scopes of the request every action is denied. *)
Definition has_policy : bool :=
  (bool_decide (fx_principalScopes fixed ≠ []) || bool_decide (fx_resourceScopes fixed ≠ [])) &&
  (fx_scopedPrincipalExists fixed || fx_scopedResourceExists fixed).

(** The validation of the request rejects it: it reports errors and asks for the
    rejection. *)
Definition rejects : bool :=
  let r := ci_Resource input in
  let fqn := (GetAllScopes rt KIND_RESOURCE (Scope (rs_Scope r) ep) (rs_Kind r) (PolicyVersion (rs_PolicyVersion r) ep) (LenientScopeSearch ep)).2 in
  match ValidateCheckInput (GetSchema rt fqn) input with
  | inl (errs, reject) => bool_decide (errs ≠ []) && reject
  | inr _ => false
  end.

(** What is answered for an action, [decide_action] being the decision on it by
    the policies.  With no policy in the scopes the request is not even validated;
    a rejection denies every action in the name of the resource policy. *)
Definition answer (decide_action : string → EffectInfo) (action : string) : EffectInfo :=
  if bool_decide (fx_principalScopes fixed = [] ∧ fx_resourceScopes fixed = []) then MkEffectInfo noPolicyMatch "" EFFECT_DENY
  else if rejects then MkEffectInfo (fx_resourcePolicyKey fixed) "" EFFECT_DENY
  else if fx_scopedPrincipalExists fixed || fx_scopedResourceExists fixed then decide_action action
  else MkEffectInfo noPolicyMatch "" EFFECT_DENY.

Definition reference : string → EffectInfo := answer (judge_action rt idx ep fixed verdict).

Lemma answer_allow f action :
  ei_Effect (answer f action) = EFFECT_ALLOW ↔ rejects = false ∧ has_policy = true ∧ ei_Effect (f action) = EFFECT_ALLOW.
Proof.
  unfold answer, has_policy. destruct (fx_principalScopes fixed) as [|s l], (fx_resourceScopes fixed) as [|s' l'];
    [rewrite (bool_decide_true (_ ∧ _)), !(bool_decide_false (_ ≠ _)) by (done || by intros []); naive_solver|..];
    (rewrite (bool_decide_false (_ ∧ _)) by (by intros []));
    destruct rejects, (fx_scopedPrincipalExists fixed || fx_scopedResourceExists fixed); cbn; naive_solver.
Qed.

(** The bindings the check of the request can consult. *)
Definition all_consulted : list BindingHandle :=
  pt ← [KIND_PRINCIPAL; KIND_RESOURCE]; action ← ci_Actions input; role ← pr_Roles (ci_Principal input); scope ← scopes_of fixed pt;
  consulted rt idx fixed pt action role scope.

Lemma queried_consulted b : queried rt idx fixed b → b ∈ all_consulted.
Proof.
  intros (pt & action & role & scope & (Hpt & Ha & Hr & Hs) & Hb). unfold all_consulted.
  apply list_elem_of_bind. exists pt. split; [|destruct Hpt as [->| ->]; [left|right; left]].
  apply list_elem_of_bind. exists action. split; [|done]. apply list_elem_of_bind. exists role. split; [|done].
  apply list_elem_of_bind. by exists scope.
Qed.

Definition stable_request : Prop := stable rt idx ep fixed verdict (checkInputToRequest input).

Lemma some_binding_iff r f : (r = true ↔ ∃ b, b ∈ scan idx f) → r = some_binding f.
Proof.
  intros Hr. unfold some_binding. destruct (scan idx f) as [|b l].
  - rewrite bool_decide_false by (by intros ?). destruct r; [|done]. by destruct (proj1 Hr) as [b ?%elem_of_nil].
  - rewrite bool_decide_true by done. apply Hr. exists b. left.
Qed.

Lemma stable_fixed pe re : stable_request → stable rt idx ep (fixed_of rt ep input pe re) verdict (checkInputToRequest input).
Proof. intros [Hy Hk]. split; [exact Hy|exact Hk]. Qed.

Lemma check_judges :
  table_ok rt → stable_request →
  runs (check rt ep input) (λ '(r, _), match r with
    | inr _ => True
    | inl er => ∀ a, a ∈ ci_Actions input → default (MkEffectInfo noPolicyMatch "" EFFECT_DENY) (effects er !! a) = reference a
    end).
Proof.
  intros Hrt Hst. unfold check, reference, answer, rejects.
  set (ps := GetAllScopes rt KIND_PRINCIPAL _ _ _ _). set (rs := GetAllScopes rt KIND_RESOURCE _ _ _ _).
  assert (∀ pe re, fixed_of rt ep input pe re = MkFixed input (PolicyVersion (rs_PolicyVersion (ci_Resource input)) ep)
    (NewResourceKind (rs_Kind (ci_Resource input))) (Scope (rs_Scope (ci_Resource input)) ep) ps.1.1 ps.1.2 rs.1.1 rs.1.2 pe re
    (list_to_set (AddParentRoles (rt_idx rt) [Scope (rs_Scope (ci_Resource input)) ep] (pr_Roles (ci_Principal input))))) as Hfx by done.
  assert (fixed = fixed_of rt ep input
    (some_binding (λ b, bool_decide (bh_Version b = Some (PolicyVersion (pr_PolicyVersion (ci_Principal input)) ep)) && in_scopes ps.1.1 b &&
       kind_matches KIND_PRINCIPAL b))
    (some_binding (λ b, bool_decide (bh_Version b = Some (PolicyVersion (rs_PolicyVersion (ci_Resource input)) ep)) && in_scopes rs.1.1 b &&
       res_matches (NewResourceKind (rs_Kind (ci_Resource input))) KIND_RESOURCE b && kind_matches KIND_RESOURCE b))) as Hfixed by done.
  clearbody ps rs. rewrite Hfixed, Hfx.
  destruct ps as [[pscopes pkey] pfqn], rs as [[rscopes rkey] rfqn]. cbn [fst snd] in *.
  cbn [fx_principalScopes fx_resourceScopes fx_scopedPrincipalExists fx_scopedResourceExists fx_resourcePolicyKey].
  destruct (decide (pscopes = [] ∧ rscopes = [])) as [Hno|Hno].
  { rret. intros a _. cbn [effects newEvalResult]. by rewrite lookup_empty, (bool_decide_true (_ ∧ _)). }
  rewrite (bool_decide_false (pscopes = [] ∧ _)) by done.
  destruct (ValidateCheckInput _ _) as [[errs reject]|err]; [|by rret].
  set (result := match errs with [] => _ | _ => _ end).
  assert (rs_actions result = ci_Actions input ∧ effects result = ∅ ∧ toResolve result = list_to_set (ci_Actions input)) as (Ra & Re & Rr) by (by destruct errs).
  destruct (bool_decide (errs ≠ []) && reject).
  { rret. intros a Ha. rewrite (setEffect_all_same (ci_Actions input)); [done|done|]. intros b j. by rewrite Re, lookup_empty. }
  destruct (unresolvedActions result) as [|a0 acts] eqn:Eacts.
  { rret. intros a Ha. exfalso. apply (elem_of_nil a). rewrite <-Eacts. unfold unresolvedActions.
    rewrite list_elem_of_filter, Ra, Rr, elem_of_list_to_set. done. }
  unfold ScopedPrincipalExists. eapply runs_bind; [apply (with_arena_runs idx (to_bi _ Hrt)); [apply Hrt|]; intros s Hs; by apply principal_exists_runs|].
  intros [[pe i1] pool1] (Hpe & Hi1 & Hp1).
  unfold ScopedResourceExists. eapply runs_bind; [apply (with_arena_runs_rel idx i1); [done|done|]; intros s Hs; by apply resource_exists_runs|].
  intros [[re i2] pool2] (Hre & Hi2 & Hp2).
  apply some_binding_iff in Hpe, Hre. rewrite <-Hpe, <-Hre.
  destruct (negb pe && negb re) eqn:Ex.
  { rret. intros a _. rewrite Re, lookup_empty. by destruct pe, re. }
  assert (pe || re = true) as -> by (by destruct pe, re).
  rewrite <-(Hfx pe re). set (k0 := MkChk _ _ _ _ _ _ _ _ _ _).
  destruct (actions_loop_judges rt idx ep (fixed_of rt ep input pe re) verdict (checkInputToRequest input) (stable_fixed pe re Hst)
    (to_bi _ Hrt) (to_meta _ Hrt) result (a0 :: acts) k0) as (r & k & Er & Hk & Hr).
  { split; [done|done|apply Hrt|done|done|done]. }
  { intros a. rewrite <-Eacts. unfold unresolvedActions. rewrite list_elem_of_filter, Ra. by intros [_ ?]. }
  { intros a i. by rewrite Re, lookup_empty. }
  rewrite Er. bsimp. destruct r as [er|e]; rret; [|done]. intros a Ha. cbn [with_chk effects].
  destruct (Hr a) as [Hj _]. rewrite Hj.
  - by rewrite Hfx.
  - rewrite <-Eacts. unfold unresolvedActions. rewrite list_elem_of_filter, Ra, Rr, elem_of_list_to_set. done.
Qed.
End whole.

(** * When an action is allowed

    When an action is allowed, as a predicate: the nested loops of the reference
    ([judge_action]) amount to a condition on scopes, roles and policy kinds. A
    role is permitted when there are a granting scope, with an ALLOW binding that
    applies, and a deciding scope at or above it that overrides its parents, such
    that no DENY binding applies in any scope up to the deciding one and no scope
    between the two leaves ALLOWs to its parents. *)

(** * The predicate *)

(** [app e s] tells that a rule with effect [e] applies in scope [s]; [seen] that
    a scope below these has granted already. *)
Definition permits_on (perms : string → ScopePermissions) (app : Effect → string → Prop) (seen : bool) (scopes : list string) : Prop :=
  ∃ d decider, scopes !! d = Some decider ∧ perms decider = SCOPE_PERMISSIONS_OVERRIDE_PARENT ∧
    (∀ k s, k ≤ d → scopes !! k = Some s → ¬ app EFFECT_DENY s) ∧
    ∃ g, ((seen = true ∧ g = 0) ∨ ∃ s, scopes !! g = Some s ∧ app EFFECT_ALLOW s) ∧ g ≤ d ∧
      ∀ k s, g ≤ k ≤ d → scopes !! k = Some s → perms s ≠ SCOPE_PERMISSIONS_REQUIRE_PARENTAL_CONSENT_FOR_ALLOWS.

Lemma permits_on_ext perms app app' seen scopes :
  (∀ e s, e = EFFECT_ALLOW ∨ e = EFFECT_DENY → s ∈ scopes → app e s ↔ app' e s) →
  permits_on perms app seen scopes → permits_on perms app' seen scopes.
Proof.
  intros He (d & decider & Hl & Hp & Hnd & g & Hg & Hgd & Hc). exists d, decider. split_and!; [done|done| |].
  - intros k s Hk Hs Hd. apply (Hnd k s Hk Hs). apply He; [auto|by eapply list_elem_of_lookup_2|done].
  - exists g. split_and!; [|done|done]. destruct Hg as [?|(s & Hs & Ha)]; [by left|right]. exists s. split; [done|].
    apply He; [auto|by eapply list_elem_of_lookup_2|done].
Qed.

(** The action is permitted to the principal: by the principal policies, which
    are consulted for the first role only, or by the resource policies for one of
    the roles, when no principal policy denies it. *)
Definition permitted_on `{GlobEngine} `{CelCompiler} (rt : RuleTable) (fx : Fixed) (app : Effect → Kind → string → string → Prop) : Prop :=
  let roles := pr_Roles (ci_Principal (fx_input fx)) in
  let permits pt role := permits_on (GetScopeScopePermissions rt) (λ e s, app e pt role s) false (scopes_of fx pt) in
  (∃ role, head roles = Some role ∧ permits KIND_PRINCIPAL role) ∨
  (∀ role s, head roles = Some role → s ∈ scopes_of fx KIND_PRINCIPAL → ¬ app EFFECT_DENY KIND_PRINCIPAL role s) ∧
  ∃ role, role ∈ roles ∧ permits KIND_RESOURCE role.

Lemma permitted_on_mono `{GlobEngine} `{CelCompiler} rt fx app app' :
  (∀ e pt role s, e = EFFECT_ALLOW ∨ e = EFFECT_DENY → pt = KIND_PRINCIPAL ∨ pt = KIND_RESOURCE →
     role ∈ pr_Roles (ci_Principal (fx_input fx)) → s ∈ scopes_of fx pt → app e pt role s ↔ app' e pt role s) →
  permitted_on rt fx app → permitted_on rt fx app'.
Proof.
  intros He. assert (∀ role, head (pr_Roles (ci_Principal (fx_input fx))) = Some role → role ∈ pr_Roles (ci_Principal (fx_input fx))) as Hh.
  { intros role. destruct (pr_Roles _); [done|]. intros [= ->]. left. }
  intros [(role & Hr & Hp)|[Hn (role & Hr & Hp)]]; [left|right].
  - exists role. split; [done|]. eapply permits_on_ext; [|exact Hp]. intros e s Hee Hs. apply He; auto.
  - split.
    + intros r s Er Hs Hd. apply (Hn r s Er Hs). apply He; auto.
    + exists role. split; [done|]. eapply permits_on_ext; [|exact Hp]. intros e s Hee Hs. apply He; auto.
Qed.

Lemma permitted_on_ext `{GlobEngine} `{CelCompiler} rt fx app app' :
  (∀ e pt role s, e = EFFECT_ALLOW ∨ e = EFFECT_DENY → pt = KIND_PRINCIPAL ∨ pt = KIND_RESOURCE →
     role ∈ pr_Roles (ci_Principal (fx_input fx)) → s ∈ scopes_of fx pt → app e pt role s ↔ app' e pt role s) →
  permitted_on rt fx app ↔ permitted_on rt fx app'.
Proof. intros He. split; apply permitted_on_mono; [done|]. intros. symmetry. by apply He. Qed.

Section permits.
Context `{GlobEngine} `{CelRuntime} `{GoMapOrder} `{ContentHash} `{StringHash} `{DerivedRoleHash} `{SchemaManager}.
Context (rt : RuleTable) (idx : bitmapIndex) (ep : EvalParams) (fx : Fixed) (verdict : BindingHandle → option bool).
Local Abbreviation consulted := (consulted rt idx fx).
Local Abbreviation perms := (GetScopeScopePermissions rt).
Local Abbreviation all_roles := (pr_Roles (ci_Principal (fx_input fx))).
Local Abbreviation judge_bindings := (judge_bindings ep verdict).
Local Abbreviation judge_scopes := (judge_scopes rt idx ep fx verdict).
Local Abbreviation judge_roles := (judge_roles rt idx ep fx verdict).

(** A binding with the effect applies in the scope. *)
Definition applies (e : Effect) (pt : Kind) (action role scope : string) : Prop :=
  ∃ b, b ∈ consulted pt action role scope ∧ co_Effect (bh_Core b) = e ∧ verdict b = Some true.

Definition permits_from (seen : bool) (pt : Kind) (action role : string) (scopes : list string) : Prop :=
  permits_on perms (λ e s, applies e pt action role s) seen scopes.
Definition permits : Kind → string → string → list string → Prop := permits_from false.
Definition permitted (action : string) : Prop := permitted_on rt fx (λ e pt role s, applies e pt action role s).

(** * The loops decide it *)

(** In strict mode no conditions fail. *)
Context (Hok : ∀ pt action role scope b, asked fx pt action role scope → b ∈ consulted pt action role scope →
  StrictEvaluation ep = true → verdict b ≠ None).

Definition found (e : Effect) (bs : list BindingHandle) : Prop := ∃ b, b ∈ bs ∧ co_Effect (bh_Core b) = e ∧ verdict b = Some true.

Lemma found_cons e b bs : found e (b :: bs) ↔ (co_Effect (bh_Core b) = e ∧ verdict b = Some true) ∨ found e bs.
Proof. unfold found. setoid_rewrite elem_of_cons. naive_solver. Qed.

Lemma judge_bindings_found scope bs h info :
  (∀ b, b ∈ bs → StrictEvaluation ep = true → verdict b ≠ None) →
  match judge_bindings scope bs h info with
  | F_policies _ => False
  | F_scopes i => ei_Effect i = EFFECT_DENY ∧ found EFFECT_DENY bs
  | F_next h' i => ei_Effect i = ei_Effect info ∧ ¬ found EFFECT_DENY bs ∧ (h' = true ↔ h = true ∨ found EFFECT_ALLOW bs)
  end.
Proof.
  revert h info. induction bs as [|b bs IH]; intros h info Hb; cbn [Reference.judge_bindings].
  { split; [done|]. split; [by intros (b & ?%elem_of_nil & _)|]. split; [by left|]. intros [?|(b & ?%elem_of_nil & _)]; done. }
  assert (∀ h' i', ei_Effect i' = ei_Effect info → ¬ (co_Effect (bh_Core b) = EFFECT_DENY ∧ verdict b = Some true) →
    (h' = true ↔ h = true ∨ co_Effect (bh_Core b) = EFFECT_ALLOW ∧ verdict b = Some true) →
    match judge_bindings scope bs h' i' with
    | F_policies _ => False
    | F_scopes i => ei_Effect i = EFFECT_DENY ∧ found EFFECT_DENY (b :: bs)
    | F_next h' i => ei_Effect i = ei_Effect info ∧ ¬ found EFFECT_DENY (b :: bs) ∧ (h' = true ↔ h = true ∨ found EFFECT_ALLOW (b :: bs))
    end) as Hgo.
  { intros h' i' Ei Hd Hh. specialize (IH h' i' ltac:(intros x Hx; apply Hb; by right)).
    destruct (judge_bindings scope bs h' i'); rewrite ?found_cons; [|tauto|done].
    destruct IH as (? & ? & Hi). split; [congruence|]. split; [tauto|]. rewrite Hi, Hh. tauto. }
  unfold judge. destruct (verdict b) as [[|]|] eqn:Ev.
  - unfold apply_effect. destruct (decide (co_Effect (bh_Core b) = EFFECT_DENY)) as [Ed|Ed].
    + split; [done|]. rewrite found_cons. by left.
    + destruct (bh_NoMatchForScopePermissions b); apply Hgo; try done; try (by intros [? _]); case_decide; naive_solver.
  - apply Hgo; [done|by intros [_ ?]|naive_solver].
  - destruct (StrictEvaluation ep) eqn:Es; [by destruct (Hb b); [left|..]|]. apply Hgo; [done|by intros [_ ?]|naive_solver].
Qed.

Lemma permits_nil seen pt action role : ¬ permits_from seen pt action role [].
Proof. by intros (d & ? & ? & _). Qed.

(** The predicate, one scope at a time. *)
Lemma permits_cons seen pt action role s scopes :
  ¬ applies EFFECT_DENY pt action role s → ∀ h : bool, (h = true ↔ seen = true ∨ applies EFFECT_ALLOW pt action role s) →
  permits_from seen pt action role (s :: scopes) ↔
    (h = true ∧ perms s = SCOPE_PERMISSIONS_OVERRIDE_PARENT) ∨
    permits_from (bool_decide (h = true ∧ perms s ≠ SCOPE_PERMISSIONS_REQUIRE_PARENTAL_CONSENT_FOR_ALLOWS)) pt action role scopes.
Proof.
  intros Hd h Hh. split.
  - intros ([|d] & decider & Hl & Hp & Hnd & g & Hg & Hgd & Hc).
    + left. injection Hl as ->. split; [|done]. apply Hh. assert (g = 0) as -> by lia.
      destruct Hg as [[? _]|(t & [= ->] & ?)]; auto.
    + right. exists d, decider. split_and!; [done..| |].
      { intros k t Hk Ht. apply (Hnd (S k)); [lia|done]. }
      destruct g as [|g].
      * exists 0. split_and!; [|lia|].
        -- left. split; [|done]. apply bool_decide_eq_true. split; [|apply (Hc 0); [lia|done]].
           apply Hh. destruct Hg as [[? _]|(t & [= ->] & ?)]; auto.
        -- intros k t Hk Ht. apply (Hc (S k)); [lia|done].
      * exists g. split_and!; [|lia|intros k t Hk Ht; apply (Hc (S k)); [lia|done]].
        right. destruct Hg as [[_ ?]|(t & Ht & ?)]; [done|]. by exists t.
  - intros [[Hht Hp]|(d & decider & Hl & Hp & Hnd & g & Hg & Hgd & Hc)].
    + exists 0, s. split_and!; [done|done| |].
      { intros k t Hk. assert (k = 0) as -> by lia. by intros [= <-]. }
      exists 0. split_and!; [|lia|].
      * apply Hh in Hht as [?|?]; [by left|right; by exists s].
      * intros k t Hk. assert (k = 0) as -> by lia. intros [= <-]. by rewrite Hp.
    + exists (S d), decider. split_and!; [done|done| |].
      { intros [|k] t Hk Ht; [by injection Ht as <-|]. apply (Hnd k); [lia|done]. }
      destruct Hg as [[[Hht Hpc]%bool_decide_eq_true ->]|(t & Ht & Ha)].
      * exists 0. split_and!; [|lia|].
        -- apply Hh in Hht as [?|?]; [by left|right; by exists s].
        -- intros [|k] t Hk Ht; [by injection Ht as <-|]. apply (Hc k); [lia|done].
      * exists (S g). split_and!; [right; by exists t|lia|]. intros [|k] t' Hk Ht'; [lia|]. apply (Hc k); [lia|done].
Qed.

(** What a role comes to. *)
Definition role_decided (pt : Kind) (action role : string) (scopes : list string) (seen : bool) (r : EffectInfo + EffectInfo) : Prop :=
  ∃ i, r = inl i ∧
    ((ei_Effect i = EFFECT_ALLOW ∧ permits_from seen pt action role scopes) ∨
     (¬ permits_from seen pt action role scopes ∧
       (ei_Effect i = EFFECT_DENY ∧ (∃ s, s ∈ scopes ∧ applies EFFECT_DENY pt action role s) ∨
        ei_Effect i = EFFECT_NO_MATCH ∧ ∀ s, s ∈ scopes → ¬ applies EFFECT_DENY pt action role s))).

Lemma judge_scopes_decides pt action role scopes seen info :
  (∀ s, s ∈ scopes → asked fx pt action role s) → ei_Effect info = EFFECT_NO_MATCH →
  role_decided pt action role scopes seen (judge_scopes pt action role scopes seen info).
Proof using Hok.
  revert seen info. induction scopes as [|s scopes IH]; intros seen info Hask Hinfo; cbn [Reference.judge_scopes].
  { exists info. split; [done|]. right. split; [apply permits_nil|]. right. split; [done|]. by intros s ?%elem_of_nil. }
  pose proof (judge_bindings_found s (consulted pt action role s) seen info) as Hb.
  specialize (Hb ltac:(intros b Hin; eapply Hok; [apply Hask; left|done])).
  destruct (judge_bindings s _ seen info) as [h i|i|a]; [| |done].
  - destruct Hb as (Ei & Hnd & Hh).
    pose proof (permits_cons seen pt action role s scopes Hnd h Hh) as Hc.
    assert (∀ h', h' = bool_decide (h = true ∧ perms s ≠ SCOPE_PERMISSIONS_REQUIRE_PARENTAL_CONSENT_FOR_ALLOWS) →
      ¬ (h = true ∧ perms s = SCOPE_PERMISSIONS_OVERRIDE_PARENT) →
      role_decided pt action role (s :: scopes) seen (judge_scopes pt action role scopes h' i)) as Hgo.
    { intros h' -> Hno. destruct (IH (bool_decide (h = true ∧ perms s ≠ SCOPE_PERMISSIONS_REQUIRE_PARENTAL_CONSENT_FOR_ALLOWS)) i)
        as (j & Ej & Hj); [intros t Ht; apply Hask; by right|congruence|]. exists j. split; [done|]. rewrite Hc.
      destruct Hj as [[? ?]|[Hn Hj]]; [left; auto|right]. split; [tauto|].
      destruct Hj as [(? & t & ? & ?)|[? Hj]]; [left; split; [done|]; exists t; split; [by right|done]|right; split; [done|]].
      intros t [->|Ht]%elem_of_cons; auto. }
    unfold scope_allow. destruct h; [|apply Hgo; [by rewrite bool_decide_false by (by intros [? _])|by intros [? _]]].
    destruct (perms s) eqn:Ep; [apply Hgo; [by rewrite bool_decide_true by done|by intros [_ ?]]| |
      apply Hgo; [by rewrite bool_decide_false by (by intros [_ ?])|by intros [_ ?]]].
    eexists. split; [done|]. left. split; [done|]. apply Hc. by left.
  - destruct Hb as (Ei & Hd). exists i. split; [done|]. right. split.
    + intros (d & decider & _ & _ & Hnd & _). apply (Hnd 0 s); [lia|done|exact Hd].
    + left. split; [done|]. exists s. split; [left|exact Hd].
Qed.

Lemma judge_role_decides pt action role :
  pt = KIND_PRINCIPAL ∨ pt = KIND_RESOURCE → action ∈ ci_Actions (fx_input fx) → role ∈ all_roles →
  role_decided pt action role (scopes_of fx pt) false (judge_role rt idx ep fx verdict pt action role).
Proof using Hok.
  intros Hpt Ha Hr. apply judge_scopes_decides; [done|]. unfold initial_info. by case_decide.
Qed.

(** The resource policies allow exactly when they permit one of the roles. *)
Lemma judge_roles_resource action roles info :
  action ∈ ci_Actions (fx_input fx) → (∀ role, role ∈ roles → role ∈ all_roles) →
  ei_Effect info ≠ EFFECT_ALLOW →
  ∃ i, judge_roles KIND_RESOURCE action roles info = inl i ∧
    (ei_Effect i = EFFECT_ALLOW ↔ ∃ role, role ∈ roles ∧ permits KIND_RESOURCE action role (scopes_of fx KIND_RESOURCE)).
Proof using Hok.
  intros Ha. revert info. induction roles as [|role roles IH]; intros info Hsub Hinfo; cbn [Reference.judge_roles].
  { exists info. split; [done|]. split; [done|]. by intros (r & ?%elem_of_nil & _). }
  destruct (judge_role_decides KIND_RESOURCE action role) as (i & -> & Hi); [by right|done|apply Hsub; left|].
  destruct Hi as [[Ei Hp]|[Hn Hi]].
  - rewrite decide_True by auto. eexists. split; [done|]. split.
    + intros _. exists role. split; [left|done].
    + intros _. unfold merge_role. rewrite (decide_True (P := ei_Effect i = EFFECT_ALLOW)) by done. done.
  - assert (ei_Effect i ≠ EFFECT_ALLOW) as Hne by (destruct Hi as [[-> _]|[-> _]]; done).
    rewrite decide_False by (intros [?|?]; done).
    destruct (IH (merge_role info i)) as (j & Ej & Hj); [intros r Hr; apply Hsub; by right| |].
    { destruct (merge_role_effect info i) as [->|(-> & _)]; done. }
    exists j. split; [done|]. rewrite Hj. setoid_rewrite elem_of_cons. split; [naive_solver|]. intros (r & [->|Hr] & Hp); [done|eauto].
Qed.

(** The principal policies, for the first role. *)
Lemma judge_roles_principal action info :
  action ∈ ci_Actions (fx_input fx) → ei_Effect info = EFFECT_NO_MATCH →
  ∃ i, judge_roles KIND_PRINCIPAL action all_roles info = inl i ∧
    match head all_roles with
    | None => ei_Effect i = EFFECT_NO_MATCH
    | Some role => role_decided KIND_PRINCIPAL action role (scopes_of fx KIND_PRINCIPAL) false (inl i)
    end.
Proof using Hok.
  intros Ha Hinfo. destruct all_roles as [|role roles] eqn:Er; cbn [Reference.judge_roles head]; [eauto|].
  pose proof (judge_role_decides KIND_PRINCIPAL action role ltac:(by left) Ha) as Hd. rewrite Er in Hd. specialize (Hd ltac:(left)).
  pose proof Hd as (i & Ei & _). rewrite Ei in *. rewrite decide_True by auto. exists i. split; [|done]. f_equal.
  unfold merge_role. rewrite (decide_True (P := ei_Effect info = EFFECT_NO_MATCH)) by done. by repeat case_decide.
Qed.

(** The action is allowed exactly when it is permitted. *)
Lemma judge_action_permitted action :
  action ∈ ci_Actions (fx_input fx) → ei_Effect (judge_action rt idx ep fx verdict action) = EFFECT_ALLOW ↔ permitted action.
Proof using Hok.
  intros Ha. unfold judge_action. cbn [judge_policies ei_Policy ei_Scope].
  destruct (judge_roles_principal action (MkEffectInfo "" "" EFFECT_NO_MATCH) Ha eq_refl) as (i & -> & Hi).
  unfold permitted, permitted_on. cbv zeta. destruct (head all_roles) as [role|] eqn:Eh.
  2:{ assert (all_roles = []) as Er by (by destruct all_roles). rewrite Hi, Er. cbn. split; [done|].
      intros [(? & ? & _)|[_ (r & ?%elem_of_nil & _)]]; done. }
  destruct Hi as (? & [= <-] & Hi).
  destruct Hi as [[Ei Hp]|[Hn [[Ei (s & Hs & Hd)]|[Ei Hc]]]].
  - rewrite (decide_True (P := ei_Effect i = EFFECT_ALLOW ∨ _)) by auto. rewrite decide_False by congruence. split; [|done]. intros _. left. eauto.
  - rewrite (decide_True (P := ei_Effect i = EFFECT_ALLOW ∨ _)) by auto. rewrite decide_False by congruence. split; [congruence|].
    intros [(? & [= <-] & Hx)|[Hc _]]; [by destruct (Hn Hx)|]. by destruct (Hc role s eq_refl Hs).
  - rewrite (decide_False (P := ei_Effect i = EFFECT_ALLOW ∨ _)) by (intros [?|?]; congruence).
    destruct (judge_roles_resource action all_roles (MkEffectInfo (ei_Policy i) (ei_Scope i) EFFECT_NO_MATCH) Ha) as (j & -> & Hj); [done..|].
    assert (permitted action ↔ ∃ role, role ∈ all_roles ∧ permits KIND_RESOURCE action role (scopes_of fx KIND_RESOURCE)) as Hperm.
    { unfold permitted, permitted_on. cbv zeta. rewrite Eh. split; [intros [(? & [= <-] & Hx)|[_ ?]]; [by destruct (Hn Hx)|done]|]. intros Hx. right. split; [|done]. intros ? ? [= <-]. apply Hc. }
    unfold permitted, permitted_on in Hperm. cbv zeta in Hperm. rewrite Eh in Hperm. rewrite Hperm, <-Hj.
    destruct (decide (ei_Effect j = EFFECT_ALLOW ∨ ei_Effect j = EFFECT_DENY)); case_decide; cbn; intuition congruence.
Qed.
End permits.
