(* ===== verification/Outcome.v ===== *)
(** What the policies decide on an action, said without loops and without state:
    which scope settles a role, which role speaks for the action, and which kind
    of policies comes first.  Nothing here is taken from the way [check] threads
    its flags through bindings, scopes, roles and kinds ([apply_effect],
    [scope_allow], [merge_role] of Check.v); that they come to the same is
    [judge_action_decision]. *)
From S2P Require Import Prelude GoRuntime Bitmap Arena LazyDim Dimension GlobDim Namer Policy ScopePerms IndexCore IndexQuery IndexQuerySpec IndexLookup Index RuleTableBuild RuleTable Eval Check CheckSpec Reference.

Local Open Scope string_scope.
Local Open Scope list_scope.
Open Scope nat_scope.

(** * Lists *)

(** The non-empty prefixes, shortest first, and the elements before the first one
    that satisfies a test. *)
Fixpoint prefixes {A} (l : list A) : list (list A) :=
  match l with [] => [] | x :: l => [x] :: map (cons x) (prefixes l) end.
Fixpoint before {A} (f : A → bool) (l : list A) : list A :=
  match l with [] => [] | x :: l => if f x then [] else x :: before f l end.

Lemma find_map {A B} (g : A → B) (f : B → bool) l : find f (map g l) = g <$> find (λ x, f (g x)) l.
Proof. induction l as [|x l IH]; [done|]. cbn. by destruct (f (g x)). Qed.

Lemma before_none {A} (f : A → bool) l : find f l = None → before f l = l.
Proof. induction l as [|x l IH]; [done|]. cbn. destruct (f x); [done|]. intros E. by rewrite IH. Qed.

Lemma last_filter_snoc {A} (P : A → Prop) `{!∀ x, Decision (P x)} l x :
  last (filter P (l ++ [x])) = if decide (P x) then Some x else last (filter P l).
Proof.
  rewrite filter_app, filter_cons, filter_nil. case_decide; [by rewrite last_snoc|by rewrite app_nil_r].
Qed.

Section outcome.
Context `{GlobEngine} `{CelRuntime} `{GoMapOrder} `{ContentHash} `{StringHash} `{DerivedRoleHash} `{SchemaManager}.
Context (rt : RuleTable) (idx : bitmapIndex) (ep : EvalParams) (fx : Fixed) (verdict : BindingHandle → option bool).
Local Abbreviation consulted := (consulted rt idx fx).
Local Abbreviation perms := (GetScopeScopePermissions rt).
Local Abbreviation all_roles := (pr_Roles (ci_Principal (fx_input fx))).

(** * Bindings *)

Definition has_effect (e : Effect) (b : BindingHandle) : bool := bool_decide (co_Effect (bh_Core b) = e).
Definition satisfied (b : BindingHandle) : bool := bool_decide (verdict b = Some true).
Definition failing (b : BindingHandle) : bool := bool_decide (verdict b = None).

(** A satisfied DENY settles the action for its role; in strict mode a binding
    whose conditions fail settles the action altogether. *)
Definition stops (b : BindingHandle) : bool := satisfied b && has_effect EFFECT_DENY b || failing b && StrictEvaluation ep.
Definition grants (b : BindingHandle) : bool := satisfied b && has_effect EFFECT_ALLOW b.
(** It tells that the parents of the scope did not allow the action. *)
Definition marks (b : BindingHandle) : bool := satisfied b && negb (has_effect EFFECT_DENY b) && bh_NoMatchForScopePermissions b.

(** * One role *)

Section role.
Context (pt : Kind) (action role : string).
Local Abbreviation rules := (consulted pt action role).

Definition leaves_allows (scope : string) : bool := bool_decide (perms scope = SCOPE_PERMISSIONS_REQUIRE_PARENTAL_CONSENT_FOR_ALLOWS).
Definition overrides (scope : string) : bool := bool_decide (perms scope = SCOPE_PERMISSIONS_OVERRIDE_PARENT).
Definition allowed_in (scope : string) : bool := existsb grants (rules scope).
Definition marked_in (scope : string) : bool := existsb marks (before stops (rules scope)).

(** Some scope allows the action, and no scope from it on leaves that to its
    parents. *)
Fixpoint carried (scopes : list string) : bool :=
  match scopes with
  | [] => false
  | s :: above => allowed_in s && forallb (λ t, negb (leaves_allows t)) (s :: above) || carried above
  end.

(** The scopes up to the last one settle the role: it has a binding that stops
    the search, or it overrides its parents and an ALLOW has come that far. *)
Definition settles (scopes : list string) : bool :=
  match last scopes with
  | None => false
  | Some s => existsb stops (rules s) || overrides s && carried scopes
  end.

(** The policy named for a role, after the scopes went through. *)
Definition cited (scopes : list string) : string :=
  if existsb marked_in scopes then noMatchScopePermissions else ei_Policy (initial_info fx pt).

Definition policy_of (b : BindingHandle) : string := PolicyKeyFromFQN (HandleStr (bh_OriginFqn b)).

(** The effect for a role, [inr] when it is that of the action at once. *)
Definition settled (scopes : list string) (s : string) : EffectInfo + EffectInfo :=
  match find stops (rules s) with
  | Some b =>
      if failing b then inr (MkEffectInfo (policy_of b) s EFFECT_DENY)
      else inl (MkEffectInfo (if co_FromRolePolicy (bh_Core b) then policy_of b else cited scopes) s EFFECT_DENY)
  | None => inl (MkEffectInfo (cited scopes) s EFFECT_ALLOW)
  end.

Definition unsettled (scopes : list string) : EffectInfo + EffectInfo :=
  inl (MkEffectInfo (cited scopes) (default "" (last (filter (λ s, marked_in s = true) scopes))) EFFECT_NO_MATCH).

Definition role_outcome (scopes : list string) : EffectInfo + EffectInfo :=
  match find settles (prefixes scopes) with
  | Some upto => settled upto (default "" (last upto))
  | None => unsettled scopes
  end.
End role.

(** * Roles, and kinds of policies *)

Definition info_of (r : EffectInfo + EffectInfo) : EffectInfo := match r with inl i | inr i => i end.

(** What ends the search among the roles. *)
Definition conclusive (r : EffectInfo + EffectInfo) : bool :=
  match r with inr _ => true | inl i => bool_decide (ei_Effect i = EFFECT_ALLOW) end.

(** Without anything conclusive a DENY is reported before the lack of a match, and
    a DENY by a policy that denies before one for want of a parent's ALLOW. *)
Definition reported (infos : list EffectInfo) : EffectInfo :=
  let denials := filter (λ i, ei_Effect i = EFFECT_DENY) infos in
  match head (filter (λ i, ei_Policy i ≠ noMatchScopePermissions) denials), head denials with
  | Some i, _ | None, Some i => i
  | None, None => default (MkEffectInfo "" "" EFFECT_NO_MATCH) (last infos)
  end.

Definition chosen (answers : list (EffectInfo + EffectInfo)) : EffectInfo :=
  match find conclusive answers with Some r => info_of r | None => reported (info_of <$> answers) end.

(** Principal policies speak for the first role only; the resource policies are
    asked when these have no match. *)
Definition decision (action : string) : EffectInfo :=
  let outcome pt role := role_outcome pt action role (scopes_of fx pt) in
  let of_principal := reported (info_of <$> (outcome KIND_PRINCIPAL <$> take 1 all_roles)) in
  if decide (ei_Effect of_principal = EFFECT_NO_MATCH) then
    let i := chosen (outcome KIND_RESOURCE <$> all_roles) in
    if decide (ei_Effect i = EFFECT_NO_MATCH) then MkEffectInfo (ei_Policy i) (ei_Scope i) EFFECT_DENY else i
  else of_principal.

(** * The loops compute it *)

Lemma judge_bindings_stops scope bs h info :
  judge_bindings ep verdict scope bs h info =
    let info := if existsb marks (before stops bs) then MkEffectInfo noMatchScopePermissions scope (ei_Effect info) else info in
    match find stops bs with
    | Some b => if failing b then F_policies (MkEffectInfo (policy_of b) scope EFFECT_DENY)
                else F_scopes (MkEffectInfo (if co_FromRolePolicy (bh_Core b) then policy_of b else ei_Policy info) scope EFFECT_DENY)
    | None => F_next (h || existsb grants bs) info
    end.
Proof.
  revert h info. induction bs as [|b bs IH]; intros h info; [by destruct h|]. cbn [judge_bindings find before existsb].
  assert (verdict b = Some true → co_Effect (bh_Core b) ≠ EFFECT_DENY → stops b = false ∧ failing b = false ∧
    grants b = has_effect EFFECT_ALLOW b ∧ marks b = bh_NoMatchForScopePermissions b) as Hyes.
  { intros Ev Ed. unfold stops, grants, marks, satisfied, failing, has_effect. rewrite Ev, (bool_decide_false (_ = EFFECT_DENY)) by done. done. }
  unfold judge. destruct (verdict b) as [[|]|] eqn:Ev.
  - unfold apply_effect. destruct (decide (co_Effect (bh_Core b) = EFFECT_DENY)) as [Ed|Ed].
    + assert (stops b = true ∧ failing b = false) as [-> ->]; [|done].
      unfold stops, satisfied, failing, has_effect. by rewrite Ev, Ed.
    + destruct (Hyes eq_refl Ed) as (-> & Hf & -> & Em). cbn [existsb]. rewrite Em. clear Hyes.
      unfold has_effect. destruct (decide (co_Effect (bh_Core b) = EFFECT_ALLOW)) as [Ea|Ea];
        [rewrite (bool_decide_true (_ = EFFECT_ALLOW)) by done|rewrite (bool_decide_false (_ = EFFECT_ALLOW)) by done];
        destruct (bh_NoMatchForScopePermissions b); rewrite IH; cbv zeta; cbn [ei_Effect ei_Policy orb];
        rewrite ?orb_true_r; by destruct (existsb marks (before stops bs)), h.
  - assert (stops b = false ∧ grants b = false ∧ marks b = false) as (-> & -> & Em).
    { unfold stops, grants, marks, satisfied, failing, has_effect. by rewrite Ev. }
    cbn [existsb]. rewrite Em. apply IH.
  - destruct (StrictEvaluation ep) eqn:Es.
    + assert (stops b = true ∧ failing b = true) as [-> ->]; [|done]. unfold stops, satisfied, failing. by rewrite Ev, Es.
    + assert (stops b = false ∧ grants b = false ∧ marks b = false) as (-> & -> & Em).
      { unfold stops, grants, marks, satisfied, failing, has_effect. by rewrite Ev, Es. }
      cbn [existsb]. rewrite Em. apply IH.
Qed.

Lemma existsb_find {A} (f : A → bool) l : existsb f l = match find f l with Some _ => true | None => false end.
Proof. induction l as [|x l IH]; [done|]. cbn. by destruct (f x). Qed.

Section scopes.
Context (pt : Kind) (action role : string).
Local Abbreviation rules := (consulted pt action role).
Local Abbreviation carried := (carried pt action role).
Local Abbreviation cited := (cited pt action role).
Local Abbreviation settles := (settles pt action role).

Lemma carried_snoc l s : carried (l ++ [s]) = negb (leaves_allows s) && (carried l || allowed_in pt action role s).
Proof.
  induction l as [|x l IH]; cbn [app outcome.carried].
  - cbn. by destruct (allowed_in _ _ _ s), (leaves_allows s).
  - rewrite IH. cbn [forallb]. rewrite forallb_app. cbn [forallb].
    by destruct (allowed_in _ _ _ x), (leaves_allows x), (forallb _ l), (leaves_allows s), (carried l), (allowed_in _ _ _ s).
Qed.

Lemma cited_snoc l s : cited (l ++ [s]) = if marked_in pt action role s then noMatchScopePermissions else cited l.
Proof.
  unfold outcome.cited. rewrite existsb_app. cbn [existsb].
  by destruct (existsb _ l), (marked_in pt action role s).
Qed.

(** The scopes [seen] did not settle the role; the flag and the effect the loop
    carries are what they come to. *)
Lemma judge_scopes_outcome seen scopes :
  judge_scopes rt idx ep fx verdict pt action role scopes (carried seen)
    (MkEffectInfo (cited seen) (default "" (last (filter (λ s, marked_in pt action role s = true) seen))) EFFECT_NO_MATCH) =
  match find settles (map (app seen) (prefixes scopes)) with
  | Some upto => settled pt action role upto (default "" (last upto))
  | None => unsettled pt action role (seen ++ scopes)
  end.
Proof.
  revert seen. induction scopes as [|s scopes IH]; intros seen; cbn [judge_scopes prefixes map find]; [by rewrite app_nil_r|].
  rewrite judge_bindings_stops. change (existsb marks (before stops (rules s))) with (marked_in pt action role s).
  unfold outcome.settles at 1. rewrite last_snoc, (existsb_find stops). cbn [default from_option].
  pose proof (cited_snoc seen s) as Hcited.
  destruct (find stops (rules s)) as [b|] eqn:Ef.
  - cbn [orb]. rewrite last_snoc. unfold settled, id. cbn [default from_option]. rewrite Ef. destruct (failing b); [done|]. destruct (co_FromRolePolicy _); [done|].
    rewrite Hcited. cbv zeta. by destruct (marked_in _ _ _ _).
  - cbn [orb]. rewrite carried_snoc. set (cited_in := λ l, default "" (last (filter (λ s, marked_in pt action role s = true) l))) in *.
    assert (cited_in (seen ++ [s]) = if marked_in pt action role s then s else cited_in seen) as Hlast.
    { unfold cited_in. rewrite last_filter_snoc. by destruct (marked_in pt action role s). }
    assert (∀ h : bool, h = carried (seen ++ [s]) → judge_scopes rt idx ep fx verdict pt action role scopes h
      (if marked_in pt action role s then MkEffectInfo noMatchScopePermissions s EFFECT_NO_MATCH
       else MkEffectInfo (cited seen) (cited_in seen) EFFECT_NO_MATCH) =
      match find settles (map (app seen) (map (cons s) (prefixes scopes))) with
      | Some upto => settled pt action role upto (default "" (last upto))
      | None => unsettled pt action role (seen ++ s :: scopes)
      end) as Hgo.
    { intros h ->. rewrite map_map, (map_ext _ (app (seen ++ [s]))) by (intros l; by rewrite <-app_assoc).
      replace (seen ++ s :: scopes) with ((seen ++ [s]) ++ scopes) by (by rewrite <-app_assoc). rewrite <-IH.
      change (default "" (last (filter _ (seen ++ [s])))) with (cited_in (seen ++ [s])). rewrite Hcited, Hlast.
      f_equal. by destruct (marked_in _ _ _ _). }
    rewrite carried_snoc in Hgo. unfold allowed_in in *. cbn [ei_Effect].
    unfold scope_allow, overrides, leaves_allows in *. destruct (carried seen || existsb grants (rules s)).
    + destruct (perms s) eqn:Ep; cbn -[judge_scopes existsb] in *; try (by apply Hgo).
      rewrite bool_decide_true, bool_decide_false by done. cbn [andb negb]. rewrite last_snoc. unfold settled, id.
      cbn [default from_option]. rewrite Ef, Hcited. cbv zeta. by destruct (marked_in _ _ _ _).
    + rewrite !andb_false_r in *. by apply Hgo.
Qed.

Lemma judge_role_outcome : judge_role rt idx ep fx verdict pt action role = role_outcome pt action role (scopes_of fx pt).
Proof.
  unfold judge_role, role_outcome. pose proof (judge_scopes_outcome [] (scopes_of fx pt)) as E. cbn [app] in E.
  rewrite (map_ext _ id), map_id in E by done. rewrite <-E. f_equal. unfold initial_info, outcome.cited. cbn [existsb].
  unfold initial_info. by destruct (decide (pt = KIND_PRINCIPAL)).
Qed.
End scopes.

(** ** Roles *)

Definition undecided (i : EffectInfo) : Prop := ei_Effect i = EFFECT_DENY ∨ ei_Effect i = EFFECT_NO_MATCH.

(** What a role comes to: an error denies, anything else allows, denies or has no
    match. *)
Lemma role_outcome_effect pt action role scopes :
  match role_outcome pt action role scopes with
  | inr i => ei_Effect i = EFFECT_DENY
  | inl i => ei_Effect i = EFFECT_ALLOW ∨ undecided i
  end.
Proof.
  unfold role_outcome, settled, unsettled, undecided. destruct (find _ (prefixes _)) as [upto|]; [|cbn; auto].
  destruct (find stops _) as [b|]; [destruct (failing b)|]; cbn; auto.
Qed.

Lemma merge_no_match a i : ei_Effect a = EFFECT_NO_MATCH → merge_role a i = i.
Proof. intros Ha. unfold merge_role. rewrite (decide_True (P := ei_Effect a = _)) by done. by repeat case_decide. Qed.

Lemma reported_one i : reported [i] = i.
Proof.
  unfold reported. rewrite filter_cons, filter_nil. case_decide; [|done]. rewrite filter_cons, filter_nil. by case_decide.
Qed.

(** Merging one more role into what is reported. *)
Lemma merge_reported infos i :
  infos ≠ [] → Forall undecided infos → undecided i → merge_role (reported infos) i = reported (infos ++ [i]).
Proof.
  intros Hne Hall Hi. unfold reported. rewrite filter_app, last_snoc, filter_cons, filter_nil.
  destruct (filter (λ i, ei_Effect i = EFFECT_DENY) infos) as [|x denials] eqn:Ed.
  - rewrite filter_nil. cbn [head app]. rewrite merge_no_match.
    + case_decide; [|done]. rewrite filter_cons, filter_nil. by case_decide.
    + destruct (last infos) as [j|] eqn:El; [|done]. cbn. apply last_Some in El as [l ->].
      apply Forall_app in Hall as [_ Hj]. apply Forall_singleton in Hj as [Hj|?]; [|done].
      rewrite filter_app, filter_cons_True in Ed by done. by destruct (filter _ l).
  - assert (ei_Effect x = EFFECT_DENY ∧ Forall (λ j, ei_Effect j = EFFECT_DENY) (x :: denials)) as [Hx Hden].
    { assert (Forall (λ j, ei_Effect j = EFFECT_DENY) (x :: denials)) as Hf by (rewrite <-Ed; apply Forall_forall; intros j; by intros [? _]%list_elem_of_filter).
      split; [by inversion Hf|done]. }
    rewrite filter_app. destruct (filter (λ i, ei_Policy i ≠ noMatchScopePermissions) (x :: denials)) as [|y named] eqn:En.
    + cbn [head app]. assert (ei_Policy x = noMatchScopePermissions) as Hp.
      { destruct (decide (ei_Policy x = noMatchScopePermissions)); [done|]. by rewrite filter_cons_True in En. }
      unfold merge_role. rewrite !(decide_False (P := ei_Effect x = EFFECT_NO_MATCH)) by congruence.
      rewrite (decide_False (P := ei_Effect i = EFFECT_ALLOW)) by (destruct Hi; congruence).
      destruct (decide (ei_Effect i = EFFECT_DENY)) as [Hd|Hd].
      * rewrite filter_cons, filter_nil. destruct (decide (ei_Policy i ≠ noMatchScopePermissions)) as [Hq|Hq].
        -- by rewrite decide_True.
        -- rewrite decide_False by tauto. done.
      * rewrite decide_False by tauto. done.
    + cbn [head app]. assert (ei_Policy y ≠ noMatchScopePermissions ∧ ei_Effect y = EFFECT_DENY) as [Hp Hy].
      { assert (y ∈ filter (λ i, ei_Policy i ≠ noMatchScopePermissions) (x :: denials)) as [? Hin]%list_elem_of_filter by (rewrite En; left).
        split; [done|]. by apply (proj1 (Forall_forall _ _) Hden). }
      unfold merge_role. rewrite !(decide_False (P := ei_Effect y = EFFECT_NO_MATCH)) by congruence.
      rewrite (decide_False (P := ei_Effect i = EFFECT_ALLOW)) by (destruct Hi; congruence). by rewrite decide_False by tauto.
Qed.

Local Abbreviation outcome_of := (λ pt action role, role_outcome pt action role (scopes_of fx pt)).

(** The resource policies, after some roles that concluded nothing. *)
Lemma judge_roles_chosen action seen info roles :
  Forall undecided seen → (if decide (seen = []) then ei_Effect info = EFFECT_NO_MATCH else info = reported seen) →
  judge_roles rt idx ep fx verdict KIND_RESOURCE action roles info =
  match find conclusive (outcome_of KIND_RESOURCE action <$> roles) with
  | Some r => r
  | None => inl (if decide (seen = [] ∧ roles = []) then info else reported (seen ++ (info_of <$> (outcome_of KIND_RESOURCE action <$> roles))))
  end.
Proof.
  revert seen info. induction roles as [|role roles IH]; intros seen info Hseen Hinfo; cbn [judge_roles fmap list_fmap find].
  { case_decide; [by rewrite decide_True|]. rewrite decide_False, app_nil_r by tauto. by rewrite Hinfo. }
  rewrite judge_role_outcome. pose proof (role_outcome_effect KIND_RESOURCE action role (scopes_of fx KIND_RESOURCE)) as He.
  destruct (role_outcome KIND_RESOURCE action role (scopes_of fx KIND_RESOURCE)) as [i|a]; [|done]. cbn [conclusive].
  destruct (decide (ei_Effect i = EFFECT_ALLOW)) as [Ea|Ea].
  - rewrite bool_decide_true, decide_True by auto. unfold merge_role. by rewrite (decide_True (P := ei_Effect i = EFFECT_ALLOW)).
  - rewrite bool_decide_false, decide_False by (done || by intros [?|?]). destruct He as [?|He]; [done|].
    assert (merge_role info i = reported (seen ++ [i])) as ->.
    { destruct (decide (seen = [])) as [->|Hne]; [by rewrite merge_no_match, app_nil_l, reported_one|]. rewrite Hinfo. by apply merge_reported. }
    rewrite (IH (seen ++ [i])).
    + cbn [info_of]. destruct (find _ _); [done|]. rewrite !decide_False by (intros [? ?]; by destruct seen).
      by rewrite <-app_assoc.
    + apply Forall_app. auto.
    + rewrite decide_False; [done|]. by destruct seen.
Qed.

(** The principal policies. *)
Lemma judge_roles_first action info :
  ei_Effect info = EFFECT_NO_MATCH →
  judge_roles rt idx ep fx verdict KIND_PRINCIPAL action all_roles info =
    match all_roles with [] => inl info | role :: _ => outcome_of KIND_PRINCIPAL action role end.
Proof.
  intros Hinfo. destruct all_roles as [|role roles]; [done|]. cbn [judge_roles].
  rewrite judge_role_outcome. destruct (role_outcome _ _ _ _) as [i|a]; [|done].
  rewrite decide_True by auto. by rewrite merge_no_match.
Qed.

(** The loops decide as told. *)
Lemma judge_action_decision action : judge_action rt idx ep fx verdict action = decision action.
Proof.
  unfold judge_action, decision. cbn [judge_policies ei_Policy ei_Scope]. rewrite judge_roles_first by done.
  destruct all_roles as [|first roles]; [done|].
  replace (info_of <$> _) with [info_of (outcome_of KIND_PRINCIPAL action first)] by done. rewrite reported_one.
  pose proof (role_outcome_effect KIND_PRINCIPAL action first (scopes_of fx KIND_PRINCIPAL)) as He.
  destruct (role_outcome KIND_PRINCIPAL action first _) as [p|p]; cbn [info_of].
  2:{ by rewrite !decide_False by congruence. }
  destruct (decide (ei_Effect p = EFFECT_NO_MATCH)) as [Hp|Hp].
  - rewrite (decide_False (P := _ ∨ _)) by (intros [?|?]; congruence).
    rewrite (judge_roles_chosen action [] _ (first :: roles)) by done. unfold chosen.
    set (answers := _ <$> first :: roles). destruct (find conclusive answers) as [[i|a]|]; cbn [info_of].
    + by destruct (decide (ei_Effect i = EFFECT_ALLOW ∨ _)).
    + done.
    + rewrite (decide_False (P := [] = [] ∧ _)) by (by intros [_ ?]). rewrite app_nil_l.
      by destruct (decide (ei_Effect (reported _) = EFFECT_ALLOW ∨ _)).
  - rewrite (decide_True (P := _ ∨ _)) by (destruct He as [?|[?|?]]; [by left|by right|done]). by rewrite decide_False.
Qed.
End outcome.

(** The answer to a request for an action, as [check] gives it. *)
Lemma reference_decision `{GlobEngine} `{CelRuntime} `{GoMapOrder} `{ContentHash} `{StringHash} `{DerivedRoleHash} `{SchemaManager}
    rt ep input verdict action :
  reference rt ep input verdict action = answer rt ep input (decision rt (bi (rt_idx rt)) ep (fixed rt ep input) verdict) action.
Proof. unfold reference, answer. by rewrite judge_action_decision. Qed.
