(* ===== verification/TableSpec.v ===== *)
(** The rule table as a set of rule rows, and the manager's steps on it: adding
    a policy adds the rows it compiles to, deleting one removes exactly its rows,
    and everything [check] relies on is kept. *)
From S2P Require Import Prelude GoRuntime Bitmap Arena LazyDim Dimension GlobDim Namer Policy ScopePerms IndexCore IndexQuery IndexQuerySpec IndexLookup Index IndexSpec ParentRoles RuleTableBuild RuleTable Manager Eval Check CheckSpec.

Local Open Scope string_scope.
Local Open Scope list_scope.
Open Scope nat_scope.

Section build.
Context `{GoMapOrder} `{StringHash}.

(** * The rows of a policy *)

(** A row of the policy, which is no principal policy if it comes from a role policy. *)
Definition row_of (fqn : string) (r : RuleRow) : Prop :=
  r_OriginFqn r = fqn ∧ (r_PolicyKind r = KIND_PRINCIPAL → r_FromRolePolicy r = false).

Lemma consent_row_of fqn sp row : row_of fqn row → row_of fqn (consent_row sp row).
Proof. unfold consent_row. by destruct sp, (r_Effect row), (r_Condition row). Qed.

(** No scope has a nil message for its parent roles. *)
Definition parents_ok (spr : ScopeParentRoles) : Prop := ∀ scope, spr !! scope ≠ Some None.

Lemma parents_ok_insert spr scope m : parents_ok spr → parents_ok (<[scope := Some m]> spr).
Proof. intros Hp scope' Hl. apply lookup_insert_Some in Hl as [[_ ?]|[_ Hl]]; [done|]. by apply (Hp scope'). Qed.

Lemma mapM_forall {A B} (f : A → option B) (P : B → Prop) l :
  (∀ x, x ∈ l → runs (f x) P) → runs (mapM f l) (Forall P).
Proof.
  induction l as [|x l IH]; intros Hl; [rret; constructor|]. cbn [mapM].
  eapply runs_bind; [apply Hl; left|]. intros y Hy. eapply runs_bind; [apply IH; intros z Hz; apply Hl; by right|].
  intros ys Hys. rret. by constructor.
Qed.

Lemma elem_of_concat_forall {A} (P : A → Prop) (ls : list (list A)) x : Forall (Forall P) ls → x ∈ concat ls → P x.
Proof.
  induction 1 as [|l ls Hl _ IH]; cbn; [by intros ?%elem_of_nil|]. intros [Hx|Hx]%elem_of_app; [|by apply IH].
  by eapply Forall_forall in Hl.
Qed.

Record added_policy (rt rt' : ProtoRuleTable) (rps : RunnablePolicySet) (rows : list RuleRow) : Prop := {
  ap_rows : ∀ r, r ∈ rows → row_of (GetFqn rps) r;
  ap_meta : rows = [] ∧ pt_Meta rt' = pt_Meta rt ∨
    ∃ m, meta_Fqn m = GetFqn rps ∧ pt_Meta rt' = <[GenModuleIDFromFQN (GetFqn rps) := m]> (pt_Meta rt);
  ap_parents : parents_ok (pt_ScopeParentRoles rt');
}.

Lemma ap_fqn rt rt' rps rows r : added_policy rt rt' rps rows → r ∈ rows → r_OriginFqn r = GetFqn rps.
Proof. intros Ha Hr. by apply (ap_rows _ _ _ _ Ha). Qed.

Lemma addPrincipalPolicy_runs rt meta policies :
  parents_ok (pt_ScopeParentRoles rt) →
  runs (addPrincipalPolicy rt meta policies) (λ '(rows, rt'), added_policy rt rt' (PS_Principal meta policies) rows).
Proof.
  intros Hp. destruct policies as [|p ps]; cbn [addPrincipalPolicy].
  { rret. split; [by intros r ?%elem_of_nil|by left|done]. }
  set (m := MkMeta _ _ _ _). cbn [pt_Meta set_Meta]. rewrite lookup_insert_eq.
  eapply runs_bind; [apply (mapM_forall _ (Forall (row_of (sm_Fqn meta))))|].
  - intros [resource rules] _. apply mapM_forall. intros rule _. eexists. split; [reflexivity|].
    unfold principal_row. by apply consent_row_of.
  - intros rows Hrows. rret. split; [|right; by exists m|done].
    intros r [Hr|Hr]%elem_of_app; [|by apply (elem_of_concat_forall _ _ _ Hrows)].
    case_decide; [by apply list_elem_of_singleton in Hr as ->|by apply elem_of_nil in Hr].
Qed.

Lemma addResourcePolicy_runs rt meta policies schemas :
  parents_ok (pt_ScopeParentRoles rt) →
  runs (addResourcePolicy rt meta policies schemas) (λ '(rows, rt'), added_policy rt rt' (PS_Resource meta policies schemas) rows).
Proof.
  intros Hp. destruct policies as [|p ps]; cbn [addResourcePolicy].
  { rret. split; [by intros r ?%elem_of_nil|by left|done]. }
  set (m := MkMeta _ _ _ _). set (rt1 := match schemas with Some _ => _ | None => _ end).
  set (rt2 := if decide (0 < size (rp_DerivedRoles p)) then _ else _).
  assert (pt_Meta rt2 = <[GenModuleIDFromFQN (sm_Fqn meta) := m]> (pt_Meta rt) ∧ pt_ScopeParentRoles rt2 = pt_ScopeParentRoles rt) as [E1 E2].
  { unfold rt2, rt1. by destruct schemas; case_decide. }
  rewrite E1, lookup_insert_eq.
  eapply runs_bind; [apply (mapM_forall _ (Forall (row_of (sm_Fqn meta))))|].
  - intros rule _. eexists. split; [reflexivity|]. apply Forall_forall. intros r Hr. unfold rule_rows in Hr.
    apply list_elem_of_bind in Hr as (a & [Hr|Hr]%elem_of_app & _).
    + unfold role_rows in Hr. apply list_elem_of_fmap in Hr as (x & -> & _). unfold resource_row. by apply consent_row_of.
    + unfold derived_role_rows in Hr. apply list_elem_of_bind in Hr as (dr & Hr & _).
      destruct (rp_DerivedRoles p !! dr); [|by apply elem_of_nil in Hr].
      apply list_elem_of_fmap in Hr as (x & -> & _). unfold resource_row. by apply consent_row_of.
  - intros rows Hrows. rret. split; [|right; by exists m|by rewrite E2].
    intros r [Hr|Hr]%elem_of_app; [|by apply (elem_of_concat_forall _ _ _ Hrows)].
    destruct (rp_Rules p); [by apply list_elem_of_singleton in Hr as ->|by apply elem_of_nil in Hr].
Qed.

Lemma addRolePolicy_runs rt p :
  parents_ok (pt_ScopeParentRoles rt) → runs (addRolePolicy rt p) (λ '(rows, rt'), added_policy rt rt' (PS_Role p) rows).
Proof.
  intros Hp. unfold addRolePolicy. cbn [pt_ScopeParentRoles set_Meta].
  assert (runs (record_parents (pt_ScopeParentRoles rt) (rps_Scope p) (rps_Role p) (rps_ParentRoles p)) parents_ok) as Hr.
  { unfold record_parents. destruct (pt_ScopeParentRoles rt !! rps_Scope p) as [[m|]|] eqn:E; [|by destruct (Hp (rps_Scope p))|];
      rret; by apply parents_ok_insert. }
  eapply runs_bind; [exact Hr|]. intros spr Hspr. rret. split; [|right; eexists; split; [|reflexivity]; done|done].
  intros r ([resource rules] & Hr' & _)%list_elem_of_bind. apply list_elem_of_lookup in Hr' as [i Hi].
  rewrite list_lookup_imap in Hi. destruct (rules !! i); [|done]. by injection Hi as <-.
Qed.

Lemma AddPolicy_runs rt rps :
  parents_ok (pt_ScopeParentRoles rt) → runs (AddPolicy rt rps) (λ '(rows, rt'), added_policy rt rt' rps rows).
Proof.
  intros Hp. destruct rps; cbn [AddPolicy].
  - by apply addResourcePolicy_runs.
  - by apply addRolePolicy_runs.
  - by apply addPrincipalPolicy_runs.
  - rret. split; [by intros r ?%elem_of_nil|by left|done].
Qed.

(** The rows a policy compiles to; they do not depend on the table. *)
Definition policy_rows (rps : RunnablePolicySet) : list RuleRow :=
  match AddPolicy NewProtoRuletable rps with Some (rows, _) => rows | None => [] end.

Lemma AddPolicy_rows rt rps rows rt' :
  parents_ok (pt_ScopeParentRoles rt) → AddPolicy rt rps = Some (rows, rt') → rows = policy_rows rps.
Proof.
  intros Hp E. assert (parents_ok (pt_ScopeParentRoles NewProtoRuletable)) as Hp0 by done.
  destruct (AddPolicy_runs _ rps Hp0) as ([rows0 rt0] & E0 & _). unfold policy_rows. rewrite E0.
  destruct rps as [meta [|p ps] schemas|p|meta [|p ps]|fqn]; cbn [AddPolicy addResourcePolicy addPrincipalPolicy] in E, E0; try congruence.
  - assert (∀ t, pt_Meta (if decide (0 < size (rp_DerivedRoles p)) then
        set_PolicyDerivedRoles (<[GenModuleIDFromFQN (sm_Fqn meta) := rp_DerivedRoles p]> (pt_PolicyDerivedRoles t)) t else t) = pt_Meta t) as Hdr
      by (intros t; by case_decide).
    rewrite Hdr in E, E0. cbn [pt_Meta set_Meta] in E, E0. rewrite lookup_insert_eq in E, E0.
    destruct (mapM _ (rp_Rules p)); cbn in E, E0; congruence.
  - unfold addRolePolicy in E, E0. destruct (record_parents (pt_ScopeParentRoles (set_Meta _ rt)) _ _ _), (record_parents (pt_ScopeParentRoles (set_Meta _ NewProtoRuletable)) _ _ _);
      cbn in E, E0; congruence.
  - cbn [pt_Meta set_Meta] in E, E0. rewrite lookup_insert_eq in E, E0.
    destruct (mapM _ (go_range (pp_ResourceRules p))); cbn in E, E0; congruence.
Qed.
End build.

Section table.
Context `{GlobEngine} `{CelRuntime} `{GoMapOrder} `{ContentHash} `{StringHash} `{DerivedRoleHash} `{SchemaManager}.

(** * Noting rows *)

(** The scopes of the rows of a kind. *)
Definition kind_scopes (k : Kind) (rules : list RuleRow) : gset string :=
  list_to_set (r_Scope <$> filter (λ r, r_PolicyKind r = k) rules).

Record noted (rt rt' : RuleTable) (rules : list RuleRow) : Prop := {
  nt_proto : rt_proto rt' = rt_proto rt;
  nt_idx : rt_idx rt' = rt_idx rt;
  nt_programs : rt_programCache rt' = rt_programCache rt;
  nt_pool : rt_pool rt' = rt_pool rt;
  nt_principal : rt_principalScopeMap rt' = kind_scopes KIND_PRINCIPAL rules ∪ rt_principalScopeMap rt;
  nt_resource : rt_resourceScopeMap rt' = kind_scopes KIND_RESOURCE rules ∪ rt_resourceScopeMap rt;
}.

Lemma kind_scopes_cons k r rules : kind_scopes k (r :: rules) = (if decide (r_PolicyKind r = k) then {[r_Scope r]} else ∅) ∪ kind_scopes k rules.
Proof. unfold kind_scopes. rewrite filter_cons. case_decide; [done|]. by rewrite union_empty_l_L. Qed.

Lemma kind_scopes_one k r : kind_scopes k [r] = if decide (r_PolicyKind r = k) then {[r_Scope r]} else ∅.
Proof. rewrite kind_scopes_cons. unfold kind_scopes. cbn. by rewrite union_empty_r_L. Qed.

Lemma note_rule_spec rt r : noted rt (note_scope (note_permissions (note_derived_roles rt r) r) r) [r].
Proof.
  assert (∀ rt', rt_proto rt' = rt_proto rt → rt_idx rt' = rt_idx rt → rt_programCache rt' = rt_programCache rt → rt_pool rt' = rt_pool rt →
    rt_principalScopeMap rt' = rt_principalScopeMap rt → rt_resourceScopeMap rt' = rt_resourceScopeMap rt → noted rt (note_scope rt' r) [r]) as Hs.
  { intros rt' E1 E2 E3 E4 E5 E6. unfold note_scope.
    pose proof (kind_scopes_one KIND_PRINCIPAL r) as P. pose proof (kind_scopes_one KIND_RESOURCE r) as R.
    destruct (r_PolicyKind r) eqn:Ek; rewrite ?decide_False in P by done; rewrite ?decide_False in R by done;
      rewrite ?decide_True in P by done; rewrite ?decide_True in R by done;
      (split; [exact E1|exact E2|exact E3|exact E4|..]); rewrite ?P, ?R, ?union_empty_l_L; cbn; by rewrite ?E5, ?E6. }
  unfold note_permissions, note_derived_roles.
  destruct (r_FromRolePolicy r); (case_decide; [destruct (_ !! _)|]); by apply Hs.
Qed.

Lemma noted_fold rules rt :
  noted rt (foldl (λ rt r, note_scope (note_permissions (note_derived_roles rt r) r) r) rt rules) rules.
Proof.
  revert rt. induction rules as [|r rules IH]; intros rt; cbn [foldl].
  { split; try done; unfold kind_scopes; cbn; set_solver. }
  set (rt1 := note_scope _ r). destruct (note_rule_spec rt r) as [A1 A2 A3 A4 A5 A6]. destruct (IH rt1) as [B1 B2 B3 B4 B5 B6].
  fold rt1 in A1, A2, A3, A4, A5, A6. split; try congruence.
  - rewrite B5, A5, kind_scopes_one, (kind_scopes_cons _ r rules). set_solver.
  - rewrite B6, A6, kind_scopes_one, (kind_scopes_cons _ r rules). set_solver.
Qed.

(** * The invariant *)

Context (known : RuleRow → Prop) (Hnc : no_collisions known).
(** The policies in play: their names are not empty and do not collide as module identifiers. *)
Context (policy_known : string → Prop).
Record fqns_distinct : Prop := {
  fd_named : ∀ f, policy_known f → f ≠ "";
  fd_module : ∀ f f', policy_known f → policy_known f' → GenModuleIDFromFQN f = GenModuleIDFromFQN f' → f = f';
}.
Context (Hfqn : fqns_distinct).

Record table_inv (rt : RuleTable) (rows : gmap N RuleRow) : Prop := {
  ti_rows : implements known (rt_idx rt) rows;
  ti_fqn : ∀ id r, rows !! id = Some r → policy_known (r_OriginFqn r);
  ti_meta : ∀ id r, rows !! id = Some r → is_Some (pt_Meta (rt_proto rt) !! GenModuleIDFromFQN (r_OriginFqn r));
  ti_meta_key : ∀ mid m, pt_Meta (rt_proto rt) !! mid = Some m → mid = GenModuleIDFromFQN (meta_Fqn m) ∧ policy_known (meta_Fqn m);
  ti_principal : ∀ id r, rows !! id = Some r → r_PolicyKind r = KIND_PRINCIPAL → r_Scope r ∈ rt_principalScopeMap rt;
  ti_resource : ∀ id r, rows !! id = Some r → r_PolicyKind r = KIND_RESOURCE → r_Scope r ∈ rt_resourceScopeMap rt;
  ti_kind : ∀ id r, rows !! id = Some r → r_PolicyKind r = KIND_PRINCIPAL → r_FromRolePolicy r = false;
  ti_parents : parents_ok (pt_ScopeParentRoles (rt_proto rt));
  ti_pool : ∀ bm, bm ∈ rt_pool rt → cleared bm;
  ti_programs : programs_ok (rt_programCache rt);
}.

(** The compiled ancestors are those of the declared parent roles. *)
Definition current (rt : RuleTable) : Prop := ancestors_of (pt_ScopeParentRoles (rt_proto rt)) (parentRoles (rt_idx rt)).

(** [check] can run on such a table. *)
Lemma table_inv_ok rt rows : table_inv rt rows → table_ok rt.
Proof.
  intros Hi. pose proof (im_rows _ _ _ (ti_rows _ _ Hi)) as Hr. split; [apply (ti_rows _ _ Hi)|apply Hi|apply Hi|].
  intros id b Hl. destruct (rows !! id) as [r|] eqn:E.
  - destruct (ro_row _ _ _ _ _ _ _ Hr _ _ E) as (core & _ & _ & Hl' & _). rewrite Hl in Hl'. injection Hl' as ->.
    change (bh_OriginFqn (set_ID (rule_binding r core) id)) with (bh_OriginFqn (rule_binding r core)). rewrite rule_binding_fqn.
    apply (ti_meta _ _ Hi _ _ E).
  - apply (ro_none _ _ _ _ _ _ _ Hr) in E. congruence.
Qed.

Lemma table_inv_cached rt rows rt' : table_inv rt rows → cached rt rt' → table_inv rt' rows.
Proof.
  intros Hi (i & pool & c & -> & Hrel & Hp & Hc). split; [|apply Hi..|exact Hp|exact Hc]. by apply bi_rel_implements; [apply Hi|].
Qed.

Lemma emptyRuleTable_inv pool :
  (∀ bm, bm ∈ pool → cleared bm) →
  let rt := initBuildState (emptyRuleTable NewProtoRuletable pool) in table_inv rt ∅ ∧ current rt.
Proof.
  intros Hp. split; [|done]. split; cbn; try done.
  apply New_implements.
Qed.

(** * Adding a policy *)

(** [rows'] is [rows] and the rows of [l], under fresh identifiers. *)
Definition extends (rows rows' : gmap N RuleRow) (l : list RuleRow) : Prop :=
  ∃ new, rows' = rows ∪ new ∧ rows ##ₘ new ∧ (map_to_list new).*2 ≡ₚ l.

Lemma extends_lookup rows rows' l id r :
  extends rows rows' l → rows' !! id = Some r → rows !! id = Some r ∨ r ∈ l.
Proof.
  intros (new & -> & Hd & Hp) [?|[_ Hl]]%lookup_union_Some_raw; [by left|]. right. rewrite <-Hp. apply list_elem_of_fmap.
  exists (id, r). split; [done|]. by apply elem_of_map_to_list.
Qed.

Definition slots (rt : RuleTable) : nat := length (bindings (bi (rt_idx rt))).
Definition room (rt : RuleTable) (n : nat) : Prop := (N.of_nat (slots rt + n) < 2 ^ 32)%N.
(** A policy the compiler may deliver. *)
Definition deliverable (rps : RunnablePolicySet) : Prop := policy_known (GetFqn rps) ∧ ∀ r, r ∈ policy_rows rps → known r.

Lemma noted_scope k r l : r ∈ l → r_PolicyKind r = k → r_Scope r ∈ kind_scopes k l.
Proof.
  intros Hr Hk. unfold kind_scopes. apply elem_of_list_to_set, list_elem_of_fmap. exists r. split; [done|]. by apply list_elem_of_filter.
Qed.

(** Rows of a policy whose metadata has been recorded keep the invariant. *)
Lemma table_inv_add rt rows proto rps l added rows' rt1 idx p :
  table_inv rt rows → deliverable rps → l = policy_rows rps →
  added_policy (rt_proto rt) proto rps l → noted (set_proto proto rt) rt1 l →
  extends rows rows' added → (∀ r, r ∈ added → r ∈ l) → implements known idx rows' →
  table_inv (set_idx (set_parentRoles p idx) rt1) rows'.
Proof using Hfqn.
  intros Hi [Hpk _] -> Hap [N1 N2 N3 N4 N5 N6] Hext Hsub Him. cbn in N1, N2, N3, N4, N5, N6.
  assert (∀ id r, rows' !! id = Some r → policy_known (r_OriginFqn r)) as Hpol.
  { intros id r Hl. destruct (extends_lookup _ _ _ _ _ Hext Hl) as [Ho|Hin%Hsub]; [by eapply (ti_fqn _ _ Hi)|].
    by rewrite (ap_fqn _ _ _ _ _ Hap Hin). }
  split; cbn [rt_idx rt_proto rt_principalScopeMap rt_resourceScopeMap rt_pool rt_programCache set_idx].
  - destruct Him as [? ? ? []]. split; [done..|by split].
  - exact Hpol.
  - intros id r Hl. rewrite N1. destruct (extends_lookup _ _ _ _ _ Hext Hl) as [Ho|Hin%Hsub].
    + pose proof (ti_meta _ _ Hi _ _ Ho). destruct (ap_meta _ _ _ _ Hap) as [[_ ->]|(m' & Em & ->)]; [done|].
      by apply lookup_insert_is_Some'; right.
    + rewrite (ap_fqn _ _ _ _ _ Hap Hin). destruct (ap_meta _ _ _ _ Hap) as [[E _]|(m & _ & ->)]; [rewrite E in Hin; by apply elem_of_nil in Hin|].
      rewrite lookup_insert_eq. eauto.
  - intros mid m Hm. rewrite N1 in Hm. destruct (ap_meta _ _ _ _ Hap) as [[_ E]|(m' & Em & E)]; rewrite E in Hm; [by apply (ti_meta_key _ _ Hi)|].
    apply lookup_insert_Some in Hm as [[<- <-]|[_ Hm]]; [by rewrite Em|by apply (ti_meta_key _ _ Hi)].
  - intros id r Hl Hk. rewrite N5. destruct (extends_lookup _ _ _ _ _ Hext Hl) as [Ho|Hin%Hsub];
      [apply elem_of_union_r; by eapply (ti_principal _ _ Hi)|by apply elem_of_union_l, noted_scope].
  - intros id r Hl Hk. rewrite N6. destruct (extends_lookup _ _ _ _ _ Hext Hl) as [Ho|Hin%Hsub];
      [apply elem_of_union_r; by eapply (ti_resource _ _ Hi)|by apply elem_of_union_l, noted_scope].
  - intros id r Hl. destruct (extends_lookup _ _ _ _ _ Hext Hl) as [Ho|Hin%Hsub]; [by eapply (ti_kind _ _ Hi)|by apply (ap_rows _ _ _ _ Hap)].
  - rewrite N1. apply Hap.
  - rewrite N4. apply Hi.
  - rewrite N3. apply Hi.
Qed.

(** Ingesting a policy adds exactly its rows, or stops at a row that does not
    compile, leaving those before it in the table. *)
Definition ingested (rt : RuleTable) (rows : gmap N RuleRow) (l : list RuleRow) (rt' : RuleTable) (ok : bool) : Prop :=
  slots rt' ≤ slots rt + length l ∧ ∃ added rows', extends rows rows' added ∧ table_inv rt' rows' ∧
    if ok then added = l ∧ (∀ r, r ∈ l → row_compiles r) ∧ current rt' else ∃ r rest, l = added ++ r :: rest ∧ ¬ row_compiles r.

Lemma set_parentRoles_same m : set_parentRoles (parentRoles m) m = m.
Proof. by destruct m. Qed.

Lemma ingestPolicy_runs rt rows rps :
  table_inv rt rows → deliverable rps → room rt (length (policy_rows rps)) →
  runs (ingestPolicy rt (Some rps)) (λ '(rt', ok), ingested rt rows (policy_rows rps) rt' ok).
Proof using Hnc Hfqn.
  intros Hi Hdel Hroom. cbn [ingestPolicy].
  destruct (AddPolicy_runs (rt_proto rt) rps (ti_parents _ _ Hi)) as ([l proto] & Ea & Hap).
  pose proof (AddPolicy_rows _ _ _ _ (ti_parents _ _ Hi) Ea) as El. rewrite Ea, bind_some. unfold indexRules. rewrite <-El in *.
  pose proof (noted_fold l (set_proto proto rt)) as Hn. set (rt1 := foldl _ _ l) in *.
  pose proof (nt_idx _ _ _ Hn) as N2. pose proof (nt_proto _ _ _ Hn) as N1. cbn in N1, N2.
  eapply runs_bind; [apply (IndexRules_runs known Hnc _ rows); [rewrite N2; apply Hi|rewrite El; apply Hdel|by rewrite N2]|].
  intros [idx ok] (_ & Hlen & added & new & Him & Hdis & Hperm & Hcomp & Hres). rewrite N2 in Hlen.
  assert (extends rows (rows ∪ new) added) as Hext by (by exists new).
  destruct ok.
  - subst added. unfold IndexParentRoles. cbn [rt_idx rt_proto set_idx]. rewrite N1.
    destruct (compileParentRoleAncestors_runs (pt_ScopeParentRoles proto)) as (p & -> & Hanc). rewrite bind_some. rret.
    split; [exact Hlen|]. exists l, (rows ∪ new). split; [done|]. split; [|split_and!; [done..|]].
    { change (set_idx _ (set_idx idx rt1)) with (set_idx (set_parentRoles p idx) rt1).
      apply (table_inv_add rt rows proto rps l l (rows ∪ new)); done. }
    unfold current. cbn. by rewrite N1.
  - rret. destruct Hres as (r & rest & E & Hnr). split; [exact Hlen|]. exists added, (rows ∪ new). split; [done|]. split; [|by exists r, rest].
    rewrite <-(set_parentRoles_same idx). apply (table_inv_add rt rows proto rps l added (rows ∪ new)); try done. intros r' Hr'. rewrite E. apply elem_of_app. by left.
Qed.

(** * Deleting a policy *)

Definition drop_module (mid : ModuleID) (rows : gmap N RuleRow) : gmap N RuleRow :=
  filter (λ x, GenModuleIDFromFQN (r_OriginFqn x.2) ≠ mid) rows.

Lemma drop_module_lookup mid rows id r :
  drop_module mid rows !! id = Some r ↔ rows !! id = Some r ∧ GenModuleIDFromFQN (r_OriginFqn r) ≠ mid.
Proof. unfold drop_module. by rewrite map_lookup_filter_Some. Qed.

Lemma drop_module_none mid rt rows : table_inv rt rows → pt_Meta (rt_proto rt) !! mid = None → drop_module mid rows = rows.
Proof.
  intros Hi Hm. apply map_filter_id. intros id r Hl. cbn. intros <-. destruct (ti_meta _ _ Hi _ _ Hl) as [m ?]. congruence.
Qed.

Lemma drop_module_without mid rt rows m :
  table_inv rt rows → pt_Meta (rt_proto rt) !! mid = Some m → drop_module mid rows = without (meta_Fqn m) rows.
Proof using Hfqn.
  intros Hi Hm. destruct (ti_meta_key _ _ Hi _ _ Hm) as [-> Hk]. apply map_filter_ext. intros id r Hl. cbn. split; intros Hne E; apply Hne.
  - by rewrite E.
  - apply (fd_module Hfqn); [by eapply (ti_fqn _ _ Hi)|done..].
Qed.

(** The scopes of the rows are keys of the scope dimension. *)
Lemma row_scope_active m rows id r : implements known m rows → rows !! id = Some r → r_Scope r ∈ GetScopes (bi m).
Proof.
  intros Him Hl. destruct (ro_row _ _ _ _ _ _ _ (im_rows _ _ _ Him) _ _ Hl) as (core & _ & _ & Hlv & _).
  unfold GetScopes, dimension_Keys. rewrite elem_of_go_range_keys.
  pose proof (bok_dims _ (im_bi _ _ _ Him)) as Hd. apply (dim_has_iff _ _ (dok_scope _ _ Hd)). exists id.
  apply (dok_scope_is _ _ Hd). eexists. split; [exact Hlv|]. unfold scope_key. f_equal. apply rule_binding_scope.
Qed.

Lemma drop_parents_ok spr scope role : parents_ok spr → parents_ok (drop_parents spr scope role).
Proof.
  intros Hp. unfold drop_parents. destruct (spr !! scope) as [[m|]|]; [|done..]. case_decide; [|by apply parents_ok_insert].
  intros s [_ Hl]%lookup_delete_Some. by apply (Hp s).
Qed.

Lemma doDeletePolicy_runs rt rows mid :
  table_inv rt rows →
  runs (doDeletePolicy rt mid) (λ rt', table_inv rt' (drop_module mid rows) ∧ (current rt → current rt') ∧ slots rt' = slots rt).
Proof using Hfqn.
  intros Hi. unfold doDeletePolicy. destruct (pt_Meta (rt_proto rt) !! mid) as [m|] eqn:Em.
  2:{ rret. split; [by rewrite (drop_module_none _ _ _ Hi Em)|done]. }
  destruct (ti_meta_key _ _ Hi _ _ Em) as [Emid Hk]. cbn [rt_idx set_programCache].
  eapply runs_bind; [apply (DeletePolicy_runs known _ _ rows); [apply Hi|by apply (fd_named Hfqn)]|].
  intros idx (Him & Hpar & Hlen). rewrite <-(drop_module_without _ _ _ _ Hi Em) in Him.
  set (rt1 := set_idx idx (set_programCache _ rt)). set (active := list_to_set (GetScopes (bi (rt_idx rt1))) : gset string).
  assert (∀ id r, drop_module mid rows !! id = Some r → r_Scope r ∈ active) as Hact.
  { intros id r Hl. apply elem_of_list_to_set. by eapply row_scope_active. }
  eapply (runs_bind _ _ (λ rt2, ∃ spr p, parents_ok spr ∧ rt2 = set_idx (set_parentRoles p idx) (set_proto (set_ScopeParentRoles spr (rt_proto rt)) rt1) ∧
    (current rt → ancestors_of spr p))).
  - case_decide.
    + rret. exists (pt_ScopeParentRoles (rt_proto rt)), (parentRoles idx). split; [apply Hi|]. split; [|by rewrite Hpar].
      unfold rt1. destruct rt as [[]]; cbn. by rewrite set_parentRoles_same.
    + cbn [rt_proto rt_idx rt1 set_idx set_programCache]. set (spr := drop_parents _ _ _). unfold IndexParentRoles.
      destruct (compileParentRoleAncestors_runs spr) as (p & -> & Hanc). bsimp. rret. exists spr, p. split; [by apply drop_parents_ok, Hi|]. by split.
  - intros rt2 (spr & p & Hspr & -> & Hcur). rret. split; [|split; [done|exact Hlen]].
    split; cbn.
    + destruct Him as [? ? ? []]. split; [done..|by split].
    + intros id r [Hl _]%drop_module_lookup. by eapply (ti_fqn _ _ Hi).
    + intros id r [Hl Hne]%drop_module_lookup. rewrite lookup_delete_ne by done. by eapply (ti_meta _ _ Hi).
    + intros mid' m' [_ Hl]%lookup_delete_Some. by apply (ti_meta_key _ _ Hi).
    + intros id r Hl Hkind. apply elem_of_intersection. split; [|by eapply Hact]. apply drop_module_lookup in Hl as [Hl _]. by eapply (ti_principal _ _ Hi).
    + intros id r Hl Hkind. apply elem_of_intersection. split; [|by eapply Hact]. apply drop_module_lookup in Hl as [Hl _]. by eapply (ti_resource _ _ Hi).
    + intros id r [Hl _]%drop_module_lookup. by eapply (ti_kind _ _ Hi).
    + done.
    + apply Hi.
    + done.
Qed.
End table.
