(* ===== verification/ManagerSpec.v ===== *)
(** The manager's steps on the set of rule rows a table stands for: an update
    replaces the rows of the policy by those it now compiles to, a deletion
    removes exactly its rows, a failed reload changes nothing, and no sequence of
    events leads to a table [check] cannot use. *)
From S2P Require Import Prelude GoRuntime Bitmap Arena LazyDim Dimension GlobDim Namer Policy ScopePerms IndexCore IndexQuery IndexQuerySpec IndexLookup Index IndexSpec ParentRoles RuleTableBuild RuleTable Manager Eval Check CheckSpec TableSpec.

Local Open Scope string_scope.
Local Open Scope list_scope.
Open Scope nat_scope.

Section manager.
Context `{GlobEngine} `{CelRuntime} `{GoMapOrder} `{ContentHash} `{StringHash} `{DerivedRoleHash} `{SchemaManager}.
Context (known : RuleRow → Prop) (Hnc : no_collisions known) (policy_known : string → Prop) (Hfqn : fqns_distinct policy_known).
Abbreviation table_inv := (table_inv known policy_known).
Abbreviation deliverable := (deliverable known policy_known).

(** * Rows of several policies *)

Lemma extends_nil rows : extends rows rows [].
Proof. exists ∅. rewrite map_union_empty, map_to_list_empty. split_and!; [done|apply map_disjoint_empty_r|done]. Qed.

Lemma extends_trans rows rows1 rows2 l1 l2 : extends rows rows1 l1 → extends rows1 rows2 l2 → extends rows rows2 (l1 ++ l2).
Proof.
  intros (n1 & -> & D1 & P1) (n2 & -> & D2 & P2). apply map_disjoint_union_l in D2 as [D2 D3].
  exists (n1 ∪ n2). split_and!; [by rewrite map_union_assoc|by apply map_disjoint_union_r|].
  rewrite map_to_list_disjoint by done. by rewrite fmap_app, P1, P2.
Qed.

(** A policy set may be nil. *)
Definition opt_rows (rps : option RunnablePolicySet) : list RuleRow := match rps with Some rps => policy_rows rps | None => [] end.
Definition policies_rows (l : list (option RunnablePolicySet)) : list RuleRow := l ≫= opt_rows.

Lemma policies_rows_cons p l : policies_rows (p :: l) = opt_rows p ++ policies_rows l.
Proof. done. Qed.

(** What a sequence of additions leaves: the flag says whether all compiled. *)
Record added_rows (rt : RuleTable) (rows : gmap N RuleRow) (l : list RuleRow) (rt' : RuleTable) (ok : bool) : Prop := {
  ar_slots : slots rt' ≤ slots rt + length l;
  ar_rows : ∃ added rows', extends rows rows' added ∧ table_inv rt' rows' ∧
    if ok then added = l ∧ (current rt → current rt') else ∃ r rest, l = added ++ r :: rest ∧ ¬ row_compiles r;
}.

Lemma added_rows_nil rt rows : table_inv rt rows → added_rows rt rows [] rt true.
Proof. intros Hi. split; [lia|]. exists [], rows. split_and!; [apply extends_nil|done..]. Qed.

Lemma added_rows_cons rt rows l1 rt1 rows1 rt2 ok l2 :
  slots rt1 ≤ slots rt + length l1 → extends rows rows1 l1 → current rt1 →
  added_rows rt1 rows1 l2 rt2 ok → added_rows rt rows (l1 ++ l2) rt2 ok.
Proof.
  intros Hl He Hcur [Hs (added2 & rows2 & He2 & Hi2 & Hok)].
  split; [rewrite length_app; lia|]. exists (l1 ++ added2), rows2. split_and!; [by eapply extends_trans|done|].
  destruct ok; [destruct Hok as [-> ?]; auto|]. destruct Hok as (r & rest & -> & Hn). exists r, rest. by rewrite <-app_assoc.
Qed.

Lemma added_rows_stop rt rows l1 rt1 l2 : ingested known policy_known rt rows l1 rt1 false → added_rows rt rows (l1 ++ l2) rt1 false.
Proof.
  intros (Hl & added & rows1 & He & Hi & r & rest & -> & Hn). split; [rewrite length_app; lia|].
  exists added, rows1. split_and!; [done..|]. exists r, (rest ++ l2). split; [|done]. by rewrite <-app_assoc.
Qed.

(** * Updating one policy *)

Definition drop_old (evt : Event) (rows : gmap N RuleRow) : gmap N RuleRow :=
  let rows := drop_module (ev_PolicyID evt) rows in
  match ev_OldPolicyID evt with Some id => drop_module id rows | None => rows end.


Definition addOrUpdate_post (ld : PolicyLoader) (evt : Event) (rt : RuleTable) (rows : gmap N RuleRow) (rt' : RuleTable)
    (e : option ManagerError) : Prop :=
  match e with
  | Some LoaderFailed => GetFirstMatch ld [ev_PolicyID evt] = None ∧ rt' = rt
  | Some (Rejected c) => (∃ rps, GetFirstMatch ld [ev_PolicyID evt] = Some rps ∧ checkPolicy rt rps (ev_OldPolicyID evt) = Some c) ∧ rt' = rt
  | Some AddFailed => ∃ rps rt0, GetFirstMatch ld [ev_PolicyID evt] = Some rps ∧ slots rt0 = slots rt ∧
      added_rows rt0 (drop_old evt rows) (opt_rows rps) rt' false
  | Some (ReloadFailed _) => False
  | None => ∃ rps rt0, GetFirstMatch ld [ev_PolicyID evt] = Some rps ∧ checkPolicy rt rps (ev_OldPolicyID evt) = None ∧
      slots rt0 = slots rt ∧ (current rt → current rt0) ∧ added_rows rt0 (drop_old evt rows) (opt_rows rps) rt' true
  end.

Lemma drop_old_runs rt rows evt :
  table_inv rt rows →
  runs (rt ← doDeletePolicy rt (ev_PolicyID evt); match ev_OldPolicyID evt with Some id => doDeletePolicy rt id | None => Some rt end)
    (λ rt', table_inv rt' (drop_old evt rows) ∧ (current rt → current rt') ∧ slots rt' = slots rt).
Proof using Hfqn.
  intros Hi. eapply runs_bind; [by apply (doDeletePolicy_runs known _ Hfqn)|]. intros rt1 (Hi1 & Hc1 & Hs1). unfold drop_old.
  destruct (ev_OldPolicyID evt); [|rret; auto]. eapply runs_mono; [by apply (doDeletePolicy_runs known _ Hfqn)|].
  intros rt2 (Hi2 & Hc2 & Hs2). split_and!; [done|auto|congruence].
Qed.

Lemma ingest_runs rt rows rps :
  table_inv rt rows → (∀ p, rps = Some p → deliverable p) → room rt (length (opt_rows rps)) →
  runs (ingestPolicy rt rps) (λ '(rt', ok), added_rows rt rows (opt_rows rps) rt' ok).
Proof using Hnc Hfqn.
  intros Hi Hd Hroom. destruct rps as [p|]; [|rret; by apply added_rows_nil]. cbn [opt_rows] in *.
  eapply runs_mono; [apply (ingestPolicy_runs known Hnc policy_known Hfqn rt rows); auto|]. intros [rt' ok] Hin. rewrite <-(app_nil_r (policy_rows p)).
  destruct ok; [|by apply added_rows_stop]. destruct Hin as (Hs & added & rows1 & He & Hi1 & -> & _ & Hcur).
  eapply added_rows_cons; [done..|]. by apply added_rows_nil.
Qed.

Definition first_rows (ld : PolicyLoader) (evt : Event) : list RuleRow :=
  match GetFirstMatch ld [ev_PolicyID evt] with Some rps => opt_rows rps | None => [] end.

Record loader_ok (ld : PolicyLoader) : Prop := {
  lo_first : ∀ ids p, GetFirstMatch ld ids = Some (Some p) → deliverable p;
  lo_matching : ∀ ids l p, GetAllMatching ld ids = Some l → Some p ∈ l → deliverable p;
  lo_all : ∀ l p, LoadAll ld = Some l → inl (Some p) ∈ l → deliverable p;
}.

Context (ld : PolicyLoader) (Hld : loader_ok ld).

Lemma addOrUpdate_runs rt rows evt :
  table_inv rt rows → room rt (length (first_rows ld evt)) →
  runs (addOrUpdate ld rt evt) (λ '(rt', e), addOrUpdate_post ld evt rt rows rt' e).
Proof using Hnc Hfqn Hld.
  intros Hi Hroom. unfold addOrUpdate, first_rows in *. destruct (GetFirstMatch ld [ev_PolicyID evt]) as [rps|] eqn:Ef; [|by rret].
  destruct (checkPolicy rt rps (ev_OldPolicyID evt)) as [c|] eqn:Ec; [rret; split; eauto|].
  destruct (drop_old_runs rt rows evt Hi) as (rt0 & E & Hi0 & Hc0 & Hs0).
  destruct (doDeletePolicy rt (ev_PolicyID evt)) as [rt1|]; [|done].
  rewrite bind_some in E. rewrite bind_some, E, bind_some.
  eapply runs_bind; [apply (ingest_runs rt0 (drop_old evt rows) rps Hi0)|].
  - intros p ->. by eapply (lo_first _ Hld).
  - unfold room in *. by rewrite Hs0.
  - intros [rt' [|]] Hadd; rret; exists rps, rt0; auto.
Qed.

(** * Dependents *)

Lemma doDeletePolicies_runs deps rt rows :
  table_inv rt rows →
  runs (foldM doDeletePolicy rt deps) (λ rt', table_inv rt' (foldl (λ rows id, drop_module id rows) rows deps) ∧
    (current rt → current rt') ∧ slots rt' = slots rt).
Proof using Hfqn.
  revert rt rows. induction deps as [|id deps IH]; intros rt rows Hi; cbn [foldM foldl]; [rret; auto|].
  eapply runs_bind; [by apply (doDeletePolicy_runs known _ Hfqn)|]. intros rt1 (Hi1 & Hc1 & Hs1).
  eapply runs_mono; [by apply IH|]. intros rt2 (Hi2 & Hc2 & Hs2). split_and!; [done|auto|congruence].
Qed.

Lemma readd_failed l rt e : foldM readd (rt, Some e) l = Some (rt, Some e).
Proof. induction l as [|p l IH]; [done|]. cbn [foldM readd]. by rewrite bind_some. Qed.

Lemma readd_runs l rt rows :
  table_inv rt rows → (∀ p, Some p ∈ l → deliverable p) → room rt (length (policies_rows l)) →
  runs (foldM readd (rt, None) l) (λ '(rt', e), (e = None ∨ e = Some AddFailed) ∧ added_rows rt rows (policies_rows l) rt' (bool_decide (e = None))).
Proof using Hnc Hfqn.
  revert rt rows. induction l as [|p l IH]; intros rt rows Hi Hd Hroom; cbn [foldM].
  { rret. split; [by left|]. by apply added_rows_nil. }
  rewrite policies_rows_cons in *. unfold room in Hroom. rewrite length_app in Hroom. cbn [readd]. unfold addPolicy.
  destruct p as [p|]; cbn [opt_rows] in *.
  2: { cbn [ingestPolicy]. rewrite !bind_some. apply (IH rt rows Hi); [intros q Hq; apply Hd; by right|done]. }
  destruct (ingestPolicy_runs known Hnc policy_known Hfqn rt rows p Hi (Hd p ltac:(left))) as ([rt1 ok] & E & Hin); [unfold room; lia|].
  rewrite E, !bind_some. destruct ok.
  - destruct Hin as (Hs & added & rows1 & He & Hi1 & -> & _ & Hcur). eapply runs_mono; [apply (IH rt1 rows1 Hi1)|].
    + intros q Hq. apply Hd. by right.
    + unfold room. lia.
    + intros [rt2 e] [He' Hadd]. split; [done|]. by eapply added_rows_cons.
  - rewrite readd_failed. rret. split; [by right|]. by apply added_rows_stop.
Qed.

Definition drop_all (deps : list ModuleID) (rows : gmap N RuleRow) : gmap N RuleRow := foldl (λ rows id, drop_module id rows) rows deps.

Definition reload_post (deps : list ModuleID) (rt : RuleTable) (rows : gmap N RuleRow) (rt' : RuleTable) (e : option ManagerError) : Prop :=
  match deps, e with
  | [], _ => e = None ∧ rt' = rt
  | _, Some LoaderFailed => GetAllMatching ld deps = None ∧ rt' = rt
  | _, Some AddFailed => ∃ l rt0, GetAllMatching ld deps = Some l ∧ slots rt0 = slots rt ∧
      added_rows rt0 (drop_all deps rows) (policies_rows l) rt' false
  | _, None => ∃ l rt0, GetAllMatching ld deps = Some l ∧ slots rt0 = slots rt ∧ (current rt → current rt0) ∧
      added_rows rt0 (drop_all deps rows) (policies_rows l) rt' true
  | _, _ => False
  end.

Definition dependent_rows (deps : list ModuleID) : list RuleRow :=
  match GetAllMatching ld deps with Some l => policies_rows l | None => [] end.

Lemma reloadDependents_runs rt rows deps :
  table_inv rt rows → room rt (length (dependent_rows deps)) →
  runs (reloadDependents ld rt deps) (λ '(rt', e), reload_post deps rt rows rt' e).
Proof using Hnc Hfqn Hld.
  intros Hi Hroom. unfold reloadDependents, dependent_rows in *. destruct deps as [|d deps]; [by rret|].
  destruct (GetAllMatching ld (d :: deps)) as [l|] eqn:El; [|by rret].
  eapply runs_bind; [by apply (doDeletePolicies_runs (d :: deps))|]. intros rt0 (Hi0 & Hc0 & Hs0).
  eapply runs_mono; [apply (readd_runs l rt0 _ Hi0)|].
  - intros p Hp. by eapply (lo_matching _ Hld).
  - unfold room in *. by rewrite Hs0.
  - intros [rt' e] [[->| ->] Hadd]; exists l, rt0; split_and!; done.
Qed.

(** * Events *)

(** Everything an event can leave behind. *)
Definition sane (rt rt' : RuleTable) (n : nat) : Prop := (∃ rows, table_inv rt' rows) ∧ slots rt' ≤ slots rt + n.

Lemma sane_refl rt rows n : table_inv rt rows → sane rt rt n.
Proof. intros Hi. split; [by exists rows|lia]. Qed.

Lemma added_rows_sane rt0 rt rows l rt' ok : added_rows rt0 rows l rt' ok → slots rt0 = slots rt → sane rt rt' (length l).
Proof. intros [Hs (added & rows' & _ & Hi & _)] E. split; [by exists rows'|lia]. Qed.

Lemma addOrUpdate_sane rt rows evt rt' e :
  table_inv rt rows → addOrUpdate_post ld evt rt rows rt' e → sane rt rt' (length (first_rows ld evt)).
Proof.
  intros Hi Hp. unfold first_rows. destruct e as [[]|]; cbn in Hp.
  - destruct Hp as [_ ->]. by eapply sane_refl.
  - destruct Hp as [_ ->]. by eapply sane_refl.
  - destruct Hp as (rps & rt0 & -> & Hs & Ha). by eapply added_rows_sane.
  - done.
  - destruct Hp as (rps & rt0 & -> & _ & Hs & _ & Ha). by eapply added_rows_sane.
Qed.

Lemma reload_sane rt rows deps rt' e :
  table_inv rt rows → reload_post deps rt rows rt' e → sane rt rt' (length (dependent_rows deps)).
Proof.
  intros Hi Hp. unfold dependent_rows. destruct deps; cbn in Hp; [destruct Hp as [_ ->]; by eapply sane_refl|].
  destruct e as [[]|]; try done.
  - destruct Hp as [_ ->]. by eapply sane_refl.
  - destruct Hp as (l & rt0 & -> & Hs & Ha). by eapply added_rows_sane.
  - destruct Hp as (l & rt0 & -> & Hs & _ & Ha). by eapply added_rows_sane.
Qed.

(** The state of the table after the first step of a policy event. *)
Definition event_post (evt : Event) (rt : RuleTable) (rows : gmap N RuleRow) (rt' : RuleTable) (e : option ManagerError) : Prop :=
  match ev_Kind evt with
  | EventAddOrUpdatePolicy => addOrUpdate_post ld evt rt rows rt' e
  | EventDeleteOrDisablePolicy => e = None ∧ slots rt' = slots rt ∧ table_inv rt' (drop_module (ev_PolicyID evt) rows) ∧ (current rt → current rt')
  | _ => e = None ∧ rt' = rt
  end.

(** The rows of everything a loader yields. *)
Definition all_rows (all : list (option RunnablePolicySet + unit)) : list RuleRow :=
  all ≫= λ x, match x with inl rps => opt_rows rps | inr _ => [] end.

(** How many rows an event may add. *)
Definition event_load (evt : Event) : nat :=
  match ev_Kind evt with
  | EventReload => match LoadAll ld with Some all => length (all_rows all) | None => 0 end
  | EventAddOrUpdatePolicy => length (first_rows ld evt) + length (dependent_rows (ev_Dependents evt))
  | EventDeleteOrDisablePolicy => length (dependent_rows (ev_Dependents evt))
  | EventOther => 0
  end.

Lemma processPolicyEvent_runs rt rows evt :
  table_inv rt rows → ev_Kind evt = EventAddOrUpdatePolicy ∨ ev_Kind evt = EventDeleteOrDisablePolicy → room rt (event_load evt) →
  runs (processPolicyEvent ld rt evt) (λ '(rt', e), sane rt rt' (event_load evt) ∧ ∃ rt1 rows1 e1, event_post evt rt rows rt1 e1 ∧ table_inv rt1 rows1 ∧
    match e1 with Some _ => rt' = rt1 ∧ e = e1 | None => reload_post (ev_Dependents evt) rt1 rows1 rt' e end).
Proof using Hnc Hfqn Hld.
  intros Hi Hk Hroom. unfold processPolicyEvent. unfold event_load in *.
  eapply (runs_bind _ _ (λ '(rt1, e1), event_post evt rt rows rt1 e1 ∧ sane rt rt1 (match ev_Kind evt with EventAddOrUpdatePolicy => length (first_rows ld evt) | _ => 0 end))).
  - unfold event_post. destruct Hk as [Ek|Ek]; rewrite Ek in *.
    + eapply runs_mono; [apply (addOrUpdate_runs rt rows); [done|unfold room in *; lia]|]. intros [rt1 e1] Hp. split; [done|by eapply addOrUpdate_sane].
    + eapply runs_bind; [by apply (doDeletePolicy_runs known _ Hfqn)|]. intros rt1 (Hi1 & Hc1 & Hs1). rret. split_and!; try done. by split; [eexists|lia].
  - intros [rt1 e1] [Hp [[rows1 Hi1] Hs1]]. destruct e1 as [e1|].
    + rret. split; [|by exists rt1, rows1, (Some e1)]. split; [by exists rows1|]. destruct Hk as [Ek|Ek]; rewrite Ek in *; lia.
    + eapply runs_mono; [apply (reloadDependents_runs rt1 rows1); [done|]|].
      * unfold room in *. destruct Hk as [Ek|Ek]; rewrite Ek in *; lia.
      * intros [rt' e] Hr. split; [|by exists rt1, rows1, None]. destruct (reload_sane _ _ _ _ _ Hi1 Hr) as [Hi2 Hs2]. split; [done|].
        destruct Hk as [Ek|Ek]; rewrite Ek in *; lia.
Qed.

(** * Reloading *)

Lemma ingestAll_runs all rt rows :
  table_inv rt rows → (∀ p, inl (Some p) ∈ all → deliverable p) → room rt (length (all_rows all)) →
  runs (ingestAll rt all) (λ r, match r with
    | inl rt' => added_rows rt rows (all_rows all) rt' true ∧ inr () ∉ all
    | inr LoadFailed => inr () ∈ all
    | inr CompileFailed => ∃ r, r ∈ all_rows all ∧ ¬ row_compiles r
    | inr (ScopePermissionConflicts _) => False
    end).
Proof using Hnc Hfqn.
  revert rt rows. induction all as [|[rps|[]] all IH]; intros rt rows Hi Hd Hroom; cbn [ingestAll].
  - rret. split; [by apply added_rows_nil|apply not_elem_of_nil].
  - change (all_rows (inl rps :: all)) with (opt_rows rps ++ all_rows all) in *. unfold room in Hroom. rewrite length_app in Hroom.
    eapply runs_bind; [apply (ingest_runs rt rows rps Hi); [intros p ->; apply Hd; left|unfold room; lia]|].
    intros [rt1 [|]] [Hs (added & rows1 & He & Hi1 & Hok)].
    + destruct Hok as [-> Hc]. eapply runs_mono; [apply (IH rt1 rows1 Hi1)|].
      * intros p Hp. apply Hd. by right.
      * unfold room. lia.
      * intros [rt2|[| |]]; [|by intros (r & Hr & ?); exists r; rewrite elem_of_app; auto|done|by intros ?; right].
        intros [[Hs2 (added2 & rows2 & He2 & Hi2 & -> & Hc2)] Hn]. split; [|by intros [|]%elem_of_cons].
        split; [rewrite length_app; lia|]. exists (opt_rows rps ++ all_rows all), rows2. split_and!; [by eapply extends_trans|done..|auto].
    + rret. destruct Hok as (r & rest & E & Hn). exists r. split; [|done]. rewrite E, !elem_of_app. left. right. left.
  - rret. left.
Qed.

Lemma finalizeBuild_runs rt rows :
  table_inv rt rows → runs (finalizeBuild rt) (λ rt', table_inv rt' rows ∧ (current rt → current rt') ∧ slots rt' = slots rt).
Proof.
  intros Hi. unfold finalizeBuild. eapply runs_bind; [apply (Index_Compact_runs known _ rows), Hi|].
  intros idx (Him & Hp & Hl). rret. split_and!; [|unfold current; cbn; by rewrite Hp|exact Hl].
  split; cbn; [done|apply Hi..].
Qed.

Definition rebuilt (all : list (option RunnablePolicySet + unit)) (rt : RuleTable) : Prop :=
  ∃ rows, extends ∅ rows (all_rows all) ∧ table_inv rt rows ∧ current rt ∧ slots rt ≤ length (all_rows all).

Lemma newRuleTable_runs all pool :
  (∀ bm, bm ∈ pool → cleared bm) → (∀ p, inl (Some p) ∈ all → deliverable p) → (N.of_nat (length (all_rows all)) < 2 ^ 32)%N →
  runs (newRuleTableFromIterableLoader all pool) (λ r, match r with
    | inl rt => rebuilt all rt ∧ inr () ∉ all
    | inr LoadFailed => inr () ∈ all
    | inr CompileFailed => ∃ r, r ∈ all_rows all ∧ ¬ row_compiles r
    | inr (ScopePermissionConflicts c) => c ≠ []
    end).
Proof using Hnc Hfqn.
  intros Hp Hd Hroom. unfold newRuleTableFromIterableLoader.
  destruct (emptyRuleTable_inv known policy_known pool Hp) as [Hi Hc]. set (rt0 := initBuildState _) in *.
  eapply runs_bind; [by apply (ingestAll_runs all rt0 ∅ Hi Hd)|].
  intros [rt|[]]; [|by intros ?; rret..]. intros [[Hs (added & rows & He & Hi' & -> & Hc')] Hn].
  destruct (Tracker_Err (rt_scopePermsTracker rt)) as [c|] eqn:Et.
  { rret. unfold Tracker_Err in Et. intros ->. by destruct (Tracker_Conflicts _). }
  eapply runs_bind; [by apply finalizeBuild_runs|]. intros rt' (Hi2 & Hc2 & Hs2). rret. split; [|done]. exists rows. split_and!; [done..|auto|].
  rewrite Hs2. exact Hs.
Qed.

Lemma reload_runs m rows :
  table_inv (mgr_RuleTable m) rows → (∀ all, LoadAll ld = Some all → (N.of_nat (length (all_rows all)) < 2 ^ 32)%N) →
  runs (reload ld m) (λ m', match lastReloadErr m' with
    | Some e => mgr_RuleTable m' = mgr_RuleTable m ∧ ∃ b, e = ReloadFailed b
    | None => ∃ all, LoadAll ld = Some all ∧ rebuilt all (mgr_RuleTable m') ∧ inr () ∉ all
    end).
Proof using Hnc Hfqn Hld.
  intros Hi Hroom. unfold reload. destruct (LoadAll ld) as [all|] eqn:E; [|rret; split; [done|eauto]].
  eapply runs_bind; [apply (newRuleTable_runs all); [apply Hi|intros p Hp; by eapply (lo_all _ Hld)|auto]|].
  intros [rt|e] Hr; rret; [by exists all|]. cbn. eauto.
Qed.

(** * Histories *)

Lemma OnStorageEvent1_runs m rows evt :
  table_inv (mgr_RuleTable m) rows → room (mgr_RuleTable m) (event_load evt) →
  runs (OnStorageEvent1 ld m evt) (λ m', sane (mgr_RuleTable m) (mgr_RuleTable m') (event_load evt)).
Proof using Hnc Hfqn Hld.
  intros Hi Hroom. unfold OnStorageEvent1. destruct (ev_Kind evt) eqn:Ek.
  - eapply runs_mono; [apply (reload_runs m rows Hi)|].
    + intros all E. unfold room, event_load in Hroom. rewrite Ek, E in Hroom. lia.
    + intros m' Hm'. cbv beta in Hm'. unfold event_load. rewrite Ek. destruct (lastReloadErr m').
      * destruct Hm' as [-> _]. by eapply sane_refl.
      * destruct Hm' as (all & -> & (rows' & _ & Hi' & _ & Hs) & _). split; [by exists rows'|lia].
  - eapply runs_bind; [apply (processPolicyEvent_runs _ rows); auto|]. intros [rt' e] [Hs _]. by rret.
  - eapply runs_bind; [apply (processPolicyEvent_runs _ rows); auto|]. intros [rt' e] [Hs _]. by rret.
  - rret. by eapply sane_refl.
Qed.

Lemma OnStorageEvent_runs events m rows :
  table_inv (mgr_RuleTable m) rows → room (mgr_RuleTable m) (sum_list (event_load <$> events)) →
  runs (OnStorageEvent ld m events) (λ m', sane (mgr_RuleTable m) (mgr_RuleTable m') (sum_list (event_load <$> events))).
Proof using Hnc Hfqn Hld.
  unfold OnStorageEvent. revert m rows. induction events as [|evt events IH]; intros m rows Hi Hroom; cbn [foldM].
  { rret. by eapply sane_refl. }
  cbn in Hroom. unfold room in Hroom. eapply runs_bind; [apply (OnStorageEvent1_runs m rows evt Hi); unfold room; lia|].
  intros m1 [[rows1 Hi1] Hs1]. eapply runs_mono; [apply (IH m1 rows1 Hi1); unfold room; lia|].
  intros m2 [Hi2 Hs2]. split; [done|]. cbn. lia.
Qed.
End manager.
