(* ===== verification/Serving.v ===== *)
(** Serving requests while the table is updated: the critical sections of
    [src/internal/ruletable/manager.go].

    Events are handled one after the other, by one goroutine, but an event is
    handled in several critical sections: the policy is checked, deleted and added
    under separate acquisitions of the manager's lock, and so is every dependent;
    a reload builds the new table outside the lock.  Checks hold the read lock for
    as long as they run, so they fall between two sections.  The step relation
    below has one step for every section and every check. *)
From S2P Require Import Prelude GoRuntime Bitmap Arena LazyDim Dimension GlobDim Namer Policy ScopePerms IndexCore IndexQuery IndexQuerySpec IndexLookup Index IndexSpec RuleTableBuild RuleTable Manager Eval Check CheckSpec TableSpec ManagerSpec.

Local Open Scope list_scope.
Open Scope nat_scope.

Section serving.
Context `{GlobEngine} `{CelRuntime} `{GoMapOrder} `{ContentHash} `{StringHash} `{DerivedRoleHash} `{SchemaManager}.

(** * Sections *)

(** What the handler of an event does next: [T_check] to [T_add] and [T_install]
    hold the lock; dependents are loaded and tables built without it. *)
Inductive task :=
  | T_check (rps : option RunnablePolicySet) (oldPolicyID : option ModuleID)
  | T_delete (moduleID : ModuleID)
  | T_add (rps : option RunnablePolicySet)
  | T_dependents (deps : list ModuleID)
  | T_build (all : list (option RunnablePolicySet + unit))
  | T_install (r : RuleTable + option BuildError).

Definition delete_old (old : option ModuleID) : list task := match old with Some id => [T_delete id] | None => [] end.

(** The tasks of an event, from what the loader gives for its policy. *)
Definition event_tasks (ld : PolicyLoader) (evt : Event) : list task :=
  match ev_Kind evt with
  | EventReload => match LoadAll ld with None => [T_install (inr None)] | Some all => [T_build all] end
  | EventAddOrUpdatePolicy =>
      match GetFirstMatch ld [ev_PolicyID evt] with
      | None => []
      | Some rps =>
          T_check rps (ev_OldPolicyID evt) :: T_delete (ev_PolicyID evt) :: delete_old (ev_OldPolicyID evt) ++
          [T_add rps; T_dependents (ev_Dependents evt)]
      end
  | EventDeleteOrDisablePolicy => [T_delete (ev_PolicyID evt); T_dependents (ev_Dependents evt)]
  | EventOther => []
  end.

(** One task, before the tasks [rest]: an error drops them. *)
Definition run_task (ld : PolicyLoader) (t : task) (rest : list task) (m : Manager) : option (Manager * list task) :=
  let rt := mgr_RuleTable m in
  match t with
  | T_check rps old => Some (m, match checkPolicy rt rps old with Some _ => [] | None => rest end)
  | T_delete id => rt ← doDeletePolicy rt id; Some (set_table rt m, rest)
  | T_add rps => '(rt, ok) ← addPolicy rt rps; Some (set_table rt m, if (ok : bool) then rest else [])
  | T_dependents [] => Some (m, rest)
  | T_dependents deps =>
      Some (m, match GetAllMatching ld deps with None => [] | Some toReload => (T_delete <$> deps) ++ (T_add <$> toReload) ++ rest end)
  | T_build all =>
      r ← newRuleTableFromIterableLoader all (rt_pool rt);
      Some (m, T_install (match r with inl rt => inl rt | inr e => inr (Some e) end) :: rest)
  | T_install (inl rt) => Some (MkManager rt None, rest)
  | T_install (inr e) => Some (MkManager rt (Some (ReloadFailed e)), rest)
  end.

(** * The system *)

(** The queue holds the events still to come. *)
Record system := MkSystem { sys_mgr : Manager; sys_tasks : list task; sys_queue : list Event }.

(** A step of the handler: it takes the next event, or runs the next task. *)
Inductive handler_step (ld : PolicyLoader) : system → system → Prop :=
  | step_deliver m evt q : handler_step ld (MkSystem m [] (evt :: q)) (MkSystem m (event_tasks ld evt) q)
  | step_task m t ts q m' ts' : run_task ld t ts m = Some (m', ts') → handler_step ld (MkSystem m (t :: ts) q) (MkSystem m' ts' q).
(** A check, which may fill caches. *)
Inductive check_step : system → system → Prop :=
  | step_check m ts q ep input r rt : checkWithAuditTrail (mgr_RuleTable m) ep input = Some (r, rt) →
      check_step (MkSystem m ts q) (MkSystem (set_table rt m) ts q).
Definition step (ld : PolicyLoader) (s s' : system) : Prop := handler_step ld s s' ∨ check_step s s'.

(** ** Without checks in between, the sections are the sequential handler *)

(** The handler of one event alone. *)
Inductive handled (ld : PolicyLoader) : Manager → list task → Manager → Prop :=
  | handled_done m : handled ld m [] m
  | handled_task m t ts m1 ts1 m2 : run_task ld t ts m = Some (m1, ts1) → handled ld m1 ts1 m2 → handled ld m (t :: ts) m2.

Lemma handled_steps ld m ts m' q : handled ld m ts m' → rtc (step ld) (MkSystem m ts q) (MkSystem m' [] q).
Proof. induction 1; [done|]. eapply rtc_l; [left; by eapply step_task|done]. Qed.

Lemma set_table_set rt rt' m : set_table rt (set_table rt' m) = set_table rt m.
Proof. done. Qed.
Lemma set_table_self m : set_table (mgr_RuleTable m) m = m.
Proof. by destruct m. Qed.

Lemma deletes_handled ld ids m rest m' rt :
  foldM doDeletePolicy (mgr_RuleTable m) ids = Some rt → handled ld (set_table rt m) rest m' → handled ld m ((T_delete <$> ids) ++ rest) m'.
Proof.
  revert m. induction ids as [|id ids IH]; intros m; cbn [foldM fmap list_fmap app].
  - intros [= <-]. by rewrite set_table_self.
  - destruct (doDeletePolicy (mgr_RuleTable m) id) as [rt1|] eqn:E; [|done]. rewrite bind_some. intros Ef Hh.
    eapply handled_task; [cbn; rewrite E; done|]. by apply IH.
Qed.

Lemma readds_handled ld l m rt e :
  foldM readd (mgr_RuleTable m, None) l = Some (rt, e) → handled ld m (T_add <$> l) (set_table rt m).
Proof.
  revert m. induction l as [|p l IH]; intros m; cbn [foldM fmap list_fmap].
  - intros [= <- <-]. rewrite set_table_self. constructor.
  - cbn [readd]. destruct (addPolicy (mgr_RuleTable m) p) as [[rt1 ok]|] eqn:E; [|done]. rewrite !bind_some. intros Ef.
    eapply handled_task; [cbn; rewrite E; done|]. destruct ok; [by apply (IH (set_table rt1 m))|].
    rewrite readd_failed in Ef. injection Ef as <- <-. constructor.
Qed.

Lemma dependents_handled ld deps m rt e :
  reloadDependents ld (mgr_RuleTable m) deps = Some (rt, e) → handled ld m [T_dependents deps] (set_table rt m).
Proof.
  unfold reloadDependents. destruct deps as [|d deps].
  { intros [= <- <-]. rewrite set_table_self. eapply handled_task; [done|]. constructor. }
  destruct (GetAllMatching ld (d :: deps)) as [l|] eqn:El.
  - intros E. eapply handled_task; [cbn [run_task]; by rewrite El|]. rewrite app_nil_r.
    destruct (foldM doDeletePolicy (mgr_RuleTable m) (d :: deps)) as [rt1|] eqn:Ed; [|done]. rewrite bind_some in E.
    eapply deletes_handled; [done|]. rewrite <-(set_table_set rt rt1 m). by eapply readds_handled.
  - intros [= <- <-]. rewrite set_table_self. eapply handled_task; [cbn [run_task]; by rewrite El|]. constructor.
Qed.

(** The sections of an event do together what the handler of [Manager] does. *)
Lemma event_handled ld m evt m' : OnStorageEvent1 ld m evt = Some m' → handled ld m (event_tasks ld evt) m'.
Proof.
  unfold OnStorageEvent1, event_tasks, processPolicyEvent. destruct (ev_Kind evt).
  - unfold reload. destruct (LoadAll ld) as [all|].
    + destruct (newRuleTableFromIterableLoader all _) as [r|] eqn:E; [|done]. rewrite bind_some. intros [= <-].
      eapply handled_task; [cbn; rewrite E; done|]. destruct r; (eapply handled_task; [done|]; constructor).
    + intros [= <-]. eapply handled_task; [done|]. constructor.
  - unfold addOrUpdate. destruct (GetFirstMatch ld _) as [rps|]; [|rewrite !bind_some; intros [= <-]; rewrite set_table_self; constructor].
    destruct (checkPolicy _ rps _) eqn:Ec; [rewrite !bind_some; intros [= <-]; rewrite set_table_self; eapply handled_task; [cbn; by rewrite Ec|]; constructor|].
    intros E. eapply handled_task; [cbn; by rewrite Ec|].
    destruct (doDeletePolicy (mgr_RuleTable m) (ev_PolicyID evt)) as [rt1|] eqn:E1; [|done]. rewrite bind_some in E.
    eapply handled_task; [cbn; by rewrite E1|].
    destruct (match ev_OldPolicyID evt with Some id => doDeletePolicy rt1 id | None => Some rt1 end) as [rt2|] eqn:E2; [|done]. rewrite bind_some in E.
    assert (∀ rest m2, handled ld (set_table rt2 m) rest m2 → handled ld (set_table rt1 m) (delete_old (ev_OldPolicyID evt) ++ rest) m2) as Hold.
    { intros rest m2 Hh. destruct (ev_OldPolicyID evt) as [id|]; [|by injection E2 as ->]. eapply handled_task; [cbn; by rewrite E2|]. done. }
    apply Hold. destruct (addPolicy rt2 rps) as [[rt3 ok]|] eqn:E3; [|done]. rewrite bind_some in E.
    eapply handled_task; [cbn; by rewrite E3|]. destruct ok.
    + rewrite bind_some in E. destruct (reloadDependents ld rt3 (ev_Dependents evt)) as [[rt4 e]|] eqn:E4; [|done]. injection E as <-.
      rewrite <-(set_table_set rt4 rt3 m). by eapply dependents_handled.
    + injection E as <-. constructor.
  - destruct (doDeletePolicy (mgr_RuleTable m) (ev_PolicyID evt)) as [rt1|] eqn:E1; [|done]. rewrite !bind_some.
    destruct (reloadDependents ld rt1 (ev_Dependents evt)) as [[rt4 e]|] eqn:E4; [|done]. intros [= <-].
    eapply handled_task; [cbn; by rewrite E1|]. rewrite <-(set_table_set rt4 rt1 m). by eapply dependents_handled.
  - intros [= <-]. constructor.
Qed.

(** Half way through an update, the policy is deleted and not added again. *)
Definition update_window (ld : PolicyLoader) (m : Manager) (evt : Event) (q : list Event) (rps : option RunnablePolicySet) (rt : RuleTable) : system :=
  MkSystem (set_table rt m) (delete_old (ev_OldPolicyID evt) ++ [T_add rps; T_dependents (ev_Dependents evt)]) q.
Lemma update_window_reached ld m evt q rps rt :
  ev_Kind evt = EventAddOrUpdatePolicy → GetFirstMatch ld [ev_PolicyID evt] = Some rps →
  checkPolicy (mgr_RuleTable m) rps (ev_OldPolicyID evt) = None → doDeletePolicy (mgr_RuleTable m) (ev_PolicyID evt) = Some rt →
  rtc (step ld) (MkSystem m [] (evt :: q)) (update_window ld m evt q rps rt).
Proof.
  intros Ek Ef Ec Ed. eapply rtc_l; [left; apply step_deliver|]. unfold event_tasks. rewrite Ek, Ef.
  eapply rtc_l; [left; apply step_task; cbn; by rewrite Ec|]. apply rtc_once. left. apply step_task. cbn. by rewrite Ed.
Qed.

(** * What checks can see *)

(** The same steps on the rule rows the table stands for. *)
Record rows_system := MkRows { rs_rows : gmap N RuleRow; rs_tasks : list task; rs_queue : list Event }.

Inductive rows_step (ld : PolicyLoader) : rows_system → rows_system → Prop :=
  | rows_deliver rows evt q : rows_step ld (MkRows rows [] (evt :: q)) (MkRows rows (event_tasks ld evt) q)
  | rows_check rows rps old ts q : rows_step ld (MkRows rows (T_check rps old :: ts) q) (MkRows rows ts q)
  | rows_reject rows rps old ts q : rows_step ld (MkRows rows (T_check rps old :: ts) q) (MkRows rows [] q)
  | rows_delete rows id ts q : rows_step ld (MkRows rows (T_delete id :: ts) q) (MkRows (drop_module id rows) ts q)
  | rows_add rows rows' rps ts q : extends rows rows' (opt_rows rps) → rows_step ld (MkRows rows (T_add rps :: ts) q) (MkRows rows' ts q)
  | rows_add_some rows rows' rps added r rest ts q : opt_rows rps = added ++ r :: rest → ¬ row_compiles r → extends rows rows' added →
      rows_step ld (MkRows rows (T_add rps :: ts) q) (MkRows rows' [] q)
  | rows_dependents rows deps l ts q : GetAllMatching ld deps = Some l →
      rows_step ld (MkRows rows (T_dependents deps :: ts) q) (MkRows rows ((T_delete <$> deps) ++ (T_add <$> l) ++ ts) q)
  | rows_no_dependents rows deps ts ts' q : deps = [] ∧ ts' = ts ∨ GetAllMatching ld deps = None ∧ ts' = [] →
      rows_step ld (MkRows rows (T_dependents deps :: ts) q) (MkRows rows ts' q)
  | rows_build rows all r ts q : rows_step ld (MkRows rows (T_build all :: ts) q) (MkRows rows (T_install r :: ts) q)
  | rows_install rows rows' all rt ts q : LoadAll ld = Some all → (inr () ∉ all) → extends ∅ rows' (all_rows all) →
      rows_step ld (MkRows rows (T_install (inl rt) :: ts) q) (MkRows rows' ts q)
  | rows_keep rows e ts q : rows_step ld (MkRows rows (T_install (inr e) :: ts) q) (MkRows rows ts q).

Context (known : RuleRow → Prop) (Hnc : no_collisions known) (policy_known : string → Prop) (Hfqn : fqns_distinct policy_known).
Abbreviation table_inv := (table_inv known policy_known).
Abbreviation deliverable := (deliverable known policy_known).
Abbreviation rebuilt := (rebuilt known policy_known).

Section steps.
Context (ld : PolicyLoader) (Hld : loader_ok known policy_known ld).

(** Rows a task may add. *)
Definition task_load (t : task) : nat :=
  match t with
  | T_add rps => length (opt_rows rps)
  | T_dependents deps => length (dependent_rows ld deps)
  | T_build all => length (all_rows all)
  | T_install (inl rt) => slots rt
  | _ => 0
  end.
Definition task_ok (t : task) : Prop :=
  match t with
  | T_add rps => ∀ p, rps = Some p → deliverable p
  | T_build all => LoadAll ld = Some all
  | T_install (inl rt) => ∃ all, LoadAll ld = Some all ∧ (inr () ∉ all) ∧ rebuilt all rt
  | _ => True
  end.

Definition load (s : system) : nat :=
  slots (mgr_RuleTable (sys_mgr s)) + sum_list (task_load <$> sys_tasks s) + sum_list (event_load ld <$> sys_queue s).

Record serves (s : system) (rows : gmap N RuleRow) : Prop := {
  sv_table : table_inv (mgr_RuleTable (sys_mgr s)) rows;
  sv_tasks : Forall task_ok (sys_tasks s);
  sv_load : (N.of_nat (load s) < 2 ^ 32)%N;
}.

Definition rows_of (s : system) (rows : gmap N RuleRow) : rows_system := MkRows rows (sys_tasks s) (sys_queue s).

Lemma sum_list_app (l k : list nat) : sum_list (l ++ k) = sum_list l + sum_list k.
Proof. induction l as [|x l IH]; [done|]. cbn. lia. Qed.

Lemma deletes_load deps : sum_list (task_load <$> (T_delete <$> deps)) = 0.
Proof. by induction deps. Qed.
Lemma adds_load l : sum_list (task_load <$> (T_add <$> l)) = length (policies_rows l).
Proof. induction l as [|p l IH]; [done|]. rewrite policies_rows_cons, length_app, <-IH. done. Qed.

Lemma event_tasks_load evt : sum_list (task_load <$> event_tasks ld evt) ≤ event_load ld evt.
Proof.
  unfold event_tasks, event_load, first_rows. destruct (ev_Kind evt); [by destruct (LoadAll ld); cbn; lia| |cbn; lia|done].
  destruct (GetFirstMatch ld _) as [rps|]; [|cbn; lia]. cbn. rewrite fmap_app, sum_list_app. destruct (ev_OldPolicyID evt); cbn; lia.
Qed.
Lemma event_tasks_ok evt : Forall task_ok (event_tasks ld evt).
Proof using Hld.
  unfold event_tasks. destruct (ev_Kind evt).
  - destruct (LoadAll ld) as [all|] eqn:E; repeat constructor. done.
  - destruct (GetFirstMatch ld _) as [rps|] eqn:E; [|constructor]. do 2 (apply Forall_cons; split; [done|]). apply Forall_app. split.
    + destruct (ev_OldPolicyID evt); repeat constructor.
    + apply Forall_cons. split; [intros q ->; by eapply (lo_first _ _ _ Hld)|]. by apply Forall_singleton.
  - repeat constructor.
  - constructor.
Qed.

(** Every task can run, and its effect on the rows is the abstract step. *)
Lemma task_runs m t ts q rows :
  serves (MkSystem m (t :: ts) q) rows →
  ∃ m' ts', run_task ld t ts m = Some (m', ts') ∧ ∃ rows', serves (MkSystem m' ts' q) rows' ∧
    rows_step ld (MkRows rows (t :: ts) q) (MkRows rows' ts' q).
Proof using Hnc Hfqn Hld.
  intros [Hi Hts Hl]. cbn in Hi. apply Forall_cons in Hts as [Ht Hts]. unfold load in Hl. cbn in Hl. destruct t as [rps old|id|rps|deps|all|[rt|e]]; cbn [run_task].
  - destruct (checkPolicy _ rps old); do 2 eexists; (split; [done|]); exists rows; (split; [split; [done..|unfold load; cbn; lia]|constructor]).
  - destruct (doDeletePolicy_runs known _ Hfqn _ rows id Hi) as (rt & E & Hi' & _ & Hs). rewrite E, bind_some. do 2 eexists. split; [done|].
    exists (drop_module id rows). split; [|constructor]. split; [done..|]. unfold load. cbn. lia.
  - destruct (ingest_runs known Hnc policy_known Hfqn (mgr_RuleTable m) rows rps Hi) as ([rt ok] & E & [Hs (added & rows' & He & Hi' & Hok)]); [exact Ht|unfold room; cbn in *; lia|].
    unfold addPolicy. rewrite E, bind_some. do 2 eexists. split; [done|]. exists rows'. destruct ok.
    + destruct Hok as [-> _]. split; [|by constructor]. split; [done..|]. unfold load. cbn in *. lia.
    + destruct Hok as (r & rest & Eo & Hn). split; [|by eapply rows_add_some]. split; [done|constructor|]. unfold load. cbn.
      assert (length added ≤ length (opt_rows rps)) by (rewrite Eo, length_app; lia). cbn in *. lia.
  - destruct deps as [|d deps].
    + do 2 eexists. split; [done|]. exists rows. split; [split; [done..|unfold load; cbn in *; lia]|]. apply rows_no_dependents. by left.
    + cbn [task_load] in Hl. unfold dependent_rows in Hl. destruct (GetAllMatching ld (d :: deps)) as [l|] eqn:El; do 2 eexists; (split; [done|]); exists rows.
      * split; [|by apply rows_dependents]. split; [done| |].
        -- cbn [sys_tasks]. rewrite !Forall_app. split_and!; [by apply Forall_fmap, Forall_true| |done]. apply Forall_fmap, Forall_forall. intros p Hp p' ->. by eapply (lo_matching _ _ _ Hld).
        -- unfold load. cbn [sys_mgr sys_tasks sys_queue]. rewrite !fmap_app, !sum_list_app, deletes_load, adds_load. lia.
      * split; [split; [done|constructor|unfold load; cbn in *; lia]|]. apply rows_no_dependents. by right.
  - destruct (newRuleTable_runs known Hnc policy_known Hfqn all (rt_pool (mgr_RuleTable m))) as (r & E & Hr); [apply Hi|intros p Hp; by eapply (lo_all _ _ _ Hld)|cbn in *; lia|].
    rewrite E, bind_some. do 2 eexists. split; [done|]. exists rows. split; [|constructor]. destruct r as [rt|e].
    + destruct Hr as [Hr Hn]. split; [done| |].
      * apply Forall_cons. split; [by exists all|done].
      * unfold load. cbn. destruct Hr as (_ & _ & _ & _ & Hs). cbn in *. lia.
    + split; [done|by apply Forall_cons|]. unfold load. cbn in *. lia.
  - destruct Ht as (all & Ha & Hn & (rows' & He & Hi' & _ & Hs)). do 2 eexists. split; [done|]. exists rows'. split; [|by eapply rows_install].
    split; [done..|]. unfold load. cbn in *. lia.
  - do 2 eexists. split; [done|]. exists rows. split; [|constructor]. split; [done..|]. unfold load. cbn in *. lia.
Qed.

Lemma handler_steps s s' rows :
  serves s rows → handler_step ld s s' → ∃ rows', serves s' rows' ∧ rows_step ld (rows_of s rows) (rows_of s' rows').
Proof using Hnc Hfqn Hld.
  intros Hs Hstep. destruct Hstep as [m evt q|m t ts q m' ts' E].
  - exists rows. split; [|constructor]. destruct Hs as [Hi _ Hl]. split; [done|by apply event_tasks_ok|].
    pose proof (event_tasks_load evt). unfold load in *. cbn in *. lia.
  - destruct (task_runs m t ts q rows Hs) as (m1 & ts1 & E1 & rows' & Hs' & Hr). rewrite E in E1. injection E1 as <- <-. by exists rows'.
Qed.

Lemma check_steps s s' rows : serves s rows → check_step s s' → serves s' rows ∧ rows_of s' rows = rows_of s rows.
Proof.
  intros [Hi Ht Hl] Hstep. destruct Hstep as [m ts q ep input r rt E]. split; [|done].
  destruct (response_runs (mgr_RuleTable m) ep input (table_inv_ok _ _ _ _ Hi)) as ([r' rt'] & E' & Hc & _). rewrite E in E'. injection E' as <- <-.
  split; [by eapply table_inv_cached|done|]. destruct Hc as (i & pool & c & -> & Hrel & _). unfold load, slots in *. cbn in *.
  by rewrite (bi_rel_bindings _ _ Hrel).
Qed.

(** Every interleaving of the handler's sections and of checks is a run on rows. *)
Lemma steps_simulated s s' rows :
  serves s rows → rtc (step ld) s s' → ∃ rows', serves s' rows' ∧ rtc (rows_step ld) (rows_of s rows) (rows_of s' rows').
Proof using Hnc Hfqn Hld.
  intros Hs Hsteps. revert rows Hs. induction Hsteps as [s|s s1 s' [Hstep|Hstep] _ IH]; intros rows Hs.
  - by exists rows.
  - destruct (handler_steps _ _ _ Hs Hstep) as (rows1 & Hs1 & Hr). destruct (IH _ Hs1) as (rows' & ? & ?). exists rows'. split; [done|]. by eapply rtc_l.
  - destruct (check_steps _ _ _ Hs Hstep) as [Hs1 Er]. destruct (IH _ Hs1) as (rows' & ? & ?). exists rows'. split; [done|]. by rewrite <-Er.
Qed.

(** The handler is never stuck. *)
Lemma handler_progress s rows : serves s rows → (sys_tasks s = [] ∧ sys_queue s = []) ∨ ∃ s', handler_step ld s s'.
Proof using Hnc Hfqn Hld.
  destruct s as [m [|t ts] q]; intros Hs.
  - destruct q as [|evt q]; [by left|]. right. eexists. constructor.
  - right. destruct (task_runs m t ts q rows Hs) as (m' & ts' & E & _). eexists. by apply step_task.
Qed.
End steps.
End serving.
