(* ===== verification/Engine.v ===== *)
(** The engine: batches of checks over a pool of workers,
    [src/internal/engine/engine.go] and [src/internal/engine/audit].

    A call of [Check] evaluates its inputs one after the other, or hands them to
    workers over bounded channels and collects the results over a channel of its own.
    Calls, workers, cancellations and the handler of storage events run concurrently;
    the step relation has one step for every operation on a channel and every
    evaluation, which holds the read lock of the manager.  Workers that replace
    themselves to give back their stacks keep their channel, so that is no step. *)
From S2P Require Import Prelude GoRuntime Bitmap Arena LazyDim Dimension GlobDim Namer Policy ScopePerms IndexCore IndexQuery IndexQuerySpec IndexLookup Index IndexSpec RuleTableBuild RuleTable Manager Eval Check CheckSpec TableSpec ManagerSpec Serving.

Local Open Scope list_scope.
Open Scope nat_scope.

Section engine.
Context `{GlobEngine} `{CelRuntime} `{GoMapOrder} `{ContentHash} `{StringHash} `{DerivedRoleHash} `{SchemaManager}.

(** * State *)

Definition parallelismThreshold : nat := 5.
Definition workerQueueSize : nat := 4.

(** [MergeTrails]: the effective policies of both, those of the second on conflicts. *)
Definition MergeTrails (a b : gmap string string) : gmap string string :=
  if decide (a = ∅) then b else if decide (b = ∅) then a else b ∪ a.

(** [ctx.Err()], or the error of a check. *)
Inductive CtxErr := Canceled | DeadlineExceeded.
Inductive EngineErr := ErrContext (e : CtxErr) | ErrCheck (errs : list string).

(** The context, options and collector of a piece of work are those of its call. *)
Record workIn := MkWorkIn { wi_call : N; wi_index : nat; wi_input : CheckInput; wi_opts : EvalParams }.
Record workOut := MkWorkOut { wo_index : nat; wo_result : (CheckOutput * gmap string string) + EngineErr }.

Inductive worker := W_idle | W_evaluating (w : workIn) | W_sending (c : N) (o : workOut) | W_stopped.

(** A call of [Check]: how many inputs it has submitted (or evaluated itself), the
    worker whose channel it is about to send to, its collector and how many results it
    has received from it. *)
Record call := MkCall {
  ca_inputs : list CheckInput;
  ca_opts : EvalParams;
  ca_parallel : bool;
  ca_next : nat;
  ca_target : option nat;
  ca_collector : list workOut;
  ca_received : nat;
  ca_outputs : list (option CheckOutput);
  ca_trail : gmap string string;
  ca_cancelled : option CtxErr;      (* the error of its context *)
  ca_result : option ((list (option CheckOutput) * gmap string string) + EngineErr);
}.

Record Engine := MkEngine {
  e_sys : system;                    (* the rule table manager and its event handler *)
  workerPool : list (list workIn);
  e_workers : list worker;
  workerIndex : N;
  e_stopped : bool;
  e_calls : gmap N call;
}.

Definition set_sys (x : system) (s : Engine) : Engine := MkEngine x (workerPool s) (e_workers s) (workerIndex s) (e_stopped s) (e_calls s).
Definition set_call (c : N) (ca : call) (s : Engine) : Engine :=
  MkEngine (e_sys s) (workerPool s) (e_workers s) (workerIndex s) (e_stopped s) (<[c := ca]> (e_calls s)).
Definition set_worker (w : nat) (x : worker) (s : Engine) : Engine :=
  MkEngine (e_sys s) (workerPool s) (<[w := x]> (e_workers s)) (workerIndex s) (e_stopped s) (e_calls s).
Definition set_queue (w : nat) (q : list workIn) (s : Engine) : Engine :=
  MkEngine (e_sys s) (<[w := q]> (workerPool s)) (e_workers s) (workerIndex s) (e_stopped s) (e_calls s).
Definition set_workerIndex (i : N) (s : Engine) : Engine := MkEngine (e_sys s) (workerPool s) (e_workers s) i (e_stopped s) (e_calls s).
Definition set_stopped (s : Engine) : Engine := MkEngine (e_sys s) (workerPool s) (e_workers s) (workerIndex s) true (e_calls s).

(** An engine whose manager has some events still to handle. *)
Definition NewFromConf (numWorkers : nat) (m : Manager) (events : list Event) : Engine :=
  MkEngine (MkSystem m [] events) (replicate numWorkers []) (replicate numWorkers W_idle) 0 false ∅.

(** * Operations *)

Definition evaluate (cancelled : option CtxErr) (checkOpts : EvalParams) (input : CheckInput) (x : system) :
    option (((CheckOutput * gmap string string) + EngineErr) * system) :=
  match cancelled with
  | Some e => Some (inr (ErrContext e), x)
  | None =>
    '(r, rt) ← checkWithAuditTrail (mgr_RuleTable (sys_mgr x)) checkOpts input;
    Some (match r with inl a => inl a | inr e => inr (ErrCheck e) end, MkSystem (set_table rt (sys_mgr x)) (sys_tasks x) (sys_queue x))
  end.

(** [Check] starts serially or in parallel. *)
Definition NewCall (s : Engine) (inputs : list CheckInput) (checkOpts : EvalParams) : call :=
  MkCall inputs checkOpts (negb ((length inputs <? parallelismThreshold) || (length (workerPool s) =? 0))) 0 None [] 0
    (replicate (length inputs) None) ∅ None None.

Definition ca_return (r : (list (option CheckOutput) * gmap string string) + EngineErr) (ca : call) : call :=
  MkCall (ca_inputs ca) (ca_opts ca) (ca_parallel ca) (ca_next ca) (ca_target ca) (ca_collector ca) (ca_received ca) (ca_outputs ca) (ca_trail ca)
    (ca_cancelled ca) (Some r).

(** A result is stored and its trail merged; an error is returned. *)
Definition store_result (k : nat) (r : (CheckOutput * gmap string string) + EngineErr) (ca : call) : call :=
  match r with
  | inr e => ca_return (inr e) ca
  | inl (o, t) =>
      MkCall (ca_inputs ca) (ca_opts ca) (ca_parallel ca) (ca_next ca) (ca_target ca) (ca_collector ca) (ca_received ca) (<[k := Some o]> (ca_outputs ca))
        (MergeTrails (ca_trail ca) t) (ca_cancelled ca) (ca_result ca)
  end.

Definition set_next (n : nat) (target : option nat) (ca : call) : call :=
  MkCall (ca_inputs ca) (ca_opts ca) (ca_parallel ca) n target (ca_collector ca) (ca_received ca) (ca_outputs ca) (ca_trail ca) (ca_cancelled ca) (ca_result ca).
Definition set_collector (l : list workOut) (received : nat) (ca : call) : call :=
  MkCall (ca_inputs ca) (ca_opts ca) (ca_parallel ca) (ca_next ca) (ca_target ca) l received (ca_outputs ca) (ca_trail ca) (ca_cancelled ca) (ca_result ca).
Definition set_cancelled (e : CtxErr) (ca : call) : call :=
  MkCall (ca_inputs ca) (ca_opts ca) (ca_parallel ca) (ca_next ca) (ca_target ca) (ca_collector ca) (ca_received ca) (ca_outputs ca) (ca_trail ca) (Some e) (ca_result ca).

(** The index of the next worker: [workerIndex.Add(1) % numWorkers] on 64 bits. *)
Definition next_worker (s : Engine) : N * nat :=
  let i := ((workerIndex s + 1) mod 2 ^ 64)%N in (i, N.to_nat (i mod N.of_nat (length (workerPool s)))).

(** * Steps *)

(** A call that has not returned, and submits, waits for results or runs serially. *)
Definition running (s : Engine) (c : N) (ca : call) (parallel : bool) : Prop :=
  e_calls s !! c = Some ca ∧ ca_result ca = None ∧ ca_parallel ca = parallel.

Inductive engine_step : Engine → Engine → Prop :=
  (* checkSerial *)
  | es_serial s c ca input r x : running s c ca false → ca_inputs ca !! ca_next ca = Some input →
      evaluate (ca_cancelled ca) (ca_opts ca) input (e_sys s) = Some (r, x) →
      engine_step s (set_call c (store_result (ca_next ca) r (set_next (S (ca_next ca)) None ca)) (set_sys x s))
  | es_serial_return s c ca : running s c ca false → ca_next ca = length (ca_inputs ca) →
      engine_step s (set_call c (ca_return (inl (ca_outputs ca, ca_trail ca)) ca) s)
  (* checkParallel and submitWork *)
  | es_choose s c ca : running s c ca true → ca_next ca < length (ca_inputs ca) → ca_target ca = None →
      engine_step s (set_call c (set_next (ca_next ca) (Some (next_worker s).2) ca) (set_workerIndex (next_worker s).1 s))
  | es_submit s c ca w q input : running s c ca true → ca_target ca = Some w → ca_inputs ca !! ca_next ca = Some input →
      workerPool s !! w = Some q → length q < workerQueueSize →
      engine_step s (set_call c (set_next (S (ca_next ca)) None ca) (set_queue w (q ++ [MkWorkIn c (ca_next ca) input (ca_opts ca)]) s))
  | es_submit_cancelled s c ca w e : running s c ca true → ca_target ca = Some w → ca_cancelled ca = Some e →
      engine_step s (set_call c (ca_return (inr (ErrContext e)) ca) s)
  | es_collect s c ca o l : running s c ca true → ca_next ca = length (ca_inputs ca) → ca_received ca < length (ca_inputs ca) → ca_collector ca = o :: l →
      engine_step s (set_call c (store_result (wo_index o) (wo_result o) (set_collector l (S (ca_received ca)) ca)) s)
  | es_collect_cancelled s c ca e : running s c ca true → ca_next ca = length (ca_inputs ca) → ca_received ca < length (ca_inputs ca) → ca_cancelled ca = Some e →
      engine_step s (set_call c (ca_return (inr (ErrContext e)) ca) s)
  | es_return s c ca : running s c ca true → ca_next ca = length (ca_inputs ca) → ca_received ca = length (ca_inputs ca) →
      engine_step s (set_call c (ca_return (inl (ca_outputs ca, ca_trail ca)) ca) s)
  (* startWorker *)
  | es_take s w work q : e_workers s !! w = Some W_idle → workerPool s !! w = Some (work :: q) →
      engine_step s (set_worker w (W_evaluating work) (set_queue w q s))
  | es_evaluate s w work ca r x : e_workers s !! w = Some (W_evaluating work) → e_calls s !! wi_call work = Some ca →
      evaluate (ca_cancelled ca) (wi_opts work) (wi_input work) (e_sys s) = Some (r, x) →
      engine_step s (set_worker w (W_sending (wi_call work) (MkWorkOut (wi_index work) r)) (set_sys x s))
  | es_send s w c o ca : e_workers s !! w = Some (W_sending c o) → e_calls s !! c = Some ca → length (ca_collector ca) < length (ca_inputs ca) →
      engine_step s (set_worker w W_idle (set_call c (set_collector (ca_collector ca ++ [o]) (ca_received ca) ca) s))
  | es_stop s w : e_workers s !! w = Some W_idle → e_stopped s = true → engine_step s (set_worker w W_stopped s).

(** What happens around the engine: calls, cancelled contexts, storage events and the
    end of the engine's own context. *)
Inductive outside_step (ld : PolicyLoader) : Engine → Engine → Prop :=
  | os_call s c inputs opts : e_calls s !! c = None → outside_step ld s (set_call c (NewCall s inputs opts) s)
  | os_cancel s c ca e : e_calls s !! c = Some ca → ca_cancelled ca = None → outside_step ld s (set_call c (set_cancelled e ca) s)
  | os_event s x : handler_step ld (e_sys s) x → outside_step ld s (set_sys x s)
  | os_stop s : outside_step ld s (set_stopped s).

(** * The invariant *)

(** Where the inputs of call [c] are: in the channels and with the workers. *)
Definition work_of (c : N) (w : workIn) : list nat := if decide (wi_call w = c) then [wi_index w] else [].
Definition worker_of (c : N) (w : worker) : list nat :=
  match w with
  | W_evaluating w => work_of c w
  | W_sending c' o => if decide (c' = c) then [wo_index o] else []
  | _ => []
  end.
Definition pending (c : N) (pool : list (list workIn)) (workers : list worker) : list nat :=
  (pool ≫= λ q, q ≫= work_of c) ++ (workers ≫= worker_of c).

Lemma bind_at {A B} (f : A → list B) (l : list A) i x y :
  l !! i = Some x → ∃ r, l ≫= f ≡ₚ f x ++ r ∧ <[i := y]> l ≫= f ≡ₚ f y ++ r.
Proof.
  intros Hl. assert (i < length l) as Hi by (by eapply lookup_lt_Some). rewrite insert_take_drop by done.
  replace (l ≫= f) with ((take i l ++ x :: drop (S i) l) ≫= f) by (by rewrite take_drop_middle). rewrite !bind_app. cbn [mbind list_bind]. exists ((take i l ≫= f) ++ (drop (S i) l ≫= f)). split; rewrite !app_assoc; f_equiv; apply Permutation_app_comm.
Qed.

Section invariant.
Context (I : system → Prop).
Context (HI : ∀ x ep input, I x → ∃ r x', evaluate None ep input x = Some (r, x') ∧ I x').

Definition answered (ep : EvalParams) (input : CheckInput) (r : (CheckOutput * gmap string string) + EngineErr) : Prop :=
  ∃ x x', I x ∧ evaluate None ep input x = Some (r, x').
Definition result_ok (ca : call) (input : CheckInput) (r : (CheckOutput * gmap string string) + EngineErr) : Prop :=
  (∃ e, r = inr (ErrContext e) ∧ ca_cancelled ca = Some e) ∨ answered (ca_opts ca) input r.

(** What [done] of a call says: the indices of the results it has received. *)
Record call_ok (W : nat) (p : list nat) (ca : call) (done : list (nat * ((CheckOutput * gmap string string) + EngineErr))) : Prop := {
  co_next : ca_next ca ≤ length (ca_inputs ca);
  co_length : length (ca_outputs ca) = length (ca_inputs ca);
  co_places : p ++ (wo_index <$> ca_collector ca) ++ done.*1 ≡ₚ seq 0 (ca_next ca);
  co_done : ∀ k o t, (k, inl (o, t)) ∈ done → ∃ input, ca_inputs ca !! k = Some input ∧ ca_outputs ca !! k = Some (Some o) ∧ answered (ca_opts ca) input (inl (o, t));
  co_failed : ∀ k e, (k, inr e) ∈ done → ∃ e', ca_result ca = Some (inr e');
  co_trail : ∀ key, key ∈ dom (ca_trail ca) ↔ ∃ k o t, (k, inl (o, t)) ∈ done ∧ key ∈ dom t;
  co_received : ca_parallel ca = true → ca_received ca = length done;
  co_collector : ∀ o, o ∈ ca_collector ca → ∃ input, ca_inputs ca !! wo_index o = Some input ∧ result_ok ca input (wo_result o);
  co_result : match ca_result ca with
              | None => True
              | Some (inl (outs, trail)) => outs = ca_outputs ca ∧ trail = ca_trail ca ∧ length done = length (ca_inputs ca)
              | Some (inr e) => (∃ x, e = ErrContext x ∧ ca_cancelled ca = Some x) ∨ ∃ input, input ∈ ca_inputs ca ∧ answered (ca_opts ca) input (inr e)
              end;
  co_target : ∀ w, ca_target ca = Some w → w < W ∧ ca_next ca < length (ca_inputs ca);
  co_parallel : ca_parallel ca = true → 0 < W;
}.

Definition work_ok (calls : gmap N call) (w : workIn) : Prop :=
  ∃ ca, calls !! wi_call w = Some ca ∧ ca_inputs ca !! wi_index w = Some (wi_input w) ∧ wi_opts w = ca_opts ca.
Definition worker_ok (calls : gmap N call) (stopped : bool) (w : worker) : Prop :=
  match w with
  | W_idle => True
  | W_evaluating w => work_ok calls w
  | W_sending c o => ∃ ca input, calls !! c = Some ca ∧ ca_inputs ca !! wo_index o = Some input ∧ result_ok ca input (wo_result o)
  | W_stopped => stopped = true
  end.

Record engine_ok (s : Engine) : Prop := {
  eo_sys : I (e_sys s);
  eo_length : length (e_workers s) = length (workerPool s);
  eo_queues : Forall (Forall (work_ok (e_calls s))) (workerPool s);
  eo_workers : Forall (worker_ok (e_calls s) (e_stopped s)) (e_workers s);
  eo_serial : ∀ c ca, e_calls s !! c = Some ca → ca_parallel ca = false → pending c (workerPool s) (e_workers s) = [] ∧ ca_collector ca = [];
  eo_calls : ∀ c ca, e_calls s !! c = Some ca → ∃ done, call_ok (length (workerPool s)) (pending c (workerPool s) (e_workers s)) ca done;
}.

(** Calls only change in ways that workers do not see. *)
Definition same_call (ca ca' : call) : Prop :=
  ca_inputs ca' = ca_inputs ca ∧ ca_opts ca' = ca_opts ca ∧ (∀ e, ca_cancelled ca = Some e → ca_cancelled ca' = Some e).

Lemma result_ok_same ca ca' input r : same_call ca ca' → result_ok ca input r → result_ok ca' input r.
Proof. intros (_ & Eo & Hc) [(e & -> & ?)|Ha]; [left; eauto|right; by rewrite Eo]. Qed.

Lemma work_ok_same calls c ca ca' w : calls !! c = Some ca → same_call ca ca' → work_ok calls w → work_ok (<[c := ca']> calls) w.
Proof.
  intros Hc (Ei & Eo & _) (ca0 & Hl & Hi & Ho). destruct (decide (c = wi_call w)) as [->|Hne].
  - rewrite Hc in Hl. injection Hl as <-. exists ca'. rewrite lookup_insert_eq, Ei, Eo. done.
  - exists ca0. by rewrite lookup_insert_ne.
Qed.

Lemma worker_ok_same calls c ca ca' st w : calls !! c = Some ca → same_call ca ca' → worker_ok calls st w → worker_ok (<[c := ca']> calls) st w.
Proof.
  intros Hc Hs. destruct w as [|w|c' o|]; cbn; [done|by eapply work_ok_same| |done]. intros (ca0 & input & Hl & Hi & Hr).
  destruct (decide (c = c')) as [<-|Hne].
  - rewrite Hc in Hl. injection Hl as <-. exists ca', input. rewrite lookup_insert_eq. pose proof Hs as (-> & _ & _). split_and!; [done..|by eapply result_ok_same].
  - exists ca0, input. by rewrite lookup_insert_ne.
Qed.

Lemma call_ok_perm W p p' ca done : p ≡ₚ p' → call_ok W p ca done → call_ok W p' ca done.
Proof. intros Hp []. split; try done. by rewrite <-Hp. Qed.

Lemma evaluate_answered c ep input x r x' : I x → evaluate c ep input x = Some (r, x') →
  I x' ∧ ((∃ e, r = inr (ErrContext e) ∧ c = Some e) ∨ answered ep input r).
Proof using HI.
  intros Hx E. destruct c as [e|]; [injection E as <- <-; eauto|]. destruct (HI x ep input Hx) as (r1 & x1 & E1 & Hx1). rewrite E in E1. injection E1 as <- <-.
  split; [done|]. right. by exists x, x'.
Qed.

Lemma MergeTrails_dom a b key : key ∈ dom (MergeTrails a b) ↔ key ∈ dom a ∨ key ∈ dom b.
Proof.
  unfold MergeTrails. case_decide as Ha; [subst a; rewrite dom_empty; set_solver|]. case_decide as Hb; [subst b; rewrite dom_empty; set_solver|].
  rewrite dom_union. set_solver.
Qed.

(** *** Steps of one call *)

Lemma store_ok W k p ca done rcv input r :
  call_ok W (k :: p) ca done → ca_result ca = None → ca_inputs ca !! k = Some input → result_ok ca input r → (ca_parallel ca = true → rcv = S (length done)) →
  call_ok W p (store_result k r (set_collector (ca_collector ca) rcv ca)) ((k, r) :: done).
Proof.
  intros [] Hnone Hk Hr Hrcv.
  assert (k ∉ done.*1) as Hfresh.
  { assert (NoDup (k :: (p ++ (wo_index <$> ca_collector ca) ++ done.*1))) as Hnd by (change (NoDup ((k :: p) ++ (wo_index <$> ca_collector ca) ++ done.*1)); rewrite co_places0; apply NoDup_seq).
    apply NoDup_cons in Hnd as [Hnd _]. rewrite !elem_of_app in Hnd. tauto. }
  assert (p ++ (wo_index <$> ca_collector ca) ++ k :: done.*1 ≡ₚ seq 0 (ca_next ca)) as Hp by (rewrite <-co_places0, app_assoc, <-Permutation_middle, <-app_assoc; done).
  destruct r as [[o t]|e]; split; cbn; try done.
  - by rewrite length_insert.
  - intros k' o' t' [[= -> -> ->]|Hin]%elem_of_cons.
    + exists input. split_and!; [done|apply list_lookup_insert_eq; rewrite co_length0; by eapply lookup_lt_Some|]. by destruct Hr as [(? & ? & _)|?].
    + destruct (co_done0 k' o' t' Hin) as (i' & Hi & Ho & Ha). exists i'. split_and!; [done| |done]. rewrite list_lookup_insert_ne; [done|].
      intros <-. apply Hfresh, list_elem_of_fmap. by exists (k, inl (o', t')).
  - intros k' e [?|Hin]%elem_of_cons; [done|]. destruct (co_failed0 k' e Hin) as [e' He]. congruence.
  - intros key. rewrite MergeTrails_dom, co_trail0. split.
    + intros [(k' & o' & t' & Hin & Hd)|Hd]; [exists k', o', t'; by rewrite elem_of_cons; auto|exists k, o, t; by rewrite elem_of_cons; auto].
    + intros (k' & o' & t' & [[= -> -> ->]|Hin]%elem_of_cons & Hd); [by right|left; eauto].
  - by rewrite Hnone.
  - intros k' o' t' [?|Hin]%elem_of_cons; [done|eauto].
  - intros; eauto.
  - intros key. rewrite co_trail0. split; [intros (k' & o' & t' & Hin & Hd); exists k', o', t'; by rewrite elem_of_cons; auto|].
    intros (k' & o' & t' & [?|Hin]%elem_of_cons & Hd); [done|eauto].
  - destruct Hr as [(x & [= ->] & ?)|Ha]; [left; eauto|]. right. exists input. split; [by eapply list_elem_of_lookup_2|done].
Qed.

Lemma submit_ok W p ca done : call_ok W p ca done → ca_result ca = None → ca_next ca < length (ca_inputs ca) →
  call_ok W (ca_next ca :: p) (set_next (S (ca_next ca)) None ca) done.
Proof.
  intros [] Hnone Hlt. split; cbn -[seq]; try done.
  - by rewrite seq_S, <-co_places0, <-Permutation_cons_append.
Qed.

Lemma collector_ok W k p ca done o : call_ok W (k :: p) ca done → wo_index o = k → (∃ input, ca_inputs ca !! k = Some input ∧ result_ok ca input (wo_result o)) →
  call_ok W p (set_collector (ca_collector ca ++ [o]) (ca_received ca) ca) done ∧ length (ca_collector ca) < length (ca_inputs ca).
Proof.
  intros [] <- Ho. split.
  - split; cbn; try done.
    + rewrite <-co_places0, fmap_app, <-app_assoc. cbn [fmap list_fmap app]. by rewrite app_assoc, <-Permutation_middle, <-app_assoc.
    + intros o' [Hin|Hin%list_elem_of_singleton]%elem_of_app; [by apply co_collector0|by subst].
  - apply Permutation_length in co_places0. rewrite length_seq in co_places0. cbn in co_places0. rewrite !length_app, !length_fmap in co_places0. lia.
Qed.

Lemma uncollect_ok W p ca done o l : call_ok W p ca done → ca_collector ca = o :: l →
  call_ok W (wo_index o :: p) (set_collector l (ca_received ca) ca) done ∧ ∃ input, ca_inputs ca !! wo_index o = Some input ∧ result_ok ca input (wo_result o).
Proof.
  intros [] El. rewrite El in *. split; [|apply co_collector0; left]. split; cbn; try done.
  - rewrite <-co_places0. cbn. by rewrite Permutation_middle.
  - intros o' Ho'. apply co_collector0. by right.
Qed.

Lemma returns_ok W p ca done : call_ok W p ca done → ca_result ca = None → ca_next ca = length (ca_inputs ca) →
  (if ca_parallel ca then ca_received ca = length (ca_inputs ca) else p = [] ∧ ca_collector ca = []) →
  call_ok W p (ca_return (inl (ca_outputs ca, ca_trail ca)) ca) done.
Proof.
  intros [] Hnone Hn Hend. split; cbn; try done.
  - intros k e Hin. destruct (co_failed0 k e Hin). congruence.
  - split_and!; [done|done|]. destruct (ca_parallel ca); [rewrite <-co_received0 by done; done|]. destruct Hend as [-> Hc]. rewrite Hc in *.
    apply Permutation_length in co_places0. rewrite length_seq in co_places0. cbn in co_places0. rewrite length_fmap in co_places0. congruence.
Qed.

Lemma cancelled_ok W p ca done e : call_ok W p ca done → ca_cancelled ca = Some e → ca_result ca = None → call_ok W p (ca_return (inr (ErrContext e)) ca) done.
Proof. intros [] Hc Hnone. split; cbn; try done; eauto. Qed.

Lemma choose_ok W p ca done w : call_ok W p ca done → w < W → ca_next ca < length (ca_inputs ca) → call_ok W p (set_next (ca_next ca) (Some w) ca) done.
Proof. intros [] Hw Hn. split; cbn; try done. by intros w' [= <-]. Qed.

Lemma set_cancelled_ok W p ca done e : call_ok W p ca done → ca_cancelled ca = None → call_ok W p (set_cancelled e ca) done.
Proof.
  intros [] Hn. split; cbn; try done.
  - intros o Ho. destruct (co_collector0 o Ho) as (input & ? & Hr). exists input. split; [done|]. destruct Hr as [(x & _ & ?)|?]; [congruence|by right].
  - destruct (ca_result ca) as [[[outs tr]|x]|]; [done| |done]. destruct co_result0 as [(? & _ & ?)|?]; [congruence|by right].
Qed.

Lemma new_call_ok s W inputs opts : W = length (workerPool s) → call_ok W [] (NewCall s inputs opts) [].
Proof.
  intros ->. split; cbn; try done; try lia.
  - by rewrite length_replicate.
  - intros k o t Hin. by apply elem_of_nil in Hin.
  - intros k e Hin. by apply elem_of_nil in Hin.
  - intros key. rewrite dom_empty. split; [by intros ?%elem_of_empty|]. intros (k & o & t & Hin & _). by apply elem_of_nil in Hin.
  - intros o Hin. by apply elem_of_nil in Hin.
  - intros Hp. destruct (Nat.eqb_spec (length (workerPool s)) 0); [|lia]. by rewrite orb_true_r in Hp.
Qed.
(** *** Steps of the engine *)

Lemma worker_pending c pool (workers : list worker) w x y : workers !! w = Some x →
  ∃ r, pending c pool workers ≡ₚ worker_of c x ++ r ∧ pending c pool (<[w := y]> workers) ≡ₚ worker_of c y ++ r.
Proof.
  intros Hw. destruct (bind_at (worker_of c) workers w x y Hw) as (r & E1 & E2). exists ((pool ≫= λ q, q ≫= work_of c) ++ r).
  unfold pending. rewrite E1, E2. split; apply Permutation_app_swap_app.
Qed.
Lemma queue_pending c (pool : list (list workIn)) workers w q q' : pool !! w = Some q →
  ∃ r, pending c pool workers ≡ₚ (q ≫= work_of c) ++ r ∧ pending c (<[w := q']> pool) workers ≡ₚ (q' ≫= work_of c) ++ r.
Proof.
  intros Hw. destruct (bind_at (λ q, q ≫= work_of c) pool w q q' Hw) as (r & E1 & E2). exists (r ++ (workers ≫= worker_of c)).
  unfold pending. rewrite E1, E2, <-!app_assoc. done.
Qed.

Lemma places_same s c ca ca' : engine_ok s → e_calls s !! c = Some ca → same_call ca ca' →
  Forall (Forall (work_ok (<[c := ca']> (e_calls s)))) (workerPool s) ∧ Forall (worker_ok (<[c := ca']> (e_calls s)) (e_stopped s)) (e_workers s).
Proof.
  intros [] Hc Hs. split.
  - eapply Forall_impl; [exact eo_queues0|]. intros q Hq. eapply Forall_impl; [exact Hq|]. intros w. by eapply work_ok_same.
  - eapply Forall_impl; [exact eo_workers0|]. intros w. by eapply worker_ok_same.
Qed.

(** A step of a call, its input and the places of other calls unchanged. *)
Lemma engine_update s c ca ca' x pool workers i done :
  engine_ok s → e_calls s !! c = Some ca → same_call ca ca' → ca_parallel ca' = ca_parallel ca → I x →
  length pool = length (workerPool s) → length workers = length (e_workers s) →
  Forall (Forall (work_ok (<[c := ca']> (e_calls s)))) pool → Forall (worker_ok (<[c := ca']> (e_calls s)) (e_stopped s)) workers →
  (∀ c', c' ≠ c → pending c' pool workers ≡ₚ pending c' (workerPool s) (e_workers s)) →
  call_ok (length (workerPool s)) (pending c pool workers) ca' done →
  (ca_parallel ca = false → pending c pool workers = [] ∧ ca_collector ca' = []) →
  engine_ok (MkEngine x pool workers i (e_stopped s) (<[c := ca']> (e_calls s))).
Proof.
  intros [] Hc Hs Hpar Hx El1 El2 Hq Hw Hother Hcall Hser. split; cbn; [done|congruence|done|done| |].
  - intros c' ca1 [[<- <-]|[Hne Hl]]%lookup_insert_Some Hp; [apply Hser; congruence|].
    destruct (eo_serial0 c' ca1 Hl Hp) as [E ->]. split; [|done]. specialize (Hother c' (not_eq_sym Hne)). rewrite E in Hother. by apply Permutation_nil_r in Hother.
  - rewrite El1. intros c' ca1 [[<- <-]|[Hne Hl]]%lookup_insert_Some; [by exists done|].
    destruct (eo_calls0 c' ca1 Hl) as (done' & Hd). exists done'. eapply call_ok_perm; [symmetry; by apply Hother|done].
Qed.

Lemma engine_call s c ca ca' x i :
  engine_ok s → e_calls s !! c = Some ca → same_call ca ca' → ca_parallel ca' = ca_parallel ca → I x →
  (ca_parallel ca = false → ca_collector ca = [] → ca_collector ca' = []) →
  (∀ p done, p = pending c (workerPool s) (e_workers s) → (ca_parallel ca = false → p = [] ∧ ca_collector ca = []) → call_ok (length (workerPool s)) p ca done →
     ∃ done', call_ok (length (workerPool s)) p ca' done') →
  engine_ok (MkEngine x (workerPool s) (e_workers s) i (e_stopped s) (<[c := ca']> (e_calls s))).
Proof.
  intros Hok Hc Hs Hpar Hx Hcol Hstep. destruct (places_same s c ca ca' Hok Hc Hs) as [Hq Hw]. destruct (eo_calls s Hok c ca Hc) as (done & Hd).
  destruct (Hstep _ done eq_refl) as (done' & Hd'); [intros Hp; by apply (eo_serial s Hok c ca)|done|].
  eapply engine_update; [done|done|done|done|done|done|done|done|done|done|exact Hd'|]. intros Hp. destruct (eo_serial s Hok c ca Hc Hp) as [? ?]. auto.
Qed.

(** A step between a channel and a worker. *)
Lemma engine_places s x pool workers i st :
  engine_ok s → I x → length pool = length (workerPool s) → length workers = length (e_workers s) →
  Forall (Forall (work_ok (e_calls s))) pool → Forall (worker_ok (e_calls s) st) workers →
  (∀ c, pending c pool workers ≡ₚ pending c (workerPool s) (e_workers s)) →
  engine_ok (MkEngine x pool workers i st (e_calls s)).
Proof.
  intros [] Hx El1 El2 Hq Hw Hp. split; cbn; [done|congruence|done|done| |].
  - intros c ca Hl Hpar. destruct (eo_serial0 c ca Hl Hpar) as [E ->]. split; [|done]. specialize (Hp c). rewrite E in Hp. by apply Permutation_nil_r in Hp.
  - rewrite El1. intros c ca Hl. destruct (eo_calls0 c ca Hl) as (done & Hd). exists done. eapply call_ok_perm; [symmetry; apply Hp|done].
Qed.
Lemma store_same k r rcv l ca : same_call ca (store_result k r (set_collector l rcv ca)) ∧ ca_parallel (store_result k r (set_collector l rcv ca)) = ca_parallel ca ∧
  ca_collector (store_result k r (set_collector l rcv ca)) = l.
Proof. by destruct r as [[o t]|e]. Qed.

Lemma serial_step_ok s c ca input r x : engine_ok s → running s c ca false → ca_inputs ca !! ca_next ca = Some input →
  evaluate (ca_cancelled ca) (ca_opts ca) input (e_sys s) = Some (r, x) →
  engine_ok (set_call c (store_result (ca_next ca) r (set_next (S (ca_next ca)) None ca)) (set_sys x s)).
Proof using HI.
  intros Hok (Hc & Hnone & Hpar) Hin E. destruct (evaluate_answered _ _ _ _ _ _ (eo_sys s Hok) E) as [Hx Hr].
  destruct (store_same (ca_next ca) r (ca_received ca) (ca_collector ca) (set_next (S (ca_next ca)) None ca)) as (Hs & Hp & Hl).
  apply (engine_call s c ca); [done|done|exact Hs|exact Hp|done|intros _ El; by rewrite <-El|].
  intros p done _ Hser Hd. destruct (Hser Hpar) as [-> _]. exists ((ca_next ca, r) :: done).
  apply (store_ok _ _ _ (set_next (S (ca_next ca)) None ca) done (ca_received ca) input); [|done..|by cbn; rewrite Hpar].
  apply submit_ok; [done|done|by eapply lookup_lt_Some].
Qed.

Lemma submit_step_ok s c ca w q input : engine_ok s → running s c ca true → ca_inputs ca !! ca_next ca = Some input → workerPool s !! w = Some q →
  engine_ok (set_call c (set_next (S (ca_next ca)) None ca) (set_queue w (q ++ [MkWorkIn c (ca_next ca) input (ca_opts ca)]) s)).
Proof.
  intros Hok (Hc & Hnone & Hpar) Hin Hq. set (work := MkWorkIn _ _ _ _).
  destruct (places_same s c ca (set_next (S (ca_next ca)) None ca) Hok Hc) as [Hqs Hws]; [done|]. destruct (eo_calls s Hok c ca Hc) as (done & Hd).
  assert (∀ c', ∃ r, pending c' (workerPool s) (e_workers s) ≡ₚ r ∧ pending c' (<[w := q ++ [work]]> (workerPool s)) (e_workers s) ≡ₚ work_of c' work ++ r) as Hpend.
  { intros c'. destruct (queue_pending c' (workerPool s) (e_workers s) w q (q ++ [work]) Hq) as (r & E1 & E2). exists ((q ≫= work_of c') ++ r). split; [done|].
    rewrite E2, bind_app. cbn [mbind list_bind]. rewrite app_nil_r, <-app_assoc. apply Permutation_app_swap_app. }
  apply (engine_update s c ca _ _ _ _ _ done); [done..|exact (eo_sys s Hok)|by cbn; rewrite length_insert|done| |done| | |by rewrite Hpar].
  - apply Forall_insert; [done|]. apply Forall_app. split; [by eapply (Forall_lookup_1 _ _ _ _ Hqs)|]. apply Forall_singleton.
    exists (set_next (S (ca_next ca)) None ca). cbn. by rewrite lookup_insert_eq.
  - intros c' Hne. destruct (Hpend c') as (r & E1 & E2). cbn. rewrite E1, E2. unfold work_of. by rewrite decide_False by (cbn; congruence).
  - destruct (Hpend c) as (r & E1 & E2). eapply call_ok_perm; [cbn; symmetry; rewrite E2, <-E1; unfold work_of; rewrite decide_True by done; done|].
    apply submit_ok; [done|done|by eapply lookup_lt_Some].
Qed.

Lemma collect_step_ok s c ca o l : engine_ok s → running s c ca true → ca_collector ca = o :: l →
  engine_ok (set_call c (store_result (wo_index o) (wo_result o) (set_collector l (S (ca_received ca)) ca)) s).
Proof.
  intros Hok (Hc & Hnone & Hpar) El. destruct (store_same (wo_index o) (wo_result o) (S (ca_received ca)) l ca) as (Hs & Hp & Hl).
  apply (engine_call s c ca); [done|done|exact Hs|exact Hp|exact (eo_sys s Hok)|by rewrite Hpar|].
  intros p done _ _ Hd. destruct (uncollect_ok _ _ _ _ o l Hd El) as [Hd' (input & Hin & Hr)]. exists ((wo_index o, wo_result o) :: done).
  apply (store_ok _ _ _ (set_collector l (ca_received ca) ca) done (S (ca_received ca)) input _ Hd'); [done..|].
  intros _. by rewrite (co_received _ _ _ _ Hd Hpar).
Qed.

Lemma take_step_ok s w work q : engine_ok s → e_workers s !! w = Some W_idle → workerPool s !! w = Some (work :: q) →
  engine_ok (set_worker w (W_evaluating work) (set_queue w q s)).
Proof.
  intros Hok Hw Hq. pose proof (Forall_lookup_1 _ _ _ _ (eo_queues s Hok) Hq) as [Hwork Hrest]%Forall_cons.
  apply (engine_places s); cbn; [done|exact (eo_sys s Hok)|by rewrite length_insert|by rewrite length_insert| | |].
  - apply Forall_insert; [exact (eo_queues s Hok)|done].
  - apply Forall_insert; [exact (eo_workers s Hok)|done].
  - intros c. destruct (queue_pending c (workerPool s) (e_workers s) w _ q Hq) as (r & E1 & E2). rewrite E1.
    destruct (worker_pending c (<[w := q]> (workerPool s)) (e_workers s) w _ (W_evaluating work) Hw) as (r' & E3 & E4). rewrite E4. cbn in E3. rewrite <-E3, E2. cbn. by rewrite app_assoc.
Qed.

Lemma evaluate_step_ok s w work ca r x : engine_ok s → e_workers s !! w = Some (W_evaluating work) → e_calls s !! wi_call work = Some ca →
  evaluate (ca_cancelled ca) (wi_opts work) (wi_input work) (e_sys s) = Some (r, x) →
  engine_ok (set_worker w (W_sending (wi_call work) (MkWorkOut (wi_index work) r)) (set_sys x s)).
Proof using HI.
  intros Hok Hw Hc E. destruct (evaluate_answered _ _ _ _ _ _ (eo_sys s Hok) E) as [Hx Hr].
  pose proof (Forall_lookup_1 _ _ _ _ (eo_workers s Hok) Hw) as (ca' & Hc' & Hin & Ho). rewrite Hc in Hc'. injection Hc' as <-.
  apply (engine_places s); cbn; [done|done|done|by rewrite length_insert|exact (eo_queues s Hok)| |].
  - apply Forall_insert; [exact (eo_workers s Hok)|]. exists ca, (wi_input work). split_and!; [done..|]. unfold result_ok. by rewrite <-Ho.
  - intros c. destruct (worker_pending c (workerPool s) (e_workers s) w _ (W_sending (wi_call work) (MkWorkOut (wi_index work) r)) Hw) as (l & E1 & E2). by rewrite E1, E2.
Qed.

Lemma send_step_ok s w c o ca : engine_ok s → e_workers s !! w = Some (W_sending c o) → e_calls s !! c = Some ca →
  engine_ok (set_worker w W_idle (set_call c (set_collector (ca_collector ca ++ [o]) (ca_received ca) ca) s)) ∧ length (ca_collector ca) < length (ca_inputs ca).
Proof.
  intros Hok Hw Hc. pose proof (Forall_lookup_1 _ _ _ _ (eo_workers s Hok) Hw) as (ca' & input & Hc' & Hin & Hr). rewrite Hc in Hc'. injection Hc' as <-.
  destruct (eo_calls s Hok c ca Hc) as (done & Hd). set (ca' := set_collector _ _ ca). destruct (places_same s c ca ca' Hok Hc) as [Hqs Hws]; [done|].
  assert (∀ c', ∃ r, pending c' (workerPool s) (e_workers s) ≡ₚ worker_of c' (W_sending c o) ++ r ∧ pending c' (workerPool s) (<[w := W_idle]> (e_workers s)) ≡ₚ r) as Hpend.
  { intros c'. by destruct (worker_pending c' (workerPool s) (e_workers s) w _ W_idle Hw) as (r & E1 & E2); exists r. }
  destruct (Hpend c) as (r & E1 & E2). cbn [worker_of] in E1. rewrite decide_True in E1 by done.
  destruct (collector_ok _ (wo_index o) r ca done o (call_ok_perm _ _ _ _ _ E1 Hd) eq_refl) as [Hd' Hlt]; [by exists input|]. split; [|done].
  apply (engine_update s c ca _ _ _ _ _ done); [done..|exact (eo_sys s Hok)|done|by cbn; rewrite length_insert|done|by apply Forall_insert| | |].
  - intros c' Hne. destruct (Hpend c') as (r' & E1' & E2'). cbn [e_workers set_call]. rewrite E1', E2'. cbn. by rewrite decide_False by congruence.
  - eapply call_ok_perm; [symmetry; exact E2|done].
  - intros Hp. destruct (eo_serial s Hok c ca Hc Hp) as [E _]. rewrite E in E1. by apply Permutation_nil_l in E1.
Qed.
Lemma call_step_ok s c ca ca' i : engine_ok s → running s c ca (ca_parallel ca) → same_call ca ca' → ca_parallel ca' = ca_parallel ca → ca_collector ca' = ca_collector ca →
  (∀ p done, (ca_parallel ca = false → p = [] ∧ ca_collector ca = []) → call_ok (length (workerPool s)) p ca done → call_ok (length (workerPool s)) p ca' done) →
  engine_ok (set_call c ca' (set_workerIndex i s)).
Proof.
  intros Hok (Hc & _ & _) Hs Hp El Hstep. apply (engine_call s c ca); [done|done|done|done|exact (eo_sys s Hok)|by rewrite El|].
  intros p done _ Hser Hd. exists done. auto.
Qed.

Lemma set_workerIndex_same s : set_workerIndex (workerIndex s) s = s.
Proof. by destruct s. Qed.

Lemma engine_step_ok s s' : engine_ok s → engine_step s s' → engine_ok s'.
Proof using HI.
  intros Hok Hstep. destruct Hstep as [s c ca input r x Hr Hi E|s c ca Hr En|s c ca Hr Hn Ht|s c ca w q input Hr Ht Hi Hq Hl|s c ca w e Hr Ht Hc|s c ca o l Hr En Hn El|s c ca e Hr En Hn Hc|s c ca Hr En Er|
    s w work q Hw Hq|s w work ca r x Hw Hc E|s w c o ca Hw Hc Hl|s w Hw Hst]; try (pose proof Hr as (_ & Hnone & Hpar)).
  - by eapply serial_step_ok.
  - rewrite <-(set_workerIndex_same s). rewrite <-Hpar in Hr. apply (call_step_ok s c ca); [done..|]. intros p done Hser Hd. apply returns_ok; [done..|]. rewrite Hpar. by apply Hser.
  - rewrite <-Hpar in Hr. apply (call_step_ok s c ca); [done..|]. intros p done Hser Hd. apply choose_ok; [done| |done].
    unfold next_worker. cbn. pose proof (co_parallel _ _ _ _ Hd Hpar). set (i := ((workerIndex s + 1) mod 2 ^ 64)%N). pose proof (N.mod_lt i (N.of_nat (length (workerPool s)))). lia.
  - by eapply submit_step_ok.
  - rewrite <-(set_workerIndex_same s). rewrite <-Hpar in Hr. apply (call_step_ok s c ca); [done..|]. intros p done Hser Hd. by apply cancelled_ok.
  - by eapply collect_step_ok.
  - rewrite <-(set_workerIndex_same s). rewrite <-Hpar in Hr. apply (call_step_ok s c ca); [done..|]. intros p done Hser Hd. by apply cancelled_ok.
  - rewrite <-(set_workerIndex_same s). rewrite <-Hpar in Hr. apply (call_step_ok s c ca); [done..|]. intros p done Hser Hd. apply returns_ok; [done..|]. by rewrite Hpar.
  - by apply take_step_ok.
  - by eapply evaluate_step_ok.
  - by apply send_step_ok.
  - apply (engine_places s); [done|exact (eo_sys s Hok)|done|by rewrite length_insert|exact (eo_queues s Hok)|apply Forall_insert; [exact (eo_workers s Hok)|done]|].
    intros c. by destruct (worker_pending c (workerPool s) (e_workers s) w _ W_stopped Hw) as (l & -> & ->).
Qed.

Lemma new_places c ca pool st (workers : list worker) calls : calls !! c = None →
  Forall (Forall (work_ok calls)) pool → Forall (worker_ok calls st) workers →
  Forall (Forall (work_ok (<[c := ca]> calls))) pool ∧ Forall (worker_ok (<[c := ca]> calls) st) workers ∧ pending c pool workers = [].
Proof.
  intros Hc Hq Hw. assert (∀ w, work_ok calls w → work_ok (<[c := ca]> calls) w ∧ wi_call w ≠ c) as Hwork.
  { intros w (ca' & Hl & ?). assert (wi_call w ≠ c) by congruence. split; [|done]. exists ca'. by rewrite lookup_insert_ne. }
  split_and!.
  - eapply Forall_impl; [exact Hq|]. intros q Hq'. eapply Forall_impl; [exact Hq'|]. intros w ?. by apply Hwork.
  - eapply Forall_impl; [exact Hw|]. intros [|w|c' o|]; cbn; [done|intros ?; by apply Hwork| |done]. intros (ca' & input & Hl & ?). exists ca', input.
    rewrite lookup_insert_ne; [done|congruence].
  - unfold pending. assert (∀ q, Forall (work_ok calls) q → q ≫= work_of c = []) as Hempty.
    { induction 1 as [|w q Hx _ IH]; [done|]. change (work_of c w ++ (q ≫= work_of c) = []). rewrite IH, app_nil_r. unfold work_of. rewrite decide_False; [done|by apply Hwork]. }
    assert (pool ≫= (λ q, q ≫= work_of c) = []) as ->.
    { induction Hq as [|q pool Hq0 _ IH]; [done|]. change ((q ≫= work_of c) ++ (pool ≫= (λ q, q ≫= work_of c)) = []). by rewrite (Hempty q Hq0). }
    cbn [app]. induction Hw as [|w workers Hx _ IH]; [done|]. change (worker_of c w ++ (workers ≫= worker_of c) = []). rewrite IH, app_nil_r.
    destruct w as [|w|c' o|]; cbn in *; [done| | |done].
    + unfold work_of. rewrite decide_False; [done|by apply Hwork].
    + destruct Hx as (ca' & input & Hl & _). rewrite decide_False; [done|congruence].
Qed.

Lemma outside_step_ok ld s s' : (∀ x x', I x → handler_step ld x x' → I x') → engine_ok s → outside_step ld s s' → engine_ok s'.
Proof.
  intros Henv Hok Hstep. destruct Hstep as [s c inputs opts Hc|s c ca e Hc Hn|s x Hx|s].
  - pose proof Hok as []. destruct (new_places c (NewCall s inputs opts) _ _ _ _ Hc eo_queues0 eo_workers0) as (Hq & Hw & Hp).
    split; cbn -[pending]; [done..| |].
    + intros c' ca [[<- <-]|[_ Hl]]%lookup_insert_Some; [intros _; by split|by apply eo_serial0].
    + intros c' ca [[<- <-]|[_ Hl]]%lookup_insert_Some; [exists []; rewrite Hp; by apply new_call_ok|by apply eo_calls0].
  - apply (engine_call s c ca); [done|done|by split_and!; [..|rewrite Hn]|done|exact (eo_sys s Hok)|done|]. intros p done _ _ Hd. exists done. by apply set_cancelled_ok.
  - apply (engine_places s); [done|by eapply Henv, Hx; exact (eo_sys s Hok)|done|done|exact (eo_queues s Hok)|exact (eo_workers s Hok)|done].
  - apply (engine_places s); [done|exact (eo_sys s Hok)|done|done|exact (eo_queues s Hok)| |done].
    eapply Forall_impl; [exact (eo_workers s Hok)|]. by intros [].
Qed.
(** *** Progress *)

Lemma evaluate_total c ep input x : I x → ∃ r x', evaluate c ep input x = Some (r, x').
Proof using HI. intros Hx. destruct c as [e|]; [by do 2 eexists|]. destruct (HI x ep input Hx) as (r & x' & E & _). eauto. Qed.

Definition is_idle (w : worker) : bool := match w with W_idle => true | _ => false end.

Lemma busy_progress s w x : engine_ok s → e_stopped s = false → e_workers s !! w = Some x → is_idle x = false → ∃ s', engine_step s s'.
Proof using HI.
  intros Hok Hst Hw Hx. pose proof (Forall_lookup_1 _ _ _ _ (eo_workers s Hok) Hw) as Hwk. destruct x as [|work|c o|]; [done| | |cbn in Hwk; congruence].
  - destruct Hwk as (ca & Hc & _). destruct (evaluate_total (ca_cancelled ca) (wi_opts work) (wi_input work) (e_sys s) (eo_sys s Hok)) as (r & x & E).
    eexists. by eapply es_evaluate.
  - pose proof Hwk as (ca & _ & Hc & _). destruct (send_step_ok s w c o ca Hok Hw Hc) as [_ Hl]. eexists. by eapply es_send.
Qed.

Lemma call_progress s c ca : engine_ok s → pending c (workerPool s) (e_workers s) = [] → (∀ w, w < length (workerPool s) → workerPool s !! w = Some []) →
  running s c ca (ca_parallel ca) → ∃ s', engine_step s s'.
Proof using HI.
  intros Hok Hp Hq Hr. pose proof Hr as (Hc & Hnone & _). destruct (eo_calls s Hok c ca Hc) as (done & Hd). rewrite Hp in Hd. pose proof (co_next _ _ _ _ Hd) as Hle.
  destruct (ca_parallel ca) eqn:Ep.
  - destruct (decide (ca_next ca = length (ca_inputs ca))) as [En|].
    + pose proof (Permutation_length (co_places _ _ _ _ Hd)) as El. rewrite length_seq in El. cbn in El. rewrite length_app, !length_fmap in El.
      pose proof (co_received _ _ _ _ Hd Ep) as Er. destruct (ca_collector ca) as [|o l] eqn:Ec.
      * eexists. eapply es_return; [exact Hr|done|]. cbn in El. lia.
      * eexists. eapply es_collect; [exact Hr|done| |exact Ec]. cbn in El. lia.
    + destruct (ca_target ca) as [w|] eqn:Et.
      * destruct (lookup_lt_is_Some_2 (ca_inputs ca) (ca_next ca) ltac:(lia)) as [input Hi]. destruct (co_target _ _ _ _ Hd w Et) as [Hw _].
        eexists. eapply (es_submit s c ca w [] input); [done|done|done|by apply Hq|cbn; unfold workerQueueSize; lia].
      * eexists. apply (es_choose s c ca); [done|lia|done].
  - destruct (decide (ca_next ca = length (ca_inputs ca))) as [En|]; [eexists; by apply (es_serial_return s c ca)|].
    destruct (lookup_lt_is_Some_2 (ca_inputs ca) (ca_next ca) ltac:(lia)) as [input Hi].
    destruct (evaluate_total (ca_cancelled ca) (ca_opts ca) input (e_sys s) (eo_sys s Hok)) as (r & x & E). eexists. by eapply es_serial.
Qed.

Lemma engine_progress s c ca : engine_ok s → e_stopped s = false → e_calls s !! c = Some ca → ca_result ca = None → ∃ s', engine_step s s'.
Proof using HI.
  intros Hok Hst Hc Hnone. destruct (forallb is_idle (e_workers s)) eqn:Eidle.
  2:{ assert (existsb (λ w, negb (is_idle w)) (e_workers s) = true) as Hex.
      { clear -Eidle. induction (e_workers s) as [|w l IH]; [done|]. cbn in *. destruct (is_idle w); [by apply IH|done]. }
      apply existsb_exists in Hex as (x & Hin & Hx). apply list_elem_of_In, list_elem_of_lookup_1 in Hin as [w Hw].
      apply (busy_progress s w x); [done..|]. by destruct (is_idle x). }
  assert (∀ w x, e_workers s !! w = Some x → x = W_idle) as Hidle.
  { intros w x Hw. rewrite forallb_forall in Eidle. specialize (Eidle x). destruct x; [done|..]; exfalso; cbn in Eidle;
      (discriminate Eidle; apply list_elem_of_In; by eapply list_elem_of_lookup_2). }
  destruct (existsb (λ q, negb (length q =? 0)) (workerPool s)) eqn:Eq.
  - apply existsb_exists in Eq as (q & Hin & Hq). apply list_elem_of_In, list_elem_of_lookup_1 in Hin as [w Hw]. destruct q as [|work q]; [done|].
    destruct (lookup_lt_is_Some_2 (e_workers s) w) as [x Hx]; [rewrite (eo_length s Hok); by eapply lookup_lt_Some|].
    rewrite (Hidle w x Hx) in Hx. eexists. by eapply es_take.
  - assert (∀ w q, workerPool s !! w = Some q → q = []) as Hempty.
    { intros w q Hw. destruct q as [|work q]; [done|]. exfalso. rewrite <-not_true_iff_false, existsb_exists in Eq. apply Eq. exists (work :: q). split; [|done].
      apply list_elem_of_In. by eapply list_elem_of_lookup_2. }
    apply (call_progress s c ca Hok); [|intros w Hw|done].
    + unfold pending. apply app_nil. split.
      * clear -Hempty. induction (workerPool s) as [|q l IH]; [done|]. change ((q ≫= work_of c) ++ (l ≫= (λ q, q ≫= work_of c)) = []).
        rewrite (Hempty 0 q eq_refl), IH; [done|]. intros w q' Hw. by apply (Hempty (S w)).
      * clear -Hidle. induction (e_workers s) as [|x l IH]; [done|]. change (worker_of c x ++ (l ≫= worker_of c) = []).
        rewrite (Hidle 0 x eq_refl), IH; [done|]. intros w q' Hw. by apply (Hidle (S w)).
    + destruct (lookup_lt_is_Some_2 (workerPool s) w Hw) as [q Hq]. by rewrite (Hempty w q Hq) in Hq.
Qed.
End invariant.

(** *** Termination *)

Definition worker_weight (w : worker) : nat := match w with W_idle => 1 | W_evaluating _ => 5 | W_sending _ _ => 4 | W_stopped => 0 end.
Definition unset {A} (o : option A) : nat := match o with Some _ => 0 | None => 1 end.
Definition call_weight (ca : call) : nat :=
  7 * (length (ca_inputs ca) - ca_next ca) + unset (ca_target ca) + length (ca_collector ca) + unset (ca_result ca).
Definition calls_weight (m : gmap N call) : nat := sum_list (call_weight <$> (map_to_list m).*2).

(** A bound on the steps that the engine can take before another call. *)
Definition work_left (s : Engine) : nat :=
  sum_list ((λ q : list workIn, 5 * length q) <$> workerPool s) + sum_list (worker_weight <$> e_workers s) + calls_weight (e_calls s).

Lemma sum_at {A} (f : A → nat) (l : list A) i x y : l !! i = Some x → sum_list (f <$> <[i := y]> l) + f x = sum_list (f <$> l) + f y.
Proof.
  revert i. induction l as [|z l IH]; intros [|i] Hl; try done.
  - injection Hl as ->. change (f y + sum_list (f <$> l) + f x = f x + sum_list (f <$> l) + f y). lia.
  - specialize (IH i Hl). change (f z + sum_list (f <$> <[i := y]> l) + f x = f z + sum_list (f <$> l) + f y). lia.
Qed.

Lemma calls_weight_insert m c ca ca' : m !! c = Some ca → calls_weight (<[c := ca']> m) + call_weight ca = calls_weight m + call_weight ca'.
Proof.
  intros Hc. assert (∀ x, calls_weight (<[c := x]> (delete c m)) = call_weight x + calls_weight (delete c m)) as Hi.
  { intros x. unfold calls_weight. rewrite map_to_list_insert by apply lookup_delete_eq. done. }
  pose proof (Hi ca) as E1. pose proof (Hi ca') as E2. rewrite insert_delete_eq in E2. rewrite insert_delete_id in E1 by done. lia.
Qed.

Lemma store_weight k r l rcv ca : ca_result ca = None → call_weight (store_result k r (set_collector l rcv ca)) ≤
  7 * (length (ca_inputs ca) - ca_next ca) + unset (ca_target ca) + length l + 1.
Proof. intros E. destruct r as [[o t]|e]; unfold call_weight; cbn -[Nat.mul Nat.sub]; rewrite ?E; cbn [unset]; lia. Qed.

Lemma engine_step_decreases s s' : engine_step s s' → work_left s' < work_left s.
Proof.
  intros Hstep. destruct Hstep as [s c ca input r x Hr Hi E|s c ca Hr En|s c ca Hr Hn Ht|s c ca w q input Hr Ht Hi Hq Hl|s c ca w e Hr Ht Hc|s c ca o l Hr En Hn El|s c ca e Hr En Hn Hc|s c ca Hr En Er|
    s w work q Hw Hq|s w work ca r x Hw Hc E|s w c o ca Hw Hc Hl|s w Hw Hst]; try (destruct Hr as (Hc' & Hnone & _)); unfold work_left; cbn [workerPool e_workers e_calls set_call set_sys set_worker set_queue set_workerIndex].
  all: try match goal with |- context [calls_weight (<[?c0 := ?ca']> ?m)] =>
    pose proof (calls_weight_insert m c0 ca ca' ltac:(done)) as Hcw; generalize dependent (calls_weight (<[c0 := ca']> m)); intros cw Hcw end.
  - apply lookup_lt_Some in Hi. pose proof (store_weight (ca_next ca) r (ca_collector ca) (ca_received ca) (set_next (S (ca_next ca)) None ca) Hnone) as Hs.
    change (set_collector _ _ (set_next (S (ca_next ca)) None ca)) with (set_next (S (ca_next ca)) None ca) in Hs.
    set (ca' := store_result _ _ _) in *. clearbody ca'. unfold call_weight at 1 in Hcw. rewrite Hnone in Hcw.
    cbn [set_next ca_inputs ca_next ca_target unset] in *. lia.
  - unfold call_weight in Hcw. cbn -[Nat.mul Nat.sub] in Hcw. rewrite Hnone in Hcw. cbn [unset] in Hcw. lia.
  - unfold call_weight in Hcw. cbn -[Nat.mul Nat.sub] in Hcw. rewrite Hnone, Ht in Hcw. cbn [unset] in Hcw. lia.
  - apply lookup_lt_Some in Hi. pose proof (sum_at (λ q : list workIn, 5 * length q) _ _ _ (q ++ [MkWorkIn c (ca_next ca) input (ca_opts ca)]) Hq) as Eq. cbn beta in Eq.
    rewrite length_app in Eq. cbn [length] in Eq. unfold call_weight in Hcw. cbn -[Nat.mul Nat.sub] in Hcw. rewrite Hnone, Ht in Hcw. cbn [unset] in Hcw. lia.
  - unfold call_weight in Hcw. cbn -[Nat.mul Nat.sub] in Hcw. rewrite Hnone in Hcw. cbn [unset] in Hcw. lia.
  - pose proof (store_weight (wo_index o) (wo_result o) l (S (ca_received ca)) ca Hnone) as Hs. set (ca' := store_result _ _ _) in *. clearbody ca'.
    unfold call_weight at 1 in Hcw. rewrite Hnone, El in Hcw. cbn [length unset] in Hcw. lia.
  - unfold call_weight in Hcw. cbn -[Nat.mul Nat.sub] in Hcw. rewrite Hnone in Hcw. cbn [unset] in Hcw. lia.
  - unfold call_weight in Hcw. cbn -[Nat.mul Nat.sub] in Hcw. rewrite Hnone in Hcw. cbn [unset] in Hcw. lia.
  - pose proof (sum_at (λ q : list workIn, 5 * length q) _ _ _ q Hq) as Eq. pose proof (sum_at worker_weight _ _ _ (W_evaluating work) Hw). cbn in *. lia.
  - pose proof (sum_at worker_weight _ _ _ (W_sending (wi_call work) (MkWorkOut (wi_index work) r)) Hw). cbn in *. lia.
  - pose proof (sum_at worker_weight _ _ _ W_idle Hw) as Ew. unfold call_weight in Hcw. cbn in *. rewrite length_app in Hcw. cbn in Hcw. lia.
  - pose proof (sum_at worker_weight _ _ _ W_stopped Hw) as Ew. cbn in Ew. lia.
Qed.
(** Steps of the engine keep what a call asks. *)
Lemma insert_call (P : call → call → Prop) (m : gmap N call) c ca ca' c0 ca0 :
  (∀ x, P x x) → m !! c = Some ca → P ca ca' → m !! c0 = Some ca0 → ∃ ca1, <[c := ca']> m !! c0 = Some ca1 ∧ P ca0 ca1.
Proof.
  intros Hrefl Hc HP H0'. destruct (decide (c = c0)) as [<-|Hne]; [|exists ca0; by rewrite lookup_insert_ne].
  rewrite Hc in H0'. injection H0' as <-. exists ca'. by rewrite lookup_insert_eq.
Qed.

Definition same_request (ca ca' : call) : Prop :=
  ca_inputs ca' = ca_inputs ca ∧ ca_opts ca' = ca_opts ca ∧ ca_parallel ca' = ca_parallel ca ∧ ca_cancelled ca' = ca_cancelled ca.

Lemma engine_step_request s s' c ca : engine_step s s' → e_calls s !! c = Some ca →
  e_stopped s' = e_stopped s ∧ ∃ ca', e_calls s' !! c = Some ca' ∧ same_request ca ca'.
Proof.
  intros Hstep Hc. split; [by destruct Hstep|]. assert (∀ x, same_request x x) as Hrefl by done.
  assert (∀ k r x, same_request x (store_result k r x)) as Hstore by (by intros ? [[??]|?] ?).
  destruct Hstep as [s c0 ca0 input r x Hr _ _|s c0 ca0 Hr _|s c0 ca0 Hr _ _|s c0 ca0 w q input Hr _ _ _ _|s c0 ca0 w e Hr _ _|s c0 ca0 o l Hr _ _ _|s c0 ca0 e Hr _ _ _|s c0 ca0 Hr _ _|
    s w work q _ _|s w work ca0 r x _ _ _|s w c0 o ca0 _ Hr _|s w _ _]; try (by exists ca); try (destruct Hr as (Hr & _)); cbn;
    (apply (insert_call same_request _ c0 ca0); [done|done| |done]); try done; [eapply (Hstore _ _ (set_next _ _ ca0))|eapply (Hstore _ _ (set_collector _ _ ca0))].
Qed.

(** An engine that is not stopped comes to rest, and then every call has returned. *)
Lemma engine_rests (I : system → Prop) (HI : ∀ x ep input, I x → ∃ r x', evaluate None ep input x = Some (r, x') ∧ I x') s c ca :
  engine_ok I s → e_stopped s = false → e_calls s !! c = Some ca →
  ∃ s' ca', rtc engine_step s s' ∧ e_calls s' !! c = Some ca' ∧ same_request ca ca' ∧ is_Some (ca_result ca').
Proof.
  intros Hok Hst Hc. remember (work_left s) as n eqn:En. revert s ca Hok Hst Hc En. induction n as [n IH] using lt_wf_ind. intros s ca Hok Hst Hc ->.
  destruct (ca_result ca) as [r|] eqn:Er; [exists s, ca; split_and!; [done..|by eexists]|].
  destruct (engine_progress I HI s c ca Hok Hst Hc Er) as (s1 & Hstep). destruct (engine_step_request s s1 c ca Hstep Hc) as (Est & ca1 & Hc1 & Hs1).
  destruct (IH (work_left s1) (engine_step_decreases s s1 Hstep) s1 ca1) as (s' & ca' & Hrun & Hc' & Hs' & Hres); [by eapply engine_step_ok|congruence|done|done|].
  exists s', ca'. split_and!; [by eapply rtc_l|done| |done]. unfold same_request in *. naive_solver congruence.
Qed.
End engine.
