(* ===== verification/Decision.v ===== *)
(** Decisions in terms of rule rows.  The index lookups of [check] are related to
    the rows a table stands for: an action is allowed only because of an ALLOW
    row that matches the request, with no matching DENY row applying in the
    scopes that were consulted. *)
From S2P Require Import Prelude GoRuntime Bitmap Arena LazyDim Dimension GlobDim Namer Policy ScopePerms IndexCore IndexQuery IndexQuerySpec IndexLookup Index IndexSpec ParentRoles RuleTableBuild RuleTable Manager Eval Check CheckSpec TableSpec.

Local Open Scope string_scope.
Local Open Scope list_scope.
Open Scope nat_scope.

Section decision.
Context `{GlobEngine} `{CelRuntime} `{GoMapOrder} `{ContentHash} `{StringHash} `{DerivedRoleHash} `{SchemaManager}.

(** * Matching rows *)

Definition str_matches (key : string) (values : list string) : bool :=
  negb (bool_decide (key = "")) && existsb (key_matches key) values.

Definition row_version (ver : string) (r : RuleRow) : bool := bool_decide (ver = "" ∨ r_Version r = ver).
Definition row_role (roles : list string) (r : RuleRow) : bool := bool_decide (roles = []) || str_matches (r_Role r) roles.
Definition row_kind (pk : Kind) (r : RuleRow) : bool := bool_decide (pk = KIND_UNSPECIFIED ∨ r_PolicyKind r = pk).
Definition row_principal (p : string) (r : RuleRow) : bool := bool_decide (p = "" ∨ r_Principal r = p).
Definition row_action (act : string) (r : RuleRow) : bool :=
  bool_decide (act = "") || match r_ActionSet r with ActionSet_Action a => str_matches a [act] | _ => false end.

(** The globs of resource policies are matched against the kind as requested
    only; everything else also against its sanitized form. *)
Definition row_resource (rk : ResourceKind) (pk : Kind) (r : RuleRow) : bool :=
  let k := r_Resource r in
  let sanitized_too := negb (IsGlob k) ||
    match pk with KIND_RESOURCE => false | KIND_PRINCIPAL => true | _ => bool_decide (r_PolicyKind r = KIND_PRINCIPAL) end in
  bool_decide (raw rk = "") ||
  (negb (bool_decide (k = "")) &&
   (key_matches k (raw rk) || (negb (bool_decide (sanitized rk = "")) && sanitized_too && key_matches k (sanitized rk)))).

Definition row_base (ver : string) (rk : ResourceKind) (sco : string) (roles : list string) (pk : Kind) (p : string) (r : RuleRow) : bool :=
  row_version ver r && bool_decide (r_Scope r = sco) && row_resource rk pk r && row_role roles r && row_kind pk r && row_principal p r.

Definition row_matches (ver : string) (rk : ResourceKind) (sco act : string) (roles : list string) (pk : Kind) (p : string) (r : RuleRow) : bool :=
  row_base ver rk sco roles pk p r && row_action act r.

(** ** The binding of a row *)

Lemma rule_binding_fields r core id :
  let b := set_ID (rule_binding r core) id in
  bh_Version b = mkStringHandle (r_Version r) ∧ bh_Scope b = mkStringHandle (r_Scope r) ∧ bh_Role b = mkStringHandle (r_Role r) ∧
  bh_Resource b = mkStringHandle (r_Resource r) ∧ bh_Principal b = mkStringHandle (r_Principal r) ∧ bh_Core b = core ∧
  match r_ActionSet r with
  | ActionSet_Action a => bh_Action b = mkStringHandle a ∧ bh_AllowActions b = None
  | ActionSet_AllowActions _ => bh_AllowActions b ≠ None
  | ActionSet_none => bh_Action b = EmptyHandle ∧ bh_AllowActions b = None
  end.
Proof.
  unfold rule_binding. destruct (r_ActionSet r) as [| |actions]; cbn; [done..|]. unfold setAllowActions.
  by destruct (foldl _ _ _).
Qed.

Lemma handle_is s v : mkStringHandle s = Some v ↔ s = v ∧ v ≠ "".
Proof. unfold mkStringHandle. case_decide as E; [|naive_solver]. split; [done|]. by intros [-> ?]. Qed.

Lemma handle_str_matches s values : handle_matches (mkStringHandle s) values = str_matches s values.
Proof. unfold mkStringHandle, str_matches, handle_matches. case_decide as E; [by rewrite bool_decide_true|]. by rewrite bool_decide_false. Qed.

Lemma opt_handle_is v s : bool_decide (v = "" ∨ mkStringHandle s = Some v) = bool_decide (v = "" ∨ s = v).
Proof. apply bool_decide_ext. rewrite handle_is. destruct (decide (v = "")); naive_solver. Qed.

Lemma row_base_binding r core id ver rk sco roles pk p :
  core_of r core → base_matches ver rk sco roles pk p (set_ID (rule_binding r core) id) = row_base ver rk sco roles pk p r.
Proof.
  intros Hc. destruct (rule_binding_fields r core id) as (Ev & Es & Er & Eq & Ep & Ec & _). set (b := set_ID _ _) in *.
  unfold base_matches, row_base, version_matches, scope_matches, role_matches, kind_matches, principal_matches, resource_matches, res_matches,
    sanitized_glob. rewrite Ev, Es, Er, Eq, Ep, Ec, (cof_kind _ _ Hc), !opt_handle_is, HandleStr_mk, handle_str_matches.
  unfold row_version, row_role, row_kind, row_principal, row_resource.
  unfold mkStringHandle. case_decide as E; [by rewrite (bool_decide_true (r_Resource r = ""))|by rewrite (bool_decide_false (r_Resource r = ""))].
Qed.

Lemma row_action_binding r core id act : action_matches act (set_ID (rule_binding r core) id) = row_action act r.
Proof.
  destruct (rule_binding_fields r core id) as (_ & _ & _ & _ & _ & _ & Ha). set (b := set_ID _ _) in *.
  unfold action_matches, row_action. f_equal. destruct (r_ActionSet r).
  - destruct Ha as [-> ->]. done.
  - destruct Ha as [-> ->]. rewrite bool_decide_true by done. apply handle_str_matches.
  - by rewrite bool_decide_false.
Qed.

(** * Rows and live bindings *)

Context (known : RuleRow → Prop).

Lemma live_row m rows id b :
  implements known m rows → lv (bi m) id = Some b → ∃ r core, rows !! id = Some r ∧ core_of r core ∧ b = set_ID (rule_binding r core) id.
Proof.
  intros Hi Hl. pose proof (im_rows _ _ _ Hi) as Hr. destruct (rows !! id) as [r|] eqn:E.
  - destruct (ro_row _ _ _ _ _ _ _ Hr _ _ E) as (core & _ & Hc & Hl' & _). exists r, core. split_and!; [done..|congruence].
  - apply (ro_none _ _ _ _ _ _ _ Hr) in E. congruence.
Qed.

Lemma row_live m rows id r :
  implements known m rows → rows !! id = Some r → ∃ core, core_of r core ∧ lv (bi m) id = Some (set_ID (rule_binding r core) id).
Proof.
  intros Hi Hl. destruct (ro_row _ _ _ _ _ _ _ (im_rows _ _ _ Hi) _ _ Hl) as (core & _ & Hc & Hl' & _). eauto.
Qed.

(** Every matching row is returned by a query. *)
Lemma row_queried m rows id r ver rk sco act roles pk p b :
  implements known m rows → rows !! id = Some r → lv (bi m) id = Some b → row_matches ver rk sco act roles pk p r = true →
  b ∈ Query_spec (bi m) ver rk sco act roles pk p [].
Proof.
  intros Hi Hl Hb [Hm Ha]%andb_true_iff. destruct (live_row _ _ _ _ Hi Hb) as (r' & core & Hl' & Hc & ->).
  assert (r' = r) as -> by congruence. rewrite <-(row_base_binding r core id) in Hm by done. rewrite <-(row_action_binding r core id) in Ha.
  assert (set_ID (rule_binding r core) id ∈ scan (bi m) (base_matches ver rk sco roles pk p)) as Hs by (apply elem_of_scan; eauto).
  unfold Query_spec. destruct (scan (bi m) (base_matches _ _ _ _ _ _)); [by apply elem_of_nil in Hs|].
  rewrite app_nil_l. apply elem_of_app. right. apply elem_of_scan. exists id. by rewrite Hm, Ha.
Qed.

(** What a query returns that may allow is a matching row. *)
Lemma queried_row m rows ver rk sco act roles pk p b :
  implements known m rows → b ∈ Query_spec (bi m) ver rk sco act roles pk p [] → co_Effect (bh_Core b) = EFFECT_ALLOW →
  ∃ id r, rows !! id = Some r ∧ lv (bi m) id = Some b ∧ r_Effect r = EFFECT_ALLOW ∧ row_matches ver rk sco act roles pk p r = true.
Proof.
  intros Hi Hb He. apply Query_spec_elem in Hb as [(id & Hl & [Hm Ha]%andb_true_iff)%elem_of_scan|[[(role & v & sc & rr & a & ->)|(mb & a & _ & Hs)] _]].
  - destruct (live_row _ _ _ _ Hi Hl) as (r & core & Hr & Hc & ->). exists id, r. split_and!; [done..| |].
    + rewrite <-(cof_effect _ _ Hc), <-He. by destruct (rule_binding_fields r core id) as (_ & _ & _ & _ & _ & -> & _).
    + unfold row_matches. rewrite <-(row_base_binding r core id) by done. rewrite <-(row_action_binding r core id). by rewrite Hm, Ha.
  - done.
  - unfold synthesise in Hs. destruct (co_Condition (bh_Core mb)); [|destruct (co_EmitOutput (bh_Core mb))];
      [apply list_elem_of_singleton in Hs as ->; done..|by apply elem_of_nil in Hs].
Qed.

(** * Decisions *)

Section request.
Context (rt : RuleTable) (rows : gmap N RuleRow) (ep : EvalParams) (input : CheckInput).

Definition request_version : string := PolicyVersion (rs_PolicyVersion (ci_Resource input)) ep.
Definition request_scopes (pt : Kind) : list string :=
  if decide (pt = KIND_PRINCIPAL)
  then (GetAllScopes rt KIND_PRINCIPAL (Scope (pr_Scope (ci_Principal input)) ep) (pr_Id (ci_Principal input))
          (PolicyVersion (pr_PolicyVersion (ci_Principal input)) ep) (LenientScopeSearch ep)).1.1
  else (GetAllScopes rt KIND_RESOURCE (Scope (rs_Scope (ci_Resource input)) ep) (rs_Kind (ci_Resource input))
          request_version (LenientScopeSearch ep)).1.1.
(** The role and its ancestors. *)
Definition request_roles (role : string) : list string := AddParentRoles (rt_idx rt) [Scope (rs_Scope (ci_Resource input)) ep] [role].

(** The row is about this action of this request, for a role and in a scope. *)
Definition concerns (pt : Kind) (action role scope : string) (r : RuleRow) : bool :=
  row_matches request_version (NewResourceKind (rs_Kind (ci_Resource input))) scope action (request_roles role) pt
    (if decide (pt = KIND_PRINCIPAL) then pr_Id (ci_Principal input) else "") r.

(** The conditions of the row at an identifier were found to hold. *)
Definition row_holds (id : N) : Prop :=
  ∃ b, lv (bi (rt_idx rt)) id = Some b ∧ outcome rt (bi (rt_idx rt)) ep (checkInputToRequest input) (fixed_of rt ep input true true) b true.
(** They were found not to hold, or failed to evaluate outside strict mode. *)
Definition row_inapplicable (id : N) : Prop :=
  ∃ b, lv (bi (rt_idx rt)) id = Some b ∧ inapplicable rt (bi (rt_idx rt)) ep (checkInputToRequest input) (fixed_of rt ep input true true) b.

(** No DENY row of the kind, for a role and in a scope, applies. *)
Definition no_denial (action : string) (pt : Kind) (role scope : string) : Prop :=
  ∀ id r, rows !! id = Some r → r_Effect r = EFFECT_DENY → concerns pt action role scope r = true → row_inapplicable id.

(** An ALLOW row of the kind, for a role, holds in one of the scopes, and neither
    that scope nor any after it leaves ALLOWs to its parents. *)
Definition allow_row_holds (action : string) (pt : Kind) (role : string) (scopes : list string) : Prop :=
  ∃ before s after id r, scopes = before ++ s :: after ∧ rows !! id = Some r ∧ r_Effect r = EFFECT_ALLOW ∧
    concerns pt action role s r = true ∧ row_holds id ∧
    ∀ t, t ∈ s :: after → GetScopeScopePermissions rt t ≠ SCOPE_PERMISSIONS_REQUIRE_PARENTAL_CONSENT_FOR_ALLOWS.

(** Why an action is allowed: for a role of the principal, in the scopes up to a
    deciding one that overrides its parents, no DENY row applies, and an ALLOW row
    holds that no scope from its own on leaves to the parents.  When these are
    resource policies, the principal policies do not deny the action. *)
Definition granted (action : string) (i : EffectInfo) : Prop :=
  ∃ pt role pre post, (pt = KIND_PRINCIPAL ∨ pt = KIND_RESOURCE) ∧ role ∈ pr_Roles (ci_Principal input) ∧
    request_scopes pt = pre ++ ei_Scope i :: post ∧
    GetScopeScopePermissions rt (ei_Scope i) = SCOPE_PERMISSIONS_OVERRIDE_PARENT ∧
    allow_row_holds action pt role (pre ++ [ei_Scope i]) ∧
    (∀ s, s ∈ pre ++ [ei_Scope i] → no_denial action pt role s) ∧
    (pt = KIND_RESOURCE → ∀ first s, head (pr_Roles (ci_Principal input)) = Some first →
       s ∈ request_scopes KIND_PRINCIPAL → no_denial action KIND_PRINCIPAL first s).

Lemma not_denied_rows pe re action pt role s :
  implements known (rt_idx rt) rows →
  not_denied rt (bi (rt_idx rt)) ep (checkInputToRequest input) (fixed_of rt ep input pe re) pt action role s →
  no_denial action pt role s.
Proof.
  intros Hi Hnd id r Hr Hre Hm. destruct (row_live _ _ _ _ Hi Hr) as (core & Hc & Hl).
  exists (set_ID (rule_binding r core) id). split; [done|]. apply Hnd.
  - by eapply row_queried.
  - destruct (rule_binding_fields r core id) as (_ & _ & _ & _ & _ & -> & _). by rewrite (cof_effect _ _ Hc).
Qed.

Lemma allowed_granted pe re action i :
  implements known (rt_idx rt) rows →
  allowed rt (bi (rt_idx rt)) ep (checkInputToRequest input) (fixed_of rt ep input pe re) action i →
  ei_Effect i = EFFECT_ALLOW ∧ granted action i.
Proof.
  intros Hi Ha.
  assert (∃ pt role, (pt = KIND_PRINCIPAL ∨ pt = KIND_RESOURCE) ∧ role ∈ pr_Roles (ci_Principal input) ∧
    role_allowed rt (bi (rt_idx rt)) ep (checkInputToRequest input) (fixed_of rt ep input pe re) pt action role (request_scopes pt) i ∧
    (pt = KIND_RESOURCE → head_clear rt (bi (rt_idx rt)) ep (checkInputToRequest input) (fixed_of rt ep input pe re) KIND_PRINCIPAL action
       (pr_Roles (ci_Principal input))))
    as (pt & role & Hpt & Hrole & (He & pre & post & Hsc & Hsp & (before & s & after & b & Hs & Hb & [Hbe Hout] & Hcons) & Hnd) & Hclear).
  { destruct Ha as [(role & Hr & Hall)|[(role & Hr & Hall) Hc]];
      [exists KIND_PRINCIPAL, role|exists KIND_RESOURCE, role]; split_and!; by auto. }
  split; [done|]. exists pt, role, pre, post. split_and!; try done.
  - destruct (queried_row _ _ _ _ _ _ _ _ _ _ Hi Hb Hbe) as (id & r & Hr & Hl & Hre & Hm).
    exists before, s, after, id, r. split_and!; try done. by exists b.
  - intros s' Hs'. apply (not_denied_rows pe re); [done|]. by apply Hnd.
  - intros Ek first s' Hf Hs'. apply (not_denied_rows pe re); [done|]. by apply (Hclear Ek).
Qed.
End request.
End decision.
