(* ===== verification/RolePolicies.v ===== *)
(** Role policies in terms of rule rows.  A role policy lists the actions its role
    may perform; a query for a resource answers it with denies: one without a
    condition when no row of the role that covers the resource lists the action,
    and one on the negated condition for each conditional row that lists it. *)
From S2P Require Import Prelude GoRuntime Bitmap Arena LazyDim Dimension GlobDim Namer Policy ScopePerms IndexCore IndexQuery IndexQuerySpec IndexLookup Index IndexSpec ParentRoles RuleTableBuild RuleTable Eval Check CheckSpec Reference TableSpec Decision.

Local Open Scope string_scope.
Local Open Scope list_scope.
Open Scope nat_scope.

Section roles.
Context `{GlobEngine} `{CelCompiler} `{GoMapOrder} `{ContentHash}.

(** * Grouping by role *)

Local Abbreviation role_of := (λ b, HandleStr (bh_Role b)).

Lemma rolePolicyReps_lookup l role : is_Some ((rolePolicyReps l).1 !! role) ↔ ∃ b, b ∈ l ∧ role_of b = role.
Proof.
  unfold rolePolicyReps.
  assert (∀ st, is_Some ((foldl add_rep st l).1 !! role) ↔ is_Some (st.1 !! role) ∨ ∃ b, b ∈ l ∧ role_of b = role) as Hgen.
  { induction l as [|x l IH]; intros [rep order]; cbn [foldl].
    - split; [by left|]. intros [?|(b & ?%elem_of_nil & _)]; done.
    - rewrite IH. setoid_rewrite elem_of_cons. unfold add_rep. cbn [fst].
      destruct (rep !! role_of x) as [y|] eqn:E; cbn [fst].
      + split; [naive_solver|]. intros [?|(b & [->|Hb] & Hr)]; [auto| |eauto]. left. rewrite <-Hr, E. eauto.
      + destruct (decide (role_of x = role)) as [<-|Hne].
        * rewrite lookup_insert_eq. split; [right; eauto|eauto].
        * rewrite lookup_insert_ne by done. naive_solver. }
  rewrite Hgen. cbn [fst]. rewrite lookup_empty. split; [intros [[]|?]; done|auto].
Qed.

Lemma matchedByRole_filter l role : default [] (matchedByRole l !! role) = filter (λ b, role_of b = role) l.
Proof.
  unfold matchedByRole.
  assert (∀ m, default [] (foldl add_by_role m l !! role) = default [] (m !! role) ++ filter (λ b, role_of b = role) l) as Hgen.
  { induction l as [|x l IH]; intros m; cbn [foldl]; [by rewrite app_nil_r|]. rewrite IH, filter_cons. unfold add_by_role.
    case_decide as E.
    - rewrite E, lookup_insert_eq. change (default [] (Some ?x)) with x. by rewrite <-app_assoc.
    - by rewrite lookup_insert_ne. }
  rewrite Hgen, lookup_empty. done.
Qed.

(** Only the unconditional denies are marked as such. *)
Lemma synthesise_match role v s res act a mb : newNoMatchRolePolicyDeny role v s res act ∉ synthesise a mb.
Proof.
  unfold synthesise. destruct (co_Condition (bh_Core mb)); [|destruct (co_EmitOutput (bh_Core mb))];
    [intros [=]%list_elem_of_singleton..|apply not_elem_of_nil].
Qed.

Lemma rule_binding_match r core id : bh_NoMatchForScopePermissions (set_ID (rule_binding r core) id) = false.
Proof. unfold rule_binding. destruct (r_ActionSet r); [done..|]. unfold setAllowActions. by destruct (foldl _ _ _). Qed.

(** * The denies of one role *)

(** What the role's rows that cover the resource come to for the action. *)
Lemma denies_for_role_iff rawKind act role rep bs b :
  b ∈ denies_for_role rawKind [act] role rep bs ↔
    (∃ mb, mb ∈ bs ∧ allowsAction mb act = true ∧ b ∈ synthesise act mb) ∨
    (∀ rb, rb ∈ bs → allowsAction rb act = false) ∧
      (∃ v s r, (v, s, r) = (let x := default rep (head bs) in (HandleStr (bh_Version x), HandleStr (bh_Scope x),
         match bs with [] => rawKind | rb :: _ => HandleStr (bh_Resource rb) end)) ∧ b = newNoMatchRolePolicyDeny role v s r act).
Proof.
  destruct bs as [|rb bs]; cbn [denies_for_role head default].
  - cbn. rewrite list_elem_of_singleton. split.
    + intros ->. right. split; [by intros rb ?%elem_of_nil|]. eauto 6.
    + intros [(mb & ?%elem_of_nil & _)|[_ (v & s & r & [= -> -> ->] & ->)]]; done.
  - cbn [mbind list_bind]. rewrite app_nil_r. unfold denies_for_action.
    destruct (filter (λ rb, allowsAction rb act = true) (rb :: bs)) as [|x l] eqn:E.
    + rewrite list_elem_of_singleton.
      assert (∀ y, y ∈ rb :: bs → allowsAction y act = false) as Hall.
      { intros y Hy. destruct (allowsAction y act) eqn:Ey; [|done]. exfalso. apply (elem_of_nil y). rewrite <-E. by apply list_elem_of_filter. }
      split.
      * intros ->. right. split; [done|]. eauto 6.
      * intros [(mb & Hmb & Ha & _)|[_ (v & s & r & [= -> -> ->] & ->)]]; [|done]. by rewrite Hall in Ha.
    + assert (x ∈ filter (λ rb, allowsAction rb act = true) (rb :: bs)) as [Hx Hxin]%list_elem_of_filter by (rewrite E; left).
      rewrite <-E, list_elem_of_bind. setoid_rewrite list_elem_of_filter. split.
      * intros (mb & Hb & Ha & Hmb). left. eauto.
      * intros [(mb & Hmb & Ha & Hb)|[Hall _]]; [eauto|]. by rewrite Hall in Hx.
Qed.

(** * Rows *)

Definition row_allows (act : string) (r : RuleRow) : bool :=
  match r_ActionSet r with
  | ActionSet_AllowActions acts => bool_decide (act ∈ acts) || existsb (λ g, IsGlob g && MatchesGlob g act) (elements acts)
  | _ => false
  end.

(** A row of the role policy of [role] for the version and the scope, when the
    principal acts with [roles]. *)
Definition role_row (ver sco : string) (roles : list string) (role : string) (r : RuleRow) : bool :=
  row_version ver r && bool_decide (r_Scope r = sco) && row_role roles r && bool_decide (r_Role r = role) &&
  match r_ActionSet r with ActionSet_AllowActions _ => true | _ => false end.

(** The row covers the resource; globs are matched against the kind as written. *)
Definition row_covers (rk : ResourceKind) (r : RuleRow) : bool :=
  negb (bool_decide (r_Resource r = "")) &&
  (key_matches (r_Resource r) (raw rk) ||
   (negb (bool_decide (sanitized rk = "")) && negb (IsGlob (r_Resource r)) && key_matches (r_Resource r) (sanitized rk))).

Lemma allow_actions_fold l (st0 : gset string) (gl0 : list string) :
  let p := foldl (λ '(st, gl) a, let a := HandleStr (mkStringHandle a) in ({[a]} ∪ st, if IsGlob a then gl ++ [a] else gl)) (st0, gl0) l in
  (∀ x, x ∈ p.1 ↔ x ∈ l ∨ x ∈ st0) ∧ (∀ x, x ∈ p.2 ↔ (x ∈ l ∧ IsGlob x = true) ∨ x ∈ gl0).
Proof.
  revert st0 gl0. induction l as [|a l IH]; intros st0 gl0; cbn [foldl]; [split; intros x; rewrite elem_of_nil; tauto|].
  rewrite HandleStr_mk. destruct (IH ({[a]} ∪ st0) (if IsGlob a then gl0 ++ [a] else gl0)) as [Hset Hgl]. split; intros x.
  - rewrite Hset, elem_of_cons, elem_of_union, elem_of_singleton. tauto.
  - rewrite Hgl, elem_of_cons. destruct (decide (x = a)) as [->|Hne].
    + destruct (IsGlob a); [rewrite elem_of_app, list_elem_of_singleton|]; intuition congruence.
    + destruct (IsGlob a); [rewrite elem_of_app, list_elem_of_singleton|]; tauto.
Qed.

Lemma row_allows_binding r core id act : allowsAction (set_ID (rule_binding r core) id) act = row_allows act r.
Proof.
  unfold rule_binding, row_allows. destruct (r_ActionSet r) as [|a|acts].
  1,2: unfold allowsAction; cbn; by rewrite decide_False by set_solver.
  unfold setAllowActions. destruct (foldl _ _ _) as [st gl] eqn:E. unfold allowsAction. cbn [bh_AllowActions bh_AllowActionGlobs set_ID default].
  destruct (allow_actions_fold (set_range acts) ∅ []) as [Hset Hgl]. cbv zeta in Hset, Hgl. rewrite E in Hset, Hgl. cbn [fst snd] in Hset, Hgl.
  assert (act ∈ st ↔ act ∈ acts) as Hin by (rewrite Hset, elem_of_set_range; set_solver).
  case_decide as Hd; [by rewrite bool_decide_true by tauto|]. rewrite bool_decide_false by tauto. cbn [orb].
  apply eq_true_iff_eq. rewrite !existsb_exists. setoid_rewrite <-list_elem_of_In. split.
  - intros (g & Hg & Hm). apply Hgl in Hg as [[Hg Hgg]|?%elem_of_nil]; [|done]. exists g.
    split; [by apply elem_of_elements, elem_of_set_range|]. by rewrite Hgg, Hm.
  - intros (g & Hg & [Hgg Hm]%andb_true_iff). exists g. split; [|done]. apply Hgl. left. split; [|done].
    by apply elem_of_set_range, elem_of_elements.
Qed.

Lemma role_row_binding r core id ver sco roles :
  candidate (version_matches ver) (scope_matches sco) (role_matches roles) (set_ID (rule_binding r core) id) =
    role_row ver sco roles (r_Role r) r.
Proof.
  destruct (rule_binding_fields r core id) as (Ev & Es & Er & _ & _ & _ & Ha). set (b := set_ID _ _) in *.
  unfold candidate, role_row, version_matches, scope_matches, role_matches, row_version, row_role.
  rewrite Ev, Es, Er, opt_handle_is, HandleStr_mk, handle_str_matches, (bool_decide_true (r_Role r = r_Role r)) by done.
  rewrite andb_true_r. f_equal. destruct (r_ActionSet r); [..|by rewrite bool_decide_true by (by apply not_eq_None_Some)].
  all: destruct Ha as [_ ->]; by rewrite bool_decide_false by (by intros [? ?]).
Qed.

Lemma row_covers_binding r core id rk : res_matches rk KIND_RESOURCE (set_ID (rule_binding r core) id) = row_covers rk r.
Proof.
  destruct (rule_binding_fields r core id) as (_ & _ & _ & Eq & _). set (b := set_ID _ _) in *.
  unfold res_matches, row_covers, sanitized_glob. rewrite Eq. unfold mkStringHandle.
  case_decide as E; [by rewrite (bool_decide_true (r_Resource r = ""))|]. rewrite (bool_decide_false (r_Resource r = "")) by done.
  by rewrite orb_false_r.
Qed.

(** * The denies of a query *)

Context (known : RuleRow → Prop) (m : Index) (rows : gmap N RuleRow) (Hi : implements known m rows).

Section query.
Context (ver : string) (rk : ResourceKind) (sco act : string) (roles : list string).
Context (Hroles : roles ≠ []).

Local Abbreviation denies := (denies_spec (bi m) (version_matches ver) (scope_matches sco) (role_matches roles) [rk] roles [act]).

(** The role has a role policy here. *)
Definition governed (role : string) : Prop := ∃ id r, rows !! id = Some r ∧ role_row ver sco roles role r = true.

(** The role policy has no row that covers the resource and lists the action. *)
Definition unlisted (role : string) : Prop :=
  ∀ id r, rows !! id = Some r → role_row ver sco roles role r = true → row_covers rk r = true → row_allows act r = false.

Lemma role_row_role role r : role_row ver sco roles role r = true → r_Role r = role.
Proof. unfold role_row. rewrite !andb_true_iff. intros [[_ ?%bool_decide_eq_true] _]. done. Qed.

Lemma governed_reps role :
  is_Some ((rolePolicyReps (scan (bi m) (candidate (version_matches ver) (scope_matches sco) (role_matches roles)))).1 !! role) ↔ governed role.
Proof using Hi.
  rewrite rolePolicyReps_lookup. split.
  - intros (b & (id & Hl & Hc)%elem_of_scan & Hr). destruct (live_row _ _ _ _ _ Hi Hl) as (r & core & Hrow & _ & ->).
    rewrite role_row_binding in Hc. exists id, r. split; [done|]. rewrite <-Hr.
    destruct (rule_binding_fields r core id) as (_ & _ & -> & _). by rewrite HandleStr_mk.
  - intros (id & r & Hrow & Hr). destruct (row_live _ _ _ _ _ Hi Hrow) as (core & _ & Hl). eexists. split.
    + apply elem_of_scan. exists id. split; [done|]. rewrite role_row_binding. by rewrite (role_row_role _ _ Hr).
    + destruct (rule_binding_fields r core id) as (_ & _ & -> & _). rewrite HandleStr_mk. by apply role_row_role.
Qed.

Lemma elem_of_matched role b :
  b ∈ default [] (matchedByRole (scan (bi m) (λ b, candidate (version_matches ver) (scope_matches sco) (role_matches roles) b &&
     res_matches rk KIND_RESOURCE b)) !! role) ↔
  ∃ id r core, rows !! id = Some r ∧ role_row ver sco roles role r = true ∧ row_covers rk r = true ∧ core_of r core ∧
    lv (bi m) id = Some b ∧ b = set_ID (rule_binding r core) id.
Proof using Hi.
  rewrite matchedByRole_filter, list_elem_of_filter, elem_of_scan. split.
  - intros [Hr (id & Hl & [Hc Hm]%andb_true_iff)]. destruct (live_row _ _ _ _ _ Hi Hl) as (r & core & Hrow & Hco & ->).
    rewrite role_row_binding in Hc. rewrite row_covers_binding in Hm. exists id, r, core. split_and!; try done.
    rewrite <-Hr. destruct (rule_binding_fields r core id) as (_ & _ & -> & _). by rewrite HandleStr_mk.
  - intros (id & r & core & Hrow & Hr & Hm & Hco & Hl & ->). split.
    + destruct (rule_binding_fields r core id) as (_ & _ & -> & _). rewrite HandleStr_mk. by apply role_row_role.
    + exists id. split; [done|]. rewrite role_row_binding, row_covers_binding, Hm, andb_true_r. by rewrite (role_row_role _ _ Hr).
Qed.

(** A row of the role's policy that covers the resource and lists the action. *)
Definition listed (role : string) (id : N) (r : RuleRow) : Prop :=
  rows !! id = Some r ∧ role_row ver sco roles role r = true ∧ row_covers rk r = true ∧ row_allows act r = true.

Lemma elem_of_denies b :
  b ∈ denies ↔ ∃ role rep, role ∈ roles ∧
    (rolePolicyReps (scan (bi m) (candidate (version_matches ver) (scope_matches sco) (role_matches roles)))).1 !! role = Some rep ∧
    b ∈ denies_for_role (raw rk) [act] role rep (default [] (matchedByRole (scan (bi m) (λ b,
      candidate (version_matches ver) (scope_matches sco) (role_matches roles) b && res_matches rk KIND_RESOURCE b)) !! role)).
Proof using Hroles.
  unfold denies_spec. destruct (rolePolicyReps _) as [reps order]. cbn [mbind list_bind fst]. rewrite app_nil_r.
  replace (match roles with [] => order | _ => roles end) with roles by (by destruct roles).
  unfold denies_for_resource. rewrite list_elem_of_bind. split.
  - intros (role & Hb & Hr). destruct (reps !! role) as [rep|] eqn:E; [eauto|by apply elem_of_nil in Hb].
  - intros (role & rep & Hr & E & Hb). exists role. by rewrite E.
Qed.

(** Everything role policies contribute comes from a policy that does not list the
    action, or from a row that does. *)
Lemma denies_sound b :
  b ∈ denies → ∃ role, role ∈ roles ∧ governed role ∧
    ((unlisted role ∧ ∃ v s r, b = newNoMatchRolePolicyDeny role v s r act) ∨
     ∃ id r mb, listed role id r ∧ lv (bi m) id = Some mb ∧ b ∈ synthesise act mb).
Proof using Hi Hroles.
  rewrite elem_of_denies. intros (role & rep & Hr & E & Hb). exists role. split; [done|]. split; [apply governed_reps; by rewrite E|].
  apply denies_for_role_iff in Hb as [(mb & (id & r & core & Hrow & Hrr & Hc & _ & Hl & Emb)%elem_of_matched & Ha & Hb)|[Hall (v & s & r & _ & ->)]].
  - right. exists id, r, mb. split; [|done]. split_and!; try done. by rewrite <-(row_allows_binding r core id), <-Emb.
  - left. split; [|eauto]. intros id r' Hrow Hrr Hc. destruct (row_live _ _ _ _ _ Hi Hrow) as (core & Hco & Hl).
    rewrite <-(row_allows_binding r' core id). apply Hall, elem_of_matched. exists id, r', core. done.
Qed.

Lemma denies_unlisted role :
  role ∈ roles → governed role → unlisted role → ∃ v s r, newNoMatchRolePolicyDeny role v s r act ∈ denies.
Proof using Hi Hroles.
  intros Hr [rep E]%governed_reps Hu. eexists _, _, _. apply elem_of_denies. exists role, rep. split_and!; [done|done|].
  apply denies_for_role_iff. right. split; [|eexists _, _, _; split; [reflexivity|done]].
  intros rb (id & r & core & Hrow & Hrr & Hc & _ & _ & ->)%elem_of_matched. rewrite row_allows_binding. by eapply Hu.
Qed.

Lemma denies_listed role id r mb b :
  role ∈ roles → listed role id r → lv (bi m) id = Some mb → b ∈ synthesise act mb → b ∈ denies.
Proof using Hi Hroles.
  intros Hr (Hrow & Hrr & Hc & Ha) Hl Hb. destruct (row_live _ _ _ _ _ Hi Hrow) as (core & Hco & Hl'). assert (mb = set_ID (rule_binding r core) id) as -> by congruence.
  assert (governed role) as [rep E]%governed_reps by (by exists id, r).
  apply elem_of_denies. exists role, rep. split_and!; [done|done|]. apply denies_for_role_iff. left.
  exists (set_ID (rule_binding r core) id). rewrite row_allows_binding. split_and!; [|done|done].
  apply elem_of_matched. exists id, r, core. done.
Qed.
End query.
End roles.

(** * Decisions in terms of rows

    When an action is allowed, in terms of rule rows: what applies in a scope is a
    row that concerns the request and whose conditions hold, or the refusal of a
    role policy. *)

Section rows.
Context `{GlobEngine} `{CelRuntime} `{GoMapOrder} `{ContentHash} `{StringHash} `{DerivedRoleHash} `{SchemaManager}.
Context (known : RuleRow → Prop) (rt : RuleTable) (rows : gmap N RuleRow) (ep : EvalParams) (input : CheckInput).
Context (verdict : BindingHandle → option bool).
Local Abbreviation idx := (bi (rt_idx rt)).
Local Abbreviation fx := (fixed rt ep input).
Local Abbreviation kind := (NewResourceKind (rs_Kind (ci_Resource input))).
Local Abbreviation version := (request_version ep input).
Local Abbreviation roles_of := (request_roles rt ep input).

(** A row with the effect concerns the request, and its conditions hold. *)
Definition row_applies (e : Effect) (pt : Kind) (action role scope : string) : Prop :=
  ∃ id r b, rows !! id = Some r ∧ r_Effect r = e ∧ concerns rt ep input pt action role scope r = true ∧
    lv idx id = Some b ∧ verdict b = Some true.

(** Some row of the scope is about the resource and the role. *)
Definition has_rows (role scope : string) : Prop :=
  ∃ id r, rows !! id = Some r ∧ row_base version kind scope (roles_of role) KIND_RESOURCE "" r = true.

(** The policy of the role, or of an inherited role, refuses the action in a scope
    with rows for the resource: it does not list the action for the resource, or
    the condition of a row that lists it does not hold. *)
Definition role_policy_refuses (action role scope : string) : Prop :=
  action ≠ "" ∧ rs_Kind (ci_Resource input) ≠ "" ∧ has_rows role scope ∧
  ∃ role', role' ∈ roles_of role ∧ governed rows version scope (roles_of role) role' ∧
    (unlisted rows version kind scope action (roles_of role) role' ∨
     ∃ id r mb b, listed rows version kind scope action (roles_of role) role' id r ∧ lv idx id = Some mb ∧
       b ∈ synthesise action mb ∧ co_Effect (bh_Core b) = EFFECT_DENY ∧ verdict b = Some true).

Definition rule_applies (action : string) (e : Effect) (pt : Kind) (role scope : string) : Prop :=
  row_applies e pt action role scope ∨ e = EFFECT_DENY ∧ pt = KIND_RESOURCE ∧ role_policy_refuses action role scope.

Lemma raw_kind : raw kind = rs_Kind (ci_Resource input).
Proof. unfold NewResourceKind. by case_decide. Qed.

Lemma roles_of_ne role : roles_of role ≠ [].
Proof. unfold request_roles, AddParentRoles. repeat case_decide; done. Qed.

Lemma consulted_unfold pt action role scope :
  consulted rt idx fx pt action role scope =
    Query_spec idx version kind scope action (roles_of role) pt (if decide (pt = KIND_PRINCIPAL) then pr_Id (ci_Principal input) else "") [].
Proof. done. Qed.

Context (Hi : implements known (rt_idx rt) rows) (Hst : stable_request rt ep input verdict).

Lemma base_rows role scope :
  scan idx (base_matches version kind scope (roles_of role) KIND_RESOURCE "") ≠ [] ↔ has_rows role scope.
Proof using Hi.
  split.
  - intros Hne. destruct (scan idx _) as [|b l] eqn:E; [done|].
    assert (b ∈ scan idx (base_matches version kind scope (roles_of role) KIND_RESOURCE "")) as (id & Hl & Hm)%elem_of_scan by (rewrite E; left).
    destruct (live_row _ _ _ _ _ Hi Hl) as (r & core & Hr & Hc & ->). exists id, r. split; [done|]. by rewrite <-(row_base_binding r core id).
  - intros (id & r & Hr & Hm) E. destruct (row_live _ _ _ _ _ Hi Hr) as (core & Hc & Hl). rewrite <-(row_base_binding r core id) in Hm by done.
    apply (elem_of_nil (set_ID (rule_binding r core) id)). rewrite <-E. apply elem_of_scan. eauto.
Qed.

(** Rows that match are the matching rows of the scan. *)
Lemma scan_rows e pt action role scope :
  (∃ b, b ∈ scan idx (λ b, base_matches version kind scope (roles_of role) pt (if decide (pt = KIND_PRINCIPAL) then pr_Id (ci_Principal input) else "") b &&
      action_matches action b) ∧ co_Effect (bh_Core b) = e ∧ verdict b = Some true) ↔ row_applies e pt action role scope.
Proof using Hi.
  split.
  - intros (b & (id & Hl & [Hm Ha]%andb_true_iff)%elem_of_scan & He & Hv). destruct (live_row _ _ _ _ _ Hi Hl) as (r & core & Hr & Hc & Eb).
    exists id, r, b. split_and!; try done.
    + rewrite <-(cof_effect _ _ Hc), <-He, Eb. by destruct (rule_binding_fields r core id) as (_ & _ & _ & _ & _ & -> & _).
    + unfold concerns, row_matches. rewrite <-(row_base_binding r core id) by done. rewrite <-(row_action_binding r core id), <-Eb. by rewrite Hm, Ha.
  - intros (id & r & b & Hr & He & [Hm Ha]%andb_true_iff & Hl & Hv). destruct (live_row _ _ _ _ _ Hi Hl) as (r' & core & Hr' & Hc & Eb).
    assert (r' = r) as -> by congruence. exists b. split_and!; [|..|done].
    + apply elem_of_scan. exists id. split; [done|]. rewrite Eb, row_base_binding, row_action_binding, Hm, Ha by done. done.
    + rewrite Eb. destruct (rule_binding_fields r core id) as (_ & _ & _ & _ & _ & -> & _). by rewrite (cof_effect _ _ Hc).
Qed.

(** An unconditional deny applies. *)
Lemma no_match_applies role v s r a b :
  b = newNoMatchRolePolicyDeny role v s r a → queried rt idx fx b → verdict b = Some true.
Proof using Hst.
  intros -> Hq. apply (st_yields _ _ _ _ _ _ Hst); [done|]. right. split; [done|].
  exists (NewEvalContext ep (checkInputToRequest input)), ∅, ∅. done.
Qed.

Lemma denied_rows action role scope :
  asked fx KIND_RESOURCE action role scope → action ≠ "" → rs_Kind (ci_Resource input) ≠ "" → has_rows role scope →
  (∃ b, b ∈ denies_spec idx (version_matches version) (scope_matches scope) (role_matches (roles_of role)) [kind] (roles_of role) [action] ∧
     co_Effect (bh_Core b) = EFFECT_DENY ∧ verdict b = Some true) ↔ role_policy_refuses action role scope.
Proof using Hi Hst.
  intros Hask Ha Hk Hrows. split.
  - intros (b & Hb & He & Hv). split_and!; [done..|].
    destruct (denies_sound known _ _ Hi version kind scope action (roles_of role) (roles_of_ne role) b Hb) as (role' & Hr & Hg & Hx).
    exists role'. split_and!; [done..|]. destruct Hx as [[Hu _]|(id & r & mb & Hl & Hlv & Hs)]; [by left|right]. eauto 10.
  - intros (_ & _ & _ & role' & Hr & Hg & Hx). destruct Hx as [Hu|(id & r & mb & b & Hl & Hlv & Hs & He & Hv)].
    + destruct (denies_unlisted known _ _ Hi version kind scope action (roles_of role) (roles_of_ne role) role' Hr Hg Hu) as (v & s & r & Hin).
      eexists. split; [exact Hin|]. split; [done|]. eapply no_match_applies; [done|]. exists KIND_RESOURCE, action, role, scope. split; [done|].
      rewrite consulted_unfold. unfold Query_spec. apply base_rows in Hrows. destruct (scan idx _); [done|].
      rewrite bool_decide_true by (by rewrite raw_kind). apply elem_of_app. right. apply elem_of_app. by left.
    + exists b. split; [|done]. by eapply (denies_listed known _ _ Hi version kind scope action (roles_of role) (roles_of_ne role)).
Qed.

Lemma applies_rows e pt action role scope :
  e = EFFECT_ALLOW ∨ e = EFFECT_DENY → pt = KIND_PRINCIPAL ∨ pt = KIND_RESOURCE → asked fx pt action role scope →
  applies rt idx fx verdict e pt action role scope ↔ rule_applies action e pt role scope.
Proof using Hi Hst.
  intros He Hpt Hask. unfold rule_applies. rewrite <-scan_rows. unfold applies. rewrite consulted_unfold. unfold Query_spec.
  set (p := if decide (pt = KIND_PRINCIPAL) then _ else _).
  destruct (decide (scan idx (base_matches version kind scope (roles_of role) pt p) = [])) as [E|Hne].
  - rewrite E. split; [by intros (b & ?%elem_of_nil & _)|]. intros [(b & (id & Hl & [Hm _]%andb_true_iff)%elem_of_scan & _)|(_ & -> & _ & _ & Hr & _)].
    + exfalso. apply (elem_of_nil b). rewrite <-E. apply elem_of_scan. eauto.
    + by apply base_rows in Hr.
  - replace (match scan idx (base_matches version kind scope (roles_of role) pt p) with [] => [] | _ :: _ => _ end) with
      ((if bool_decide (action ≠ "" ∧ raw kind ≠ "" ∧ pt = KIND_RESOURCE)
        then denies_spec idx (version_matches version) (scope_matches scope) (role_matches (roles_of role)) [kind] (roles_of role) [action] else []) ++
       scan idx (λ b, base_matches version kind scope (roles_of role) pt p b && action_matches action b)) by (by destruct (scan idx (base_matches _ _ _ _ _ _))).
    setoid_rewrite elem_of_app. rewrite raw_kind. case_bool_decide as Hd.
    + destruct Hd as (Ha & Hk & ->). pose proof (proj1 (base_rows _ _) Hne) as Hrows.
      destruct He as [->| ->].
      * split; [|intros [(b & ? & ?)|(? & _)]; [eauto|done]]. intros (b & [Hb|Hb] & Heb & Hv); [|left; eauto]. exfalso.
        destruct (denies_sound known _ _ Hi version kind scope action (roles_of role) (roles_of_ne role) b Hb) as (role' & _ & _ & [(_ & v & s & r & ->)|(id & r & mb & _ & _ & Hs)]); [done|].
        unfold synthesise in Hs. destruct (co_Condition (bh_Core mb)); [|destruct (co_EmitOutput (bh_Core mb))];
          [apply list_elem_of_singleton in Hs as ->; done..|by apply elem_of_nil in Hs].
      * rewrite <-(denied_rows action role scope Hask Ha Hk Hrows). split.
        -- intros (b & [Hb|Hb] & ?); [right|left; eauto]. split_and!; [done..|eauto].
        -- intros [(b & Hb & ?)|(_ & _ & b & Hb & ?)]; exists b; auto.
    + split.
      * intros (b & [?%elem_of_nil|Hb] & ?); [done|]. left. eauto.
      * intros [(b & ? & ?)|(_ & -> & Ha & Hk & _)]; [eauto|]. by destruct Hd.
Qed.

(** An action is permitted in terms of the bindings consulted exactly when it is
    in terms of the rows. *)
Lemma permitted_rows action :
  action ∈ ci_Actions input → permitted rt idx fx verdict action ↔ permitted_on rt fx (rule_applies action).
Proof using Hi Hst. intros Ha. apply permitted_on_ext. intros e pt role s He Hpt Hr Hs. by apply applies_rows. Qed.
End rows.
