(* ===== verification/PlanExpr.v ===== *)
(** Expressions of query plans: the CEL syntax trees the planner works on
    ([google.api.expr.v1alpha1.Expr]), the operands of plan filters
    ([PlanResourcesFilter.Expression.Operand] of
    [src/api/public/cerbos/engine/v1/engine.proto]), and the translation of the
    first into the second: [buildExpr] of
    [src/internal/ruletable/planner/ast.go] with [lambda.go]. *)
From Stdlib Require Import Floats.SpecFloat.
From S2P Require Import Prelude GoRuntime Namer Policy ScopePerms.

Local Open Scope string_scope.
Local Open Scope list_scope.
Open Scope nat_scope.

(** * CEL syntax trees *)

Inductive Constant_ :=
  | K_null | K_bool (b : bool) | K_int64 (z : Z) | K_uint64 (n : N) | K_double (bits : N)
  | K_string (s : string) | K_bytes (l : list N) | K_unset.

(** The identifiers of nodes are left out; [E_unset] is a node whose kind is not set. *)
Inductive PExpr :=
  | E_unset
  | E_Const (c : Constant_)
  | E_Ident (name : string)
  | E_Select (operand : PExpr) (field : string) (testOnly : bool)
  | E_Call (function : string) (target : option PExpr) (args : list PExpr)
  | E_List (elements : list PExpr) (optionalIndices : list Z)
  | E_Struct (messageName : string) (entries : list StructEntry)
  | E_Comprehension (iterVar iterVar2 : string) (iterRange : PExpr) (accuVar : string) (accuInit loopCondition loopStep result : PExpr)
with StructEntry :=
  | MkEntry (key : EntryKey) (value : PExpr) (optionalEntry : bool)
with EntryKey :=
  | FieldKey (s : string)
  | MapKey (e : PExpr).

Definition en_key (e : StructEntry) : EntryKey := let 'MkEntry k _ _ := e in k.
Definition en_value (e : StructEntry) : PExpr := let 'MkEntry _ v _ := e in v.
Definition en_optional (e : StructEntry) : bool := let 'MkEntry _ _ o := e in o.

Fixpoint expr_size (e : PExpr) : nat :=
  match e with
  | E_unset | E_Const _ | E_Ident _ => 1
  | E_Select e _ _ => S (expr_size e)
  | E_Call _ t l => S ((match t with Some t => expr_size t | None => 0 end) + sum_list_with expr_size l)
  | E_List l _ => S (sum_list_with expr_size l)
  | E_Struct _ l => S (S (sum_list_with entry_size l))
  | E_Comprehension _ _ r _ a c s x => S (expr_size r + expr_size a + expr_size c + expr_size s + expr_size x)
  end
with entry_size (e : StructEntry) : nat :=
  match e with
  | MkEntry k v _ => match k with FieldKey _ => 1 | MapKey k => expr_size k end + expr_size v
  end.

(** Induction over expressions, with the hypothesis for all parts. *)
Section PExpr_ind'.
Context (P : PExpr → Prop).
Definition entry_all (en : StructEntry) : Prop := match en_key en with MapKey k => P k | FieldKey _ => True end ∧ P (en_value en).
Context (P_unset : P E_unset) (P_Const : ∀ c, P (E_Const c)) (P_Ident : ∀ x, P (E_Ident x)) (P_Select : ∀ e f t, P e → P (E_Select e f t)).
Context (P_Call : ∀ f t l, match t with Some t => P t | None => True end → Forall P l → P (E_Call f t l)) (P_List : ∀ l o, Forall P l → P (E_List l o)).
Context (P_Struct : ∀ m l, Forall entry_all l → P (E_Struct m l)).
Context (P_Comprehension : ∀ v v2 r a i c s x, P r → P i → P c → P s → P x → P (E_Comprehension v v2 r a i c s x)).
Fixpoint PExpr_ind' (e : PExpr) : P e :=
  let all := fix go l : Forall P l := match l with [] => Forall_nil_2 P | e :: l => Forall_cons_2 P e l (PExpr_ind' e) (go l) end in
  match e with
  | E_unset => P_unset
  | E_Const c => P_Const c
  | E_Ident x => P_Ident x
  | E_Select e f t => P_Select e f t (PExpr_ind' e)
  | E_Call f t l => P_Call f t l (match t with Some t => PExpr_ind' t | None => I end) (all l)
  | E_List l o => P_List l o (all l)
  | E_Struct m l => P_Struct m l ((fix go l : Forall entry_all l :=
      match l with
      | [] => Forall_nil_2 _
      | MkEntry k v o :: l => Forall_cons_2 _ (MkEntry k v o) l
          (conj (match k as k0 return match k0 with MapKey e => P e | FieldKey _ => True end with FieldKey _ => I | MapKey e => PExpr_ind' e end) (PExpr_ind' v)) (go l)
      end) l)
  | E_Comprehension v v2 r a i c s x => P_Comprehension v v2 r a i c s x (PExpr_ind' r) (PExpr_ind' i) (PExpr_ind' c) (PExpr_ind' s) (PExpr_ind' x)
  end.
End PExpr_ind'.

(** * Operands of filters *)

(** [O_unset] is an operand whose node is not set, [O_nil] a nil pointer in a list of operands. *)
Inductive Operand :=
  | O_Value (v : Value)
  | O_Variable (name : string)
  | O_Expression (operator : string) (operands : list Operand)
  | O_unset
  | O_nil.

Module Op.
Definition Or : string := "or".
Definition And : string := "and".
Definition Not : string := "not".
Definition Equals : string := "eq".
Definition NotEquals : string := "ne".
Definition GreaterThan : string := "gt".
Definition GreaterThanOrEqual : string := "ge".
Definition LessThan : string := "lt".
Definition LessThanOrEqual : string := "le".
Definition In : string := "in".
Definition List : string := "list".
Definition Struct : string := "struct".
Definition Add : string := "add".
Definition Sub : string := "sub".
Definition Mult : string := "mult".
Definition Div : string := "div".
Definition Mod : string := "mod".
Definition SetField : string := "set-field".
Definition GetField : string := "get-field".
Definition Index : string := "index".
Definition All : string := "all".
Definition Filter : string := "filter".
Definition TransformMap : string := "transformMap".
Definition TransformMapEntry : string := "transformMapEntry".
Definition TransformList : string := "transformList".
Definition Exists : string := "exists".
Definition ExistsOne : string := "exists_one".
Definition Map : string := "map".
Definition Lambda : string := "lambda".
Definition If : string := "if".
End Op.

(** The names cel-go gives to operators ([common/operators]). *)
Module operators.
Definition Conditional : string := "_?_:_".
Definition LogicalAnd : string := "_&&_".
Definition LogicalOr : string := "_||_".
Definition LogicalNot : string := "!_".
Definition Equals : string := "_==_".
Definition NotEquals : string := "_!=_".
Definition Less : string := "_<_".
Definition LessEquals : string := "_<=_".
Definition Greater : string := "_>_".
Definition GreaterEquals : string := "_>=_".
Definition Add : string := "_+_".
Definition Subtract : string := "_-_".
Definition Multiply : string := "_*_".
Definition Divide : string := "_/_".
Definition Modulo : string := "_%_".
Definition Index : string := "_[_]".
Definition In : string := "@in".
End operators.

(** The name of the operator; a function with no operator keeps its name (and the
    error is ignored by the only caller). *)
Definition opFromCLE (fn : string) : string :=
  if decide (fn = operators.Equals) then Op.Equals
  else if decide (fn = operators.NotEquals) then Op.NotEquals
  else if decide (fn = operators.Greater) then Op.GreaterThan
  else if decide (fn = operators.GreaterEquals) then Op.GreaterThanOrEqual
  else if decide (fn = operators.Less) then Op.LessThan
  else if decide (fn = operators.LessEquals) then Op.LessThanOrEqual
  else if decide (fn = operators.In) then Op.In
  else if decide (fn = operators.Add) then Op.Add
  else if decide (fn = operators.Subtract) then Op.Sub
  else if decide (fn = operators.Multiply) then Op.Mult
  else if decide (fn = operators.Divide) then Op.Div
  else if decide (fn = operators.Modulo) then Op.Mod
  else if decide (fn = operators.Index) then Op.Index
  else if decide (fn = operators.LogicalAnd) then Op.And
  else if decide (fn = operators.LogicalOr) then Op.Or
  else if decide (fn = operators.LogicalNot) then Op.Not
  else if decide (fn = operators.Conditional) then Op.If
  else fn.

(** * Results: a panic, an error or a value *)

Inductive PlanErr :=
  | PE_Strict (expression msg : string)   (* evaluator.StrictEvaluationError *)
  | PE_Optional (what : string)           (* ErrOptionalNotSupported *)
  | PE_Other (what : string).

Definition PR (A : Type) : Type := option (A + PlanErr).
#[export] Instance PR_ret : MRet PR := λ A x, Some (inl x).
#[export] Instance PR_bind : MBind PR := λ A B f m,
  match m with
  | Some (inl x) => f x
  | Some (inr e) => Some (inr e)
  | None => None
  end.
Definition perr {A} (e : PlanErr) : PR A := Some (inr e).

(** * Constants as values *)

(** [float64(z)] as IEEE-754 bits: rounding to nearest even. *)
Definition float64_bits (f : spec_float) : N :=
  match f with
  | S754_zero s => if s then 2 ^ 63 else 0
  | S754_infinity s => (if s then 2 ^ 63 else 0) + 2047 * 2 ^ 52
  | S754_nan => 2047 * 2 ^ 52 + 2 ^ 51
  | S754_finite s m e =>
      (if s then 2 ^ 63 else 0) +
      (if decide (2 ^ 52 ≤ Npos m) then Z.to_N (e + 1075) * 2 ^ 52 + (Npos m - 2 ^ 52) else Npos m)
  end%N.
Definition float64_of_Z (z : Z) : N := float64_bits (binary_normalize 53 1024 z 0 false).

(** Standard base64 with padding, the JSON form of bytes. *)
Definition base64_digit (n : N) : ascii :=
  let n := N.to_nat n in
  default "="%char (String.get n "ABCDEFGHIJKLMNOPQRSTUVWXYZabcdefghijklmnopqrstuvwxyz0123456789+/").
Fixpoint base64 (l : list N) : string :=
  match l with
  | [] => ""
  | [a] => String (base64_digit (a / 4)) (String (base64_digit (a mod 4 * 16)) "==")
  | [a; b] => String (base64_digit (a / 4)) (String (base64_digit (a mod 4 * 16 + b / 16)) (String (base64_digit (b mod 16 * 4)) "="))
  | a :: b :: c :: l =>
      String (base64_digit (a / 4)) (String (base64_digit (a mod 4 * 16 + b / 16))
        (String (base64_digit (b mod 16 * 4 + c / 64)) (String (base64_digit (c mod 64)) (base64 l))))
  end%N.

Definition visitConst (c : Constant_) : PR Value :=
  match c with
  | K_bool b => mret (V_bool b)
  | K_bytes l => mret (V_string (base64 l))
  | K_double bits => mret (V_number bits)
  | K_int64 z => mret (V_number (float64_of_Z z))
  | K_null => mret V_null
  | K_string s => mret (V_string s)
  | K_uint64 n => mret (V_number (float64_of_Z (Z.of_N n)))
  | K_unset => perr (PE_Other "unsupported constant")
  end.

(** * Helpers that build expressions *)

Definition MkListExprProto (elems : list PExpr) : PExpr := E_List elems [].
Definition MkCallExprProto (op : string) (args : list PExpr) : PExpr := E_Call op None args.
Definition mkConstStringExpr (s : string) : PExpr := E_Const (K_string s).
Definition mkExprOpExpr (op : string) (args : list Operand) : Operand := O_Expression op args.

(** The text of an expression ([String] of the protobuf library), which keys of
    a struct are sorted by. *)
Class ProtoText := { expr_String : PExpr → string }.

Section build.
Context `{ProtoText}.

Definition key_expr (e : StructEntry) : PExpr :=
  match en_key e with MapKey k => k | FieldKey f => mkConstStringExpr f end.
Definition key_le (a b : PExpr) : Prop := string_le (expr_String a) (expr_String b).
#[global] Instance key_le_dec a b : Decision (key_le a b).
Proof. unfold key_le. apply _. Defined.

Definition structKeys (entries : list StructEntry) : list PExpr := merge_sort key_le (key_expr <$> entries).

(** * Comprehensions *)

Record lambdaAST := MkLambda {
  la_iterRange : PExpr;
  la_expr : option PExpr;
  la_expr2 : option PExpr;
  la_iterVar : string;
  la_iterVar2 : string;
  la_operator : string;
}.

(** The accessors of [wrapper], on an expression that may be nil. *)
Definition getArg (w : option PExpr) (i : nat) : option PExpr :=
  match w with Some (E_Call _ _ args) => args !! i | _ => None end.
Definition getArgsLen (w : option PExpr) : nat :=
  match w with Some (E_Call _ _ args) => length args | _ => 0 end.
Definition getListElement (w : option PExpr) (i : nat) : option PExpr :=
  match w with Some (E_List l _) => l !! i | _ => None end.
Definition wrapper_Function (w : option PExpr) : string :=
  match w with Some (E_Call f _ _) => f | _ => "" end.

Definition getTransformMapExpression (w : option PExpr) : PR (string * option PExpr) :=
  let n := getArgsLen w in
  if decide (n = 3) then mret (Op.TransformMap, getArg w (n - 1))
  else if decide (n = 2) then mret (Op.TransformMapEntry, getArg w (n - 1))
  else perr (PE_Other "unexpected args #").

Definition sortByFuncName : string := "sortBy".

Definition mkSortByAST (accuInit result : PExpr) : PR lambdaAST :=
  let w := Some result in
  match getArg w 0 with
  | Some (E_Comprehension iterVar _ _ _ _ _ loopStep _) =>
      if decide (getArgsLen w ≠ 1 ∨ wrapper_Function w ≠ "@sortByAssociatedKeys") then perr (PE_Other "expected sortBy comprehension")
      else
        match getListElement (getArg (Some loopStep) 1) 0 with
        | Some e => mret (MkLambda accuInit (Some e) None iterVar "" sortByFuncName)
        | None => perr (PE_Other "expected sortBy comprehension")
        end
  | _ => perr (PE_Other "expected sortBy comprehension")
  end.

Definition is_call (w : option PExpr) : bool := match w with Some (E_Call _ _ _) => true | _ => false end.

Definition buildLambdaAST (iterVar iterVar2 : string) (iterRange accuInit loopStep result : PExpr) : PR lambdaAST :=
  match loopStep with
  | E_Ident _ => mkSortByAST accuInit result
  | E_Call function _ _ =>
      let ls := Some loopStep in
      let obj op e e2 := MkLambda iterRange e e2 iterVar iterVar2 op in
      if decide (function = operators.LogicalAnd) then mret (obj Op.All (getArg ls 1) None)
      else if decide (function = operators.LogicalOr) then mret (obj Op.Exists (getArg ls 1) None)
      else if decide (function = operators.Add) then
        mret (obj (if decide (iterVar2 = "") then Op.Map else Op.TransformList) (getListElement (getArg ls 1) 0) None)
      else if decide (function = operators.Conditional) then
        match accuInit with
        | E_List _ _ =>
            let e2 := getListElement (getArg (getArg ls 1) 1) 0 in
            mret (if is_call e2 then obj Op.TransformList (getArg ls 0) e2 else obj Op.Filter (getArg ls 0) None)
        | E_Const _ => mret (obj Op.ExistsOne (getArg ls 0) None)
        | E_Struct _ _ => '(op, e2) ← getTransformMapExpression (getArg ls 1); mret (obj op (getArg ls 0) e2)
        | _ => perr (PE_Other "expected loop-accu-init expression type ConstExpr or ListExpr")
        end
      else if decide (function = "cel.@mapInsert") then '(op, e) ← getTransformMapExpression ls; mret (obj op e None)
      else perr (PE_Other "unexpected loop-step function")
  | _ => perr (PE_Other "expected loop-step expression type CallExpr")
  end.

Definition canOperateOnStruct (op : string) : bool :=
  bool_decide (op = Op.TransformMap ∨ op = Op.TransformMapEntry ∨ op = Op.TransformList).

(** * [buildExprImpl] *)

(** The names of a chain of selections, when it ends in an identifier. *)
Fixpoint select_names (e : PExpr) : option (list string) :=
  match e with
  | E_Ident name => Some [name]
  | E_Select e field _ => names ← select_names e; Some (names ++ [field])
  | _ => None
  end.
Definition dotted (names : list string) : string := String.concat "." names.

Definition all_const (l : list PExpr) : option (list Constant_) :=
  mapM (λ e, match e with E_Const c => Some c | _ => None end) l.

(** The parts of a lambda, given how expressions are built. *)
Definition buildLambdaExprOp (build : PExpr → PR Operand) (e : option PExpr) : PR Operand :=
  match e with None => mret O_nil | Some e => build e end.
Definition buildIterRangeOp (build : PExpr → PR Operand) (la : lambdaAST) : PR Operand :=
  build (match la_iterRange la with
         | E_Struct _ entries => if canOperateOnStruct (la_operator la) then la_iterRange la else MkListExprProto (structKeys entries)
         | ir => ir
         end).
Definition mkNode (build : PExpr → PR Operand) (la : lambdaAST) : PR Operand :=
  lambda ← buildLambdaExprOp build (la_expr la);
  lambda2 ← buildLambdaExprOp build (la_expr2 la);
  let lambdaArgs := [lambda] ++ (match lambda2 with O_nil => [] | _ => [lambda2] end) ++ [O_Variable (la_iterVar la)] ++
    (if decide (la_iterVar2 la ≠ "") then [O_Variable (la_iterVar2 la)] else []) in
  target ← buildIterRangeOp build la;
  mret (mkExprOpExpr (la_operator la) [target; mkExprOpExpr Op.Lambda lambdaArgs]).

(** [inRhs] tells that the expression is the right-hand side of a membership test
    (the comparison with the parent in the source).  The recursion goes into
    parts of the expression, and into a list made of the keys of a struct; its
    depth is bounded by the size of the expression. *)
Fixpoint buildExprImpl (fuel : nat) (cur : PExpr) (inRhs : bool) : PR Operand :=
  match fuel with
  | 0 => None
  | S fuel =>
      let build e := buildExprImpl fuel e false in
      match cur with
      | E_Call function target args =>
          t ← (match target with Some t => o ← build t; mret [o] | None => mret [] end);
          let member := bool_decide (function = operators.In ∧ length args = 2) in
          l ← mapM (λ '(i, arg), buildExprImpl fuel arg (member && bool_decide (i = 1))) (imap pair args);
          mret (mkExprOpExpr (opFromCLE function) (t ++ l))
      | E_Const c => v ← visitConst c; mret (O_Value v)
      | E_Ident name => mret (O_Variable name)
      | E_Select operand field testOnly =>
          if (testOnly : bool) then mret (O_Value (V_bool true))
          else
            match select_names cur with
            | Some names => mret (O_Variable (dotted names))
            | None => op ← build operand; mret (mkExprOpExpr Op.GetField [op; O_Variable field])
            end
      | E_List elements optionalIndices =>
          if decide (optionalIndices ≠ []) then perr (PE_Optional "optional list element")
          else
            match all_const elements with
            | Some cs => vs ← mapM visitConst cs; mret (O_Value (V_list vs))
            | None => ops ← mapM build elements; mret (mkExprOpExpr Op.List ops)
            end
      | E_Struct _ entries =>
          if (inRhs : bool) then buildExprImpl fuel (MkListExprProto (structKeys entries)) false
          else
            ops ← mapM (λ en,
              if en_optional en then perr (PE_Optional "optional map entry")
              else
                k ← (match en_key en with MapKey k => build k | FieldKey f => mret (O_Value (V_string f)) end);
                v ← build (en_value en);
                mret (mkExprOpExpr Op.SetField [k; v])) entries;
            mret (mkExprOpExpr Op.Struct ops)
      | E_Comprehension iterVar iterVar2 iterRange _ accuInit _ loopStep result =>
          la ← buildLambdaAST iterVar iterVar2 iterRange accuInit loopStep result;
          mkNode build la
      | E_unset => perr (PE_Other "buildExprImpl: unsupported expression")
      end
  end.

(** The size of the expression is fuel enough ([buildExprImpl_returns]). *)
Definition buildExpr (e : PExpr) : PR Operand := buildExprImpl (S (expr_size e)) e false.

(** ** Fuel *)

Lemma returns_bind {A B} (m : PR A) (f : A → PR B) : is_Some m → (∀ x, is_Some (f x)) → is_Some (m ≫= f).
Proof. intros [[x|e] ->] Hf; [apply Hf|]. by eexists. Qed.
Lemma returns_mapM {A B} (f : A → PR B) l : (∀ x, x ∈ l → is_Some (f x)) → is_Some (mapM f l).
Proof.
  induction l as [|x l IH]; intros Hl; [by eexists|]. cbn [mapM]. apply returns_bind; [apply Hl; left|]. intros y.
  apply returns_bind; [apply IH; intros z Hz; apply Hl; by right|]. intros ys. by eexists.
Qed.

Lemma size_elem {A} (f : A → nat) x l : x ∈ l → f x ≤ sum_list_with f l.
Proof. induction 1; cbn; lia. Qed.
Lemma size_getArg w i e : getArg w i = Some e → match w with Some w => expr_size e < expr_size w | None => False end.
Proof.
  destruct w as [[]|]; try done. cbn. intros Hl%list_elem_of_lookup_2%(size_elem expr_size). destruct target; lia.
Qed.
Lemma size_getListElement w i e : getListElement w i = Some e → match w with Some w => expr_size e < expr_size w | None => False end.
Proof. destruct w as [[]|]; try done. cbn. intros Hl%list_elem_of_lookup_2%(size_elem expr_size). lia. Qed.

(** Keys of a struct, as a list, are smaller than the struct. *)
Lemma size_structKeys m entries : expr_size (MkListExprProto (structKeys entries)) < expr_size (E_Struct m entries).
Proof.
  cbn. assert (∀ l l', l ≡ₚ l' → sum_list_with expr_size l = sum_list_with expr_size l') as Hp by (induction 1; cbn; lia).
  unfold structKeys. rewrite (Hp _ _ (merge_sort_Permutation _ _)). induction entries as [|[[f|k] v o] l IH]; cbn in *; lia.
Qed.

(** Lambdas are made of parts of the comprehension. *)
Lemma size_getArg2 w i j e : getArg (getArg w i) j = Some e → match w with Some w => expr_size e < expr_size w | None => False end.
Proof. intros E%size_getArg. destruct (getArg w i) as [x|] eqn:Ex; [|done]. apply size_getArg in Ex. destruct w; [lia|done]. Qed.
Lemma size_getListElement_arg w i j e : getListElement (getArg w i) j = Some e → match w with Some w => expr_size e < expr_size w | None => False end.
Proof. intros E%size_getListElement. destruct (getArg w i) as [x|] eqn:Ex; [|done]. apply size_getArg in Ex. destruct w; [lia|done]. Qed.
Lemma size_getListElement_arg2 w i j k e :
  getListElement (getArg (getArg w i) j) k = Some e → match w with Some w => expr_size e < expr_size w | None => False end.
Proof. intros E%size_getListElement. destruct (getArg (getArg w i) j) as [x|] eqn:Ex; [|done]. apply size_getArg2 in Ex. destruct w; [lia|done]. Qed.

Definition lambda_smaller (n : nat) (la : lambdaAST) : Prop :=
  expr_size (la_iterRange la) < n ∧ (∀ e, la_expr la = Some e → expr_size e < n) ∧ (∀ e, la_expr2 la = Some e → expr_size e < n).

Lemma getTransformMap_smaller w op e e' : getTransformMapExpression w = Some (inl (op, e)) → e = Some e' → match w with Some w => expr_size e' < expr_size w | None => False end.
Proof. unfold getTransformMapExpression. repeat case_decide; try done; intros [= _ <-]; apply size_getArg. Qed.

Lemma mkSortByAST_smaller init result la : mkSortByAST init result = Some (inl la) → lambda_smaller (S (expr_size init + expr_size result)) la.
Proof.
  unfold mkSortByAST. destruct (getArg (Some result) 0) as [x|] eqn:Ex; [|done]. apply size_getArg in Ex. destruct x; try done. case_decide; [done|].
  destruct (getListElement _ 0) as [e|] eqn:Ee; [|done]. intros [= <-]. apply size_getListElement_arg in Ee. cbn in Ex.
  split_and!; cbn; [lia|intros ? [= <-]; lia|done].
Qed.

Lemma buildLambdaAST_smaller v v2 range init c step result a la :
  buildLambdaAST v v2 range init step result = Some (inl la) → lambda_smaller (expr_size (E_Comprehension v v2 range a init c step result)) la.
Proof.
  unfold buildLambdaAST. intros E.
  assert (∀ op e e2, (∀ x, e = Some x → expr_size x < expr_size step) → (∀ x, e2 = Some x → expr_size x < expr_size step) →
    lambda_smaller (expr_size (E_Comprehension v v2 range a init c step result)) (MkLambda range e e2 v v2 op)) as Hobj.
  { intros op e e2 H1' H2'. split_and!; cbn; [lia|intros x Hx%H1'; lia|intros x Hx%H2'; lia]. }
  destruct step as [| |x| |f t l| | |]; try done.
  { apply mkSortByAST_smaller in E as (? & Ha & Hb). split_and!; cbn; [lia|intros e He%Ha; lia|intros e He%Hb; lia]. }
  pose proof (λ i e, size_getArg (Some (E_Call f t l)) i e) as G1. pose proof (λ i j e, size_getListElement_arg (Some (E_Call f t l)) i j e) as G2.
  pose proof (λ i j k e, size_getListElement_arg2 (Some (E_Call f t l)) i j k e) as G3. cbv beta iota in G1, G2, G3.
  repeat (case_decide; [try (injection E as <-; apply Hobj; [apply G1 || apply G2|done]); try done|]); try done.
  - destruct init; try done; [injection E as <-; apply Hobj; [apply G1|done]| |].
    + destruct (is_call _); injection E as <-; apply Hobj; [apply G1|apply G3|apply G1|done].
    + destruct (getTransformMapExpression _) as [[[op e2]|]|] eqn:Et; try done. injection E as <-. apply Hobj; [apply G1|].
      intros x Hx. pose proof (getTransformMap_smaller _ _ _ _ Et Hx) as Hs. destruct (getArg (Some (E_Call f t l)) 1) as [y|] eqn:Ey; [|done].
      apply G1 in Ey. lia.
  - destruct (getTransformMapExpression _) as [[[op e1]|]|] eqn:Et; try done. injection E as <-. apply Hobj; [|done].
    intros x Hx. by apply (getTransformMap_smaller _ _ _ _ Et Hx).
Qed.

Lemma buildLambdaAST_returns v v2 range init step result : is_Some (buildLambdaAST v v2 range init step result).
Proof.
  assert (∀ w, is_Some (getTransformMapExpression w)) as Ht by (intros w; unfold getTransformMapExpression; repeat case_decide; by eexists).
  unfold buildLambdaAST. destruct step; try by eexists.
  - unfold mkSortByAST. repeat case_match; by eexists.
  - repeat (case_decide; [try by eexists|]); [| |by eexists].
    + destruct init; try by eexists. apply returns_bind; [apply Ht|]. intros []. by eexists.
    + apply returns_bind; [apply Ht|]. intros []. by eexists.
Qed.

Lemma visitConst_returns c : is_Some (visitConst c).
Proof. by destruct c; eexists. Qed.

Lemma buildExprImpl_returns fuel e inRhs : expr_size e < fuel → is_Some (buildExprImpl fuel e inRhs).
Proof.
  revert e inRhs. induction fuel as [|fuel IH]; [lia|]. intros e inRhs Hlt.
  assert (∀ x b, expr_size x < expr_size e → is_Some (buildExprImpl fuel x b)) as IHx by (intros x b Hx; apply IH; lia). clear IH Hlt.
  destruct e as [|c|x|e f t|f t l|l o|m l|v v2 r a i c s x]; cbn [buildExprImpl]; try by eexists.
  - apply returns_bind; [apply visitConst_returns|]. by eexists.
  - destruct t; [by eexists|]. destruct (select_names _); [by eexists|]. apply returns_bind; [apply IHx; cbn; lia|]. by eexists.
  - apply returns_bind.
    + destruct t as [t|]; [|by eexists]. apply returns_bind; [apply IHx; cbn; lia|]. by eexists.
    + intros t'. apply returns_bind; [|by eexists]. apply returns_mapM. intros [i x] Hi. apply IHx.
      apply list_elem_of_lookup in Hi as [j Hj]. rewrite list_lookup_imap in Hj. destruct (l !! j) as [y|] eqn:Ey; [|done]. injection Hj as <- <-.
      apply list_elem_of_lookup_2, (size_elem expr_size) in Ey. cbn. destruct t; lia.
  - case_decide; [by eexists|]. destruct (all_const l).
    + apply returns_bind; [apply returns_mapM; intros; apply visitConst_returns|]. by eexists.
    + apply returns_bind; [|by eexists]. apply returns_mapM. intros x Hx%(size_elem expr_size). apply IHx. cbn. lia.
  - destruct inRhs; [apply IHx, size_structKeys|]. apply returns_bind; [|by eexists]. apply returns_mapM. intros [k v o] Hx%(size_elem entry_size).
    cbn in Hx |- *. destruct o; [by eexists|]. apply returns_bind; [destruct k; [by eexists|apply IHx; cbn; lia]|]. intros k'.
    apply returns_bind; [apply IHx; cbn; lia|]. by eexists.
  - destruct (buildLambdaAST_returns v v2 r i s x) as [[la|er] El]; rewrite El; [|by eexists].
    apply (buildLambdaAST_smaller _ _ _ _ c _ _ a) in El as (Hr & He & He2). change (mbind (M := PR) ?f (Some (inl la))) with (f la). cbv beta zeta.
    unfold mkNode, buildLambdaExprOp, buildIterRangeOp. apply returns_bind; [destruct (la_expr la) as [e|]; [by apply IHx, He|by eexists]|]. intros lambda.
    apply returns_bind; [destruct (la_expr2 la) as [e|]; [by apply IHx, He2|by eexists]|]. intros lambda2.
    apply returns_bind; [|by eexists]. destruct (la_iterRange la) as [| | | | | |m l|] eqn:Er; try (apply IHx; exact Hr).
    destruct (canOperateOnStruct _); apply IHx; [exact Hr|]. pose proof (size_structKeys m l). lia.
Qed.
End build.
