(* ===== verification/PlanFilter.v ===== *)
(** Filters of query plans: the nodes of plans, their translation to filters and
    the normalisation of filters ([src/internal/ruletable/planner/ast.go]), and
    the conjunction of the filters of several actions ([merge.go]).

    Normalising mutates the operands it visits, and the duplicates of a
    conjunction or disjunction are found by the hash of an operand after it has
    been visited, so the normaliser returns both its result and the operand as it
    is afterwards. *)
From S2P Require Import Prelude GoRuntime Namer Policy ScopePerms PlanExpr.

Local Open Scope string_scope.
Local Open Scope list_scope.
Open Scope nat_scope.

(** * Nodes of plans *)

Inductive LogicalOperator := OPERATOR_UNSPECIFIED | OPERATOR_AND | OPERATOR_OR | OPERATOR_NOT.
#[export] Instance LogicalOperator_eq_dec : EqDecision LogicalOperator.
Proof. solve_decision. Defined.

(** [N_unset] is a node whose kind is not set. *)
Inductive QpN :=
  | N_Expression (expression : PExpr)
  | N_LogicalOperation (operator : LogicalOperator) (nodes : list QpN)
  | N_unset.

(** * Filters *)

Inductive FilterKind := KIND_FILTER_UNSPECIFIED | KIND_ALWAYS_ALLOWED | KIND_ALWAYS_DENIED | KIND_CONDITIONAL.
Record PlanResourcesFilter := MkFilter { pf_Kind : FilterKind; pf_Condition : option Operand }.

(** Third-party code: the hash of an operand ([HashPB]), and the JSON form of a
    value ([protojson.Marshal]), which may fail. *)
Class OperandText := {
  hash_operand : Operand → N;
  value_json : Value → option string;
}.

(** [conditions.ExpandAbbrev] *)
Fixpoint cut_dot (s : string) : string * option string :=
  match s with
  | EmptyString => ("", None)
  | String c s => if decide (c = "."%char) then ("", Some s) else let '(a, b) := cut_dot s in (String c a, b)
  end.
Definition expand_prefix (prefix : string) : string :=
  if decide (prefix = "P") then "request.principal"
  else if decide (prefix = "R") then "request.resource"
  else if decide (prefix = "C") then "constants"
  else if decide (prefix = "V") then "variables"
  else if decide (prefix = "G") then "globals"
  else prefix.
Definition ExpandAbbrev (s : string) : string :=
  let '(prefix, rest) := cut_dot s in
  match rest with
  | Some rest => expand_prefix prefix +:+ "." +:+ rest
  | None => expand_prefix prefix
  end.

Definition falseExprOpValue : Operand := O_Value (V_bool false).
Definition trueExprOpValue : Operand := O_Value (V_bool true).

Definition asBoolValue (op : Operand) : option bool :=
  match op with O_Value (V_bool b) => Some b | _ => None end.

Definition is_logical (operator : string) : bool := bool_decide (operator = Op.And ∨ operator = Op.Or ∨ operator = Op.Not).

(** A membership test in a constant: [inl] when it is decided, otherwise the new
    operator, and the new second operand when there is one. *)
Definition normaliseInExpr (operator : string) (operands : list Operand) : Operand + (string * option Operand) :=
  match operands !! 1 with
  | Some (O_Value v) =>
      match v with
      | V_struct [] | V_list [] => inl falseExprOpValue
      | V_struct [(k, _)] => inr (Op.Equals, Some (O_Value (V_string k)))
      | V_list [x] => inr (Op.Equals, Some (O_Value x))
      | V_struct _ | V_list _ => inr (operator, None)
      | _ => inr (Op.Equals, None)
      end
  | _ => inr (operator, None)
  end.

(** What the loop over operands comes to: an early return, or the operands kept.
    [after] lists the operands as they are then; an early return leaves the rest
    unvisited. *)
Inductive loop_result :=
  | L_return (o : Operand) (after : list Operand)
  | L_operands (operands after : list Operand).

Section filter.
Context `{ProtoText} `{OperandText}.

Definition visited : Type := Operand * (option Operand * Operand).

(** [for _, op := range expr.Expression.Operands]; [logical] is empty for an
    operator that is not a logical one. *)
Fixpoint norm_operands (logical : string) (hashes : gset N) (l : list visited) : loop_result :=
  match l with
  | [] => L_operands [] []
  | (_, (normal, after)) :: rest =>
      let next hashes keep :=
        match norm_operands logical hashes rest with
        | L_return o af => L_return o (after :: af)
        | L_operands ops af => L_operands (keep ++ ops) (after :: af)
        end in
      match normal with
      | None => next hashes []
      | Some n =>
          let keep :=
            if bool_decide (logical = Op.And ∨ logical = Op.Or)
            then if decide (hash_operand after ∈ hashes) then next hashes [] else next ({[hash_operand after]} ∪ hashes) [n]
            else next hashes [n] in
          match asBoolValue n with
          | Some b =>
              if bool_decide (logical = Op.And) then if b then next hashes [] else L_return falseExprOpValue (after :: rest.*1)
              else if bool_decide (logical = Op.Or) then if b then L_return trueExprOpValue (after :: rest.*1) else next hashes []
              else keep
          | None => keep
          end
      end
  end.

(** The result after the loop: a conjunction or disjunction of nothing is its
    unit, one of a single operand is the operand. *)
Definition norm_end (operator : string) (r : loop_result) : option Operand * Operand :=
  match r with
  | L_return o after => (Some o, O_Expression operator after)
  | L_operands ops after =>
      let collapsed := O_Expression operator after in
      let rebuilt := O_Expression operator ops in
      if is_logical operator then
        match ops with
        | [] =>
            if decide (operator = Op.And) then (Some trueExprOpValue, collapsed)
            else if decide (operator = Op.Or) then (Some falseExprOpValue, collapsed)
            else (None, collapsed)
        | [x] =>
            if decide (operator = Op.Not) then
              match asBoolValue x with
              | Some b => (Some (O_Value (V_bool (negb b))), collapsed)
              | None => (Some rebuilt, rebuilt)
              end
            else (Some x, collapsed)
        | _ => (Some rebuilt, rebuilt)
        end
      else (Some rebuilt, rebuilt)
  end.

(** [normaliseFilterExprOpExpr], given the results of visiting the operands. *)
Definition normaliseFilterExprOpExpr (operator : string) (operands : list Operand) (results : list (option Operand * Operand)) :
    option Operand * Operand :=
  match (if decide (operator = Op.In ∧ length operands = 2) then normaliseInExpr operator operands else inr (operator, None)) with
  | inl s => (Some s, O_Expression operator operands)
  | inr (operator, second) =>
      let l := zip operands results in
      let l := match second with Some v => <[1 := (v, (Some v, v))]> l | None => l end in
      norm_end operator (norm_operands (if is_logical operator then operator else "") ∅ l)
  end.

Definition normaliseFilterExprOpVar (x : string) : option Operand * Operand := (Some (O_Variable (ExpandAbbrev x)), O_Variable (ExpandAbbrev x)).

(** The normal form ([None] is nil) and the operand after the visit. *)
Fixpoint normaliseFilterExprOp (cond : Operand) : option Operand * Operand :=
  match cond with
  | O_Value v => (Some cond, cond)
  | O_Variable x => normaliseFilterExprOpVar x
  | O_Expression operator operands => normaliseFilterExprOpExpr operator operands (map normaliseFilterExprOp operands)
  | O_unset => (Some cond, cond)
  | O_nil => (None, cond)
  end.

Definition normaliseFilter (filter : PlanResourcesFilter) : PlanResourcesFilter :=
  match pf_Condition filter ≫= λ c, (normaliseFilterExprOp c).1 with
  | None | Some O_unset => MkFilter KIND_ALWAYS_ALLOWED None
  | Some c =>
      match asBoolValue c with
      | Some true => MkFilter KIND_ALWAYS_ALLOWED None
      | Some false => MkFilter KIND_ALWAYS_DENIED None
      | None => MkFilter (pf_Kind filter) (Some c)
      end
  end.

(** * From nodes to filters *)

Fixpoint convert (node : QpN) : PR Operand :=
  match node with
  | N_Expression e => buildExpr e
  | N_LogicalOperation operator nodes =>
      operands ← mapM convert nodes;
      match operator with
      | OPERATOR_AND => mret (mkExprOpExpr Op.And operands)
      | OPERATOR_OR => mret (mkExprOpExpr Op.Or operands)
      | OPERATOR_NOT => mret (mkExprOpExpr Op.Not operands)
      | OPERATOR_UNSPECIFIED => perr (PE_Other "unknown logical operator")
      end
  | N_unset => mret O_unset
  end.

Definition ToFilter (plan : QpN) : PR PlanResourcesFilter :=
  c ← convert plan; mret (normaliseFilter (MkFilter KIND_CONDITIONAL (Some c))).

(** * Text *)

(** The operands are given as text. *)
Definition filterExprOpExprToString (operator : string) (operands : list string) : string :=
  "(" +:+ operator +:+ " " +:+ String.concat " " operands +:+ ")".
Fixpoint filterExprOpToString (cond : Operand) : string :=
  match cond with
  | O_Expression operator operands => filterExprOpExprToString operator (map filterExprOpToString operands)
  | O_Value v => default "<ERROR>" (value_json v)
  | O_Variable x => x
  | O_unset | O_nil => ""
  end.

Definition FilterToString (filter : PlanResourcesFilter) : string :=
  match pf_Kind filter with
  | KIND_ALWAYS_ALLOWED => "(true)"
  | KIND_ALWAYS_DENIED => "(false)"
  | KIND_CONDITIONAL => match pf_Condition filter with Some c => filterExprOpToString c | None => "" end
  | KIND_FILTER_UNSPECIFIED => ""
  end.

(** * The filter of several actions *)

(** The conditions by their text, or an early return. *)
Fixpoint merge_loop (conds : gmap string (option Operand)) (filters : list PlanResourcesFilter) :
    gmap string (option Operand) + PR (PlanResourcesFilter * string) :=
  match filters with
  | [] => inl conds
  | f :: filters =>
      match pf_Kind f with
      | KIND_ALWAYS_ALLOWED => merge_loop conds filters
      | KIND_ALWAYS_DENIED => inr (mret (MkFilter KIND_ALWAYS_DENIED None, FilterToString f))
      | KIND_CONDITIONAL => merge_loop (<[FilterToString f := pf_Condition f]> conds) filters
      | KIND_FILTER_UNSPECIFIED => inr (perr (PE_Other "unknown filter kind"))
      end
  end.

(** [slices.Sorted(maps.Keys(conds))] *)
Definition sorted_keys (conds : gmap string (option Operand)) : list string := merge_sort string_le (elements (dom conds)).

(** A nil condition among several is a nil operand. *)
Definition merged_operands (conds : gmap string (option Operand)) : list Operand :=
  (λ k, default O_nil (default None (conds !! k))) <$> sorted_keys conds.

Definition MergeWithAnd (filters : list PlanResourcesFilter) : PR (PlanResourcesFilter * string) :=
  match merge_loop ∅ filters with
  | inr r => r
  | inl conds =>
      let response :=
        match (map_to_list conds).*2 with
        | [] => MkFilter KIND_ALWAYS_ALLOWED None
        | [c] => MkFilter KIND_CONDITIONAL c
        | _ => MkFilter KIND_CONDITIONAL (Some (mkExprOpExpr Op.And (merged_operands conds)))
        end in
      mret (response, FilterToString response)
  end.
End filter.
