(* ===== verification/PlanSem.v ===== *)
(** What plan filters mean, and that normalising and merging them keeps the
    meaning.

    A filter is read by a database adapter, which evaluates its condition for a
    stored resource.  The meaning of an operand in an environment of variables is
    a value, or an error ([None]).  The logical operators are those of CEL, where
    a decisive operand makes up for errors in the others; every other operator is
    a parameter, of which only a few laws are assumed ([FilterLaws]). *)
From S2P Require Import Prelude GoRuntime Namer Policy ScopePerms PlanExpr PlanFilter.

Local Open Scope string_scope.
Local Open Scope list_scope.
Open Scope nat_scope.

(** * Induction over operands and nodes *)

Section Operand_ind'.
Context (P : Operand → Prop).
Context (P_Value : ∀ v, P (O_Value v)) (P_Variable : ∀ x, P (O_Variable x)).
Context (P_Expression : ∀ op l, Forall P l → P (O_Expression op l)) (P_unset : P O_unset) (P_nil : P O_nil).
Fixpoint Operand_ind' (o : Operand) : P o :=
  match o with
  | O_Value v => P_Value v
  | O_Variable x => P_Variable x
  | O_Expression op l => P_Expression op l ((fix go l : Forall P l := match l with [] => Forall_nil_2 P | o :: l => Forall_cons_2 P o l (Operand_ind' o) (go l) end) l)
  | O_unset => P_unset
  | O_nil => P_nil
  end.
End Operand_ind'.

Section QpN_ind'.
Context (P : QpN → Prop).
Context (P_Expression : ∀ e, P (N_Expression e)) (P_Logical : ∀ op l, Forall P l → P (N_LogicalOperation op l)) (P_unset : P N_unset).
Fixpoint QpN_ind' (n : QpN) : P n :=
  match n with
  | N_Expression e => P_Expression e
  | N_LogicalOperation op l => P_Logical op l ((fix go l : Forall P l := match l with [] => Forall_nil_2 P | o :: l => Forall_cons_2 P o l (QpN_ind' o) (go l) end) l)
  | N_unset => P_unset
  end.
End QpN_ind'.

(** * Meaning *)

(** [f_op] interprets an operator on operands that may depend on variables (the
    body of a lambda does). *)
Class FilterSem := {
  fval : Type;
  f_const : Value → fval;
  f_bool : fval → option bool;
  f_op : string → list ((string → option fval) → option fval) → (string → option fval) → option fval;
}.

(** [x] is an error or the same as [y]. *)
Definition below {A} (x y : option A) : Prop := ∀ v, x = Some v → y = Some v.
Infix "⊑ᵣ" := below (at level 70).

Lemma below_refl {A} (x : option A) : x ⊑ᵣ x.
Proof. by intros v. Qed.
Lemma below_trans {A} (x y z : option A) : x ⊑ᵣ y → y ⊑ᵣ z → x ⊑ᵣ z.
Proof. intros ?? v ?. auto. Qed.

Section sem.
Context `{ProtoText} `{OperandText} `{FilterSem}.

(** An environment that gives an abbreviation the value of what it stands for. *)
Definition expands (env : string → option fval) : Prop := ∀ x, env (ExpandAbbrev x) = env x.

(** The conjunction ([u] true) and the disjunction ([u] false) of CEL. *)
Definition truth_of (x : option fval) : option bool := x ≫= f_bool.
Definition vbool (b : bool) : fval := f_const (V_bool b).
Definition lop (u : bool) (xs : list (option fval)) : option fval :=
  if decide (Exists (λ x, truth_of x = Some (negb u)) xs) then Some (vbool (negb u))
  else if decide (Forall (λ x, truth_of x = Some u) xs) then Some (vbool u)
  else None.
Definition lnot (xs : list (option fval)) : option fval :=
  match xs with [x] => b ← truth_of x; Some (vbool (negb b)) | _ => None end.

Fixpoint denote_op (o : Operand) (env : string → option fval) : option fval :=
  match o with
  | O_Value v => Some (f_const v)
  | O_Variable x => env x
  | O_Expression op l =>
      if decide (op = Op.And) then lop true (map (λ o, denote_op o env) l)
      else if decide (op = Op.Or) then lop false (map (λ o, denote_op o env) l)
      else if decide (op = Op.Not) then lnot (map (λ o, denote_op o env) l)
      else f_op op (map denote_op l) env
  | O_unset | O_nil => None
  end.

(** Whether a filter selects the resource. *)
Definition filter_holds (env : string → option fval) (f : PlanResourcesFilter) : option bool :=
  match pf_Kind f, pf_Condition f with
  | KIND_ALWAYS_ALLOWED, _ => Some true
  | KIND_ALWAYS_DENIED, _ => Some false
  | KIND_CONDITIONAL, Some c => truth_of (denote_op c env)
  | _, _ => None
  end.

(** What is assumed of the other operators: they are monotone with respect to
    errors, and a membership test in a constant with at most one element is a
    comparison with the element. *)
Class FilterLaws := {
  f_bool_const : ∀ b, f_bool (f_const (V_bool b)) = Some b;
  f_bool_inv : ∀ v b, f_bool v = Some b → v = f_const (V_bool b);
  f_op_mono : ∀ op fs gs env, expands env → Forall2 (λ f g, ∀ env, expands env → f env ⊑ᵣ g env) fs gs → f_op op fs env ⊑ᵣ f_op op gs env;
  f_in_empty : ∀ f v env, v = V_list [] ∨ v = V_struct [] → f_op Op.In [f; λ _, Some (f_const v)] env ⊑ᵣ Some (f_const (V_bool false));
  f_in_list : ∀ f x env, f_op Op.In [f; λ _, Some (f_const (V_list [x]))] env ⊑ᵣ f_op Op.Equals [f; λ _, Some (f_const x)] env;
  f_in_struct : ∀ f k x env,
    f_op Op.In [f; λ _, Some (f_const (V_struct [(k, x)]))] env ⊑ᵣ f_op Op.Equals [f; λ _, Some (f_const (V_string k))] env;
  f_in_other : ∀ f v env, (∀ l, v ≠ V_list l) → (∀ l, v ≠ V_struct l) →
    f_op Op.In [f; λ _, Some (f_const v)] env ⊑ᵣ f_op Op.Equals [f; λ _, Some (f_const v)] env;
}.
Context `{!FilterLaws}.

Lemma vbool_inj a b : vbool a = vbool b → a = b.
Proof. intros E%(f_equal f_bool). unfold vbool in E. rewrite !f_bool_const in E. by injection E. Qed.
Lemma truth_vbool b : truth_of (Some (vbool b)) = Some b.
Proof. apply f_bool_const. Qed.
Lemma truth_inv x b : truth_of x = Some b → x = Some (vbool b).
Proof. destruct x as [v|]; [|done]. cbn. intros Hv%f_bool_inv. by subst. Qed.
Lemma truth_below x y b : x ⊑ᵣ y → truth_of x = Some b → truth_of y = Some b.
Proof. intros Hb Hx%truth_inv. apply Hb in Hx as ->. apply truth_vbool. Qed.

Lemma lop_true u xs : lop u xs = Some (vbool u) ↔ Forall (λ x, truth_of x = Some u) xs.
Proof.
  unfold lop. split.
  - case_decide as He; [|by case_decide]. intros [= E%vbool_inj]. by destruct u.
  - intros Hf. rewrite decide_False, decide_True; [done..|]. intros (x & Hx & Hn)%Exists_exists. rewrite Forall_forall in Hf.
    rewrite Hf in Hn by done. by destruct u.
Qed.
Lemma lop_false u xs : lop u xs = Some (vbool (negb u)) ↔ Exists (λ x, truth_of x = Some (negb u)) xs.
Proof.
  unfold lop. case_decide as He; [done|]. split; [|done]. case_decide; [|done].
  intros [= E%vbool_inj]. by destruct u.
Qed.
Lemma lop_inv u xs v : lop u xs = Some v → v = vbool u ∨ v = vbool (negb u).
Proof. unfold lop. repeat case_decide; intros [= <-]; auto. Qed.

(** To compare two of them it is enough to compare when they are decided. *)
Lemma lop_below u xs y :
  (Forall (λ x, truth_of x = Some u) xs → y = Some (vbool u)) →
  (Exists (λ x, truth_of x = Some (negb u)) xs → y = Some (vbool (negb u))) → lop u xs ⊑ᵣ y.
Proof. intros Ht Hf v E. destruct (lop_inv _ _ _ E) as [-> | ->]; [apply Ht, lop_true|apply Hf, lop_false]; done. Qed.

Lemma lop_mono u xs ys : Forall2 below xs ys → lop u xs ⊑ᵣ lop u ys.
Proof.
  intros Hf. apply lop_below; intros Hx.
  - apply lop_true. induction Hf; [done|]. apply Forall_cons in Hx as [? ?]. apply Forall_cons. split; [by eapply truth_below|auto].
  - apply lop_false. induction Hf; [by apply Exists_nil in Hx|]. apply Exists_cons in Hx. apply Exists_cons.
    destruct Hx as [?|?]; [left; by eapply truth_below|auto].
Qed.

Lemma lnot_mono xs ys : Forall2 below xs ys → lnot xs ⊑ᵣ lnot ys.
Proof.
  intros Hf v. destruct Hf as [|x y xs ys Hxy [|]]; try done. cbn. destruct (truth_of x) eqn:E; [|done].
  by rewrite (truth_below _ _ _ Hxy E).
Qed.

(** * Comparing operands *)

Definition op_below (o o' : Operand) : Prop := ∀ env, expands env → denote_op o env ⊑ᵣ denote_op o' env.
Infix "⊑ₒ" := op_below (at level 70).

Lemma op_below_refl o : o ⊑ₒ o.
Proof. intros env _. apply below_refl. Qed.
Lemma op_below_trans o1 o2 o3 : o1 ⊑ₒ o2 → o2 ⊑ₒ o3 → o1 ⊑ₒ o3.
Proof. intros Ha Hb env He. eapply below_trans; [by apply Ha|by apply Hb]. Qed.

Lemma op_below_values l l' env : expands env → Forall2 op_below l l' → Forall2 below (map (λ o, denote_op o env) l) (map (λ o, denote_op o env) l').
Proof. intros He Hf. induction Hf as [|o o' l l' Ho Hl IH]; [constructor|]. constructor; [by apply Ho|done]. Qed.

Lemma expression_mono op l l' : Forall2 op_below l l' → O_Expression op l ⊑ₒ O_Expression op l'.
Proof.
  intros Hf env He. cbn [denote_op]. pose proof (op_below_values _ _ _ He Hf) as Hv.
  repeat case_decide; [by apply lop_mono..|by apply lnot_mono|]. apply f_op_mono; [done|].
  clear Hv. induction Hf as [|o o' l l' Ho Hl IH]; [constructor|]. constructor; [|done]. intros env' He'. by apply Ho.
Qed.

Lemma asBoolValue_inv o b : asBoolValue o = Some b → o = O_Value (V_bool b).
Proof. destruct o as [[]| | | |]; try done. by intros [= ->]. Qed.

(** * Normalising *)

(** No nil operands, and negations have one operand. *)
Fixpoint wf_op (o : Operand) : bool :=
  match o with
  | O_Expression op l => (bool_decide (op ≠ Op.Not) || bool_decide (length l = 1)) && forallb wf_op l
  | O_nil => false
  | _ => true
  end.

(** The operands after their visit, and that the hash tells them apart. *)
Fixpoint afters (o : Operand) : list Operand :=
  (normaliseFilterExprOp o).2 :: match o with O_Expression _ l => concat (map afters l) | _ => [] end.
Definition hash_separates (o : Operand) : Prop := ∀ a b, a ∈ afters o → b ∈ afters o → hash_operand a = hash_operand b → a = b.

(** The visit of an operand: the operand is below what it is afterwards, which is below the normal form. *)
Definition visit_ok (v : visited) : Prop := ∃ n, v.2.1 = Some n ∧ v.1 ⊑ₒ v.2.2 ∧ v.2.2 ⊑ₒ n.

Lemma visits_ok_after l : Forall visit_ok l → Forall2 op_below l.*1 (l.*2).*2.
Proof. induction 1 as [|[o [n a]] l (n' & _ & Ho & _) Hl IH]; constructor; done. Qed.

Definition unit_op (u : bool) : string := if u then Op.And else Op.Or.

(** What the loop for a conjunction or disjunction comes to, when the operands
    [K] have been kept before: an early return is right, and otherwise the
    operands kept decide what the operands visited decide. *)
Definition loop_post (u : bool) (K : list Operand) (env : string → option fval) (l : list visited) (r : loop_result) : Prop :=
  match r with
  | L_return o af =>
      o = O_Value (V_bool (negb u)) ∧ Forall2 op_below l.*1 af ∧ ∃ a, a ∈ af ∧ a ⊑ₒ O_Value (V_bool (negb u))
  | L_operands ops af =>
      af = (l.*2).*2 ∧
      (∀ a, a ∈ af → truth_of (denote_op a env) = Some (negb u) → ∃ n, n ∈ K ++ ops ∧ truth_of (denote_op n env) = Some (negb u)) ∧
      (Forall (λ a, truth_of (denote_op a env) = Some u) af → Forall (λ n, truth_of (denote_op n env) = Some u) ops)
  end.

(** One operand visited, of which [keep] is kept. *)
Lemma loop_next u K keep env o n a l r :
  o ⊑ₒ a →
  (truth_of (denote_op a env) = Some (negb u) → ∃ n, n ∈ K ++ keep ∧ truth_of (denote_op n env) = Some (negb u)) →
  (truth_of (denote_op a env) = Some u → Forall (λ n, truth_of (denote_op n env) = Some u) keep) →
  loop_post u (K ++ keep) env l r →
  loop_post u K env ((o, (n, a)) :: l)
    match r with L_return o af => L_return o (a :: af) | L_operands ops af => L_operands (keep ++ ops) (a :: af) end.
Proof.
  intros Ho Hf Ht Hr. destruct r as [o' af|ops af]; cbn in Hr |- *.
  - destruct Hr as (-> & Haf & a' & Ha' & Hb). split; [done|]. split; [by constructor|]. exists a'. split; [by right|done].
  - destruct Hr as (-> & Hfa & Htr). split; [done|]. split.
    + intros a' [->|Ha']%elem_of_cons Hv.
      * destruct (Hf Hv) as (x & Hx & Hxv). exists x. split; [|done]. rewrite elem_of_app in Hx |- *. rewrite elem_of_app. tauto.
      * destruct (Hfa a' Ha' Hv) as (x & Hx & Hxv). exists x. split; [|done]. by rewrite app_assoc.
    + intros [Hv Hvs]%Forall_cons. apply Forall_app. auto.
Qed.

(** Among the operands kept is one for every hash seen. *)
Definition seen_ok (K : list Operand) (hashes : gset N) (l : list visited) : Prop :=
  ∀ a, a ∈ (l.*2).*2 → hash_operand a ∈ hashes → ∃ n, n ∈ K ∧ a ⊑ₒ n.
Definition separated (l : list visited) : Prop :=
  ∀ a b, a ∈ (l.*2).*2 → b ∈ (l.*2).*2 → hash_operand a = hash_operand b → a = b.

Lemma norm_operands_lop u l hashes K env :
  Forall visit_ok l → expands env → seen_ok K hashes l → separated l →
  loop_post u K env l (norm_operands (unit_op u) hashes l).
Proof.
  intros Hl He. revert hashes K. induction Hl as [|[o [n' a]] l (n & En & Ho & Ha) Hl IH]; intros hashes K Hseen Hsep.
  { cbn. split; [done|]. split; [|done]. intros a Hn. by apply elem_of_nil in Hn. }
  cbn in En, Ho, Ha. subst n'. cbn [norm_operands].
  assert (∀ b, truth_of (denote_op a env) = Some b → truth_of (denote_op n env) = Some b) as Hab
    by (intros b; apply truth_below; by apply Ha).
  assert (separated l) as Hsep' by (intros a1 a2 ??; apply Hsep; by right).
  assert (seen_ok (K ++ []) hashes l) as Hseen' by (intros a' Ha'; rewrite app_nil_r; apply Hseen; by right).
  rewrite (bool_decide_true (unit_op u = Op.And ∨ unit_op u = Op.Or)) by (destruct u; cbn; auto).
  set (keep := if decide (hash_operand a ∈ hashes) then _ else _).
  assert (loop_post u K env ((o, (Some n, a)) :: l) keep) as Hkeep.
  { unfold keep. case_decide as Hh; (apply loop_next; [done|..|apply IH; [|done]]); try done; try (by constructor).
    - intros Hv. destruct (Hseen a) as (x & Hx & Hax); [left|done|].
      exists x. rewrite app_nil_r. split; [done|]. eapply truth_below; [by apply Hax|done].
    - intros Hv. exists n. split; [apply elem_of_app; right; left|auto].
    - intros Hv. constructor; auto.
    - intros a' Ha' [Hs|Hs]%elem_of_union.
      + apply elem_of_singleton in Hs. exists n. split; [apply elem_of_app; right; left|]. by rewrite (Hsep a' a); [|right|left|].
      + destruct (Hseen a') as (x & Hx & ?); [by right|done|]. exists x. split; [apply elem_of_app; by left|done]. }
  clearbody keep. destruct (asBoolValue n) as [b|] eqn:Eb; [|exact Hkeep]. apply asBoolValue_inv in Eb as ->. cbn [denote_op] in Hab.
  assert (b = u → loop_post u K env ((o, (Some (O_Value (V_bool b)), a)) :: l)
    match norm_operands (unit_op u) hashes l with L_return o af => L_return o (a :: af) | L_operands ops af => L_operands ([] ++ ops) (a :: af) end) as Hskip.
  { intros ->. apply loop_next; [done| |constructor|by apply IH]. intros Hv%Hab. cbn in Hv. rewrite f_bool_const in Hv. by destruct u. }
  assert (b = negb u → loop_post u K env ((o, (Some (O_Value (V_bool b)), a)) :: l) (L_return (O_Value (V_bool b)) (a :: l.*1))) as Hret.
  { intros ->. split; [done|]. split; [|exists a; split; [left|done]]. constructor; [done|]. by apply Forall_Forall2_diag, Forall_true, op_below_refl. }
  destruct u; cbn [unit_op] in *.
  - rewrite bool_decide_true by done. destruct b; [by apply Hskip|by apply Hret].
  - rewrite bool_decide_false, bool_decide_true by done. destruct b; [by apply Hret|by apply Hskip].
Qed.

(** The loop for the other operators keeps every operand. *)
Lemma norm_operands_all logical l hashes :
  logical ≠ Op.And → logical ≠ Op.Or → Forall visit_ok l →
  ∃ ops, norm_operands logical hashes l = L_operands ops (l.*2).*2 ∧ Forall2 op_below (l.*2).*2 ops.
Proof.
  intros Hand Hor Hl. induction Hl as [|[o [n' a]] l (n & En & Ho & Ha) Hl (ops & IH & Hops)]; [exists []; split; [done|constructor]|].
  cbn in En. subst n'. exists (n :: ops). split; [|by constructor]. cbn [norm_operands]. rewrite IH.
  rewrite (bool_decide_false (logical = Op.And ∨ logical = Op.Or)) by (by intros [?|?]).
  rewrite !bool_decide_false by done. by destruct (asBoolValue n).
Qed.

(** ** Expressions *)

Definition norm_ok (o : Operand) (r : option Operand * Operand) : Prop := visit_ok (o, r).

Lemma denote_lop u l env : denote_op (O_Expression (unit_op u) l) env = lop u (map (λ o, denote_op o env) l).
Proof. by destruct u. Qed.

Lemma loop_below u l env ops : 
  loop_post u [] env l (L_operands ops (l.*2).*2) →
  denote_op (O_Expression (unit_op u) (l.*2).*2) env ⊑ᵣ denote_op (O_Expression (unit_op u) ops) env.
Proof.
  intros (_ & Hf & Ht). rewrite !denote_lop. apply lop_below.
  - intros Hall%Forall_map. apply lop_true, Forall_map. by apply Ht.
  - intros (a & Ha & Hx)%Exists_map%Exists_exists. destruct (Hf a Ha Hx) as (n & Hn & Hv).
    apply lop_false, Exists_map, Exists_exists. eauto.
Qed.

Lemma unit_is_logical u : is_logical (unit_op u) = true.
Proof. by destruct u. Qed.

(** A conjunction or disjunction. *)
Lemma norm_lop_ok u l :
  Forall visit_ok l → separated l → norm_ok (O_Expression (unit_op u) l.*1) (norm_end (unit_op u) (norm_operands (unit_op u) ∅ l)).
Proof.
  intros Hl Hsep. assert (∀ env, expands env → loop_post u [] env l (norm_operands (unit_op u) ∅ l)) as Hpost.
  { intros env He. by apply norm_operands_lop. }
  pose proof (expression_mono (unit_op u) _ _ (visits_ok_after l Hl)) as Haf.
  destruct (norm_operands (unit_op u) ∅ l) as [o af|ops af]; cbn [norm_end].
  { assert (∃ env, expands env) as (env0 & He0) by (by exists (λ _, None)). destruct (Hpost env0 He0) as (-> & Hf & a & Ha & Hb). eexists. split; [done|]. split; [by apply expression_mono|].
    intros env He. cbn [snd]. rewrite denote_lop. apply lop_below; [|done]. intros Hall%Forall_map. rewrite Forall_forall in Hall.
    specialize (Hall a Ha). apply (truth_below _ _ _ (Hb env He)) in Hall. cbn in Hall. rewrite f_bool_const in Hall. by destruct u. }
  assert (af = (l.*2).*2) as -> by (by destruct (Hpost (λ _, None)) as [-> _]).
  assert (∀ env, expands env → denote_op (O_Expression (unit_op u) (l.*2).*2) env ⊑ᵣ denote_op (O_Expression (unit_op u) ops) env) as Hops
    by (intros env He; by apply loop_below, Hpost).
  assert (norm_ok (O_Expression (unit_op u) l.*1) (Some (O_Expression (unit_op u) ops), O_Expression (unit_op u) ops)) as Hreb.
  { eexists. split; [done|]. split; [by eapply op_below_trans|apply op_below_refl]. }
  rewrite unit_is_logical.
  destruct ops as [|x [|y ops]]; [| |done].
  - assert ((if decide (unit_op u = Op.And) then (Some trueExprOpValue, O_Expression (unit_op u) (l.*2).*2)
      else if decide (unit_op u = Op.Or) then (Some falseExprOpValue, O_Expression (unit_op u) (l.*2).*2)
      else (None, O_Expression (unit_op u) (l.*2).*2)) = (Some (O_Value (V_bool u)), O_Expression (unit_op u) (l.*2).*2)) as -> by (by destruct u).
    eexists. split; [done|]. split; [done|]. intros env He. eapply below_trans; [by apply Hops|]. rewrite denote_lop. apply lop_below; [done|].
    by intros ?%Exists_nil.
  - rewrite decide_False by (by destruct u). eexists. split; [done|]. split; [done|]. intros env He. eapply below_trans; [by apply Hops|].
    rewrite denote_lop. apply lop_below; cbn; [intros [Hx _]%Forall_cons|intros [Hx|?%Exists_nil]%Exists_cons; [|done]]; by apply truth_inv.
Qed.

(** The other operators. *)
Lemma norm_other_ok operator l :
  is_logical operator = false → Forall visit_ok l → norm_ok (O_Expression operator l.*1) (norm_end operator (norm_operands "" ∅ l)).
Proof.
  intros Ho Hl. destruct (norm_operands_all "" l ∅) as (ops & -> & Hops); [done..|]. unfold norm_end. rewrite Ho.
  eexists. split; [done|]. split; [|apply op_below_refl]. eapply op_below_trans; apply expression_mono; [by apply visits_ok_after|done].
Qed.

Lemma norm_not_ok v : visit_ok v → norm_ok (O_Expression Op.Not [v.1]) (norm_end Op.Not (norm_operands Op.Not ∅ [v])).
Proof.
  intros Hv. destruct (norm_operands_all Op.Not [v] ∅) as (ops & -> & Hops); [done|done|by constructor|].
  pose proof (expression_mono Op.Not _ _ (visits_ok_after [v] ltac:(by constructor))) as Haf.
  pose proof (expression_mono Op.Not _ _ Hops) as Hreb. cbn [fmap list_fmap] in *.
  destruct ops as [|x [|]]; [by apply Forall2_length in Hops| |by apply Forall2_length in Hops]. unfold norm_end.
  change (is_logical Op.Not) with true. cbv iota. rewrite decide_True by done.
  destruct (asBoolValue x) as [b|] eqn:Eb.
  - apply asBoolValue_inv in Eb as ->. eexists. split; [done|]. split; [done|]. intros env He. eapply below_trans; [by apply Hreb|].
    cbn. unfold truth_of. cbn. rewrite f_bool_const. apply below_refl.
  - eexists. split; [done|]. split; [by eapply op_below_trans|apply op_below_refl].
Qed.

Lemma visit_const v : visit_ok (O_Value v, (Some (O_Value v), O_Value v)).
Proof. eexists. split; [done|]. split; apply op_below_refl. Qed.

Lemma zip_visits operands results : Forall2 norm_ok operands results → Forall visit_ok (zip operands results) ∧ (zip operands results).*1 = operands.
Proof. induction 1 as [|o r l l' Ho Hl [IH1 IH2]]; [done|]. cbn. split; [by constructor|by f_equal]. Qed.

(** Membership in a constant. *)
Lemma norm_in_ok operands results :
  Forall2 norm_ok operands results → length operands = 2 →
  match normaliseInExpr Op.In operands with
  | inl s => O_Expression Op.In operands ⊑ₒ s
  | inr (operator, second) =>
      is_logical operator = false ∧
      let l := match second with Some v => <[1 := (v, (Some v, v))]> (zip operands results) | None => zip operands results end in
      Forall visit_ok l ∧ O_Expression Op.In operands ⊑ₒ O_Expression operator l.*1
  end.
Proof.
  intros Hr. destruct Hr as [|x rx ? ? Hx [|y ry ? ? Hy [|]]]; try done. intros _. unfold normaliseInExpr. cbn [lookup list_lookup zip zip_with].
  assert (∀ op, is_logical op = false → O_Expression Op.In [x; y] ⊑ₒ O_Expression op [x; y] →
    is_logical op = false ∧ Forall visit_ok [(x, rx); (y, ry)] ∧ O_Expression Op.In [x; y] ⊑ₒ O_Expression op [(x, rx); (y, ry)].*1) as Hsame.
  { intros op Hop Hb. split_and!; [done|by repeat constructor|done]. }
  assert (∀ v, y = O_Value v → ∀ w, O_Expression Op.In [x; y] ⊑ₒ O_Expression Op.Equals [x; O_Value w] →
    is_logical Op.Equals = false ∧
    Forall visit_ok (<[1 := (O_Value w, (Some (O_Value w), O_Value w))]> [(x, rx); (y, ry)]) ∧
    O_Expression Op.In [x; y] ⊑ₒ O_Expression Op.Equals (<[1 := (O_Value w, (Some (O_Value w), O_Value w))]> [(x, rx); (y, ry)]).*1) as Hset.
  { intros v -> w Hb. split_and!; [done|repeat constructor; [done|apply visit_const]|done]. }
  destruct y as [v| | | |]; try (apply Hsame; [done|apply op_below_refl]).
  destruct v as [| | | |[|[k f] [|]]|[|e [|]]]; try (apply Hsame; [done|apply op_below_refl]).
  1-4: apply Hsame; [done|]; intros env He; by apply f_in_other.
  - intros env He. apply f_in_empty. by right.
  - eapply Hset; [done|]. intros env He. apply f_in_struct.
  - intros env He. apply f_in_empty. by left.
  - eapply Hset; [done|]. intros env He. apply f_in_list.
Qed.

Lemma norm_expr_ok operator operands results :
  Forall2 norm_ok operands results → (operator = Op.Not → length operands = 1) → separated (zip operands results) →
  norm_ok (O_Expression operator operands) (normaliseFilterExprOpExpr operator operands results).
Proof.
  intros Hr Hnot Hsep. unfold normaliseFilterExprOpExpr. destruct (zip_visits _ _ Hr) as [Hv Hz]. case_decide as Hin.
  - destruct Hin as [-> Hlen]. pose proof (norm_in_ok _ _ Hr Hlen) as Hi. destruct (normaliseInExpr Op.In operands) as [s|[op second]].
    + eexists. split; [done|]. split; [apply op_below_refl|done].
    + destruct Hi as (Hop & Hl & Hb). rewrite Hop. destruct (norm_other_ok op _ Hop Hl) as (n & En & Ho & Hn).
      exists n. split; [done|]. split; [by eapply op_below_trans|done].
  - cbn zeta. rewrite <-Hz at 1. unfold is_logical. case_bool_decide as Hlog.
    + destruct Hlog as [->|[->| ->]]; [by apply (norm_lop_ok true)|by apply (norm_lop_ok false)|].
      destruct Hr as [|o r ? ? Ho [|]]; [by specialize (Hnot eq_refl)| |by specialize (Hnot eq_refl)]. by apply (norm_not_ok (o, r)).
    + apply norm_other_ok; [|done]. by apply bool_decide_eq_false.
Qed.

(** The normaliser gives every operand without nil operands a normal form that is
    at least as defined. *)
Lemma normalise_ok o : wf_op o = true → hash_separates o → norm_ok o (normaliseFilterExprOp o).
Proof.
  induction o as [v|x|op l IH| |] using Operand_ind'; cbn [wf_op]; intros Hwf Hsep; [apply visit_const| | | |done].
  - eexists. split; [done|]. split; [|apply op_below_refl]. intros env He. cbn. rewrite He. apply below_refl.
  - apply andb_true_iff in Hwf as [Hnot Hwf]. cbn [normaliseFilterExprOp]. apply norm_expr_ok.
    + apply Forall2_fmap_r, Forall_Forall2_diag. rewrite Forall_forall in IH |- *. intros o Ho. apply IH; [done| |].
      * rewrite forallb_forall in Hwf. apply Hwf. by apply list_elem_of_In.
      * intros a b Ha Hb. apply Hsep; cbn; right; apply list_elem_of_In, in_concat.
        -- exists (afters o). split; [apply in_map; by apply list_elem_of_In|by apply list_elem_of_In].
        -- exists (afters o). split; [apply in_map; by apply list_elem_of_In|by apply list_elem_of_In].
    + intros ->. apply orb_true_iff in Hnot as [Hn|Hn]; apply bool_decide_eq_true in Hn; done.
    + intros a b Ha Hb. assert (∀ a, a ∈ ((zip l (map normaliseFilterExprOp l)).*2).*2 → a ∈ afters (O_Expression op l)) as Hsub.
      { intros a' Ha'. rewrite snd_zip in Ha' by (by rewrite length_map). apply list_elem_of_fmap in Ha' as (r & -> & Hr).
        apply list_elem_of_fmap in Hr as (o & -> & Ho). cbn. right. apply list_elem_of_In, in_concat. exists (afters o).
        split; [apply in_map; by apply list_elem_of_In|]. destruct o; left; done. }
      apply Hsep; by apply Hsub.
  - eexists. split; [done|]. split; apply op_below_refl.
Qed.

(** Normalising the filter of a condition that evaluates to a boolean gives a
    filter that says the same. *)
Lemma normaliseFilter_holds c env b :
  wf_op c = true → hash_separates c → expands env → denote_op c env = Some (vbool b) →
  filter_holds env (normaliseFilter (MkFilter KIND_CONDITIONAL (Some c))) = Some b.
Proof.
  intros Hwf Hsep He Hd. destruct (normalise_ok c Hwf Hsep) as (n & En & Ho & Hn). unfold normaliseFilter. cbn [pf_Condition option_bind mbind].
  cbn [fst snd] in *. change (mbind (M := option) ?f (Some c)) with (f c). rewrite En.
  apply (Ho env He), (Hn env He) in Hd. destruct n as [v| | | |]; try done; cbn [asBoolValue].
  - destruct v; try (unfold filter_holds; cbn [pf_Kind pf_Condition]; rewrite Hd; apply truth_vbool).
    cbn in Hd. injection Hd as E%vbool_inj. subst. by destruct b.
  - unfold filter_holds. cbn [pf_Kind pf_Condition]. rewrite Hd. apply truth_vbool.
  - unfold filter_holds. cbn [pf_Kind pf_Condition]. rewrite Hd. apply truth_vbool.
Qed.
End sem.
Infix "⊑ₒ" := op_below (at level 70).

(** * From nodes to filters

    The filter of a plan means what its nodes mean: translation of nodes to
    filters, and the conjunction of the filters of several actions. *)

Section spec.
Context `{ProtoText} `{OperandText} `{FilterSem} `{!FilterLaws}.
Context (env : string → option fval).

(** Values of conjunctions and disjunctions of booleans. *)
Lemma lop_bools u bs : lop u ((λ b, Some (vbool b)) <$> bs) = Some (vbool (if u then forallb id bs else existsb id bs)).
Proof.
  assert (∀ b, Forall (λ x, truth_of x = Some b) ((λ b, Some (vbool b)) <$> bs) ↔ Forall (λ x, x = b) bs) as Hall.
  { intros b. rewrite Forall_fmap. apply Forall_iff. intros x. unfold compose. rewrite truth_vbool. split; congruence. }
  assert (∀ b, Exists (λ x, truth_of x = Some b) ((λ b, Some (vbool b)) <$> bs) ↔ Exists (λ x, x = b) bs) as Hex.
  { intros b. rewrite !Exists_exists. setoid_rewrite list_elem_of_fmap. split.
    - intros (x & (y & -> & Hy) & Hx). rewrite truth_vbool in Hx. injection Hx as ->. eauto.
    - intros (x & Hx & ->). exists (Some (vbool b)). split; [eauto|apply truth_vbool]. }
  destruct (decide (Exists (λ x, x = negb u) bs)) as [He|He].
  - replace (if u then _ else _) with (negb u); [by apply lop_false, Hex|]. apply Exists_exists in He as (x & Hx & ->). destruct u; cbn in *; symmetry.
    + apply not_true_is_false. rewrite forallb_forall. intros Hf. specialize (Hf false (proj1 (list_elem_of_In _ _) Hx)). done.
    + apply existsb_exists. exists true. split; [by apply list_elem_of_In|done].
  - assert (Forall (λ x, x = u) bs) as Hu.
    { rewrite <-Forall_Exists_neg in He. eapply Forall_impl; [exact He|]. intros x Hx. by destruct x, u. }
    replace (if u then _ else _) with u; [by apply lop_true, Hall|]. rewrite Forall_forall in Hu. destruct u; cbn; symmetry.
    + apply forallb_forall. intros x Hx%list_elem_of_In. by rewrite (Hu x).
    + apply not_true_is_false. intros (x & Hx%list_elem_of_In & Ex)%existsb_exists. by rewrite (Hu x Hx) in Ex.
Qed.

(** * Nodes *)

(** The truth of a node, given that of the expressions at its leaves. *)
Context (truth : PExpr → bool).
Fixpoint node_truth (n : QpN) : bool :=
  match n with
  | N_Expression e => truth e
  | N_LogicalOperation OPERATOR_AND l => forallb node_truth l
  | N_LogicalOperation OPERATOR_OR l => existsb node_truth l
  | N_LogicalOperation OPERATOR_NOT [n] => negb (node_truth n)
  | _ => false
  end.

(** An expression whose filter evaluates to its truth. *)
Definition leaf_ok (e : PExpr) : Prop :=
  ∃ o, buildExpr e = Some (inl o) ∧ wf_op o = true ∧ denote_op o env = Some (vbool (truth e)).

(** A node with such leaves, where negations have one operand. *)
Fixpoint node_ok (n : QpN) : Prop :=
  match n with
  | N_Expression e => leaf_ok e
  | N_LogicalOperation op l =>
      op ≠ OPERATOR_UNSPECIFIED ∧ (op = OPERATOR_NOT → length l = 1) ∧
      (fix all l := match l with [] => True | n :: l => node_ok n ∧ all l end) l
  | N_unset => False
  end.

Lemma node_ok_logical op l :
  node_ok (N_LogicalOperation op l) ↔ op ≠ OPERATOR_UNSPECIFIED ∧ (op = OPERATOR_NOT → length l = 1) ∧ Forall node_ok l.
Proof.
  cbn. assert ((fix all l := match l with [] => True | n :: l => node_ok n ∧ all l end) l ↔ Forall node_ok l) as ->; [|done].
  induction l as [|n l IH]; [split; [constructor|done]|]. by rewrite Forall_cons, IH.
Qed.

Lemma truth_const b : leaf_ok (E_Const (K_bool b)) → truth (E_Const (K_bool b)) = b.
Proof. intros (o & E & _ & Hd). injection E as <-. cbn in Hd. injection Hd as E%vbool_inj. done. Qed.

(** Nodes are translated to operands that evaluate to their truth. *)
Lemma convert_holds n :
  node_ok n → ∃ c, convert n = Some (inl c) ∧ wf_op c = true ∧ denote_op c env = Some (vbool (node_truth n)).
Proof.
  induction n as [e|op l IH|] using QpN_ind'; [by intros| |by intros []].
  intros (Hop & Hnot & Hl)%node_ok_logical.
  assert (∃ cs, mapM convert l = Some (inl cs) ∧ forallb wf_op cs = true ∧ length cs = length l ∧
    map (λ o, denote_op o env) cs = (λ b, Some (vbool b)) <$> (node_truth <$> l)) as (cs & Ecs & Hwf & Hlen & Hd).
  { clear Hnot. induction l as [|n l IHl]; [by exists []|]. apply Forall_cons in IH as [IHn IH], Hl as [Hn Hl].
    destruct (IHn Hn) as (c & Ec & Hc & Hdc), (IHl IH Hl) as (cs & Ecs & Hwf & Hlen & Hd).
    exists (c :: cs). cbn [mapM]. rewrite Ec. change (mbind (M := PR) ?f (Some (inl c))) with (f c). cbv beta. rewrite Ecs.
    split; [done|]. cbn. rewrite Hc, Hwf, Hlen, Hdc, Hd. done. }
  cbn [convert]. rewrite Ecs. change (mbind (M := PR) ?f (Some (inl cs))) with (f cs). cbv beta.
  destruct op; [done|..]; eexists; (split; [done|]); unfold mkExprOpExpr.
  - split; [cbn; by rewrite Hwf|]. change (denote_op _ env) with (lop true (map (λ o, denote_op o env) cs)). rewrite Hd, lop_bools. cbn.
    f_equal. f_equal. clear. induction l; cbn; congruence.
  - split; [cbn; by rewrite Hwf|]. change (denote_op _ env) with (lop false (map (λ o, denote_op o env) cs)). rewrite Hd, lop_bools. cbn.
    f_equal. f_equal. clear. induction l; cbn; congruence.
  - specialize (Hnot eq_refl). split; [cbn; by rewrite Hwf, Hlen, Hnot|]. change (denote_op _ env) with (lnot (map (λ o, denote_op o env) cs)). rewrite Hd.
    destruct l as [|n [|]]; try done. cbn [fmap list_fmap lnot node_truth]. by rewrite truth_vbool.
Qed.

Lemma ToFilter_holds n :
  node_ok n → expands env → (∀ c, convert n = Some (inl c) → hash_separates c) →
  ∃ f, ToFilter n = Some (inl f) ∧ filter_holds env f = Some (node_truth n).
Proof.
  intros Hn He Hs. destruct (convert_holds n Hn) as (c & Ec & Hwf & Hd). unfold ToFilter. rewrite Ec. eexists. split; [done|].
  apply normaliseFilter_holds; auto.
Qed.

(** * Merging *)

(** Filters with the same text have the same condition. *)
Definition texts_agree (filters : list PlanResourcesFilter) : Prop :=
  ∀ f g, f ∈ filters → g ∈ filters → pf_Kind f = KIND_CONDITIONAL → pf_Kind g = KIND_CONDITIONAL →
    FilterToString f = FilterToString g → pf_Condition f = pf_Condition g.

Lemma merge_loop_spec conds filters :
  Forall (λ f, pf_Kind f ≠ KIND_FILTER_UNSPECIFIED) filters →
  match merge_loop conds filters with
  | inr r => ∃ f, f ∈ filters ∧ pf_Kind f = KIND_ALWAYS_DENIED ∧ r = mret (MkFilter KIND_ALWAYS_DENIED None, FilterToString f)
  | inl conds' =>
      (∀ f, f ∈ filters → pf_Kind f = KIND_ALWAYS_ALLOWED ∨ pf_Kind f = KIND_CONDITIONAL ∧ is_Some (conds' !! FilterToString f)) ∧
      (∀ k c, conds' !! k = Some c → conds !! k = Some c ∨ ∃ f, f ∈ filters ∧ pf_Kind f = KIND_CONDITIONAL ∧ FilterToString f = k ∧ pf_Condition f = c) ∧
      (∀ k, is_Some (conds !! k) → is_Some (conds' !! k))
  end.
Proof.
  revert conds. induction filters as [|f filters IH]; intros conds Hk; cbn [merge_loop].
  { split_and!; [by intros f ?%elem_of_nil|auto|auto]. }
  apply Forall_cons in Hk as [Hf Hk]. destruct (pf_Kind f) eqn:Ek; [done|..].
  - specialize (IH conds Hk). destruct (merge_loop conds filters) as [conds'|r].
    + destruct IH as (Ha & Hb & Hc). split_and!; [|intros k c Hkc; destruct (Hb k c Hkc) as [?|(g & ? & ?)]; [auto|right; exists g; split; [by right|done]]|done].
      intros g [->|Hg]%elem_of_cons; auto.
    + destruct IH as (g & Hg & ?). exists g. split; [by right|done].
  - exists f. split; [left|done].
  - specialize (IH (<[FilterToString f := pf_Condition f]> conds) Hk). destruct (merge_loop _ filters) as [conds'|r].
    + destruct IH as (Ha & Hb & Hc). split_and!.
      * intros g [->|Hg]%elem_of_cons; [right; split; [done|]; apply Hc; rewrite lookup_insert_eq; eauto|auto].
      * intros k c Hkc. destruct (Hb k c Hkc) as [Hi|(g & ? & ?)]; [|right; exists g; split; [by right|done]].
        apply lookup_insert_Some in Hi as [[<- <-]|[_ ?]]; [right; exists f; split; [left|done]|auto].
      * intros k Hi. apply Hc. destruct (decide (k = FilterToString f)) as [->|]; [rewrite lookup_insert_eq; eauto|by rewrite lookup_insert_ne].
    + destruct IH as (g & Hg & ?). exists g. split; [by right|done].
Qed.

Definition selects (f : PlanResourcesFilter) : bool := bool_decide (filter_holds env f = Some true).

(** The value of a condition collected by the loop. *)
Definition cond_value (c : option Operand) : option bool := c ≫= λ o, truth_of (denote_op o env).

Lemma filter_holds_conditional f : pf_Kind f = KIND_CONDITIONAL → filter_holds env f = cond_value (pf_Condition f).
Proof. unfold filter_holds. intros ->. by destruct (pf_Condition f). Qed.

(** The conditions collected all hold exactly when the filters do. *)
Lemma merge_loop_selects filters conds :
  Forall (λ f, is_Some (filter_holds env f)) filters → texts_agree filters → merge_loop ∅ filters = inl conds →
  (∀ k c, conds !! k = Some c → is_Some (cond_value c)) ∧
  (forallb selects filters = true ↔ ∀ k c, conds !! k = Some c → cond_value c = Some true).
Proof.
  intros Hh Ht E. assert (Forall (λ f, pf_Kind f ≠ KIND_FILTER_UNSPECIFIED) filters) as Hk.
  { eapply Forall_impl; [exact Hh|]. intros f [b Hb] Ef. unfold filter_holds in Hb. by rewrite Ef in Hb. }
  rewrite Forall_forall in Hh. pose proof (merge_loop_spec ∅ filters Hk) as Hm. rewrite E in Hm. destruct Hm as (Ha & Hb & _).
  assert (∀ k c, conds !! k = Some c → ∃ f, f ∈ filters ∧ FilterToString f = k ∧ pf_Kind f = KIND_CONDITIONAL ∧ pf_Condition f = c ∧ filter_holds env f = cond_value c) as Hc.
  { intros k c Hkc. destruct (Hb k c Hkc) as [?|(f & ? & ? & ? & <-)]; [done|]. exists f. split_and!; try done. by apply filter_holds_conditional. }
  split; [intros k c Hkc; destruct (Hc k c Hkc) as (f & Hf & _ & _ & _ & <-); auto|]. rewrite forallb_forall. split.
  - intros Hall k c Hkc. destruct (Hc k c Hkc) as (f & Hf & _ & _ & _ & <-). apply list_elem_of_In, Hall, bool_decide_eq_true in Hf. done.
  - intros Hall f Hf%list_elem_of_In. apply bool_decide_eq_true. destruct (Ha f Hf) as [Ek|[Ek [c Hkc]]]; [unfold filter_holds; by rewrite Ek|].
    destruct (Hc _ _ Hkc) as (g & Hg & Et & Eg & Ec & _). rewrite filter_holds_conditional by done.
    rewrite (Ht f g), Ec by done. by eapply Hall.
Qed.

Lemma elem_of_sorted_keys conds k : k ∈ sorted_keys conds ↔ is_Some (conds !! k).
Proof. unfold sorted_keys. rewrite merge_sort_Permutation, elem_of_elements, elem_of_dom. done. Qed.

(** The conjunction of the conditions collected. *)
Lemma merged_operands_value conds :
  (∀ k c, conds !! k = Some c → is_Some (cond_value c)) →
  ∃ b, cond_value (Some (mkExprOpExpr Op.And (merged_operands conds))) = Some b ∧ (b = true ↔ ∀ k c, conds !! k = Some c → cond_value c = Some true).
Proof.
  intros Hs. set (value k := bool_decide (cond_value (default None (conds !! k)) = Some true)).
  assert (map (λ o, denote_op o env) (merged_operands conds) = (λ b, Some (vbool b)) <$> (value <$> sorted_keys conds)) as Em.
  { unfold merged_operands. change (map ?f ?l) with (f <$> l). rewrite <-!list_fmap_compose. apply list_fmap_ext. intros i k Hk.
    unfold compose, value. apply list_elem_of_lookup_2, elem_of_sorted_keys in Hk as [c Hc]. rewrite Hc. change (default None (Some c)) with c.
    destruct (Hs k c Hc) as [b Hb]. rewrite Hb. destruct c as [o|]; [|done]. change (default O_nil (Some o)) with o.
    apply truth_inv in Hb as ->. by destruct b. }
  exists (forallb id (value <$> sorted_keys conds)). split.
  - change (cond_value _) with (truth_of (lop true (map (λ o, denote_op o env) (merged_operands conds)))). by rewrite Em, lop_bools, truth_vbool.
  - rewrite forallb_forall. split.
    + intros Hb k c Hk. assert (value k = true) as Hv.
      { apply (Hb (value k)), list_elem_of_In, list_elem_of_fmap. exists k. split; [done|]. apply elem_of_sorted_keys. eauto. }
      apply bool_decide_eq_true in Hv. by rewrite Hk in Hv.
    + intros Hc b Hb%list_elem_of_In. apply list_elem_of_fmap in Hb as (k & -> & [c Hk]%elem_of_sorted_keys).
      apply bool_decide_eq_true. rewrite Hk. by eapply Hc.
Qed.

(** The merged filter holds exactly when every filter does. *)
Lemma MergeWithAnd_holds filters :
  Forall (λ f, is_Some (filter_holds env f)) filters → texts_agree filters →
  ∃ f text, MergeWithAnd filters = Some (inl (f, text)) ∧ filter_holds env f = Some (forallb selects filters).
Proof.
  intros Hh Ht. unfold MergeWithAnd. destruct (merge_loop ∅ filters) as [conds|r] eqn:E.
  - destruct (merge_loop_selects filters conds Hh Ht E) as [Hs Hall]. eexists _, _. split; [done|].
    destruct (map_to_list conds) as [|[k c] [|]] eqn:El; cbn [fmap list_fmap snd].
    + apply map_to_list_empty_iff in El as ->. unfold filter_holds. cbn. f_equal. symmetry. apply Hall. by intros k c ?%lookup_empty_Some.
    + assert (conds !! k = Some c) as Hkc by (apply elem_of_map_to_list; rewrite El; left).
      assert (∀ k' c', conds !! k' = Some c' → c' = c) as Hone.
      { intros k' c' Hk'. apply elem_of_map_to_list in Hk'. rewrite El in Hk'. apply list_elem_of_singleton in Hk'. congruence. }
      rewrite filter_holds_conditional by done. cbn [pf_Condition]. destruct (Hs k c Hkc) as [b Hb]. rewrite Hb. f_equal.
      apply Bool.eq_iff_eq_true. rewrite Hall. split; [intros ->; intros k' c' ->%Hone; done|]. intros Hc. specialize (Hc k c Hkc). congruence.
    + rewrite filter_holds_conditional by done. cbn [pf_Condition]. destruct (merged_operands_value conds Hs) as (b & -> & Hb).
      f_equal. apply Bool.eq_iff_eq_true. by rewrite Hb, Hall.
  - assert (Forall (λ f, pf_Kind f ≠ KIND_FILTER_UNSPECIFIED) filters) as Hk.
    { eapply Forall_impl; [exact Hh|]. intros f [b Hb] Ef. unfold filter_holds in Hb. by rewrite Ef in Hb. }
    pose proof (merge_loop_spec ∅ filters Hk) as Hm. rewrite E in Hm. destruct Hm as (f & Hf & Ek & ->). eexists _, _. split; [done|].
    cbn. f_equal. symmetry. apply not_true_is_false. rewrite forallb_forall. intros Hall. specialize (Hall f (proj1 (list_elem_of_In _ _) Hf)).
    unfold selects, filter_holds in Hall. by rewrite Ek in Hall.
Qed.
End spec.
