(* ===== verification/PlanNode.v ===== *)
(** Nodes of query plans and partial evaluation of conditions:
    [src/internal/ruletable/planner/planner.go], the substitutions of [ast.go]
    and the check for optional values of [optionals.go].

    Partial evaluation of a CEL expression is the work of cel-go, and a parameter
    ([CelPartial]).  So is the rewriting of residual expressions that is specific
    to comprehensions and literal maps ([evalComprehensionBody] and
    [struct_matcher.go]), which is not modelled. *)
From S2P Require Import Prelude GoRuntime Bitmap Arena LazyDim Dimension GlobDim Namer Policy ScopePerms IndexCore IndexQuery Index RuleTableBuild RuleTable Eval Check PlanExpr PlanFilter.

Local Open Scope string_scope.
Local Open Scope list_scope.
Open Scope nat_scope.

(** * Nodes *)

Definition TrueExpr : PExpr := E_Const (K_bool true).
Definition FalseExpr : PExpr := E_Const (K_bool false).
Definition MkFalseNode : QpN := N_Expression FalseExpr.
Definition mkTrueNode : QpN := N_Expression TrueExpr.

(** The value of a constant boolean node; nil has none. *)
Definition IsNodeConstBool (node : option QpN) : option bool :=
  match node with
  | Some (N_Expression (E_Const (K_bool b))) => Some b
  | _ => None
  end.

(** Nodes of logical operations (with [MkNodeFromLO]). *)
Definition mkOrLogicalOperation (nodes : list QpN) : QpN := N_LogicalOperation OPERATOR_OR nodes.
Definition MkAndLogicalOperation (nodes : list QpN) : QpN := N_LogicalOperation OPERATOR_AND nodes.

Definition InvertNodeBooleanValue (node : QpN) : QpN :=
  match node with
  | N_LogicalOperation OPERATOR_NOT nodes => match nodes with [n] => n | _ => MkAndLogicalOperation nodes end
  | _ => N_LogicalOperation OPERATOR_NOT [node]
  end.

(** The hash of a node ([HashPB] ignoring identifiers and types). *)
Class NodeHash := { hash_node : QpN → N }.

Section nodes.
Context `{ProtoText} `{NodeHash}.

Definition structEntryKey (entry : StructEntry) : string :=
  match en_key entry with
  | FieldKey k => k
  | MapKey (E_Const (K_string s)) => if decide (s = "") then expr_String (E_Const (K_string s)) else s
  | MapKey k => expr_String k
  end.
Definition entry_le (a b : StructEntry) : Prop := string_le (structEntryKey a) (structEntryKey b).
#[global] Instance entry_le_dec a b : Decision (entry_le a b).
Proof. unfold entry_le. apply _. Defined.

Fixpoint orderStructEntriesExpr (e : PExpr) : PExpr :=
  match e with
  | E_Call f t args => E_Call f (option_map orderStructEntriesExpr t) (map orderStructEntriesExpr args)
  | E_List l o => E_List (map orderStructEntriesExpr l) o
  | E_Struct m entries => E_Struct m (merge_sort entry_le (map order_entry entries))
  | E_Select e f t => E_Select (orderStructEntriesExpr e) f t
  | E_Comprehension v v2 r a i c s x =>
      E_Comprehension v v2 (orderStructEntriesExpr r) a (orderStructEntriesExpr i) (orderStructEntriesExpr c)
        (orderStructEntriesExpr s) (orderStructEntriesExpr x)
  | _ => e
  end
with order_entry (en : StructEntry) : StructEntry :=
  match en with
  | MkEntry k v o => MkEntry (match k with MapKey k => MapKey (orderStructEntriesExpr k) | FieldKey f => FieldKey f end) (orderStructEntriesExpr v) o
  end.

Fixpoint orderStructEntriesNode (n : QpN) : QpN :=
  match n with
  | N_LogicalOperation op nodes => N_LogicalOperation op (map orderStructEntriesNode nodes)
  | N_Expression e => N_Expression (orderStructEntriesExpr e)
  | N_unset => n
  end.

(** [dedupNodes]: the hash is that of a clone with the entries of structs in order. *)
Fixpoint dedup_loop (hashes : gset N) (nodes : list QpN) : list QpN :=
  match nodes with
  | [] => []
  | node :: nodes =>
      let hash := hash_node (orderStructEntriesNode node) in
      if decide (hash ∈ hashes) then dedup_loop hashes nodes else node :: dedup_loop ({[hash]} ∪ hashes) nodes
  end.
Definition dedupNodes (nodes : list QpN) : list QpN := dedup_loop ∅ nodes.

Definition MkOrNode (nodes : list QpN) : option QpN :=
  match dedupNodes nodes with
  | [] => None
  | [n] => Some n
  | l => Some (mkOrLogicalOperation l)
  end.
Definition MkAndNode (nodes : list QpN) : option QpN :=
  match dedupNodes nodes with
  | [] => None
  | [n] => Some n
  | l => Some (MkAndLogicalOperation l)
  end.
End nodes.

(** [NodeFilter] *)
Record NodeFilter := MkNodeFilter { allowFilter : list QpN; denyFilter : list QpN }.
Definition NodeFilter_Add (p : NodeFilter) (filter : QpN) (effect : Effect) : NodeFilter :=
  if decide (effect = EFFECT_ALLOW) then MkNodeFilter (allowFilter p ++ [filter]) (denyFilter p)
  else MkNodeFilter (allowFilter p) (denyFilter p ++ [InvertNodeBooleanValue filter]).
Definition NodeFilter_DenyIsEmpty (p : NodeFilter) : bool := bool_decide (length (denyFilter p) = 0).
Definition NodeFilter_AllowIsEmpty (p : NodeFilter) : bool := bool_decide (length (allowFilter p) = 0).
Definition NodeFilter_ResetToUnconditionalDeny (p : NodeFilter) : NodeFilter := MkNodeFilter (allowFilter p) [MkFalseNode].
Definition NodeFilter_ToAST (p : NodeFilter) : QpN :=
  match allowFilter p with
  | [] =>
      match denyFilter p with
      | [] => MkFalseNode
      | [d] => d
      | ds => MkAndLogicalOperation ds
      end
  | [a] => match denyFilter p with [] => a | ds => MkAndLogicalOperation (ds ++ [a]) end
  | al =>
      let allow := mkOrLogicalOperation al in
      match denyFilter p with [] => allow | ds => MkAndLogicalOperation (ds ++ [allow]) end
  end.

(** * Substitutions *)

(** The walk of [replaceVarsGen].  [f] matches identifiers and selections.  The
    error is a variable of the enclosing function that every call of [f]
    overwrites; a part whose replacement failed is nil ([None]). *)
Section replace.
Context (f : PExpr → option (PExpr + PlanErr)).

Definition walk : Type := option PExpr * option PlanErr.

Section walks.
Context (r : PExpr → option PlanErr → walk).
Fixpoint walk_list (l : list PExpr) (err : option PlanErr) : option (list PExpr) * option PlanErr :=
  match l with
  | [] => (Some [], err)
  | e :: l =>
      let '(x, err) := r e err in
      let '(xs, err) := walk_list l err in
      (x ← x; xs ← xs; Some (x :: xs), err)
  end.
End walks.

Fixpoint replace_walk (e : PExpr) (err : option PlanErr) : walk :=
  match e with
  | E_Ident _ =>
      match f e with
      | None => (Some e, None)
      | Some (inl x) => (Some x, None)
      | Some (inr er) => (None, Some er)
      end
  | E_Select operand field t =>
      match f e with
      | Some (inl x) => (Some x, None)
      | Some (inr er) => (None, Some er)
      | None => let '(x, err) := replace_walk operand None in ((λ x, E_Select x field t) <$> x, err)
      end
  | E_Call fn target args =>
      let '(xs, err) := walk_list replace_walk args err in
      match target with
      | Some t => let '(t, err) := replace_walk t err in (t ← t; xs ← xs; Some (E_Call fn (Some t) xs), err)
      | None => (xs ← xs; Some (E_Call fn None xs), err)
      end
  | E_List l o => let '(xs, err) := walk_list replace_walk l err in ((λ xs, E_List xs o) <$> xs, err)
  | E_Struct m entries =>
      let '(xs, err) := (fix go l err :=
        match l with
        | [] => (Some [], err)
        | en :: l =>
            let '(x, err) := replace_entry en err in
            let '(xs, err) := go l err in
            (x ← x; xs ← xs; Some (x :: xs), err)
        end) entries err in
      ((λ xs, E_Struct m xs) <$> xs, err)
  | E_Comprehension v v2 range accu init cond step result =>
      let '(range, err) := replace_walk range err in
      let '(init, err) := replace_walk init err in
      let '(cond, err) := replace_walk cond err in
      let '(step, err) := replace_walk step err in
      (range ← range; init ← init; cond ← cond; step ← step; Some (E_Comprehension v v2 range accu init cond step result), err)
  | E_Const _ | E_unset => (Some e, err)
  end
with replace_entry (en : StructEntry) (err : option PlanErr) : option StructEntry * option PlanErr :=
  match en with
  | MkEntry k v o =>
      let '(k, err) := match k with
                       | MapKey k => let '(k, err) := replace_walk k err in (MapKey <$> k, err)
                       | FieldKey s => (Some (FieldKey s), err)
                       end in
      let '(v, err) := replace_walk v err in
      (k ← k; v ← v; Some (MkEntry k v o), err)
  end.

(** When the error was overwritten, an expression with a nil part is handed on;
    what cel-go does with one is not modelled. *)
Definition replaceVarsGen (e : PExpr) : PR PExpr :=
  match replace_walk e None with
  | (_, Some er) => perr er
  | (Some x, None) => mret x
  | (None, None) => None
  end.
End replace.

Definition replaceVars (e : PExpr) (vars : gmap string PExpr) : PR PExpr :=
  replaceVarsGen (λ ex,
    match ex with
    | E_Select (E_Ident ident) field _ =>
        if decide (ident = "V" ∨ ident = "variables") then
          Some (match vars !! field with Some e1 => inl e1 | None => inr (PE_Other ("unknown variable " +:+ field)) end)
        else None
    | _ => None
    end) e.

(** [replaceResourceVals] looks at the kind of the whole expression [e], not of
    the part it is given, and never gets to the [request.resource.attr] case. *)
Definition replaceResourceVals (e : PExpr) (vals : gmap string Value) : PR PExpr :=
  replaceVarsGen (λ ex,
    match e, ex with
    | E_Select _ _ _, E_Select (E_Select (E_Ident ident) attr _) field _ =>
        if decide (is_Some (vals !! field) ∧ attr = "attr" ∧ ident = "R") then Some (inl (E_Call "id" None [ex])) else None
    | _, _ => None
    end) e.

Definition isRuntimeEffectiveDerivedRoles (e : PExpr) : bool :=
  match e with
  | E_Select (E_Ident ident) field _ => bool_decide (ident = "runtime" ∧ (field = "effective_derived_roles" ∨ field = "effectiveDerivedRoles"))
  | _ => false
  end.

(** The list is computed when it is met, and an error only raised then; computing
    it does not panic ([MkDerivedRolesList_returns]), so it may as well be computed
    beforehand. *)
Definition replaceRuntimeEffectiveDerivedRoles (e : PExpr) (derivedRolesList : PR PExpr) : PR PExpr :=
  match derivedRolesList with
  | Some l => replaceVarsGen (λ ex, if isRuntimeEffectiveDerivedRoles ex then Some l else None) e
  | None => None
  end.

(** * Lists of derived roles *)

(** [mkBinaryOperatorExpr]: fewer than two arguments are out of range. *)
Fixpoint mkBinaryOperatorExpr (op : string) (args : list PExpr) : PR PExpr :=
  match args with
  | [] | [_] => None
  | [a; b] => mret (MkCallExprProto op [a; b])
  | a :: args => e ← mkBinaryOperatorExpr op args; mret (MkCallExprProto op [a; e])
  end.

Fixpoint qpNToExpr (node : QpN) : PR PExpr :=
  match node with
  | N_Expression e => mret e
  | N_LogicalOperation OPERATOR_NOT nodes =>
      match nodes with
      | [] => None
      | n :: _ => arg ← qpNToExpr n; mret (MkCallExprProto operators.LogicalNot [arg])
      end
  | N_LogicalOperation OPERATOR_AND nodes => args ← mapM qpNToExpr nodes; mkBinaryOperatorExpr operators.LogicalAnd args
  | N_LogicalOperation OPERATOR_OR nodes => args ← mapM qpNToExpr nodes; mkBinaryOperatorExpr operators.LogicalOr args
  | N_LogicalOperation OPERATOR_UNSPECIFIED _ => perr (PE_Other "unspecified logical operator")
  | N_unset => perr (PE_Other "unknown node type")
  end.

Definition derivedRoleListElement '((role, node) : string * QpN) : PR PExpr :=
  cond ← qpNToExpr node;
  mret (MkCallExprProto operators.Conditional [cond; MkListExprProto [mkConstStringExpr role]; MkListExprProto []]).

Definition MkDerivedRolesList (derivedRoles : list (string * QpN)) : PR PExpr :=
  match derivedRoles with
  | [] => mret (MkListExprProto [])
  | [dr] => derivedRoleListElement dr
  | _ => elements ← mapM derivedRoleListElement derivedRoles; mkBinaryOperatorExpr operators.Add elements
  end.

(** * Partial evaluation *)

(** What is known when a plan is made. *)
Record Known := MkKnown { kn_request : Request; kn_globals : gmap string Value; kn_constants : gmap string Value; kn_now : Z }.

(** The outcome of evaluating an expression with an unknown resource: a value
    (with whether it is a boolean) and its literal, an unknown and the residual
    expression, an error value, or a failure to evaluate. *)
Inductive PartialOutcome :=
  | PO_value (is_bool : bool) (residual : PExpr)
  | PO_unknown (residual : PExpr)
  | PO_error (msg : string)
  | PO_failure (msg : string).

Class CelPartial := {
  compileToExpr : string → PExpr + string;               (* parse, check, optimise *)
  new_evaluator : Known → option string;                 (* the error of extending the environment *)
  evalPartially : Known → PExpr → PartialOutcome;
  optionalFuncs : gset string;                           (* functions on optional values only *)
  rewrite_residual : Known → PExpr → (bool * PExpr) + PlanErr;  (* evalComprehensionBody, then struct_matcher.go *)
}.

Section partial.
Context `{CelPartial}.

(** [checkNoOptionals]: the first use of an optional value, in preorder. *)
Section first_some.
Context {A : Type} (f : A → option string).
Fixpoint first_some (l : list A) : option string :=
  match l with
  | [] => None
  | x :: l => match f x with Some s => Some s | None => first_some l end
  end.
End first_some.

Fixpoint find_optional (e : PExpr) : option string :=
  match e with
  | E_Call fn target args =>
      if decide (fn ∈ optionalFuncs) then Some fn
      else match (match target with Some t => find_optional t | None => None end) with
           | Some s => Some s
           | None => first_some find_optional args
           end
  | E_List l o => if decide (o = []) then first_some find_optional l else Some "optional list element"
  | E_Struct _ entries => first_some find_optional_entry entries
  | E_Select e _ _ => find_optional e
  | E_Comprehension _ _ r _ a c s x =>
      match find_optional r with Some s => Some s | None =>
      match find_optional a with Some s => Some s | None =>
      match find_optional c with Some s => Some s | None =>
      match find_optional s with Some s => Some s | None => find_optional x end end end end
  | _ => None
  end
with find_optional_entry (en : StructEntry) : option string :=
  match en with
  | MkEntry k v o =>
      if (o : bool) then Some (match k with FieldKey f => "optional field " +:+ f | MapKey _ => "optional map entry" end)
      else match (match k with MapKey k => find_optional k | FieldKey _ => None end) with
           | Some s => Some s
           | None => find_optional v
           end
  end.
Definition checkNoOptionals (e : PExpr) : PR () :=
  match find_optional e with Some what => perr (PE_Optional what) | None => mret () end.

Definition evaluateUnknown (kn : Known) (residual : PExpr) : PR PExpr :=
  match rewrite_residual kn residual with
  | inr er => perr er
  | inl (false, e) => mret e
  | inl (true, e) =>
      match evalPartially kn e with
      | PO_value _ residual | PO_unknown residual => mret residual
      | PO_error msg | PO_failure msg => perr (PE_Other msg)
      end
  end.

(** ** State: the cache of parsed expressions and the CEL errors *)

Definition ExprCache : Type := gmap string PExpr.
Definition pevs : Type := ExprCache * CELErrors.
Definition EM (A : Type) : Type := pevs → option ((A + PlanErr) * pevs).
#[global] Instance EM_ret : MRet EM := λ A x s, Some (inl x, s).
#[global] Instance EM_bind : MBind EM := λ A B f m s,
  '(r, s) ← m s;
  match r with inl x => f x s | inr e => Some (inr e, s) end.
Definition lift {A} (r : PR A) : EM A := λ s, x ← r; Some (x, s).

Definition getOrCompile (e : Expr) : EM PExpr := λ s,
  match s.1 !! Original e with
  | Some x => Some (inl x, s)
  | None =>
      match compileToExpr (Original e) with
      | inr msg => Some (inr (PE_Other msg), s)
      | inl x => Some (inl x, (<[Original e := x]> s.1, s.2))
      end
  end.
Definition add_cel_error (expression msg : string) : EM () := λ s, Some (inl (), (s.1, CELErrors_Add s.2 expression msg)).

Fixpoint variable_exprs (exprs : gmap string PExpr) (variables : list Variable_) : EM (gmap string PExpr) :=
  match variables with
  | [] => mret exprs
  | v :: variables =>
      e ← getOrCompile (var_Expr v);
      expr ← lift (replaceVars e exprs);
      variable_exprs (<[var_Name v := expr]> exprs) variables
  end.
Definition VariableExprs (variables : list Variable_) : EM (gmap string PExpr) := variable_exprs ∅ variables.

Definition evaluateConditionExpression (strict : bool) (expr : PExpr) (original : string) (kn : Known) (variables : gmap string PExpr)
    (derivedRolesList : PR PExpr) : EM PExpr :=
  match new_evaluator kn with
  | Some msg => lift (perr (PE_Other msg))
  | None =>
      e ← lift (replaceVars expr variables);
      let attr := rs_Attr (rq_Resource (kn_request kn)) in
      e ← lift (if decide (attr = ∅) then mret e else replaceResourceVals e attr);
      e ← lift (replaceRuntimeEffectiveDerivedRoles e derivedRolesList);
      match evalPartially kn e with
      | PO_error msg =>
          add_cel_error original msg;;
          if strict then lift (perr (PE_Strict original msg)) else mret FalseExpr
      | PO_failure msg => lift (perr (PE_Other msg))
      | PO_unknown residual => lift (checkNoOptionals residual);; lift (evaluateUnknown kn residual)
      | PO_value is_bool residual => mret (if is_bool then residual else FalseExpr)
      end
  end.

(** ** [EvaluateCondition] *)

(** The nodes of a list of conditions, each passed through [add]; a constant
    [stop] ends the list ([inl]), the other constant is left out. *)
Section cond_nodes.
Context (ev : Condition → EM QpN) (stop : bool) (add : QpN → QpN).
Fixpoint cond_nodes (l : list Condition) : EM (unit + list QpN) :=
  match l with
  | [] => mret (inr [])
  | c :: l =>
      node ← ev c;
      match IsNodeConstBool (Some node) with
      | Some b => if Bool.eqb b stop then mret (inl ()) else cond_nodes l
      | None => r ← cond_nodes l; mret (match r with inl _ => inl () | inr nodes => inr (add node :: nodes) end)
      end
  end.
End cond_nodes.

Definition combine_nodes (on_stop on_empty : PExpr) (op : LogicalOperator) (r : unit + list QpN) : QpN :=
  match r with
  | inl _ => N_Expression on_stop
  | inr [] => N_Expression on_empty
  | inr [n] => n
  | inr nodes => N_LogicalOperation op nodes
  end.

Section EvaluateCondition.
Context (strict : bool) (kn : Known) (variables : gmap string PExpr) (derivedRolesList : PR PExpr).
Fixpoint evaluate_condition (condition : Condition) : EM QpN :=
  match condition with
  | Cond_Any l => r ← cond_nodes evaluate_condition true id l; mret (combine_nodes TrueExpr FalseExpr OPERATOR_OR r)
  | Cond_All l => r ← cond_nodes evaluate_condition false id l; mret (combine_nodes FalseExpr TrueExpr OPERATOR_AND r)
  | Cond_None l => r ← cond_nodes evaluate_condition true InvertNodeBooleanValue l; mret (combine_nodes FalseExpr TrueExpr OPERATOR_AND r)
  | Cond_Expr e =>
      protoExpr ← getOrCompile e;
      residual ← evaluateConditionExpression strict protoExpr (Original e) kn variables derivedRolesList;
      mret (N_Expression residual)
  | Cond_unset => lift (perr (PE_Other "unsupported condition type"))
  end.
Definition EvaluateCondition (condition : option Condition) : EM QpN :=
  match condition with None => mret mkTrueNode | Some c => evaluate_condition c end.
End EvaluateCondition.
End partial.
