(* ===== verification/PlanNodeSpec.v ===== *)
(** What the nodes of plans mean: the constructors of nodes compute conjunctions,
    disjunctions and negations, and evaluating a condition partially gives a node
    with the meaning of the condition. *)
From S2P Require Import Prelude GoRuntime Bitmap Arena LazyDim Dimension GlobDim Namer Policy ScopePerms IndexCore IndexQuery Index RuleTableBuild RuleTable Eval Check PlanExpr PlanFilter PlanSem PlanNode.

Local Open Scope string_scope.
Local Open Scope list_scope.
Open Scope nat_scope.

(** * Lists of derived roles *)

(** Conjunctions and disjunctions of two or more nodes, negations of one. *)
Fixpoint shaped (n : QpN) : Prop :=
  match n with
  | N_LogicalOperation op l =>
      (op = OPERATOR_AND ∨ op = OPERATOR_OR → 2 ≤ length l) ∧ (op = OPERATOR_NOT → length l = 1) ∧
      (fix all l := match l with [] => True | n :: l => shaped n ∧ all l end) l
  | _ => True
  end.
Lemma shaped_logical op l :
  shaped (N_LogicalOperation op l) ↔ (op = OPERATOR_AND ∨ op = OPERATOR_OR → 2 ≤ length l) ∧ (op = OPERATOR_NOT → length l = 1) ∧ Forall shaped l.
Proof.
  cbn. assert ((fix all l := match l with [] => True | n :: l => shaped n ∧ all l end) l ↔ Forall shaped l) as ->; [|done].
  induction l as [|n l IH]; [split; [constructor|done]|]. by rewrite Forall_cons, IH.
Qed.

Lemma mkBinaryOperatorExpr_returns op args : 2 ≤ length args → is_Some (mkBinaryOperatorExpr op args).
Proof.
  induction args as [|a args IH]; cbn [length]; [lia|]. destruct args as [|b [|c args]]; [cbn; lia|by eexists|]. intros _.
  change (is_Some (e ← mkBinaryOperatorExpr op (b :: c :: args); (mret (MkCallExprProto op [a; e]) : PR PExpr))).
  apply returns_bind; [apply IH; cbn; lia|]. by eexists.
Qed.

Lemma mapM_length {A B} (f : A → PR B) l r : mapM f l = Some (inl r) → length r = length l.
Proof.
  revert r. induction l as [|x l IH]; intros r; cbn [mapM]; [by intros [= <-]|]. unfold mbind at 1, PR_bind at 1. destruct (f x) as [[y|]|]; try done.
  unfold mbind, PR_bind. destruct (mapM f l) as [[ys|]|] eqn:E; try done. intros [= <-]. cbn. f_equal. by apply IH.
Qed.

Lemma qpNToExpr_returns n : shaped n → is_Some (qpNToExpr n).
Proof.
  induction n as [e|op l IH|] using QpN_ind'; intros Hs; [by eexists| |by eexists]. apply shaped_logical in Hs as (H2 & H1 & Hl).
  assert (is_Some (mapM qpNToExpr l)) as [r Hr].
  { apply returns_mapM. intros x Hx. rewrite Forall_forall in IH, Hl. auto. }
  destruct op; cbn [qpNToExpr]; [by eexists| | |].
  1-2: rewrite Hr; destruct r as [r|]; [|by eexists]; apply mkBinaryOperatorExpr_returns; rewrite (mapM_length _ _ _ Hr); apply H2; auto.
  destruct l as [|n l]; [by specialize (H1 eq_refl)|]. apply Forall_cons in IH as [IH _], Hl as [Hn _]. apply returns_bind; [auto|]. by eexists.
Qed.

Lemma MkDerivedRolesList_returns roles : Forall (λ r, shaped r.2) roles → is_Some (MkDerivedRolesList roles).
Proof.
  intros Hr. assert (∀ r, r ∈ roles → is_Some (derivedRoleListElement r)) as He.
  { rewrite Forall_forall in Hr. intros [role n] Hin. apply returns_bind; [by apply qpNToExpr_returns, (Hr (role, n))|]. by eexists. }
  destruct roles as [|a [|b roles]]; [by eexists|apply He; left|]. cbn [MkDerivedRolesList].
  destruct (returns_mapM derivedRoleListElement _ He) as [r E]. rewrite E. destruct r as [r|]; [|by eexists].
  apply mkBinaryOperatorExpr_returns. rewrite (mapM_length _ _ _ E). cbn. lia.
Qed.

(** Nodes of conditions are such. *)
Lemma Invert_shaped n : shaped n → shaped (InvertNodeBooleanValue n).
Proof.
  intros Hn. assert (shaped (N_LogicalOperation OPERATOR_NOT [n])) as Hnot by (apply shaped_logical; split_and!; [by intros [?|?]|done|by constructor]).
  destruct n as [e|[] l|]; try done. apply shaped_logical in Hn as (_ & Hl & Hn). specialize (Hl eq_refl). destruct l as [|n [|]]; try done.
  by apply Forall_cons in Hn as [Hn _].
Qed.

Section shaped_conditions.
Context `{CelPartial} (strict : bool) (kn : Known) (variables : gmap string PExpr) (drl : PR PExpr).
Local Abbreviation evaluate := (evaluate_condition strict kn variables drl).
Definition always_shaped (c : Condition) : Prop := ∀ s n s', evaluate c s = Some (inl n, s') → shaped n.

Lemma cond_nodes_shaped stop add l :
  (∀ n, shaped n → shaped (add n)) → Forall always_shaped l → ∀ s nodes s', cond_nodes evaluate stop add l s = Some (inl (inr nodes), s') → Forall shaped nodes.
Proof.
  intros Hadd. induction 1 as [|c l Hc _ IH]; intros s nodes s'; cbn [cond_nodes]; [by intros [= <- _]|]. unfold mbind, EM_bind.
  destruct (evaluate c s) as [[[n|] s1]|] eqn:E; try done.
  change (mbind (M := option) ?f (Some ?x)) with (f x). cbv beta iota. destruct (IsNodeConstBool (Some n)) as [b|]; [destruct (Bool.eqb b stop); [by intros [=]|apply IH]|].
  cbn. destruct (cond_nodes evaluate stop add l s1) as [[[[u|ns]|] s2]|] eqn:E2; try done. cbn. intros [= <- _]. constructor; [apply Hadd; by eapply Hc|by eapply IH].
Qed.

Lemma combine_shaped on_stop on_empty op r :
  op = OPERATOR_AND ∨ op = OPERATOR_OR → (∀ nodes, r = inr nodes → Forall shaped nodes) → shaped (combine_nodes on_stop on_empty op r).
Proof.
  intros Hop Hr. destruct r as [|[|n [|n2 nodes]]]; [done|done| |].
  - specialize (Hr _ eq_refl). by apply Forall_cons in Hr as [Hn _].
  - apply shaped_logical. split_and!; [cbn; lia|by destruct Hop as [->| ->]|by apply Hr].
Qed.

Lemma evaluate_condition_shaped c : always_shaped c.
Proof.
  induction c as [e|l IH|l IH|l IH|] using Condition_nested_ind; intros s n s' E; cbn [evaluate_condition] in E; unfold mbind, EM_bind in E; [| | | |done].
  - destruct (getOrCompile e s) as [[[x|] s1]|]; try done. cbn in E. destruct (evaluateConditionExpression _ _ _ _ _ _ s1) as [[[r|] s2]|]; try done. by injection E as <- _.
  - destruct (cond_nodes _ false id l s) as [[[r|] s1]|] eqn:Ec; try done. injection E as <- _. apply combine_shaped; [auto|]. intros nodes ->. by eapply cond_nodes_shaped in Ec.
  - destruct (cond_nodes _ true id l s) as [[[r|] s1]|] eqn:Ec; try done. injection E as <- _. apply combine_shaped; [auto|]. intros nodes ->. by eapply cond_nodes_shaped in Ec.
  - destruct (cond_nodes _ true InvertNodeBooleanValue l s) as [[[r|] s1]|] eqn:Ec; try done. injection E as <- _. apply combine_shaped; [auto|]. intros nodes ->.
    eapply cond_nodes_shaped in Ec; [done|apply Invert_shaped|done].
Qed.
End shaped_conditions.

Section nodes.
Context `{ProtoText} `{OperandText} `{FilterSem} `{HL : !FilterLaws} `{NodeHash}.
Context (env : string → option fval) (truth : PExpr → bool).
Local Abbreviation node_ok := (node_ok env truth).
Local Abbreviation leaf_ok := (leaf_ok env truth).
Local Abbreviation node_truth := (node_truth truth).

(** The hash tells nodes apart, and the order of the entries of a map does not
    change what an expression means. *)
Definition hash_exact : Prop := ∀ a b, hash_node a = hash_node b → a = b.
Definition order_irrelevant : Prop :=
  ∀ e e', leaf_ok e → leaf_ok e' → orderStructEntriesExpr e = orderStructEntriesExpr e' → truth e = truth e'.
Context (Hhash : hash_exact) (Horder : order_irrelevant) (Hconst : ∀ b, truth (E_Const (K_bool b)) = b).

Lemma node_truth_order a b : node_ok a → node_ok b → orderStructEntriesNode a = orderStructEntriesNode b → node_truth a = node_truth b.
Proof using Horder.
  revert b. induction a as [e|op l IH|] using QpN_ind'; intros [e'|op' l'|] Ha Hb; try done.
  - intros [= E]. by apply Horder.
  - apply node_ok_logical in Ha as (_ & _ & Ha), Hb as (_ & _ & Hb). intros [= <- E].
    assert (map node_truth l = map node_truth l') as El.
    { revert l' E Hb. induction IH as [|n l Hn _ IHl]; intros [|n' l'] E Hb; try done. cbn in E. injection E as En El.
      apply Forall_cons in Ha as [Ha Hl], Hb as [Hb Hl']. cbn. f_equal; auto. }
    assert (∀ l, forallb node_truth l = forallb id (map node_truth l)) as Hf by (clear; induction l; cbn; congruence).
    assert (∀ l, existsb node_truth l = existsb id (map node_truth l)) as He by (clear; induction l; cbn; congruence).
    destruct op; cbn [PlanSem.node_truth]; rewrite ?Hf, ?He, ?El; try done.
    destruct l as [|n [|]], l' as [|n' [|]]; try done. cbn in El. by injection El as ->.
Qed.

Lemma dedup_two a b : orderStructEntriesNode a = orderStructEntriesNode b ∧ dedupNodes [a; b] = [a] ∨ dedupNodes [a; b] = [a; b].
Proof using Hhash.
  unfold dedupNodes. cbn [dedup_loop]. rewrite decide_False by apply not_elem_of_empty. case_decide as E; [left|by right].
  apply elem_of_union in E as [Hs|Hs]; [|by apply not_elem_of_empty in Hs]. by apply elem_of_singleton, Hhash in Hs.
Qed.

Lemma node_ok_two op a b : op = OPERATOR_AND ∨ op = OPERATOR_OR → node_ok a → node_ok b → node_ok (N_LogicalOperation op [a; b]).
Proof. intros Hop Ha Hb. apply node_ok_logical. split_and!; [by destruct Hop as [->| ->]|by destruct Hop as [->| ->]|by repeat constructor]. Qed.

Lemma MkOrNode_two a b : node_ok a → node_ok b → ∃ n, MkOrNode [a; b] = Some n ∧ node_ok n ∧ node_truth n = node_truth a || node_truth b.
Proof using HL Hhash Horder.
  intros Ha Hb. unfold MkOrNode. destruct (dedup_two a b) as [[E ->]| ->].
  - exists a. split_and!; [done..|]. rewrite (node_truth_order a b) by done. by rewrite orb_diag.
  - eexists. split; [done|]. split; [by apply node_ok_two; [right|..]|]. cbn. by rewrite orb_false_r.
Qed.
Lemma MkAndNode_two a b : node_ok a → node_ok b → ∃ n, MkAndNode [a; b] = Some n ∧ node_ok n ∧ node_truth n = node_truth a && node_truth b.
Proof using HL Hhash Horder.
  intros Ha Hb. unfold MkAndNode. destruct (dedup_two a b) as [[E ->]| ->].
  - exists a. split_and!; [done..|]. rewrite (node_truth_order a b) by done. by rewrite andb_diag.
  - eexists. split; [done|]. split; [by apply node_ok_two; [left|..]|]. cbn. by rewrite andb_true_r.
Qed.

Lemma Invert_ok n : node_ok n → node_ok (InvertNodeBooleanValue n) ∧ node_truth (InvertNodeBooleanValue n) = negb (node_truth n).
Proof.
  intros Hn. assert (node_ok (N_LogicalOperation OPERATOR_NOT [n])) as Hnot by (apply node_ok_logical; split_and!; [done|done|by constructor]).
  destruct n as [e|[] l|]; try done. apply node_ok_logical in Hn as (_ & Hl & Hn). specialize (Hl eq_refl).
  destruct l as [|n [|]]; try done. cbn. apply Forall_cons in Hn as [Hn _]. split; [done|]. by rewrite negb_involutive.
Qed.

Lemma const_truth n b : node_ok n → IsNodeConstBool (Some n) = Some b → node_truth n = b.
Proof. intros Hn. destruct n as [[| [] | | | | | |]| |]; try done. intros [= <-]. cbn. by apply (truth_const env). Qed.

Lemma const_ok b : node_ok (N_Expression (E_Const (K_bool b))).
Proof using HL Hconst. eexists. split; [done|]. split; [done|]. cbn. by rewrite Hconst. Qed.

(** * Nodes that may be nil *)

Definition opt_ok (o : option QpN) : Prop := match o with Some n => node_ok n | None => True end.
Definition opt_truth (o : option QpN) : bool := match o with Some n => node_truth n | None => false end.

Lemma opt_const o b : opt_ok o → IsNodeConstBool o = Some b → opt_truth o = b ∧ is_Some o.
Proof. destruct o as [n|]; [|done]. intros Hn Hb. split; [by eapply const_truth|eauto]. Qed.

(** * Conditions *)

Section conditions.
Context `{CelPartial}.

Definition cache_ok (c : ExprCache) : Prop := ∀ src x, c !! src = Some x → compileToExpr src = inl x.

(** The evaluation returns without an error, and keeps the cache right. *)
Definition eruns {A} (m : EM A) (s : pevs) (P : A → Prop) : Prop := ∃ x s', m s = Some (inl x, s') ∧ cache_ok s'.1 ∧ P x.

Lemma eruns_ret {A} (x : A) s (P : A → Prop) : cache_ok s.1 → P x → eruns (mret x) s P.
Proof. intros Hs Hx. by exists x, s. Qed.
Lemma eruns_bind {A B} (m : EM A) (f : A → EM B) s (P : A → Prop) (Q : B → Prop) :
  eruns m s P → (∀ x s, cache_ok s.1 → P x → eruns (f x) s Q) → eruns (m ≫= f) s Q.
Proof.
  intros (x & s' & E & Hs & Hx) Hf. destruct (Hf x s' Hs Hx) as (y & s2 & E2 & Hs2 & Hy). exists y, s2. split; [|done].
  unfold mbind, EM_bind. rewrite E. done.
Qed.

Lemma getOrCompile_runs e s x : compileToExpr (Original e) = inl x → cache_ok s.1 → eruns (getOrCompile e) s (λ y, y = x).
Proof.
  intros Hx Hs. unfold eruns, getOrCompile. destruct (s.1 !! Original e) as [y|] eqn:E.
  - exists y, s. split_and!; [done..|]. apply Hs in E. congruence.
  - rewrite Hx. eexists _, _. split_and!; [done| |done]. intros src y. cbn. intros [[<- <-]|[_ ?]]%lookup_insert_Some; auto.
Qed.

Context (strict : bool) (kn : Known) (variables : gmap string PExpr) (drl : PR PExpr) (val : Expr → bool).

(** Evaluating the expression partially gives a residual whose filter evaluates to [val e]. *)
Definition expr_plans (e : Expr) : Prop :=
  ∀ s, cache_ok s.1 → eruns (x ← getOrCompile e; evaluateConditionExpression strict x (Original e) kn variables drl) s
    (λ r, leaf_ok r ∧ truth r = val e).

Definition means (n : QpN) (b : bool) : Prop := node_ok n ∧ node_truth n = b.

Lemma cond_nodes_runs stop (add : QpN → QpN) (g : bool → bool) l s :
  (∀ n, node_ok n → means (add n) (g (node_truth n))) →
  Forall (λ c, ∀ s, cache_ok s.1 → eruns (evaluate_condition strict kn variables drl c) s (λ n, means n (Eval.truth val c))) l → cache_ok s.1 →
  eruns (cond_nodes (evaluate_condition strict kn variables drl) stop add l) s (λ r,
    match r with
    | inl _ => existsb (λ c, Bool.eqb (Eval.truth val c) stop) l = true
    | inr nodes => Forall node_ok nodes ∧
        (g (negb stop) = true → forallb node_truth nodes = forallb (λ c, g (Eval.truth val c)) l) ∧
        (g (negb stop) = false → existsb node_truth nodes = existsb (λ c, g (Eval.truth val c)) l)
    end).
Proof.
  intros Hadd Hl. revert s. induction Hl as [|c l Hc Hl IH]; intros s Hs; cbn [cond_nodes]; [by apply eruns_ret|].
  eapply eruns_bind; [by apply Hc|]. intros n s1 Hs1 [Hn Ht]. destruct (IsNodeConstBool (Some n)) as [b|] eqn:Eb.
  - eapply const_truth in Eb; [|done]. rewrite Ht in Eb. subst b. destruct (Bool.eqb (Eval.truth val c) stop) eqn:Es.
    + apply eruns_ret; [done|]. cbn. by rewrite Es.
    + destruct (IH s1 Hs1) as (r & s2 & E & Hs2 & Hr). exists r, s2. split_and!; [done..|]. destruct r as [|nodes]; cbn; [by rewrite Es|].
      destruct Hr as (Hok & Ha & Ho). assert (Eval.truth val c = negb stop) as -> by (by destruct (Eval.truth val c), stop).
      split_and!; [done|intros Hg; by rewrite Hg, Ha|intros Hg; by rewrite Hg, Ho].
  - eapply eruns_bind; [by apply IH|]. intros r s2 Hs2 Hr. apply eruns_ret; [done|]. destruct r as [|nodes]; cbn; [by rewrite Hr, orb_true_r|].
    destruct Hr as (Hok & Ha & Ho), (Hadd n Hn) as [Hao Hat]. split_and!; [by constructor| |]; intros Hg; rewrite Hat, Ht; [by rewrite Ha|by rewrite Ho].
Qed.

Lemma combine_and nodes : Forall node_ok nodes → means (combine_nodes FalseExpr TrueExpr OPERATOR_AND (inr nodes)) (forallb node_truth nodes).
Proof using HL Hconst.
  intros Hn. destruct nodes as [|n [|n2 nodes]].
  - split; [apply const_ok|]. apply Hconst.
  - apply Forall_cons in Hn as [Hn _]. split; [done|]. cbn. by rewrite andb_true_r.
  - split; [by apply node_ok_logical|done].
Qed.
Lemma combine_or nodes : Forall node_ok nodes → means (combine_nodes TrueExpr FalseExpr OPERATOR_OR (inr nodes)) (existsb node_truth nodes).
Proof using HL Hconst.
  intros Hn. destruct nodes as [|n [|n2 nodes]].
  - split; [apply const_ok|]. apply Hconst.
  - apply Forall_cons in Hn as [Hn _]. split; [done|]. cbn. by rewrite orb_false_r.
  - split; [by apply node_ok_logical|done].
Qed.

(** The node of a condition means the condition. *)
Lemma evaluate_condition_means c s :
  (∀ e, e ∈ cond_exprs c → expr_plans e) → well_formed c = true → cache_ok s.1 →
  eruns (evaluate_condition strict kn variables drl c) s (λ n, means n (Eval.truth val c)).
Proof using HL Hconst.
  revert s. induction c as [e|l IH|l IH|l IH|] using Condition_nested_ind; intros s He Hwf Hs; cbn [evaluate_condition cond_exprs well_formed] in *; [| | | |done].
  { destruct (He e ltac:(left) s Hs) as (r & s' & E & Hs' & Hr & Ht). unfold mbind, EM_bind in E |- *.
    destruct (getOrCompile e s) as [[[x|er] s1]|] eqn:Eg; try done. cbn in E. exists (N_Expression r), s'. split_and!; [|done|done].
    unfold mbind, EM_bind. rewrite Eg. cbn. by rewrite E. }
  all: assert (∀ c, c ∈ l → ∀ s, cache_ok s.1 → eruns (evaluate_condition strict kn variables drl c) s (λ n, means n (Eval.truth val c))) as Hl by
    (rewrite Forall_forall in IH; intros c Hc s' Hs'; apply IH; [done| |rewrite forallb_forall in Hwf; by apply Hwf, list_elem_of_In|done];
     intros e Hx; apply He; apply list_elem_of_In, in_flat_map; exists c; split; by apply list_elem_of_In).
  all: apply Forall_forall in Hl.
  - eapply eruns_bind; [apply (cond_nodes_runs false id (λ b, b)); [done|exact Hl|done]|]. intros r s1 Hs1 Hr. apply eruns_ret; [done|].
    destruct r as [|nodes]; cbn [Eval.truth].
    + replace (forallb _ l) with false; [split; [apply const_ok|apply Hconst]|]. symmetry. apply not_true_is_false. rewrite forallb_forall.
      apply existsb_exists in Hr as (c & Hc & Hx). intros Ha. by rewrite (Ha c Hc) in Hx.
    + destruct Hr as (Hok & Ha & _). assert (forallb node_truth nodes = forallb (Eval.truth val) l) as <- by exact (Ha eq_refl). by apply combine_and.
  - eapply eruns_bind; [apply (cond_nodes_runs true id (λ b, b)); [done|exact Hl|done]|]. intros r s1 Hs1 Hr. apply eruns_ret; [done|].
    destruct r as [|nodes]; cbn [Eval.truth].
    + replace (existsb _ l) with true; [split; [apply const_ok|apply Hconst]|]. symmetry. apply existsb_exists.
      apply existsb_exists in Hr as (c & Hc & Hx). exists c. split; [done|]. by destruct (Eval.truth val c).
    + destruct Hr as (Hok & _ & Ho). assert (existsb node_truth nodes = existsb (Eval.truth val) l) as <- by exact (Ho eq_refl). by apply combine_or.
  - eapply eruns_bind; [apply (cond_nodes_runs true InvertNodeBooleanValue negb); [apply Invert_ok|exact Hl|done]|]. intros r s1 Hs1 Hr. apply eruns_ret; [done|].
    destruct r as [|nodes]; cbn [Eval.truth].
    + replace (existsb _ l) with true; [split; [apply const_ok|apply Hconst]|]. symmetry. apply existsb_exists.
      apply existsb_exists in Hr as (c & Hc & Hx). exists c. split; [done|]. by destruct (Eval.truth val c).
    + destruct Hr as (Hok & Ha & _). replace (negb _) with (forallb node_truth nodes); [by apply combine_and|]. rewrite (Ha eq_refl).
      clear. induction l as [|c l IH]; cbn; [done|]. by rewrite IH, negb_orb.
Qed.

Lemma EvaluateCondition_means c s :
  (∀ d, c = Some d → (∀ e, e ∈ cond_exprs d → expr_plans e) ∧ well_formed d = true) → cache_ok s.1 →
  eruns (EvaluateCondition strict kn variables drl c) s (λ n, means n (match c with Some c => Eval.truth val c | None => true end)).
Proof using HL Hconst.
  intros Hc Hs. destruct c as [c|]; cbn [EvaluateCondition].
  - destruct (Hc c eq_refl). by apply evaluate_condition_means.
  - apply eruns_ret; [done|]. split; [apply const_ok|apply Hconst].
Qed.
End conditions.
End nodes.
