(* ===== verification/Plan.v ===== *)
(** Query plans: [src/internal/ruletable/plan.go].

    A plan tells for which resources a principal may perform actions: for every
    action the conditions of the rules that a check would consult are evaluated
    partially, and combined to a node over scopes, roles and policy kinds.  The
    nested loops of the source are one definition per loop; what each level
    accumulates is a record. *)
From S2P Require Import Prelude GoRuntime Bitmap Arena LazyDim Dimension GlobDim Namer Policy ScopePerms IndexCore IndexQuery IndexLookup Index RuleTableBuild RuleTable Eval Check PlanExpr PlanFilter PlanNode.

Local Open Scope string_scope.
Local Open Scope list_scope.
Open Scope nat_scope.

(** * Requests *)

Record PlanInput := MkPlanInput {
  pi_RequestId : string;
  pi_Actions : list string;
  pi_Principal : Principal_;
  pi_Kind : string;
  pi_Attr : gmap string Value;
  pi_PolicyVersion : string;
  pi_Scope : string;
  pi_AuxData : gmap string Value;
}.

Definition PlanResourcesInputToRequest (input : PlanInput) : Request :=
  let p := pi_Principal input in
  MkRequest (MkPrincipal (pr_Id p) "" (pr_Roles p) (pr_Attr p) (ScopeValue (pr_Scope p)))
    (MkResource (pi_Kind input) "" "" (pi_Attr input) (ScopeValue (pi_Scope input))) (pi_AuxData input).

Class PlanSchemaManager := {
  ValidatePlanResourcesInput : option Schemas_ → PlanInput → (list ValidationError * bool) + string;
}.

Record PlanResourcesOutput := MkPlanOutput {
  po_RequestId : string;
  po_Kind : string;
  po_PolicyVersion : string;
  po_Actions : list string;
  po_Scope : string;
  po_MatchedScopes : gmap string string;
  po_ValidationErrors : list ValidationError;
  po_Filter : PlanResourcesFilter;
  po_FilterDebug : string;
  po_EvaluationErrors : list (string * string);
}.

(** [MkPlanResourcesOutput], with the filter the callers set. *)
Definition MkPlanResourcesOutput (input : PlanInput) (matchedScopes : gmap string string) (validationErrors : list ValidationError)
    (filter : PlanResourcesFilter) (debug : string) (errors : list (string * string)) : PlanResourcesOutput :=
  MkPlanOutput (pi_RequestId input) (pi_Kind input) (pi_PolicyVersion input) (pi_Actions input) (ScopeValue (pi_Scope input))
    matchedScopes validationErrors filter debug errors.

Definition noMatchPlanOutput (input : PlanInput) (validationErrors : list ValidationError) : PlanResourcesOutput :=
  MkPlanResourcesOutput input ∅ validationErrors (MkFilter KIND_ALWAYS_DENIED None) noPolicyMatch [].

Section plan.
Context `{GlobEngine} `{CelCompiler} `{GoMapOrder} `{ContentHash} `{StringHash} `{DerivedRoleHash}.
Context `{ProtoText} `{OperandText} `{NodeHash} `{CelPartial} `{PlanSchemaManager}.

(** * Combining nodes *)

Definition addNode (curr next : option QpN) (combine : list QpN → option QpN) : option QpN :=
  match next, curr with
  | None, _ => curr
  | Some _, None => next
  | Some n, Some c => combine [c; n]
  end.

(** A DENY of a parent scope applies only where no ALLOW of a child scope that
    overrides its parents does. *)
Definition gateByChildOverrideAllow (childOverrideAllow deny : option QpN) : option QpN :=
  match deny, childOverrideAllow with
  | Some d, Some a =>
      let inv := InvertNodeBooleanValue a in
      if decide (IsNodeConstBool deny = Some true) then Some inv else MkAndNode [inv; d]
  | _, _ => deny
  end.

(** The nodes of a scope. *)
Record scope_nodes := MkScopeNodes { scopeAllowNode : option QpN; scopeDenyNode : option QpN; scopeDenyRolePolicyNode : option QpN }.

(** [switch b.Core.Effect] *)
Definition add_binding (sn : scope_nodes) (core : FunctionalCore) (node : QpN) : scope_nodes :=
  match co_Effect core with
  | EFFECT_ALLOW => MkScopeNodes (addNode (scopeAllowNode sn) (Some node) MkOrNode) (scopeDenyNode sn) (scopeDenyRolePolicyNode sn)
  | EFFECT_DENY =>
      if decide (IsNodeConstBool (Some node) = Some false) then sn
      else if co_FromRolePolicy core
      then MkScopeNodes (scopeAllowNode sn) (scopeDenyNode sn) (addNode (scopeDenyRolePolicyNode sn) (Some node) MkOrNode)
      else MkScopeNodes (scopeAllowNode sn) (addNode (scopeDenyNode sn) (Some node) MkOrNode) (scopeDenyRolePolicyNode sn)
  | _ => sn
  end.

(** What a role accumulates over the scopes. *)
Record role_nodes := MkRoleNodes {
  roleAllowNode : option QpN;
  roleDenyNode : option QpN;
  roleDenyRolePolicyNode : option QpN;
  pendingAllow : bool;
  childOverrideAllow : option QpN;
}.

(** [if scopeAllowNode != nil]: the role's ALLOW and whether it waits for the consent of a parent. *)
Definition add_allow (sp : ScopePermissions) (rn : role_nodes) (scopeAllow : option QpN) : option QpN * bool :=
  match scopeAllow with
  | None => (roleAllowNode rn, pendingAllow rn)
  | Some sa =>
      let '(allow, pending) :=
        match roleAllowNode rn with
        | None => (Some sa, pendingAllow rn)
        | Some ra => if pendingAllow rn then (MkAndNode [ra; sa], false) else (MkOrNode [ra; sa], pendingAllow rn)
        end in
      (allow, if decide (sp = SCOPE_PERMISSIONS_REQUIRE_PARENTAL_CONSENT_FOR_ALLOWS) then true else pending)
  end.

(** The end of the body of the scopes loop; also whether the scope is the one matched. *)
Definition add_scope (sp : ScopePermissions) (rn : role_nodes) (sn : scope_nodes) : role_nodes * bool :=
  let scopeDeny := gateByChildOverrideAllow (childOverrideAllow rn) (scopeDenyNode sn) in
  let scopeDenyRP := gateByChildOverrideAllow (childOverrideAllow rn) (scopeDenyRolePolicyNode sn) in
  let scopeAllow := scopeAllowNode sn in
  let '(allow, pending) := add_allow sp rn scopeAllow in
  let override := bool_decide (sp = SCOPE_PERMISSIONS_OVERRIDE_PARENT) in
  let present := bool_decide (is_Some scopeDeny) || bool_decide (is_Some scopeDenyRP) || bool_decide (is_Some scopeAllow) in
  (MkRoleNodes allow (addNode (roleDenyNode rn) scopeDeny MkOrNode) (addNode (roleDenyRolePolicyNode rn) scopeDenyRP MkOrNode) pending
     (if override then addNode (childOverrideAllow rn) scopeAllow MkOrNode else childOverrideAllow rn),
   present && override).

(** What a policy kind accumulates over the roles. *)
Record type_nodes := MkTypeNodes { policyTypeAllowNode : option QpN; policyTypeDenyNode : option QpN }.

(** The end of the body of the roles loop; [true] breaks out of the loop. *)
Definition add_role (pt : Kind) (tn : type_nodes) (rn : role_nodes) : type_nodes * bool :=
  let allow := if pendingAllow rn then None else roleAllowNode rn in
  let deny := roleDenyNode rn in
  let denyRP := roleDenyRolePolicyNode rn in
  let constTrue := bool_decide (IsNodeConstBool deny = Some true) || bool_decide (IsNodeConstBool denyRP = Some true) in
  let '(allow, deny, denyRP) :=
    if constTrue && negb (bool_decide (pt = KIND_PRINCIPAL)) then (Some MkFalseNode, None, None) else (allow, deny, denyRP) in
  if negb constTrue && bool_decide (deny = None) && bool_decide (denyRP = None) && bool_decide (IsNodeConstBool allow = Some true)
  then (MkTypeNodes allow None, true)
  else
    let allow := match denyRP, allow with
                 | Some d, Some a => MkAndNode [a; InvertNodeBooleanValue d]
                 | _, _ => allow
                 end in
    (MkTypeNodes (addNode (policyTypeAllowNode tn) allow MkOrNode) (addNode (policyTypeDenyNode tn) deny MkOrNode), false).

(** The end of the body of the policy kinds loop. *)
Definition add_type (hasPolicyTypeAllow : bool) (rootNode : option QpN) (tn : type_nodes) : bool * option QpN :=
  let has := match policyTypeAllowNode tn with Some _ => true | None => hasPolicyTypeAllow end in
  let root := match policyTypeAllowNode tn, rootNode with
              | None, _ => rootNode
              | Some a, None => Some a
              | Some a, Some r => MkOrNode [a; r]
              end in
  let root := match policyTypeDenyNode tn, root with
              | None, _ => root
              | Some d, None => Some (InvertNodeBooleanValue d)
              | Some d, Some r => MkAndNode [InvertNodeBooleanValue d; r]
              end in
  (has, root).

(** * State *)

(** Everything a plan mutates: what the index and the caches hold, the audit
    trail, the derived roles of scopes (of the current action) and the matched scopes. *)
Record pst := MkPst {
  ps_idx : bitmapIndex;
  ps_pool : list Bitmap;
  ps_ev : pevs;
  ps_trail : gmap string string;
  scopedDerivedRolesList : gmap string (PR PExpr);
  matchedScopes : gmap string string;
}.

Definition PM (A : Type) : Type := pst → option ((A + PlanErr) * pst).
#[global] Instance PM_ret : MRet PM := λ A x k, Some (inl x, k).
#[global] Instance PM_bind : MBind PM := λ A B f m k,
  '(r, k) ← m k;
  match r with inl x => f x k | inr e => Some (inr e, k) end.
Definition plook {A} (f : pst → A) : PM A := λ k, Some (inl (f k), k).
Definition pmodify (f : pst → pst) : PM unit := λ k, Some (inl (), f k).
Definition ppanic {A} (o : option A) : PM A := λ k, x ← o; Some (inl x, k).
Definition lift_em {A} (m : EM A) : PM A := λ k,
  '(r, e) ← m (ps_ev k); Some (r, MkPst (ps_idx k) (ps_pool k) e (ps_trail k) (scopedDerivedRolesList k) (matchedScopes k)).
Definition pquery {A} (m : bitmapIndex → list Bitmap → option (A * bitmapIndex * list Bitmap)) : PM A := λ k,
  '(x, i, p) ← m (ps_idx k) (ps_pool k);
  Some (inl x, MkPst i p (ps_ev k) (ps_trail k) (scopedDerivedRolesList k) (matchedScopes k)).
Definition padd_trail (t : gmap string string) (k : pst) : pst :=
  MkPst (ps_idx k) (ps_pool k) (ps_ev k) (t ∪ ps_trail k) (scopedDerivedRolesList k) (matchedScopes k).
Definition set_scoped (m : gmap string (PR PExpr)) (k : pst) : pst :=
  MkPst (ps_idx k) (ps_pool k) (ps_ev k) (ps_trail k) m (matchedScopes k).
Definition set_matched (m : gmap string string) (k : pst) : pst :=
  MkPst (ps_idx k) (ps_pool k) (ps_ev k) (ps_trail k) (scopedDerivedRolesList k) m.

(** A strict evaluation error is caught ([inr]), any other error stops the plan. *)
Definition catch_strict {A} (m : PM A) : PM (A + PlanErr) := λ k,
  '(r, k) ← m k;
  match r with
  | inl x => Some (inl (inl x), k)
  | inr (PE_Strict e msg) => Some (inl (inr (PE_Strict e msg)), k)
  | inr e => Some (inr e, k)
  end.

(** What is fixed while planning. *)
Record PFixed := MkPFixed {
  px_input : PlanInput;
  px_params : EvalParams;
  px_request : Request;
  px_resourceVersion : string;
  px_resourceKind : ResourceKind;
  px_resourceScope : string;
  px_principalScopes : list string;
  px_resourceScopes : list string;
  px_includingParentRoles : gset string;
}.

Definition known (px : PFixed) (constants : gmap string Value) : Known :=
  MkKnown (px_request px) (Globals (px_params px)) constants (NowFunc (px_params px)).
Definition plan_condition (px : PFixed) (constants : gmap string Value) (variables : gmap string PExpr) (drl : PR PExpr) (c : option Condition) :
    PM QpN :=
  lift_em (EvaluateCondition (StrictEvaluation (px_params px)) (known px constants) variables drl c).

(** * Derived roles of a scope *)

(** The roles found so far, and the first strict error (the code appends the errors;
    what matters later is that they are strict errors). *)
Definition plan_derived_role (px : PFixed) (acc : list (string * QpN) * option PlanErr) '((name, w) : string * WrappedRunnableDerivedRole) :
    PM (list (string * QpN) * option PlanErr) :=
  let dr := w_role w in
  if negb (SetIntersects (dr_ParentRoles dr) (px_includingParentRoles px)) then mret acc
  else
    variables ← lift_em (VariableExprs (dr_OrderedVariables dr));
    r ← catch_strict (plan_condition px (w_Constants w) variables (MkDerivedRolesList []) (dr_Condition dr));
    mret (match r with
          | inl node => (acc.1 ++ [(name, node)], acc.2)
          | inr e => (acc.1, match acc.2 with Some e => Some e | None => Some e end)
          end).

Fixpoint foldPM {A B} (f : B → A → PM B) (acc : B) (l : list A) : PM B :=
  match l with
  | [] => mret acc
  | x :: l => acc ← f acc x; foldPM f acc l
  end.

Definition role_le (a b : string * QpN) : Prop := string_le a.1 b.1.
#[global] Instance role_le_dec a b : Decision (role_le a b).
Proof. unfold role_le. apply _. Defined.

Definition scope_derived_roles_list (rt : RuleTable) (px : PFixed) (scope : string) : PM (PR PExpr) :=
  cached ← plook (λ k, scopedDerivedRolesList k !! scope);
  match cached with
  | Some c => mret c
  | None =>
      '(roles, err) ← foldPM (plan_derived_role px) ([], None)
                        (go_range (GetDerivedRoles rt (ResourcePolicyFQN (pi_Kind (px_input px)) (px_resourceVersion px) scope)));
      let l := match err with Some e => perr e | None => MkDerivedRolesList (merge_sort role_le roles) end in
      pmodify (λ k, set_scoped (<[scope := l]> (scopedDerivedRolesList k)) k);;
      mret l
  end.

(** * The loops *)

(** The node of a binding, from its condition and its derived role condition. *)
Definition binding_node (px : PFixed) (drl : PR PExpr) (core : FunctionalCore) : PM (QpN + PlanErr) :=
  '(constants, variables) ← (match co_Params core with
                             | Some p => v ← lift_em (VariableExprs (rp_Variables p)); mret (rp_Constants p, v)
                             | None => mret (∅, ∅)
                             end);
  r ← catch_strict (plan_condition px constants variables drl (co_Condition core));
  match r with
  | inr e => mret (inr e)
  | inl node =>
      match co_DerivedRoleCondition core with
      | None => mret (inl node)
      | Some c =>
          variables ← (match co_DerivedRoleParams core with
                       | Some p => lift_em (VariableExprs (rp_Variables p))
                       | None => mret ∅
                       end);
          p ← ppanic (co_DerivedRoleParams core);
          r ← catch_strict (plan_condition px (rp_Constants p) variables drl (Some c));
          mret (match r with
                | inr e => inr e
                | inl drNode => inl (match co_Condition core with None => drNode | Some _ => MkAndLogicalOperation [node; drNode] end)
                end)
      end
  end.

(** [for _, b := range bindings]; a strict error leaves the policy kinds loop ([inr]). *)
Fixpoint plan_bindings (rt : RuleTable) (px : PFixed) (drl : PR PExpr) (bs : list BindingHandle) (sn : scope_nodes) : PM (scope_nodes + PlanErr) :=
  match bs with
  | [] => mret (inl sn)
  | b :: bs =>
      (match GetMeta rt (HandleStr (bh_OriginFqn b)) with
       | Some m => pmodify (padd_trail (meta_SourceAttributes m))
       | None => mret ()
       end);;
      r ← binding_node px drl (bh_Core b);
      match r with
      | inr e => mret (inr e)
      | inl node => plan_bindings rt px drl bs (add_binding sn (bh_Core b) node)
      end
  end.

Fixpoint plan_scopes (rt : RuleTable) (px : PFixed) (pt : Kind) (action : string) (roles : list string) (scopes : list string) (rn : role_nodes) :
    PM (role_nodes + PlanErr) :=
  match scopes with
  | [] => mret (inl rn)
  | scope :: scopes =>
      if decide (IsNodeConstBool (childOverrideAllow rn) = Some true) then mret (inl rn)
      else
        drl ← (if decide (pt = KIND_RESOURCE) then scope_derived_roles_list rt px scope else mret (MkDerivedRolesList []));
        let pid := if decide (pt = KIND_PRINCIPAL) then pr_Id (pi_Principal (px_input px)) else "" in
        bs ← pquery (λ idx pool, Query idx pool (px_resourceVersion px) (px_resourceKind px) scope action roles pt pid []);
        r ← plan_bindings rt px drl bs (MkScopeNodes None None None);
        match r with
        | inr e => mret (inr e)
        | inl sn =>
            let '(rn, matched) := add_scope (GetScopeScopePermissions rt scope) rn sn in
            (if (matched : bool) then pmodify (λ k, set_matched (<[action := scope]> (matchedScopes k)) k) else mret ());;
            plan_scopes rt px pt action roles scopes rn
        end
  end.

(** [for i, role := range input.Principal.Roles]; principal policies take the first role only. *)
Fixpoint plan_roles (rt : RuleTable) (px : PFixed) (pt : Kind) (action : string) (roles : list string) (tn : type_nodes) : PM (type_nodes + PlanErr) :=
  match roles with
  | [] => mret (inl tn)
  | role :: roles =>
      let scopes := if decide (pt = KIND_PRINCIPAL) then px_principalScopes px else px_resourceScopes px in
      let rolesIncludingParents := AddParentRoles (rt_idx rt) [px_resourceScope px] [role] in
      r ← plan_scopes rt px pt action rolesIncludingParents scopes (MkRoleNodes None None None false None);
      match r with
      | inr e => mret (inr e)
      | inl rn =>
          let '(tn, stop) := add_role pt tn rn in
          if (stop : bool) || bool_decide (pt = KIND_PRINCIPAL) then mret (inl tn) else plan_roles rt px pt action roles tn
      end
  end.

(** [policyTypesLoop]: resource policies before principal policies.  The result
    is whether some kind has an ALLOW, and the root node; or a strict error. *)
Fixpoint plan_types (rt : RuleTable) (px : PFixed) (action : string) (pts : list Kind) (has : bool) (root : option QpN) :
    PM ((bool * option QpN) + PlanErr) :=
  match pts with
  | [] => mret (inl (has, root))
  | pt :: pts =>
      r ← plan_roles rt px pt action (pr_Roles (pi_Principal (px_input px))) (MkTypeNodes None None);
      match r with
      | inr e => mret (inr e)
      | inl tn => let '(has, root) := add_type has root tn in plan_types rt px action pts has root
      end
  end.

(** The filter of one action, and whether a policy matched. *)
Definition action_filter (r : (bool * option QpN) + PlanErr) : NodeFilter * bool :=
  let nf := MkNodeFilter [] [] in
  let '(nf, policyMatch) :=
    match r with
    | inr _ => (NodeFilter_ResetToUnconditionalDeny nf, true)
    | inl (has, Some root) => (if (has : bool) then NodeFilter_Add nf root EFFECT_ALLOW else NodeFilter_ResetToUnconditionalDeny nf, true)
    | inl (_, None) => (nf, false)
    end in
  (if NodeFilter_AllowIsEmpty nf && negb (NodeFilter_DenyIsEmpty nf) then NodeFilter_ResetToUnconditionalDeny nf else nf, policyMatch).

Definition plan_action (rt : RuleTable) (px : PFixed) (action : string) : PM (PlanResourcesFilter * bool) :=
  pmodify (λ k, set_scoped ∅ (set_matched (<[action := ""]> (matchedScopes k)) k));;
  r ← plan_types rt px action [KIND_RESOURCE; KIND_PRINCIPAL] false None;
  let '(nf, policyMatch) := action_filter r in
  f ← lift_em (lift (ToFilter (NodeFilter_ToAST nf)));
  mret (f, policyMatch).

Definition plan_actions (rt : RuleTable) (px : PFixed) (actions : list string) : PM (list PlanResourcesFilter * bool) :=
  foldPM (λ '(filters, policyMatch) action, '(f, m) ← plan_action rt px action; mret (filters ++ [f], policyMatch || m)) ([], false) actions.

(** * [planWithAuditTrail] *)

Definition planWithAuditTrail (rt : RuleTable) (cache : ExprCache) (evalParams : EvalParams) (input : PlanInput) :
    option ((PlanResourcesOutput * gmap string string + PlanErr) * (RuleTable * ExprCache)) :=
  let principal := pi_Principal input in
  let principalScope := Scope (pr_Scope principal) evalParams in
  let principalVersion := PolicyVersion (pr_PolicyVersion principal) evalParams in
  let resourceScope := Scope (pi_Scope input) evalParams in
  let resourceVersion := PolicyVersion (pi_PolicyVersion input) evalParams in
  let '(principalScopes, _, _) := GetAllScopes rt KIND_PRINCIPAL principalScope (pr_Id principal) principalVersion (LenientScopeSearch evalParams) in
  let '(resourceScopes, _, resourcePolicyFQN) := GetAllScopes rt KIND_RESOURCE resourceScope (pi_Kind input) resourceVersion (LenientScopeSearch evalParams) in
  if decide (principalScopes = [] ∧ resourceScopes = []) then Some (inl (noMatchPlanOutput input [], ∅), (rt, cache))
  else
    match ValidatePlanResourcesInput (GetSchema rt resourcePolicyFQN) input with
    | inr err => Some (inr (PE_Other err), (rt, cache))
    | inl (errs, reject) =>
        if bool_decide (errs ≠ []) && reject then
          let filter := MkFilter KIND_ALWAYS_DENIED None in
          Some (inl (MkPlanResourcesOutput input ∅ errs filter (FilterToString filter) [], ∅), (rt, cache))
        else
          let allRoles := AddParentRoles (rt_idx rt) [resourceScope] (pr_Roles principal) in
          let px := MkPFixed input evalParams (PlanResourcesInputToRequest input) resourceVersion (NewResourceKind (pi_Kind input)) resourceScope
                      principalScopes resourceScopes (list_to_set allRoles) in
          '(r, k) ← plan_actions rt px (pi_Actions input) (MkPst (bi (rt_idx rt)) (rt_pool rt) (cache, ∅) ∅ ∅ ∅);
          let state := (with_caches rt (ps_idx k) (ps_pool k) (rt_programCache rt), (ps_ev k).1) in
          match r with
          | inr e => Some (inr e, state)
          | inl (filters, policyMatch) =>
              m ← MergeWithAnd filters;
              Some (match m with
                    | inr e => inr e
                    | inl (filter, debug) =>
                        inl (MkPlanResourcesOutput input (matchedScopes k) errs filter (if (policyMatch : bool) then debug else noPolicyMatch)
                          (CELErrors_All (ps_ev k).2), ps_trail k)
                    end, state)
          end
    end.
End plan.
