(* ===== verification/PlanCombine.v ===== *)
(** How plans combine nodes over bindings, scopes, roles and policy kinds, in
    terms of which rules apply.

    [A s] and [D s] tell that an ALLOW and a DENY rule apply in scope [s].  Every
    scope either overrides its parents or leaves ALLOWs to them ([settled]).
    Then a role is permitted exactly when an ALLOW applies in a scope that
    overrides its parents ([overriding]) and no DENY applies in a scope before
    such an ALLOW ([ungated]). *)
From S2P Require Import Prelude GoRuntime Bitmap Arena LazyDim Dimension GlobDim Namer Policy ScopePerms IndexCore IndexQuery IndexQuerySpec IndexLookup Index RuleTableBuild RuleTable Eval Check CheckSpec Reference PlanExpr PlanFilter PlanSem PlanNode PlanNodeSpec Plan.

Local Open Scope string_scope.
Local Open Scope list_scope.
Open Scope nat_scope.

(** * Scopes *)

Section scopes.
Context (perms : string → ScopePermissions) (A : string → Prop).

Definition settled (s : string) : Prop :=
  perms s = SCOPE_PERMISSIONS_OVERRIDE_PARENT ∨ perms s = SCOPE_PERMISSIONS_REQUIRE_PARENTAL_CONSENT_FOR_ALLOWS.
Definition overriding (l : list string) : Prop := ∃ s, s ∈ l ∧ perms s = SCOPE_PERMISSIONS_OVERRIDE_PARENT ∧ A s.

Lemma overriding_app l l' : overriding (l ++ l') ↔ overriding l ∨ overriding l'.
Proof. unfold overriding. setoid_rewrite elem_of_app. naive_solver. Qed.
Lemma overriding_one s : overriding [s] ↔ perms s = SCOPE_PERMISSIONS_OVERRIDE_PARENT ∧ A s.
Proof. unfold overriding. setoid_rewrite list_elem_of_singleton. naive_solver. Qed.

Section decidable.
Context (A_dec : ∀ s, A s ∨ ¬ A s).

Lemma overriding_dec l : overriding l ∨ ¬ overriding l.
Proof using A_dec.
  induction l as [|s l IH]; [right; by intros (s & ?%elem_of_nil & _)|].
  destruct IH as [IH|IH]; [left; apply (overriding_app [s]); by right|].
  destruct (A_dec s) as [HA|HA]; [destruct (decide (perms s = SCOPE_PERMISSIONS_OVERRIDE_PARENT)) as [Ho|Ho]|].
  - left. apply (overriding_app [s]). left. by apply overriding_one.
  - right. intros [Hx|?]%(overriding_app [s]); [|done]. by apply overriding_one in Hx as [? _].
  - right. intros [Hx|?]%(overriding_app [s]); [|done]. by apply overriding_one in Hx as [_ ?].
Qed.

(** The first overriding ALLOW. *)
Lemma overriding_first l : overriding l → ∃ before s rest, l = before ++ s :: rest ∧ perms s = SCOPE_PERMISSIONS_OVERRIDE_PARENT ∧ A s ∧ ¬ overriding before.
Proof using A_dec.
  induction l as [|x l IH] using rev_ind; [by intros (s & ?%elem_of_nil & _)|]. intros Ho.
  destruct (overriding_dec l) as [Hl|Hl].
  - destruct (IH Hl) as (before & s & rest & -> & ?). exists before, s, (rest ++ [x]). split; [by rewrite <-app_assoc|done].
  - apply overriding_app in Ho as [?|[Hp HA]%overriding_one]; [done|]. exists l, x, []. done.
Qed.
End decidable.

Context (D : string → Prop).
Definition ungated (l : list string) : Prop := ∃ before s rest, l = before ++ s :: rest ∧ D s ∧ ¬ overriding before.

Lemma ungated_prefix l l' : ungated l → ungated (l ++ l').
Proof. intros (before & s & rest & -> & HD & Ho). exists before, s, (rest ++ l'). split; [|done]. by rewrite <-app_assoc. Qed.

Lemma ungated_snoc l s : ungated (l ++ [s]) ↔ ungated l ∨ D s ∧ ¬ overriding l.
Proof.
  split.
  - intros (before & t & rest & E & HD & Ho). destruct rest as [|x rest _] using rev_ind.
    + apply app_inj_tail in E as [<- <-]. by right.
    + left. exists before, t, rest. rewrite app_comm_cons, app_assoc in E. by apply app_inj_tail in E as [-> _].
  - intros [Hu|[HD Ho]]; [by apply ungated_prefix|]. exists l, s, []. done.
Qed.

(** Beyond an overriding ALLOW nothing counts. *)
Lemma ungated_over l l' : overriding l → ungated (l ++ l') → ungated l.
Proof.
  intros Hov (before & s & rest & E & HD & Ho). apply app_eq_inv in E as [([|x k] & El & Ek)|(k & -> & _)].
  - rewrite app_nil_r in El. by subst.
  - injection Ek as <- _. by exists before, s, k.
  - destruct Ho. apply overriding_app. by left.
Qed.

(** * The predicate of checks *)

Definition effect_of (e : Effect) (s : string) : Prop :=
  match e with EFFECT_ALLOW => A s | EFFECT_DENY => D s | _ => False end.
Local Abbreviation permits := (permits_on perms effect_of false).

Lemma permits_sound l : (∀ s, s ∈ l → settled s) → permits l → overriding l ∧ ¬ ungated l.
Proof.
  intros Hl (d & decider & Hd & Hp & Hnd & g & Hg & Hgd & Hc). destruct Hg as [[? _]|(s & Hs & HA)]; [done|].
  assert (perms s = SCOPE_PERMISSIONS_OVERRIDE_PARENT) as Ho.
  { destruct (Hl s) as [?|?]; [by eapply list_elem_of_lookup_2|done|]. by destruct (Hc g s ltac:(lia) Hs). }
  split; [exists s; split; [by eapply list_elem_of_lookup_2|done]|].
  intros (before & t & rest & E & HD & Hn). destruct (decide (length before ≤ d)) as [Hle|Hgt].
  - apply (Hnd (length before) t Hle); [|done]. rewrite E. by apply list_lookup_middle.
  - destruct Hn. exists s. split; [|done]. apply (list_elem_of_lookup_2 _ g). rewrite E, lookup_app_l in Hs by lia. done.
Qed.

Context (A_dec : ∀ s, A s ∨ ¬ A s).

Lemma permits_complete l : overriding l → ¬ ungated l → permits l.
Proof using A_dec.
  intros (before & s & rest & -> & Hp & HA & Hn)%(overriding_first A_dec) Hu.
  assert ((before ++ s :: rest) !! length before = Some s) as Hs by (by apply list_lookup_middle).
  exists (length before), s. split_and!; [done|done| |].
  - intros k t Hk Ht HD. apply Hu. destruct (decide (k = length before)) as [->|Hne].
    + rewrite Hs in Ht. injection Ht as <-. by exists before, s, rest.
    + rewrite lookup_app_l in Ht by lia. apply list_elem_of_split_length in Ht as (b1 & b2 & -> & _).
      exists b1, t, (b2 ++ s :: rest). split; [by rewrite <-app_assoc|]. split; [done|]. intros Ho. apply Hn. apply overriding_app. by left.
  - exists (length before). split_and!; [right; by exists s|done|]. intros k t Hk Ht. assert (k = length before) as -> by lia.
    rewrite Hs in Ht. injection Ht as <-. by rewrite Hp.
Qed.

(** What the scopes [l] processed so far say, when the rest was left out only
    after an overriding ALLOW. *)
Lemma permits_prefix l l' :
  (∀ s, s ∈ l ++ l' → settled s) → l' = [] ∨ overriding l → permits (l ++ l') ↔ overriding l ∧ ¬ ungated l.
Proof using A_dec.
  intros Hs Hend. split.
  - intros Hp. apply permits_sound in Hp as [Ho Hu]; [|done]. split.
    + destruct Hend as [->|?]; [by rewrite app_nil_r in Ho|done].
    + intros Hl. by apply Hu, ungated_prefix.
  - intros [Ho Hu]. apply permits_complete; [apply overriding_app; by left|]. intros Hx. apply Hu. by eapply ungated_over.
Qed.
End scopes.

(** * Nodes *)

Section combine.
Context `{CelCompiler} `{ProtoText} `{OperandText} `{FilterSem} `{HL : !FilterLaws} `{NodeHash}.
Context (env : string → option fval) (truth : PExpr → bool).
Context (Hhash : hash_exact) (Horder : order_irrelevant env truth) (Hconst : ∀ b, truth (E_Const (K_bool b)) = b).
Local Abbreviation node_ok := (node_ok env truth).
Local Abbreviation ok := (opt_ok env truth).
Local Abbreviation tr := (opt_truth truth).

Lemma addNode_or c n :
  ok c → ok n → ok (addNode c n MkOrNode) ∧ tr (addNode c n MkOrNode) = tr c || tr n ∧ (is_Some (addNode c n MkOrNode) ↔ is_Some c ∨ is_Some n).
Proof using HL Hhash Horder.
  intros Hc Hn. destruct n as [n|], c as [c|]; cbn [addNode].
  - destruct (MkOrNode_two env truth Hhash Horder c n Hc Hn) as (m & -> & Hm & Ht). split_and!; [done|done|]. split; eauto.
  - split_and!; [done..|]. split; eauto.
  - split_and!; [done|cbn; by rewrite orb_false_r|]. split; eauto.
  - split_and!; [done|done|]. split; [by left|]. by intros [?|?].
Qed.

Lemma gate_ok a d :
  ok a → ok d → ok (gateByChildOverrideAllow a d) ∧ tr (gateByChildOverrideAllow a d) = tr d && negb (tr a) ∧
    (is_Some (gateByChildOverrideAllow a d) ↔ is_Some d).
Proof using HL Hhash Horder.
  intros Ha Hd. destruct d as [d|], a as [a|]; cbn [gateByChildOverrideAllow]; [|cbn; by rewrite ?andb_true_r|done..].
  destruct (Invert_ok env truth a Ha) as [Hi Ht]. case_decide as Ec.
  - destruct (opt_const env truth (Some d) true Hd Ec) as [Htd _]. cbn in Htd |- *. rewrite Htd, Ht. split_and!; [done|done|]. split; eauto.
  - destruct (MkAndNode_two env truth Hhash Horder _ d Hi Hd) as (m & -> & Hm & Htm). cbn. rewrite Htm, Ht, andb_comm. split_and!; [done|done|]. split; eauto.
Qed.

(** ** Bindings of a scope *)

(** [a] and [d] tell that an ALLOW and a DENY applies, [ha] and [hd] that there is one. *)
Record scope_means (sn : scope_nodes) (a d ha hd : Prop) : Prop := {
  sm_ok : ok (scopeAllowNode sn) ∧ ok (scopeDenyNode sn) ∧ ok (scopeDenyRolePolicyNode sn);
  sm_allow : tr (scopeAllowNode sn) = true ↔ a;
  sm_deny : tr (scopeDenyNode sn) = true ∨ tr (scopeDenyRolePolicyNode sn) = true ↔ d;
  sm_has_allow : is_Some (scopeAllowNode sn) → ha;
  sm_has_deny : is_Some (scopeDenyNode sn) ∨ is_Some (scopeDenyRolePolicyNode sn) → hd;
}.

Lemma scope_means_iff sn a d ha hd a' d' ha' hd' :
  (a ↔ a') → (d ↔ d') → (ha → ha') → (hd → hd') → scope_means sn a d ha hd → scope_means sn a' d' ha' hd'.
Proof. intros Ea Ed Ha Hd []. split; [done|by rewrite <-Ea|by rewrite <-Ed|auto|auto]. Qed.

Lemma scope_means_nil : scope_means (MkScopeNodes None None None) False False False False.
Proof. split; cbn; try done; try (split; [done|naive_solver]). - split; [by intros [?|?]|done]. - by intros [[? ?]|[? ?]]. Qed.

Lemma add_binding_means sn core n a d ha hd :
  node_ok n → scope_means sn a d ha hd →
  scope_means (add_binding sn core n)
    (a ∨ co_Effect core = EFFECT_ALLOW ∧ node_truth truth n = true) (d ∨ co_Effect core = EFFECT_DENY ∧ node_truth truth n = true)
    (ha ∨ co_Effect core = EFFECT_ALLOW) (hd ∨ co_Effect core = EFFECT_DENY).
Proof using HL Hhash Horder.
  intros Hn [(Oa & Od & Or) Ma Md Ha Hd]. unfold add_binding. destruct (co_Effect core) eqn:Ee.
  - split; [done|rewrite Ma; naive_solver|rewrite Md; naive_solver|auto|auto].
  - destruct (addNode_or (scopeAllowNode sn) (Some n) Oa Hn) as (O & T & S). split; cbn [scopeAllowNode scopeDenyNode scopeDenyRolePolicyNode].
    + done.
    + rewrite T, orb_true_iff, Ma. cbn. naive_solver.
    + rewrite Md. naive_solver.
    + auto.
    + auto.
  - case_decide as Ec.
    { apply (opt_const env truth (Some n)) in Ec as [Tn _]; [|done]. cbn in Tn. split; [done|rewrite Ma; naive_solver|rewrite Md, Tn; naive_solver|auto|auto]. }
    destruct (co_FromRolePolicy core).
    + destruct (addNode_or (scopeDenyRolePolicyNode sn) (Some n) Or Hn) as (O & T & S). split; cbn [scopeAllowNode scopeDenyNode scopeDenyRolePolicyNode].
      * done.
      * rewrite Ma. naive_solver.
      * rewrite T, orb_true_iff, <-Md. cbn. naive_solver.
      * auto.
      * auto.
    + destruct (addNode_or (scopeDenyNode sn) (Some n) Od Hn) as (O & T & S). split; cbn [scopeAllowNode scopeDenyNode scopeDenyRolePolicyNode].
      * done.
      * rewrite Ma. naive_solver.
      * rewrite T, orb_true_iff, <-Md. cbn. naive_solver.
      * auto.
      * auto.
  - split; [done|rewrite Ma; naive_solver|rewrite Md; naive_solver|auto|auto].
Qed.

(** ** Scopes of a role *)

Context (perms : string → ScopePermissions) (A D hasA hasD : string → Prop).

Record role_inv (rn : role_nodes) (l : list string) : Prop := {
  ri_ok : ok (roleAllowNode rn) ∧ ok (roleDenyNode rn) ∧ ok (roleDenyRolePolicyNode rn) ∧ ok (childOverrideAllow rn);
  ri_override : tr (childOverrideAllow rn) = true ↔ overriding perms A l;
  ri_deny : tr (roleDenyNode rn) = true ∨ tr (roleDenyRolePolicyNode rn) = true ↔ ungated perms A D l;
  ri_allow : pendingAllow rn = false → tr (roleAllowNode rn) = true → overriding perms A l;
  ri_none : roleAllowNode rn = None → pendingAllow rn = false;
  ri_exact : (∀ s, s ∈ l → perms s = SCOPE_PERMISSIONS_OVERRIDE_PARENT) →
    pendingAllow rn = false ∧ (overriding perms A l → tr (roleAllowNode rn) = true);
  ri_has_allow : is_Some (roleAllowNode rn) → ∃ s, s ∈ l ∧ hasA s;
  ri_has_deny : is_Some (roleDenyNode rn) ∨ is_Some (roleDenyRolePolicyNode rn) → ∃ s, s ∈ l ∧ hasD s;
}.

Lemma role_inv_nil : role_inv (MkRoleNodes None None None false None) [].
Proof.
  assert (¬ overriding perms A []) as Ho by (by intros (s & ?%elem_of_nil & _)).
  split; cbn.
  - done.
  - split; [done|by intros ?%Ho].
  - split; [by intros [?|?]|]. intros (b & s & r & E & _). by destruct b.
  - done.
  - done.
  - intros _. split; [done|by intros ?%Ho].
  - by intros [? ?].
  - by intros [[? ?]|[? ?]].
Qed.

(** The ALLOW of the role after a scope. *)
Lemma add_allow_means rn sa l s :
  settled perms s → role_inv rn l → ok sa → (tr sa = true ↔ A s) →
  let '(allow, pending) := add_allow (perms s) rn sa in
  ok allow ∧ (allow = None → pending = false) ∧ (is_Some allow → is_Some (roleAllowNode rn) ∨ is_Some sa) ∧
  (pending = false → tr allow = true → overriding perms A (l ++ [s])) ∧
  ((∀ t, t ∈ l ++ [s] → perms t = SCOPE_PERMISSIONS_OVERRIDE_PARENT) → pending = false ∧ (overriding perms A (l ++ [s]) → tr allow = true)).
Proof using HL Hhash Horder.
  intros Hset [(Oa & _) _ _ Ial Ino Iex _ _] Osa Tsa.
  assert (overriding perms A (l ++ [s]) ↔ overriding perms A l ∨ perms s = SCOPE_PERMISSIONS_OVERRIDE_PARENT ∧ A s) as Hov
    by (by rewrite overriding_app, overriding_one).
  assert ((∀ t, t ∈ l ++ [s] → perms t = SCOPE_PERMISSIONS_OVERRIDE_PARENT) ↔
    (∀ t, t ∈ l → perms t = SCOPE_PERMISSIONS_OVERRIDE_PARENT) ∧ perms s = SCOPE_PERMISSIONS_OVERRIDE_PARENT) as Hall.
  { setoid_rewrite elem_of_app. setoid_rewrite list_elem_of_singleton. naive_solver. }
  unfold add_allow. destruct sa as [sa|].
  2:{ split_and!; [done|done|by left|intros Hp Ht; apply Hov; left; by apply Ial|].
      intros [Hl _]%Hall. destruct (Iex Hl) as [Hp He]. split; [done|]. intros [?|[_ HA]]%Hov; [auto|]. by apply Tsa in HA. }
  cbn in Tsa. destruct (roleAllowNode rn) as [ra|] eqn:Era; cbn [opt_truth] in *.
  - destruct (pendingAllow rn) eqn:Ep.
    + destruct (MkAndNode_two env truth Hhash Horder ra sa Oa Osa) as (m & -> & Om & Tm). cbn [opt_truth opt_ok]. rewrite Tm, andb_true_iff.
      split_and!; [done|done|eauto| |intros [Hl _]%Hall; by destruct (Iex Hl)].
      case_decide; [done|]. intros _ [_ Ht%Tsa]. apply Hov. right. split; [by destruct Hset|done].
    + destruct (MkOrNode_two env truth Hhash Horder ra sa Oa Osa) as (m & -> & Om & Tm). cbn [opt_truth opt_ok]. rewrite Tm, orb_true_iff.
      split_and!; [done|done|eauto| |].
      * case_decide; [done|]. intros _ [Ht|Ht%Tsa]; apply Hov; [left; by apply Ial|right; split; [by destruct Hset|done]].
      * intros [Hl Hs]%Hall. rewrite decide_False by (by rewrite Hs). destruct (Iex Hl) as [_ He]. split; [done|].
        intros [?|[_ ?%Tsa]]%Hov; auto.
  - rewrite (Ino eq_refl). cbn [opt_truth opt_ok]. split_and!; [done|done|eauto| |].
    + case_decide; [done|]. intros _ Ht%Tsa. apply Hov. right. split; [by destruct Hset|done].
    + intros [Hl Hs]%Hall. rewrite decide_False by (by rewrite Hs). destruct (Iex Hl) as [_ He]. split; [done|].
      intros [Ho|[_ ?%Tsa]]%Hov; [by apply He in Ho|done].
Qed.

Lemma add_scope_inv rn sn l s :
  settled perms s → role_inv rn l → scope_means sn (A s) (D s) (hasA s) (hasD s) → role_inv (add_scope (perms s) rn sn).1 (l ++ [s]).
Proof using HL Hhash Horder.
  intros Hset Hinv [(Sa & Sd & Sr) Ma Md Mha Mhd]. pose proof (add_allow_means rn (scopeAllowNode sn) l s Hset Hinv Sa Ma) as Hal.
  destruct Hinv as [(Oa & Od & Or & Oc) Iov Ide _ _ _ Iha Ihd].
  destruct (gate_ok (childOverrideAllow rn) (scopeDenyNode sn) Oc Sd) as (Gd & Td & Pd).
  destruct (gate_ok (childOverrideAllow rn) (scopeDenyRolePolicyNode sn) Oc Sr) as (Gr & Tr & Pr).
  unfold add_scope. destruct (add_allow (perms s) rn (scopeAllowNode sn)) as [allow pending]. destruct Hal as (Oal & Nal & Pal & Hs & He).
  set (gd := gateByChildOverrideAllow _ (scopeDenyNode sn)) in *. set (gr := gateByChildOverrideAllow _ (scopeDenyRolePolicyNode sn)) in *.
  destruct (addNode_or (roleDenyNode rn) gd Od Gd) as (Od' & Td' & Pd'), (addNode_or (roleDenyRolePolicyNode rn) gr Or Gr) as (Or' & Tr' & Pr').
  destruct (addNode_or (childOverrideAllow rn) (scopeAllowNode sn) Oc Sa) as (Oc' & Tc' & Pc').
  split; cbn [fst roleAllowNode roleDenyNode roleDenyRolePolicyNode pendingAllow childOverrideAllow].
  - split_and!; [done..|]. by case_bool_decide.
  - rewrite overriding_app, overriding_one, <-Iov, <-Ma. case_bool_decide as Ho; [rewrite Tc', orb_true_iff; tauto|tauto].
  - rewrite Td', Tr', Td, Tr, !orb_true_iff, !andb_true_iff, negb_true_iff, <-not_true_iff_false, ungated_snoc, <-Ide, <-Md, Iov. tauto.
  - done.
  - done.
  - done.
  - setoid_rewrite elem_of_app. intros [Hx|Hx]%Pal; [destruct (Iha Hx) as (t & ? & ?); eauto|].
    exists s. split; [right; by apply list_elem_of_singleton|auto].
  - setoid_rewrite elem_of_app. rewrite Pd', Pr', Pd, Pr. intros Hx.
    assert ((is_Some (roleDenyNode rn) ∨ is_Some (roleDenyRolePolicyNode rn)) ∨ is_Some (scopeDenyNode sn) ∨ is_Some (scopeDenyRolePolicyNode sn)) as [Hx'|Hx'] by tauto.
    + destruct (Ihd Hx') as (t & ? & ?). eauto.
    + exists s. split; [right; by apply list_elem_of_singleton|auto].
Qed.

(** ** What a role comes to *)

(** [p] tells that the role is permitted, [d] that some DENY applies, [o] that all
    scopes override their parents, [ha] and [hd] that there are ALLOWs and DENYs. *)
Record role_facts (rn : role_nodes) (p d o ha hd : Prop) : Prop := {
  rf_ok : ok (roleAllowNode rn) ∧ ok (roleDenyNode rn) ∧ ok (roleDenyRolePolicyNode rn);
  rf_sound : pendingAllow rn = false → tr (roleAllowNode rn) = true → tr (roleDenyNode rn) = false → tr (roleDenyRolePolicyNode rn) = false → p;
  rf_denied : tr (roleDenyNode rn) = true ∨ tr (roleDenyRolePolicyNode rn) = true → d ∧ ¬ p;
  rf_gated : d → tr (roleDenyNode rn) = false → tr (roleDenyRolePolicyNode rn) = false → p;
  rf_exact : o → p → pendingAllow rn = false ∧ tr (roleAllowNode rn) = true;
  rf_has_allow : is_Some (roleAllowNode rn) → ha;
  rf_has_deny : is_Some (roleDenyNode rn) → hd;
}.

Context (A_dec : ∀ s, A s ∨ ¬ A s).

Lemma role_facts_inv rn l l' :
  role_inv rn l → (∀ s, s ∈ l ++ l' → settled perms s) → l' = [] ∨ overriding perms A l →
  role_facts rn (permits_on perms (effect_of A D) false (l ++ l')) (∃ s, s ∈ l ++ l' ∧ D s)
    (∀ s, s ∈ l ++ l' → perms s = SCOPE_PERMISSIONS_OVERRIDE_PARENT) (∃ s, s ∈ l ++ l' ∧ hasA s) (∃ s, s ∈ l ++ l' ∧ hasD s).
Proof using A_dec.
  intros [(Oa & Od & Or & _) _ Ide Ial _ Iex Iha Ihd] Hset Hend.
  pose proof (permits_prefix perms A D A_dec l l' Hset Hend) as Hp.
  assert (∀ f : string → Prop, (∃ s, s ∈ l ∧ f s) → ∃ s, s ∈ l ++ l' ∧ f s) as Hsub.
  { intros f (s & Hs & Hf). exists s. split; [apply elem_of_app; by left|done]. }
  assert (tr (roleDenyNode rn) = false → tr (roleDenyRolePolicyNode rn) = false → ¬ ungated perms A D l) as Hnu.
  { intros H1' H2'. rewrite <-Ide. rewrite H1', H2'. by intros [?|?]. }
  split.
  - done.
  - intros Hpe Ht H1' H2'. apply Hp. auto.
  - intros Hd. apply Ide in Hd. split; [|by intros [_ ?]%Hp]. destruct Hd as (b & s & r & -> & HD & _). apply Hsub. exists s. split; [|done].
    apply elem_of_app. right. left.
  - intros (s & Hs & HD) H1' H2'. specialize (Hnu H1' H2'). apply Hp. split; [|done]. destruct (overriding_dec perms A A_dec l) as [?|Hno]; [done|].
    destruct Hend as [->|?]; [|done]. rewrite app_nil_r in Hs. apply list_elem_of_split in Hs as (b & r & ->). destruct Hnu. exists b, s, r.
    split_and!; [done..|]. intros Hb. apply Hno. apply overriding_app. by left.
  - intros Ho [Hov _]%Hp. destruct Iex as [? He]; [intros s Hs; apply Ho, elem_of_app; by left|]. auto.
  - intros Hx. by apply Hsub, Iha.
  - intros Hx. apply Hsub, Ihd. by left.
Qed.

(** ** Roles of a policy kind *)

Lemma tr_const_true o : ok o → IsNodeConstBool o = Some true → tr o = true.
Proof. intros Ho Hc. by destruct (opt_const env truth o true Ho Hc). Qed.

(** The resource policies, one role more: [P] tells that one of the roles before is permitted. *)
Record type_facts (tn : type_nodes) (P hd : Prop) : Prop := {
  tf_ok : ok (policyTypeAllowNode tn) ∧ ok (policyTypeDenyNode tn);
  tf_sound : tr (policyTypeAllowNode tn) = true → tr (policyTypeDenyNode tn) = false → P;
  tf_has_deny : is_Some (policyTypeDenyNode tn) → hd;
}.

Lemma role_allow_ok allow denyRP :
  ok allow → ok denyRP →
  let a := match denyRP, allow with Some d, Some a => MkAndNode [a; InvertNodeBooleanValue d] | _, _ => allow end in
  ok a ∧ tr a = tr allow && negb (tr denyRP) ∧ (is_Some a ↔ is_Some allow).
Proof using HL Hhash Horder.
  intros Oa Od. destruct denyRP as [d|], allow as [a|]; cbn zeta; cbn [opt_truth]; rewrite ?andb_true_r; [|done..].
  destruct (Invert_ok env truth d Od) as [Oi Ti]. destruct (MkAndNode_two env truth Hhash Horder a _ Oa Oi) as (m & -> & Om & Tm).
  cbn. rewrite Tm, Ti. split_and!; [done|done|]. split; eauto.
Qed.

Lemma add_role_resource tn rn P p d o ha hd hd' :
  type_facts tn P hd → role_facts rn p d o ha hd' →
  type_facts (add_role KIND_RESOURCE tn rn).1 (P ∨ p) (hd ∨ hd').
Proof using HL Hhash Horder Hconst.
  intros [(Ta & Td) Ts Th] [(Oa & Od & Or) Rs Rd _ _ _ Rhd]. unfold add_role.
  set (allow := if pendingAllow rn then None else roleAllowNode rn).
  assert (ok allow) as Oal by (unfold allow; by destruct (pendingAllow rn)).
  assert (tr allow = true → tr (roleDenyNode rn) = false → tr (roleDenyRolePolicyNode rn) = false → p) as Hsound
    by (unfold allow; destruct (pendingAllow rn); [done|auto]).
  rewrite (bool_decide_false (KIND_RESOURCE = KIND_PRINCIPAL)) by done. rewrite andb_true_r.
  destruct (bool_decide (IsNodeConstBool (roleDenyNode rn) = Some true) || bool_decide (IsNodeConstBool (roleDenyRolePolicyNode rn) = Some true)) eqn:Ec; cbn [negb andb].
  - destruct (addNode_or (policyTypeAllowNode tn) (Some MkFalseNode) Ta (const_ok env truth Hconst false)) as (Oa' & Ta' & _).
    split; cbn [fst policyTypeAllowNode policyTypeDenyNode]; change (addNode (policyTypeDenyNode tn) None MkOrNode) with (policyTypeDenyNode tn).
    + done.
    + rewrite Ta', orb_true_iff. cbn. unfold FalseExpr. rewrite Hconst. intros [?|?] ?; [left; auto|done].
    + auto.
  - destruct (bool_decide (roleDenyNode rn = None) && bool_decide (roleDenyRolePolicyNode rn = None) && bool_decide (IsNodeConstBool allow = Some true)) eqn:Es.
    { apply andb_true_iff in Es as [[E1%bool_decide_eq_true E2%bool_decide_eq_true]%andb_true_iff E3%bool_decide_eq_true].
      split; cbn [fst policyTypeAllowNode policyTypeDenyNode]; [done| |by intros [? ?]]. intros _ _. right. apply Hsound; [by apply tr_const_true|by rewrite E1|by rewrite E2]. }
    destruct (role_allow_ok allow (roleDenyRolePolicyNode rn) Oal Or) as (Om & Tm & _). set (a := match roleDenyRolePolicyNode rn with Some _ => _ | None => _ end) in *.
    destruct (addNode_or (policyTypeAllowNode tn) a Ta Om) as (Oa' & Ta' & _), (addNode_or (policyTypeDenyNode tn) (roleDenyNode rn) Td Od) as (Od' & Td' & Pd').
    split; cbn [fst policyTypeAllowNode policyTypeDenyNode]; [done| |].
    + rewrite Ta', Td', Tm, orb_true_iff, andb_true_iff, negb_true_iff, orb_false_iff. intros [?|[? ?]] [? ?]; [left; auto|right; auto].
    + rewrite Pd'. intros [?|?]; auto.
Qed.

(** The only role: the nodes say whether it is permitted. *)
Lemma add_role_exact pt rn p d o ha hd :
  role_facts rn p d o ha hd → o → p →
  tr (policyTypeAllowNode (add_role pt (MkTypeNodes None None) rn).1) = true ∧ tr (policyTypeDenyNode (add_role pt (MkTypeNodes None None) rn).1) = false.
Proof using HL Hhash Horder.
  intros [(Oa & Od & Or) _ Rd _ Re _ _] Ho Hp. destruct (Re Ho Hp) as [Hpe Ha].
  assert (tr (roleDenyNode rn) = false) as Hd by (apply not_true_is_false; intros E; by destruct Rd as [_ ?]; [left|]).
  assert (tr (roleDenyRolePolicyNode rn) = false) as Hr by (apply not_true_is_false; intros E; by destruct Rd as [_ ?]; [right|]).
  unfold add_role. rewrite Hpe.
  rewrite (bool_decide_false (IsNodeConstBool (roleDenyNode rn) = Some true)) by (intros E%tr_const_true; [congruence|done]).
  rewrite (bool_decide_false (IsNodeConstBool (roleDenyRolePolicyNode rn) = Some true)) by (intros E%tr_const_true; [congruence|done]).
  cbn [orb andb negb].
  destruct (bool_decide (roleDenyNode rn = None) && bool_decide (roleDenyRolePolicyNode rn = None) && bool_decide (IsNodeConstBool (roleAllowNode rn) = Some true)); [done|].
  destruct (role_allow_ok (roleAllowNode rn) (roleDenyRolePolicyNode rn) Oa Or) as (Om & Tm & _). set (a := match roleDenyRolePolicyNode rn with Some _ => _ | None => _ end) in *.
  cbn [fst policyTypeAllowNode policyTypeDenyNode]. destruct (addNode_or None a I Om) as (_ & -> & _), (addNode_or None (roleDenyNode rn) I Od) as (_ & -> & _).
  cbn. rewrite Tm, Ha, Hr, Hd. done.
Qed.

(** The principal policies, which the first role stands for and which have no role policies. *)
Record principal_facts (tn : type_nodes) (p d ha : Prop) : Prop := {
  pf_ok : ok (policyTypeAllowNode tn) ∧ ok (policyTypeDenyNode tn);
  pf_sound : tr (policyTypeAllowNode tn) = true → tr (policyTypeDenyNode tn) = false → p;
  pf_denied : tr (policyTypeDenyNode tn) = true → d;
  pf_gated : d → tr (policyTypeDenyNode tn) = false → p;
  pf_has_allow : is_Some (policyTypeAllowNode tn) → ha;
}.

Lemma add_role_principal rn p d o ha hd :
  role_facts rn p d o ha hd → roleDenyRolePolicyNode rn = None →
  principal_facts (add_role KIND_PRINCIPAL (MkTypeNodes None None) rn).1 p d ha.
Proof using HL Hhash Horder.
  intros [(Oa & Od & _) Rs Rd Rg _ Rha _] Hrp. rewrite Hrp in Rs, Rd, Rg. unfold add_role. rewrite Hrp, (bool_decide_true (KIND_PRINCIPAL = KIND_PRINCIPAL)), andb_false_r by done.
  set (allow := if pendingAllow rn then None else roleAllowNode rn).
  assert (ok allow) as Oal by (unfold allow; by destruct (pendingAllow rn)).
  assert (is_Some allow → ha) as Hha by (unfold allow; destruct (pendingAllow rn); [by intros [? ?]|done]).
  assert (tr allow = true → tr (roleDenyNode rn) = false → p) as Hsound by (unfold allow; destruct (pendingAllow rn); [done|intros; by apply Rs]).
  destruct (negb _ && _ && _ && bool_decide (IsNodeConstBool allow = Some true)) eqn:Es.
  - apply andb_true_iff in Es as [[[_ E1%bool_decide_eq_true]%andb_true_iff _]%andb_true_iff E3%bool_decide_eq_true].
    assert p as Hp by (apply Hsound; [by apply tr_const_true|by rewrite E1]). split; cbn; [done|done|done|done|done].
  - destruct (addNode_or None allow I Oal) as (Oa' & Ta' & Pa'), (addNode_or None (roleDenyNode rn) I Od) as (Od' & Td' & _).
    split; cbn [fst policyTypeAllowNode policyTypeDenyNode]; rewrite ?Ta', ?Td', ?Pa'; cbn [opt_truth orb].
    + done.
    + auto.
    + intros Hd. apply Rd. by left.
    + intros Hd Hn. by apply Rg.
    + intros [[? ?]|?]; [done|auto].
Qed.

Lemma principal_facts_none : principal_facts (MkTypeNodes None None) False False False.
Proof. split; cbn; [done..|by intros [? ?]]. Qed.
Lemma type_facts_none : type_facts (MkTypeNodes None None) False False.
Proof. split; cbn; [done..|by intros [? ?]]. Qed.

(** ** The two policy kinds *)

Lemma add_type_ok has root tn :
  ok root → ok (policyTypeAllowNode tn) → ok (policyTypeDenyNode tn) →
  ok (add_type has root tn).2 ∧
  (add_type has root tn).1 = (has || bool_decide (is_Some (policyTypeAllowNode tn))) ∧
  (is_Some (add_type has root tn).2 ↔ is_Some root ∨ is_Some (policyTypeAllowNode tn) ∨ is_Some (policyTypeDenyNode tn)) ∧
  (is_Some root ∨ is_Some (policyTypeAllowNode tn) →
    tr (add_type has root tn).2 = (tr (policyTypeAllowNode tn) || tr root) && negb (tr (policyTypeDenyNode tn))) ∧
  (root = None → policyTypeAllowNode tn = None → is_Some (policyTypeDenyNode tn) → tr (add_type has root tn).2 = negb (tr (policyTypeDenyNode tn))).
Proof using HL Hhash Horder.
  intros Or Oa Od. unfold add_type.
  assert (∃ root', match policyTypeAllowNode tn, root with None, _ => root | Some a, None => Some a | Some a, Some r => MkOrNode [a; r] end = root' ∧
    ok root' ∧ tr root' = tr (policyTypeAllowNode tn) || tr root ∧ (is_Some root' ↔ is_Some root ∨ is_Some (policyTypeAllowNode tn))) as (root' & -> & Or' & Tr' & Pr').
  { destruct (policyTypeAllowNode tn) as [a|], root as [r|]; eexists; (split; [done|]).
    - destruct (MkOrNode_two env truth Hhash Horder a r Oa Or) as (m & -> & Om & Tm). split_and!; [done|done|]. split; eauto.
    - split_and!; [done|cbn; by rewrite orb_false_r|]. split; eauto.
    - split_and!; [done|done|]. split; eauto.
    - split_and!; [done|done|]. split; [by left|by intros [?|?]]. }
  cbn [fst snd]. split_and!.
  - destruct (policyTypeDenyNode tn) as [d|]; [|done]. destruct (Invert_ok env truth d Od) as [Oi _]. destruct root' as [r|]; [|done].
    by destruct (MkAndNode_two env truth Hhash Horder _ r Oi Or') as (m & -> & Om & _).
  - destruct (policyTypeAllowNode tn); [rewrite bool_decide_true by eauto|rewrite bool_decide_false by (by intros [? ?])]; by destruct has.
  - destruct (policyTypeDenyNode tn) as [d|]; [|rewrite Pr'; split; [tauto|intros [?|[?|[? ?]]]; [tauto..|done]]].
    destruct (Invert_ok env truth d Od) as [Oi _]. split; [eauto|intros _]. destruct root' as [r|]; [|eauto].
    destruct (MkAndNode_two env truth Hhash Horder _ r Oi Or') as (m & -> & _). eauto.
  - intros Hs%Pr'. destruct root' as [r|]; [|by destruct Hs]. destruct (policyTypeDenyNode tn) as [d|]; [|by rewrite Tr', andb_true_r].
    destruct (Invert_ok env truth d Od) as [Oi Ti]. destruct (MkAndNode_two env truth Hhash Horder _ r Oi Or') as (m & -> & _ & Tm).
    cbn in Tr' |- *. by rewrite Tm, Ti, Tr', andb_comm.
  - intros -> Ha [d Hd]. rewrite Ha in Pr'. rewrite Hd in Od |- *. destruct root' as [r|]; [destruct (proj1 Pr') as [[? ?]|[? ?]]; [eauto|done..]|].
    by destruct (Invert_ok env truth d Od).
Qed.

(** Both kinds: resource policies, then principal policies. *)
Definition both (tnR tnP : type_nodes) : bool * option QpN :=
  add_type (add_type false None tnR).1 (add_type false None tnR).2 tnP.

Lemma both_sound tnR tnP PR hdR PP dP haP :
  type_facts tnR PR hdR → principal_facts tnP PP dP haP → dP ∨ ¬ dP → ¬ haP ∨ ¬ hdR →
  ok (both tnR tnP).2 ∧ ((both tnR tnP).1 = true → is_Some (both tnR tnP).2 ∧ (tr (both tnR tnP).2 = true → PP ∨ ¬ dP ∧ PR)).
Proof using HL Hhash Horder.
  intros [(Ra & Rd) Rs Rh] [(Pa & Pd) Ps Pde Pg Ph] Hdec Hex. unfold both.
  destruct (add_type_ok false None tnR I Ra Rd) as (O1 & H1' & S1 & T1 & N1). destruct (add_type false None tnR) as [has root]. cbn [fst snd orb opt_truth] in *.
  destruct (add_type_ok has root tnP O1 Pa Pd) as (O2 & H2' & S2 & T2 & _). split; [done|]. intros Hhas. rewrite H2', H1', orb_true_iff, !bool_decide_eq_true in Hhas.
  assert (is_Some root ∨ is_Some (policyTypeAllowNode tnP)) as Hsome by (destruct Hhas as [?|?]; [left; apply S1|right]; auto).
  split; [apply S2; tauto|]. rewrite (T2 Hsome), andb_true_iff, negb_true_iff, orb_true_iff. intros [Ht Hd].
  destruct Hdec as [Hdp|Hdp]; [left; by apply Pg|]. destruct Ht as [Ht|Ht]; [left; auto|right]. split; [done|].
  destruct (decide (is_Some (policyTypeAllowNode tnR))) as [HR|HR].
  - rewrite T1, orb_false_r, andb_true_iff, negb_true_iff in Ht by auto. apply Rs; tauto.
  - exfalso. destruct root as [r|]; [|done]. destruct (proj1 S1) as [[? ?]|[?|HD]]; [eauto|done|done|].
    destruct Hex as [Hex|Hex]; [|by apply Hex, Rh]. apply Hex, Ph. by destruct Hhas.
Qed.

Lemma both_exact tnR tnP PR hdR PP dP haP :
  type_facts tnR PR hdR → principal_facts tnP PP dP haP →
  (PR → tr (policyTypeAllowNode tnR) = true ∧ tr (policyTypeDenyNode tnR) = false) →
  (PP → tr (policyTypeAllowNode tnP) = true ∧ tr (policyTypeDenyNode tnP) = false) →
  PP ∨ ¬ dP ∧ PR → (both tnR tnP).1 = true ∧ tr (both tnR tnP).2 = true.
Proof using HL Hhash Horder.
  intros [(Ra & Rd) _ _] [(Pa & Pd) _ Pde _ _] HR HP Hp. unfold both.
  destruct (add_type_ok false None tnR I Ra Rd) as (O1 & H1' & S1 & T1 & _). destruct (add_type false None tnR) as [has root]. cbn [fst snd orb opt_truth] in *.
  destruct (add_type_ok has root tnP O1 Pa Pd) as (_ & H2' & _ & T2 & _).
  assert (∀ o, tr o = true → is_Some o) as Hs by (intros [n|]; [eauto|done]).
  destruct Hp as [[Ha Hd]%HP|[Hdp [Ha Hd]%HR]].
  - split; [rewrite H2', orb_true_iff, bool_decide_eq_true; auto|]. rewrite T2, Ha, Hd by auto. done.
  - split; [rewrite H2', H1', orb_true_iff, bool_decide_eq_true; auto|]. rewrite T2 by (left; apply S1; auto). rewrite T1, Ha, Hd by auto. cbn. rewrite orb_true_r. cbn.
    apply negb_true_iff, not_true_is_false. by intros ?%Pde.
Qed.
End combine.
