(* ===== verification/PlanSpec.v ===== *)
(** Plans follow the rules that a check would consult: the loops of
    [planWithAuditTrail] return, and the node of an action is true of a resource
    exactly as far as [PlanCombine] says in terms of the bindings that apply. *)
From S2P Require Import Prelude GoRuntime Bitmap Arena LazyDim Dimension GlobDim Namer Policy ScopePerms IndexCore IndexQuery IndexQuerySpec IndexLookup Index IndexSpec RuleTableBuild RuleTable Eval Check CheckSpec Reference TableSpec Decision PlanExpr PlanFilter PlanSem PlanNode PlanNodeSpec Plan PlanCombine.

Local Open Scope string_scope.
Local Open Scope list_scope.
Open Scope nat_scope.

(** What is fixed while planning a request. *)
Definition planned `{GlobEngine} `{CelCompiler} `{GoMapOrder} (rt : RuleTable) (ep : EvalParams) (input : PlanInput) : PFixed :=
  let principal := pi_Principal input in
  let resourceScope := Scope (pi_Scope input) ep in
  let resourceVersion := PolicyVersion (pi_PolicyVersion input) ep in
  MkPFixed input ep (PlanResourcesInputToRequest input) resourceVersion (NewResourceKind (pi_Kind input)) resourceScope
    (GetAllScopes rt KIND_PRINCIPAL (Scope (pr_Scope principal) ep) (pr_Id principal) (PolicyVersion (pr_PolicyVersion principal) ep) (LenientScopeSearch ep)).1.1
    (GetAllScopes rt KIND_RESOURCE resourceScope (pi_Kind input) resourceVersion (LenientScopeSearch ep)).1.1
    (list_to_set (AddParentRoles (rt_idx rt) [resourceScope] (pr_Roles principal))).

(** A check of the request for one resource. *)
Record completes (plan : PlanInput) (input : CheckInput) : Prop := {
  cm_principal : ci_Principal input = pi_Principal plan;
  cm_kind : rs_Kind (ci_Resource input) = pi_Kind plan;
  cm_version : rs_PolicyVersion (ci_Resource input) = pi_PolicyVersion plan;
  cm_scope : rs_Scope (ci_Resource input) = pi_Scope plan;
  cm_actions : ci_Actions input = pi_Actions plan;
}.

Section spec.
Context `{GlobEngine} `{CelRuntime} `{GoMapOrder} `{ContentHash} `{StringHash} `{DerivedRoleHash} `{SchemaManager}.
Context `{ProtoText} `{OperandText} `{NodeHash} `{CelPartial} `{PlanSchemaManager} `{FilterSem} `{HL : !FilterLaws}.
Context (env : string → option fval) (truth : PExpr → bool).
Context (Hhash : hash_exact) (Horder : order_irrelevant env truth) (Hconst : ∀ b, truth (E_Const (K_bool b)) = b).
Context (rt : RuleTable) (ep : EvalParams) (plan : PlanInput) (input : CheckInput) (verdict : BindingHandle → option bool).
Context (Hcomp : completes plan input) (Hbi : bi_ok (bi (rt_idx rt))).
Local Abbreviation idx := (bi (rt_idx rt)).
Local Abbreviation px := (planned rt ep plan).
Local Abbreviation fx := (fixed rt ep input).
Local Abbreviation strict := (StrictEvaluation ep).
Local Abbreviation means := (means env truth).
Local Abbreviation consulted := (consulted rt idx fx).

(** * What is assumed of partial evaluation *)

(** The variables substituted into conditions. *)
Definition vars_plan (vs : list Variable_) (vars : gmap string PExpr) : Prop :=
  ∀ s, cache_ok s.1 → eruns (VariableExprs vs) s (λ x, x = vars).

(** Every expression of the condition is planned faithfully, and then the condition has value [v]. *)
Definition cond_faithful (constants : gmap string Value) (vars : gmap string PExpr) (drl : PR PExpr) (c : option Condition) (v : bool) : Prop :=
  ∃ val, (∀ d, c = Some d → (∀ e, e ∈ cond_exprs d → expr_plans env truth strict (known px constants) vars drl val e) ∧ well_formed d = true) ∧
    v = match c with Some d => Eval.truth val d | None => true end.

Definition params_plan (p : option RowParams) (constants : gmap string Value) (vars : gmap string PExpr) : Prop :=
  match p with
  | None => constants = ∅ ∧ vars = ∅
  | Some p => constants = rp_Constants p ∧ vars_plan (rp_Variables p) vars
  end.

(** The conditions of a binding are planned faithfully, with value [v]. *)
Definition binding_faithful (drl : PR PExpr) (core : FunctionalCore) (v : bool) : Prop :=
  ∃ constants vars v1, params_plan (co_Params core) constants vars ∧ cond_faithful constants vars drl (co_Condition core) v1 ∧
    match co_DerivedRoleCondition core with
    | None => v = v1
    | Some c => ∃ p vars' v2, co_DerivedRoleParams core = Some p ∧ vars_plan (rp_Variables p) vars' ∧
        cond_faithful (rp_Constants p) vars' drl (Some c) v2 ∧ v = v1 && v2
    end.

(** The derived roles of a scope that the principal may have, with the nodes of their conditions. *)
Definition candidate_role (c : string * WrappedRunnableDerivedRole) : Prop :=
  SetIntersects (dr_ParentRoles (w_role c.2)) (px_includingParentRoles px) = true.
#[local] Instance candidate_role_dec c : Decision (candidate_role c).
Proof. unfold candidate_role. apply _. Defined.
Definition candidates (scope : string) : list (string * WrappedRunnableDerivedRole) :=
  filter candidate_role (go_range (GetDerivedRoles rt (ResourcePolicyFQN (pi_Kind plan) (px_resourceVersion px) scope))).
Definition role_faithful (w : WrappedRunnableDerivedRole) (v : bool) : Prop :=
  ∃ vars, vars_plan (dr_OrderedVariables (w_role w)) vars ∧ cond_faithful (w_Constants w) vars (MkDerivedRolesList []) (dr_Condition (w_role w)) v.
Definition list_for (pt : Kind) (scope : string) (drl : PR PExpr) : Prop :=
  if decide (pt = KIND_RESOURCE)
  then ∃ roles, Forall2 (λ c r, c.1 = r.1 ∧ ∃ v, role_faithful c.2 v ∧ means r.2 v) (candidates scope) roles ∧
         drl = MkDerivedRolesList (merge_sort role_le roles)
  else drl = MkDerivedRolesList [].

Record faithful : Prop := {
  fa_roles : ∀ scope c, scope ∈ px_resourceScopes px → c ∈ candidates scope → ∃ v, role_faithful c.2 v;
  fa_bindings : ∀ pt action role scope b drl, asked fx pt action role scope → b ∈ consulted pt action role scope → list_for pt scope drl →
    binding_faithful drl (bh_Core b) (bool_decide (verdict b = Some true));
}.

(** * Running plans *)

Record pst_ok (k : pst) : Prop := {
  ko_idx : bi_rel idx (ps_idx k);
  ko_pool : ∀ bm, bm ∈ ps_pool k → cleared bm;
  ko_cache : cache_ok (ps_ev k).1;
  ko_lists : ∀ s l, scopedDerivedRolesList k !! s = Some l → list_for KIND_RESOURCE s l;
}.

Definition pruns {A} (m : PM A) (k : pst) (P : A → Prop) : Prop := ∃ x k', m k = Some (inl x, k') ∧ pst_ok k' ∧ P x.

Lemma p_ret {A} (x : A) k (P : A → Prop) : pst_ok k → P x → pruns (mret x) k P.
Proof. intros Hk Hx. by exists x, k. Qed.
Lemma p_bind {A B} (m : PM A) (f : A → PM B) k (P : A → Prop) (Q : B → Prop) :
  pruns m k P → (∀ x k, pst_ok k → P x → pruns (f x) k Q) → pruns (m ≫= f) k Q.
Proof.
  intros (x & k' & E & Hk & Hx) Hf. destruct (Hf x k' Hk Hx) as (y & k2 & E2 & Hk2 & Hy). exists y, k2. split; [|done].
  unfold mbind, PM_bind. rewrite E. done.
Qed.
Lemma p_mono {A} (m : PM A) k (P Q : A → Prop) : pruns m k P → (∀ x, P x → Q x) → pruns m k Q.
Proof. intros (x & k' & ? & ? & ?) Hx. exists x, k'. auto. Qed.
Lemma p_look {A} (f : pst → A) k (P : A → Prop) : pst_ok k → P (f k) → pruns (plook f) k P.
Proof. intros Hk Hx. by exists (f k), k. Qed.
Lemma p_modify f k (P : unit → Prop) : pst_ok (f k) → P () → pruns (pmodify f) k P.
Proof. intros Hk Hx. by exists (), (f k). Qed.
Lemma p_lift {A} (m : EM A) k (P : A → Prop) : pst_ok k → eruns m (ps_ev k) P → pruns (lift_em m) k P.
Proof.
  intros Hk (x & e & E & He & Hx). unfold pruns, lift_em. rewrite E. eexists _, _. split; [done|]. split; [|done]. by destruct Hk.
Qed.
Lemma p_catch {A} (m : PM A) k (P : A → Prop) : pruns m k P → pruns (catch_strict m) k (λ r, ∃ x, r = inl x ∧ P x).
Proof. intros (x & k' & E & Hk & Hx). unfold pruns, catch_strict. rewrite E. eexists _, _. split; [done|]. eauto. Qed.

Lemma p_condition constants vars drl c v k :
  cond_faithful constants vars drl c v → pst_ok k → pruns (plan_condition px constants vars drl c) k (λ n, means n v).
Proof using HL Hconst.
  intros (val & Hc & ->) Hk. apply p_lift; [done|]. apply (EvaluateCondition_means env truth Hconst); [done|apply Hk].
Qed.

(** ** Bindings *)

Lemma binding_node_runs drl core v k :
  binding_faithful drl core v → pst_ok k → pruns (binding_node px drl core) k (λ r, ∃ n, r = inl n ∧ means n v).
Proof using HL Hconst.
  intros (constants & vars & v1 & Hp & Hc & Hv) Hk. unfold binding_node.
  eapply (p_bind _ _ _ (λ x, x = (constants, vars))).
  { destruct (co_Params core) as [p|]; [destruct Hp as [-> Hp]|destruct Hp as [-> ->]; by apply p_ret].
    eapply p_bind; [apply p_lift; [done|apply Hp, Hk]|]. intros ? k1 Hk1 ->. by apply p_ret. }
  intros ? k1 Hk1 ->. eapply p_bind; [apply p_catch, p_condition; [exact Hc|done]|]. intros ? k2 Hk2 (n & -> & Hn).
  destruct (co_DerivedRoleCondition core) as [c|]; [|subst; apply p_ret; eauto].
  destruct Hv as (p & vars' & v2 & Ep & Hvp & Hc2 & ->). rewrite Ep.
  eapply p_bind; [apply p_lift; [done|apply Hvp, Hk2]|]. intros ? k3 Hk3 ->.
  eapply (p_bind _ _ _ (λ x, x = p)); [by exists p, k3|]. intros ? k4 Hk4 ->.
  eapply p_bind; [apply p_catch, p_condition; [exact Hc2|done]|]. intros ? k5 Hk5 (n2 & -> & Hn2). apply p_ret; [done|]. eexists. split; [done|].
  destruct (co_Condition core) as [c1|].
  - destruct Hn as [On Tn], Hn2 as [On2 Tn2]. split; [by apply node_ok_two; [left|..]|]. cbn. by rewrite Tn, Tn2, andb_true_r.
  - destruct Hc as (val & _ & ->). by cbn.
Qed.

(** ** Derived roles *)

Context (Hfa : faithful).

Lemma plan_derived_role_runs roles0 c v k :
  role_faithful c.2 v → candidate_role c → pst_ok k →
  pruns (plan_derived_role px (roles0, None) c) k (λ r, ∃ n, means n v ∧ r = (roles0 ++ [(c.1, n)], None)).
Proof using HL Hconst.
  destruct c as [name w]. intros (vars & Hvp & Hcf) Hc Hk. cbn [fst snd] in *. unfold plan_derived_role, candidate_role in *. cbn [snd] in Hc. rewrite Hc. cbn [negb].
  eapply p_bind; [apply p_lift; [done|apply Hvp, Hk]|]. intros ? k1 Hk1 ->.
  eapply p_bind; [apply p_catch, p_condition; [exact Hcf|done]|]. intros ? k2 Hk2 (n & -> & Hn). apply p_ret; [done|]. cbn. eauto.
Qed.

Lemma plan_derived_roles_runs l roles0 k :
  (∀ c, c ∈ filter candidate_role l → ∃ v, role_faithful c.2 v) → pst_ok k →
  pruns (foldPM (plan_derived_role px) (roles0, None) l) k (λ r, ∃ roles, r = (roles0 ++ roles, None) ∧
    Forall2 (λ c r, c.1 = r.1 ∧ ∃ v, role_faithful c.2 v ∧ means r.2 v) (filter candidate_role l) roles).
Proof using HL Hconst.
  revert roles0 k. induction l as [|c l IH]; intros roles0 k Hc Hk; cbn [foldPM].
  { apply p_ret; [done|]. exists []. split; [by rewrite app_nil_r|constructor]. }
  destruct (decide (candidate_role c)) as [Hi|Hi].
  - rewrite filter_cons_True in Hc |- * by done. destruct (Hc c) as (v & Hv); [left|].
    eapply p_bind; [by apply plan_derived_role_runs|]. intros ? k3 Hk3 (n & Hn & ->). eapply p_mono; [apply IH; [intros x Hin; apply Hc; by right|done]|].
    intros ? (roles & -> & Hf). exists ((c.1, n) :: roles). split; [by rewrite <-app_assoc|]. constructor; [|done]. split; [done|]. eauto.
  - rewrite filter_cons_False in Hc |- * by done. eapply (p_bind _ _ _ (λ r, r = (roles0, None))).
    + destruct c as [name w]. unfold plan_derived_role, candidate_role in *. cbn [snd] in Hi. apply not_true_is_false in Hi. rewrite Hi. by apply p_ret.
    + intros ? k1 Hk1 ->. by apply IH.
Qed.

(** The plan looks where the check does. *)
Lemma px_scopes pt : scopes_of fx pt = if decide (pt = KIND_PRINCIPAL) then px_principalScopes px else px_resourceScopes px.
Proof using Hcomp.
  destruct Hcomp as [E1 E2 E3 E4 E5]. unfold scopes_of, fixed, fixed_of, planned. rewrite E1, E2, E3, E4. case_decide; repeat case_match; done.
Qed.

Lemma scope_list_runs pt scope k :
  scope ∈ scopes_of fx pt → pst_ok k →
  pruns (if decide (pt = KIND_RESOURCE) then scope_derived_roles_list rt px scope else mret (MkDerivedRolesList [])) k (list_for pt scope).
Proof using HL Hconst Hfa Hcomp.
  intros Hs Hk. unfold list_for. destruct (decide (pt = KIND_RESOURCE)) as [->|Er]; [|by apply p_ret]. rewrite px_scopes, decide_False in Hs by done.
  unfold scope_derived_roles_list. eapply (p_bind _ _ _ (λ c, match c with Some l => list_for KIND_RESOURCE scope l | None => True end)).
  { apply p_look; [done|]. destruct (scopedDerivedRolesList k !! scope) eqn:E; [|done]. by eapply ko_lists. }
  intros [l|] k1 Hk1 Hl; [unfold list_for in Hl; rewrite decide_True in Hl by done; by apply p_ret|].
  eapply p_bind; [apply (plan_derived_roles_runs _ [])|].
  - intros c Hc. by eapply (fa_roles Hfa scope).
  - done.
  - intros ? k2 Hk2 (roles & -> & Hf). cbn [app].
    assert (list_for KIND_RESOURCE scope (MkDerivedRolesList (merge_sort role_le roles))) as Hl'.
    { unfold list_for. rewrite decide_True by done. eauto. }
    eapply (p_bind _ _ _ (λ _, True)).
    + apply p_modify; [|done]. destruct Hk2. split; [done..|]. cbn. intros s l [[<- <-]|[_ ?]]%lookup_insert_Some; [done|auto].
    + intros _ k3 Hk3 _. apply p_ret; [done|]. unfold list_for in Hl'. by rewrite decide_True in Hl'.
Qed.

(** ** Bindings of a scope *)

Definition exists_in (e : Effect) (bs : list BindingHandle) : Prop := ∃ b, b ∈ bs ∧ co_Effect (bh_Core b) = e.

Lemma found_snoc e bs b : found verdict e (bs ++ [b]) ↔ found verdict e bs ∨ co_Effect (bh_Core b) = e ∧ verdict b = Some true.
Proof. unfold found. setoid_rewrite elem_of_app. setoid_rewrite list_elem_of_singleton. naive_solver. Qed.
Lemma exists_snoc e bs b : exists_in e (bs ++ [b]) ↔ exists_in e bs ∨ co_Effect (bh_Core b) = e.
Proof. unfold exists_in. setoid_rewrite elem_of_app. setoid_rewrite list_elem_of_singleton. naive_solver. Qed.

Local Abbreviation scope_means := (scope_means env truth).

Lemma plan_bindings_runs drl seen bs sn k :
  (∀ b, b ∈ bs → binding_faithful drl (bh_Core b) (bool_decide (verdict b = Some true))) → pst_ok k →
  scope_means sn (found verdict EFFECT_ALLOW seen) (found verdict EFFECT_DENY seen) (exists_in EFFECT_ALLOW seen) (exists_in EFFECT_DENY seen) →
  pruns (plan_bindings rt px drl bs sn) k (λ r, ∃ sn', r = inl sn' ∧
    scope_means sn' (found verdict EFFECT_ALLOW (seen ++ bs)) (found verdict EFFECT_DENY (seen ++ bs)) (exists_in EFFECT_ALLOW (seen ++ bs)) (exists_in EFFECT_DENY (seen ++ bs))
    ∧ ((∀ b, b ∈ bs → co_FromRolePolicy (bh_Core b) = false) → scopeDenyRolePolicyNode sn' = scopeDenyRolePolicyNode sn)).
Proof using HL Hconst Hhash Horder.
  revert seen sn k. induction bs as [|b bs IH]; intros seen sn k Hb Hk Hm; cbn [plan_bindings].
  { apply p_ret; [done|]. rewrite app_nil_r. eauto. }
  eapply (p_bind _ _ _ (λ _, True)).
  { destruct (GetMeta rt _); [|by apply p_ret]. apply p_modify; [|done]. by destruct Hk. }
  intros _ k1 Hk1 _. eapply p_bind; [apply binding_node_runs; [apply Hb; left|done]|]. intros ? k2 Hk2 (n & -> & On & Tn).
  eapply p_mono; [apply (IH (seen ++ [b])); [intros x Hx; apply Hb; by right|done|]|].
  - eapply scope_means_iff; [..|by apply (add_binding_means env truth Hhash Horder)].
    + by rewrite found_snoc, Tn, bool_decide_eq_true.
    + by rewrite found_snoc, Tn, bool_decide_eq_true.
    + by rewrite exists_snoc.
    + by rewrite exists_snoc.
  - intros r (sn' & -> & Hm' & Hrp). exists sn'. rewrite <-app_assoc in Hm'. split_and!; [done..|]. intros Hf.
    rewrite Hrp by (intros x Hx; apply Hf; by right). unfold add_binding. rewrite (Hf b) by left. by repeat case_match.
Qed.

(** ** Scopes of a role *)

Local Abbreviation perms := (GetScopeScopePermissions rt).
Definition has_rule (e : Effect) (pt : Kind) (action role scope : string) : Prop := exists_in e (consulted pt action role scope).
Definition plan_role_inv (pt : Kind) (action role : string) : role_nodes → list string → Prop :=
  role_inv env truth perms (applies rt idx fx verdict EFFECT_ALLOW pt action role) (applies rt idx fx verdict EFFECT_DENY pt action role)
    (has_rule EFFECT_ALLOW pt action role) (has_rule EFFECT_DENY pt action role).
Definition no_role_policies (pt : Kind) (action role : string) : Prop :=
  ∀ s b, s ∈ scopes_of fx pt → b ∈ consulted pt action role s → co_FromRolePolicy (bh_Core b) = false.

Lemma px_query pt action role scope :
  consulted pt action role scope =
    Query_spec idx (px_resourceVersion px) (px_resourceKind px) scope action (AddParentRoles (rt_idx rt) [px_resourceScope px] [role]) pt
      (if decide (pt = KIND_PRINCIPAL) then pr_Id (pi_Principal plan) else "") [].
Proof using Hcomp. destruct Hcomp as [E1 E2 E3 E4 E5]. rewrite <-E1. unfold planned. cbn [px_resourceVersion px_resourceKind px_resourceScope]. by rewrite <-E2, <-E3, <-E4. Qed.

Lemma pquery_runs pt action role scope k :
  pst_ok k →
  pruns (pquery (λ i pool, Query i pool (px_resourceVersion px) (px_resourceKind px) scope action (AddParentRoles (rt_idx rt) [px_resourceScope px] [role]) pt
    (if decide (pt = KIND_PRINCIPAL) then pr_Id (pi_Principal plan) else "") [])) k (λ bs, bs = consulted pt action role scope).
Proof using Hcomp Hbi.
  intros Hk. rewrite px_query. set (pid := if decide _ then _ else _). unfold pruns, pquery.
  destruct (with_arena_runs_rel idx (ps_idx k) (Query_state (px_resourceVersion px) (px_resourceKind px) scope action
      (AddParentRoles (rt_idx rt) [px_resourceScope px] [role]) pt pid []) (ps_pool k)
      (λ l, l = Query_spec idx (px_resourceVersion px) (px_resourceKind px) scope action (AddParentRoles (rt_idx rt) [px_resourceScope px] [role]) pt pid []))
    as ([[l i] pool] & E & Hl & Hi & Hp).
  - apply Hk.
  - apply Hk.
  - intros s Hs. by apply Query_state_runs.
  - unfold Query. rewrite E. eexists _, _. split; [done|]. split; [|done]. by destruct Hk.
Qed.

Lemma plan_scopes_runs pt action role l scopes rn k :
  (∀ s, s ∈ scopes → asked fx pt action role s) → (∀ s, s ∈ scopes → settled perms s) → pst_ok k → plan_role_inv pt action role rn l →
  pruns (plan_scopes rt px pt action (AddParentRoles (rt_idx rt) [px_resourceScope px] [role]) scopes rn) k (λ r,
    ∃ rn' l1 l2, r = inl rn' ∧ scopes = l1 ++ l2 ∧ (l2 = [] ∨ overriding perms (applies rt idx fx verdict EFFECT_ALLOW pt action role) (l ++ l1)) ∧
      plan_role_inv pt action role rn' (l ++ l1) ∧
      (no_role_policies pt action role → roleDenyRolePolicyNode rn = None → roleDenyRolePolicyNode rn' = None)).
Proof using HL Hconst Hhash Horder Hfa Hcomp Hbi.
  revert l rn k. induction scopes as [|s scopes IH]; intros l rn k Hask Hset Hk Hinv; cbn [plan_scopes].
  { apply p_ret; [done|]. exists rn, [], []. rewrite (app_nil_r l). split_and!; auto. }
  case_decide as Ec.
  { apply p_ret; [done|]. exists rn, [], (s :: scopes). rewrite (app_nil_r l). split_and!; [done|done| |done|done]. right.
    apply (ri_override _ _ _ _ _ _ _ _ _ Hinv). apply (tr_const_true env truth); [apply Hinv|done]. }
  pose proof (Hask s ltac:(left)) as Ha. pose proof Ha as (Hpt & _ & _ & Hs).
  eapply p_bind; [by apply scope_list_runs|]. intros drl k1 Hk1 Hdrl.
  eapply p_bind; [by apply pquery_runs|]. intros ? k2 Hk2 ->.
  eapply p_bind; [apply (plan_bindings_runs drl []); [|done|apply scope_means_iff with False False False False; [..|apply scope_means_nil]]|].
  { intros b Hb. by eapply (fa_bindings Hfa). }
  1-2: split; [done|by intros (b & ?%elem_of_nil & _)].
  1-2: done.
  intros ? k3 Hk3 (sn & -> & Hm & Hrp). cbn [app] in Hm.
  pose proof (add_scope_inv env truth Hhash Horder perms _ _ _ _ rn sn l s (Hset s ltac:(left)) Hinv Hm) as Hinv'.
  destruct (add_scope (perms s) rn sn) as [rn1 matched] eqn:Eadd. cbn [fst] in Hinv'.
  eapply (p_bind _ _ _ (λ _, True)); [destruct matched; [|by apply p_ret]; apply p_modify; [by destruct Hk3|done]|]. intros _ k4 Hk4 _.
  eapply p_mono; [apply (IH (l ++ [s])); [intros t Ht; apply Hask; by right|intros t Ht; apply Hset; by right|done|exact Hinv']|].
  intros r (rn' & l1 & l2 & -> & -> & Hend & Hi & Hn). exists rn', (s :: l1), l2. rewrite <-app_assoc in Hend, Hi. split_and!; [done|done|done|done|].
  intros Hno Hnone. apply Hn; [done|]. assert (roleDenyRolePolicyNode rn1 = (add_scope (perms s) rn sn).1.(roleDenyRolePolicyNode)) as -> by (by rewrite Eadd).
  unfold add_scope. destruct (add_allow (perms s) rn (scopeAllowNode sn)). cbn [fst roleDenyRolePolicyNode]. rewrite Hrp, Hnone by (intros x Hx; by eapply Hno). done.
Qed.

(** ** Roles *)

Local Abbreviation all_roles := (pr_Roles (pi_Principal plan)).
Local Abbreviation permitted_role pt action role := (permits rt idx fx verdict pt action role (scopes_of fx pt)).
Definition denied_somewhere (pt : Kind) (action role : string) : Prop := ∃ s, s ∈ scopes_of fx pt ∧ applies rt idx fx verdict EFFECT_DENY pt action role s.
Definition rule_somewhere (e : Effect) (pt : Kind) (action role : string) : Prop := ∃ s, s ∈ scopes_of fx pt ∧ has_rule e pt action role s.
Definition all_override (pt : Kind) : Prop := ∀ s, s ∈ scopes_of fx pt → perms s = SCOPE_PERMISSIONS_OVERRIDE_PARENT.
Local Abbreviation facts rn pt action role :=
  (role_facts env truth rn (permitted_role pt action role) (denied_somewhere pt action role) (all_override pt)
    (rule_somewhere EFFECT_ALLOW pt action role) (rule_somewhere EFFECT_DENY pt action role)).

Lemma applies_dec e pt action role s : applies rt idx fx verdict e pt action role s ∨ ¬ applies rt idx fx verdict e pt action role s.
Proof.
  destruct (decide (Exists (λ b, co_Effect (bh_Core b) = e ∧ verdict b = Some true) (consulted pt action role s))) as [Hx|Hx].
  - left. apply Exists_exists in Hx as (b & ? & ?). by exists b.
  - right. intros (b & ? & ?). apply Hx, Exists_exists. eauto.
Qed.

Lemma denied_dec pt action role : denied_somewhere pt action role ∨ ¬ denied_somewhere pt action role.
Proof.
  unfold denied_somewhere. induction (scopes_of fx pt) as [|s l IH]; [right; by intros (s & ?%elem_of_nil & _)|].
  destruct (applies_dec EFFECT_DENY pt action role s) as [?|Hs]; [left; exists s; split; [left|done]|].
  destruct IH as [(t & ? & ?)|Hl]; [left; exists t; split; [by right|done]|right]. intros (t & [->|?]%elem_of_cons & ?); [done|]. apply Hl. eauto.
Qed.

Context (Hset : ∀ pt s, s ∈ scopes_of fx pt → settled perms s).

Lemma plan_role_runs pt action role k :
  pt = KIND_PRINCIPAL ∨ pt = KIND_RESOURCE → action ∈ pi_Actions plan → role ∈ all_roles → pst_ok k →
  pruns (plan_scopes rt px pt action (AddParentRoles (rt_idx rt) [px_resourceScope px] [role])
    (if decide (pt = KIND_PRINCIPAL) then px_principalScopes px else px_resourceScopes px) (MkRoleNodes None None None false None)) k (λ r,
    ∃ rn, r = inl rn ∧ facts rn pt action role ∧ (no_role_policies pt action role → roleDenyRolePolicyNode rn = None)).
Proof using HL Hconst Hhash Horder Hfa Hcomp Hbi Hset.
  intros Hpt Ha Hr Hk. rewrite <-px_scopes. pose proof (Hset pt) as Hs. destruct Hcomp as [E1 _ _ _ E5].
  eapply p_mono; [apply (plan_scopes_runs pt action role []); [|done|done|apply role_inv_nil]|].
  { intros s Hin. split_and!; [done|change (ci_Actions (fx_input fx)) with (ci_Actions input); by rewrite E5|
      change (ci_Principal (fx_input fx)) with (ci_Principal input); by rewrite E1|done]. }
  intros r (rn & l1 & l2 & -> & El & Hend & Hi & Hn). cbn [app] in *. exists rn. split; [done|]. split; [|by intros Hno; apply Hn].
  unfold denied_somewhere, rule_somewhere, all_override, permits, permits_from. rewrite El in Hs |- *.
  destruct (role_facts_inv env truth perms _ _ _ _ (applies_dec EFFECT_ALLOW pt action role) rn l1 l2 Hi Hs Hend) as [F1 F2 F3 F4 F5 F6 F7].
  assert (permits_on perms (effect_of (applies rt idx fx verdict EFFECT_ALLOW pt action role) (applies rt idx fx verdict EFFECT_DENY pt action role)) false (l1 ++ l2) ↔
    permits_on perms (λ e s, applies rt idx fx verdict e pt action role s) false (l1 ++ l2)) as Hp.
  { split; apply permits_on_ext; intros e s [->| ->] _; done. }
  split; [done|intros; by apply Hp, F2|by rewrite <-Hp|by rewrite <-Hp|by rewrite <-Hp|done|done].
Qed.

(** The first role, when it is the only one that counts. *)
Lemma plan_roles_first pt action role roles k :
  pt = KIND_PRINCIPAL ∨ pt = KIND_RESOURCE → pt = KIND_PRINCIPAL ∨ roles = [] → action ∈ pi_Actions plan → role ∈ all_roles → pst_ok k →
  pruns (plan_roles rt px pt action (role :: roles) (MkTypeNodes None None)) k (λ r,
    ∃ rn, r = inl (add_role pt (MkTypeNodes None None) rn).1 ∧ facts rn pt action role ∧ (no_role_policies pt action role → roleDenyRolePolicyNode rn = None)).
Proof using HL Hconst Hhash Horder Hfa Hcomp Hbi Hset.
  intros Hpt Hone Ha Hr Hk. cbn [plan_roles]. eapply p_bind; [by apply plan_role_runs|]. intros ? k1 Hk1 (rn & -> & Hf & Hn).
  destruct (add_role pt (MkTypeNodes None None) rn) as [tn stop] eqn:E.
  assert (tn = (add_role pt (MkTypeNodes None None) rn).1) as -> by (by rewrite E).
  destruct (stop || bool_decide (pt = KIND_PRINCIPAL)) eqn:Es; [apply p_ret; eauto|].
  destruct Hone as [->| ->]; [by rewrite bool_decide_true, orb_true_r in Es|]. apply p_ret; eauto.
Qed.

Definition some_role (P : string → Prop) (roles : list string) : Prop := ∃ role, role ∈ roles ∧ P role.

Lemma plan_roles_resource action roles tn P hd k :
  action ∈ pi_Actions plan → (∀ role, role ∈ roles → role ∈ all_roles) → pst_ok k → type_facts env truth tn P hd →
  pruns (plan_roles rt px KIND_RESOURCE action roles tn) k (λ r, ∃ tn', r = inl tn' ∧
    type_facts env truth tn' (P ∨ some_role (λ role, permitted_role KIND_RESOURCE action role) roles)
      (hd ∨ some_role (rule_somewhere EFFECT_DENY KIND_RESOURCE action) roles)).
Proof using HL Hconst Hhash Horder Hfa Hcomp Hbi Hset.
  intros Ha. revert tn P hd k. induction roles as [|role roles IH]; intros tn P hd k Hr Hk Ht; cbn [plan_roles].
  { apply p_ret; [done|]. exists tn. split; [done|]. destruct Ht. split; [done|auto|auto]. }
  eapply p_bind; [apply plan_role_runs; [by right|done|apply Hr; left|done]|]. intros ? k1 Hk1 (rn & -> & Hf & _).
  pose proof (add_role_resource env truth Hhash Horder Hconst tn rn _ _ _ _ _ _ _ Ht Hf) as Ht'.
  destruct (add_role KIND_RESOURCE tn rn) as [tn1 stop]. cbn [fst] in Ht'. rewrite (bool_decide_false (KIND_RESOURCE = KIND_PRINCIPAL)), orb_false_r by done.
  assert (∀ Q : string → Prop, Q role → some_role Q (role :: roles)) as Hhere by (intros Q HQ; exists role; split; [left|done]).
  assert (∀ Q : string → Prop, some_role Q roles → some_role Q (role :: roles)) as Hthere by (intros Q (x & ? & ?); exists x; split; [by right|done]).
  destruct stop.
  - apply p_ret; [done|]. exists tn1. split; [done|]. destruct Ht' as [T1 T2 T3]. split; [done|intros; destruct T2; auto|intros Hd; destruct (T3 Hd); auto].
  - eapply p_mono; [apply IH; [intros x Hx; apply Hr; by right|done|exact Ht']|]. intros r (tn' & -> & [T1 T2 T3]). exists tn'. split; [done|].
    split; [done|intros; destruct T2 as [[?|?]|?]; auto|intros Hd; destruct (T3 Hd) as [[?|?]|?]; auto].
Qed.

(** ** The two policy kinds *)

Local Abbreviation first_role P := (∃ role, head all_roles = Some role ∧ P role).
Definition resource_permits (action : string) : Prop := some_role (λ role, permitted_role KIND_RESOURCE action role) all_roles.
Definition principal_permits (action : string) : Prop := first_role (λ role, permitted_role KIND_PRINCIPAL action role).
Definition principal_denies (action : string) : Prop := first_role (λ role, denied_somewhere KIND_PRINCIPAL action role).
(** A principal policy with an ALLOW for the action, and a resource policy with a DENY for one of the roles. *)
Definition principal_allow_rule (action : string) : Prop := first_role (λ role, rule_somewhere EFFECT_ALLOW KIND_PRINCIPAL action role).
Definition resource_deny_rule (action : string) : Prop := some_role (λ role, rule_somewhere EFFECT_DENY KIND_RESOURCE action role) all_roles.

Lemma type_facts_mono tn (P P' hd hd' : Prop) : (P → P') → (hd → hd') → type_facts env truth tn P hd → type_facts env truth tn P' hd'.
Proof. intros HP Hd [T1 T2 T3]. split; auto. Qed.
Lemma principal_facts_iff tn (p p' d d' ha ha' : Prop) :
  (p → p') → (d ↔ d') → (ha → ha') → principal_facts env truth tn p d ha → principal_facts env truth tn p' d' ha'.
Proof. intros Hp Hd Ha [T1 T2 T3 T4 T5]. split; [done|auto|intros; apply Hd; auto|intros ?%Hd; auto|auto]. Qed.

Context (Hrp : ∀ action role, action ∈ pi_Actions plan → head all_roles = Some role → no_role_policies KIND_PRINCIPAL action role).

Lemma plan_resource_runs action k :
  action ∈ pi_Actions plan → pst_ok k →
  pruns (plan_roles rt px KIND_RESOURCE action all_roles (MkTypeNodes None None)) k (λ r, ∃ tn, r = inl tn ∧
    type_facts env truth tn (resource_permits action) (resource_deny_rule action)).
Proof using HL Hconst Hhash Horder Hfa Hcomp Hbi Hset.
  intros Ha Hk. eapply p_mono; [apply (plan_roles_resource action all_roles _ False False); [done|done|done|apply type_facts_none]|].
  intros r (tn & -> & Ht). exists tn. split; [done|]. eapply type_facts_mono; [..|exact Ht]; by intros [?|?].
Qed.

Lemma plan_principal_runs action k :
  action ∈ pi_Actions plan → pst_ok k →
  pruns (plan_roles rt px KIND_PRINCIPAL action all_roles (MkTypeNodes None None)) k (λ r, ∃ tn, r = inl tn ∧
    principal_facts env truth tn (principal_permits action) (principal_denies action) (principal_allow_rule action)).
Proof using HL Hconst Hhash Horder Hfa Hcomp Hbi Hset Hrp.
  intros Ha Hk. unfold principal_permits, principal_denies, principal_allow_rule. pose proof (Hrp action) as Hn.
  destruct all_roles as [|role roles] eqn:Er; cbn [head] in *.
  - apply p_ret; [done|]. eexists. split; [done|]. eapply principal_facts_iff; [..|apply principal_facts_none]; [done|by split; [|intros (? & ? & _)]|done].
  - eapply p_mono; [apply plan_roles_first; [by left|by left|done|rewrite Er; left|done]|]. intros r (rn & -> & Hf & Hno). eexists. split; [done|].
    eapply principal_facts_iff; [..|eapply (add_role_principal env truth Hhash Horder); [exact Hf|by apply Hno, Hn]]; [eauto| |eauto].
    split; [eauto|]. by intros (? & [= <-] & ?).
Qed.

(** The root of an action: without the combination of a principal policy that may
    allow it and a resource policy that may deny it, it is true only if the
    action is permitted. *)
Definition no_clash (action : string) : Prop := ¬ principal_allow_rule action ∨ ¬ resource_deny_rule action.
Local Abbreviation permitted := (permitted rt idx fx verdict).

Lemma permitted_split action : permitted action ↔ principal_permits action ∨ ¬ principal_denies action ∧ resource_permits action.
Proof using Hcomp.
  destruct Hcomp as [E1 _ _ _ _]. unfold Reference.permitted, permitted_on, principal_permits, principal_denies, resource_permits, some_role, denied_somewhere. cbv zeta.
  change (ci_Principal (fx_input fx)) with (ci_Principal input). rewrite E1.
  assert ((∀ role s, head all_roles = Some role → s ∈ scopes_of fx KIND_PRINCIPAL → ¬ applies rt idx fx verdict EFFECT_DENY KIND_PRINCIPAL action role s) ↔
    ¬ first_role (λ role, ∃ s, s ∈ scopes_of fx KIND_PRINCIPAL ∧ applies rt idx fx verdict EFFECT_DENY KIND_PRINCIPAL action role s)) as Hd.
  { split; [intros Hx (role & Er & s & Hs & Hd); by eapply Hx|]. intros Hx role s Er Hs Hd. apply Hx. eauto. }
  rewrite Hd. done.
Qed.

Lemma principal_denies_dec action : principal_denies action ∨ ¬ principal_denies action.
Proof.
  unfold principal_denies. destruct (head all_roles) as [role|]; [|right; by intros (? & ? & _)].
  destruct (denied_dec KIND_PRINCIPAL action role) as [Hd|Hd]; [left; eauto|right]. by intros (? & [= <-] & ?).
Qed.

Lemma plan_types_sound action k :
  action ∈ pi_Actions plan → no_clash action → pst_ok k →
  pruns (plan_types rt px action [KIND_RESOURCE; KIND_PRINCIPAL] false None) k (λ r, ∃ has root, r = inl (has, root) ∧ opt_ok env truth root ∧
    (has = true → is_Some root ∧ (opt_truth truth root = true → permitted action))).
Proof using HL Hconst Hhash Horder Hfa Hcomp Hbi Hset Hrp.
  intros Ha Hno Hk. cbn [plan_types]. eapply p_bind; [by apply plan_resource_runs|]. intros ? k1 Hk1 (tnR & -> & HR).
  destruct (add_type false None tnR) as [has root] eqn:E1. eapply p_bind; [by apply plan_principal_runs|]. intros ? k2 Hk2 (tnP & -> & HP).
  destruct (both_sound env truth Hhash Horder tnR tnP _ _ _ _ _ HR HP (principal_denies_dec action) Hno) as [Hok Hs].
  unfold both in Hok, Hs. rewrite E1 in Hok, Hs. cbn [fst snd] in Hok, Hs. destruct (add_type has root tnP) as [has' root'].
  apply p_ret; [done|]. exists has', root'. setoid_rewrite permitted_split. done.
Qed.

(** One role, and scopes that all override their parents: the root is true exactly when the action is permitted. *)
Lemma plan_types_exact action role k :
  action ∈ pi_Actions plan → no_clash action → all_roles = [role] → (∀ pt, all_override pt) → pst_ok k →
  pruns (plan_types rt px action [KIND_RESOURCE; KIND_PRINCIPAL] false None) k (λ r, ∃ has root, r = inl (has, root) ∧ opt_ok env truth root ∧
    (has = true → is_Some root) ∧ (has = true ∧ opt_truth truth root = true ↔ permitted action)).
Proof using HL Hconst Hhash Horder Hfa Hcomp Hbi Hset Hrp.
  intros Ha Hno Er Hov Hk. assert (role ∈ all_roles) as Hin by (rewrite Er; left).
  assert (∀ pt k, pt = KIND_PRINCIPAL ∨ pt = KIND_RESOURCE → pst_ok k → pruns (plan_roles rt px pt action all_roles (MkTypeNodes None None)) k (λ r,
    ∃ rn, r = inl (add_role pt (MkTypeNodes None None) rn).1 ∧ facts rn pt action role ∧ (no_role_policies pt action role → roleDenyRolePolicyNode rn = None))) as Hroles.
  { intros pt k' Hpt Hk'. rewrite Er. by apply plan_roles_first; [|right|..]. }
  cbn [plan_types]. eapply p_bind; [apply Hroles; [by right|done]|]. intros ? k1 Hk1 (rnR & -> & HfR & _).
  set (tnR := (add_role KIND_RESOURCE _ rnR).1). destruct (add_type false None tnR) as [has root] eqn:E1.
  eapply p_bind; [apply Hroles; [by left|done]|]. intros ? k2 Hk2 (rnP & -> & HfP & HnP). set (tnP := (add_role KIND_PRINCIPAL _ rnP).1).
  assert (type_facts env truth tnR (resource_permits action) (resource_deny_rule action)) as HR.
  { eapply type_facts_mono; [..|eapply (add_role_resource env truth Hhash Horder Hconst); [apply type_facts_none|exact HfR]]; (intros [?|?]; [done|]); by exists role. }
  assert (principal_facts env truth tnP (principal_permits action) (principal_denies action) (principal_allow_rule action)) as HP.
  { eapply principal_facts_iff; [..|eapply (add_role_principal env truth Hhash Horder); [exact HfP|apply HnP, Hrp; [done|by rewrite Er]]];
      unfold principal_permits, principal_denies, principal_allow_rule; rewrite Er; [eauto| |eauto]. split; [eauto|]. by intros (? & [= <-] & ?). }
  destruct (both_sound env truth Hhash Horder tnR tnP _ _ _ _ _ HR HP (principal_denies_dec action) Hno) as [Hok Hs].
  pose proof (both_exact env truth Hhash Horder tnR tnP _ _ _ _ _ HR HP) as Hx.
  unfold both in Hok, Hs, Hx. rewrite E1 in Hok, Hs, Hx. cbn [fst snd] in Hok, Hs, Hx. destruct (add_type has root tnP) as [has' root']. cbn [fst snd] in *.
  apply p_ret; [done|]. exists has', root'. split_and!; [done|done|intros Hh; by apply Hs|]. rewrite permitted_split. split.
  - intros [Hh Ht]. by apply Hs.
  - apply Hx.
    + intros (r & Hr & Hp). rewrite Er in Hr. apply list_elem_of_singleton in Hr as ->. eapply (add_role_exact env truth Hhash Horder); [exact HfR|apply Hov|done].
    + unfold principal_permits. rewrite Er. intros (? & [= <-] & Hp). eapply (add_role_exact env truth Hhash Horder); [exact HfP|apply Hov|done].
Qed.
End spec.

(** * The filter of a plan

    The filter of a plan: the filters of the actions mean what their nodes mean,
    and the plan of a request returns the conjunction of them. *)

(** * Principal policies have no role policies *)

Section principal.
Context `{GlobEngine} `{CelRuntime} `{GoMapOrder} `{ContentHash} `{StringHash} `{DerivedRoleHash} `{SchemaManager}.
Context (known : RuleRow → Prop) (policy_known : string → Prop).

Lemma principal_no_role_policies rt rows ep input action role :
  table_inv known policy_known rt rows → no_role_policies rt ep input KIND_PRINCIPAL action role.
Proof.
  intros Hi s b _ Hb. unfold consulted, Query_spec in Hb.
  assert (∃ id, lv (bi (rt_idx rt)) id = Some b ∧ co_PolicyKind (bh_Core b) = KIND_PRINCIPAL) as (id & Hl & Hk).
  { destruct (scan (bi (rt_idx rt)) _) as [|x l]; [by apply elem_of_nil in Hb|]. rewrite bool_decide_false in Hb by (by intros (_ & _ & ?)).
    apply elem_of_scan in Hb as (id & Hl & [Hm _]%andb_true_iff). exists id. split; [done|].
    apply andb_true_iff in Hm as [[_ Hk]%andb_true_iff _]. apply bool_decide_eq_true in Hk as [?|?]; done. }
  destruct (live_row known _ rows id b (ti_rows _ _ _ _ Hi) Hl) as (r & core & Hr & Hc & ->).
  destruct (rule_binding_fields r core id) as (_ & _ & _ & _ & _ & E & _). rewrite E in Hk |- *.
  rewrite (cof_role_policy _ _ Hc). apply (ti_kind _ _ _ _ Hi id); [done|]. by rewrite <-(cof_kind _ _ Hc).
Qed.
End principal.

(** * Filters of actions *)

Section actions.
Context `{GlobEngine} `{CelRuntime} `{GoMapOrder} `{ContentHash} `{StringHash} `{DerivedRoleHash} `{SchemaManager}.
Context `{ProtoText} `{OperandText} `{NodeHash} `{CelPartial} `{PlanSchemaManager} `{FilterSem} `{HL : !FilterLaws}.
Context (env : string → option fval) (truth : PExpr → bool).
Context (Hconst : ∀ b, truth (E_Const (K_bool b)) = b) (Hexp : expands env) (Hsep : ∀ c, hash_separates c).
Context (rt : RuleTable) (ep : EvalParams) (plan : PlanInput) (input : CheckInput) (verdict : BindingHandle → option bool).
Local Abbreviation px := (planned rt ep plan).
Local Abbreviation pruns := (pruns env truth rt ep plan).
Local Abbreviation pst_ok := (pst_ok env truth rt ep plan).

(** The root of an action decides [Q]: nil nodes and nodes without an ALLOW count as false. *)
Definition decides (Q : bool → Prop) (r : (bool * option QpN) + PlanErr) : Prop :=
  ∃ has root, r = inl (has, root) ∧ opt_ok env truth root ∧ (has = true → is_Some root) ∧ Q (has && opt_truth truth root).

Lemma action_filter_decides Q r :
  decides Q r → ∃ nf policyMatch, action_filter r = (nf, policyMatch) ∧ node_ok env truth (NodeFilter_ToAST nf) ∧ Q (node_truth truth (NodeFilter_ToAST nf)).
Proof using HL Hconst.
  intros (has & root & -> & Hok & Hs & HQ). pose proof (const_ok env truth Hconst false) as Hf.
  assert (truth FalseExpr = false) as Ef by apply Hconst.
  destruct root as [root|], has; [| | by destruct Hs as [? ?]; [done|] |]; (eexists _, _; split; [reflexivity|]; split; [done|]);
    [exact HQ|change (Q (truth FalseExpr)); rewrite Ef; exact HQ..].
Qed.

Lemma plan_action_runs Q action k :
  (∀ k, pst_ok k → pruns (plan_types rt px action [KIND_RESOURCE; KIND_PRINCIPAL] false None) k (decides Q)) → pst_ok k →
  pruns (plan_action rt px action) k (λ r, ∃ b, filter_holds env r.1 = Some b ∧ Q b).
Proof using HL Hconst Hexp Hsep.
  intros Ht Hk. unfold plan_action. eapply (p_bind env truth rt ep plan _ _ _ (λ _, True)).
  { apply p_modify; [|done]. destruct Hk. split; [done..|]. cbn. by intros s l ?%lookup_empty_Some. }
  intros _ k1 Hk1 _. eapply p_bind; [by apply Ht|]. intros r k2 Hk2 Hr.
  destruct (action_filter_decides Q r Hr) as (nf & policyMatch & -> & Hok & HQ).
  destruct (ToFilter_holds env truth (NodeFilter_ToAST nf) Hok Hexp (λ c _, Hsep c)) as (f & Ef & Hf).
  eapply (p_bind env truth rt ep plan _ _ _ (λ x, x = f)).
  { apply p_lift; [done|]. unfold eruns, lift. rewrite Ef. eexists _, _. split; [done|]. split; [apply Hk2|done]. }
  intros ? k3 Hk3 ->. apply p_ret; [done|]. eauto.
Qed.

Definition filters_decide (Q : string → bool → Prop) (actions : list string) (filters : list PlanResourcesFilter) : Prop :=
  Forall2 (λ action f, ∃ b, filter_holds env f = Some b ∧ Q action b) actions filters.

Lemma plan_actions_runs Q actions k :
  (∀ action k, action ∈ actions → pst_ok k → pruns (plan_types rt px action [KIND_RESOURCE; KIND_PRINCIPAL] false None) k (decides (Q action))) → pst_ok k →
  pruns (plan_actions rt px actions) k (λ r, filters_decide Q actions r.1).
Proof using HL Hconst Hexp Hsep.
  intros Ht Hk. unfold plan_actions.
  assert (∀ done_ todo filters m k, (∀ a, a ∈ todo → a ∈ actions) → filters_decide Q done_ filters → pst_ok k →
    pruns (foldPM (λ '(filters, policyMatch) action, '(f, m) ← plan_action rt px action; mret (filters ++ [f], policyMatch || m)) (filters, m) todo) k
      (λ r, filters_decide Q (done_ ++ todo) r.1)) as Hgo.
  { intros done_ todo. revert done_. induction todo as [|a todo IH]; intros done_ filters m k' Hin Hd Hk'; cbn [foldPM].
    - apply p_ret; [done|]. by rewrite (app_nil_r done_).
    - eapply (p_bind env truth rt ep plan _ _ _ (λ r, filters_decide Q (done_ ++ [a]) r.1)).
      + eapply p_bind; [apply (plan_action_runs (Q a)); [intros k1 Hk1; apply Ht; [apply Hin; left|done]|done]|].
        intros [f m'] k1 Hk1 Hf. apply p_ret; [done|]. cbn. apply Forall2_app; [done|by constructor].
      + intros [filters' m'] k1 Hk1 Hd'. rewrite (cons_middle a done_ todo), app_assoc. apply IH; [intros x Hx; apply Hin; by right|done|done]. }
  apply (Hgo [] actions); [done|constructor|done].
Qed.

(** * The plan *)

Context (cache : ExprCache) (Hcache : cache_ok cache) (Hrt : table_ok rt).
Local Abbreviation start := (MkPst (bi (rt_idx rt)) (rt_pool rt) (cache, ∅) ∅ ∅ ∅).
(** Validation of the request returns. *)
Definition validates (reject : bool) : Prop :=
  ∃ errs r, ValidatePlanResourcesInput (GetSchema rt (GetAllScopes rt KIND_RESOURCE (Scope (pi_Scope plan) ep) (pi_Kind plan)
    (PolicyVersion (pi_PolicyVersion plan) ep) (LenientScopeSearch ep)).2) plan = inl (errs, r) ∧ reject = bool_decide (errs ≠ []) && r.
(** Filters of two actions with the same text are the same. *)
Definition texts_distinct : Prop := ∀ filters m k, plan_actions rt px (pi_Actions plan) start = Some (inl (filters, m), k) → texts_agree filters.

Lemma start_ok : pst_ok start.
Proof using Hcache Hrt. destruct Hrt as [Hb Hp _ _]. split; cbn; [by apply bi_rel_refl|exact Hp|exact Hcache|by intros s l ?%lookup_empty_Some]. Qed.

(** The filter holds exactly when the filters of all actions do. *)
Lemma filters_merge Q actions filters :
  filters_decide Q actions filters → texts_agree filters →
  ∃ f text bs, MergeWithAnd filters = Some (inl (f, text)) ∧ Forall2 Q actions bs ∧ filter_holds env f = Some (forallb id bs).
Proof using HL.
  intros Hd Ht. assert (∃ bs, Forall2 Q actions bs ∧ Forall2 (λ f b, filter_holds env f = Some b) filters bs) as (bs & HQ & Hb).
  { clear Ht. induction Hd as [|a f actions filters (b & Hb & HQ) _ (bs & H1' & H2')]; [by exists []|]. exists (b :: bs). by split; constructor. }
  destruct (MergeWithAnd_holds env filters) as (f & text & E & Hf); [|done|].
  { clear -Hb. induction Hb; constructor; eauto. }
  exists f, text, bs. split_and!; [done..|]. rewrite Hf. f_equal. clear -Hb.
  induction Hb as [|f b filters bs Hf _ IH]; cbn; [done|]. rewrite IH. f_equal. unfold selects. rewrite Hf. by destruct b.
Qed.

Lemma planWithAuditTrail_runs Q reject :
  ¬ (px_principalScopes px = [] ∧ px_resourceScopes px = []) → validates reject → texts_distinct →
  (∀ action k, action ∈ pi_Actions plan → pst_ok k → pruns (plan_types rt px action [KIND_RESOURCE; KIND_PRINCIPAL] false None) k (decides (Q action))) →
  ∃ out trail rt' cache', planWithAuditTrail rt cache ep plan = Some (inl (out, trail), (rt', cache')) ∧ cached rt rt' ∧ cache_ok cache' ∧
    if reject then filter_holds env (po_Filter out) = Some false
    else ∃ bs, Forall2 Q (pi_Actions plan) bs ∧ filter_holds env (po_Filter out) = Some (forallb id bs).
Proof using HL Hconst Hexp Hsep Hcache Hrt.
  intros Hsc (errs & r & Ev & ->) Htext Ht. destruct (plan_actions_runs Q (pi_Actions plan) start Ht start_ok) as ([filters m] & k & E & Hk & Hd).
  specialize (Htext _ _ _ E). unfold planWithAuditTrail. unfold planned in Hsc, E. cbn [px_principalScopes px_resourceScopes] in Hsc.
  destruct (GetAllScopes rt KIND_PRINCIPAL _ _ _ _) as [[ps ?] ?], (GetAllScopes rt KIND_RESOURCE _ _ _ _) as [[rs ?] fqn]. cbn [fst snd] in Hsc, E, Ev.
  rewrite (decide_False (P := ps = [] ∧ rs = [])) by done. rewrite Ev. destruct (bool_decide (errs ≠ []) && r).
  { eexists _, _, _, _. split; [done|]. split; [by apply cached_refl|]. split; [done|]. done. }
  rewrite E. destruct (filters_merge Q _ filters Hd Htext) as (f & text & bs & Em & HQ & Hf).
  cbn [option_bind mbind]. change (mbind (M := option) ?f (Some ?x)) with (f x). cbv beta iota. rewrite Em.
  eexists _, _, _, _. split; [done|]. split; [|split; [apply Hk|eauto]]. destruct Hrt as [_ _ Hp _], Hk. eexists _, _, _. split_and!; done.
Qed.
End actions.
