(* ===== verification/Concrete.v ===== *)
(** A small concrete world to run the model in: instances for the third-party
    code the model is parametric in (globs, CEL, hashes, schema validation and
    the order of map iteration), policies, and requests.  The hashes are
    injective encodings, so the hypotheses of the development on collisions hold
    for every rule row without constants. *)
From S2P Require Import Prelude GoRuntime Bitmap Arena LazyDim Dimension GlobDim Namer Policy ScopePerms IndexCore IndexQuery Index IndexSpec RuleTableBuild RuleTable Manager Eval Check TableSpec.

Local Open Scope string_scope.
Local Open Scope list_scope.
Open Scope nat_scope.

(** * Instances *)

#[export] Instance c_order : GoMapOrder := canonical_map_order.

(** Globs: a star matches everything but a colon, two stars everything. *)
Fixpoint star (k : string → bool) (any : bool) (s : string) : bool :=
  k s || match s with String c s => (any || negb (bool_decide (c = ":"%char))) && star k any s | EmptyString => false end.
Fixpoint glob_match (p : list ascii) (s : string) : bool :=
  match p with
  | [] => bool_decide (s = "")
  | "*"%char :: ("*"%char :: p') => star (glob_match p') true s
  | "*"%char :: p' => star (glob_match p') false s
  | c :: p' => match s with String d s => bool_decide (c = d) && glob_match p' s | EmptyString => false end
  end.
#[export] Instance c_globs : GlobEngine := {|
  pattern := list ascii;
  glob_Compile := λ g, match String.index 0 "[" g with Some _ => None | None => Some (String.list_ascii_of_string g) end;
  glob_Match := glob_match;
|}.

(** Expressions: literals, errors, derived roles, ownership, attributes and variables. *)
#[export] Instance c_cel : CelCompiler := {|
  cel_program := string;
  cel_compile := λ s, if decide (s = "syntax error") then None else Some s;
|}.
Definition after (prefix s : string) : option string :=
  if String.prefix prefix s then Some (String.substring (String.length prefix) (String.length s - String.length prefix) s) else None.
Definition c_eval (p : string) (a : Activation bool) : CelOutcome bool :=
  if decide (p = "true") then CelValue true
  else if decide (p = "false") then CelValue false
  else if decide (p = "owner") then
    CelValue (match rs_Attr (rq_Resource (act_request bool a)) !! "owner" with
              | Some (V_string o) => bool_decide (o = pr_Id (rq_Principal (act_request bool a)))
              | _ => false
              end)
  else match after "R." p with
       | Some x => match rs_Attr (rq_Resource (act_request bool a)) !! x with Some (V_bool b) => CelValue b | _ => CelError "no such key" end
       | None =>
       match after "V." p, after "role:" p with
       | Some v, _ => match act_variables bool a !! v with Some (Some b) => CelValue b | _ => CelError "no such key" end
       | None, Some r => match act_runtime bool a with inl l => CelValue (bool_decide (r ∈ l)) | inr e => CelError e end
       | None, None => CelError "no such key"
       end
       end.
#[export] Instance c_runtime : CelRuntime := {|
  cel_value := bool;
  cel_eval := c_eval;
  cel_bool := Some;
  cel_to_pb := λ b, inl (V_bool b);
  cel_compile_error := λ s, "failed to compile " +:+ s;
|}.

(** Nothing has a schema, except that a resource with the attribute "bad" is invalid. *)
#[export] Instance c_schemas : SchemaManager := {|
  ValidateCheckInput := λ _ input,
    inl (match rs_Attr (ci_Resource input) !! "bad" with Some _ => ([MkValidationError "/" "bad attribute" ErrSourceResource], true) | None => ([], false) end)
|}.

(** * Injective hashes *)

Definition encode_N `{Countable A} (x : A) : N := Npos (encode x).
Lemma encode_N_inj `{Countable A} (x y : A) : encode_N x = encode_N y → x = y.
Proof. intros [= E]. by apply encode_inj. Qed.

#[export] Instance c_strings : StringHash := {| HashStr := encode_N |}.

Fixpoint cond_code (c : Condition) : gen_tree string :=
  match c with
  | Cond_Expr e => GenLeaf (Original e)
  | Cond_All l => GenNode 0 (map cond_code l)
  | Cond_Any l => GenNode 1 (map cond_code l)
  | Cond_None l => GenNode 2 (map cond_code l)
  | Cond_unset => GenNode 3 []
  end.

Lemma map_code_inj l : Forall (λ c, ∀ c', cond_code c = cond_code c' → c = c') l → ∀ l', map cond_code l = map cond_code l' → l = l'.
Proof.
  induction 1 as [|c l Hc _ IH]; intros [|c' l'] E; try done. cbn in E. injection E as E1 E2. f_equal; auto.
Qed.
Lemma cond_code_inj c c' : cond_code c = cond_code c' → c = c'.
Proof.
  revert c'. induction c as [e|l IH|l IH|l IH|] using Condition_nested_ind; intros [[]| | | |] E; cbn in E; try done;
    injection E as E; try (f_equal; by apply map_code_inj). by destruct e; cbn in *; subst.
Qed.

Definition expr_code (e : Expr) : string := Original e.
Definition vars_code (p : Params) : list (string * string) := (λ v, (var_Name v, Original (var_Expr v))) <$> OrderedVariables p.
Definition out_code (o : Output) : option (option string * option string) :=
  (λ w, (expr_code <$> RuleActivated w, expr_code <$> ConditionNotMet w)) <$> When o.
Definition effect_code (e : Effect) : nat :=
  match e with EFFECT_UNSPECIFIED => 0 | EFFECT_ALLOW => 1 | EFFECT_DENY => 2 | EFFECT_NO_MATCH => 3 end.
Definition sp_code (s : ScopePermissions) : nat :=
  match s with SCOPE_PERMISSIONS_UNSPECIFIED => 0 | SCOPE_PERMISSIONS_OVERRIDE_PARENT => 1 | _ => 2 end.

#[export] Instance c_hash : ContentHash := {|
  hash_functional := λ f d, encode_N
    ((cond_code <$> ff_condition f, cond_code <$> ff_derived_role_condition f, effect_code (ff_effect f), sp_code (ff_scope_permissions f)),
     (out_code <$> ff_emit_output f, vars_code <$> ff_params f, vars_code <$> ff_derived_role_params f, Kind_number (ff_policy_kind f), ff_from_role_policy f), d);
  hash_params := λ p, encode_N (vars_code <$> p);
|}.
#[export] Instance c_role_hash : DerivedRoleHash := {| hash_derived_role := λ r, encode_N ("derived role", dr_Name r) |}.

#[export] Instance cond_code_Inj : Inj (=) (=) cond_code.
Proof. intros c c'. apply cond_code_inj. Qed.
#[export] Instance expr_code_Inj : Inj (=) (=) expr_code.
Proof. intros [] [] E. cbn in E. by subst. Qed.
#[export] Instance out_code_Inj : Inj (=) (=) out_code.
Proof.
  intros [w] [w'] E. unfold out_code in E. cbn in E. f_equal. destruct w as [[a b]|], w' as [[a' b']|]; try done. cbn in E.
  injection E as E1 E2. apply (inj (fmap expr_code)) in E1, E2. by subst.
Qed.

(** Rows without constants, whose derived role conditions come from a derived role. *)
Definition no_constants (p : option Params) : Prop := match p with Some p => size (pm_Constants p) = 0 | None => True end.
#[export] Instance no_constants_dec p : Decision (no_constants p).
Proof. destruct p; cbn; apply _. Defined.
Definition plain_row (r : RuleRow) : Prop :=
  no_constants (r_Params r) ∧ no_constants (r_DerivedRoleParams r) ∧ (r_DerivedRoleCondition r ≠ None → r_OriginDerivedRole r ≠ "").
#[export] Instance plain_row_dec r : Decision (plain_row r).
Proof. unfold plain_row. apply _. Defined.

Lemma vars_code_inj p p' : no_constants p → no_constants p' → vars_code <$> p = vars_code <$> p' → p = p'.
Proof.
  destruct p as [[v c]|], p' as [[v' c']|]; try done. cbn. intros ->%map_size_empty_inv ->%map_size_empty_inv [= E]. f_equal. f_equal. unfold vars_code in E. cbn in E.
  revert v' E. induction v as [|[n [e]] v IH]; intros [|[n' [e']] v'] E; try done. cbn in E. injection E as -> -> E. f_equal. by apply IH.
Qed.

Lemma plain_no_collisions : no_collisions plain_row.
Proof.
  split.
  - intros r r' (H1 & H2 & _) (H1' & H2' & _) E. unfold funcSum in E. cbn in E. apply encode_N_inj in E.
    unfold functionalRuleRowFields in *. cbn in E. injection E as E1 E2 E3 E4 E5 E6 E7 E8 E9 _.
    apply (inj (fmap cond_code)) in E1, E2. apply (inj (fmap out_code)) in E5. apply vars_code_inj in E6; [|done..]. apply vars_code_inj in E7; [|done..].
    f_equal; [done|done| | |done|done|done| |done].
    + by destruct (r_Effect r), (r_Effect r').
    + by destruct (r_ScopePermissions r), (r_ScopePermissions r').
    + by destruct (r_PolicyKind r), (r_PolicyKind r').
  - intros p p' (r & (H1 & H2 & _) & Hp) (r' & (H1' & H2' & _) & Hp') E. cbn in E. apply encode_N_inj in E.
    apply vars_code_inj in E; [done|..]; [by destruct Hp as [->| ->]|by destruct Hp' as [->| ->]].
  - intros r (_ & _ & ?). done.
Qed.

Definition named (f : string) : Prop := f ≠ "".
Lemma named_distinct : fqns_distinct named.
Proof. split; [done|]. intros f f' _ _ E. by apply encode_N_inj in E. Qed.

(** * Policies *)

Definition rule (name : string) (actions roles derived : list string) (e : Effect) (c : option string) : ResourceRule :=
  MkResourceRule name (list_to_set actions) (list_to_set derived) (list_to_set roles) ((λ s, Cond_Expr (MkExpr s)) <$> c) e None None.
Definition derived_role (name cond : string) (parents : list string) : string * RunnableDerivedRole :=
  (name, MkDerivedRole name (list_to_set parents) (Some (Cond_Expr (MkExpr cond))) [] ∅ "").
Definition resource_policy (name scope : string) (sp : ScopePermissions) (drs : list (string * RunnableDerivedRole)) (vars : list (string * string))
    (rules : list ResourceRule) : RunnablePolicySet :=
  PS_Resource (MkSetMeta (ResourcePolicyFQN name "default" scope) name "default" ∅)
    [MkResourcePolicy scope (list_to_map drs) rules ((λ '(n, e), MkVariable n (MkExpr e)) <$> vars) sp ∅] None.
Definition principal_policy (name scope : string) (resource : string) (rules : list ActionRule) : RunnablePolicySet :=
  PS_Principal (MkSetMeta (PrincipalPolicyFQN name "default" scope) name "default" ∅)
    [MkPrincipalPolicy scope {[resource := rules]} [] SCOPE_PERMISSIONS_OVERRIDE_PARENT ∅].
Definition role_policy (role scope : string) (parents : list string) (resource : string) (actions : list string) : RunnablePolicySet :=
  PS_Role (MkRolePolicySet (MkSetMeta (RolePolicyFQN role "default" scope) role "default" ∅) role scope
    {[resource := [MkRoleRule (list_to_set actions) None None ""]]} parents [] ∅).

Definition doc_policy : RunnablePolicySet :=
  resource_policy "doc" "" SCOPE_PERMISSIONS_UNSPECIFIED [derived_role "doc_owner" "owner" ["user"]] [("locked", "false")]
    [rule "r1" ["view"] ["user"] [] EFFECT_ALLOW None;
     rule "r2" ["edit:*"] [] ["doc_owner"] EFFECT_ALLOW None;
     rule "r3" ["edit:title"] ["*"] [] EFFECT_DENY (Some "V.locked");
     rule "r4" ["publish"] ["user"] [] EFFECT_DENY (Some "owner")].
Definition alice_policy : RunnablePolicySet :=
  principal_policy "alice" "" "doc" [MkActionRule "publish" "p1" None EFFECT_ALLOW None None].

Definition alice (roles : list string) : Principal_ := MkPrincipal "alice" "" roles ∅ "".
Definition doc (attr : list (string * Value)) : Resource_ := MkResource "doc" "" "d1" (list_to_map attr) "".
Definition owned : list (string * Value) := [("owner", V_string "alice")].
Definition ask (roles : list string) (attr : list (string * Value)) (actions : list string) : CheckInput :=
  MkCheckInput "q" (doc attr) (alice roles) actions ∅.
Definition params : EvalParams := MkEvalParams ∅ 0 "default" "" false false.

Lemma plain_rows l : bool_decide (Forall plain_row l) = true → ∀ r, r ∈ l → plain_row r.
Proof. intros Hl%bool_decide_eq_true. by apply Forall_forall. Qed.

Lemma doc_plain r : r ∈ policy_rows doc_policy ++ policy_rows alice_policy → plain_row r.
Proof. apply plain_rows. vm_compute. reflexivity. Qed.

(** A table with the given policies. *)
Definition table (l : list RunnablePolicySet) : option RuleTable :=
  r ← newRuleTableFromIterableLoader ((λ p, inl (Some p)) <$> l) []; match r with inl rt => Some rt | inr _ => None end.
Definition decide_ (rt : RuleTable) (input : CheckInput) : option (list (string * Effect)) :=
  '(r, _) ← checkWithAuditTrail rt params input;
  match r with
  | inl (out, _) => Some ((λ '(a, i), (a, ei_Effect i)) <$> map_to_list (co_Actions out))
  | inr _ => None
  end.
