(* ===== verification/PlanConcrete.v ===== *)
(** The planner in the concrete world: a small expression language with partial
    evaluation, and injective hashes of nodes and operands. *)
From S2P Require Import Prelude GoRuntime Bitmap Arena LazyDim Dimension GlobDim Namer Policy ScopePerms IndexCore IndexQuery Index IndexSpec RuleTableBuild RuleTable Manager Eval Check TableSpec PlanExpr PlanFilter PlanSem PlanNode PlanNodeSpec Plan Concrete.

Local Open Scope string_scope.
Local Open Scope list_scope.
Open Scope nat_scope.

(** * Codes of expressions, nodes and operands *)

Definition leaf (s : string) : gen_tree string := GenLeaf s.
Fixpoint bits (p : positive) : string := match p with xH => "" | xO p => String "0" (bits p) | xI p => String "1" (bits p) end.
Definition text_of {A} `{Countable A} (x : A) : gen_tree string := GenLeaf (bits (encode x)).

Fixpoint value_code (v : Value) : gen_tree string :=
  match v with
  | V_null => GenNode 0 []
  | V_number n => GenNode 1 [text_of n]
  | V_string s => GenNode 2 [leaf s]
  | V_bool b => GenNode (if b then 3 else 4) []
  | V_struct l => GenNode 5 (map (λ '(k, v), GenNode 0 [leaf k; value_code v]) l)
  | V_list l => GenNode 6 (map value_code l)
  end.
Fixpoint operand_code (o : Operand) : gen_tree string :=
  match o with
  | O_Value v => GenNode 0 [value_code v]
  | O_Variable x => GenNode 1 [leaf x]
  | O_Expression op l => GenNode 2 (leaf op :: map operand_code l)
  | O_unset => GenNode 3 []
  | O_nil => GenNode 4 []
  end.
Definition const_code (c : Constant_) : gen_tree string :=
  match c with
  | K_null => GenNode 0 [] | K_bool b => GenNode (if b then 1 else 2) [] | K_int64 z => GenNode 3 [text_of z] | K_uint64 n => GenNode 4 [text_of n]
  | K_double n => GenNode 5 [text_of n] | K_string s => GenNode 6 [leaf s] | K_bytes l => GenNode 7 [text_of l] | K_unset => GenNode 8 []
  end.
Fixpoint expr_code (e : PExpr) : gen_tree string :=
  match e with
  | E_unset => GenNode 0 []
  | E_Const c => GenNode 1 [const_code c]
  | E_Ident x => GenNode 2 [leaf x]
  | E_Select e f t => GenNode (if t then 3 else 4) [expr_code e; leaf f]
  | E_Call f None l => GenNode 5 (leaf f :: map expr_code l)
  | E_Call f (Some t) l => GenNode 6 (leaf f :: expr_code t :: map expr_code l)
  | E_List l o => GenNode 7 (text_of o :: map expr_code l)
  | E_Struct m l => GenNode 8 (leaf m :: map entry_code l)
  | E_Comprehension v v2 r a i c s x => GenNode 9 [leaf v; leaf v2; expr_code r; leaf a; expr_code i; expr_code c; expr_code s; expr_code x]
  end
with entry_code (en : StructEntry) : gen_tree string :=
  match en with
  | MkEntry k v o => GenNode (if o then 0 else 1) [match k with FieldKey s => GenNode 0 [leaf s] | MapKey e => GenNode 1 [expr_code e] end; expr_code v]
  end.
Fixpoint node_code (n : QpN) : gen_tree string :=
  match n with
  | N_Expression e => GenNode 0 [expr_code e]
  | N_LogicalOperation op l =>
      GenNode (match op with OPERATOR_UNSPECIFIED => 1 | OPERATOR_AND => 2 | OPERATOR_OR => 3 | OPERATOR_NOT => 4 end) (map node_code l)
  | N_unset => GenNode 5 []
  end.

(** ** They are injective *)

Lemma bits_inj p q : bits p = bits q → p = q.
Proof. revert q. induction p; intros []; cbn; intros E; try done; injection E as E; f_equal; auto. Qed.
Lemma text_of_inj `{Countable A} (x y : A) : text_of x = text_of y → x = y.
Proof. intros [= E%bits_inj]. by apply (encode_inj x y). Qed.

Lemma map_inj_all {A B} (f : A → B) l : Forall (λ x, ∀ y, f x = f y → x = y) l → ∀ l', map f l = map f l' → l = l'.
Proof. induction 1 as [|x l Hx _ IH]; intros [|y l'] E; try done. cbn in E. injection E as E1 E2. f_equal; auto. Qed.

Section Value_ind'.
Context (P : Value → Prop) (P_null : P V_null) (P_number : ∀ n, P (V_number n)) (P_string : ∀ s, P (V_string s)) (P_bool : ∀ b, P (V_bool b)).
Context (P_struct : ∀ l, Forall (λ x, P x.2) l → P (V_struct l)) (P_list : ∀ l, Forall P l → P (V_list l)).
Fixpoint Value_ind' (v : Value) : P v :=
  match v with
  | V_null => P_null | V_number n => P_number n | V_string s => P_string s | V_bool b => P_bool b
  | V_struct l => P_struct l ((fix go l : Forall (λ x, P x.2) l := match l with [] => Forall_nil_2 _ | (k, v) :: l => Forall_cons_2 _ (k, v) l (Value_ind' v) (go l) end) l)
  | V_list l => P_list l ((fix go l : Forall P l := match l with [] => Forall_nil_2 P | v :: l => Forall_cons_2 P v l (Value_ind' v) (go l) end) l)
  end.
End Value_ind'.

Lemma value_code_inj v v' : value_code v = value_code v' → v = v'.
Proof.
  revert v'. induction v as [|n|s|b|l IH|l IH] using Value_ind'; intros [|n'|s'|b'|l'|l'] E; cbn [value_code] in E; try (destruct b); try (destruct b'); try done.
  - injection E as E%bits_inj. f_equal. by apply (encode_inj n n').
  - by injection E as ->.
  - injection E as E. f_equal. revert E. apply map_inj_all. eapply Forall_impl; [exact IH|]. intros [k v] Hv [k' v'] [= -> Ev]. f_equal. by apply Hv.
  - injection E as E. f_equal. by apply (map_inj_all value_code).
Qed.

Lemma operand_code_inj o o' : operand_code o = operand_code o' → o = o'.
Proof.
  revert o'. induction o as [v|x|op l IH| |] using Operand_ind'; intros [v'|x'|op' l'| |] E; cbn [operand_code] in E; try done.
  - injection E as E%value_code_inj. by subst.
  - by injection E as ->.
  - injection E as -> E. f_equal. by apply (map_inj_all operand_code).
Qed.

Lemma const_code_inj c c' : const_code c = const_code c' → c = c'.
Proof.
  destruct c as [|[]|z|n|n|s|l|], c' as [|[]|z'|n'|n'|s'|l'|]; cbn [const_code]; intros E; try done.
  - injection E as E%bits_inj. f_equal. by apply (encode_inj z z').
  - injection E as E%bits_inj. f_equal. by apply (encode_inj n n').
  - injection E as E%bits_inj. f_equal. by apply (encode_inj n n').
  - by injection E as ->.
  - injection E as E%bits_inj. f_equal. by apply (encode_inj l l').
Qed.

Lemma expr_code_inj e e' : expr_code e = expr_code e' → e = e'.
Proof.
  revert e'. induction e as [|c|x|e f t IH|f t l IHt IH|l o IH|m l IH|v v2 r a i c s x IHr IHi IHc IHs IHx] using PExpr_ind';
    intros [|c'|x'|e' f' t'|f' t' l'|l' o'|m' l'|v' v2' r' a' i' c' s' x'] E; cbn [expr_code] in E;
    try (destruct t); try (destruct t'); try done.
  - injection E as E%const_code_inj. by subst.
  - by injection E as ->.
  - injection E as E ->. f_equal. auto.
  - injection E as E ->. f_equal. auto.
  - injection E as -> E1 E2. f_equal; [f_equal; auto|]. by apply (map_inj_all expr_code).
  - injection E as -> E2. f_equal. by apply (map_inj_all expr_code).
  - injection E as E1%bits_inj E2. apply (encode_inj o o') in E1 as ->. f_equal. by apply (map_inj_all expr_code).
  - injection E as -> E2. f_equal. revert E2. apply map_inj_all. eapply Forall_impl; [exact IH|].
    intros [[k|k] v o] [Hk Hv] [[k'|k'] v' o'] E; cbn in E; try (destruct o, o'; by injection E).
    + destruct o, o'; try done; injection E as -> E; f_equal; by apply Hv.
    + destruct o, o'; try done; injection E as E1 E2; f_equal; [f_equal; by apply Hk|by apply Hv|f_equal; by apply Hk|by apply Hv].
  - injection E as -> -> E1 -> E2 E3 E4 E5. f_equal; auto.
Qed.

Lemma node_code_inj n n' : node_code n = node_code n' → n = n'.
Proof.
  revert n'. induction n as [e|op l IH|] using QpN_ind'; intros [e'|op' l'|] E; cbn [node_code] in E; try (destruct op); try (destruct op'); try done.
  - injection E as E%expr_code_inj. by subst.
  - injection E as E. f_equal. by apply (map_inj_all node_code).
  - injection E as E. f_equal. by apply (map_inj_all node_code).
  - injection E as E. f_equal. by apply (map_inj_all node_code).
  - injection E as E. f_equal. by apply (map_inj_all node_code).
Qed.

#[export] Instance c_text : ProtoText := {| expr_String := λ e, bits (encode (expr_code e)) |}.
#[export] Instance c_operands : OperandText := {|
  hash_operand := λ o, encode_N (operand_code o);
  value_json := λ v, match v with V_string s => Some s | V_bool true => Some "true" | V_bool false => Some "false" | _ => None end;
|}.
#[export] Instance c_nodes : NodeHash := {| hash_node := λ n, encode_N (node_code n) |}.

Lemma c_hash_exact : hash_exact.
Proof. intros a b E%encode_N_inj. by apply node_code_inj. Qed.
Lemma c_hash_separates c : hash_separates c.
Proof. intros a b _ _ E%encode_N_inj. by apply operand_code_inj. Qed.

(** * Expressions *)

(** [R.x] is an attribute of the resource that must be a boolean; "owner" compares
    the owner with the principal. *)
Definition c_attr (x : string) : PExpr := E_Select (E_Select (E_Ident "R") "attr" false) x false.
Definition c_parse (s : string) : PExpr + string :=
  if decide (s = "true") then inl TrueExpr
  else if decide (s = "false") then inl FalseExpr
  else if decide (s = "owner") then inl (E_Call operators.Equals None [c_attr "owner"; E_Select (E_Ident "P") "id" false])
  else match after "R." s, after "V." s with
       | Some x, _ => inl (c_attr x)
       | None, Some x => inl (E_Select (E_Ident "V") x false)
       | None, None => inr "syntax error"
       end.
(** The identifier of the principal is known. *)
Fixpoint c_known (id : string) (e : PExpr) : PExpr :=
  match e with
  | E_Select (E_Ident x) f _ => if decide (x = "P" ∧ f = "id") then E_Const (K_string id) else e
  | E_Call f t l => E_Call f t (map (c_known id) l)
  | _ => e
  end.
#[export] Instance c_partial : CelPartial := {|
  compileToExpr := c_parse;
  new_evaluator := λ _, None;
  evalPartially := λ kn e,
    match e with
    | E_Const (K_bool _) => PO_value true e
    | E_Const _ => PO_value false e
    | _ => PO_unknown (c_known (pr_Id (rq_Principal (kn_request kn))) e)
    end;
  optionalFuncs := ∅;
  rewrite_residual := λ _ e, inl (false, e);
|}.
#[export] Instance c_plan_schemas : PlanSchemaManager := {| ValidatePlanResourcesInput := λ _ _, inl ([], false) |}.

Definition plan_ask (roles actions : list string) : PlanInput := MkPlanInput "q" actions (alice roles) "doc" ∅ "" "" ∅.
Definition plan_ (rt : RuleTable) (input : PlanInput) : option PlanResourcesFilter :=
  '(r, _) ← planWithAuditTrail rt ∅ params input;
  match r with inl (out, _) => Some (po_Filter out) | inr _ => None end.

(** * What filters mean *)

(** Operators compare values; every other operator is an error. *)
Definition same_value (a b : Value) : bool := bool_decide (value_code a = value_code b).
Definition c_apply (op : string) (vs : list Value) : option Value :=
  match vs with
  | [a; b] =>
      if decide (op = Op.Equals) then Some (V_bool (same_value a b))
      else if decide (op = Op.In) then
        match b with
        | V_list l => Some (V_bool (existsb (same_value a) l))
        | V_struct l => Some (V_bool (existsb (λ x, same_value a (V_string x.1)) l))
        | _ => None
        end
      else None
  | _ => None
  end.
Definition c_args (fs : list ((string → option Value) → option Value)) (env : string → option Value) : option (list Value) := mapM (λ f, f env) fs.

#[export] Instance c_sem : FilterSem := {|
  fval := Value;
  f_const := λ v, v;
  f_bool := λ v, match v with V_bool b => Some b | _ => None end;
  f_op := λ op fs env, c_args fs env ≫= c_apply op;
|}.

Lemma c_two op f v (env : string → option Value) : f_op op [f; λ _, Some (f_const v)] env = a ← f env; c_apply op [a; v].
Proof. cbn. unfold c_args. cbn [mapM]. by destruct (f env). Qed.

#[export] Instance c_laws : FilterLaws.
Proof.
  split.
  - done.
  - intros [] ?; try done. by intros [= ->].
  - intros op fs gs env He Hf v. cbn. unfold c_args. intros (vs & Ev & Hv)%bind_Some. apply bind_Some. exists vs. split; [|done]. clear Hv v.
    revert vs Ev. induction Hf as [|f g fs gs Hfg _ IH]; intros vs Ev; [done|]. cbn [mapM] in Ev |- *.
    apply bind_Some in Ev as (x & Ex & (xs & Exs & [= <-])%bind_Some). rewrite (Hfg env He x Ex). cbn. by rewrite (IH xs Exs).
  - intros f v env Hv x. rewrite c_two. destruct (f env); [|done]. by destruct Hv as [->| ->].
  - intros f x env v. rewrite !c_two. destruct (f env); [|done]. cbn. by rewrite orb_false_r.
  - intros f k x env v. rewrite !c_two. destruct (f env); [|done]. cbn. by rewrite orb_false_r.
  - intros f v env Hl Hs x. rewrite !c_two. destruct (f env); [|done]. destruct v; try done; [by destruct (Hs fields)|by destruct (Hl l)].
Qed.

(** The variables of a filter, for a resource with the given attributes. *)
Definition c_env (attr : gmap string Value) (x : string) : option fval := after "request.resource.attr." (ExpandAbbrev x) ≫= λ a, attr !! a.

Lemma cut_dot_app a b : (cut_dot a).2 = None → cut_dot (a +:+ "." +:+ b) = (a, Some b).
Proof.
  induction a as [|c a IH]; [done|]. change (String c a +:+ "." +:+ b) with (String c (a +:+ "." +:+ b)). cbn [cut_dot].
  case_decide as Ec; [done|]. intros Hy. rewrite IH by (by destruct (cut_dot a)). done.
Qed.
Lemma cut_dot_some s a b : cut_dot s = (a, Some b) → (cut_dot a).2 = None ∧ s = a +:+ "." +:+ b.
Proof.
  revert a b. induction s as [|c s IH]; intros a b; cbn; [done|]. case_decide as Ec; [intros [= <- <-]; by subst|].
  destruct (cut_dot s) as [x [y|]]; [|done]. intros [= <- <-]. destruct (IH x y eq_refl) as [Hx ->]. split; [|done]. cbn. rewrite decide_False by done.
  by destruct (cut_dot x).
Qed.
Lemma cut_dot_none s a : cut_dot s = (a, None) → a = s.
Proof.
  revert a. induction s as [|c s IH]; intros a; cbn; [by intros [= <-]|]. case_decide; [done|]. destruct (cut_dot s) as [x [y|]]; [done|]. intros [= <-]. f_equal. by apply IH.
Qed.

Lemma ExpandAbbrev_idem x : ExpandAbbrev (ExpandAbbrev x) = ExpandAbbrev x.
Proof.
  unfold ExpandAbbrev at 2 3. destruct (cut_dot x) as [a [b|]] eqn:E.
  - apply cut_dot_some in E as [Ha ->]. unfold expand_prefix. repeat case_decide; try done.
    unfold ExpandAbbrev. rewrite cut_dot_app by done. unfold expand_prefix. by repeat rewrite decide_False by done.
  - pose proof (cut_dot_none _ _ E) as ->. unfold expand_prefix. repeat case_decide; try done.
    unfold ExpandAbbrev. rewrite E. unfold expand_prefix. by repeat rewrite decide_False by done.
Qed.
Lemma c_expands attr : expands (c_env attr).
Proof. intros x. unfold c_env. by rewrite ExpandAbbrev_idem. Qed.

(** The truth of a residual: that of its filter, with the entries of structs in order. *)
Definition c_truth (attr : gmap string Value) (e : PExpr) : bool :=
  match buildExpr (orderStructEntriesExpr e) with
  | Some (inl o) => match denote_op o (c_env attr) with Some (V_bool b) => b | _ => false end
  | _ => false
  end.
Lemma c_truth_const attr b : c_truth attr (E_Const (K_bool b)) = b.
Proof. done. Qed.
Lemma c_order_irrelevant attr : order_irrelevant (c_env attr) (c_truth attr).
Proof. intros e e' _ _ E. unfold c_truth. by rewrite E. Qed.
