(* ===== verification/AuxData.v ===== *)
(** Auxiliary data of requests: claims of JSON web tokens, [src/internal/auxdata].

    Tokens are parsed and verified, and keys parsed and fetched, by github.com/lestrrat-go/jwx;
    its functions, files and base64 are the class [JwtLibrary]. *)
From S2P Require Import Prelude Namer Policy.

Local Open Scope string_scope.
Local Open Scope list_scope.
Open Scope nat_scope.

(** * Configuration *)

Record InsecureKeySetOpt := MkInsecure { OptionalAlg : bool; OptionalKid : bool }.
Record LocalSource := MkLocal { ls_Data : string; ls_File : string; ls_PEM : bool }.
Record JWTKeySet := MkKeySet { ks_ID : string; ks_Remote : option string; ks_Local : option LocalSource; ks_Insecure : InsecureKeySetOpt }.
Record JWTConf := MkJWTConf { jc_KeySets : list JWTKeySet; jc_AcceptableTimeSkew : Z; jc_DisableVerification : bool }.

(** [Conf.Validate] *)
Inductive JWTConfErr := NegativeSkew | DuplicateKeySet (id : string) | NoSource (id : string) | TwoSources (id : string) | EmptyURL (id : string)
  | NoLocalSource (id : string) | TwoLocalSources (id : string).

Definition keyset_errors (ks : JWTKeySet) : list JWTConfErr :=
  match ks_Remote ks, ks_Local ks with
  | None, None => [NoSource (ks_ID ks)]
  | Some _, Some _ => [TwoSources (ks_ID ks)]
  | Some url, None => if decide (url = "") then [EmptyURL (ks_ID ks)] else []
  | None, Some l =>
      if decide (ls_Data l = "" ∧ ls_File l = "") then [NoLocalSource (ks_ID ks)]
      else if decide (ls_Data l ≠ "" ∧ ls_File l ≠ "") then [TwoLocalSources (ks_ID ks)] else []
  end.

Fixpoint keysets_errors (idSet : gset string) (l : list JWTKeySet) : list JWTConfErr :=
  match l with
  | [] => []
  | ks :: l =>
      if decide (ks_ID ks ∈ idSet) then DuplicateKeySet (ks_ID ks) :: keysets_errors idSet l
      else keyset_errors ks ++ keysets_errors ({[ks_ID ks]} ∪ idSet) l
  end.

Definition JWTConf_Validate (c : option JWTConf) : list JWTConfErr :=
  match c with
  | None => []
  | Some c => (if decide (jc_AcceptableTimeSkew c < 0)%Z then [NegativeSkew] else []) ++ keysets_errors ∅ (jc_KeySets c)
  end.

(** * The library *)

(** Options of [jws]: infer the algorithm from the key, do not require a key id. *)
Inductive JwsOption := InferAlgorithmFromKey | NoRequireKid.
(** Options of [jwt.ParseString]; without keys the signature is not verified. *)
Record ParseOptions (K : Type) := MkParseOptions { jo_skew : option Z; jo_keys : option (list K * list JwsOption) }.
Arguments MkParseOptions {K}. Arguments jo_skew {K}. Arguments jo_keys {K}.

Inductive JwtErr := InvalidAudienceError | InvalidIssuedAtError | InvalidIssuerError | TokenExpiredError | TokenNotYetValidError | OtherJwtError.
Inductive FileErr := ErrOpen | ErrRead.

Class JwtLibrary := {
  jwk : Type;
  jwk_Algorithm : jwk → option string;
  jwk_KeyID : jwk → option string;
  jwk_Parse : bool → string → list jwk + bool;   (* PEM or not; an error says whether the algorithm is invalid *)
  jwk_Lookup : string → option (list jwk);        (* the remote key set of a URL *)
  jwt_any : Type;                                 (* Go values *)
  jwt_ParseString : ParseOptions jwk → string → list (string * option jwt_any) + JwtErr;  (* the keys of the token, with what [Get] returns *)
  structpb_NewValue : jwt_any → option Value;
  any_time : jwt_any → option string;             (* a time, formatted *)
  any_slice : jwt_any → option jwt_any;           (* arrays and slices as [[]any] *)
  any_map : jwt_any → option jwt_any;             (* maps with string keys as [map[string]any] *)
  os_ReadFile : string → string + FileErr;
  base64_DecodeString : string → option string;
}.

Section auxdata.
Context `{JwtLibrary}.

(** * Key sets *)

(** Errors with a description, or wrapped ones. *)
Inductive AuxErr :=
  | JWTExtractionError (description : string)
  | InvalidKey (idx : nat) (e : AuxErr)
  | FailedToRetrieve (e : AuxErr)
  | NoKeySetToVerify
  | KeySetNotFound (id : string)
  | FailedToExtractJWT (name : option string) (e : AuxErr).

Definition validateKey (key : jwk) (optionalAlg optionalKid : bool) : option AuxErr :=
  match (if optionalAlg then None
         else match jwk_Algorithm key with
              | None => Some (JWTExtractionError "missing algorithm (alg)")
              | Some alg => if decide (alg = "") then Some (JWTExtractionError "empty algorithm (alg)") else None
              end) with
  | Some e => Some e
  | None =>
      if optionalKid then None
      else match jwk_KeyID key with
           | None => Some (JWTExtractionError "missing key ID (kid)")
           | Some kid => if decide (kid = "") then Some (JWTExtractionError "empty key ID (kid)") else None
           end
  end.

Fixpoint validate_keys (idx : nat) (keys : list jwk) (insecure : InsecureKeySetOpt) : option AuxErr :=
  match keys with
  | [] => None
  | key :: keys =>
      match validateKey key (OptionalAlg insecure) (OptionalKid insecure) with
      | Some e => Some (InvalidKey idx e)
      | None => validate_keys (S idx) keys insecure
      end
  end.
Definition validateKeySet (keys : list jwk) (insecure : InsecureKeySetOpt) : option AuxErr :=
  if OptionalAlg insecure && OptionalKid insecure then None else validate_keys 0 keys insecure.

Inductive keySet :=
  | localKeySet (r : (list jwk * list JwsOption) + AuxErr)
  | remoteKeySet (url : string) (insecure : InsecureKeySetOpt) (options : list JwsOption).

(** The bytes of a local source. *)
Definition local_bytes (src : LocalSource) : string + AuxErr :=
  if decide (ls_File src ≠ "") then
    match os_ReadFile (ls_File src) with
    | inl b => inl b
    | inr ErrOpen => inr (JWTExtractionError ("failed to open keyset file " +:+ ls_File src))
    | inr ErrRead => inr (JWTExtractionError ("failed to read from keyset file " +:+ ls_File src))
    end
  else if decide (ls_Data src ≠ "") then
    match base64_DecodeString (ls_Data src) with
    | Some b => inl b
    | None => inr (JWTExtractionError "failed to decode base64 encoded keyset data")
    end
  else inr (JWTExtractionError "one of auxData.jwt.keySets[].local.data or auxData.jwt.keySets[].local.file must be specified").

Definition newLocalKeySet (src : LocalSource) (insecure : InsecureKeySetOpt) (options : list JwsOption) : keySet :=
  localKeySet
    match local_bytes src with
    | inr e => inr e
    | inl keyBytes =>
        match jwk_Parse (ls_PEM src) keyBytes with
        | inr true => inr (JWTExtractionError "invalid algorithm (alg)")
        | inr false => inr (JWTExtractionError "failed to parse key data")
        | inl ks =>
            match (if ls_PEM src then None else validateKeySet ks insecure) with
            | Some e => inr e
            | None => inl (ks, options)
            end
        end
    end.

(** [keySet.keySet] of both kinds. *)
Definition keySet_keySet (ks : keySet) : (list jwk * list JwsOption) + AuxErr :=
  match ks with
  | localKeySet r => r
  | remoteKeySet url insecure options =>
      match jwk_Lookup url with
      | None => inr (JWTExtractionError "failed to look up remote keyset")
      | Some keys => match validateKeySet keys insecure with Some e => inr e | None => inl (keys, options) end
      end
  end.

(** * Tokens *)

Record jwtHelper := MkJwtHelper { jh_keySets : gmap string keySet; jh_verify : bool; jh_acceptableSkew : Z }.

Definition keyset_options (insecure : InsecureKeySetOpt) : list JwsOption :=
  (if OptionalAlg insecure then [InferAlgorithmFromKey] else []) ++ (if OptionalKid insecure then [NoRequireKid] else []).

Definition new_keyset (ks : JWTKeySet) : option keySet :=
  match ks_Remote ks, ks_Local ks with
  | Some url, _ => Some (remoteKeySet url (ks_Insecure ks) (keyset_options (ks_Insecure ks)))
  | None, Some l => Some (newLocalKeySet l (ks_Insecure ks) (keyset_options (ks_Insecure ks)))
  | None, None => None
  end.

Definition new_keysets (l : list JWTKeySet) (m : gmap string keySet) : gmap string keySet :=
  foldl (λ m ks, match new_keyset ks with Some k => <[ks_ID ks := k]> m | None => m end) m l.

Definition newJWTHelper (conf : option JWTConf) : jwtHelper :=
  match conf with
  | None => MkJwtHelper ∅ true 0
  | Some conf =>
      let verify := negb (jc_DisableVerification conf) in
      MkJwtHelper (if verify then new_keysets (jc_KeySets conf) ∅ else ∅)
        verify (jc_AcceptableTimeSkew conf)
  end.

(** A token of a request. *)
Record AuxJWT := MkAuxJWT { Token : string; KeySetId : string }.

Definition choose_keyset (j : jwtHelper) (auxJWT : AuxJWT) : keySet + AuxErr :=
  if decide (KeySetId auxJWT = "") then
    match map_to_list (jh_keySets j) with [(_, ks)] => inl ks | _ => inr NoKeySetToVerify end
  else match jh_keySets j !! KeySetId auxJWT with Some ks => inl ks | None => inr (KeySetNotFound (KeySetId auxJWT)) end.

Definition parseOptions (j : jwtHelper) (auxJWT : AuxJWT) : ParseOptions jwk + AuxErr :=
  let skew := if decide (0 < jh_acceptableSkew j)%Z then Some (jh_acceptableSkew j) else None in
  if negb (jh_verify j) then inl (MkParseOptions skew None)
  else
    match choose_keyset j auxJWT with
    | inr e => inr e
    | inl ks => match keySet_keySet ks with inr e => inr (FailedToRetrieve e) | inl k => inl (MkParseOptions skew (Some k)) end
    end.

Definition newJWTExtractionError (e : JwtErr) : AuxErr :=
  JWTExtractionError
    match e with
    | InvalidAudienceError => "invalid audience (aud)"
    | InvalidIssuedAtError => "issued at time is in the future (iat)"
    | InvalidIssuerError => "invalid issuer (iss)"
    | TokenExpiredError => "token has expired (exp)"
    | TokenNotYetValidError => "token is not valid yet ('nbf')"
    | OtherJwtError => "failed to parse JWT"
    end.

(** [util.ToStructPB] *)
Definition ToStructPB (v : jwt_any) : option Value :=
  match structpb_NewValue v with
  | Some val => Some val
  | None =>
      match any_time v with
      | Some t => Some (V_string t)
      | None =>
          match any_slice v with
          | Some arr => structpb_NewValue arr
          | None => m ← any_map v; structpb_NewValue m
          end
      end
  end.

(** Keys whose values cannot be read or represented are left out. *)
Definition add_claim (m : gmap string Value) (kv : string * option jwt_any) : gmap string Value :=
  match kv.2 ≫= ToStructPB with Some value => <[kv.1 := value]> m | None => m end.
Definition claims_of (keys : list (string * option jwt_any)) : gmap string Value := foldl add_claim ∅ keys.

Definition doExtract (auxJWT : AuxJWT) (opts : ParseOptions jwk) : gmap string Value + AuxErr :=
  match jwt_ParseString opts (Token auxJWT) with
  | inr e => inr (newJWTExtractionError e)
  | inl keys => inl (claims_of keys)
  end.

Definition jwt_extract (j : jwtHelper) (auxJWT : AuxJWT) : gmap string Value + AuxErr :=
  if decide (Token auxJWT = "") then inl ∅
  else match parseOptions j auxJWT with inr e => inr e | inl opts => doExtract auxJWT opts end.

(** * Auxiliary data *)

Record RequestAuxData := MkRequestAux { ra_Jwt : option AuxJWT; ra_Jwts : gmap string AuxJWT }.
Record EngineAuxData := MkEngineAux { ea_Jwt : gmap string Value; ea_Jwts : gmap string (gmap string Value) }.

(** The results of several tokens in the order in which their extraction ends; the
    first error is returned. *)
Fixpoint extract_pool (j : jwtHelper) (done : list (string * AuxJWT)) : list (string * gmap string Value) + AuxErr :=
  match done with
  | [] => inl []
  | (name, jwt) :: done =>
      match jwt_extract j jwt with
      | inr e => inr (FailedToExtractJWT (Some name) e)
      | inl claims => match extract_pool j done with inr e => inr e | inl l => inl ((name, claims) :: l) end
      end
  end.

(** [Extract]; [done] are the tokens of the request in the order in which they end. *)
Definition Extract (j : jwtHelper) (done : list (string * AuxJWT)) (ad : option RequestAuxData) : option EngineAuxData + AuxErr :=
  match ad with
  | None => inl None
  | Some ad =>
      match ra_Jwt ad with
      | Some jwt => match jwt_extract j jwt with inr e => inr (FailedToExtractJWT None e) | inl claims => inl (Some (MkEngineAux claims ∅)) end
      | None =>
          match map_to_list (ra_Jwts ad) with
          | [] => inl None
          | [(name, jwt)] => match jwt_extract j jwt with inr e => inr (FailedToExtractJWT None e) | inl claims => inl (Some (MkEngineAux ∅ {[name := claims]})) end
          | _ => match extract_pool j done with inr e => inr e | inl l => inl (Some (MkEngineAux ∅ (list_to_map (reverse l)))) end
          end
      end
  end.

(** * Correctness *)

(** What the configuration says are the keys of a key set. *)
Definition keys_of (ks : JWTKeySet) : option (list jwk) :=
  match ks_Remote ks, ks_Local ks with
  | Some url, _ => jwk_Lookup url
  | None, Some l => match local_bytes l with inl b => match jwk_Parse (ls_PEM l) b with inl k => Some k | inr _ => None end | inr _ => None end
  | None, None => None
  end.
Definition given (s : option string) : Prop := match s with Some s => s ≠ "" | None => False end.
Definition well_keyed (ks : JWTKeySet) (key : jwk) : Prop :=
  (OptionalAlg (ks_Insecure ks) = false → given (jwk_Algorithm key)) ∧ (OptionalKid (ks_Insecure ks) = false → given (jwk_KeyID key)).
Definition is_PEM (ks : JWTKeySet) : bool := match ks_Remote ks, ks_Local ks with None, Some l => ls_PEM l | _, _ => false end.

(** A key set that tokens may be verified with: its keys name their algorithm and
    themselves, unless the configuration says otherwise or they are PEM data. *)
Definition trusted (ks : JWTKeySet) (keys : list jwk) (opts : list JwsOption) : Prop :=
  keys_of ks = Some keys ∧ opts = keyset_options (ks_Insecure ks) ∧ (is_PEM ks = false → Forall (well_keyed ks) keys).

Lemma validateKey_ok ks key : validateKey key (OptionalAlg (ks_Insecure ks)) (OptionalKid (ks_Insecure ks)) = None → well_keyed ks key.
Proof.
  unfold validateKey, well_keyed, given. destruct (OptionalAlg _), (OptionalKid _), (jwk_Algorithm key), (jwk_KeyID key); repeat case_decide; naive_solver.
Qed.

Lemma validateKeySet_ok ks keys : validateKeySet keys (ks_Insecure ks) = None → Forall (well_keyed ks) keys.
Proof.
  unfold validateKeySet. destruct (OptionalAlg (ks_Insecure ks)) eqn:Ea, (OptionalKid (ks_Insecure ks)) eqn:Ek; cbn.
  { intros _. apply Forall_true. intros key. split; congruence. }
  all: generalize 0; induction keys as [|key keys IH]; intros i Hv; [constructor|]; cbn in Hv;
    destruct (validateKey key _ _) eqn:E; try done; constructor; [by apply validateKey_ok; rewrite ?Ea, ?Ek in *|by eapply IH].
Qed.

Lemma new_keyset_trusted ks k keys opts : new_keyset ks = Some k → keySet_keySet k = inl (keys, opts) → trusted ks keys opts.
Proof.
  unfold new_keyset, trusted, keys_of, is_PEM. destruct (ks_Remote ks) as [url|].
  - intros [= <-]. cbn. destruct (jwk_Lookup url) as [ks'|]; [|done]. destruct (validateKeySet ks' _) eqn:Ev; [done|]. intros [= -> <-].
    split_and!; [done..|]. intros _. by apply validateKeySet_ok.
  - destruct (ks_Local ks) as [l|]; [|done]. intros [= <-]. cbn. destruct (local_bytes l) as [b|]; [|done].
    destruct (jwk_Parse (ls_PEM l) b) as [ks'|[]]; [|done..]. destruct (ls_PEM l); [by intros [= -> <-]|].
    destruct (validateKeySet ks' _) eqn:Ev; [done|]. intros [= -> <-]. split_and!; [done..|]. intros _. by apply validateKeySet_ok.
Qed.

Lemma keysets_lookup l m id k : new_keysets l m !! id = Some k →
  m !! id = Some k ∨ ∃ ks, ks ∈ l ∧ ks_ID ks = id ∧ new_keyset ks = Some k.
Proof.
  unfold new_keysets. revert m. induction l as [|ks l IH]; intros m; cbn [foldl]; [by left|]. intros [Hm|(ks' & ? & ? & ?)]%IH; [|right; exists ks'; rewrite elem_of_cons; auto].
  destruct (new_keyset ks) as [k'|] eqn:E; [|by left]. apply lookup_insert_Some in Hm as [[Hid ->]|[_ Hm]]; [|by left]. right. exists ks. rewrite elem_of_cons. auto.
Qed.

(** The claim under a key: the last value read under it that can be represented. *)
Definition claim (l : list (string * option jwt_any)) (k : string) : option Value :=
  last (omap (λ kv, if decide (kv.1 = k) then kv.2 ≫= ToStructPB else None) l).

(** How a token was verified, and that its claims are those that were read. *)
Definition verified (conf : JWTConf) (jwt : AuxJWT) (claims : gmap string Value) : Prop :=
  Token jwt = "" ∧ claims = ∅ ∨
  ∃ ks keys opts l, ks ∈ jc_KeySets conf ∧ (KeySetId jwt = ks_ID ks ∨ KeySetId jwt = "" ∧ size (jh_keySets (newJWTHelper (Some conf))) = 1) ∧
    trusted ks keys opts ∧
    jwt_ParseString (MkParseOptions (if decide (0 < jc_AcceptableTimeSkew conf)%Z then Some (jc_AcceptableTimeSkew conf) else None) (Some (keys, opts))) (Token jwt) = inl l ∧
    ∀ k, claims !! k = claim l k.

Lemma claims_are l k : claims_of l !! k = claim l k.
Proof.
  unfold claim. induction l as [|[key o] l IH] using rev_ind; [done|]. rewrite omap_app. unfold claims_of. rewrite foldl_app. fold (claims_of l).
  cbn [foldl omap list_omap fst snd]. unfold add_claim. cbn [fst snd]. destruct (decide (key = k)) as [->|Hne].
  - destruct (o ≫= ToStructPB); [by rewrite last_snoc, lookup_insert_eq|]. by rewrite app_nil_r.
  - rewrite app_nil_r. destruct (o ≫= ToStructPB); [by rewrite lookup_insert_ne|done].
Qed.

Lemma extract_verified conf jwt claims :
  jc_DisableVerification conf = false → jwt_extract (newJWTHelper (Some conf)) jwt = inl claims → verified conf jwt claims.
Proof.
  intros Hv. unfold jwt_extract. case_decide as Ht; [intros [= <-]; by left|]. destruct (parseOptions _ jwt) as [opts|] eqn:Eo; [|done]. unfold doExtract.
  destruct (jwt_ParseString opts (Token jwt)) as [l|] eqn:Ep; [|done]. intros [= <-]. right. unfold parseOptions in Eo.
  set (j := newJWTHelper (Some conf)) in *. assert (jh_verify j = true) as Ejv by (cbn; by rewrite Hv). rewrite Ejv in Eo. cbn [negb] in Eo.
  destruct (choose_keyset j jwt) as [k|] eqn:Ek; [|done]. destruct (keySet_keySet k) as [[keys opts']|] eqn:Ekk; [|done]. apply (inj inl) in Eo. subst opts.
  assert (∃ id, jh_keySets j !! id = Some k ∧ (KeySetId jwt = id ∨ KeySetId jwt = "" ∧ size (jh_keySets j) = 1)) as (id & Hid & Hwhich).
  { unfold choose_keyset in Ek. destruct (decide (KeySetId jwt = "")) as [Eid|Eid].
    - destruct (map_to_list (jh_keySets j)) as [|[id k'] [|]] eqn:Em; try done. injection Ek as ->. exists id. split; [apply elem_of_map_to_list; rewrite Em; left|].
      right. split; [done|]. rewrite <-length_map_to_list, Em. done.
    - destruct (jh_keySets j !! KeySetId jwt) as [k'|] eqn:El; [|done]. injection Ek as ->. eauto. }
  unfold j in Hid. cbn in Hid. rewrite Hv in Hid. cbn [negb] in Hid. apply keysets_lookup in Hid as [Hid|(ks & Hin & <- & Hks)]; [by rewrite lookup_empty in Hid|].
  exists ks, keys, opts', l. split_and!; [done|done|by eapply new_keyset_trusted|done|apply claims_are].
Qed.

Lemma pool_all j done l : extract_pool j done = inl l ↔ Forall2 (λ '(n, t) '(n', c), n = n' ∧ jwt_extract j t = inl c) done l.
Proof.
  revert l. induction done as [|[n t] done IH]; intros l; cbn.
  - split; [by intros [= <-]|intros Hf; inversion Hf; done].
  - split.
    + destruct (jwt_extract j t) as [c|] eqn:E; [|done]. destruct (extract_pool j done) as [l'|]; [|done]. intros [= <-]. constructor; [done|]. by apply IH.
    + intros Hf. inversion Hf as [|? y ? l' Hy Hf']; subst. destruct y as [n' c], Hy as [<- E]. rewrite E. by rewrite (proj2 (IH l') Hf').
Qed.

Lemma pool_names j done l : extract_pool j done = inl l → l.*1 = done.*1.
Proof.
  intros Hf%pool_all. induction Hf as [|[n t] [n' c] done l [<- _] _ IH]; [done|]. cbn. by rewrite IH.
Qed.

(** When the tokens all extract, the order in which they end does not matter. *)
Lemma pool_map j done l jwts :
  done ≡ₚ map_to_list jwts → extract_pool j done = inl l →
  (list_to_map (reverse l) : gmap string (gmap string Value)) = (λ t, match jwt_extract j t with inl c => c | inr _ => ∅ end) <$> jwts ∧
  ∀ n t, jwts !! n = Some t → ∃ c, jwt_extract j t = inl c.
Proof.
  intros Hp Hl. assert (NoDup l.*1) as Hnd by (rewrite (pool_names j done l Hl), Hp; apply NoDup_fst_map_to_list).
  pose proof (proj1 (pool_all j done l) Hl) as Hf. split.
  - apply map_eq. intros n. rewrite lookup_fmap. destruct (jwts !! n) as [t|] eqn:Et; cbn.
    + apply elem_of_map_to_list in Et. rewrite <-Hp in Et. apply list_elem_of_lookup_1 in Et as [i Hi]. destruct (Forall2_lookup_l _ _ _ _ _ Hf Hi) as ([n' c] & Hi' & <- & E).
      rewrite E. apply elem_of_list_to_map_1; [by rewrite fmap_reverse, reverse_Permutation|]. rewrite elem_of_reverse. by eapply list_elem_of_lookup_2.
    + apply not_elem_of_list_to_map_1. rewrite fmap_reverse, elem_of_reverse, (pool_names j done l Hl), Hp. intros ([n' t] & -> & Hin%elem_of_map_to_list)%list_elem_of_fmap. cbn in Et. congruence.
  - intros n t Ht. apply elem_of_map_to_list in Ht. rewrite <-Hp in Ht. apply list_elem_of_lookup_1 in Ht as [i Hi].
    destruct (Forall2_lookup_l _ _ _ _ _ Hf Hi) as ([n' c] & _ & _ & E). eauto.
Qed.

Lemma pool_succeeds j done : Forall (λ p : string * AuxJWT, ∃ c, jwt_extract j p.2 = inl c) done → ∃ l, extract_pool j done = inl l.
Proof. induction 1 as [|[n t] done [c Hc] _ [l IH]]; [by exists []|]. cbn in *. rewrite Hc, IH. eauto. Qed.

(** The branches of [Extract] for several tokens are one. *)
Lemma extract_jwts j done ad out : ra_Jwt ad = None → done ≡ₚ map_to_list (ra_Jwts ad) → Extract j done (Some ad) = inl (Some out) →
  out = MkEngineAux ∅ ((λ t, match jwt_extract j t with inl c => c | inr _ => ∅ end) <$> ra_Jwts ad) ∧
  ∀ n t, ra_Jwts ad !! n = Some t → ∃ c, jwt_extract j t = inl c.
Proof.
  intros Hn Hp. cbn. rewrite Hn. destruct (map_to_list (ra_Jwts ad)) as [|[n t] [|p l]] eqn:Em; [done|..].
  - destruct (jwt_extract j t) as [c|] eqn:E; [|done]. intros [= <-]. assert (ra_Jwts ad = {[n := t]}) as ->.
    { apply map_to_list_inj. rewrite Em, map_to_list_singleton. done. }
    split; [by rewrite map_fmap_singleton, E|]. intros n' t' [<- <-]%lookup_singleton_Some. eauto.
  - destruct (extract_pool j done) as [r|] eqn:E; [|done]. intros [= <-]. destruct (pool_map j done r (ra_Jwts ad)) as [-> Hall]; [by rewrite Hp, Em|done|]. done.
Qed.

Lemma extract_order j done done' ad out :
  done ≡ₚ map_to_list (ra_Jwts ad) → done' ≡ₚ map_to_list (ra_Jwts ad) → Extract j done (Some ad) = inl (Some out) → Extract j done' (Some ad) = inl (Some out).
Proof.
  intros Hp Hp' E. destruct (ra_Jwt ad) as [jwt|] eqn:Ej; [by cbn in *; rewrite Ej in *|]. destruct (extract_jwts j done ad out Ej Hp E) as [Eo Hall].
  cbn in *. rewrite Ej in *. destruct (map_to_list (ra_Jwts ad)) as [|[n t] [|p l]] eqn:Em; [done|done|]. rewrite <-Em in Hp'.
  destruct (pool_succeeds j done') as [r Hr].
  { apply Forall_forall. intros [n' t'] Hin. rewrite Hp' in Hin. apply elem_of_map_to_list in Hin. by apply (Hall n'). }
  rewrite Hr. destruct (pool_map j done' r (ra_Jwts ad) Hp' Hr) as [-> _]. by rewrite Eo.
Qed.

(** C11: Claims are those of verified tokens.  With verification enabled, when the
    auxiliary data of a request is extracted, what conditions see of each of its tokens
    is, for an empty token, nothing, and otherwise exactly the claims that the library
    read from the token when it verified it with the keys of a configured key set: the
    one the request names, or the only one there is; under each key the last value that
    can be represented, keys without one being left out.  Except for key sets of PEM
    data, which are not checked, those keys name their algorithm and themselves, each
    unless the configuration of the key set makes it optional.  Every token of the
    request has its claims under its name, and if any order of ending makes the
    extraction succeed, every order gives the same. *)
Theorem claims_verified conf done ad out :
  jc_DisableVerification conf = false → done ≡ₚ map_to_list (ra_Jwts ad) → Extract (newJWTHelper (Some conf)) done (Some ad) = inl (Some out) →
  (∀ jwt, ra_Jwt ad = Some jwt → verified conf jwt (ea_Jwt out) ∧ ea_Jwts out = ∅) ∧
  (ra_Jwt ad = None → ea_Jwt out = ∅ ∧ dom (ea_Jwts out) = dom (ra_Jwts ad) ∧
     ∀ name jwt claims, ra_Jwts ad !! name = Some jwt → ea_Jwts out !! name = Some claims → verified conf jwt claims) ∧
  (∀ done', done' ≡ₚ map_to_list (ra_Jwts ad) → Extract (newJWTHelper (Some conf)) done' (Some ad) = inl (Some out)).
Proof.
  intros Hv Hp E. split_and!; [| |intros done' Hp'; by apply (extract_order _ done)].
  - intros jwt Hj. unfold Extract in E. rewrite Hj in E. destruct (jwt_extract _ jwt) as [c|] eqn:Ec; [|done]. injection E as <-. split; [by apply extract_verified|done].
  - intros Hn. destruct (extract_jwts _ done ad out Hn Hp E) as [-> Hall]. cbn [ea_Jwt ea_Jwts]. split_and!; [done|by rewrite dom_fmap_L|].
    intros name jwt claims Hj Hc. rewrite lookup_fmap, Hj in Hc. cbn [fmap option_fmap option_map] in Hc. apply (inj Some) in Hc. subst claims. destruct (Hall name jwt Hj) as [c Ec]. rewrite Ec. by apply extract_verified.
Qed.
End auxdata.

(** * On a concrete library *)

(** A token is the id of the key that signed it; it has one claim. *)
#[export] Instance c_jwt : JwtLibrary := {|
  jwk := string;
  jwk_Algorithm := λ _, Some "HS256";
  jwk_KeyID := Some;
  jwk_Parse := λ _ b, if decide (b = "") then inr false else inl [b];
  jwk_Lookup := λ _, None;
  jwt_any := string;
  jwt_ParseString := λ o t, match jo_keys o with
                            | Some (keys, _) => if decide (t ∈ keys) then inl [("sub", Some ("of " +:+ t)); ("x", None)] else inr OtherJwtError
                            | None => inl [("sub", Some t)]
                            end;
  structpb_NewValue := λ v, Some (V_string v);
  any_time := λ _, None;
  any_slice := λ _, None;
  any_map := λ _, None;
  os_ReadFile := λ _, inr ErrOpen;
  base64_DecodeString := Some;
|}.
Definition c_keyset (id data : string) : JWTKeySet := MkKeySet id None (Some (MkLocal data "" false)) (MkInsecure false false).
Definition c_jwt_conf : JWTConf := MkJWTConf [c_keyset "one" "k1"; c_keyset "two" "k2"] 0 false.
Definition c_aux : RequestAuxData := MkRequestAux None {["a" := MkAuxJWT "k1" "one"; "b" := MkAuxJWT "k2" "two"]}.

Example c_unsigned : Extract (newJWTHelper (Some c_jwt_conf)) [] (Some (MkRequestAux (Some (MkAuxJWT "k2" "one")) ∅)) =
  inr (FailedToExtractJWT None (JWTExtractionError "failed to parse JWT")).
Proof. vm_compute. reflexivity. Qed.

Example c_conf_valid : JWTConf_Validate (Some c_jwt_conf) = [].
Proof. vm_compute. reflexivity. Qed.

Lemma claims_verified_witness : ∃ out, Extract (newJWTHelper (Some c_jwt_conf)) (map_to_list (ra_Jwts c_aux)) (Some c_aux) = inl (Some out) ∧
  ea_Jwts out !! "a" = Some {["sub" := V_string "of k1"]} ∧ verified c_jwt_conf (MkAuxJWT "k1" "one") {["sub" := V_string "of k1"]}.
Proof.
  eexists. split; [vm_compute; reflexivity|]. split; [vm_compute; reflexivity|].
  refine (proj2 (proj2 (proj1 (proj2 (claims_verified c_jwt_conf (map_to_list (ra_Jwts c_aux)) c_aux _ eq_refl (reflexivity _) _)) eq_refl)) "a" _ _ _ _);
    vm_compute; reflexivity.
Defined.
