(* ===== verification/Service.v ===== *)
(** The API: [CerbosService] of [src/internal/svc/cerbos_svc.go] and the response
    builder of [src/internal/svc/response.go].

    Every handler is in two parts, before and after it calls the engine: the first
    checks limits and makes the inputs, the second makes the response of the outputs.
    Results are [None] for a panic, [inl] a value or [inr] an error.  An error of a check
    is never a compilation error, which is therefore no case of [check_status]. *)
From S2P Require Import Prelude GoRuntime Bitmap Arena LazyDim Dimension GlobDim Namer Policy ScopePerms IndexCore IndexQuery IndexLookup Index RuleTableBuild RuleTable Manager Eval Check CheckSpec TableSpec ManagerSpec Serving Engine PlanExpr PlanFilter PlanNode Plan AuxData.

Local Open Scope string_scope.
Local Open Scope list_scope.
Open Scope nat_scope.

(** * Messages *)

(** Limits are unsigned; [int(limit)] keeps the bits. *)
Record RequestLimits := MkLimits { MaxActionsPerResource : N; MaxResourcesPerRequest : N }.
Definition go_int (u : N) : Z := if decide (u < 2 ^ 63)%N then Z.of_N u else (Z.of_N u - 2 ^ 64)%Z.

Inductive GrpcErr :=
  | TooManyResources (n : nat) (limit : Z) | TooManyActions (n : nat) (limit : Z) | TooManyEvaluations (n : nat) (limit : Z) | InvalidAuxData
  | RequestCanceled | RequestTimeout | PolicyCheckFailed | PlanFailed.
Inductive GrpcCode := Code_InvalidArgument | Code_Canceled | Code_DeadlineExceeded | Code_Internal.
Definition grpc_code (e : GrpcErr) : GrpcCode :=
  match e with
  | TooManyResources _ _ | TooManyActions _ _ | TooManyEvaluations _ _ | InvalidAuxData => Code_InvalidArgument
  | RequestCanceled => Code_Canceled
  | RequestTimeout => Code_DeadlineExceeded
  | PolicyCheckFailed | PlanFailed => Code_Internal
  end.

(** [BatchEntry] and [ResourceEntry] *)
Record ResourceEntry := MkResourceEntry { re_Actions : list string; re_Resource : Resource_ }.
Record CheckResourcesRequest := MkCheckResources {
  cr_RequestId : string; cr_IncludeMeta : bool; cr_Principal : Principal_; cr_Resources : list ResourceEntry; cr_AuxData : option RequestAuxData;
}.
Record ResourceSet := MkResourceSet { set_Kind : string; set_PolicyVersion : string; set_Scope : string; set_Instances : gmap string (gmap string Value) }.
Record CheckResourceSetRequest := MkCheckSet {
  cs_RequestId : string; cs_Actions : list string; cs_Principal : Principal_; cs_Resource : ResourceSet; cs_IncludeMeta : bool; cs_AuxData : option RequestAuxData;
}.

Record EffectMeta := MkEffectMeta { MatchedPolicy : string; MatchedScope : string }.
Record ActionMeta := MkActionMeta { am_Actions : gmap string EffectMeta; am_EffectiveDerivedRoles : list string }.
Record ResultEntry := MkResultEntry {
  ren_Id : string; ren_Kind : string; ren_PolicyVersion : string; ren_Scope : string;
  ren_ValidationErrors : list ValidationError; ren_Actions : gmap string Effect; ren_Meta : option ActionMeta; ren_Outputs : list OutputEntry;
}.
Record ActionEffectMap := MkEffectMap { aem_ResourceId : string; aem_Actions : gmap string Effect; aem_ValidationErrors : list ValidationError }.
Record CheckResourceSetResponse := MkSetResponse { csr_RequestId : string; csr_Instances : gmap string ActionEffectMap; csr_Meta : option (gmap string ActionMeta) }.

Record PlanResourcesRequest := MkPlanRequest {
  plr_RequestId : string; plr_Action : string; plr_Actions : list string; plr_Principal : Principal_; plr_Kind : string; plr_Attr : gmap string Value;
  plr_PolicyVersion : string; plr_Scope : string; plr_AuxData : option RequestAuxData; plr_IncludeMeta : bool;
}.
Record PlanResourcesResponse := MkPlanResponse {
  prr_RequestId : string; prr_Action : string; prr_Actions : list string; prr_Kind : string; prr_PolicyVersion : string;
  prr_Filter : PlanResourcesFilter; prr_ValidationErrors : list ValidationError;
  prr_Meta : option (string * string * gmap string string);  (* filter, matched scope, matched scopes *)
}.

(** The message of auxiliary data as conditions see it. *)
Definition aux_fields (a : option EngineAuxData) : gmap string Value :=
  match a with
  | None => ∅
  | Some a => {["jwt" := V_struct (map_to_list (ea_Jwt a));
                "jwts" := V_struct ((λ p : string * gmap string Value, (p.1, V_struct [("claims", V_struct (map_to_list p.2))])) <$> map_to_list (ea_Jwts a))]}
  end.

Section service.
Context `{GlobEngine} `{CelRuntime} `{GoMapOrder} `{ContentHash} `{StringHash} `{DerivedRoleHash} `{SchemaManager} `{JwtLibrary}.

Definition checkNumResourcesLimit (lim : RequestLimits) (n : nat) : option GrpcErr :=
  if decide (Z.of_nat n > go_int (MaxResourcesPerRequest lim))%Z then Some (TooManyResources n (go_int (MaxResourcesPerRequest lim))) else None.
Definition checkNumActionsLimit (lim : RequestLimits) (n : nat) : option GrpcErr :=
  if decide (Z.of_nat n > go_int (MaxActionsPerResource lim))%Z then Some (TooManyActions n (go_int (MaxActionsPerResource lim))) else None.

(** * Checks *)

Definition check_status (e : EngineErr) : GrpcErr :=
  match e with
  | ErrContext Canceled => RequestCanceled
  | ErrContext DeadlineExceeded => RequestTimeout
  | ErrCheck _ => PolicyCheckFailed
  end.

Fixpoint entry_inputs (lim : RequestLimits) (req : CheckResourcesRequest) (aux : gmap string Value) (l : list ResourceEntry) : list CheckInput + GrpcErr :=
  match l with
  | [] => inl []
  | res :: l =>
      match checkNumActionsLimit lim (length (re_Actions res)) with
      | Some e => inr e
      | None =>
          match entry_inputs lim req aux l with
          | inr e => inr e
          | inl inputs => inl (MkCheckInput (cr_RequestId req) (re_Resource res) (cr_Principal req) (re_Actions res) aux :: inputs)
          end
      end
  end.

(** [CheckResources] and [CheckResourceBatch] up to the engine; [aux] is what
    [Extract] gives. *)
Definition CheckResources_inputs (lim : RequestLimits) (aux : option EngineAuxData + AuxErr) (req : CheckResourcesRequest) : list CheckInput + GrpcErr :=
  match checkNumResourcesLimit lim (length (cr_Resources req)) with
  | Some e => inr e
  | None => match aux with inr _ => inr InvalidAuxData | inl a => entry_inputs lim req (aux_fields a) (cr_Resources req) end
  end.

Definition effects_of (out : CheckOutput) : gmap string Effect := ei_Effect <$> co_Actions out.
Definition effect_metas (out : CheckOutput) : gmap string EffectMeta := (λ i, MkEffectMeta (ei_Policy i) (ei_Scope i)) <$> co_Actions out.

(** An entry of the response. *)
Definition result_entry (includeMeta : bool) (resource : Resource_) (out : CheckOutput) : ResultEntry :=
  MkResultEntry (rs_Id resource) (rs_Kind resource) (rs_PolicyVersion resource) (rs_Scope resource) (co_ValidationErrors out) (effects_of out)
    (if includeMeta then Some (MkActionMeta (effect_metas out) (co_EffectiveDerivedRoles out)) else None) (co_Outputs out).

(** The loop over the outputs; a nil output or a missing input is a panic. *)
Fixpoint zip_outputs {A} (f : CheckInput → CheckOutput → A) (inputs : list CheckInput) (outs : list (option CheckOutput)) : option (list A) :=
  match outs, inputs with
  | [], _ => Some []
  | Some out :: outs, input :: inputs => l ← zip_outputs f inputs outs; Some (f input out :: l)
  | _, _ => None
  end.

Definition CheckResources_response (req : CheckResourcesRequest) (inputs : list CheckInput) (r : (list (option CheckOutput) * gmap string string) + EngineErr) :
    option (list ResultEntry + GrpcErr) :=
  match r with
  | inr e => Some (inr (check_status e))
  | inl (outs, _) => l ← zip_outputs (λ input out, result_entry (cr_IncludeMeta req) (ci_Resource input) out) inputs outs; Some (inl l)
  end.

(** The whole handler; [eng] is what the engine's [Check] returns for the inputs. *)
Definition CheckResources (lim : RequestLimits) (aux : option EngineAuxData + AuxErr) (req : CheckResourcesRequest)
    (eng : list CheckInput → (list (option CheckOutput) * gmap string string) + EngineErr) : option (list ResultEntry + GrpcErr) :=
  match CheckResources_inputs lim aux req with
  | inr e => Some (inr e)
  | inl inputs => CheckResources_response req inputs (eng inputs)
  end.

Definition CheckResourceBatch_response (inputs : list CheckInput) (r : (list (option CheckOutput) * gmap string string) + EngineErr) :
    option (list ActionEffectMap + GrpcErr) :=
  match r with
  | inr _ => Some (inr PolicyCheckFailed)
  | inl (outs, _) => l ← zip_outputs (λ input out, MkEffectMap (rs_Id (ci_Resource input)) (effects_of out) (co_ValidationErrors out)) inputs outs; Some (inl l)
  end.

(** [CheckResourceSet]: the instances in the order of the map, and their keys. *)
Definition set_input (req : CheckResourceSetRequest) (aux : gmap string Value) (key : string) (attr : gmap string Value) : CheckInput :=
  MkCheckInput (cs_RequestId req) (MkResource (set_Kind (cs_Resource req)) (set_PolicyVersion (cs_Resource req)) key attr (set_Scope (cs_Resource req)))
    (cs_Principal req) (cs_Actions req) aux.
Definition CheckResourceSet_inputs (lim : RequestLimits) (aux : option EngineAuxData + AuxErr) (req : CheckResourceSetRequest) :
    (list CheckInput * list string) + GrpcErr :=
  match checkNumResourcesLimit lim (size (set_Instances (cs_Resource req))) with
  | Some e => inr e
  | None =>
      match checkNumActionsLimit lim (length (cs_Actions req)) with
      | Some e => inr e
      | None =>
          match aux with
          | inr _ => inr InvalidAuxData
          | inl a => let l := go_range (set_Instances (cs_Resource req)) in inl ((λ '(key, attr), set_input req (aux_fields a) key attr) <$> l, l.*1)
          end
      end
  end.

Definition newCheckResourceSetResponseBuilder (req : CheckResourceSetRequest) : CheckResourceSetResponse :=
  MkSetResponse (cs_RequestId req) ∅ (if cs_IncludeMeta req then Some ∅ else None).
Definition addResultMeta (resourceKey : string) (result : CheckOutput) (m : gmap string ActionMeta) : gmap string ActionMeta :=
  <[resourceKey := MkActionMeta (effect_metas result) (co_EffectiveDerivedRoles result)]> m.
Definition addResult (resp : CheckResourceSetResponse) (resourceKey : string) (result : CheckOutput) : CheckResourceSetResponse :=
  MkSetResponse (csr_RequestId resp) (<[resourceKey := MkEffectMap "" (effects_of result) (co_ValidationErrors result)]> (csr_Instances resp))
    (addResultMeta resourceKey result <$> csr_Meta resp).

Fixpoint add_results (resp : CheckResourceSetResponse) (idxToKey : list string) (outs : list (option CheckOutput)) : option CheckResourceSetResponse :=
  match outs, idxToKey with
  | [], _ => Some resp
  | Some out :: outs, key :: idxToKey => add_results (addResult resp key out) idxToKey outs
  | _, _ => None
  end.
Definition CheckResourceSet_response (req : CheckResourceSetRequest) (idxToKey : list string) (r : (list (option CheckOutput) * gmap string string) + EngineErr) :
    option (CheckResourceSetResponse + GrpcErr) :=
  match r with
  | inr _ => Some (inr PolicyCheckFailed)
  | inl (outs, _) => resp ← add_results (newCheckResourceSetResponseBuilder req) idxToKey outs; Some (inl resp)
  end.

Definition CheckResourceSet (lim : RequestLimits) (aux : option EngineAuxData + AuxErr) (req : CheckResourceSetRequest)
    (eng : list CheckInput → (list (option CheckOutput) * gmap string string) + EngineErr) : option (CheckResourceSetResponse + GrpcErr) :=
  match CheckResourceSet_inputs lim aux req with
  | inr e => Some (inr e)
  | inl (inputs, idxToKey) => CheckResourceSet_response req idxToKey (eng inputs)
  end.
End service.

(** * Plans *)

Section plans.
Context `{GlobEngine} `{CelRuntime} `{GoMapOrder} `{ContentHash} `{StringHash} `{DerivedRoleHash}.
Context `{ProtoText} `{OperandText} `{NodeHash} `{CelPartial} `{PlanSchemaManager} `{JwtLibrary}.

Inductive EnginePlanErr := PlanContext (e : CtxErr) | PlanError (e : PlanErr).

(** [Engine.doPlan] *)
Definition doPlan (cancelled : option CtxErr) (opts : EvalParams) (input : PlanInput) (rt : RuleTable) (cache : ExprCache) :
    option ((PlanResourcesOutput * gmap string string + EnginePlanErr) * (RuleTable * ExprCache)) :=
  match cancelled with
  | Some e => Some (inr (PlanContext e), (rt, cache))
  | None => '(r, st) ← planWithAuditTrail rt cache opts input; Some (match r with inl x => inl x | inr e => inr (PlanError e) end, st)
  end.

(** The deprecated field with one action takes the place of the others. *)
Definition plan_request_actions (request : PlanResourcesRequest) : list string :=
  if decide (plr_Action request ≠ "") then [plr_Action request] else plr_Actions request.
Definition PlanResources_input (aux : option EngineAuxData + AuxErr) (request : PlanResourcesRequest) : PlanInput + GrpcErr :=
  match aux with
  | inr _ => inr InvalidAuxData
  | inl a =>
      inl (MkPlanInput (plr_RequestId request) (plan_request_actions request) (plr_Principal request) (plr_Kind request) (plr_Attr request)
        (plr_PolicyVersion request) (plr_Scope request) (aux_fields a))
  end.

Definition PlanResources_response (request : PlanResourcesRequest) (r : PlanResourcesOutput * gmap string string + EnginePlanErr) : PlanResourcesResponse + GrpcErr :=
  match r with
  | inr (PlanContext Canceled) => inr RequestCanceled
  | inr (PlanContext DeadlineExceeded) => inr RequestTimeout
  | inr (PlanError _) => inr PlanFailed
  | inl (output, _) =>
      let oneAction := plr_Action request in
      inl (MkPlanResponse (plr_RequestId request) oneAction (if decide (oneAction = "") then plan_request_actions request else []) (plr_Kind request)
        (plr_PolicyVersion request) (po_Filter output) (po_ValidationErrors output)
        (if plr_IncludeMeta request then
           Some (po_FilterDebug output, if decide (oneAction = "") then "" else default "" (po_MatchedScopes output !! oneAction),
                 if decide (oneAction = "") then po_MatchedScopes output else ∅)
         else None))
  end.
End plans.
