(* ===== verification/IndexMarshal.v ===== *)
(** Serialisation of the rule index: [src/internal/ruletable/index/marshal.go].

    The messages are those of [runtime.proto]; the generated encoding of a message
    to bytes is the parameter [IndexCodec], and the conversion of constants to
    protobuf values the parameter [StructValues].  Deduplication of strings
    ([string_dedup.go]) replaces strings by equal ones and is left out. *)
From S2P Require Import Prelude GoRuntime Bitmap BitmapOps BitmapIter Arena LazyDim Dimension GlobDim Namer Policy IndexCore IndexQuery IndexQuerySpec Index IndexSpec ParentRoles.

Local Open Scope list_scope.
Open Scope nat_scope.

(** * Messages *)

Record EntryPB := MkEntryPB { en_Key : string; en_Bitmap : list N }.
Record GlobDimensionPB := MkGlobPB { gp_Literals : list EntryPB; gp_Globs : list EntryPB }.
Inductive ActionSetPB :=
  | AS_Action (action : string)
  | AS_AllowActions (actions : list string).
Record BindingPB := MkBindingPB {
  bp_Id : N; bp_CoreIndex : N;
  bp_Role : string; bp_Scope : string; bp_Version : string; bp_Resource : string; bp_Principal : string;
  bp_OriginFqn : string; bp_OriginDerivedRole : string; bp_Name : string;
  bp_EvaluationKey : string; bp_EvaluationKeyTuple : option EvaluationKeyTuplePB;
  bp_ActionSet : option ActionSetPB;
}.
Record FunctionalCorePB := MkCorePB {
  cp_Effect : Effect; cp_Condition : option Condition; cp_DerivedRoleCondition : option Condition;
  cp_EmitOutput : option Output; cp_ScopePermissions : ScopePermissions; cp_PolicyKind : Kind;
  cp_FromRolePolicy : bool; cp_Params : option Params; cp_DerivedRoleParams : option Params;
}.
Record ParentsPB := MkParents { pa_Parents : list string }.
Record RoleParentsPB := MkRoleParents { rp_Roles : gmap string ParentsPB }.
Record BitmapIndexPB := MkIndexPB {
  ip_Version : list EntryPB; ip_Scope : list EntryPB;
  ip_Role : option GlobDimensionPB; ip_Action : option GlobDimensionPB; ip_Resource : option GlobDimensionPB;
  ip_PolicyKind : gmap nat (list N); ip_Principal : list EntryPB;
  ip_Universe : list N; ip_AllowActionsBitmap : list N;
  ip_Bindings : list BindingPB; ip_Cores : list FunctionalCorePB;
  ip_ParentRoles : gmap string RoleParentsPB;
}.

(** [MarshalVT] and [UnmarshalVT] of the message; [None] is an error. *)
Class IndexCodec := {
  wire : Type;
  MarshalVT : BitmapIndexPB → option wire;
  UnmarshalVT : wire → option BitmapIndexPB;
}.
Class IndexCodecLaws `{IndexCodec} := codec_roundtrip msg : ∃ data, MarshalVT msg = Some data ∧ UnmarshalVT data = Some msg.

(** [structpb.NewStruct(constants).GetFields()] *)
Class StructValues := NewStruct : gmap string Value → option (gmap string Value).
(** What was a protobuf value becomes the same value again. *)
Class StructValuesLaws `{StructValues} := NewStruct_values constants : NewStruct constants = Some constants.

Section marshal.
Context `{GlobEngine} `{CelCompiler} `{GoMapOrder} `{ContentHash} `{IndexCodec} `{StructValues}.

Inductive MarshalErr := ErrConstants | ErrProto | ErrBitmap (key : string) | ErrPattern (key : string) | ErrParams.

(** A loop over a list that appends to a result; an error ends it. *)
Fixpoint collect {A B} (f : A → option (B + MarshalErr)) (l : list A) : option (list B + MarshalErr) :=
  match l with
  | [] => Some (inl [])
  | x :: l =>
      r ← f x;
      match r with
      | inr e => Some (inr e)
      | inl y => rest ← collect f l; Some (match rest with inl ys => inl (y :: ys) | inr e => inr e end)
      end
  end.
(** The rest of a function after a step that may fail. *)
Definition try {A B} (m : option (A + MarshalErr)) (k : A → option (B + MarshalErr)) : option (B + MarshalErr) :=
  r ← m; match r with inl x => k x | inr e => Some (inr e) end.

(** * Marshalling *)

Definition marshalRowParams (rp : RowParams) : Params + MarshalErr :=
  if decide (size (rp_Constants rp) = 0) then inl (MkParams (rp_Variables rp) ∅)
  else match NewStruct (rp_Constants rp) with
       | Some constants => inl (MkParams (rp_Variables rp) constants)
       | None => inr ErrConstants
       end.
Definition marshalParams (rp : option RowParams) : option Params + MarshalErr :=
  match rp with
  | None => inl None
  | Some rp => match marshalRowParams rp with inl p => inl (Some p) | inr e => inr e end
  end.
Definition marshalCore (c : FunctionalCore) : FunctionalCorePB + MarshalErr :=
  match marshalParams (co_Params c) with
  | inr e => inr e
  | inl p =>
      match marshalParams (co_DerivedRoleParams c) with
      | inr e => inr e
      | inl dp => inl (MkCorePB (co_Effect c) (co_Condition c) (co_DerivedRoleCondition c) (co_EmitOutput c)
                         (co_ScopePermissions c) (co_PolicyKind c) (co_FromRolePolicy c) p dp)
      end
  end.

(** The position of a core among [cores], and 0 for a core that is not there.  Two
    pointers to cores are equal when their sets of origins are the same cell. *)
Fixpoint position (o : option N) (cores : list FunctionalCore) : option nat :=
  match cores with
  | [] => None
  | c :: cores => if decide (co_origins c = o) then Some 0 else S <$> position o cores
  end.
Definition coreIndex (cores : list FunctionalCore) (c : FunctionalCore) : N :=
  (N.of_nat (default 0%nat (position (co_origins c) cores)) mod 2 ^ 32)%N.

Definition marshalBinding (b : BindingHandle) (cores : list FunctionalCore) (key : EvaluationKeyTuple) : BindingPB :=
  MkBindingPB (bh_ID b) (coreIndex cores (bh_Core b))
    (HandleStr (bh_Role b)) (HandleStr (bh_Scope b)) (HandleStr (bh_Version b)) (HandleStr (bh_Resource b)) (HandleStr (bh_Principal b))
    (HandleStr (bh_OriginFqn b)) (HandleStr (bh_OriginDerivedRole b)) (HandleStr (bh_Name b))
    "" (Some (EvaluationKeyTuple_toProto key))
    (match bh_AllowActions b with
     | Some actions => Some (AS_AllowActions (set_range actions))
     | None => AS_Action <$> bh_Action b
     end).

Definition marshalEntries (m : gmap string Bitmap) : list EntryPB :=
  (λ '(k, bm), MkEntryPB k (Bitmap_MarshalBinary bm)) <$> go_range m.
Definition marshalLazyEntries (d : lazyDimension) : option (list EntryPB + MarshalErr) :=
  lazyDimension_forEachBitmap d (λ entries key bm, Some (inl (entries ++ [MkEntryPB key (Bitmap_MarshalBinary bm)]))) [].
Definition marshalGlobDimension (gd : globDimension) : option (GlobDimensionPB + MarshalErr) :=
  try (marshalLazyEntries (literals gd)) (λ lits,
  try (marshalLazyEntries (globs gd)) (λ globs,
  Some (inl (MkGlobPB lits globs)))).

(** A nil map and an empty one read the same. *)
Definition marshalParentRoles (parentRoles : gmap string (gmap string (list string))) : gmap string RoleParentsPB :=
  (λ roleMap, MkRoleParents (MkParents <$> roleMap)) <$> parentRoles.

Definition Marshal (m : Index) : option (wire + MarshalErr) :=
  let bi := bi m in
  let cores := (go_range (coresBySum bi)).*2 in
  try (collect (λ c, Some (marshalCore c)) cores) (λ pbCores,
  pbBindings ← mapM (λ b, key ← evalKey bi (bh_ID b); Some (marshalBinding b cores key)) (omap id (bindings bi));
  try (marshalLazyEntries (principal bi)) (λ principal,
  try (marshalGlobDimension (role bi)) (λ role,
  try (marshalGlobDimension (action bi)) (λ action,
  try (marshalGlobDimension (resource bi)) (λ resource,
  Some (match MarshalVT (MkIndexPB (marshalEntries (version bi)) (marshalEntries (scope bi)) (Some role) (Some action) (Some resource)
                 (list_to_map ((λ '(k, bm), (Kind_number k, Bitmap_MarshalBinary bm)) <$> go_range (policyKind bi))) principal
                 (Bitmap_MarshalBinary (universe bi)) (Bitmap_MarshalBinary (allowActionsBitmap bi)) pbBindings pbCores (marshalParentRoles (parentRoles m))) with
        | Some data => inl data
        | None => inr ErrProto
        end)))))).

(** * Unmarshalling *)

Definition bitmapFromBytes (key : string) (data : list N) : option (Bitmap + MarshalErr) :=
  match data with
  | [] => Some (inl NewBitmap)
  | _ => r ← Bitmap_UnmarshalBinary data; Some (match r with Some (_, bm) => inl bm | None => inr (ErrBitmap key) end)
  end.

(** A loop that stops at the first error. *)
Fixpoint fold_err {A S} (body : S → A → option (S + MarshalErr)) (s : S) (l : list A) : option (S + MarshalErr) :=
  match l with
  | [] => Some (inl s)
  | x :: l => try (body s x) (λ s, fold_err body s l)
  end.

Definition unmarshalEntries (entries : list EntryPB) : option (gmap string Bitmap + MarshalErr) :=
  fold_err (λ d e, try (bitmapFromBytes (en_Key e) (en_Bitmap e)) (λ bm, Some (inl (<[en_Key e := bm]> d)))) ∅ entries.

Definition unmarshalLazyEntries (entries : list EntryPB) : option (lazyDimension + MarshalErr) :=
  fold_err (λ d e, try (bitmapFromBytes (en_Key e) (en_Bitmap e)) (λ bm,
    d ← lazyDimension_setFromBitmap d (en_Key e) bm; Some (inl d))) newLazyDimension entries.

(** A nil message has no fields: reading one panics. *)
Definition unmarshalGlobDimension (pb : option GlobDimensionPB) : option (globDimension + MarshalErr) :=
  pb ← pb;
  try (unmarshalLazyEntries (gp_Literals pb)) (λ literals,
  fold_err (λ gd e,
    try (bitmapFromBytes (en_Key e) (en_Bitmap e)) (λ bm,
    match GetOrCompileGlob (en_Key e) with
    | None => Some (inr (ErrPattern (en_Key e)))
    | Some g =>
        d ← lazyDimension_setFromBitmap (globs gd) (en_Key e) bm;
        Some (inl (MkGlobDim (GlobDim.literals gd) d (<[en_Key e := g]> (compiled gd))))
    end)) (MkGlobDim literals newLazyDimension ∅) (gp_Globs pb)).

(** Numbers of kinds this version does not know are not kept by the model. *)
Definition unmarshalKinds (m : gmap nat (list N)) : option (gmap Kind Bitmap + MarshalErr) :=
  fold_err (λ d '(k, data), try (bitmapFromBytes "" data) (λ bm,
    Some (inl (match Kind_of_number k with Some k => <[k := bm]> d | None => d end)))) ∅ (go_range m).

(** The caches of parameters, and the cells for their reference counts. *)
Record UnmarshalState := MkUS {
  us_params : gmap N RowParams; us_drParams : gmap N RowParams; us_refcounts : gmap N Z; us_next : N;
}.
(** Parameters of a core; [None] is an expression that does not compile. *)
Definition unmarshalParams (cache : gmap N RowParams) (rc : gmap N Z) (next : N) (pb : option Params) :
    option (option RowParams) * gmap N RowParams * gmap N Z * N :=
  match pb with
  | None => (Some None, cache, rc, next)
  | Some _ => let '(p, cache, rc, next) := getOrGenerateParams cache pb rc next in (Some <$> p, cache, rc, next)
  end.
Definition unmarshalCore (s : UnmarshalState) (pc : FunctionalCorePB) : (UnmarshalState * FunctionalCore) + MarshalErr :=
  let '(p, cache, rc, next) := unmarshalParams (us_params s) (us_refcounts s) (us_next s) (cp_Params pc) in
  match p with
  | None => inr ErrParams
  | Some p =>
      let '(dp, drCache, rc, next) := unmarshalParams (us_drParams s) rc next (cp_DerivedRoleParams pc) in
      match dp with
      | None => inr ErrParams
      | Some dp => inl (MkUS cache drCache rc next,
          MkCore (cp_Condition pc) (cp_DerivedRoleCondition pc) (cp_EmitOutput pc) p dp None 0
            (cp_Effect pc) (cp_ScopePermissions pc) (cp_PolicyKind pc) (cp_FromRolePolicy pc))
      end
  end.
Fixpoint unmarshalCores (s : UnmarshalState) (pbCores : list FunctionalCorePB) : (UnmarshalState * list FunctionalCore) + MarshalErr :=
  match pbCores with
  | [] => inl (s, [])
  | pc :: pbCores =>
      match unmarshalCore s pc with
      | inr e => inr e
      | inl (s, c) => match unmarshalCores s pbCores with inl (s, cs) => inl (s, c :: cs) | inr e => inr e end
      end
  end.

Definition unmarshalBinding (cores : list FunctionalCore) (pb : BindingPB) : option BindingHandle :=
  core ← cores !! N.to_nat (bp_CoreIndex pb);
  let b := MkBinding (mkStringHandle (bp_Resource pb)) (mkStringHandle (bp_OriginDerivedRole pb)) EmptyHandle
             (mkStringHandle (bp_Role pb)) (mkStringHandle (bp_Scope pb)) (mkStringHandle (bp_Version pb))
             (mkStringHandle (bp_Principal pb)) (mkStringHandle (bp_Name pb)) None (mkStringHandle (bp_OriginFqn pb))
             core [] (bp_Id pb) false in
  Some (match bp_ActionSet pb with
        | Some (AS_AllowActions actions) => setAllowActions b actions
        | Some (AS_Action a) => set_Action b (mkStringHandle a)
        | None => b
        end).
Definition maxID (pbBindings : list BindingPB) : N := foldl (λ m pb, if decide (m < bp_Id pb)%N then bp_Id pb else m) 0%N pbBindings.
(** The slices have [maxID + 1] elements, a sum of 32 bits. *)
Definition unmarshalBindings (pbBindings : list BindingPB) (cores : list FunctionalCore) :
    option (list (option BindingHandle) * list EvaluationKeyTuple) :=
  match pbBindings with
  | [] => Some ([], [])
  | _ =>
      let n := N.to_nat ((maxID pbBindings + 1) mod 2 ^ 32) in
      foldM (λ '(bindings, evalKeys) pb,
        b ← unmarshalBinding cores pb;
        bindings ← list_set bindings (N.to_nat (bp_Id pb)) (Some b);
        evalKeys ← list_set evalKeys (N.to_nat (bp_Id pb)) (makeEvaluationKeyTuple (bp_EvaluationKeyTuple pb) (bp_EvaluationKey pb));
        Some (bindings, evalKeys)) (replicate n None, replicate n zeroKey) pbBindings
  end.

Definition unmarshalParentRoles (pb : gmap string RoleParentsPB) : gmap string (gmap string (list string)) :=
  (λ srp, pa_Parents <$> rp_Roles srp) <$> pb.

Definition Unmarshal (data : wire) : option (Index + MarshalErr) :=
  match UnmarshalVT data with
  | None => Some (inr ErrProto)
  | Some msg =>
      match unmarshalCores (MkUS ∅ ∅ ∅ 0) (ip_Cores msg) with
      | inr e => Some (inr e)
      | inl (s, cores) =>
          '(bindings, evalKeys) ← unmarshalBindings (ip_Bindings msg) cores;
          try (unmarshalEntries (ip_Version msg)) (λ version,
          try (unmarshalEntries (ip_Scope msg)) (λ scope,
          try (unmarshalKinds (ip_PolicyKind msg)) (λ policyKind,
          try (unmarshalLazyEntries (ip_Principal msg)) (λ principal,
          try (unmarshalGlobDimension (ip_Role msg)) (λ role,
          try (unmarshalGlobDimension (ip_Action msg)) (λ action,
          try (unmarshalGlobDimension (ip_Resource msg)) (λ resource,
          try (bitmapFromBytes "" (ip_Universe msg)) (λ universe,
          try (bitmapFromBytes "" (ip_AllowActionsBitmap msg)) (λ allowActionsBitmap,
          Some (inl (MkIdx (MkIndex action ∅ version scope role policyKind resource newFqnDimension principal universe
                              allowActionsBitmap [] bindings evalKeys)
                       (unmarshalParentRoles (ip_ParentRoles msg)) ∅ ∅ ∅ (us_refcounts s) (us_next s))))))))))))
      end
  end.
End marshal.

(** * What the copy has in common with the original

    The copy has the same bindings under the same identifiers, well-formed dimensions
    over them, and the same parent roles, so that queries on it return what they
    return on the original. *)

Section spec.
Context `{GlobEngine} `{CelCompiler} `{GoMapOrder} `{ContentHash} `{IndexCodec} `{StructValues} `{!IndexCodecLaws} `{!StructValuesLaws}.

(** * Loops *)

Lemma try_inl {A B} (m : option (A + MarshalErr)) (k : A → option (B + MarshalErr)) x : m = Some (inl x) → try m k = k x.
Proof. by intros ->. Qed.

(** The loop rule: every step succeeds. *)
Lemma fold_err_rule {A S} (I : list A → S → Prop) (body : S → A → option (S + MarshalErr)) l s :
  I [] s →
  (∀ done x rest s, l = done ++ x :: rest → I done s → ∃ s', body s x = Some (inl s') ∧ I (done ++ [x]) s') →
  ∃ s', fold_err body s l = Some (inl s') ∧ I l s'.
Proof.
  intros H0' Hstep.
  assert (∀ rest done s, l = done ++ rest → I done s → ∃ s', fold_err body s rest = Some (inl s') ∧ I l s') as Hgen.
  { intros rest. induction rest as [|x rest IH]; intros done s0 Hl HI.
    - rewrite app_nil_r in Hl. subst. by exists s0.
    - destruct (Hstep done x rest s0 Hl HI) as (s1 & E & HI1). cbn [fold_err]. rewrite (try_inl _ _ _ E).
      apply (IH (done ++ [x])); [|done]. by rewrite <-app_assoc. }
  by apply (Hgen l []).
Qed.

(** * Bitmaps *)

Lemma bitmapFromBytes_runs key bm : Bitmap_ok bm → bitmapFromBytes key (Bitmap_MarshalBinary bm) = Some (inl (trim bm)).
Proof.
  intros Hb. unfold bitmapFromBytes. pose proof (Unmarshal_Marshal bm [] Hb) as E. rewrite app_nil_r in E.
  destruct (Bitmap_MarshalBinary bm) as [|x l] eqn:Em.
  - exfalso. assert (length (Bitmap_MarshalBinary bm) = 0) as Hl by by rewrite Em. unfold Bitmap_MarshalBinary in Hl.
    rewrite !length_app in Hl. unfold PutUint32 in Hl. rewrite length_le_bytes in Hl. lia.
  - by rewrite E.
Qed.

(** The entries of a message that stand for the relation [mem]. *)
Record entries_for (mem : string → N → bool) (l : list EntryPB) : Prop := {
  ef_nodup : NoDup (en_Key <$> l);
  ef_bitmap : ∀ e, e ∈ l → ∃ bm, Bitmap_ok bm ∧ en_Bitmap e = Bitmap_MarshalBinary bm ∧
    (∀ id, bm_mem bm id = mem (en_Key e) id) ∧ ∃ id, bm_mem bm id = true;
  ef_keys : ∀ k id, mem k id = true → k ∈ en_Key <$> l;
}.

Lemma entries_read mem l e key : entries_for mem l → e ∈ l →
  ∃ bm, bitmapFromBytes key (en_Bitmap e) = Some (inl bm) ∧ Bitmap_ok bm ∧ (∀ id, bm_mem bm id = mem (en_Key e) id) ∧ ∃ id, bm_mem bm id = true.
Proof.
  intros Hl He. destruct (ef_bitmap _ _ Hl e He) as (bm & Hb & Ee & Hm & id & Hid). exists (trim bm).
  destruct (trim_ok bm Hb) as [Ht Htm]. rewrite Ee, bitmapFromBytes_runs by done. split_and!; [done..| |].
  - intros id'. by rewrite Htm.
  - exists id. by rewrite Htm.
Qed.

Lemma marshalLazyEntries_runs d : lazy_ok d → ∃ l, marshalLazyEntries d = Some (inl l) ∧ entries_for (lazy_mem d) l.
Proof.
  intros Hd. unfold marshalLazyEntries, lazyDimension_forEachBitmap. set (fn := λ _ _ _, _).
  assert (∀ rest acc, (∀ k st, (k, st) ∈ rest → d !! k = Some st) → ∃ l', forEachBitmap_loop fn acc rest = Some (inl (acc ++ l')) ∧
    en_Key <$> l' = rest.*1 ∧ ∀ e, e ∈ l' → ∃ bm st, (en_Key e, st) ∈ rest ∧ Bitmap_ok bm ∧ en_Bitmap e = Bitmap_MarshalBinary bm ∧
      ∀ id, bm_mem bm id = state_mem st id) as Hgen.
  { induction rest as [|[k st] rest IH]; intros acc Hr.
    - exists []. split_and!; [by rewrite app_nil_r|done|by intros e ?%elem_of_nil].
    - cbn [forEachBitmap_loop]. assert (state_ok st) as Hst by (apply (Hd k); apply Hr; left).
      destruct (state_bitmap_runs st Hst) as (bm & -> & Hb & Hm). rewrite bind_some. change (fn acc k bm) with (Some (inl (acc ++ [MkEntryPB k (Bitmap_MarshalBinary bm)]) : list EntryPB + MarshalErr)). rewrite bind_some.
      destruct (IH (acc ++ [MkEntryPB k (Bitmap_MarshalBinary bm)])) as (l' & E & Hk & He); [intros k' st' Hin; apply Hr; by right|].
      exists (MkEntryPB k (Bitmap_MarshalBinary bm) :: l'). split_and!.
      + by rewrite E, <-app_assoc.
      + cbn. by rewrite Hk.
      + intros e [->|He']%elem_of_cons; [exists bm, st; split_and!; [left|done..]|].
        destruct (He e He') as (bm' & st' & ? & ? & ? & ?). exists bm', st'. split_and!; [by right|done..]. }
  destruct (Hgen (go_range d) []) as (l & E & Hk & He); [intros k st; by rewrite elem_of_go_range|]. exists l. split; [exact E|]. split.
  - rewrite Hk. apply NoDup_go_range_keys.
  - intros e Hin. destruct (He e Hin) as (bm & st & Hin' & Hb & Eb & Hm). exists bm. apply elem_of_go_range in Hin'.
    split_and!; [done..| |].
    + intros id. by rewrite Hm, (lazy_mem_lookup _ _ _ _ Hin').
    + destruct (sok_ne _ (Hd _ _ Hin')) as [id Hid]. exists id. by rewrite Hm.
  - intros k id Hmem. rewrite Hk, elem_of_go_range_keys. apply lazy_has_iff; eauto.
Qed.

Lemma marshalEntries_for m : dim_ok m → entries_for (dim_mem m) (marshalEntries m).
Proof.
  intros Hm. assert (en_Key <$> marshalEntries m = (go_range m).*1) as Hk.
  { unfold marshalEntries. rewrite <-list_fmap_compose. apply list_fmap_ext. by intros _ [k bm] _. }
  split.
  - rewrite Hk. apply NoDup_go_range_keys.
  - intros e ([k bm] & -> & Hin%elem_of_go_range)%list_elem_of_fmap. destruct (Hm _ _ Hin) as [Hb Hn]. exists bm. cbn.
    split_and!; [done..| |done]. intros id. unfold dim_mem. by rewrite Hin.
  - intros k id Hmem. rewrite Hk, elem_of_go_range_keys. apply dim_has_iff; eauto.
Qed.

(** The relation up to the entries read so far. *)
Definition read_so_far (mem : string → N → bool) (done : list EntryPB) (k : string) (id : N) : bool :=
  bool_decide (k ∈ en_Key <$> done) && mem k id.
Lemma read_more mem done e k id :
  read_so_far mem (done ++ [e]) k id = if decide (en_Key e = k) then mem (en_Key e) id else read_so_far mem done k id.
Proof.
  unfold read_so_far. rewrite fmap_app. cbn [fmap list_fmap]. case_decide as E.
  - subst. rewrite bool_decide_true; [done|]. rewrite elem_of_app. right. left.
  - f_equal. apply bool_decide_ext. rewrite elem_of_app, list_elem_of_singleton. naive_solver.
Qed.
Lemma read_all mem l k id : entries_for mem l → read_so_far mem l k id = mem k id.
Proof.
  intros Hl. unfold read_so_far. destruct (mem k id) eqn:E; [|by rewrite andb_false_r].
  rewrite bool_decide_true; [done|]. by eapply ef_keys.
Qed.

Lemma unmarshalLazyEntries_runs mem l : entries_for mem l →
  ∃ d, unmarshalLazyEntries l = Some (inl d) ∧ lazy_ok d ∧ (∀ k id, lazy_mem d k id = mem k id) ∧ ∀ k, is_Some (d !! k) → k ∈ en_Key <$> l.
Proof.
  intros Hl. unfold unmarshalLazyEntries.
  edestruct (fold_err_rule (λ done d, lazy_ok d ∧ (∀ k id, lazy_mem d k id = read_so_far mem done k id))) as (d & E & Hd & Hm).
  3: { exists d. split_and!; [exact E|done|intros; rewrite Hm; by apply read_all|].
    intros k (id & Hid)%lazy_has_iff; [|done]. rewrite Hm in Hid. apply andb_true_iff in Hid as [Hk _]. by apply bool_decide_eq_true in Hk. }
  { split; [apply newLazyDimension_ok|]. intros k id. done. }
  intros done e rest d El [Hd Hm]. destruct (entries_read mem l e (en_Key e) Hl) as (bm & Eb & Hb & Hbm & Hn).
  { rewrite El. apply elem_of_app. right. left. }
  rewrite (try_inl _ _ _ Eb). destruct (lazy_setFromBitmap_runs d (en_Key e) bm Hd Hb Hn) as (d' & -> & Hd' & Hm').
  exists d'. split; [done|]. split; [done|]. intros k id. rewrite Hm', read_more. case_decide; [by rewrite Hbm|done].
Qed.

Lemma unmarshalEntries_runs mem l : entries_for mem l →
  ∃ d, unmarshalEntries l = Some (inl d) ∧ dim_ok d ∧ ∀ k id, dim_mem d k id = mem k id.
Proof.
  intros Hl. unfold unmarshalEntries.
  edestruct (fold_err_rule (λ done d, dim_ok d ∧ (∀ k id, dim_mem d k id = read_so_far mem done k id))) as (d & E & Hd & Hm).
  3: { exists d. split_and!; [exact E|done|]. intros; rewrite Hm; by apply read_all. }
  { split; [apply (newDimension_ok (T := string))|]. intros k id. done. }
  intros done e rest d El [Hd Hm]. destruct (entries_read mem l e (en_Key e) Hl) as (bm & Eb & Hb & Hbm & Hn).
  { rewrite El. apply elem_of_app. right. left. }
  rewrite (try_inl _ _ _ Eb). eexists. split; [done|]. split; [by apply dim_ok_insert|].
  intros k id. rewrite dim_mem_insert, read_more. case_decide; [by rewrite Hbm|done].
Qed.
(** * Dimensions *)

Lemma glob_roundtrip gd : gd_ok gd →
  ∃ pb gd', marshalGlobDimension gd = Some (inl pb) ∧ unmarshalGlobDimension (Some pb) = Some (inl gd') ∧ gd_ok gd' ∧
    ∀ k id, gd_mem gd' k id = gd_mem gd k id.
Proof.
  intros Hg. unfold marshalGlobDimension.
  destruct (marshalLazyEntries_runs _ (gok_literals gd Hg)) as (lits & El & Hlits).
  destruct (marshalLazyEntries_runs _ (gok_globs gd Hg)) as (gls & Eg & Hgls).
  rewrite (try_inl _ _ _ El), (try_inl _ _ _ Eg). exists (MkGlobPB lits gls). unfold unmarshalGlobDimension. rewrite bind_some. cbn [gp_Literals gp_Globs].
  destruct (unmarshalLazyEntries_runs _ _ Hlits) as (dl & Edl & Hdl & Hml & Hkl). rewrite (try_inl _ _ _ Edl).
  assert (∀ e, e ∈ gls → IsGlob (en_Key e) = true ∧ ∃ g, GetOrCompileGlob (en_Key e) = Some g) as Hcomp.
  { intros e He. destruct (ef_bitmap _ _ Hgls e He) as (bm & _ & _ & Hm & id & Hid). rewrite Hm in Hid.
    assert (is_Some (globs gd !! en_Key e)) as Hk by (apply lazy_has_iff; [apply Hg|eauto]).
    destruct (gok_globs_compiled gd Hg _ Hk) as [q Hq]. apply (gok_compiled gd Hg) in Hq as (_ & ? & ?). eauto. }
  match goal with |- context [fold_err ?body ?s0 gls] => edestruct (fold_err_rule (λ done gd', literals gd' = dl ∧ lazy_ok (globs gd') ∧
    (∀ k id, lazy_mem (globs gd') k id = read_so_far (lazy_mem (globs gd)) done k id) ∧
    ∀ k q, compiled gd' !! k = Some q ↔ k ∈ en_Key <$> done ∧ GetOrCompileGlob k = Some q) body gls s0) as (gd' & E & Hl & Hd & Hm & Hc) end.
  { split_and!; [done|apply newLazyDimension_ok|done|]. intros k q. cbn [compiled]. rewrite lookup_empty. split; [done|]. intros [?%elem_of_nil _]. done. }
  { intros done e rest d Eq (Hl & Hd & Hm & Hc). assert (e ∈ gls) as He by (rewrite Eq; apply elem_of_app; right; left).
    destruct (entries_read _ _ e (en_Key e) Hgls He) as (bm & Eb & Hb & Hbm & Hn). destruct (Hcomp e He) as (_ & g & Eg').
    rewrite (try_inl _ _ _ Eb), Eg'. destruct (lazy_setFromBitmap_runs (globs d) (en_Key e) bm Hd Hb Hn) as (d' & -> & Hd' & Hm').
    eexists. split; [done|]. cbn [literals globs compiled]. split_and!; [done|done| |].
    - intros k id. rewrite Hm', read_more. case_decide; [by rewrite Hbm|done].
    - intros k q. rewrite fmap_app, elem_of_app. cbn [fmap list_fmap]. rewrite list_elem_of_singleton, lookup_insert_Some, Hc.
      destruct (decide (en_Key e = k)) as [<-|]; naive_solver. }
  exists gd'. split_and!; [done|exact E| |].
  - split; [by rewrite Hl|done| | |].
    + intros k. rewrite Hl. intros (e & -> & He)%Hkl%list_elem_of_fmap. destruct (ef_bitmap _ _ Hlits e He) as (bm & _ & _ & Hm2 & id & Hid).
      rewrite Hm2 in Hid. apply (gok_lit_keys gd Hg), lazy_has_iff; [apply Hg|eauto].
    + intros k q. rewrite Hc. split.
      * intros [(e & -> & He)%list_elem_of_fmap Hq]. split_and!; [|apply Hcomp; done|done]. apply lazy_has_iff; [done|].
        destruct (ef_bitmap _ _ Hgls e He) as (bm & _ & _ & Hm2 & id & Hid). exists id. by rewrite Hm, read_all, <-Hm2.
      * intros ((id & Hid)%lazy_has_iff & _ & Hq); [|done]. rewrite Hm in Hid. apply andb_true_iff in Hid as [Hk%bool_decide_eq_true _]. done.
    + intros k (id & Hid)%lazy_has_iff; [|done]. rewrite Hm in Hid. apply andb_true_iff in Hid as [Hk%bool_decide_eq_true _].
      pose proof Hk as (e & -> & He)%list_elem_of_fmap. destruct (Hcomp e He) as (_ & g & Eg'). exists g. by apply Hc.
  - intros k id. unfold gd_mem. rewrite Hl, Hml. destruct (IsGlob k); [|done]. by rewrite Hm, read_all.
Qed.

Lemma kinds_roundtrip m : dim_ok m →
  ∃ m', unmarshalKinds (list_to_map ((λ '(k, bm), (Kind_number k, Bitmap_MarshalBinary bm)) <$> go_range m)) = Some (inl m') ∧ dim_ok m' ∧
    ∀ k id, dim_mem m' k id = dim_mem m k id.
Proof.
  intros Hm. set (pb := list_to_map _). assert (∀ k, Kind_of_number (Kind_number k) = Some k) as Hk by by intros [].
  assert (NoDup (((λ '(k, bm), (Kind_number k, Bitmap_MarshalBinary bm)) <$> go_range m).*1)) as Hnd.
  { rewrite <-list_fmap_compose. erewrite (list_fmap_ext _ (Kind_number ∘ fst)); [|by intros _ [k bm] _]. rewrite list_fmap_compose.
    apply (NoDup_fmap_2_strong Kind_number); [|apply NoDup_go_range_keys]. intros x y _ _ E. pose proof (Hk x) as E'. rewrite E, Hk in E'. congruence. }
  assert (∀ n data, pb !! n = Some data ↔ ∃ k bm, n = Kind_number k ∧ data = Bitmap_MarshalBinary bm ∧ m !! k = Some bm) as Hpb.
  { intros n data. unfold pb. rewrite <-elem_of_list_to_map, list_elem_of_fmap by done. split.
    - intros ([k bm] & [= -> ->] & Hin%elem_of_go_range). eauto.
    - intros (k & bm & -> & -> & Hin). exists (k, bm). by rewrite elem_of_go_range. }
  unfold unmarshalKinds.
  edestruct (fold_err_rule (λ (done : list (nat * list N)) (d : gmap Kind Bitmap), dim_ok d ∧ ∀ k id, dim_mem d k id = bool_decide (Kind_number k ∈ done.*1) && dim_mem m k id)) as (d & E & Hd & Hmem).
  3: { exists d. split_and!; [exact E|done|]. intros k id. rewrite Hmem. destruct (dim_mem m k id) eqn:Ek; [|by rewrite andb_false_r].
    rewrite bool_decide_true; [done|]. rewrite elem_of_go_range_keys. unfold dim_mem in Ek. destruct (m !! k) as [bm|] eqn:El; [|done].
    eexists. apply Hpb. eauto. }
  { split; [apply (newDimension_ok (T := Kind))|done]. }
  intros done [n data] rest d El [Hd Hmem]. assert (pb !! n = Some data) as Hn.
  { apply elem_of_go_range. rewrite El. apply elem_of_app. right. left. }
  apply Hpb in Hn as (k & bm & -> & -> & Hk'). destruct (Hm _ _ Hk') as [Hb [id Hid]]. destruct (trim_ok bm Hb) as [Ht Htm].
  rewrite bitmapFromBytes_runs by done. unfold try. rewrite bind_some, Hk. eexists. split; [done|]. split.
  - apply dim_ok_insert; [done|done|]. exists id. by rewrite Htm.
  - intros k' id'. rewrite dim_mem_insert, fmap_app, Hmem. cbn [fmap list_fmap fst]. case_decide as Ek.
    + subst k'. rewrite bool_decide_true by (apply elem_of_app; right; left). unfold dim_mem. by rewrite Hk', Htm.
    + f_equal. apply bool_decide_ext. rewrite elem_of_app, list_elem_of_singleton. split; [tauto|]. intros [?|E]; [done|].
      pose proof (Hk k') as E'. rewrite E, Hk in E'. congruence.
Qed.
(** * What a copy keeps *)

(** Everything but the cells on the heap, which the copy does not need: it is not
    changed any more. *)
Definition er_params (p : RowParams) : RowParams := MkRowParams (rp_Constants p) (rp_CelPrograms p) (rp_Variables p) 0 0.
Definition er_core (c : FunctionalCore) : FunctionalCore :=
  MkCore (co_Condition c) (co_DerivedRoleCondition c) (co_EmitOutput c) (er_params <$> co_Params c) (er_params <$> co_DerivedRoleParams c)
    None 0 (co_Effect c) (co_ScopePermissions c) (co_PolicyKind c) (co_FromRolePolicy c).
Definition er (b : BindingHandle) : BindingHandle :=
  MkBinding (bh_Resource b) (bh_OriginDerivedRole b) (bh_Action b) (bh_Role b) (bh_Scope b) (bh_Version b) (bh_Principal b) (bh_Name b)
    (bh_AllowActions b) (bh_OriginFqn b) (er_core (bh_Core b)) (bh_AllowActionGlobs b) (bh_ID b) (bh_NoMatchForScopePermissions b).

Definition params_pb (p : RowParams) : Params := MkParams (rp_Variables p) (rp_Constants p).
Definition core_pb (c : FunctionalCore) : FunctionalCorePB :=
  MkCorePB (co_Effect c) (co_Condition c) (co_DerivedRoleCondition c) (co_EmitOutput c) (co_ScopePermissions c) (co_PolicyKind c)
    (co_FromRolePolicy c) (params_pb <$> co_Params c) (params_pb <$> co_DerivedRoleParams c).

Lemma marshalParams_inl rp : marshalParams rp = inl (params_pb <$> rp).
Proof.
  destruct rp as [p|]; [|done]. cbn. unfold marshalRowParams. case_decide as E.
  - apply map_size_empty_iff in E. unfold params_pb. by rewrite E.
  - by rewrite NewStruct_values.
Qed.
Lemma marshalCore_inl c : marshalCore c = inl (core_pb c).
Proof. unfold marshalCore. by rewrite !marshalParams_inl. Qed.
Lemma collect_cores l : collect (λ c, Some (marshalCore c)) l = Some (inl (core_pb <$> l)).
Proof. induction l as [|c l IH]; [done|]. cbn [collect]. rewrite bind_some, marshalCore_inl, IH. done. Qed.

(** ** Cores *)

Section cores.
(** The parameters in use: they compile, and their hashes tell them apart. *)
Context (stored : RowParams → Prop).
Context (Hcomp : ∀ p, stored p → getCelProgramsFromExpressions (rp_Variables p) = Some (rp_CelPrograms p)).
Context (Hsep : ∀ p q, stored p → stored q → hash_params (Some (params_pb p)) = hash_params (Some (params_pb q)) → params_pb p = params_pb q).

Definition cache_good (cache : gmap N RowParams) : Prop :=
  ∀ h p, cache !! h = Some p → ∃ q, stored q ∧ h = hash_params (Some (params_pb q)) ∧ er_params p = er_params q.

Lemma same_params p q : stored p → stored q → params_pb p = params_pb q → er_params p = er_params q.
Proof using Hcomp.
  intros Hp Hq E. pose proof (Hcomp _ Hp) as Ep. pose proof (Hcomp _ Hq) as Eq. injection E as Ev Ec. rewrite Ev, Eq in Ep. injection Ep as Ep.
  unfold er_params. by rewrite Ev, Ec, Ep.
Qed.

Lemma unmarshalParams_runs cache rc next op :
  cache_good cache → (∀ p, op = Some p → stored p) →
  ∃ op' cache' rc' next', unmarshalParams cache rc next (params_pb <$> op) = (Some op', cache', rc', next') ∧
    er_params <$> op' = er_params <$> op ∧ cache_good cache'.
Proof using Hcomp Hsep.
  intros Hc Hp. destruct op as [p|]; [|by exists None, cache, rc, next]. specialize (Hp p eq_refl). cbn [fmap option_fmap option_map].
  unfold unmarshalParams, getOrGenerateParams. destruct (cache !! hash_params (Some (params_pb p))) as [p'|] eqn:E.
  - exists (Some p'), cache, rc, next. split_and!; [done| |done]. destruct (Hc _ _ E) as (q & Hq & Eh & Ee). cbn. f_equal. rewrite Ee.
    apply same_params; [done..|]. symmetry. by apply Hsep.
  - cbn [params_pb OrderedVariables pm_Constants]. rewrite (Hcomp p Hp). do 4 eexists. split_and!; [reflexivity|done|].
    intros h q [[<- <-]|[_ Hq]]%lookup_insert_Some; [by exists p|by apply Hc].
Qed.

Definition state_good (s : UnmarshalState) : Prop := cache_good (us_params s) ∧ cache_good (us_drParams s).

Lemma unmarshalCores_runs l s :
  state_good s → (∀ c p, c ∈ l → co_Params c = Some p ∨ co_DerivedRoleParams c = Some p → stored p) →
  ∃ s' cs, unmarshalCores s (core_pb <$> l) = inl (s', cs) ∧ er_core <$> cs = er_core <$> l.
Proof using Hcomp Hsep.
  revert s. induction l as [|c l IH]; intros s [Hp Hd] Hl; [by exists s, []|]. cbn [fmap list_fmap unmarshalCores]. unfold unmarshalCore.
  cbn [core_pb cp_Params cp_DerivedRoleParams].
  destruct (unmarshalParams_runs (us_params s) (us_refcounts s) (us_next s) (co_Params c) Hp) as (p' & pc & rc & next & -> & Ep & Hpc).
  { intros p E. apply (Hl c); [left|auto]. }
  destruct (unmarshalParams_runs (us_drParams s) rc next (co_DerivedRoleParams c) Hd) as (d' & dc & rc' & next' & -> & Ed & Hdc).
  { intros p E. apply (Hl c); [left|auto]. }
  destruct (IH (MkUS pc dc rc' next')) as (s' & cs & -> & Ecs); [done|intros c' p Hc'; apply (Hl c'); by right|].
  do 2 eexists. split; [reflexivity|]. cbn [fmap list_fmap]. rewrite Ecs. f_equal. unfold er_core. cbn. by rewrite Ep, Ed.
Qed.
End cores.

(** ** Bindings *)

Lemma position_spec c cores :
  c ∈ cores → (∀ c', c' ∈ cores → co_origins c' = co_origins c → c' = c) → ∃ i, position (co_origins c) cores = Some i ∧ cores !! i = Some c.
Proof.
  induction cores as [|d cores IH]; [by intros ?%elem_of_nil|]. intros Hc Hinj. cbn [position]. case_decide as E.
  - exists 0. split; [done|]. cbn. f_equal. apply Hinj; [left|done].
  - apply elem_of_cons in Hc as [->|Hc]; [done|]. destruct IH as (i & -> & Hi); [done|intros c' Hc'; apply Hinj; by right|]. by exists (S i).
Qed.

Lemma mkStringHandle_back a : ∀ a', mkStringHandle a = Some a' → mkStringHandle a' = Some a'.
Proof. unfold mkStringHandle. case_decide; [done|]. intros a' [= <-]. by rewrite decide_False. Qed.
Lemma handle_back s : mkStringHandle (HandleStr (mkStringHandle s)) = mkStringHandle s.
Proof. by rewrite HandleStr_mk. Qed.

Lemma make_toProto pb key : makeEvaluationKeyTuple (Some (EvaluationKeyTuple_toProto (makeEvaluationKeyTuple pb key))) "" = makeEvaluationKeyTuple pb key.
Proof. destruct pb as [pb|]; cbn [makeEvaluationKeyTuple EvaluationKeyTuple_toProto k_Prefix k_Resource k_Principal k_Role k_DerivedRole k_Version k_Scope k_RuleName k_RuleID
  pbk_Prefix pbk_Resource pbk_Principal pbk_Role pbk_DerivedRole pbk_Version pbk_Scope pbk_RuleName pbk_RuleId]; by rewrite ?handle_back, ?HandleStr_mk. Qed.

(** The set that [setAllowActions] builds, and its patterns. *)
Definition allow_set (l : list string) : gset string * list string :=
  foldl (λ '(set, gl) a, let a := HandleStr (mkStringHandle a) in ({[a]} ∪ set, if IsGlob a then gl ++ [a] else gl)) (∅ : gset string, []) l.
Lemma allow_set_elements l : (allow_set l).1 = list_to_set l.
Proof.
  assert (∀ (st : gset string) (gl : list string), (foldl (λ '(set, gl) a, let a := HandleStr (mkStringHandle a) in ({[a]} ∪ set, if IsGlob a then gl ++ [a] else gl)) (st, gl) l).1
    = list_to_set l ∪ st) as Hgen.
  { induction l as [|a l IH]; intros st gl; cbn [foldl list_to_set]; [by rewrite union_empty_l_L|]. rewrite HandleStr_mk.
    destruct (IsGlob a); rewrite IH; set_solver. }
  unfold allow_set. rewrite Hgen. apply union_empty_r_L.
Qed.
Lemma allow_set_range X : (allow_set (set_range X)).1 = X.
Proof. rewrite allow_set_elements. apply set_eq. intros x. by rewrite elem_of_list_to_set, elem_of_set_range. Qed.

Lemma setAllowActions_is b l : setAllowActions b l =
  MkBinding (bh_Resource b) (bh_OriginDerivedRole b) (bh_Action b) (bh_Role b) (bh_Scope b) (bh_Version b) (bh_Principal b) (bh_Name b)
    (Some (allow_set l).1) (bh_OriginFqn b) (bh_Core b) (allow_set l).2 (bh_ID b) (bh_NoMatchForScopePermissions b).
Proof. unfold setAllowActions. fold (allow_set l). by destruct (allow_set l). Qed.

(** Reading a binding back. *)
Lemma unmarshalBinding_runs cores cores' r core id key :
  core ∈ cores → (∀ c', c' ∈ cores → co_origins c' = co_origins core → c' = core) → (N.of_nat (length cores) < 2 ^ 32)%N →
  er_core <$> cores' = er_core <$> cores →
  ∃ b', unmarshalBinding cores' (marshalBinding (set_ID (rule_binding r core) id) cores key) = Some b' ∧
    er b' = er (set_ID (rule_binding r core) id).
Proof.
  intros Hc Hinj Hlen Hcs. destruct (position_spec core cores Hc Hinj) as (i & Hp & Hi). pose proof (lookup_lt_Some _ _ _ Hi) as Hlt.
  assert (∃ core', cores' !! i = Some core' ∧ er_core core' = er_core core) as (core' & Hi' & Hec).
  { assert ((er_core <$> cores') !! i = Some (er_core core)) as E by (rewrite Hcs, list_lookup_fmap, Hi; done).
    apply list_lookup_fmap_Some in E as (core' & ? & ?). eauto. }
  unfold unmarshalBinding.
  assert (bp_CoreIndex (marshalBinding (set_ID (rule_binding r core) id) cores key) = N.of_nat i) as ->.
  { unfold marshalBinding. cbn [bp_CoreIndex]. unfold coreIndex. change (bh_Core (set_ID (rule_binding r core) id)) with (bh_Core (rule_binding r core)).
    rewrite rule_binding_core, Hp. cbn. apply N.mod_small. lia. }
  rewrite Nat2N.id, Hi'. rewrite bind_some. eexists. split; [reflexivity|].
  unfold rule_binding. destruct (r_ActionSet r) as [|a|acts].
  - unfold marshalBinding, er. cbn -[mkStringHandle HandleStr]. by rewrite Hec, !HandleStr_mk.
  - pose proof (mkStringHandle_back a) as Ha. set (h := mkStringHandle a) in *.
    unfold marshalBinding, er. cbn -[mkStringHandle HandleStr h].
    destruct h as [a'|]; cbn -[mkStringHandle HandleStr] in *; by rewrite Hec, !HandleStr_mk, ?(Ha _ eq_refl).
  - rewrite setAllowActions_is. unfold marshalBinding, er. cbn -[mkStringHandle HandleStr setAllowActions]. rewrite setAllowActions_is.
    cbn -[mkStringHandle HandleStr]. by rewrite !allow_set_range, Hec, !HandleStr_mk.
Qed.

(** * The copy *)

Section copy.
Context (known : RuleRow → Prop) (m : Index) (rows : gmap N RuleRow) (Him : implements known m rows).

Definition registered : list FunctionalCore := (go_range (coresBySum (bi m))).*2.
Definition stored (p : RowParams) : Prop := ∃ core, core ∈ registered ∧ (co_Params core = Some p ∨ co_DerivedRoleParams core = Some p).

Lemma elem_of_registered core : core ∈ registered ↔ ∃ s, coresBySum (bi m) !! s = Some core.
Proof.
  unfold registered. rewrite list_elem_of_fmap. split.
  - intros ([s c] & -> & Hin%elem_of_go_range). by exists s.
  - intros [s Hs]. exists (s, core). by rewrite elem_of_go_range.
Qed.

Lemma stored_for p : stored p → ∃ proto, known_params known proto ∧ params_for proto p.
Proof using Him.
  intros (core & (s & Hs)%elem_of_registered & Hp). pose proof (im_caches _ _ _ Him) as [Hc Hd _].
  destruct Hp as [Hp|Hp]; [pose proof (ca_used _ _ _ _ _ _ Hc _ _ _ Hs Hp) as Hl; apply (ca_key _ _ _ _ _ _ Hc) in Hl
      |pose proof (ca_used _ _ _ _ _ _ Hd _ _ _ Hs Hp) as Hl; apply (ca_key _ _ _ _ _ _ Hd) in Hl]; destruct Hl as (_ & _ & proto & ? & ?); eauto.
Qed.
Lemma stored_compiles p : stored p → getCelProgramsFromExpressions (rp_Variables p) = Some (rp_CelPrograms p).
Proof using Him. intros (proto & _ & Hpf)%stored_for. rewrite (pf_vars _ _ Hpf). apply Hpf. Qed.

Lemma registered_inj c c' : c ∈ registered → c' ∈ registered → co_origins c' = co_origins c → c' = c.
Proof using Him.
  intros (s & Hs)%elem_of_registered (s' & Hs')%elem_of_registered E.
  assert (s' = s) as -> by (eapply (ro_inj _ _ _ _ _ _ _ (im_rows _ _ _ Him)); eauto). congruence.
Qed.

(** Every registered core has a row. *)
Lemma registered_few : (N.of_nat (length registered) < 2 ^ 32)%N.
Proof using Him.
  pose proof (im_rows _ _ _ Him) as Hr. pose proof (slok_max _ (bok_slots _ (im_bi _ _ _ Him))) as Hmax.
  unfold registered. rewrite length_fmap.
  assert ((go_range (coresBySum (bi m))).*1 ⊆+ (λ i, default 0%N (funcSum <$> rows !! N.of_nat i)) <$> seq 0 (length (bindings (bi m)))) as Hsub.
  { apply NoDup_submseteq; [apply NoDup_go_range_keys|]. intros s Hs. rewrite elem_of_go_range_keys in Hs. destruct Hs as [core Hs].
    destruct (ro_sub _ _ _ _ _ _ _ Hr _ _ Hs) as (_ & o & X & Ho & HX & Hne).
    destruct (ro_core _ _ _ _ _ _ _ Hr _ _ Hs) as [_ (o' & X' & Ho' & _ & HX' & Hf)].
    apply set_choose_L in Hne as [f Hin]. replace X' with X in Hf by congruence. apply Hf in Hin as (id & r & Hl & <- & _).
    destruct (ro_row _ _ _ _ _ _ _ Hr _ _ Hl) as (c & _ & _ & Hlv & _). apply lv_bound in Hlv.
    apply list_elem_of_fmap. exists (N.to_nat id). rewrite N2Nat.id, Hl. split; [done|]. apply elem_of_seq. lia. }
  apply submseteq_length in Hsub. rewrite !length_fmap, length_seq in Hsub. lia.
Qed.

Record slot_row (b : BindingHandle) (r : RuleRow) (core : FunctionalCore) : Prop := {
  lr_lv : lv (bi m) (bh_ID b) = Some b;
  lr_core : core ∈ registered;
  lr_is : b = set_ID (rule_binding r core) (bh_ID b);
  lr_key : evalKey (bi m) (bh_ID b) = Some (row_key r);
}.
Lemma slot_rows b : b ∈ GetAllRows m → ∃ r core, slot_row b r core.
Proof using Him.
  pose proof (im_rows _ _ _ Him) as Hr. pose proof (bok_slots _ (im_bi _ _ _ Him)) as Hs.
  unfold GetAllRows. intros (ob & Hin & Hob)%list_elem_of_omap. cbn in Hob. subst ob. apply list_elem_of_lookup in Hin as [i Hi].
  assert (lv (bi m) (N.of_nat i) = Some b) as Hlv by (unfold lv; by rewrite Nat2N.id, Hi).
  destruct (slok_id _ Hs _ _ Hlv) as [Hid _]. destruct (rows !! N.of_nat i) as [r|] eqn:E.
  2: { apply (ro_none _ _ _ _ _ _ _ Hr) in E. congruence. }
  destruct (ro_row _ _ _ _ _ _ _ Hr _ _ E) as (core & Hc & _ & Hl & Hk). exists r, core. rewrite Hlv in Hl. injection Hl as Hb.
  split; rewrite ?Hid; [done|apply elem_of_registered; eauto|done|].
  unfold evalKey. rewrite decide_False; [done|]. pose proof (lv_bound _ _ _ Hlv). pose proof (slok_max _ Hs). unfold noEvalKey. lia.
Qed.

Definition key_at (id : N) : EvaluationKeyTuple := default zeroKey (evalKey (bi m) id).
Definition pb_of (b : BindingHandle) : BindingPB := marshalBinding b registered (key_at (bh_ID b)).

Lemma marshal_bindings :
  mapM (λ b, key ← evalKey (bi m) (bh_ID b); Some (marshalBinding b registered key)) (GetAllRows m) = Some (pb_of <$> GetAllRows m).
Proof using Him.
  assert (∀ l, (∀ b, b ∈ l → b ∈ GetAllRows m) →
    mapM (λ b, key ← evalKey (bi m) (bh_ID b); Some (marshalBinding b registered key)) l = Some (pb_of <$> l)) as Hgen; [|by apply Hgen].
  induction l as [|b l IH]; intros Hl; [done|]. rewrite fmap_cons. cbn [mapM]. destruct (slot_rows b) as (r & core & Hb); [apply Hl; left|].
  unfold pb_of at 1, key_at. rewrite (lr_key _ _ _ Hb). cbn [default from_option id]. rewrite !bind_some, IH; [done|]. intros b' Hb'. apply Hl. by right.
Qed.

Lemma maxID_spec pbs : (∀ pb, pb ∈ pbs → (bp_Id pb ≤ maxID pbs)%N) ∧ (maxID pbs = 0%N ∨ ∃ pb, pb ∈ pbs ∧ bp_Id pb = maxID pbs).
Proof.
  unfold maxID. assert (∀ m0, (m0 ≤ foldl (λ m pb, if decide (m < bp_Id pb)%N then bp_Id pb else m) m0 pbs)%N ∧
    (∀ pb, pb ∈ pbs → (bp_Id pb ≤ foldl (λ m pb, if decide (m < bp_Id pb)%N then bp_Id pb else m) m0 pbs)%N) ∧
    (foldl (λ m pb, if decide (m < bp_Id pb)%N then bp_Id pb else m) m0 pbs = m0 ∨
     ∃ pb, pb ∈ pbs ∧ bp_Id pb = foldl (λ m pb, if decide (m < bp_Id pb)%N then bp_Id pb else m) m0 pbs)) as Hgen.
  { induction pbs as [|pb pbs IH]; intros m0; [split_and!; [done|by intros ? ?%elem_of_nil|by left]|]. cbn [foldl].
    destruct (IH (if decide (m0 < bp_Id pb)%N then bp_Id pb else m0)) as (H1' & H2' & H3'). split_and!.
    - case_decide; lia.
    - intros pb' [->|Hin]%elem_of_cons; [case_decide; lia|by apply H2'].
    - destruct H3' as [H3'|(pb' & Hin & E)]; [|right; exists pb'; split; [by right|done]]. rewrite H3'. case_decide; [right|by left].
      exists pb. split; [left|done]. }
  destruct (Hgen 0%N) as (_ & ? & ?). done.
Qed.

(** The slots after reading some of the bindings. *)
Record read_slots (n : nat) (done : list BindingHandle) (bs : list (option BindingHandle)) (ks : list EvaluationKeyTuple) : Prop := {
  rs_bs : length bs = n;
  rs_ks : length ks = n;
  rs_done : ∀ b, b ∈ done → ∃ b', bs !! N.to_nat (bh_ID b) = Some (Some b') ∧ er b' = er b ∧ ks !! N.to_nat (bh_ID b) = Some (key_at (bh_ID b));
  rs_only : ∀ i b', bs !! i = Some (Some b') → ∃ b, b ∈ done ∧ N.to_nat (bh_ID b) = i;
}.

Lemma read_slot n done bs ks b cores :
  er_core <$> cores = er_core <$> registered → b ∈ GetAllRows m → (∀ b', b' ∈ done → b' ∈ GetAllRows m) → N.to_nat (bh_ID b) < n →
  read_slots n done bs ks →
  ∃ b', unmarshalBinding cores (pb_of b) = Some b' ∧
    makeEvaluationKeyTuple (bp_EvaluationKeyTuple (pb_of b)) (bp_EvaluationKey (pb_of b)) = key_at (bh_ID b) ∧
    read_slots n (done ++ [b]) (<[N.to_nat (bh_ID b) := Some b']> bs) (<[N.to_nat (bh_ID b) := key_at (bh_ID b)]> ks).
Proof.
  intros Hcs Hb Hdone Hlt [Hlb Hlk Hd Ho]. destruct (slot_rows b Hb) as (r & core & Hlr).
  destruct (unmarshalBinding_runs registered cores r core (bh_ID b) (key_at (bh_ID b)) (lr_core _ _ _ Hlr)) as (b' & E & Eb); [|apply registered_few|done|].
  { intros c' Hc'. apply registered_inj; [apply Hlr|done]. }
  rewrite <-(lr_is _ _ _ Hlr) in E, Eb. exists b'. split; [exact E|]. split.
  { unfold pb_of, marshalBinding. cbn [bp_EvaluationKeyTuple bp_EvaluationKey]. unfold key_at. rewrite (lr_key _ _ _ Hlr). apply make_toProto. }
  split; [by rewrite length_insert..| |].
  - intros c [Hc|Hc%list_elem_of_singleton]%elem_of_app.
    + destruct (decide (bh_ID c = bh_ID b)) as [Ei|Ei].
      * destruct (slot_rows c) as (? & ? & Hlc); [auto|]. pose proof (lr_lv _ _ _ Hlc) as E1. rewrite Ei, (lr_lv _ _ _ Hlr) in E1. injection E1 as <-.
        exists b'. rewrite !list_lookup_insert_eq by lia. done.
      * destruct (Hd c Hc) as (c' & ? & ? & ?). exists c'. rewrite !list_lookup_insert_ne by lia. done.
    + subst c. exists b'. rewrite !list_lookup_insert_eq by lia. done.
  - intros i c Hi. destruct (decide (N.to_nat (bh_ID b) = i)) as [Ei|Ei]; [exists b; split; [apply elem_of_app; right; left|done]|].
    rewrite list_lookup_insert_ne in Hi by done. destruct (Ho _ _ Hi) as (c' & ? & ?). exists c'. split; [apply elem_of_app; by left|done].
Qed.

Lemma GetAllRows_lv b : b ∈ GetAllRows m ↔ lv (bi m) (bh_ID b) = Some b.
Proof.
  split; [by intros (r & core & Hb)%slot_rows; apply Hb|]. unfold lv, GetAllRows. intros E. apply list_elem_of_omap.
  destruct (bindings (bi m) !! N.to_nat (bh_ID b)) as [ob|] eqn:Eo; [|done]. cbn in E. exists ob. split; [by eapply list_elem_of_lookup_2|done].
Qed.

(** The slots of the copy. *)
Record same_slots (bs : list (option BindingHandle)) (ks : list EvaluationKeyTuple) : Prop := {
  ss_len : length ks = length bs;
  ss_max : length bs ≤ length (bindings (bi m));
  ss_bs : ∀ i, er <$> mjoin (bs !! i) = er <$> mjoin (bindings (bi m) !! i);
  ss_ks : ∀ id b, lv (bi m) id = Some b → ks !! N.to_nat id = Some (key_at id);
}.

Lemma slot_id id b : lv (bi m) id = Some b → bh_ID b = id.
Proof. intros Hl. by apply (slok_id _ (bok_slots _ (im_bi _ _ _ Him)) _ _ Hl). Qed.

Lemma read_slots_same n bs ks : read_slots n (GetAllRows m) bs ks → n ≤ length (bindings (bi m)) → same_slots bs ks.
Proof.
  intros [Hb Hk Hd Ho] Hn. split; [lia..| |].
  - intros i. destruct (lv (bi m) (N.of_nat i)) as [b|] eqn:E.
    + pose proof (slot_id _ _ E) as Ei. assert (b ∈ GetAllRows m) as Hin by (apply GetAllRows_lv; by rewrite Ei).
      destruct (Hd b Hin) as (b' & Hb' & Eb & _). unfold lv in E. rewrite Ei, Nat2N.id in *. rewrite Hb', E. cbn. by rewrite Eb.
    + destruct (bs !! i) as [[b'|]|] eqn:Eb.
      * destruct (Ho _ _ Eb) as (b & Hin & <-). apply GetAllRows_lv in Hin. rewrite N2Nat.id in E. congruence.
      * unfold lv in E. rewrite Nat2N.id in E. by rewrite E.
      * unfold lv in E. rewrite Nat2N.id in E. by rewrite E.
  - intros id b Hl. pose proof (slot_id _ _ Hl) as <-. destruct (Hd b) as (b' & _ & _ & ?); [by apply GetAllRows_lv|done].
Qed.

Lemma unmarshalBindings_runs cores : er_core <$> cores = er_core <$> registered →
  ∃ bs ks, unmarshalBindings (pb_of <$> GetAllRows m) cores = Some (bs, ks) ∧ same_slots bs ks.
Proof.
  intros Hcs. unfold unmarshalBindings. destruct (GetAllRows m) as [|b0 live] eqn:El.
  { exists [], []. split; [done|]. apply (read_slots_same 0); [|lia]. rewrite El. split; [done..| |done]. by intros ? ?%elem_of_nil. }
  rewrite fmap_cons. rewrite <-fmap_cons, <-El. set (pbs := pb_of <$> GetAllRows m).
  destruct (maxID_spec pbs) as [Hle Hmax].
  assert (∀ b, b ∈ GetAllRows m → N.to_nat (bh_ID b) < length (bindings (bi m))) as Hlt.
  { intros b Hb%GetAllRows_lv. by eapply lv_bound. }
  assert (N.to_nat (maxID pbs) < length (bindings (bi m))) as Hm.
  { destruct Hmax as [->|(pb & (b & -> & Hb)%list_elem_of_fmap & <-)]; [|by apply Hlt]. assert (b0 ∈ GetAllRows m) as Hb0 by (rewrite El; left). apply Hlt in Hb0. lia. }
  pose proof (slok_max _ (bok_slots _ (im_bi _ _ _ Him))) as Hsz.
  rewrite N.mod_small by lia. set (n := N.to_nat (maxID pbs + 1)).
  assert (∀ rest dn st, (∀ b, b ∈ dn ++ rest → b ∈ GetAllRows m) → read_slots n dn st.1 st.2 →
    ∃ bs ks, foldM (λ '(bindings, evalKeys) pb,
        b ← unmarshalBinding cores pb;
        bindings ← list_set bindings (N.to_nat (bp_Id pb)) (Some b);
        evalKeys ← list_set evalKeys (N.to_nat (bp_Id pb)) (makeEvaluationKeyTuple (bp_EvaluationKeyTuple pb) (bp_EvaluationKey pb));
        Some (bindings, evalKeys)) st (pb_of <$> rest) = Some (bs, ks) ∧ read_slots n (dn ++ rest) bs ks) as Hloop.
  { induction rest as [|b rest IH]; intros dn [bs ks] Hall Hrs; [exists bs, ks; by rewrite app_nil_r|]. rewrite fmap_cons. cbn [foldM].
    assert (b ∈ GetAllRows m) as Hb by (apply Hall, elem_of_app; right; left).
    assert (N.to_nat (bh_ID b) < n) as Hn. { assert (bh_ID b ≤ maxID pbs)%N; [|lia]. apply (Hle (pb_of b)). by apply list_elem_of_fmap_2. }
    destruct (read_slot n dn bs ks b cores Hcs Hb) as (b' & Eu & Ek & Hrs'); [intros c Hc; apply Hall, elem_of_app; by left|done|done|].
    rewrite Eu. bsimp. rewrite Ek. change (bp_Id (pb_of b)) with (bh_ID b). cbn [fst snd] in Hrs.
    rewrite !list_set_lt by (rewrite ?(rs_bs _ _ _ _ Hrs), ?(rs_ks _ _ _ _ Hrs); done). bsimp.
    destruct (IH (dn ++ [b]) (<[N.to_nat (bh_ID b) := Some b']> bs, <[N.to_nat (bh_ID b) := key_at (bh_ID b)]> ks)) as (bs' & ks' & E & Hrs''); [intros c; rewrite <-app_assoc; apply Hall|exact Hrs'|]. exists bs', ks'. by rewrite <-app_assoc in Hrs''. }
  destruct (Hloop (GetAllRows m) [] (replicate n None, replicate n zeroKey)) as (bs & ks & E & Hrs); [done| |].
  { split; cbn [fst snd]; [by rewrite length_replicate..|by intros ? ?%elem_of_nil|]. by intros i b' [? ?]%lookup_replicate. }
  exists bs, ks. split; [exact E|]. apply (read_slots_same n); [exact Hrs|lia].
Qed.

(** ** The whole index *)

(** Parameters that are stored do not share a hash. *)
Context (Hsep : ∀ p q, stored p → stored q → hash_params (Some (params_pb p)) = hash_params (Some (params_pb q)) → params_pb p = params_pb q).

Record copy_of (m' : Index) : Prop := {
  cp_bi : bi_ok (bi m');
  cp_live : ∀ id, er <$> lv (bi m') id = er <$> lv (bi m) id;
  cp_keys : ∀ id b, lv (bi m) id = Some b → evalKey (bi m') id = evalKey (bi m) id;
  cp_parents : parentRoles m' = parentRoles m;
}.

Lemma indexes_er {K} (mem mem' : K → N → bool) (l l' : N → option BindingHandle) (key_of : BindingHandle → option K) :
  indexes mem l key_of → (∀ id, er <$> l' id = er <$> l id) → (∀ b, key_of (er b) = key_of b) → (∀ k id, mem' k id = mem k id) →
  indexes mem' l' key_of.
Proof.
  intros Hi Hl Hk Hm k id. rewrite Hm, (Hi k id). specialize (Hl id). destruct (l id) as [b|], (l' id) as [b'|]; try done.
  - assert (er b' = er b) as Hb by (apply (inj Some) in Hl; exact Hl).
    assert (key_of b' = key_of b) as E by (by rewrite <-(Hk b'), Hb, Hk). split; intros (c & [= <-] & ?); eexists; (split; [done|congruence]).
Qed.

Lemma handles_er b b' : er b' = er b → handles_ok b → handles_ok b'.
Proof. intros E [? ? ? ? ? ?]. destruct b, b'. injection E as E1 E2 E3 E4 E5 E6 E7 E8 E9 E10 E11 E12 E13 E14. cbn in *. subst. by split. Qed.

Lemma copy_slots x bs ks : same_slots bs ks → bindings x = bs → evalKeys x = ks → freeIDs x = [] → slots_ok x.
Proof.
  intros Hss <- <- Hf. pose proof (bok_slots _ (im_bi _ _ _ Him)) as Hs. split.
  - apply Hss.
  - pose proof (ss_max _ _ Hss). pose proof (slok_max _ Hs). lia.
  - intros id b Hl. pose proof (ss_bs _ _ Hss (N.to_nat id)) as E. fold (lv (bi m) id) (lv x id) in E. rewrite Hl in E.
    destruct (lv (bi m) id) as [b0|] eqn:E0; [|done]. assert (er b = er b0) as Eb by (apply (inj Some) in E; exact E). destruct (slok_id _ Hs _ _ E0) as [Hid Hh]. split; [|by eapply handles_er].
    rewrite <-Hid. change (bh_ID (er b) = bh_ID (er b0)). by rewrite Eb.
  - rewrite Hf. by intros ? ?%elem_of_nil.
  - rewrite Hf. by apply NoDup_nil_2.
Qed.

Lemma unmarshalCores_copy : ∃ s cs, unmarshalCores (MkUS ∅ ∅ ∅ 0) (core_pb <$> registered) = inl (s, cs) ∧ er_core <$> cs = er_core <$> registered.
Proof.
  apply (unmarshalCores_runs stored stored_compiles Hsep); [by split|]. intros c p Hc Hp. by exists c.
Qed.

Lemma parentRoles_back p : unmarshalParentRoles (marshalParentRoles p) = p.
Proof.
  unfold unmarshalParentRoles, marshalParentRoles. rewrite <-map_fmap_compose. rewrite <-(map_fmap_id p) at 2. apply map_fmap_ext.
  intros scope roles _. cbn. rewrite <-map_fmap_compose. rewrite <-(map_fmap_id roles) at 2. by apply map_fmap_ext.
Qed.

Lemma Marshal_Unmarshal : ∃ data m', Marshal m = Some (inl data) ∧ Unmarshal data = Some (inl m') ∧ copy_of m'.
Proof.
  pose proof (bok_dims _ (im_bi _ _ _ Him)) as Hd.
  destruct (marshalLazyEntries_runs _ (dok_principal _ _ Hd)) as (pri & Ep & Hpri).
  destruct (glob_roundtrip _ (dok_role _ _ Hd)) as (rol & rol' & Er & Er' & Hrol & Hmrol).
  destruct (glob_roundtrip _ (dok_action _ _ Hd)) as (act & act' & Ea & Ea' & Hact & Hmact).
  destruct (glob_roundtrip _ (dok_resource _ _ Hd)) as (res & res' & Es & Es' & Hres & Hmres).
  unfold Marshal. fold registered. change (omap id (bindings (bi m))) with (GetAllRows m).
  rewrite (try_inl _ _ _ (collect_cores registered)), marshal_bindings. bsimp. rewrite (try_inl _ _ _ Ep), (try_inl _ _ _ Er), (try_inl _ _ _ Ea), (try_inl _ _ _ Es).
  set (msg := MkIndexPB _ _ _ _ _ _ _ _ _ _ _ _). destruct (codec_roundtrip msg) as (data & -> & Eu). exists data.
  destruct unmarshalCores_copy as (s & cs & Ec & Hcs). destruct (unmarshalBindings_runs cs Hcs) as (bs & ks & Eb & Hss).
  destruct (unmarshalEntries_runs _ _ (marshalEntries_for _ (dok_version _ _ Hd))) as (ver' & Ev & Hver & Hmver).
  destruct (unmarshalEntries_runs _ _ (marshalEntries_for _ (dok_scope _ _ Hd))) as (sco' & Eo & Hsco & Hmsco).
  destruct (kinds_roundtrip _ (dok_kind _ _ Hd)) as (kin' & Ek & Hkin & Hmkin).
  destruct (unmarshalLazyEntries_runs _ _ Hpri) as (pri' & Epr & Hpri' & Hmpri & _).
  pose proof (bitmapFromBytes_runs "" _ (dok_universe _ _ Hd)) as Eun. pose proof (bitmapFromBytes_runs "" _ (dok_allow _ _ Hd)) as Eal.
  eexists. split; [done|]. unfold Unmarshal. rewrite Eu. cbn [ip_Cores ip_Bindings ip_Version ip_Scope ip_PolicyKind ip_Principal ip_Role ip_Action ip_Resource ip_Universe ip_AllowActionsBitmap ip_ParentRoles msg].
  rewrite Ec, Eb. bsimp. rewrite (try_inl _ _ _ Ev), (try_inl _ _ _ Eo), (try_inl _ _ _ Ek), (try_inl _ _ _ Epr), (try_inl _ _ _ Er'), (try_inl _ _ _ Ea'), (try_inl _ _ _ Es'), (try_inl _ _ _ Eun), (try_inl _ _ _ Eal).
  split; [reflexivity|]. set (x := MkIndex _ _ _ _ _ _ _ _ _ _ _ _ _ _).
  assert (∀ id, er <$> lv x id = er <$> lv (bi m) id) as Hlv by (intros id; apply (ss_bs _ _ Hss)).
  destruct (trim_ok _ (dok_universe _ _ Hd)) as [Hun Hmun]. destruct (trim_ok _ (dok_allow _ _ Hd)) as [Hal Hmal].
  split; [|exact Hlv| |apply parentRoles_back].
  - split; [by apply (copy_slots x bs ks)|].
    split; try done; (eapply indexes_er; [by apply Hd|exact Hlv|intros []; done|cbn [universe scope version role resource allowActionsBitmap action policyKind principal x]; intros; by rewrite ?Hmun, ?Hmal]).
  - intros id b Hl. unfold evalKey at 1. cbn [evalKeys bi x]. pose proof (slot_id _ _ Hl) as Hid.
    destruct (slot_rows b) as (r & core & Hlr); [apply GetAllRows_lv; by rewrite Hid|]. pose proof (lr_key _ _ _ Hlr) as Hk. rewrite Hid in Hk.
    pose proof (lv_bound _ _ _ Hl). pose proof (slok_max _ (bok_slots _ (im_bi _ _ _ Him))).
    rewrite decide_False by (unfold noEvalKey; lia). rewrite (ss_ks _ _ Hss id b Hl). unfold key_at. by rewrite Hk.
Qed.
End copy.

(** * Queries on the copy *)

Definition er_all (l : list BindingHandle) : list BindingHandle := er <$> l.
Definition er_invariant (f : BindingHandle → bool) : Prop := ∀ b, f (er b) = f b.

Lemma er_all_app l k : er_all (l ++ k) = er_all l ++ er_all k.
Proof. apply fmap_app. Qed.
Lemma er_all_filter l (P : BindingHandle → bool) : er_invariant P → er_all (filter (λ b, P b = true) l) = filter (λ b, P b = true) (er_all l).
Proof.
  intros HP. unfold er_all. induction l as [|b l IH]; [done|]. rewrite fmap_cons, !filter_cons, HP. case_decide; [|done]. by rewrite fmap_cons, IH.
Qed.
Lemma er_all_bind {A} (l : list A) (f : A → list BindingHandle) : er_all (l ≫= f) = l ≫= λ x, er_all (f x).
Proof. induction l as [|x l IH]; [done|]. cbn. by rewrite er_all_app, IH. Qed.
Lemma bind_ext {A B} (l : list A) (f g : A → list B) : (∀ x, f x = g x) → l ≫= f = l ≫= g.
Proof. intros E. induction l as [|x l IH]; [done|]. cbn. by rewrite E, IH. Qed.

Lemma er_synthesise a mb : er_all (synthesise a mb) = synthesise a (er mb).
Proof. unfold synthesise, er_all. cbn. destruct (co_Condition (bh_Core mb)); [done|]. by destruct (co_EmitOutput (bh_Core mb)). Qed.

Lemma er_denies_for_action r l a : er_all (denies_for_action r l a) = denies_for_action r (er_all l) a.
Proof.
  unfold denies_for_action. rewrite <-(er_all_filter l (λ rb, allowsAction rb a)) by done.
  destruct (filter _ l) as [|b k]; [by destruct l|]. unfold er_all. rewrite fmap_cons. fold (er_all k).
  assert (∀ q, er_all (q ≫= synthesise a) = er_all q ≫= synthesise a) as E.
  { intros q. induction q as [|c q IH]; [done|]. cbn [mbind list_bind]. unfold er_all at 2. rewrite fmap_cons. cbn [mbind list_bind]. rewrite er_all_app, er_synthesise. f_equal. exact IH. }
  specialize (E (b :: k)). unfold er_all in E at 2. rewrite fmap_cons in E. exact E.
Qed.

Lemma er_denies_for_role k acts r rep l : er_all (denies_for_role k acts r rep l) = denies_for_role k acts r (er rep) (er_all l).
Proof.
  unfold denies_for_role. destruct l as [|b l].
  - unfold er_all. rewrite <-list_fmap_compose. done.
  - unfold er_all at 2. rewrite fmap_cons, er_all_bind. apply bind_ext. intros a. apply er_denies_for_action.
Qed.

Lemma er_rolePolicyReps l : rolePolicyReps (er_all l) = (er <$> (rolePolicyReps l).1, (rolePolicyReps l).2).
Proof.
  unfold rolePolicyReps. assert (∀ reps order, foldl add_rep (er <$> reps, order) (er_all l) = (er <$> (foldl add_rep (reps, order) l).1, (foldl add_rep (reps, order) l).2)) as Hgen.
  { induction l as [|b l IH]; intros reps order; [done|]. unfold er_all. rewrite fmap_cons. cbn [foldl]. unfold add_rep at 2 4 6. cbn [er bh_Role].
    rewrite lookup_fmap. destruct (reps !! HandleStr (bh_Role b)) as [c|]; cbn [fmap option_fmap option_map]; [apply IH|].
    rewrite <-fmap_insert. apply IH. }
  specialize (Hgen ∅ []). by rewrite fmap_empty in Hgen.
Qed.

Lemma er_matchedByRole l : matchedByRole (er_all l) = er_all <$> matchedByRole l.
Proof.
  unfold matchedByRole. assert (∀ acc, foldl add_by_role (er_all <$> acc) (er_all l) = er_all <$> foldl add_by_role acc l) as Hgen.
  { induction l as [|b l IH]; intros acc; [done|]. unfold er_all at 2. rewrite fmap_cons. cbn [foldl]. unfold add_by_role at 2 4. cbn [er bh_Role].
    rewrite lookup_fmap, <-IH. f_equal. rewrite fmap_insert. f_equal. destruct (acc !! HandleStr (bh_Role b)) as [q|]; [|done]. cbn. by rewrite er_all_app. }
  specialize (Hgen ∅). by rewrite fmap_empty in Hgen.
Qed.

Lemma er_denies_for_resource k acts roles reps byRole :
  er_all (denies_for_resource k acts roles reps byRole) = denies_for_resource k acts roles (er <$> reps) (er_all <$> byRole).
Proof.
  unfold denies_for_resource. rewrite er_all_bind. apply bind_ext. intros r. rewrite !lookup_fmap. destruct (reps !! r) as [rep|]; [|done]. cbn [fmap option_fmap option_map].
  rewrite er_denies_for_role. by destruct (byRole !! r).
Qed.

Lemma er_collect_actions l : collect_actions (er_all l) = collect_actions l.
Proof.
  unfold collect_actions. generalize (∅ : gset string). induction l as [|b l IH]; intros acc; [done|]. unfold er_all. rewrite fmap_cons. cbn [foldl].
  change (er <$> l) with (er_all l). rewrite IH. done.
Qed.

Section queries.
Context (x y : bitmapIndex) (Hxy : ∀ id, er <$> lv y id = er <$> lv x id).

Lemma scan_filter idx f : scan idx f = filter (λ b, f b = true) (omap id (bindings idx)).
Proof.
  unfold scan. induction (bindings idx) as [|[b|] l IH]; [done| |exact IH]. cbn [omap list_omap id mbind option_bind]. rewrite filter_cons.
  destruct (f b); [rewrite decide_True by done; by f_equal|by rewrite decide_False by done].
Qed.

Lemma er_omap (l k : list (option BindingHandle)) : (∀ i, er <$> mjoin (k !! i) = er <$> mjoin (l !! i)) → er_all (omap id k) = er_all (omap id l).
Proof.
  revert k. induction l as [|ob l IH]; intros k Hi.
  - induction k as [|[b|] k IHk]; [done|by specialize (Hi 0)|]. apply IHk. intros i. apply (Hi (S i)).
  - destruct k as [|ob' k].
    + destruct ob as [b|]; [by specialize (Hi 0)|]. apply (IH []). intros i. exact (Hi (S i)).
    + assert (er_all (omap id k) = er_all (omap id l)) as E by (apply IH; intros i; apply (Hi (S i))). specialize (Hi 0). cbn in Hi.
      destruct ob as [b|], ob' as [b'|]; try done. cbn [omap list_omap id]. unfold er_all. rewrite !fmap_cons.
      apply (inj Some) in Hi. by f_equal.
Qed.

Lemma er_scan f : er_invariant f → er_all (scan y f) = er_all (scan x f).
Proof using Hxy.
  intros Hf. rewrite !scan_filter, !er_all_filter by done. f_equal. apply er_omap. intros i. specialize (Hxy (N.of_nat i)).
  unfold lv in Hxy. by rewrite Nat2N.id in Hxy.
Qed.

Lemma er_all_nil l k : er_all l = er_all k → l = [] ↔ k = [].
Proof. by destruct l, k. Qed.

Lemma er_actions_spec vf sf rk : er_invariant vf → er_invariant sf → actions_spec y vf sf rk = actions_spec x vf sf rk.
Proof using Hxy.
  intros Hv Hs. unfold actions_spec. f_equal. rewrite <-er_collect_actions, er_scan, er_collect_actions; [done|]. intros b. by rewrite Hv, Hs.
Qed.

Lemma er_denies_spec vf sf rf resources roles targets : er_invariant vf → er_invariant sf → er_invariant rf →
  er_all (denies_spec y vf sf rf resources roles targets) = er_all (denies_spec x vf sf rf resources roles targets).
Proof using Hxy.
  intros Hv Hs Hr. unfold denies_spec.
  assert (er_invariant (candidate vf sf rf)) as Hc by (intros b; unfold candidate; by rewrite Hv, Hs, Hr).
  pose proof (er_rolePolicyReps (scan y (candidate vf sf rf))) as E1. rewrite (er_scan _ Hc), er_rolePolicyReps in E1.
  destruct (rolePolicyReps (scan x _)) as [rx ox], (rolePolicyReps (scan y _)) as [ry oy]. cbn [fst snd] in E1.
  apply pair_equal_spec in E1 as [E1 ->]. rewrite !er_all_bind. apply bind_ext. intros rk.
  rewrite !er_denies_for_resource, <-!er_matchedByRole, (er_scan (λ b, candidate vf sf rf b && res_matches rk KIND_RESOURCE b)), E1 by (intros b; by rewrite Hc).
  destruct targets; [by rewrite er_actions_spec|done].
Qed.

Lemma er_Query_spec ver rk sco act roles pk p buf : er_all (Query_spec y ver rk sco act roles pk p buf) = er_all (Query_spec x ver rk sco act roles pk p buf).
Proof using Hxy.
  assert (er_invariant (base_matches ver rk sco roles pk p)) as Hb by done. unfold Query_spec.
  pose proof (er_all_nil _ _ (er_scan _ Hb)) as Hn.
  assert (er_all (scan y (λ b, base_matches ver rk sco roles pk p b && action_matches act b)) = er_all (scan x (λ b, base_matches ver rk sco roles pk p b && action_matches act b))) as E
    by (by apply er_scan).
  destruct (scan y (base_matches _ _ _ _ _ _)) as [|b l], (scan x (base_matches _ _ _ _ _ _)) as [|b' l'].
  - done.
  - by pose proof (proj1 Hn eq_refl).
  - by pose proof (proj2 Hn eq_refl).
  - rewrite !er_all_app, E. f_equal. f_equal. case_bool_decide; [|done]. by apply er_denies_spec.
Qed.
End queries.

(** A query on a well-formed index returns what the scan of its bindings gives. *)
Lemma Query_runs x pool ver rk sco act roles pk p buf : bi_ok x → (∀ bm, bm ∈ pool → cleared bm) →
  ∃ x' pool', Query x pool ver rk sco act roles pk p buf = Some (Query_spec x ver rk sco act roles pk p buf, x', pool').
Proof.
  intros Hx Hp. unfold Query.
  destruct (with_arena_runs x Hx (Query_state ver rk sco act roles pk p buf) pool (λ bs, bs = Query_spec x ver rk sco act roles pk p buf) Hp) as ([[bs x'] pool'] & E & -> & _).
  - intros s Hs. by apply Query_state_runs.
  - by exists x', pool'.
Qed.
End spec.
