(* ===== verification/BitmapTheorems.v ===== *)
(** What the set representations promise: every history of operations on a
    bitmap, a lazy dimension or a glob dimension behaves as the corresponding
    history on a finite set, and none of it panics. *)
From S2P Require Import Prelude GoRuntime Bitmap BitmapOps BitmapIter Arena LazyDim Dimension GlobDim Concrete.

Open Scope nat_scope.

(** * Bitmaps as sets *)

Definition represents (b : Bitmap) (X : gset N) : Prop := Bitmap_ok b ∧ ∀ id, bm_mem b id = bool_decide (id ∈ X).

Inductive bitmap_op :=
  | B_Add (id : N) | B_Remove (id : N) | B_AddSortedBatch (ids : list N) | B_Clear | B_shrinkToFit.

Definition run_bitmap_op (b : Bitmap) (op : bitmap_op) : option Bitmap :=
  match op with
  | B_Add id => Bitmap_Add b id
  | B_Remove id => Bitmap_Remove b id
  | B_AddSortedBatch ids => Bitmap_AddSortedBatch b ids
  | B_Clear => Bitmap_Clear b
  | B_shrinkToFit => Bitmap_shrinkToFit b
  end.

Definition set_bitmap_op (X : gset N) (op : bitmap_op) : gset N :=
  match op with
  | B_Add id => {[id]} ∪ X
  | B_Remove id => X ∖ {[id]}
  | B_AddSortedBatch ids => list_to_set ids ∪ X
  | B_Clear => ∅
  | B_shrinkToFit => X
  end.

(** Identifiers are 32 bits wide; batches are sorted. *)
Definition bitmap_op_ok (op : bitmap_op) : Prop :=
  match op with
  | B_Add id => (id < 2 ^ 32)%N
  | B_AddSortedBatch ids => StronglySorted N.le ids ∧ Forall (λ id, id < 2 ^ 32)%N ids
  | _ => True
  end.

Lemma represents_op b X op :
  represents b X → bitmap_op_ok op → runs (run_bitmap_op b op) (λ b', represents b' (set_bitmap_op X op)).
Proof.
  intros [Hb HX] Hop. unfold represents.
  destruct op as [id|id|ids| |]; cbn [run_bitmap_op set_bitmap_op bitmap_op_ok] in *.
  - eapply runs_mono; [by apply Add_runs|]. intros b' [? Hm]. split; [done|]. intros id'. rewrite Hm, HX.
    rewrite <-bool_decide_or. apply bool_decide_ext. set_solver.
  - eapply runs_mono; [by apply Remove_runs|]. intros b' (? & _ & Hm). split; [done|]. intros id'. rewrite Hm, HX.
    rewrite <-bool_decide_and. apply bool_decide_ext. set_solver.
  - eapply runs_mono; [destruct Hop; by apply AddSortedBatch_runs|]. intros b' [? Hm]. split; [done|]. intros id'. rewrite Hm, HX.
    rewrite <-bool_decide_or. apply bool_decide_ext. set_solver.
  - eapply runs_mono; [by apply Clear_runs|]. intros b' (? & _ & Hm). split; [done|]. intros id'. by rewrite Hm.
  - eapply runs_mono; [by apply shrinkToFit_runs|]. intros b' (? & _ & Hm). split; [done|]. intros id'. by rewrite Hm, HX.
Qed.

Lemma represents_history ops b X :
  represents b X → Forall bitmap_op_ok ops → runs (foldM run_bitmap_op b ops) (λ b', represents b' (foldl set_bitmap_op X ops)).
Proof.
  revert b X. induction ops as [|op ops IH]; intros b X Hb Hops; cbn [foldM foldl]; [by rret|].
  apply Forall_cons in Hops as [Hop Hops]. eapply runs_bind; [by apply represents_op|]. intros b' Hb'. by apply IH.
Qed.

Lemma represents_new : represents NewBitmap ∅.
Proof. split; [apply NewBitmap_ok|]. intros id. rewrite bool_decide_false by set_solver. by apply bm_mem_tail; [apply NewBitmap_ok|cbn; lia]. Qed.

Lemma represents_ids b X :
  represents b X → ∃ ids, Bitmap_ids b = Some ids ∧ StronglySorted N.lt ids ∧ (∀ id, id ∈ ids ↔ id ∈ X) ∧ length ids = size X.
Proof.
  intros [Hb HX]. exists (bm_ids b). split; [by apply ids_runs|]. pose proof (bm_ids_sorted b Hb) as Hs. split; [done|].
  assert (∀ id, id ∈ bm_ids b ↔ id ∈ X) as Hel by (intros id; rewrite elem_of_bm_ids by done; rewrite HX; apply bool_decide_eq_true).
  split; [done|]. assert (NoDup (bm_ids b)) as Hnd.
  { clear -Hs. induction Hs as [|x l Hs IH Hx]; constructor; [|done]. intros Hin. rewrite Forall_forall in Hx. apply Hx in Hin. lia. }
  rewrite <-(size_list_to_set (C := gset N) (bm_ids b)) by done. f_equal. apply set_eq. intros id. rewrite elem_of_list_to_set. apply Hel.
Qed.

(** C38: A bitmap is a set of 32-bit identifiers.  Any sequence of [Add],
    [Remove], [AddSortedBatch], [Clear] and [shrinkToFit] on a new bitmap
    returns, and what the bitmap then answers to [Contains], [IsEmpty],
    [GetCardinality] and an iteration is what the same operations do to a finite
    set; the iteration is in ascending order. *)
Theorem bitmap_history ops :
  Forall bitmap_op_ok ops →
  let X := foldl set_bitmap_op ∅ ops in
  ∃ b ids, foldM run_bitmap_op NewBitmap ops = Some b ∧
    Bitmap_ids b = Some ids ∧ StronglySorted N.lt ids ∧ (∀ id, id ∈ ids ↔ id ∈ X) ∧
    (∀ id, Bitmap_Contains b id = Some (bool_decide (id ∈ X))) ∧
    (Bitmap_IsEmpty b = true ↔ X = ∅) ∧ Bitmap_GetCardinality b = Some (N.of_nat (size X)).
Proof.
  intros Hops X. destruct (represents_history ops NewBitmap ∅ represents_new Hops) as (b & Eb & Hb).
  destruct (represents_ids b X Hb) as (ids & Ei & Hs & Hel & Hlen). destruct Hb as [Hok HX]. exists b, ids. split_and!; try done.
  - intros id. by rewrite Contains_runs, HX.
  - rewrite IsEmpty_spec by done. setoid_rewrite HX. setoid_rewrite bool_decide_eq_false. fold X. set_solver.
  - rewrite GetCardinality_runs by done. do 2 f_equal. rewrite ids_runs in Ei by done. injection Ei as <-. done.
Qed.

Lemma bitmap_history_witness :
  ∃ b ids, foldM run_bitmap_op NewBitmap [B_Add 5; B_AddSortedBatch [3; 4096; 70000]; B_Remove 3; B_shrinkToFit]%N = Some b ∧
    Bitmap_ids b = Some ids ∧ StronglySorted N.lt ids.
Proof.
  destruct (bitmap_history [B_Add 5; B_AddSortedBatch [3; 4096; 70000]; B_Remove 3; B_shrinkToFit]%N) as (b & ids & Hb & Hi & Hs & _).
  - repeat constructor; cbn; lia.
  - exists b, ids. split; [exact Hb|]. split; [exact Hi|exact Hs].
Defined.

(** [Or] and [And] are union and intersection: for bitmaps with any
    histories they return without a panic, and the results are the union and the
    intersection of the two sets; [intersectionNonEmpty] tells whether the
    intersection is inhabited. *)
Theorem bitmap_union_intersection ops1 ops2 b1 b2 :
  Forall bitmap_op_ok ops1 → Forall bitmap_op_ok ops2 →
  foldM run_bitmap_op NewBitmap ops1 = Some b1 → foldM run_bitmap_op NewBitmap ops2 = Some b2 →
  let X := foldl set_bitmap_op ∅ ops1 in let Y := foldl set_bitmap_op ∅ ops2 in
  ∃ o a r, Bitmap_Or b1 b2 = Some o ∧ Bitmap_And b1 b2 = Some a ∧ intersectionNonEmpty [b1; b2] = Some r ∧
    (∀ id, Bitmap_Contains o id = Some (bool_decide (id ∈ X ∪ Y))) ∧ (∀ id, Bitmap_Contains a id = Some (bool_decide (id ∈ X ∩ Y))) ∧
    (r = true ↔ X ∩ Y ≠ ∅).
Proof.
  intros H1 H2 E1 E2 X Y.
  destruct (represents_history ops1 _ _ represents_new H1) as (b1' & E1' & [Hb1 HX]). rewrite E1 in E1'. injection E1' as <-.
  destruct (represents_history ops2 _ _ represents_new H2) as (b2' & E2' & [Hb2 HY]). rewrite E2 in E2'. injection E2' as <-.
  destruct (Or_runs b1 b2 Hb1 Hb2) as (o & Eo & Ho & Hmo). destruct (And_runs b1 b2 Hb1 Hb2) as (a & Ea & Ha & Hma).
  destruct (intersectionNonEmpty_runs b1 [b2]) as (r & Er & Hr).
  { intros bm [->|[->|Hn]%elem_of_cons]%elem_of_cons; [done..|by apply elem_of_nil in Hn]. }
  exists o, a, r. split_and!; try done.
  - intros id. rewrite Contains_runs by done. rewrite Hmo, HX, HY, <-bool_decide_or. do 2 f_equal. apply bool_decide_ext. set_solver.
  - intros id. rewrite Contains_runs by done. rewrite Hma, HX, HY, <-bool_decide_and. do 2 f_equal. apply bool_decide_ext. set_solver.
  - rewrite Hr. fold X in HX. fold Y in HY. split.
    + intros [id Hid]. assert (id ∈ X ∩ Y); [|set_solver]. apply elem_of_intersection.
      split; [rewrite <-bool_decide_eq_true, <-HX|rewrite <-bool_decide_eq_true, <-HY]; apply Hid; [left|right; left].
    + intros [id [Hx Hy]%elem_of_intersection]%set_choose_L. exists id.
      intros bm [->|[->|Hn]%elem_of_cons]%elem_of_cons; [by rewrite HX, bool_decide_eq_true|by rewrite HY, bool_decide_eq_true|by apply elem_of_nil in Hn].
Qed.

(** Bitmaps to try the theorems on. *)
Definition some_ops : list bitmap_op := [B_Add 1; B_Add 200]%N.
Definition some_bitmap : Bitmap := Eval vm_compute in default NewBitmap (foldM run_bitmap_op NewBitmap some_ops).
Definition other_ops : list bitmap_op := [B_Add 200; B_Add 9; B_Remove 1]%N.
Definition other_bitmap : Bitmap := Eval vm_compute in default NewBitmap (foldM run_bitmap_op NewBitmap other_ops).

Lemma bitmap_union_intersection_witness :
  ∃ o a r, Bitmap_Or some_bitmap other_bitmap = Some o ∧ Bitmap_And some_bitmap other_bitmap = Some a ∧
    intersectionNonEmpty [some_bitmap; other_bitmap] = Some r.
Proof.
  destruct (bitmap_union_intersection some_ops other_ops some_bitmap other_bitmap) as (o & a & r & Ho & Ha & Hr & _).
  - repeat constructor; cbn; lia.
  - repeat constructor; cbn; lia.
  - vm_compute. reflexivity.
  - vm_compute. reflexivity.
  - exists o, a, r. split; [exact Ho|]. split; [exact Ha|exact Hr].
Defined.

(** Encoding and decoding.  Whatever follows the encoding of a bitmap in a
    buffer, decoding reads exactly the encoding and gives a bitmap with the same
    identifiers, for every history of the bitmap. *)
Theorem bitmap_marshal_roundtrip ops b rest :
  Forall bitmap_op_ok ops → foldM run_bitmap_op NewBitmap ops = Some b →
  ∃ b', Bitmap_UnmarshalBinary (Bitmap_MarshalBinary b ++ rest) = Some (Some (length (Bitmap_MarshalBinary b), b')) ∧
    Bitmap_ok b' ∧ ∀ id, Bitmap_Contains b' id = Bitmap_Contains b id.
Proof.
  intros Hops Eb. destruct (represents_history ops _ _ represents_new Hops) as (b0 & E & [Hb _]). rewrite Eb in E. injection E as <-.
  destruct (trim_ok b Hb) as [Ht Hm]. exists (trim b). split; [by apply Unmarshal_Marshal|]. split; [done|].
  intros id. rewrite !Contains_runs by done. by rewrite Hm.
Qed.

Lemma bitmap_marshal_roundtrip_witness :
  ∃ b', Bitmap_UnmarshalBinary (Bitmap_MarshalBinary other_bitmap ++ [7%N]) = Some (Some (length (Bitmap_MarshalBinary other_bitmap), b')).
Proof.
  destruct (bitmap_marshal_roundtrip other_ops other_bitmap [7%N]) as (b' & E & _).
  - repeat constructor; cbn; lia.
  - vm_compute. reflexivity.
  - exists b'. exact E.
Defined.

(** C39: The decoder is total: on any buffer [UnmarshalBinary] returns a bitmap
    or an error, and never reads out of bounds. *)
Theorem bitmap_unmarshal_total (buf : list N) : ∃ r, Bitmap_UnmarshalBinary buf = Some r.
Proof. apply Unmarshal_total. Qed.

(** * The arena *)

(** Intersections and unions through the arena.  With a pool of cleared
    bitmaps, [andInto] and [orInto] compute the intersection and the union of
    their parts, and releasing the arena gives back only cleared bitmaps, so that
    no identifier leaks into the next query. *)
Theorem arena_ops_release pool parts :
  (∀ bm, bm ∈ pool → cleared bm) → parts ≠ [] → (∀ p, p ∈ parts → Bitmap_ok p) →
  ∃ x y a, (x ← arena_andInto parts; y ← arena_orInto parts; mret (x, y)) (newBitmapArena pool) = Some ((x, y), a) ∧
    (∀ id, bm_mem x id = forallb (λ p, bm_mem p id) parts) ∧ (∀ id, bm_mem y id = existsb (λ p, bm_mem p id) parts) ∧
    ∃ pool', arena_release a = Some pool' ∧ ∀ bm, bm ∈ pool' → cleared bm.
Proof.
  intros Hp Hne Hok. assert (arena_ok (newBitmapArena pool)) as Ha by (split; [done|]; intros bm Hbm; by apply elem_of_nil in Hbm).
  destruct (andInto_runs parts Hok _ Ha Hne) as (x & a1 & E1 & [_ Ha1] & _ & Hx).
  destruct (orInto_runs parts Hok _ Ha1 Hne) as (y & a2 & E2 & [_ Ha2] & _ & Hy).
  exists x, y, a2. split; [|split; [done|split; [done|]]].
  - unfold mbind, ST_bind. rewrite E1. cbn. by rewrite E2.
  - destruct (release_runs a2 Ha2) as (pool' & E & H'). eauto.
Qed.

Lemma arena_ops_release_witness :
  ∃ x a, (x ← arena_andInto [bitmapPool_New; NewBitmap]; y ← arena_orInto [bitmapPool_New; NewBitmap]; mret (x, y)) (newBitmapArena []) = Some (x, a).
Proof.
  destruct (arena_ops_release [] [bitmapPool_New; NewBitmap]) as (x & y & a & E & _).
  - intros bm H. inversion H.
  - discriminate.
  - intros p H. inversion H as [|? ? ? H']; subst; [apply cleared_New|]. inversion H' as [|? ? ? H'']; subst; [apply NewBitmap_ok|inversion H''].
  - exists (x, y), a. exact E.
Defined.

(** * Lazy dimensions *)

Inductive lazy_op := L_Add (key : string) (id : N) | L_Remove (key : string) (id : N) | L_Bitmap (key : string) | L_compact.

Definition run_lazy_op `{GoMapOrder} (d : lazyDimension) (op : lazy_op) : option lazyDimension :=
  match op with
  | L_Add key id => lazyDimension_Add d key id
  | L_Remove key id => lazyDimension_Remove d key id
  | L_Bitmap key => '(_, d) ← lazyDimension_Bitmap key d; Some d
  | L_compact => lazyDimension_compact d
  end.

Definition set_lazy_op (X : gset (string * N)) (op : lazy_op) : gset (string * N) :=
  match op with
  | L_Add key id => {[(key, id)]} ∪ X
  | L_Remove key id => X ∖ {[(key, id)]}
  | _ => X
  end.

Definition lazy_op_ok (op : lazy_op) : Prop := match op with L_Add _ id => (id < 2 ^ 32)%N | _ => True end.

Section lazy.
Context `{GoMapOrder}.

Lemma lazy_history (ops : list lazy_op) (d : lazyDimension) (X : gset (string * N)) :
  lazy_ok d → (∀ k id, lazy_mem d k id = bool_decide ((k, id) ∈ X)) → Forall lazy_op_ok ops →
  runs (foldM run_lazy_op d ops) (λ d', lazy_ok d' ∧ ∀ k id, lazy_mem d' k id = bool_decide ((k, id) ∈ foldl set_lazy_op X ops)).
Proof.
  revert d X. induction ops as [|op ops IH]; intros d X Hd HX Hops; cbn [foldM foldl]; [by rret|].
  apply Forall_cons in Hops as [Hop Hops].
  eapply (runs_bind _ _ (λ d', lazy_ok d' ∧ ∀ k id, lazy_mem d' k id = bool_decide ((k, id) ∈ set_lazy_op X op))); [|intros d' [? ?]; by apply IH].
  destruct op as [key id|key id|key|]; cbn [run_lazy_op set_lazy_op lazy_op_ok] in *.
  - eapply runs_mono; [by apply lazy_Add_runs|]. intros d' [? Hm]. split; [done|]. intros k id'. rewrite Hm, HX, <-bool_decide_or.
    apply bool_decide_ext. set_solver.
  - eapply runs_mono; [by apply lazy_Remove_runs|]. intros d' [? Hm]. split; [done|]. intros k id'.
    rewrite Hm, HX, <-bool_decide_not, <-bool_decide_and. apply bool_decide_ext. set_solver.
  - destruct (lazy_Bitmap_runs d key Hd) as (r & d' & E & (_ & Hd' & Hm) & _). rewrite E. bsimp. rret. split; [done|]. intros k id. by rewrite <-Hm.
  - eapply runs_mono; [by apply lazy_compact_runs|]. intros d' (_ & ? & Hm). split; [done|]. intros k id. by rewrite <-Hm.
Qed.

(** A lazy dimension maps keys to sets of identifiers, however its entries
    are stored.  After any sequence of [Add], [Remove], [Bitmap] (which
    materialises a cold entry) and [compact], looking up a key gives a bitmap of
    exactly the identifiers added under it and not removed since; none of it
    panics. *)
Theorem lazy_dimension_history ops key :
  Forall lazy_op_ok ops →
  ∃ d r d', foldM run_lazy_op newLazyDimension ops = Some d ∧ lazyDimension_Bitmap key d = Some (r, d') ∧
    ∀ id, match r with Some bm => Bitmap_Contains bm id | None => Some false end = Some (bool_decide ((key, id) ∈ foldl set_lazy_op ∅ ops)).
Proof.
  intros Hops. destruct (lazy_history ops newLazyDimension ∅) as (d & Ed & Hd & Hm); [apply newLazyDimension_ok| |done|].
  { intros k id. symmetry. apply bool_decide_eq_false. set_solver. }
  destruct (lazy_Bitmap_runs d key Hd) as (r & d' & E & _ & Hr). exists d, r, d'. split_and!; [done..|]. intros id. rewrite <-Hm.
  destruct r as [bm|]; [|by rewrite Hr]. destruct Hr as [Hb Hr]. by rewrite Contains_runs, Hr.
Qed.
End lazy.

Lemma lazy_dimension_history_witness :
  ∃ d r d', foldM run_lazy_op newLazyDimension [L_Add "a" 3; L_Bitmap "a"; L_Add "a" 4; L_compact; L_Remove "a" 3]%N = Some d ∧
    lazyDimension_Bitmap "a" d = Some (r, d').
Proof.
  destruct (lazy_dimension_history [L_Add "a" 3; L_Bitmap "a"; L_Add "a" 4; L_compact; L_Remove "a" 3]%N "a") as (d & r & d' & E1 & E2 & _).
  - repeat constructor; cbn; lia.
  - exists d, r, d'. split; [exact E1|exact E2].
Defined.

(** * Glob dimensions *)

Inductive glob_op := G_Set (key : string) (id : N) | G_Remove (key : string) (id : N) | G_Query (value : string) | G_compact.

Section glob.
Context `{GlobEngine} `{GoMapOrder}.

Definition run_glob_op (gd : globDimension) (op : glob_op) : option globDimension :=
  match op with
  | G_Set key id => globDimension_Set gd key id
  | G_Remove key id => globDimension_Remove gd key id
  | G_Query value => '(_, s) ← globDimension_Query value (gd, newBitmapArena []); Some s.1
  | G_compact => globDimension_compact gd
  end.

(** Keys that do not compile are not kept. *)
Definition set_glob_op (X : gset (string * N)) (op : glob_op) : gset (string * N) :=
  match op with
  | G_Set key id => if key_valid key then {[(key, id)]} ∪ X else X
  | G_Remove key id => X ∖ {[(key, id)]}
  | _ => X
  end.

Definition glob_op_ok (op : glob_op) : Prop := match op with G_Set _ id => (id < 2 ^ 32)%N | _ => True end.

Lemma fresh_arena gd : gd_ok gd → g_rel (gd, newBitmapArena []) (gd, newBitmapArena []).
Proof. intros Hg. apply g_rel_ok; [done|]. split; intros bm Hbm; by apply elem_of_nil in Hbm. Qed.

Lemma glob_history (ops : list glob_op) (gd : globDimension) (X : gset (string * N)) :
  gd_ok gd → (∀ k id, gd_mem gd k id = bool_decide ((k, id) ∈ X)) → Forall glob_op_ok ops →
  runs (foldM run_glob_op gd ops) (λ gd', gd_ok gd' ∧ ∀ k id, gd_mem gd' k id = bool_decide ((k, id) ∈ foldl set_glob_op X ops)).
Proof.
  revert gd X. induction ops as [|op ops IH]; intros gd X Hd HX Hops; cbn [foldM foldl]; [by rret|].
  apply Forall_cons in Hops as [Hop Hops].
  eapply (runs_bind _ _ (λ d', gd_ok d' ∧ ∀ k id, gd_mem d' k id = bool_decide ((k, id) ∈ set_glob_op X op))); [|intros d' [? ?]; by apply IH].
  destruct op as [key id|key id|value|]; cbn [run_glob_op set_glob_op glob_op_ok] in *.
  - eapply runs_mono; [by apply gd_Set_runs|]. intros d' [? Hm]. split; [done|]. intros k id'. rewrite Hm, HX.
    destruct (key_valid key); [rewrite andb_true_r, <-bool_decide_or; apply bool_decide_ext; set_solver|by rewrite andb_false_r].
  - eapply runs_mono; [by apply gd_Remove_runs|]. intros d' [? Hm]. split; [done|]. intros k id'.
    rewrite Hm, HX, <-bool_decide_not, <-bool_decide_and. apply bool_decide_ext. set_solver.
  - destruct (gd_Query_is value _ (fresh_arena gd Hd)) as (bm & [gd' a] & E & [Hrel _] & _). rewrite E. bsimp. rret. cbn in *.
    split; [apply Hrel|]. intros k id. by rewrite <-(gd_rel_mem gd).
  - eapply runs_mono; [by apply gd_compact_runs|]. intros d' Hrel. split; [apply Hrel|]. intros k id. by rewrite <-(gd_rel_mem gd).
Qed.

(** A glob dimension answers a query with the identifiers registered under
    any matching key.  After any sequence of [Set], [Remove], [Query] and
    [compact], [Query] of a value returns exactly the identifiers set, and not
    removed since, under a literal key equal to the value or a glob key that
    compiles and matches it; none of it panics. *)
Theorem glob_dimension_history ops value :
  Forall glob_op_ok ops →
  ∃ gd bm s, foldM run_glob_op newGlobDimension ops = Some gd ∧ globDimension_Query value (gd, newBitmapArena []) = Some (bm, s) ∧
    ∀ id, Bitmap_Contains bm id = Some true ↔ ∃ key, (key, id) ∈ foldl set_glob_op ∅ ops ∧ key_matches key value = true.
Proof.
  intros Hops. destruct (glob_history ops newGlobDimension ∅) as (gd & Ed & Hd & Hm); [apply newGlobDimension_ok| |done|].
  { intros k id. symmetry. rewrite bool_decide_eq_false_2 by set_solver. unfold gd_mem. by destruct (IsGlob k). }
  destruct (gd_Query_is value _ (fresh_arena gd Hd)) as (bm & s & E & _ & [Hb Hq]). exists gd, bm, s. split_and!; [done..|].
  intros id. rewrite Contains_runs by done. split.
  - intros [= Hx]. apply Hq in Hx as (key & Hk & Hg). cbn in Hg. rewrite Hm, bool_decide_eq_true in Hg. eauto.
  - intros (key & Hk & Hx). f_equal. apply Hq. exists key. split; [done|]. cbn. by rewrite Hm, bool_decide_eq_true.
Qed.
End glob.

Lemma glob_dimension_history_witness :
  ∃ gd bm s, foldM run_glob_op newGlobDimension [G_Set "view" 1; G_Set "edit:*" 2; G_Query "edit:x"; G_Remove "view" 1; G_Set "view:[" 3]%N = Some gd ∧
    globDimension_Query "edit:title" (gd, newBitmapArena []) = Some (bm, s).
Proof.
  destruct (glob_dimension_history [G_Set "view" 1; G_Set "edit:*" 2; G_Query "edit:x"; G_Remove "view" 1; G_Set "view:[" 3]%N "edit:title")
    as (gd & bm & s & E1 & E2 & _).
  - repeat constructor; cbn; lia.
  - exists gd, bm, s. split; [exact E1|exact E2].
Defined.
