(* ===== verification/IndexTheorems.v ===== *)
(** What the rule table index promises: every history of insertions, deletions
    and compactions leaves exactly the rows inserted and not deleted, and lookups
    answer as a scan of those rows would. *)
From S2P Require Import Prelude GoRuntime Bitmap Arena LazyDim Dimension GlobDim Namer Policy ScopePerms IndexCore IndexQuery IndexQuerySpec IndexLookup Index IndexSpec ParentRoles RuleTableBuild RuleTable Eval Check TableSpec Decision RolePolicies Concrete IndexMarshal.

Local Open Scope string_scope.
Local Open Scope list_scope.
Open Scope nat_scope.

#[export] Instance row_compiles_dec `{CelCompiler} r : Decision (row_compiles r).
Proof. unfold row_compiles. destruct (r_PolicyKind r); apply _. Defined.

Section index.
Context `{GlobEngine} `{CelRuntime} `{GoMapOrder} `{ContentHash} `{StringHash} `{DerivedRoleHash} `{SchemaManager}.
Context (known : RuleRow → Prop) (Hnc : no_collisions known).

(** * Histories *)

Inductive index_op :=
  | I_IndexRules (rules : list RuleRow)
  | I_DeletePolicy (fqn : string)
  | I_Compact
  | I_Query (ver : string) (rk : ResourceKind) (sco act : string) (roles : list string) (pk : Kind) (p : string).

Definition run_index_op (m : Index) (op : index_op) : option Index :=
  match op with
  | I_IndexRules rules => '(m, _) ← IndexRules m rules; Some m
  | I_DeletePolicy fqn => DeletePolicy m fqn
  | I_Compact => Index_Compact m
  | I_Query ver rk sco act roles pk p => '(_, x, _) ← Query (bi m) [] ver rk sco act roles pk p []; Some (set_bi x m)
  end.

(** Indexing stops at the first row that does not compile. *)
Fixpoint compiling (rules : list RuleRow) : list RuleRow :=
  match rules with
  | [] => []
  | r :: rules => if decide (row_compiles r) then r :: compiling rules else []
  end.

Definition rows_op (l : list RuleRow) (op : index_op) : list RuleRow :=
  match op with
  | I_IndexRules rules => l ++ compiling rules
  | I_DeletePolicy fqn => filter (λ r, r_OriginFqn r ≠ fqn) l
  | I_Compact | I_Query _ _ _ _ _ _ _ => l
  end.

Definition index_op_ok (op : index_op) : Prop :=
  match op with
  | I_IndexRules rules => ∀ r, r ∈ rules → known r
  | I_DeletePolicy fqn => fqn ≠ ""
  | _ => True
  end.
Definition op_rows (op : index_op) : nat := match op with I_IndexRules rules => length rules | _ => 0 end.

Lemma compiling_all rules : (∀ r, r ∈ rules → row_compiles r) → compiling rules = rules.
Proof. induction rules as [|r rules IH]; intros Hc; [done|]. cbn. rewrite decide_True by (apply Hc; left). f_equal. apply IH. intros x Hx. apply Hc. by right. Qed.
Lemma compiling_stop added r rest : (∀ r, r ∈ added → row_compiles r) → ¬ row_compiles r → compiling (added ++ r :: rest) = added.
Proof.
  induction added as [|x added IH]; intros Hc Hn; cbn; [by rewrite decide_False|]. rewrite decide_True by (apply Hc; left).
  f_equal. apply IH; [|done]. intros y Hy. apply Hc. by right.
Qed.

(** The index holds the rows of the list, in some order. *)
Definition holds (m : Index) (l : list RuleRow) : Prop := ∃ rows, implements known m rows ∧ (map_to_list rows).*2 ≡ₚ l.

Lemma filter_rows fqn (rows : gmap N RuleRow) :
  (map_to_list (without fqn rows)).*2 ≡ₚ filter (λ r, r_OriginFqn r ≠ fqn) (map_to_list rows).*2.
Proof.
  unfold without. induction rows as [|id r rows Hid IH] using map_ind; [by rewrite map_filter_empty, map_to_list_empty|].
  rewrite (map_to_list_insert rows) by done. rewrite fmap_cons. cbn [snd]. destruct (decide (r_OriginFqn r = fqn)) as [E|E].
  - rewrite map_filter_insert_False by (cbn; by intros ?). rewrite delete_id by done. rewrite filter_cons_False by (by intros ?). exact IH.
  - rewrite map_filter_insert_True by done. rewrite map_to_list_insert by (apply map_lookup_filter_None; by left).
    rewrite filter_cons_True, fmap_cons by done. cbn [snd]. by rewrite IH.
Qed.

Lemma holds_op m l op :
  holds m l → index_op_ok op → (N.of_nat (length (bindings (bi m)) + op_rows op) < 2 ^ 32)%N →
  runs (run_index_op m op) (λ m', holds m' (rows_op l op) ∧ length (bindings (bi m')) ≤ length (bindings (bi m)) + op_rows op).
Proof using Hnc.
  intros (rows & Hi & Hp) Hop Hroom. destruct op as [rules|fqn| |ver rk sco act roles pk p]; cbn [run_index_op rows_op index_op_ok op_rows] in *.
  - eapply runs_bind; [by apply (IndexRules_runs known Hnc _ rows)|].
    intros [m' ok] (_ & Hlen & added & new & Him & Hdis & Hperm & Hcomp & Hok). rret. split; [|done].
    exists (rows ∪ new). split; [done|]. rewrite map_to_list_disjoint by done. rewrite fmap_app, Hp, Hperm. apply Permutation_app_head.
    destruct ok; [subst added; by rewrite compiling_all|]. destruct Hok as (r & rest & -> & Hn). by rewrite compiling_stop.
  - eapply runs_mono; [by apply (DeletePolicy_runs known _ _ rows)|]. intros m' (Him & _ & Hlen). split; [|lia].
    exists (without fqn rows). split; [done|]. rewrite filter_rows. by rewrite Hp.
  - eapply runs_mono; [by apply (Index_Compact_runs known _ rows)|]. intros m' (Him & _ & Hlen). split; [|lia]. by exists rows.
  - eapply runs_bind; [apply (with_arena_runs (bi m) (im_bi _ _ _ Hi)); [by intros bm ?%elem_of_nil|]|].
    + intros s Hs. by apply Query_state_runs.
    + intros [[bs x] pool'] (_ & Hrel & _). rret. split.
      * exists rows. split; [|done]. by apply bi_rel_implements.
      * cbn. rewrite (bi_rel_bindings _ _ Hrel). lia.
Qed.

Lemma holds_history ops m l :
  holds m l → Forall index_op_ok ops → (N.of_nat (length (bindings (bi m)) + sum_list (op_rows <$> ops)) < 2 ^ 32)%N →
  runs (foldM run_index_op m ops) (λ m', holds m' (foldl rows_op l ops)).
Proof using Hnc.
  revert m l. induction ops as [|op ops IH]; intros m l Hm Hops Hroom; cbn [foldM foldl]; [by rret|].
  apply Forall_cons in Hops as [Hop Hops]. cbn in Hroom. eapply runs_bind; [apply (holds_op m l op Hm Hop); lia|].
  intros m' [Hm' Hl]. apply IH; [done..|lia].
Qed.

Lemma holds_new : holds New [].
Proof. exists ∅. split; [apply New_implements|]. by rewrite map_to_list_empty. Qed.

(** C22: The index implements a multiset of rule rows.  From an empty index, any
    sequence of [IndexRules], [DeletePolicy], [Compact] and queries returns
    without a panic, and leaves exactly the rows that were indexed before the
    first row of their batch that fails to compile, less those of the policies
    deleted since. *)
Theorem index_history ops :
  Forall index_op_ok ops → (N.of_nat (sum_list (op_rows <$> ops)) < 2 ^ 32)%N →
  ∃ m rows, foldM run_index_op New ops = Some m ∧ implements known m rows ∧ (map_to_list rows).*2 ≡ₚ foldl rows_op [] ops.
Proof using Hnc.
  intros Hops Hroom. destruct (holds_history ops New [] holds_new Hops) as (m & Em & rows & Hi & Hp); [exact Hroom|]. eauto.
Qed.

(** * Queries *)

Lemma synthetic_not_allow l b : synthetic l b → co_Effect (bh_Core b) ≠ EFFECT_ALLOW.
Proof.
  intros [(role & v & sc & rr & a & ->)|(mb & a & _ & Hs)]; [done|]. unfold synthesise in Hs.
  destruct (co_Condition (bh_Core mb)); [|destruct (co_EmitOutput (bh_Core mb))];
    [apply list_elem_of_singleton in Hs as ->; done..|by apply elem_of_nil in Hs].
Qed.

(** C21: [Query] is equivalent to scanning the rows.  On an index that holds
    [rows], a query over the bitmap dimensions returns without a panic the very
    list that a sequential scan of the live bindings gives (the synthetic denies
    of role policies, then the matching bindings in ascending order); it leaves
    the rows unchanged and the pool of scratch bitmaps cleared. *)
Theorem query_is_scan m rows pool ver rk sco act roles pk p buf :
  implements known m rows → (∀ bm, bm ∈ pool → cleared bm) →
  ∃ x pool', Query (bi m) pool ver rk sco act roles pk p buf = Some (Query_spec (bi m) ver rk sco act roles pk p buf, x, pool') ∧
    implements known (set_bi x m) rows ∧ ∀ bm, bm ∈ pool' → cleared bm.
Proof.
  intros Hi Hp. destruct (with_arena_runs (bi m) (im_bi _ _ _ Hi) (Query_state ver rk sco act roles pk p buf) pool
    (λ l, l = Query_spec (bi m) ver rk sco act roles pk p buf) Hp) as ([[bs x] pool'] & E & -> & Hrel & Hp').
  { intros s Hs. by apply Query_state_runs. }
  exists x, pool'. split; [exact E|]. split; [by apply bi_rel_implements|done].
Qed.

(** What [Query] returns in terms of rule rows.  Every row matching the
    version, resource, scope, action, roles, kind and principal is returned under
    its identifier, and everything returned is such a row or, for resource
    policies only, a synthetic binding, which never has the effect ALLOW. *)
Theorem query_rows m rows pool ver rk sco act roles pk p bs x pool' :
  implements known m rows → (∀ bm, bm ∈ pool → cleared bm) →
  Query (bi m) pool ver rk sco act roles pk p [] = Some (bs, x, pool') →
  (∀ id r, rows !! id = Some r → row_matches ver rk sco act roles pk p r = true → ∃ b, b ∈ bs ∧ bh_ID b = id ∧ co_Effect (bh_Core b) = r_Effect r) ∧
  (∀ b, b ∈ bs → (∃ r, rows !! bh_ID b = Some r ∧ row_matches ver rk sco act roles pk p r = true ∧ co_Effect (bh_Core b) = r_Effect r) ∨
     pk = KIND_RESOURCE ∧ co_Effect (bh_Core b) ≠ EFFECT_ALLOW).
Proof.
  intros Hi Hp E. destruct (with_arena_runs (bi m) (im_bi _ _ _ Hi) (Query_state ver rk sco act roles pk p []) pool
    (λ l, l = Query_spec (bi m) ver rk sco act roles pk p []) Hp) as ([[bs' x'] pool2] & E' & -> & _ & _).
  { intros s Hs. by apply Query_state_runs. }
  unfold Query in E. rewrite E' in E. injection E as <- <- <-. split.
  - intros id r Hr Hm. destruct (row_live _ _ _ _ _ Hi Hr) as (core & Hc & Hl). exists (set_ID (rule_binding r core) id).
    split; [by eapply row_queried|]. destruct (rule_binding_fields r core id) as (_ & _ & _ & _ & _ & -> & _). split; [done|apply Hc].
  - intros b Hb. apply Query_spec_elem in Hb as [(id & Hl & [Hm Ha]%andb_true_iff)%elem_of_scan|[Hs ->]].
    + left. destruct (live_row _ _ _ _ _ Hi Hl) as (r & core & Hr & Hc & ->). exists r. split; [done|].
      destruct (rule_binding_fields r core id) as (_ & _ & _ & _ & _ & -> & _). split; [|apply Hc].
      unfold row_matches. rewrite <-(row_base_binding r core id) by done. rewrite <-(row_action_binding r core id). by rewrite Hm, Ha.
    + right. split; [done|]. by apply synthetic_not_allow in Hs.
Qed.

(** C32: Role policies narrow what a role may do.  When a query for an action on a
    resource finds any row of the scope for the resource and the roles, it
    returns an unconditional DENY for a role exactly when the role has a role
    policy in the scope none of whose rows covers the resource and lists the
    action, and it returns a DENY on the negated condition of every row that
    covers the resource, lists the action and has a condition. *)
Theorem role_policy_denies m rows pool ver rk sco act roles role bs x pool' :
  implements known m rows → (∀ bm, bm ∈ pool → cleared bm) → act ≠ "" → raw rk ≠ "" → role ∈ roles →
  Query (bi m) pool ver rk sco act roles KIND_RESOURCE "" [] = Some (bs, x, pool') →
  (∃ id r, rows !! id = Some r ∧ row_base ver rk sco roles KIND_RESOURCE "" r = true) →
  ((∃ v s res, newNoMatchRolePolicyDeny role v s res act ∈ bs) ↔ governed rows ver sco roles role ∧ unlisted rows ver rk sco act roles role) ∧
  (∀ id r c, listed rows ver rk sco act roles role id r → r_Condition r = Some c →
     ∃ b, b ∈ bs ∧ bh_ID b = id ∧ co_Effect (bh_Core b) = EFFECT_DENY ∧ co_Condition (bh_Core b) = Some (Cond_None [c])).
Proof.
  intros Hi Hp Ha Hk Hr E (id0 & r0 & Hr0 & Hm0). assert (roles ≠ []) as Hne by (intros ->; by apply elem_of_nil in Hr).
  destruct (with_arena_runs (bi m) (im_bi _ _ _ Hi) (Query_state ver rk sco act roles KIND_RESOURCE "" []) pool
    (λ l, l = Query_spec (bi m) ver rk sco act roles KIND_RESOURCE "" []) Hp) as ([[bs' x'] pool2] & E' & -> & _ & _).
  { intros s Hs. by apply Query_state_runs. }
  unfold Query in E. rewrite E' in E. injection E as <- <- <-.
  assert (∀ b, b ∈ Query_spec (bi m) ver rk sco act roles KIND_RESOURCE "" [] ↔
    b ∈ denies_spec (bi m) (version_matches ver) (scope_matches sco) (role_matches roles) [rk] roles [act] ∨
    b ∈ scan (bi m) (λ b, base_matches ver rk sco roles KIND_RESOURCE "" b && action_matches act b)) as Hq.
  { intros b. unfold Query_spec. rewrite bool_decide_true by done. destruct (scan (bi m) (base_matches _ _ _ _ _ _)) eqn:Es; [|by rewrite app_nil_l, elem_of_app].
    exfalso. destruct (row_live _ _ _ _ _ Hi Hr0) as (core & Hc & Hl). rewrite <-(row_base_binding r0 core id0) in Hm0 by done.
    apply (elem_of_nil (set_ID (rule_binding r0 core) id0)). rewrite <-Es. apply elem_of_scan. eauto. }
  split; [split|].
  - intros (v & s & res & [Hb|(id & Hl & _)%elem_of_scan]%Hq).
    + destruct (denies_sound known m rows Hi ver rk sco act roles Hne _ Hb) as (role' & Hr' & Hg & [[Hu (v' & s' & r' & Eb)]|(id & r & mb & _ & _ & Hs)]).
      * assert (role = role') as -> by (apply (f_equal (λ b, HandleStr (bh_Role b))) in Eb; cbn in Eb; by rewrite !HandleStr_mk in Eb). done.
      * by apply synthesise_match in Hs.
    + destruct (live_row _ _ _ _ _ Hi Hl) as (r & core & _ & _ & Eb). apply (f_equal bh_NoMatchForScopePermissions) in Eb. by rewrite rule_binding_match in Eb.
  - intros [Hg Hu]. destruct (denies_unlisted known m rows Hi ver rk sco act roles Hne role Hr Hg Hu) as (v & s & res & Hin).
    exists v, s, res. apply Hq. by left.
  - intros id r c Hl Hc. destruct (row_live _ _ _ _ _ Hi (proj1 Hl)) as (core & Hco & Hlv). eexists. split; [|].
    + apply Hq. left. eapply (denies_listed known m rows Hi ver rk sco act roles Hne role id r); [done|done|done|].
      unfold synthesise. destruct (rule_binding_fields r core id) as (_ & _ & _ & _ & _ & -> & _). rewrite (cof_cond _ _ Hco), Hc. left.
    + done.
Qed.

(** [QueryMulti] is equivalent to scanning the rows, with each filter taking
    several values or none: the bindings it returns are those of the scan, made
    into string bindings with the evaluation keys of the index. *)
Theorem query_multi_is_scan m rows pool versions resources scopes roles actions denies :
  implements known m rows → (∀ bm, bm ∈ pool → cleared bm) →
  ∃ out x pool', QueryMulti (bi m) pool versions resources scopes roles actions denies = Some (out, x, pool') ∧
    Forall2 (λ b s, ∃ k, evalKey (bi m) (bh_ID b) = Some k ∧ s = toBinding b k)
      (QueryMulti_spec (bi m) versions resources scopes roles actions denies) out ∧
    implements known (set_bi x m) rows ∧ ∀ bm, bm ∈ pool' → cleared bm.
Proof.
  intros Hi Hp. destruct (QueryMulti_runs (bi m) pool versions resources scopes roles actions denies (im_bi _ _ _ Hi) Hp)
    as ([[out x] pool'] & E & Hout & Hrel & Hp'). exists out, x, pool'. split_and!; [done..| |done]. by apply bi_rel_implements.
Qed.

(** * Existence *)

Definition row_exists_resource (ver : string) (rk : ResourceKind) (scopes : list string) (r : RuleRow) : Prop :=
  ver ≠ "" ∧ r_Version r = ver ∧ r_Scope r ∈ scopes ∧ r_PolicyKind r = KIND_RESOURCE ∧ r_Resource r ≠ "" ∧
  (key_matches (r_Resource r) (raw rk) = true ∨
   sanitized rk ≠ "" ∧ IsGlob (r_Resource r) = false ∧ r_Resource r = sanitized rk).

Lemma exists_bools r core id ver scopes k :
  core_of r core →
  let b := set_ID (rule_binding r core) id in
  bool_decide (bh_Version b = Some ver) = bool_decide (ver ≠ "" ∧ r_Version r = ver) ∧
  in_scopes scopes b = bool_decide (r_Scope r ∈ scopes) ∧
  (k ≠ KIND_UNSPECIFIED → kind_matches k b = bool_decide (r_PolicyKind r = k)).
Proof.
  intros Hc. destruct (rule_binding_fields r core id) as (Ev & Es & _ & _ & _ & Ec & _). set (b := set_ID _ _) in *. cbn zeta.
  unfold in_scopes, kind_matches. rewrite Ev, Es, Ec, HandleStr_mk, (cof_kind _ _ Hc). split_and!.
  - apply bool_decide_ext. rewrite handle_is. naive_solver.
  - done.
  - intros Hk. apply bool_decide_ext. naive_solver.
Qed.

Lemma principal_exists_row r core id ver scopes :
  core_of r core →
  (bool_decide (bh_Version (set_ID (rule_binding r core) id) = Some ver) && in_scopes scopes (set_ID (rule_binding r core) id) &&
    kind_matches KIND_PRINCIPAL (set_ID (rule_binding r core) id))%bool = true ↔
  ver ≠ "" ∧ r_Version r = ver ∧ r_Scope r ∈ scopes ∧ r_PolicyKind r = KIND_PRINCIPAL.
Proof.
  intros Hc. destruct (exists_bools r core id ver scopes KIND_PRINCIPAL Hc) as (-> & -> & ->); [|done].
  rewrite !andb_true_iff, !bool_decide_eq_true. tauto.
Qed.

Lemma resource_exists_row r core id ver rk scopes :
  core_of r core →
  (bool_decide (bh_Version (set_ID (rule_binding r core) id) = Some ver) && in_scopes scopes (set_ID (rule_binding r core) id) &&
    res_matches rk KIND_RESOURCE (set_ID (rule_binding r core) id) && kind_matches KIND_RESOURCE (set_ID (rule_binding r core) id))%bool = true ↔
  row_exists_resource ver rk scopes r.
Proof.
  intros Hc. destruct (exists_bools r core id ver scopes KIND_RESOURCE Hc) as (-> & -> & ->); [|done].
  destruct (rule_binding_fields r core id) as (_ & _ & _ & Er & _). unfold res_matches, row_exists_resource. rewrite Er.
  rewrite !andb_true_iff, !bool_decide_eq_true. unfold mkStringHandle. case_decide as Ee; [naive_solver|].
  cbn [sanitized_glob]. rewrite orb_false_r, orb_true_iff, !andb_true_iff, !negb_true_iff, bool_decide_eq_false.
  assert (IsGlob (r_Resource r) = false → key_matches (r_Resource r) (sanitized rk) = true ↔ r_Resource r = sanitized rk) as Hk.
  { intros Hg. unfold key_matches. by rewrite Hg, bool_decide_eq_true. }
  tauto.
Qed.

(** The existence tests [check] starts from are right: [ScopedResourceExists]
    holds exactly when some resource policy row has the version, one of the
    scopes and a matching resource, and [ScopedPrincipalExists] exactly when some
    principal policy row has the version and one of the scopes. *)
Theorem existence_tests m rows pool ver rk scopes :
  implements known m rows → (∀ bm, bm ∈ pool → cleared bm) →
  ∃ pe re x1 x2 pool1 pool2,
    ScopedPrincipalExists (bi m) pool ver scopes = Some (pe, x1, pool1) ∧ ScopedResourceExists (bi m) pool ver rk scopes = Some (re, x2, pool2) ∧
    (pe = true ↔ ∃ id r, rows !! id = Some r ∧ ver ≠ "" ∧ r_Version r = ver ∧ r_Scope r ∈ scopes ∧ r_PolicyKind r = KIND_PRINCIPAL) ∧
    (re = true ↔ ∃ id r, rows !! id = Some r ∧ row_exists_resource ver rk scopes r).
Proof.
  intros Hi Hp. pose proof (im_bi _ _ _ Hi) as Hb.
  destruct (with_arena_runs (bi m) Hb _ pool _ Hp (λ s, principal_exists_runs (bi m) ver scopes s)) as ([[pe x1] pool1] & E1 & Hpe & _).
  destruct (with_arena_runs (bi m) Hb _ pool _ Hp (λ s, resource_exists_runs (bi m) ver rk scopes s)) as ([[re x2] pool2] & E2 & Hre & _).
  exists pe, re, x1, x2, pool1, pool2. split_and!; [done..| |].
  - rewrite Hpe. setoid_rewrite elem_of_scan. split.
    + intros (b & id & Hl & Hf). destruct (live_row _ _ _ _ _ Hi Hl) as (r & core & Hr & Hc & ->). exists id, r. split; [done|].
      by apply principal_exists_row in Hf.
    + intros (id & r & Hr & Hx). destruct (row_live _ _ _ _ _ Hi Hr) as (core & Hc & Hl). eexists _, id. split; [exact Hl|].
      by apply principal_exists_row.
  - rewrite Hre. setoid_rewrite elem_of_scan. split.
    + intros (b & id & Hl & Hf). destruct (live_row _ _ _ _ _ Hi Hl) as (r & core & Hr & Hc & ->). exists id, r. split; [done|].
      by apply resource_exists_row in Hf.
    + intros (id & r & Hr & Hx). destruct (row_live _ _ _ _ _ Hi Hr) as (core & Hc & Hl). eexists _, id. split; [exact Hl|].
      by apply resource_exists_row.
Qed.

(** * Parent roles *)

(** C36: Role inheritance is the transitive closure of the declared parents.
    [IndexParentRoles] always terminates, also on cyclic declarations, and
    afterwards [AddParentRoles] returns the given roles followed by exactly the
    roles reachable from them through declared parents within one of the given
    scopes. *)
Theorem parent_roles_closure m spr scopes roles :
  ∃ m' ancestors, IndexParentRoles m spr = Some m' ∧ AddParentRoles m' scopes roles = roles ++ ancestors ∧
    ∀ b, b ∈ ancestors ↔ ∃ a scope pr, a ∈ roles ∧ scope ∈ scopes ∧ spr !! scope = Some (Some pr) ∧ tc (parent pr) a b.
Proof.
  destruct (compileParentRoleAncestors_runs spr) as (p & E & Hp).
  destruct (AddParentRoles_spec (set_parentRoles p m) scopes roles) as (anc & Ea & Hanc).
  exists (set_parentRoles p m), anc. unfold IndexParentRoles. rewrite E. split_and!; [done..|]. intros b. rewrite Hanc. split.
  - intros (a & Ha & Hin). apply (ancestor_in_indexed spr) in Hin as (scope & pr & ? & ? & ?); [|done]. eauto 10.
  - intros (a & scope & pr & Ha & ? & ? & ?). exists a. split; [done|]. apply (ancestor_in_indexed spr); [done|]. eauto 10.
Qed.
End index.

(** * Serialisation *)

Section serialise.
Context `{GlobEngine} `{CelCompiler} `{GoMapOrder} `{ContentHash} `{IndexCodec} `{StructValues} `{!IndexCodecLaws} `{!StructValuesLaws}.
Context (known : RuleRow → Prop).

(** The message that parameters are written as. *)
Definition params_message (proto : option Params) : Params := MkParams (proto_vars proto) (proto_constants proto).
(** Parameters read back are shared by the hash of their message. *)
Definition messages_distinct : Prop := ∀ p q, known_params known p → known_params known q →
  hash_params (Some (params_message p)) = hash_params (Some (params_message q)) → params_message p = params_message q.

(** C23: Writing an index that stands for rule rows gives bytes, and reading them gives
    an index with the same bindings under the same identifiers, the same evaluation
    keys and the same inherited roles, on which every query returns what it returns on
    the original, up to the cells that hold reference counts. *)
Theorem marshal_roundtrip m rows :
  implements known m rows → messages_distinct →
  ∃ data m', Marshal m = Some (inl data) ∧ Unmarshal data = Some (inl m') ∧ parentRoles m' = parentRoles m ∧
    (∀ id, er <$> lv (bi m') id = er <$> lv (bi m) id) ∧
    (∀ id b, lv (bi m) id = Some b → evalKey (bi m') id = evalKey (bi m) id) ∧
    ∀ pool ver rk sco act roles pk p, (∀ bm, bm ∈ pool → cleared bm) → ∃ bs x pool1 bs' x' pool2,
      Query (bi m) pool ver rk sco act roles pk p [] = Some (bs, x, pool1) ∧
      Query (bi m') pool ver rk sco act roles pk p [] = Some (bs', x', pool2) ∧ er <$> bs' = er <$> bs.
Proof.
  intros Hi Hd. assert (∀ p, stored m p → ∃ proto, known_params known proto ∧ params_pb p = params_message proto) as Hst.
  { intros p Hp. destruct (stored_for known m rows Hi p Hp) as (proto & Hk & Hf). exists proto. split; [done|].
    unfold params_pb, params_message. by rewrite (pf_vars _ _ Hf), (pf_constants _ _ Hf). }
  destruct (Marshal_Unmarshal known m rows Hi) as (data & m' & Em & Eu & [Hb Hl Hk Hp]).
  { intros p q (p' & ? & ->)%Hst (q' & ? & ->)%Hst. by apply Hd. }
  exists data, m'. split_and!; [done..|]. intros pool ver rk sco act roles pk p Hpool.
  destruct (Query_runs (bi m) pool ver rk sco act roles pk p [] (im_bi _ _ _ Hi) Hpool) as (x & pool1 & E1).
  destruct (Query_runs (bi m') pool ver rk sco act roles pk p [] Hb Hpool) as (x' & pool2 & E2).
  do 6 eexists. split_and!; [exact E1|exact E2|]. by apply er_Query_spec.
Qed.
End serialise.

(** * The theorems on concrete indexes *)

(** A message is its own encoding, and constants are protobuf values already. *)
#[local] Instance c_codec : IndexCodec := {| wire := BitmapIndexPB; MarshalVT := Some; UnmarshalVT := Some |}.
#[local] Instance c_codec_laws : IndexCodecLaws.
Proof. intros msg. by exists msg. Qed.
#[local] Instance c_values : StructValues := Some.
#[local] Instance c_values_laws : StructValuesLaws.
Proof. done. Qed.

Lemma plain_messages : messages_distinct plain_row.
Proof.
  intros p q (r & (H1 & H2 & _) & Hp) (r' & (H1' & H2' & _) & Hq) E. unfold hash_params, c_hash in E. apply encode_N_inj in E.
  apply vars_code_inj in E; [by apply (inj Some) in E| |].
  - by destruct Hp as [->| ->]; [destruct (r_Params r)|destruct (r_DerivedRoleParams r)].
  - by destruct Hq as [->| ->]; [destruct (r_Params r')|destruct (r_DerivedRoleParams r')].
Qed.

Definition doc_rows : list RuleRow := policy_rows doc_policy ++ policy_rows alice_policy.
Definition doc_ops : list index_op := [I_IndexRules doc_rows; I_DeletePolicy (PrincipalPolicyFQN "alice" "default" ""); I_Compact].

Lemma doc_ops_ok : Forall (index_op_ok plain_row) doc_ops.
Proof. apply Forall_cons. split; [exact doc_plain|]. apply Forall_cons. split; [vm_compute; discriminate|]. apply Forall_cons. by split; [|apply Forall_nil]. Qed.

Lemma doc_index : ∃ m rows, implements plain_row m rows ∧ (map_to_list rows).*2 ≡ₚ foldl rows_op [] doc_ops.
Proof.
  destruct (holds_history plain_row plain_no_collisions doc_ops New [] (holds_new _) doc_ops_ok) as (m & _ & rows & Hi & Hp); [vm_compute; reflexivity|]. eauto.
Qed.

Lemma index_history_witness : ∃ m rows, foldM run_index_op New doc_ops = Some m ∧ implements plain_row m rows ∧ size rows = 4.
Proof.
  destruct (index_history plain_row plain_no_collisions doc_ops) as (m & rows & E & Hi & Hp).
  - apply doc_ops_ok.
  - vm_compute. reflexivity.
  - exists m, rows. split; [exact E|]. split; [exact Hi|]. rewrite <-length_map_to_list, <-(length_fmap snd), Hp. vm_compute. reflexivity.
Defined.

Definition doc_kind : ResourceKind := NewResourceKind "doc".

Lemma query_is_scan_witness :
  ∃ m rows x pool', implements plain_row m rows ∧
    Query (bi m) [] "default" doc_kind "" "view" ["user"] KIND_RESOURCE "" [] =
      Some (Query_spec (bi m) "default" doc_kind "" "view" ["user"] KIND_RESOURCE "" [], x, pool').
Proof.
  destruct doc_index as (m & rows & Hi & _).
  destruct (query_is_scan plain_row m rows [] "default" doc_kind "" "view" ["user"] KIND_RESOURCE "" [] Hi) as (x & pool' & E & _).
  - intros bm H. inversion H.
  - exists m, rows, x, pool'. split; [exact Hi|exact E].
Defined.

Lemma query_rows_witness :
  ∃ m rows bs x pool', implements plain_row m rows ∧
    Query (bi m) [] "default" doc_kind "" "view" ["user"] KIND_RESOURCE "" [] = Some (bs, x, pool') ∧
    ∀ id r, rows !! id = Some r → row_matches "default" doc_kind "" "view" ["user"] KIND_RESOURCE "" r = true → ∃ b, b ∈ bs ∧ bh_ID b = id.
Proof.
  destruct doc_index as (m & rows & Hi & _).
  destruct (with_arena_runs (bi m) (im_bi _ _ _ Hi) (Query_state "default" doc_kind "" "view" ["user"] KIND_RESOURCE "" []) [] (λ _, True)) as ([[bs x] pool'] & E & _).
  { intros bm H. inversion H. }
  { intros s Hs. eapply sruns_mono; [by apply Query_state_runs|done]. }
  exists m, rows, bs, x, pool'. split; [exact Hi|]. split; [exact E|]. intros id r Hr Hm.
  destruct (query_rows plain_row m rows [] "default" doc_kind "" "view" ["user"] KIND_RESOURCE "" bs x pool' Hi) as [H1 _].
  - intros bm H. inversion H.
  - exact E.
  - destruct (H1 id r Hr Hm) as (b & Hb & Hid & _). exists b. split; [exact Hb|exact Hid].
Defined.

(** What a permutation of the rows says of the map that holds them. *)
Lemma rows_existsb (rows : gmap N RuleRow) l f : (map_to_list rows).*2 ≡ₚ l → existsb f l = true → ∃ id r, rows !! id = Some r ∧ f r = true.
Proof.
  intros Hp (r & Hr%list_elem_of_In & Hf)%existsb_exists. rewrite <-Hp in Hr. apply list_elem_of_fmap in Hr as ([id r'] & -> & Hr).
  apply elem_of_map_to_list in Hr. eauto.
Qed.
Lemma rows_forallb (rows : gmap N RuleRow) l f : (map_to_list rows).*2 ≡ₚ l → forallb f l = true → ∀ id r, rows !! id = Some r → f r = true.
Proof.
  intros Hp Hf id r Hr. rewrite forallb_forall in Hf. apply Hf, list_elem_of_In. rewrite <-Hp. apply list_elem_of_fmap.
  exists (id, r). split; [done|]. by apply elem_of_map_to_list.
Qed.

(** The documents, and a role policy of the users that lists only viewing images. *)
Definition narrowed_rows : list RuleRow := policy_rows doc_policy ++ policy_rows (role_policy "user" "" [] "img" ["view"]).

Lemma narrowed_ok : Forall (index_op_ok plain_row) [I_IndexRules narrowed_rows].
Proof. apply Forall_cons. split; [|by apply Forall_nil]. intros r. apply plain_rows. vm_compute. reflexivity. Qed.

Lemma role_policy_denies_witness :
  ∃ m rows bs x pool' v s res, implements plain_row m rows ∧
    Query (bi m) [] "default" doc_kind "" "view" ["user"] KIND_RESOURCE "" [] = Some (bs, x, pool') ∧
    newNoMatchRolePolicyDeny "user" v s res "view" ∈ bs.
Proof.
  destruct (holds_history plain_row plain_no_collisions [I_IndexRules narrowed_rows] New [] (holds_new _) narrowed_ok) as (m & _ & rows & Hi & Hp); [vm_compute; reflexivity|].
  destruct (with_arena_runs (bi m) (im_bi _ _ _ Hi) (Query_state "default" doc_kind "" "view" ["user"] KIND_RESOURCE "" []) [] (λ _, True)) as ([[bs x] pool'] & E & _).
  { intros bm H. inversion H. }
  { intros s Hs. eapply sruns_mono; [by apply Query_state_runs|done]. }
  destruct (role_policy_denies plain_row m rows [] "default" doc_kind "" "view" ["user"] "user" bs x pool' Hi) as [[_ H] _].
  - intros bm H. inversion H.
  - discriminate.
  - discriminate.
  - left.
  - exact E.
  - apply (rows_existsb _ _ _ Hp). vm_compute. reflexivity.
  - destruct H as (v & s & res & H); [split|].
    + apply (rows_existsb _ _ _ Hp). vm_compute. reflexivity.
    + intros id r Hr Hrole Hc. pose proof (rows_forallb _ _ (λ r, negb (role_row "default" "" ["user"] "user" r && row_covers doc_kind r)) Hp) as Hf.
      rewrite <-negb_true_iff. revert Hc. rewrite <-not_false_iff_true. intros []. specialize (Hf eq_refl id r Hr). cbv beta in Hf. rewrite Hrole in Hf. by apply negb_true_iff in Hf.
    + exists m, rows, bs, x, pool', v, s, res. split; [exact Hi|]. split; [exact E|exact H].
Defined.

Lemma query_multi_is_scan_witness :
  ∃ m out x pool', QueryMulti (bi m) [] [] ["doc"] [] ["user"; "admin"] [] true = Some (out, x, pool').
Proof.
  destruct doc_index as (m & rows & Hi & _).
  destruct (query_multi_is_scan plain_row m rows [] [] ["doc"] [] ["user"; "admin"] [] true Hi) as (out & x & pool' & E & _).
  - intros bm H. inversion H.
  - exists m, out, x, pool'. exact E.
Defined.

Lemma existence_tests_witness :
  ∃ m pe re x1 x2 pool1 pool2, ScopedPrincipalExists (bi m) [] "default" [""] = Some (pe, x1, pool1) ∧
    ScopedResourceExists (bi m) [] "default" doc_kind [""] = Some (re, x2, pool2).
Proof.
  destruct doc_index as (m & rows & Hi & _).
  destruct (existence_tests plain_row m rows [] "default" doc_kind [""] Hi) as (pe & re & x1 & x2 & pool1 & pool2 & E1 & E2 & _).
  - intros bm H. inversion H.
  - exists m, pe, re, x1, x2, pool1, pool2. split; [exact E1|exact E2].
Defined.

Lemma marshal_roundtrip_witness :
  ∃ m rows data m', implements plain_row m rows ∧ size rows = 4 ∧ Marshal m = Some (inl data) ∧ Unmarshal data = Some (inl m') ∧ parentRoles m' = parentRoles m.
Proof.
  destruct doc_index as (m & rows & Hi & Hp).
  destruct (marshal_roundtrip plain_row m rows Hi plain_messages) as (data & m' & E1 & E2 & E3 & _).
  exists m, rows, data, m'. split; [exact Hi|]. split; [|split; [exact E1|split; [exact E2|exact E3]]].
  rewrite <-length_map_to_list, <-(length_fmap snd), Hp. vm_compute. reflexivity.
Defined.
