(* ===== verification/PolicyTheorems.v ===== *)
(** What names, scope permissions and conditions promise. *)
From S2P Require Import Prelude GoRuntime Bitmap Arena LazyDim Dimension GlobDim Namer Policy ScopePerms IndexCore IndexQuery Index RuleTableBuild RuleTable Eval Concrete.

Local Open Scope string_scope.
Local Open Scope list_scope.
Open Scope nat_scope.

(** * Names *)

(** Sanitising a name is idempotent, and policy keys and fully-qualified
    names determine each other: trimming the prefix of the name of any policy and
    adding it back gives the name. *)
Theorem names_stable v p : sanitize (sanitize v) = sanitize v ∧ FQNFromPolicyKey (PolicyKey p) = FQN p.
Proof.
  split.
  - assert (sanitize v = v ∨ ContainsChar isInvalidIdentifierChar (sanitize v) = false) as [Hv|Hc]; [|by rewrite !Hv|by apply sanitize_clean].
    unfold sanitize. destruct (negb _); [by left|]. destruct (oldNamePattern_MatchString v); [right; apply replace_invalid_clean|by left].
  - unfold PolicyKey, PolicyKeyFromFQN, FQNFromPolicyKey.
    assert (∀ s, fqnPrefix +:+ TrimPrefix (fqnPrefix +:+ s) fqnPrefix = fqnPrefix +:+ s) as Ht by (intros s; by rewrite TrimPrefix_app).
    destruct p; cbn [FQN]; unfold ResourcePolicyFQN, PrincipalPolicyFQN, RolePolicyFQN, withScope, versioned; try case_decide;
      rewrite ?string_app_assoc; apply Ht.
Qed.

Abbreviation no_slash s := (ContainsChar (λ c, bool_decide (c = "/"%char)) s = false).

Lemma versioned_no_slash prefix name version :
  no_slash prefix → no_slash (sanitize name) → no_slash (sanitize version) → no_slash (versioned prefix name version).
Proof. intros H1 H2 H3. unfold versioned. rewrite !ContainsChar_app, H1, H2, H3. done. Qed.

Lemma scope_of_withScope fqn scope : no_slash fqn → ScopeFromFQN (withScope fqn scope) = scope.
Proof. intros Hf. unfold ScopeFromFQN, withScope. case_decide as E; [subst; by apply after_slash_none|by apply after_slash_app]. Qed.

(** The scope of a policy can be read back from its fully-qualified name,
    for every kind of policy that has a scope, when neither the sanitised name
    nor the sanitised version contains a slash. *)
Theorem scope_from_fqn_roundtrip name version scope :
  no_slash (sanitize name) → no_slash (sanitize version) →
  ScopeFromFQN (ResourcePolicyFQN name version scope) = scope ∧ ScopeFromFQN (PrincipalPolicyFQN name version scope) = scope ∧
  ScopeFromFQN (RolePolicyFQN name version scope) = scope.
Proof.
  intros Hn Hv. unfold ResourcePolicyFQN, PrincipalPolicyFQN, RolePolicyFQN.
  split; [by apply scope_of_withScope, versioned_no_slash|]. split; [by apply scope_of_withScope, versioned_no_slash|].
  apply scope_of_withScope, versioned_no_slash; [done..|]. by case_decide.
Qed.

Lemma scope_from_fqn_roundtrip_witness : ScopeFromFQN (ResourcePolicyFQN "leave:request" "20210210" "acme.hr") = "acme.hr".
Proof. exact (proj1 (scope_from_fqn_roundtrip "leave:request" "20210210" "acme.hr" eq_refl eq_refl)). Defined.

(** ** Scopes as paths *)

Fixpoint join_scope (segs : list string) : string :=
  match segs with
  | [] => ""
  | [s] => s
  | s :: segs => s +:+ "." +:+ join_scope segs
  end.

Definition segment (s : string) : Prop := s ≠ "" ∧ ContainsChar (λ c, bool_decide (c = "."%char)) s = false.

Lemma join_scope_snoc segs s : segs ≠ [] → join_scope (segs ++ [s]) = join_scope segs +:+ "." +:+ s.
Proof.
  induction segs as [|x segs IH]; [done|]. intros _. destruct segs as [|y segs]; [done|].
  change (join_scope ((x :: y :: segs) ++ [s])) with (x +:+ "." +:+ join_scope ((y :: segs) ++ [s])).
  rewrite IH by done. change (join_scope (x :: y :: segs)) with (x +:+ "." +:+ join_scope (y :: segs)). by rewrite !string_app_assoc.
Qed.

Lemma join_scope_nonempty segs : segs ≠ [] → Forall segment segs → join_scope segs ≠ "".
Proof. destruct segs as [|s [|t segs]]; [done|..]; intros _ [[Hs _] _]%Forall_cons; [done|]. cbn. by destruct s. Qed.

(** The proper prefixes of a path, the longest first. *)
Definition proper_prefixes (segs : list string) : list (list string) := (λ n, take n segs) <$> down (length segs).

(** The ancestors of a scope are the proper prefixes of its path, nearest
    first and ending with the root scope. *)
Theorem scope_parents_prefixes segs : Forall segment segs → ScopeParents (join_scope segs) = join_scope <$> proper_prefixes segs.
Proof.
  unfold proper_prefixes. induction segs as [|s segs IH] using rev_ind; [done|]. intros [Hsegs [Hs _]%Forall_cons]%Forall_app.
  rewrite length_app, Nat.add_1_r, down_S, !fmap_cons, take_app_length.
  assert (join_scope <$> ((λ n, take n (segs ++ [s])) <$> down (length segs)) = join_scope <$> ((λ n, take n segs) <$> down (length segs))) as ->.
  { f_equal. apply list_fmap_ext. intros i n Hn. apply list_elem_of_lookup_2, elem_of_down in Hn. apply take_app_le. lia. }
  destruct segs as [|t segs]; [exact (ScopeParents_top s (proj1 Hs) (proj2 Hs))|].
  rewrite join_scope_snoc by done. rewrite ScopeParents_step; [|by apply join_scope_nonempty|apply Hs]. by rewrite IH.
Qed.

Lemma scope_parents_prefixes_witness : ScopeParents "acme.hr.uk" = ["acme.hr"; "acme"; ""].
Proof.
  apply (scope_parents_prefixes ["acme"; "hr"; "uk"]). repeat constructor; discriminate.
Defined.

(** The names a scoped policy is looked up under are those of the policy in
    its scope and in every ancestor of the scope, in that order. *)
Theorem fqn_tree_is_ancestry name version scope :
  String.get 0 scope ≠ Some "."%char →
  FQNTree (Policy_ResourcePolicy name version scope) = ResourcePolicyFQN name version scope :: (ResourcePolicyFQN name version <$> ScopeParents scope) ∧
  FQNTree (Policy_PrincipalPolicy name version scope) = PrincipalPolicyFQN name version scope :: (PrincipalPolicyFQN name version <$> ScopeParents scope).
Proof.
  intros Hdot.
  assert (∀ fqn : string, buildFQNTree fqn scope id = withScope fqn scope :: (withScope fqn <$> ScopeParents scope)) as Ht.
  { intros fqn. unfold buildFQNTree, ScopeParents. destruct (decide (scope = "")) as [->|Hne]; [done|]. cbn [app]. f_equal.
    destruct scope as [|c scope]; [done|]. set (s := String c scope) in *. change (String.length s) with (1 + String.length scope).
    rewrite down_app, !omap_app, fmap_app, <-app_assoc. f_equal.
    - induction (down (String.length scope)) as [|i l IH]; [done|]. rewrite fmap_cons. cbn [omap list_omap].
      assert (String.get (1 + i) s = String.get i scope) as Eg by done.
      unfold parent_at at 1. destruct (decide (String.get (1 + i) s = Some "."%char)) as [E|E].
      + rewrite decide_True by auto. rewrite fmap_cons. f_equal. exact IH.
      + rewrite decide_False by (intros [?|?]; [done|lia]). exact IH.
    - change (down 1) with [0]. cbn [omap list_omap app]. unfold parent_at. repeat case_decide; try done; exfalso; naive_solver. }
  unfold FQNTree, ResourcePolicyFQN, PrincipalPolicyFQN. assert (∀ x, withScope x "" = x) as Hw by done.
  by split; rewrite Ht, Hw.
Qed.

Lemma fqn_tree_is_ancestry_witness :
  FQNTree (Policy_ResourcePolicy "doc" "default" "a.b") = ["cerbos.resource.doc.vdefault/a.b"; "cerbos.resource.doc.vdefault/a"; "cerbos.resource.doc.vdefault"].
Proof. exact (proj1 (fqn_tree_is_ancestry "doc" "default" "a.b" ltac:(vm_compute; discriminate))). Defined.

(** * Scope permissions *)

Inductive tracker_op :=
  | T_Add (kind : Kind) (policyKey scope : string) (sp : ScopePermissions)
  | T_Remove (policyKey : string).

Definition run_tracker_op (t : Tracker) (op : tracker_op) : Tracker :=
  match op with
  | T_Add kind policyKey scope sp => Tracker_Add t kind policyKey scope sp
  | T_Remove policyKey => Tracker_Remove t policyKey
  end.

(** What each policy last declared: its scope and normalised permissions. *)
Definition declare_op (m : gmap string (string * ScopePermissions)) (op : tracker_op) : gmap string (string * ScopePermissions) :=
  match op with
  | T_Add kind policyKey scope sp => if Constrained kind then <[policyKey := (scope, Normalise sp)]> m else m
  | T_Remove policyKey => delete policyKey m
  end.

Section tracker.
Context `{GoMapOrder}.

Definition tracks (t : Tracker) (m : gmap string (string * ScopePermissions)) : Prop :=
  Tracker_ok t ∧ ∀ scope key sp, settings_of t scope !! key = Some sp ↔ m !! key = Some (scope, sp).

Lemma tracks_op t m op : tracks t m → tracks (run_tracker_op t op) (declare_op m op).
Proof.
  intros [Ht Hm]. destruct op as [kind key scope sp|key]; cbn [run_tracker_op declare_op].
  - split; [by apply Tracker_Add_ok|]. intros s k x. destruct (Constrained kind) eqn:Ec.
    + rewrite Add_settings by done. destruct (decide (k = key)) as [->|Hne].
      * rewrite lookup_insert_eq. case_decide; naive_solver.
      * by rewrite lookup_insert_ne, Hm by done.
    + unfold Tracker_Add. rewrite Ec. apply Hm.
  - split; [by apply Tracker_Remove_ok|]. intros s k x. rewrite Remove_settings by done. case_decide as E.
    + subst. by rewrite lookup_delete_eq.
    + by rewrite lookup_delete_ne, Hm by done.
Qed.

Lemma tracks_history ops t m : tracks t m → tracks (foldl run_tracker_op t ops) (foldl declare_op m ops).
Proof. revert t m. induction ops as [|op ops IH]; intros t m Ht; [done|]. cbn [foldl]. by apply IH, tracks_op. Qed.

Lemma tracks_new : tracks NewTracker ∅.
Proof.
  split; [apply NewTracker_ok|]. intros scope key sp. unfold settings_of, NewTracker. cbn. by rewrite !lookup_empty.
Qed.

(** The tracker records what each policy last declared.  After any sequence
    of [Add] and [Remove], [Conflicts] reports exactly the scopes for which two
    policies have declared different permissions, and [Err] is nil exactly when
    there is no such scope. *)
Theorem tracker_conflicts ops scope :
  let t := foldl run_tracker_op NewTracker ops in
  let m := foldl declare_op ∅ ops in
  ((∃ c, c ∈ Tracker_Conflicts t ∧ c_Scope c = scope) ↔
     ∃ k1 sp1 k2 sp2, m !! k1 = Some (scope, sp1) ∧ m !! k2 = Some (scope, sp2) ∧ sp1 ≠ sp2) ∧
  (Tracker_Err t = None ↔ ∀ s k1 sp1 k2 sp2, m !! k1 = Some (s, sp1) → m !! k2 = Some (s, sp2) → sp1 = sp2).
Proof.
  intros t m. destruct (tracks_history ops NewTracker ∅ tracks_new) as [Ht Hm]. fold t m in Ht, Hm.
  assert (∀ s, (∃ c, c ∈ Tracker_Conflicts t ∧ c_Scope c = s) ↔ ∃ k1 sp1 k2 sp2, m !! k1 = Some (s, sp1) ∧ m !! k2 = Some (s, sp2) ∧ sp1 ≠ sp2) as Hc.
  { intros s. rewrite Conflicts_scopes by done. by setoid_rewrite Hm. }
  split; [apply Hc|]. unfold Tracker_Err. destruct (Tracker_Conflicts t) as [|c l] eqn:El; cbn [length].
  - rewrite decide_True by done. split; [|done]. intros _ s k1 sp1 k2 sp2 H1 H2. destruct (decide (sp1 = sp2)); [done|].
    destruct (proj2 (Hc s)) as (c & Hin & _); [by exists k1, sp1, k2, sp2|]. by apply elem_of_nil in Hin.
  - rewrite decide_False by done. split; [done|]. intros Hall. destruct (proj1 (Hc (c_Scope c))) as (k1 & sp1 & k2 & sp2 & H1 & H2 & Hne).
    { exists c. split; [left|done]. }
    destruct Hne. by eapply Hall.
Qed.

(** [Check] predicts conflicts.  For a policy of a constrained kind, [Check]
    reports a conflict exactly when some other policy, apart from the one to be
    ignored, has declared different permissions for the scope. *)
Theorem tracker_check ops kind policyKey scope sp ignored :
  Constrained kind = true →
  let t := foldl run_tracker_op NewTracker ops in
  let m := foldl declare_op ∅ ops in
  is_Some (Tracker_Check t kind policyKey scope sp ignored) ↔
    ∃ key have, m !! key = Some (scope, have) ∧ key ≠ policyKey ∧ key ≠ ignored ∧ have ≠ Normalise sp.
Proof.
  intros Hk t m. destruct (tracks_history ops NewTracker ∅ tracks_new) as [_ Hm]. fold t m in Hm.
  rewrite Check_spec by done. by setoid_rewrite Hm.
Qed.
End tracker.

Lemma tracker_check_witness :
  is_Some (Tracker_Check (foldl run_tracker_op NewTracker [T_Add KIND_RESOURCE "a" "s" SCOPE_PERMISSIONS_UNSPECIFIED])
    KIND_PRINCIPAL "b" "s" SCOPE_PERMISSIONS_REQUIRE_PARENTAL_CONSENT_FOR_ALLOWS "").
Proof.
  apply (tracker_check [T_Add KIND_RESOURCE "a" "s" SCOPE_PERMISSIONS_UNSPECIFIED] KIND_PRINCIPAL "b" "s"
    SCOPE_PERMISSIONS_REQUIRE_PARENTAL_CONSENT_FOR_ALLOWS "" eq_refl).
  exists "a", SCOPE_PERMISSIONS_OVERRIDE_PARENT. split; [vm_compute; reflexivity|]. repeat split; discriminate.
Defined.

(** * Conditions *)

Section conditions.
Context `{GlobEngine} `{CelRuntime} `{GoMapOrder}.

(** Evaluating a condition does not depend on the program cache.  Whatever
    has been compiled and cached before, as long as every cached program is what
    compiling its source gives, [SatisfiesCondition] returns the denotation of
    the condition, which mentions no cache, and keeps the cache right. *)
Theorem satisfies_condition_denotes ec consts vars c st :
  programs_ok st.1 →
  (SatisfiesCondition ec c consts vars st).1 = denote_opt ec consts vars c ∧ programs_ok (SatisfiesCondition ec c consts vars st).2.1.
Proof. apply SatisfiesCondition_spec. Qed.

(** Whether an expression evaluates to true. *)
Definition expr_true (ec : EvalContext) (consts : gmap string Value) (vars : gmap string (option cel_value)) (e : Expr) : bool :=
  match run_expr ec e consts vars with CelValue v => default false (cel_bool v) | _ => false end.

(** Outside strict mode conditions are propositional.  When none of its
    expressions fails to compile or to run, a well-formed condition evaluates, without an
    error, to the truth value of its [all], [any] and [none] operators over the
    expressions that evaluate to true; an expression that raises a CEL error
    counts as false. *)
Theorem satisfies_condition_truth ec consts vars c st :
  StrictEvaluation (ec_params ec) = false → (∀ e msg, e ∈ cond_exprs c → run_expr ec e consts vars ≠ CelFailure msg) →
  well_formed c = true → programs_ok st.1 →
  (SatisfiesCondition ec (Some c) consts vars st).1 = inl (truth (expr_true ec consts vars) c).
Proof.
  intros Hl Hf Hwf Hst. destruct (SatisfiesCondition_spec ec consts vars (Some c) st Hst) as [-> _]. cbn [denote_opt].
  apply denote_truth; [|done]. intros e He. unfold bool_expr, expr_true. destruct (run_expr ec e consts vars) eqn:E; [done|by rewrite Hl|by destruct (Hf e msg He)].
Qed.

Definition negate (r : bool + EvalErr) : bool + EvalErr := match r with inl b => inl (negb b) | inr e => inr e end.

(** Parental consent.  When rows are built for a policy whose scope requires
    parental consent, a conditional ALLOW becomes a DENY that applies exactly
    when the condition does not hold, with the same errors; every other row is
    kept as it is. *)
Theorem consent_row_negates sp row :
  (sp = SCOPE_PERMISSIONS_REQUIRE_PARENTAL_CONSENT_FOR_ALLOWS ∧ r_Effect row = EFFECT_ALLOW ∧
     ∃ c, r_Condition row = Some c ∧ r_Effect (consent_row sp row) = EFFECT_DENY ∧
       ∀ ec consts vars, denote_opt ec consts vars (r_Condition (consent_row sp row)) = negate (denote ec consts vars c)) ∨
  consent_row sp row = row.
Proof.
  unfold consent_row. destruct sp; [by right..|]. destruct (r_Effect row); [by right| |by right..]. destruct (r_Condition row) as [c|]; [|by right].
  left. split_and!; [done..|]. exists c. split_and!; [done..|]. intros ec consts vars. cbn. by destruct (denote ec consts vars c) as [[]|].
Qed.
End conditions.

(** An evaluation context of the concrete world. *)
Definition some_context : EvalContext := NewEvalContext params (checkInputToRequest (ask ["user"] owned ["view"])).
Definition some_condition : Condition := Cond_All [Cond_Expr (MkExpr "owner"); Cond_None [Cond_Expr (MkExpr "V.missing")]].

Definition some_cache : ProgramCache := {["owner" := "owner"]}.
Lemma some_cache_ok : programs_ok some_cache.
Proof. intros src p. unfold some_cache, ProgramCache. rewrite lookup_singleton_Some. by intros [<- <-]. Qed.

Lemma satisfies_condition_denotes_witness : (SatisfiesCondition some_context (Some some_condition) ∅ ∅ (some_cache, ∅)).1 = inl true.
Proof.
  rewrite (proj1 (satisfies_condition_denotes some_context ∅ ∅ (Some some_condition) (some_cache, ∅) some_cache_ok)).
  vm_compute. reflexivity.
Defined.

Lemma satisfies_condition_truth_witness : (SatisfiesCondition some_context (Some some_condition) ∅ ∅ (some_cache, ∅)).1 = inl true.
Proof.
  rewrite (satisfies_condition_truth some_context ∅ ∅ some_condition (some_cache, ∅)).
  - vm_compute. reflexivity.
  - vm_compute. reflexivity.
  - intros e msg H. cbn in H. rewrite !elem_of_cons, elem_of_nil in H. destruct H as [->|[->|[]]]; vm_compute; discriminate.
  - reflexivity.
  - exact some_cache_ok.
Defined.
