(* ===== verification/TableTheorems.v ===== *)
(** What the rule table and its manager promise: updates are exact on the rows a
    table stands for, failures are contained, and decisions are justified by
    rows. *)
From S2P Require Import Prelude GoRuntime Bitmap Arena LazyDim Dimension GlobDim Namer Policy ScopePerms IndexCore IndexQuery IndexQuerySpec IndexLookup Index IndexSpec ParentRoles RuleTableBuild RuleTable Manager Eval Check CheckSpec TableSpec ManagerSpec Serving Decision Concrete.

Local Open Scope string_scope.
Local Open Scope list_scope.
Open Scope nat_scope.

Section table.
Context `{GlobEngine} `{CelRuntime} `{GoMapOrder} `{ContentHash} `{StringHash} `{DerivedRoleHash} `{SchemaManager}.
Context (known : RuleRow → Prop) (Hnc : no_collisions known) (policy_known : string → Prop) (Hfqn : fqns_distinct policy_known).
Abbreviation table_inv := (table_inv known policy_known).
Abbreviation deliverable := (deliverable known policy_known).
Abbreviation loader_ok := (loader_ok known policy_known).

(** * Decisions *)

(** C2: Nothing is allowed without a rule.  When the response to a request says
    that an action is allowed, then for one of the principal's roles and either
    its principal policies or the resource policies there is a scope that
    overrides its parents, the scope of the response, such that in the scopes from
    the requested one up to it every DENY row that matches the request was found
    not to apply, and in one of them an ALLOW row that matches the request was
    found to hold, with no scope from that one up to the overriding one leaving
    ALLOWs to its parents.  When the resource policies allow it, every DENY row of
    the principal policies that matches for the first role was found not to apply. *)
Theorem allow_is_granted rt rows ep input out trail rt' action i :
  table_inv rt rows → checkWithAuditTrail rt ep input = Some (inl (out, trail), rt') →
  co_Actions out !! action = Some i → ei_Effect i = EFFECT_ALLOW → granted rt rows ep input action i.
Proof.
  intros Hi E Ha He. destruct (response_runs rt ep input (table_inv_ok _ _ _ _ Hi)) as ([r rt1] & E' & _ & Hr).
  rewrite E in E'. injection E' as <- <-. destruct Hr as [_ Hj]. destruct (Hj action i Ha) as [Hd|(pe & re & Hall)]; [congruence|].
  by apply (allowed_granted known rt rows ep input pe re action i (ti_rows _ _ _ _ Hi) Hall).
Qed.

(** C4: Every request gets a complete answer.  On a table that stands for a set
    of rows, [check] returns (it never panics); unless it returns an error the
    response has exactly the requested actions, each allowed or denied; and the
    table still stands for the same rows afterwards. *)
Theorem check_answers rt rows ep input :
  table_inv rt rows →
  ∃ r rt', checkWithAuditTrail rt ep input = Some (r, rt') ∧ table_inv rt' rows ∧
    match r with
    | inr _ => True
    | inl (out, _) => (∀ a, a ∈ ci_Actions input ↔ is_Some (co_Actions out !! a)) ∧
        ∀ a i, co_Actions out !! a = Some i → ei_Effect i = EFFECT_ALLOW ∨ ei_Effect i = EFFECT_DENY
    end.
Proof.
  intros Hi. pose proof (table_inv_ok _ _ _ _ Hi) as Hok.
  destruct (response_runs rt ep input Hok) as ([r rt'] & E & Hc & Hr). exists r, rt'. split; [done|]. split.
  - by eapply table_inv_cached.
  - destruct r as [[out trail]|]; [|done]. destruct Hr as [Ha Hj]. split; [done|]. intros a i Hl.
    destruct (Hj a i Hl) as [?|(pe & re & Hall)]; [by right|]. left.
    by apply (allowed_granted known rt rows ep input pe re a i (ti_rows _ _ _ _ Hi) Hall).
Qed.

(** Deny by default.  A table without an ALLOW row denies every action of
    every request. *)
Theorem default_deny rt rows ep input out trail rt' action i :
  table_inv rt rows → (∀ id r, rows !! id = Some r → r_Effect r ≠ EFFECT_ALLOW) →
  checkWithAuditTrail rt ep input = Some (inl (out, trail), rt') →
  co_Actions out !! action = Some i → ei_Effect i = EFFECT_DENY.
Proof.
  intros Hi Hna E Ha. destruct (response_runs rt ep input (table_inv_ok _ _ _ _ Hi)) as ([r rt1] & E' & _ & Hr).
  rewrite E in E'. injection E' as <- <-. destruct Hr as [_ Hj]. destruct (Hj action i Ha) as [?|(pe & re & Hall)]; [done|].
  destruct (allowed_granted known rt rows ep input pe re action i (ti_rows _ _ _ _ Hi) Hall)
    as [_ (pt & role & pre & post & _ & _ & _ & _ & (before & s & after & id & r & _ & Hr & He & _) & _)].
  by destruct (Hna id r Hr).
Qed.

Lemma response_lookup {V} (g : string → V) l a i : foldl (λ m action, <[action := g action]> m) (∅ : gmap string V) l !! a = Some i → i = g a.
Proof.
  assert (∀ m : gmap string V, (∀ b j, m !! b = Some j → j = g b) → ∀ b j, foldl (λ m action, <[action := g action]> m) m l !! b = Some j → j = g b) as Hf.
  { induction l as [|x l IH]; intros m Hm; [done|]. cbn [foldl]. apply IH. intros b j [[<- <-]|[_ Hl]]%lookup_insert_Some; [done|by apply Hm]. }
  apply Hf. intros b j. by rewrite lookup_empty.
Qed.

(** A rejected request is denied.  When schema validation reports errors and
    asks for rejection, the check returns a response in which every action is
    denied and, when some policy applies, the validation errors are reported;
    nothing else is evaluated, and the table is unchanged. *)
Theorem schema_rejection_denies rt ep input errs :
  let scopes k s name ver := GetAllScopes rt k (Scope s ep) name (PolicyVersion ver ep) (LenientScopeSearch ep) in
  let ps := scopes KIND_PRINCIPAL (pr_Scope (ci_Principal input)) (pr_Id (ci_Principal input)) (pr_PolicyVersion (ci_Principal input)) in
  let rs := scopes KIND_RESOURCE (rs_Scope (ci_Resource input)) (rs_Kind (ci_Resource input)) (rs_PolicyVersion (ci_Resource input)) in
  ValidateCheckInput (GetSchema rt rs.2) input = inl (errs, true) → errs ≠ [] →
  ∃ out trail, checkWithAuditTrail rt ep input = Some (inl (out, trail), rt) ∧
    (∀ a i, co_Actions out !! a = Some i → ei_Effect i = EFFECT_DENY) ∧
    (ps.1.1 ≠ [] ∨ rs.1.1 ≠ [] → co_ValidationErrors out = errs).
Proof.
  intros scopes ps rs Hv Hne. unfold checkWithAuditTrail, check.
  change (GetAllScopes rt KIND_PRINCIPAL _ _ _ _) with ps. change (GetAllScopes rt KIND_RESOURCE _ _ _ _) with rs. clearbody ps rs.
  destruct ps as [[pscopes pkey] pfqn], rs as [[rscopes rkey] rfqn]. cbn [fst snd] in *. destruct (decide (pscopes = [] ∧ rscopes = [])) as [Hd|Hd].
  - bsimp. eexists _, _. split; [reflexivity|]. cbn [co_Actions co_ValidationErrors]. split; [|tauto].
    intros a i Hi. apply response_lookup in Hi as ->. cbn [effects newEvalResult]. by rewrite lookup_empty.
  - rewrite Hv. rewrite (bool_decide_true (errs ≠ [])) by done. cbn [andb]. bsimp. eexists _, _. split; [reflexivity|].
    cbn [co_Actions co_ValidationErrors]. split.
    + intros a i Hi. apply response_lookup in Hi as ->. set (er := foldl _ _ _). destruct (effects er !! a) as [j|] eqn:E; [|done].
      apply setEffect_all in E as [->|E]; [done|]. by destruct errs.
    + intros _. assert (∀ l i er, rs_validationErrors (foldl (λ er a, setEffect er a i) er l) = rs_validationErrors er) as Hk.
      { induction l as [|x l IH]; intros i er; [done|]. cbn [foldl]. by rewrite IH. }
      rewrite Hk. by destruct errs.
Qed.

(** * Updates *)

(** C24: An update replaces a policy.  When [addOrUpdate] reports no error, the
    policy was loaded and its scope permissions accepted, and the rows of the
    table are those it had before, less the rows of the policy and of the policy
    it replaces, plus exactly the rows the new policy compiles to; the inherited
    roles are up to date. *)
Theorem update_refines ld rt rows evt rt' :
  loader_ok ld → table_inv rt rows → current rt → room rt (length (first_rows ld evt)) →
  addOrUpdate ld rt evt = Some (rt', None) →
  ∃ rps rows', GetFirstMatch ld [ev_PolicyID evt] = Some rps ∧ checkPolicy rt rps (ev_OldPolicyID evt) = None ∧
    extends (drop_old evt rows) rows' (opt_rows rps) ∧ table_inv rt' rows' ∧ current rt'.
Proof using Hnc Hfqn.
  intros Hld Hi Hc Hroom E. destruct (addOrUpdate_runs known Hnc policy_known Hfqn ld Hld rt rows evt Hi Hroom) as ([rt1 e] & E' & Hp).
  rewrite E in E'. injection E' as <- <-. destruct Hp as (rps & rt0 & E1 & E2 & _ & Hc0 & [_ (added & rows' & He & Hi' & -> & Hc')]).
  exists rps, rows'. split_and!; auto.
Qed.

(** Failures of an update are reported and contained.  [addOrUpdate] always
    returns; a loader failure or a conflict of scope permissions leaves the
    table untouched, and a policy with a row that does not compile is left out
    from that row on, with the rows of the policy it was to replace gone. *)
Theorem update_failures ld rt rows evt :
  loader_ok ld → table_inv rt rows → room rt (length (first_rows ld evt)) →
  ∃ rt' e, addOrUpdate ld rt evt = Some (rt', e) ∧
    match e with
    | None => True
    | Some LoaderFailed | Some (Rejected _) => rt' = rt
    | Some AddFailed => ∃ rps added r rest rows', GetFirstMatch ld [ev_PolicyID evt] = Some rps ∧
        opt_rows rps = added ++ r :: rest ∧ ¬ row_compiles r ∧ extends (drop_old evt rows) rows' added ∧ table_inv rt' rows'
    | Some (ReloadFailed _) => False
    end.
Proof using Hnc Hfqn.
  intros Hld Hi Hroom. destruct (addOrUpdate_runs known Hnc policy_known Hfqn ld Hld rt rows evt Hi Hroom) as ([rt1 e] & E & Hp).
  exists rt1, e. split; [done|]. destruct e as [[]|]; cbn in Hp; [apply Hp|apply Hp| |done|done].
  destruct Hp as (rps & rt0 & E1 & _ & [_ (added & rows' & He & Hi' & r & rest & El & Hn)]). exists rps, added, r, rest, rows'. done.
Qed.


(** C31: Reloading is all or nothing.  [reload] returns; either it reports an
    error and the previous table stays in use, or the new table stands for
    exactly the rows of all policies the loader delivered. *)
Theorem reload_all_or_nothing ld m rows :
  loader_ok ld → table_inv (mgr_RuleTable m) rows →
  (∀ all, LoadAll ld = Some all → (N.of_nat (length (all_rows all)) < 2 ^ 32)%N) →
  ∃ m', reload ld m = Some m' ∧
    ((lastReloadErr m' ≠ None ∧ mgr_RuleTable m' = mgr_RuleTable m) ∨
     (lastReloadErr m' = None ∧ ∃ all rows', LoadAll ld = Some all ∧ ¬ (inr () ∈ all) ∧ extends ∅ rows' (all_rows all) ∧
        table_inv (mgr_RuleTable m') rows' ∧ current (mgr_RuleTable m'))).
Proof using Hnc Hfqn.
  intros Hld Hi Hroom. destruct (reload_runs known Hnc policy_known Hfqn ld Hld m rows Hi Hroom) as (m' & E & Hp). exists m'. split; [done|].
  destruct (lastReloadErr m') as [e|]; [left; by destruct Hp|]. right. split; [done|].
  destruct Hp as (all & El & (rows' & He & Hi' & Hc & _) & Hn). exists all, rows'. done.
Qed.

(** No history of events makes a check fail.  From a table that stands for
    some rows, processing any list of storage events returns, and a check of any
    request on the resulting table returns. *)
Theorem events_then_check ld m rows events ep input :
  loader_ok ld → table_inv (mgr_RuleTable m) rows → room (mgr_RuleTable m) (sum_list (event_load ld <$> events)) →
  ∃ m' r, OnStorageEvent ld m events = Some m' ∧ checkWithAuditTrail (mgr_RuleTable m') ep input = Some r.
Proof using Hnc Hfqn.
  intros Hld Hi Hroom. destruct (OnStorageEvent_runs known Hnc policy_known Hfqn ld Hld events m rows Hi Hroom) as (m' & E & [[rows' Hi'] _]).
  destruct (response_runs (mgr_RuleTable m') ep input (table_inv_ok _ _ _ _ Hi')) as (r & Er & _). eauto.
Qed.

(** C8: Requests are served while events are handled.  From a table that stands for
    [rows], take any list of events and any interleaving of the critical sections that
    handle them with checks.  Then the table stands for rows that the sections run so
    far lead to ([rows_step]: the rows before, without the policy or some of the
    dependents, or with what was added again; for a reload, the rows before or those of
    everything the loader delivered); the handler can always go on; and every check
    returns a complete answer, which allows an action only if those rows grant it. *)
Theorem serving_while_updating ld m rows events s :
  loader_ok ld → table_inv (mgr_RuleTable m) rows → room (mgr_RuleTable m) (sum_list (event_load ld <$> events)) →
  rtc (step ld) (MkSystem m [] events) s →
  ∃ rows', rtc (rows_step ld) (MkRows rows [] events) (rows_of s rows') ∧ table_inv (mgr_RuleTable (sys_mgr s)) rows' ∧
    (sys_tasks s = [] ∧ sys_queue s = [] ∨ ∃ s', handler_step ld s s') ∧
    ∀ ep input, ∃ r rt', checkWithAuditTrail (mgr_RuleTable (sys_mgr s)) ep input = Some (r, rt') ∧
      match r with
      | inr _ => True
      | inl (out, _) => (∀ a, a ∈ ci_Actions input ↔ is_Some (co_Actions out !! a)) ∧
          ∀ a i, co_Actions out !! a = Some i → ei_Effect i = EFFECT_ALLOW → granted (mgr_RuleTable (sys_mgr s)) rows' ep input a i
      end.
Proof using Hnc Hfqn.
  intros Hld Hi Hroom Hsteps.
  destruct (steps_simulated known Hnc policy_known Hfqn ld Hld (MkSystem m [] events) s rows) as (rows' & Hs & Hr).
  { split; [done|constructor|]. unfold load. cbn. by rewrite Nat.add_0_r. }
  { done. }
  pose proof (sv_table _ _ _ _ _ Hs) as Hi'. exists rows'. split_and!; [done|done|by eapply (handler_progress known Hnc policy_known Hfqn ld Hld)|].
  intros ep input. destruct (response_runs (mgr_RuleTable (sys_mgr s)) ep input (table_inv_ok _ _ _ _ Hi')) as ([r rt'] & E & _ & Hr'). exists r, rt'. split; [done|].
  destruct r as [[out trail]|]; [|done]. destruct Hr' as [Ha Hj]. split; [done|]. intros a i Hl He.
  destruct (Hj a i Hl) as [Hd|(pe & re & Hall)]; [congruence|].
  by apply (allowed_granted known (mgr_RuleTable (sys_mgr s)) rows' ep input pe re a i (ti_rows _ _ _ _ Hi') Hall).
Qed.
End table.

(** * The theorems on concrete tables *)

Abbreviation c_inv := (TableSpec.table_inv plain_row named).

Lemma doc_deliverable p : p ∈ [doc_policy; alice_policy] → TableSpec.deliverable plain_row named p.
Proof.
  rewrite !elem_of_cons, elem_of_nil. intros [->|[->|[]]]; (split; [vm_compute; discriminate|]); intros r Hr; apply doc_plain, elem_of_app; [by left|by right].
Qed.

Definition doc_all : list (option RunnablePolicySet + unit) := [inl (Some doc_policy); inl (Some alice_policy)].

Lemma doc_all_elem p : inl (Some p) ∈ doc_all → p ∈ [doc_policy; alice_policy].
Proof.
  intros [E|[E|Hn%elem_of_nil]%elem_of_cons]%elem_of_cons; [injection E as ->; left|injection E as ->; right; left|done].
Qed.

(** The table built from what a loader delivers. *)
Definition built (all : list (option RunnablePolicySet + unit)) : RuleTable :=
  match newRuleTableFromIterableLoader all [] with Some (inl rt) => rt | _ => emptyRuleTable NewProtoRuletable [] end.
Definition builds (all : list (option RunnablePolicySet + unit)) : bool :=
  match newRuleTableFromIterableLoader all [] with Some (inl _) => true | _ => false end.

Lemma built_inv all :
  builds all = true → (∀ p, inl (Some p) ∈ all → TableSpec.deliverable plain_row named p) → (N.of_nat (length (all_rows all)) <? 2 ^ 32)%N = true →
  ∃ rows, c_inv (built all) rows ∧ current (built all) ∧ extends ∅ rows (all_rows all).
Proof.
  intros Hb Hd Hl%N.ltb_lt. destruct (newRuleTable_runs plain_row plain_no_collisions named named_distinct all []) as (r & E & Hr); [by intros bm ?%elem_of_nil|done..|].
  unfold built, builds in *. rewrite E in *. destruct r as [rt|]; [|done]. destruct Hr as [(rows & He & Hi & Hc & _) _]. exists rows. done.
Qed.

Definition doc_table : RuleTable := built doc_all.

Lemma doc_table_inv : ∃ rows, c_inv doc_table rows ∧ current doc_table ∧ extends ∅ rows (all_rows doc_all).
Proof.
  apply built_inv; [vm_compute; reflexivity| |vm_compute; reflexivity]. intros p Hp. by apply doc_deliverable, doc_all_elem.
Qed.

Definition view_request : CheckInput := ask ["user"] owned ["view"; "publish"].
Definition view_effect : option EffectInfo :=
  match checkWithAuditTrail doc_table params view_request with Some (inl (out, _), _) => co_Actions out !! "view" | _ => None end.

Lemma view_allowed : ∃ i, view_effect = Some i ∧ ei_Effect i = EFFECT_ALLOW.
Proof. eexists. split; vm_compute; reflexivity. Qed.

Lemma allow_is_granted_witness : ∃ rows i, c_inv doc_table rows ∧ granted doc_table rows params view_request "view" i.
Proof.
  destruct doc_table_inv as (rows & Hi & _). destruct view_allowed as (i & Hv & He). exists rows, i. split; [exact Hi|]. unfold view_effect in Hv.
  destruct (checkWithAuditTrail doc_table params view_request) as [[[[out trail]|e] rt']|] eqn:E; [|discriminate Hv..].
  exact (allow_is_granted plain_row named doc_table rows params view_request out trail rt' "view" i Hi E Hv He).
Defined.

Lemma check_answers_witness : ∃ r rt', checkWithAuditTrail doc_table params view_request = Some (r, rt').
Proof.
  destruct doc_table_inv as (rows & Hi & _). destruct (check_answers plain_row named doc_table rows params view_request Hi) as (r & rt' & E & _).
  exists r, rt'. exact E.
Defined.

(** A table with only a DENY rule. *)
Definition deny_policy : RunnablePolicySet :=
  resource_policy "doc" "" SCOPE_PERMISSIONS_UNSPECIFIED [] [] [rule "d1" ["view"] ["user"] [] EFFECT_DENY (Some "owner")].
Definition deny_all : list (option RunnablePolicySet + unit) := [inl (Some deny_policy)].

Definition deny_table : RuleTable := built deny_all.

Lemma deny_table_inv : ∃ rows, c_inv deny_table rows ∧ current deny_table ∧ extends ∅ rows (all_rows deny_all).
Proof.
  apply built_inv; [vm_compute; reflexivity| |vm_compute; reflexivity].
  intros p [E|Hn%elem_of_nil]%elem_of_cons; [|done]. injection E as ->. split; [vm_compute; discriminate|]. apply plain_rows. vm_compute. reflexivity.
Qed.

Definition no_allow (r : RuleRow) : Prop := r_Effect r ≠ EFFECT_ALLOW.
Lemma deny_rows_no_allow : Forall no_allow (all_rows deny_all).
Proof. vm_compute (all_rows deny_all). repeat constructor; discriminate. Qed.

Definition publish_effect : option EffectInfo :=
  match checkWithAuditTrail deny_table params view_request with Some (inl (out, _), _) => co_Actions out !! "publish" | _ => None end.

Lemma default_deny_witness : ∃ i, publish_effect = Some i ∧ ei_Effect i = EFFECT_DENY.
Proof.
  destruct deny_table_inv as (rows & Hi & _ & Hext).
  assert (is_Some publish_effect) as [i Hp] by (vm_compute; eauto). exists i. split; [exact Hp|]. unfold publish_effect in Hp.
  destruct (checkWithAuditTrail deny_table params view_request) as [[[[out trail]|e] rt']|] eqn:E; [|discriminate Hp..].
  refine (default_deny plain_row named deny_table rows params view_request out trail rt' "publish" i Hi _ E Hp).
  intros id r Hr. destruct (extends_lookup _ _ _ _ _ Hext Hr) as [Hn|Hin]; [by rewrite lookup_empty in Hn|].
  exact (proj1 (Forall_forall _ _) deny_rows_no_allow r Hin).
Defined.

Definition bad_request : CheckInput := ask ["user"] [("bad", V_null)] ["view"; "publish"].

Lemma schema_rejection_denies_witness :
  ∃ out trail, checkWithAuditTrail doc_table params bad_request = Some (inl (out, trail), doc_table) ∧ co_ValidationErrors out = [MkValidationError "/" "bad attribute" ErrSourceResource].
Proof.
  destruct (schema_rejection_denies doc_table params bad_request [MkValidationError "/" "bad attribute" ErrSourceResource]) as (out & trail & E & _ & Hv).
  - vm_compute. reflexivity.
  - discriminate.
  - exists out, trail. split; [exact E|]. apply Hv. right. vm_compute. discriminate.
Defined.

(** ** Updates *)

Definition new_doc_policy : RunnablePolicySet :=
  resource_policy "doc" "" SCOPE_PERMISSIONS_UNSPECIFIED [] [] [rule "n1" ["view"] ["admin"] [] EFFECT_ALLOW None].
Definition doc_loader : PolicyLoader :=
  MkLoader (λ _, Some (Some new_doc_policy)) (λ _, Some [Some alice_policy]) (Some doc_all).
Definition doc_event : Event := MkEvent EventAddOrUpdatePolicy (ResourcePolicyModuleID "doc" "default" "") None [PrincipalPolicyModuleID "alice" "default" ""].

Lemma doc_loader_ok : ManagerSpec.loader_ok plain_row named doc_loader.
Proof.
  split; cbn.
  - intros _ p [= <-]. split; [vm_compute; discriminate|]. apply plain_rows. vm_compute. reflexivity.
  - intros _ l p [= <-] [[= ->]|[]%elem_of_nil]%elem_of_cons. apply doc_deliverable. right. left.
  - intros l p [= <-] Hp. by apply doc_deliverable, doc_all_elem.
Qed.

Lemma doc_room n : (n < 1000) → room doc_table n.
Proof. intros Hn. unfold room. assert (slots doc_table = 5) as -> by (vm_compute; reflexivity). lia. Qed.

Lemma doc_update : ∃ rt', addOrUpdate doc_loader doc_table doc_event = Some (rt', None).
Proof.
  assert (match addOrUpdate doc_loader doc_table doc_event with Some (_, None) => true | _ => false end = true) as Hb by (vm_compute; reflexivity).
  destruct (addOrUpdate doc_loader doc_table doc_event) as [[rt' [e|]]|]; [done|eauto|done].
Qed.

Lemma update_refines_witness :
  ∃ rt' rows rows', addOrUpdate doc_loader doc_table doc_event = Some (rt', None) ∧
    extends (drop_old doc_event rows) rows' (policy_rows new_doc_policy) ∧ c_inv rt' rows'.
Proof.
  destruct doc_table_inv as (rows & Hi & Hc & _).
  destruct doc_update as [rt' E].
  destruct (update_refines plain_row plain_no_collisions named named_distinct doc_loader doc_table rows doc_event rt' doc_loader_ok Hi Hc) as (rps & rows' & El & _ & He & Hi' & _).
  - apply doc_room. apply Nat.ltb_lt. vm_compute. reflexivity.
  - exact E.
  - injection El as <-. exists rt', rows, rows'. split; [exact E|]. split; [exact He|exact Hi'].
Defined.

Lemma update_failures_witness : ∃ rt' e, addOrUpdate doc_loader doc_table doc_event = Some (rt', e).
Proof.
  destruct doc_table_inv as (rows & Hi & _).
  destruct (update_failures plain_row plain_no_collisions named named_distinct doc_loader doc_table rows doc_event doc_loader_ok Hi) as (rt' & e & E & _).
  - apply doc_room. apply Nat.ltb_lt. vm_compute. reflexivity.
  - exists rt', e. exact E.
Defined.


Lemma reload_all_or_nothing_witness : ∃ m', reload doc_loader (MkManager doc_table None) = Some m'.
Proof.
  destruct doc_table_inv as (rows & Hi & _).
  destruct (reload_all_or_nothing plain_row plain_no_collisions named named_distinct doc_loader (MkManager doc_table None) rows doc_loader_ok Hi) as (m' & E & _).
  - intros all [= <-]. vm_compute. reflexivity.
  - exists m'. exact E.
Defined.

Lemma events_then_check_witness :
  ∃ m' r, OnStorageEvent doc_loader (MkManager doc_table None) [doc_event; MkEvent EventReload 0%N None []] = Some m' ∧
    checkWithAuditTrail (mgr_RuleTable m') params view_request = Some r.
Proof.
  destruct doc_table_inv as (rows & Hi & _).
  destruct (events_then_check plain_row plain_no_collisions named named_distinct doc_loader (MkManager doc_table None) rows
    [doc_event; MkEvent EventReload 0%N None []] params view_request doc_loader_ok Hi) as (m' & r & E1 & E2).
  - apply doc_room. apply Nat.ltb_lt. vm_compute. reflexivity.
  - exists m', r. split; [exact E1|exact E2].
Defined.

(** Half way through the update of the documents, their policy is deleted. *)
Definition half_table : option RuleTable := doDeletePolicy doc_table (ev_PolicyID doc_event).

Lemma half_reached rt : half_table = Some rt →
  rtc (step doc_loader) (MkSystem (MkManager doc_table None) [] [doc_event]) (update_window doc_loader (MkManager doc_table None) doc_event [] (Some new_doc_policy) rt).
Proof. intros E. apply update_window_reached; [reflexivity|reflexivity|vm_compute; reflexivity|exact E]. Qed.

Lemma serving_while_updating_witness :
  ∃ half r rt', half_table = Some half ∧ checkWithAuditTrail half params view_request = Some (r, rt').
Proof.
  destruct doc_table_inv as (rows & Hi & _). destruct half_table as [half|] eqn:E.
  - destruct (serving_while_updating plain_row plain_no_collisions named named_distinct doc_loader (MkManager doc_table None) rows [doc_event]
      (update_window doc_loader (MkManager doc_table None) doc_event [] (Some new_doc_policy) half) doc_loader_ok Hi) as (rows' & _ & _ & _ & Hc).
    + apply doc_room. apply Nat.ltb_lt. vm_compute. reflexivity.
    + exact (half_reached half E).
    + destruct (Hc params view_request) as (r & rt' & Er & _). exists half, r, rt'. split; [reflexivity|exact Er].
  - exfalso. assert (match half_table with Some _ => true | None => false end = true) as Hb by (vm_compute; reflexivity).
    rewrite E in Hb. discriminate Hb.
Defined.
