(* ===== verification/EngineTheorems.v ===== *)
(** What the engine promises about batches of checks: every result is an answer of
    the rule table, in the place of its input, and every call returns, whatever the
    interleaving of calls, workers, cancellations and updates of the table. *)
From S2P Require Import Prelude GoRuntime Bitmap Arena LazyDim Dimension GlobDim Namer Policy ScopePerms IndexCore IndexQuery IndexQuerySpec IndexLookup Index IndexSpec RuleTableBuild RuleTable Manager Eval Check CheckSpec TableSpec ManagerSpec Serving Engine Decision Concrete TableTheorems.

Local Open Scope string_scope.
Local Open Scope list_scope.
Open Scope nat_scope.

Section engine.
Context `{GlobEngine} `{CelRuntime} `{GoMapOrder} `{ContentHash} `{StringHash} `{DerivedRoleHash} `{SchemaManager}.
Context (known : RuleRow → Prop) (Hnc : no_collisions known) (policy_known : string → Prop) (Hfqn : fqns_distinct policy_known).
Abbreviation table_inv := (table_inv known policy_known).
Abbreviation serves := (serves known policy_known).

Section runs.
Context (ld : PolicyLoader) (Hld : loader_ok known policy_known ld) (rows : gmap N RuleRow) (events : list Event).

(** The table stands for rows that the handler of [events] leads to from [rows]. *)
Definition stands (rt : RuleTable) (rows' : gmap N RuleRow) : Prop :=
  table_inv rt rows' ∧ ∃ ts q, rtc (rows_step ld) (MkRows rows [] events) (MkRows rows' ts q).

(** An answer of a table that stands for such rows. *)
Definition answer_of (ep : EvalParams) (input : CheckInput) (r : CheckOutput * gmap string string + list string) : Prop :=
  ∃ rt rows' rt', stands rt rows' ∧ checkWithAuditTrail rt ep input = Some (r, rt').

Definition in_service (x : system) : Prop := ∃ rows', serves ld x rows' ∧ rtc (rows_step ld) (MkRows rows [] events) (rows_of x rows').

Lemma service_checks x ep input : in_service x → ∃ r x', evaluate None ep input x = Some (r, x') ∧ in_service x'.
Proof using.
  intros (rows' & Hs & Hr). destruct x as [m ts q].
  destruct (response_runs (mgr_RuleTable m) ep input (table_inv_ok _ _ _ _ (sv_table _ _ _ _ _ Hs))) as ([r rt] & E & _).
  unfold evaluate. cbn [sys_mgr sys_tasks sys_queue]. rewrite E. do 2 eexists. split; [done|]. exists rows'.
  destruct (check_steps known policy_known ld _ _ rows' Hs (step_check m ts q ep input r rt E)) as [Hs' Er]. by rewrite Er.
Qed.

Lemma service_goes_on x x' : in_service x → handler_step ld x x' → in_service x'.
Proof using Hnc Hfqn Hld.
  intros (rows' & Hs & Hr) Hstep. destruct (handler_steps known Hnc policy_known Hfqn ld Hld _ _ _ Hs Hstep) as (rows1 & Hs1 & Hr1).
  exists rows1. split; [done|]. by eapply rtc_r.
Qed.

Lemma service_answers ep input r x x' : in_service x → evaluate None ep input x = Some (r, x') →
  match r with inl a => answer_of ep input (inl a) | inr (ErrCheck e) => answer_of ep input (inr e) | inr (ErrContext _) => False end.
Proof using.
  intros (rows' & Hs & Hr) E. destruct x as [m ts q]. unfold evaluate in E. cbn [sys_mgr sys_tasks sys_queue] in E.
  destruct (checkWithAuditTrail (mgr_RuleTable m) ep input) as [[r0 rt]|] eqn:Ec; [|done]. injection E as <- _.
  assert (answer_of ep input r0) as Ha.
  { exists (mgr_RuleTable m), rows', rt. split; [|done]. split; [apply Hs|]. by exists ts, q. }
  by destruct r0.
Qed.

Definition engine_runs : Engine → Engine → Prop := rtc (λ s s', engine_step s s' ∨ outside_step ld s s').

Lemma runs_ok s s' : engine_ok in_service s → engine_runs s s' → engine_ok in_service s'.
Proof using Hnc Hfqn Hld.
  intros Hok Hruns. revert Hok. induction Hruns as [|s s1 s' [Hstep|Hstep] _ IH]; intros Hok; [done|..]; apply IH.
  - eapply engine_step_ok; [apply service_checks|done|done].
  - eapply outside_step_ok; [apply service_goes_on|done|done].
Qed.

Lemma new_engine_ok n m : table_inv (mgr_RuleTable m) rows → room (mgr_RuleTable m) (sum_list (event_load ld <$> events)) →
  engine_ok in_service (NewFromConf n m events).
Proof using.
  intros Hi Hroom. split; cbn; try done.
  - exists rows. split; [|done]. split; [done|constructor|]. unfold load. cbn. by rewrite Nat.add_0_r.
  - by rewrite !length_replicate.
  - apply Forall_replicate. constructor.
  - by apply Forall_replicate.
Qed.
End runs.

(** A batch is answered in order.  Take an engine with any number of workers over a
    table that stands for [rows], and any interleaving of calls, workers, cancelled
    contexts and sections of the handler of [events].  A call of [Check] that has
    returned without an error has one output for every input, in its place: what a
    check of that input answers on a table that stands for rows the events lead to; its
    trail names exactly the effective policies of those answers.  A call that has
    returned an error was cancelled, or the check of one of its inputs failed. *)
Lemma returned_answers ld m rows events n s c ca r :
  loader_ok known policy_known ld → table_inv (mgr_RuleTable m) rows → room (mgr_RuleTable m) (sum_list (event_load ld <$> events)) →
  engine_runs ld (NewFromConf n m events) s → e_calls s !! c = Some ca → ca_result ca = Some r →
  match r with
  | inl (outs, trail) => length outs = length (ca_inputs ca) ∧ ∃ trails : nat → gmap string string,
      (∀ k input, ca_inputs ca !! k = Some input → ∃ out, outs !! k = Some (Some out) ∧ answer_of ld rows events (ca_opts ca) input (inl (out, trails k))) ∧
      (∀ key, key ∈ dom trail ↔ ∃ k, k < length outs ∧ key ∈ dom (trails k))
  | inr (ErrContext e) => ca_cancelled ca = Some e
  | inr (ErrCheck e) => ∃ input, input ∈ ca_inputs ca ∧ answer_of ld rows events (ca_opts ca) input (inr e)
  end.
Proof using Hnc Hfqn.
  intros Hld Hi Hroom Hruns Hc Hres. pose proof (runs_ok ld Hld rows events _ _ (new_engine_ok ld rows events n m Hi Hroom) Hruns) as Hok.
  destruct (eo_calls _ _ Hok c ca Hc) as (done & Hd). pose proof (co_result _ _ _ _ _ Hd) as Hr. rewrite Hres in Hr. destruct r as [[outs trail]|e].
  - destruct Hr as (-> & -> & Hlen). split; [apply (co_length _ _ _ _ _ Hd)|]. set (f := list_to_map done : gmap nat _).
    assert (∀ k, k < length (ca_inputs ca) → k ∈ done.*1) as Hall.
    { intros k Hk. pose proof (co_places _ _ _ _ _ Hd) as Hp. pose proof (Permutation_length Hp) as El. pose proof (co_next _ _ _ _ _ Hd).
      rewrite length_seq, !length_app, !length_fmap in El. set (p := pending _ _ _) in *. destruct p; [|cbn in *; lia]. destruct (ca_collector ca); [|cbn in *; lia].
      cbn in Hp, El. rewrite Hp. apply elem_of_seq. lia. }
    assert (NoDup done.*1) as Hnd.
    { pose proof (co_places _ _ _ _ _ Hd) as Hp. assert (NoDup (seq 0 (ca_next ca))) as Hs by apply NoDup_seq. rewrite <-Hp in Hs. by apply NoDup_app in Hs as (_ & _ & (_ & _ & Hs)%NoDup_app). }
    assert (∀ k r, (k, r) ∈ done → f !! k = Some r) as Hf by (intros k r; by apply elem_of_list_to_map_1).
    exists (λ k, match f !! k with Some (inl (_, t)) => t | _ => ∅ end). split.
    + intros k input Hk. pose proof (Hall k (lookup_lt_Some _ _ _ Hk)) as ([k' r] & -> & Hin)%list_elem_of_fmap. cbn in *. rewrite (Hf k' r Hin).
      destruct r as [[o t]|e]; [|destruct (co_failed _ _ _ _ _ Hd k' e Hin); congruence]. destruct (co_done _ _ _ _ _ Hd k' o t Hin) as (input' & Hk' & Ho & (x & x' & Hx & E)).
      rewrite Hk in Hk'. injection Hk' as <-. exists o. split; [done|]. by apply (service_answers ld rows events _ _ _ _ _ Hx E).
    + intros key. rewrite (co_trail _ _ _ _ _ Hd), (co_length _ _ _ _ _ Hd). split.
      * intros (k & o & t & Hin & Hk). exists k. rewrite (Hf _ _ Hin). destruct (co_done _ _ _ _ _ Hd k o t Hin) as (input & Hl & _). split; [by eapply lookup_lt_Some|done].
      * intros (k & Hk & Hkey). pose proof (Hall k Hk) as ([k' r] & -> & Hin)%list_elem_of_fmap. cbn in *. rewrite (Hf _ _ Hin) in Hkey.
        destruct r as [[o t]|e]; [eauto|]. rewrite dom_empty in Hkey. by apply elem_of_empty in Hkey.
  - destruct Hr as [(x & -> & Hcan)|(input & Hin & (x & x' & Hx & E))]; [done|]. pose proof (service_answers ld rows events _ _ _ _ _ Hx E) as Ha.
    destruct e as [|e]; [done|]. by exists input.
Qed.

(** C10: Batches return.  After any such interleaving the engine can take only finitely
    many further steps without another call ([work_left] bounds them), whatever the
    schedule; and when it can take none and was not stopped, every call has returned:
    no bounded channel ever blocks a call for good. *)
Theorem batch_returns ld m rows events n s :
  loader_ok known policy_known ld → table_inv (mgr_RuleTable m) rows → room (mgr_RuleTable m) (sum_list (event_load ld <$> events)) →
  engine_runs ld (NewFromConf n m events) s →
  (∀ k s', nsteps engine_step k s s' → k ≤ work_left s) ∧
  (∀ s', rtc engine_step s s' → e_stopped s' = false → (∀ s'', ¬ engine_step s' s'') → ∀ c ca, e_calls s' !! c = Some ca → is_Some (ca_result ca)).
Proof using Hnc Hfqn.
  intros Hld Hi Hroom Hruns. pose proof (runs_ok ld Hld rows events _ _ (new_engine_ok ld rows events n m Hi Hroom) Hruns) as Hok. split.
  - intros k s' Hk. clear Hok Hruns. induction Hk as [|k s s1 s' Hstep _ IH]; [lia|]. pose proof (engine_step_decreases _ _ Hstep). lia.
  - intros s' Hs' Hst Hrest c ca Hc. assert (engine_ok (in_service ld rows events) s') as Hok'.
    { apply (runs_ok ld Hld rows events s); [done|]. clear -Hs'. induction Hs' as [|? ? ? ? _ IH]; [done|]. eapply rtc_l; [by left|done]. }
    destruct (ca_result ca) eqn:Er; [by eexists|]. exfalso.
    destruct (engine_progress _ (service_checks ld rows events) s' c ca Hok' Hst Hc Er) as (s'' & Hstep). by apply (Hrest s'').
Qed.
End engine.

(** * Five requests over two workers, while the documents are updated *)

Definition c_engine : Engine := NewFromConf 2 (MkManager doc_table None) [doc_event].
Definition c_batch : list CheckInput := replicate 5 view_request.
Definition c_called (inputs : list CheckInput) : Engine := set_call 1 (NewCall c_engine inputs params) c_engine.

Example c_batch_parallel : ca_parallel (NewCall c_engine c_batch params) = true.
Proof. reflexivity. Qed.

Lemma c_engine_start : ∃ rows, TableSpec.table_inv plain_row named doc_table rows ∧ room doc_table (sum_list (event_load doc_loader <$> [doc_event])).
Proof. destruct doc_table_inv as (rows & Hi & _). exists rows. split; [exact Hi|]. apply doc_room. apply Nat.ltb_lt. vm_compute. reflexivity. Qed.

Lemma c_called_runs inputs : engine_runs doc_loader c_engine (c_called inputs).
Proof. apply rtc_once. right. apply os_call. reflexivity. Qed.

Lemma c_call_done inputs : ∃ s ca r, engine_runs doc_loader c_engine s ∧ e_calls s !! 1%N = Some ca ∧ ca_inputs ca = inputs ∧ ca_cancelled ca = None ∧ ca_result ca = Some r.
Proof.
  destruct c_engine_start as (rows & Hi & Hroom).
  pose proof (new_engine_ok plain_row named doc_loader rows [doc_event] 2 (MkManager doc_table None) Hi Hroom) as Hok0.
  pose proof (runs_ok plain_row plain_no_collisions named named_distinct doc_loader doc_loader_ok rows [doc_event] _ _ Hok0 (c_called_runs inputs)) as Hok.
  destruct (engine_rests _ (service_checks plain_row named doc_loader rows [doc_event]) (c_called inputs) 1 (NewCall c_engine inputs params) Hok) as (s & ca & Hrun & Hc & Hs & [r Hr]); [reflexivity|reflexivity|].
  exists s, ca, r. destruct Hs as (Ei & _ & _ & Ec). split_and!; [|exact Hc|exact Ei|exact Ec|exact Hr].
  unfold engine_runs. transitivity (c_called inputs); [exact (c_called_runs inputs)|]. eapply rtc_subrel; [|exact Hrun]. intros x y Hxy. left. exact Hxy.
Qed.

Lemma batch_returns_witness : work_left (c_called c_batch) = 39 ∧ ∀ k s, nsteps engine_step k (c_called c_batch) s → k ≤ 39.
Proof.
  destruct c_engine_start as (rows & Hi & Hroom).
  destruct (batch_returns plain_row plain_no_collisions named named_distinct doc_loader (MkManager doc_table None) rows [doc_event] 2 (c_called c_batch)
    doc_loader_ok Hi Hroom (c_called_runs c_batch)) as [Hb _].
  assert (work_left (c_called c_batch) = 39) as E by (vm_compute; reflexivity).
  split; [exact E|]. intros k s Hk. rewrite <- E. exact (Hb k s Hk).
Defined.
