(* ===== verification/ServiceTheorems.v ===== *)
(** What the API promises: the response to a request has, for every resource and in
    its place, the decisions on its actions, and nothing is allowed that the rows of the
    rule table do not grant. *)
From S2P Require Import Prelude GoRuntime Bitmap Arena LazyDim Dimension GlobDim Namer Policy ScopePerms IndexCore IndexQuery IndexQuerySpec IndexLookup Index IndexSpec RuleTableBuild RuleTable Manager Eval Check CheckSpec TableSpec ManagerSpec Serving Engine Decision Concrete PlanExpr PlanFilter PlanNode Plan AuxData Service TableTheorems EngineTheorems.

Local Open Scope string_scope.
Local Open Scope list_scope.
Open Scope nat_scope.

Section service.
Context `{GlobEngine} `{CelRuntime} `{GoMapOrder} `{ContentHash} `{StringHash} `{DerivedRoleHash} `{SchemaManager} `{JwtLibrary}.
Context (known : RuleRow → Prop) (Hnc : no_collisions known) (policy_known : string → Prop) (Hfqn : fqns_distinct policy_known).
Abbreviation table_inv := (table_inv known policy_known).
Abbreviation answer_of := (answer_of known policy_known).
Abbreviation stands := (stands known policy_known).

(** * The loops of the handlers *)

(** More than a limit, which is a [uint] read as an [int]. *)
Definition over (n : nat) (max : N) : Prop := (Z.of_nat n > go_int max)%Z.

Lemma actions_limit lim n : match checkNumActionsLimit lim n with
  | Some e => e = TooManyActions n (go_int (MaxActionsPerResource lim)) ∧ over n (MaxActionsPerResource lim)
  | None => ¬ over n (MaxActionsPerResource lim)
  end.
Proof. unfold checkNumActionsLimit. by case_decide. Qed.
Lemma resources_limit lim n : match checkNumResourcesLimit lim n with
  | Some e => e = TooManyResources n (go_int (MaxResourcesPerRequest lim)) ∧ over n (MaxResourcesPerRequest lim)
  | None => ¬ over n (MaxResourcesPerRequest lim)
  end.
Proof. unfold checkNumResourcesLimit. by case_decide. Qed.

Lemma entry_inputs_are lim req aux l : match entry_inputs lim req aux l with
  | inl inputs => inputs = (λ res, MkCheckInput (cr_RequestId req) (re_Resource res) (cr_Principal req) (re_Actions res) aux) <$> l ∧
      ∀ res, res ∈ l → ¬ over (length (re_Actions res)) (MaxActionsPerResource lim)
  | inr e => ∃ res, res ∈ l ∧ e = TooManyActions (length (re_Actions res)) (go_int (MaxActionsPerResource lim)) ∧
      over (length (re_Actions res)) (MaxActionsPerResource lim)
  end.
Proof.
  induction l as [|res l IH]; cbn [entry_inputs]; [split; [done|]; by intros ? ?%elem_of_nil|].
  pose proof (actions_limit lim (length (re_Actions res))) as Hl. destruct (checkNumActionsLimit lim _) as [e|].
  { destruct Hl. exists res. split_and!; [by left|done..]. }
  destruct (entry_inputs lim req aux l) as [inputs|e].
  - destruct IH as [-> Hin]. split; [done|]. intros r [->|Hr]%elem_of_cons; [done|by apply Hin].
  - destruct IH as (r & ? & ?). exists r. split; [by right|done].
Qed.

Lemma zip_outputs_are {A} (f : CheckInput → CheckOutput → A) inputs outs :
  length outs = length inputs → (∀ k, k < length inputs → ∃ out, outs !! k = Some (Some out)) →
  ∃ l, zip_outputs f inputs outs = Some l ∧ length l = length inputs ∧
    ∀ k input out, inputs !! k = Some input → outs !! k = Some (Some out) → l !! k = Some (f input out).
Proof.
  revert outs. induction inputs as [|input inputs IH]; intros [|o outs]; try done; intros Hl Ho; [by exists []|].
  destruct (Ho 0) as [out Eo]; [cbn; lia|]. cbn in Eo. injection Eo as ->. destruct (IH outs) as (l & E & El & Hl').
  - by injection Hl.
  - intros k Hk. apply (Ho (S k)). cbn. lia.
  - exists (f input out :: l). cbn [zip_outputs]. rewrite E. split_and!; [done|cbn; by rewrite El|]. intros [|k] i o' Hi Hk; cbn in *; [congruence|by apply Hl'].
Qed.

Lemma add_results_are keys outs resp :
  length outs = length keys → NoDup keys → (∀ k, k < length keys → ∃ out, outs !! k = Some (Some out)) →
  ∃ resp', add_results resp keys outs = Some resp' ∧ dom (csr_Instances resp') = dom (csr_Instances resp) ∪ list_to_set keys ∧
    (∀ key, key ∉ keys → csr_Instances resp' !! key = csr_Instances resp !! key) ∧
    ∀ k key out, keys !! k = Some key → outs !! k = Some (Some out) → csr_Instances resp' !! key = Some (MkEffectMap "" (effects_of out) (co_ValidationErrors out)).
Proof.
  revert outs resp. induction keys as [|key keys IH]; intros [|o outs] resp; try done; intros Hl Hnd Ho; [exists resp; cbn; split_and!; [done|set_solver|done|done]|].
  destruct (Ho 0) as [out Eo]; [cbn; lia|]. cbn in Eo. injection Eo as ->. apply NoDup_cons in Hnd as [Hk Hnd].
  destruct (IH outs (addResult resp key out)) as (resp' & E & Ed & Hother & Hin); [by injection Hl|done|intros k ?; apply (Ho (S k)); cbn; lia|].
  exists resp'. cbn [add_results]. split_and!; [done| | |].
  - rewrite Ed. cbn. rewrite dom_insert_L. set_solver.
  - intros key' [Hne Hni]%not_elem_of_cons. rewrite Hother by done. cbn. by rewrite lookup_insert_ne.
  - intros [|k] key' out' Hk' Hout; cbn in *; [|by eapply Hin]. injection Hk' as <-. injection Hout as <-. rewrite Hother by done. cbn. by rewrite lookup_insert_eq.
Qed.

(** * Decisions *)

Section runs.
Context (ld : PolicyLoader) (rows : gmap N RuleRow) (events : list Event).

(** The decisions are on the actions of the input, and an ALLOW is granted by rows that
    the table stood for. *)
Definition rightful (ep : EvalParams) (input : CheckInput) (actions : gmap string Effect) : Prop :=
  (∀ a, is_Some (actions !! a) ↔ a ∈ ci_Actions input) ∧
  ∀ a, actions !! a = Some EFFECT_ALLOW → ∃ rt rows' i, stands ld rows events rt rows' ∧ granted rt rows' ep input a i.

Lemma answer_rightful ep input out trail : answer_of ld rows events ep input (inl (out, trail)) → rightful ep input (effects_of out).
Proof.
  intros (rt & rows' & rt' & Hst & E). pose proof Hst as [Hi _].
  destruct (response_runs rt ep input (table_inv_ok _ _ _ _ Hi)) as ([r rt1] & E' & _ & Hr). rewrite E in E'. injection E' as <- <-. destruct Hr as [Ha Hj].
  split; intros a; unfold effects_of; rewrite lookup_fmap.
  - rewrite fmap_is_Some. symmetry. apply Ha.
  - intros (i & Hl & He)%fmap_Some. destruct (Hj a i Hl) as [Hd|(pe & re & Hall)]; [congruence|]. exists rt, rows', i. split; [done|].
    by apply (allowed_granted known rt rows' ep input pe re a i (ti_rows _ _ _ _ Hi) Hall).
Qed.
End runs.

(** The call [c] of the engine has returned what [eng] gives for its inputs; it was
    made with the parameters [ep] and its context ended as [ctx] says, if at all. *)
Definition call_made (s : Engine) (c : N) (ep : EvalParams) (ctx : option CtxErr)
    (eng : list CheckInput → (list (option CheckOutput) * gmap string string) + EngineErr) (inputs : list CheckInput) : Prop :=
  ∃ ca, e_calls s !! c = Some ca ∧ ca_inputs ca = inputs ∧ ca_opts ca = ep ∧ ca_cancelled ca = ctx ∧ ca_result ca = Some (eng inputs).

(** C5: From a request to its decisions.  Take any [CheckResources] request and, if it
    gets that far, the call of the engine that it makes, which has returned, under any
    interleaving with other calls, workers, cancellations and updates of the table.  The
    handler does not panic.  It responds with entries only if the request is within the limits and its
    auxiliary data was extracted; then there is one entry for every resource of the
    request, in order, which names the resource and has a decision on exactly the actions
    asked for it, and an action is only allowed if rows that the table stood for grant it
    to the principal on that resource.  Otherwise the status says why: too many resources,
    failed extraction of the auxiliary data, too many actions for one of the resources,
    the end of the context, or a check that failed. *)
Theorem check_resources_answers lim aux req eng ld m rows events n s c ep ctx :
  loader_ok known policy_known ld → table_inv (mgr_RuleTable m) rows → room (mgr_RuleTable m) (sum_list (event_load ld <$> events)) →
  engine_runs ld (NewFromConf n m events) s →
  (∀ inputs, CheckResources_inputs lim aux req = inl inputs → call_made s c ep ctx eng inputs) →
  ∃ resp, CheckResources lim aux req eng = Some resp ∧
    match resp with
    | inl entries => ¬ over (length (cr_Resources req)) (MaxResourcesPerRequest lim) ∧ length entries = length (cr_Resources req) ∧ ∃ a, aux = inl a ∧
        ∀ k res, cr_Resources req !! k = Some res → ¬ over (length (re_Actions res)) (MaxActionsPerResource lim) ∧ ∃ entry input, entries !! k = Some entry ∧
          ren_Id entry = rs_Id (re_Resource res) ∧ ren_Kind entry = rs_Kind (re_Resource res) ∧
          ci_Resource input = re_Resource res ∧ ci_Principal input = cr_Principal req ∧ ci_Actions input = re_Actions res ∧ ci_AuxData input = aux_fields a ∧
          rightful ld rows events ep input (ren_Actions entry)
    | inr e =>
        e = TooManyResources (length (cr_Resources req)) (go_int (MaxResourcesPerRequest lim)) ∧ over (length (cr_Resources req)) (MaxResourcesPerRequest lim) ∨
        e = InvalidAuxData ∧ (∃ err, aux = inr err) ∨
        (∃ res, res ∈ cr_Resources req ∧ e = TooManyActions (length (re_Actions res)) (go_int (MaxActionsPerResource lim)) ∧
           over (length (re_Actions res)) (MaxActionsPerResource lim)) ∨
        e = RequestCanceled ∧ ctx = Some Canceled ∨ e = RequestTimeout ∧ ctx = Some DeadlineExceeded ∨
        e = PolicyCheckFailed ∧ ∃ a res errs, aux = inl a ∧ res ∈ cr_Resources req ∧
          answer_of ld rows events ep (MkCheckInput (cr_RequestId req) (re_Resource res) (cr_Principal req) (re_Actions res) (aux_fields a)) (inr errs)
    end.
Proof using Hnc Hfqn.
  intros Hld Hi Hroom Hruns Hcall. unfold CheckResources, CheckResources_inputs in *.
  pose proof (resources_limit lim (length (cr_Resources req))) as Hres. destruct (checkNumResourcesLimit lim _) as [e|]; [exists (inr e); split; [done|by left]|].
  destruct aux as [a|err]; [|exists (inr InvalidAuxData); split; [done|]; right; left; eauto].
  pose proof (entry_inputs_are lim req (aux_fields a) (cr_Resources req)) as Hent. destruct (entry_inputs lim req _ _) as [inputs|e]; [|exists (inr e); split; [done|]; right; right; by left].
  destruct Hent as [Ein Hact], (Hcall inputs eq_refl) as (ca & Hc & Hin & Hep & Hctx & Hr).
  pose proof (returned_answers known Hnc policy_known Hfqn ld m rows events n s c ca _ Hld Hi Hroom Hruns Hc Hr) as Ha. rewrite Hin, Hep, Hctx in Ha.
  destruct (eng inputs) as [[outs trail]|e].
  2:{ exists (inr (check_status e)). split; [done|]. right. right. right. destruct e as [[]|e]; cbn; [by left|right; by left|]. right. right. split; [done|].
      destruct Ha as (input & Hx & Ha). rewrite Ein in Hx. apply list_elem_of_fmap in Hx as (res & -> & Hx). by exists a, res, e. }
  destruct Ha as (Hlen & trails & Hall & _). destruct (zip_outputs_are (λ input out, result_entry (cr_IncludeMeta req) (ci_Resource input) out) inputs outs Hlen) as (l & E & El & Hl).
  { intros k Hk. destruct (lookup_lt_is_Some_2 inputs k Hk) as [input Hk']. destruct (Hall k input Hk') as (out & Ho & _). eauto. }
  exists (inl l). unfold CheckResources_response. rewrite E. split; [done|]. split; [done|]. split; [by rewrite El, Ein, length_fmap|]. exists a. split; [done|].
  intros k res Hk. split; [by eapply Hact, list_elem_of_lookup_2|].
  set (input := MkCheckInput (cr_RequestId req) (re_Resource res) (cr_Principal req) (re_Actions res) (aux_fields a)).
  assert (inputs !! k = Some input) as Hk' by (by rewrite Ein, list_lookup_fmap, Hk).
  destruct (Hall k _ Hk') as (out & Ho & Hans). eexists _, input. split; [by eapply Hl|]. split_and!; [done..|]. by eapply answer_rightful.
Qed.

(** C37: Answers to a set of resources are told apart.  Take any request of the deprecated
    [CheckResourceSet], which makes its inputs in the order in which Go happens to go
    over the map of instances, and the call of the engine that it makes, which has
    returned, under any interleaving.  The handler does not panic; unless it reports an error, the response
    has exactly the instances of the request, and the decisions under a key are on the
    resource with that key and its attributes, with nothing allowed that rows do not grant. *)
Theorem resource_set_answers lim aux req eng ld m rows events n s c ep ctx :
  loader_ok known policy_known ld → table_inv (mgr_RuleTable m) rows → room (mgr_RuleTable m) (sum_list (event_load ld <$> events)) →
  engine_runs ld (NewFromConf n m events) s →
  (∀ inputs keys, CheckResourceSet_inputs lim aux req = inl (inputs, keys) → call_made s c ep ctx eng inputs) →
  ∃ r, CheckResourceSet lim aux req eng = Some r ∧
    match r with
    | inl resp => dom (csr_Instances resp) = dom (set_Instances (cs_Resource req)) ∧ ∃ a, aux = inl a ∧
        ∀ key attr, set_Instances (cs_Resource req) !! key = Some attr → ∃ aem input, csr_Instances resp !! key = Some aem ∧
          rs_Id (ci_Resource input) = key ∧ rs_Attr (ci_Resource input) = attr ∧ rs_Kind (ci_Resource input) = set_Kind (cs_Resource req) ∧
          ci_Principal input = cs_Principal req ∧ ci_Actions input = cs_Actions req ∧ ci_AuxData input = aux_fields a ∧
          rightful ld rows events ep input (aem_Actions aem)
    | inr e =>
        e = TooManyResources (size (set_Instances (cs_Resource req))) (go_int (MaxResourcesPerRequest lim)) ∧
          over (size (set_Instances (cs_Resource req))) (MaxResourcesPerRequest lim) ∨
        e = TooManyActions (length (cs_Actions req)) (go_int (MaxActionsPerResource lim)) ∧ over (length (cs_Actions req)) (MaxActionsPerResource lim) ∨
        e = InvalidAuxData ∧ (∃ err, aux = inr err) ∨
        e = PolicyCheckFailed ∧ (is_Some ctx ∨ ∃ a key attr errs, aux = inl a ∧ set_Instances (cs_Resource req) !! key = Some attr ∧
          answer_of ld rows events ep (set_input req (aux_fields a) key attr) (inr errs))
    end.
Proof using Hnc Hfqn.
  intros Hld Hi Hroom Hruns Hcall. unfold CheckResourceSet, CheckResourceSet_inputs in *.
  pose proof (resources_limit lim (size (set_Instances (cs_Resource req)))) as Hres. destruct (checkNumResourcesLimit lim _) as [e|]; [exists (inr e); split; [done|by left]|].
  pose proof (actions_limit lim (length (cs_Actions req))) as Hact. destruct (checkNumActionsLimit lim _) as [e|]; [exists (inr e); split; [done|]; right; by left|].
  destruct aux as [a|err]; [|exists (inr InvalidAuxData); split; [done|]; right; right; left; eauto].
  set (l := go_range _) in *. assert (l ≡ₚ map_to_list (set_Instances (cs_Resource req))) as Hp by apply go_range_perm.
  cbv zeta in *. set (inputs := _ <$> l) in *. destruct (Hcall inputs l.*1 eq_refl) as (ca & Hc & Hin & Hep & Hctx & Hr).
  pose proof (returned_answers known Hnc policy_known Hfqn ld m rows events n s c ca _ Hld Hi Hroom Hruns Hc Hr) as Ha. rewrite Hin, Hep, Hctx in Ha.
  destruct (eng inputs) as [[outs trail]|e].
  2:{ exists (inr PolicyCheckFailed). split; [done|]. right. right. right. split; [done|]. destruct e as [x|e]; [left; by rewrite Ha|]. right.
      destruct Ha as (input & ([key attr] & -> & Hx)%list_elem_of_fmap & Ha). rewrite Hp in Hx. exists a, key, attr, e. split_and!; [done|by apply elem_of_map_to_list|done]. }
  destruct Ha as (Hlen & trails & Hall & _).
  assert (∀ k, k < length l → ∃ out, outs !! k = Some (Some out)) as Hsome.
  { intros k Hk. destruct (lookup_lt_is_Some_2 l k Hk) as [[key attr] Hk']. destruct (Hall k (set_input req (aux_fields a) key attr)) as (out & Ho & _); [by unfold inputs; rewrite list_lookup_fmap, Hk'|eauto]. }
  destruct (add_results_are l.*1 outs (newCheckResourceSetResponseBuilder req)) as (resp & E & Ed & _ & Hl).
  - unfold inputs in Hlen. by rewrite Hlen, !length_fmap.
  - rewrite Hp. apply NoDup_fst_map_to_list.
  - intros k. rewrite length_fmap. apply Hsome.
  - exists (inl resp). unfold CheckResourceSet_response. rewrite E. split; [done|]. split.
    + rewrite Ed. cbn. apply set_eq. intros key. rewrite elem_of_union, elem_of_list_to_set, list_elem_of_fmap, dom_empty_L, elem_of_dom. split.
      * intros [?%elem_of_empty|([key' attr] & -> & Hx)]; [done|]. rewrite Hp in Hx. apply elem_of_map_to_list in Hx. by exists attr.
      * intros [attr Hka]. right. exists (key, attr). split; [done|]. rewrite Hp. by apply elem_of_map_to_list.
    + exists a. split; [done|]. intros key attr Hka. apply elem_of_map_to_list in Hka. rewrite <-Hp in Hka. apply list_elem_of_lookup_1 in Hka as [k Hk].
      destruct (Hall k (set_input req (aux_fields a) key attr)) as (out & Ho & Hans); [by unfold inputs; rewrite list_lookup_fmap, Hk|].
      eexists _, (set_input req (aux_fields a) key attr). split; [eapply Hl; [by rewrite list_lookup_fmap, Hk|done]|]. split_and!; [..|by eapply answer_rightful]; done.
Qed.
End service.

(** * Requests for the documents *)

Definition c_limits : RequestLimits := MkLimits 50 50.
Definition c_resources : CheckResourcesRequest :=
  MkCheckResources "q" true (ci_Principal view_request) (replicate 5 (MkResourceEntry ["view"] (ci_Resource view_request))) None.

Example c_too_many : CheckResources_inputs (MkLimits 50 4) (inl None) c_resources = inr (TooManyResources 5 4).
Proof. vm_compute. reflexivity. Qed.

Lemma check_resources_answers_witness : ∃ inputs r resp, CheckResources_inputs c_limits (inl None) c_resources = inl inputs ∧
  CheckResources c_limits (inl None) c_resources (λ _, r) = Some resp ∧
  match resp with inl entries => length entries = 5 | inr e => e = PolicyCheckFailed end.
Proof.
  destruct (CheckResources_inputs c_limits (inl None) c_resources) as [inputs|] eqn:Ei; [|vm_compute in Ei; discriminate Ei].
  destruct (c_call_done inputs) as (s & ca & r & Hrun & Hc & Hin & Hcan & Hr). destruct c_engine_start as (rows & Hi & Hroom).
  destruct (check_resources_answers plain_row plain_no_collisions named named_distinct c_limits (inl None) c_resources (λ _, r) doc_loader (MkManager doc_table None) rows [doc_event] 2 s 1
    (ca_opts ca) None doc_loader_ok Hi Hroom Hrun) as (resp & E & Hresp).
  - intros inputs' Ei'. rewrite Ei in Ei'. injection Ei' as <-. exists ca. split; [exact Hc|]. split; [exact Hin|]. split; [reflexivity|]. split; [exact Hcan|exact Hr].
  - exists inputs, r, resp. split; [reflexivity|]. split; [exact E|].
    destruct resp as [entries|e]; [exact (proj1 (proj2 Hresp))|].
    destruct Hresp as [[_ Hx]|[[_ [x Hx]]|[(res & Hres & _ & Hx)|[[_ Hx]|[[_ Hx]|[Hx _]]]]]]; [vm_compute in Hx; discriminate Hx|discriminate Hx| |discriminate Hx|discriminate Hx|exact Hx].
    exfalso. cbn in Hres. repeat (apply elem_of_cons in Hres as [->|Hres]; [vm_compute in Hx; discriminate Hx|]). exact (not_elem_of_nil _ Hres).
Defined.

Definition c_set : CheckResourceSetRequest :=
  MkCheckSet "q" ["view"] (ci_Principal view_request) (MkResourceSet "doc" "" "" {["d1" := rs_Attr (ci_Resource view_request)]}) false None.
Definition c_set_input : CheckInput := set_input c_set ∅ "d1" (rs_Attr (ci_Resource view_request)).

Lemma c_set_done : ∃ s ca outs trail, engine_runs doc_loader c_engine s ∧ e_calls s !! 1%N = Some ca ∧ ca_inputs ca = [c_set_input] ∧ ca_result ca = Some (inl (outs, trail)).
Proof.
  destruct (checkWithAuditTrail doc_table params c_set_input) as [[[[out trail]|e] rt]|] eqn:E.
  - do 4 eexists. split; [|split; [|split]].
    + eapply rtc_l; [right; apply (os_call _ c_engine 1 [c_set_input] params); reflexivity|].
      eapply rtc_l; [left; eapply (es_serial _ 1 _ c_set_input (inl (out, trail)))|].
      * split; [apply lookup_insert_eq|split; reflexivity].
      * reflexivity.
      * unfold evaluate, set_call, c_engine, NewFromConf. cbn [e_sys sys_mgr mgr_RuleTable NewCall ca_opts ca_cancelled]. rewrite E. reflexivity.
      * eapply rtc_l; [left; eapply (es_serial_return _ 1); [split; [apply lookup_insert_eq|split; reflexivity]|reflexivity]|apply rtc_refl].
    + apply lookup_insert_eq.
    + reflexivity.
    + reflexivity.
  - exfalso. assert (match checkWithAuditTrail doc_table params c_set_input with Some (inl _, _) => true | _ => false end = true) as Hb by (vm_compute; reflexivity).
    rewrite E in Hb. discriminate Hb.
  - exfalso. assert (match checkWithAuditTrail doc_table params c_set_input with Some (inl _, _) => true | _ => false end = true) as Hb by (vm_compute; reflexivity).
    rewrite E in Hb. discriminate Hb.
Qed.

Lemma resource_set_answers_witness : ∃ outs trail r, CheckResourceSet c_limits (inl None) c_set (λ _, inl (outs, trail)) = Some r ∧
  match r with inl resp => dom (csr_Instances resp) = {["d1"]} | inr _ => False end.
Proof.
  destruct c_set_done as (s & ca & outs & trail & Hrun & Hc & Hin & Hr). destruct c_engine_start as (rows & Hi & Hroom).
  destruct (resource_set_answers plain_row plain_no_collisions named named_distinct c_limits (inl None) c_set (λ _, inl (outs, trail)) doc_loader (MkManager doc_table None) rows [doc_event] 2 s 1
    (ca_opts ca) (ca_cancelled ca) doc_loader_ok Hi Hroom Hrun) as (r & E & Hresp).
  - intros inputs keys Ei. vm_compute in Ei. injection Ei as <- _. exists ca. split; [exact Hc|]. split; [exact Hin|]. split; [reflexivity|]. split; [reflexivity|exact Hr].
  - exists outs, trail, r. split; [exact E|]. destruct r as [resp|e]; [rewrite (proj1 Hresp); reflexivity|].
    unfold CheckResourceSet in E. destruct (CheckResourceSet_inputs c_limits (inl None) c_set) as [[inputs keys]|x] eqn:Ei; [|vm_compute in Ei; discriminate Ei].
    unfold CheckResourceSet_response in E. destruct (add_results _ keys outs); discriminate E.
Defined.
