(* ===== verification/DecisionTheorems.v ===== *)
(** What [check] decides, exactly.  When the value of a condition does not depend
    on the moment of its evaluation, the caches, the bitmaps and the order of
    evaluation do not matter: the decision on an action is that of a small
    reference function, it does not depend on the other actions of the request,
    and it is ALLOW exactly when the rows of the table permit the action. *)
From S2P Require Import Prelude GoRuntime Bitmap Arena LazyDim Dimension GlobDim Namer Policy ScopePerms IndexCore IndexQuery IndexQuerySpec IndexLookup Index IndexSpec ParentRoles RuleTableBuild RuleTable Manager Eval Check CheckSpec Reference Outcome TableSpec ManagerSpec Decision RolePolicies Concrete TableTheorems.

Local Open Scope string_scope.
Local Open Scope list_scope.
Open Scope nat_scope.

Section decision.
Context `{GlobEngine} `{CelRuntime} `{GoMapOrder} `{ContentHash} `{StringHash} `{DerivedRoleHash} `{SchemaManager}.
Context (known : RuleRow → Prop) (policy_known : string → Prop).
Abbreviation table_inv := (table_inv known policy_known).

Lemma response_reference rt rows ep input verdict out trail rt' :
  table_inv rt rows → stable_request rt ep input verdict →
  checkWithAuditTrail rt ep input = Some (inl (out, trail), rt') →
  ∀ a, co_Actions out !! a = if decide (a ∈ ci_Actions input) then Some (reference rt ep input verdict a) else None.
Proof.
  intros Hi Hst E a. unfold checkWithAuditTrail in E.
  destruct (check_judges rt ep input verdict (table_inv_ok _ _ _ _ Hi) Hst) as ([r rt1] & Ec & Hr).
  rewrite Ec in E. bsimp. destruct r as [er|e]; [|done]. cbn in E. injection E as <- _ _. cbn [co_Actions].
  set (g := λ action, default (MkEffectInfo noPolicyMatch "" EFFECT_DENY) (effects er !! action)).
  assert (∀ l (m : gmap string EffectInfo), foldl (λ m action, <[action := g action]> m) m l !! a = if decide (a ∈ l) then Some (g a) else m !! a) as Hf.
  { induction l as [|x l IH]; intros m; cbn [foldl]; [done|]. rewrite IH. destruct (decide (a ∈ l)) as [Hin|Hin].
    - rewrite decide_True; [done|by right].
    - destruct (decide (a = x)) as [->|Hne]; [rewrite lookup_insert_eq, decide_True; [done|left]|].
      rewrite lookup_insert_ne, decide_False; [done| |done]. intros [?|?]%elem_of_cons; done. }
  change (foldl _ ∅ _) with (foldl (λ m action, <[action := g action]> m) (∅ : gmap string EffectInfo) (ci_Actions input)).
  rewrite Hf. destruct (decide (a ∈ ci_Actions input)) as [Ha|]; [|by rewrite lookup_empty]. f_equal. by apply Hr.
Qed.

(** C3: [check] is equivalent to a decision without state.  For a request whose
    conditions have stable values, given by [verdict], the response maps each
    requested action, and nothing else, to an effect, a policy and a scope that
    are computed by scanning the rows, without caches and without loops that carry
    flags: no match when the request has no policy, a denial by the resource policy
    when validation rejects it, and otherwise [decision], which names for each role
    the scope that settles it, among the roles the first that allows or else the
    first denial (one for want of a parent's ALLOW giving way to any other), and
    asks the resource policies when the principal's, for the first role, have no
    match. *)
Theorem check_is_reference rt rows ep input verdict out trail rt' action :
  table_inv rt rows → stable_request rt ep input verdict →
  checkWithAuditTrail rt ep input = Some (inl (out, trail), rt') →
  co_Actions out !! action =
    if decide (action ∈ ci_Actions input)
    then Some (answer rt ep input (decision rt (bi (rt_idx rt)) ep (fixed rt ep input) verdict) action)
    else None.
Proof.
  intros Hi Hst E. rewrite <-reference_decision. by eapply response_reference.
Qed.

(** C1: An action is allowed exactly when the rows permit it.  For a request whose
    conditions have stable values, and in strict mode none that fails, the response
    allows a requested action if and only if schema validation does not reject the
    request, some policy exists in its scopes, and either the principal policies,
    which are asked for the first role only, permit the action, or they do not deny
    it and the resource policies permit it for one of the roles: there is a scope with an ALLOW row that applies and, at or
    above it, a scope overriding its parents, with no DENY row that applies and no
    refusal by a role policy in any scope up to that one, and no scope in between
    that leaves ALLOWs to its parents. *)
Theorem allow_iff_permitted rt rows ep input verdict out trail rt' action :
  table_inv rt rows → stable_request rt ep input verdict →
  (StrictEvaluation ep = true → ∀ b, queried rt (bi (rt_idx rt)) (fixed rt ep input) b → verdict b ≠ None) →
  checkWithAuditTrail rt ep input = Some (inl (out, trail), rt') → action ∈ ci_Actions input →
  (∃ i, co_Actions out !! action = Some i ∧ ei_Effect i = EFFECT_ALLOW) ↔
    rejects rt ep input = false ∧ has_policy rt ep input = true ∧
    permitted_on rt (fixed rt ep input) (rule_applies rt rows ep input verdict action).
Proof.
  intros Hi Hst Hok E Ha.
  rewrite (response_reference rt rows ep input verdict out trail rt' Hi Hst E action), decide_True by done.
  rewrite <-(permitted_rows known rt rows ep input verdict (ti_rows _ _ _ _ Hi) Hst action Ha).
  rewrite <-(judge_action_permitted rt (bi (rt_idx rt)) ep (fixed rt ep input) verdict) by
    (done || (intros pt a role s b Hask Hb Hs; apply Hok; [done|by exists pt, a, role, s])).
  rewrite <-answer_allow. unfold reference. split; [by intros (i & [= <-] & ?)|eauto].
Qed.

(** The same request for other actions. *)
Definition with_actions (input : CheckInput) (actions : list string) : CheckInput :=
  MkCheckInput (ci_RequestId input) (ci_Resource input) (ci_Principal input) actions (ci_AuxData input).

Definition set_input (input : CheckInput) (fx : Fixed) : Fixed :=
  MkFixed input (fx_resourceVersion fx) (fx_resourceKind fx) (fx_resourceScope fx) (fx_principalScopes fx) (fx_principalPolicyKey fx)
    (fx_resourceScopes fx) (fx_resourcePolicyKey fx) (fx_scopedPrincipalExists fx) (fx_scopedResourceExists fx) (fx_includingParentRoles fx).

Lemma judge_set_input rt idx ep fx input verdict a :
  ci_Principal input = ci_Principal (fx_input fx) → ci_Resource input = ci_Resource (fx_input fx) →
  judge_action rt idx ep (set_input input fx) verdict a = judge_action rt idx ep fx verdict a.
Proof. destruct fx as [[] ? ? ? ? ? ? ? ? ? ?], input. cbn. intros -> ->. reflexivity. Qed.

Lemma fixed_same rt ep input input' :
  ci_Principal input = ci_Principal input' → ci_Resource input = ci_Resource input' →
  fixed rt ep input = set_input input (fixed rt ep input').
Proof. destruct input, input'. cbn. intros -> ->. reflexivity. Qed.

Lemma reference_same rt ep input input' verdict a :
  ci_Principal input = ci_Principal input' → ci_Resource input = ci_Resource input' →
  rejects rt ep input = rejects rt ep input' →
  reference rt ep input verdict a = reference rt ep input' verdict a.
Proof.
  intros Ep Er Ej. unfold reference, answer. rewrite Ej, (fixed_same rt ep input input') by done.
  by rewrite (judge_set_input rt (bi (rt_idx rt)) ep (fixed rt ep input') input verdict a) by done.
Qed.

(** C9: The decision on an action does not depend on the other actions of the
    request, nor on their order: two requests with the same principal and resource,
    whose conditions have the same stable values and of which validation rejects
    both or neither, get the same effect, policy and scope for every action they
    share. *)
Theorem decision_per_action rt rows ep input input' verdict out trail rt' out' trail' rt'' action :
  table_inv rt rows → ci_Principal input = ci_Principal input' → ci_Resource input = ci_Resource input' →
  stable_request rt ep input verdict → stable_request rt ep input' verdict → rejects rt ep input = rejects rt ep input' →
  checkWithAuditTrail rt ep input = Some (inl (out, trail), rt') →
  checkWithAuditTrail rt ep input' = Some (inl (out', trail'), rt'') →
  action ∈ ci_Actions input → action ∈ ci_Actions input' → co_Actions out !! action = co_Actions out' !! action.
Proof.
  intros Hi Ep Er Hst Hst' Ej E E' Ha Ha'.
  rewrite (response_reference rt rows ep _ verdict _ _ _ Hi Hst E), (response_reference rt rows ep _ verdict _ _ _ Hi Hst' E').
  rewrite !decide_True by done. by rewrite (reference_same rt ep input input').
Qed.
End decision.

(** * The theorems on concrete requests *)

(** Conditions that read the request only. *)
Definition request_only (e : Expr) : Prop := Original e ∈ ["true"; "false"; "owner"] ∨ is_Some (after "R." (Original e)).
Definition request_cond (c : option Condition) : bool :=
  match c with Some c => bool_decide (Forall request_only (cond_exprs c)) | None => true end.

Lemma request_only_eval ec consts vars ec' consts' vars' e :
  request_only e → ec_params ec = ec_params ec' → ec_request ec = ec_request ec' →
  bool_expr ec e consts vars = bool_expr ec' e consts' vars'.
Proof.
  destruct e as [s]. unfold request_only, bool_expr, run_expr, buildEvalVars. cbn [Original]. intros Hs Ep Eq. rewrite Ep, Eq.
  destruct Hs as [Hs|[x Hx]].
  - rewrite !elem_of_cons, elem_of_nil in Hs. by destruct Hs as [->|[->|[->|[]]]].
  - cbn. case_decide; [done|]. unfold c_eval. rewrite Hx. cbn. by repeat case_decide.
Qed.

Definition c_context (input : CheckInput) : EvalContext := NewEvalContext params (checkInputToRequest input).
Definition to_option {A B} (x : A + B) : option A := match x with inl v => Some v | inr _ => None end.
Definition c_verdict (input : CheckInput) (b : BindingHandle) : option bool :=
  let val c := to_option (denote_opt (c_context input) ∅ ∅ c) in
  match co_DerivedRoleCondition (bh_Core b) with
  | None => val (co_Condition (bh_Core b))
  | Some c => match denote (c_context input) ∅ ∅ c with
              | inl true => val (co_Condition (bh_Core b)) | inl false => Some false | inr _ => None
              end
  end.

(** A test for stable requests: conditions read the request only, and bindings with
    the same evaluation key have the same verdict. *)
Definition c_stable_test (rt : RuleTable) (input : CheckInput) : bool :=
  let l := all_consulted rt params input in
  forallb (λ b, request_cond (co_DerivedRoleCondition (bh_Core b)) && request_cond (co_Condition (bh_Core b))) l &&
  forallb (λ b, forallb (λ b', bool_decide (evalKey (bi (rt_idx rt)) (bh_ID b) = evalKey (bi (rt_idx rt)) (bh_ID b') →
    c_verdict input b = c_verdict input b')) l) l.

Lemma c_stable rt input : c_stable_test rt input = true → stable_request rt params input (c_verdict input).
Proof.
  unfold c_stable_test. rewrite andb_true_iff, !forallb_forall. intros [Hreq Hkey].
  assert (∀ b, queried rt (bi (rt_idx rt)) (fixed rt params input) b →
    request_cond (co_DerivedRoleCondition (bh_Core b)) = true ∧ request_cond (co_Condition (bh_Core b)) = true) as Hq.
  { intros b Hb. apply andb_true_iff, Hreq, list_elem_of_In, queried_consulted, Hb. }
  assert (∀ c ec consts vars, request_cond (Some c) = true → ctx_ok params (checkInputToRequest input) ec →
    denote ec consts vars c = denote (c_context input) ∅ ∅ c) as Hd.
  { intros c ec consts vars Hc [E1 E2]. apply denote_ext. intros e He. apply request_only_eval; [|done|done].
    apply bool_decide_eq_true in Hc. by apply (proj1 (Forall_forall _ _) Hc). }
  assert (∀ c ec consts vars, request_cond c = true → ctx_ok params (checkInputToRequest input) ec →
    denote_opt ec consts vars c = denote_opt (c_context input) ∅ ∅ c) as Hdo.
  { intros [c|] ec consts vars Hc Hec; [by apply Hd|done]. }
  split.
  - intros b o Hb Hy. destruct (Hq b Hb) as [H1 H2]. unfold c_verdict. destruct o as [v|].
    + destruct Hy as [[-> (c & ec & consts & vars & Ec & Hec & _ & Ev)]|[Hdr (ec & consts & vars & Hec & _ & Ev)]].
      * rewrite Ec in *. rewrite Hd in Ev by done. by rewrite Ev.
      * rewrite Hdo in Ev by done. destruct (co_DerivedRoleCondition (bh_Core b)) as [c|]; [|by rewrite Ev].
        destruct (Hdr c eq_refl) as (ec' & consts' & vars' & Hec' & _ & Ev'). rewrite Hd in Ev' by done. by rewrite Ev', Ev.
    + destruct Hy as (ec & consts & vars & e & Hec & [(c & Ec & _ & Ev)|(Hdr & _ & Ev)]).
      * rewrite Ec in *. rewrite Hd in Ev by done. by rewrite Ev.
      * rewrite Hdo in Ev by done. destruct (co_DerivedRoleCondition (bh_Core b)) as [c|]; [|by rewrite Ev].
        destruct (Hdr c eq_refl) as (ec' & consts' & vars' & Hec' & _ & Ev'). rewrite Hd in Ev' by done. by rewrite Ev', Ev.
  - intros b b' Hb Hb' E. apply queried_consulted, list_elem_of_In in Hb. apply queried_consulted, list_elem_of_In in Hb'.
    specialize (Hkey b Hb). rewrite forallb_forall in Hkey. specialize (Hkey b' Hb'). apply bool_decide_eq_true in Hkey. auto.
Qed.

Lemma c_not_rejected rt ep input : bool_decide (rs_Attr (ci_Resource input) !! "bad" = None) = true → rejects rt ep input = false.
Proof. intros E%bool_decide_eq_true. unfold rejects. cbn. by rewrite E. Qed.

Lemma view_stable : stable_request doc_table params view_request (c_verdict view_request).
Proof. apply c_stable. vm_compute. reflexivity. Qed.

Lemma publish_stable : stable_request doc_table params (with_actions view_request ["publish"]) (c_verdict view_request).
Proof.
  change (c_verdict view_request) with (c_verdict (with_actions view_request ["publish"])). apply c_stable. vm_compute. reflexivity.
Qed.

(** The response to a request that gets one. *)
Lemma response rt input (a : string) (P : EffectInfo → bool) :
  match checkWithAuditTrail rt params input with
  | Some (inl (out, _), _) => match co_Actions out !! a with Some i => P i | None => false end
  | _ => false
  end = true →
  ∃ out trail rt' i, checkWithAuditTrail rt params input = Some (inl (out, trail), rt') ∧ co_Actions out !! a = Some i ∧ P i = true.
Proof.
  destruct (checkWithAuditTrail rt params input) as [[[[out trail]|e] rt']|]; [|done..].
  destruct (co_Actions out !! a) as [i|] eqn:E; [|done]. intros HP. by exists out, trail, rt', i.
Qed.

Lemma check_is_reference_witness :
  ∃ out trail rt', checkWithAuditTrail doc_table params view_request = Some (inl (out, trail), rt') ∧
    co_Actions out !! "publish" = Some (MkEffectInfo "principal.alice.vdefault" "" EFFECT_ALLOW).
Proof.
  destruct doc_table_inv as (rows & Hi & _).
  destruct (response doc_table view_request "publish" (λ i, bool_decide (ei_Effect i = EFFECT_ALLOW))) as (out & trail & rt' & i & E & _ & _);
    [vm_compute; reflexivity|].
  exists out, trail, rt'. split; [exact E|].
  refine (eq_trans (check_is_reference plain_row named doc_table rows params view_request (c_verdict view_request) out trail rt' "publish" Hi view_stable E) _).
  vm_compute. reflexivity.
Defined.

Lemma allow_iff_permitted_witness :
  ∃ rows, c_inv doc_table rows ∧ rejects doc_table params view_request = false ∧ has_policy doc_table params view_request = true ∧
    permitted_on doc_table (fixed doc_table params view_request) (rule_applies doc_table rows params view_request (c_verdict view_request) "publish").
Proof.
  destruct doc_table_inv as (rows & Hi & _).
  destruct (response doc_table view_request "publish" (λ i, bool_decide (ei_Effect i = EFFECT_ALLOW))) as (out & trail & rt' & i & E & Hl & He);
    [vm_compute; reflexivity|].
  exists rows. split; [exact Hi|].
  refine (proj1 (allow_iff_permitted plain_row named doc_table rows params view_request (c_verdict view_request) out trail rt' "publish" Hi view_stable _ E _) _).
  - discriminate.
  - right. left.
  - exists i. split; [exact Hl|]. exact (proj1 (bool_decide_eq_true _) He).
Defined.

Lemma decision_per_action_witness :
  ∃ out trail rt' out' trail' rt'', checkWithAuditTrail doc_table params view_request = Some (inl (out, trail), rt') ∧
    checkWithAuditTrail doc_table params (with_actions view_request ["publish"]) = Some (inl (out', trail'), rt'') ∧
    co_Actions out !! "publish" = co_Actions out' !! "publish".
Proof.
  destruct doc_table_inv as (rows & Hi & _).
  destruct (response doc_table view_request "publish" (λ _, true)) as (out & trail & rt' & i & E & _ & _); [vm_compute; reflexivity|].
  destruct (response doc_table (with_actions view_request ["publish"]) "publish" (λ _, true)) as (out' & trail' & rt'' & i' & E' & _ & _);
    [vm_compute; reflexivity|].
  exists out, trail, rt', out', trail', rt''. split; [exact E|]. split; [exact E'|].
  refine (decision_per_action plain_row named doc_table rows params view_request (with_actions view_request ["publish"]) (c_verdict view_request)
    out trail rt' out' trail' rt'' "publish" Hi eq_refl eq_refl view_stable publish_stable _ E E' _ _).
  - vm_compute. reflexivity.
  - right. left.
  - left.
Defined.
