(* ===== verification/Authzen.v ===== *)
(** The AuthZEN API: [AuthzenAuthorizationService] of [src/internal/svc/authzen_svc.go].

    Its requests have subjects and resources with free properties, some of which name
    roles, versions and scopes; a batch is grouped by subject and resource and checked
    with one call of the engine for every group.  Results are [None] for a panic, [inl] a
    value or [inr] an error. *)
From S2P Require Import Prelude GoRuntime Bitmap Arena LazyDim Dimension GlobDim Namer Policy ScopePerms IndexCore IndexQuery IndexQuerySpec IndexLookup Index IndexSpec RuleTableBuild RuleTable Manager Eval Check CheckSpec TableSpec ManagerSpec Serving Engine Decision Concrete PlanExpr PlanFilter PlanNode Plan AuxData Service Reference TableTheorems DecisionTheorems EngineTheorems ServiceTheorems.

Local Open Scope string_scope.
Local Open Scope list_scope.
Open Scope nat_scope.

(** * Messages *)

Definition AzMap : Type := gmap string Value.
Record Subject := MkSubject { su_Type : string; su_Id : string; su_Properties : AzMap }.
Record AzResource := MkAzResource { ar_Type : string; ar_Id : string; ar_Properties : AzMap }.
Record AzAction := MkAzAction { aa_Name : string; aa_Properties : AzMap }.
Record AccessEvaluationRequest := MkEvaluation { ae_Subject : Subject; ae_Resource : AzResource; ae_Action : AzAction; ae_Context : AzMap }.
Record Evaluation := MkBatchEvaluation { be_Subject : option Subject; be_Resource : option AzResource; be_Action : option AzAction; be_Context : AzMap }.
Record AccessEvaluationBatchRequest := MkBatchRequest {
  br_Subject : option Subject; br_Resource : option AzResource; br_Action : option AzAction; br_Context : AzMap;
  br_Evaluations : list Evaluation; br_Semantic : string;
}.
(** The context is the response to the checks as a value: its request id and entries. *)
Record AccessEvaluationResponse := MkEvaluationResponse { er_Decision : bool; er_Context : option (string * list ResultEntry) }.


(** * Properties *)

Definition cerbosProp (s : string) : string := "cerbos." +:+ s.
Definition lookup_prop (m : AzMap) (k : string) : option Value := m !! cerbosProp k.
Definition GetStringValue (v : Value) : string := match v with V_string s => s | _ => "" end.
Definition lookupOrEmptyString (m : AzMap) (k : string) : string := match lookup_prop m k with Some v => GetStringValue v | None => "" end.
Definition metaRequested (m : AzMap) : bool := match m !! cerbosProp "includeMeta" with Some (V_bool b) => b | _ => false end.

Definition toResource (res : AzResource) : Resource_ :=
  let props := ar_Properties res in
  MkResource (ar_Type res) (lookupOrEmptyString props "policyVersion") (ar_Id res) props (lookupOrEmptyString props "scope").

(** Without roles the type of the subject is its role. *)
Definition prop_roles (props : AzMap) : list string :=
  match lookup_prop props "roles" with
  | Some (V_list l) => filter (λ r, r ≠ "") (GetStringValue <$> l)
  | _ => []
  end.
Definition toPrincipal (subj : Subject) : Principal_ :=
  let props := su_Properties subj in
  let roles := match prop_roles props with [] => [su_Type subj] | roles => roles end in
  MkPrincipal (su_Id subj) (lookupOrEmptyString props "policyVersion") roles props (lookupOrEmptyString props "scope").

Definition merge {T} (defaults override : option T) : option T := match override with Some x => Some x | None => defaults end.

(** ** Auxiliary data

    [valueToMessage] for the message [AuxData], whose fields are looked up by their names
    in the protobuf definition.  For the values of the map [jwts] it calls [NewField] of
    the message for the descriptor of a field of another message, the entry of the map;
    [foreign_NewField] says whether the library allows that or panics. *)
Class ProtoReflect := { foreign_NewField : bool }.

Fixpoint field (fields : list (string * Value)) (name : string) : option Value :=
  match fields with [] => None | (k, v) :: fields => if decide (k = name) then Some v else field fields name end.
Definition string_field (fields : list (string * Value)) (name : string) : string := match field fields name with Some v => GetStringValue v | None => "" end.
Definition jwt_of_value (v : Value) : option AuxJWT :=
  match v with
  | V_struct fields => Some (MkAuxJWT (string_field fields "token") (string_field fields "key_set_id"))
  | V_null => Some (MkAuxJWT "" "")
  | _ => None
  end.

Section auxdata.
Context `{ProtoReflect}.

(** A panic, an error ([Some None]), or the map. *)
Fixpoint jwts_of_struct (fields : list (string * Value)) (m : gmap string AuxJWT) : option (option (gmap string AuxJWT)) :=
  match fields with
  | [] => Some (Some m)
  | (k, v) :: fields =>
      if foreign_NewField then match jwt_of_value v with None => Some None | Some j => jwts_of_struct fields (<[k := j]> m) end
      else None
  end.

Definition set_aux_field (name : string) (v : Value) (msg : RequestAuxData) : option (option RequestAuxData) :=
  if decide (name = "jwt") then Some (match jwt_of_value v with None => None | Some j => Some (MkRequestAux (Some j) (ra_Jwts msg)) end)
  else if decide (name = "jwts") then
    match jwts_of_struct (match v with V_struct fields => fields | _ => [] end) ∅ with
    | None => None
    | Some None => Some None
    | Some (Some m) => Some (Some (MkRequestAux (ra_Jwt msg) m))
    end
  else Some (Some msg).

Fixpoint structToMessage (fields : list (string * Value)) (msg : RequestAuxData) : option (option RequestAuxData) :=
  match fields with
  | [] => Some (Some msg)
  | (name, v) :: fields =>
      match set_aux_field name v msg with
      | None => None
      | Some None => Some None
      | Some (Some msg) => structToMessage fields msg
      end
  end.

Definition valueToMessage (v : Value) : option (option RequestAuxData) :=
  match v with
  | V_struct fields => structToMessage fields (MkRequestAux None ∅)
  | V_null => Some (Some (MkRequestAux None ∅))
  | _ => Some None
  end.

(** [extract] is [Extract] of the auxiliary data. *)
Definition extractAuxData (extract : option RequestAuxData → option EngineAuxData + AuxErr) (m : AzMap) : option (option EngineAuxData + GrpcErr) :=
  match m !! cerbosProp "auxData" with
  | None => Some (inl None)
  | Some v =>
      match valueToMessage v with
      | None => None
      | Some None => Some (inr InvalidAuxData)
      | Some (Some aux) => Some (match extract (Some aux) with inr _ => inr InvalidAuxData | inl a => inl a end)
      end
  end.
End auxdata.

Section authzen.
Context `{GlobEngine} `{CelRuntime} `{GoMapOrder} `{ContentHash} `{StringHash} `{DerivedRoleHash} `{SchemaManager} `{JwtLibrary} `{ProtoReflect}.
Context (extract : option RequestAuxData → option EngineAuxData + AuxErr) (hash_aux : option EngineAuxData → N).

(** What a call of the engine returns. *)
Abbreviation engine_result := ((list (option CheckOutput) * gmap string string) + EngineErr)%type.

(** * One evaluation *)

Definition AccessEvaluation_input (r : AccessEvaluationRequest) : option (CheckInput + GrpcErr) :=
  aux ← extractAuxData extract (ae_Context r);
  Some match aux with
       | inr e => inr e
       | inl a => inl (MkCheckInput (lookupOrEmptyString (ae_Context r) "requestId") (toResource (ae_Resource r)) (toPrincipal (ae_Subject r)) [aa_Name (ae_Action r)] (aux_fields a))
       end.

(** The effect of an action; an action without a result is a panic. *)
Definition decision_of (out : CheckOutput) (action : string) : option bool :=
  info ← co_Actions out !! action; Some (bool_decide (ei_Effect info = EFFECT_ALLOW)).

Definition buildCheckResourcesResponse (inputs : list CheckInput) (outs : list (option CheckOutput)) : option (list ResultEntry) :=
  zip_outputs (λ input out, result_entry true (ci_Resource input) out) inputs outs.

Definition response_context (includeMeta : bool) (requestID : string) (inputs : list CheckInput) (outs : list (option CheckOutput)) :
    option (option (string * list ResultEntry)) :=
  if includeMeta then entries ← buildCheckResourcesResponse inputs outs; Some (Some (requestID, entries)) else Some None.

Definition AccessEvaluation_response (r : AccessEvaluationRequest) (input : CheckInput) (res : engine_result) : option (AccessEvaluationResponse + GrpcErr) :=
  match res with
  | inr _ => Some (inr PolicyCheckFailed)
  | inl (outs, _) =>
      output ← mjoin (outs !! 0);
      decision ← decision_of output (aa_Name (ae_Action r));
      ctx ← response_context (metaRequested (ae_Context r)) (lookupOrEmptyString (ae_Context r) "requestId") [input] outs;
      Some (inl (MkEvaluationResponse decision ctx))
  end.

(** * Metadata

    The endpoints, from the headers of the request if there are any. *)
Definition Metadata (md : option (string → list string)) : option (string * string * string) :=
  get ← md;
  let httpScheme := match get "x-forwarded-proto" with "https" :: _ => "https" | _ => "http" end in
  let authority := match get ":authority" with h :: _ => if decide (h = "") then "localhost" else h | [] => "localhost" end in
  let host := match get "x-forwarded-host" with h :: _ => if decide (h = "") then authority else h | [] => authority end in
  let baseURL := httpScheme +:+ "://" +:+ host in
  Some (baseURL, baseURL +:+ "/access/v1/evaluation", baseURL +:+ "/access/v1/evaluations").

(** * Batches *)

Definition checkTotalLimit (lim : RequestLimits) (n : nat) : option GrpcErr :=
  let total := go_int ((MaxActionsPerResource lim * MaxResourcesPerRequest lim) mod 2 ^ 64)%N in
  if decide (Z.of_nat n > total)%Z then Some (TooManyEvaluations n total) else None.

(** An evaluation with the defaults of its request. *)
Record evalRequest := MkEvalRequest {
  er_subject : option Subject; er_resource : option AzResource; er_action : option AzAction;
  er_context : AzMap; er_auxData : option EngineAuxData; er_index : nat;
}.

Fixpoint merge_evaluations (r : AccessEvaluationBatchRequest) (defaultAuxData : option EngineAuxData) (i : nat) (l : list Evaluation) :
    option (list evalRequest + GrpcErr) :=
  match l with
  | [] => Some (inl [])
  | eval :: l =>
      let own := bool_decide (be_Context eval ≠ ∅) in
      aux ← (if own then extractAuxData extract (be_Context eval) else Some (inl defaultAuxData));
      match aux with
      | inr e => Some (inr e)
      | inl a =>
          rest ← merge_evaluations r defaultAuxData (S i) l;
          Some match rest with
               | inr e => inr e
               | inl rest =>
                   inl (MkEvalRequest (merge (br_Subject r) (be_Subject eval)) (merge (br_Resource r) (be_Resource eval)) (merge (br_Action r) (be_Action eval))
                     (if own then be_Context eval else br_Context r) a i :: rest)
               end
      end
  end.
Definition batch_evals (r : AccessEvaluationBatchRequest) : option (list evalRequest + GrpcErr) :=
  aux ← (if decide (br_Context r = ∅) then Some (inl None) else extractAuxData extract (br_Context r));
  match aux with inr e => Some (inr e) | inl a => merge_evaluations r a 0 (br_Evaluations r) end.

(** Requests by key, each in the order of the list. *)
Definition group_by {K} `{Countable K} (key : evalRequest → K) (l : list evalRequest) : gmap K (list evalRequest) :=
  foldl (λ m req, <[key req := default [] (m !! key req) ++ [req]]> m) ∅ l.

Definition groupKey (req : evalRequest) : string * N := (default "" (su_Id <$> er_subject req), hash_aux (er_auxData req)).
Definition resourceKey (req : evalRequest) : string * string := (default "" (ar_Type <$> er_resource req), default "" (ar_Id <$> er_resource req)).
Definition has_subject (req : evalRequest) : bool := bool_decide (is_Some (er_subject req)).
Definition has_resource (req : evalRequest) : bool := bool_decide (is_Some (er_resource req)).
Definition action_name (req : evalRequest) : string := default "" (aa_Name <$> er_action req).

Record resultMapping := MkMapping { rm_action : string; rm_inputIdx : nat; rm_responseIdx : nat }.

(** One input for every resource of a group, of its first request. *)
Definition resource_input (auxData : option EngineAuxData) (reqs1 : list evalRequest) : option CheckInput :=
  r0 ← head reqs1; subj ← er_subject r0; res ← er_resource r0;
  Some (MkCheckInput (lookupOrEmptyString (er_context r0) "requestId") (toResource res) (toPrincipal subj) (action_name <$> reqs1) (aux_fields auxData)).

Fixpoint group_inputs (lim : RequestLimits) (auxData : option EngineAuxData) (inputIdx : nat) (l : list (list evalRequest)) :
    option ((list CheckInput * list resultMapping) + GrpcErr) :=
  match l with
  | [] => Some (inl ([], []))
  | reqs1 :: l =>
      match checkNumActionsLimit lim (length reqs1) with
      | Some e => Some (inr e)
      | None =>
          input ← resource_input auxData reqs1;
          rest ← group_inputs lim auxData (S inputIdx) l;
          Some match rest with
               | inr e => inr e
               | inl (inputs, maps) => inl (input :: inputs, ((λ req, MkMapping (action_name req) inputIdx (er_index req)) <$> reqs1) ++ maps)
               end
      end
  end.
(** A nil subject or resource is a panic. *)
Definition group_checks (lim : RequestLimits) (reqs : list evalRequest) : option ((list CheckInput * list resultMapping) + GrpcErr) :=
  let byRes := group_by resourceKey reqs in
  if forallb has_resource reqs then
    match checkNumResourcesLimit lim (size byRes) with
    | Some e => Some (inr e)
    | None => r0 ← head reqs; group_inputs lim (er_auxData r0) 0 (go_range byRes).*2
    end
  else None.

(** Results go to the places of their evaluations. *)
Fixpoint place_results (ctx : option (string * list ResultEntry)) (outs : list (option CheckOutput)) (maps : list resultMapping) (responses : list (option AccessEvaluationResponse)) :
    option (list (option AccessEvaluationResponse)) :=
  match maps with
  | [] => Some responses
  | m :: maps =>
      output ← mjoin (outs !! rm_inputIdx m);
      decision ← decision_of output (rm_action m);
      place_results ctx outs maps (<[rm_responseIdx m := Some (MkEvaluationResponse decision ctx)]> responses)
  end.

(** The [k]th call of the engine returns [eng k inputs]; the calls are logged. *)
Definition check_log : Type := list (list CheckInput * engine_result).
Fixpoint batch_loop (lim : RequestLimits) (includeMeta : bool) (eng : nat → list CheckInput → engine_result) (log : check_log) (groups : list (list evalRequest))
    (responses : list (option AccessEvaluationResponse)) : check_log * option (list (option AccessEvaluationResponse) + GrpcErr) :=
  match groups with
  | [] => (log, Some (inl responses))
  | reqs :: groups =>
      match group_checks lim reqs with
      | None => (log, None)
      | Some (inr e) => (log, Some (inr e))
      | Some (inl (inputs, maps)) =>
          let res := eng (length log) inputs in
          let log := log ++ [(inputs, res)] in
          match res with
          | inr _ => (log, Some (inr PolicyCheckFailed))
          | inl (outs, _) =>
              let requestID := match reqs with r0 :: _ => lookupOrEmptyString (er_context r0) "requestId" | [] => "" end in
              match (ctx ← response_context includeMeta requestID inputs outs; place_results ctx outs maps responses) with
              | None => (log, None)
              | Some responses => batch_loop lim includeMeta eng log groups responses
              end
          end
      end
  end.

(** What the semantics leaves: a nil response is a panic. *)
Fixpoint cut_responses (decisive : bool) (l : list (option AccessEvaluationResponse)) : option (list AccessEvaluationResponse) :=
  match l with
  | [] => Some []
  | None :: _ => None
  | Some r :: l => if decide (er_Decision r = decisive) then Some [r] else rest ← cut_responses decisive l; Some (r :: rest)
  end.
Definition apply_semantic (evalSemantics : string) (responses : list (option AccessEvaluationResponse)) : option (list AccessEvaluationResponse) :=
  if decide (evalSemantics = "execute_all" ∨ evalSemantics = "") then mapM id responses
  else cut_responses (bool_decide (evalSemantics = "permit_on_first_permit")) responses.

Definition AccessEvaluationBatch (lim : RequestLimits) (eng : nat → list CheckInput → engine_result) (r : AccessEvaluationBatchRequest) :
    check_log * option (list AccessEvaluationResponse + GrpcErr) :=
  match checkTotalLimit lim (length (br_Evaluations r)) with
  | Some e => ([], Some (inr e))
  | None =>
      match batch_evals r with
      | None => ([], None)
      | Some (inr e) => ([], Some (inr e))
      | Some (inl evals) =>
          if forallb has_subject evals then
            let '(log, res) := batch_loop lim (metaRequested (br_Context r)) eng [] (go_range (group_by groupKey evals)).*2 (replicate (length (br_Evaluations r)) None) in
            (log, match res with
                  | None => None
                  | Some (inr e) => Some (inr e)
                  | Some (inl responses) => l ← apply_semantic (br_Semantic r) responses; Some (inl l)
                  end)
          else ([], None)
      end
  end.

(** * Grouping *)

Section group_by.
Context {K} `{Countable K} (key : evalRequest → K).
Implicit Types (m : gmap K (list evalRequest)).






End group_by.

(** * Evaluations *)

(** The context of an evaluation, and the evaluation as a request of its own. *)
Definition context_of (r : AccessEvaluationBatchRequest) (ev : Evaluation) : AzMap := if decide (be_Context ev = ∅) then br_Context r else be_Context ev.
Definition single (r : AccessEvaluationBatchRequest) (ev : Evaluation) : option AccessEvaluationRequest :=
  subj ← merge (br_Subject r) (be_Subject ev); res ← merge (br_Resource r) (be_Resource ev); act ← merge (br_Action r) (be_Action ev);
  Some (MkEvaluation subj res act (context_of r ev)).




(** * Results *)

(** What an evaluation is to get. *)
Section answers.
Context (evals : list evalRequest) (right : CheckInput → gmap string Effect → Prop) (right_actions : ∀ input actions, right input actions → ∀ a, is_Some (actions !! a) ↔ a ∈ ci_Actions input).











(** ** Groups *)

Section groups.
Context (Hfull : ∀ req, req ∈ evals → is_Some (er_subject req) ∧ is_Some (er_resource req)).






End groups.
End answers.




(** ** The semantics of a batch *)




End authzen.

Section theorems.
Context `{GlobEngine} `{CelRuntime} `{GoMapOrder} `{ContentHash} `{StringHash} `{DerivedRoleHash} `{SchemaManager} `{JwtLibrary} `{ProtoReflect}.
Context (known : RuleRow → Prop) (Hnc : no_collisions known) (policy_known : string → Prop) (Hfqn : fqns_distinct policy_known).
Abbreviation table_inv := (table_inv known policy_known).
Abbreviation rightful := (rightful known policy_known).

Abbreviation answer_of := (answer_of known policy_known).
Abbreviation stands := (stands known policy_known).

Section batch.
Context (extract : option RequestAuxData → option EngineAuxData + AuxErr) (hash_aux : option EngineAuxData → N) (lim : RequestLimits).
Context (eng : nat → list CheckInput → (list (option CheckOutput) * gmap string string) + EngineErr).
Context (r : AccessEvaluationBatchRequest) (evals : list evalRequest) (ld : PolicyLoader) (m : Manager.Manager) (rows : gmap N RuleRow).
Context (events : list Event) (n : nat) (s : Engine) (ep : EvalParams).






End batch.
End theorems.

(** * Concrete batches *)

#[export] Instance c_reflect : ProtoReflect := {| foreign_NewField := false |}.
Definition c_extract (ad : option RequestAuxData) : option EngineAuxData + AuxErr := Extract (newJWTHelper None) [] ad.
Definition c_no_hash (a : option EngineAuxData) : N := 0.

Definition c_subject (roles : list string) : Subject := MkSubject "user" "alice" {["cerbos.roles" := V_list (V_string <$> roles)]}.
Definition c_az_resource : AzResource := MkAzResource "doc" "d1" {["owner" := V_string "bob"]}.
Definition c_action (name : string) : AzAction := MkAzAction name ∅.
Definition c_az_batch : AccessEvaluationBatchRequest :=
  MkBatchRequest (Some (c_subject ["user"])) (Some c_az_resource) None ∅
    [MkBatchEvaluation None None (Some (c_action "view")) ∅; MkBatchEvaluation None None (Some (c_action "archive")) ∅] "execute_all".

(** The table as an engine. *)
Definition table_eng (rt : RuleTable) (k : nat) (inputs : list CheckInput) : (list (option CheckOutput) * gmap string string) + EngineErr :=
  inl ((λ input, match checkWithAuditTrail rt params input with Some (inl (out, _), _) => Some out | _ => None end) <$> inputs, ∅).
Definition decisions (r : check_log * option (list AccessEvaluationResponse + GrpcErr)) : option (list bool) :=
  match r.2 with Some (inl l) => Some (er_Decision <$> l) | _ => None end.

Example c_decisions : decisions (AccessEvaluationBatch c_extract c_no_hash c_limits (table_eng doc_table) c_az_batch) = Some [true; false].
Proof. vm_compute. reflexivity. Qed.

(** Names of fields in JSON are no names of the protobuf definition. *)
Example c_key_set_id_lost : valueToMessage (V_struct [("jwt", V_struct [("token", V_string "t"); ("keySetId", V_string "two")])]) =
  Some (Some (MkRequestAux (Some (MkAuxJWT "t" "")) ∅)).
Proof. reflexivity. Qed.
Example c_jwts_panic : valueToMessage (V_struct [("jwts", V_struct [("a", V_struct [("token", V_string "t")])])]) = None.
Proof. reflexivity. Qed.

(** On a table: evaluations are grouped by the subject's id and checked as the first
    of the group, so a subject with other roles (or a resource
    with other attributes) under the same id gets the decision of the first one, here an
    ALLOW for a guest, who is denied when asked alone. *)
Definition c_guest : Evaluation := MkBatchEvaluation (Some (c_subject ["guest"])) None (Some (c_action "view")) ∅.
Definition c_user : Evaluation := MkBatchEvaluation (Some (c_subject ["user"])) None (Some (c_action "view")) ∅.
Definition c_of_subjects (evals : list Evaluation) : AccessEvaluationBatchRequest := MkBatchRequest None (Some c_az_resource) None ∅ evals "".
Theorem first_subject_answers_all :
  let guest := c_guest in let user := c_user in let batch := c_of_subjects in
  decisions (AccessEvaluationBatch c_extract c_no_hash c_limits (table_eng doc_table) (batch [user; guest])) = Some [true; true] ∧
  decisions (AccessEvaluationBatch c_extract c_no_hash c_limits (table_eng doc_table) (batch [guest])) = Some [false] ∧
  (q ← single (batch [user; guest]) guest; input ← AccessEvaluation_input c_extract q;
   match input with
   | inl input => r ← AccessEvaluation_response q input (table_eng doc_table 0 [input]); match r with inl resp => Some (er_Decision resp) | inr _ => None end
   | inr _ => None
   end) = Some false.
Proof. vm_compute. by split_and!. Qed.








