(* ===== verification/PlanTheorems.v ===== *)
(** What the query planner promises: the filter of a plan selects only resources
    for which a check allows every action, and with one role and overriding
    scopes it selects exactly those; planning returns and leaves the table as it
    was; and the steps on the way (conditions to nodes, nodes to filters,
    normalising, merging) keep the meaning. *)
From S2P Require Import Prelude GoRuntime Bitmap Arena LazyDim Dimension GlobDim Namer Policy ScopePerms IndexCore IndexQuery IndexQuerySpec IndexLookup Index IndexSpec ParentRoles RuleTableBuild RuleTable Manager Eval Check CheckSpec Reference TableSpec ManagerSpec Decision RolePolicies PlanExpr PlanFilter PlanSem PlanNode PlanNodeSpec Plan PlanCombine PlanSpec Concrete PlanConcrete TableTheorems DecisionTheorems.

Local Open Scope string_scope.
Local Open Scope list_scope.
Open Scope nat_scope.

(** * Steps *)

Section steps.
Context `{ProtoText} `{OperandText} `{FilterSem} `{HL : !FilterLaws}.

(** Normalising keeps the meaning of a filter.  For a condition without nil
    operands (and with one operand per negation) that evaluates to a boolean for
    a resource, the normalised filter selects the resource exactly when the
    condition is true: removing duplicate, constant and nested operands, turning
    membership tests into comparisons and expanding abbreviations changes
    nothing, nor does replacing a condition by an unconditional filter. *)
Theorem normalised_filter_means c env b :
  wf_op c = true → hash_separates c → expands env → denote_op c env = Some (vbool b) →
  filter_holds env (normaliseFilter (MkFilter KIND_CONDITIONAL (Some c))) = Some b.
Proof using HL. apply normaliseFilter_holds. Qed.

(** The filter of a node says whether the node is true.  When the expressions
    at the leaves of the node are translated and evaluate to booleans for a
    resource, the node is translated to a filter without an error, and the filter
    selects the resource exactly when the node is true. *)
Theorem node_filter_means env truth n :
  node_ok env truth n → expands env → (∀ c, convert n = Some (inl c) → hash_separates c) →
  ∃ f, ToFilter n = Some (inl f) ∧ filter_holds env f = Some (node_truth truth n).
Proof using HL. apply ToFilter_holds. Qed.

(** Merging filters is their conjunction.  Filters that each select a resource
    or not, where equal texts stand for equal conditions, are merged into one that
    selects the resource exactly when all of them do, whatever their order, number
    and duplicates; no filters at all select everything. *)
Theorem merged_filter_is_conjunction env filters :
  Forall (λ f, is_Some (filter_holds env f)) filters → texts_agree filters →
  ∃ f text, MergeWithAnd filters = Some (inl (f, text)) ∧ filter_holds env f = Some (forallb (selects env) filters).
Proof using HL. apply MergeWithAnd_holds. Qed.

(** The translation of expressions to filter operands terminates: it gives an
    operand or an error for every expression, with comprehensions, structs used as
    lists of keys and missing arguments, and never panics. *)
Theorem translation_returns e : ∃ r, buildExpr e = Some r.
Proof using. destruct (buildExprImpl_returns (S (expr_size e)) e false) as [r E]; [lia|]. by exists r. Qed.

(** The node of a condition means the condition.  When every expression of a
    condition is evaluated partially to a residual whose filter evaluates to the
    value [val] gives the expression, evaluating the condition gives a node whose
    filter evaluates to the truth value of its all, any and none operators. *)
Theorem condition_node_means `{NodeHash} `{CelPartial} env truth strict kn variables drl val c s :
  (∀ b, truth (E_Const (K_bool b)) = b) → (∀ e, e ∈ cond_exprs c → expr_plans env truth strict kn variables drl val e) → well_formed c = true → cache_ok s.1 →
  ∃ n s', EvaluateCondition strict kn variables drl (Some c) s = Some (inl n, s') ∧ cache_ok s'.1 ∧ node_ok env truth n ∧ node_truth truth n = Eval.truth val c.
Proof using HL.
  intros Hc He Hw Hs. destruct (EvaluateCondition_means env truth Hc strict kn variables drl val (Some c) s) as (n & s' & E & Hs' & Hn & Ht); [|done|by exists n, s'].
  by intros d [= <-].
Qed.
End steps.

(** * Plans *)

Section plans.
Context `{GlobEngine} `{CelRuntime} `{GoMapOrder} `{ContentHash} `{StringHash} `{DerivedRoleHash} `{SchemaManager}.
Context `{ProtoText} `{OperandText} `{NodeHash} `{CelPartial} `{PlanSchemaManager} `{FilterSem} `{HL : !FilterLaws}.
Context (known : RuleRow → Prop) (policy_known : string → Prop).
Context (env : string → option fval) (truth : PExpr → bool).
Context (rt : RuleTable) (rows : gmap N RuleRow) (cache : ExprCache) (ep : EvalParams) (plan : PlanInput) (input : CheckInput).
Context (verdict : BindingHandle → option bool).

(** Ideal surroundings of the planner: hashes of nodes and operands do not collide,
    the order of the entries of a map in an expression does not change its value,
    constants have theirs, and an abbreviated variable of a filter has the value of
    what it stands for. *)
Record ideal : Prop := {
  id_nodes : hash_exact;
  id_operands : ∀ c, hash_separates c;
  id_order : order_irrelevant env truth;
  id_const : ∀ b, truth (E_Const (K_bool b)) = b;
  id_expands : expands env;
}.

(** What a plan is supposed to be good for.  The table stands for its rows and the
    cache of expressions is right; the check completes the plan with a resource (same
    principal, kind, version, scope and actions); every condition, variable and derived
    role consulted can be evaluated partially, to an expression that is boolean in
    filters and has there the value [verdict] gives in the check; every scope consulted
    overrides its parents or leaves ALLOWs to them; no action has both an ALLOW rule in
    the principal policies and a DENY rule in the resource policies; some policy exists
    in the scopes; and filters of two actions with the same text are the same. *)
Record plannable : Prop := {
  pb_table : table_inv known policy_known rt rows;
  pb_cache : cache_ok cache;
  pb_completes : completes plan input;
  pb_faithful : faithful env truth rt ep plan input verdict;
  pb_settled : ∀ pt s, s ∈ scopes_of (fixed rt ep input) pt → settled (GetScopeScopePermissions rt) s;
  pb_no_clash : ∀ action, action ∈ pi_Actions plan → no_clash rt ep plan input action;
  pb_policy : has_policy rt ep input = true;
  pb_texts : texts_distinct rt ep plan cache;
}.

(** The check gets a response that validation does not reject, its conditions having
    the stable values [verdict], none failing in strict mode. *)
Record checked (out : CheckOutput) : Prop := {
  ck_stable : stable_request rt ep input verdict;
  ck_accepted : rejects rt ep input = false;
  ck_strict : StrictEvaluation ep = true → ∀ b, queried rt (bi (rt_idx rt)) (fixed rt ep input) b → verdict b ≠ None;
  ck_response : ∃ trail rt', checkWithAuditTrail rt ep input = Some (inl (out, trail), rt');
}.
Definition allows (out : CheckOutput) (action : string) : Prop := ∃ i, co_Actions out !! action = Some i ∧ ei_Effect i = EFFECT_ALLOW.

Lemma allows_permitted out action :
  table_inv known policy_known rt rows → has_policy rt ep input = true → checked out → action ∈ ci_Actions input →
  allows out action ↔ permitted rt (bi (rt_idx rt)) (fixed rt ep input) verdict action.
Proof using.
  intros Hi Hp [Hst Hnr Hs (trail & rt' & E)] Ha. unfold allows.
  rewrite (response_reference known policy_known rt rows ep input verdict out trail rt' Hi Hst E action), decide_True by done.
  rewrite <-(judge_action_permitted rt (bi (rt_idx rt)) ep (fixed rt ep input) verdict) by
    (done || (intros pt a role s b Hask Hb Hx; apply Hs; [done|by exists pt, a, role, s])).
  assert (ei_Effect (reference rt ep input verdict action) = EFFECT_ALLOW ↔
    ei_Effect (judge_action rt (bi (rt_idx rt)) ep (fixed rt ep input) verdict action) = EFFECT_ALLOW) as <- by (unfold reference; rewrite answer_allow; split; [by intros (_ & _ & ?)|by intros ?]).
  split; [by intros (i & [= <-] & ?)|]. intros Hx. eexists. by split.
Qed.

Lemma plan_has_scopes : has_policy rt ep input = true → completes plan input → ¬ (px_principalScopes (planned rt ep plan) = [] ∧ px_resourceScopes (planned rt ep plan) = []).
Proof using.
  intros [Hs _]%andb_true_iff Hc [E1 E2]. pose proof (px_scopes rt ep plan input Hc KIND_PRINCIPAL) as P1. pose proof (px_scopes rt ep plan input Hc KIND_RESOURCE) as P2.
  rewrite E1, decide_True in P1 by done. rewrite E2, decide_False in P2 by done. unfold scopes_of in P1, P2. rewrite decide_True in P1 by done. rewrite decide_False in P2 by done.
  rewrite P1, P2 in Hs. done.
Qed.

(** The run of a plan, for what the root of each action is known to decide. *)
Lemma plan_runs Q reject :
  ideal → plannable → validates rt ep plan reject →
  (∀ action k, action ∈ pi_Actions plan → pst_ok env truth rt ep plan k →
    pruns env truth rt ep plan (plan_types rt (planned rt ep plan) action [KIND_RESOURCE; KIND_PRINCIPAL] false None) k (decides env truth (Q action))) →
  ∃ out trail rt' cache', planWithAuditTrail rt cache ep plan = Some (inl (out, trail), (rt', cache')) ∧ cached rt rt' ∧ cache_ok cache' ∧
    if reject then filter_holds env (po_Filter out) = Some false
    else ∃ bs, Forall2 Q (pi_Actions plan) bs ∧ filter_holds env (po_Filter out) = Some (forallb id bs).
Proof using HL.
  intros [] [] Hv Ht. apply (planWithAuditTrail_runs env truth); try done; [by eapply table_inv_ok|by apply plan_has_scopes].
Qed.

Lemma sound_runs action k :
  ideal → plannable → action ∈ pi_Actions plan → pst_ok env truth rt ep plan k →
  pruns env truth rt ep plan (plan_types rt (planned rt ep plan) action [KIND_RESOURCE; KIND_PRINCIPAL] false None) k
    (decides env truth (λ b, b = true → permitted rt (bi (rt_idx rt)) (fixed rt ep input) verdict action)).
Proof using HL.
  intros [] [] Ha Hk. eapply p_mono; [eapply (plan_types_sound env truth); eauto|].
  - by apply (ti_rows _ _ _ _ pb_table0).
  - intros a role _ _. by eapply principal_no_role_policies.
  - intros r (has & root & -> & Hok & Hs). exists has, root. split_and!; [done|done|intros Hh; by apply Hs|]. intros [Hh Ht]%andb_true_iff. by apply Hs.
Qed.

Lemma exact_runs role action k :
  ideal → plannable → pr_Roles (pi_Principal plan) = [role] → (∀ pt, all_override rt ep input pt) → action ∈ pi_Actions plan → pst_ok env truth rt ep plan k →
  pruns env truth rt ep plan (plan_types rt (planned rt ep plan) action [KIND_RESOURCE; KIND_PRINCIPAL] false None) k
    (decides env truth (λ b, b = true ↔ permitted rt (bi (rt_idx rt)) (fixed rt ep input) verdict action)).
Proof using HL.
  intros [] [] Er Hov Ha Hk. eapply p_mono; [eapply (plan_types_exact env truth); eauto|].
  - by apply (ti_rows _ _ _ _ pb_table0).
  - intros a r _ _. by eapply principal_no_role_policies.
  - intros r (has & root & -> & Hok & Hs & Hp). exists has, root. split_and!; [done|done|done|]. by rewrite andb_true_iff.
Qed.

(** A plan that returns has validated the request. *)
Lemma plan_validated out trail st :
  ¬ (px_principalScopes (planned rt ep plan) = [] ∧ px_resourceScopes (planned rt ep plan) = []) →
  planWithAuditTrail rt cache ep plan = Some (inl (out, trail), st) → ∃ reject, validates rt ep plan reject.
Proof using.
  intros Hsc. unfold planWithAuditTrail, validates, planned in *. cbn [px_principalScopes px_resourceScopes] in Hsc.
  destruct (GetAllScopes rt KIND_PRINCIPAL _ _ _ _) as [[ps ?] ?], (GetAllScopes rt KIND_RESOURCE _ _ _ _) as [[rs ?] fqn]. cbn [fst snd] in *.
  rewrite (decide_False (P := ps = [] ∧ rs = [])) by done. destruct (ValidatePlanResourcesInput (GetSchema rt fqn) plan) as [[errs r]|e]; [eauto|done].
Qed.

(** C19: Plans are sound, under side conditions.  Take a plan for a principal and some
    actions that returns a filter, and a check of the same request for one resource.
    Suppose the surroundings are [ideal] (no hash collisions, filters that mean what
    their operators say); the request is [plannable] (some policy exists in its scopes,
    every scope overrides its parents or requires their consent, conditions evaluate
    partially and to booleans, with the value in filters that they have in the check,
    filters of different actions differ in their text, and no action has both an ALLOW
    rule in the principal policies and a DENY rule in the resource policies); and the
    check is [checked]: it responds, schema validation does not reject it, its conditions
    have stable values, and in strict mode none fails.  Then the filter selects the
    resource only if the check allows every action for it.  Without the conditions on
    validation and on clashing rules this fails (see the findings). *)
Theorem plan_sound out trail st cout action :
  ideal → plannable → checked cout → planWithAuditTrail rt cache ep plan = Some (inl (out, trail), st) →
  filter_holds env (po_Filter out) = Some true → action ∈ pi_Actions plan → allows cout action.
Proof using HL.
  intros Hid Hpl Hck E Hf Ha. destruct (plan_validated out trail st) as [reject Hv]; [by apply plan_has_scopes; apply Hpl|done|].
  destruct (plan_runs (λ action b, b = true → permitted rt (bi (rt_idx rt)) (fixed rt ep input) verdict action) reject Hid Hpl Hv) as (out' & trail' & rt' & cache' & E' & _ & _ & Hb).
  { intros a k Hin Hk. by apply sound_runs. }
  rewrite E in E'. injection E' as <- _ _. destruct reject; [congruence|]. destruct Hb as (bs & HQ & Eb). rewrite Hf in Eb. injection Eb as Eb.
  apply (allows_permitted cout action); [apply Hpl|apply Hpl|done|by rewrite (cm_actions _ _ (pb_completes Hpl))|].
  apply list_elem_of_lookup in Ha as [i Hi]. destruct (Forall2_lookup_l _ _ _ _ _ HQ Hi) as (b & Hb & Hq). apply Hq.
  symmetry in Eb. rewrite forallb_forall in Eb. by apply Eb, list_elem_of_In, (list_elem_of_lookup_2 _ i).
Qed.

(** C20: Plans are exact for one role, under side conditions.  As in the soundness of
    plans, suppose the surroundings are [ideal], the request is [plannable] (policies
    exist, conditions faithful and boolean, texts of filters distinct, no action with an
    ALLOW rule in the principal policies and a DENY rule in the resource policies) and
    the check is [checked] (it responds, is not rejected by validation, and has stable
    conditions that do not fail in strict mode).  If moreover the principal has one
    role, every scope of the request overrides its parents, and validation does not
    reject the plan, then the filter that the plan returns selects the resource if and
    only if the check allows every action for it. *)
Theorem plan_exact role out trail st cout :
  ideal → plannable → checked cout → pr_Roles (pi_Principal plan) = [role] → (∀ pt, all_override rt ep input pt) → validates rt ep plan false →
  planWithAuditTrail rt cache ep plan = Some (inl (out, trail), st) →
  filter_holds env (po_Filter out) = Some true ↔ ∀ action, action ∈ pi_Actions plan → allows cout action.
Proof using HL.
  intros Hid Hpl Hck Er Hov Hv E.
  destruct (plan_runs (λ action b, b = true ↔ permitted rt (bi (rt_idx rt)) (fixed rt ep input) verdict action) false Hid Hpl Hv) as (out' & trail' & rt' & cache' & E' & _ & _ & bs & HQ & Eb).
  { intros a k Hin Hk. by apply (exact_runs role). }
  rewrite E in E'. injection E' as <- _ _. rewrite Eb.
  assert (Forall2 (λ action b, b = true ↔ allows cout action) (pi_Actions plan) bs) as HA.
  { apply Forall2_same_length_lookup. split; [by eapply Forall2_length|]. intros i a b Hi Hb. rewrite (Forall2_lookup_lr _ _ _ _ _ _ HQ Hi Hb). symmetry.
    apply (allows_permitted cout a); [apply Hpl|apply Hpl|done|]. rewrite (cm_actions _ _ (pb_completes Hpl)). by eapply list_elem_of_lookup_2. }
  clear -HA. induction HA as [|a b actions bs Hab _ IH]; [split; [by intros _ a ?%elem_of_nil|done]|]. cbn [forallb]. split.
  - intros [= [Hb Hbs]%andb_true_iff] x [->|Hx]%elem_of_cons; [by apply Hab|]. by apply IH; [f_equal|].
  - intros Hall. assert (Some (forallb id bs) = Some true) as [= ->] by (apply IH; intros x Hx; apply Hall; by right).
    f_equal. rewrite andb_true_r. apply Hab, Hall. left.
Qed.

(** C34: Planning answers and leaves the table alone, under side conditions.  In [ideal]
    surroundings, a [plannable] request (policies exist in its scopes, which override
    their parents or require their consent; conditions that evaluate partially, and to
    booleans in filters; distinct texts of filters; no action with an ALLOW rule in the
    principal policies and a DENY rule in the resource policies) on which validation does
    not fail gets a filter that selects or does not select the resource, with no error
    and no panic, and selects nothing if validation rejects the request; afterwards the
    table stands for the same rows, and the cache of parsed expressions holds only what
    parsing gives. *)
Theorem plan_answers reject :
  ideal → plannable → validates rt ep plan reject →
  ∃ out trail rt' cache' b, planWithAuditTrail rt cache ep plan = Some (inl (out, trail), (rt', cache')) ∧ filter_holds env (po_Filter out) = Some b ∧
    table_inv known policy_known rt' rows ∧ cache_ok cache' ∧ (reject = true → b = false).
Proof using HL.
  intros Hid Hpl Hv. destruct (plan_runs _ reject Hid Hpl Hv (λ a k Hin Hk, sound_runs a k Hid Hpl Hin Hk)) as (out & trail & rt' & cache' & E & Hc & Hca & Hb).
  assert (table_inv known policy_known rt' rows) as Ht by (by eapply table_inv_cached; [apply Hpl|]).
  destruct reject; [exists out, trail, rt', cache', false; by split_and!|]. destruct Hb as (bs & _ & Hb). exists out, trail, rt', cache', (forallb id bs). by split_and!.
Qed.
End plans.

(** * The theorems on concrete plans *)

Lemma cache_ok_empty : cache_ok ∅.
Proof. by intros src x ?%lookup_empty_Some. Qed.

(** What partial evaluation gives for an expression that mentions no variables or derived roles. *)
Definition c_residual (strict : bool) (kn : Known) (e : Expr) : option PExpr :=
  match compileToExpr (Original e) with
  | inl x =>
      match evaluateConditionExpression strict x (Original e) kn ∅ (MkDerivedRolesList []) (∅, ∅) with
      | Some (inl r, _) => Some r
      | _ => None
      end
  | inr _ => None
  end.

(** Partial evaluation in the concrete world has no errors to record. *)
Lemma c_evaluation_pure strict x o kn vars drl : ∃ p : PR PExpr, ∀ s, evaluateConditionExpression strict x o kn vars drl s = r ← p; Some (r, s).
Proof.
  unfold evaluateConditionExpression. cbn [new_evaluator c_partial].
  assert (∀ {A B} (m : PR A) (f : A → EM B), (∀ y, ∃ p : PR B, ∀ s, f y s = r ← p; Some (r, s)) → ∃ p : PR B, ∀ s, (lift m ≫= f) s = r ← p; Some (r, s)) as Hbind.
  { intros A B [[y|e]|] f Hf; [destruct (Hf y) as [p Hp]; exists p; intros s; apply Hp|by exists (perr e)|by exists None]. }
  assert (∀ {B} (m : PR B), ∃ p : PR B, ∀ s, lift m s = r ← p; Some (r, s)) as Hlift by (intros B m; by exists m).
  apply Hbind. intros y. apply Hbind. intros y'. apply Hbind. intros y''. cbn [evalPartially c_partial].
  destruct y'' as [|[]| | | | | |]; try (apply Hbind; intros []; apply Hlift); by eexists (mret _).
Qed.

Definition c_leaf_ok (attr : gmap string Value) (r : PExpr) : bool :=
  match buildExpr r with
  | Some (inl o) => wf_op o && match denote_op o (c_env attr) with Some (V_bool b) => Bool.eqb b (c_truth attr r) | _ => false end
  | _ => false
  end.
Lemma c_leaf attr r : c_leaf_ok attr r = true → leaf_ok (c_env attr) (c_truth attr) r.
Proof.
  unfold c_leaf_ok. destruct (buildExpr r) as [[o|]|] eqn:E; try done. intros [Hw Hd]%andb_true_iff. exists o. split_and!; [done..|].
  destruct (denote_op o (c_env attr)) as [[| | |b| |]|]; try done. by apply Bool.eqb_prop in Hd as ->.
Qed.

Definition c_val (attr : gmap string Value) (strict : bool) (kn : Known) (e : Expr) : bool := match c_residual strict kn e with Some r => c_truth attr r | None => false end.
Definition c_plans_test (attr : gmap string Value) (strict : bool) (kn : Known) (e : Expr) : bool :=
  match c_residual strict kn e with Some r => c_leaf_ok attr r | None => false end.

Lemma c_expr_plans attr strict kn e :
  c_plans_test attr strict kn e = true → expr_plans (c_env attr) (c_truth attr) strict kn ∅ (MkDerivedRolesList []) (c_val attr strict kn) e.
Proof.
  unfold c_plans_test, c_val, c_residual. intros Ht s Hs. destruct (compileToExpr (Original e)) as [x|] eqn:Ex; [|done].
  eapply eruns_bind; [by apply (getOrCompile_runs e s x)|]. intros ? s1 Hs1 ->.
  destruct (c_evaluation_pure strict x (Original e) kn ∅ (MkDerivedRolesList [])) as [p Hp]. unfold eruns. setoid_rewrite Hp. rewrite Hp in Ht.
  destruct p as [[r|]|]; try done. exists r, s1. split_and!; [done|done|by apply c_leaf|done].
Qed.

Section concrete_plan.
Context (rt : RuleTable) (plan : PlanInput) (input : CheckInput).
Local Abbreviation attr := (rs_Attr (ci_Resource input)).
Local Abbreviation px := (planned rt params plan).
Local Abbreviation scopes := (scopes_of (fixed rt params input)).

Definition c_cond_value (kn : Known) (c : option Condition) : bool := match c with Some d => Eval.truth (c_val attr false kn) d | None => true end.

(** Tests for the hypotheses: no binding consulted has variables or derived roles,
    its condition has a residual that evaluates, to what the check finds. *)
Definition c_binding_test (b : BindingHandle) : bool :=
  let core := bh_Core b in
  let kn := known px (match co_Params core with Some p => rp_Constants p | None => ∅ end) in
  bool_decide (co_DerivedRoleCondition core = None) && match co_Params core with Some p => match rp_Variables p with [] => true | _ => false end | None => true end &&
  match co_Condition core with Some d => well_formed d && forallb (c_plans_test attr false kn) (cond_exprs d) | None => true end &&
  Bool.eqb (bool_decide (c_verdict input b = Some true)) (c_cond_value kn (co_Condition core)).
Definition c_faithful_test : bool :=
  forallb c_binding_test (all_consulted rt params input) && forallb (λ s, match candidates rt params plan s with [] => true | _ => false end) (px_resourceScopes px).

Lemma c_binding_faithful b :
  c_binding_test b = true →
  binding_faithful (c_env attr) (c_truth attr) rt params plan (MkDerivedRolesList []) (bh_Core b) (bool_decide (c_verdict input b = Some true)).
Proof.
  unfold c_binding_test. rewrite !andb_true_iff. intros [[[E%bool_decide_eq_true Hp] Hc] Hv%Bool.eqb_prop]. rewrite Hv.
  set (constants := match co_Params (bh_Core b) with Some p => rp_Constants p | None => ∅ end) in *.
  exists constants, ∅, (c_cond_value (known px constants) (co_Condition (bh_Core b))). split_and!; [| |by rewrite E].
  - unfold constants. destruct (co_Params (bh_Core b)) as [p|]; [|done]. split; [done|]. destruct (rp_Variables p); [|done]. intros s Hs. by apply eruns_ret.
  - exists (c_val attr false (known px constants)). split; [|done]. intros d Ed. rewrite Ed in Hc. apply andb_true_iff in Hc as [Hw Hf]. split; [|done].
    intros e He. apply c_expr_plans. rewrite forallb_forall in Hf. by apply Hf, list_elem_of_In.
Qed.

Context (Hcomp : completes plan input).

Lemma c_faithful : c_faithful_test = true → faithful (c_env attr) (c_truth attr) rt params plan input (c_verdict input).
Proof using Hcomp.
  intros [Hb Hc]%andb_true_iff. rewrite forallb_forall in Hb, Hc.
  assert (∀ s, s ∈ px_resourceScopes px → candidates rt params plan s = []) as Hnone.
  { intros s Hs. specialize (Hc s ltac:(by apply list_elem_of_In)). by destruct (candidates rt params plan s). }
  split.
  - intros s c Hs Hin. rewrite Hnone in Hin by done. by apply elem_of_nil in Hin.
  - intros pt action role s b drl Hask Hin Hl. assert (drl = MkDerivedRolesList []) as ->.
    { unfold list_for in Hl. case_decide as Ept; [|done]. destruct Hask as (_ & _ & _ & Hs). rewrite (px_scopes rt params plan input Hcomp) in Hs. subst pt.
      rewrite decide_False in Hs by done. destruct Hl as (roles & Hf & ->). rewrite Hnone in Hf by done. apply Forall2_nil_inv_l in Hf as ->. done. }
    apply c_binding_faithful, Hb, list_elem_of_In, queried_consulted. by exists pt, action, role, s.
Qed.

(** Texts of filters of several actions. *)
Definition c_same_condition (f g : PlanResourcesFilter) : bool :=
  bool_decide (FilterToString f = FilterToString g → operand_code <$> pf_Condition f = operand_code <$> pf_Condition g).
Definition c_texts_test : bool :=
  match plan_actions rt px (pi_Actions plan) (MkPst (bi (rt_idx rt)) (rt_pool rt) (∅, ∅) ∅ ∅ ∅) with
  | Some (inl (filters, _), _) => forallb (λ f, forallb (c_same_condition f) filters) filters
  | _ => true
  end.
Lemma c_texts : c_texts_test = true → texts_distinct rt params plan ∅.
Proof.
  unfold c_texts_test. intros Ht filters m k E. rewrite E in Ht. intros f g Hf Hg _ _ Et. rewrite forallb_forall in Ht.
  specialize (Ht f ltac:(by apply list_elem_of_In)). rewrite forallb_forall in Ht. specialize (Ht g ltac:(by apply list_elem_of_In)).
  apply bool_decide_eq_true in Ht. specialize (Ht Et). destruct (pf_Condition f), (pf_Condition g); try done. injection Ht as ->%operand_code_inj. done.
Qed.

(** Permissions of scopes, and effects of the rules of principal policies. *)
Definition c_scopes_test : bool :=
  forallb (λ s, bool_decide (GetScopeScopePermissions rt s = SCOPE_PERMISSIONS_OVERRIDE_PARENT)) (scopes KIND_PRINCIPAL ++ scopes KIND_RESOURCE).
Lemma c_override : c_scopes_test = true → ∀ pt, all_override rt params input pt.
Proof.
  unfold c_scopes_test. rewrite forallb_forall. intros Hs pt s Hin. eapply bool_decide_eq_true, Hs, list_elem_of_In, elem_of_app.
  unfold scopes_of in *. destruct (decide (pt = KIND_PRINCIPAL)) as [->|Hne]; [by left|right]. rewrite decide_False by done. done.
Qed.
Definition c_allow_rules (action role : string) : list BindingHandle :=
  s ← scopes KIND_PRINCIPAL; filter (λ b, co_Effect (bh_Core b) = EFFECT_ALLOW) (consulted rt (bi (rt_idx rt)) (fixed rt params input) KIND_PRINCIPAL action role s).
Definition c_allow_test : bool :=
  forallb (λ action, match head (pr_Roles (pi_Principal plan)) with
                     | Some role => match c_allow_rules action role with [] => true | _ => false end
                     | None => true
                     end) (pi_Actions plan).
Lemma c_no_clash action : c_allow_test = true → action ∈ pi_Actions plan → no_clash rt params plan input action.
Proof.
  intros Ht Ha. left. intros (role & Hr & s & Hs & b & Hb & He). unfold c_allow_test in Ht. rewrite forallb_forall in Ht.
  specialize (Ht action (proj1 (list_elem_of_In _ _) Ha)). rewrite Hr in Ht.
  assert (b ∈ c_allow_rules action role) as Hin by (apply list_elem_of_bind; exists s; split; [by apply list_elem_of_filter|done]).
  destruct (c_allow_rules action role); [by apply elem_of_nil in Hin|done].
Qed.
End concrete_plan.

(** ** Documents that their owner may view unless they are secret, and edit unless they are locked *)

Definition plan_doc : RunnablePolicySet :=
  resource_policy "doc" "" SCOPE_PERMISSIONS_UNSPECIFIED [] []
    [rule "r1" ["view"; "edit"] ["user"] [] EFFECT_ALLOW (Some "owner"); rule "r2" ["edit"] ["user"] [] EFFECT_DENY (Some "R.locked")].
Definition plan_alice : RunnablePolicySet :=
  principal_policy "alice" "" "doc" [MkActionRule "view" "p1" (Some (Cond_Expr (MkExpr "R.secret"))) EFFECT_DENY None None].
Definition plan_all : list (option RunnablePolicySet + unit) := [inl (Some plan_doc); inl (Some plan_alice)].
Definition plan_table : RuleTable := built plan_all.
Definition plan_query : PlanInput := plan_ask ["user"] ["view"; "edit"].
Definition plan_check : CheckInput := ask ["user"] [("owner", V_string "alice"); ("locked", V_bool false); ("secret", V_bool false)] ["view"; "edit"].
Definition plan_attr : gmap string Value := rs_Attr (ci_Resource plan_check).

Lemma plan_table_inv : ∃ rows, c_inv plan_table rows.
Proof.
  destruct (built_inv plan_all) as (rows & Hi & _); [vm_compute; reflexivity| |vm_compute; reflexivity|by exists rows].
  intros p [E|[E|Hn%elem_of_nil]%elem_of_cons]%elem_of_cons; [injection E as ->|injection E as ->|done];
    (split; [vm_compute; discriminate|apply plain_rows; vm_compute; reflexivity]).
Qed.

Lemma plan_completes : completes plan_query plan_check.
Proof. by split. Qed.

Lemma plan_ideal : ideal (c_env plan_attr) (c_truth plan_attr).
Proof. split; [apply c_hash_exact|apply c_hash_separates|apply c_order_irrelevant|apply c_truth_const|apply c_expands]. Qed.

Lemma plan_plannable rows :
  c_inv plan_table rows → plannable plain_row named (c_env plan_attr) (c_truth plan_attr) plan_table rows ∅ params plan_query plan_check (c_verdict plan_check).
Proof.
  intros Hi. split; [done|exact cache_ok_empty|exact plan_completes| | | |vm_compute; reflexivity|].
  - apply c_faithful; [exact plan_completes|vm_compute; reflexivity].
  - intros pt s Hs. left. revert s Hs. apply c_override. vm_compute. reflexivity.
  - intros action. apply c_no_clash. vm_compute. reflexivity.
  - apply c_texts. vm_compute. reflexivity.
Qed.

Lemma plan_checked : ∃ cout, checked plan_table params plan_check (c_verdict plan_check) cout.
Proof.
  destruct (response plan_table plan_check "view" (λ _, true)) as (cout & trail & rt' & i & E & _ & _); [vm_compute; reflexivity|].
  exists cout. split; [apply c_stable; vm_compute; reflexivity|apply c_not_rejected; vm_compute; reflexivity|done|eauto].
Qed.

(** The plan that is returned, and what its filter says. *)
Lemma plan_output (P : PlanResourcesFilter → bool) :
  match planWithAuditTrail plan_table ∅ params plan_query with Some (inl (out, _), _) => P (po_Filter out) | _ => false end = true →
  ∃ out trail st, planWithAuditTrail plan_table ∅ params plan_query = Some (inl (out, trail), st) ∧ P (po_Filter out) = true.
Proof. destruct (planWithAuditTrail plan_table ∅ params plan_query) as [[[[out trail]|] st]|]; [|done..]. intros HP. by exists out, trail, st. Qed.

Definition plan_selects (f : PlanResourcesFilter) : bool := bool_decide (filter_holds (c_env plan_attr) f = Some true).

Lemma plan_sound_witness : ∃ cout, checked plan_table params plan_check (c_verdict plan_check) cout ∧ allows cout "edit".
Proof.
  destruct plan_table_inv as [rows Hi]. destruct plan_checked as [cout Hck].
  destruct (plan_output plan_selects) as (out & trail & st & E & Hf); [vm_compute; reflexivity|]. exists cout. split; [exact Hck|].
  refine (plan_sound plain_row named (c_env plan_attr) (c_truth plan_attr) plan_table rows ∅ params plan_query plan_check (c_verdict plan_check)
    out trail st cout "edit" plan_ideal (plan_plannable rows Hi) Hck E _ _).
  - exact (proj1 (bool_decide_eq_true _) Hf).
  - right. left.
Defined.

Lemma plan_validates : validates plan_table params plan_query false.
Proof. exists [], false. by split. Qed.

Lemma plan_exact_witness :
  ∃ out trail st cout, planWithAuditTrail plan_table ∅ params plan_query = Some (inl (out, trail), st) ∧
    (filter_holds (c_env plan_attr) (po_Filter out) = Some true ↔ ∀ action, action ∈ pi_Actions plan_query → allows cout action).
Proof.
  destruct plan_table_inv as [rows Hi]. destruct plan_checked as [cout Hck].
  destruct (plan_output plan_selects) as (out & trail & st & E & _); [vm_compute; reflexivity|]. exists out, trail, st, cout. split; [exact E|].
  refine (plan_exact plain_row named (c_env plan_attr) (c_truth plan_attr) plan_table rows ∅ params plan_query plan_check (c_verdict plan_check)
    "user" out trail st cout plan_ideal (plan_plannable rows Hi) Hck _ _ plan_validates E).
  - reflexivity.
  - apply c_override. vm_compute. reflexivity.
Defined.

Lemma plan_answers_witness :
  ∃ out trail rt' cache' b, planWithAuditTrail plan_table ∅ params plan_query = Some (inl (out, trail), (rt', cache')) ∧
    filter_holds (c_env plan_attr) (po_Filter out) = Some b ∧ cache_ok cache'.
Proof.
  destruct plan_table_inv as [rows Hi].
  destruct (plan_answers plain_row named (c_env plan_attr) (c_truth plan_attr) plan_table rows ∅ params plan_query plan_check (c_verdict plan_check)
    false plan_ideal (plan_plannable rows Hi) plan_validates) as (out & trail & rt' & cache' & b & E & Hb & _ & Hc & _).
  exists out, trail, rt', cache', b. split; [exact E|]. split; [exact Hb|exact Hc].
Defined.

(** ** Steps *)

(** [owner in ["alice"] && (true || locked)], abbreviated *)
Definition step_condition : Operand :=
  O_Expression Op.And [O_Expression Op.In [O_Variable "R.attr.owner"; O_Value (V_list [V_string "alice"])];
                       O_Expression Op.Or [O_Value (V_bool true); O_Variable "R.attr.locked"]].
Definition owner_equals : Operand := O_Expression Op.Equals [O_Variable "request.resource.attr.owner"; O_Value (V_string "alice")].

Lemma normalised_filter_means_witness :
  normaliseFilter (MkFilter KIND_CONDITIONAL (Some step_condition)) = MkFilter KIND_CONDITIONAL (Some owner_equals) ∧
  filter_holds (c_env plan_attr) (normaliseFilter (MkFilter KIND_CONDITIONAL (Some step_condition))) = Some true.
Proof.
  split; [vm_compute; reflexivity|].
  refine (normalised_filter_means step_condition (c_env plan_attr) true _ (c_hash_separates _) (c_expands _) _); vm_compute; reflexivity.
Defined.

Definition step_node : QpN :=
  N_LogicalOperation OPERATOR_AND [N_Expression (c_attr "locked"); N_LogicalOperation OPERATOR_NOT [N_Expression (c_attr "secret")]].
Lemma step_node_ok : node_ok (c_env plan_attr) (c_truth plan_attr) step_node.
Proof.
  assert (∀ x, x = "locked" ∨ x = "secret" → leaf_ok (c_env plan_attr) (c_truth plan_attr) (c_attr x)) as Hl.
  { intros x [->| ->]; apply c_leaf; vm_compute; reflexivity. }
  apply node_ok_logical. split_and!; [done|done|]. apply Forall_cons. split; [apply Hl; auto|]. apply Forall_singleton, node_ok_logical.
  split_and!; [done|done|]. apply Forall_singleton, Hl. auto.
Qed.

Lemma node_filter_means_witness :
  ∃ f, ToFilter step_node = Some (inl f) ∧ filter_holds (c_env plan_attr) f = Some false.
Proof.
  destruct (node_filter_means (c_env plan_attr) (c_truth plan_attr) step_node step_node_ok (c_expands _) (λ c _, c_hash_separates c)) as (f & E & Hf).
  exists f. split; [exact E|]. rewrite Hf. vm_compute. reflexivity.
Defined.

Definition step_filters : list PlanResourcesFilter :=
  [MkFilter KIND_CONDITIONAL (Some owner_equals); MkFilter KIND_ALWAYS_ALLOWED None; MkFilter KIND_CONDITIONAL (Some owner_equals)].
Lemma merged_filter_is_conjunction_witness :
  ∃ f text, MergeWithAnd step_filters = Some (inl (f, text)) ∧ filter_holds (c_env plan_attr) f = Some true.
Proof.
  destruct (merged_filter_is_conjunction (c_env plan_attr) step_filters) as (f & text & E & Hf).
  - repeat constructor; eexists; vm_compute; reflexivity.
  - intros f g Hf Hg Kf Kg _. assert (∀ x, x ∈ step_filters → pf_Kind x = KIND_CONDITIONAL → pf_Condition x = Some owner_equals) as Hc.
    { intros x Hx. unfold step_filters in Hx. rewrite !elem_of_cons, elem_of_nil in Hx. by destruct Hx as [->|[->|[->|[]]]]. }
    rewrite (Hc f Hf Kf), (Hc g Hg Kg). reflexivity.
  - exists f, text. split; [exact E|]. rewrite Hf. vm_compute. reflexivity.
Defined.

Definition step_known : Known := known (planned plan_table params plan_query) ∅.
Definition step_cond : Condition := Cond_All [Cond_Expr (MkExpr "owner"); Cond_None [Cond_Expr (MkExpr "R.locked"); Cond_Expr (MkExpr "false")]].
Lemma condition_node_means_witness :
  ∃ n s', EvaluateCondition false step_known ∅ (MkDerivedRolesList []) (Some step_cond) (∅, ∅) = Some (inl n, s') ∧ node_truth (c_truth plan_attr) n = true.
Proof.
  destruct (condition_node_means (c_env plan_attr) (c_truth plan_attr) false step_known ∅ (MkDerivedRolesList []) (c_val plan_attr false step_known) step_cond (∅, ∅)
    (c_truth_const _)) as (n & s' & E & _ & _ & Ht).
  - assert (forallb (c_plans_test plan_attr false step_known) (cond_exprs step_cond) = true) as Hall by (vm_compute; reflexivity).
    rewrite forallb_forall in Hall. intros e He. apply c_expr_plans, Hall, list_elem_of_In, He.
  - vm_compute. reflexivity.
  - exact cache_ok_empty.
  - exists n, s'. split; [exact E|]. rewrite Ht. vm_compute. reflexivity.
Defined.
