(* ===== verification/CompileSource.v ===== *)
(** Source policies: the messages of
    [src/api/public/cerbos/policy/v1/policy.proto] that the compiler reads, the
    helpers of [src/internal/policy/policy.go] that find what a policy depends on,
    compilation units, and validation ([src/internal/policy/validate.go],
    [src/internal/conditions/identifiers.go]).

    Messages in a repeated field or behind a set member of a union are not nil, as
    decoding guarantees; other messages may be nil and are of [option] type.  A
    panic is [None]. *)
From stdpp Require Import pretty.
From S2P Require Import Prelude Namer Policy RuleTableBuild.

Local Open Scope string_scope.
Local Open Scope list_scope.
Open Scope nat_scope.

(** * Messages *)

Module policyv1.
Inductive Match :=
  | Match_Expr (expr : string)
  | Match_All (l : list Match)
  | Match_Any (l : list Match)
  | Match_None (l : list Match)
  | Match_unset.
Inductive Condition :=
  | Condition_Match (m : option Match)
  | Condition_Script (script : string)
  | Condition_unset.
Record Output_When := MkWhen { when_RuleActivated : string; when_ConditionNotMet : string }.
Record Output := MkOutput { out_Expr : string; out_When : option Output_When }.

Record Constants := MkConstants { cs_Import : list string; cs_Local : gmap string Value }.
Record Variables := MkVariables { vs_Import : list string; vs_Local : gmap string string }.

Record ResourceRule := MkResourceRule {
  rrule_Actions : list string;
  rrule_DerivedRoles : list string;
  rrule_Roles : list string;
  rrule_Condition : option Condition;
  rrule_Effect : Effect;
  rrule_Name : string;
  rrule_Output : option Output;
}.
Record ResourcePolicy := MkResourcePolicy {
  rp_Resource : string;
  rp_Version : string;
  rp_ImportDerivedRoles : list string;
  rp_Rules : list ResourceRule;
  rp_Scope : string;
  rp_Schemas : option Schemas_;
  rp_Variables : option Variables;
  rp_ScopePermissions : ScopePermissions;
  rp_Constants : option Constants;
}.

Record PrincipalRule_Action := MkAction {
  act_Action : string;
  act_Condition : option Condition;
  act_Effect : Effect;
  act_Name : string;
  act_Output : option Output;
}.
Record PrincipalRule := MkPrincipalRule { prule_Resource : string; prule_Actions : list PrincipalRule_Action }.
Record PrincipalPolicy := MkPrincipalPolicy {
  pp_Principal : string;
  pp_Version : string;
  pp_Rules : list PrincipalRule;
  pp_Scope : string;
  pp_Variables : option Variables;
  pp_ScopePermissions : ScopePermissions;
  pp_Constants : option Constants;
}.

Record RoleRule := MkRoleRule {
  orule_Resource : string;
  orule_AllowActions : list string;
  orule_Condition : option Condition;
  orule_Name : string;
  orule_Output : option Output;
}.
Record RolePolicy := MkRolePolicy {
  ro_Role : string;
  ro_Version : string;
  ro_ParentRoles : list string;
  ro_Scope : string;
  ro_Rules : list RoleRule;
  ro_Variables : option Variables;
  ro_Constants : option Constants;
}.

Record RoleDef := MkRoleDef { def_Name : string; def_ParentRoles : list string; def_Condition : option Condition }.
Record DerivedRoles := MkDerivedRoles {
  drs_Name : string;
  drs_Definitions : list RoleDef;
  drs_Variables : option Variables;
  drs_Constants : option Constants;
}.
Record ExportConstants := MkExportConstants { ec_Name : string; ec_Definitions : gmap string Value }.
Record ExportVariables := MkExportVariables { ev_Name : string; ev_Definitions : gmap string string }.

Inductive PolicyType :=
  | Policy_ResourcePolicy (rp : ResourcePolicy)
  | Policy_PrincipalPolicy (pp : PrincipalPolicy)
  | Policy_RolePolicy (rp : RolePolicy)
  | Policy_DerivedRoles (dr : DerivedRoles)
  | Policy_ExportConstants (ec : ExportConstants)
  | Policy_ExportVariables (ev : ExportVariables).

(** Metadata that is not set reads as empty; source attributes are opaque. *)
Record Policy := MkPolicy {
  p_PolicyType : option PolicyType;
  p_Variables : gmap string string;
  p_SourceFile : string;
  p_SourceAttributes : string;
  p_Disabled : bool;
}.

(** The getters, which read through nil messages. *)
Definition constants_GetImport (c : option Constants) : list string := default [] (cs_Import <$> c).
Definition constants_GetLocal (c : option Constants) : gmap string Value := default ∅ (cs_Local <$> c).
Definition variables_GetImport (v : option Variables) : list string := default [] (vs_Import <$> v).
Definition variables_GetLocal (v : option Variables) : gmap string string := default ∅ (vs_Local <$> v).
Definition GetRuleActivated (w : option Output_When) : string := default "" (when_RuleActivated <$> w).
Definition GetConditionNotMet (w : option Output_When) : string := default "" (when_ConditionNotMet <$> w).
Definition GetResourcePolicy (p : Policy) : option ResourcePolicy :=
  match p_PolicyType p with Some (Policy_ResourcePolicy rp) => Some rp | _ => None end.
Definition GetPrincipalPolicy (p : Policy) : option PrincipalPolicy :=
  match p_PolicyType p with Some (Policy_PrincipalPolicy pp) => Some pp | _ => None end.
Definition GetRolePolicy (p : Policy) : option RolePolicy :=
  match p_PolicyType p with Some (Policy_RolePolicy rp) => Some rp | _ => None end.
Definition GetDerivedRoles (p : Policy) : option DerivedRoles :=
  match p_PolicyType p with Some (Policy_DerivedRoles dr) => Some dr | _ => None end.
Definition GetExportConstants (p : Policy) : option ExportConstants :=
  match p_PolicyType p with Some (Policy_ExportConstants ec) => Some ec | _ => None end.
Definition GetExportVariables (p : Policy) : option ExportVariables :=
  match p_PolicyType p with Some (Policy_ExportVariables ev) => Some ev | _ => None end.
End policyv1.

(** * Names *)

(** What names are made of. *)
Definition coordinates (pt : policyv1.PolicyType) : PolicyType :=
  match pt with
  | policyv1.Policy_ResourcePolicy rp => Policy_ResourcePolicy (policyv1.rp_Resource rp) (policyv1.rp_Version rp) (policyv1.rp_Scope rp)
  | policyv1.Policy_PrincipalPolicy pp => Policy_PrincipalPolicy (policyv1.pp_Principal pp) (policyv1.pp_Version pp) (policyv1.pp_Scope pp)
  | policyv1.Policy_RolePolicy rp => Policy_RolePolicy (policyv1.ro_Role rp) (policyv1.ro_Version rp) (policyv1.ro_Scope rp)
  | policyv1.Policy_DerivedRoles dr => Policy_DerivedRoles (policyv1.drs_Name dr)
  | policyv1.Policy_ExportConstants ec => Policy_ExportConstants (policyv1.ec_Name ec)
  | policyv1.Policy_ExportVariables ev => Policy_ExportVariables (policyv1.ev_Name ev)
  end.

(** [namer.FQN] and [namer.FQNTree] of a policy; a type that is not set panics. *)
Definition policy_FQN (p : policyv1.Policy) : option string := FQN ∘ coordinates <$> policyv1.p_PolicyType p.
Definition policy_FQNTree (p : policyv1.Policy) : option (list string) := FQNTree ∘ coordinates <$> policyv1.p_PolicyType p.

Definition ResourceRuleName (rule : policyv1.ResourceRule) (idx : nat) : string :=
  if decide (policyv1.rrule_Name rule ≠ "") then policyv1.rrule_Name rule else "rule-" +:+ pad3 idx.
Definition PrincipalResourceActionRuleName (rule : policyv1.PrincipalRule_Action) (resource : string) (idx : nat) : string :=
  if decide (policyv1.act_Name rule ≠ "") then policyv1.act_Name rule else resource +:+ "_rule-" +:+ pad3 idx.

(** * Kinds *)

Definition kind_of (pt : policyv1.PolicyType) : Kind :=
  match pt with
  | policyv1.Policy_ResourcePolicy _ => KIND_RESOURCE
  | policyv1.Policy_PrincipalPolicy _ => KIND_PRINCIPAL
  | policyv1.Policy_DerivedRoles _ => KIND_DERIVED_ROLES
  | policyv1.Policy_ExportConstants _ => KIND_EXPORT_CONSTANTS
  | policyv1.Policy_ExportVariables _ => KIND_EXPORT_VARIABLES
  | policyv1.Policy_RolePolicy _ => KIND_ROLE_POLICY
  end.
Definition GetKind (p : policyv1.Policy) : option Kind := kind_of <$> policyv1.p_PolicyType p.

Definition KindFromFQN (fqn : string) : option Kind :=
  if String.prefix ResourcePoliciesPrefix fqn then Some KIND_RESOURCE
  else if String.prefix PrincipalPoliciesPrefix fqn then Some KIND_PRINCIPAL
  else if String.prefix DerivedRolesPrefix fqn then Some KIND_DERIVED_ROLES
  else if String.prefix ExportConstantsPrefix fqn then Some KIND_EXPORT_CONSTANTS
  else if String.prefix ExportVariablesPrefix fqn then Some KIND_EXPORT_VARIABLES
  else if String.prefix RolePoliciesPrefix fqn then Some KIND_ROLE_POLICY
  else None.

Definition GetScope (p : policyv1.Policy) : string :=
  match policyv1.p_PolicyType p with
  | Some (policyv1.Policy_ResourcePolicy rp) => policyv1.rp_Scope rp
  | Some (policyv1.Policy_PrincipalPolicy pp) => policyv1.pp_Scope pp
  | _ => ""
  end.
Definition GetScopePermissions (p : policyv1.Policy) : ScopePermissions :=
  match policyv1.p_PolicyType p with
  | Some (policyv1.Policy_ResourcePolicy rp) => policyv1.rp_ScopePermissions rp
  | Some (policyv1.Policy_PrincipalPolicy pp) => policyv1.pp_ScopePermissions pp
  | _ => SCOPE_PERMISSIONS_UNSPECIFIED
  end.

Definition GetSourceFile (p : option policyv1.Policy) : option string :=
  match p with
  | None => Some "no file"
  | Some p => if decide (policyv1.p_SourceFile p ≠ "") then Some (policyv1.p_SourceFile p)
              else PolicyKeyFromFQN <$> policy_FQN p
  end.

Definition SchemaReferences (p : policyv1.Policy) : list string :=
  match policyv1.p_PolicyType p with
  | Some (policyv1.Policy_ResourcePolicy rp) =>
      match policyv1.rp_Schemas rp with
      | None => []
      | Some s => (if decide (PrincipalSchema s ≠ "") then [PrincipalSchema s] else []) ++
                  (if decide (ResourceSchema s ≠ "") then [ResourceSchema s] else [])
      end
  | _ => []
  end.

(** * Dependencies *)

(** The imports of a policy type: derived roles, constants, variables. *)
Definition imports (pt : policyv1.PolicyType) : list string * list string * list string :=
  match pt with
  | policyv1.Policy_ResourcePolicy rp =>
      (policyv1.rp_ImportDerivedRoles rp, policyv1.constants_GetImport (policyv1.rp_Constants rp), policyv1.variables_GetImport (policyv1.rp_Variables rp))
  | policyv1.Policy_PrincipalPolicy pp =>
      ([], policyv1.constants_GetImport (policyv1.pp_Constants pp), policyv1.variables_GetImport (policyv1.pp_Variables pp))
  | policyv1.Policy_DerivedRoles dr =>
      ([], policyv1.constants_GetImport (policyv1.drs_Constants dr), policyv1.variables_GetImport (policyv1.drs_Variables dr))
  | policyv1.Policy_RolePolicy rp =>
      ([], policyv1.constants_GetImport (policyv1.ro_Constants rp), policyv1.variables_GetImport (policyv1.ro_Variables rp))
  | policyv1.Policy_ExportConstants _ | policyv1.Policy_ExportVariables _ => ([], [], [])
  end.

(** [Dependencies], without the paths it also returns. *)
Definition Dependencies (p : policyv1.Policy) : option (list string) :=
  pt ← policyv1.p_PolicyType p;
  let '(importDerivedRoles, importConstants, importVariables) := imports pt in
  Some ((DerivedRolesFQN <$> importDerivedRoles) ++ (ExportConstantsFQN <$> importConstants) ++ (ExportVariablesFQN <$> importVariables)).

Section units.
Context `{StringHash}.

Definition ExportConstantsModuleID (constantsName : string) : ModuleID := GenModuleIDFromFQN (ExportConstantsFQN constantsName).
Definition ExportVariablesModuleID (variablesName : string) : ModuleID := GenModuleIDFromFQN (ExportVariablesFQN variablesName).

(** The first name of the tree is the policy itself. *)
Definition Ancestors (p : policyv1.Policy) : option (list ModuleID) :=
  fqnTree ← policy_FQNTree p; Some (GenModuleIDFromFQN <$> tail fqnTree).
Definition RequiredAncestors (p : policyv1.Policy) : option (gmap ModuleID string) :=
  fqnTree ← policy_FQNTree p;
  Some (foldl (λ m fqn, <[GenModuleIDFromFQN fqn := fqn]> m) ∅ (tail fqnTree)).

(** ** Wrapped policies *)

Record Wrapper := MkWrapper {
  w_Policy : policyv1.Policy;
  w_FQN : string;
  w_Name : string;
  w_Version : string;
  w_Scope : string;
  w_ID : ModuleID;
  w_Kind : Kind;
}.

Definition Wrap (p : policyv1.Policy) : option Wrapper :=
  pt ← policyv1.p_PolicyType p;
  let wrap fqn name version scope := MkWrapper p fqn name version scope (GenModuleIDFromFQN fqn) (kind_of pt) in
  Some match pt with
  | policyv1.Policy_ResourcePolicy rp =>
      wrap (ResourcePolicyFQN (policyv1.rp_Resource rp) (policyv1.rp_Version rp) (policyv1.rp_Scope rp))
        (policyv1.rp_Resource rp) (policyv1.rp_Version rp) (policyv1.rp_Scope rp)
  | policyv1.Policy_PrincipalPolicy pp =>
      wrap (PrincipalPolicyFQN (policyv1.pp_Principal pp) (policyv1.pp_Version pp) (policyv1.pp_Scope pp))
        (policyv1.pp_Principal pp) (policyv1.pp_Version pp) (policyv1.pp_Scope pp)
  | policyv1.Policy_RolePolicy rp =>
      let version := if decide (policyv1.ro_Version rp = "") then DefaultVersion else policyv1.ro_Version rp in
      wrap (RolePolicyFQN (policyv1.ro_Role rp) version (policyv1.ro_Scope rp)) (policyv1.ro_Role rp) version (policyv1.ro_Scope rp)
  | policyv1.Policy_DerivedRoles dr => wrap (DerivedRolesFQN (policyv1.drs_Name dr)) (policyv1.drs_Name dr) "" ""
  | policyv1.Policy_ExportConstants ec => wrap (ExportConstantsFQN (policyv1.ec_Name ec)) (policyv1.ec_Name ec) "" ""
  | policyv1.Policy_ExportVariables ev => wrap (ExportVariablesFQN (policyv1.ev_Name ev)) (policyv1.ev_Name ev) "" ""
  end.

Definition Wrapper_Dependencies (w : Wrapper) : option (list ModuleID) :=
  map GenModuleIDFromFQN <$> Dependencies (w_Policy w).

(** ** Compilation units *)

(** Source contexts, which give positions to errors, are left out.  A definition
    may be a nil pointer. *)
Record CompilationUnit := MkUnit {
  cu_Definitions : gmap ModuleID (option policyv1.Policy);
  cu_ModID : ModuleID;
}.

Definition AddDefinition (cu : CompilationUnit) (id : ModuleID) (p : option policyv1.Policy) : CompilationUnit :=
  MkUnit (<[id := p]> (cu_Definitions cu)) (cu_ModID cu).
(** Reading a map at a missing key gives nil. *)
Definition MainPolicy (cu : CompilationUnit) : option policyv1.Policy := mjoin (cu_Definitions cu !! cu_ModID cu).
Definition MainSourceFile (cu : CompilationUnit) : option string := GetSourceFile (MainPolicy cu).
Definition unit_Ancestors (cu : CompilationUnit) : option (list ModuleID) := MainPolicy cu ≫= Ancestors.
Definition unit_Key (cu : CompilationUnit) : option string := p ← MainPolicy cu; PolicyKeyFromFQN <$> policy_FQN p.
End units.

(** * Validation *)

(** [conditions.ValidateIdentifier] *)
Definition keywords : list string := ["false"; "in"; "null"; "true"].
Definition is_ident_start (c : ascii) : bool := is_alpha c || bool_decide (c = "_"%char).
Fixpoint all_chars (f : ascii → bool) (s : string) : bool :=
  match s with EmptyString => true | String c s => f c && all_chars f s end.
Definition identifierPattern_MatchString (s : string) : bool :=
  match s with String c s => is_ident_start c && all_chars is_word_char s | EmptyString => false end.
Definition ValidateIdentifier (identifier : string) : bool :=
  if decide (identifier ∈ keywords) then false else identifierPattern_MatchString identifier.

(** What [Validate] reports, with the (one-based) numbers of the rules. *)
Inductive ValidationError :=
  | EmptyPolicy
  | UnknownPolicyType
  | NoRoles (ruleName : string)
  | DuplicateRuleName (name : string) (rule prev : nat)
  | DuplicateResource (resource : string) (rule prev : nat)
  | DuplicateActionRuleName (resource name : string) (rule prev : nat)
  | DuplicateDerivedRole (name : string) (definition prev : nat)
  | TopLevelVariables.

(** The loop over named things: [clash] makes the error of a second use of a
    name, unnamed things pass, and the map has the number of the first use. *)
Definition name_clashes {A} (name : A → string) (skip : bool) (clash : A → nat → nat → ValidationError) (l : list A) :
    list ValidationError :=
  (foldl (λ '(errs, seen, i) x,
     if skip && bool_decide (name x = "") then (errs, seen, S i)
     else match seen !! name x with
          | Some idx => (errs ++ [clash x (S i) idx], seen, S i)
          | None => (errs, <[name x := S i]> seen, S i)
          end) ([], ∅ : gmap string nat, 0) l).1.1.

(** The errors are collected check by check: their order within the joined error
    is not kept. *)
Definition validateResourcePolicy (rp : policyv1.ResourcePolicy) : list ValidationError :=
  concat (imap (λ i rule,
    if decide (policyv1.rrule_Roles rule = [] ∧ policyv1.rrule_DerivedRoles rule = [])
    then [NoRoles (if decide (policyv1.rrule_Name rule = "") then "#" +:+ pretty (S i) else policyv1.rrule_Name rule)]
    else []) (policyv1.rp_Rules rp)) ++
  name_clashes policyv1.rrule_Name true (λ rule, DuplicateRuleName (policyv1.rrule_Name rule)) (policyv1.rp_Rules rp).

Definition validatePrincipalPolicy (pp : policyv1.PrincipalPolicy) : list ValidationError :=
  name_clashes policyv1.prule_Resource false (λ rules, DuplicateResource (policyv1.prule_Resource rules)) (policyv1.pp_Rules pp) ++
  concat ((λ rules, name_clashes policyv1.act_Name true
             (λ a, DuplicateActionRuleName (policyv1.prule_Resource rules) (policyv1.act_Name a)) (policyv1.prule_Actions rules))
          <$> policyv1.pp_Rules pp).

(** Only a warning is logged. *)
Definition validateRolePolicy (rp : policyv1.RolePolicy) : list ValidationError := [].

Definition validateDerivedRoles (dr : policyv1.DerivedRoles) : list ValidationError :=
  name_clashes policyv1.def_Name false (λ d, DuplicateDerivedRole (policyv1.def_Name d)) (policyv1.drs_Definitions dr).

Definition validateExportConstants (p : policyv1.Policy) : list ValidationError :=
  if decide (0 < size (policyv1.p_Variables p)) then [TopLevelVariables] else [].
Definition validateExportVariables (p : policyv1.Policy) : list ValidationError :=
  if decide (0 < size (policyv1.p_Variables p)) then [TopLevelVariables] else [].

Definition Validate (p : option policyv1.Policy) : list ValidationError :=
  match p with
  | None => [EmptyPolicy]
  | Some p =>
      match policyv1.p_PolicyType p with
      | Some (policyv1.Policy_ResourcePolicy rp) => validateResourcePolicy rp
      | Some (policyv1.Policy_PrincipalPolicy pp) => validatePrincipalPolicy pp
      | Some (policyv1.Policy_RolePolicy rp) => validateRolePolicy rp
      | Some (policyv1.Policy_DerivedRoles dr) => validateDerivedRoles dr
      | Some (policyv1.Policy_ExportConstants _) => validateExportConstants p
      | Some (policyv1.Policy_ExportVariables _) => validateExportVariables p
      | None => [UnknownPolicyType]
      end
  end.

(** * What validation accepts

    What validation accepts: rules with roles, rules, actions and derived roles
    with distinct names, one rule of a principal policy for each resource, no top-
    level variables in exports. *)

(** * Names *)

Section clashes.
Context {A : Type} (name : A → string) (skip : bool) (clash : A → nat → nat → ValidationError).

(** The names that are compared. *)
Definition compared (l : list A) : list string := filter (λ n, skip = true → n ≠ "") (name <$> l).

Lemma name_clashes_nil l : name_clashes name skip clash l = [] ↔ NoDup (compared l).
Proof.
  unfold name_clashes, compared. set (step := λ '(errs, seen, i) x, _).
  assert (∀ l errs (seen : gmap string nat) i, NoDup (map_to_list seen).*1 →
    (foldl step (errs, seen, i) l).1.1 = [] ↔
    errs = [] ∧ NoDup (filter (λ n, skip = true → n ≠ "") (name <$> l)) ∧ ∀ n, n ∈ filter (λ n, skip = true → n ≠ "") (name <$> l) → seen !! n = None) as Hfold.
  { clear l. induction l as [|x l IH]; intros errs seen i Hnd; cbn [foldl fmap list_fmap].
    { rewrite filter_nil. cbn. split; [intros ->; split; [done|]; split; [constructor|by intros n ?%elem_of_nil]|by intros (-> & _)]. }
    destruct (decide (skip = true → name x ≠ "")) as [Hs|Hs].
    - assert (skip && bool_decide (name x = "") = false) as E.
      { destruct skip; [|done]. cbn. apply bool_decide_eq_false. auto. }
      rewrite filter_cons_True by done. cbn [step]. rewrite E, NoDup_cons. setoid_rewrite elem_of_cons. destruct (seen !! name x) as [idx|] eqn:Es.
      + rewrite IH by done. split; [intros [Hn _]; by destruct (app_cons_not_nil _ _ _ (eq_sym Hn))|].
        intros (_ & _ & Hx). rewrite (Hx (name x)) in Es by (by left). done.
      + rewrite IH by apply NoDup_fst_map_to_list. split.
        * intros (-> & Hd & Hx). split; [done|]. split; [split; [|done]|].
          -- intros Hin. specialize (Hx _ Hin). by rewrite lookup_insert_eq in Hx.
          -- intros n [->|Hn]; [done|]. specialize (Hx n Hn). destruct (decide (n = name x)) as [->|]; [done|]. by rewrite lookup_insert_ne in Hx.
        * intros (-> & [Hnot Hd] & Hx). split; [done|]. split; [done|]. intros n Hn. rewrite lookup_insert_ne; [by apply Hx; right|]. intros E'. apply Hnot. by rewrite E'.
    - rewrite filter_cons_False by done. cbn [step].
      assert (skip && bool_decide (name x = "") = true) as ->; [|by apply IH].
      destruct skip; [|by destruct Hs]. cbn. apply bool_decide_eq_true. destruct (decide (name x = "")) as [Hx|Hx]; [done|]. by destruct Hs. }
  rewrite Hfold by apply NoDup_fst_map_to_list. split; [by intros (_ & ? & _)|]. intros Hd. split; [done|]. split; [done|]. intros n _. by rewrite lookup_empty.
Qed.
End clashes.

Lemma compared_all {A} (name : A → string) l : compared name false l = name <$> l.
Proof. unfold compared. induction (name <$> l) as [|n k IH]; [done|]. rewrite filter_cons_True by done. by rewrite IH. Qed.

(** * Policies *)

Definition valid_policy (p : policyv1.Policy) : Prop :=
  match policyv1.p_PolicyType p with
  | Some (policyv1.Policy_ResourcePolicy rp) =>
      Forall (λ rule, policyv1.rrule_Roles rule ≠ [] ∨ policyv1.rrule_DerivedRoles rule ≠ []) (policyv1.rp_Rules rp) ∧
      NoDup (compared policyv1.rrule_Name true (policyv1.rp_Rules rp))
  | Some (policyv1.Policy_PrincipalPolicy pp) =>
      NoDup (policyv1.prule_Resource <$> policyv1.pp_Rules pp) ∧
      Forall (λ rule : policyv1.PrincipalRule, NoDup (compared policyv1.act_Name true (policyv1.prule_Actions rule))) (policyv1.pp_Rules pp)
  | Some (policyv1.Policy_DerivedRoles dr) => NoDup (policyv1.def_Name <$> policyv1.drs_Definitions dr)
  | Some (policyv1.Policy_ExportConstants _) | Some (policyv1.Policy_ExportVariables _) => policyv1.p_Variables p = ∅
  | Some (policyv1.Policy_RolePolicy _) => True
  | None => False
  end.

Lemma concat_nil {A} (ls : list (list A)) : concat ls = [] ↔ Forall (λ l, l = []) ls.
Proof.
  induction ls as [|l ls IH]; cbn; [split; [constructor|done]|]. rewrite Forall_cons, <- IH. split; [apply app_eq_nil|by intros [-> ->]].
Qed.

Lemma validateResourcePolicy_nil rp : validateResourcePolicy rp = [] ↔
  Forall (λ rule, policyv1.rrule_Roles rule ≠ [] ∨ policyv1.rrule_DerivedRoles rule ≠ []) (policyv1.rp_Rules rp) ∧
  NoDup (compared policyv1.rrule_Name true (policyv1.rp_Rules rp)).
Proof.
  unfold validateResourcePolicy. rewrite <- name_clashes_nil.
  assert (∀ {A} (l k : list A), l ++ k = [] ↔ l = [] ∧ k = []) as Happ by (intros A l k; split; [apply app_eq_nil|by intros [-> ->]]).
  rewrite Happ, concat_nil. apply and_iff_compat_r. rewrite !Forall_lookup. split; intros Hl i.
  - intros rule Hi. specialize (Hl i). rewrite list_lookup_imap, Hi in Hl. specialize (Hl _ eq_refl). cbn in Hl. case_decide as Hd; [done|].
    destruct (policyv1.rrule_Roles rule); [|by left]. destruct (policyv1.rrule_DerivedRoles rule); [by destruct Hd|by right].
  - intros e. rewrite list_lookup_imap. destruct (policyv1.rp_Rules rp !! i) as [rule|] eqn:Hi; [|done]. cbn. intros [= <-].
    rewrite decide_False; [done|]. intros [E1 E2]. by destruct (Hl i rule Hi).
Qed.

Lemma validatePrincipalPolicy_nil pp : validatePrincipalPolicy pp = [] ↔
  NoDup (policyv1.prule_Resource <$> policyv1.pp_Rules pp) ∧
  Forall (λ rule : policyv1.PrincipalRule, NoDup (compared policyv1.act_Name true (policyv1.prule_Actions rule))) (policyv1.pp_Rules pp).
Proof.
  unfold validatePrincipalPolicy. rewrite <- compared_all, <- (name_clashes_nil _ false (λ rules, DuplicateResource (policyv1.prule_Resource rules))).
  assert (∀ {A} (l k : list A), l ++ k = [] ↔ l = [] ∧ k = []) as Happ by (intros A l k; split; [apply app_eq_nil|by intros [-> ->]]).
  rewrite Happ, concat_nil, Forall_fmap. apply and_iff_compat_l. apply Forall_iff. intros rule. apply name_clashes_nil.
Qed.

Lemma top_level_nil (p : policyv1.Policy) : (if decide (0 < size (policyv1.p_Variables p)) then [TopLevelVariables] else []) = [] ↔ policyv1.p_Variables p = ∅.
Proof. rewrite <- map_size_empty_iff. case_decide; (split; [|done || lia]); [done|lia]. Qed.

(** Validation accepts exactly these policies. *)
Lemma Validate_spec p : Validate (Some p) = [] ↔ valid_policy p.
Proof.
  unfold Validate, valid_policy. destruct (policyv1.p_PolicyType p) as [[rp|pp|rp|dr|ec|ev]|]; [..|done].
  - apply validateResourcePolicy_nil.
  - apply validatePrincipalPolicy_nil.
  - done.
  - unfold validateDerivedRoles. by rewrite name_clashes_nil, compared_all.
  - apply top_level_nil.
  - apply top_level_nil.
Qed.
