(* ===== verification/CompileDefs.v ===== *)
(** Definitions of constants and variables during compilation: the contexts of
    [src/internal/compile/context.go], the errors of [errors.go], and
    [constants.go], [variables.go] and [conditions.go].

    A computation is in [ST CS]: the state has the errors of the unit and the
    definitions of the module at hand; [None] is a panic (nil pointers, writes to
    nil maps, type assertions on nil nodes).  Errors are kept in the order they
    are added, with the file, the kind and the names that the description has;
    descriptions and positions are not modelled, nor is the map the source keeps
    them in by the hash of their text, of which the compiler only asks whether it
    is empty. *)
From S2P Require Import Prelude Namer Policy ScopePerms IndexQuery RuleTableBuild PlanExpr CompileSource.

Local Open Scope string_scope.
Local Open Scope list_scope.
Open Scope nat_scope.

(** * Third-party code *)

(** cel-go: [conditions.Compile] (parsing, checking, constant folding), the
    conversions between its trees and messages.  [None] is a failure; a nil message
    converts to something too. *)
Class CelChecker := {
  CelAst : Type;
  CheckedExpr : Type;
  cel_Compile : string → option CelAst;
  AstToCheckedExpr : CelAst → option CheckedExpr;
  ToAST : option CheckedExpr → option PExpr;
}.

(** [ast.PreOrderVisit]: the nodes of a tree, parents first. *)
Fixpoint pre_order (e : PExpr) : list PExpr :=
  e :: match e with
       | E_unset | E_Const _ | E_Ident _ => []
       | E_Select e _ _ => pre_order e
       | E_Call _ t l => match t with Some t => pre_order t | None => [] end ++ (l ≫= pre_order)
       | E_List l _ => l ≫= pre_order
       | E_Struct _ l => l ≫= pre_order_entry
       | E_Comprehension _ _ r _ a c s x => pre_order r ++ pre_order a ++ pre_order c ++ pre_order s ++ pre_order x
       end
with pre_order_entry (e : StructEntry) : list PExpr :=
  match e with
  | MkEntry k v _ => match k with FieldKey _ => [] | MapKey k => pre_order k end ++ pre_order v
  end.

(** * Compiled expressions and variables *)

Section defs.
Context `{CelChecker}.

(** [runtimev1.Expr] while compiling; the rule table keeps only the source text. *)
Record CompiledExpr := MkCompiled { cx_Original : string; cx_Checked : option CheckedExpr }.
Definition runnable_expr (e : CompiledExpr) : Expr := MkExpr (cx_Original e).

Record CompiledVariable := MkCompiledVariable { cv_Name : string; cv_Expr : CompiledExpr }.
Definition runnable_variable (v : CompiledVariable) : Variable_ := MkVariable (cv_Name v) (runnable_expr (cv_Expr v)).

(** Where a constant or a variable is defined. *)
Record defCtx := MkDefCtx { dc_sourceFile : string; dc_source : string }.
Definition withSource (c : defCtx) (source : string) : defCtx := MkDefCtx (dc_sourceFile c) source.

Record variableNode := MkVariableNode { vn_Variable : CompiledVariable; vn_varCtx : defCtx; vn_id : N }.
Definition vn_Name (n : variableNode) : string := cv_Name (vn_Variable n).

(** gonum's directed graphs ([graph/simple], [graph/topo]).  Adding a node whose
    identifier is taken and adding a loop panic. *)
Class DirectedGraph := {
  graph : Type;
  NewDirectedGraph : graph;
  AddNode : graph → variableNode → option graph;
  SetEdge : graph → variableNode → variableNode → option graph;
  graph_Node : graph → N → option variableNode;
  graph_Nodes : graph → list variableNode;
  graph_To : graph → N → list variableNode;
  SortStabilized : graph → (list variableNode → list variableNode) → list (list variableNode) + list variableNode;
}.
End defs.

Section compile_defs.
Context `{CelChecker} `{!DirectedGraph} `{GoMapOrder}.

(** * Errors *)

Inductive ErrKind :=
  | errAmbiguousDerivedRole | errConstantRedefined | errCyclicalVariables | errEmptyOutput | errImportNotFound
  | errInvalidResourceRule | errInvalidSchema | errMissingDefinition | errScriptsUnsupported | errUndefinedConstant
  | errUndefinedVariable | errUnexpectedErr | errUnknownDerivedRole | errVariableRedefined
  | errInvalidConstantName | errInvalidVariableName | errInvalidExpression | errConversion.
Record CompileError := MkError { ce_File : string; ce_Err : ErrKind; ce_Names : list string }.

(** * Contexts *)

Record constantDefinitions := MkConstantDefs {
  cd_values : gmap string Value;
  cd_sources : gmap string (list defCtx);
  cd_used : option (gset string);
}.
Record variableDefinitions := MkVariableDefs {
  vd_graph : graph;
  vd_ids : gmap string N;
  vd_sources : gmap string (list defCtx);
  vd_used : option (gset string);
  vd_nextID : N;
}.

Record CS := MkCS {
  st_errors : list CompileError;
  st_constants : option constantDefinitions;
  st_variables : option variableDefinitions;
}.

Record moduleCtx := MkModuleCtx { mc_def : policyv1.Policy; mc_fqn : string; mc_sourceFile : string }.

Definition addErr (file : string) (err : ErrKind) (names : list string) : ST CS () := λ s,
  Some (tt, MkCS (st_errors s ++ [MkError file err names]) (st_constants s) (st_variables s)).
Definition set_constants (cd : constantDefinitions) : ST CS () := λ s,
  Some (tt, MkCS (st_errors s) (Some cd) (st_variables s)).
Definition set_variables (vd : variableDefinitions) : ST CS () := λ s,
  Some (tt, MkCS (st_errors s) (st_constants s) (Some vd)).
(** Reading a field through a nil pointer panics. *)
Definition the_constants : ST CS constantDefinitions := λ s, cd ← st_constants s; Some (cd, s).
Definition the_variables : ST CS variableDefinitions := λ s, vd ← st_variables s; Some (vd, s).

Definition forST {A} (l : list A) (body : A → ST CS ()) : ST CS () := foldST (λ _ x, body x) tt l.
Definition mapST {A B} (f : A → ST CS B) : list A → ST CS (list B) :=
  fix go l := match l with [] => mret [] | x :: l => y ← f x; ys ← go l; mret (y :: ys) end.

(** Working on another module, with a context of its own: the errors are shared. *)
Definition in_module {A} (m : ST CS A) : ST CS (A * CS) := λ s,
  '(x, s') ← m (MkCS (st_errors s) None None);
  Some ((x, s'), MkCS (st_errors s') (st_constants s) (st_variables s)).

(** * References *)

Definition CELConstantsIdent : string := "constants".
Definition CELConstantsAbbrev : string := "C".
Definition CELVariablesIdent : string := "variables".
Definition CELVariablesAbbrev : string := "V".

Definition constant_ref (e : PExpr) : option string :=
  match e with
  | E_Select (E_Ident x) f _ => if decide (x = CELConstantsIdent ∨ x = CELConstantsAbbrev) then Some f else None
  | _ => None
  end.
Definition variable_ref (e : PExpr) : option string :=
  match e with
  | E_Select (E_Ident x) f _ => if decide (x = CELVariablesIdent ∨ x = CELVariablesAbbrev) then Some f else None
  | _ => None
  end.
Definition constant_refs (e : PExpr) : gset string := list_to_set (omap constant_ref (pre_order e)).
Definition variable_refs (e : PExpr) : gset string := list_to_set (omap variable_ref (pre_order e)).

(** [constantDefinitions.references] and [variableDefinitions.references] *)
Definition constants_references (mc : moduleCtx) (e : option CheckedExpr) : ST CS (gset string) :=
  match ToAST e with
  | None => _ ← addErr (mc_sourceFile mc) errConversion []; mret ∅
  | Some a => mret (constant_refs a)
  end.
Definition variables_references (mc : moduleCtx) (e : option CheckedExpr) : ST CS (gset string * gset string) :=
  match ToAST e with
  | None => _ ← addErr (mc_sourceFile mc) errConversion []; mret (∅, ∅)
  | Some a => mret (constant_refs a, variable_refs a)
  end.

(** * Constants *)

Definition newConstantDefinitions : constantDefinitions := MkConstantDefs ∅ ∅ None.

Definition constants_Add (name : string) (value : Value) (ctx : defCtx) : ST CS () :=
  cd ← the_constants;
  set_constants (MkConstantDefs (<[name := value]> (cd_values cd))
                   (<[name := default [] (cd_sources cd !! name) ++ [ctx]]> (cd_sources cd)) (cd_used cd)).

Definition constants_Compile (mc : moduleCtx) (definitions : gmap string Value) (source : string) : ST CS () :=
  forST (go_range definitions) (λ '(name, value),
    _ ← (if ValidateIdentifier name then mret tt else addErr (mc_sourceFile mc) errInvalidConstantName [name]);
    constants_Add name value (MkDefCtx (mc_sourceFile mc) source)).

(** The first place of a constant that has none would be out of range. *)
Definition constants_Import (from : constantDefinitions) (source : string) : ST CS () :=
  forST (go_range (cd_values from)) (λ '(name, value),
    ctx ← lift (cd_sources from !! name ≫= head);
    constants_Add name value (withSource ctx source)).

Definition constants_ResetUsage : ST CS () :=
  cd ← the_constants; set_constants (MkConstantDefs (cd_values cd) (cd_sources cd) (Some ∅)).

Definition reportRedefinedConstants (mc : moduleCtx) : ST CS () :=
  cd ← the_constants;
  forST (go_range (cd_sources cd)) (λ '(name, definedIn),
    if decide (length definedIn = 1) then mret tt else addErr (mc_sourceFile mc) errConstantRedefined [name]).

Definition constants_Resolve (mc : moduleCtx) : ST CS () :=
  _ ← reportRedefinedConstants mc; constants_ResetUsage.

Definition constants_IsDefined (name : string) : ST CS bool :=
  cd ← the_constants; mret (bool_decide (is_Some (cd_values cd !! name))).

(** A write to the set of used names panics before [ResetUsage] has made it. *)
Definition constants_Use (mc : moduleCtx) (e : option CheckedExpr) : ST CS () :=
  refs ← constants_references mc e;
  forST (set_range refs) (λ name,
    cd ← the_constants;
    if decide (is_Some (cd_values cd !! name)) then
      used ← lift (cd_used cd);
      set_constants (MkConstantDefs (cd_values cd) (cd_sources cd) (Some ({[name]} ∪ used)))
    else addErr (mc_sourceFile mc) errUndefinedConstant [name]).

(** Every used name has a value, so the lookups never read a missing key. *)
Definition constants_Used : ST CS (gmap string Value) :=
  cd ← the_constants; mret (filter (λ '(name, _), name ∈ default ∅ (cd_used cd)) (cd_values cd)).

Definition compileExportConstants (mc : moduleCtx) : ST CS () :=
  s ← gets st_constants;
  match s with
  | Some _ => mret tt
  | None =>
      _ ← set_constants newConstantDefinitions;
      match policyv1.GetExportConstants (mc_def mc) with
      | None => addErr (mc_sourceFile mc) errUnexpectedErr []
      | Some ec => constants_Compile mc (policyv1.ec_Definitions ec) "definitions"
      end
  end.

(** * Variables *)

Definition newVariableDefinitions : variableDefinitions := MkVariableDefs NewDirectedGraph ∅ ∅ None 0.

Definition variables_Add (v : CompiledVariable) (ctx : defCtx) : ST CS () :=
  vd ← the_variables;
  g ← lift (AddNode (vd_graph vd) (MkVariableNode v ctx (vd_nextID vd)));
  set_variables (MkVariableDefs g (<[cv_Name v := vd_nextID vd]> (vd_ids vd))
    (<[cv_Name v := default [] (vd_sources vd !! cv_Name v) ++ [ctx]]> (vd_sources vd)) (vd_used vd) (vd_nextID vd + 1)%N).

Definition variables_ResetUsage : ST CS () :=
  vd ← the_variables;
  set_variables (MkVariableDefs (vd_graph vd) (vd_ids vd) (vd_sources vd) (Some ∅) (vd_nextID vd)).

(** ** Usage *)

(** A variable uses the variables it refers to, and the constants of its
    expression.  Every nested call that does not return at once uses one more name. *)
Fixpoint variables_use (fuel : nat) (mc : moduleCtx) (id : N) (name : string) : ST CS () :=
  match fuel with
  | O => lift None
  | S fuel =>
      vd ← the_variables;
      used ← lift (vd_used vd);
      if decide (name ∈ used) then mret tt
      else
        _ ← set_variables (MkVariableDefs (vd_graph vd) (vd_ids vd) (vd_sources vd) (Some ({[name]} ∪ used)) (vd_nextID vd));
        node ← lift (graph_Node (vd_graph vd) id);
        _ ← constants_Use mc (cx_Checked (cv_Expr (vn_Variable node)));
        forST (graph_To (vd_graph vd) id) (λ referenced, variables_use fuel mc (vn_id referenced) (vn_Name referenced))
  end.

Definition variables_Use (mc : moduleCtx) (e : option CheckedExpr) : ST CS () :=
  refs ← variables_references mc e;
  forST (set_range refs.2) (λ name,
    vd ← the_variables;
    match vd_ids vd !! name with
    | Some id => variables_use (S (size (vd_ids vd))) mc id name
    | None => addErr (mc_sourceFile mc) errUndefinedVariable [name]
    end).

(** ** Compiling expressions *)

Definition compileCELExpr (mc : moduleCtx) (expr : string) (mark : bool) : ST CS CompiledExpr :=
  match cel_Compile expr with
  | None => _ ← addErr (mc_sourceFile mc) errInvalidExpression [expr]; mret (MkCompiled expr None)
  | Some ast =>
      match AstToCheckedExpr ast with
      | None => _ ← addErr (mc_sourceFile mc) errConversion [expr]; mret (MkCompiled expr None)
      | Some checkedExpr =>
          _ ← (if mark then _ ← constants_Use mc (Some checkedExpr); variables_Use mc (Some checkedExpr) else mret tt);
          mret (MkCompiled expr (Some checkedExpr))
      end
  end.

(** ** Definitions *)

Definition variables_Compile (mc : moduleCtx) (definitions : gmap string string) (source : string) : ST CS () :=
  forST (go_range definitions) (λ '(name, expr),
    _ ← (if ValidateIdentifier name then mret tt else addErr (mc_sourceFile mc) errInvalidVariableName [name]);
    e ← compileCELExpr mc expr false;
    variables_Add (MkCompiledVariable name e) (MkDefCtx (mc_sourceFile mc) source)).

Definition variables_Import (from : variableDefinitions) (source : string) : ST CS () :=
  forST (graph_Nodes (vd_graph from)) (λ n, variables_Add (vn_Variable n) (withSource (vn_varCtx n) source)).

Definition reportRedefinedVariables (mc : moduleCtx) : ST CS () :=
  vd ← the_variables;
  forST (go_range (vd_sources vd)) (λ '(name, definedIn),
    if decide (length definedIn = 1) then mret tt else addErr (mc_sourceFile mc) errVariableRedefined [name]).

(** One edge from every variable to those that refer to it. *)
Definition resolve_reference (referrer : variableNode) (referrerName referencedVarName : string) : ST CS () :=
  if decide (referencedVarName = referrerName) then
    addErr (dc_sourceFile (vn_varCtx referrer)) errCyclicalVariables [referrerName]
  else
    vd ← the_variables;
    match vd_ids vd !! referencedVarName with
    | None => addErr (dc_sourceFile (vn_varCtx referrer)) errUndefinedVariable [referencedVarName; referrerName]
    | Some referencedID =>
        referenced ← lift (graph_Node (vd_graph vd) referencedID);
        g ← lift (SetEdge (vd_graph vd) referenced referrer);
        set_variables (MkVariableDefs g (vd_ids vd) (vd_sources vd) (vd_used vd) (vd_nextID vd))
    end.

Definition resolveReferences (mc : moduleCtx) : ST CS () :=
  vd ← the_variables;
  forST (go_range (vd_ids vd)) (λ '(referrerName, referrerID),
    vd ← the_variables;
    referrer ← lift (graph_Node (vd_graph vd) referrerID);
    refs ← variables_references mc (cx_Checked (cv_Expr (vn_Variable referrer)));
    _ ← forST (set_range refs.1) (λ referencedConstName,
          defined ← constants_IsDefined referencedConstName;
          if (defined : bool) then mret tt
          else addErr (dc_sourceFile (vn_varCtx referrer)) errUndefinedConstant [referencedConstName; referrerName]);
    forST (set_range refs.2) (resolve_reference referrer referrerName)).

Definition variables_Resolve (mc : moduleCtx) : ST CS () :=
  _ ← reportRedefinedVariables mc; _ ← resolveReferences mc; variables_ResetUsage.

(** ** Listing *)

Definition name_le (a b : variableNode) : Prop := string_le (vn_Name a) (vn_Name b).
#[export] Instance name_le_dec : RelDecision name_le := λ a b, string_le_dec _ _.
Definition sortVariablesByName (nodes : list variableNode) : list variableNode := merge_sort name_le nodes.

Definition reportCyclicalVariables (mc : moduleCtx) (cycles : list (list variableNode)) : ST CS () :=
  forST cycles (λ cycle,
    let cycle := sortVariablesByName cycle in
    match cycle with
    | firstItem :: _ => addErr (dc_sourceFile (vn_varCtx firstItem)) errCyclicalVariables (vn_Name <$> cycle)
    | [] => addErr (mc_sourceFile mc) errCyclicalVariables []
    end).

(** The ordered list; the deprecated map of the same variables is left out. *)
Definition variables_list (mc : moduleCtx) (includeUnused : bool) : ST CS (list CompiledVariable) :=
  vd ← the_variables;
  match SortStabilized (vd_graph vd) sortVariablesByName with
  | inl cycles => _ ← reportCyclicalVariables mc cycles; mret []
  | inr nodes =>
      mret (filter (λ v, cv_Name v ∈ default ∅ (vd_used vd) ∨ includeUnused = true) (vn_Variable <$> nodes))
  end.
Definition variables_Used (mc : moduleCtx) : ST CS (list CompiledVariable) := variables_list mc false.
Definition variables_All (mc : moduleCtx) : ST CS (list CompiledVariable) := variables_list mc true.

Definition compileExportVariables (mc : moduleCtx) : ST CS () :=
  s ← gets st_variables;
  match s with
  | Some _ => mret tt
  | None =>
      _ ← set_variables newVariableDefinitions;
      match policyv1.GetExportVariables (mc_def mc) with
      | None => addErr (mc_sourceFile mc) errUnexpectedErr []
      | Some ev => variables_Compile mc (policyv1.ev_Definitions ev) "definitions"
      end
  end.

(** Migration of policies compiled before variables were ordered: the variables
    are resolved on their own, without constants. *)
Definition sortCompiledVariables (fqn : string) (variables : gmap string CompiledExpr) : ST CS (list CompiledVariable) :=
  let mc := MkModuleCtx (policyv1.MkPolicy None ∅ "" "" false) fqn "" in
  _ ← set_variables newVariableDefinitions;
  _ ← forST (go_range variables) (λ '(name, expr), variables_Add (MkCompiledVariable name expr) (MkDefCtx "" ""));
  _ ← variables_Resolve mc;
  variables_All mc.

(** * Conditions and outputs *)

Definition when_set {A} (s : string) (m : ST CS A) : ST CS (option A) :=
  if decide (s ≠ "") then x ← m; mret (Some x) else mret None.

(** A condition that is nil, which only happens along with an error, is
    [Cond_unset] in a list. *)
Fixpoint compileMatch (mc : moduleCtx) (m : policyv1.Match) (mark : bool) : ST CS (option Condition) :=
  match m with
  | policyv1.Match_Expr e => x ← compileCELExpr mc e mark; mret (Some (Cond_Expr (runnable_expr x)))
  | policyv1.Match_All l => cs ← mapST (λ m, compileMatch mc m mark) l; mret (Some (Cond_All (default Cond_unset <$> cs)))
  | policyv1.Match_Any l => cs ← mapST (λ m, compileMatch mc m mark) l; mret (Some (Cond_Any (default Cond_unset <$> cs)))
  | policyv1.Match_None l => cs ← mapST (λ m, compileMatch mc m mark) l; mret (Some (Cond_None (default Cond_unset <$> cs)))
  | policyv1.Match_unset => _ ← addErr (mc_sourceFile mc) errUnexpectedErr []; mret None
  end.

Definition compileCondition (mc : moduleCtx) (cond : option policyv1.Condition) (mark : bool) : ST CS (option Condition) :=
  match cond with
  | None => mret None
  | Some (policyv1.Condition_Match None) => mret None
  | Some (policyv1.Condition_Match (Some m)) => compileMatch mc m mark
  | Some _ => _ ← addErr (mc_sourceFile mc) errScriptsUnsupported []; mret None
  end.
End compile_defs.
