(* ===== verification/Compile.v ===== *)
(** The policy compiler: [src/internal/compile/compile.go], which turns the source
    policies of a compilation unit into the policy set that the rule table loads. *)
From S2P Require Import Prelude Namer Policy IndexQuery RuleTableBuild PlanExpr CompileSource CompileDefs.

Local Open Scope string_scope.
Local Open Scope list_scope.
Open Scope nat_scope.

(** For every name, the imports that define it. *)
Abbreviation roleImports := (gmap string (list (string * gmap string RunnableDerivedRole))).

Section compile.
Context `{CelChecker} `{!DirectedGraph} `{GoMapOrder} `{StringHash}.
Implicit Types (u : CompilationUnit) (mc : moduleCtx).

(** [unitCtx.moduleCtx]: a fresh context; the name of a nil policy, or of one
    whose type is not set, panics. *)
Definition unit_moduleCtx u (id : ModuleID) : option (option moduleCtx) :=
  match cu_Definitions u !! id with
  | None => Some None
  | Some def =>
      p ← def;
      fqn ← policy_FQN p;
      sourceFile ← GetSourceFile (Some p);
      Some (Some (MkModuleCtx p fqn sourceFile))
  end.

(** * Constants and variables of a policy *)

Definition compilePolicyConstants u mc (constants : option policyv1.Constants) : ST CS () :=
  s ← gets st_constants;
  match s with
  | Some _ => mret tt
  | None =>
      _ ← set_constants newConstantDefinitions;
      _ ← forST (policyv1.constants_GetImport constants) (λ imp,
            ecModCtx ← lift (unit_moduleCtx u (ExportConstantsModuleID imp));
            match ecModCtx with
            | None => addErr (mc_sourceFile mc) errImportNotFound [imp]
            | Some ecModCtx =>
                '(_, ec) ← in_module (compileExportConstants ecModCtx);
                from ← lift (st_constants ec);
                constants_Import from ("import '" +:+ imp +:+ "'")
            end);
      _ ← constants_Compile mc (policyv1.constants_GetLocal constants) "policy local constants";
      constants_Resolve mc
  end.

Definition compilePolicyVariables u mc (variables : option policyv1.Variables) : ST CS () :=
  s ← gets st_variables;
  match s with
  | Some _ => mret tt
  | None =>
      _ ← set_variables newVariableDefinitions;
      _ ← forST (policyv1.variables_GetImport variables) (λ imp,
            evModCtx ← lift (unit_moduleCtx u (ExportVariablesModuleID imp));
            match evModCtx with
            | None => addErr (mc_sourceFile mc) errImportNotFound [imp]
            | Some evModCtx =>
                '(_, ev) ← in_module (compileExportVariables evModCtx);
                from ← lift (st_variables ev);
                variables_Import from ("import '" +:+ imp +:+ "'")
            end);
      _ ← variables_Compile mc (policyv1.variables_GetLocal variables) "policy local variables";
      _ ← variables_Compile mc (policyv1.p_Variables (mc_def mc)) "deprecated top-level policy variables";
      variables_Resolve mc
  end.

(** * Rules *)

Definition compileOutput mc (out : option policyv1.Output) : ST CS (option Output) :=
  match out with
  | None => mret None
  | Some out =>
      let activated := policyv1.GetRuleActivated (policyv1.out_When out) in
      let notMet := policyv1.GetConditionNotMet (policyv1.out_When out) in
      e ← when_set (policyv1.out_Expr out) (compileCELExpr mc (policyv1.out_Expr out) true);
      a ← when_set activated (compileCELExpr mc activated true);
      n ← when_set notMet (compileCELExpr mc notMet true);
      _ ← (if decide (policyv1.out_Expr out = "" ∧ activated = "" ∧ notMet = "")
           then addErr (mc_sourceFile mc) errEmptyOutput [] else mret tt);
      mret (Some (MkOutput (Some (MkWhen (runnable_expr <$> (match a with Some _ => a | None => e end)) (runnable_expr <$> n)))))
  end.

(** A wildcard among the roles stands alone. *)
Definition anyRoleVal : string := "*".
Fixpoint role_set (acc : gset string) (l : list string) : gset string :=
  match l with
  | [] => acc
  | r :: l => if decide (r = anyRoleVal) then {[anyRoleVal]} else role_set ({[r]} ∪ acc) l
  end.

(** The rule with the name it is given when it has none. *)
Definition compileResourceRule mc (name : string) (rule : policyv1.ResourceRule) : ST CS ResourceRule :=
  _ ← (if decide (policyv1.rrule_DerivedRoles rule = [] ∧ policyv1.rrule_Roles rule = [])
       then addErr (mc_sourceFile mc) errInvalidResourceRule [name] else mret tt);
  cond ← compileCondition mc (policyv1.rrule_Condition rule) true;
  emit ← compileOutput mc (policyv1.rrule_Output rule);
  mret (MkResourceRule name (list_to_set (policyv1.rrule_Actions rule)) (list_to_set (policyv1.rrule_DerivedRoles rule))
          (role_set ∅ (policyv1.rrule_Roles rule)) cond (policyv1.rrule_Effect rule) None emit).

(** * Derived roles *)

Definition compileRoleDef mc (originFqn : string) (def : policyv1.RoleDef) : ST CS RunnableDerivedRole :=
  _ ← constants_ResetUsage;
  _ ← variables_ResetUsage;
  cond ← compileCondition mc (policyv1.def_Condition def) true;
  constants ← constants_Used;
  ordered ← variables_Used mc;
  mret (MkDerivedRole (policyv1.def_Name def) (role_set ∅ (policyv1.def_ParentRoles def)) cond (runnable_variable <$> ordered) constants originFqn).

Definition compileDerivedRoles u mc : ST CS (option (gmap string RunnableDerivedRole)) :=
  match policyv1.GetDerivedRoles (mc_def mc) with
  | None => _ ← addErr (mc_sourceFile mc) errUnexpectedErr []; mret None
  | Some dr =>
      _ ← compilePolicyConstants u mc (policyv1.drs_Constants dr);
      _ ← compilePolicyVariables u mc (policyv1.drs_Variables dr);
      roles ← mapST (compileRoleDef mc (DerivedRolesFQN (policyv1.drs_Name dr))) (policyv1.drs_Definitions dr);
      mret (Some (foldl (λ m r, <[dr_Name r := r]> m) ∅ roles))
  end.

Definition add_imports (imp : string) (compiledRoles : gmap string RunnableDerivedRole) (m : roleImports) : roleImports :=
  foldl (λ m '(name, _), <[name := default [] (m !! name) ++ [(imp, compiledRoles)]]> m) m (go_range compiledRoles).

Definition import_roles u mc (m : roleImports) (imp : string) : ST CS roleImports :=
  drModCtx ← lift (unit_moduleCtx u (DerivedRolesModuleID imp));
  match drModCtx with
  | None => _ ← addErr (mc_sourceFile mc) errImportNotFound [imp]; mret m
  | Some drModCtx =>
      '(compiledRoles, _) ← in_module (compileDerivedRoles u drModCtx);
      match compiledRoles with
      | None => mret m
      | Some compiledRoles => mret (add_imports imp compiledRoles m)
      end
  end.

(** What the rules refer to: known once, unknown, or ambiguous. *)
Record resolvedRoles := MkResolved {
  referencedRoles : gmap string RunnableDerivedRole;
  unknownRoles : gset string;
  ambiguousRoles : gset string;
}.
(** The only import of a name has it among its roles. *)
Definition resolve_role (imports : roleImports) (acc : resolvedRoles) (r : string) : option resolvedRoles :=
  match imports !! r with
  | None => Some (MkResolved (referencedRoles acc) ({[r]} ∪ unknownRoles acc) (ambiguousRoles acc))
  | Some imp =>
      if decide (1 < length imp) then Some (MkResolved (referencedRoles acc) (unknownRoles acc) ({[r]} ∪ ambiguousRoles acc))
      else
        '(_, compiledRoles) ← head imp;
        rdr ← compiledRoles !! r;
        Some (MkResolved (<[r := rdr]> (referencedRoles acc)) (unknownRoles acc) (ambiguousRoles acc))
  end.

(** [None] is the error that makes the caller stop: the unit has errors. *)
Definition compileImportedDerivedRoles u mc (rp : policyv1.ResourcePolicy) : ST CS (option (gmap string RunnableDerivedRole)) :=
  imports ← foldST (import_roles u mc) ∅ (policyv1.rp_ImportDerivedRoles rp);
  roles ← lift (foldM (resolve_role imports) (MkResolved ∅ ∅ ∅) (policyv1.rp_Rules rp ≫= policyv1.rrule_DerivedRoles));
  _ ← forST (set_range (unknownRoles roles)) (λ ur, addErr (mc_sourceFile mc) errUnknownDerivedRole [ur]);
  _ ← forST (set_range (ambiguousRoles roles)) (λ ar, addErr (mc_sourceFile mc) errAmbiguousDerivedRole [ar]);
  errors ← gets st_errors;
  mret (match errors with [] => Some (referencedRoles roles) | _ => None end).

(** * Resource policies *)

(** The schema manager is optional and tells whether a schema loads; [false] is
    the error that makes the caller stop. *)
Definition checkReferencedSchemas mc (rp : policyv1.ResourcePolicy) (LoadSchema : string → bool) : ST CS bool :=
  match policyv1.rp_Schemas rp with
  | None => mret true
  | Some schemas =>
      let check ref := if decide (ref ≠ "") then if LoadSchema ref then mret tt else addErr (mc_sourceFile mc) errInvalidSchema [ref] else mret tt in
      _ ← check (PrincipalSchema schemas);
      _ ← check (ResourceSchema schemas);
      errors ← gets st_errors;
      mret (match errors with [] => true | _ => false end)
  end.

(** The compiled policy, its schemas and its source attributes. *)
Definition compileResourcePolicy u mc (schemaMgr : option (string → bool)) : ST CS (option ((ResourcePolicy * option Schemas_) * string)) :=
  match policyv1.GetResourcePolicy (mc_def mc) with
  | None => _ ← addErr (mc_sourceFile mc) errUnexpectedErr []; mret None
  | Some rp =>
      roles ← compileImportedDerivedRoles u mc rp;
      match roles with
      | None => mret None
      | Some referencedRoles =>
          valid ← (match schemaMgr with Some mgr => checkReferencedSchemas mc rp mgr | None => mret true end);
          if negb valid then mret None
          else
            _ ← compilePolicyConstants u mc (policyv1.rp_Constants rp);
            _ ← compilePolicyVariables u mc (policyv1.rp_Variables rp);
            rules ← mapST (λ '(i, rule), compileResourceRule mc (ResourceRuleName rule (S i)) rule) (imap pair (policyv1.rp_Rules rp));
            constants ← constants_Used;
            ordered ← variables_Used mc;
            mret (Some (MkResourcePolicy (policyv1.rp_Scope rp) referencedRoles rules (runnable_variable <$> ordered)
                          (effective_permissions (policyv1.rp_ScopePermissions rp)) constants,
                        policyv1.rp_Schemas rp, policyv1.p_SourceAttributes (mc_def mc)))
      end
  end.

Definition reportMissingAncestors u mc : ST CS () :=
  required ← lift (RequiredAncestors (mc_def mc));
  forST (go_range required) (λ '(modID, fqn),
    if decide (is_Some (cu_Definitions u !! modID)) then mret tt
    else addErr (mc_sourceFile mc) errMissingDefinition [PolicyKeyFromFQN fqn]).

(** The loop over the ancestors: each is compiled in a context of its own.  A
    missing one stops the compilation, and with [stop] so does a nil policy. *)
Fixpoint compile_ancestors {P} u mc (body : moduleCtx → ST CS (option P)) (stop : bool) (ancestors : list ModuleID) :
    ST CS (option (list (moduleCtx * option P))) :=
  match ancestors with
  | [] => mret (Some [])
  | ancestor :: ancestors =>
      ancModCtx ← lift (unit_moduleCtx u ancestor);
      match ancModCtx with
      | None => _ ← reportMissingAncestors u mc; mret None
      | Some ancModCtx =>
          '(compiled, _) ← in_module (body ancModCtx);
          match compiled, stop with
          | None, true => mret None
          | _, _ =>
              rest ← compile_ancestors u mc body stop ancestors;
              mret (cons (ancModCtx, compiled) <$> rest)
          end
      end
  end.

(** The policies that are not nil, and the source attributes by policy key. *)
Definition compiled_policies {P} (all : list (moduleCtx * option (P * string))) : list P := omap (λ x, fst <$> x.2) all.
Definition attributes {P} (all : list (moduleCtx * option (P * string))) : gmap string string :=
  foldl (λ m '(mc, p), <[PolicyKeyFromFQN (mc_fqn mc) := default "" (snd <$> p)]> m) ∅ all.

(** The schemas in effect are those of the last ancestor. *)
Definition compileResourcePolicySet u mc (schemaMgr : option (string → bool)) : ST CS (option RunnablePolicySet) :=
  match policyv1.GetResourcePolicy (mc_def mc) with
  | None => _ ← addErr (mc_sourceFile mc) errUnexpectedErr []; mret None
  | Some rp =>
      ancestors ← lift (unit_Ancestors u);
      compiled ← compileResourcePolicy u mc schemaMgr;
      match compiled with
      | None => mret None
      | Some compiled =>
          rest ← compile_ancestors u mc (λ mc, compileResourcePolicy u mc schemaMgr) true ancestors;
          match rest with
          | None => mret None
          | Some rest =>
              let all := (mc, Some compiled) :: rest in
              mret (Some (PS_Resource
                (MkSetMeta (mc_fqn mc) (policyv1.rp_Resource rp) (policyv1.rp_Version rp) (attributes all))
                (fst <$> compiled_policies all) (last (compiled_policies all) ≫= snd)))
          end
      end
  end.

(** * Principal policies *)

Definition compileActionRule mc (resource : string) (i : nat) (action : policyv1.PrincipalRule_Action) : ST CS ActionRule :=
  cond ← compileCondition mc (policyv1.act_Condition action) true;
  emit ← compileOutput mc (policyv1.act_Output action);
  mret (MkActionRule (policyv1.act_Action action) (PrincipalResourceActionRuleName action resource (S i)) cond
          (policyv1.act_Effect action) None emit).

(** A later rule for the same resource replaces an earlier one. *)
Definition compilePrincipalRules mc (rules : list policyv1.PrincipalRule) : ST CS (gmap string (list ActionRule)) :=
  foldST (λ m rule,
    actionRules ← mapST (λ '(i, action), compileActionRule mc (policyv1.prule_Resource rule) i action)
                    (imap pair (policyv1.prule_Actions rule));
    mret (<[policyv1.prule_Resource rule := actionRules]> m)) ∅ rules.

Definition compilePrincipalPolicy u mc : ST CS (option (PrincipalPolicy * string)) :=
  match policyv1.GetPrincipalPolicy (mc_def mc) with
  | None => _ ← addErr (mc_sourceFile mc) errUnexpectedErr []; mret None
  | Some pp =>
      _ ← compilePolicyConstants u mc (policyv1.pp_Constants pp);
      _ ← compilePolicyVariables u mc (policyv1.pp_Variables pp);
      rules ← compilePrincipalRules mc (policyv1.pp_Rules pp);
      constants ← constants_Used;
      ordered ← variables_Used mc;
      mret (Some (MkPrincipalPolicy (policyv1.pp_Scope pp) rules (runnable_variable <$> ordered)
                    (effective_permissions (policyv1.pp_ScopePermissions pp)) constants,
                  policyv1.p_SourceAttributes (mc_def mc)))
  end.

(** A nil policy does not stop the loop, but comes with an error. *)
Definition compilePrincipalPolicySet u mc : ST CS (option RunnablePolicySet) :=
  match policyv1.GetPrincipalPolicy (mc_def mc) with
  | None => _ ← addErr (mc_sourceFile mc) errUnexpectedErr []; mret None
  | Some pp =>
      ancestors ← lift (unit_Ancestors u);
      compiled ← compilePrincipalPolicy u mc;
      rest ← compile_ancestors u mc (compilePrincipalPolicy u) false ancestors;
      match rest with
      | None => mret None
      | Some rest =>
          let all := (mc, compiled) :: rest in
          mret (Some (PS_Principal
            (MkSetMeta (mc_fqn mc) (policyv1.pp_Principal pp) (policyv1.pp_Version pp) (attributes all))
            (compiled_policies all)))
      end
  end.

(** * Role policies *)

Definition compileRoleRule mc (r : policyv1.RoleRule) : ST CS (string * RoleRule) :=
  cond ← compileCondition mc (policyv1.orule_Condition r) true;
  emit ← compileOutput mc (policyv1.orule_Output r);
  mret (policyv1.orule_Resource r, MkRoleRule (list_to_set (policyv1.orule_AllowActions r)) cond emit (policyv1.orule_Name r)).

(** The rules of a resource are appended in order. *)
Definition group_rules (rules : list (string * RoleRule)) : gmap string (list RoleRule) :=
  foldl (λ m '(resource, rule), <[resource := default [] (m !! resource) ++ [rule]]> m) ∅ rules.

Definition compileRolePolicySet u mc : ST CS (option RunnablePolicySet) :=
  match policyv1.GetRolePolicy (mc_def mc) with
  | None => _ ← addErr (mc_sourceFile mc) errUnexpectedErr []; mret None
  | Some rp =>
      _ ← compilePolicyConstants u mc (policyv1.ro_Constants rp);
      _ ← compilePolicyVariables u mc (policyv1.ro_Variables rp);
      let version := if decide (policyv1.ro_Version rp = "") then DefaultVersion else policyv1.ro_Version rp in
      rules ← mapST (compileRoleRule mc) (policyv1.ro_Rules rp);
      constants ← constants_Used;
      ordered ← variables_Used mc;
      mret (Some (PS_Role (MkRolePolicySet
        (MkSetMeta (mc_fqn mc) (policyv1.ro_Role rp) version {[PolicyKeyFromFQN (mc_fqn mc) := policyv1.p_SourceAttributes (mc_def mc)]})
        (policyv1.ro_Role rp) (policyv1.ro_Scope rp) (group_rules rules) (policyv1.ro_ParentRoles rp)
        (runnable_variable <$> ordered) constants)))
  end.

(** * Units *)

Inductive CompileFailure :=
  | InvalidCompilationUnit
  | CompileErrors (errors : list CompileError).

(** Policies that only define something for others compile to nothing.  The
    error for an unknown type is not reached: the name of such a policy panics. *)
Definition compile_module u mc (schemaMgr : option (string → bool)) : ST CS (option RunnablePolicySet) :=
  match policyv1.p_PolicyType (mc_def mc) with
  | Some (policyv1.Policy_ResourcePolicy _) => compileResourcePolicySet u mc schemaMgr
  | Some (policyv1.Policy_PrincipalPolicy _) => compilePrincipalPolicySet u mc
  | Some (policyv1.Policy_RolePolicy _) => compileRolePolicySet u mc
  | Some (policyv1.Policy_DerivedRoles _ | policyv1.Policy_ExportConstants _ | policyv1.Policy_ExportVariables _) => mret None
  | None => _ ← addErr (mc_sourceFile mc) errUnexpectedErr []; mret None
  end.

Definition Compile u (schemaMgr : option (string → bool)) : option (option RunnablePolicySet * option CompileFailure) :=
  mc ← unit_moduleCtx u (cu_ModID u);
  match mc with
  | None => Some (None, Some InvalidCompilationUnit)
  | Some mc =>
      '(rps, s) ← compile_module u mc schemaMgr (MkCS [] None None);
      Some (rps, match st_errors s with [] => None | errors => Some (CompileErrors errors) end)
  end.

(** [BatchCompile]: whether any unit has an error. *)
Definition BatchCompile (queue : list CompilationUnit) (schemaMgr : option (string → bool)) : option (list CompileFailure) :=
  foldM (λ errs u, '(_, err) ← Compile u schemaMgr; Some (errs ++ match err with Some e => [e] | None => [] end)) [] queue.
End compile.
