(* ===== verification/CompileSpec.v ===== *)
(** Reasoning about compilation: a program logic for the compiler's computations
    that says exactly when they report no error, the laws of the graphs they use,
    and what the definitions of constants come to. *)
From S2P Require Import Prelude Namer Policy ScopePerms IndexQuery RuleTableBuild PlanExpr CompileSource CompileDefs.

Local Open Scope string_scope.
Local Open Scope list_scope.
Open Scope nat_scope.

(** * Computations that report errors *)

Section logic.
Context `{CelChecker} `{!DirectedGraph} `{GoMapOrder}.
Implicit Types (s : CS).

Definition ok s : Prop := st_errors s = [].

(** [m] returns from [s], reports no error exactly when [P] holds, and leaves a
    result and a state that satisfy [Q]. *)
Definition cspec {A} (m : ST CS A) s (P : Prop) (Q : A → CS → Prop) : Prop :=
  ∃ x s', m s = Some (x, s') ∧ (ok s' ↔ ok s ∧ P) ∧ Q x s'.

Lemma cspec_ret {A} (x : A) s (Q : A → CS → Prop) : Q x s → cspec (mret x) s True Q.
Proof. intros HQ. exists x, s. split; [done|]. split; [tauto|done]. Qed.

Lemma cspec_lift {A} (m : option A) s (Q : A → CS → Prop) x : m = Some x → Q x s → cspec (lift m) s True Q.
Proof. intros Hm HQ. exists x, s. unfold lift. rewrite Hm. split; [done|]. split; [tauto|done]. Qed.

Lemma cspec_gets {A} (f : CS → A) s (Q : A → CS → Prop) : Q (f s) s → cspec (gets f) s True Q.
Proof. intros HQ. exists (f s), s. split; [done|]. split; [tauto|done]. Qed.

Lemma cspec_addErr file err names s (Q : () → CS → Prop) :
  (∀ s', st_constants s' = st_constants s → st_variables s' = st_variables s → ¬ ok s' → Q tt s') →
  cspec (addErr file err names) s False Q.
Proof.
  intros HQ. exists tt. eexists. split; [done|]. split.
  - split; [|tauto]. unfold ok. cbn. intros []%app_eq_nil. done.
  - apply HQ; [done..|]. unfold ok. cbn. intros []%app_eq_nil. done.
Qed.

Lemma cspec_set_constants cd s (Q : () → CS → Prop) :
  (∀ s', st_errors s' = st_errors s → st_constants s' = Some cd → st_variables s' = st_variables s → Q tt s') →
  cspec (set_constants cd) s True Q.
Proof. intros HQ. exists tt. eexists. split; [done|]. split; [unfold ok; cbn; tauto|]. by apply HQ. Qed.

Lemma cspec_set_variables vd s (Q : () → CS → Prop) :
  (∀ s', st_errors s' = st_errors s → st_constants s' = st_constants s → st_variables s' = Some vd → Q tt s') →
  cspec (set_variables vd) s True Q.
Proof. intros HQ. exists tt. eexists. split; [done|]. split; [unfold ok; cbn; tauto|]. by apply HQ. Qed.

Lemma cspec_the_constants cd s (Q : constantDefinitions → CS → Prop) :
  st_constants s = Some cd → Q cd s → cspec the_constants s True Q.
Proof. intros Hs HQ. exists cd, s. unfold the_constants. rewrite Hs. split; [done|]. split; [tauto|done]. Qed.

Lemma cspec_the_variables vd s (Q : variableDefinitions → CS → Prop) :
  st_variables s = Some vd → Q vd s → cspec the_variables s True Q.
Proof. intros Hs HQ. exists vd, s. unfold the_variables. rewrite Hs. split; [done|]. split; [tauto|done]. Qed.

Lemma cspec_bind {A B} (m : ST CS A) (k : A → ST CS B) s P1 P2 Q1 (Q : B → CS → Prop) :
  cspec m s P1 Q1 → (∀ x s', (ok s' ↔ ok s ∧ P1) → Q1 x s' → cspec (k x) s' P2 Q) → cspec (m ≫= k) s (P1 ∧ P2) Q.
Proof.
  intros (x & s1 & Em & E1 & HQ1) Hk. destruct (Hk x s1 E1 HQ1) as (y & s2 & Ek & E2 & HQ).
  exists y, s2. split; [|split; [tauto|done]]. unfold mbind, ST_bind. rewrite Em. exact Ek.
Qed.

(** The conditions may be weighed where no error was reported before. *)
Lemma cspec_iff {A} (m : ST CS A) s P P' Q : cspec m s P Q → (ok s → (P ↔ P')) → cspec m s P' Q.
Proof. intros (x & s' & Em & E & HQ) HP. exists x, s'. split; [done|]. split; [tauto|done]. Qed.

Lemma cspec_fails {A} (m : ST CS A) s P Q : cspec m s False Q → ¬ P → cspec m s P Q.
Proof. intros Hm HP. eapply cspec_iff; [exact Hm|tauto]. Qed.
Lemma cspec_holds {A} (m : ST CS A) s (P : Prop) Q : cspec m s True Q → (ok s → P) → cspec m s P Q.
Proof. intros Hm HP. eapply cspec_iff; [exact Hm|tauto]. Qed.

Lemma cspec_mono {A} (m : ST CS A) s P (Q Q' : A → CS → Prop) :
  cspec m s P Q → (∀ x s', (ok s' ↔ ok s ∧ P) → Q x s' → Q' x s') → cspec m s P Q'.
Proof. intros (x & s' & Em & E & HQ) HQ'. exists x, s'. auto. Qed.

(** Binding a computation that never reports. *)
Lemma cspec_bind_T {A B} (m : ST CS A) (k : A → ST CS B) s P Q1 (Q : B → CS → Prop) :
  cspec m s True Q1 → (∀ x s', (ok s' ↔ ok s) → Q1 x s' → cspec (k x) s' P Q) → cspec (m ≫= k) s P Q.
Proof.
  intros Hm Hk. eapply cspec_iff; [eapply cspec_bind; [exact Hm|]|].
  - intros x s' E. apply Hk. tauto.
  - tauto.
Qed.

Lemma cspec_foldST {A B} (I : list A → B → CS → Prop) (P : A → Prop) (body : B → A → ST CS B) l acc s :
  I [] acc s →
  (∀ done x rest acc s', l = done ++ x :: rest → (ok s' → ok s) → I done acc s' → cspec (body acc x) s' (P x) (I (done ++ [x]))) →
  cspec (foldST body acc l) s (Forall P l) (I l).
Proof.
  intros Hinit Hstep.
  assert (∀ rest done acc s', l = done ++ rest → (ok s' → ok s) → I done acc s' → cspec (foldST body acc rest) s' (Forall P rest) (I l)) as Hgen.
  { induction rest as [|x rest IH]; intros done acc' s' El Hs HI; cbn [foldST].
    - rewrite app_nil_r in El. subst done. eapply cspec_iff; [by apply cspec_ret|]. intros _. by split; [constructor|].
    - eapply cspec_iff; [eapply cspec_bind; [by eapply Hstep|]|].
      + intros acc'' s'' E HI''. apply (IH (done ++ [x])); [by rewrite <-app_assoc|tauto|done].
      + intros _. by rewrite Forall_cons. }
  by apply (Hgen l []).
Qed.

Lemma cspec_forST {A} (I : list A → CS → Prop) (P : A → Prop) (body : A → ST CS ()) l s :
  I [] s →
  (∀ done x rest s', l = done ++ x :: rest → (ok s' → ok s) → I done s' → cspec (body x) s' (P x) (λ _, I (done ++ [x]))) →
  cspec (forST l body) s (Forall P l) (λ _, I l).
Proof. intros Hinit Hstep. apply (cspec_foldST (λ l _, I l)); [done|]. intros; eauto. Qed.

(** A loop that keeps an invariant. *)
Lemma cspec_forST_inv {A} (I : CS → Prop) (P : A → Prop) (body : A → ST CS ()) l s :
  I s → (∀ x s', x ∈ l → (ok s' → ok s) → I s' → cspec (body x) s' (P x) (λ _, I)) → cspec (forST l body) s (Forall P l) (λ _, I).
Proof.
  intros Hinit Hstep. apply (cspec_forST (λ _, I)); [done|]. intros done x rest s' -> Hs HI. apply Hstep; [|done..].
  apply elem_of_app. right. left.
Qed.

Lemma cspec_mapST {A B} (I : list A → CS → Prop) (P : A → Prop) (R : A → B → Prop) (f : A → ST CS B) l s :
  I [] s →
  (∀ done x rest s', l = done ++ x :: rest → (ok s' → ok s) → I done s' →
     cspec (f x) s' (P x) (λ y s'', (ok s'' → R x y) ∧ I (done ++ [x]) s'')) →
  cspec (mapST f l) s (Forall P l) (λ ys s', (ok s' → Forall2 R l ys) ∧ I l s').
Proof.
  intros Hinit Hstep.
  assert (∀ rest done s', l = done ++ rest → (ok s' → ok s) → I done s' →
    cspec (mapST f rest) s' (Forall P rest) (λ ys s', (ok s' → Forall2 R rest ys) ∧ I l s')) as Hgen.
  { induction rest as [|x rest IH]; intros done s' El Hs HI; cbn [mapST].
    - rewrite app_nil_r in El. subst done. eapply cspec_iff; [by apply cspec_ret; split; [constructor|]|].
      intros _. by split; [constructor|].
    - eapply cspec_iff; [eapply cspec_bind; [by eapply Hstep|]|].
      + intros y s'' E [Hy HI'']. eapply cspec_iff; [eapply cspec_bind|].
        * apply (IH (done ++ [x])); [by rewrite <-app_assoc|tauto|done].
        * intros ys s3 E3 [Hys HI3]. apply cspec_ret. split; [|done]. intros Hok. constructor; [apply Hy|apply Hys; done]. tauto.
        * intros _. instantiate (1 := Forall P rest). tauto.
      + intros _. by rewrite Forall_cons. }
  by apply (Hgen l []).
Qed.

Lemma cspec_in_module {A} (m : ST CS A) s P (Q : A * CS → CS → Prop) :
  cspec m (MkCS (st_errors s) None None) P (λ x s',
    ∀ s'', st_errors s'' = st_errors s' → st_constants s'' = st_constants s → st_variables s'' = st_variables s → Q (x, s') s'') →
  cspec (in_module m) s P Q.
Proof.
  intros (x & s' & Em & E & HQ). exists (x, s'). eexists. unfold in_module. rewrite Em. split; [done|].
  split; [exact E|]. by apply HQ.
Qed.

(** A check that reports an error unless [b]. *)
Lemma cspec_unless (P : Prop) `{Decision P} {m : ST CS ()} s (Q : () → CS → Prop) :
  (P → Q tt s) → (¬ P → cspec m s False Q) → cspec (if decide P then mret tt else m) s P Q.
Proof.
  intros HQ Hm. destruct (decide P) as [Hp|Hp].
  - eapply cspec_iff; [by apply cspec_ret, HQ|tauto].
  - eapply cspec_iff; [by apply Hm|tauto].
Qed.
Lemma cspec_unless_b (b : bool) {m : ST CS ()} s (Q : () → CS → Prop) :
  (b → Q tt s) → (¬ b → cspec m s False Q) → cspec (if b then mret tt else m) s b Q.
Proof.
  intros HQ Hm. destruct b.
  - eapply cspec_iff; [by apply cspec_ret, HQ|done].
  - eapply cspec_iff; [apply Hm; by intros []|done].
Qed.
Lemma cspec_when (P : Prop) `{Decision P} {m : ST CS ()} s (Q : () → CS → Prop) :
  (¬ P → Q tt s) → (P → cspec m s False Q) → cspec (if decide P then m else mret tt) s (¬ P) Q.
Proof.
  intros HQ Hm. destruct (decide P) as [Hp|Hp].
  - eapply cspec_iff; [by apply Hm|tauto].
  - eapply cspec_iff; [by apply cspec_ret, HQ|tauto].
Qed.
End logic.

(** * Places of definitions *)

(** How often a name is defined. *)
Definition places (names : list string) (n : string) : nat := length (filter (λ m, m = n) names).

Lemma places_app l k n : places (l ++ k) n = places l n + places k n.
Proof. unfold places. by rewrite filter_app, length_app. Qed.

Lemma places_cons_eq n l : places (n :: l) n = S (places l n).
Proof. unfold places. by rewrite filter_cons_True. Qed.
Lemma places_cons_ne m n l : m ≠ n → places (m :: l) n = places l n.
Proof. intros Hne. unfold places. by rewrite filter_cons_False. Qed.

Lemma places_0 l n : places l n = 0 ↔ n ∉ l.
Proof.
  induction l as [|m l IH]; [split; [intros _; apply not_elem_of_nil|done]|]. rewrite not_elem_of_cons.
  destruct (decide (m = n)) as [->|Hne]; [rewrite places_cons_eq; naive_solver lia|]. rewrite places_cons_ne by done. naive_solver.
Qed.

Lemma places_NoDup l : NoDup l ↔ ∀ n, n ∈ l → places l n = 1.
Proof.
  induction l as [|m l IH]; [split; [intros _ n []%elem_of_nil|constructor]|]. rewrite NoDup_cons, IH. split.
  - intros [Hm Hl] n Hn. destruct (decide (m = n)) as [->|Hne].
    + by rewrite places_cons_eq, (proj2 (places_0 l n)).
    + rewrite places_cons_ne by done. apply Hl. by apply elem_of_cons in Hn as [->|].
  - intros Hl. assert (m ∉ l) as Hm.
    { specialize (Hl m ltac:(left)). rewrite places_cons_eq in Hl. apply places_0. lia. }
    split; [done|]. intros n Hn. specialize (Hl n ltac:(by right)). rewrite places_cons_ne in Hl; [done|]. by intros ->.
Qed.

Definition sources_of (names : list string) (m : gmap string (list defCtx)) : Prop :=
  ∀ n, match m !! n with Some l => n ∈ names ∧ length l = places names n | None => n ∉ names end.

Lemma sources_of_nil : sources_of [] ∅.
Proof. intros n. rewrite lookup_empty. apply not_elem_of_nil. Qed.

Lemma sources_of_add names m n c :
  sources_of names m → sources_of (names ++ [n]) (<[n := default [] (m !! n) ++ [c]]> m).
Proof.
  intros Hs k. specialize (Hs k). destruct (decide (n = k)) as [->|Hne].
  - rewrite lookup_insert_eq. rewrite places_app, length_app, places_cons_eq. split; [apply elem_of_app; right; left|].
    destruct (m !! k) as [l|]; cbn [from_option id length].
    + destruct Hs as [_ ->]. done.
    + by rewrite (proj2 (places_0 names k)).
  - rewrite lookup_insert_ne by done. destruct (m !! k) as [l|].
    + rewrite places_app, places_cons_ne by done. rewrite elem_of_app. destruct Hs. split; [by left|cbn; lia].
    + rewrite not_elem_of_app, list_elem_of_singleton. naive_solver.
Qed.

Lemma sources_of_head names m n : sources_of names m → n ∈ names → ∃ c, m !! n ≫= head = Some c.
Proof.
  intros Hs Hn. specialize (Hs n). destruct (m !! n) as [l|]; [|done]. destruct Hs as [_ Hl].
  destruct l as [|c l]; [|by exists c]. cbn in Hl. symmetry in Hl. by apply places_0 in Hl.
Qed.

Lemma sources_NoDup `{GoMapOrder} names m :
  sources_of names m → Forall (λ x, length x.2 = 1) (go_range m) ↔ NoDup names.
Proof.
  intros Hs. rewrite Forall_forall, places_NoDup. split.
  - intros Hall n Hn. pose proof (Hs n) as Hsn. destruct (m !! n) as [l|] eqn:E; [|done]. destruct Hsn as [_ <-].
    apply (Hall (n, l)). by apply elem_of_go_range.
  - intros Hall [n l] E%elem_of_go_range. specialize (Hs n). rewrite E in Hs. destruct Hs as [Hn Hl]. cbn. rewrite Hl. by apply Hall.
Qed.

(** * Constants *)

Section constants.
Context `{CelChecker} `{!DirectedGraph} `{GoMapOrder}.
Implicit Types (s : CS) (decls : list (string * Value)) (mc : moduleCtx).

(** The constants come from [decls], declarations in order. *)
Record cd_holds decls (cd : constantDefinitions) : Prop := {
  cdh_from : ∀ n v, cd_values cd !! n = Some v → (n, v) ∈ decls;
  cdh_all : ∀ n, n ∈ decls.*1 → is_Some (cd_values cd !! n);
  cdh_sources : sources_of decls.*1 (cd_sources cd);
}.
Definition cstate decls (used : option (gset string)) (vs : option variableDefinitions) s : Prop :=
  ∃ cd, st_constants s = Some cd ∧ cd_holds decls cd ∧ cd_used cd = used ∧ st_variables s = vs.

Lemma cd_holds_dom decls cd n : cd_holds decls cd → is_Some (cd_values cd !! n) ↔ n ∈ decls.*1.
Proof.
  intros Hcd. split; [|by apply Hcd]. intros [v Hv]. apply list_elem_of_fmap. exists (n, v). split; [done|]. by apply Hcd.
Qed.

Lemma NoDup_fst_unique {A} (l : list (string * A)) n a b : NoDup l.*1 → (n, a) ∈ l → (n, b) ∈ l → a = b.
Proof.
  intros Hl Ha Hb. apply list_elem_of_lookup in Ha as [i Hi]. apply list_elem_of_lookup in Hb as [j Hj].
  assert (i = j) as ->; [|congruence]. eapply (NoDup_lookup _ _ _ n Hl); rewrite list_lookup_fmap, ?Hi, ?Hj; done.
Qed.

Lemma cd_holds_values decls cd n v :
  cd_holds decls cd → NoDup decls.*1 → cd_values cd !! n = Some v ↔ (n, v) ∈ decls.
Proof.
  intros Hcd Hl. split; [by apply Hcd|]. intros Hin. destruct (cdh_all _ _ Hcd n) as [w Hw].
  - apply list_elem_of_fmap. by exists (n, v).
  - rewrite Hw. f_equal. eapply NoDup_fst_unique; [exact Hl| |exact Hin]. by apply Hcd.
Qed.

Lemma cstate_error decls used vs s s' :
  cstate decls used vs s → st_constants s' = st_constants s → st_variables s' = st_variables s → cstate decls used vs s'.
Proof. intros (cd & E & Hcd & Hu & Hv) Ec Ev. exists cd. rewrite Ec, Ev. done. Qed.

Lemma cd_holds_nil : cd_holds [] newConstantDefinitions.
Proof. split; cbn; [intros n v; by rewrite lookup_empty|by intros n ?%elem_of_nil|apply sources_of_nil]. Qed.

Lemma constants_Add_spec decls used vs s n v ctx :
  cstate decls used vs s → cspec (constants_Add n v ctx) s True (λ _, cstate (decls ++ [(n, v)]) used vs).
Proof.
  intros (cd & E & Hcd & Hu & Hv). eapply cspec_bind_T; [by eapply cspec_the_constants with (Q := λ x s', x = cd ∧ s' = s)|].
  intros ? ? _ [-> ->]. apply cspec_set_constants. intros s' _ Ec Ev. eexists. split; [exact Ec|].
  split; [|cbn; by rewrite Ev]. destruct Hcd as [Hfrom Hall Hsrc]. split; cbn [cd_values cd_sources].
  - intros k w. destruct (decide (n = k)) as [->|Hne].
    + rewrite lookup_insert_eq. intros [= ->]. apply elem_of_app. right. left.
    + rewrite lookup_insert_ne by done. intros Hk. apply elem_of_app. left. by apply Hfrom.
  - intros k. rewrite fmap_app, elem_of_app. cbn. rewrite list_elem_of_singleton. destruct (decide (n = k)) as [->|Hne].
    + intros _. rewrite lookup_insert_eq. done.
    + intros [Hk| ->]; [|done]. rewrite lookup_insert_ne by done. by apply Hall.
  - rewrite fmap_app. by apply sources_of_add.
Qed.

Lemma constants_Compile_spec decls used vs s mc defs source :
  cstate decls used vs s →
  cspec (constants_Compile mc defs source) s (∀ n, is_Some (defs !! n) → ValidateIdentifier n)
    (λ _, cstate (decls ++ go_range defs) used vs).
Proof.
  intros Hs. eapply cspec_iff.
  - apply (cspec_forST (λ l, cstate (decls ++ l) used vs) (λ x, ValidateIdentifier x.1)); [by rewrite app_nil_r|].
    intros done [n v] rest s' _ _ Hs'. eapply cspec_iff; [eapply cspec_bind with (P1 := ValidateIdentifier n) (P2 := True)|cbn [fst]; tauto].
    + apply cspec_unless_b with (Q := λ _, cstate (decls ++ done) used vs); [done|].
      intros _. apply cspec_addErr. intros s'' Ec Ev _. by eapply cstate_error.
    + intros [] s'' _ Hs''. rewrite app_assoc. by apply constants_Add_spec.
  - intros _. rewrite Forall_forall. split.
    + intros Hall n [v Hv]. apply (Hall (n, v)). by apply elem_of_go_range.
    + intros Hall [n v] Hin%elem_of_go_range. cbn. by apply Hall.
Qed.

Lemma constants_Import_spec decls used vs s decls' from source :
  cstate decls used vs s → cd_holds decls' from →
  cspec (constants_Import from source) s True (λ _, cstate (decls ++ go_range (cd_values from)) used vs).
Proof.
  intros Hs Hfrom. eapply cspec_iff.
  - apply (cspec_forST (λ l, cstate (decls ++ l) used vs) (λ x, True)); [by rewrite app_nil_r|].
    intros done [n v] rest s' El _ Hs'. destruct (sources_of_head decls'.*1 (cd_sources from) n) as [c Hc]; [apply Hfrom|..].
    { apply (cd_holds_dom _ from); [done|]. exists v. apply elem_of_go_range. rewrite El. apply elem_of_app. right. left. }
    eapply cspec_bind_T; [by eapply cspec_lift with (Q := λ _ s'', s'' = s')|]. intros c' s'' _ ->.
    rewrite app_assoc. by apply constants_Add_spec.
  - intros _. by rewrite Forall_forall.
Qed.

Lemma constants_Resolve_spec decls used vs s mc :
  cstate decls used vs s → cspec (constants_Resolve mc) s (NoDup decls.*1) (λ _, cstate decls (Some ∅) vs).
Proof.
  intros Hs. eapply cspec_iff; [eapply cspec_bind with (P2 := True) (P1 := NoDup decls.*1) (Q1 := λ _, cstate decls used vs)|tauto].
  - destruct Hs as (cd & E & Hcd & Hu & Hv). eapply cspec_bind_T; [by eapply cspec_the_constants with (Q := λ x s', x = cd ∧ s' = s)|].
    intros ? ? _ [-> ->]. eapply cspec_iff; [|intros _; apply (sources_NoDup decls.*1 (cd_sources cd)); apply Hcd].
    apply (cspec_forST_inv (cstate decls used vs)); [by exists cd|].
    intros [n l] s' _ _ Hs'. apply cspec_unless; [done|]. intros _. apply cspec_addErr. intros. by eapply cstate_error.
  - intros [] s' _ (cd & E & Hcd & Hu & Hv). eapply cspec_bind_T; [by eapply cspec_the_constants with (Q := λ x s'', x = cd ∧ s'' = s')|].
    intros ? ? _ [-> ->]. apply cspec_set_constants. intros s'' _ Ec Ev. eexists. split; [exact Ec|]. cbn. rewrite Ev.
    split; [|done]. by destruct Hcd.
Qed.
End constants.
