(* ===== verification/CompileVarSpec.v ===== *)
(** Variables during compilation: the laws of gonum's graphs, what the definitions
    of variables come to, their resolution into a graph of dependencies, the variables
    and constants that a list of expressions needs, and the order they are listed in. *)
From S2P Require Import Prelude Namer Policy ScopePerms IndexQuery IndexQuerySpec ParentRoles RuleTableBuild PlanExpr CompileSource CompileDefs CompileSpec.

Local Open Scope string_scope.
Local Open Scope list_scope.
Open Scope nat_scope.

(** * Graphs *)

(** A graph has nodes by identifier and edges between identifiers.  Sorting gives
    all nodes, the sources of edges first, or a list of cycles, for which there
    must be one. *)
Class GraphLaws `{CelChecker} (G : DirectedGraph) := {
  graph_ok : graph → Prop;
  g_nodes : graph → gmap N variableNode;
  g_edges : graph → gset (N * N);
  NewDirectedGraph_ok : graph_ok NewDirectedGraph ∧ g_nodes NewDirectedGraph = ∅ ∧ g_edges NewDirectedGraph = ∅;
  AddNode_ok g n : graph_ok g → g_nodes g !! vn_id n = None →
    ∃ g', AddNode g n = Some g' ∧ graph_ok g' ∧ g_nodes g' = <[vn_id n := n]> (g_nodes g) ∧ g_edges g' = g_edges g;
  SetEdge_ok g a b : graph_ok g → g_nodes g !! vn_id a = Some a → g_nodes g !! vn_id b = Some b → vn_id a ≠ vn_id b →
    ∃ g', SetEdge g a b = Some g' ∧ graph_ok g' ∧ g_nodes g' = g_nodes g ∧ g_edges g' = {[(vn_id a, vn_id b)]} ∪ g_edges g;
  graph_Node_ok g i : graph_ok g → graph_Node g i = g_nodes g !! i;
  graph_Nodes_ok g : graph_ok g → graph_Nodes g ≡ₚ (map_to_list (g_nodes g)).*2;
  graph_To_ok g i n : graph_ok g → n ∈ graph_To g i ↔ ∃ j, (j, i) ∈ g_edges g ∧ g_nodes g !! j = Some n;
  SortStabilized_sorted g order l : graph_ok g → (∀ ns, order ns ≡ₚ ns) → SortStabilized g order = inr l →
    l ≡ₚ (map_to_list (g_nodes g)).*2 ∧
    ∀ x y a b, l !! x = Some a → l !! y = Some b → (vn_id a, vn_id b) ∈ g_edges g → x < y;
  SortStabilized_acyclic g order : graph_ok g → (∀ ns, order ns ≡ₚ ns) → (∀ i, ¬ tc (λ i j, (i, j) ∈ g_edges g) i i) →
    ∃ l, SortStabilized g order = inr l;
  SortStabilized_cycles g order cs : SortStabilized g order = inl cs → cs ≠ [];
}.

(** * What an expression refers to *)

Section refs.
Context `{CelChecker}.

Definition checked (src : string) : option CheckedExpr := cel_Compile src ≫= AstToCheckedExpr.
Definition expr_constants (src : string) : gset string := match ToAST (checked src) with Some a => constant_refs a | None => ∅ end.
Definition expr_variables (src : string) : gset string := match ToAST (checked src) with Some a => variable_refs a | None => ∅ end.
Definition compiled_var (d : string * string) : CompiledVariable := MkCompiledVariable d.1 (MkCompiled d.2 (checked d.2)).

Lemma compiled_var_inj d d' : compiled_var d = compiled_var d' → d = d'.
Proof. destruct d, d'. unfold compiled_var. cbn. by intros [= -> ->]. Qed.
End refs.

(** * Definitions *)

Section variables.
Context `{CelChecker} `{GL : !GraphLaws G} `{GoMapOrder}.
Implicit Types (s : CS) (decls l : list (string * string)) (mc : moduleCtx) (vd : variableDefinitions).

(** The nodes are the declarations [l], by position. *)
Record vd_exact l vd : Prop := {
  vdh_ok : graph_ok (vd_graph vd);
  vdh_node : ∀ i n, g_nodes (vd_graph vd) !! i = Some n →
    vn_id n = i ∧ ∃ d, l !! N.to_nat i = Some d ∧ vn_Variable n = compiled_var d;
  vdh_nodes : ∀ i, i < length l → is_Some (g_nodes (vd_graph vd) !! N.of_nat i);
  vdh_ids : ∀ n i, vd_ids vd !! n = Some i → ∃ src, l !! N.to_nat i = Some (n, src);
  vdh_names : ∀ n, n ∈ l.*1 → is_Some (vd_ids vd !! n);
  vdh_sources : sources_of l.*1 (vd_sources vd);
  vdh_next : vd_nextID vd = N.of_nat (length l);
}.
Definition vd_holds decls vd : Prop := ∃ l, l ≡ₚ decls ∧ vd_exact l vd.

Lemma vd_exact_fresh l vd : vd_exact l vd → g_nodes (vd_graph vd) !! vd_nextID vd = None.
Proof.
  intros Hvd. apply eq_None_not_Some. intros [n Hn]. destruct (vdh_node _ _ Hvd _ _ Hn) as (_ & d & Hd & _).
  apply lookup_lt_Some in Hd. rewrite (vdh_next _ _ Hvd), Nat2N.id in Hd. lia.
Qed.

Lemma vd_exact_nil : vd_exact [] newVariableDefinitions.
Proof.
  destruct NewDirectedGraph_ok as (Hok & Hn & _). split; cbn; [done|..].
  - intros i n. by rewrite Hn, lookup_empty.
  - intros i Hi. lia.
  - intros n i. by rewrite lookup_empty.
  - by intros n ?%elem_of_nil.
  - apply sources_of_nil.
  - done.
Qed.

Lemma vd_exact_add l vd d ctx g :
  vd_exact l vd → graph_ok g →
  g_nodes g = <[vd_nextID vd := MkVariableNode (compiled_var d) ctx (vd_nextID vd)]> (g_nodes (vd_graph vd)) →
  vd_exact (l ++ [d]) (MkVariableDefs g (<[d.1 := vd_nextID vd]> (vd_ids vd))
    (<[d.1 := default [] (vd_sources vd !! d.1) ++ [ctx]]> (vd_sources vd)) (vd_used vd) (vd_nextID vd + 1)%N).
Proof.
  intros [Hok Hnode Hnodes Hids Hnames Hsrc Hnext] Hok' Hg.
  assert ((l ++ [d]) !! N.to_nat (vd_nextID vd) = Some d) as Hlast. { rewrite Hnext, Nat2N.id. by apply list_lookup_middle. }
  split; cbn [vd_graph vd_ids vd_sources vd_nextID]; [done|..].
  - intros i n. rewrite Hg. destruct (decide (vd_nextID vd = i)) as [<-|Hne].
    + rewrite lookup_insert_eq. intros [= <-]. split; [done|]. by exists d.
    + rewrite lookup_insert_ne by done. intros Hi%Hnode. destruct Hi as (Hid & d' & Hd' & Hv). split; [done|].
      exists d'. split; [|done]. apply lookup_app_l_Some. exact Hd'.
  - intros i. rewrite length_app, Hg. cbn. intros Hi. destruct (decide (vd_nextID vd = N.of_nat i)) as [->|Hne].
    + by rewrite lookup_insert_eq.
    + rewrite lookup_insert_ne by done. apply Hnodes. lia.
  - intros n i. destruct (decide (d.1 = n)) as [<-|Hne].
    + rewrite lookup_insert_eq. intros [= <-]. exists d.2. rewrite Hlast. by destruct d.
    + rewrite lookup_insert_ne by done. intros [src Hsrc']%Hids. exists src. by apply lookup_app_l_Some.
  - intros n. rewrite fmap_app, elem_of_app. cbn. rewrite list_elem_of_singleton. destruct (decide (d.1 = n)) as [<-|Hne].
    + intros _. by rewrite lookup_insert_eq.
    + intros [Hn| ->]; [|done]. rewrite lookup_insert_ne by done. by apply Hnames.
  - rewrite fmap_app. by apply sources_of_add.
  - rewrite Hnext, length_app. cbn. lia.
Qed.

(** The state while definitions are added: no edges yet. *)
Definition vstate decls (used : option (gset string)) (cs : option constantDefinitions) s : Prop :=
  ∃ vd, st_variables s = Some vd ∧ vd_holds decls vd ∧ g_edges (vd_graph vd) = ∅ ∧ vd_used vd = used ∧ st_constants s = cs.

Lemma vstate_error decls used cs s s' :
  vstate decls used cs s → st_constants s' = st_constants s → st_variables s' = st_variables s → vstate decls used cs s'.
Proof. intros (vd & E & Hvd) Ec Ev. exists vd. rewrite Ec, Ev. done. Qed.

Lemma vstate_perm decls decls' used cs s : decls ≡ₚ decls' → vstate decls used cs s → vstate decls' used cs s.
Proof.
  intros Hp (vd & E & (l & Hl & Hvd) & Hrest). exists vd. split; [done|]. split; [|done]. exists l. split; [by rewrite Hl|done].
Qed.

Lemma variables_Add_spec decls used cs s d ctx :
  vstate decls used cs s → cspec (variables_Add (compiled_var d) ctx) s True (λ _, vstate (decls ++ [d]) used cs).
Proof.
  intros (vd & E & (l & Hl & Hvd) & He & Hu & Hc).
  eapply cspec_bind_T; [by eapply cspec_the_variables with (Q := λ x s', x = vd ∧ s' = s)|]. intros ? ? _ [-> ->].
  destruct (AddNode_ok (vd_graph vd) (MkVariableNode (compiled_var d) ctx (vd_nextID vd))) as (g & Eg & Hok & Hg & Hge);
    [apply Hvd|by apply (vd_exact_fresh l)|].
  eapply cspec_bind_T; [by eapply cspec_lift with (Q := λ x s', x = g ∧ s' = s)|]. intros ? ? _ [-> ->].
  apply cspec_set_variables. intros s' _ Ec Ev. eexists. split; [exact Ev|]. split; [|cbn; rewrite Hge, Ec; done].
  exists (l ++ [d]). split; [by rewrite Hl|]. by apply vd_exact_add.
Qed.

Lemma compileCELExpr_unmarked mc src s (Q : CompiledExpr → CS → Prop) :
  (∀ s', (ok s' → ok s) → st_constants s' = st_constants s → st_variables s' = st_variables s → Q (MkCompiled src (checked src)) s') →
  cspec (compileCELExpr mc src false) s (is_Some (checked src)) Q.
Proof.
  unfold compileCELExpr, checked. intros HQ. destruct (cel_Compile src) as [a|]; cbn [mbind option_bind] in *.
  - destruct (AstToCheckedExpr a) as [c|].
    + eapply cspec_iff; [apply cspec_bind_T with (Q1 := λ _ s', s' = s) (P := True); [by apply cspec_ret|]|by split].
      intros [] ? _ ->. apply cspec_ret. by apply HQ.
    + eapply cspec_iff; [apply cspec_bind with (P1 := False) (P2 := True) (Q1 := λ _ s', (ok s' → ok s) ∧ st_constants s' = st_constants s ∧ st_variables s' = st_variables s)|].
      * apply cspec_addErr. intros s' Ec Ev Hn. done.
      * intros [] s' _ (? & ? & ?). apply cspec_ret. by apply HQ.
      * intros _. split; [tauto|by intros []].
  - eapply cspec_iff; [apply cspec_bind with (P1 := False) (P2 := True) (Q1 := λ _ s', (ok s' → ok s) ∧ st_constants s' = st_constants s ∧ st_variables s' = st_variables s)|].
    + apply cspec_addErr. intros s' Ec Ev Hn. done.
    + intros [] s' _ (? & ? & ?). apply cspec_ret. by apply HQ.
    + intros _. split; [tauto|by intros []].
Qed.

(** A definition of a variable: an identifier and an expression that compiles. *)
Definition variable_valid (d : string * string) : Prop := ValidateIdentifier d.1 ∧ is_Some (checked d.2).

Lemma variables_Compile_spec decls used cs s mc defs source :
  vstate decls used cs s →
  cspec (variables_Compile mc defs source) s (∀ n src, defs !! n = Some src → variable_valid (n, src))
    (λ _, vstate (decls ++ go_range defs) used cs).
Proof.
  intros Hs. eapply cspec_iff.
  - apply (cspec_forST (λ k, vstate (decls ++ k) used cs) variable_valid); [by rewrite app_nil_r|].
    intros done [n src] rest s' _ _ Hs'. apply cspec_bind with (P1 := ValidateIdentifier n) (Q1 := λ _, vstate (decls ++ done) used cs).
    + apply cspec_unless_b; [by intros _|]. intros _. apply cspec_addErr. intros. by eapply vstate_error.
    + intros [] s1 _ Hs1. eapply cspec_iff; [apply cspec_bind with (P1 := is_Some (checked src)) (P2 := True)
        (Q1 := λ x s2, x = MkCompiled src (checked src) ∧ vstate (decls ++ done) used cs s2)|cbn; tauto].
      * apply compileCELExpr_unmarked. intros s2 _ Ec Ev. split; [done|]. by eapply vstate_error.
      * intros ? s2 _ [-> Hs2]. rewrite app_assoc. by apply (variables_Add_spec _ _ _ _ (n, src)).
  - intros _. rewrite Forall_forall. split.
    + intros Hall n src Hn. apply (Hall (n, src)). by apply elem_of_go_range.
    + intros Hall [n src] Hin%elem_of_go_range. by apply Hall.
Qed.

(** The nodes in the order of their declarations. *)
Lemma vd_exact_nodes l vd :
  vd_exact l vd → ∃ L, (map_to_list (g_nodes (vd_graph vd))).*2 ≡ₚ L ∧ vn_Variable <$> L = compiled_var <$> l ∧
    ∀ i n, L !! i = Some n → g_nodes (vd_graph vd) !! N.of_nat i = Some n.
Proof.
  intros Hvd. destruct (mapM_is_Some_2 (λ i, g_nodes (vd_graph vd) !! N.of_nat i) (seq 0 (length l))) as [L HL].
  { apply Forall_forall. intros i Hi%elem_of_seq. apply (vdh_nodes _ _ Hvd). lia. }
  apply mapM_Some in HL. assert (∀ i n, L !! i = Some n → g_nodes (vd_graph vd) !! N.of_nat i = Some n) as HLn.
  { intros i n Hi. destruct (Forall2_lookup_r _ _ _ _ _ HL Hi) as (j & Hj & Hn). apply lookup_seq in Hj as [-> _]. done. }
  assert (length L = length l) as Hlen. { apply Forall2_length in HL. by rewrite <-HL, length_seq. }
  exists L. split; [|split; [|done]].
  - transitivity ((imap (λ i n, (N.of_nat i, n)) L).*2).
    2: { apply reflexive_eq, list_eq. intros i. rewrite list_lookup_fmap, list_lookup_imap. by destruct (L !! i). }
    apply fmap_Permutation, NoDup_Permutation; [apply NoDup_map_to_list|..].
    + apply (NoDup_fmap_1 fst). rewrite fmap_imap. cbn.
      apply NoDup_alt. intros i j k. rewrite !list_lookup_imap. intros (x & _ & E1)%fmap_Some (y & _ & E2)%fmap_Some. cbn in E1, E2. lia.
    + intros [i n]. rewrite elem_of_map_to_list, elem_of_lookup_imap. split.
      * intros Hi. destruct (vdh_node _ _ Hvd _ _ Hi) as (_ & d & Hd & _). apply lookup_lt_Some in Hd.
        destruct (lookup_lt_is_Some_2 L (N.to_nat i)) as [n' Hn']; [lia|]. exists (N.to_nat i), n'. split; [|done].
        apply HLn in Hn'. rewrite N2Nat.id in *. congruence.
      * intros (j & n' & [= -> ->] & Hj). by apply HLn.
  - apply list_eq. intros i. rewrite !list_lookup_fmap. destruct (L !! i) as [n|] eqn:Hi.
    + destruct (vdh_node _ _ Hvd _ _ (HLn _ _ Hi)) as (_ & d & Hd & Hv). rewrite Nat2N.id in Hd. rewrite Hd. cbn. by rewrite Hv.
    + apply lookup_ge_None in Hi. rewrite (proj2 (lookup_ge_None l i)) by lia. done.
Qed.

(** The nodes of imported definitions are the declarations, in some order. *)
Lemma vd_holds_nodes decls vd :
  vd_holds decls vd → ∃ k, k ≡ₚ decls ∧ vn_Variable <$> graph_Nodes (vd_graph vd) = compiled_var <$> k.
Proof.
  intros (l & Hl & Hvd). destruct (vd_exact_nodes _ _ Hvd) as (L & HL & Hv & _).
  assert (vn_Variable <$> graph_Nodes (vd_graph vd) ≡ₚ map compiled_var l) as Hp.
  { change (map compiled_var l) with (compiled_var <$> l). rewrite <-Hv, <-HL. apply fmap_Permutation, graph_Nodes_ok, Hvd. }
  apply Permutation_map_inv in Hp as (k & Hk & Hp). exists k. split; [by rewrite <-Hp|done].
Qed.

Lemma variables_Import_spec decls used cs s decls' from source :
  vstate decls used cs s → vd_holds decls' from →
  cspec (variables_Import from source) s True (λ _, vstate (decls ++ decls') used cs).
Proof.
  intros Hs (k & Hk & Hn)%vd_holds_nodes. eapply cspec_mono; [eapply cspec_iff|].
  - apply (cspec_forST (λ done, vstate (decls ++ take (length done) k) used cs) (λ x, True)); [by rewrite take_0, app_nil_r|].
    intros done n rest s' El _ Hs'. rewrite length_app. cbn [length].
    assert (∃ d, k !! length done = Some d ∧ vn_Variable n = compiled_var d) as (d & Hd & ->).
    { assert ((vn_Variable <$> graph_Nodes (vd_graph from)) !! length done = Some (vn_Variable n)) as E.
      { rewrite list_lookup_fmap, El, list_lookup_middle by done. done. }
      rewrite Hn, list_lookup_fmap in E. apply fmap_Some in E as (d & Hd & E). by exists d. }
    replace (length done + 1) with (S (length done)) by lia. rewrite (take_S_r _ _ d) by done. rewrite app_assoc.
    by apply variables_Add_spec.
  - intros _. by rewrite Forall_forall.
  - intros [] s' _ Hs'. eapply vstate_perm; [|exact Hs']. rewrite take_ge; [by rewrite Hk|].
    apply (f_equal length) in Hn. rewrite !length_fmap in Hn. lia.
Qed.
End variables.

(** * Dependencies *)

Section deps.
Context `{CelChecker}.

(** The constants and variables in scope of a module. *)
Record Defs := MkDefs { D_constants : list (string * Value); D_variables : list (string * string) }.
Implicit Types (D : Defs).

(** [x] refers to [y]. *)
Definition depends D (x y : string) : Prop := ∃ src, (x, src) ∈ D_variables D ∧ y ∈ expr_variables src.

(** Everything an expression refers to is in scope. *)
Record refs_in D (src : string) : Prop := {
  ri_tree : is_Some (ToAST (checked src));
  ri_constants : ∀ c, c ∈ expr_constants src → c ∈ (D_constants D).*1;
  ri_variables : ∀ y, y ∈ expr_variables src → y ∈ (D_variables D).*1;
}.

Definition variable_resolved D (d : string * string) : Prop := refs_in D d.2 ∧ d.1 ∉ expr_variables d.2.
Definition variables_resolved D : Prop := NoDup (D_variables D).*1 ∧ Forall (variable_resolved D) (D_variables D).

(** What a list of expressions needs. *)
Definition needs D (exprs : list string) (n : string) : Prop :=
  ∃ e y, e ∈ exprs ∧ y ∈ expr_variables e ∧ rtc (depends D) y n.
Definition needs_constant D (exprs : list string) (c : string) : Prop :=
  (∃ e, e ∈ exprs ∧ c ∈ expr_constants e) ∨ ∃ n src, needs D exprs n ∧ (n, src) ∈ D_variables D ∧ c ∈ expr_constants src.
End deps.

Section use.
Context `{CelChecker} `{GL : !GraphLaws G} `{GoMapOrder}.
Implicit Types (s : CS) (D : Defs) (l : list (string * string)) (mc : moduleCtx) (vd : variableDefinitions).

Lemma constants_references_spec mc src s (Q : gset string → CS → Prop) :
  (∀ s', (ok s' → ok s) → st_constants s' = st_constants s → st_variables s' = st_variables s → Q (expr_constants src) s') →
  cspec (constants_references mc (checked src)) s (is_Some (ToAST (checked src))) Q.
Proof.
  unfold constants_references, expr_constants. intros HQ. destruct (ToAST (checked src)) as [a|].
  - eapply cspec_iff; [by apply cspec_ret, HQ|by split].
  - eapply cspec_iff; [eapply cspec_bind with (P2 := True); [apply cspec_addErr|]|].
    + intros s' Ec Ev Hn. instantiate (1 := λ _ s', (ok s' → ok s) ∧ st_constants s' = st_constants s ∧ st_variables s' = st_variables s). done.
    + intros [] s' _ (? & ? & ?). by apply cspec_ret, HQ.
    + intros _. split; [tauto|by intros []].
Qed.

Lemma variables_references_spec mc src s (Q : gset string * gset string → CS → Prop) :
  (∀ s', (ok s' → ok s) → st_constants s' = st_constants s → st_variables s' = st_variables s → Q (expr_constants src, expr_variables src) s') →
  cspec (variables_references mc (checked src)) s (is_Some (ToAST (checked src))) Q.
Proof.
  unfold variables_references, expr_constants, expr_variables. intros HQ. destruct (ToAST (checked src)) as [a|].
  - eapply cspec_iff; [by apply cspec_ret, HQ|by split].
  - eapply cspec_iff; [eapply cspec_bind with (P2 := True); [apply cspec_addErr|]|].
    + intros s' Ec Ev Hn. instantiate (1 := λ _ s', (ok s' → ok s) ∧ st_constants s' = st_constants s ∧ st_variables s' = st_variables s). done.
    + intros [] s' _ (? & ? & ?). by apply cspec_ret, HQ.
    + intros _. split; [tauto|by intros []].
Qed.

(** * Resolution *)

Definition with_graph vd (g : graph) : variableDefinitions := MkVariableDefs g (vd_ids vd) (vd_sources vd) (vd_used vd) (vd_nextID vd).

(** An edge from what is referred to, to what refers. *)
Definition edge_for vd (x y : string) (i j : N) : Prop := vd_ids vd !! x = Some j ∧ vd_ids vd !! y = Some i.

(** The state while references are resolved: [R] has those done. *)
Definition rstate vd cs (R : string → string → Prop) s : Prop :=
  ∃ g, st_variables s = Some (with_graph vd g) ∧ graph_ok g ∧ g_nodes g = g_nodes (vd_graph vd) ∧ st_constants s = cs ∧
    (ok s → ∀ i j, (i, j) ∈ g_edges g ↔ ∃ x y, R x y ∧ edge_for vd x y i j).

Lemma rstate_equiv vd cs (R R' : string → string → Prop) s : (∀ x y, R x y ↔ R' x y) → rstate vd cs R s → rstate vd cs R' s.
Proof. intros HR (g & ? & ? & ? & ? & Hg). exists g. do 4 (split; [done|]). intros Hok i j. rewrite Hg by done. by setoid_rewrite HR. Qed.

Lemma rstate_error vd cs R R' s s' :
  rstate vd cs R s → st_constants s' = st_constants s → st_variables s' = st_variables s → ¬ ok s' → rstate vd cs R' s'.
Proof. intros (g & ? & ? & ? & ? & Hg) Ec Ev Hn. exists g. rewrite Ec, Ev. do 4 (split; [done|]). done. Qed.
Lemma rstate_frame vd cs R s s' :
  rstate vd cs R s → st_constants s' = st_constants s → st_variables s' = st_variables s → (ok s' → ok s) → rstate vd cs R s'.
Proof. intros (g & ? & ? & ? & ? & Hg) Ec Ev Hn. exists g. rewrite Ec, Ev. do 4 (split; [done|]). auto. Qed.

Lemma resolve_reference_spec l vd cs R s x y i n :
  vd_exact l vd → vd_ids vd !! x = Some i → g_nodes (vd_graph vd) !! i = Some n →
  rstate vd cs R s →
  cspec (resolve_reference n x y) s (y ≠ x ∧ y ∈ l.*1) (λ _, rstate vd cs (λ x' y', R x' y' ∨ x' = x ∧ y' = y)).
Proof.
  intros Hvd Hx Hn Hs. unfold resolve_reference. destruct (decide (y = x)) as [->|Hne].
  { apply cspec_fails; [|tauto]. apply cspec_addErr. intros. by eapply rstate_error. }
  destruct Hs as (g & Ev & Hok & Hg & Ec & He).
  eapply cspec_bind_T; [by eapply cspec_the_variables with (Q := λ x s', x = with_graph vd g ∧ s' = s)|]. intros ? ? _ [-> ->].
  cbn [vd_ids vd_graph vd_sources vd_used vd_nextID with_graph]. destruct (vd_ids vd !! y) as [j|] eqn:Ey.
  2: { apply cspec_fails; [|intros [_ Hy]; apply (vdh_names _ _ Hvd) in Hy as [? ?]; congruence].
       apply cspec_addErr. intros s' Ec' Ev' Hn'. exists g. rewrite Ec', Ev'. done. }
  assert (∃ m, g_nodes (vd_graph vd) !! j = Some m) as [m Hm].
  { destruct (vdh_ids _ _ Hvd _ _ Ey) as [src Hj]. apply lookup_lt_Some in Hj. rewrite <-(N2Nat.id j). by apply Hvd. }
  apply cspec_holds.
  2: { intros _. split; [done|]. destruct (vdh_ids _ _ Hvd _ _ Ey) as [src Hj]. apply list_elem_of_lookup_2 in Hj.
       apply list_elem_of_fmap. by exists (y, src). }
  eapply cspec_bind_T; [eapply cspec_lift with (Q := λ x s', x = m ∧ s' = s) (x := m); [by rewrite graph_Node_ok, Hg|done]|].
  intros ? ? _ [-> ->]. destruct (vdh_node _ _ Hvd _ _ Hm) as (Eid & dm & Hdm & Hvm), (vdh_node _ _ Hvd _ _ Hn) as (Eid' & dn & Hdn & Hvn).
  destruct (SetEdge_ok g m n) as (g' & Eg & Hok' & Hg' & He'); [done|by rewrite Hg, Eid|by rewrite Hg, Eid'|..].
  { rewrite Eid, Eid'. intros ->. destruct (vdh_ids _ _ Hvd _ _ Ey) as [? Hy'], (vdh_ids _ _ Hvd _ _ Hx) as [? Hx']. congruence. }
  eapply cspec_bind_T; [by eapply cspec_lift with (Q := λ x s', x = g' ∧ s' = s)|]. intros ? ? _ [-> ->].
  apply cspec_set_variables. intros s' Ee Ec' Ev'. exists g'. split; [done|]. split; [done|]. split; [by rewrite Hg'|].
  split; [by rewrite Ec'|]. intros Hs' i' j'. rewrite He', elem_of_union, elem_of_singleton, Eid, Eid', He.
  2: { unfold ok in *. by rewrite <-Ee. }
  unfold edge_for. split.
  - intros [[= -> ->]|(x' & y' & HR & ?)]; [by exists x, y; split; [right|]|]. exists x', y'. split; [by left|done].
  - intros (x' & y' & [HR|[-> ->]] & Hi & Hj); [right; by exists x', y'|]. left. congruence.
Qed.

(** The references of the variable at a position. *)
Definition position_resolved D l (x : string * N) : Prop := ∀ src, l !! N.to_nat x.2 = Some (x.1, src) → variable_resolved D (x.1, src).

Lemma resolve_variable_spec D l vd cd R s mc x i :
  vd_exact l vd → l ≡ₚ D_variables D → cd_holds (D_constants D) cd → vd_ids vd !! x = Some i → rstate vd (Some cd) R s →
  cspec (vd ← the_variables;
         referrer ← lift (graph_Node (vd_graph vd) i);
         refs ← variables_references mc (cx_Checked (cv_Expr (vn_Variable referrer)));
         _ ← forST (set_range refs.1) (λ referencedConstName,
               defined ← constants_IsDefined referencedConstName;
               if (defined : bool) then mret tt
               else addErr (dc_sourceFile (vn_varCtx referrer)) errUndefinedConstant [referencedConstName; x]);
         forST (set_range refs.2) (resolve_reference referrer x))
    s (position_resolved D l (x, i))
    (λ _, rstate vd (Some cd) (λ x' y, R x' y ∨ x' = x ∧ ∃ src, l !! N.to_nat i = Some (x, src) ∧ y ∈ expr_variables src)).
Proof.
  intros Hvd Hl Hcd Hx Hs. destruct (vdh_ids _ _ Hvd _ _ Hx) as [src Hsrc].
  assert (∃ n, g_nodes (vd_graph vd) !! i = Some n) as [n Hn].
  { apply lookup_lt_Some in Hsrc. rewrite <-(N2Nat.id i). by apply Hvd. }
  destruct (vdh_node _ _ Hvd _ _ Hn) as (Eid & d & Hd & Hv). assert (d = (x, src)) as -> by congruence.
  destruct Hs as (g & Ev & Hok & Hg & Ec & He).
  eapply cspec_bind_T; [by eapply cspec_the_variables with (Q := λ x s', x = with_graph vd g ∧ s' = s)|]. intros ? ? _ [-> ->].
  eapply cspec_bind_T; [eapply cspec_lift with (Q := λ x s', x = n ∧ s' = s) (x := n); [by cbn; rewrite graph_Node_ok, Hg|done]|].
  intros ? ? _ [-> ->]. rewrite Hv. cbn [compiled_var cv_Expr cx_Checked fst snd].
  eapply cspec_iff; [eapply cspec_bind|].
  - apply variables_references_spec. intros s' Hok1 Ec1 Ev1.
    instantiate (1 := λ x s', x = (expr_constants src, expr_variables src) ∧ rstate vd (Some cd) R s'). split; [done|].
    eapply rstate_frame; [|exact Ec1|exact Ev1|done]. by exists g.
  - intros ? s1 _ [-> Hs1]. cbn [fst snd]. eapply cspec_bind.
    + apply (cspec_forST_inv (rstate vd (Some cd) R) (λ c, c ∈ (D_constants D).*1)); [done|]. intros c s2 _ _ Hs2.
      destruct Hs2 as (g2 & Ev2 & Hok2 & Hg2 & Ec2 & He2). eapply cspec_bind_T.
      { apply cspec_bind_T with (Q1 := λ x s', x = cd ∧ s' = s2); [by eapply cspec_the_constants|]. intros ? ? _ [-> ->].
        by apply cspec_ret with (Q := λ x s', x = bool_decide (is_Some (cd_values cd !! c)) ∧ s' = s2). }
      intros ? ? _ [-> ->]. eapply cspec_iff; [apply cspec_unless_b|].
      * intros _. by exists g2.
      * intros _. apply cspec_addErr. intros s3 Ec3 Ev3 Hn3. exists g2. rewrite Ec3, Ev3. done.
      * intros _. rewrite bool_decide_spec. by apply cd_holds_dom.
    + intros [] s2 _ Hs2. eapply cspec_mono;
        [apply (cspec_forST (λ done, rstate vd (Some cd) (λ x' y, R x' y ∨ x' = x ∧ y ∈ done)) (λ y, y ≠ x ∧ y ∈ l.*1))|].
      * eapply rstate_equiv; [|exact Hs2]. intros x' y'. rewrite elem_of_nil. naive_solver.
      * intros done y rest s3 _ _ Hs3. eapply cspec_mono; [by eapply resolve_reference_spec|]. intros [] s4 _ Hs4.
        eapply rstate_equiv; [|exact Hs4]. intros x' y'. cbn. rewrite elem_of_app, list_elem_of_singleton. naive_solver.
      * intros [] s3 _ Hs3. eapply rstate_equiv; [|exact Hs3]. intros x' y'. cbn. rewrite elem_of_set_range.
        split; (intros [?|[-> Hy]]; [by left|right; split; [done|]]); [by exists src|]. destruct Hy as (? & ? & ?). congruence.
  - intros _. rewrite !Forall_forall. setoid_rewrite elem_of_set_range. split.
    + intros (Ht & Hc & Hy) src' E. cbn in E. assert (src' = src) as -> by congruence. split; [split; cbn [snd]|].
      * done.
      * intros c Hin. by apply Hc.
      * intros y Hin. rewrite <-Hl. by apply Hy.
      * cbn. intros Hin. by apply (Hy x).
    + intros Hres. destruct (Hres src Hsrc) as [[Ht Hc Hy] Hx']. cbn in *. split; [done|]. split; [done|].
      intros y Hin. rewrite Hl. split; [|by apply Hy]. by intros ->.
Qed.

(** * The state of a module whose definitions are resolved *)

Definition edges_exact D vd : Prop := ∀ i j, (i, j) ∈ g_edges (vd_graph vd) ↔ ∃ x y, depends D x y ∧ edge_for vd x y i j.

(** Unless there were errors: the definitions are resolved, edges are references,
    and what is marked as used is what the expressions seen need. *)
Record usage D (exprs : list string) vd (uc uv : gset string) : Prop := {
  us_constants : NoDup (D_constants D).*1;
  us_variables : variables_resolved D;
  us_edges : edges_exact D vd;
  us_used : ∀ n, n ∈ uv ↔ needs D exprs n;
  us_used_constants : ∀ c, c ∈ uc ↔ needs_constant D exprs c;
}.
Definition module_state D (exprs : list string) s : Prop :=
  ∃ cd vd uc uv, st_constants s = Some cd ∧ st_variables s = Some vd ∧ cd_holds (D_constants D) cd ∧ vd_holds (D_variables D) vd ∧
    cd_used cd = Some uc ∧ vd_used vd = Some uv ∧ (ok s → usage D exprs vd uc uv).

Lemma needs_nil D n : ¬ needs D [] n.
Proof. by intros (e & y & ?%elem_of_nil & _). Qed.
Lemma needs_constant_nil D c : ¬ needs_constant D [] c.
Proof. intros [(e & ?%elem_of_nil & _)|(n & src & ?%needs_nil & _)]; done. Qed.

Lemma vd_exact_used l vd used : vd_exact l vd → vd_exact l (MkVariableDefs (vd_graph vd) (vd_ids vd) (vd_sources vd) used (vd_nextID vd)).
Proof. by intros []. Qed.

Lemma vd_exact_with_graph l vd g : vd_exact l vd → graph_ok g → g_nodes g = g_nodes (vd_graph vd) → vd_exact l (with_graph vd g).
Proof. intros [] Hok Hg. split; cbn; rewrite ?Hg; done. Qed.

(** With names that are not defined twice, a name is at one position. *)
Lemma vd_ids_unique l vd n src i j :
  vd_exact l vd → NoDup l.*1 → vd_ids vd !! n = Some i → l !! j = Some (n, src) → N.to_nat i = j.
Proof.
  intros Hvd Hl Hi Hj. destruct (vdh_ids _ _ Hvd _ _ Hi) as [src' Hi'].
  eapply (NoDup_lookup _ _ _ n Hl); rewrite list_lookup_fmap, ?Hi', ?Hj; done.
Qed.

Lemma position_resolved_all D l vd :
  vd_exact l vd → l ≡ₚ D_variables D → NoDup l.*1 →
  Forall (position_resolved D l) (go_range (vd_ids vd)) ↔ Forall (variable_resolved D) (D_variables D).
Proof.
  intros Hvd Hl Hnd. rewrite !Forall_forall. split.
  - intros Hall [n src] Hin. rewrite <-Hl in Hin. apply list_elem_of_lookup in Hin as [j Hj].
    destruct (vdh_names _ _ Hvd n) as [i Hi]. { apply list_elem_of_fmap. exists (n, src). split; [done|]. by eapply list_elem_of_lookup_2. }
    assert (N.to_nat i = j) as Ei by by eapply vd_ids_unique. apply (Hall (n, i)); [by apply elem_of_go_range|]. cbn. by rewrite Ei.
  - intros Hall [n i] _ src E. apply Hall. rewrite <-Hl. by eapply list_elem_of_lookup_2.
Qed.

(** Dependencies are the references found at the positions of names. *)
Lemma positions_depend D l vd x y :
  vd_exact l vd → l ≡ₚ D_variables D → NoDup l.*1 →
  depends D x y ↔ ∃ i, (x, i) ∈ go_range (vd_ids vd) ∧ ∃ src, l !! N.to_nat i = Some (x, src) ∧ y ∈ expr_variables src.
Proof.
  intros Hvd Hl Hnd. unfold depends. setoid_rewrite elem_of_go_range. split.
  - intros (src & Hin & Hy). rewrite <-Hl in Hin. apply list_elem_of_lookup in Hin as [j Hj].
    destruct (vdh_names _ _ Hvd x) as [i Hi]. { apply list_elem_of_fmap. exists (x, src). split; [done|]. by eapply list_elem_of_lookup_2. }
    exists i. split; [done|]. exists src. split; [|done]. by rewrite (vd_ids_unique _ _ _ _ _ _ Hvd Hnd Hi Hj).
  - intros (i & Hi & src & Hsrc & Hy). exists src. split; [|done]. rewrite <-Hl. by eapply list_elem_of_lookup_2.
Qed.

Lemma resolveReferences_spec D l vd cd s mc :
  vd_exact l vd → l ≡ₚ D_variables D → (ok s → NoDup l.*1) → cd_holds (D_constants D) cd →
  st_variables s = Some vd → g_edges (vd_graph vd) = ∅ → st_constants s = Some cd →
  cspec (resolveReferences mc) s (Forall (variable_resolved D) (D_variables D)) (λ _, rstate vd (Some cd) (depends D)).
Proof.
  intros Hvd Hl Hnd Hcd Ev He Ec. eapply cspec_iff; [eapply cspec_mono|].
  - eapply cspec_bind_T; [by eapply cspec_the_variables with (Q := λ x s', x = vd ∧ s' = s)|]. intros ? ? _ [-> ->].
    apply (cspec_forST (λ done s', (ok s' → ok s) ∧ rstate vd (Some cd)
      (λ x y, ∃ i, (x, i) ∈ done ∧ ∃ src, l !! N.to_nat i = Some (x, src) ∧ y ∈ expr_variables src) s') (position_resolved D l)).
    + split; [done|]. exists (vd_graph vd). split; [by destruct vd|]. split; [apply Hvd|]. do 2 (split; [done|]). intros _ i j. rewrite He.
      split; [by intros ?%elem_of_empty|]. by intros (x & y & (? & ?%elem_of_nil & _) & _).
    + intros done [x i] rest s' El Hs' [Hmono Hs]. eapply cspec_mono; [eapply resolve_variable_spec|]; [done..| |exact Hs|].
      * apply elem_of_go_range. rewrite El. apply elem_of_app. right. left.
      * intros [] s'' E Hs''. split; [tauto|]. eapply rstate_equiv; [|exact Hs'']. intros x' y. cbn.
        setoid_rewrite elem_of_app. setoid_rewrite list_elem_of_singleton. split.
        -- intros [(i' & Hi' & ?)|[-> ?]]; [exists i'; split; [by left|done]|exists i; split; [by right|done]].
        -- intros (i' & [Hi'|[= -> ->]] & ?); [left; by exists i'|by right].
  - intros [] s' _ [Hmono Hs]. destruct Hs as (g & ? & ? & ? & ? & Hg). exists g. do 4 (split; [done|]). intros Hok i j.
    rewrite Hg by done. setoid_rewrite (positions_depend D l vd); [done..|]. auto.
  - intros Hok. by apply position_resolved_all; auto.
Qed.

Lemma variables_Resolve_spec D cd s mc :
  vstate (D_variables D) None (Some cd) s → cd_holds (D_constants D) cd → cd_used cd = Some ∅ → (ok s → NoDup (D_constants D).*1) →
  cspec (variables_Resolve mc) s (variables_resolved D) (λ _, module_state D []).
Proof.
  intros (vd & Ev & (l & Hl & Hvd) & He & _ & Ec) Hcd Huc Hnd. unfold variables_resolved. eapply cspec_bind.
  { eapply cspec_bind_T; [by eapply cspec_the_variables with (Q := λ x s', x = vd ∧ s' = s)|]. intros ? ? _ [-> ->].
    eapply cspec_iff; [|intros _; rewrite <-Hl; apply (sources_NoDup l.*1 (vd_sources vd)); apply Hvd].
    apply (cspec_forST_inv (λ s', (ok s' → ok s) ∧ st_variables s' = Some vd ∧ st_constants s' = Some cd)); [done|].
    intros [n places] s' _ _ (Hmono & Ev' & Ec'). apply cspec_unless; [done|]. intros _. apply cspec_addErr. intros s'' -> ->. done. }
  cbn beta. intros [] s1 E1 (Hmono & Ev1 & Ec1). eapply cspec_iff; [eapply cspec_bind with (P2 := True)|].
  - eapply resolveReferences_spec; [exact Hvd|exact Hl| |exact Hcd|done..]. intros Hok. rewrite Hl. tauto.
  - intros [] s2 E2 (g & Ev2 & Hok2 & Hg2 & Ec2 & He2).
    eapply cspec_bind_T; [by eapply cspec_the_variables with (Q := λ x s', x = with_graph vd g ∧ s' = s2)|]. intros ? ? _ [-> ->].
    apply cspec_set_variables. intros s3 Ee3 Ec3 Ev3. exists cd. eexists. exists ∅, ∅. split; [by rewrite Ec3|]. split; [exact Ev3|].
    split; [done|]. split; [exists l; split; [done|]; by apply vd_exact_used, vd_exact_with_graph|]. split; [done|]. split; [done|].
    intros Hok3. assert (ok s2) as Hs2 by (unfold ok in *; congruence).
    split; [tauto| |exact (He2 Hs2)|..].
    + split; tauto.
    + intros n. split; [by intros ?%elem_of_empty|by intros ?%needs_nil].
    + intros n. split; [by intros ?%elem_of_empty|by intros ?%needs_constant_nil].
  - intros _. tauto.
Qed.

(** * Using variables *)

Definition cd_with (cd : constantDefinitions) (u : gset string) : constantDefinitions := MkConstantDefs (cd_values cd) (cd_sources cd) (Some u).
Definition vd_with vd (u : gset string) : variableDefinitions := MkVariableDefs (vd_graph vd) (vd_ids vd) (vd_sources vd) (Some u) (vd_nextID vd).

(** The definitions stay, the names marked as used change. *)
Definition ustate (cd : constantDefinitions) vd (uc uv : gset string) s : Prop :=
  st_constants s = Some (cd_with cd uc) ∧ st_variables s = Some (vd_with vd uv).

Lemma ustate_frame cd vd uc uv s s' :
  ustate cd vd uc uv s → st_constants s' = st_constants s → st_variables s' = st_variables s → ustate cd vd uc uv s'.
Proof. intros [? ?] Ec Ev. split; congruence. Qed.

Lemma constants_Use_spec D cd vd uc uv s mc src :
  cd_holds (D_constants D) cd → ustate cd vd uc uv s →
  cspec (constants_Use mc (checked src)) s
    (is_Some (ToAST (checked src)) ∧ ∀ c, c ∈ expr_constants src → c ∈ (D_constants D).*1)
    (λ _ s', ∃ uc', ustate cd vd uc' uv s' ∧ (ok s' → ∀ c, c ∈ uc' ↔ c ∈ uc ∨ c ∈ expr_constants src)).
Proof.
  intros Hcd Hs. eapply cspec_bind.
  { apply constants_references_spec. intros s' Hmono Ec Ev.
    instantiate (1 := λ x s', x = expr_constants src ∧ ustate cd vd uc uv s'). split; [done|]. by eapply ustate_frame. }
  intros ? s1 _ [-> Hs1]. eapply cspec_iff; [eapply cspec_mono|].
  - apply (cspec_forST (λ done s', ∃ uc', ustate cd vd uc' uv s' ∧ (ok s' → ∀ c, c ∈ uc' ↔ c ∈ uc ∨ c ∈ done)) (λ c, c ∈ (D_constants D).*1)).
    { exists uc. split; [done|]. intros _ c. rewrite elem_of_nil. tauto. }
    intros done c rest s' _ _ (uc' & [Ec Ev] & Huc). eapply cspec_bind_T; [by eapply cspec_the_constants with (Q := λ x s'', x = cd_with cd uc' ∧ s'' = s')|].
    intros ? ? _ [-> ->]. cbn [cd_values cd_used cd_sources cd_with]. destruct (decide (is_Some (cd_values cd !! c))) as [Hc|Hc].
    + apply cspec_holds; [|intros _; by eapply cd_holds_dom].
      eapply cspec_bind_T; [by eapply cspec_lift with (Q := λ x s'', x = uc' ∧ s'' = s')|]. intros ? ? _ [-> ->].
      apply cspec_set_constants. intros s2 Ee Ec2 Ev2. exists ({[c]} ∪ uc'). split; [split; [done|by rewrite Ev2]|].
      intros Hok c'. rewrite elem_of_union, elem_of_singleton, elem_of_app, list_elem_of_singleton, Huc; [tauto|]. unfold ok in *. by rewrite <-Ee.
    + apply cspec_fails; [|by rewrite <-(cd_holds_dom _ cd)]. apply cspec_addErr. intros s2 Ec2 Ev2 Hn. exists uc'.
      split; [by eapply ustate_frame|done].
  - intros [] s' _ (uc' & Hs' & Huc). exists uc'. split; [done|]. intros Hok c. rewrite Huc, elem_of_set_range by done. done.
  - intros _. rewrite Forall_forall. by setoid_rewrite elem_of_set_range.
Qed.

(** What using [name] adds to the used names [uv], and to the used constants. *)
Record used_from D (name : string) (uc uv uc' uv' : gset string) : Prop := {
  uf_name : name ∈ uv';
  uf_reach : ∀ n, n ∈ uv' → n ∈ uv ∨ rtc (depends D) name n;
  uf_closed : ∀ n m, n ∈ uv' → n ∉ uv → depends D n m → m ∈ uv';
  uf_constants : ∀ c, c ∈ uc' ↔ c ∈ uc ∨ (∃ n src, n ∈ uv' ∧ (n ∉ uv) ∧ (n, src) ∈ D_variables D ∧ c ∈ expr_constants src);
}.
(** The same while the references [done] of [name] have been followed. *)
Record using_from D (name : string) (done : list string) (uc uv uc' uv' : gset string) : Prop := {
  ug_done : ∀ n, n ∈ done → n ∈ uv';
  ug_reach : ∀ n, n ∈ uv' → n ∈ uv ∨ rtc (depends D) name n;
  ug_closed : ∀ n m, n ∈ uv' → n ∉ uv → n ≠ name → depends D n m → m ∈ uv';
  ug_constants : ∀ c, c ∈ uc' ↔ c ∈ uc ∨ (∃ n src, n ∈ uv' ∧ (n ∉ uv) ∧ (n, src) ∈ D_variables D ∧ c ∈ expr_constants src);
}.

Lemma using_from_start D name src uc uv uc' :
  NoDup (D_variables D).*1 → (name, src) ∈ D_variables D → name ∉ uv → (∀ c, c ∈ uc' ↔ c ∈ uc ∨ c ∈ expr_constants src) →
  using_from D name [] uc uv uc' ({[name]} ∪ uv).
Proof.
  intros Hnd Hsrc Hn Huc. split.
  - intros n ?%elem_of_nil. done.
  - intros n [->%elem_of_singleton|?]%elem_of_union; [right; constructor|by left].
  - intros n m [->%elem_of_singleton|?]%elem_of_union; done.
  - intros c. rewrite Huc. split; (intros [?|Hc]; [by left|right]).
    + exists name, src. split; [|done]. apply elem_of_union. left. by apply elem_of_singleton.
    + destruct Hc as (n & src' & [->%elem_of_singleton|?]%elem_of_union & ? & Hin & Hc); [|done].
      by rewrite (NoDup_fst_unique _ _ _ _ Hnd Hsrc Hin).
Qed.

Lemma using_from_step D name r done uc uv uc1 uv1 uc2 uv2 :
  depends D name r → {[name]} ∪ uv ⊆ uv1 → uv1 ⊆ uv2 →
  using_from D name done uc uv uc1 uv1 → used_from D r uc1 uv1 uc2 uv2 → using_from D name (done ++ [r]) uc uv uc2 uv2.
Proof.
  intros Hr Hsub Hsub2 [G1 G2 G3 G4] [F1 F2 F3 F4]. split.
  - intros n. rewrite elem_of_app, list_elem_of_singleton. intros [Hn| ->]; [by apply Hsub2, G1|done].
  - intros n Hn. destruct (F2 n Hn) as [Hn'|Hn']; [by apply G2|]. right. by eapply rtc_l.
  - intros n m Hn Hnot Hne Hd. destruct (decide (n ∈ uv1)) as [Hin|Hout]; [by eapply Hsub2, G3|by eapply F3].
  - intros c. rewrite F4, G4. split.
    + intros [[?|(n & src & ? & ? & ?)]|(n & src & ? & Hout & ?)]; [by left|right..].
      * exists n, src. split; [by apply Hsub2|done].
      * exists n, src. split; [done|]. split; [|done]. intros Hin. apply Hout, Hsub, elem_of_union. by right.
    + intros [?|(n & src & Hin & ? & ?)]; [by left; left|]. destruct (decide (n ∈ uv1)).
      * left. right. by exists n, src.
      * right. by exists n, src.
Qed.

Lemma using_from_end D name done uc uv uc' uv' :
  name ∈ uv' → (∀ m, depends D name m → m ∈ done) → using_from D name done uc uv uc' uv' → used_from D name uc uv uc' uv'.
Proof.
  intros Hn Hdone [G1 G2 G3 G4]. split; [done|done| |done]. intros n m Hin Hout Hd.
  destruct (decide (n = name)) as [->|Hne]; [by apply G1, Hdone|by eapply G3].
Qed.

(** The successors in the graph are the references. *)
Lemma graph_To_depends D l vd name id r :
  vd_exact l vd → l ≡ₚ D_variables D → edges_exact D vd → (∃ src, l !! N.to_nat id = Some (name, src)) →
  r ∈ graph_To (vd_graph vd) id → depends D name (vn_Name r).
Proof.
  intros Hvd Hl He [src Hid] (j & Hj & Hr)%graph_To_ok; [|apply Hvd]. apply He in Hj as (x & y & Hd & Hx & Hy).
  destruct (vdh_ids _ _ Hvd _ _ Hx) as [srcx Hx'], (vdh_ids _ _ Hvd _ _ Hy) as [srcy Hy'], (vdh_node _ _ Hvd _ _ Hr) as (_ & d & Hd' & Hv).
  assert (x = name) as -> by congruence. assert (d = (y, srcy)) as -> by congruence. unfold vn_Name. by rewrite Hv.
Qed.

Lemma depends_graph_To D l vd name id src m :
  vd_exact l vd → l ≡ₚ D_variables D → variables_resolved D → edges_exact D vd → l !! N.to_nat id = Some (name, src) →
  depends D name m → m ∈ vn_Name <$> graph_To (vd_graph vd) id.
Proof.
  intros Hvd Hl [Hnd Hres] He Hid Hd. pose proof Hd as (src' & Hin & Hm). rewrite Forall_forall in Hres.
  destruct (Hres _ Hin) as [[_ _ Hvars] _]. specialize (Hvars m Hm). rewrite <-Hl in Hvars.
  destruct (vdh_names _ _ Hvd _ Hvars) as [j Hj]. destruct (vdh_ids _ _ Hvd _ _ Hj) as [srcm Hsrcm].
  destruct (vdh_names _ _ Hvd name) as [i Hi]. { apply list_elem_of_fmap. exists (name, src). split; [done|]. by eapply list_elem_of_lookup_2. }
  assert (i = id) as ->. { apply N2Nat.inj. eapply vd_ids_unique; [exact Hvd|by rewrite Hl|exact Hi|exact Hid]. }
  assert (∃ n, g_nodes (vd_graph vd) !! j = Some n) as [n Hn].
  { pose proof (lookup_lt_Some _ _ _ Hsrcm) as Hlt. rewrite <-(N2Nat.id j). by apply Hvd. }
  apply list_elem_of_fmap. exists n. split.
  - destruct (vdh_node _ _ Hvd _ _ Hn) as (_ & d & Hd' & Hv). assert (d = (m, srcm)) as -> by congruence. unfold vn_Name. by rewrite Hv.
  - apply graph_To_ok; [apply Hvd|]. exists j. split; [|done]. apply He. by exists name, m.
Qed.

Definition usable D vd : Prop := variables_resolved D ∧ edges_exact D vd.

Lemma unused_lt (X uv uv' : gset string) name :
  name ∈ X → name ∉ uv → {[name]} ∪ uv ⊆ uv' → size (X ∖ uv') < size (X ∖ uv).
Proof. clear. intros HX Hout Hsub. apply subset_size. set_solver. Qed.

(** The node of a declared variable. *)
Lemma vd_exact_get l vd id d :
  vd_exact l vd → l !! N.to_nat id = Some d → ∃ n, graph_Node (vd_graph vd) id = Some n ∧ vn_Variable n = compiled_var d.
Proof.
  intros Hvd Hd. pose proof (lookup_lt_Some _ _ _ Hd) as Hlt. destruct (vdh_nodes _ _ Hvd _ Hlt) as [n Hn]. rewrite N2Nat.id in Hn.
  exists n. rewrite graph_Node_ok by apply Hvd. destruct (vdh_node _ _ Hvd _ _ Hn) as (_ & d' & Hd' & ->). split; [done|]. congruence.
Qed.

(** Using variables with [fuel], from any state. *)
Definition use_spec D l cd vd mc (fuel : nat) : Prop := ∀ id name uc uv s,
  (ok s → usable D vd) → (∃ src, l !! N.to_nat id = Some (name, src)) → size (dom (vd_ids vd) ∖ uv) < fuel → ustate cd vd uc uv s →
  cspec (variables_use fuel mc id name) s True
    (λ _ s', ∃ uc' uv', ustate cd vd uc' uv' s' ∧ uv ⊆ uv' ∧ (ok s' → used_from D name uc uv uc' uv')).

Lemma use_references_spec D l cd vd mc fuel id name src uc uv uc1 s :
  vd_exact l vd → l ≡ₚ D_variables D → use_spec D l cd vd mc fuel → l !! N.to_nat id = Some (name, src) → name ∉ uv →
  (ok s → usable D vd) → size (dom (vd_ids vd) ∖ uv) < S fuel → ustate cd vd uc1 ({[name]} ∪ uv) s →
  (ok s → ∀ c, c ∈ uc1 ↔ c ∈ uc ∨ c ∈ expr_constants src) →
  cspec (forST (graph_To (vd_graph vd) id) (λ r, variables_use fuel mc (vn_id r) (vn_Name r))) s True
    (λ _ s', ∃ uc' uv', ustate cd vd uc' uv' s' ∧ uv ⊆ uv' ∧ (ok s' → used_from D name uc uv uc' uv')).
Proof.
  intros Hvd Hl IH Hid Hout Hok Hfuel Hs Huc1.
  assert (Hin : (name, src) ∈ D_variables D) by (rewrite <-Hl; by eapply list_elem_of_lookup_2).
  set (I := λ done s', ∃ uc' uv', ustate cd vd uc' uv' s' ∧ {[name]} ∪ uv ⊆ uv' ∧ (ok s' → using_from D name (vn_Name <$> done) uc uv uc' uv')).
  eapply cspec_mono; [eapply cspec_iff; [apply (cspec_forST I (λ _, True))|]|].
  - exists uc1, ({[name]} ∪ uv). split; [done|]. split; [done|]. intros Hs'. destruct (Hok Hs') as [[Hnd _] _]. eapply using_from_start; eauto.
  - intros done r rest s3 Er Hmono3 (uc3 & uv3 & Hs3 & Hsub & Hug).
    assert (r ∈ graph_To (vd_graph vd) id) as Hr by (rewrite Er; apply elem_of_app; right; left).
    pose proof Hr as (j & _ & Hj)%graph_To_ok; [|apply Hvd]. destruct (vdh_node _ _ Hvd _ _ Hj) as (Er' & dr & Hdr & Hvr).
    eapply cspec_mono; [eapply (IH (vn_id r) (vn_Name r) uc3 uv3); [auto| | |exact Hs3]|].
    + exists dr.2. rewrite Er', Hdr. unfold vn_Name. rewrite Hvr. by destruct dr.
    + enough (size (dom (vd_ids vd) ∖ uv3) < size (dom (vd_ids vd) ∖ uv)) by lia. apply (unused_lt _ _ _ name); [|done..].
      apply elem_of_dom, Hvd. rewrite Hl. apply list_elem_of_fmap. by exists (name, src).
    + intros [] s4 E4 (uc4 & uv4 & Hs4 & Hsub4 & Huf). exists uc4, uv4. split; [done|]. split; [by transitivity uv3|]. intros Hok4.
      rewrite fmap_app. eapply using_from_step; [|exact Hsub|exact Hsub4|by apply Hug, E4|by apply Huf].
      eapply graph_To_depends; [exact Hvd|exact Hl| |by exists src|exact Hr]. apply Hok. tauto.
  - intros _. by rewrite Forall_forall.
  - intros [] s3 E3 (uc3 & uv3 & Hs3 & Hsub & Hug). exists uc3, uv3. split; [done|]. split; [clear -Hsub; set_solver|]. intros Hok3.
    eapply using_from_end; [clear -Hsub; set_solver| |by apply Hug].
    intros m Hm. eapply depends_graph_To; [exact Hvd|exact Hl|..|exact Hid|exact Hm]; apply Hok; tauto.
Qed.

Lemma variables_use_spec D l cd vd mc fuel :
  vd_exact l vd → l ≡ₚ D_variables D → cd_holds (D_constants D) cd → use_spec D l cd vd mc fuel.
Proof.
  intros Hvd Hl Hcd. induction fuel as [|fuel IH]; intros id name uc uv s Hok [src Hid] Hfuel Hs; [lia|].
  cbn [variables_use]. eapply cspec_bind_T; [eapply cspec_the_variables with (Q := λ x s', x = vd_with vd uv ∧ s' = s); [apply Hs|done]|].
  intros ? ? _ [-> ->]. eapply cspec_bind_T; [by eapply cspec_lift with (Q := λ x s', x = uv ∧ s' = s)|]. intros ? ? _ [-> ->].
  cbn [vd_graph vd_ids vd_sources vd_used vd_nextID vd_with]. destruct (decide (name ∈ uv)) as [Hin|Hout].
  { apply cspec_ret. exists uc, uv. split; [done|]. split; [done|]. intros _. split; [done|by left|done|].
    intros c. split; [by left|]. intros [?|(n & ? & ? & ? & _)]; done. }
  eapply cspec_bind_T; [apply cspec_set_variables with (Q := λ _ s', ustate cd vd uc ({[name]} ∪ uv) s' ∧ (ok s' → ok s))|].
  { intros s' Ee Ec Ev. split; [split; [by rewrite Ec; apply Hs|done]|]. unfold ok. by rewrite Ee. }
  intros [] s1 _ [Hs1 Hmono1]. destruct (vd_exact_get _ _ _ _ Hvd Hid) as (n & En & Hv).
  eapply cspec_bind_T; [by eapply cspec_lift with (Q := λ x s', x = n ∧ s' = s1)|]. intros ? ? _ [-> ->].
  rewrite Hv. cbn [compiled_var cv_Expr cx_Checked snd].
  assert (Hin : (name, src) ∈ D_variables D) by (rewrite <-Hl; by eapply list_elem_of_lookup_2).
  eapply cspec_bind_T.
  { eapply cspec_iff; [by eapply constants_Use_spec|]. intros Hok1. split; [done|]. intros _.
    destruct (Hok (Hmono1 Hok1)) as [[_ Hres] _]. rewrite Forall_forall in Hres. by destruct (Hres _ Hin) as [[? ? ?] _]. }
  cbn beta. intros [] s2 E2 (uc1 & Hs2 & Huc1). eapply use_references_spec; [exact Hvd|exact Hl|exact IH|exact Hid|done| |done..].
  intros Hok2. apply Hok, Hmono1. tauto.
Qed.

(** ** Using an expression *)

Lemma needs_app D exprs src n :
  needs D (exprs ++ [src]) n ↔ needs D exprs n ∨ ∃ y, y ∈ expr_variables src ∧ rtc (depends D) y n.
Proof.
  unfold needs. split.
  - intros (e & y & [He| ->%list_elem_of_singleton]%elem_of_app & Hy & Hr); [left; by exists e, y|right; by exists y].
  - intros [(e & y & He & Hy & Hr)|(y & Hy & Hr)]; [exists e, y|exists src, y]; rewrite elem_of_app, ?list_elem_of_singleton; auto.
Qed.

(** The names used are closed under references. *)
Lemma needs_closed D exprs n m : needs D exprs n → depends D n m → needs D exprs m.
Proof. intros (e & y & He & Hy & Hr) Hd. exists e, y. do 2 (split; [done|]). by eapply rtc_r. Qed.

Lemma rtc_closed {A} (R : relation A) (P : A → Prop) x y : (∀ a b, P a → R a b → P b) → rtc R x y → P x → P y.
Proof. intros HP. induction 1; eauto. Qed.

Lemma used_from_reach D y uc uv uc' uv' n :
  (∀ n m, n ∈ uv → depends D n m → m ∈ uv) → uv ⊆ uv' → used_from D y uc uv uc' uv' →
  n ∈ uv' ↔ n ∈ uv ∨ rtc (depends D) y n.
Proof.
  intros Hclosed Hsub Huf. split; [by apply Huf|]. intros [Hn|Hr]; [by apply Hsub|].
  eapply (rtc_closed _ (λ k, k ∈ uv')); [|exact Hr|apply Huf]. intros a b Ha Hd.
  destruct (decide (a ∈ uv)) as [Hin|Hout]; [by eapply Hsub, Hclosed|by eapply Huf].
Qed.

(** What has been used once the references [done] of a further expression have
    been followed. *)
Record uses D (exprs : list string) (src : string) (done : list string) (uc uv : gset string) : Prop := {
  ue_variables : ∀ n, n ∈ uv ↔ needs D exprs n ∨ ∃ y, y ∈ done ∧ rtc (depends D) y n;
  ue_constants : ∀ c, c ∈ uc ↔ (∃ e, e ∈ exprs ++ [src] ∧ c ∈ expr_constants e) ∨ (∃ n sr, n ∈ uv ∧ (n, sr) ∈ D_variables D ∧ c ∈ expr_constants sr);
}.

Lemma uses_step D exprs src done y uc uv uc' uv' :
  uv ⊆ uv' → uses D exprs src done uc uv → used_from D y uc uv uc' uv' → uses D exprs src (done ++ [y]) uc' uv'.
Proof.
  intros Hsub [U1 U2] Huf. assert (∀ n, n ∈ uv' ↔ n ∈ uv ∨ rtc (depends D) y n) as Hreach.
  { intros n. eapply used_from_reach; [|exact Hsub|exact Huf]. intros a b. rewrite !U1. intros [Ha|(z & Hz & Hr)] Hd.
    - left. by eapply needs_closed.
    - right. exists z. split; [done|]. by eapply rtc_r. }
  split.
  - intros n. rewrite Hreach, U1. setoid_rewrite elem_of_app. setoid_rewrite list_elem_of_singleton. naive_solver.
  - intros c. rewrite (uf_constants _ _ _ _ _ _ Huf), U2. split.
    + intros [[?|(n & sr & Hn & ?)]|(n & sr & ? & _ & ?)]; [by left|right..]; exists n, sr; [|done]. split; [by apply Hsub|done].
    + intros [?|(n & sr & Hn & ?)]; [by left; left|]. destruct (decide (n ∈ uv)); [left; right|right]; by exists n, sr.
Qed.

Lemma usage_uses D exprs vd src uc uv uc' :
  usage D exprs vd uc uv → (∀ c, c ∈ uc' ↔ c ∈ uc ∨ c ∈ expr_constants src) → uses D exprs src [] uc' uv.
Proof.
  intros Hu Huc'. split.
  - intros n. rewrite (us_used _ _ _ _ _ Hu). setoid_rewrite elem_of_nil. naive_solver.
  - intros c. rewrite Huc', (us_used_constants _ _ _ _ _ Hu). setoid_rewrite (us_used _ _ _ _ _ Hu). unfold needs_constant.
    setoid_rewrite elem_of_app. setoid_rewrite list_elem_of_singleton. naive_solver.
Qed.

Lemma uses_usage D exprs vd src uc uv uc0 uv0 :
  usage D exprs vd uc0 uv0 → uses D exprs src (set_range (expr_variables src)) uc uv → usage D (exprs ++ [src]) vd uc uv.
Proof.
  intros [Hc Hv He _ _] [U1 U2]. assert (∀ n, n ∈ uv ↔ needs D (exprs ++ [src]) n) as Hn.
  { intros n. rewrite U1, needs_app. by setoid_rewrite elem_of_set_range. }
  split; [done..|]. intros c. rewrite U2. unfold needs_constant. by setoid_rewrite Hn.
Qed.

Lemma expression_used D exprs s mc src :
  module_state D exprs s →
  cspec (_ ← constants_Use mc (checked src); variables_Use mc (checked src)) s (refs_in D src) (λ _, module_state D (exprs ++ [src])).
Proof.
  intros (cd & vd & uc & uv & Ec & Ev & Hcd & (l & Hl & Hvd) & Euc & Euv & Hu).
  assert (ustate cd vd uc uv s) as Hs. { split; [rewrite Ec; destruct cd|rewrite Ev; destruct vd]; cbn in *; by subst. }
  eapply cspec_iff; [eapply cspec_bind; [by eapply constants_Use_spec|]|].
  - cbn beta. intros [] s1 E1 (uc1 & Hs1 & Huc1). eapply cspec_bind.
    { apply variables_references_spec. intros s2 Hmono Ec2 Ev2.
      instantiate (1 := λ x s2, x = (expr_constants src, expr_variables src) ∧ ustate cd vd uc1 uv s2). split; [done|]. by eapply ustate_frame. }
    intros ? s2 E2 [-> Hs2]. cbn [snd]. eapply cspec_mono.
    + apply (cspec_forST (λ done s', ∃ uc' uv', ustate cd vd uc' uv' s' ∧ uv ⊆ uv' ∧ (ok s' → uses D exprs src done uc' uv')) (λ y, y ∈ l.*1)).
      { exists uc1, uv. split; [done|]. split; [done|]. intros Hok. eapply usage_uses; [apply Hu|apply Huc1]; tauto. }
      intros done y rest s3 _ Hmono3 (uc3 & uv3 & Hs3 & Hsub3 & Huses).
      eapply cspec_bind_T; [eapply cspec_the_variables with (Q := λ x s', x = vd_with vd uv3 ∧ s' = s3); [apply Hs3|done]|].
      intros ? ? _ [-> ->]. cbn [vd_ids vd_with]. destruct (vd_ids vd !! y) as [id|] eqn:Ey.
      * destruct (vdh_ids _ _ Hvd _ _ Ey) as [sr Hid]. apply cspec_holds.
        2: { intros _. apply list_elem_of_fmap. exists (y, sr). split; [done|]. by eapply list_elem_of_lookup_2. }
        eapply cspec_mono; [eapply (variables_use_spec D l cd vd mc _ Hvd Hl Hcd id y uc3 uv3); [|by exists sr| |exact Hs3]|].
        -- intros Hok3. destruct Hu as [_ ? ? _ _]; [tauto|]. done.
        -- rewrite <-size_dom. apply Nat.lt_succ_r, subseteq_size. clear. set_solver.
        -- intros [] s4 E4 (uc4 & uv4 & Hs4 & Hsub4 & Huf). exists uc4, uv4. split; [done|]. split; [by transitivity uv3|].
           intros Hok4. eapply uses_step; [exact Hsub4|apply Huses; tauto|by apply Huf].
      * apply cspec_fails. 2: { intros Hy. destruct (vdh_names _ _ Hvd _ Hy) as [? ?]. congruence. }
        apply cspec_addErr. intros s4 Ec4 Ev4 Hn. exists uc3, uv3. split; [by eapply ustate_frame|done].
    + intros [] s3 E3 (uc3 & uv3 & [Ec3 Ev3] & _ & Huses). exists (cd_with cd uc3), (vd_with vd uv3), uc3, uv3.
      do 2 (split; [done|]). split; [by destruct Hcd|]. split; [exists l; split; [done|]; by apply vd_exact_used|]. do 2 (split; [done|]).
      intros Hok3. assert (usage D exprs vd uc uv) as Hu' by (apply Hu; tauto).
      destruct (uses_usage _ _ _ _ _ _ _ _ Hu' (Huses Hok3)). by split.
  - intros _. rewrite Forall_forall. setoid_rewrite elem_of_set_range. setoid_rewrite Hl. split.
    + intros ((? & ?) & ? & ?). by split.
    + intros [? ? ?]. done.
Qed.
End use.

(** * What a module lists

    What a module lists: the constants its expressions need, and the variables
    they need in an order in which no variable refers to a later one. *)

Lemma StronglySorted_lookup_2 {A} (R : relation A) l :
  (∀ i j a b, i < j → l !! i = Some a → l !! j = Some b → R a b) → StronglySorted R l.
Proof.
  induction l as [|x l IH]; intros Hl; constructor.
  - apply IH. intros i j a b Hij Ha Hb. apply (Hl (S i) (S j)); [lia|done..].
  - apply Forall_forall. intros y [j Hj]%list_elem_of_lookup. apply (Hl 0 (S j)); [lia|done..].
Qed.

Lemma StronglySorted_lookup_lt {A} (R : relation A) l i j a b :
  StronglySorted R l → l !! i = Some a → l !! j = Some b → i < j → R a b.
Proof.
  intros Hs. revert i j. induction Hs as [|x l _ IH Hx]; intros i j Hi Hj Hij; [done|].
  destruct j as [|j]; [lia|]. destruct i as [|i]; [|apply (IH i j); [done..|lia]].
  injection Hi as ->. rewrite Forall_forall in Hx. apply Hx. by eapply list_elem_of_lookup_2.
Qed.

Lemma StronglySorted_fmap {A B} (f : A → B) (R : relation B) l : StronglySorted R (f <$> l) ↔ StronglySorted (λ x y, R (f x) (f y)) l.
Proof.
  induction l as [|x l IH]; [split; constructor|]. cbn [fmap list_fmap].
  split; intros [Hs Hx]%StronglySorted_inv; constructor; [by apply IH| |by apply IH|]; by apply Forall_fmap.
Qed.

Lemma StronglySorted_filter {A} (P : A → Prop) `{∀ x, Decision (P x)} (R : relation A) l : StronglySorted R l → StronglySorted R (filter P l).
Proof.
  induction 1 as [|x l Hl IH Hx]; [constructor|]. destruct (decide (P x)).
  - rewrite filter_cons_True by done. constructor; [done|]. rewrite Forall_forall in *. intros y [_ Hy]%list_elem_of_filter. by apply Hx.
  - by rewrite filter_cons_False.
Qed.

(** * Acyclic definitions *)

Section acyclic.
Context `{CelChecker}.

Definition acyclic (D : Defs) : Prop := ∀ x, ¬ tc (depends D) x x.

(** The variables that expressions need, in an order that can be evaluated. *)
Record listed (D : Defs) (exprs : list string) (k : list (string * string)) : Prop := {
  ls_names : NoDup k.*1;
  ls_needed : ∀ d, d ∈ k ↔ d ∈ D_variables D ∧ needs D exprs d.1;
  ls_order : StronglySorted (λ x y, ¬ depends D x.1 y.1) k;
}.
Definition runnable (d : string * string) : Variable_ := MkVariable d.1 (MkExpr d.2).
Lemma runnable_compiled d : runnable_variable (compiled_var d) = runnable d.
Proof. done. Qed.

(** The constants that expressions need. *)
Definition listed_constants (D : Defs) (exprs : list string) (m : gmap string Value) : Prop :=
  ∀ c v, m !! c = Some v ↔ (c, v) ∈ D_constants D ∧ needs_constant D exprs c.
End acyclic.

Section list.
Context `{CelChecker} `{GL : !GraphLaws G} `{GoMapOrder}.
Implicit Types (s : CS) (D : Defs) (mc : moduleCtx) (vd : variableDefinitions) (k l : list (string * string)).

Lemma depends_declared D x y : variables_resolved D → depends D x y → x ∈ (D_variables D).*1 ∧ y ∈ (D_variables D).*1.
Proof.
  intros [_ Hres] (src & Hin & Hy). rewrite Forall_forall in Hres. destruct (Hres _ Hin) as [[_ _ Hv] _]. split; [|by apply Hv].
  apply list_elem_of_fmap. by exists (x, src).
Qed.

(** Nodes of declared variables, by name. *)
Lemma vd_exact_named l vd n i :
  vd_exact l vd → vd_ids vd !! n = Some i → ∃ a, g_nodes (vd_graph vd) !! i = Some a ∧ vn_id a = i ∧ vn_Name a = n.
Proof.
  intros Hvd Hi. destruct (vdh_ids _ _ Hvd _ _ Hi) as [src Hsrc]. destruct (vd_exact_get _ _ _ _ Hvd Hsrc) as (a & Ea & Hv).
  rewrite graph_Node_ok in Ea by apply Hvd. exists a. destruct (vdh_node _ _ Hvd _ _ Ea) as (Eid & _). do 2 (split; [done|]).
  unfold vn_Name. by rewrite Hv.
Qed.

Lemma named_vd_exact l vd i a :
  vd_exact l vd → NoDup l.*1 → g_nodes (vd_graph vd) !! i = Some a → vn_id a = i ∧ vd_ids vd !! vn_Name a = Some i.
Proof.
  intros Hvd Hnd Ha. destruct (vdh_node _ _ Hvd _ _ Ha) as (Eid & [n src] & Hd & Hv). split; [done|]. unfold vn_Name. rewrite Hv. cbn.
  destruct (vdh_names _ _ Hvd n) as [j Hj]. { apply list_elem_of_fmap. exists (n, src). split; [done|]. by eapply list_elem_of_lookup_2. }
  rewrite Hj. f_equal. apply N2Nat.inj. by eapply vd_ids_unique.
Qed.

Lemma edges_depend D l vd i j a b :
  vd_exact l vd → NoDup l.*1 → edges_exact D vd → g_nodes (vd_graph vd) !! i = Some a → g_nodes (vd_graph vd) !! j = Some b →
  (i, j) ∈ g_edges (vd_graph vd) ↔ depends D (vn_Name b) (vn_Name a).
Proof.
  intros Hvd Hnd He Ha Hb. destruct (named_vd_exact _ _ _ _ Hvd Hnd Ha) as [_ Ia], (named_vd_exact _ _ _ _ Hvd Hnd Hb) as [_ Ib].
  rewrite (He i j). split; [|intros Hd; by exists (vn_Name b), (vn_Name a)]. intros (x & y & Hd & Hx & Hy).
  destruct (vd_exact_named _ _ _ _ Hvd Hx) as (b' & Hb' & _ & <-), (vd_exact_named _ _ _ _ Hvd Hy) as (a' & Ha' & _ & <-). congruence.
Qed.

(** A cycle of references is a cycle of the graph, and the other way around. *)
Lemma tc_depends_edges D l vd x y i j :
  vd_exact l vd → l ≡ₚ D_variables D → variables_resolved D → edges_exact D vd →
  vd_ids vd !! x = Some i → vd_ids vd !! y = Some j → tc (depends D) x y → tc (λ a b, (a, b) ∈ g_edges (vd_graph vd)) j i.
Proof.
  intros Hvd Hl Hres He. intros Hi Hj Hxy. revert i Hi. induction Hxy as [x y Hd|x z y Hd Hzy IH]; intros i Hi.
  - apply tc_once, He. by exists x, y.
  - destruct (depends_declared _ _ _ Hres Hd) as [_ Hz]. rewrite <-Hl in Hz. destruct (vdh_names _ _ Hvd _ Hz) as [m Hm].
    eapply tc_r; [by apply IH|]. apply He. by exists x, z.
Qed.

Lemma tc_edges_depends D vd i j x y :
  edges_exact D vd → (∀ n m a, vd_ids vd !! n = Some a → vd_ids vd !! m = Some a → n = m) →
  vd_ids vd !! x = Some i → vd_ids vd !! y = Some j → tc (λ a b, (a, b) ∈ g_edges (vd_graph vd)) j i → tc (depends D) x y.
Proof.
  intros He Hinj Hi Hj Hji. revert y Hj. induction Hji as [j i Hd|j k i Hd Hki IH]; intros y Hj.
  - apply He in Hd as (x' & y' & Hd & Hx & Hy). apply tc_once. by rewrite (Hinj _ _ _ Hi Hx), (Hinj _ _ _ Hj Hy).
  - apply He in Hd as (x' & y' & Hd & Hx & Hy). eapply tc_r; [by apply IH|]. by rewrite (Hinj _ _ _ Hj Hy).
Qed.

Lemma vd_ids_inj l vd n m i : vd_exact l vd → vd_ids vd !! n = Some i → vd_ids vd !! m = Some i → n = m.
Proof. intros Hvd Hn Hm. destruct (vdh_ids _ _ Hvd _ _ Hn) as [? ?], (vdh_ids _ _ Hvd _ _ Hm) as [? ?]. congruence. Qed.

Lemma sortVariablesByName_perm ns : sortVariablesByName ns ≡ₚ ns.
Proof. apply merge_sort_Permutation. Qed.

Section sorted.
Context (D : Defs) (l : list (string * string)) (vd : variableDefinitions).
Context (Hvd : vd_exact l vd) (Hl : l ≡ₚ D_variables D) (Hres : variables_resolved D) (He : edges_exact D vd).

Lemma declared_NoDup : NoDup l.*1.
Proof using Hl Hres. rewrite Hl. apply Hres. Qed.

Lemma acyclic_graph : acyclic D → ∀ i, ¬ tc (λ i j, (i, j) ∈ g_edges (vd_graph vd)) i i.
Proof using Hvd He.
  intros Hac i Hi. assert (∃ n, vd_ids vd !! n = Some i) as [n Hn].
  { inversion Hi as [? ? E|? k ? E _]; subst; apply He in E as (x & y & _ & _ & Hy); by exists y. }
  apply (Hac n). eapply tc_edges_depends; [exact He| |exact Hn|exact Hn|exact Hi]. intros ? ? ? ? ?. by eapply vd_ids_inj.
Qed.

Context (ns : list variableNode) (Hns : SortStabilized (vd_graph vd) sortVariablesByName = inr ns).

Lemma sorted_nodes n : n ∈ ns ↔ g_nodes (vd_graph vd) !! vn_id n = Some n.
Proof using Hvd Hns.
  destruct (SortStabilized_sorted _ _ _ (vdh_ok _ _ Hvd) sortVariablesByName_perm Hns) as [Hp _]. rewrite Hp, list_elem_of_fmap. split.
  - intros ([i n'] & -> & Hin%elem_of_map_to_list). cbn. destruct (vdh_node _ _ Hvd _ _ Hin) as (-> & _). done.
  - intros Hn. exists (vn_id n, n). split; [done|]. by apply elem_of_map_to_list.
Qed.

Lemma sorted_positions i j : tc (λ i j, (i, j) ∈ g_edges (vd_graph vd)) i j →
  ∀ p q a b, ns !! p = Some a → ns !! q = Some b → vn_id a = i → vn_id b = j → p < q.
Proof using Hvd He Hns.
  destruct (SortStabilized_sorted _ _ _ (vdh_ok _ _ Hvd) sortVariablesByName_perm Hns) as [_ Hord].
  induction 1 as [i j E|i k j E Hkj IH]; intros p q a b Ha Hb Ea Eb.
  - eapply Hord; [exact Ha|exact Hb|]. by rewrite Ea, Eb.
  - pose proof E as (x & y & _ & Hx & _)%He. destruct (vd_exact_named _ _ _ _ Hvd Hx) as (c & Hc & Ec & _).
    assert (c ∈ ns) as [r Hr]%list_elem_of_lookup by (apply sorted_nodes; by rewrite Ec).
    transitivity r; [eapply Hord; [exact Ha|exact Hr|by rewrite Ea, Ec]|by eapply IH].
Qed.

Lemma sorted_acyclic : acyclic D.
Proof using All.
  intros x Hx. assert (x ∈ l.*1) as Hin.
  { rewrite Hl. inversion Hx as [? ? E|? ? ? E _]; subst; by apply (depends_declared _ _ _ Hres) in E as [? _]. }
  destruct (vdh_names _ _ Hvd _ Hin) as [i Hi]. destruct (vd_exact_named _ _ _ _ Hvd Hi) as (a & Ha & Ea & _).
  assert (a ∈ ns) as [p Hp]%list_elem_of_lookup by (apply sorted_nodes; by rewrite Ea).
  pose proof (tc_depends_edges _ _ _ _ _ _ _ Hvd Hl Hres He Hi Hi Hx) as Hc.
  pose proof (sorted_positions _ _ Hc _ _ _ _ Hp Hp Ea Ea). lia.
Qed.

Lemma sorted_listed : ∃ k, vn_Variable <$> ns = compiled_var <$> k ∧ k ≡ₚ D_variables D ∧ StronglySorted (λ x y, ¬ depends D x.1 y.1) k.
Proof using All.
  destruct (SortStabilized_sorted _ _ _ (vdh_ok _ _ Hvd) sortVariablesByName_perm Hns) as [Hp Hord].
  destruct (vd_exact_nodes _ _ Hvd) as (L & HL & HLv & _).
  assert (vn_Variable <$> ns ≡ₚ map compiled_var l) as Hpv.
  { change (map compiled_var l) with (compiled_var <$> l). rewrite <-HLv, <-HL. by apply fmap_Permutation. }
  apply Permutation_map_inv in Hpv as (k & Hk & Hpk). exists k. split; [done|]. split; [by rewrite <-Hpk|].
  apply StronglySorted_lookup_2. intros i j x y Hij Hx Hy Hd.
  assert (∀ i d, k !! i = Some d → ∃ a, ns !! i = Some a ∧ vn_Name a = d.1 ∧ g_nodes (vd_graph vd) !! vn_id a = Some a) as Hnode.
  { intros i' d Hd'. assert ((vn_Variable <$> ns) !! i' = Some (compiled_var d)) as E by (rewrite Hk; by rewrite list_lookup_fmap, Hd').
    rewrite list_lookup_fmap in E. apply fmap_Some in E as (a & Ha & Ev). exists a. split; [done|]. split; [unfold vn_Name; by rewrite <-Ev|].
    apply sorted_nodes. by eapply list_elem_of_lookup_2. }
  destruct (Hnode _ _ Hx) as (a & Ha & Na & Ga), (Hnode _ _ Hy) as (b & Hb & Nb & Gb).
  enough (j < i) by lia. eapply Hord; [exact Hb|exact Ha|]. apply (edges_depend D l vd _ _ b a); [done|apply declared_NoDup|done..|].
  by rewrite Na, Nb.
Qed.
End sorted.

(** ** Listing *)

Lemma module_state_error D exprs exprs' s s' :
  module_state D exprs s → st_constants s' = st_constants s → st_variables s' = st_variables s → ¬ ok s' → module_state D exprs' s'.
Proof.
  intros (cd & vd & uc & uv & Ec & Ev & Hcd & Hvd & Euc & Euv & _) Ec' Ev' Hn. exists cd, vd, uc, uv. rewrite Ec', Ev'. do 6 (split; [done|]). done.
Qed.

Lemma reportCyclicalVariables_spec mc cs s :
  cs ≠ [] → cspec (reportCyclicalVariables mc cs) s False (λ _ s', st_constants s' = st_constants s ∧ st_variables s' = st_variables s).
Proof.
  intros Hcs. eapply cspec_iff.
  - apply (cspec_forST_inv (λ s', st_constants s' = st_constants s ∧ st_variables s' = st_variables s) (λ _, False)); [done|].
    intros c s' _ _ [Ec Ev]. destruct (sortVariablesByName c); apply cspec_addErr; intros s'' -> ->; done.
  - intros _. split; [|done]. intros Hall. destruct cs as [|c cs]; [done|]. by inversion Hall.
Qed.

Lemma variables_Used_spec D exprs mc s :
  module_state D exprs s →
  cspec (variables_Used mc) s (acyclic D) (λ vs s', module_state D exprs s' ∧ (ok s' → ∃ k, runnable_variable <$> vs = runnable <$> k ∧ listed D exprs k)).
Proof.
  intros Hs. pose proof Hs as (cd & vd & uc & uv & Ec & Ev & Hcd & (l & Hl & Hvd) & Euc & Euv & Hu).
  unfold variables_Used, variables_list. eapply cspec_bind_T; [by eapply cspec_the_variables with (Q := λ x s', x = vd ∧ s' = s)|].
  intros ? ? _ [-> ->]. destruct (SortStabilized (vd_graph vd) sortVariablesByName) as [cs|ns] eqn:Hns.
  - eapply cspec_iff; [eapply cspec_bind with (P2 := True); [apply reportCyclicalVariables_spec; by eapply SortStabilized_cycles|]|].
    + intros [] s1 E1 [Ec1 Ev1]. apply cspec_ret. split; [|tauto]. eapply module_state_error; [exact Hs|done..|tauto].
    + intros Hok. split; [tauto|]. intros Hac. destruct (Hu Hok) as [_ Hres He _ _].
      destruct (SortStabilized_acyclic (vd_graph vd) sortVariablesByName) as [ns Hns'];
        [apply Hvd|apply sortVariablesByName_perm|by eapply acyclic_graph|congruence].
  - apply cspec_holds; [|intros Hok; destruct (Hu Hok) as [_ Hres He _ _]; by eapply sorted_acyclic].
    apply cspec_ret. split; [done|]. intros Hok. destruct (Hu Hok) as [_ Hres He Huv _].
    destruct (sorted_listed D l vd Hvd Hl Hres He ns Hns) as (k & Hk & Hp & Hsorted).
    exists (filter (λ d, d.1 ∈ uv) k). split.
    + rewrite Hk, Euv. cbn [from_option]. unfold id. clear. induction k as [|d k IH]; [done|].
      rewrite fmap_cons, !filter_cons. cbn [compiled_var cv_Name]. destruct (decide (d.1 ∈ uv)) as [Hd|Hd].
      * rewrite decide_True by (by left). by rewrite !fmap_cons, IH.
      * rewrite decide_False by (intros [?|?]; done). done.
    + split.
      * eapply sublist_NoDup; [|apply fmap_sublist, sublist_filter]. rewrite Hp. apply Hres.
      * intros d. rewrite list_elem_of_filter, Hp, Huv. tauto.
      * by apply StronglySorted_filter.
Qed.

Lemma constants_Used_spec D exprs s :
  module_state D exprs s →
  cspec constants_Used s True (λ m s', module_state D exprs s' ∧ (ok s' → listed_constants D exprs m)).
Proof.
  intros Hs. pose proof Hs as (cd & vd & uc & uv & Ec & Ev & Hcd & (l & Hl & Hvd) & Euc & Euv & Hu).
  eapply cspec_bind_T; [by eapply cspec_the_constants with (Q := λ x s', x = cd ∧ s' = s)|]. intros ? ? _ [-> ->].
  apply cspec_ret. split; [done|]. intros Hok c v. destruct (Hu Hok) as [Hnd _ _ _ Huc].
  rewrite map_lookup_filter_Some, (cd_holds_values _ cd _ _ Hcd Hnd), Euc. cbn. by rewrite Huc.
Qed.
End list.
