(* ===== verification/CompileRuleSpec.v ===== *)
(** What compiling conditions, outputs and rules comes to, and when it reports no
    error: the expressions compile and refer to what is in scope. *)
From S2P Require Import Prelude Namer Policy ScopePerms IndexQuery IndexQuerySpec ParentRoles RuleTableBuild PlanExpr CompileSource CompileDefs Compile CompileSpec CompileVarSpec.

Local Open Scope string_scope.
Local Open Scope list_scope.
Open Scope nat_scope.

(** * Conditions *)

Section Match_ind'.
Context (P : policyv1.Match → Prop).
Context (P_Expr : ∀ e, P (policyv1.Match_Expr e)) (P_unset : P policyv1.Match_unset).
Context (P_All : ∀ l, Forall P l → P (policyv1.Match_All l)).
Context (P_Any : ∀ l, Forall P l → P (policyv1.Match_Any l)) (P_None : ∀ l, Forall P l → P (policyv1.Match_None l)).
Fixpoint Match_ind' (m : policyv1.Match) : P m :=
  let all := fix go l : Forall P l := match l with [] => Forall_nil_2 P | m :: l => Forall_cons_2 P m l (Match_ind' m) (go l) end in
  match m with
  | policyv1.Match_Expr e => P_Expr e
  | policyv1.Match_All l => P_All l (all l)
  | policyv1.Match_Any l => P_Any l (all l)
  | policyv1.Match_None l => P_None l (all l)
  | policyv1.Match_unset => P_unset
  end.
End Match_ind'.

(** The expressions of a condition, whether its operators are set, and the
    condition of the rule table it stands for. *)
Fixpoint match_exprs (m : policyv1.Match) : list string :=
  match m with
  | policyv1.Match_Expr e => [e]
  | policyv1.Match_All l | policyv1.Match_Any l | policyv1.Match_None l => l ≫= match_exprs
  | policyv1.Match_unset => []
  end.
Fixpoint match_set (m : policyv1.Match) : bool :=
  match m with
  | policyv1.Match_Expr _ => true
  | policyv1.Match_All l | policyv1.Match_Any l | policyv1.Match_None l => forallb match_set l
  | policyv1.Match_unset => false
  end.
Fixpoint runnable_match (m : policyv1.Match) : Condition :=
  match m with
  | policyv1.Match_Expr e => Cond_Expr (MkExpr e)
  | policyv1.Match_All l => Cond_All (runnable_match <$> l)
  | policyv1.Match_Any l => Cond_Any (runnable_match <$> l)
  | policyv1.Match_None l => Cond_None (runnable_match <$> l)
  | policyv1.Match_unset => Cond_unset
  end.

Definition condition_exprs (c : option policyv1.Condition) : list string :=
  match c with Some (policyv1.Condition_Match (Some m)) => match_exprs m | _ => [] end.
Definition condition_set (c : option policyv1.Condition) : bool :=
  match c with
  | None | Some (policyv1.Condition_Match None) => true
  | Some (policyv1.Condition_Match (Some m)) => match_set m
  | Some _ => false
  end.
Definition runnable_condition (c : option policyv1.Condition) : option Condition :=
  match c with Some (policyv1.Condition_Match (Some m)) => Some (runnable_match m) | _ => None end.

(** * Outputs *)

Definition set_exprs (s : string) : list string := if decide (s ≠ "") then [s] else [].
Definition output_exprs (o : option policyv1.Output) : list string :=
  match o with
  | None => []
  | Some o => set_exprs (policyv1.out_Expr o) ++ set_exprs (policyv1.GetRuleActivated (policyv1.out_When o)) ++
              set_exprs (policyv1.GetConditionNotMet (policyv1.out_When o))
  end.
Definition output_set (o : option policyv1.Output) : Prop := is_Some o → output_exprs o ≠ [].
Definition runnable_output (o : option policyv1.Output) : option Output :=
  o ← o;
  Some (MkOutput (Some (MkWhen (MkExpr <$> last (set_exprs (policyv1.out_Expr o) ++ set_exprs (policyv1.GetRuleActivated (policyv1.out_When o))))
                               (MkExpr <$> head (set_exprs (policyv1.GetConditionNotMet (policyv1.out_When o))))))).

Section rules.
Context `{CelChecker} `{GL : !GraphLaws G} `{GoMapOrder}.
Implicit Types (s : CS) (D : Defs) (mc : moduleCtx) (exprs : list string).

(** An expression that compiles and refers to what is in scope. *)
Definition expr_ok D (src : string) : Prop := is_Some (checked src) ∧ refs_in D src.

Lemma compileCELExpr_spec D exprs mc src s :
  module_state D exprs s →
  cspec (compileCELExpr mc src true) s (expr_ok D src) (λ x s', x = MkCompiled src (checked src) ∧ module_state D (exprs ++ [src]) s').
Proof.
  intros Hs. unfold compileCELExpr, expr_ok. pose proof (expression_used D exprs s mc src Hs) as Huse. unfold checked in *.
  assert (∀ err names, cspec (_ ← addErr (mc_sourceFile mc) err names; mret (MkCompiled src None)) s False
    (λ x s', x = MkCompiled src None ∧ module_state D (exprs ++ [src]) s')) as Herr.
  { intros err names. eapply cspec_iff; [eapply cspec_bind with (P1 := False) (P2 := True) (Q1 := λ _ s', module_state D (exprs ++ [src]) s')|tauto].
    - apply cspec_addErr. intros s' Ec Ev Hn. by eapply module_state_error.
    - intros [] s' _ Hs'. by apply cspec_ret. }
  destruct (cel_Compile src) as [a|]; cbn [mbind option_bind] in *; [destruct (AstToCheckedExpr a) as [c|]|].
  - eapply cspec_iff; [eapply cspec_bind with (P2 := True); [exact Huse|]|].
    + intros [] s' _ Hs'. by apply cspec_ret.
    + intros _. split; [intros [? _]; by split|by intros [_ ?]].
  - eapply cspec_fails; [apply Herr|]. by intros [[? ?] _].
  - eapply cspec_fails; [apply Herr|]. by intros [[? ?] _].
Qed.

(** * Conditions *)

Definition match_spec D mc (m : policyv1.Match) : Prop := ∀ exprs s, module_state D exprs s →
  cspec (compileMatch mc m true) s (match_set m ∧ Forall (expr_ok D) (match_exprs m))
    (λ x s', (ok s' → x = Some (runnable_match m)) ∧ module_state D (exprs ++ match_exprs m) s').

Lemma compileMatchList_spec D mc l exprs s :
  Forall (match_spec D mc) l → module_state D exprs s →
  cspec (mapST (λ m, compileMatch mc m true) l) s (forallb match_set l ∧ Forall (expr_ok D) (l ≫= match_exprs))
    (λ xs s', (ok s' → default Cond_unset <$> xs = runnable_match <$> l) ∧ module_state D (exprs ++ (l ≫= match_exprs)) s').
Proof.
  intros Hl Hs. rewrite Forall_forall in Hl. eapply cspec_mono; [eapply cspec_iff|].
  - apply (cspec_mapST (λ k, module_state D (exprs ++ (k ≫= match_exprs))) (λ m, match_set m ∧ Forall (expr_ok D) (match_exprs m))
      (λ m x, x = Some (runnable_match m))); [by rewrite app_nil_r|].
    intros done m rest s' El _ Hs'. eapply cspec_mono; [apply Hl; [rewrite El; apply elem_of_app; right; left|exact Hs']|].
    intros x s'' _ [Hx Hs'']. split; [done|]. rewrite bind_app. cbn [mbind list_bind]. by rewrite app_nil_r, app_assoc.
  - intros _. clear. induction l as [|m l IH]; [cbn; by split; [split|constructor]|]. rewrite Forall_cons, IH. cbn [forallb mbind list_bind].
    rewrite Forall_app. unfold Is_true at 3. destruct (match_set m), (forallb match_set l); cbn; tauto.
  - intros xs s' _ [Hxs Hs']. split; [|done]. intros Hok. specialize (Hxs Hok). clear -Hxs.
    induction Hxs as [|m x l xs -> _ IH]; [done|]. by rewrite !fmap_cons, IH.
Qed.

Lemma compileMatch_spec D mc m : match_spec D mc m.
Proof.
  induction m as [e| |l IH|l IH|l IH] using Match_ind'; intros exprs s Hs; cbn [compileMatch match_set match_exprs runnable_match].
  2: { apply cspec_fails; [|tauto]. eapply cspec_iff; [eapply cspec_bind with (P1 := False) (P2 := True) (Q1 := λ _ s', ¬ ok s' ∧ module_state D (exprs ++ []) s')|tauto].
       - apply cspec_addErr. intros s' Ec Ev Hn. split; [done|]. by eapply module_state_error.
       - intros [] s' _ [Hn Hs']. by apply cspec_ret. }
  1: { eapply cspec_iff; [eapply cspec_bind with (P2 := True); [by apply compileCELExpr_spec|]|].
       - intros x s' _ [-> Hs']. by apply cspec_ret.
       - intros _. rewrite Forall_singleton. split; [intros [? _]; by split|by intros [_ ?]]. }
  all: eapply cspec_iff; [eapply cspec_bind with (P2 := True); [by apply compileMatchList_spec|]|tauto].
  all: intros xs s' _ [Hxs Hs']; apply cspec_ret; split; [|done]; intros Hok; by rewrite Hxs.
Qed.

Definition condition_ok D (c : option policyv1.Condition) : Prop := condition_set c ∧ Forall (expr_ok D) (condition_exprs c).

Lemma compileCondition_spec D exprs mc c s :
  module_state D exprs s →
  cspec (compileCondition mc c true) s (condition_ok D c)
    (λ x s', (ok s' → x = runnable_condition c) ∧ module_state D (exprs ++ condition_exprs c) s').
Proof.
  intros Hs. assert (∀ err, cspec (_ ← addErr (mc_sourceFile mc) err []; mret None) s False
    (λ (x : option Condition) s', (ok s' → x = None) ∧ module_state D (exprs ++ []) s')) as Herr.
  { intros err. eapply cspec_iff; [eapply cspec_bind with (P1 := False) (P2 := True) (Q1 := λ _ s', module_state D (exprs ++ []) s')|tauto].
    - apply cspec_addErr. intros s' Ec Ev Hn. by eapply module_state_error.
    - intros [] s' _ Hs'. by apply cspec_ret. }
  unfold condition_ok. destruct c as [[[m|]|script|]|]; cbn [compileCondition condition_set condition_exprs runnable_condition].
  - by apply compileMatch_spec.
  - eapply cspec_holds; [apply cspec_ret|by split]. by rewrite app_nil_r.
  - eapply cspec_fails; [apply Herr|tauto].
  - eapply cspec_fails; [apply Herr|tauto].
  - eapply cspec_holds; [apply cspec_ret|by split]. by rewrite app_nil_r.
Qed.

(** * Outputs *)

Definition output_ok D (o : option policyv1.Output) : Prop := output_set o ∧ Forall (expr_ok D) (output_exprs o).

Lemma when_set_spec D exprs mc e s :
  module_state D exprs s →
  cspec (when_set e (compileCELExpr mc e true)) s (Forall (expr_ok D) (set_exprs e))
    (λ x s', runnable_expr <$> x = MkExpr <$> head (set_exprs e) ∧ module_state D (exprs ++ set_exprs e) s').
Proof.
  intros Hs. unfold when_set, set_exprs. destruct (decide (e ≠ "")).
  - eapply cspec_iff; [eapply cspec_bind with (P2 := True); [by apply compileCELExpr_spec|]|].
    + intros x s' _ [-> Hs']. by apply cspec_ret.
    + intros _. rewrite Forall_singleton. tauto.
  - eapply cspec_holds; [apply cspec_ret|by intros _; constructor]. by rewrite app_nil_r.
Qed.

Lemma compileOutput_spec D exprs mc o s :
  module_state D exprs s →
  cspec (compileOutput mc o) s (output_ok D o)
    (λ x s', (ok s' → x = runnable_output o) ∧ module_state D (exprs ++ output_exprs o) s').
Proof.
  intros Hs. unfold output_ok, output_set. destruct o as [o|]; cbn [compileOutput output_exprs].
  2: { eapply cspec_holds; [apply cspec_ret|intros _; split; [by intros [? ?]|constructor]]. by rewrite app_nil_r. }
  set (e := policyv1.out_Expr o). set (a := policyv1.GetRuleActivated _). set (n := policyv1.GetConditionNotMet _).
  eapply cspec_iff; [eapply cspec_bind; [by apply when_set_spec|]|].
  - cbn beta. intros xe s1 _ [Hxe Hs1]. eapply cspec_bind; [by apply when_set_spec|].
    cbn beta. intros xa s2 _ [Hxa Hs2]. eapply cspec_bind; [by apply when_set_spec|].
    cbn beta. intros xn s3 _ [Hxn Hs3]. rewrite <-!app_assoc in Hs3.
    apply cspec_bind with (P1 := ¬ (e = "" ∧ a = "" ∧ n = "")) (P2 := True)
      (Q1 := λ _ s', module_state D (exprs ++ set_exprs e ++ set_exprs a ++ set_exprs n) s').
    + apply cspec_when; [done|]. intros _. apply cspec_addErr. intros s' Ec Ev Hn. by eapply module_state_error.
    + intros [] s4 _ Hs4. apply cspec_ret. split; [|done]. intros _. unfold runnable_output. cbn [mbind option_bind]. fold e a n.
      f_equal. f_equal. f_equal. f_equal; [|done]. revert Hxe Hxa. unfold set_exprs. destruct (decide (e ≠ "")), (decide (a ≠ "")), xe, xa; cbn; congruence.
  - intros _. rewrite !Forall_app. unfold set_exprs. split.
    + intros (He & Ha & Hn & Hne & _). split; [|done]. intros _. destruct (decide (e ≠ "")), (decide (a ≠ "")), (decide (n ≠ "")); try done.
      intros _. apply Hne. repeat split; by apply dec_stable.
    + intros [Hne (He & Ha & Hn)]. do 3 (split; [done|]). split; [|done]. intros (-> & -> & ->). by apply Hne.
Qed.

(** * Rules *)

(** The expressions of something with a condition and an output. *)
Definition body_exprs (c : option policyv1.Condition) (o : option policyv1.Output) : list string := condition_exprs c ++ output_exprs o.
Definition body_ok D (c : option policyv1.Condition) (o : option policyv1.Output) : Prop := condition_ok D c ∧ output_ok D o.

Lemma compile_body_spec {A} D exprs mc c o (k : option Condition → option Output → A) s :
  module_state D exprs s →
  cspec (cond ← compileCondition mc c true; emit ← compileOutput mc o; mret (k cond emit)) s (body_ok D c o)
    (λ x s', (ok s' → x = k (runnable_condition c) (runnable_output o)) ∧ module_state D (exprs ++ body_exprs c o) s').
Proof.
  intros Hs. eapply cspec_bind; [by apply compileCondition_spec|]. cbn beta. intros x s1 E1 [Hx Hs1].
  eapply cspec_iff; [eapply cspec_bind with (P2 := True); [by apply compileOutput_spec|]|tauto].
  cbn beta. intros y s2 E2 [Hy Hs2]. apply cspec_ret. unfold body_exprs. rewrite app_assoc. split; [|done].
  intros Hok. rewrite Hx, Hy; [done..|]. tauto.
Qed.

(** ** Resource rules *)

Definition resource_rule_exprs (r : policyv1.ResourceRule) : list string := body_exprs (policyv1.rrule_Condition r) (policyv1.rrule_Output r).
Definition resource_rule_ok D (r : policyv1.ResourceRule) : Prop :=
  ¬ (policyv1.rrule_DerivedRoles r = [] ∧ policyv1.rrule_Roles r = []) ∧ body_ok D (policyv1.rrule_Condition r) (policyv1.rrule_Output r).
Definition runnable_resource_rule (name : string) (r : policyv1.ResourceRule) : ResourceRule :=
  MkResourceRule name (list_to_set (policyv1.rrule_Actions r)) (list_to_set (policyv1.rrule_DerivedRoles r))
    (role_set ∅ (policyv1.rrule_Roles r)) (runnable_condition (policyv1.rrule_Condition r)) (policyv1.rrule_Effect r) None
    (runnable_output (policyv1.rrule_Output r)).

Lemma compileResourceRule_spec D exprs mc name r s :
  module_state D exprs s →
  cspec (compileResourceRule mc name r) s (resource_rule_ok D r)
    (λ x s', (ok s' → x = runnable_resource_rule name r) ∧ module_state D (exprs ++ resource_rule_exprs r) s').
Proof.
  intros Hs. apply cspec_bind with (Q1 := λ _ s', module_state D exprs s').
  - apply cspec_when; [done|]. intros _. apply cspec_addErr. intros s' Ec Ev Hn. by eapply module_state_error.
  - intros [] s1 _ Hs1. by apply (compile_body_spec D exprs mc (policyv1.rrule_Condition r) (policyv1.rrule_Output r)
      (λ cond emit, MkResourceRule name (list_to_set (policyv1.rrule_Actions r)) (list_to_set (policyv1.rrule_DerivedRoles r))
          (role_set ∅ (policyv1.rrule_Roles r)) cond (policyv1.rrule_Effect r) None emit)).
Qed.

(** Compiling things one after another. *)
Lemma compile_all_spec {A B} D exprs (f : A → ST CS B) (P : A → Prop) (es : A → list string) (r : A → B) l s :
  (∀ x exprs s, module_state D exprs s → cspec (f x) s (P x) (λ y s', (ok s' → y = r x) ∧ module_state D (exprs ++ es x) s')) →
  module_state D exprs s →
  cspec (mapST f l) s (Forall P l) (λ ys s', (ok s' → ys = r <$> l) ∧ module_state D (exprs ++ (l ≫= es)) s').
Proof.
  intros Hf Hs. eapply cspec_mono.
  - apply (cspec_mapST (λ k, module_state D (exprs ++ (k ≫= es))) P (λ x y, y = r x)); [by rewrite app_nil_r|].
    intros done x rest s' _ _ Hs'. eapply cspec_mono; [by apply Hf|]. intros y s'' _ [Hy Hs'']. split; [done|].
    rewrite bind_app. cbn [mbind list_bind]. by rewrite app_nil_r, app_assoc.
  - intros ys s' _ [Hys Hs']. split; [|done]. intros Hok. specialize (Hys Hok). clear -Hys. by induction Hys as [|x y l ys -> _ ->].
Qed.

(** ** Action rules *)

Definition action_exprs (a : policyv1.PrincipalRule_Action) : list string := body_exprs (policyv1.act_Condition a) (policyv1.act_Output a).
Definition action_ok D (a : policyv1.PrincipalRule_Action) : Prop := body_ok D (policyv1.act_Condition a) (policyv1.act_Output a).
Definition runnable_action (resource : string) (i : nat) (a : policyv1.PrincipalRule_Action) : ActionRule :=
  MkActionRule (policyv1.act_Action a) (PrincipalResourceActionRuleName a resource (S i)) (runnable_condition (policyv1.act_Condition a))
    (policyv1.act_Effect a) None (runnable_output (policyv1.act_Output a)).

Lemma compileActionRule_spec D exprs mc resource i a s :
  module_state D exprs s →
  cspec (compileActionRule mc resource i a) s (action_ok D a)
    (λ x s', (ok s' → x = runnable_action resource i a) ∧ module_state D (exprs ++ action_exprs a) s').
Proof.
  intros Hs. by apply (compile_body_spec D exprs mc (policyv1.act_Condition a) (policyv1.act_Output a) (λ cond emit,
    MkActionRule (policyv1.act_Action a) (PrincipalResourceActionRuleName a resource (S i)) cond (policyv1.act_Effect a) None emit)).
Qed.

Definition principal_rule_exprs (r : policyv1.PrincipalRule) : list string := policyv1.prule_Actions r ≫= action_exprs.
Definition principal_rule_ok D (r : policyv1.PrincipalRule) : Prop := Forall (action_ok D) (policyv1.prule_Actions r).
Definition runnable_actions (r : policyv1.PrincipalRule) : list ActionRule := imap (runnable_action (policyv1.prule_Resource r)) (policyv1.prule_Actions r).
Definition runnable_principal_rules (l : list policyv1.PrincipalRule) : gmap string (list ActionRule) :=
  foldl (λ m r, <[policyv1.prule_Resource r := runnable_actions r]> m) ∅ l.

Lemma imap_pair_bind {A B} (f : A → list B) l : (imap pair l ≫= λ x, f x.2) = l ≫= f.
Proof. assert (∀ k, ((imap (λ i, pair (k + i)) l) ≫= λ x, f x.2) = l ≫= f) as Hk; [|apply (Hk 0)]. induction l as [|x l IH]; intros k; [done|].
  cbn [imap mbind list_bind]. f_equal. rewrite <-(IH (S k)). f_equal. apply imap_ext. intros i y _. cbn. by rewrite Nat.add_succ_r. Qed.

Lemma Forall_imap_pair {A} (P : A → Prop) l : Forall (λ x, P x.2) (imap pair l) ↔ Forall P l.
Proof.
  rewrite !Forall_forall. split.
  - intros Hl x [i Hi]%list_elem_of_lookup. apply (Hl (i, x)), elem_of_lookup_imap. by exists i, x.
  - intros Hl x (i & y & -> & Hy)%elem_of_lookup_imap. apply Hl. by eapply list_elem_of_lookup_2.
Qed.

Lemma fmap_imap_pair {A B} (f : nat → A → B) l : (λ x, f x.1 x.2) <$> imap pair l = imap f l.
Proof. by rewrite fmap_imap. Qed.

Lemma compilePrincipalRules_spec D exprs mc l s :
  module_state D exprs s →
  cspec (compilePrincipalRules mc l) s (Forall (principal_rule_ok D) l)
    (λ m s', (ok s' → m = runnable_principal_rules l) ∧ module_state D (exprs ++ (l ≫= principal_rule_exprs)) s').
Proof.
  intros Hs. eapply cspec_mono.
  - apply (cspec_foldST (λ k m s', (ok s' → m = runnable_principal_rules k) ∧ module_state D (exprs ++ (k ≫= principal_rule_exprs)) s')).
    { split; [done|]. by rewrite app_nil_r. }
    intros done r rest m s1 _ _ [Hm Hs1]. eapply cspec_iff; [eapply cspec_bind with (P2 := True)|].
    + apply compile_all_spec with (P := λ x, action_ok D x.2) (es := λ x, action_exprs x.2)
        (r := λ x, runnable_action (policyv1.prule_Resource r) x.1 x.2); [|exact Hs1].
      intros [i a] exprs' s' Hs'. by apply compileActionRule_spec.
    + cbn beta. intros ys s2 E2 [Hys Hs2]. apply cspec_ret. split.
      * intros Hok. unfold runnable_principal_rules. rewrite foldl_app. cbn [foldl]. rewrite Hm, Hys by tauto. unfold runnable_actions. by rewrite fmap_imap_pair.
      * rewrite bind_app. cbn [mbind list_bind]. rewrite app_nil_r, app_assoc. by rewrite (imap_pair_bind action_exprs) in Hs2.
    + intros _. rewrite (Forall_imap_pair (action_ok D)). unfold principal_rule_ok. tauto.
  - done.
Qed.

(** ** Role rules *)

Definition role_rule_exprs (r : policyv1.RoleRule) : list string := body_exprs (policyv1.orule_Condition r) (policyv1.orule_Output r).
Definition role_rule_ok D (r : policyv1.RoleRule) : Prop := body_ok D (policyv1.orule_Condition r) (policyv1.orule_Output r).
Definition runnable_role_rule (r : policyv1.RoleRule) : string * RoleRule :=
  (policyv1.orule_Resource r, MkRoleRule (list_to_set (policyv1.orule_AllowActions r)) (runnable_condition (policyv1.orule_Condition r))
                                (runnable_output (policyv1.orule_Output r)) (policyv1.orule_Name r)).

Lemma compileRoleRule_spec D exprs mc r s :
  module_state D exprs s →
  cspec (compileRoleRule mc r) s (role_rule_ok D r)
    (λ x s', (ok s' → x = runnable_role_rule r) ∧ module_state D (exprs ++ role_rule_exprs r) s').
Proof.
  intros Hs. by apply (compile_body_spec D exprs mc (policyv1.orule_Condition r) (policyv1.orule_Output r) (λ cond emit,
    (policyv1.orule_Resource r, MkRoleRule (list_to_set (policyv1.orule_AllowActions r)) cond emit (policyv1.orule_Name r)))).
Qed.
End rules.
