(* ===== verification/CompileModuleSpec.v ===== *)
(** What compiling the modules of a unit comes to: the constants and variables in
    scope, derived roles, and policies with their ancestors. *)
From S2P Require Import Prelude Namer Policy ScopePerms IndexQuery IndexQuerySpec ParentRoles RuleTableBuild PlanExpr CompileSource CompileDefs Compile CompileSpec CompileVarSpec CompileRuleSpec.

Local Open Scope string_scope.
Local Open Scope list_scope.
Open Scope nat_scope.

Section modules.
Context `{CelChecker} `{GL : !GraphLaws G} `{GoMapOrder} `{StringHash}.
Implicit Types (s : CS) (D : Defs) (mc : moduleCtx) (u : CompilationUnit).

(** * Lookups *)

(** Every definition of a unit is a policy of some type. *)
Definition unit_typed u : Prop := ∀ id d, cu_Definitions u !! id = Some d → ∃ p, d = Some p ∧ is_Some (policyv1.p_PolicyType p).

Definition definition_of u (id : ModuleID) : option policyv1.Policy := mjoin (cu_Definitions u !! id).

(** The context of a module. *)
Record context_of (p : policyv1.Policy) mc : Prop := {
  co_def : mc_def mc = p;
  co_fqn : policy_FQN p = Some (mc_fqn mc);
}.

Lemma unit_moduleCtx_spec u id : unit_typed u →
  match definition_of u id with
  | None => unit_moduleCtx u id = Some None
  | Some p => ∃ mc, unit_moduleCtx u id = Some (Some mc) ∧ context_of p mc
  end.
Proof.
  intros Hu. unfold definition_of, unit_moduleCtx. destruct (cu_Definitions u !! id) as [d|] eqn:E; [|done]. cbn.
  destruct (Hu _ _ E) as (p & -> & [pt Hpt]). cbn. unfold policy_FQN, GetSourceFile. rewrite Hpt. cbn [fmap option_fmap option_map mbind option_bind].
  destruct (decide (policyv1.p_SourceFile p ≠ "")); unfold policy_FQN; rewrite ?Hpt; cbn; eexists; (split; [done|]); split; cbn; unfold policy_FQN; by rewrite ?Hpt.
Qed.

(** Looking a module up. *)
Lemma cspec_moduleCtx u id s {A} (k : option moduleCtx → ST CS A) P (Q : A → CS → Prop) :
  unit_typed u →
  (definition_of u id = None → cspec (k None) s P Q) →
  (∀ p mc, definition_of u id = Some p → context_of p mc → cspec (k (Some mc)) s P Q) →
  cspec (mc ← lift (unit_moduleCtx u id); k mc) s P Q.
Proof.
  intros Hu Hnone Hsome. pose proof (unit_moduleCtx_spec u id Hu) as Hid. destruct (definition_of u id) as [p|].
  - destruct Hid as (mc & Emc & Hmc). eapply cspec_bind_T; [by eapply cspec_lift with (Q := λ x s', x = Some mc ∧ s' = s)|].
    intros ? ? _ [-> ->]. by eapply Hsome.
  - eapply cspec_bind_T; [by eapply cspec_lift with (Q := λ x s', x = None ∧ s' = s)|]. intros ? ? _ [-> ->]. by apply Hnone.
Qed.

(** An import exists, is of the right kind and has valid definitions. *)
Definition valid_import {V} (exported : string → option V) (valid : V → Prop) (imp : string) : Prop := ∃ defs, exported imp = Some defs ∧ valid defs.

(** * Constants in scope *)

Definition exported_constants u (imp : string) : option (gmap string Value) :=
  p ← definition_of u (ExportConstantsModuleID imp); policyv1.ec_Definitions <$> policyv1.GetExportConstants p.

(** The declarations in scope: those of the imports, then the local ones. *)
Definition constants_in u (c : option policyv1.Constants) : list (string * Value) :=
  (policyv1.constants_GetImport c ≫= λ imp, go_range (default ∅ (exported_constants u imp))) ++ go_range (policyv1.constants_GetLocal c).

Definition constants_valid (defs : gmap string Value) : Prop := ∀ n, is_Some (defs !! n) → ValidateIdentifier n.
Record constants_ok u (c : option policyv1.Constants) : Prop := {
  co_imports : Forall (valid_import (exported_constants u) constants_valid) (policyv1.constants_GetImport c);
  co_local : constants_valid (policyv1.constants_GetLocal c);
  co_once : NoDup (constants_in u c).*1;
}.

Lemma go_range_empty {V} : go_range (∅ : gmap string V) = [].
Proof. by apply go_range_nil. Qed.

(** An import, compiled in a context of its own. *)
Lemma compileExportConstants_spec mc s :
  st_constants s = None → st_variables s = None →
  cspec (compileExportConstants mc) s (∃ ec, policyv1.GetExportConstants (mc_def mc) = Some ec ∧ constants_valid (policyv1.ec_Definitions ec))
    (λ _ s', ∃ cd, st_constants s' = Some cd ∧ (∃ decls, cd_holds decls cd) ∧
      cd_values cd = default ∅ (policyv1.ec_Definitions <$> policyv1.GetExportConstants (mc_def mc))).
Proof.
  intros Ec Ev. unfold compileExportConstants. eapply cspec_bind_T; [by apply cspec_gets with (Q := λ x s', x = st_constants s ∧ s' = s)|].
  intros ? ? _ [-> ->]. rewrite Ec. eapply cspec_bind_T.
  { apply cspec_set_constants with (Q := λ _ s', cstate [] None None s'). intros s' _ Ec' Ev'. exists newConstantDefinitions.
    rewrite Ec', Ev', Ev. split; [done|]. split; [apply cd_holds_nil|done]. }
  intros [] s1 _ Hs1. destruct (policyv1.GetExportConstants (mc_def mc)) as [ec|].
  - eapply cspec_mono; [eapply cspec_iff; [by apply constants_Compile_spec|]|].
    + intros _. split; [intros Hv; by exists ec|]. by intros (? & [= <-] & ?).
    + intros [] s2 _ (cd & Ec2 & Hcd & _). exists cd. split; [done|]. split; [by eexists|]. apply map_eq. intros n. apply option_eq. intros v.
      rewrite (cd_holds_values _ cd n v Hcd) by apply NoDup_go_range_keys. cbn. by rewrite elem_of_go_range.
  - apply cspec_fails; [|by intros (? & ? & _)]. apply cspec_addErr. intros s2 Ec2 Ev2 _. destruct Hs1 as (cd & Ecd & Hcd & _ & _).
    exists cd. rewrite Ec2. split; [done|]. split; [by exists []|]. apply map_eq. intros n. cbn. rewrite lookup_empty. apply eq_None_not_Some.
    intros Hn%(cd_holds_dom _ _ _ Hcd). by apply elem_of_nil in Hn.
Qed.

Lemma import_constants_spec u mc imp decls s :
  unit_typed u → cstate decls None None s →
  cspec (ecModCtx ← lift (unit_moduleCtx u (ExportConstantsModuleID imp));
         match ecModCtx with
         | None => addErr (mc_sourceFile mc) errImportNotFound [imp]
         | Some ecModCtx =>
             '(_, ec) ← in_module (compileExportConstants ecModCtx);
             from ← lift (st_constants ec);
             constants_Import from ("import '" +:+ imp +:+ "'")
         end) s (valid_import (exported_constants u) constants_valid imp)
    (λ _, cstate (decls ++ go_range (default ∅ (exported_constants u imp))) None None).
Proof.
  intros Hu Hs. apply cspec_moduleCtx; [done|..]; unfold valid_import, exported_constants.
  - intros ->. cbn [mbind option_bind from_option]. rewrite go_range_empty, app_nil_r.
    apply cspec_fails; [|by intros (? & ? & _)]. apply cspec_addErr. intros. by eapply cstate_error.
  - intros p ecmc Ep Hmc. rewrite Ep. cbn [mbind option_bind]. eapply cspec_iff; [eapply cspec_bind with (P2 := True)|].
    + apply cspec_in_module. eapply cspec_mono; [by apply compileExportConstants_spec|].
      intros [] s3 _ (cd & Ecd & Hcd & Hvals) s4 _ Ec4 Ev4.
      instantiate (1 := λ x s4, cstate decls None None s4 ∧
        ∃ cd, st_constants x.2 = Some cd ∧ (∃ decls, cd_holds decls cd) ∧ cd_values cd = default ∅ (policyv1.ec_Definitions <$> policyv1.GetExportConstants p)).
      split; [by eapply cstate_error|]. exists cd. rewrite <-(co_def _ _ Hmc). done.
    + intros [[] ec] s3 _ [Hs3 (cd & Ecd & [decls' Hcd] & Hvals)]. cbn in Ecd.
      eapply cspec_bind_T; [by eapply cspec_lift with (Q := λ x s', x = cd ∧ s' = s3)|]. intros ? ? _ [-> ->].
      rewrite <-Hvals. by eapply constants_Import_spec.
    + intros _. rewrite (co_def _ _ Hmc). split.
      * intros [(ec & Eec & Hv) _]. exists (policyv1.ec_Definitions ec). by rewrite Eec.
      * intros (defs & Edefs & Hv). split; [|done]. apply fmap_Some in Edefs as (ec & Eec & ->). by exists ec.
Qed.

Lemma compilePolicyConstants_spec u mc c s :
  unit_typed u → st_constants s = None → st_variables s = None →
  cspec (compilePolicyConstants u mc c) s (constants_ok u c) (λ _ s', cstate (constants_in u c) (Some ∅) None s' ∧ (ok s' → NoDup (constants_in u c).*1)).
Proof.
  intros Hu Ec Ev. unfold compilePolicyConstants. eapply cspec_bind_T; [by apply cspec_gets with (Q := λ x s', x = st_constants s ∧ s' = s)|].
  intros ? ? _ [-> ->]. rewrite Ec. eapply cspec_bind_T.
  { apply cspec_set_constants with (Q := λ _ s', cstate [] None None s'). intros s' _ Ec' Ev'. exists newConstantDefinitions.
    rewrite Ec', Ev', Ev. split; [done|]. split; [apply cd_holds_nil|done]. }
  intros [] s1 _ Hs1. eapply cspec_iff; [eapply cspec_bind|].
  - apply (cspec_forST (λ done, cstate (done ≫= λ imp, go_range (default ∅ (exported_constants u imp))) None None)
      (valid_import (exported_constants u) constants_valid)); [done|].
    intros done imp rest s2 _ _ Hs2. rewrite bind_app. cbn [mbind list_bind]. rewrite app_nil_r. by apply import_constants_spec.
  - intros [] s2 _ Hs2. eapply cspec_bind; [by apply constants_Compile_spec|]. intros [] s3 _ Hs3.
    eapply cspec_mono; [by eapply constants_Resolve_spec|]. intros [] s4 E4 Hs4. split; [exact Hs4|]. tauto.
  - intros _. split; [intros (? & ? & ?); by split|by intros [? ? ?]].
Qed.

(** * Variables in scope *)

Definition exported_variables u (imp : string) : option (gmap string string) :=
  p ← definition_of u (ExportVariablesModuleID imp); policyv1.ev_Definitions <$> policyv1.GetExportVariables p.

(** Imported, local and top-level variables. *)
Definition variables_in u (v : option policyv1.Variables) (top : gmap string string) : list (string * string) :=
  (policyv1.variables_GetImport v ≫= λ imp, go_range (default ∅ (exported_variables u imp))) ++
  go_range (policyv1.variables_GetLocal v) ++ go_range top.

Definition variables_valid (defs : gmap string string) : Prop := ∀ n src, defs !! n = Some src → variable_valid (n, src).
Record variables_ok u D (v : option policyv1.Variables) (top : gmap string string) : Prop := {
  vo_imports : Forall (valid_import (exported_variables u) variables_valid) (policyv1.variables_GetImport v);
  vo_local : variables_valid (policyv1.variables_GetLocal v);
  vo_top : variables_valid top;
  vo_resolved : variables_resolved D;
}.

Lemma vstate_new cs s : st_variables s = Some newVariableDefinitions → st_constants s = cs → vstate [] None cs s.
Proof.
  intros Ev Ec. exists newVariableDefinitions. split; [done|]. split; [exists []; split; [done|apply vd_exact_nil]|].
  split; [apply NewDirectedGraph_ok|done].
Qed.

Lemma compileExportVariables_spec mc s :
  st_variables s = None →
  cspec (compileExportVariables mc) s (∃ ev, policyv1.GetExportVariables (mc_def mc) = Some ev ∧ variables_valid (policyv1.ev_Definitions ev))
    (λ _ s', ∃ vd, st_variables s' = Some vd ∧
      vd_holds (go_range (default ∅ (policyv1.ev_Definitions <$> policyv1.GetExportVariables (mc_def mc)))) vd).
Proof.
  intros Ev. unfold compileExportVariables. eapply cspec_bind_T; [by apply cspec_gets with (Q := λ x s', x = st_variables s ∧ s' = s)|].
  intros ? ? _ [-> ->]. rewrite Ev. eapply cspec_bind_T.
  { apply cspec_set_variables with (Q := λ _ s', vstate [] None (st_constants s) s'). intros s' _ Ec' Ev'. by apply vstate_new. }
  intros [] s1 _ Hs1. destruct (policyv1.GetExportVariables (mc_def mc)) as [ev|].
  - eapply cspec_mono; [eapply cspec_iff; [by apply variables_Compile_spec|]|].
    + intros _. split; [intros Hv; by exists ev|]. by intros (? & [= <-] & ?).
    + intros [] s2 _ (vd & Ev2 & Hvd & _). by exists vd.
  - apply cspec_fails; [|by intros (? & ? & _)]. apply cspec_addErr. intros s2 Ec2 Ev2 _. destruct Hs1 as (vd & Evd & Hvd & _).
    exists vd. rewrite Ev2. split; [done|]. cbn. by rewrite go_range_empty.
Qed.

Lemma import_variables_spec u mc imp decls cs s :
  unit_typed u → vstate decls None cs s →
  cspec (evModCtx ← lift (unit_moduleCtx u (ExportVariablesModuleID imp));
         match evModCtx with
         | None => addErr (mc_sourceFile mc) errImportNotFound [imp]
         | Some evModCtx =>
             '(_, ev) ← in_module (compileExportVariables evModCtx);
             from ← lift (st_variables ev);
             variables_Import from ("import '" +:+ imp +:+ "'")
         end) s (valid_import (exported_variables u) variables_valid imp)
    (λ _, vstate (decls ++ go_range (default ∅ (exported_variables u imp))) None cs).
Proof.
  intros Hu Hs. apply cspec_moduleCtx; [done|..]; unfold valid_import, exported_variables.
  - intros ->. cbn [mbind option_bind from_option]. rewrite go_range_empty, app_nil_r.
    apply cspec_fails; [|by intros (? & ? & _)]. apply cspec_addErr. intros. by eapply vstate_error.
  - intros p evmc Ep Hmc. rewrite Ep. cbn [mbind option_bind]. eapply cspec_iff; [eapply cspec_bind with (P2 := True)|].
    + apply cspec_in_module. eapply cspec_mono; [by apply compileExportVariables_spec|].
      intros [] s3 _ (vd & Evd & Hvd) s4 _ Ec4 Ev4.
      instantiate (1 := λ x s4, vstate decls None cs s4 ∧
        ∃ vd, st_variables x.2 = Some vd ∧ vd_holds (go_range (default ∅ (policyv1.ev_Definitions <$> policyv1.GetExportVariables p))) vd).
      split; [by eapply vstate_error|]. exists vd. rewrite <-(co_def _ _ Hmc). done.
    + intros [[] ev] s3 _ [Hs3 (vd & Evd & Hvd)]. cbn in Evd.
      eapply cspec_bind_T; [by eapply cspec_lift with (Q := λ x s', x = vd ∧ s' = s3)|]. intros ? ? _ [-> ->].
      by eapply variables_Import_spec.
    + intros _. rewrite (co_def _ _ Hmc). split.
      * intros [(ev & Eev & Hv) _]. exists (policyv1.ev_Definitions ev). by rewrite Eev.
      * intros (defs & Edefs & Hv). split; [|done]. apply fmap_Some in Edefs as (ev & Eev & ->). by exists ev.
Qed.

(** The constants and variables in scope of a policy. *)
Definition scope_of u (c : option policyv1.Constants) (v : option policyv1.Variables) (top : gmap string string) : Defs :=
  MkDefs (constants_in u c) (variables_in u v top).
Definition scope_ok u (c : option policyv1.Constants) (v : option policyv1.Variables) (top : gmap string string) : Prop :=
  constants_ok u c ∧ variables_ok u (scope_of u c v top) v top.

Lemma compilePolicyVariables_spec u mc c v s :
  unit_typed u → cstate (constants_in u c) (Some ∅) None s → (ok s → NoDup (constants_in u c).*1) →
  cspec (compilePolicyVariables u mc v) s (variables_ok u (scope_of u c v (policyv1.p_Variables (mc_def mc))) v (policyv1.p_Variables (mc_def mc)))
    (λ _, module_state (scope_of u c v (policyv1.p_Variables (mc_def mc))) []).
Proof.
  intros Hu (cd & Ecd & Hcd & Huc & Evs) Hnd. unfold compilePolicyVariables.
  eapply cspec_bind_T; [by apply cspec_gets with (Q := λ x s', x = st_variables s ∧ s' = s)|].
  intros ? ? _ [-> ->]. rewrite Evs. eapply cspec_bind_T.
  { apply cspec_set_variables with (Q := λ _ s', vstate [] None (Some cd) s' ∧ (ok s' → ok s)). intros s' Ee Ec' Ev'.
    split; [apply vstate_new; congruence|]. unfold ok. by rewrite Ee. }
  intros [] s1 _ [Hs1 Hmono1]. eapply cspec_iff; [eapply cspec_bind|].
  - apply (cspec_forST (λ done, vstate (done ≫= λ imp, go_range (default ∅ (exported_variables u imp))) None (Some cd))
      (valid_import (exported_variables u) variables_valid)); [done|].
    intros done imp rest s2 _ _ Hs2. rewrite bind_app. cbn [mbind list_bind]. rewrite app_nil_r. by apply import_variables_spec.
  - intros [] s2 E2 Hs2. eapply cspec_bind; [by apply variables_Compile_spec|]. intros [] s3 E3 Hs3.
    eapply cspec_bind; [by apply variables_Compile_spec|]. intros [] s4 E4 Hs4. rewrite <-app_assoc in Hs4.
    apply (variables_Resolve_spec (scope_of u c v (policyv1.p_Variables (mc_def mc))) cd); [exact Hs4|exact Hcd|done|]. intros Hok4. apply Hnd, Hmono1. tauto.
  - intros _. split; [intros (? & ? & ? & ?); by split|by intros [? ? ? ?]].
Qed.

(** Both, from a fresh context. *)
Lemma compile_scope_spec {A} u mc c v s (k : ST CS A) P (Q : A → CS → Prop) :
  unit_typed u → st_constants s = None → st_variables s = None →
  (∀ s', module_state (scope_of u c v (policyv1.p_Variables (mc_def mc))) [] s' → cspec k s' P Q) →
  cspec (_ ← compilePolicyConstants u mc c; _ ← compilePolicyVariables u mc v; k) s
    (scope_ok u c v (policyv1.p_Variables (mc_def mc)) ∧ P) Q.
Proof.
  intros Hu Ec Ev Hk. unfold scope_ok. eapply cspec_iff; [eapply cspec_bind; [by apply compilePolicyConstants_spec|]|].
  - cbn beta. intros [] s1 _ [Hs1 Hnd]. eapply cspec_bind; [by eapply compilePolicyVariables_spec|]. intros [] s2 _ Hs2. by apply Hk.
  - intros _. tauto.
Qed.
End modules.

(** * Derived roles

    What compiling derived roles and their imports comes to. *)

Section roles.
Context `{CelChecker} `{GL : !GraphLaws G} `{GoMapOrder} `{StringHash}.
Implicit Types (s : CS) (D : Defs) (mc : moduleCtx) (u : CompilationUnit).

(** * Derived roles *)

(** What a list of expressions lists from a scope. *)
Definition lists_for D (exprs : list string) (vs : list Variable_) (cs : gmap string Value) : Prop :=
  (∃ k, vs = runnable <$> k ∧ listed D exprs k) ∧ listed_constants D exprs cs.

Definition role_ok D (d : policyv1.RoleDef) : Prop := condition_ok D (policyv1.def_Condition d) ∧ acyclic D.
Record compiled_role D (originFqn : string) (d : policyv1.RoleDef) (r : RunnableDerivedRole) : Prop := {
  cr_name : dr_Name r = policyv1.def_Name d;
  cr_parents : dr_ParentRoles r = role_set ∅ (policyv1.def_ParentRoles d);
  cr_condition : dr_Condition r = runnable_condition (policyv1.def_Condition d);
  cr_scope : lists_for D (condition_exprs (policyv1.def_Condition d)) (dr_OrderedVariables r) (dr_Constants r);
  cr_origin : dr_OriginFqn r = originFqn;
}.

Lemma reset_usage_spec {A} D exprs (k : ST CS A) s P (Q : A → CS → Prop) :
  module_state D exprs s → (∀ s', module_state D [] s' → cspec k s' P Q) →
  cspec (_ ← constants_ResetUsage; _ ← variables_ResetUsage; k) s P Q.
Proof.
  intros (cd & vd & uc & uv & Ec & Ev & Hcd & (l & Hl & Hvd) & Euc & Euv & Hu) Hk. eapply cspec_bind_T.
  { eapply cspec_bind_T; [by eapply cspec_the_constants with (Q := λ x s', x = cd ∧ s' = s)|]. intros ? ? _ [-> ->].
    apply cspec_set_constants with (Q := λ _ s', st_errors s' = st_errors s ∧ st_constants s' = Some (cd_with cd ∅) ∧ st_variables s' = st_variables s). done. }
  intros [] s1 _ (Ee1 & Ec1 & Ev1). eapply cspec_bind_T.
  { eapply cspec_bind_T; [eapply cspec_the_variables with (Q := λ x s', x = vd ∧ s' = s1); [by rewrite Ev1|done]|]. intros ? ? _ [-> ->].
    apply cspec_set_variables with (Q := λ _ s', st_errors s' = st_errors s1 ∧ st_constants s' = st_constants s1 ∧ st_variables s' = Some (vd_with vd ∅)). done. }
  intros [] s2 _ (Ee2 & Ec2 & Ev2). apply Hk. exists (cd_with cd ∅), (vd_with vd ∅), ∅, ∅. split; [by rewrite Ec2|]. split; [done|].
  split; [by destruct Hcd|]. split; [exists l; split; [done|]; by apply vd_exact_used|]. do 2 (split; [done|]). intros Hok.
  destruct Hu as [Hc Hv He _ _]; [unfold ok in *; congruence|]. split; [done|done|done|..].
  - intros n. split; [by intros ?%elem_of_empty|by intros ?%needs_nil].
  - intros n. split; [by intros ?%elem_of_empty|by intros ?%needs_constant_nil].
Qed.

(** The end of a module: listing constants and variables. *)
Lemma list_used_spec {A} D exprs mc s (k : gmap string Value → list Variable_ → A) (Q : A → CS → Prop) :
  module_state D exprs s →
  (∀ m vs s', (ok s' ↔ ok s ∧ acyclic D) → module_state D exprs s' → (ok s' → lists_for D exprs vs m) → Q (k m vs) s') →
  cspec (constants ← constants_Used; ordered ← variables_Used mc; mret (k constants (runnable_variable <$> ordered))) s (acyclic D) Q.
Proof.
  intros Hs HQ. eapply cspec_bind_T; [by apply constants_Used_spec|]. cbn beta. intros m s1 E1 [Hs1 Hm].
  eapply cspec_iff; [eapply cspec_bind with (P2 := True); [by apply variables_Used_spec|]|tauto].
  cbn beta. intros vs s2 E2 [Hs2 Hvs]. apply cspec_ret. apply HQ; [tauto|done|]. intros Hok. split; [|apply Hm; tauto].
  destruct (Hvs Hok) as (l & El & Hl). by exists l.
Qed.

Lemma compileRoleDef_spec D exprs mc fqn d s :
  module_state D exprs s →
  cspec (compileRoleDef mc fqn d) s (role_ok D d) (λ r s', (ok s' → compiled_role D fqn d r) ∧ ∃ exprs', module_state D exprs' s').
Proof.
  intros Hs. unfold compileRoleDef. eapply reset_usage_spec; [exact Hs|]. intros s1 Hs1.
  eapply cspec_bind; [by apply compileCondition_spec|]. cbn beta. intros c s2 E2 [Hc Hs2]. cbn [app] in Hs2.
  apply (list_used_spec D (condition_exprs (policyv1.def_Condition d)) mc s2 (λ m vs, MkDerivedRole (policyv1.def_Name d) (role_set ∅ (policyv1.def_ParentRoles d)) c vs m fqn)); [exact Hs2|].
  intros m vs s3 E3 Hs3 Hlist. split; [|by eexists]. intros Hok. split; cbn; [done..|apply Hc; tauto|by apply Hlist|done].
Qed.

(** A module of derived roles. *)
Definition roles_scope u (p : policyv1.Policy) (dr : policyv1.DerivedRoles) : Defs :=
  scope_of u (policyv1.drs_Constants dr) (policyv1.drs_Variables dr) (policyv1.p_Variables p).
Record roles_ok u (p : policyv1.Policy) (dr : policyv1.DerivedRoles) : Prop := {
  ro_scope : scope_ok u (policyv1.drs_Constants dr) (policyv1.drs_Variables dr) (policyv1.p_Variables p);
  ro_definitions : Forall (role_ok (roles_scope u p dr)) (policyv1.drs_Definitions dr);
}.
Record compiled_roles u (p : policyv1.Policy) (dr : policyv1.DerivedRoles) (m : gmap string RunnableDerivedRole) : Prop := {
  crs_names : ∀ n, is_Some (m !! n) ↔ n ∈ policyv1.def_Name <$> policyv1.drs_Definitions dr;
  crs_roles : ∀ n r, m !! n = Some r → ∃ d, d ∈ policyv1.drs_Definitions dr ∧ policyv1.def_Name d = n ∧
    compiled_role (roles_scope u p dr) (DerivedRolesFQN (policyv1.drs_Name dr)) d r;
}.

Lemma compiled_roles_foldl u p dr roles :
  Forall2 (compiled_role (roles_scope u p dr) (DerivedRolesFQN (policyv1.drs_Name dr))) (policyv1.drs_Definitions dr) roles →
  compiled_roles u p dr (foldl (λ m r, <[dr_Name r := r]> m) ∅ roles).
Proof.
  intros Hall. assert (∀ n, match foldl (λ m r, <[dr_Name r := r]> m) (∅ : gmap string RunnableDerivedRole) roles !! n with
    | Some r => r ∈ roles ∧ dr_Name r = n | None => n ∉ dr_Name <$> roles end) as Hfold.
  { clear. induction roles as [|r roles IH] using rev_ind; intros n; [cbn [foldl]; rewrite lookup_empty; apply not_elem_of_nil|].
    rewrite foldl_app. cbn [foldl]. destruct (decide (dr_Name r = n)) as [<-|Hne].
    - rewrite lookup_insert_eq. split; [apply elem_of_app; right; left|done].
    - rewrite lookup_insert_ne by done. specialize (IH n). revert IH. destruct (_ !! n); intros IH.
      + split; [apply elem_of_app; left|]; apply IH.
      + rewrite fmap_app, not_elem_of_app. split; [done|]. cbn. rewrite list_elem_of_singleton. done. }
  assert ((dr_Name <$> roles) = policyv1.def_Name <$> policyv1.drs_Definitions dr) as Hnames.
  { clear Hfold. induction Hall as [|d r ds roles Hr _ IH]; [done|]. by rewrite !fmap_cons, IH, (cr_name _ _ _ _ Hr). }
  split; intros n; specialize (Hfold n); rewrite <-?Hnames.
  - destruct (_ !! n) as [r|]; [|split; [by intros [? ?]|done]]. split; [|done]. intros _. apply list_elem_of_fmap. exists r. by destruct Hfold.
  - intros r E. rewrite E in Hfold. destruct Hfold as [[i Hi]%list_elem_of_lookup <-].
    destruct (Forall2_lookup_r _ _ _ _ _ Hall Hi) as (d & Hd & Hr). exists d. split; [by eapply list_elem_of_lookup_2|]. by rewrite (cr_name _ _ _ _ Hr).
Qed.

Lemma compileDerivedRoles_spec u p mc s :
  unit_typed u → context_of p mc → st_constants s = None → st_variables s = None →
  cspec (compileDerivedRoles u mc) s (∃ dr, policyv1.GetDerivedRoles p = Some dr ∧ roles_ok u p dr)
    (λ x s', ok s' → ∃ dr m, policyv1.GetDerivedRoles p = Some dr ∧ x = Some m ∧ compiled_roles u p dr m).
Proof.
  intros Hu [Edef _] Ec Ev. unfold compileDerivedRoles. rewrite Edef. destruct (policyv1.GetDerivedRoles p) as [dr|].
  2: { apply cspec_fails; [|by intros (? & ? & _)]. eapply cspec_iff; [eapply cspec_bind with (P1 := False) (P2 := True) (Q1 := λ _ s', ¬ ok s')|tauto].
       - by apply cspec_addErr.
       - intros [] s' _ Hn. by apply cspec_ret. }
  eapply cspec_iff; [apply compile_scope_spec; [done..|]|].
  - rewrite Edef. intros s1 Hs1. eapply cspec_iff; [eapply cspec_bind with (P2 := True)|].
    + apply (cspec_mapST (λ _ s', ∃ exprs, module_state (roles_scope u p dr) exprs s') (role_ok (roles_scope u p dr))
        (compiled_role (roles_scope u p dr) (DerivedRolesFQN (policyv1.drs_Name dr)))); [by eexists|].
      intros done d rest s2 _ _ [exprs Hs2]. by eapply compileRoleDef_spec.
    + cbn beta. intros roles s2 E2 [Hroles _]. apply cspec_ret. intros Hok. exists dr. eexists. do 2 (split; [done|]). by apply compiled_roles_foldl, Hroles.
    + intros _. instantiate (1 := Forall (role_ok (roles_scope u p dr)) (policyv1.drs_Definitions dr)). tauto.
  - intros _. rewrite Edef. split; [intros [? ?]; exists dr; split; [done|]; by split|]. by intros (? & [= <-] & [? ?]).
Qed.

(** * Imported derived roles *)

Definition exported_roles u (imp : string) : option (policyv1.Policy * policyv1.DerivedRoles) :=
  p ← definition_of u (DerivedRolesModuleID imp); pair p <$> policyv1.GetDerivedRoles p.
Definition role_names u (imp : string) : list string :=
  default [] ((λ x, policyv1.def_Name <$> policyv1.drs_Definitions x.2) <$> exported_roles u imp).
(** The imports that define a role. *)
Definition importers u (imports : list string) (r : string) : list string := filter (λ imp, r ∈ role_names u imp) imports.

Definition roles_import_ok u (imp : string) : Prop := ∃ p dr, exported_roles u imp = Some (p, dr) ∧ roles_ok u p dr.

(** An entry of the imports of a role: what the import compiles to. *)
Definition import_entry u (r : string) (imp : string) (e : string * gmap string RunnableDerivedRole) : Prop :=
  e.1 = imp ∧ ∃ p dr, exported_roles u imp = Some (p, dr) ∧ compiled_roles u p dr e.2.

(** Every entry of a role has it; unless there were errors, the entries are the
    importers so far. *)
Definition entries_have (m : roleImports) : Prop := ∀ r l, m !! r = Some l → l ≠ [] ∧ Forall (λ e, is_Some (e.2 !! r)) l.
Definition entries_of u (done : list string) (m : roleImports) : Prop :=
  ∀ r, Forall2 (import_entry u r) (importers u done r) (default [] (m !! r)).

Lemma add_imports_lookup imp cr m r :
  add_imports imp cr m !! r = if decide (is_Some (cr !! r)) then Some (default [] (m !! r) ++ [(imp, cr)]) else m !! r.
Proof.
  assert (∀ l : list (string * RunnableDerivedRole), NoDup l.*1 → ∀ m : roleImports,
    foldl (λ m '(name, _), <[name := default [] (m !! name) ++ [(imp, cr)]]> m) m l !! r =
    if decide (r ∈ l.*1) then Some (default [] (m !! r) ++ [(imp, cr)]) else m !! r) as Hfold.
  { clear m. induction l as [|[n x] l IH]; intros Hnd m; [done|]. cbn [foldl fmap list_fmap fst] in *. apply NoDup_cons in Hnd as [Hn Hnd].
    rewrite IH by done. destruct (decide (n = r)) as [->|Hne].
    - rewrite decide_False by done. rewrite decide_True by left. by rewrite lookup_insert_eq.
    - rewrite lookup_insert_ne by done. destruct (decide (r ∈ l.*1)) as [Hr|Hr].
      + rewrite decide_True by (by right). done.
      + rewrite decide_False; [done|]. apply not_elem_of_cons. done. }
  unfold add_imports. rewrite Hfold by apply NoDup_go_range_keys.
  destruct (decide (is_Some (cr !! r))) as [Hr|Hr]; [rewrite decide_True|rewrite decide_False]; rewrite ?elem_of_go_range_keys; done.
Qed.

Lemma entries_have_add imp cr m : entries_have m → entries_have (add_imports imp cr m).
Proof.
  intros Hm r l. rewrite add_imports_lookup. destruct (decide (is_Some (cr !! r))) as [Hr|Hr]; [|apply Hm].
  intros [= <-]. split; [by destruct (default [] (m !! r))|]. apply Forall_app. split; [|by constructor].
  destruct (m !! r) as [l|] eqn:E; [|constructor]. by apply Hm.
Qed.

Lemma entries_of_add u done imp p dr cr m :
  exported_roles u imp = Some (p, dr) → compiled_roles u p dr cr → entries_of u done m → entries_of u (done ++ [imp]) (add_imports imp cr m).
Proof.
  intros Himp Hcr Hm r. specialize (Hm r). unfold importers in *. rewrite filter_app, add_imports_lookup.
  assert (r ∈ role_names u imp ↔ is_Some (cr !! r)) as Hr. { unfold role_names. rewrite Himp. cbn. by rewrite (crs_names _ _ _ _ Hcr). }
  destruct (decide (is_Some (cr !! r))) as [Hin|Hout].
  - rewrite filter_cons_True by (by apply Hr). cbn [from_option]. unfold id. apply Forall2_app; [done|].
    constructor; [|constructor]. split; [done|]. by exists p, dr.
  - rewrite filter_cons_False by (by rewrite Hr). by rewrite app_nil_r.
Qed.

(** The definitions of the module at hand are left alone. *)
Definition frame s s' : Prop := st_constants s' = st_constants s ∧ st_variables s' = st_variables s.

Lemma import_roles_spec u mc m imp done s0 s :
  unit_typed u → entries_have m → (ok s → entries_of u done m) → frame s0 s →
  cspec (import_roles u mc m imp) s (roles_import_ok u imp)
    (λ m' s', entries_have m' ∧ (ok s' → entries_of u (done ++ [imp]) m') ∧ frame s0 s').
Proof.
  intros Hu Hhave Hof Hfr. unfold import_roles, roles_import_ok. apply cspec_moduleCtx; [done|..]; unfold exported_roles.
  - intros ->. apply cspec_fails; [|by intros (? & ? & ? & _)].
    eapply cspec_iff; [eapply cspec_bind with (P1 := False) (P2 := True) (Q1 := λ _ s', ¬ ok s' ∧ frame s s')|tauto]; [by apply cspec_addErr|].
    intros [] s1 _ [Hn [Ec Ev]]. apply cspec_ret. split; [done|]. split; [done|]. destruct Hfr. split; congruence.
  - intros p drmc Ep Hmc. rewrite Ep. cbn [mbind option_bind]. eapply cspec_iff; [eapply cspec_bind with (P2 := True)|].
    + apply cspec_in_module. eapply cspec_mono; [by eapply compileDerivedRoles_spec|]. intros x s1 E1 Hx s2 Ee2 Ec2 Ev2.
      instantiate (1 := λ x s2, frame s0 s2 ∧ (ok s2 → ok s) ∧ (ok s2 → ∃ dr m, policyv1.GetDerivedRoles p = Some dr ∧ x.1 = Some m ∧ compiled_roles u p dr m)).
      split; [destruct Hfr; split; congruence|]. unfold ok in *. rewrite Ee2. split; [cbn in E1; tauto|done].
    + intros [x cs] s1 _ (Hfr1 & Hmono & Hx). cbn [fst] in Hx. destruct x as [cr|]; apply cspec_ret.
      * split; [by apply entries_have_add|]. split; [|done]. intros Hok. destruct (Hx Hok) as (dr & m' & Edr & [= <-] & Hcr).
        eapply entries_of_add; [|exact Hcr|by apply Hof, Hmono]. unfold exported_roles. rewrite Ep. cbn. by rewrite Edr.
      * split; [done|]. split; [|done]. intros Hok. by destruct (Hx Hok) as (dr & m' & _ & ? & _).
    + intros _. split.
      * intros [(dr & Edr & Hok) _]. exists p, dr. by rewrite Edr.
      * intros (p' & dr & Edr & Hok). split; [|done]. apply fmap_Some in Edr as (dr' & Edr & [= -> ->]). by exists dr'.
Qed.

(** ** Resolving the roles of rules *)

(** What resolving [roles] makes of them. *)
Record roles_resolved (m : roleImports) (roles : list string) (acc : resolvedRoles) : Prop := {
  rr_unknown : ∀ r, r ∈ unknownRoles acc ↔ r ∈ roles ∧ m !! r = None;
  rr_ambiguous : ∀ r, r ∈ ambiguousRoles acc ↔ r ∈ roles ∧ ∃ l, m !! r = Some l ∧ 1 < length l;
  rr_referenced : ∀ r rdr, referencedRoles acc !! r = Some rdr → r ∈ roles ∧ ∃ e, m !! r = Some [e] ∧ e.2 !! r = Some rdr;
  rr_found : ∀ r e, r ∈ roles → m !! r = Some [e] → is_Some (referencedRoles acc !! r);
}.

Lemma resolve_role_step m roles acc r :
  entries_have m → roles_resolved m roles acc → runs (resolve_role m acc r) (roles_resolved m (roles ++ [r])).
Proof.
  intros Hhave [U A R F]. assert (∀ k, k ∈ roles ++ [r] ↔ k ∈ roles ∨ k = r) as Hin. { intros k. by rewrite elem_of_app, list_elem_of_singleton. }
  assert (∀ k rdr, referencedRoles acc !! k = Some rdr → k ∈ roles ++ [r] ∧ ∃ e, m !! k = Some [e] ∧ e.2 !! k = Some rdr) as HR.
  { intros k rdr [Hk He]%R. rewrite Hin. auto. }
  unfold resolve_role. destruct (m !! r) as [l|] eqn:E.
  2: { rret. split; cbn; [|..|done|].
       - intros k. rewrite elem_of_union, elem_of_singleton, U, Hin. split; [intros [->|[? ?]]; auto|]. intros [[?| ->] ?]; auto.
       - intros k. rewrite A, Hin. split; [intros [? ?]; auto|]. intros [[?| ->] (l & El & ?)]; [eauto|congruence].
       - intros k e. rewrite Hin. intros [?| ->] Ee; [eauto|congruence]. }
  destruct (Hhave _ _ E) as [Hne Hall]. destruct (decide (1 < length l)) as [Hlen|Hlen].
  - rret. split; cbn; [| |done|].
    + intros k. rewrite U, Hin. split; [intros [? ?]; auto|]. intros [[?| ->] ?]; [auto|congruence].
    + intros k. rewrite elem_of_union, elem_of_singleton, A, Hin. split; [intros [->|[? ?]]; eauto|]. intros [[?| ->] ?]; auto.
    + intros k e. rewrite Hin. intros [?| ->] Ee; [eauto|]. assert (l = [e]) as -> by congruence. cbn in Hlen. lia.
  - destruct l as [|[i cr] [|]]; [done| |cbn in Hlen; lia]. apply Forall_singleton in Hall as [rdr Hrdr]. cbn [head mbind option_bind snd] in *.
    rewrite Hrdr. rret. split; cbn.
    + intros k. rewrite U, Hin. split; [intros [? ?]; auto|]. intros [[?| ->] ?]; [auto|congruence].
    + intros k. rewrite A, Hin. split; [intros [? ?]; auto|]. intros [[?| ->] (l & El & Hl)]; [eauto|]. assert (l = [(i, cr)]) as -> by congruence. cbn in Hl. lia.
    + intros k rdr'. destruct (decide (r = k)) as [<-|Hne']; [|rewrite lookup_insert_ne by done; apply HR].
      rewrite lookup_insert_eq. intros [= <-]. split; [apply Hin; by right|]. by exists (i, cr).
    + intros k e. destruct (decide (r = k)) as [<-|Hne']; [by rewrite lookup_insert_eq|]. rewrite lookup_insert_ne by done.
      rewrite Hin. intros [?| ->] Ee; [eauto|done].
Qed.

Lemma resolve_roles m roles : entries_have m → runs (foldM (resolve_role m) (MkResolved ∅ ∅ ∅) roles) (roles_resolved m roles).
Proof.
  intros Hhave. apply (foldM_rule (roles_resolved m)).
  - split; cbn; [intros r; rewrite elem_of_empty, elem_of_nil; tauto..|intros r rdr; by rewrite lookup_empty|by intros r e ?%elem_of_nil].
  - intros done r rest acc _ Hacc. by apply resolve_role_step.
Qed.

(** * The derived roles of a resource policy *)

Definition rule_roles (rp : policyv1.ResourcePolicy) : list string := policyv1.rp_Rules rp ≫= policyv1.rrule_DerivedRoles.

(** Imports are right, and one import defines each role that the rules refer to. *)
Record role_imports_ok u (rp : policyv1.ResourcePolicy) : Prop := {
  rio_imports : Forall (roles_import_ok u) (policyv1.rp_ImportDerivedRoles rp);
  rio_roles : ∀ r, r ∈ rule_roles rp → length (importers u (policyv1.rp_ImportDerivedRoles rp) r) = 1;
}.
(** The roles referred to, each compiled from its definition. *)
Record compiled_role_imports u (rp : policyv1.ResourcePolicy) (m : gmap string RunnableDerivedRole) : Prop := {
  cri_names : ∀ r, is_Some (m !! r) ↔ r ∈ rule_roles rp;
  cri_roles : ∀ r rdr, m !! r = Some rdr → ∃ imp p dr d,
    imp ∈ policyv1.rp_ImportDerivedRoles rp ∧ exported_roles u imp = Some (p, dr) ∧ d ∈ policyv1.drs_Definitions dr ∧
    policyv1.def_Name d = r ∧ compiled_role (roles_scope u p dr) (DerivedRolesFQN (policyv1.drs_Name dr)) d rdr;
}.

Lemma elem_of_rule_roles rp r : r ∈ rule_roles rp ↔ ∃ rule, rule ∈ policyv1.rp_Rules rp ∧ r ∈ policyv1.rrule_DerivedRoles rule.
Proof. unfold rule_roles. rewrite list_elem_of_bind. naive_solver. Qed.

(** An error for every name of a set. *)
Lemma report_all_spec mc err (X : gset string) s :
  cspec (forST (set_range X) (λ r, addErr (mc_sourceFile mc) err [r])) s (∀ r, r ∉ X) (λ _, frame s).
Proof.
  eapply cspec_iff; [apply (cspec_forST_inv (frame s) (λ _, False)); [done|]|].
  - intros r s' _ _ [Ec Ev]. apply cspec_addErr. intros s'' Ec' Ev' _. split; congruence.
  - intros _. rewrite Forall_forall. setoid_rewrite elem_of_set_range. done.
Qed.

Lemma imports_resolved u rp m roles :
  entries_of u (policyv1.rp_ImportDerivedRoles rp) m → roles_resolved m (rule_roles rp) roles → entries_have m →
  ((∀ r, r ∉ unknownRoles roles) ∧ (∀ r, r ∉ ambiguousRoles roles) ↔
   ∀ r, r ∈ rule_roles rp → length (importers u (policyv1.rp_ImportDerivedRoles rp) r) = 1).
Proof.
  intros Hof [U A R F] Hhave. assert (∀ r, length (importers u (policyv1.rp_ImportDerivedRoles rp) r) = length (default [] (m !! r))) as Hlen.
  { intros r. by eapply Forall2_length. }
  setoid_rewrite Hlen. setoid_rewrite U. setoid_rewrite A. split.
  - intros [HU HA] r Hr. destruct (m !! r) as [l|] eqn:E; [|by destruct (HU r)]. cbn. unfold id. destruct (Hhave _ _ E) as [Hne _].
    destruct l as [|e [|e' l]]; [done|done|]. destruct (HA r). split; [done|]. eexists. split; [done|]. cbn. lia.
  - intros Hone. split; intros r [Hr Hm]; specialize (Hone r Hr); [by rewrite Hm in Hone|].
    destruct Hm as (l & El & Hl). rewrite El in Hone. cbn in Hone. unfold id in Hone. lia.
Qed.

Lemma imports_compiled u rp m roles :
  entries_of u (policyv1.rp_ImportDerivedRoles rp) m → roles_resolved m (rule_roles rp) roles →
  (∀ r, r ∉ unknownRoles roles) → (∀ r, r ∉ ambiguousRoles roles) → entries_have m → compiled_role_imports u rp (referencedRoles roles).
Proof.
  intros Hof [U A R F] HU HA Hhave. assert (∀ r, r ∈ rule_roles rp → ∃ e, m !! r = Some [e]) as Hone.
  { intros r Hr. destruct (m !! r) as [[|e [|e' l]]|] eqn:E; [by destruct (Hhave _ _ E)|by exists e|..].
    - destruct (HA r). apply A. split; [done|]. eexists. split; [exact E|]. cbn. lia.
    - destruct (HU r). by apply U. }
  split.
  - intros r. split.
    + intros [rdr Hrdr]. by apply R in Hrdr as [? _].
    + intros Hr. destruct (Hone r Hr) as [e He]. by eapply F.
  - intros r rdr Hrdr. destruct (R _ _ Hrdr) as (_ & e & He & Her). specialize (Hof r). rewrite He in Hof. cbn in Hof. unfold id in Hof.
    apply Forall2_cons_inv_r in Hof as (imp & rest & (<- & p & dr & Himp & Hcr) & _ & Eimp).
    destruct (crs_roles _ _ _ _ Hcr _ _ Her) as (d & Hd & Hname & Hrole). exists e.1, p, dr, d. split; [|done].
    assert (e.1 ∈ importers u (policyv1.rp_ImportDerivedRoles rp) r) as Hin by (rewrite Eimp; left). by apply list_elem_of_filter in Hin as [_ ?].
Qed.

Lemma compileImportedDerivedRoles_spec u mc rp s :
  unit_typed u →
  cspec (compileImportedDerivedRoles u mc rp) s (role_imports_ok u rp)
    (λ x s', match x with None => ¬ ok s' | Some m => ok s' ∧ compiled_role_imports u rp m end ∧ frame s s').
Proof.
  intros Hu. unfold compileImportedDerivedRoles. eapply cspec_iff; [eapply cspec_bind|].
  - apply (cspec_foldST (λ done m s', entries_have m ∧ (ok s' → entries_of u done m) ∧ frame s s') (roles_import_ok u)).
    { split; [intros r l; by rewrite lookup_empty|]. split; [|done]. intros _ r. by rewrite lookup_empty. }
    intros done imp rest m s1 _ _ (Hhave & Hof & Hfr). by apply import_roles_spec.
  - cbn beta. intros m s1 E1 (Hhave & Hof & [Ec1 Ev1]). destruct (resolve_roles m (rule_roles rp) Hhave) as (roles & Eroles & Hroles).
    eapply cspec_bind_T; [by eapply cspec_lift with (Q := λ x s', x = roles ∧ s' = s1)|]. intros ? ? _ [-> ->].
    apply cspec_iff with (P := (∀ r, r ∉ unknownRoles roles) ∧ (∀ r, r ∉ ambiguousRoles roles)).
    + eapply cspec_bind; [apply report_all_spec|]. intros [] s2 E2 [Ec2 Ev2].
      eapply cspec_iff; [eapply cspec_bind with (P2 := True); [apply report_all_spec|]|tauto]. intros [] s3 E3 [Ec3 Ev3].
      eapply cspec_bind_T; [by apply cspec_gets with (Q := λ x s', x = st_errors s3 ∧ s' = s3)|]. intros ? ? _ [-> ->].
      apply cspec_ret. split; [|split; congruence]. destruct (st_errors s3) eqn:Ee; [|unfold ok; by rewrite Ee]. assert (ok s3) as Hok by done. split; [done|].
      eapply imports_compiled; [apply Hof; tauto|done|tauto..].
    + intros Hok. instantiate (1 := ∀ r, r ∈ rule_roles rp → length (importers u (policyv1.rp_ImportDerivedRoles rp) r) = 1).
      apply (imports_resolved u rp m); [by apply Hof|done..].
  - intros _. split; [intros [? ?]; by split|by intros []].
Qed.
End roles.
