(* ===== verification/CompilePolicySpec.v ===== *)
(** The specification of the compiler: which units are well formed, and what a
    well-formed unit compiles to; the compiler implements it. *)
From S2P Require Import Prelude Namer Policy ScopePerms IndexQuery IndexQuerySpec ParentRoles RuleTableBuild PlanExpr CompileSource CompileDefs Compile CompileSpec CompileVarSpec CompileRuleSpec CompileModuleSpec.

Local Open Scope string_scope.
Local Open Scope list_scope.
Open Scope nat_scope.

Section policies.
Context `{CelChecker} `{GL : !GraphLaws G} `{GoMapOrder} `{StringHash}.
Implicit Types (s : CS) (D : Defs) (mc : moduleCtx) (u : CompilationUnit) (p : policyv1.Policy) (schemaMgr : option (string → bool)).

(** Failing with one error. *)
Lemma fail_spec {A} mc err names (x : A) s (Q : A → CS → Prop) :
  (∀ s', ¬ ok s' → Q x s') → cspec (_ ← addErr (mc_sourceFile mc) err names; mret x) s False Q.
Proof.
  intros HQ. eapply cspec_iff; [eapply cspec_bind with (P1 := False) (P2 := True) (Q1 := λ _ s', ¬ ok s')|tauto]; [by apply cspec_addErr|].
  intros [] s' _ Hn. by apply cspec_ret, HQ.
Qed.

(** After an error nothing can be asked any more. *)
Lemma cspec_after_error {A} (m : ST CS A) s P P' Q : ¬ ok s → cspec m s P Q → cspec m s P' Q.
Proof. intros Hn Hm. eapply cspec_iff; [exact Hm|]. by intros ?. Qed.

(** * Resource policies *)

Definition schemas_ok schemaMgr (rp : policyv1.ResourcePolicy) : Prop :=
  match schemaMgr, policyv1.rp_Schemas rp with
  | Some LoadSchema, Some schemas => ∀ ref, ref = PrincipalSchema schemas ∨ ref = ResourceSchema schemas → ref ≠ "" → LoadSchema ref
  | _, _ => True
  end.

Definition resource_scope u p (rp : policyv1.ResourcePolicy) : Defs :=
  scope_of u (policyv1.rp_Constants rp) (policyv1.rp_Variables rp) (policyv1.p_Variables p).
Record resource_policy_ok u schemaMgr p (rp : policyv1.ResourcePolicy) : Prop := {
  rpo_roles : role_imports_ok u rp;
  rpo_schemas : schemas_ok schemaMgr rp;
  rpo_scope : scope_ok u (policyv1.rp_Constants rp) (policyv1.rp_Variables rp) (policyv1.p_Variables p);
  rpo_rules : Forall (resource_rule_ok (resource_scope u p rp)) (policyv1.rp_Rules rp);
  rpo_acyclic : acyclic (resource_scope u p rp);
}.
Definition runnable_resource_rules (rp : policyv1.ResourcePolicy) : list ResourceRule :=
  imap (λ i r, runnable_resource_rule (ResourceRuleName r (S i)) r) (policyv1.rp_Rules rp).
Record compiled_resource_policy u p (rp : policyv1.ResourcePolicy) (c : ResourcePolicy) : Prop := {
  crp_scope : rp_Scope c = policyv1.rp_Scope rp;
  crp_roles : compiled_role_imports u rp (rp_DerivedRoles c);
  crp_rules : rp_Rules c = runnable_resource_rules rp;
  crp_lists : lists_for (resource_scope u p rp) (policyv1.rp_Rules rp ≫= resource_rule_exprs) (rp_OrderedVariables c) (rp_PolicyConstants c);
  crp_permissions : rp_ScopePermissions c = effective_permissions (policyv1.rp_ScopePermissions rp);
}.

Lemma checkReferencedSchemas_spec mc rp mgr s :
  ok s → cspec (checkReferencedSchemas mc rp mgr) s (schemas_ok (Some mgr) rp)
    (λ b s', (ok s' ↔ b = true) ∧ st_constants s' = st_constants s ∧ st_variables s' = st_variables s).
Proof.
  intros Hok. unfold checkReferencedSchemas, schemas_ok. destruct (policyv1.rp_Schemas rp) as [schemas|]; [|by apply cspec_ret].
  set (keep := λ s', st_constants s' = st_constants s ∧ st_variables s' = st_variables s).
  assert (∀ ref s, keep s → cspec (if decide (ref ≠ "") then if mgr ref then mret tt else addErr (mc_sourceFile mc) errInvalidSchema [ref] else mret tt) s
    (ref ≠ "" → mgr ref) (λ _, keep)) as Hcheck.
  { intros ref s' Hs'. destruct (decide (ref ≠ "")) as [Hne|He]; [|by eapply cspec_holds; [apply cspec_ret|]].
    eapply cspec_iff; [apply cspec_unless_b with (Q := λ _, keep)|]; [done| |tauto]. intros _. apply cspec_addErr. intros s'' Ec Ev _.
    unfold keep in *. by rewrite Ec, Ev. }
  eapply cspec_iff; [eapply cspec_bind; [by apply Hcheck|]|].
  - intros [] s1 _ Hs1. eapply cspec_iff; [eapply cspec_bind with (P2 := True); [by apply Hcheck|]|].
    + intros [] s2 _ Hs2. eapply cspec_bind_T; [by apply cspec_gets with (Q := λ x s', x = st_errors s2 ∧ s' = s2)|]. intros ? ? _ [-> ->].
      apply cspec_ret. split; [|exact Hs2]. unfold ok. by destruct (st_errors s2).
    + intros _. instantiate (1 := ResourceSchema schemas ≠ "" → mgr (ResourceSchema schemas)). tauto.
  - intros _. naive_solver.
Qed.

Lemma compileResourceRules_spec D exprs mc rules s :
  module_state D exprs s →
  cspec (mapST (λ '(i, rule), compileResourceRule mc (ResourceRuleName rule (S i)) rule) (imap pair rules)) s (Forall (resource_rule_ok D) rules)
    (λ ys s', (ok s' → ys = imap (λ i r, runnable_resource_rule (ResourceRuleName r (S i)) r) rules) ∧ module_state D (exprs ++ (rules ≫= resource_rule_exprs)) s').
Proof.
  intros Hs. eapply cspec_mono; [eapply cspec_iff|].
  - apply compile_all_spec with (P := λ x, resource_rule_ok D x.2) (es := λ x, resource_rule_exprs x.2)
      (r := λ x, runnable_resource_rule (ResourceRuleName x.2 (S x.1)) x.2); [|exact Hs].
    intros [i r] exprs' s' Hs'. by apply compileResourceRule_spec.
  - intros _. apply (Forall_imap_pair (resource_rule_ok D)).
  - intros ys s' _ [Hys Hs']. rewrite (imap_pair_bind resource_rule_exprs) in Hs'. split; [|done]. intros Hok.
    rewrite (Hys Hok). by rewrite (fmap_imap_pair (λ i r, runnable_resource_rule (ResourceRuleName r (S i)) r)).
Qed.

(** A context in which nothing has been compiled. *)
Definition fresh s : Prop := st_constants s = None ∧ st_variables s = None.

Lemma resource_policy_body u mc p rp roles s :
  unit_typed u → context_of p mc → fresh s → compiled_role_imports u rp roles →
  cspec (_ ← compilePolicyConstants u mc (policyv1.rp_Constants rp);
         _ ← compilePolicyVariables u mc (policyv1.rp_Variables rp);
         rules ← mapST (λ '(i, rule), compileResourceRule mc (ResourceRuleName rule (S i)) rule) (imap pair (policyv1.rp_Rules rp));
         constants ← constants_Used;
         ordered ← variables_Used mc;
         mret (Some (MkResourcePolicy (policyv1.rp_Scope rp) roles rules (runnable_variable <$> ordered)
                       (effective_permissions (policyv1.rp_ScopePermissions rp)) constants,
                     policyv1.rp_Schemas rp, policyv1.p_SourceAttributes p))) s
    (scope_ok u (policyv1.rp_Constants rp) (policyv1.rp_Variables rp) (policyv1.p_Variables p) ∧
     Forall (resource_rule_ok (resource_scope u p rp)) (policyv1.rp_Rules rp) ∧ acyclic (resource_scope u p rp))
    (λ x s', ok s' → ∃ c, x = Some (c, policyv1.rp_Schemas rp, policyv1.p_SourceAttributes p) ∧ compiled_resource_policy u p rp c).
Proof.
  intros Hu [<- _] [Ec Ev] Hroles. apply compile_scope_spec; [done..|]. intros s1 Hs1.
  eapply cspec_bind; [by apply compileResourceRules_spec|]. cbn beta. intros rules s2 E2 [Hrules Hs2]. cbn [app] in Hs2.
  eapply (list_used_spec _ _ mc s2 (λ constants vs, Some (MkResourcePolicy (policyv1.rp_Scope rp) roles rules vs
    (effective_permissions (policyv1.rp_ScopePermissions rp)) constants, policyv1.rp_Schemas rp, policyv1.p_SourceAttributes (mc_def mc)))); [exact Hs2|].
  intros m vs s3 E3 Hs3 Hlist Hok. eexists. split; [done|]. split; cbn; [done|done|apply Hrules; tauto|by apply Hlist|done].
Qed.

Lemma compileResourcePolicy_spec u mc schemaMgr p s :
  unit_typed u → context_of p mc → fresh s →
  cspec (compileResourcePolicy u mc schemaMgr) s (∃ rp, policyv1.GetResourcePolicy p = Some rp ∧ resource_policy_ok u schemaMgr p rp)
    (λ x s', ok s' → ∃ rp c, policyv1.GetResourcePolicy p = Some rp ∧ x = Some (c, policyv1.rp_Schemas rp, policyv1.p_SourceAttributes p) ∧
      compiled_resource_policy u p rp c).
Proof.
  intros Hu Hmc [Ec Ev]. unfold compileResourcePolicy. rewrite (co_def _ _ Hmc). destruct (policyv1.GetResourcePolicy p) as [rp|].
  2: { apply cspec_fails; [|by intros (? & ? & _)]. by apply fail_spec. }
  eapply cspec_iff; [eapply cspec_bind with (P2 := schemas_ok schemaMgr rp ∧ scope_ok u (policyv1.rp_Constants rp) (policyv1.rp_Variables rp) (policyv1.p_Variables p) ∧
     Forall (resource_rule_ok (resource_scope u p rp)) (policyv1.rp_Rules rp) ∧ acyclic (resource_scope u p rp)); [by apply compileImportedDerivedRoles_spec|]|].
  - cbn beta. intros [roles|] s1 E1 [Hx [Ec1 Ev1]]; [|eapply cspec_after_error; [exact Hx|by apply cspec_ret]].
    destruct Hx as [Hok1 Hroles]. eapply cspec_bind with (Q1 := λ b s', (ok s' ↔ b = true) ∧ fresh s').
    + destruct schemaMgr as [mgr|].
      * eapply cspec_mono; [by apply checkReferencedSchemas_spec|]. intros b s2 _ (Hb & Ec2 & Ev2). split; [done|]. split; congruence.
      * eapply cspec_holds; [apply cspec_ret|done]. split; [done|]. split; congruence.
    + intros [|] s2 E2 [Hb Hf2]; cbn [negb].
      * eapply cspec_mono; [by apply resource_policy_body|]. intros x s3 _ Hx Hok. destruct (Hx Hok) as (c & -> & Hc). by exists rp, c.
      * eapply cspec_after_error; [by rewrite Hb|]. apply cspec_ret. by rewrite Hb.
  - intros _. split; [intros (? & ? & ? & ? & ?); exists rp; split; [done|]; by split|]. by intros (? & [= <-] & [? ? ? ? ?]).
Qed.

(** * Ancestors *)

Lemma Forall2_last {A B} (R : A → B → Prop) l k :
  Forall2 R l k → match last l, last k with Some x, Some y => R x y | None, None => True | _, _ => False end.
Proof.
  intros Hlk. destruct l as [|x l _] using rev_ind; [by apply Forall2_nil_inv_l in Hlk as ->|].
  apply Forall2_app_inv_l in Hlk as (k1 & k2 & _ & Hk2 & ->). apply Forall2_cons_inv_l in Hk2 as (y & k3 & Hy & Hk3 & ->).
  apply Forall2_nil_inv_l in Hk3 as ->. by rewrite !last_snoc.
Qed.

Lemma RequiredAncestors_spec p ids :
  Ancestors p = Some ids → ∃ required, RequiredAncestors p = Some required ∧ ∀ id, id ∈ ids → is_Some (required !! id).
Proof.
  unfold Ancestors, RequiredAncestors. destruct (policy_FQNTree p) as [tree|]; [|done]. cbn [mbind option_bind]. intros [= <-].
  eexists. split; [done|]. intros id. generalize (tail tree) as l. intros l. induction l as [|fqn l IH] using rev_ind; [by intros ?%elem_of_nil|].
  rewrite fmap_app, foldl_app, elem_of_app. cbn [fmap list_fmap foldl]. rewrite list_elem_of_singleton.
  destruct (decide (GenModuleIDFromFQN fqn = id)) as [->|Hne]; [by rewrite lookup_insert_eq|]. rewrite lookup_insert_ne by done.
  intros [?| ->]; [auto|done].
Qed.

Lemma reportMissingAncestors_spec u mc p ids id s :
  context_of p mc → Ancestors p = Some ids → id ∈ ids → unit_typed u → definition_of u id = None →
  cspec (reportMissingAncestors u mc) s False (λ _ s', True).
Proof.
  intros Hmc Hids Hid Hu Hnone. destruct (RequiredAncestors_spec _ _ Hids) as (required & Hreq & Hall). unfold reportMissingAncestors.
  eapply cspec_bind_T; [eapply cspec_lift with (Q := λ x s', x = required ∧ s' = s) (x := required); [by rewrite (co_def _ _ Hmc)|done]|].
  intros ? ? _ [-> ->]. eapply cspec_iff.
  - apply (cspec_forST_inv (λ _, True) (λ x, is_Some (cu_Definitions u !! x.1))); [done|]. intros [k fqn] s' _ _ _. apply cspec_unless; [done|].
    intros _. by apply cspec_addErr.
  - intros _. split; [|done]. rewrite Forall_forall. intros Hdef. destruct (Hall id Hid) as [fqn Hfqn].
    destruct (Hdef (id, fqn)) as [d Hd]; [by apply elem_of_go_range|]. destruct (Hu _ _ Hd) as (q & -> & _).
    unfold definition_of in Hnone. cbn in Hd. by rewrite Hd in Hnone.
Qed.

(** One policy, compiled in a context of its own. *)
Definition body_spec {P} (body : moduleCtx → ST CS (option P)) (Pb : policyv1.Policy → Prop) (Rb : policyv1.Policy → P → Prop) : Prop :=
  ∀ p mc s, context_of p mc → fresh s → cspec (body mc) s (Pb p) (λ x s', ok s' → ∃ y, x = Some y ∧ Rb p y).

(** An ancestor and what it compiles to. *)
Definition compiled_ancestor {P} u (Rb : policyv1.Policy → P → Prop) (id : ModuleID) (e : moduleCtx * option P) : Prop :=
  ∃ p y, definition_of u id = Some p ∧ context_of p e.1 ∧ e.2 = Some y ∧ Rb p y.

Lemma compile_ancestors_spec {P} u mc p ids (body : moduleCtx → ST CS (option P)) stop Pb Rb l s :
  unit_typed u → context_of p mc → Ancestors p = Some ids → (∀ id, id ∈ l → id ∈ ids) → body_spec body Pb Rb →
  cspec (compile_ancestors u mc body stop l) s (Forall (λ id, ∃ q, definition_of u id = Some q ∧ Pb q) l)
    (λ x s', ok s' → ∃ es, x = Some es ∧ Forall2 (compiled_ancestor u Rb) l es).
Proof.
  intros Hu Hmc Hids Hl Hbody. revert s. induction l as [|id l IH]; intros s; cbn [compile_ancestors].
  { eapply cspec_holds; [apply cspec_ret|by constructor]. intros _. by exists []. }
  eapply cspec_iff; [|intros _; symmetry; apply Forall_cons]. apply cspec_moduleCtx; [done|..].
  - intros Hnone. apply cspec_fails; [|rewrite Hnone; by intros [(? & ? & _) _]].
    eapply cspec_iff; [eapply cspec_bind with (P2 := True); [eapply reportMissingAncestors_spec; [done|done| |done|exact Hnone]; apply Hl; left|]|tauto].
    intros [] s1 E1 _. apply cspec_ret. tauto.
  - intros q qmc Eq Hqmc. rewrite Eq. eapply cspec_iff; [eapply cspec_bind|].
    + apply cspec_in_module. eapply cspec_mono; [by apply (Hbody q)|]. intros x s1 E1 Hx s2 Ee2 _ _.
      instantiate (1 := λ x s2, ok s2 → ∃ y, x.1 = Some y ∧ Rb q y). unfold ok in *. by rewrite Ee2.
    + intros [x cs] s1 E1 Hx. cbn [fst] in Hx. eapply cspec_iff with (P := Forall (λ id, ∃ q, definition_of u id = Some q ∧ Pb q) l); [|done].
      assert (cspec (rest ← compile_ancestors u mc body stop l; mret (cons (qmc, x) <$> rest)) s1
        (Forall (λ id, ∃ q, definition_of u id = Some q ∧ Pb q) l)
        (λ x s', ok s' → ∃ es, x = Some es ∧ Forall2 (compiled_ancestor u Rb) (id :: l) es)) as Hrest.
      { eapply cspec_iff; [eapply cspec_bind with (P2 := True); [apply IH; intros i Hi; apply Hl; by right|]|tauto].
        intros rest s2 E2 Hres. apply cspec_ret. intros Hok. destruct (Hres Hok) as (es & -> & Hes). eexists. split; [done|]. constructor; [|done].
        destruct (Hx ltac:(tauto)) as (y & -> & Hy). by exists q, y. }
      destruct x as [y|]; [exact Hrest|]. destruct stop; [|exact Hrest]. eapply cspec_after_error.
      * intros Hok. by destruct (Hx Hok) as (? & ? & _).
      * apply cspec_ret. intros Hok. by destruct (Hx Hok) as (? & ? & _).
    + intros _. split.
      * intros [? ?]. split; [by exists q|done].
      * intros [(q' & [= <-] & ?) ?]. done.
Qed.

(** The policy and its ancestors, when all are defined. *)
Definition lineage u p : option (list policyv1.Policy) :=
  ids ← Ancestors p; rest ← mapM (definition_of u) ids; Some (p :: rest).

(** Source attributes by policy key. *)
Definition lineage_attributes (l : list policyv1.Policy) : gmap string string :=
  foldl (λ m q, <[PolicyKeyFromFQN (default "" (policy_FQN q)) := policyv1.p_SourceAttributes q]> m) ∅ l.

Lemma Forall_lineage u p ids (Pb : policyv1.Policy → Prop) :
  Ancestors p = Some ids → Pb p ∧ Forall (λ id, ∃ q, definition_of u id = Some q ∧ Pb q) ids ↔ ∃ l, lineage u p = Some l ∧ Forall Pb l.
Proof.
  intros Hids. unfold lineage. rewrite Hids. cbn [mbind option_bind]. split.
  - intros [Hp Hall]. assert (∃ rest, mapM (definition_of u) ids = Some rest ∧ Forall Pb rest) as (rest & -> & Hrest).
    { clear Hids. induction Hall as [|id ids (q & Eq & Hq) _ (rest & Er & Hrest)]; [by exists []|]. exists (q :: rest). cbn. rewrite Eq. cbn. rewrite Er. split; [done|]. by constructor. }
    eexists. split; [done|]. by constructor.
  - intros (l & El & Hl). destruct (mapM (definition_of u) ids) as [rest|] eqn:Er; [|done]. injection El as <-. apply Forall_cons in Hl as [? Hl].
    split; [done|]. apply mapM_Some in Er. clear Hids. revert Hl. induction Er as [|id q ids rest Eq _ IH]; [constructor|].
    intros [? ?]%Forall_cons. constructor; [by exists q|by apply IH].
Qed.

(** What the loop over ancestors collects, along the lineage. *)
Lemma ancestors_lineage {P} u p mc ids (Rb : policyv1.Policy → P * string → Prop) y es :
  Ancestors p = Some ids → context_of p mc → Rb p y → Forall2 (compiled_ancestor u Rb) ids es →
  (∀ q z, Rb q z → z.2 = policyv1.p_SourceAttributes q) →
  ∃ l, lineage u p = Some l ∧ Forall2 (λ q c, ∃ a, Rb q (c, a)) l (compiled_policies ((mc, Some y) :: es)) ∧
    attributes ((mc, Some y) :: es) = lineage_attributes l.
Proof.
  intros Hids Hmc Hy Hes Hattr. unfold lineage. rewrite Hids. cbn [mbind option_bind].
  assert (∃ rest, mapM (definition_of u) ids = Some rest ∧ Forall2 (λ q c, ∃ a, Rb q (c, a)) rest (compiled_policies es) ∧
    Forall2 (λ q e, context_of q e.1 ∧ default "" (snd <$> e.2) = policyv1.p_SourceAttributes q) rest es) as (rest & -> & Hrest & Hctx).
  { clear Hids. induction Hes as [|id [qmc qy] ids es (q & z & Eq & Hqmc & Ez & Hz) _ (rest & Er & Hrest & Hctx)]; [by exists []|].
    cbn in Ez, Hqmc. subst qy. exists (q :: rest). cbn. rewrite Eq. cbn. rewrite Er. split; [done|]. split; constructor; [|done| |done].
    - exists z.2. by destruct z.
    - split; [done|]. by apply Hattr. }
  eexists. split; [done|]. split.
  - cbn. constructor; [|done]. exists y.2. by destruct y.
  - unfold attributes, lineage_attributes. cbn [foldl]. rewrite (co_fqn _ _ Hmc). cbn [from_option fmap option_fmap option_map]. unfold id at 1. rewrite (Hattr _ _ Hy).
    unfold id. generalize (<[PolicyKeyFromFQN (mc_fqn mc):=policyv1.p_SourceAttributes p]> (∅ : gmap string string)) as m. clear -Hctx.
    induction Hctx as [|q [qmc qy] rest es [Hq Ha] _ IH]; intros m; [done|]. cbn [foldl]. rewrite (co_fqn _ _ Hq). cbn in Ha |- *. unfold id in *. rewrite Ha. apply IH.
Qed.

(** * Resource policy sets *)

Definition is_resource_policy u schemaMgr (q : policyv1.Policy) : Prop :=
  ∃ rq, policyv1.GetResourcePolicy q = Some rq ∧ resource_policy_ok u schemaMgr q rq.
Record compiled_resource_set u p (rp : policyv1.ResourcePolicy) (l : list policyv1.Policy) (cs : list ResourcePolicy) (rps : RunnablePolicySet) : Prop := {
  crs_lineage : lineage u p = Some l;
  crs_policies : Forall2 (λ q c, ∃ rq, policyv1.GetResourcePolicy q = Some rq ∧ compiled_resource_policy u q rq c) l cs;
  crs_set : rps = PS_Resource (MkSetMeta (default "" (policy_FQN p)) (policyv1.rp_Resource rp) (policyv1.rp_Version rp) (lineage_attributes l))
                    cs (q ← last l; rq ← policyv1.GetResourcePolicy q; policyv1.rp_Schemas rq);
}.

Lemma compileResourcePolicySet_spec u mc schemaMgr p rp s :
  unit_typed u → context_of p mc → fresh s → MainPolicy u = Some p → policyv1.GetResourcePolicy p = Some rp →
  cspec (compileResourcePolicySet u mc schemaMgr) s (∃ l, lineage u p = Some l ∧ Forall (is_resource_policy u schemaMgr) l)
    (λ x s', ok s' → ∃ l cs rps, x = Some rps ∧ compiled_resource_set u p rp l cs rps).
Proof.
  intros Hu Hmc Hf Hmain Hrp. unfold compileResourcePolicySet. rewrite (co_def _ _ Hmc), Hrp.
  assert (∃ ids, Ancestors p = Some ids) as [ids Hids].
  { unfold Ancestors, policy_FQNTree. unfold policyv1.GetResourcePolicy in Hrp. destruct (policyv1.p_PolicyType p); [by eexists|done]. }
  eapply cspec_bind_T; [eapply cspec_lift with (Q := λ x s', x = ids ∧ s' = s) (x := ids); [unfold unit_Ancestors; by rewrite Hmain|done]|].
  intros ? ? _ [-> ->]. set (Rb := λ q (z : (ResourcePolicy * option Schemas_) * string), ∃ rq c, policyv1.GetResourcePolicy q = Some rq ∧
    z = (c, policyv1.rp_Schemas rq, policyv1.p_SourceAttributes q) ∧ compiled_resource_policy u q rq c).
  assert (body_spec (λ mc, compileResourcePolicy u mc schemaMgr) (is_resource_policy u schemaMgr) Rb) as Hbody.
  { intros q qmc s' Hqmc Hf'. eapply cspec_mono; [by apply compileResourcePolicy_spec|]. intros x s1 _ Hx Hok.
    destruct (Hx Hok) as (rq & c & Hrq & -> & Hc). eexists. split; [done|]. by exists rq, c. }
  eapply cspec_iff; [|intros _; by apply Forall_lineage]. eapply cspec_bind; [by apply (Hbody p)|]. cbn beta. intros x s1 E1 Hx.
  destruct x as [y|]; [|eapply cspec_after_error; [intros Hok; by destruct (Hx Hok) as (? & ? & _)|]; apply cspec_ret; intros Hok; by destruct (Hx Hok) as (? & ? & _)].
  eapply cspec_iff; [eapply cspec_bind with (P2 := True); [by eapply (compile_ancestors_spec u mc p ids)|]|tauto].
  cbn beta. intros rest s2 E2 Hrest. destruct rest as [es|]; apply cspec_ret; intros Hok; destruct (Hrest Hok) as (es' & [= <-] & Hes).
  destruct (Hx ltac:(tauto)) as (y' & [= <-] & Hy).
  destruct (ancestors_lineage u p mc ids Rb y es Hids Hmc Hy Hes) as (l & Hl & Hcs & Hattr); [by intros q z (? & ? & _ & -> & _)|].
  exists l, (fst <$> compiled_policies ((mc, Some y) :: es)). eexists. split; [done|]. split; [done|..].
  - apply Forall2_fmap_r. eapply Forall2_impl; [exact Hcs|]. cbn. intros q c (a & rq & c' & Hrq & [= -> ->] & Hc). by exists rq.
  - rewrite Hattr, (co_fqn _ _ Hmc). cbn [from_option]. unfold id. f_equal.
    pose proof (Forall2_last _ _ _ Hcs) as Hlast. destruct (last l) as [q|], (last (compiled_policies _)) as [c|]; [|done..].
    destruct Hlast as (a & rq & c' & Hrq & [= -> ->] & Hc). cbn. by rewrite Hrq.
Qed.

(** * Principal policy sets *)

Definition principal_scope u p (pp : policyv1.PrincipalPolicy) : Defs :=
  scope_of u (policyv1.pp_Constants pp) (policyv1.pp_Variables pp) (policyv1.p_Variables p).
Record principal_policy_ok u p (pp : policyv1.PrincipalPolicy) : Prop := {
  ppo_scope : scope_ok u (policyv1.pp_Constants pp) (policyv1.pp_Variables pp) (policyv1.p_Variables p);
  ppo_rules : Forall (principal_rule_ok (principal_scope u p pp)) (policyv1.pp_Rules pp);
  ppo_acyclic : acyclic (principal_scope u p pp);
}.
Record compiled_principal_policy u p (pp : policyv1.PrincipalPolicy) (c : PrincipalPolicy) : Prop := {
  cpp_scope : pp_Scope c = policyv1.pp_Scope pp;
  cpp_rules : pp_ResourceRules c = runnable_principal_rules (policyv1.pp_Rules pp);
  cpp_lists : lists_for (principal_scope u p pp) (policyv1.pp_Rules pp ≫= principal_rule_exprs) (pp_OrderedVariables c) (pp_Constants c);
  cpp_permissions : pp_ScopePermissions c = effective_permissions (policyv1.pp_ScopePermissions pp);
}.

Definition is_principal_policy u (q : policyv1.Policy) : Prop := ∃ pq, policyv1.GetPrincipalPolicy q = Some pq ∧ principal_policy_ok u q pq.

Lemma compilePrincipalPolicy_spec u mc p s :
  unit_typed u → context_of p mc → fresh s →
  cspec (compilePrincipalPolicy u mc) s (is_principal_policy u p)
    (λ x s', ok s' → ∃ y, x = Some y ∧ ∃ pq c, policyv1.GetPrincipalPolicy p = Some pq ∧ y = (c, policyv1.p_SourceAttributes p) ∧ compiled_principal_policy u p pq c).
Proof.
  intros Hu [<- _] [Ec Ev]. unfold compilePrincipalPolicy, is_principal_policy. destruct (policyv1.GetPrincipalPolicy (mc_def mc)) as [pp|].
  2: { apply cspec_fails; [|by intros (? & ? & _)]. by apply fail_spec. }
  eapply cspec_iff; [apply compile_scope_spec; [done..|]|].
  - intros s1 Hs1. eapply cspec_bind; [by apply compilePrincipalRules_spec|]. cbn beta. intros rules s2 E2 [Hrules Hs2]. cbn [app] in Hs2.
    eapply (list_used_spec _ _ mc s2 (λ constants vs, Some (MkPrincipalPolicy (policyv1.pp_Scope pp) rules vs
      (effective_permissions (policyv1.pp_ScopePermissions pp)) constants, policyv1.p_SourceAttributes (mc_def mc)))); [exact Hs2|].
    intros m vs s3 E3 Hs3 Hlist Hok. eexists. split; [done|]. eexists pp, _. split; [done|]. split; [done|].
    split; cbn; [done|apply Hrules; tauto|by apply Hlist|done].
  - intros _. split; [intros (? & ? & ?); exists pp; split; [done|]; by split|]. by intros (? & [= <-] & [? ? ?]).
Qed.

Record compiled_principal_set u p (pp : policyv1.PrincipalPolicy) (l : list policyv1.Policy) (cs : list PrincipalPolicy) (rps : RunnablePolicySet) : Prop := {
  cps_lineage : lineage u p = Some l;
  cps_policies : Forall2 (λ q c, ∃ pq, policyv1.GetPrincipalPolicy q = Some pq ∧ compiled_principal_policy u q pq c) l cs;
  cps_set : rps = PS_Principal (MkSetMeta (default "" (policy_FQN p)) (policyv1.pp_Principal pp) (policyv1.pp_Version pp) (lineage_attributes l)) cs;
}.

Lemma compilePrincipalPolicySet_spec u mc p pp s :
  unit_typed u → context_of p mc → fresh s → MainPolicy u = Some p → policyv1.GetPrincipalPolicy p = Some pp →
  cspec (compilePrincipalPolicySet u mc) s (∃ l, lineage u p = Some l ∧ Forall (is_principal_policy u) l)
    (λ x s', ok s' → ∃ l cs rps, x = Some rps ∧ compiled_principal_set u p pp l cs rps).
Proof.
  intros Hu Hmc Hf Hmain Hpp. unfold compilePrincipalPolicySet. rewrite (co_def _ _ Hmc), Hpp.
  assert (∃ ids, Ancestors p = Some ids) as [ids Hids].
  { unfold Ancestors, policy_FQNTree. unfold policyv1.GetPrincipalPolicy in Hpp. destruct (policyv1.p_PolicyType p); [by eexists|done]. }
  eapply cspec_bind_T; [eapply cspec_lift with (Q := λ x s', x = ids ∧ s' = s) (x := ids); [unfold unit_Ancestors; by rewrite Hmain|done]|].
  intros ? ? _ [-> ->]. set (Rb := λ q (z : PrincipalPolicy * string), ∃ pq c, policyv1.GetPrincipalPolicy q = Some pq ∧
    z = (c, policyv1.p_SourceAttributes q) ∧ compiled_principal_policy u q pq c).
  assert (body_spec (compilePrincipalPolicy u) (is_principal_policy u) Rb) as Hbody by (intros q qmc s' Hqmc Hf'; by apply compilePrincipalPolicy_spec).
  eapply cspec_iff; [|intros _; by apply Forall_lineage]. eapply cspec_bind; [by apply (Hbody p)|]. cbn beta. intros x s1 E1 Hx.
  eapply cspec_iff; [eapply cspec_bind with (P2 := True); [by eapply (compile_ancestors_spec u mc p ids)|]|tauto].
  cbn beta. intros rest s2 E2 Hrest. destruct rest as [es|]; apply cspec_ret; intros Hok; destruct (Hrest Hok) as (es' & [= <-] & Hes).
  destruct (Hx ltac:(tauto)) as (y & -> & Hy).
  destruct (ancestors_lineage u p mc ids Rb y es Hids Hmc Hy Hes) as (l & Hl & Hcs & Hattr); [by intros q z (? & ? & _ & -> & _)|].
  exists l, (compiled_policies ((mc, Some y) :: es)). eexists. split; [done|]. split; [done|..].
  - eapply Forall2_impl; [exact Hcs|]. cbn. intros q c (a & pq & c' & Hpq & [= -> ->] & Hc). by exists pq.
  - by rewrite Hattr, (co_fqn _ _ Hmc).
Qed.

(** * Role policy sets *)

Definition role_scope u p (rp : policyv1.RolePolicy) : Defs :=
  scope_of u (policyv1.ro_Constants rp) (policyv1.ro_Variables rp) (policyv1.p_Variables p).
Record role_policy_ok u p (rp : policyv1.RolePolicy) : Prop := {
  rlo_scope : scope_ok u (policyv1.ro_Constants rp) (policyv1.ro_Variables rp) (policyv1.p_Variables p);
  rlo_rules : Forall (role_rule_ok (role_scope u p rp)) (policyv1.ro_Rules rp);
  rlo_acyclic : acyclic (role_scope u p rp);
}.
Record compiled_role_set u p (rp : policyv1.RolePolicy) (c : RolePolicySet) : Prop := {
  crl_meta : rps_Meta c = MkSetMeta (default "" (policy_FQN p)) (policyv1.ro_Role rp)
    (if decide (policyv1.ro_Version rp = "") then DefaultVersion else policyv1.ro_Version rp)
    {[PolicyKeyFromFQN (default "" (policy_FQN p)) := policyv1.p_SourceAttributes p]};
  crl_role : rps_Role c = policyv1.ro_Role rp;
  crl_scope : rps_Scope c = policyv1.ro_Scope rp;
  crl_rules : rps_Resources c = group_rules (runnable_role_rule <$> policyv1.ro_Rules rp);
  crl_parents : rps_ParentRoles c = policyv1.ro_ParentRoles rp;
  crl_lists : lists_for (role_scope u p rp) (policyv1.ro_Rules rp ≫= role_rule_exprs) (rps_OrderedVariables c) (rps_Constants c);
}.

Lemma compileRolePolicySet_spec u mc p rp s :
  unit_typed u → context_of p mc → fresh s → policyv1.GetRolePolicy p = Some rp →
  cspec (compileRolePolicySet u mc) s (role_policy_ok u p rp) (λ x s', ok s' → ∃ c, x = Some (PS_Role c) ∧ compiled_role_set u p rp c).
Proof.
  intros Hu [<- Hfqn] [Ec Ev] Hrp. unfold compileRolePolicySet. rewrite Hrp. eapply cspec_iff; [apply compile_scope_spec; [done..|]|].
  - intros s1 Hs1. eapply cspec_bind.
    { apply compile_all_spec with (P := role_rule_ok (role_scope u (mc_def mc) rp)) (es := role_rule_exprs) (r := runnable_role_rule); [|exact Hs1].
      intros r exprs' s' Hs'. by apply compileRoleRule_spec. }
    cbn beta. intros rules s2 E2 [Hrules Hs2]. cbn [app] in Hs2.
    eapply (list_used_spec _ _ mc s2 (λ constants vs, Some (PS_Role (MkRolePolicySet
        (MkSetMeta (mc_fqn mc) (policyv1.ro_Role rp) _ {[PolicyKeyFromFQN (mc_fqn mc) := policyv1.p_SourceAttributes (mc_def mc)]})
        (policyv1.ro_Role rp) (policyv1.ro_Scope rp) (group_rules rules) (policyv1.ro_ParentRoles rp) vs constants)))); [exact Hs2|].
    intros m vs s3 E3 Hs3 Hlist Hok. eexists. split; [done|]. split; cbn; rewrite ?Hfqn; [done..| | |].
    + by rewrite Hrules by tauto.
    + done.
    + by apply Hlist.
  - intros _. split; [intros (? & ? & ?); by split|by intros [? ? ?]].
Qed.

(** * Units *)

(** A policy that can be compiled, and what it compiles to: the policies that
    only define something for others compile to nothing. *)
Definition module_ok u schemaMgr p : Prop :=
  match policyv1.p_PolicyType p with
  | Some (policyv1.Policy_ResourcePolicy _) => ∃ l, lineage u p = Some l ∧ Forall (is_resource_policy u schemaMgr) l
  | Some (policyv1.Policy_PrincipalPolicy _) => ∃ l, lineage u p = Some l ∧ Forall (is_principal_policy u) l
  | Some (policyv1.Policy_RolePolicy rp) => role_policy_ok u p rp
  | Some _ => True
  | None => False
  end.
Definition compiled_module u p (rps : option RunnablePolicySet) : Prop :=
  match policyv1.p_PolicyType p with
  | Some (policyv1.Policy_ResourcePolicy rp) => ∃ l cs r, rps = Some r ∧ compiled_resource_set u p rp l cs r
  | Some (policyv1.Policy_PrincipalPolicy pp) => ∃ l cs r, rps = Some r ∧ compiled_principal_set u p pp l cs r
  | Some (policyv1.Policy_RolePolicy rp) => ∃ c, rps = Some (PS_Role c) ∧ compiled_role_set u p rp c
  | _ => rps = None
  end.

Lemma compile_module_spec u mc schemaMgr p s :
  unit_typed u → context_of p mc → fresh s → MainPolicy u = Some p → is_Some (policyv1.p_PolicyType p) →
  cspec (compile_module u mc schemaMgr) s (module_ok u schemaMgr p) (λ x s', ok s' → compiled_module u p x).
Proof.
  intros Hu Hmc Hf Hmain [pt Hpt]. unfold compile_module, module_ok, compiled_module. rewrite (co_def _ _ Hmc).
  destruct pt as [rp|pp|dr|ev|rl|ec]; rewrite Hpt; try by apply cspec_ret.
  - apply compileResourcePolicySet_spec; try done. unfold policyv1.GetResourcePolicy. by rewrite Hpt.
  - apply compilePrincipalPolicySet_spec; try done. unfold policyv1.GetPrincipalPolicy. by rewrite Hpt.
  - eapply cspec_mono; [apply compileRolePolicySet_spec; try done; unfold policyv1.GetRolePolicy; by rewrite Hpt|].
    cbn beta. intros x s' _ HQ Hok. destruct (HQ Hok) as (c & Hc). by exists c.
Qed.

(** A unit that can be compiled, and what it compiles to. *)
Definition unit_ok u schemaMgr : Prop := ∃ p, MainPolicy u = Some p ∧ module_ok u schemaMgr p.
Definition compiled_unit u (rps : option RunnablePolicySet) : Prop := ∃ p, MainPolicy u = Some p ∧ compiled_module u p rps.

Lemma Compile_spec u schemaMgr : unit_typed u →
  ∃ rps err, Compile u schemaMgr = Some (rps, err) ∧ (err = None ↔ unit_ok u schemaMgr) ∧ (err = None → compiled_unit u rps).
Proof.
  intros Hu. unfold Compile. pose proof (unit_moduleCtx_spec u (cu_ModID u) Hu) as Hmc. unfold unit_ok, compiled_unit.
  change (definition_of u (cu_ModID u)) with (MainPolicy u) in Hmc. destruct (MainPolicy u) as [p|] eqn:Hmain.
  2: { rewrite Hmc. eexists None, _. split; [done|]. split; [split; [done|by intros (? & ? & _)]|done]. }
  destruct Hmc as (mc & -> & Hmc). rewrite bind_some. set (s0 := MkCS [] None None).
  assert (is_Some (policyv1.p_PolicyType p)) as Hpt.
  { unfold MainPolicy in Hmain. destruct (cu_Definitions u !! cu_ModID u) as [d|] eqn:E; [|done]. destruct (Hu _ _ E) as (q & -> & Hq). cbn in Hmain. congruence. }
  destruct (compile_module_spec u mc schemaMgr p s0 Hu Hmc ltac:(done) Hmain Hpt) as (x & s' & -> & E & HR).
  exists x. eexists. rewrite bind_some. split; [done|].
  assert (match st_errors s' with [] => None | errors => Some (CompileErrors errors) end = None ↔ ok s') as ->.
  { unfold ok. by destruct (st_errors s'). }
  rewrite E. split.
  - split; [intros [_ Hok]; by exists p|]. intros (? & [= <-] & Hok). done.
  - intros Hok. exists p. split; [done|]. by apply HR, E.
Qed.
End policies.
