(* ===== verification/CompileTypeSpec.v ===== *)
(** Compiled policies are well typed: expressions refer to constants and variables
    that their policy has, variables to earlier ones, rules to derived roles that
    their policy has; and the variables of accepted policies compile. *)
From S2P Require Import Prelude GoRuntime Bitmap Arena LazyDim Dimension GlobDim Namer Policy ScopePerms IndexCore IndexQuery IndexQuerySpec IndexLookup Index IndexSpec ParentRoles RuleTableBuild RuleTable Manager Eval Check CheckSpec TableSpec PlanExpr CompileSource CompileDefs Compile CompileSpec CompileVarSpec CompileRuleSpec CompileModuleSpec CompilePolicySpec.

Local Open Scope string_scope.
Local Open Scope list_scope.
Open Scope nat_scope.

Lemma Forall2_typed {A B} (P : A → Prop) (R : A → B → Prop) (Q : B → Prop) l k :
  (∀ x y, P x → R x y → Q y) → Forall P l → Forall2 R l k → Forall Q k.
Proof. intros Hq Hl Hr. revert Hl. induction Hr as [|x y l k Hxy _ IH]; intros Hl; inversion Hl; subst; constructor; eauto. Qed.

(** * The expressions of compiled policies *)

Definition condition_sources (c : option Condition) : list string := match c with Some c => Original <$> cond_exprs c | None => [] end.
Definition output_sources (o : option Output) : list string :=
  match o ≫= When with
  | Some w => Original <$> (option_list (RuleActivated w) ++ option_list (ConditionNotMet w))
  | None => []
  end.
Definition body_sources (c : option Condition) (o : option Output) : list string := condition_sources c ++ output_sources o.

Lemma cond_exprs_runnable m : Original <$> cond_exprs (runnable_match m) = match_exprs m.
Proof.
  assert (∀ l, Forall (λ m', Original <$> cond_exprs (runnable_match m') = match_exprs m') l →
    Original <$> flat_map cond_exprs (runnable_match <$> l) = l ≫= match_exprs) as Hl.
  { induction 1 as [|m' l Hm _ IH]; [done|]. cbn [flat_map fmap list_fmap mbind list_bind]. by rewrite fmap_app, Hm, <- IH. }
  induction m as [e| |l IH|l IH|l IH] using Match_ind'; [done..| | |]; cbn; by apply Hl.
Qed.

Lemma condition_sources_runnable c : condition_sources (runnable_condition c) = condition_exprs c.
Proof. destruct c as [[[m|]| |]|]; [|done..]. apply cond_exprs_runnable. Qed.

Lemma output_sources_runnable o e : e ∈ output_sources (runnable_output o) → e ∈ output_exprs o.
Proof.
  destruct o as [o|]; [|by intros ?%elem_of_nil]. unfold output_sources, runnable_output, output_exprs. cbn.
  unfold set_exprs. repeat case_decide; cbn; rewrite ?elem_of_cons, ?elem_of_nil; tauto.
Qed.

Lemma body_sources_runnable c o e : e ∈ body_sources (runnable_condition c) (runnable_output o) → e ∈ body_exprs c o.
Proof.
  unfold body_sources, body_exprs. rewrite condition_sources_runnable, !elem_of_app. intros [?|?%output_sources_runnable]; auto.
Qed.

Section typed.
Context `{CelChecker}.

(** * Well-scoped lists of variables *)

Record closed_expr (cs : gmap string Value) (names : list string) (src : string) : Prop := {
  ce_constants : ∀ c, c ∈ expr_constants src → is_Some (cs !! c);
  ce_variables : ∀ x, x ∈ expr_variables src → x ∈ names;
}.

(** Variables are distinct and refer to earlier ones, [exprs] to any. *)
Record well_scoped (cs : gmap string Value) (vs : list Variable_) (exprs : list string) : Prop := {
  ws_names : NoDup (var_Name <$> vs);
  ws_order : ∀ i v, vs !! i = Some v → closed_expr cs (var_Name <$> take i vs) (Original (var_Expr v));
  ws_exprs : Forall (closed_expr cs (var_Name <$> vs)) exprs;
}.

Lemma well_scoped_sub cs vs exprs exprs' : (∀ e, e ∈ exprs' → e ∈ exprs) → well_scoped cs vs exprs → well_scoped cs vs exprs'.
Proof. intros Hsub [? ? He]. split; [done..|]. rewrite Forall_forall in He |- *. auto. Qed.

Definition role_typed (r : RunnableDerivedRole) : Prop :=
  well_scoped (dr_Constants r) (dr_OrderedVariables r) (condition_sources (dr_Condition r)).
Record resource_typed (p : ResourcePolicy) : Prop := {
  rt_rules : well_scoped (rp_PolicyConstants p) (rp_OrderedVariables p) (rp_Rules p ≫= λ r, body_sources (rr_Condition r) (rr_EmitOutput r));
  rt_roles : map_Forall (λ _, role_typed) (rp_DerivedRoles p);
  rt_referenced : ∀ r n, r ∈ rp_Rules p → n ∈ rr_DerivedRoles r → is_Some (rp_DerivedRoles p !! n);
  rt_output : Forall (λ r, rr_Output r = None) (rp_Rules p);
}.
Definition action_rules (m : gmap string (list ActionRule)) : list ActionRule := (map_to_list m).*2 ≫= id.
Definition principal_typed (p : PrincipalPolicy) : Prop :=
  well_scoped (pp_Constants p) (pp_OrderedVariables p) (action_rules (pp_ResourceRules p) ≫= λ r, body_sources (ar_Condition r) (ar_EmitOutput r)).
Definition role_rules (m : gmap string (list RoleRule)) : list RoleRule := (map_to_list m).*2 ≫= id.
Definition role_policy_typed (p : RolePolicySet) : Prop :=
  well_scoped (rps_Constants p) (rps_OrderedVariables p) (role_rules (rps_Resources p) ≫= λ r, body_sources (ro_Condition r) (ro_EmitOutput r)).
Definition set_typed (rps : RunnablePolicySet) : Prop :=
  match rps with
  | PS_Resource _ ps _ => Forall resource_typed ps
  | PS_Principal _ ps => Forall principal_typed ps
  | PS_Role p => role_policy_typed p
  | PS_Other _ => True
  end.
End typed.

Section scoped.
Context `{CelChecker} `{GL : !GraphLaws G} `{GoMapOrder} `{StringHash}.
Implicit Types (D : Defs) (k : list (string * string)) (u : CompilationUnit) (p : policyv1.Policy).

(** What expressions list from a resolved scope is well scoped. *)
Record resolved D : Prop := {
  rs_constants : NoDup (D_constants D).*1;
  rs_variables : variables_resolved D;
}.

Lemma scope_resolved u c v top : scope_ok u c v top → resolved (scope_of u c v top).
Proof. intros [[_ _ Hc] [_ _ _ Hv]]. by split. Qed.

Lemma listed_closed D exprs k cs src names :
  listed D exprs k → listed_constants D exprs cs → refs_in D src →
  (∀ c, c ∈ expr_constants src → needs_constant D exprs c) →
  (∀ y, y ∈ expr_variables src → y ∈ names) → closed_expr cs names src.
Proof.
  intros Hk Hcs Hr Hc Hy. split; [|done]. intros c Hin.
  pose proof (ri_constants _ _ Hr c Hin) as ((c' & v) & -> & Hcv)%list_elem_of_fmap. exists v. apply Hcs. split; [done|]. by apply Hc.
Qed.

Lemma lists_for_scoped D exprs vs cs :
  resolved D → Forall (refs_in D) exprs → lists_for D exprs vs cs → well_scoped cs vs exprs.
Proof.
  intros [_ [Hnd Hres]] Hex ((k & -> & Hk) & Hcs). rewrite Forall_forall in Hex. rewrite Forall_forall in Hres.
  assert (var_Name <$> (runnable <$> k) = k.*1) as Hnames by (rewrite <- list_fmap_compose; by apply list_fmap_ext).
  assert (∀ y, needs D exprs y → y ∈ (D_variables D).*1 → ∃ d, d ∈ k ∧ d.1 = y) as Hin.
  { intros y Hy (d & -> & Hd)%list_elem_of_fmap. exists d. split; [|done]. apply (ls_needed _ _ _ Hk). by split. }
  split; [rewrite Hnames; apply Hk| |].
  - intros i v Hv. apply list_lookup_fmap_Some_1 in Hv as (d & -> & Hd). cbn.
    assert (d ∈ D_variables D ∧ needs D exprs d.1) as [Hdv Hdn] by (apply (ls_needed _ _ _ Hk); by eapply list_elem_of_lookup_2).
    destruct (Hres d Hdv) as [Hr Hself]. eapply listed_closed; [exact Hk|exact Hcs|exact Hr|..].
    + intros c Hc. right. exists d.1, d.2. by rewrite <- surjective_pairing.
    + intros y Hy. assert (depends D d.1 y) as Hdep by (exists d.2; by rewrite <- surjective_pairing).
      destruct (Hin y) as (d' & Hd' & <-); [by eapply needs_closed|by apply Hr|].
      apply list_elem_of_lookup in Hd' as [j Hj]. assert (j < i) as Hji.
      { destruct (Nat.lt_total j i) as [|[->|Hij]]; [done| |].
        - rewrite Hd in Hj. injection Hj as ->. by destruct Hself.
        - by destruct (StronglySorted_lookup_lt _ k i j d d' (ls_order _ _ _ Hk) Hd Hj Hij). }
      rewrite fmap_take, Hnames. apply list_elem_of_lookup. exists j. rewrite lookup_take_lt by done. by rewrite list_lookup_fmap, Hj.
  - apply Forall_forall. intros e He. pose proof (Hex e He) as Hr. eapply listed_closed; [exact Hk|exact Hcs|exact Hr|..].
    + intros c Hc. left. by exists e.
    + intros y Hy. destruct (Hin y) as (d & Hd & <-); [by exists e, y|by apply Hr|]. rewrite Hnames. by apply list_elem_of_fmap_2.
Qed.

(** ** Policies *)

Lemma body_refs_in D c o : body_ok D c o → Forall (refs_in D) (body_exprs c o).
Proof.
  intros [[_ Hc] [_ Ho]]. unfold body_exprs. apply Forall_app. split; (eapply Forall_impl; [done|]); by intros e [_ ?].
Qed.

Lemma bodies_refs_in {A} D (P : A → Prop) (es : A → list string) l :
  (∀ x, P x → Forall (refs_in D) (es x)) → Forall P l → Forall (refs_in D) (l ≫= es).
Proof. intros Hes Hl. apply Forall_bind. eapply Forall_impl; [exact Hl|done]. Qed.

Lemma compiled_role_typed u p dr d r :
  roles_ok u p dr → d ∈ policyv1.drs_Definitions dr → compiled_role (roles_scope u p dr) (DerivedRolesFQN (policyv1.drs_Name dr)) d r → role_typed r.
Proof.
  intros [Hs Hd] Hin [_ _ Hc Hl _]. unfold role_typed. rewrite Hc, condition_sources_runnable.
  eapply lists_for_scoped; [by apply scope_resolved| |exact Hl]. rewrite Forall_forall in Hd. destruct (Hd d Hin) as [[_ He] _].
  eapply Forall_impl; [exact He|]. by intros e [_ ?].
Qed.

Lemma compiled_resource_typed u schemaMgr p rp c :
  resource_policy_ok u schemaMgr p rp → compiled_resource_policy u p rp c → resource_typed c.
Proof.
  intros [Hroles _ Hs Hrules _] [_ Hc Hr Hl _]. split.
  - eapply well_scoped_sub; [|eapply lists_for_scoped; [by apply scope_resolved| |exact Hl]].
    + intros e. rewrite Hr. unfold runnable_resource_rules. rewrite !list_elem_of_bind. intros (r & He & Hin).
      apply list_elem_of_lookup in Hin as [i Hi]. rewrite list_lookup_imap in Hi. destruct (policyv1.rp_Rules rp !! i) as [q|] eqn:Hq; [|done].
      injection Hi as <-. exists q. split; [|by eapply list_elem_of_lookup_2]. by apply body_sources_runnable.
    + eapply bodies_refs_in; [|exact Hrules]. intros r [_ Hb]. by apply body_refs_in.
  - intros n r Hn. destruct (cri_roles _ _ _ Hc n r Hn) as (imp & q & dr & d & Himp & Hexp & Hd & _ & Hcr).
    pose proof (rio_imports _ _ Hroles) as Hi. rewrite Forall_forall in Hi. destruct (Hi imp Himp) as (q' & dr' & Hexp' & Hok).
    rewrite Hexp in Hexp'. injection Hexp' as <- <-. by eapply compiled_role_typed.
  - intros r n. rewrite Hr. intros Hin Hn. apply (cri_names _ _ _ Hc). apply elem_of_rule_roles.
    apply list_elem_of_lookup in Hin as [i Hi]. unfold runnable_resource_rules in Hi. rewrite list_lookup_imap in Hi.
    destruct (policyv1.rp_Rules rp !! i) as [q|] eqn:Hq; [|done]. injection Hi as <-. exists q.
    split; [by eapply list_elem_of_lookup_2|]. cbn in Hn. by apply elem_of_list_to_set in Hn.
  - rewrite Hr. apply Forall_forall. intros r Hin. apply list_elem_of_lookup in Hin as [i Hi]. unfold runnable_resource_rules in Hi.
    rewrite list_lookup_imap in Hi. destruct (policyv1.rp_Rules rp !! i); [|done]. by injection Hi as <-.
Qed.

Lemma runnable_principal_rules_lookup l res ars :
  runnable_principal_rules l !! res = Some ars → ∃ r, r ∈ l ∧ policyv1.prule_Resource r = res ∧ ars = runnable_actions r.
Proof.
  induction l as [|r l IH] using rev_ind; [done|]. unfold runnable_principal_rules in *. rewrite foldl_snoc.
  intros [[<- <-]|[_ Hl]]%lookup_insert_Some; [exists r; split; [by apply elem_of_app; right; left|done]|].
  destruct (IH Hl) as (q & Hq & Hr). exists q. split; [by apply elem_of_app; left|done].
Qed.

Lemma compiled_principal_typed u p pp c :
  principal_policy_ok u p pp → compiled_principal_policy u p pp c → principal_typed c.
Proof.
  intros [Hs Hrules _] [_ Hr Hl _]. unfold principal_typed. eapply well_scoped_sub; [|eapply lists_for_scoped; [by apply scope_resolved| |exact Hl]].
  - intros e. rewrite Hr. unfold action_rules. rewrite list_elem_of_bind. intros (ar & He & (ars & Har & Hin)%list_elem_of_bind).
    apply list_elem_of_fmap in Hin as ([res ars'] & -> & Hin%elem_of_map_to_list). cbn in Har.
    apply runnable_principal_rules_lookup in Hin as (r & Hin & _ & ->). apply list_elem_of_lookup in Har as [i Hi].
    unfold runnable_actions in Hi. rewrite list_lookup_imap in Hi. destruct (policyv1.prule_Actions r !! i) as [a|] eqn:Ha; [|done].
    injection Hi as <-. apply list_elem_of_bind. exists r. split; [|done]. apply list_elem_of_bind. exists a.
    split; [|by eapply list_elem_of_lookup_2]. by apply body_sources_runnable.
  - eapply bodies_refs_in; [|exact Hrules]. intros r Har. apply Forall_bind. eapply Forall_impl; [exact Har|].
    intros a Ha. by apply body_refs_in.
Qed.

Lemma group_rules_snoc l res rule :
  group_rules (l ++ [(res, rule)]) = <[res := default [] (group_rules l !! res) ++ [rule]]> (group_rules l).
Proof. unfold group_rules. by rewrite foldl_snoc. Qed.

Lemma elem_of_group_rules l res rule : rule ∈ default [] (group_rules l !! res) ↔ (res, rule) ∈ l.
Proof.
  induction l as [|[res' rule'] l IH] using rev_ind; [unfold group_rules; cbn; by rewrite !elem_of_nil|].
  rewrite group_rules_snoc, elem_of_app, list_elem_of_singleton. destruct (decide (res = res')) as [->|Hne].
  - rewrite lookup_insert_eq. cbn [default from_option id]. rewrite elem_of_app, list_elem_of_singleton, IH. naive_solver.
  - rewrite lookup_insert_ne by done. rewrite IH. naive_solver.
Qed.

Lemma compiled_role_policy_typed u p rp c : role_policy_ok u p rp → compiled_role_set u p rp c → role_policy_typed c.
Proof.
  intros [Hs Hrules _] [_ _ _ Hr _ Hl]. unfold role_policy_typed. eapply well_scoped_sub; [|eapply lists_for_scoped; [by apply scope_resolved| |exact Hl]].
  - intros e. rewrite Hr. unfold role_rules. rewrite list_elem_of_bind. intros (rr & He & (rrs & Hrr & Hin)%list_elem_of_bind).
    apply list_elem_of_fmap in Hin as ([res rrs'] & -> & Hin%elem_of_map_to_list). cbn in Hrr.
    assert (rr ∈ default [] (group_rules (runnable_role_rule <$> policyv1.ro_Rules rp) !! res)) as Hg by (by rewrite Hin).
    apply elem_of_group_rules, list_elem_of_fmap in Hg as (r & [= _ ->] & Hrin). apply list_elem_of_bind. exists r. split; [|done].
    by apply body_sources_runnable.
  - eapply bodies_refs_in; [|exact Hrules]. intros r Har. by apply body_refs_in.
Qed.

(** Whatever a well-formed unit compiles to is well typed. *)
Lemma compiled_unit_typed u schemaMgr rps : unit_ok u schemaMgr → compiled_unit u (Some rps) → set_typed rps.
Proof.
  intros (p & Hp & Hok) (p' & Hp' & Hc). rewrite Hp in Hp'. injection Hp' as <-. unfold module_ok, compiled_module in *.
  destruct (policyv1.p_PolicyType p) as [[rp|pp|dr|ev|rl|ec]|]; try done.
  - destruct Hok as (l & Hl & Hok), Hc as (l' & cs & r & [= <-] & [Hl' Hcs ->]). rewrite Hl in Hl'. injection Hl' as <-. cbn.
    eapply Forall2_typed; [|exact Hok|exact Hcs]. cbn. intros q c (rq & Hrq & Hq) (rq' & Hrq' & Hqc). rewrite Hrq in Hrq'. injection Hrq' as <-.
    by eapply compiled_resource_typed.
  - destruct Hok as (l & Hl & Hok), Hc as (l' & cs & r & [= <-] & [Hl' Hcs ->]). rewrite Hl in Hl'. injection Hl' as <-. cbn.
    eapply Forall2_typed; [|exact Hok|exact Hcs]. cbn. intros q c (rq & Hrq & Hq) (rq' & Hrq' & Hqc). rewrite Hrq in Hrq'. injection Hrq' as <-.
    by eapply compiled_principal_typed.
  - destruct Hc as (c & [= ->] & Hc). by eapply compiled_role_policy_typed.
Qed.
End scoped.

(** * Rows of compiled policies

    From source rules to rows: the rows that a compiled policy set adds to a rule
    table are those that the rules of the source policy stand for, and the rows of
    accepted policies can be indexed. *)

Lemma mapM_total {A B} (f : A → B) l : mapM (λ x, Some (f x)) l = Some (f <$> l).
Proof. induction l as [|x l IH]; [done|]. cbn. by rewrite IH. Qed.

Lemma concat_fmap {A B} (f : A → list B) l : concat (f <$> l) = l ≫= f.
Proof. induction l as [|x l IH]; [done|]. cbn. by rewrite <- IH. Qed.

Section rows.
Context `{GoMapOrder} `{StringHash}.

(** * The rows of policy sets *)

Definition resource_rule_fqn (meta : SetMetadata) (p : ResourcePolicy) (rule : ResourceRule) : string :=
  PolicyKeyFromFQN (ResourcePolicyFQN (SanitizedResource (sm_Name meta)) (sm_Version meta) (rp_Scope p)) +:+ "#" +:+ rr_Name rule.

Lemma elem_of_resource_rows meta p ps schemas r :
  r ∈ policy_rows (PS_Resource meta (p :: ps) schemas) ↔
    (rp_Rules p = [] ∧ r = noop_row (sm_Fqn meta) (SanitizedResource (sm_Name meta)) (rp_Scope p) (sm_Version meta) ""
                             (effective_permissions (rp_ScopePermissions p)) KIND_RESOURCE) ∨
    ∃ rule, rule ∈ rp_Rules p ∧ r ∈ rule_rows meta p rule (resource_rule_fqn meta p rule).
Proof.
  unfold policy_rows. cbn [AddPolicy addResourcePolicy]. set (m := MkMeta _ _ _ _). set (rt1 := match schemas with Some _ => _ | None => _ end).
  set (rt2 := if decide (0 < size (rp_DerivedRoles p)) then _ else _).
  assert (pt_Meta rt2 = <[GenModuleIDFromFQN (sm_Fqn meta) := m]> (pt_Meta NewProtoRuletable)) as E1 by (unfold rt2, rt1; by destruct schemas; case_decide).
  rewrite E1, lookup_insert_eq. 
  rewrite (mapM_ext _ (λ rule, Some (rule_rows meta p rule (resource_rule_fqn meta p rule)))) by done.
  rewrite mapM_total, bind_some, concat_fmap, elem_of_app, list_elem_of_bind.
  split; (intros [Hr|Hr]; [left|right]).
  - destruct (rp_Rules p); [by apply list_elem_of_singleton in Hr|by apply elem_of_nil in Hr].
  - destruct Hr as (rule & Hr & Hrule). by exists rule.
  - destruct Hr as [-> ->]. by apply list_elem_of_singleton.
  - destruct Hr as (rule & Hrule & Hr). by exists rule.
Qed.

Definition action_rule_fqn (meta : SetMetadata) (p : PrincipalPolicy) (rule : ActionRule) : string :=
  PolicyKeyFromFQN (PrincipalPolicyFQN (sm_Name meta) (sm_Version meta) (pp_Scope p)) +:+ "#" +:+ ar_Name rule.

Lemma elem_of_principal_rows meta p ps r :
  r ∈ policy_rows (PS_Principal meta (p :: ps)) ↔
    (pp_ResourceRules p = ∅ ∧ r = noop_row (sm_Fqn meta) "" (pp_Scope p) (sm_Version meta) (sm_Name meta)
                                    (effective_permissions (pp_ScopePermissions p)) KIND_PRINCIPAL) ∨
    ∃ resource rules rule, pp_ResourceRules p !! resource = Some rules ∧ rule ∈ rules ∧
      r = principal_row meta p resource rule (action_rule_fqn meta p rule).
Proof.
  unfold policy_rows. cbn [AddPolicy addPrincipalPolicy]. set (m := MkMeta _ _ _ _). cbn [pt_Meta set_Meta]. rewrite lookup_insert_eq.
  rewrite (mapM_ext _ (λ x, Some ((λ rule, principal_row meta p x.1 rule (action_rule_fqn meta p rule)) <$> x.2)))
    by (intros [resource rules]; by rewrite <- mapM_total).
  rewrite mapM_total, bind_some, concat_fmap, elem_of_app, list_elem_of_bind. split; (intros [Hr|Hr]; [left|right]).
  - case_decide as Hs; [|by apply elem_of_nil in Hr]. apply map_size_empty_iff in Hs. by apply list_elem_of_singleton in Hr.
  - destruct Hr as ([resource rules] & Hr & Hin%elem_of_go_range). cbn in Hr.
    apply list_elem_of_fmap in Hr as (rule & -> & Hrule). by exists resource, rules, rule.
  - destruct Hr as [He ->]. rewrite He. by apply list_elem_of_singleton.
  - destruct Hr as (resource & rules & rule & Hl & Hin & ->). exists (resource, rules). split; [|by apply elem_of_go_range].
    by apply (list_elem_of_fmap_2 (λ rule, principal_row meta p resource rule (action_rule_fqn meta p rule))).
Qed.

Lemma elem_of_role_policy_rows p r :
  r ∈ policy_rows (PS_Role p) ↔ ∃ resource rules idx rule, rps_Resources p !! resource = Some rules ∧ rules !! idx = Some rule ∧
    r = role_policy_row p resource idx rule.
Proof.
  unfold policy_rows. cbn [AddPolicy]. unfold addRolePolicy. cbn [pt_ScopeParentRoles set_Meta NewProtoRuletable].
  change (record_parents _ _ _ _) with (Some ({[rps_Scope p := Some {[rps_Role p := rps_ParentRoles p]}]} : ScopeParentRoles)).
  rewrite bind_some, list_elem_of_bind. split.
  - intros ([resource rules] & Hr & Hin%elem_of_go_range). apply list_elem_of_lookup in Hr as [i Hi]. rewrite list_lookup_imap in Hi.
    destruct (rules !! i) as [rule|] eqn:Hrule; [|done]. injection Hi as <-. by exists resource, rules, i, rule.
  - intros (resource & rules & i & rule & Hl & Hi & ->). exists (resource, rules). split; [|by apply elem_of_go_range].
    apply list_elem_of_lookup. exists i. by rewrite list_lookup_imap, Hi.
Qed.
End rows.

(** * The rows of a source policy *)

(** Roles of a list: the wildcard stands for all. *)
Definition covers_role (l : list string) (r : string) : Prop := if decide (anyRoleVal ∈ l) then r = anyRoleVal else r ∈ l.

Lemma role_set_acc acc l r :
  r ∈ role_set acc l ↔ if decide (anyRoleVal ∈ l) then r = anyRoleVal else r ∈ acc ∨ r ∈ l.
Proof.
  revert acc. induction l as [|x l IH]; intros acc; cbn [role_set].
  - rewrite decide_False by apply not_elem_of_nil. rewrite elem_of_nil. tauto.
  - destruct (decide (x = anyRoleVal)) as [->|Hx]; [rewrite decide_True by left; by rewrite elem_of_singleton|].
    rewrite IH. destruct (decide (anyRoleVal ∈ l)) as [Hl|Hl]; [by rewrite decide_True by (by right)|].
    rewrite decide_False by (by intros [?|?]%elem_of_cons). rewrite elem_of_union, elem_of_singleton, elem_of_cons. tauto.
Qed.
Lemma elem_of_role_set l r : r ∈ role_set ∅ l ↔ covers_role l r.
Proof. rewrite role_set_acc. unfold covers_role. case_decide; [done|]. rewrite elem_of_empty. tauto. Qed.

(** Under parental consent a conditional ALLOW is a DENY on the negation. *)
Definition consented (sp : ScopePermissions) (e : Effect) (c : option Condition) : Effect * option Condition :=
  match sp, e, c with
  | SCOPE_PERMISSIONS_REQUIRE_PARENTAL_CONSENT_FOR_ALLOWS, EFFECT_ALLOW, Some c => (EFFECT_DENY, Some (Cond_None [c]))
  | _, _, _ => (e, c)
  end.

Lemma consented_row sp row : (r_Effect (consent_row sp row), r_Condition (consent_row sp row)) = consented sp (r_Effect row) (r_Condition row).
Proof. unfold consent_row. by destruct sp, (r_Effect row) eqn:?, (r_Condition row) eqn:?; cbn; rewrite ?Heqe, ?Heqo. Qed.
Lemma consented_effective sp e c : consented (effective_permissions sp) e c = consented sp e c.
Proof. by destruct sp. Qed.
Lemma effective_twice sp : effective_permissions (effective_permissions sp) = effective_permissions sp.
Proof. by destruct sp. Qed.

Section source.
Context `{CelChecker} `{GL : !GraphLaws G} `{GoMapOrder} `{StringHash}.
Implicit Types (u : CompilationUnit) (p : policyv1.Policy) (rp : policyv1.ResourcePolicy) (rule : policyv1.ResourceRule).

(** The roles that a rule is for: its own, and the parents of its derived roles,
    under the condition of the derived role. *)
Inductive rule_reaches u rp rule : string → string → option Condition → Prop :=
  | reaches_role role : covers_role (policyv1.rrule_Roles rule) role → rule_reaches u rp rule role "" None
  | reaches_derived imp q drs d role :
      policyv1.def_Name d ∈ policyv1.rrule_DerivedRoles rule → imp ∈ policyv1.rp_ImportDerivedRoles rp →
      exported_roles u imp = Some (q, drs) → d ∈ policyv1.drs_Definitions drs → covers_role (policyv1.def_ParentRoles d) role →
      rule_reaches u rp rule role (policyv1.def_Name d) (runnable_condition (policyv1.def_Condition d)).

(** A row that stands for a rule, one of its actions and a role. *)
Record row_for_rule p rp (i : nat) rule (a role dr : string) (drc : option Condition) (r : RuleRow) : Prop := {
  rf_fqn : policy_FQN p = Some (r_OriginFqn r);
  rf_resource : r_Resource r = SanitizedResource (policyv1.rp_Resource rp);
  rf_version : r_Version r = policyv1.rp_Version rp;
  rf_scope : r_Scope r = policyv1.rp_Scope rp;
  rf_action : r_ActionSet r = ActionSet_Action a;
  rf_role : r_Role r = role;
  rf_derived : r_OriginDerivedRole r = dr;
  rf_derived_condition : r_DerivedRoleCondition r = drc;
  rf_effect : (r_Effect r, r_Condition r) =
    consented (policyv1.rp_ScopePermissions rp) (policyv1.rrule_Effect rule) (runnable_condition (policyv1.rrule_Condition rule));
  rf_permissions : r_ScopePermissions r = effective_permissions (policyv1.rp_ScopePermissions rp);
  rf_output : r_EmitOutput r = runnable_output (policyv1.rrule_Output rule);
  rf_name : r_Name r = ResourceRuleName rule (S i);
  rf_kind : r_PolicyKind r = KIND_RESOURCE;
  rf_role_policy : r_FromRolePolicy r = false;
}.

Lemma consent_row_same sp row :
  let r := consent_row sp row in
  r_OriginFqn r = r_OriginFqn row ∧ r_Resource r = r_Resource row ∧ r_Version r = r_Version row ∧ r_Scope r = r_Scope row ∧
  r_ActionSet r = r_ActionSet row ∧ r_Role r = r_Role row ∧ r_OriginDerivedRole r = r_OriginDerivedRole row ∧
  r_DerivedRoleCondition r = r_DerivedRoleCondition row ∧ r_ScopePermissions r = r_ScopePermissions row ∧
  r_EmitOutput r = r_EmitOutput row ∧ r_Name r = r_Name row ∧ r_PolicyKind r = r_PolicyKind row ∧
  r_FromRolePolicy r = r_FromRolePolicy row ∧ r_Params r = r_Params row ∧ r_DerivedRoleParams r = r_DerivedRoleParams row ∧ r_Principal r = r_Principal row.
Proof. unfold consent_row. by destruct sp, (r_Effect row), (r_Condition row). Qed.

Lemma resource_row_for_rule u p rp c meta i rule a role drc dr params key tuple :
  policy_FQN p = Some (sm_Fqn meta) → sm_Name meta = policyv1.rp_Resource rp → sm_Version meta = policyv1.rp_Version rp →
  compiled_resource_policy u p rp c →
  row_for_rule p rp i rule a role dr drc
    (resource_row meta c (runnable_resource_rule (ResourceRuleName rule (S i)) rule) a role drc dr params key tuple).
Proof.
  intros Hf Hn Hv [Hs _ _ _ Hp]. unfold resource_row. rewrite Hp, Hs, effective_twice. set (row := MkRow _ _ _ _ _ _ _ _ _ _ _ _ _ _ _ _ _ _ _ _).
  destruct (consent_row_same (effective_permissions (policyv1.rp_ScopePermissions rp)) row)
    as (E1 & E2 & E3 & E4 & E5 & E6 & E7 & E8 & E9 & E10 & E11 & E12 & E13 & _).
  split; rewrite ?E1, ?E2, ?E3, ?E4, ?E5, ?E6, ?E7, ?E8, ?E9, ?E10, ?E11, ?E12, ?E13; cbn; rewrite ?Hn; try done.
  - by rewrite consented_row, consented_effective.
  - by destruct (runnable_output _).
Qed.

Lemma elem_of_runnable_rules rp r :
  r ∈ runnable_resource_rules rp ↔ ∃ i rule, policyv1.rp_Rules rp !! i = Some rule ∧ r = runnable_resource_rule (ResourceRuleName rule (S i)) rule.
Proof.
  unfold runnable_resource_rules. rewrite list_elem_of_lookup. split.
  - intros [i Hi]. rewrite list_lookup_imap in Hi. destruct (policyv1.rp_Rules rp !! i) as [rule|] eqn:E; [|done].
    injection Hi as <-. by exists i, rule.
  - intros (i & rule & Hi & ->). exists i. by rewrite list_lookup_imap, Hi.
Qed.

Section rows_of.
Context (u : CompilationUnit) (p : policyv1.Policy) (rp : policyv1.ResourcePolicy) (c : ResourcePolicy).
Context (meta : SetMetadata) (ps : list ResourcePolicy) (schemas : option Schemas_).
Context (Hfqn : policy_FQN p = Some (sm_Fqn meta)) (Hname : sm_Name meta = policyv1.rp_Resource rp) (Hver : sm_Version meta = policyv1.rp_Version rp).
Context (Hc : compiled_resource_policy u p rp c) (Hroles : role_imports_ok u rp).

Lemma resource_rows_sound r :
  r ∈ policy_rows (PS_Resource meta (c :: ps) schemas) → policyv1.rp_Rules rp ≠ [] →
  ∃ i rule a role dr drc, policyv1.rp_Rules rp !! i = Some rule ∧ a ∈ policyv1.rrule_Actions rule ∧
    rule_reaches u rp rule role dr drc ∧ row_for_rule p rp i rule a role dr drc r.
Proof using Hfqn Hname Hver Hc.
  rewrite elem_of_resource_rows, (crp_rules _ _ _ _ Hc). intros [[He _]|(rr & (i & rule & Hi & ->)%elem_of_runnable_rules & Hr)] Hne.
  { exfalso. apply Hne. unfold runnable_resource_rules in He. destruct (policyv1.rp_Rules rp); [done|]. cbn in He. congruence. }
  unfold rule_rows in Hr. apply list_elem_of_bind in Hr as (a & Hr & Ha%elem_of_set_range). cbn in Ha. apply elem_of_list_to_set in Ha.
  apply elem_of_app in Hr as [Hr|Hr].
  - apply list_elem_of_fmap in Hr as (role & -> & Hrole%elem_of_set_range). cbn in Hrole. apply elem_of_role_set in Hrole.
    exists i, rule, a, role, "", None. split; [done|]. split; [done|]. split; [by constructor|]. by apply (resource_row_for_rule u).
  - apply list_elem_of_bind in Hr as (dr & Hr & Hdr%elem_of_set_range). cbn in Hdr. apply elem_of_list_to_set in Hdr.
    destruct (rp_DerivedRoles c !! dr) as [rdr|] eqn:Erdr; [|by apply elem_of_nil in Hr].
    apply list_elem_of_fmap in Hr as (role & -> & Hrole%elem_of_set_range).
    destruct (cri_roles _ _ _ (crp_roles _ _ _ _ Hc) _ _ Erdr) as (imp & q & drs & d & Himp & Hexp & Hd & <- & [_ Hpar Hcond _ _]).
    rewrite Hpar in Hrole. apply elem_of_role_set in Hrole.
    exists i, rule, a, role, (policyv1.def_Name d), (runnable_condition (policyv1.def_Condition d)). split; [done|]. split; [done|].
    split; [by eapply reaches_derived|]. rewrite Hcond. by apply (resource_row_for_rule u).
Qed.

Lemma importer_unique imp imp' r :
  imp ∈ policyv1.rp_ImportDerivedRoles rp → imp' ∈ policyv1.rp_ImportDerivedRoles rp → r ∈ rule_roles rp →
  r ∈ role_names u imp → r ∈ role_names u imp' → imp = imp'.
Proof using Hroles.
  intros Hi Hi' Hr Hn Hn'. pose proof (rio_roles _ _ Hroles r Hr) as Hlen. unfold importers in Hlen.
  assert (imp ∈ filter (λ x, r ∈ role_names u x) (policyv1.rp_ImportDerivedRoles rp)) as H1' by by apply list_elem_of_filter.
  assert (imp' ∈ filter (λ x, r ∈ role_names u x) (policyv1.rp_ImportDerivedRoles rp)) as H2' by by apply list_elem_of_filter.
  destruct (filter _ _) as [|x [|]]; [done| |done]. apply list_elem_of_singleton in H1', H2'. congruence.
Qed.

Lemma resource_rows_complete i rule a role dr drc :
  (∀ imp q drs, imp ∈ policyv1.rp_ImportDerivedRoles rp → exported_roles u imp = Some (q, drs) → NoDup (policyv1.def_Name <$> policyv1.drs_Definitions drs)) →
  policyv1.rp_Rules rp !! i = Some rule → a ∈ policyv1.rrule_Actions rule → rule_reaches u rp rule role dr drc →
  ∃ r, r ∈ policy_rows (PS_Resource meta (c :: ps) schemas) ∧ row_for_rule p rp i rule a role dr drc r.
Proof using Hfqn Hname Hver Hc Hroles.
  intros Hnd Hi Ha Hreach. set (rr := runnable_resource_rule (ResourceRuleName rule (S i)) rule).
  assert (∀ row, row ∈ role_rows meta c rr (resource_rule_fqn meta c rr) a ++ derived_role_rows meta c rr (resource_rule_fqn meta c rr) a →
    row ∈ policy_rows (PS_Resource meta (c :: ps) schemas)) as Hin.
  { intros row Hrow. apply elem_of_resource_rows. right. exists rr. split; [rewrite (crp_rules _ _ _ _ Hc); apply elem_of_runnable_rules; by exists i, rule|].
    apply list_elem_of_bind. exists a. split; [done|]. apply elem_of_set_range. cbn. by apply elem_of_list_to_set. }
  destruct Hreach as [role Hrole|imp q drs d role Hdr Himp Hexp Hd Hrole].
  - eexists. split; [apply Hin, elem_of_app; left; apply list_elem_of_fmap_2, elem_of_set_range; by apply elem_of_role_set|].
    by apply (resource_row_for_rule u).
  - assert (policyv1.def_Name d ∈ rule_roles rp) as Hr by (apply elem_of_rule_roles; exists rule; split; [by eapply list_elem_of_lookup_2|done]).
    pose proof (crp_roles _ _ _ _ Hc) as Hcri. destruct (proj2 (cri_names _ _ _ Hcri _) Hr) as [rdr Hrdr].
    destruct (cri_roles _ _ _ Hcri _ _ Hrdr) as (imp' & q' & drs' & d' & Himp' & Hexp' & Hd' & Hname' & [_ Hpar Hcond _ _]).
    assert (imp = imp') as <-.
    { eapply importer_unique; [done..|exact Hr| |]; unfold role_names; rewrite ?Hexp, ?Hexp'; cbn; apply list_elem_of_fmap; [by exists d|by exists d']. }
    rewrite Hexp in Hexp'. injection Hexp' as <- <-.
    assert (d = d') as <-.
    { apply list_elem_of_lookup in Hd as [x Hx], Hd' as [y Hy]. pose proof (Hnd imp q drs Himp Hexp) as Hn.
      assert (x = y) as ->; [|congruence]. eapply NoDup_lookup; [exact Hn| |]; rewrite list_lookup_fmap; [by rewrite Hx|by rewrite Hy, <- Hname']. }
    eexists. split.
    + apply Hin, elem_of_app. right. apply list_elem_of_bind. exists (policyv1.def_Name d). split; [|apply elem_of_set_range; cbn; by apply elem_of_list_to_set].
      rewrite Hrdr. apply list_elem_of_fmap_2, elem_of_set_range. rewrite Hpar. by apply elem_of_role_set.
    + rewrite Hcond. by apply (resource_row_for_rule u).
Qed.
End rows_of.

(** ** Principal policies *)

Record row_for_action p (pp : policyv1.PrincipalPolicy) (resource : string) (i : nat) (a : policyv1.PrincipalRule_Action) (r : RuleRow) : Prop := {
  ra_fqn : policy_FQN p = Some (r_OriginFqn r);
  ra_principal : r_Principal r = policyv1.pp_Principal pp;
  ra_resource : r_Resource r = SanitizedResource resource;
  ra_version : r_Version r = policyv1.pp_Version pp;
  ra_scope : r_Scope r = policyv1.pp_Scope pp;
  ra_action : r_ActionSet r = ActionSet_Action (policyv1.act_Action a);
  ra_role : r_Role r = "*";
  ra_derived : r_OriginDerivedRole r = "" ∧ r_DerivedRoleCondition r = None;
  ra_effect : (r_Effect r, r_Condition r) =
    consented (policyv1.pp_ScopePermissions pp) (policyv1.act_Effect a) (runnable_condition (policyv1.act_Condition a));
  ra_permissions : r_ScopePermissions r = effective_permissions (policyv1.pp_ScopePermissions pp);
  ra_output : r_EmitOutput r = runnable_output (policyv1.act_Output a);
  ra_name : r_Name r = PrincipalResourceActionRuleName a resource (S i);
  ra_kind : r_PolicyKind r = KIND_PRINCIPAL;
}.

Lemma principal_row_for_action u p pp c meta resource i a fqn :
  policy_FQN p = Some (sm_Fqn meta) → sm_Name meta = policyv1.pp_Principal pp → sm_Version meta = policyv1.pp_Version pp →
  compiled_principal_policy u p pp c →
  row_for_action p pp resource i a (principal_row meta c resource (runnable_action resource i a) fqn).
Proof.
  intros Hf Hn Hv [Hs _ _ Hp]. unfold principal_row. rewrite Hp, Hs, effective_twice. set (row := MkRow _ _ _ _ _ _ _ _ _ _ _ _ _ _ _ _ _ _ _ _).
  destruct (consent_row_same (effective_permissions (policyv1.pp_ScopePermissions pp)) row)
    as (E1 & E2 & E3 & E4 & E5 & E6 & E7 & E8 & E9 & E10 & E11 & E12 & E13 & _ & _ & E14).
  split; rewrite ?E1, ?E2, ?E3, ?E4, ?E5, ?E6, ?E7, ?E8, ?E9, ?E10, ?E11, ?E12, ?E13, ?E14; cbn; rewrite ?Hn; try done.
  - by rewrite consented_row, consented_effective.
  - by destruct (runnable_output _).
Qed.

(** With one rule for each resource, none replaces another. *)
Lemma runnable_principal_rules_distinct l r :
  NoDup (policyv1.prule_Resource <$> l) → r ∈ l → runnable_principal_rules l !! policyv1.prule_Resource r = Some (runnable_actions r).
Proof.
  induction l as [|q l IH] using rev_ind; [by intros _ ?%elem_of_nil|]. rewrite fmap_app. intros (Hnd & Hdis & _)%NoDup_app.
  unfold runnable_principal_rules. rewrite foldl_snoc. intros [Hr|Hr]%elem_of_app.
  - rewrite lookup_insert_ne; [by apply IH|]. intros Heq. apply (Hdis (policyv1.prule_Resource r)); [by apply list_elem_of_fmap_2|]. rewrite <- Heq. left.
  - apply list_elem_of_singleton in Hr as ->. by rewrite lookup_insert_eq.
Qed.

Section principal_rows.
Context (u : CompilationUnit) (p : policyv1.Policy) (pp : policyv1.PrincipalPolicy) (c : PrincipalPolicy).
Context (meta : SetMetadata) (ps : list PrincipalPolicy).
Context (Hfqn : policy_FQN p = Some (sm_Fqn meta)) (Hname : sm_Name meta = policyv1.pp_Principal pp) (Hver : sm_Version meta = policyv1.pp_Version pp).
Context (Hc : compiled_principal_policy u p pp c).

Lemma principal_rows_sound r :
  r ∈ policy_rows (PS_Principal meta (c :: ps)) → policyv1.pp_Rules pp ≠ [] →
  ∃ (rule : policyv1.PrincipalRule) i a, rule ∈ policyv1.pp_Rules pp ∧ policyv1.prule_Actions rule !! i = Some a ∧ row_for_action p pp (policyv1.prule_Resource rule) i a r.
Proof using Hfqn Hname Hver Hc.
  rewrite elem_of_principal_rows, (cpp_rules _ _ _ _ Hc). intros [[He _]|(resource & rules & rule & Hl & Hin & ->)] Hne.
  { destruct (policyv1.pp_Rules pp) as [|q l _] using rev_ind; [done|]. unfold runnable_principal_rules in He. rewrite foldl_snoc in He.
    by apply insert_non_empty in He. }
  apply runnable_principal_rules_lookup in Hl as (q & Hq & <- & ->). apply list_elem_of_lookup in Hin as [i Hi].
  unfold runnable_actions in Hi. rewrite list_lookup_imap in Hi. destruct (policyv1.prule_Actions q !! i) as [a|] eqn:Ha; [|done].
  injection Hi as <-. exists q, i, a. split; [done|]. split; [done|]. by apply (principal_row_for_action u).
Qed.

Lemma principal_rows_complete (rule : policyv1.PrincipalRule) i a :
  NoDup (policyv1.prule_Resource <$> policyv1.pp_Rules pp) → rule ∈ policyv1.pp_Rules pp → policyv1.prule_Actions rule !! i = Some a →
  ∃ r, r ∈ policy_rows (PS_Principal meta (c :: ps)) ∧ row_for_action p pp (policyv1.prule_Resource rule) i a r.
Proof using Hfqn Hname Hver Hc.
  intros Hnd Hr Ha. eexists. split.
  - apply elem_of_principal_rows. right. exists (policyv1.prule_Resource rule), (runnable_actions rule), (runnable_action (policyv1.prule_Resource rule) i a).
    split; [rewrite (cpp_rules _ _ _ _ Hc); by apply runnable_principal_rules_distinct|]. split; [|reflexivity].
    apply list_elem_of_lookup. exists i. unfold runnable_actions. by rewrite list_lookup_imap, Ha.
  - by apply (principal_row_for_action u).
Qed.
End principal_rows.
End source.

(** * Accepted policies can be indexed *)

Section compiles.
Context `{CelChecker} `{GL : !GraphLaws G} `{GoMapOrder} `{StringHash} `{CelCompiler}.
(** The runtime makes a program of every expression that the checker accepts. *)
Context (Hprog : ∀ src, is_Some (checked src) → is_Some (cel_compile src)).
Implicit Types (u : CompilationUnit) (p : policyv1.Policy) (D : Defs).

Definition vars_compile (vs : list Variable_) : Prop := is_Some (getCelProgramsFromExpressions vs).

Lemma checked_vars_compile vs : Forall (λ v, is_Some (checked (Original (var_Expr v)))) vs → vars_compile vs.
Proof using Hprog.
  unfold vars_compile, getCelProgramsFromExpressions. induction 1 as [|v vs Hv _ [ps IH]]; [by exists []|].
  cbn [mapM]. destruct (Hprog _ Hv) as [pr Hpr]. rewrite Hpr, bind_some, IH. cbn. eauto.
Qed.

Lemma scope_valid u c v top d : scope_ok u c v top → d ∈ D_variables (scope_of u c v top) → is_Some (checked d.2).
Proof.
  intros [_ [Himp Hloc Htop _]]. cbn. unfold variables_in. destruct d as [n src]. rewrite !elem_of_app, list_elem_of_bind.
  intros [(imp & Hin & Hi)|[Hin%elem_of_go_range|Hin%elem_of_go_range]]; [|by apply (Hloc n)|by apply (Htop n)].
  rewrite Forall_forall in Himp. destruct (Himp imp Hi) as (defs & Hdefs & Hv). rewrite Hdefs in Hin.
  apply elem_of_go_range in Hin. by apply (Hv n).
Qed.

Lemma lists_compile u c v top exprs vs cs : scope_ok u c v top → lists_for (scope_of u c v top) exprs vs cs → vars_compile vs.
Proof using Hprog.
  intros Hs [(k & -> & Hk) _]. apply checked_vars_compile, Forall_fmap, Forall_forall. intros d Hd. cbn.
  eapply scope_valid; [exact Hs|]. by apply (ls_needed _ _ _ Hk).
Qed.

Lemma noop_row_compiles fqn res scope version principal sp kind : row_compiles (noop_row fqn res scope version principal sp kind).
Proof. by destruct kind; cbn; eauto. Qed.

Lemma consent_row_compiles sp row : row_compiles row → row_compiles (consent_row sp row).
Proof.
  destruct (consent_row_same sp row) as (_ & _ & _ & _ & _ & _ & E1 & _ & _ & _ & _ & E2 & _ & E3 & E4 & _).
  unfold row_compiles. by rewrite E1, E2, E3, E4.
Qed.

Lemma resource_set_compiles u schemaMgr p rp c meta ps schemas r :
  resource_policy_ok u schemaMgr p rp → compiled_resource_policy u p rp c → r ∈ policy_rows (PS_Resource meta (c :: ps) schemas) → row_compiles r.
Proof using Hprog.
  intros [Hroles _ Hs _ _] [_ Hc _ Hl _]. rewrite elem_of_resource_rows. intros [[_ ->]|(rule & _ & Hr)]; [apply noop_row_compiles|].
  assert (vars_compile (rp_OrderedVariables c)) as Hv by by eapply lists_compile.
  apply list_elem_of_bind in Hr as (a & [Hr|Hr]%elem_of_app & _).
  - apply list_elem_of_fmap in Hr as (role & -> & _). apply consent_row_compiles. by split.
  - apply list_elem_of_bind in Hr as (dr & Hr & _). destruct (rp_DerivedRoles c !! dr) as [rdr|] eqn:Erdr; [|by apply elem_of_nil in Hr].
    apply list_elem_of_fmap in Hr as (role & -> & _). apply consent_row_compiles. split; [done|]. intros _.
    destruct (cri_roles _ _ _ Hc _ _ Erdr) as (imp & q & drs & d & Himp & Hexp & _ & _ & [_ _ _ Hdl _]).
    pose proof (rio_imports _ _ Hroles) as Hok. rewrite Forall_forall in Hok. destruct (Hok imp Himp) as (q' & drs' & Hexp' & [Hs' _]).
    rewrite Hexp in Hexp'. injection Hexp' as <- <-. by eapply lists_compile.
Qed.

Lemma principal_set_compiles u p pp c meta ps r :
  principal_policy_ok u p pp → compiled_principal_policy u p pp c → r ∈ policy_rows (PS_Principal meta (c :: ps)) → row_compiles r.
Proof using Hprog.
  intros [Hs _ _] [_ _ Hl _]. rewrite elem_of_principal_rows. intros [[_ ->]|(res & rules & rule & _ & _ & ->)]; [apply noop_row_compiles|].
  apply consent_row_compiles. unfold row_compiles. cbn. by eapply lists_compile.
Qed.

Lemma role_set_compiles u p rp c r :
  role_policy_ok u p rp → compiled_role_set u p rp c → r ∈ policy_rows (PS_Role c) → row_compiles r.
Proof using Hprog.
  intros [Hs _ _] [_ _ _ _ _ Hl]. rewrite elem_of_role_policy_rows. intros (res & rules & i & rule & _ & _ & ->).
  split; [by eapply lists_compile|done].
Qed.

(** The sets of a lineage begin with the policy itself. *)
Lemma lineage_cons u p l : lineage u p = Some l → ∃ l', l = p :: l'.
Proof. unfold lineage. intros (ids & _ & (rest & _ & [= <-])%bind_Some)%bind_Some. by exists rest. Qed.

Lemma compiled_unit_compiles u schemaMgr rps r :
  unit_ok u schemaMgr → compiled_unit u (Some rps) → r ∈ policy_rows rps → row_compiles r.
Proof using Hprog.
  intros (p & Hp & Hok) (p' & Hp' & Hc). rewrite Hp in Hp'. injection Hp' as <-. unfold module_ok, compiled_module in *.
  destruct (policyv1.p_PolicyType p) as [[rp|pp|dr|ev|rl|ec]|]; try done.
  - destruct Hok as (l & Hl & Hok), Hc as (l1 & cs & rps' & [= <-] & [Hl1 Hcs ->]). rewrite Hl in Hl1. injection Hl1 as <-.
    destruct (lineage_cons _ _ _ Hl) as [l' ->]. apply Forall2_cons_inv_l in Hcs as (c & cs' & (rq & Hrq & Hqc) & _ & ->).
    inversion Hok as [|? ? (rq' & Hrq' & Hq) _]; subst. rewrite Hrq in Hrq'. injection Hrq' as <-. by eapply resource_set_compiles.
  - destruct Hok as (l & Hl & Hok), Hc as (l1 & cs & rps' & [= <-] & [Hl1 Hcs ->]). rewrite Hl in Hl1. injection Hl1 as <-.
    destruct (lineage_cons _ _ _ Hl) as [l' ->]. apply Forall2_cons_inv_l in Hcs as (c & cs' & (rq & Hrq & Hqc) & _ & ->).
    inversion Hok as [|? ? (rq' & Hrq' & Hq) _]; subst. rewrite Hrq in Hrq'. injection Hrq' as <-. by eapply principal_set_compiles.
  - destruct Hc as (c & [= ->] & Hc). by eapply role_set_compiles.
Qed.
End compiles.
