(* ===== verification/CompileManager.v ===== *)
(** The compile manager of [src/internal/compile/manager.go]: it compiles the units
    that a store of source policies delivers, and is the loader of the rule table.

    Results are [None] for a panic of the compiler, [inl] a value or [inr] an error. *)
From S2P Require Import Prelude GoRuntime Bitmap Arena LazyDim Dimension GlobDim Namer Policy ScopePerms IndexCore IndexQuery IndexQuerySpec IndexLookup Index IndexSpec ParentRoles RuleTableBuild RuleTable Manager Eval TableSpec ManagerSpec PlanExpr CompileSource CompileDefs Compile CompileVarSpec CompileModuleSpec CompilePolicySpec CompileTypeSpec.

Local Open Scope string_scope.
Local Open Scope list_scope.
Open Scope nat_scope.

Section manager.
Context `{CelChecker} `{!DirectedGraph} `{GoMapOrder} `{StringHash}.

(** [storage.SourceStore] is an interface: each call delivers units or fails
    ([None]).  [store_Iter] is the optional [storage.IterableSourceStore]: what a
    range over it yields. *)
Record SourceStore := MkStore {
  store_GetFirstMatch : list ModuleID → option (option CompilationUnit);
  store_GetAll : option (list CompilationUnit);
  store_GetAllMatching : list ModuleID → option (list CompilationUnit);
  store_GetCompilationUnits : list ModuleID → option (gmap ModuleID CompilationUnit);
  store_Iter : option (list (CompilationUnit + unit));
}.

Inductive ManagerErr :=
  | NoCandidates
  | StoreErr
  | PolicyCompilationErr (underlying : CompileFailure).

Implicit Types (st : SourceStore).

(** [c.compile], with the error wrapped as its callers do. *)
Definition compile_unit (u : CompilationUnit) : option (option RunnablePolicySet + ManagerErr) :=
  '(rps, err) ← Compile u None;
  Some (match err with None => inl rps | Some e => inr (PolicyCompilationErr e) end).

Definition manager_GetFirstMatch st (candidates : list ModuleID) : option (option RunnablePolicySet + ManagerErr) :=
  match candidates with
  | [] => Some (inr NoCandidates)
  | _ =>
      match store_GetFirstMatch st candidates with
      | None => Some (inr StoreErr)
      | Some None => Some (inl None)
      | Some (Some cu) => compile_unit cu
      end
  end.

(** Compiling units one after another: the first error stops the loop. *)
Fixpoint compile_units (us : list CompilationUnit) : option (list (option RunnablePolicySet) + ManagerErr) :=
  match us with
  | [] => Some (inl [])
  | u :: us =>
      r ← compile_unit u;
      match r with
      | inr e => Some (inr e)
      | inl rps =>
          rest ← compile_units us;
          Some (match rest with inl l => inl (rps :: l) | inr e => inr e end)
      end
  end.

(** Nil policy sets are left out. *)
Definition manager_GetAll st : option (list RunnablePolicySet + ManagerErr) :=
  match store_GetAll st with
  | None => Some (inr StoreErr)
  | Some cus =>
      '(r : list (option RunnablePolicySet) + ManagerErr) ← compile_units cus;
      Some (match r with inl l => inl (omap id l) | inr e => inr e end)
  end.

(** Everything a range over [Iter] yields when it is not stopped early. *)
Fixpoint iter_units (us : list (CompilationUnit + unit)) : option (list (option RunnablePolicySet + ManagerErr)) :=
  match us with
  | [] => Some []
  | inr _ :: _ => Some [inr StoreErr]
  | inl u :: us => r ← compile_unit u; rest ← iter_units us; Some (r :: rest)
  end.
Definition manager_Iter st : option (list (option RunnablePolicySet + ManagerErr)) :=
  match store_Iter st with
  | Some us => iter_units us
  | None => match store_GetAll st with None => Some [inr StoreErr] | Some cus => mapM compile_unit cus end
  end.

Definition manager_CompileAll st : option (list ManagerErr) :=
  '(l : list (option RunnablePolicySet + ManagerErr)) ← manager_Iter st;
  Some (omap (λ r, match r with inr e => Some e | inl _ => None end) l).

(** Nil policy sets are kept. *)
Definition manager_GetAllMatching st (modIDs : list ModuleID) : option (list (option RunnablePolicySet) + ManagerErr) :=
  match modIDs with
  | [] => Some (inl [])
  | _ => match store_GetAllMatching st modIDs with None => Some (inr StoreErr) | Some cus => compile_units cus end
  end.

Definition manager_GetPolicySet st (modID : ModuleID) : option (option RunnablePolicySet + ManagerErr) :=
  match store_GetCompilationUnits st [modID] with
  | None => Some (inr StoreErr)
  | Some compileUnits => match compileUnits !! modID with Some cu => compile_unit cu | None => Some (inl None) end
  end.

(** The manager as the loader of the rule table. *)
Definition result {A} (r : option (A + ManagerErr)) : option A := match r with Some (inl x) => Some x | _ => None end.
Definition loader_of st : PolicyLoader := {|
  GetFirstMatch ids := result (manager_GetFirstMatch st ids);
  GetAllMatching ids := result (manager_GetAllMatching st ids);
  LoadAll := '(l : list (option RunnablePolicySet + ManagerErr)) ← manager_Iter st; Some ((λ r, match r with inl rps => inl rps | inr _ => inr tt end) <$> l);
|}.
End manager.

(** * What the compile manager delivers

    The compile manager as the loader of the rule table: what it delivers are the
    policies that the units of its store compile to, and a table built from them
    stands for exactly their rows. *)

Section manager.
Context `{CelChecker} `{GL : !GraphLaws G} `{GoMapOrder} `{StringHash}.
Implicit Types (u : CompilationUnit) (st : SourceStore).

(** * Units *)

(** What the manager makes of a unit. *)
Definition outcome_of u (r : option RunnablePolicySet + ManagerErr) : Prop :=
  match r with
  | inl rps => unit_ok u None ∧ compiled_unit u rps
  | inr e => ¬ unit_ok u None ∧ ∃ f, e = PolicyCompilationErr f
  end.

Lemma compile_unit_runs u : unit_typed u → runs (compile_unit u) (outcome_of u).
Proof using GL.
  intros Hu. destruct (Compile_spec u None Hu) as (rps & err & E & Hok & Hc). unfold compile_unit. rewrite E, bind_some. rret.
  destruct err as [f|]; [|split; [by apply Hok|by apply Hc]]. split; [|by exists f]. intros Hx. by apply Hok in Hx.
Qed.

Lemma iter_units_runs us : Forall unit_typed us → runs (iter_units (inl <$> us)) (Forall2 outcome_of us).
Proof using GL.
  induction 1 as [|u us Hu _ IH]; cbn [fmap list_fmap iter_units]; [rret; constructor|].
  eapply runs_bind; [by apply compile_unit_runs|]. intros r Hr. eapply runs_bind; [exact IH|]. intros l Hl. rret. by constructor.
Qed.

Lemma mapM_compile_runs us : Forall unit_typed us → runs (mapM compile_unit us) (Forall2 outcome_of us).
Proof using GL.
  induction 1 as [|u us Hu _ IH]; cbn [mapM]; [rret; constructor|].
  eapply runs_bind; [by apply compile_unit_runs|]. intros r Hr. eapply runs_bind; [exact IH|]. intros l Hl. rret. by constructor.
Qed.

Lemma compile_units_runs us : Forall unit_typed us → runs (compile_units us) (λ r, match r with
  | inl l => Forall2 (λ u rps, unit_ok u None ∧ compiled_unit u rps) us l
  | inr e => (∃ u, u ∈ us ∧ ¬ unit_ok u None) ∧ ∃ f, e = PolicyCompilationErr f
  end).
Proof using GL.
  induction 1 as [|u us Hu _ IH]; cbn [compile_units]; [rret; constructor|].
  eapply runs_bind; [by apply compile_unit_runs|]. intros [rps|e] Hr.
  - eapply runs_bind; [exact IH|]. intros [l|e] Hl; rret; [by constructor|]. destruct Hl as [(u' & Hin & Hn) He]. split; [|done].
    exists u'. split; [by right|done].
  - rret. destruct Hr as [Hn He]. split; [|done]. exists u. split; [left|done].
Qed.

(** * Stores *)

(** The units that [Iter] goes over, when the store does not fail. *)
Definition iterated st (us : list CompilationUnit) : Prop :=
  store_Iter st = Some (inl <$> us) ∨ store_Iter st = None ∧ store_GetAll st = Some us.

Lemma manager_Iter_runs st us : iterated st us → Forall unit_typed us → runs (manager_Iter st) (Forall2 outcome_of us).
Proof using GL.
  intros [E|[E E']] Hus; unfold manager_Iter; rewrite E; [by apply iter_units_runs|]. rewrite E'. by apply mapM_compile_runs.
Qed.

(** What is compiled and delivered, unit by unit. *)
Definition delivered_as u (r : option RunnablePolicySet + unit) : Prop :=
  match r with inl rps => unit_ok u None ∧ compiled_unit u rps | inr _ => ¬ unit_ok u None end.

Lemma LoadAll_runs st us : iterated st us → Forall unit_typed us → runs (LoadAll (loader_of st)) (Forall2 delivered_as us).
Proof using GL.
  intros Hi Hus. cbn [loader_of LoadAll]. eapply runs_bind; [by apply manager_Iter_runs|]. intros l Hl. rret. clear -Hl.
  induction Hl as [|u r us l Hr _ IH]; [constructor|]. constructor; [|exact IH]. destruct r as [rps|e]; [exact Hr|apply Hr].
Qed.

(** ** Tables *)

Section table.
Context `{GlobEngine} `{CelRuntime} `{ContentHash} `{DerivedRoleHash}.
Context (known : RuleRow → Prop) (Hnc : no_collisions known) (policy_known : string → Prop) (Hfqn : fqns_distinct policy_known).
Context (Hprog : ∀ src, is_Some (checked src) → is_Some (cel_compile src)).
Abbreviation table_inv := (table_inv known policy_known).
Abbreviation deliverable := (deliverable known policy_known).

(** The rows of the policies that some units compile to, nil sets left out. *)
Inductive rows_of_units : list CompilationUnit → list RuleRow → Prop :=
  | rows_of_none : rows_of_units [] []
  | rows_of_unit u us rps rows :
      unit_ok u None → compiled_unit u rps → rows_of_units us rows → rows_of_units (u :: us) (opt_rows rps ++ rows).

Lemma delivered_rows us all :
  Forall2 delivered_as us all → inr () ∉ all → rows_of_units us (all_rows all).
Proof.
  induction 1 as [|u r us all Hr _ IH]; intros Hn; [constructor|].
  apply not_elem_of_cons in Hn as [Hne Hn]. destruct r as [rps|[]]; [|done]. destruct Hr as [Hok Hc].
  assert (all_rows (inl rps :: all) = opt_rows rps ++ all_rows all) as -> by (by destruct rps).
  constructor; [done..|by apply IH].
Qed.

Lemma delivered_compile us all r : Forall2 delivered_as us all → r ∈ all_rows all → row_compiles r.
Proof using Hprog GL.
  induction 1 as [|u x us all Hx _ IH]; [by intros ?%elem_of_nil|]. destruct x as [[rps|]|]; try exact IH.
  assert (all_rows (inl (Some rps) :: all) = policy_rows rps ++ all_rows all) as -> by done. destruct Hx as [Hok Hc].
  intros [Hr|Hr]%elem_of_app; [|by apply IH]. by eapply compiled_unit_compiles.
Qed.

(** A reload over a store: its units that are ill-formed, or else conflicting
    permissions, keep the table; otherwise it stands for the rows of all units. *)
Definition reloaded us (m m' : Manager) : Prop :=
  match lastReloadErr m' with
  | Some e => mgr_RuleTable m' = mgr_RuleTable m ∧
      ((∃ u, u ∈ us ∧ ¬ unit_ok u None) ∧ e = ReloadFailed (Some LoadFailed) ∨ ∃ c, c ≠ [] ∧ e = ReloadFailed (Some (ScopePermissionConflicts c)))
  | None => ∃ added rows', rows_of_units us added ∧ extends ∅ rows' added ∧ table_inv (mgr_RuleTable m') rows' ∧ current (mgr_RuleTable m')
  end.

Lemma source_reload_runs st us m rows :
  table_inv (mgr_RuleTable m) rows → iterated st us → Forall unit_typed us →
  (∀ all p, LoadAll (loader_of st) = Some all → inl (Some p) ∈ all → deliverable p) →
  (∀ all, LoadAll (loader_of st) = Some all → (N.of_nat (length (all_rows all)) < 2 ^ 32)%N) →
  runs (reload (loader_of st) m) (reloaded us m).
Proof using GL Hnc Hfqn Hprog.
  intros Hi Hit Hus Hd Hroom. unfold reload. destruct (LoadAll_runs st us Hit Hus) as (all & E & Hall). rewrite E.
  assert (∀ x, x ∈ all → ∃ u, u ∈ us ∧ delivered_as u x) as Hin.
  { intros x Hx. apply list_elem_of_lookup in Hx as [i Hx]. destruct (Forall2_lookup_r _ _ _ _ _ Hall Hx) as (u & Hu & Hux).
    exists u. split; [by eapply list_elem_of_lookup_2|done]. }
  eapply runs_bind; [apply (newRuleTable_runs known Hnc policy_known Hfqn all); [apply Hi| |by apply Hroom]|].
  { intros p Hp. by apply (Hd all). }
  intros [rt|e] Hr; rret; unfold reloaded; cbn.
  - destruct Hr as [(rows' & He & Hi' & Hc & _) Hn]. exists (all_rows all), rows'. split; [by apply delivered_rows|done].
  - split; [done|]. destruct e as [|c|].
    + destruct Hr as (r & Hr & Hx). destruct Hx. by eapply delivered_compile.
    + right. by exists c.
    + left. destruct (Hin _ Hr) as (u & Hu & Hx). split; [by exists u|done].
Qed.
End table.
End manager.
