(* ===== verification/StoreIndex.v ===== *)
(** The index of policy files: [src/internal/storage/index/index.go], which stores
    on file systems use.  It knows which file defines which module and which
    modules import which, reads policies on demand and assembles the compilation
    units.  Each operation runs under the index's lock.

    A panic is [None]; errors are a sum.  Metrics, statistics, inspection and
    schemas are not modelled. *)
From S2P Require Import Prelude GoRuntime Namer Policy ScopePerms IndexQuery RuleTableBuild RuleTable Manager PlanExpr CompileSource CompileDefs Compile CompileManager.

Local Open Scope string_scope.
Local Open Scope list_scope.
Open Scope nat_scope.

(** * Files *)

(** What the parser makes of a file: the documents that are policies, each with
    whether it is valid, and whether reading the file reports errors. *)
Record FileContents := MkFile { fc_Docs : list (policyv1.Policy * bool); fc_Errors : bool }.
(** Files that cannot be opened are missing. *)
Abbreviation FileSystem := (gmap string FileContents).

(** [policy.WithMetadata]: the file the policy is from; annotations, hashes and
    store identifiers are left out, attributes are opaque. *)
Definition WithMetadata (attributes : string → string) (p : policyv1.Policy) (source : string) : policyv1.Policy :=
  policyv1.MkPolicy (policyv1.p_PolicyType p) (policyv1.p_Variables p) source (attributes (policyv1.p_SourceAttributes p)) (policyv1.p_Disabled p).

Section index.
Context `{GoMapOrder} `{StringHash}.

(** [policy.FindPolicy]: the first document with the identifier; a document whose
    type is not set panics. *)
Fixpoint find_doc (id : ModuleID) (docs : list (policyv1.Policy * bool)) : option (option (policyv1.Policy * bool)) :=
  match docs with
  | [] => Some None
  | d :: docs =>
      fqn ← policy_FQN d.1;
      if decide (GenModuleIDFromFQN fqn = id) then Some (Some d) else find_doc id docs
  end.

(** A range over a set of modules. *)
Definition set_elems (X : gset ModuleID) : list ModuleID := (go_range (gset_to_gmap () X)).*1.

(** * State *)

Record index := MkIndex {
  fileToModID : gmap string ModuleID;
  executables : gset ModuleID;
  dependents : gmap ModuleID (gset ModuleID);
  dependencies : gmap ModuleID (gset ModuleID);
  modIDToFile : gmap ModuleID string;
}.

Inductive IndexErr :=
  | ErrDuplicatePolicy (otherFile : string)
  | ErrInvalidEntry
  | ErrPolicyNotFound (id : ModuleID)
  | ErrOpen (file : string)
  | ErrNotFound (file : string) (id : ModuleID)
  | ErrInvalid (file : string) (id : ModuleID).

Record Entry := MkEntry { e_File : string; e_Policy : option Wrapper }.

Implicit Types (idx : index) (id : ModuleID).

Definition dependencies_of idx id : gset ModuleID := default ∅ (dependencies idx !! id).
Definition dependents_of idx id : gset ModuleID := default ∅ (dependents idx !! id).

Definition GetFiles idx : list string := (go_range (fileToModID idx)).*1.

(** * Loading *)

Section fsys.
Context (fsys : FileSystem) (sourceAttributes : string → string).

Definition loadPolicy idx id : option (policyv1.Policy + IndexErr) :=
  match modIDToFile idx !! id with
  | None => Some (inr (ErrPolicyNotFound id))
  | Some fileName =>
      match fsys !! fileName with
      | None => Some (inr (ErrOpen fileName))
      | Some f =>
          d ← find_doc id (fc_Docs f);
          Some (match d with
                | None => inr (ErrNotFound fileName id)
                | Some (p, true) => inl (WithMetadata sourceAttributes p fileName)
                | Some (_, false) => inr (ErrInvalid fileName id)
                end)
      end
  end.

(** A loop that stops at the first error. *)
Fixpoint for_err {A S} (body : S → A → option (S + IndexErr)) (s : S) (l : list A) : option (S + IndexErr) :=
  match l with
  | [] => Some (inl s)
  | x :: l =>
      r ← body s x;
      match r with
      | inl s => for_err body s l
      | inr e => Some (inr e)
      end
  end.

(** The source recurses without a bound: [None] is also running out of [fuel]. *)
Fixpoint addDepsToCompilationUnit (fuel : nat) idx (cu : CompilationUnit) id : option (CompilationUnit + IndexErr) :=
  match fuel with
  | O => None
  | S fuel =>
      match dependencies idx !! id with
      | None => Some (inl cu)
      | Some deps =>
          for_err (λ cu dep,
            r ← (if decide (is_Some (cu_Definitions cu !! dep)) then Some (inl cu)
                 else r ← loadPolicy idx dep;
                      Some (match r with
                            | inl p => inl (AddDefinition cu dep (Some p))
                            | inr e => inr e
                            end : CompilationUnit + IndexErr));
            match r with
            | inl cu => addDepsToCompilationUnit fuel idx cu dep
            | inr e => Some (inr e)
            end) cu (set_elems deps)
      end
  end.
(** More than the nested calls on a path of imports without a repetition. *)
Definition deps_fuel idx : nat := 4 + size (dependencies idx).

(** One turn of the loop of [GetCompilationUnits]. *)
Definition compilation_unit idx id : option (option CompilationUnit + IndexErr) :=
  match modIDToFile idx !! id with
  | None => Some (inl None)
  | Some _ =>
      r ← loadPolicy idx id;
      match r with
      | inr e => Some (inr e)
      | inl p =>
          r ← addDepsToCompilationUnit (deps_fuel idx) idx (MkUnit {[id := Some p]} id) id;
          match r with
          | inr e => Some (inr e)
          | inl cu =>
              ancestors ← unit_Ancestors cu;
              r ← for_err (λ cu ancestor,
                    r ← loadPolicy idx ancestor;
                    match r with
                    | inr e => Some (inr e)
                    | inl p => addDepsToCompilationUnit (deps_fuel idx) idx (AddDefinition cu ancestor (Some p)) ancestor
                    end) cu ancestors;
              Some (match r with inl cu => inl (Some cu) | inr e => inr e end)
          end
      end
  end.

Definition GetCompilationUnits idx (ids : list ModuleID) : option (gmap ModuleID CompilationUnit + IndexErr) :=
  for_err (λ result id,
    r ← compilation_unit idx id;
    Some (match r with
          | inl (Some cu) => inl (<[id := cu]> result)
          | inl None => inl result
          | inr e => inr e
          end)) ∅ ids.

Fixpoint index_GetFirstMatch idx (candidates : list ModuleID) : option (option CompilationUnit + IndexErr) :=
  match candidates with
  | [] => Some (inl None)
  | modID :: candidates =>
      r ← GetCompilationUnits idx [modID];
      match r with
      | inr e => Some (inr e)
      | inl res => match go_range res with (_, cu) :: _ => Some (inl (Some cu)) | [] => index_GetFirstMatch idx candidates end
      end
  end.

Definition index_GetAllMatching idx (modIDs : list ModuleID) : option (list CompilationUnit + IndexErr) :=
  r ← GetCompilationUnits idx modIDs;
  Some (match r with inl cus => inl (go_range cus).*2 | inr e => inr e end).

(** What is compiled on its own: executable policies, and those nothing imports. *)
Definition toCompile idx : list ModuleID :=
  filter (λ modID, modID ∈ executables idx ∨ dependents_of idx modID = ∅) (go_range (modIDToFile idx)).*1.

(** The units sent on the channel: a unit that fails to load is left out.  A
    module that is to be compiled has a file, so its unit is there. *)
Definition GetAllCompilationUnits idx : option (list CompilationUnit) :=
  foldM (λ sent modID,
    unit ← GetCompilationUnits idx [modID];
    Some (match unit with
          | inl units => sent ++ option_list (units !! modID)
          | inr _ => sent
          end)) [] (toCompile idx).

(** [GetAll] and [Iter], with a context that is not cancelled. *)
Definition index_GetAll idx : option (list CompilationUnit) := GetAllCompilationUnits idx.
Definition index_Iter idx : option (list (CompilationUnit + unit)) := '(l : list CompilationUnit) ← GetAllCompilationUnits idx; Some (inl <$> l).

(** Files that are not indexed have the zero identifier. *)
Definition LoadPolicy idx (files : list string) : option (list policyv1.Policy + IndexErr) :=
  for_err (λ policies f,
    r ← loadPolicy idx (default 0%N (fileToModID idx !! f));
    Some (match r with inl p => inl (policies ++ [p]) | inr e => inr e end)) [] files.
End fsys.

(** * Dependents *)

(** The nested calls that do not return at once find one more dependent each. *)
Fixpoint addTransitiveDependents (fuel : nat) idx (found : gset ModuleID) id : option (gset ModuleID) :=
  match fuel with
  | O => None
  | S fuel =>
      foldM (λ found dependent,
        if decide (dependent ∈ found) then Some found
        else addTransitiveDependents fuel idx ({[dependent]} ∪ found) dependent) found (set_elems (dependents_of idx id))
  end.
Definition all_dependents idx : gset ModuleID := ⋃ (map_to_list (dependents idx)).*2.

Definition GetDependents idx (ids : list ModuleID) : option (gmap ModuleID (gset ModuleID)) :=
  foldM (λ results id,
    set ← addTransitiveDependents (S (size (all_dependents idx))) idx ∅ id;
    Some (<[id := set]> results)) ∅ ids.

(** * Updates *)

Definition addDep idx (child parent : ModuleID) : index :=
  MkIndex (fileToModID idx) (executables idx)
    (<[parent := {[child]} ∪ dependents_of idx parent]> (dependents idx))
    (<[child := {[parent]} ∪ dependencies_of idx child]> (dependencies idx))
    (modIDToFile idx).

(** Removing a module from the dependents of what it depends on. *)
Definition remove_dependent (id : ModuleID) (m : gmap ModuleID (gset ModuleID)) (deps : gset ModuleID) : gmap ModuleID (gset ModuleID) :=
  map_imap (λ dep refs, Some (if decide (dep ∈ deps) then refs ∖ {[id]} else refs)) m.

Definition NopEvent : Event := Manager.MkEvent EventOther 0%N None [].

Definition AddOrUpdate idx (entry : Entry) : option (index * (Event * option IndexErr)) :=
  match e_Policy entry with
  | None => Some (idx, (NopEvent, Some ErrInvalidEntry))
  | Some w =>
      let modID := w_ID w in
      let evt old deps := Manager.MkEvent EventAddOrUpdatePolicy modID old deps in
      let duplicate :=
        match modIDToFile idx !! modID with
        | Some otherFile => if decide (otherFile ≠ e_File entry) then Some otherFile else None
        | None => None
        end in
      match duplicate with
      | Some otherFile => Some (idx, (evt None [], Some (ErrDuplicatePolicy otherFile)))
      | None =>
          let '(idx, old) :=
            match fileToModID idx !! e_File entry with
            | None => (idx, None)
            | Some oldModID =>
                (MkIndex (delete (e_File entry) (fileToModID idx)) (executables idx ∖ {[oldModID]})
                   (remove_dependent oldModID (dependents idx) (dependencies_of idx oldModID))
                   (delete oldModID (dependencies idx)) (delete oldModID (modIDToFile idx)),
                 if decide (oldModID ≠ modID) then Some oldModID else None)
            end in
          let idx := MkIndex (<[e_File entry := modID]> (fileToModID idx))
                       (if decide (w_Kind w ≠ KIND_DERIVED_ROLES) then {[modID]} ∪ executables idx else executables idx)
                       (dependents idx) (dependencies idx) (<[modID := e_File entry]> (modIDToFile idx)) in
          deps ← Wrapper_Dependencies w;
          let idx := foldl (λ idx dep, addDep idx modID dep) idx deps in
          Some (idx, (evt old (set_elems (dependents_of idx modID)), None))
      end
  end.

(** Removing also drops the sets that become empty, and those that were. *)
Definition drop_empty (m : gmap ModuleID (gset ModuleID)) (deps : gset ModuleID) : gmap ModuleID (gset ModuleID) :=
  filter (λ x, ¬ (x.1 ∈ deps ∧ x.2 = ∅)) m.

Definition Delete idx (entry : Entry) : index * (Event * option IndexErr) :=
  match fileToModID idx !! e_File entry with
  | None => (idx, (NopEvent, None))
  | Some modID =>
      let deps := dependencies_of idx modID in
      let idx := MkIndex (delete (e_File entry) (fileToModID idx)) (executables idx ∖ {[modID]})
                   (drop_empty (remove_dependent modID (dependents idx) deps) deps)
                   (delete modID (dependencies idx)) (delete modID (modIDToFile idx)) in
      (idx, (Manager.MkEvent EventDeleteOrDisablePolicy modID None (set_elems (dependents_of idx modID)), None))
  end.

(** * Listing *)

Record meta := MkMetaDeps { m_Dependencies : list string; m_Dependents : list string }.
Definition Inspect idx : gmap string meta :=
  let files ids := (λ id, default "" (modIDToFile idx !! id)) <$> set_elems ids in
  (λ modID, MkMetaDeps (files (dependencies_of idx modID)) (files (dependents_of idx modID))) <$> fileToModID idx.

#[local] Instance string_le_rel_dec : RelDecision string_le := string_le_dec.
Definition ListPolicyIDs idx (filteredFiles : list string) : list string :=
  merge_sort string_le (filter (λ f, filteredFiles = [] ∨ f ∈ filteredFiles) (go_range (modIDToFile idx)).*2).
End index.
