(* ===== verification/StoreIndexSpec.v ===== *)
(** What the index of policy files stands for: the policies by file.  Updates and
    deletions are updates of that map, and events name exactly the importers. *)
From S2P Require Import Prelude GoRuntime Namer Policy ScopePerms IndexQuery RuleTableBuild RuleTable Manager PlanExpr CompileSource CompileDefs Compile CompileManager StoreIndex.

Local Open Scope string_scope.
Local Open Scope list_scope.
Open Scope nat_scope.

Section spec.
Context `{GoMapOrder} `{StringHash}.
Implicit Types (idx : index) (id dep : ModuleID) (entries : gmap string Wrapper) (w : Wrapper).

Lemma elem_of_set_elems (X : gset ModuleID) id : id ∈ set_elems X ↔ id ∈ X.
Proof.
  unfold set_elems. rewrite elem_of_go_range_keys. split.
  - intros [[] (Hin & _)%lookup_gset_to_gmap_Some]. done.
  - intros Hin. exists (). by apply lookup_gset_to_gmap_Some.
Qed.
Lemma NoDup_set_elems (X : gset ModuleID) : NoDup (set_elems X).
Proof. apply NoDup_go_range_keys. Qed.

(** * The policies of an index *)

Definition deps_at w : list ModuleID := default [] (Wrapper_Dependencies w).
(** The module [id] imports [dep]. *)
Definition imports_of entries id dep : Prop := ∃ f w, entries !! f = Some w ∧ w_ID w = id ∧ dep ∈ deps_at w.
Definition defines entries id : Prop := ∃ f w, entries !! f = Some w ∧ w_ID w = id.

Definition executable_kind (k : Kind) : Prop := k = KIND_RESOURCE ∨ k = KIND_PRINCIPAL ∨ k = KIND_ROLE_POLICY.

Record index_for entries idx : Prop := {
  if_files : ∀ f, fileToModID idx !! f = w_ID <$> entries !! f;
  if_modules : ∀ id f, modIDToFile idx !! id = Some f ↔ ∃ w, entries !! f = Some w ∧ w_ID w = id;
  if_dependencies : ∀ id dep, dep ∈ dependencies_of idx id ↔ imports_of entries id dep;
  if_dependents : ∀ id dep, id ∈ dependents_of idx dep ↔ imports_of entries id dep;
  if_executables : ∀ id, id ∈ executables idx → ∃ f w, entries !! f = Some w ∧ w_ID w = id ∧ w_Kind w ≠ KIND_DERIVED_ROLES;
  if_executed : ∀ f w, entries !! f = Some w → executable_kind (w_Kind w) → w_ID w ∈ executables idx;
}.

Lemma index_for_empty : index_for ∅ (MkIndex ∅ ∅ ∅ ∅ ∅).
Proof.
  split; cbn; [done|..].
  - intros id f. rewrite lookup_empty. split; [done|by intros (w & ? & _)].
  - intros id dep. unfold dependencies_of. cbn. rewrite lookup_empty. cbn. rewrite elem_of_empty. split; [done|by intros (f & w & ? & _)].
  - intros id dep. unfold dependents_of. cbn. rewrite lookup_empty. cbn. rewrite elem_of_empty. split; [done|by intros (f & w & ? & _)].
  - intros id. by rewrite elem_of_empty.
  - done.
Qed.

(** A module is in one file. *)
Lemma index_for_file_unique entries idx f f' w w' :
  index_for entries idx → entries !! f = Some w → entries !! f' = Some w' → w_ID w = w_ID w' → f = f'.
Proof.
  intros Hi Hf Hf' E. assert (modIDToFile idx !! w_ID w = Some f) as E1 by (apply (if_modules _ _ Hi); by exists w).
  assert (modIDToFile idx !! w_ID w = Some f') as E2 by (apply (if_modules _ _ Hi); exists w'; by rewrite E). congruence.
Qed.

(** ** Removing a file *)

Lemma dependents_of_remove id (m : gmap ModuleID (gset ModuleID)) deps dep :
  default ∅ (remove_dependent id m deps !! dep) = if decide (dep ∈ deps) then default ∅ (m !! dep) ∖ {[id]} else default ∅ (m !! dep).
Proof.
  unfold remove_dependent. rewrite map_lookup_imap. destruct (m !! dep) as [refs|]; cbn; [done|]. case_decide; set_solver.
Qed.

Definition remove_file idx (f : string) (id : ModuleID) : index :=
  MkIndex (delete f (fileToModID idx)) (executables idx ∖ {[id]})
    (remove_dependent id (dependents idx) (dependencies_of idx id)) (delete id (dependencies idx)) (delete id (modIDToFile idx)).

Lemma imports_of_delete entries idx f w id dep :
  index_for entries idx → entries !! f = Some w → imports_of (delete f entries) id dep ↔ id ≠ w_ID w ∧ imports_of entries id dep.
Proof.
  intros Hi Hf. split.
  - intros (f' & w' & [Hne Hf']%lookup_delete_Some & <- & Hd). split; [|by exists f', w'].
    intros E. apply Hne. by eapply index_for_file_unique.
  - intros (Hne & f' & w' & Hf' & <- & Hd). exists f', w'. split; [|done]. apply lookup_delete_Some. split; [|done]. intros ->. congruence.
Qed.

Lemma remove_file_index entries idx f w :
  index_for entries idx → entries !! f = Some w → index_for (delete f entries) (remove_file idx f (w_ID w)).
Proof.
  intros Hi Hf. split; cbn.
  - intros f'. destruct (decide (f' = f)) as [->|Hne]; [by rewrite !lookup_delete_eq|]. rewrite !lookup_delete_ne by done. apply Hi.
  - intros id f'. rewrite lookup_delete_Some, (if_modules _ _ Hi). split.
    + intros [Hne (w' & Hf' & <-)]. exists w'. split; [|done]. apply lookup_delete_Some. split; [|done]. intros ->. congruence.
    + intros (w' & [Hne Hf']%lookup_delete_Some & <-). split; [|by exists w']. intros E. apply Hne. by eapply index_for_file_unique.
  - intros id dep. rewrite (imports_of_delete entries idx f w) by done. rewrite <- (if_dependencies _ _ Hi). unfold dependencies_of. cbn.
    destruct (decide (id = w_ID w)) as [->|Hne]; [rewrite lookup_delete_eq; set_solver|]. rewrite lookup_delete_ne by done. tauto.
  - intros id dep. rewrite (imports_of_delete entries idx f w) by done. unfold dependents_of. cbn. rewrite dependents_of_remove.
    pose proof (if_dependents _ _ Hi id dep) as Hd. unfold dependents_of in Hd.
    pose proof (if_dependencies _ _ Hi (w_ID w) dep) as Hw. case_decide as Hin.
    + rewrite elem_of_difference, elem_of_singleton, Hd. tauto.
    + rewrite Hd. split; [|tauto]. intros Himp. split; [|done]. intros ->. tauto.
  - intros id [Hin Hne]%elem_of_difference. destruct (if_executables _ _ Hi id Hin) as (f' & w' & Hf' & <- & Hk).
    exists f', w'. split; [|done]. apply lookup_delete_Some. split; [|done]. intros ->. apply Hne, elem_of_singleton. congruence.
  - intros f' w' [Hne Hf']%lookup_delete_Some Hk. apply elem_of_difference. split; [by eapply if_executed|].
    rewrite elem_of_singleton. intros E. apply Hne. by eapply index_for_file_unique.
Qed.

(** ** Adding a file *)

Lemma addDeps_dependencies idx child deps id :
  dependencies_of (foldl (λ idx dep, addDep idx child dep) idx deps) id =
  if decide (id = child) then list_to_set deps ∪ dependencies_of idx id else dependencies_of idx id.
Proof.
  revert idx. induction deps as [|dep deps IH]; intros idx; cbn [foldl]; [case_decide; set_solver|]. rewrite IH.
  unfold dependencies_of, addDep. cbn [dependencies]. destruct (decide (id = child)) as [->|Hne].
  - rewrite lookup_insert_eq. cbn [default from_option id list_to_set]. set_solver.
  - by rewrite lookup_insert_ne.
Qed.

Lemma addDeps_dependents idx child deps dep :
  dependents_of (foldl (λ idx dep, addDep idx child dep) idx deps) dep =
  if decide (dep ∈ deps) then {[child]} ∪ dependents_of idx dep else dependents_of idx dep.
Proof.
  revert idx. induction deps as [|d deps IH]; intros idx; cbn [foldl]; [by rewrite decide_False by apply not_elem_of_nil|]. rewrite IH.
  unfold dependents_of, addDep. cbn [dependents]. destruct (decide (dep = d)) as [->|Hne].
  - rewrite lookup_insert_eq. cbn [default from_option id]. rewrite (decide_True (P := d ∈ d :: deps)) by left. case_decide; set_solver.
  - rewrite lookup_insert_ne by done. destruct (decide (dep ∈ deps)) as [Hin|Hin]; [by rewrite decide_True by (by right)|].
    by rewrite decide_False by (by intros [|]%elem_of_cons).
Qed.

Lemma addDeps_frame idx child deps :
  let idx' := foldl (λ idx dep, addDep idx child dep) idx deps in
  fileToModID idx' = fileToModID idx ∧ executables idx' = executables idx ∧ modIDToFile idx' = modIDToFile idx.
Proof. revert idx. induction deps as [|d deps IH]; intros idx; cbn [foldl]; [done|]. by apply (IH (addDep idx child d)). Qed.

(** Adding [w] at [f], with the executables [X] afterwards. *)
Definition add_module idx (f : string) (w : Wrapper) (X : gset ModuleID) : index :=
  foldl (λ idx dep, addDep idx (w_ID w) dep)
    (MkIndex (<[f := w_ID w]> (fileToModID idx)) X (dependents idx) (dependencies idx) (<[w_ID w := f]> (modIDToFile idx))) (deps_at w).

Lemma imports_of_insert entries f w id dep :
  entries !! f = None → imports_of (<[f := w]> entries) id dep ↔ (id = w_ID w ∧ dep ∈ deps_at w) ∨ imports_of entries id dep.
Proof.
  intros Hf. split.
  - intros (f' & w' & [[<- <-]|[_ Hf']]%lookup_insert_Some & <- & Hd); [by left|]. right. by exists f', w'.
  - intros [[-> Hd]|(f' & w' & Hf' & <- & Hd)]; [exists f, w; split; [by rewrite lookup_insert_eq|done]|].
    exists f', w'. split; [|done]. rewrite lookup_insert_ne; [done|]. intros ->. congruence.
Qed.

Lemma add_module_index entries idx f w (X : gset ModuleID) :
  index_for entries idx → entries !! f = None → ¬ defines entries (w_ID w) →
  (∀ id, id ∈ X → id ∈ executables idx ∨ id = w_ID w ∧ w_Kind w ≠ KIND_DERIVED_ROLES) → executables idx ⊆ X →
  (executable_kind (w_Kind w) → w_ID w ∈ X) →
  index_for (<[f := w]> entries) (add_module idx f w X).
Proof.
  intros Hi Hf Hfresh HX HX' Hk. unfold add_module. set (idx0 := MkIndex _ _ _ _ _).
  destruct (addDeps_frame idx0 (w_ID w) (deps_at w)) as (E1 & E2 & E3).
  assert (∀ f' w', entries !! f' = Some w' → <[f := w]> entries !! f' = Some w') as Hother.
  { intros f' w' Hf'. rewrite lookup_insert_ne; [done|]. intros ->. congruence. }
  split.
  - intros f'. rewrite E1. cbn. destruct (decide (f' = f)) as [->|Hff]; [by rewrite !lookup_insert_eq|]. rewrite !lookup_insert_ne by done. apply Hi.
  - intros id f'. rewrite E3. cbn. rewrite lookup_insert_Some, (if_modules _ _ Hi). split.
    + intros [[<- <-]|[_ (w' & Hf' & <-)]]; [exists w; by rewrite lookup_insert_eq|]. exists w'. split; [by apply Hother|done].
    + intros (w' & [[<- <-]|[_ Hf']]%lookup_insert_Some & <-); [by left|]. right. split; [|by exists w'].
      intros E. apply Hfresh. by exists f', w'.
  - intros id dep. rewrite addDeps_dependencies, imports_of_insert by done. rewrite <- (if_dependencies _ _ Hi).
    change (dependencies_of idx0 id) with (dependencies_of idx id). destruct (decide (id = w_ID w)) as [->|Hid].
    + rewrite elem_of_union, elem_of_list_to_set. tauto.
    + tauto.
  - intros id dep. rewrite addDeps_dependents, imports_of_insert by done. rewrite <- (if_dependents _ _ Hi).
    change (dependents_of idx0 dep) with (dependents_of idx dep). case_decide; [rewrite elem_of_union, elem_of_singleton|]; tauto.
  - intros id. rewrite E2. cbn. intros [Hin|[-> Hkind]]%HX; [|exists f, w; by rewrite lookup_insert_eq].
    destruct (if_executables _ _ Hi id Hin) as (f' & w' & Hf' & E & Hk'). exists f', w'. split; [by apply Hother|done].
  - intros f' w' [[<- <-]|[_ Hf']]%lookup_insert_Some Hkind; rewrite E2; cbn; [by apply Hk|]. apply HX'. by eapply if_executed.
Qed.

(** As [AddOrUpdate] does: all but derived roles are executable. *)
Definition add_file idx (f : string) (w : Wrapper) : index :=
  add_module idx f w (if decide (w_Kind w ≠ KIND_DERIVED_ROLES) then {[w_ID w]} ∪ executables idx else executables idx).

Lemma add_file_index entries idx f w :
  index_for entries idx → entries !! f = None → ¬ defines entries (w_ID w) → index_for (<[f := w]> entries) (add_file idx f w).
Proof.
  intros Hi Hf Hfresh. apply add_module_index; [done..| | |]; case_decide as Hk.
  - intros id [->%elem_of_singleton|Hin]%elem_of_union; [by right|by left].
  - by left.
  - apply union_subseteq_r.
  - done.
  - intros _. by apply elem_of_union_l, elem_of_singleton.
  - intros Hex. rewrite Hk in Hex. by destruct Hex as [|[|]].
Qed.

(** * Updates *)

(** Another file that defines the module of [w]. *)
Definition duplicates entries f w : Prop := ∃ f' w', f' ≠ f ∧ entries !! f' = Some w' ∧ w_ID w' = w_ID w.

(** The module that [f] used to define. *)
Definition replaced entries f w : option ModuleID :=
  match entries !! f with Some w' => if decide (w_ID w' ≠ w_ID w) then Some (w_ID w') else None | None => None end.

Definition lists_importers entries id (l : list ModuleID) : Prop := NoDup l ∧ ∀ d, d ∈ l ↔ imports_of entries d id.

Lemma dependents_listed entries idx id : index_for entries idx → lists_importers entries id (set_elems (dependents_of idx id)).
Proof. intros Hi. split; [apply NoDup_set_elems|]. intros d. rewrite elem_of_set_elems. apply Hi. Qed.

Lemma AddOrUpdate_duplicate entries idx f w :
  index_for entries idx → duplicates entries f w →
  ∃ otherFile w', otherFile ≠ f ∧ entries !! otherFile = Some w' ∧ w_ID w' = w_ID w ∧
    AddOrUpdate idx (MkEntry f (Some w)) = Some (idx, (Manager.MkEvent EventAddOrUpdatePolicy (w_ID w) None [], Some (ErrDuplicatePolicy otherFile))).
Proof.
  intros Hi (f' & w' & Hne & Hf' & E). exists f', w'. split; [done|]. split; [done|]. split; [done|]. unfold AddOrUpdate. cbn.
  assert (modIDToFile idx !! w_ID w = Some f') as -> by (apply (if_modules _ _ Hi); by exists w'). by rewrite decide_True.
Qed.

Lemma AddOrUpdate_accepted entries idx f w :
  index_for entries idx → ¬ duplicates entries f w → is_Some (Wrapper_Dependencies w) →
  ∃ idx' deps, AddOrUpdate idx (MkEntry f (Some w)) =
      Some (idx', (Manager.MkEvent EventAddOrUpdatePolicy (w_ID w) (replaced entries f w) deps, None)) ∧
    index_for (<[f := w]> entries) idx' ∧ lists_importers (<[f := w]> entries) (w_ID w) deps.
Proof.
  intros Hi Hd [ds Hds]. unfold AddOrUpdate. cbn [e_Policy e_File].
  assert (∀ f', modIDToFile idx !! w_ID w = Some f' → f' = f) as Hfile.
  { intros f' (w' & Hf' & E)%(if_modules _ _ Hi). destruct (decide (f' = f)); [done|]. destruct Hd. by exists f', w'. }
  assert (match modIDToFile idx !! w_ID w with Some otherFile => if decide (otherFile ≠ f) then Some otherFile else None | None => None end = None) as ->.
  { destruct (modIDToFile idx !! w_ID w) as [f'|] eqn:E; [|done]. rewrite decide_False; [done|]. intros Hne. by destruct Hne; apply Hfile. }
  assert (deps_at w = ds) as Hdeps by (unfold deps_at; by rewrite Hds).
  assert (∀ entries0 idx0, index_for entries0 idx0 → entries0 !! f = None → ¬ defines entries0 (w_ID w) → <[f := w]> entries0 = <[f := w]> entries →
    index_for (<[f := w]> entries) (add_file idx0 f w)) as Hadd.
  { intros entries0 idx0 Hi0 Hf0 Hfresh E. rewrite <- E. by apply add_file_index. }
  unfold replaced. rewrite (if_files _ _ Hi). destruct (entries !! f) as [w0|] eqn:Hf; cbn [fmap option_fmap option_map].
  - rewrite Hds. cbn. assert (index_for (<[f := w]> entries) (add_file (remove_file idx f (w_ID w0)) f w)) as Hi'.
    { apply (Hadd (delete f entries)); [by apply remove_file_index|apply lookup_delete_eq| |by rewrite insert_delete_eq].
      intros (f' & w' & [Hne Hf']%lookup_delete_Some & E). apply Hd. exists f', w'. by split. }
    unfold add_file, add_module in Hi'. rewrite Hdeps in Hi'. eexists _, _. split; [reflexivity|]. split; [exact Hi'|]. by apply dependents_listed.
  - rewrite Hds. cbn. assert (index_for (<[f := w]> entries) (add_file idx f w)) as Hi'.
    { apply (Hadd entries); [done..| |done]. intros (f' & w' & Hf' & E). apply Hd. exists f', w'. split; [|done]. intros ->. congruence. }
    unfold add_file, add_module in Hi'. rewrite Hdeps in Hi'. eexists _, _. split; [reflexivity|]. split; [exact Hi'|]. by apply dependents_listed.
Qed.

(** ** Deletion *)

Lemma dependents_of_drop_empty m deps dep : default ∅ (drop_empty m deps !! dep) = default ∅ (m !! dep).
Proof.
  unfold drop_empty. destruct (m !! dep) as [refs|] eqn:E.
  - destruct (decide (dep ∈ deps ∧ refs = ∅)) as [[Hin ->]|Hn].
    + rewrite map_lookup_filter_None_2; [done|]. right. intros x Hx. cbn. naive_solver.
    + by rewrite (map_lookup_filter_Some_2 _ m dep refs).
  - rewrite map_lookup_filter_None_2; [done|]. by left.
Qed.

Lemma Delete_accepted entries idx f w p :
  index_for entries idx → entries !! f = Some w →
  ∃ idx' deps, Delete idx (MkEntry f p) = (idx', (Manager.MkEvent EventDeleteOrDisablePolicy (w_ID w) None deps, None)) ∧
    index_for (delete f entries) idx' ∧ lists_importers (delete f entries) (w_ID w) deps.
Proof.
  intros Hi Hf. unfold Delete. cbn. rewrite (if_files _ _ Hi), Hf. cbn. eexists _, _. split; [reflexivity|].
  pose proof (remove_file_index entries idx f w Hi Hf) as [I1 I2 I3 I4 I5 I6].
  match goal with |- index_for _ ?i ∧ _ => assert (index_for (delete f entries) i) as Hi' end.
  { split; [exact I1|exact I2|exact I3| |exact I5|exact I6]. intros id dep. unfold dependents_of. cbn [dependents].
    rewrite dependents_of_drop_empty. exact (I4 id dep). }
  split; [exact Hi'|]. by apply (dependents_listed _ _ _ Hi').
Qed.

Lemma Delete_unknown entries idx f p : index_for entries idx → entries !! f = None → Delete idx (MkEntry f p) = (idx, (NopEvent, None)).
Proof. intros Hi Hf. unfold Delete. cbn. by rewrite (if_files _ _ Hi), Hf. Qed.

(** * Transitive dependents *)

Section reach.
Context (idx : index).
Definition direct (a b : ModuleID) : Prop := b ∈ dependents_of idx a.

(** What following [l], dependents of [id], adds to [found]. *)
Record explored (id : ModuleID) (l : list ModuleID) (found found' : gset ModuleID) : Prop := {
  ex_sub : found ⊆ found';
  ex_reach : ∀ d, d ∈ found' → d ∈ found ∨ tc direct id d;
  ex_closed : ∀ d e, d ∈ found' → d ∉ found → direct d e → e ∈ found';
  ex_done : ∀ d, d ∈ l → d ∈ found';
}.

Lemma explored_nil id found : explored id [] found found.
Proof. split; [done|auto|done|]. by intros d ?%elem_of_nil. Qed.

Lemma explored_skip id d l found found' : d ∈ found → explored id l found found' → explored id (d :: l) found found'.
Proof. intros Hd [Hs Hr Hc Hl]. split; [done..|]. intros e [->|He]%elem_of_cons; auto. Qed.

Lemma explored_cons id d l found found1 found2 :
  direct id d → explored d (set_elems (dependents_of idx d)) ({[d]} ∪ found) found1 → explored id l found1 found2 →
  explored id (d :: l) found found2.
Proof.
  intros Hd [S1 R1 C1 D1] [S2 R2 C2 D2].
  assert (d ∈ found1) as Hd1 by set_solver. split.
  - set_solver.
  - intros x [Hx|Hx]%R2; [|by right]. apply R1 in Hx as [[->%elem_of_singleton|Hx]%elem_of_union|Hx]; [right; by apply tc_once|by left|].
    right. by eapply tc_l.
  - intros x e Hx Hn He. destruct (decide (x ∈ found1)) as [Hx1|Hx1]; [|by apply (C2 x)]. apply S2.
    destruct (decide (x = d)) as [->|Hxd]; [by apply D1, elem_of_set_elems|]. apply (C1 x); [done| |done]. set_solver.
  - intros x [->|Hx]%elem_of_cons; [by apply S2|by apply D2].
Qed.

Lemma all_dependents_elem a b : direct a b → b ∈ all_dependents idx.
Proof.
  unfold direct, dependents_of, all_dependents. intros Hb. apply elem_of_union_list.
  destruct (dependents idx !! a) as [X|] eqn:E; [|by apply not_elem_of_empty in Hb]. exists X. split; [|done].
  apply list_elem_of_fmap. exists (a, X). split; [done|]. by apply elem_of_map_to_list.
Qed.

Lemma unfound_lt (X found : gset ModuleID) d : d ∈ X → d ∉ found → size (X ∖ ({[d]} ∪ found)) < size (X ∖ found).
Proof. intros Hd Hn. apply subset_size. split; [set_solver|]. intros Hsub. assert (d ∈ X ∖ found) by set_solver. set_solver. Qed.

Lemma addTransitiveDependents_runs fuel id found :
  size (all_dependents idx ∖ found) < fuel →
  runs (addTransitiveDependents fuel idx found id) (explored id (set_elems (dependents_of idx id)) found).
Proof.
  revert id found. induction fuel as [|fuel IH]; intros id found Hsize; [lia|]. cbn [addTransitiveDependents].
  assert (∀ d, d ∈ set_elems (dependents_of idx id) → direct id d) as Hl by (intros d; by rewrite elem_of_set_elems).
  revert Hl found Hsize. generalize (set_elems (dependents_of idx id)). intros l Hl.
  induction l as [|d l IHl]; intros found Hsize; cbn [foldM]; [rret; apply explored_nil|].
  assert (∀ e, e ∈ l → direct id e) as Hl' by (intros e He; apply Hl; by right). assert (direct id d) as Hd by (apply Hl; left).
  case_decide as Hf.
  - rewrite bind_some. eapply runs_mono; [by apply IHl|]. intros found' He. by apply explored_skip.
  - pose proof (unfound_lt _ found d (all_dependents_elem id d Hd) Hf) as Hlt.
    eapply runs_bind; [apply IH; lia|]. intros found1 He1. eapply runs_mono; [apply IHl; [done|]|].
    + pose proof (ex_sub _ _ _ _ He1). assert (size (all_dependents idx ∖ found1) ≤ size (all_dependents idx ∖ ({[d]} ∪ found))); [|lia].
      apply subseteq_size. set_solver.
    + intros found2 He2. by eapply explored_cons.
Qed.

Lemma explored_all id found' : explored id (set_elems (dependents_of idx id)) ∅ found' → ∀ d, d ∈ found' ↔ tc direct id d.
Proof.
  intros [_ Hr Hc Hl] d. split; [intros [?%not_elem_of_empty|]%Hr; [done|done]|].
  assert (∀ e, direct id e → e ∈ found') as Hd by (intros e He; by apply Hl, elem_of_set_elems).
  intros Htc. clear Hr Hl. revert Hd. induction Htc as [a b Hab|a b c Hab Hbc IH]; intros Hd; [by apply Hd|]. apply IH. intros e He. eapply Hc; [by apply Hd| |done]. apply not_elem_of_empty.
Qed.
End reach.

(** [d] imports [id], perhaps through others. *)
Definition depends_on entries d id : Prop := tc (λ a b, imports_of entries b a) id d.

Lemma tc_ext {A} (R S : relation A) x y : (∀ a b, R a b ↔ S a b) → tc R x y ↔ tc S x y.
Proof. intros E. split; induction 1 as [|? ? ? Hxy _ IH]; [apply tc_once|eapply tc_l; [|exact IH]|apply tc_once|eapply tc_l; [|exact IH]]; by apply E. Qed.

Lemma GetDependents_spec entries idx ids :
  index_for entries idx →
  ∃ results, GetDependents idx ids = Some results ∧ dom results = list_to_set ids ∧
    ∀ id set, results !! id = Some set → ∀ d, d ∈ set ↔ depends_on entries d id.
Proof.
  intros Hi. unfold GetDependents.
  assert (∀ acc : gmap ModuleID (gset ModuleID), (∀ id set, acc !! id = Some set → ∀ d, d ∈ set ↔ depends_on entries d id) →
    runs (foldM (λ results id, set ← addTransitiveDependents (S (size (all_dependents idx))) idx ∅ id; Some (<[id := set]> results)) acc ids)
      (λ results, dom results = dom acc ∪ list_to_set ids ∧ ∀ id set, results !! id = Some set → ∀ d, d ∈ set ↔ depends_on entries d id)) as Hrun.
  { induction ids as [|id ids IH]; intros acc Hacc; cbn [foldM]; [rret; split; [cbn [list_to_set]; clear; set_solver|done]|].
    assert (size (all_dependents idx ∖ ∅) < S (size (all_dependents idx))) as Hlt by (rewrite difference_empty_L; lia).
    destruct (addTransitiveDependents_runs idx _ id ∅ Hlt) as (set & E & Hset). rewrite E, !bind_some.
    eapply runs_mono; [apply IH|].
    - intros id' set' [[<- <-]|[_ Hl]]%lookup_insert_Some; [|by apply Hacc]. intros d. rewrite (explored_all _ _ _ Hset d).
      apply tc_ext. intros a b. apply Hi.
    - intros results [Hdom Hres]. split; [|done]. rewrite Hdom, dom_insert_L. cbn [list_to_set]. clear. set_solver. }
  destruct (Hrun ∅) as (results & E & Hdom & Hres); [intros id set; by rewrite lookup_empty|]. exists results. split; [exact E|].
  split; [|done]. rewrite Hdom, dom_empty_L. clear. set_solver.
Qed.
End spec.
