(* ===== verification/StoreUnitSpec.v ===== *)
(** The compilation units that the index assembles: a policy, what it imports
    directly or not, its ancestors and what they import, each as its file has it.
    Imports are no deeper than policies, derived roles, constants and variables, so
    that collecting them terminates. *)
From S2P Require Import Prelude GoRuntime Namer Policy ScopePerms IndexQuery RuleTableBuild RuleTable Manager PlanExpr CompileSource CompileDefs Compile CompileManager StoreIndex StoreIndexSpec.

Local Open Scope string_scope.
Local Open Scope list_scope.
Open Scope nat_scope.

(** * Kinds and names *)

Lemma RolePolicyFQN_default role version scope :
  RolePolicyFQN role (if decide (version = "") then DefaultVersion else version) scope = RolePolicyFQN role version scope.
Proof. unfold RolePolicyFQN. by repeat case_decide. Qed.

Lemma KindFromFQN_FQN pt : KindFromFQN (FQN (coordinates pt)) = Some (kind_of pt).
Proof.
  destruct pt; cbn [coordinates kind_of FQN]; unfold ResourcePolicyFQN, PrincipalPolicyFQN, RolePolicyFQN, DerivedRolesFQN, ExportConstantsFQN,
    ExportVariablesFQN, withScope, versioned; repeat case_decide; reflexivity.
Qed.

Section units.
Context `{GoMapOrder} `{StringHash}.
Implicit Types (idx : index) (id dep x : ModuleID) (w : Wrapper) (cu : CompilationUnit).

(** * Depth of imports *)

Section depth.
Context (entries : gmap string Wrapper).

(** Entries wrap their policies, and a module imported by one has the name under
    which it is imported: the hashes of these names do not collide. *)
Record wrapped : Prop := {
  wr_wrap : ∀ f w, entries !! f = Some w → Wrap (w_Policy w) = Some w;
  wr_names : ∀ f w f' w' deps (dep : string), entries !! f = Some w → entries !! f' = Some w' → Dependencies (w_Policy w) = Some deps → dep ∈ deps →
    w_ID w' = GenModuleIDFromFQN dep → w_FQN w' = dep;
}.
Context (Hw : wrapped).

Fixpoint depth_le (n : nat) (id : ModuleID) : Prop :=
  match n with
  | O => ∀ dep, ¬ imports_of entries id dep
  | S n => ∀ dep, imports_of entries id dep → depth_le n dep
  end.

Lemma depth_le_S n id : depth_le n id → depth_le (S n) id.
Proof. revert id. induction n as [|n IH]; intros id Hn dep Hd; [by destruct (Hn dep)|]. by apply IH, Hn. Qed.

(** How deep the imports of a policy are. *)
Definition kind_depth (w : Wrapper) : nat :=
  match policyv1.p_PolicyType (w_Policy w) with
  | Some (policyv1.Policy_ExportConstants _ | policyv1.Policy_ExportVariables _) | None => 0
  | Some (policyv1.Policy_DerivedRoles _) => 1
  | Some _ => 2
  end.

Lemma wrap_FQN p w :
  Wrap p = Some w → ∃ pt, policyv1.p_PolicyType p = Some pt ∧ w_Policy w = p ∧ w_ID w = GenModuleIDFromFQN (w_FQN w) ∧
    w_Kind w = kind_of pt ∧ w_FQN w = FQN (coordinates pt).
Proof.
  unfold Wrap. destruct (policyv1.p_PolicyType p) as [pt|]; [|done]. rewrite bind_some. intros [= <-]. exists pt.
  destruct pt; try done. cbn [w_FQN w_Policy w_ID w_Kind coordinates FQN]. rewrite RolePolicyFQN_default. done.
Qed.

(** What a policy imports, by name. *)
Lemma deps_at_elem w dep : dep ∈ deps_at w → ∃ deps (name : string), Dependencies (w_Policy w) = Some deps ∧ name ∈ deps ∧ dep = GenModuleIDFromFQN name.
Proof.
  unfold deps_at, Wrapper_Dependencies. destruct (Dependencies (w_Policy w)) as [deps|]; [|by intros ?%elem_of_nil]. cbn.
  intros (name & -> & Hn)%list_elem_of_fmap. by exists deps, name.
Qed.

Lemma Dependencies_kind p deps (name : string) :
  Dependencies p = Some deps → name ∈ deps → ∃ pt, policyv1.p_PolicyType p = Some pt ∧
    match KindFromFQN name with
    | Some KIND_DERIVED_ROLES => ∃ rp, pt = policyv1.Policy_ResourcePolicy rp
    | Some KIND_EXPORT_CONSTANTS | Some KIND_EXPORT_VARIABLES => kind_of pt ≠ KIND_EXPORT_CONSTANTS ∧ kind_of pt ≠ KIND_EXPORT_VARIABLES
    | _ => False
    end.
Proof.
  unfold Dependencies. destruct (policyv1.p_PolicyType p) as [pt|]; [|done]. rewrite bind_some.
  destruct (imports pt) as [[drs cs] vs] eqn:E. intros [= <-]. rewrite !elem_of_app, !list_elem_of_fmap.
  intros Hn. exists pt. split; [done|]. destruct Hn as [(n & -> & Hin)|[(n & -> & Hin)|(n & -> & Hin)]].
  - rewrite (KindFromFQN_FQN (policyv1.Policy_DerivedRoles (policyv1.MkDerivedRoles n [] None None)) : KindFromFQN (DerivedRolesFQN n) = _). cbn.
    destruct pt; cbn in E; injection E as <- <- <-; eauto; by apply elem_of_nil in Hin.
  - rewrite (KindFromFQN_FQN (policyv1.Policy_ExportConstants (policyv1.MkExportConstants n ∅)) : KindFromFQN (ExportConstantsFQN n) = _). cbn.
    destruct pt; cbn in E; injection E as <- <- <-; try done; by apply elem_of_nil in Hin.
  - rewrite (KindFromFQN_FQN (policyv1.Policy_ExportVariables (policyv1.MkExportVariables n ∅)) : KindFromFQN (ExportVariablesFQN n) = _). cbn.
    destruct pt; cbn in E; injection E as <- <- <-; try done; by apply elem_of_nil in Hin.
Qed.

Lemma import_depth f w f' w' :
  entries !! f = Some w → entries !! f' = Some w' → w_ID w' ∈ deps_at w → kind_depth w' < kind_depth w.
Proof using Hw.
  intros Hf Hf' (deps & name & Hdeps & Hn & E)%deps_at_elem.
  pose proof (wr_names Hw _ _ _ _ _ _ Hf Hf' Hdeps Hn E) as Hname.
  destruct (wrap_FQN _ _ (wr_wrap Hw _ _ Hf')) as (pt' & Hpt' & _ & _ & _ & Hfqn). rewrite Hname in Hfqn.
  destruct (Dependencies_kind _ _ _ Hdeps Hn) as (pt & Hpt & Hk). rewrite Hfqn, KindFromFQN_FQN in Hk.
  unfold kind_depth. rewrite Hpt, Hpt'. destruct pt' as [| | | | |]; cbn in Hk; try done.
  - destruct Hk as [rp ->]. lia.
  - destruct Hk as [Hk1 Hk2]. destruct pt; cbn in *; try done; lia.
  - destruct Hk as [Hk1 Hk2]. destruct pt; cbn in *; try done; lia.
Qed.

Lemma importer_depth f w dep : entries !! f = Some w → dep ∈ deps_at w → 0 < kind_depth w.
Proof using Hw.
  intros Hf (deps & name & Hdeps & Hn & _)%deps_at_elem. destruct (Dependencies_kind _ _ _ Hdeps Hn) as (pt & Hpt & Hk).
  unfold kind_depth. rewrite Hpt. destruct (KindFromFQN name) as [[]|]; try done; [by destruct Hk as [rp ->]; lia| |]; destruct Hk, pt; cbn in *; try done; lia.
Qed.

Lemma depth_bound n id : (∀ f w, entries !! f = Some w → w_ID w = id → kind_depth w ≤ n) → depth_le n id.
Proof using Hw.
  revert id. induction n as [|n IH]; intros id Hid.
  - intros dep (f & w & Hf & E & Hd). pose proof (Hid f w Hf E). pose proof (importer_depth f w dep Hf Hd). lia.
  - intros dep (f & w & Hf & E & Hd). apply IH. intros f' w' Hf' <-. pose proof (Hid f w Hf E). pose proof (import_depth _ _ _ _ Hf Hf' Hd). lia.
Qed.

Lemma depth_all id : depth_le 2 id.
Proof using Hw.
  apply depth_bound. intros f w Hf _. unfold kind_depth. destruct (policyv1.p_PolicyType (w_Policy w)) as [[]|]; lia.
Qed.
End depth.

(** * Loading *)

Section load.
Context (fsys : FileSystem) (sourceAttributes : string → string).
Context (entries : gmap string Wrapper) (idx : index).

(** Every file has the policy that the index knows of. *)
Definition files_hold : Prop := ∀ f w, entries !! f = Some w → ∃ c p,
  fsys !! f = Some c ∧ find_doc (w_ID w) (fc_Docs c) = Some (Some (p, true)) ∧ WithMetadata sourceAttributes p f = w_Policy w.

Context (Hw : wrapped entries) (Hi : index_for entries idx) (Hfiles : files_hold).

Definition policy_at id p : Prop := ∃ f w, entries !! f = Some w ∧ w_ID w = id ∧ w_Policy w = p.

Lemma policy_at_unique id p q : policy_at id p → policy_at id q → p = q.
Proof using Hi.
  intros (f & w & Hf & E & <-) (f' & w' & Hf' & E' & <-).
  assert (f = f') as -> by (eapply index_for_file_unique; [exact Hi|done..|congruence]). congruence.
Qed.
Lemma policy_at_defines id p : policy_at id p → defines entries id.
Proof. intros (f & w & ? & ? & _). by exists f, w. Qed.
Lemma defines_policy id : defines entries id → ∃ p, policy_at id p.
Proof. intros (f & w & Hf & E). by exists (w_Policy w), f, w. Qed.
Lemma policy_at_typed id p : policy_at id p → is_Some (policyv1.p_PolicyType p).
Proof using Hw. intros (f & w & Hf & _ & <-). destruct (wrap_FQN _ _ (wr_wrap _ Hw _ _ Hf)) as (pt & Hpt & _). by exists pt. Qed.

Lemma loadPolicy_runs id :
  runs (loadPolicy fsys sourceAttributes idx id) (λ r, match r with
    | inl p => policy_at id p
    | inr e => ¬ defines entries id ∧ e = ErrPolicyNotFound id
    end).
Proof using Hi Hfiles.
  unfold loadPolicy. destruct (modIDToFile idx !! id) as [f|] eqn:E.
  - apply (if_modules _ _ Hi) in E as (w & Hf & E). destruct (Hfiles f w Hf) as (c & p & -> & Hdoc & Hp). rewrite E in Hdoc. rewrite Hdoc, bind_some.
    rret. by exists f, w.
  - rret. split; [|done]. intros (f & w & Hf & E'). assert (modIDToFile idx !! id = Some f) by (apply (if_modules _ _ Hi); by exists w). congruence.
Qed.

(** ** What a module imports, directly or not *)

Definition needs_module id x : Prop := tc (imports_of entries) id x.

Lemma needs_module_step id x : needs_module id x ↔ ∃ dep, imports_of entries id dep ∧ (x = dep ∨ needs_module dep x).
Proof.
  unfold needs_module. split.
  - intros Htc. inversion Htc as [? ? Hd|? dep ? Hd Hx]; subst; [exists x; auto|exists dep; auto].
  - intros (dep & Hd & [->|Hx]); [by apply tc_once|by eapply tc_l].
Qed.

(** The definitions of a unit are those of the index. *)
Definition exact cu : Prop := ∀ x d, cu_Definitions cu !! x = Some d → ∃ p, d = Some p ∧ policy_at x p.

(** [cu'] is [cu] with the modules [X]. *)
Record extended (X : ModuleID → Prop) cu cu' : Prop := {
  ext_exact : exact cu';
  ext_main : cu_ModID cu' = cu_ModID cu;
  ext_modules : ∀ x, is_Some (cu_Definitions cu' !! x) ↔ is_Some (cu_Definitions cu !! x) ∨ X x;
}.

Lemma extended_refl cu (X : ModuleID → Prop) : exact cu → (∀ x, ¬ X x) → extended X cu cu.
Proof. intros He HX. split; [done..|]. intros x. split; [by left|]. intros [?|?]; [done|by destruct (HX x)]. Qed.
Lemma extended_trans X Y cu1 cu2 cu3 (Z : ModuleID → Prop) :
  (∀ x, Z x ↔ X x ∨ Y x) → extended X cu1 cu2 → extended Y cu2 cu3 → extended Z cu1 cu3.
Proof. intros HZ [? ? M1] [? ? M2]. split; [done|congruence|]. intros x. rewrite M2, M1, HZ. tauto. Qed.

Lemma extended_add cu id p : exact cu → policy_at id p → extended (λ x, x = id) cu (AddDefinition cu id (Some p)).
Proof.
  intros He Hp. split; cbn [AddDefinition cu_Definitions cu_ModID]; [|done|].
  - intros x d. cbn [AddDefinition cu_Definitions]. intros [[<- <-]|[_ Hd]]%lookup_insert_Some; [by exists p|by apply He].
  - intros x. destruct (decide (x = id)) as [->|Hne]; [rewrite lookup_insert_eq; naive_solver|]. rewrite lookup_insert_ne by done. tauto.
Qed.

(** What a loop leaves: all of [X], or an error for one that is not defined. *)
Definition loads (X : ModuleID → Prop) cu (r : CompilationUnit + IndexErr) : Prop :=
  match r with
  | inl cu' => (∀ x, X x → defines entries x) ∧ extended X cu cu'
  | inr e => ∃ x, X x ∧ ¬ defines entries x ∧ e = ErrPolicyNotFound x
  end.

Lemma for_err_loads {A} (body : CompilationUnit → A → option (CompilationUnit + IndexErr)) (X : A → ModuleID → Prop) l cu :
  (∀ a cu, a ∈ l → exact cu → runs (body cu a) (loads (X a) cu)) → exact cu →
  runs (for_err body cu l) (loads (λ x, ∃ a, a ∈ l ∧ X a x) cu).
Proof.
  revert cu. induction l as [|a l IH]; intros cu Hb He; cbn [for_err].
  - rret. split; [by intros x (a & ?%elem_of_nil & _)|]. apply extended_refl; [done|]. by intros x (a & ?%elem_of_nil & _).
  - eapply runs_bind; [apply Hb; [left|done]|]. intros [cu1|e] Hr.
    + destruct Hr as [Hd1 Hx1]. eapply runs_mono; [apply IH; [intros b cu2 Hin; apply Hb; by right|apply Hx1]|]. intros [cu2|e] Hr2.
      * destruct Hr2 as [Hd2 Hx2]. split; [intros x (b & [->|Hin]%elem_of_cons & Hx); eauto|].
        eapply extended_trans; [|exact Hx1|exact Hx2]. intros x. split; [intros (b & [->|Hin]%elem_of_cons & Hx); eauto|].
        intros [Hx|(b & Hin & Hx)]; [exists a; split; [left|done]|exists b; split; [by right|done]].
      * destruct Hr2 as (x & (b & Hin & Hx) & Hn & E). exists x. split; [|done]. exists b. split; [by right|done].
    + rret. destruct Hr as (x & Hx & Hn & E). exists x. split; [|done]. exists a. split; [left|done].
Qed.

Lemma loads_iff X Y cu r : (∀ x, X x ↔ Y x) → loads X cu r → loads Y cu r.
Proof.
  intros E. destruct r as [cu'|e]; cbn.
  - intros [Hd [? ? M]]. split; [intros x Hx; by apply Hd, E|]. split; [done..|]. intros x. by rewrite M, E.
  - intros (x & Hx & Hn). exists x. by rewrite <- E.
Qed.

Lemma addDeps_runs fuel n id cu :
  depth_le entries n id → n < fuel → exact cu → runs (addDepsToCompilationUnit fsys sourceAttributes fuel idx cu id) (loads (needs_module id) cu).
Proof using Hi Hfiles.
  revert n id cu. induction fuel as [|fuel IH]; intros n id cu Hn Hlt He; [lia|]. cbn [addDepsToCompilationUnit].
  destruct (dependencies idx !! id) as [deps|] eqn:E.
  - assert (∀ dep, dep ∈ set_elems deps ↔ imports_of entries id dep) as Hdeps.
    { intros dep. rewrite elem_of_set_elems, <- (if_dependencies _ _ Hi). unfold dependencies_of. by rewrite E. }
    eapply runs_mono; [apply (for_err_loads _ (λ dep x, x = dep ∨ needs_module dep x)); [|done]|].
    + intros dep cu1 Hdep He1. apply Hdeps in Hdep.
      assert (∃ m, depth_le entries m dep ∧ m < fuel) as (m & Hm & Hmf).
      { destruct n as [|n]; [by destruct (Hn dep)|]. exists n. split; [by apply Hn|lia]. }
      case_decide as Hin.
      * rewrite bind_some. eapply runs_mono; [by eapply IH|]. intros [cu2|e]; cbn.
        -- intros [Hd [? ? M]]. destruct Hin as [d Hin]. destruct (He1 _ _ Hin) as (p & -> & Hp). split.
           ++ intros x [->|Hx]; [by eapply policy_at_defines|by apply Hd].
           ++ split; [done..|]. intros x. rewrite M. split; [tauto|]. intros [?|[->|?]]; eauto.
        -- intros (x & Hx & Hr). exists x. tauto.
      * destruct (loadPolicy_runs dep) as (r & -> & Hr). rewrite bind_some. destruct r as [p|e]; rewrite bind_some.
        -- pose proof (extended_add cu1 dep p He1 Hr) as Hx1. eapply runs_mono; [eapply IH; [done..|apply Hx1]|]. intros [cu2|e]; cbn.
           ++ intros [Hd Hx2]. split; [intros x [->|Hx]; [by eapply policy_at_defines|by apply Hd]|].
              eapply extended_trans; [|exact Hx1|exact Hx2]. done.
           ++ intros (x & Hx & Hr2). exists x. tauto.
        -- rret. exists dep. split; [by left|]. exact Hr.
    + intros r. apply loads_iff. intros x. rewrite needs_module_step. split; [intros (dep & Hd%Hdeps & Hx); eauto|].
      intros (dep & Hd & Hx). exists dep. by rewrite Hdeps.
  - rret. assert (∀ x, ¬ needs_module id x) as Hno.
    { intros x (dep & Hd & _)%needs_module_step. apply (if_dependencies _ _ Hi) in Hd. unfold dependencies_of in Hd. rewrite E in Hd. by apply not_elem_of_empty in Hd. }
    split; [by intros x Hx; destruct (Hno x)|]. by apply extended_refl.
Qed.

(** ** Units *)

(** The modules of the unit of [id]. *)
Definition unit_modules id x : Prop :=
  x = id ∨ needs_module id x ∨ ∃ p ids a, policy_at id p ∧ Ancestors p = Some ids ∧ a ∈ ids ∧ (x = a ∨ needs_module a x).
Record loaded id cu : Prop := {
  ld_main : cu_ModID cu = id;
  ld_definitions : ∀ x d, cu_Definitions cu !! x = Some d ↔ unit_modules id x ∧ ∃ p, d = Some p ∧ policy_at x p;
  ld_complete : ∀ x, unit_modules id x → defines entries x;
}.
Definition unit_incomplete id (e : IndexErr) : Prop := ∃ x, unit_modules id x ∧ ¬ defines entries x ∧ e = ErrPolicyNotFound x.

Lemma extended_loaded id p cu :
  policy_at id p → (∀ x, unit_modules id x → defines entries x) → extended (λ x, unit_modules id x) (MkUnit {[id := Some p]} id) cu → loaded id cu.
Proof using Hi.
  intros Hp Hd [He Hm M]. split; [done| |done]. intros x d. cbn in M. split.
  - intros Hx. destruct (He x d Hx) as (q & -> & Hq). split; [|by exists q].
    destruct (proj1 (M x)) as [[q' Hq']|Hu]; [by rewrite Hx|apply lookup_singleton_Some in Hq' as [<- _]; by left|done].
  - intros [Hu (q & -> & Hq)]. destruct (proj2 (M x) (or_intror Hu)) as [d Hd']. destruct (He x d Hd') as (q' & -> & Hq').
    by rewrite (policy_at_unique x q q').
Qed.

Lemma Ancestors_typed p : is_Some (policyv1.p_PolicyType p) → is_Some (Ancestors p).
Proof. intros [pt Hpt]. unfold Ancestors, policy_FQNTree. rewrite Hpt. by eexists. Qed.

Lemma compilation_unit_runs id :
  runs (compilation_unit fsys sourceAttributes idx id) (λ r, match r with
    | inl None => ¬ defines entries id
    | inl (Some cu) => loaded id cu
    | inr e => defines entries id ∧ unit_incomplete id e
    end).
Proof using Hw Hi Hfiles.
  unfold compilation_unit. destruct (loadPolicy_runs id) as (r & Hl & Hr).
  destruct (modIDToFile idx !! id) as [f|] eqn:E.
  2: { rret. intros (f & w & Hf & E'). assert (modIDToFile idx !! id = Some f) by (apply (if_modules _ _ Hi); by exists w). congruence. }
  rewrite Hl, bind_some. destruct r as [p|e].
  2: { apply (if_modules _ _ Hi) in E as (w & Hf & E). destruct Hr as [Hn _]. destruct Hn. by exists f, w. }
  set (cu0 := MkUnit {[id := Some p]} id). assert (exact cu0) as He0.
  { intros x d. cbn. intros [<- <-]%lookup_singleton_Some. by exists p. }
  assert (2 < deps_fuel idx) as Hfuel by (unfold deps_fuel; lia).
  eapply runs_bind; [by apply (addDeps_runs _ 2); [apply depth_all| |]|]. intros [cu1|e] H1.
  2: { rret. split; [by eapply policy_at_defines|]. destruct H1 as (x & Hx & Hn & ->). exists x. split; [right; by left|done]. }
  destruct H1 as [Hd1 Hx1]. assert (MainPolicy cu1 = Some p) as Hmain.
  { unfold MainPolicy. rewrite (ext_main _ _ _ Hx1). cbn.
    destruct (proj2 (ext_modules _ _ _ Hx1 id)) as [d Hd]; [left; cbn; by rewrite lookup_singleton_eq|].
    destruct (ext_exact _ _ _ Hx1 _ _ Hd) as (q & -> & Hq). rewrite Hd. cbn. by rewrite (policy_at_unique id p q). }
  destruct (Ancestors_typed p) as [ids Hids]; [by eapply policy_at_typed|].
  unfold unit_Ancestors. rewrite Hmain, bind_some, Hids, bind_some.
  eapply runs_bind; [apply (for_err_loads _ (λ a x, x = a ∨ needs_module a x)); [|apply Hx1]|].
  - intros a cu Ha He. destruct (loadPolicy_runs a) as (r & -> & Hra). rewrite bind_some. destruct r as [q|e].
    + pose proof (extended_add cu a q He Hra) as Hxa. eapply runs_mono; [by apply (addDeps_runs _ 2); [apply depth_all| |apply Hxa]|].
      intros [cu2|e]; cbn.
      * intros [Hd Hx2]. split; [intros x [->|Hx]; [by eapply policy_at_defines|by apply Hd]|]. eapply extended_trans; [|exact Hxa|exact Hx2]. done.
      * intros (x & Hx & Hn). exists x. tauto.
    + rret. exists a. split; [by left|exact Hra].
  - assert (∀ x, unit_modules id x ↔ x = id ∨ needs_module id x ∨ ∃ a, a ∈ ids ∧ (x = a ∨ needs_module a x)) as Hu.
    { intros x. unfold unit_modules. split; intros [?|[?|Hx]]; auto.
      - destruct Hx as (q & ids' & a & Hq & Hids' & Ha & Hx). rewrite (policy_at_unique id q p) in Hids' by done.
        rewrite Hids in Hids'. injection Hids' as <-. right; right. by exists a.
      - destruct Hx as (a & Ha & Hx). right; right. by exists p, ids, a. }
    intros [cu2|e] H2; rret.
    + destruct H2 as [Hd2 Hx2]. assert (∀ x, unit_modules id x → defines entries x) as Hdef.
      { intros x [->|[Hx|Hx]]%Hu; [by eapply policy_at_defines|by apply Hd1|by apply Hd2]. }
      apply (extended_loaded id p); [done..|].
      assert (extended (λ x, needs_module id x ∨ ∃ a, a ∈ ids ∧ (x = a ∨ needs_module a x)) cu0 cu2) as [? ? M] by (eapply extended_trans; [|exact Hx1|exact Hx2]; done).
      split; [done..|]. intros x. rewrite M, Hu. cbn. split; [tauto|]. intros [?|[->|?]]; auto. left. by rewrite lookup_singleton_eq.
    + split; [by eapply policy_at_defines|]. destruct H2 as (x & Hx & Hn & ->). exists x. split; [|done]. apply Hu. tauto.
Qed.

Lemma loaded_typed id cu x d : loaded id cu → cu_Definitions cu !! x = Some d → ∃ p, d = Some p ∧ is_Some (policyv1.p_PolicyType p).
Proof using Hw. intros Hl (_ & p & -> & Hp)%(ld_definitions _ _ Hl). exists p. split; [done|]. by eapply policy_at_typed. Qed.

(** ** Several units *)

Lemma GetCompilationUnits_runs ids :
  runs (GetCompilationUnits fsys sourceAttributes idx ids) (λ r, match r with
    | inl m => (∀ id, id ∈ ids → defines entries id → is_Some (m !! id)) ∧ ∀ id cu, m !! id = Some cu → id ∈ ids ∧ loaded id cu
    | inr e => ∃ id, id ∈ ids ∧ defines entries id ∧ unit_incomplete id e
    end).
Proof using Hw Hi Hfiles.
  unfold GetCompilationUnits.
  assert (∀ acc : gmap ModuleID CompilationUnit, runs (for_err (λ result id, r ← compilation_unit fsys sourceAttributes idx id;
      Some (match r with inl (Some cu) => inl (<[id := cu]> result) | inl None => inl result | inr e => inr e end)) acc ids) (λ r, match r with
    | inl m => (∀ id, is_Some (acc !! id) → is_Some (m !! id)) ∧ (∀ id, id ∈ ids → defines entries id → is_Some (m !! id)) ∧
               ∀ id cu, m !! id = Some cu → acc !! id = Some cu ∨ id ∈ ids ∧ loaded id cu
    | inr e => ∃ id, id ∈ ids ∧ defines entries id ∧ unit_incomplete id e
    end)) as Hrun.
  { induction ids as [|id ids IH]; intros acc; cbn [for_err].
    { rret. split; [done|]. split; [by intros id ?%elem_of_nil|]. auto. }
    destruct (compilation_unit_runs id) as (r & -> & Hr). rewrite bind_some.
    destruct r as [[cu|]|e].
    - rewrite bind_some. eapply runs_mono; [apply IH|]. intros [m|e]; [|intros (id' & Hin & ?); exists id'; split; [by right|done]].
      intros (Hk & Hdef & Hm). split; [|split].
      + intros id' Hs. apply Hk. destruct (decide (id = id')) as [->|]; [rewrite lookup_insert_eq; eauto|by rewrite lookup_insert_ne].
      + intros id' [->|Hin]%elem_of_cons Hd; [apply Hk; rewrite lookup_insert_eq; eauto|by apply Hdef].
      + intros id' cu' [[[<- <-]|[_ Ha]]%lookup_insert_Some|[Hin Hl]]%Hm; [right; split; [left|done]|by left|right; split; [by right|done]].
    - rewrite bind_some. eapply runs_mono; [apply IH|]. intros [m|e]; [|intros (id' & Hin & ?); exists id'; split; [by right|done]].
      intros (Hk & Hdef & Hm). split; [done|]. split; [intros id' [->|Hin]%elem_of_cons Hd; [done|by apply Hdef]|].
      intros id' cu' [Ha|[Hin Hl]]%Hm; [by left|right; split; [by right|done]].
    - rewrite bind_some. rret. exists id. split; [left|done]. }
  destruct (Hrun ∅) as (r & -> & Hr). rret. destruct r as [m|e]; [|done]. destruct Hr as (_ & Hd & Hm). split; [done|].
  intros id cu [He|?]%Hm; [by rewrite lookup_empty in He|done].
Qed.

(** ** All units *)

Lemma elem_of_toCompile id :
  id ∈ toCompile idx ↔ defines entries id ∧ (id ∈ executables idx ∨ ∀ d, ¬ imports_of entries d id).
Proof using Hi.
  unfold toCompile. rewrite list_elem_of_filter, elem_of_go_range_keys.
  assert (is_Some (modIDToFile idx !! id) ↔ defines entries id) as ->.
  { unfold defines. split; [intros [f (w & ? & ?)%(if_modules _ _ Hi)]; by exists f, w|intros (f & w & ? & ?); exists f; apply (if_modules _ _ Hi); by exists w]. }
  assert (dependents_of idx id = ∅ ↔ ∀ d, ¬ imports_of entries d id) as ->; [|tauto].
  setoid_rewrite <- (if_dependents _ _ Hi _ id). clear. set_solver.
Qed.
Lemma NoDup_toCompile : NoDup (toCompile idx).
Proof. apply NoDup_filter, NoDup_go_range_keys. Qed.

Definition complete_module id : Prop := defines entries id ∧ ∀ x, unit_modules id x → defines entries x.

Lemma GetCompilationUnits_one id :
  runs (GetCompilationUnits fsys sourceAttributes idx [id]) (λ r, match r with
    | inl m => (∀ cu, m !! id = Some cu → loaded id cu) ∧ (m !! id = None → ¬ complete_module id)
    | inr _ => ¬ complete_module id
    end).
Proof using Hw Hi Hfiles.
  eapply runs_mono; [apply GetCompilationUnits_runs|]. intros [m|e].
  - intros [Hd Hm]. split; [intros cu Hcu; by apply Hm|]. intros Hn [Hdef _]. destruct (Hd id) as [cu Hcu]; [left|done|congruence].
  - intros (id' & ->%list_elem_of_singleton & _ & x & Hx & Hn & _) [_ Hall]. by apply Hn, Hall.
Qed.

(** The units that are delivered are those that are complete; others are left out. *)
Record delivers (ids : list ModuleID) (l : list CompilationUnit) : Prop := {
  de_loaded : Forall (λ cu, cu_ModID cu ∈ ids ∧ loaded (cu_ModID cu) cu) l;
  de_distinct : NoDup (cu_ModID <$> l);
  de_complete : ∀ id, id ∈ ids → complete_module id → id ∈ cu_ModID <$> l;
}.

Lemma GetAllCompilationUnits_runs : runs (GetAllCompilationUnits fsys sourceAttributes idx) (delivers (toCompile idx)).
Proof using Hw Hi Hfiles.
  unfold GetAllCompilationUnits. apply (foldM_rule delivers).
  { split; [constructor..|]. by intros id ?%elem_of_nil. }
  intros done id rest sent Hids [Hl Hnd Hc].
  assert (id ∉ done) as Hnew.
  { pose proof NoDup_toCompile as Hn. rewrite Hids in Hn. apply NoDup_app in Hn as (_ & Hx & _). intros Hin. apply (Hx id Hin). left. }
  assert (∀ l : list CompilationUnit, Forall (λ cu, cu_ModID cu ∈ done ∧ loaded (cu_ModID cu) cu) l → Forall (λ cu, cu_ModID cu ∈ done ++ [id] ∧ loaded (cu_ModID cu) cu) l) as Hmore.
  { intros l Hall. eapply Forall_impl; [exact Hall|]. intros cu [Hin Hcu]. split; [apply elem_of_app; by left|exact Hcu]. }
  destruct (GetCompilationUnits_one id) as (r & -> & Hr). rewrite bind_some. rret.
  assert (¬ complete_module id → delivers (done ++ [id]) sent) as Hskip.
  { intros Hn. split; [by apply Hmore|exact Hnd|]. intros id' [Hin| ->%list_elem_of_singleton]%elem_of_app Hd; [by apply Hc|by destruct Hn]. }
  destruct r as [m|e]; [|by apply Hskip]. destruct Hr as [Hm Hn]. destruct (m !! id) as [cu|]; cbn; [|rewrite app_nil_r; by apply Hskip, Hn].
  pose proof (Hm cu eq_refl) as Hcu. pose proof (ld_main _ _ Hcu) as E. split.
  - apply Forall_app_2; [by apply Hmore|]. constructor; [|constructor]. rewrite E. split; [apply elem_of_app; right; left|exact Hcu].
  - rewrite fmap_app. apply NoDup_app. split; [exact Hnd|]. split; [|apply NoDup_singleton].
    intros x Hx Hx'. apply list_elem_of_fmap in Hx as (cu' & -> & Hcu'). cbn in Hx'. rewrite E in Hx'. apply list_elem_of_singleton in Hx'.
    rewrite Forall_forall in Hl. destruct (Hl cu' Hcu') as [Hin _]. by rewrite Hx' in Hin.
  - intros id' [Hin| ->%list_elem_of_singleton]%elem_of_app Hd; rewrite fmap_app; apply elem_of_app; [left; by apply Hc|]. right. cbn. rewrite E. left.
Qed.
End load.
End units.
