(* ===== verification/StoreBuild.v ===== *)
(** Building the index of policy files: the builder of
    [src/internal/storage/index/builder.go], which visits the files of a directory
    and reports duplicate definitions, missing imports and ancestors, conflicting
    scope permissions and files that do not load.

    The directory walk is left out: [build] is given the files it visits, in
    order.  Statistics, positions and descriptions of errors are not modelled. *)
From S2P Require Import Prelude GoRuntime GlobDim Namer Policy ScopePerms IndexQuery IndexQuerySpec ParentRoles RuleTableBuild RuleTable Manager PlanExpr CompileSource CompileDefs Compile CompileModuleSpec CompileManager StoreIndex StoreIndexSpec StoreUnitSpec.

Local Open Scope string_scope.
Local Open Scope list_scope.
Open Scope nat_scope.

(** * Text *)

(** [strings.Cut(s, "/")] *)
Fixpoint before_slash (s : string) : string :=
  match s with
  | EmptyString => ""
  | String c s => if decide (c = "/"%char) then "" else String c (before_slash s)
  end.
(** [strings.CutLast(s, ".v")]: what follows the last occurrence, if any. *)
Fixpoint after_last_v (s : string) : option string :=
  match s with
  | EmptyString => None
  | String c s' =>
      match after_last_v s' with
      | Some a => Some a
      | None => if String.prefix ".v" s then Some (String.substring 2 (String.length s - 2) s) else None
      end
  end.

(** * Scopes and versions of resources *)

Abbreviation ResourceScopes := (gmap string (gmap string (gset string))).

Definition remove_version (scopes : gmap string (gset string)) (scope version : string) : gmap string (gset string) :=
  match scopes !! scope with
  | None => scopes
  | Some versions =>
      let versions := versions ∖ {[version]} in
      if decide (size versions = 0) then delete scope scopes else <[scope := versions]> scopes
  end.
Definition add_version (m : ResourceScopes) (resource scope version : string) : ResourceScopes :=
  let scopes := default ∅ (m !! resource) in
  <[resource := <[scope := {[version]} ∪ default ∅ (scopes !! scope)]> scopes]> m.
Definition has_version (scopes : gmap string (gset string)) (scope version : string) : Prop :=
  match scopes !! scope with Some versions => version ∈ versions | None => False end.
#[export] Instance has_version_dec scopes scope version : Decision (has_version scopes scope version).
Proof. unfold has_version. destruct (scopes !! scope); apply _. Defined.

(** * The builder *)

Record MissingImport := MkMissingImport {
  mi_ImportingFile : string;
  mi_ImportingPolicy : string;
  mi_ImportKind : string;
  mi_ImportName : string;
}.
Record DuplicateDef := MkDuplicateDef { dd_File : string; dd_OtherFile : string; dd_Policy : string }.

Record indexBuilder := MkBuilder {
  ib_executables : gset ModuleID;
  ib_modIDToFile : gmap ModuleID string;
  ib_fileToModID : gmap string ModuleID;
  ib_dependents : gmap ModuleID (gset ModuleID);
  ib_dependencies : gmap ModuleID (gset ModuleID);
  ib_missingScopes : gmap string (gset string);
  ib_scopePermsTracker : Tracker;
  ib_missingResourceScopes : ResourceScopes;
  ib_foundRolePolicyResourceScopes : ResourceScopes;
  ib_missing : gmap ModuleID (list MissingImport);
  ib_duplicates : list DuplicateDef;
  ib_loadFailures : list string;
  ib_disabled : list string;
}.
Definition newIndexBuilder : indexBuilder := MkBuilder ∅ ∅ ∅ ∅ ∅ ∅ NewTracker ∅ ∅ ∅ [] [] [].

Section builder.
Context `{GlobEngine} `{GoMapOrder} `{StringHash}.
Implicit Types (ib : indexBuilder) (w : Wrapper).

(** One entry for a file; the source has one for each of the errors joined. *)
Definition addLoadFailure ib (file : string) : indexBuilder :=
  MkBuilder (ib_executables ib) (ib_modIDToFile ib) (ib_fileToModID ib) (ib_dependents ib) (ib_dependencies ib) (ib_missingScopes ib)
    (ib_scopePermsTracker ib) (ib_missingResourceScopes ib) (ib_foundRolePolicyResourceScopes ib) (ib_missing ib) (ib_duplicates ib)
    (ib_loadFailures ib ++ [file]) (ib_disabled ib).
Definition addDisabled ib (file : string) : indexBuilder :=
  MkBuilder (ib_executables ib) (ib_modIDToFile ib) (ib_fileToModID ib) (ib_dependents ib) (ib_dependencies ib) (ib_missingScopes ib)
    (ib_scopePermsTracker ib) (ib_missingResourceScopes ib) (ib_foundRolePolicyResourceScopes ib) (ib_missing ib) (ib_duplicates ib)
    (ib_loadFailures ib) (ib_disabled ib ++ [file]).
Definition addDuplicate ib (d : DuplicateDef) : indexBuilder :=
  MkBuilder (ib_executables ib) (ib_modIDToFile ib) (ib_fileToModID ib) (ib_dependents ib) (ib_dependencies ib) (ib_missingScopes ib)
    (ib_scopePermsTracker ib) (ib_missingResourceScopes ib) (ib_foundRolePolicyResourceScopes ib) (ib_missing ib) (ib_duplicates ib ++ [d])
    (ib_loadFailures ib) (ib_disabled ib).

(** The policy is at [file]: nothing it defines is missing any more. *)
Definition register ib (file policyKey : string) w : indexBuilder :=
  MkBuilder (ib_executables ib) (<[w_ID w := file]> (ib_modIDToFile ib)) (<[file := w_ID w]> (ib_fileToModID ib))
    (ib_dependents ib) (ib_dependencies ib) (delete policyKey (ib_missingScopes ib)) (ib_scopePermsTracker ib) (ib_missingResourceScopes ib)
    (ib_foundRolePolicyResourceScopes ib) (delete (w_ID w) (ib_missing ib)) (ib_duplicates ib) (ib_loadFailures ib) (ib_disabled ib).
Definition addExecutable ib w : indexBuilder :=
  MkBuilder ({[w_ID w]} ∪ ib_executables ib) (ib_modIDToFile ib) (ib_fileToModID ib) (ib_dependents ib) (ib_dependencies ib) (ib_missingScopes ib)
    (ib_scopePermsTracker ib) (ib_missingResourceScopes ib) (ib_foundRolePolicyResourceScopes ib) (ib_missing ib) (ib_duplicates ib)
    (ib_loadFailures ib) (ib_disabled ib).
Definition set_scopes ib (missingScopes : gmap string (gset string)) (missingResourceScopes found : ResourceScopes) : indexBuilder :=
  MkBuilder (ib_executables ib) (ib_modIDToFile ib) (ib_fileToModID ib) (ib_dependents ib) (ib_dependencies ib) missingScopes
    (ib_scopePermsTracker ib) missingResourceScopes found (ib_missing ib) (ib_duplicates ib) (ib_loadFailures ib) (ib_disabled ib).
Definition set_tracker ib (t : Tracker) : indexBuilder :=
  MkBuilder (ib_executables ib) (ib_modIDToFile ib) (ib_fileToModID ib) (ib_dependents ib) (ib_dependencies ib) (ib_missingScopes ib)
    t (ib_missingResourceScopes ib) (ib_foundRolePolicyResourceScopes ib) (ib_missing ib) (ib_duplicates ib) (ib_loadFailures ib) (ib_disabled ib).
Definition set_missing ib (missing : gmap ModuleID (list MissingImport)) : indexBuilder :=
  MkBuilder (ib_executables ib) (ib_modIDToFile ib) (ib_fileToModID ib) (ib_dependents ib) (ib_dependencies ib) (ib_missingScopes ib)
    (ib_scopePermsTracker ib) (ib_missingResourceScopes ib) (ib_foundRolePolicyResourceScopes ib) missing (ib_duplicates ib)
    (ib_loadFailures ib) (ib_disabled ib).

Definition ib_addDep ib (child parent : ModuleID) : indexBuilder :=
  MkBuilder (ib_executables ib) (ib_modIDToFile ib) (ib_fileToModID ib)
    (<[parent := {[child]} ∪ default ∅ (ib_dependents ib !! parent)]> (ib_dependents ib))
    (<[child := {[parent]} ∪ default ∅ (ib_dependencies ib !! child)]> (ib_dependencies ib))
    (ib_missingScopes ib) (ib_scopePermsTracker ib) (ib_missingResourceScopes ib) (ib_foundRolePolicyResourceScopes ib) (ib_missing ib)
    (ib_duplicates ib) (ib_loadFailures ib) (ib_disabled ib).

(** ** Kinds *)

(** A resource policy is no longer missing from its scope. *)
Definition found_resource_policy (m : ResourceScopes) (resourceKind scope version : string) : ResourceScopes :=
  match m !! resourceKind with
  | None => m
  | Some scopes =>
      let scopes := remove_version scopes scope version in
      if decide (size scopes = 0) then delete resourceKind m else <[resourceKind := scopes]> m
  end.

(** A rule of a role policy makes up for resource policies missing from its scope.
    The loop leaves its last scopes in a variable; when they are empty, the entry
    under the resource kind, which is empty for role policies, is deleted. *)
Definition found_role_rule w (ib : indexBuilder) (rule : policyv1.RoleRule) : indexBuilder :=
  let step '(missingScopes, m) '(resource, scopes) :=
    if MatchesGlob (policyv1.orule_Resource rule) resource then
      (if decide (is_Some (scopes !! w_Scope w))
       then delete (PolicyKeyFromFQN (ResourcePolicyFQN resource (w_Version w) (w_Scope w))) missingScopes else missingScopes,
       <[resource := remove_version scopes (w_Scope w) (w_Version w)]> m)
    else (missingScopes, m) in
  let range := go_range (ib_missingResourceScopes ib) in
  let '(missingScopes, m) := foldl step (ib_missingScopes ib, ib_missingResourceScopes ib) range in
  let lastScopes : gmap string (gset string) := default ∅ (x ← last range; m !! x.1) in
  let m := if decide (size lastScopes = 0) then delete "" m else m in
  set_scopes ib missingScopes m (add_version (ib_foundRolePolicyResourceScopes ib) (policyv1.orule_Resource rule) (w_Scope w) (w_Version w)).

(** The builder, the scope permissions and the resource kind. *)
Definition note_kind ib w : indexBuilder * ScopePermissions * string :=
  match policyv1.p_PolicyType (w_Policy w) with
  | Some (policyv1.Policy_ResourcePolicy rp) =>
      let ib := addExecutable ib w in
      (set_scopes ib (ib_missingScopes ib)
         (found_resource_policy (ib_missingResourceScopes ib) (policyv1.rp_Resource rp) (policyv1.rp_Scope rp) (policyv1.rp_Version rp))
         (ib_foundRolePolicyResourceScopes ib),
       policyv1.rp_ScopePermissions rp, policyv1.rp_Resource rp)
  | Some (policyv1.Policy_PrincipalPolicy pp) => (addExecutable ib w, policyv1.pp_ScopePermissions pp, "")
  | Some (policyv1.Policy_RolePolicy rp) =>
      (foldl (found_role_rule w) (addExecutable ib w) (policyv1.ro_Rules rp), SCOPE_PERMISSIONS_UNSPECIFIED, "")
  | _ => (ib, SCOPE_PERMISSIONS_UNSPECIFIED, "")
  end.

(** ** Imports *)

(** Only imports have these kinds; another would panic. *)
Definition import_kind (dep : string) : option string :=
  match KindFromFQN dep with
  | Some KIND_DERIVED_ROLES => Some "derived roles"
  | Some KIND_EXPORT_CONSTANTS => Some "constants"
  | Some KIND_EXPORT_VARIABLES => Some "variables"
  | _ => None
  end.

Definition note_import (file : string) w ib (dep : string) : option indexBuilder :=
  let depID := GenModuleIDFromFQN dep in
  let ib := ib_addDep ib (w_ID w) depID in
  if decide (is_Some (ib_modIDToFile ib !! depID)) then Some ib
  else
    kindStr ← import_kind dep;
    Some (set_missing ib (<[depID := default [] (ib_missing ib !! depID) ++
      [MkMissingImport file (PolicyKeyFromFQN (w_FQN w)) kindStr (SimpleName dep)]]> (ib_missing ib))).

(** ** Ancestors *)

(** A role policy found in the scope of a missing resource policy makes up for it. *)
Definition role_policy_found ib (resourceKind scope version : string) : Prop :=
  Exists (λ '(foundResource, scopes), MatchesGlob foundResource resourceKind ∧ has_version scopes scope version)
    (go_range (ib_foundRolePolicyResourceScopes ib)).
#[export] Instance role_policy_found_dec ib resourceKind scope version : Decision (role_policy_found ib resourceKind scope version).
Proof. apply Exists_dec. intros []. apply _. Defined.

Definition note_ancestor (policyKey resourceKind : string) ib (ancestor : ModuleID * string) : indexBuilder :=
  let '(moduleID, fqn) := ancestor in
  let ancestorPolicyKey := PolicyKeyFromFQN fqn in
  if decide (is_Some (ib_modIDToFile ib !! moduleID)) then ib
  else
    let missing ib := set_scopes ib (<[ancestorPolicyKey := {[policyKey]} ∪ default ∅ (ib_missingScopes ib !! ancestorPolicyKey)]> (ib_missingScopes ib))
                        (ib_missingResourceScopes ib) (ib_foundRolePolicyResourceScopes ib) in
    if decide (resourceKind ≠ "") then
      let scope := after_slash ancestorPolicyKey in
      let version := default "" (after_last_v (before_slash ancestorPolicyKey)) in
      if decide (role_policy_found ib resourceKind scope version) then ib
      else missing (set_scopes ib (ib_missingScopes ib) (add_version (ib_missingResourceScopes ib) resourceKind scope version)
                      (ib_foundRolePolicyResourceScopes ib))
    else missing ib.

(** ** Policies *)

Definition ib_addPolicy ib (file : string) w : option indexBuilder :=
  let duplicate :=
    match ib_modIDToFile ib !! w_ID w with
    | Some otherFile => if decide (otherFile ≠ file) then Some otherFile else None
    | None => None
    end in
  match duplicate with
  | Some otherFile => Some (addDuplicate ib (MkDuplicateDef file otherFile (PolicyKeyFromFQN (w_FQN w))))
  | None =>
      fqn ← policy_FQN (w_Policy w);
      let policyKey := PolicyKeyFromFQN fqn in
      let '(ib, scopePermission, resourceKind) := note_kind (register ib file policyKey w) w in
      let ib := set_tracker ib (Tracker_Add (ib_scopePermsTracker ib) (w_Kind w) policyKey (w_Scope w) scopePermission) in
      deps ← Dependencies (w_Policy w);
      ib ← foldM (note_import file w) ib deps;
      ancestors ← RequiredAncestors (w_Policy w);
      Some (foldl (note_ancestor policyKey resourceKind) ib (go_range ancestors))
  end.

(** * Building *)

(** A visit of a file.  [policy.ReadPolicyFromFile] takes a single document. *)
Definition visit (fsys : FileSystem) (sourceAttributes : string → string) ib (filePath : string) : option indexBuilder :=
  match fsys !! filePath with
  | None => Some (addLoadFailure ib filePath)
  | Some f =>
      if fc_Errors f then Some (addLoadFailure ib filePath)
      else match fc_Docs f with
           | [] => Some ib
           | [(p, _)] =>
               if policyv1.p_Disabled p then Some (addDisabled ib filePath)
               else match Validate (Some p) with
                    | _ :: _ => Some (addLoadFailure ib filePath)
                    | [] => w ← Wrap (WithMetadata sourceAttributes p filePath); ib_addPolicy ib filePath w
                    end
           | _ => Some (addLoadFailure ib filePath)
           end
  end.

(** The errors of the build; a number of each is positive when there are any. *)
Record BuildErrors := MkBuildErrors {
  be_MissingImports : list MissingImport;
  be_MissingScopeDetails : gmap string (gset string);
  be_DuplicateDefs : list DuplicateDef;
  be_LoadFailures : list string;
  be_DisabledDefs : list string;
  be_ScopePermissionsConflicts : list Conflict;
}.

Definition ib_build ib : index + BuildErrors :=
  let scopePermissionsConflicts := Tracker_Conflicts (ib_scopePermsTracker ib) in
  let nErr := size (ib_missing ib) + length (ib_duplicates ib) + length (ib_loadFailures ib) + size (ib_missingScopes ib) +
              length scopePermissionsConflicts in
  if decide (0 < nErr) then
    inr (MkBuildErrors (concat (go_range (ib_missing ib)).*2) (ib_missingScopes ib) (ib_duplicates ib) (ib_loadFailures ib)
           (ib_disabled ib) scopePermissionsConflicts)
  else inl (MkIndex (ib_fileToModID ib) (ib_executables ib) (ib_dependents ib) (ib_dependencies ib) (ib_modIDToFile ib)).

Definition build (fsys : FileSystem) (sourceAttributes : string → string) (files : list string) : option (index + BuildErrors) :=
  ib ← foldM (visit fsys sourceAttributes) newIndexBuilder files; Some (ib_build ib).
End builder.

(** * The index as a store of source policies *)

Section store.
Context `{GoMapOrder} `{StringHash}.

Definition delivered {A} (r : option (A + IndexErr)) : option A := match r with Some (inl x) => Some x | _ => None end.
(** [disk.Store] and its kin pass the calls on to the index. *)
Definition store_of (fsys : FileSystem) (sourceAttributes : string → string) (idx : index) : SourceStore := {|
  store_GetFirstMatch ids := delivered (index_GetFirstMatch fsys sourceAttributes idx ids);
  store_GetAll := index_GetAll fsys sourceAttributes idx;
  store_GetAllMatching ids := delivered (index_GetAllMatching fsys sourceAttributes idx ids);
  store_GetCompilationUnits ids := delivered (GetCompilationUnits fsys sourceAttributes idx ids);
  store_Iter := index_Iter fsys sourceAttributes idx;
|}.
End store.

(** * What the builder accepts

    Files that load, define distinct modules and declare no conflicting scope
    permissions, with every import defined and every ancestor defined or made up for
    by a role policy. *)

Section spec.
Context `{GlobEngine} `{GoMapOrder} `{StringHash}.
Implicit Types (ib : indexBuilder) (w : Wrapper) (entries : gmap string Wrapper) (fqn key : string).

Definition ib_index ib : index := MkIndex (ib_fileToModID ib) (ib_executables ib) (ib_dependents ib) (ib_dependencies ib) (ib_modIDToFile ib).

(** * Policies *)

Definition permissions_of w : ScopePermissions :=
  match policyv1.p_PolicyType (w_Policy w) with
  | Some (policyv1.Policy_ResourcePolicy rp) => policyv1.rp_ScopePermissions rp
  | Some (policyv1.Policy_PrincipalPolicy pp) => policyv1.pp_ScopePermissions pp
  | _ => SCOPE_PERMISSIONS_UNSPECIFIED
  end.
Definition resource_of w : string :=
  match policyv1.p_PolicyType (w_Policy w) with Some (policyv1.Policy_ResourcePolicy rp) => policyv1.rp_Resource rp | _ => "" end.
Definition role_rules_of w : list policyv1.RoleRule :=
  match policyv1.p_PolicyType (w_Policy w) with Some (policyv1.Policy_RolePolicy rp) => policyv1.ro_Rules rp | _ => [] end.

Definition key_of w : string := PolicyKeyFromFQN (w_FQN w).
(** The names of the ancestors a policy requires. *)
Definition requires w fqn : Prop := ∃ tree, policy_FQNTree (w_Policy w) = Some tree ∧ fqn ∈ tail tree.

Definition key_version key : string := default "" (after_last_v (before_slash key)).

(** A rule of the role policy [w'] makes up for the ancestor [fqn] of [w]. *)
Definition rule_stands_in w' w fqn : Prop := ∃ rule res,
  rule ∈ role_rules_of w' ∧ MatchesGlob (policyv1.orule_Resource rule) res ∧
  (PolicyKeyFromFQN fqn = PolicyKeyFromFQN (ResourcePolicyFQN res (w_Version w') (w_Scope w')) ∨
   res = resource_of w ∧ w_Scope w' = after_slash (PolicyKeyFromFQN fqn) ∧ w_Version w' = key_version (PolicyKeyFromFQN fqn)).
Definition stood_in entries w fqn : Prop := ∃ f w', entries !! f = Some w' ∧ rule_stands_in w' w fqn.

(** * Effects of the steps *)

(** What the steps that note kinds, ancestors and permissions leave alone. *)
Record same_files ib ib' : Prop := {
  sf_files : ib_fileToModID ib' = ib_fileToModID ib;
  sf_modules : ib_modIDToFile ib' = ib_modIDToFile ib;
  sf_dependents : ib_dependents ib' = ib_dependents ib;
  sf_dependencies : ib_dependencies ib' = ib_dependencies ib;
  sf_missing : ib_missing ib' = ib_missing ib;
  sf_duplicates : ib_duplicates ib' = ib_duplicates ib;
  sf_failures : ib_loadFailures ib' = ib_loadFailures ib;
}.
Lemma same_files_refl ib : same_files ib ib.
Proof. by split. Qed.
Lemma same_files_trans ib1 ib2 ib3 : same_files ib1 ib2 → same_files ib2 ib3 → same_files ib1 ib3.
Proof. intros [] []. split; congruence. Qed.

Definition found_version ib (res scope version : string) : Prop := ∃ scopes, ib_foundRolePolicyResourceScopes ib !! res = Some scopes ∧ has_version scopes scope version.

Lemma add_version_found m res scope version res' scopes' scope' version' :
  add_version m res scope version !! res' = Some scopes' → has_version scopes' scope' version' →
  (∃ scopes, m !! res' = Some scopes ∧ has_version scopes scope' version') ∨ (res' = res ∧ scope' = scope ∧ version' = version).
Proof.
  unfold add_version, has_version. intros [[<- <-]|[_ Hl]]%lookup_insert_Some Hv; [|left; by exists scopes'].
  destruct (decide (scope' = scope)) as [->|Hs].
  - rewrite lookup_insert_eq in Hv. apply elem_of_union in Hv as [->%elem_of_singleton|Hv]; [by right|]. left.
    destruct (m !! res) as [scopes|]; cbn in *; [|by rewrite lookup_empty in Hv]. exists scopes. split; [done|]. by destruct (scopes !! scope).
  - rewrite lookup_insert_ne in Hv by done. left. destruct (m !! res) as [scopes|]; cbn in *; [by exists scopes|]. by rewrite lookup_empty in Hv.
Qed.

(** ** Kinds *)

Record rule_effect w (rule : policyv1.RoleRule) ib ib' : Prop := {
  re_same : same_files ib ib';
  re_executables : ib_executables ib' = ib_executables ib;
  re_tracker : ib_scopePermsTracker ib' = ib_scopePermsTracker ib;
  re_removed : ∀ key, is_Some (ib_missingScopes ib' !! key) → is_Some (ib_missingScopes ib !! key);
  re_kept : ∀ key, is_Some (ib_missingScopes ib !! key) → is_Some (ib_missingScopes ib' !! key) ∨
    ∃ res, MatchesGlob (policyv1.orule_Resource rule) res ∧ key = PolicyKeyFromFQN (ResourcePolicyFQN res (w_Version w) (w_Scope w));
  re_found : ∀ res scope version, found_version ib' res scope version →
    found_version ib res scope version ∨ (res = policyv1.orule_Resource rule ∧ scope = w_Scope w ∧ version = w_Version w);
}.

Lemma found_role_rule_effect w rule ib : rule_effect w rule ib (found_role_rule w ib rule).
Proof.
  unfold found_role_rule. set (step := λ '(missingScopes, m) '(resource, scopes), _). set (range := go_range _).
  assert (∀ l acc, let r := foldl step acc l in
    (∀ key, is_Some (r.1 !! key) → is_Some (acc.1 !! key)) ∧
    (∀ key, is_Some (acc.1 !! key) → is_Some (r.1 !! key) ∨
      ∃ res, MatchesGlob (policyv1.orule_Resource rule) res ∧ key = PolicyKeyFromFQN (ResourcePolicyFQN res (w_Version w) (w_Scope w)))) as Hfold.
  { induction l as [|[res scopes] l IH]; intros [ms m]; cbn [foldl]; [by split; auto|].
    assert ((∀ key, is_Some ((step (ms, m) (res, scopes)).1 !! key) → is_Some (ms !! key)) ∧
      (∀ key, is_Some (ms !! key) → is_Some ((step (ms, m) (res, scopes)).1 !! key) ∨
        ∃ res, MatchesGlob (policyv1.orule_Resource rule) res ∧ key = PolicyKeyFromFQN (ResourcePolicyFQN res (w_Version w) (w_Scope w)))) as [S1 S2].
    { unfold step. destruct (MatchesGlob (policyv1.orule_Resource rule) res) eqn:Hg; cbn; [|by split; auto]. case_decide; [|by split; auto].
      split; intros key Hk.
      - destruct Hk as [x [_ Hx]%lookup_delete_Some]. by exists x.
      - destruct (decide (key = PolicyKeyFromFQN (ResourcePolicyFQN res (w_Version w) (w_Scope w)))) as [->|Hne]; [right; exists res; by rewrite Hg|].
        left. by rewrite lookup_delete_ne. }
    destruct (IH (step (ms, m) (res, scopes))) as [I1 I2]. split; [intros key Hk; by apply S1, I1|].
    intros key Hk. destruct (S2 key Hk) as [Hk'|?]; [by apply I2|by right]. }
  destruct (foldl step _ range) as [ms m] eqn:E. specialize (Hfold range (ib_missingScopes ib, ib_missingResourceScopes ib)).
  rewrite E in Hfold. cbn in Hfold. destruct Hfold as [F1 F2]. split; cbn; try done.
  intros res scope version (scopes & Hl & Hv). destruct (add_version_found _ _ _ _ _ _ _ _ Hl Hv) as [?|?]; [by left|by right].
Qed.

Record kind_effect w ib ib' : Prop := {
  ke_same : same_files ib ib';
  ke_executables : ∀ id, id ∈ ib_executables ib' ↔ id ∈ ib_executables ib ∨ executable_kind (w_Kind w) ∧ id = w_ID w;
  ke_tracker : ib_scopePermsTracker ib' = ib_scopePermsTracker ib;
  ke_removed : ∀ key, is_Some (ib_missingScopes ib' !! key) → is_Some (ib_missingScopes ib !! key);
  ke_kept : ∀ key, is_Some (ib_missingScopes ib !! key) → is_Some (ib_missingScopes ib' !! key) ∨
    ∃ rule res, rule ∈ role_rules_of w ∧ MatchesGlob (policyv1.orule_Resource rule) res ∧
      key = PolicyKeyFromFQN (ResourcePolicyFQN res (w_Version w) (w_Scope w));
  ke_found : ∀ res scope version, found_version ib' res scope version →
    found_version ib res scope version ∨
    ∃ rule, rule ∈ role_rules_of w ∧ res = policyv1.orule_Resource rule ∧ scope = w_Scope w ∧ version = w_Version w;
}.

Lemma found_role_rules_effect w rules ib :
  let ib' := foldl (found_role_rule w) ib rules in
  same_files ib ib' ∧ ib_executables ib' = ib_executables ib ∧ ib_scopePermsTracker ib' = ib_scopePermsTracker ib ∧
  (∀ key, is_Some (ib_missingScopes ib' !! key) → is_Some (ib_missingScopes ib !! key)) ∧
  (∀ key, is_Some (ib_missingScopes ib !! key) → is_Some (ib_missingScopes ib' !! key) ∨
    ∃ rule res, rule ∈ rules ∧ MatchesGlob (policyv1.orule_Resource rule) res ∧ key = PolicyKeyFromFQN (ResourcePolicyFQN res (w_Version w) (w_Scope w))) ∧
  (∀ res scope version, found_version ib' res scope version → found_version ib res scope version ∨
    ∃ rule, rule ∈ rules ∧ res = policyv1.orule_Resource rule ∧ scope = w_Scope w ∧ version = w_Version w).
Proof.
  revert ib. induction rules as [|rule rules IH]; intros ib; cbn [foldl].
  { split; [apply same_files_refl|]. split_and!; auto. }
  destruct (found_role_rule_effect w rule ib) as [R1 R2 R3 R4 R5 R6]. destruct (IH (found_role_rule w ib rule)) as (I1 & I2 & I3 & I4 & I5 & I6).
  split; [by eapply same_files_trans|]. split; [congruence|]. split; [congruence|]. split; [auto|]. split.
  - intros key Hk. destruct (R5 key Hk) as [Hk'|(res & Hg & ->)]; [|right; exists rule, res; split; [left|done]].
    destruct (I5 key Hk') as [?|(r & res & Hr & Hg)]; [by left|]. right. exists r, res. split; [by right|done].
  - intros res scope version Hf. destruct (I6 _ _ _ Hf) as [Hf'|(r & Hr & Hx)]; [|right; exists r; split; [by right|done]].
    destruct (R6 _ _ _ Hf') as [?|?]; [by left|]. right. exists rule. split; [left|done].
Qed.

Lemma note_kind_effect ib w p :
  Wrap p = Some w → let '(ib', sp, resourceKind) := note_kind ib w in kind_effect w ib ib' ∧ sp = permissions_of w ∧ resourceKind = resource_of w.
Proof.
  intros Hw. destruct (wrap_FQN _ _ Hw) as (pt & Hpt & Hp & _ & Hk & _). unfold note_kind, permissions_of, resource_of, role_rules_of. rewrite Hp, Hpt.
  assert (∀ ib0, (∀ id, id ∈ ib_executables (addExecutable ib0 w) ↔ id ∈ ib_executables ib0 ∨ id = w_ID w)) as Hex by (intros ib0 id; cbn; set_solver).
  destruct pt as [rp|pp|rp|dr|ec|ev]; (split; [|done]).
  - split; [by split| |done|done|intros key ?; by left|intros res scope version ?; by left].
    intros id. cbn. rewrite Hk. unfold executable_kind. cbn. clear. set_solver.
  - split; [by split| |done|done|intros key ?; by left|intros res scope version ?; by left].
    intros id. cbn. rewrite Hk. unfold executable_kind. cbn. clear. set_solver.
  - destruct (found_role_rules_effect w (policyv1.ro_Rules rp) (addExecutable ib w)) as (I1 & I2 & I3 & I4 & I5 & I6).
    split; [by destruct I1; split| | |exact I4| |].
    + intros id. rewrite I2, Hex, Hk. unfold executable_kind. cbn. naive_solver.
    + done.
    + intros key Hkey. destruct (I5 key Hkey) as [?|?]; [by left|]. right. unfold role_rules_of. by rewrite Hp, Hpt.
    + intros res scope version Hf. destruct (I6 _ _ _ Hf) as [?|?]; [by left|]. right. unfold role_rules_of. by rewrite Hp, Hpt.
  - split; [by split| |done|done|intros key ?; by left|intros res scope version ?; by left].
    intros id. rewrite Hk. unfold executable_kind. cbn. clear. naive_solver.
  - split; [by split| |done|done|intros key ?; by left|intros res scope version ?; by left].
    intros id. rewrite Hk. unfold executable_kind. cbn. clear. naive_solver.
  - split; [by split| |done|done|intros key ?; by left|intros res scope version ?; by left].
    intros id. rewrite Hk. unfold executable_kind. cbn. clear. naive_solver.
Qed.

(** ** Imports *)

Record import_effect (child : ModuleID) (deps : list ModuleID) ib ib' : Prop := {
  ie_index : ib_index ib' = foldl (λ idx dep, addDep idx child dep) (ib_index ib) deps;
  ie_missing : ∀ dep, is_Some (ib_missing ib' !! dep) ↔ is_Some (ib_missing ib !! dep) ∨ dep ∈ deps ∧ ib_modIDToFile ib !! dep = None;
  ie_scopes : ib_missingScopes ib' = ib_missingScopes ib;
  ie_found : ib_foundRolePolicyResourceScopes ib' = ib_foundRolePolicyResourceScopes ib;
  ie_tracker : ib_scopePermsTracker ib' = ib_scopePermsTracker ib;
  ie_duplicates : ib_duplicates ib' = ib_duplicates ib;
  ie_failures : ib_loadFailures ib' = ib_loadFailures ib;
}.

Lemma note_import_runs file w ib (dep : string) :
  is_Some (import_kind dep) → runs (note_import file w ib dep) (import_effect (w_ID w) [GenModuleIDFromFQN dep] ib).
Proof.
  intros [k Hk]. unfold note_import. case_decide as Hd.
  - rret. split; try done. cbn. intros d. split; [by left|]. intros [?|[->%list_elem_of_singleton Hn]]; [done|]. cbn in Hd. rewrite Hn in Hd. by destruct Hd.
  - rewrite Hk, bind_some. rret. split; try done. cbn. intros d. cbn in Hd. apply eq_None_not_Some in Hd.
    destruct (decide (d = GenModuleIDFromFQN dep)) as [->|Hne].
    + rewrite lookup_insert_eq. split; [|by eauto]. intros _. right. by split; [left|].
    + rewrite lookup_insert_ne by done. split; [by left|]. intros [?|[->%list_elem_of_singleton _]]; done.
Qed.

Lemma note_imports_runs file w deps ib :
  (∀ dep : string, dep ∈ deps → is_Some (import_kind dep)) →
  runs (foldM (note_import file w) ib deps) (import_effect (w_ID w) (GenModuleIDFromFQN <$> deps) ib).
Proof.
  revert ib. induction deps as [|dep deps IH]; intros ib Hk; cbn [foldM].
  - rret. split; try done. intros d. split; [by left|]. intros [?|[?%elem_of_nil _]]; done.
  - eapply runs_bind; [apply note_import_runs, Hk; left|]. intros ib1 [A1 A2 A3 A4 A5 A6 A7].
    eapply runs_mono; [apply IH; intros d Hd; apply Hk; by right|]. intros ib2 [B1 B2 B3 B4 B5 B6 B7].
    assert (ib_modIDToFile ib1 = ib_modIDToFile ib) as Em by (by apply (f_equal modIDToFile) in A1).
    split; try congruence.
    + rewrite B1, A1. done.
    + intros d. rewrite B2, A2, Em. cbn. rewrite !elem_of_cons, elem_of_nil. tauto.
Qed.

(** ** Ancestors *)

Record ancestor_effect (resourceKind : string) (ancestors : list (ModuleID * string)) ib ib' : Prop := {
  ae_same : same_files ib ib';
  ae_executables : ib_executables ib' = ib_executables ib;
  ae_tracker : ib_scopePermsTracker ib' = ib_scopePermsTracker ib;
  ae_found : ib_foundRolePolicyResourceScopes ib' = ib_foundRolePolicyResourceScopes ib;
  ae_kept : ∀ key, is_Some (ib_missingScopes ib !! key) → is_Some (ib_missingScopes ib' !! key);
  ae_added : ∀ key, is_Some (ib_missingScopes ib' !! key) → is_Some (ib_missingScopes ib !! key) ∨
    ∃ a, a ∈ ancestors ∧ key = PolicyKeyFromFQN a.2 ∧ ib_modIDToFile ib !! a.1 = None;
  ae_noted : ∀ a, a ∈ ancestors → is_Some (ib_modIDToFile ib !! a.1) ∨ is_Some (ib_missingScopes ib' !! PolicyKeyFromFQN a.2) ∨
    role_policy_found ib resourceKind (after_slash (PolicyKeyFromFQN a.2)) (key_version (PolicyKeyFromFQN a.2));
}.

Lemma note_ancestor_effect policyKey resourceKind ib a : ancestor_effect resourceKind [a] ib (note_ancestor policyKey resourceKind ib a).
Proof.
  destruct a as [mid fqn]. unfold note_ancestor. case_decide as Hm.
  { split; try done; [by left|]. intros a ->%list_elem_of_singleton. by left. }
  apply eq_None_not_Some in Hm. set (v := {[policyKey]} ∪ _).
  assert (∀ key, is_Some (<[PolicyKeyFromFQN fqn := v]> (ib_missingScopes ib) !! key) ↔ key = PolicyKeyFromFQN fqn ∨ is_Some (ib_missingScopes ib !! key)) as Hins.
  { intros key. destruct (decide (key = PolicyKeyFromFQN fqn)) as [->|Hne]; [rewrite lookup_insert_eq; naive_solver|].
    rewrite lookup_insert_ne by done. naive_solver. }
  case_decide as Hr; [case_decide as Hf|].
  - split; try done; [by left|]. intros a ->%list_elem_of_singleton. right; right. exact Hf.
  - split; try done; cbn.
    + intros key Hk. apply Hins. by right.
    + intros key [->|Hk]%Hins; [right; exists (mid, fqn); split; [left|done]|by left].
    + intros a ->%list_elem_of_singleton. right; left. apply Hins. by left.
  - split; try done; cbn.
    + intros key Hk. apply Hins. by right.
    + intros key [->|Hk]%Hins; [right; exists (mid, fqn); split; [left|done]|by left].
    + intros a ->%list_elem_of_singleton. right; left. apply Hins. by left.
Qed.

Lemma role_policy_found_ext ib ib' rk scope version :
  ib_foundRolePolicyResourceScopes ib' = ib_foundRolePolicyResourceScopes ib → role_policy_found ib' rk scope version → role_policy_found ib rk scope version.
Proof. unfold role_policy_found. by intros ->. Qed.

Lemma note_ancestors_effect policyKey resourceKind ancestors ib :
  ancestor_effect resourceKind ancestors ib (foldl (note_ancestor policyKey resourceKind) ib ancestors).
Proof.
  revert ib. induction ancestors as [|a l IH]; intros ib; cbn [foldl].
  { split; try done; [by left|]. by intros a ?%elem_of_nil. }
  destruct (note_ancestor_effect policyKey resourceKind ib a) as [A1 A2 A3 A4 A5 A6 A7].
  destruct (IH (note_ancestor policyKey resourceKind ib a)) as [B1 B2 B3 B4 B5 B6 B7]. pose proof (sf_modules _ _ A1) as Em. split.
  - by eapply same_files_trans.
  - congruence.
  - congruence.
  - congruence.
  - auto.
  - intros key Hk. destruct (B6 key Hk) as [Hk'|(b & Hb & E1 & E2)]; [|right; exists b; split; [by right|by rewrite <- Em]].
    destruct (A6 key Hk') as [?|(b & Hb & E1 & E2)]; [by left|]. apply list_elem_of_singleton in Hb as ->. right. exists a. split; [left|done].
  - intros b [->|Hb]%elem_of_cons.
    + destruct (A7 a ltac:(left)) as [?|[?|?]]; auto.
    + destruct (B7 b Hb) as [Hx|[Hx|Hx]]; [left; by rewrite <- Em|auto|]. right; right. by eapply role_policy_found_ext.
Qed.

(** * Names *)

Definition is_fqn (s : string) : Prop := ∃ t, s = fqnPrefix +:+ t.

Lemma PolicyKeyFromFQN_inj a b : is_fqn a → is_fqn b → PolicyKeyFromFQN a = PolicyKeyFromFQN b → a = b.
Proof. intros [s ->] [t ->] E. change (s = t) in E. by subst. Qed.

Lemma is_fqn_app a b : is_fqn a → is_fqn (a +:+ b).
Proof. intros [s ->]. by exists (s +:+ b). Qed.
Lemma is_fqn_withScope fqn scope : is_fqn fqn → is_fqn (withScope fqn scope).
Proof. intros Hf. unfold withScope. case_decide; [done|]. by apply is_fqn_app. Qed.
Lemma is_fqn_FQN pt : is_fqn (FQN pt).
Proof.
  destruct pt; cbn [FQN]; unfold ResourcePolicyFQN, PrincipalPolicyFQN, RolePolicyFQN; try apply is_fqn_withScope; eexists; reflexivity.
Qed.

Lemma elem_of_buildFQNTree fqn scope s : s ∈ buildFQNTree fqn scope id → ∃ scope', s = withScope fqn scope'.
Proof.
  unfold buildFQNTree. case_decide; [intros ->%list_elem_of_singleton; by exists ""|].
  rewrite !elem_of_app, !list_elem_of_singleton, list_elem_of_omap. intros [->|[(i & _ & Hi)| ->]]; [by exists scope| |by exists ""].
  case_decide; [|done]. injection Hi as <-. by eexists.
Qed.

Lemma is_fqn_tree p tree fqn : policy_FQNTree p = Some tree → fqn ∈ tree → is_fqn fqn.
Proof.
  unfold policy_FQNTree. destruct (policyv1.p_PolicyType p) as [pt|]; [|done]. intros [= <-]. cbn.
  destruct pt; cbn [coordinates FQNTree]; intros Hin;
    try (apply elem_of_buildFQNTree in Hin as [sc ->]; apply is_fqn_withScope; first [apply (is_fqn_FQN (Policy_ResourcePolicy _ _ ""))
      |apply (is_fqn_FQN (Policy_PrincipalPolicy _ _ ""))|apply (is_fqn_FQN (Policy_DerivedRoles _))|apply (is_fqn_FQN (Policy_ExportConstants _))
      |apply (is_fqn_FQN (Policy_ExportVariables _))]).
  apply list_elem_of_singleton in Hin as ->. apply (is_fqn_FQN (Policy_RolePolicy _ _ _)).
Qed.
Lemma is_fqn_requires w fqn : requires w fqn → is_fqn fqn.
Proof. intros (tree & Ht & Hf). eapply is_fqn_tree; [exact Ht|]. destruct tree; [by apply elem_of_nil in Hf|by right]. Qed.
Lemma is_fqn_wrap p w : Wrap p = Some w → is_fqn (w_FQN w).
Proof. intros (pt & _ & _ & _ & _ & ->)%wrap_FQN. apply is_fqn_FQN. Qed.

(** The ancestors of a policy, by identifier. *)
Lemma RequiredAncestors_elem w m :
  RequiredAncestors (w_Policy w) = Some m →
  (∀ a, a ∈ go_range m → requires w a.2 ∧ a.1 = GenModuleIDFromFQN a.2) ∧
  (∀ fqn, requires w fqn → ∃ fqn', (GenModuleIDFromFQN fqn, fqn') ∈ go_range m).
Proof.
  unfold RequiredAncestors, requires. destruct (policy_FQNTree (w_Policy w)) as [tree|]; [|done]. rewrite bind_some. intros [= <-].
  assert (∀ l, (∀ mid fqn, (foldl (λ m fqn, <[GenModuleIDFromFQN fqn := fqn]> m) ∅ l : gmap ModuleID string) !! mid = Some fqn → fqn ∈ l ∧ mid = GenModuleIDFromFQN fqn) ∧
    ∀ fqn, fqn ∈ l → is_Some ((foldl (λ m fqn, <[GenModuleIDFromFQN fqn := fqn]> m) ∅ l : gmap ModuleID string) !! GenModuleIDFromFQN fqn)) as Hl.
  { induction l as [|fqn l [I1 I2]] using rev_ind; [split; [done|by intros fqn ?%elem_of_nil]|]. rewrite foldl_snoc. split.
    - intros mid fqn'. rewrite elem_of_app, list_elem_of_singleton. intros [[<- <-]|[_ Hl]]%lookup_insert_Some; [auto|].
      destruct (I1 _ _ Hl). auto.
    - intros fqn'. rewrite elem_of_app, list_elem_of_singleton. intros Hin.
      destruct (decide (GenModuleIDFromFQN fqn = GenModuleIDFromFQN fqn')) as [->|Hne]; [rewrite lookup_insert_eq; eauto|].
      rewrite lookup_insert_ne by done. destruct Hin as [Hin| ->]; [by apply I2|done]. }
  destruct (Hl (tail tree)) as [L1 L2]. split.
  - intros [mid fqn] Ha%elem_of_go_range. destruct (L1 _ _ Ha). cbn. split; [by exists tree|done].
  - intros fqn (tree' & [= <-] & Hin). destruct (L2 fqn Hin) as [fqn' Hfqn]. exists fqn'. by apply elem_of_go_range.
Qed.

(** * The invariant *)

Section built.
(** The names that policies mention do not collide. *)
Context (names : string → Prop).
Context (Hnames : ∀ a b, names a → names b → GenModuleIDFromFQN a = GenModuleIDFromFQN b → a = b).

Record known_policy w : Prop := {
  kp_wrap : Wrap (w_Policy w) = Some w;
  kp_name : names (w_FQN w);
  kp_tree : ∀ fqn, requires w fqn → names fqn;
  kp_deps : ∀ deps (dep : string), Dependencies (w_Policy w) = Some deps → dep ∈ deps → names dep;
}.

Record settings entries (t : Tracker) : Prop := {
  st_ok : Tracker_ok t;
  st_settings : ∀ scope key sp, settings_of t scope !! key = Some sp ↔
    ∃ f w, entries !! f = Some w ∧ Constrained (w_Kind w) = true ∧ key = key_of w ∧ w_Scope w = scope ∧ sp = Normalise (permissions_of w);
}.

Record built entries ib : Prop := {
  bu_known : ∀ f w, entries !! f = Some w → known_policy w;
  bu_index : index_for entries (ib_index ib);
  bu_imports : ∀ id dep, imports_of entries id dep → defines entries dep ∨ is_Some (ib_missing ib !! dep);
  bu_missing : ∀ dep, is_Some (ib_missing ib !! dep) → ¬ defines entries dep ∧ ∃ id, imports_of entries id dep;
  bu_ancestors : ∀ f w fqn, entries !! f = Some w → requires w fqn →
    defines entries (GenModuleIDFromFQN fqn) ∨ is_Some (ib_missingScopes ib !! PolicyKeyFromFQN fqn) ∨ stood_in entries w fqn;
  bu_missingScopes : ∀ key, is_Some (ib_missingScopes ib !! key) →
    ∃ f w fqn, entries !! f = Some w ∧ requires w fqn ∧ key = PolicyKeyFromFQN fqn ∧ ¬ defines entries (GenModuleIDFromFQN fqn);
  bu_found : ∀ res scope version, found_version ib res scope version →
    ∃ f w rule, entries !! f = Some w ∧ rule ∈ role_rules_of w ∧ res = policyv1.orule_Resource rule ∧ scope = w_Scope w ∧ version = w_Version w;
  bu_settings : settings entries (ib_scopePermsTracker ib);
}.

Lemma built_empty : built ∅ newIndexBuilder.
Proof.
  split; cbn; try by intros f w.
  - apply index_for_empty.
  - by intros id dep (f & w & ? & _).
  - intros dep [x Hx]. by rewrite lookup_empty in Hx.
  - intros key [x Hx]. by rewrite lookup_empty in Hx.
  - intros res scope version (scopes & Hs & _). cbn in Hs. by rewrite lookup_empty in Hs.
  - split; [apply NewTracker_ok|]. intros scope key sp. unfold settings_of. cbn. rewrite !lookup_empty. cbn. rewrite lookup_empty.
    split; [done|]. by intros (f & w & ? & _).
Qed.

(** ** A new policy *)

Record add_effect (file : string) w ib ib' : Prop := {
  ad_index : ∃ X : gset ModuleID, ib_index ib' = add_module (ib_index ib) file w X ∧
    ∀ id, id ∈ X ↔ id ∈ ib_executables ib ∨ executable_kind (w_Kind w) ∧ id = w_ID w;
  ad_missing : ∀ dep, is_Some (ib_missing ib' !! dep) ↔
    is_Some (ib_missing ib !! dep) ∧ dep ≠ w_ID w ∨ dep ∈ deps_at w ∧ ib_modIDToFile ib' !! dep = None;
  ad_kept : ∀ key, is_Some (ib_missingScopes ib !! key) → key = key_of w ∨ is_Some (ib_missingScopes ib' !! key) ∨
    ∃ rule res, rule ∈ role_rules_of w ∧ MatchesGlob (policyv1.orule_Resource rule) res ∧ key = PolicyKeyFromFQN (ResourcePolicyFQN res (w_Version w) (w_Scope w));
  ad_removed : ∀ key, is_Some (ib_missingScopes ib' !! key) → is_Some (ib_missingScopes ib !! key) ∧ key ≠ key_of w ∨
    ∃ fqn, requires w fqn ∧ key = PolicyKeyFromFQN fqn ∧ ib_modIDToFile ib' !! GenModuleIDFromFQN fqn = None;
  ad_noted : ∀ fqn, requires w fqn → is_Some (ib_modIDToFile ib' !! GenModuleIDFromFQN fqn) ∨ is_Some (ib_missingScopes ib' !! PolicyKeyFromFQN fqn) ∨
    role_policy_found ib' (resource_of w) (after_slash (PolicyKeyFromFQN fqn)) (key_version (PolicyKeyFromFQN fqn));
  ad_found : ∀ res scope version, found_version ib' res scope version → found_version ib res scope version ∨
    ∃ rule, rule ∈ role_rules_of w ∧ res = policyv1.orule_Resource rule ∧ scope = w_Scope w ∧ version = w_Version w;
  ad_tracker : ib_scopePermsTracker ib' = Tracker_Add (ib_scopePermsTracker ib) (w_Kind w) (key_of w) (w_Scope w) (permissions_of w);
  ad_duplicates : ib_duplicates ib' = ib_duplicates ib;
  ad_failures : ib_loadFailures ib' = ib_loadFailures ib;
}.

Lemma Dependencies_typed p pt : policyv1.p_PolicyType p = Some pt → ∃ deps, Dependencies p = Some deps ∧ ∀ dep : string, dep ∈ deps → is_Some (import_kind dep).
Proof.
  intros Hpt. destruct (Dependencies p) as [deps|] eqn:E; [|unfold Dependencies in E; rewrite Hpt, bind_some in E; by destruct (imports pt) as [[? ?] ?]].
  exists deps. split; [done|]. intros dep Hd. destruct (Dependencies_kind p deps dep E Hd) as (pt' & _ & Hk). unfold import_kind.
  destruct (KindFromFQN dep) as [[]|]; try done; by eexists.
Qed.

Lemma note_policy_runs file w ib :
  known_policy w →
  let '(ib1, sp, resourceKind) := note_kind (register ib file (key_of w) w) w in
  ∃ deps ancestors, Dependencies (w_Policy w) = Some deps ∧ RequiredAncestors (w_Policy w) = Some ancestors ∧
  runs (foldM (note_import file w) (set_tracker ib1 (Tracker_Add (ib_scopePermsTracker ib1) (w_Kind w) (key_of w) (w_Scope w) sp)) deps)
    (λ ib2, add_effect file w ib (foldl (note_ancestor (key_of w) resourceKind) ib2 (go_range ancestors))).
Proof using Hnames.
  intros Hw. pose proof (note_kind_effect (register ib file (key_of w) w) w _ (kp_wrap _ Hw)) as Hk.
  destruct (note_kind _ w) as [[ib1 sp] resourceKind]. destruct Hk as ([K1 K2 K3 K4 K5 K6] & -> & ->).
  destruct (wrap_FQN _ _ (kp_wrap _ Hw)) as (pt & Hpt & _). destruct (Dependencies_typed _ _ Hpt) as (deps & Hdeps & Hkinds).
  destruct (RequiredAncestors (w_Policy w)) as [ancestors|] eqn:Hanc; [|unfold RequiredAncestors, policy_FQNTree in Hanc; by rewrite Hpt in Hanc].
  exists deps, ancestors. split; [done|]. split; [done|]. set (ib1' := set_tracker ib1 _).
  eapply runs_mono; [by apply note_imports_runs|]. intros ib2 [I1 I2 I3 I4 I5 I6 I7].
  destruct (note_ancestors_effect (key_of w) (resource_of w) (go_range ancestors) ib2) as [A1 A2 A3 A4 A5 A6 A7].
  destruct (RequiredAncestors_elem w ancestors Hanc) as [R1 R2]. set (ib3 := foldl _ ib2 _) in *.
  assert (deps_at w = GenModuleIDFromFQN <$> deps) as Hdeps_at by (unfold deps_at, Wrapper_Dependencies; by rewrite Hdeps).
  destruct K1 as [F1 F2 F3 F4 F5 F6 F7]. destruct A1 as [G1 G2 G3 G4 G5 G6 G7].
  assert (ib_modIDToFile ib3 = ib_modIDToFile ib1) as Hm3.
  { rewrite G2. apply (f_equal modIDToFile) in I1. cbn in I1. rewrite I1. by rewrite (proj2 (proj2 (addDeps_frame _ _ _))). }
  assert (ib_modIDToFile ib2 = ib_modIDToFile ib1) as Hm2 by congruence.
  split.
  - exists (ib_executables ib1). split; [|exact K2]. unfold add_module. rewrite Hdeps_at. transitivity (ib_index ib2).
    + unfold ib_index. by rewrite G1, G2, G3, G4, A2.
    + rewrite I1. f_equal. unfold ib_index. cbn. by rewrite F1, F2, F3, F4.
  - intros dep. rewrite G5, I2, Hm3, Hdeps_at. cbn [ib1' set_tracker ib_missing ib_modIDToFile]. rewrite F5. cbn.
    assert (is_Some (delete (w_ID w) (ib_missing ib) !! dep) ↔ is_Some (ib_missing ib !! dep) ∧ dep ≠ w_ID w) as ->; [|done].
    unfold is_Some. setoid_rewrite lookup_delete_Some. naive_solver.
  - intros key Hkey. destruct (decide (key = key_of w)) as [->|Hne]; [by left|]. right.
    destruct (K5 key) as [Hk|Hk]; [cbn; by rewrite lookup_delete_ne| |by right]. left. apply A5. by rewrite I3.
  - intros key [Hk|(a & Ha & -> & Hn)]%A6.
    + left. rewrite I3 in Hk. apply K4 in Hk. cbn [register ib_missingScopes] in Hk.
      destruct Hk as [x [Hne Hx]%lookup_delete_Some]. split; [by exists x|done].
    + right. destruct (R1 a Ha) as [Hr E]. exists a.2. rewrite Hm3, <- Hm2, <- E. done.
  - intros fqn Hr. destruct (R2 fqn Hr) as [fqn' Ha]. destruct (R1 _ Ha) as [Hr' E]. cbn in Hr', E.
    assert (fqn = fqn') as <- by (apply Hnames; [by apply (kp_tree _ Hw)..|done]).
    destruct (A7 _ Ha) as [Hx|[Hx|Hx]]; cbn in Hx; [left; by rewrite G2|auto|]. right; right. by eapply role_policy_found_ext.
  - intros res scope version (scopes & Hs & Hv). apply K6. exists scopes. by rewrite <- Hs, A4, I4.
  - by rewrite A3, I5; cbn; rewrite K3.
  - rewrite G6, I6. cbn. by rewrite F6.
  - rewrite G7, I7. cbn. by rewrite F7.
Qed.

Lemma ib_addPolicy_fresh file w ib :
  known_policy w → ib_modIDToFile ib !! w_ID w = None → runs (ib_addPolicy ib file w) (add_effect file w ib).
Proof using Hnames.
  intros Hw Hn. unfold ib_addPolicy. rewrite Hn. destruct (wrap_FQN _ _ (kp_wrap _ Hw)) as (pt & Hpt & _ & _ & _ & Hfqn).
  assert (policy_FQN (w_Policy w) = Some (w_FQN w)) as -> by (unfold policy_FQN; by rewrite Hpt, Hfqn).
  rewrite bind_some. pose proof (note_policy_runs file w ib Hw) as Hr. fold (key_of w).
  destruct (note_kind (register ib file (key_of w) w) w) as [[ib1 sp] resourceKind].
  destruct Hr as (deps & ancestors & -> & Hanc & Hr). rewrite bind_some. eapply runs_bind; [exact Hr|]. intros ib2 He.
  rewrite Hanc, bind_some. by rret.
Qed.

(** ** The invariant is kept *)

Section step.
Context (entries : gmap string Wrapper) (ib ib' : indexBuilder) (file : string) (w : Wrapper).
Context (Hb : built entries ib) (Hw : known_policy w) (Hf : entries !! file = None) (Hfresh : ¬ defines entries (w_ID w)).
Context (He : add_effect file w ib ib').

Abbreviation entries' := (<[file := w]> entries).

Lemma entry_kept f w0 : entries !! f = Some w0 → entries' !! f = Some w0.
Proof. intros Hf0. rewrite lookup_insert_ne; [done|]. intros ->. congruence. Qed.
Lemma defines_insert id : defines entries' id ↔ id = w_ID w ∨ defines entries id.
Proof.
  split.
  - intros (f & w0 & [[<- <-]|[_ Hf0]]%lookup_insert_Some & <-); [by left|]. right. by exists f, w0.
  - intros [->|(f & w0 & Hf0 & <-)]; [exists file, w; by rewrite lookup_insert_eq|]. exists f, w0. split; [by apply entry_kept|done].
Qed.
Lemma stood_in_kept w0 fqn : stood_in entries w0 fqn → stood_in entries' w0 fqn.
Proof. intros (f & w' & Hf0 & Hr). exists f, w'. split; [by apply entry_kept|done]. Qed.

Lemma new_index : index_for entries' (ib_index ib').
Proof.
  destruct (ad_index _ _ _ _ He) as (X & -> & HX). apply add_module_index; [apply Hb|done..| | |].
  - intros id [?|[Hk ->]]%HX; [by left|]. right. split; [done|]. intros E. rewrite E in Hk. by destruct Hk as [|[|]].
  - intros id Hid. apply HX. by left.
  - intros Hk. apply HX. by right.
Qed.
Lemma new_modules id : is_Some (ib_modIDToFile ib' !! id) ↔ defines entries' id.
Proof.
  split.
  - intros [f (w0 & ? & ?)%(if_modules _ _ new_index)]. by exists f, w0.
  - intros (f & w0 & Hf0 & E). exists f. apply (if_modules _ _ new_index). by exists w0.
Qed.
Lemma new_module_none id : ib_modIDToFile ib' !! id = None ↔ ¬ defines entries' id.
Proof. by rewrite eq_None_not_Some, new_modules. Qed.

(** The policy with the key of [w] is [w]. *)
Lemma key_defines fqn : is_fqn fqn → PolicyKeyFromFQN fqn = key_of w → fqn = w_FQN w.
Proof. intros Hq E. apply PolicyKeyFromFQN_inj; [done| |done]. eapply is_fqn_wrap, Hw. Qed.
Lemma w_ID_fqn : w_ID w = GenModuleIDFromFQN (w_FQN w).
Proof. by destruct (wrap_FQN _ _ (kp_wrap _ Hw)) as (pt & _ & _ & -> & _). Qed.

Lemma new_missing : (∀ id dep, imports_of entries' id dep → defines entries' dep ∨ is_Some (ib_missing ib' !! dep)) ∧
  (∀ dep, is_Some (ib_missing ib' !! dep) → ¬ defines entries' dep ∧ ∃ id, imports_of entries' id dep).
Proof.
  split.
  - intros id dep [[-> Hd]|Hd]%(imports_of_insert _ _ _ _ _ Hf).
    + destruct (ib_modIDToFile ib' !! dep) eqn:E; [left; by apply new_modules; rewrite E|]. right. apply (ad_missing _ _ _ _ He). by right.
    + rewrite defines_insert. destruct (decide (dep = w_ID w)) as [->|Hne]; [by left; left|].
      destruct (bu_imports _ _ Hb _ _ Hd) as [?|?]; [by left; right|]. right. apply (ad_missing _ _ _ _ He). by left.
  - intros dep [[Hm Hne]|[Hd Hn]]%(ad_missing _ _ _ _ He).
    + destruct (bu_missing _ _ Hb _ Hm) as [Hn [id Himp]]. split; [rewrite defines_insert; tauto|]. exists id.
      apply (imports_of_insert _ _ _ _ _ Hf). by right.
    + split; [by apply new_module_none|]. exists (w_ID w). apply (imports_of_insert _ _ _ _ _ Hf). by left.
Qed.

Lemma new_found res scope version : found_version ib' res scope version →
  ∃ f w rule, entries' !! f = Some w ∧ rule ∈ role_rules_of w ∧ res = policyv1.orule_Resource rule ∧ scope = w_Scope w ∧ version = w_Version w.
Proof.
  intros [Hv|(rule & Hr & Hx)]%(ad_found _ _ _ _ He).
  - destruct (bu_found _ _ Hb _ _ _ Hv) as (f & w0 & rule & Hf0 & Hx). exists f, w0, rule. split; [by apply entry_kept|done].
  - exists file, w, rule. rewrite lookup_insert_eq. done.
Qed.

Lemma new_ancestors f w0 fqn : entries' !! f = Some w0 → requires w0 fqn →
  defines entries' (GenModuleIDFromFQN fqn) ∨ is_Some (ib_missingScopes ib' !! PolicyKeyFromFQN fqn) ∨ stood_in entries' w0 fqn.
Proof.
  intros [[<- <-]|[_ Hf0]]%lookup_insert_Some Hr.
  - destruct (ad_noted _ _ _ _ He fqn Hr) as [Hx|[Hx|Hx]]; [left; by apply new_modules|by right; left|]. right; right.
    unfold role_policy_found in Hx. apply Exists_exists in Hx as ([res scopes] & Hin%elem_of_go_range & Hg & Hv).
    destruct (new_found res _ _ ltac:(by exists scopes)) as (f & w' & rule & Hf' & Hrule & -> & Hs & Hve). exists f, w'. split; [done|].
    exists rule, (resource_of w). split; [done|]. split; [done|]. by right.
  - destruct (bu_ancestors _ _ Hb _ _ _ Hf0 Hr) as [Hx|[Hx|Hx]]; [left; apply defines_insert; by right| |right; right; by apply stood_in_kept].
    destruct (ad_kept _ _ _ _ He _ Hx) as [E|[?|(rule & res & Hrule & Hg & E)]]; [|auto|].
    + left. apply defines_insert. left. rewrite w_ID_fqn. f_equal. apply key_defines; [by eapply is_fqn_requires|done].
    + right; right. exists file, w. rewrite lookup_insert_eq. split; [done|]. exists rule, res. split; [done|]. split; [done|]. by left.
Qed.

Lemma new_missingScopes key : is_Some (ib_missingScopes ib' !! key) →
  ∃ f w fqn, entries' !! f = Some w ∧ requires w fqn ∧ key = PolicyKeyFromFQN fqn ∧ ¬ defines entries' (GenModuleIDFromFQN fqn).
Proof.
  intros [[Hk Hne]|(fqn & Hr & -> & Hn)]%(ad_removed _ _ _ _ He).
  - destruct (bu_missingScopes _ _ Hb _ Hk) as (f & w0 & fqn & Hf0 & Hr & -> & Hn). exists f, w0, fqn. split; [by apply entry_kept|].
    split; [done|]. split; [done|]. rewrite defines_insert. intros [E|?]; [|done]. apply Hne. rewrite w_ID_fqn in E.
    by rewrite (Hnames _ _ (kp_tree _ (bu_known _ _ Hb _ _ Hf0) _ Hr) (kp_name _ Hw) E).
  - exists file, w, fqn. rewrite lookup_insert_eq. split; [done|]. split; [done|]. split; [done|]. by apply new_module_none.
Qed.

Lemma new_settings : settings entries' (ib_scopePermsTracker ib').
Proof.
  destruct (bu_settings _ _ Hb) as [Hok Hs]. rewrite (ad_tracker _ _ _ _ He). split; [by apply Tracker_Add_ok|]. intros scope key sp.
  assert (∀ f w0, entries !! f = Some w0 → key_of w0 ≠ key_of w) as Hother.
  { intros f w0 Hf0 E. apply Hfresh. exists f, w0. split; [done|]. rewrite w_ID_fqn.
    destruct (wrap_FQN _ _ (kp_wrap _ (bu_known _ _ Hb _ _ Hf0))) as (pt & _ & _ & -> & _). f_equal. apply key_defines; [|done].
    eapply is_fqn_wrap, (bu_known _ _ Hb _ _ Hf0). }
  destruct (Constrained (w_Kind w)) eqn:Hc.
  - rewrite Add_settings by done. destruct (decide (key = key_of w)) as [->|Hne].
    + destruct (decide (scope = w_Scope w)) as [->|Hsc]; split; try done.
      * intros [= <-]. exists file, w. rewrite lookup_insert_eq. done.
      * intros (f & w0 & [[<- <-]|[_ Hf0]]%lookup_insert_Some & _ & E & _ & ->); [done|]. by destruct (Hother _ _ Hf0).
      * intros (f & w0 & [[<- <-]|[_ Hf0]]%lookup_insert_Some & _ & E & Es & _); [done|]. by destruct (Hother _ _ Hf0).
    + rewrite Hs. split; intros (f & w0 & Hf0 & Hx); exists f, w0.
      * split; [by apply entry_kept|done].
      * apply lookup_insert_Some in Hf0 as [[<- <-]|[_ Hf0]]; [|done]. by destruct Hx as (_ & -> & _).
  - unfold Tracker_Add. rewrite Hc. cbn [negb]. rewrite Hs. split; intros (f & w0 & Hf0 & Hx); exists f, w0.
    + split; [by apply entry_kept|done].
    + apply lookup_insert_Some in Hf0 as [[<- <-]|[_ Hf0]]; [|done]. destruct Hx as [Hk _]. congruence.
Qed.

Lemma built_step : built entries' ib'.
Proof.
  split.
  - intros f w0 [[<- <-]|[_ Hf0]]%lookup_insert_Some; [done|by eapply bu_known].
  - apply new_index.
  - apply new_missing.
  - apply new_missing.
  - apply new_ancestors.
  - apply new_missingScopes.
  - apply new_found.
  - apply new_settings.
Qed.
End step.
End built.

(** * The build *)

Section build.
Context (fsys : FileSystem) (sourceAttributes : string → string).

(** What a file holds: nothing for the index, a policy, or what is a failure. *)
Definition read_policy (file : string) : option (option Wrapper) :=
  c ← fsys !! file;
  if fc_Errors c then None
  else match fc_Docs c with
       | [] => Some None
       | [(p, _)] =>
           if policyv1.p_Disabled p then Some None
           else match Validate (Some p) with [] => Some (Wrap (WithMetadata sourceAttributes p file)) | _ => None end
       | _ => None
       end.
Definition file_policy (file : string) : option Wrapper := mjoin (read_policy file).
(** The policies of some files. *)
Definition policies_of (files : list string) : gmap string Wrapper :=
  omap file_policy (list_to_map ((λ f, (f, f)) <$> files) : gmap string string).

Lemma policies_of_lookup files f w : policies_of files !! f = Some w ↔ f ∈ files ∧ file_policy f = Some w.
Proof.
  unfold policies_of. rewrite lookup_omap_Some. split.
  - intros (f' & Hf & Hl%elem_of_list_to_map_2). apply list_elem_of_fmap in Hl as (g & [= -> ->] & Hin). done.
  - intros [Hin Hf]. exists f. split; [done|]. clear Hf. induction files as [|g files IH]; [by apply elem_of_nil in Hin|]. cbn.
    destruct (decide (g = f)) as [->|Hne]; [by rewrite lookup_insert_eq|]. rewrite lookup_insert_ne by done. apply IH.
    by apply elem_of_cons in Hin as [|].
Qed.

Lemma WithMetadata_valid p file : Validate (Some p) = [] → is_Some (Wrap (WithMetadata sourceAttributes p file)).
Proof. unfold Validate, Wrap, WithMetadata. cbn. destruct (policyv1.p_PolicyType p) as [pt|]; [by eexists|done]. Qed.

(** The policies of the files, and which can be accepted. *)
Definition clash (files : list string) : Prop := ∃ f f' w w', f ∈ files ∧ f' ∈ files ∧ f ≠ f' ∧ file_policy f = Some w ∧ file_policy f' = Some w' ∧ w_ID w = w_ID w'.
Definition disagreeing entries : Prop := ∃ f w f' w', entries !! f = Some w ∧ entries !! f' = Some w' ∧ Constrained (w_Kind w) = true ∧ Constrained (w_Kind w') = true ∧
  w_Scope w = w_Scope w' ∧ Normalise (permissions_of w) ≠ Normalise (permissions_of w').

Record acceptable (files : list string) : Prop := {
  ac_loads : ∀ f, f ∈ files → is_Some (read_policy f);
  ac_distinct : ¬ clash files;
  ac_imports : ∀ id dep, imports_of (policies_of files) id dep → defines (policies_of files) dep;
  ac_ancestors : ∀ f w fqn, policies_of files !! f = Some w → requires w fqn →
    defines (policies_of files) (GenModuleIDFromFQN fqn) ∨ stood_in (policies_of files) w fqn;
  ac_permissions : ¬ disagreeing (policies_of files);
}.

Context (names : string → Prop).
Context (Hnames : ∀ a b, names a → names b → GenModuleIDFromFQN a = GenModuleIDFromFQN b → a = b).

Record visited (files : list string) (entries : gmap string Wrapper) ib : Prop := {
  vi_built : built names entries ib;
  vi_entries : ∀ f w, entries !! f = Some w → f ∈ files ∧ file_policy f = Some w;
  vi_failures : ib_loadFailures ib = [] ↔ ∀ f, f ∈ files → is_Some (read_policy f);
  vi_all : ib_duplicates ib = [] → ∀ f w, f ∈ files → file_policy f = Some w → entries !! f = Some w;
  vi_clash : ib_duplicates ib ≠ [] → clash files;
}.

Lemma clash_snoc files f : clash files → clash (files ++ [f]).
Proof. intros (f1 & f2 & w1 & w2 & ? & ? & Hx). exists f1, f2, w1, w2. split; [apply elem_of_app; by left|]. split; [apply elem_of_app; by left|done]. Qed.

(** A file without a policy, or one that fails. *)
Lemma visited_other files entries ib ib' f :
  visited files entries ib → file_policy f = None →
  ib_index ib' = ib_index ib → ib_missingScopes ib' = ib_missingScopes ib → ib_scopePermsTracker ib' = ib_scopePermsTracker ib →
  ib_missing ib' = ib_missing ib → ib_foundRolePolicyResourceScopes ib' = ib_foundRolePolicyResourceScopes ib → ib_duplicates ib' = ib_duplicates ib →
  (ib_loadFailures ib' = [] ↔ ib_loadFailures ib = [] ∧ is_Some (read_policy f)) → visited (files ++ [f]) entries ib'.
Proof.
  intros [[B1 B2 B3 B4 B5 B6 B7 B8] V2 V3 V4 V5] Hf E1 E2 E3 E4 E5 E6 E7. split.
  - split; [done|by rewrite E1|by rewrite E4|by rewrite E4|by rewrite E2|by rewrite E2|unfold found_version; by rewrite E5|by rewrite E3].
  - intros g w Hg. destruct (V2 _ _ Hg). split; [apply elem_of_app; by left|done].
  - rewrite E7, V3. setoid_rewrite elem_of_app. setoid_rewrite list_elem_of_singleton. naive_solver.
  - rewrite E6. intros Hd g w [Hg| ->%list_elem_of_singleton]%elem_of_app Hw; [by apply V4|congruence].
  - rewrite E6. intros Hd. by apply clash_snoc, V5.
Qed.

Lemma visited_policy files entries ib f w :
  visited files entries ib → file_policy f = Some w → f ∉ files → known_policy names w → runs (ib_addPolicy ib f w) (visited (files ++ [f]) (if decide (defines entries (w_ID w)) then entries else <[f := w]> entries)).
Proof using Hnames.
  intros [B V2 V3 V4 V5] Hf Hnew Hw. pose proof (if_modules _ _ (bu_index _ _ _ B) (w_ID w)) as Hm. cbn [ib_index modIDToFile] in Hm.
  assert (is_Some (read_policy f)) as Hread by (unfold file_policy in Hf; destruct (read_policy f) as [x|]; [by exists x|done]).
  assert ((∀ g, g ∈ files ++ [f] → is_Some (read_policy g)) ↔ ∀ g, g ∈ files → is_Some (read_policy g)) as Hall.
  { setoid_rewrite elem_of_app. setoid_rewrite list_elem_of_singleton. clear -Hread. naive_solver. }
  destruct (decide (defines entries (w_ID w))) as [Hd|Hd].
  - pose proof Hd as (f' & w' & Hf' & E). destruct (V2 _ _ Hf') as [Hin Hfp].
    assert (f' ≠ f) as Hne by (intros ->; done). unfold ib_addPolicy.
    assert (ib_modIDToFile ib !! w_ID w = Some f') as -> by (apply Hm; by exists w'). rewrite decide_True by done. rret. split.
    + destruct B as [B1 B2 B3 B4 B5 B6 B7 B8]. by split.
    + intros g w0 Hg. destruct (V2 _ _ Hg). split; [apply elem_of_app; by left|done].
    + by rewrite Hall.
    + cbn. intros Hx. by destruct (app_cons_not_nil _ _ _ (eq_sym Hx)).
    + intros _. exists f', f, w', w. rewrite !elem_of_app, !list_elem_of_singleton. auto 10.
  - assert (ib_modIDToFile ib !! w_ID w = None) as Hn.
    { destruct (ib_modIDToFile ib !! w_ID w) as [f'|] eqn:E; [|done]. destruct Hd. destruct (proj1 (Hm f') eq_refl) as (w' & ? & ?). by exists f', w'. }
    assert (entries !! f = None) as Hef by (destruct (entries !! f) as [w0|] eqn:E; [by destruct (V2 _ _ E)|done]).
    eapply runs_mono; [by eapply ib_addPolicy_fresh|]. intros ib' He. split.
    + by eapply built_step.
    + intros g w0 [[<- <-]|[_ Hg]]%lookup_insert_Some; [split; [apply elem_of_app; right; left|done]|].
      destruct (V2 _ _ Hg). split; [apply elem_of_app; by left|done].
    + by rewrite (ad_failures _ _ _ _ He), Hall.
    + rewrite (ad_duplicates _ _ _ _ He). intros Hx g w0 [Hg| ->%list_elem_of_singleton]%elem_of_app Hw0.
      * rewrite lookup_insert_ne by (intros ->; done). by apply V4.
      * rewrite lookup_insert_eq. congruence.
    + rewrite (ad_duplicates _ _ _ _ He). intros Hx. by apply clash_snoc, V5.
Qed.

Lemma visit_runs files entries ib f :
  visited files entries ib → f ∉ files → (∀ w, file_policy f = Some w → known_policy names w) →
  runs (visit fsys sourceAttributes ib f) (λ ib', ∃ entries', visited (files ++ [f]) entries' ib').
Proof using Hnames.
  intros Hv Hnew Hw. unfold visit.
  assert (read_policy f = None → visited (files ++ [f]) entries (addLoadFailure ib f)) as Hfail.
  { intros E. eapply visited_other; [done|by unfold file_policy; rewrite E|done..|]. cbn. rewrite E. split.
    - intros Hx. by destruct (app_cons_not_nil _ _ _ (eq_sym Hx)).
    - by intros [_ [x Hx]]. }
  unfold read_policy in Hfail. destruct (fsys !! f) as [[docs errs]|] eqn:Ef; [|rret; exists entries; by apply Hfail].
  rewrite bind_some in Hfail. cbn [fc_Errors fc_Docs] in *. destruct errs; [rret; exists entries; by apply Hfail|].
  assert (∀ x, read_policy f = Some x → file_policy f = x) as Hfp by (unfold file_policy; by intros x ->).
  assert (∀ ib', read_policy f = Some None → ib_index ib' = ib_index ib → ib_missingScopes ib' = ib_missingScopes ib → ib_scopePermsTracker ib' = ib_scopePermsTracker ib →
    ib_missing ib' = ib_missing ib → ib_foundRolePolicyResourceScopes ib' = ib_foundRolePolicyResourceScopes ib → ib_duplicates ib' = ib_duplicates ib →
    ib_loadFailures ib' = ib_loadFailures ib → visited (files ++ [f]) entries ib') as Hskip.
  { intros ib' E ? ? ? ? ? ? E7. eapply visited_other; [done|by apply Hfp|done..|]. rewrite E7, E. split; [|by intros []]. intros ?. split; [done|by eexists]. }
  destruct docs as [|[p valid] docs].
  - rret. exists entries. apply Hskip; [|done..]. unfold read_policy. by rewrite Ef.
  - destruct docs as [|]; [|rret; exists entries; by apply Hfail]. destruct (policyv1.p_Disabled p) eqn:Edis.
    + rret. exists entries. apply Hskip; [|done..]. unfold read_policy. rewrite Ef, bind_some. cbn [fc_Errors fc_Docs]. by rewrite Edis.
    + destruct (Validate (Some p)) eqn:Eval; [|rret; exists entries; by apply Hfail].
      destruct (WithMetadata_valid p f Eval) as [w Ew]. rewrite Ew, bind_some.
      assert (file_policy f = Some w) as Hfw by (apply Hfp; unfold read_policy; rewrite Ef, bind_some; cbn [fc_Errors fc_Docs]; by rewrite Edis, Eval, Ew).
      eapply runs_mono; [eapply visited_policy; [done..|]|].
      * by apply Hw.
      * intros ib' Hv'. by eexists.
Qed.

Lemma build_visits files :
  NoDup files → (∀ f w, f ∈ files → file_policy f = Some w → known_policy names w) →
  runs (foldM (visit fsys sourceAttributes) newIndexBuilder files) (λ ib, ∃ entries, visited files entries ib).
Proof using Hnames.
  assert (∀ todo done entries ib, NoDup (done ++ todo) → (∀ f w, f ∈ todo → file_policy f = Some w → known_policy names w) → visited done entries ib →
    runs (foldM (visit fsys sourceAttributes) ib todo) (λ ib, ∃ entries, visited (done ++ todo) entries ib)) as Hrun.
  { induction todo as [|f todo IH]; intros vis entries ib Hnd Hk Hv; cbn [foldM]; [rret; rewrite app_nil_r; by exists entries|].
    assert (f ∉ vis) as Hf by (apply NoDup_app in Hnd as (_ & Hd & _); intros Hin; apply (Hd f Hin); left).
    eapply runs_bind; [eapply visit_runs; [done..|]; intros w; apply Hk; left|]. intros ib' [entries' Hv'].
    rewrite cons_middle, app_assoc. eapply IH; [by rewrite <- app_assoc|intros g w Hg; apply Hk; by right|done]. }
  intros Hnd Hk. apply (Hrun files [] ∅); [done..|]. split; try done; cbn.
  - apply built_empty.
  - split; [|done]. by intros _ f ?%elem_of_nil.
  - by intros _ f w ?%elem_of_nil.
Qed.

(** ** The outcome *)

Lemma no_conflicts t : length (Tracker_Conflicts t) = 0 ↔ ¬ ∃ c, c ∈ Tracker_Conflicts t.
Proof.
  destruct (Tracker_Conflicts t) as [|c l]; cbn; split; [by intros _ [c ?%elem_of_nil]|done|done|].
  intros Hx. destruct Hx. exists c. left.
Qed.

Lemma settings_disagree entries t : settings entries t → (∃ c, c ∈ Tracker_Conflicts t) ↔ disagreeing entries.
Proof.
  intros [Hok Hs]. transitivity (∃ scope c, c ∈ Tracker_Conflicts t ∧ c_Scope c = scope); [naive_solver|].
  setoid_rewrite (Conflicts_scopes t _ Hok). setoid_rewrite Hs. split.
  - intros (scope & k1 & sp1 & k2 & sp2 & (f & w & Hf & Hc & _ & E & ->) & (f' & w' & Hf' & Hc' & _ & E' & ->) & Hne).
    exists f, w, f', w'. split_and!; try done. congruence.
  - intros (f & w & f' & w' & Hf & Hf' & Hc & Hc' & E & Hne). eexists (w_Scope w), (key_of w), _, (key_of w'), _. split; [by exists f, w|].
    split; [by exists f', w'|done].
Qed.

(** Nothing is left to report. *)
Lemma nothing_reported ib :
  (∃ idx, ib_build ib = inl idx) ↔ ib_missing ib = ∅ ∧ ib_duplicates ib = [] ∧ ib_loadFailures ib = [] ∧ ib_missingScopes ib = ∅ ∧
    ¬ ∃ c, c ∈ Tracker_Conflicts (ib_scopePermsTracker ib).
Proof.
  unfold ib_build. rewrite <- no_conflicts, <- !map_size_empty_iff, <- !length_zero_iff_nil. case_decide as Hn.
  - split; [by intros [? ?]|lia].
  - split; [intros _; lia|by eexists].
Qed.
Lemma ib_build_index ib idx : ib_build ib = inl idx → idx = ib_index ib.
Proof. unfold ib_build. case_decide; [done|]. by intros [= <-]. Qed.

Lemma visited_complete files entries ib : visited files entries ib → ib_duplicates ib = [] → entries = policies_of files ∧ ¬ clash files.
Proof.
  intros [B V2 V3 V4 V5] Hd. split.
  - apply map_eq. intros f. apply option_eq. intros w. rewrite policies_of_lookup. split; [apply V2|intros []; by apply V4].
  - intros (f & f' & w & w' & Hf & Hf' & Hne & Hw & Hw' & E). apply Hne.
    eapply index_for_file_unique; [apply (bu_index _ _ _ B)|by apply (V4 Hd _ _ Hf)|by apply (V4 Hd _ _ Hf')|done].
Qed.

Lemma empty_iff {K A} `{Countable K} (m : gmap K A) : m = ∅ ↔ ∀ k, ¬ is_Some (m !! k).
Proof.
  split; [intros -> k; rewrite lookup_empty; by intros []|]. intros Hm. apply map_empty. intros k. apply eq_None_not_Some, Hm.
Qed.

Lemma accepted_acceptable files entries ib idx :
  visited files entries ib → ib_build ib = inl idx → acceptable files ∧ index_for (policies_of files) idx.
Proof.
  intros Hv E. pose proof (ib_build_index _ _ E) as ->. destruct (proj1 (nothing_reported ib)) as (E1 & E2 & E3 & E4 & E5); [by eexists|].
  destruct (visited_complete _ _ _ Hv E2) as [-> Hc]. pose proof Hv as [B V2 V3 V4 V5]. split; [|apply B]. split.
  - by apply V3.
  - done.
  - intros id dep Hd. destruct (bu_imports _ _ _ B _ _ Hd) as [?|Hm]; [done|]. rewrite E1, lookup_empty in Hm. by destruct Hm.
  - intros f w fqn Hf Hr. destruct (bu_ancestors _ _ _ B _ _ _ Hf Hr) as [?|[Hm|?]]; [by left| |by right]. rewrite E4, lookup_empty in Hm. by destruct Hm.
  - by rewrite <- (settings_disagree _ _ (bu_settings _ _ _ B)).
Qed.

Lemma acceptable_accepted files entries ib :
  visited files entries ib → acceptable files →
  (∀ f w fqn, policies_of files !! f = Some w → requires w fqn → defines (policies_of files) (GenModuleIDFromFQN fqn)) → ∃ idx, ib_build ib = inl idx.
Proof.
  intros Hv [A1 A2 A3 A4 A5] Hanc. assert (ib_duplicates ib = []) as E2.
  { destruct (ib_duplicates ib) eqn:E; [done|]. destruct A2. apply (vi_clash _ _ _ Hv). by rewrite E. }
  destruct (visited_complete _ _ _ Hv E2) as [-> _]. pose proof Hv as [B V2 V3 V4 V5]. apply nothing_reported. split_and!.
  - apply empty_iff. intros dep Hm. destruct (bu_missing _ _ _ B _ Hm) as [Hn [id Hd]]. by apply Hn, (A3 id).
  - done.
  - by apply V3.
  - apply empty_iff. intros key Hm. destruct (bu_missingScopes _ _ _ B _ Hm) as (f & w & fqn & Hf & Hr & _ & Hn). by apply Hn, (Hanc f w).
  - by rewrite (settings_disagree _ _ (bu_settings _ _ _ B)).
Qed.

Lemma build_runs files :
  NoDup files → (∀ f w, f ∈ files → file_policy f = Some w → known_policy names w) →
  runs (build fsys sourceAttributes files) (λ r,
    (∀ idx, r = inl idx → acceptable files ∧ index_for (policies_of files) idx) ∧
    (acceptable files →
     (∀ f w fqn, policies_of files !! f = Some w → requires w fqn → defines (policies_of files) (GenModuleIDFromFQN fqn)) → ∃ idx, r = inl idx)).
Proof using Hnames.
  intros Hnd Hk. unfold build. eapply runs_bind; [by apply build_visits|]. intros ib [entries Hv]. rret. split.
  - intros idx. by eapply accepted_acceptable.
  - by eapply acceptable_accepted.
Qed.
End build.
End spec.

(** * From files to units

    From files to units: an index that was built from files stands for their
    policies, and the store over it delivers a unit for each that is complete. *)

Section load.
Context `{GlobEngine} `{GoMapOrder} `{StringHash}.
Context (fsys : FileSystem) (sourceAttributes : string → string).
(** The parser finds no fault with a document of a file that reads without errors. *)
Definition parses_well : Prop := ∀ f c, fsys !! f = Some c → fc_Errors c = false → Forall (λ d, d.2 = true) (fc_Docs c).
Context (names : string → Prop).
Context (Hnames : ∀ a b, names a → names b → GenModuleIDFromFQN a = GenModuleIDFromFQN b → a = b).

Definition files_known (files : list string) : Prop := ∀ f w, f ∈ files → file_policy fsys sourceAttributes f = Some w → known_policy names w.

Lemma known_wrapped entries : (∀ f w, entries !! f = Some w → known_policy names w) → wrapped entries.
Proof using Hnames.
  intros Hk. split; [intros f w Hf; by apply (Hk f w Hf)|]. intros f w f' w' deps dep Hf Hf' Hdeps Hd E.
  destruct (wrap_FQN _ _ (kp_wrap _ _ (Hk _ _ Hf'))) as (pt & _ & _ & Eid & _). apply Hnames.
  - apply (kp_name _ _ (Hk _ _ Hf')).
  - by apply (kp_deps _ _ (Hk _ _ Hf) deps).
  - congruence.
Qed.

Lemma policies_known files : files_known files → ∀ f w, policies_of fsys sourceAttributes files !! f = Some w → known_policy names w.
Proof. intros Hk f w [Hin Hf]%policies_of_lookup. by apply (Hk f). Qed.

Lemma policies_hold files : parses_well → files_known files → files_hold fsys sourceAttributes (policies_of fsys sourceAttributes files).
Proof.
  intros Hp Hk f w [Hin Hf]%policies_of_lookup. pose proof (Hk f w Hin Hf) as Hw. unfold file_policy, read_policy in Hf.
  destruct (fsys !! f) as [[docs errs]|] eqn:Ef; [|done]. rewrite bind_some in Hf. cbn [fc_Errors fc_Docs] in Hf.
  destruct errs; [done|]. destruct docs as [|[p valid] [|]]; try done. destruct (policyv1.p_Disabled p); [done|].
  destruct (Validate (Some p)); [|done]. cbn in Hf. pose proof (Hp _ _ Ef eq_refl) as Hv. cbn in Hv. inversion Hv as [|? ? Hvalid _]; subst. cbn in Hvalid. subst valid.
  destruct (wrap_FQN _ _ Hf) as (pt & Hpt & Epol & Eid & _ & Efqn). exists (MkFile [(p, true)] false), p. split; [done|]. split; [|done].
  cbn [find_doc fc_Docs fst]. unfold WithMetadata in Hpt. cbn in Hpt. unfold policy_FQN. rewrite Hpt. cbn [fmap option_fmap option_map]. rewrite bind_some.
  cbn [compose]. rewrite <- Efqn, <- Eid. by rewrite decide_True.
Qed.

(** With every import and every ancestor defined, all units are complete. *)
Lemma complete_all entries id :
  wrapped entries → (∀ id dep, imports_of entries id dep → defines entries dep) →
  (∀ f w fqn, entries !! f = Some w → requires w fqn → defines entries (GenModuleIDFromFQN fqn)) →
  defines entries id → complete_module entries id.
Proof.
  intros Hw Himp Hanc Hid. split; [done|].
  assert (∀ a x, needs_module entries a x → defines entries x) as Hneeds.
  { intros a x Hx. induction Hx as [a b Hab|a b c Hab _ IH]; [by eapply Himp|exact IH]. }
  intros x [->|[Hx|(p & ids & a & Hp & Hids & Ha & Hx)]]; [done|by eapply Hneeds|].
  assert (defines entries a) as Hda.
  { destruct Hp as (f & w & Hf & _ & <-). unfold Ancestors in Hids. destruct (policy_FQNTree (w_Policy w)) as [tree|] eqn:Et; [|done].
    rewrite bind_some in Hids. injection Hids as <-. apply list_elem_of_fmap in Ha as (fqn & -> & Hfqn). eapply Hanc; [exact Hf|]. by exists tree. }
  destruct Hx as [->|Hx]; [done|by eapply Hneeds].
Qed.

(** The units that the store over an accepted index goes over. *)
Lemma store_units files idx :
  parses_well → files_known files → index_for (policies_of fsys sourceAttributes files) idx →
  ∃ us, store_Iter (store_of fsys sourceAttributes idx) = Some (inl <$> us) ∧ delivers (policies_of fsys sourceAttributes files) (toCompile idx) us ∧
    Forall unit_typed us.
Proof using Hnames.
  intros Hp Hk Hi. set (entries := policies_of fsys sourceAttributes files) in *.
  assert (wrapped entries) as Hw by (apply known_wrapped; by apply policies_known).
  destruct (GetAllCompilationUnits_runs fsys sourceAttributes entries idx Hw Hi (policies_hold files Hp Hk)) as (us & E & Hus).
  exists us. cbn [store_of store_Iter]. unfold index_Iter. rewrite E. split; [done|]. split; [exact Hus|].
  eapply Forall_impl; [apply (de_loaded _ _ _ Hus)|]. cbn. intros cu [_ Hcu] x d Hd. by eapply (loaded_typed entries Hw).
Qed.
End load.
