(* ===== verification/CompileConcrete.v ===== *)
(** The compiler in the concrete world: a small expression language, and directed
    graphs sorted by repeatedly taking the first node, in the given order, that no
    remaining node points to. *)
From S2P Require Import Prelude Namer Policy ScopePerms IndexQuery RuleTableBuild Eval PlanExpr Concrete CompileSource CompileDefs Compile CompileVarSpec.

Local Open Scope string_scope.
Local Open Scope list_scope.
Open Scope nat_scope.

(** * Expressions *)

(** Words separated by blanks; a word with a dot selects a field.  [?] does not
    parse, nor what the runtime refuses. *)
Fixpoint split_at (c : ascii) (acc s : string) : list string :=
  match s with
  | "" => [acc]
  | String a s => if decide (a = c) then acc :: split_at c "" s else split_at c (acc +:+ String a "") s
  end.
Definition c_word (w : string) : PExpr :=
  match split_at "."%char "" w with
  | [] => E_unset
  | x :: fields => foldl (λ e f, E_Select e f false) (E_Ident x) fields
  end.
Definition c_cel_parse (s : string) : option PExpr :=
  if decide (s = "" ∨ s = "?" ∨ s = "syntax error") then None else Some (E_Call "words" None (c_word <$> split_at " "%char "" s)).

#[export] Instance c_checker : CelChecker := {|
  CelAst := PExpr; CheckedExpr := PExpr; cel_Compile := c_cel_parse; AstToCheckedExpr := Some; ToAST := id |}.

(** * Graphs *)

Record CGraph := MkCGraph { cg_nodes : gmap N variableNode; cg_edges : gset (N * N) }.

(** No node of [ns] points to [n]. *)
Definition is_source (E : gset (N * N)) (ns : list variableNode) (n : variableNode) : Prop :=
  Forall (λ m, (vn_id m, vn_id n) ∉ E) ns.
#[export] Instance is_source_dec E ns n : Decision (is_source E ns n).
Proof. unfold is_source. apply _. Defined.

(** Taking sources; what is left when there is none is the cycle reported. *)
Fixpoint take_sources (fuel : nat) (E : gset (N * N)) (order : list variableNode → list variableNode) (ns : list variableNode) :
    list (list variableNode) + list variableNode :=
  match fuel with
  | O => inr []
  | S fuel =>
      match filter (is_source E ns) (order ns) with
      | [] => if decide (length ns = 0) then inr [] else inl [ns]
      | n :: _ =>
          match take_sources fuel E order (filter (λ m, vn_id m ≠ vn_id n) ns) with
          | inr l => inr (n :: l)
          | inl c => inl c
          end
      end
  end.

#[export] Instance c_graph : DirectedGraph := {|
  graph := CGraph;
  NewDirectedGraph := MkCGraph ∅ ∅;
  AddNode g n := if decide (is_Some (cg_nodes g !! vn_id n)) then None else Some (MkCGraph (<[vn_id n := n]> (cg_nodes g)) (cg_edges g));
  SetEdge g a b := if decide (vn_id a = vn_id b) then None else Some (MkCGraph (cg_nodes g) ({[(vn_id a, vn_id b)]} ∪ cg_edges g));
  graph_Node g i := cg_nodes g !! i;
  graph_Nodes g := (map_to_list (cg_nodes g)).*2;
  graph_To g i := filter (λ n, (vn_id n, i) ∈ cg_edges g) (map_to_list (cg_nodes g)).*2;
  SortStabilized g order := take_sources (S (size (cg_nodes g))) (cg_edges g) order (map_to_list (cg_nodes g)).*2;
|}.

Definition cg_ok (g : CGraph) : Prop := map_Forall (λ i n, vn_id n = i) (cg_nodes g).

Lemma cg_elem g n : cg_ok g → n ∈ (map_to_list (cg_nodes g)).*2 ↔ cg_nodes g !! vn_id n = Some n.
Proof.
  intros Hg. rewrite list_elem_of_fmap. split.
  - intros ([i n'] & -> & Hin%elem_of_map_to_list). cbn in *. pose proof (Hg _ _ Hin) as <-. done.
  - intros Hn. exists (vn_id n, n). split; [done|]. by apply elem_of_map_to_list.
Qed.

Lemma cg_ids g : cg_ok g → vn_id <$> (map_to_list (cg_nodes g)).*2 = (map_to_list (cg_nodes g)).*1.
Proof.
  intros Hg. rewrite <- list_fmap_compose. apply list_fmap_ext. intros i [k n] Hl. cbn.
  apply list_elem_of_lookup_2, elem_of_map_to_list in Hl. by apply (Hg k n).
Qed.

Lemma cg_NoDup g : cg_ok g → NoDup (vn_id <$> (map_to_list (cg_nodes g)).*2).
Proof. intros Hg. rewrite cg_ids by done. apply NoDup_fst_map_to_list. Qed.

Lemma tc_converse {A} (R : relation A) x y : tc (λ a b, R b a) x y → tc R y x.
Proof. induction 1; [by apply tc_once|]. eapply tc_r; [done..]. Qed.

(** Without cycles, some node is a source. *)
Lemma acyclic_source (E : gset (N * N)) ns n :
  (∀ i, ¬ tc (λ i j, (i, j) ∈ E) i i) → n ∈ ns → ∃ m, m ∈ ns ∧ is_source E ns m.
Proof.
  intros Hacy Hn. set (R := λ i j, (j, i) ∈ E).
  assert (sn R (vn_id n)) as Hsn.
  { apply tc_finite_sn; [intros i Hi; by apply (Hacy i), tc_converse|]. exists (elements E).*1. intros j Hj.
    assert (∃ k, (j, k) ∈ E) as [k Hk] by (induction Hj as [x y Hxy|]; [by exists x|done]).
    apply list_elem_of_fmap. exists (j, k). split; [done|]. by apply elem_of_elements. }
  remember (vn_id n) as i eqn:Ei. revert n Hn Ei. induction Hsn as [i _ IH]. intros n Hn ->.
  destruct (decide (is_source E ns n)) as [Hs|Hs]; [by exists n|]. apply not_Forall_Exists, Exists_exists in Hs; [|apply _].
  destruct Hs as (m & Hm & HE). cbn in HE. apply dec_stable in HE. by apply (IH (vn_id m) HE m Hm).
Qed.

Lemma filter_without n ns :
  NoDup (vn_id <$> ns) → n ∈ ns → n :: filter (λ m, vn_id m ≠ vn_id n) ns ≡ₚ ns ∧ NoDup (vn_id <$> filter (λ m, vn_id m ≠ vn_id n) ns).
Proof.
  intros Hnd Hn. apply list_elem_of_split in Hn as (l & k & ->). rewrite fmap_app, fmap_cons in Hnd.
  apply NoDup_app in Hnd as (Hl & Hdis & Hk%NoDup_cons). destruct Hk as [Hnk Hk].
  rewrite filter_app, filter_cons_False by naive_solver.
  assert (∀ r : list variableNode, vn_id n ∉ vn_id <$> r → filter (λ m, vn_id m ≠ vn_id n) r = r) as Hkeep.
  { intros r Hr. induction r as [|m r IH]; [done|]. apply not_elem_of_cons in Hr as [Hm Hr]. rewrite filter_cons_True by done. by rewrite IH. }
  rewrite !Hkeep; [|done|intros Hin; apply (Hdis _ Hin); left]. split; [by rewrite Permutation_middle|]. rewrite fmap_app.
  apply NoDup_app. split; [done|]. split; [|done]. intros i Hi Hi'. apply (Hdis i Hi). by right.
Qed.

Section take.
Context (E : gset (N * N)) (order : list variableNode → list variableNode) (Horder : ∀ ns, order ns ≡ₚ ns).

Lemma source_elem ns n l : filter (is_source E ns) (order ns) = n :: l → n ∈ ns ∧ is_source E ns n.
Proof.
  intros Hf. assert (n ∈ filter (is_source E ns) (order ns)) as Hn by (rewrite Hf; left).
  apply list_elem_of_filter in Hn as [Hs Hn]. by rewrite Horder in Hn.
Qed.

Lemma take_sources_sorted fuel ns l :
  length ns < fuel → NoDup (vn_id <$> ns) → take_sources fuel E order ns = inr l →
  l ≡ₚ ns ∧ ∀ x y a b, l !! x = Some a → l !! y = Some b → (vn_id a, vn_id b) ∈ E → x < y.
Proof.
  revert ns l. induction fuel as [|fuel IH]; intros ns l Hlen Hnd; [lia|]. cbn [take_sources].
  destruct (filter _ (order ns)) as [|n rest] eqn:Hf; [destruct (decide _) as [E0|]; [|done]; intros [= <-]; by destruct ns|].
  destruct (source_elem ns n rest Hf) as [Hn Hs]. destruct (filter_without n ns Hnd Hn) as [Hp Hnd'].
  destruct (take_sources fuel E order _) as [|l'] eqn:Ht; [done|]. intros [= <-].
  pose proof (Permutation_length Hp) as Hl. cbn [length] in Hl. apply IH in Ht as [Hl' Hord]; [|lia|done].
  assert (n :: l' ≡ₚ ns) as Hall by (by rewrite Hl'). split; [done|]. intros x [|y] a b Ha Hb Hab.
  - injection Hb as <-. assert (a ∈ ns) as Hin by (rewrite <- Hall; by eapply list_elem_of_lookup_2).
    by destruct (proj1 (Forall_forall _ _) Hs a Hin).
  - destruct x as [|x]; [lia|]. pose proof (Hord x y a b Ha Hb Hab). lia.
Qed.

Lemma take_sources_acyclic fuel ns :
  length ns < fuel → NoDup (vn_id <$> ns) → (∀ i, ¬ tc (λ i j, (i, j) ∈ E) i i) → ∃ l, take_sources fuel E order ns = inr l.
Proof.
  revert ns. induction fuel as [|fuel IH]; intros ns Hlen Hnd Hacy; [lia|]. cbn [take_sources].
  destruct (filter _ (order ns)) as [|n rest] eqn:Hf.
  - destruct (decide _) as [|Hns]; [by eexists|]. destruct ns as [|n ns]; [done|].
    destruct (acyclic_source E (n :: ns) n Hacy) as (m & Hm & Hs); [left|].
    assert (m ∈ filter (is_source E (n :: ns)) (order (n :: ns))) as Hin by (apply list_elem_of_filter; by rewrite Horder).
    rewrite Hf in Hin. by apply not_elem_of_nil in Hin.
  - destruct (source_elem ns n rest Hf) as [Hn _]. destruct (filter_without n ns Hnd Hn) as [Hp Hnd'].
    pose proof (Permutation_length Hp) as Hl. cbn [length] in Hl. destruct (IH (filter (λ m, vn_id m ≠ vn_id n) ns)) as [l ->]; [lia|done..|]. by eexists.
Qed.
End take.

Lemma take_sources_cycles fuel E order ns cs : take_sources fuel E order ns = inl cs → cs ≠ [].
Proof.
  revert ns. induction fuel as [|fuel IH]; intros ns; [done|]. cbn [take_sources].
  destruct (filter _ _) as [|n rest]; [destruct (decide _); [done|]; by intros [= <-]|].
  destruct (take_sources fuel E order _) eqn:Ht; [|done]. intros [= <-]. by eapply IH.
Qed.

#[export] Instance c_graph_laws : GraphLaws c_graph.
Proof.
  refine {| graph_ok := (cg_ok : graph → Prop); g_nodes := (cg_nodes : graph → _); g_edges := (cg_edges : graph → _) |}.
  - split; [apply map_Forall_empty|]. done.
  - intros g n Hg Hfree. cbn. rewrite decide_False by (rewrite Hfree; by intros [? ?]). eexists. split; [done|].
    split; [|done]. by apply map_Forall_insert_2.
  - intros g a b Hg Ha Hb Hab. cbn. rewrite decide_False by done. by eexists.
  - done.
  - done.
  - intros g i n Hg. cbn. rewrite list_elem_of_filter, cg_elem by done. split; [intros [HE Hn]; by exists (vn_id n)|].
    intros (j & HE & Hn). pose proof (Hg _ _ Hn) as <-. done.
  - intros g order l Hg Horder Hl. eapply take_sources_sorted; [done| |by apply cg_NoDup|exact Hl].
    rewrite length_fmap, length_map_to_list. lia.
  - intros g order Hg Horder Hacy. apply take_sources_acyclic; [done| |by apply cg_NoDup|done].
    rewrite length_fmap, length_map_to_list. lia.
  - intros g order cs. apply take_sources_cycles.
Defined.

(** What parses has a program. *)
Lemma c_checked_compiles src : is_Some (checked src) → is_Some (cel_compile src).
Proof.
  intros [e He]. cbn. destruct (decide (src = "syntax error")) as [->|]; [|by eexists]. exfalso. revert He. unfold checked. cbn. done.
Qed.

(** * Policies *)

Definition c_policy (file : string) (pt : policyv1.PolicyType) : policyv1.Policy := policyv1.MkPolicy (Some pt) ∅ file "" false.
Definition c_if (expr : string) : option policyv1.Condition := Some (policyv1.Condition_Match (Some (policyv1.Match_Expr expr))).
Definition c_if_all (exprs : list string) : option policyv1.Condition :=
  Some (policyv1.Condition_Match (Some (policyv1.Match_All (policyv1.Match_Expr <$> exprs)))).

(** Documents of a tenant, which imports roles, constants and variables. *)
Definition c_doc_rules : list policyv1.ResourceRule := [
  policyv1.MkResourceRule ["view"; "edit"] ["author"] [] None EFFECT_ALLOW "" None;
  policyv1.MkResourceRule ["view"] [] ["user"] (c_if_all ["V.open"; "V.recent C.limit"]) EFFECT_ALLOW "readers"
    (Some (policyv1.MkOutput "" (Some (policyv1.MkWhen "V.open" ""))))].
Definition c_doc : policyv1.ResourcePolicy :=
  policyv1.MkResourcePolicy "doc" "default" ["common"] c_doc_rules "acme" None
    (Some (policyv1.MkVariables ["shared"] {["recent" := "V.open C.limit"]})) SCOPE_PERMISSIONS_UNSPECIFIED
    (Some (policyv1.MkConstants ["limits"] ∅)).
Definition c_doc_root : policyv1.ResourcePolicy :=
  policyv1.MkResourcePolicy "doc" "default" [] [policyv1.MkResourceRule ["view"] [] ["admin"] None EFFECT_ALLOW "" None] "" None None
    SCOPE_PERMISSIONS_UNSPECIFIED None.
Definition c_common : policyv1.DerivedRoles :=
  policyv1.MkDerivedRoles "common" [policyv1.MkRoleDef "author" ["user"] (c_if "owner"); policyv1.MkRoleDef "guest" ["*"] None]
    (Some (policyv1.MkVariables [] {["unused" := "true"]})) (Some (policyv1.MkConstants ["limits"] ∅)).
Definition c_limits : policyv1.ExportConstants := policyv1.MkExportConstants "limits" {["limit" := V_string "10"]}.
Definition c_shared : policyv1.ExportVariables := policyv1.MkExportVariables "shared" {["open" := "true"; "closed" := "V.open C.limit"]}.
Definition c_alice : policyv1.PrincipalPolicy :=
  policyv1.MkPrincipalPolicy "alice" "default"
    [policyv1.MkPrincipalRule "doc" [policyv1.MkAction "delete" None EFFECT_DENY "" None; policyv1.MkAction "view" (c_if "owner") EFFECT_ALLOW "" None]]
    "" None SCOPE_PERMISSIONS_UNSPECIFIED None.

Definition c_doc_policy : policyv1.Policy := c_policy "doc_acme.yaml" (policyv1.Policy_ResourcePolicy c_doc).
Definition c_root_policy : policyv1.Policy := c_policy "doc.yaml" (policyv1.Policy_ResourcePolicy c_doc_root).
Definition c_roles_policy : policyv1.Policy := c_policy "common.yaml" (policyv1.Policy_DerivedRoles c_common).
Definition c_limits_policy : policyv1.Policy := c_policy "limits.yaml" (policyv1.Policy_ExportConstants c_limits).
Definition c_shared_policy : policyv1.Policy := c_policy "shared.yaml" (policyv1.Policy_ExportVariables c_shared).
Definition c_alice_policy : policyv1.Policy := c_policy "alice.yaml" (policyv1.Policy_PrincipalPolicy c_alice).

Definition c_id (p : policyv1.Policy) : ModuleID := GenModuleIDFromFQN (default "" (policy_FQN p)).
Definition c_unit_of (p : policyv1.Policy) (ps : list policyv1.Policy) : CompilationUnit :=
  MkUnit (list_to_map ((λ q, (c_id q, Some q)) <$> p :: ps)) (c_id p).
Definition c_doc_unit : CompilationUnit := c_unit_of c_doc_policy [c_root_policy; c_roles_policy; c_limits_policy; c_shared_policy].
Definition c_alice_unit : CompilationUnit := c_unit_of c_alice_policy [].
(** The tenant's policy without the one above it, and with variables that refer to each other. *)
Definition c_orphan_unit : CompilationUnit := c_unit_of c_doc_policy [c_roles_policy; c_limits_policy; c_shared_policy].
Definition c_cyclic_unit : CompilationUnit :=
  c_unit_of c_doc_policy [c_root_policy; c_roles_policy; c_limits_policy;
    c_policy "shared.yaml" (policyv1.Policy_ExportVariables (policyv1.MkExportVariables "shared" {["open" := "V.recent"]}))].

(** What compilation reports. *)
Definition c_compiles (u : CompilationUnit) : option (bool * bool) :=
  '(rps, err) ← Compile u None; Some (bool_decide (is_Some rps), bool_decide (err = None)).

(** Units of typed policies are typed. *)
Lemma c_unit_definitions p ps id d :
  cu_Definitions (c_unit_of p ps) !! id = Some d → ∃ q, q ∈ p :: ps ∧ d = Some q.
Proof.
  intros Hl%elem_of_list_to_map_2. apply list_elem_of_fmap in Hl as (q & [= -> ->] & Hq). by exists q.
Qed.
