(* ===== verification/CompileTheorems.v ===== *)
(** What the compiler of policies promises: it accepts exactly the well-formed
    units, what it makes of them is well typed and stands for the rules as they are
    written, and the rule table built from a store of policies has exactly those
    rows. *)
From S2P Require Import Prelude GoRuntime Bitmap Arena LazyDim Dimension GlobDim Namer Policy ScopePerms IndexCore IndexQuery IndexQuerySpec IndexLookup Index IndexSpec ParentRoles RuleTableBuild RuleTable Manager Eval Check TableSpec ManagerSpec PlanExpr CompileSource CompileDefs Compile CompileVarSpec CompileModuleSpec CompilePolicySpec CompileManager CompileTypeSpec Concrete CompileConcrete.

Local Open Scope string_scope.
Local Open Scope list_scope.
Open Scope nat_scope.

Section compiler.
Context `{CelChecker} `{GL : !GraphLaws G} `{GoMapOrder} `{StringHash}.
Implicit Types (u : CompilationUnit) (p : policyv1.Policy).

(** C15: The compiler accepts exactly the well-formed units.  For a unit whose
    policies have a type, [Compile] returns; it reports no error if and only if the
    policy and its ancestors are there, every import is there and of its kind, names
    are well-formed and defined once, every expression parses and refers to
    constants and variables in scope, no variables refer to each other in a circle,
    every derived role of a rule has exactly one import that defines it, and the
    ancestors are well-formed too; and then what it returns is what the source
    policies say, policy by policy. *)
Theorem compile_accepts_well_formed u schemaMgr :
  unit_typed u →
  ∃ rps err, Compile u schemaMgr = Some (rps, err) ∧ (err = None ↔ unit_ok u schemaMgr) ∧ (err = None → compiled_unit u rps).
Proof using GL. apply Compile_spec. Qed.

Lemma compiled_ok u schemaMgr rps : unit_typed u → Compile u schemaMgr = Some (rps, None) → unit_ok u schemaMgr ∧ compiled_unit u rps.
Proof using GL.
  intros Hu E. destruct (Compile_spec u schemaMgr Hu) as (rps' & err & E' & Hok & Hc). rewrite E in E'. injection E' as <- <-.
  split; [by apply Hok|by apply Hc].
Qed.

(** C16: Compiled policies are well typed.  In every policy of a set that
    compilation without errors returns, and in every derived role, variables have
    distinct names and refer only to constants of the policy and to variables listed
    before them, conditions and outputs refer only to constants and variables
    that are listed, and rules only to derived roles the policy has. *)
Theorem compiled_sets_typed u schemaMgr rps :
  unit_typed u → Compile u schemaMgr = Some (Some rps, None) → set_typed rps.
Proof using GL.
  intros Hu E. destruct (compiled_ok _ _ _ Hu E) as [Hok Hc]. by apply (compiled_unit_typed u schemaMgr).
Qed.

(** ** Rows *)


Lemma compiled_principal u schemaMgr p pp rps :
  unit_typed u → MainPolicy u = Some p → policyv1.GetPrincipalPolicy p = Some pp → Compile u schemaMgr = Some (Some rps, None) →
  ∃ c cs attrs, rps = PS_Principal (MkSetMeta (default "" (policy_FQN p)) (policyv1.pp_Principal pp) (policyv1.pp_Version pp) attrs) (c :: cs) ∧
    compiled_principal_policy u p pp c.
Proof using GL.
  intros Hu Hp Hpp E. destruct (compiled_ok _ _ _ Hu E) as [_ (p' & Hp' & Hc)]. rewrite Hp in Hp'. injection Hp' as <-. unfold compiled_module in Hc.
  assert (policyv1.p_PolicyType p = Some (policyv1.Policy_PrincipalPolicy pp)) as Hpt.
  { revert Hpp. unfold policyv1.GetPrincipalPolicy. destruct (policyv1.p_PolicyType p) as [[]|]; try done. by intros [= ->]. }
  rewrite Hpt in Hc. destruct Hc as (l & cs & rps' & [= <-] & [Hl Hcs ->]).
  destruct (lineage_cons _ _ _ Hl) as [l' ->]. apply Forall2_cons_inv_l in Hcs as (c & cs' & (rq & Hrq & Hqc) & _ & ->).
  rewrite Hpp in Hrq. injection Hrq as <-. eexists c, cs', _. split; [reflexivity|done].
Qed.

Lemma typed_FQN p : is_Some (policyv1.p_PolicyType p) → policy_FQN p = Some (default "" (policy_FQN p)).
Proof. intros [pt E]. unfold policy_FQN. by rewrite E. Qed.


(** C27: The rows of a principal policy are its actions.  When a principal policy
    that has rules and passes validation compiles, the rows its set contributes are, for every
    rule and every action of it, a row for the principal, the resource and the action
    with the action's effect, condition, output and name; and no other rows. *)
Theorem principal_rows_of_source u schemaMgr p pp rps :
  unit_typed u → MainPolicy u = Some p → policyv1.GetPrincipalPolicy p = Some pp → policyv1.pp_Rules pp ≠ [] → Validate (Some p) = [] →
  Compile u schemaMgr = Some (Some rps, None) →
  (∀ r, r ∈ policy_rows rps → ∃ (rule : policyv1.PrincipalRule) i a, rule ∈ policyv1.pp_Rules pp ∧ policyv1.prule_Actions rule !! i = Some a ∧
     row_for_action p pp (policyv1.prule_Resource rule) i a r) ∧
  (∀ (rule : policyv1.PrincipalRule) i a, rule ∈ policyv1.pp_Rules pp → policyv1.prule_Actions rule !! i = Some a →
     ∃ r, r ∈ policy_rows rps ∧ row_for_action p pp (policyv1.prule_Resource rule) i a r).
Proof using GL.
  intros Hu Hp Hpp Hne Hv E. destruct (compiled_principal u schemaMgr p pp rps Hu Hp Hpp E) as (c & cs & attrs & -> & Hc).
  assert (policyv1.p_PolicyType p = Some (policyv1.Policy_PrincipalPolicy pp)) as Hpt.
  { revert Hpp. unfold policyv1.GetPrincipalPolicy. destruct (policyv1.p_PolicyType p) as [[]|]; try done. by intros [= ->]. }
  pose proof (typed_FQN p ltac:(by rewrite Hpt)) as Hf. apply Validate_spec in Hv. unfold valid_policy in Hv. rewrite Hpt in Hv. split.
  - intros r Hr. by apply (principal_rows_sound u p pp c (MkSetMeta (default "" (policy_FQN p)) (policyv1.pp_Principal pp) (policyv1.pp_Version pp) attrs) cs).
  - intros rule i a Hr Ha. apply (principal_rows_complete u p pp c); try done. apply Hv.
Qed.
End compiler.

(** * Building the rule table from source *)

Section table.
Context `{CelChecker} `{GL : !GraphLaws G} `{GoMapOrder} `{StringHash} `{GlobEngine} `{CelRuntime} `{ContentHash} `{DerivedRoleHash}.
Context (known : RuleRow → Prop) (Hnc : no_collisions known) (policy_known : string → Prop) (Hfqn : fqns_distinct policy_known).

(** The rule table is what the source says.  A reload over a store of source
    policies, when every expression that type-checks has a program, returns; it
    reports an error, and keeps the table, only if some unit is not well-formed or
    scope permissions conflict; without an error every unit is well-formed and
    the new table stands for exactly the rows of the policies that they compile to. *)
Theorem source_reload st us m rows :
  (∀ src, is_Some (checked src) → is_Some (cel_compile src)) →
  TableSpec.table_inv known policy_known (mgr_RuleTable m) rows → iterated st us → Forall unit_typed us →
  (∀ all p, LoadAll (loader_of st) = Some all → inl (Some p) ∈ all → TableSpec.deliverable known policy_known p) →
  (∀ all, LoadAll (loader_of st) = Some all → (N.of_nat (length (all_rows all)) < 2 ^ 32)%N) →
  ∃ m', reload (loader_of st) m = Some m' ∧ reloaded known policy_known us m m'.
Proof using GL Hnc Hfqn. intros Hprog Hi Hit Hus Hd Hroom. by apply (source_reload_runs known Hnc policy_known Hfqn Hprog st us m rows). Qed.
End table.


(** * The theorems on concrete policies *)

Lemma c_unit_typed p ps : Forall (λ q, is_Some (policyv1.p_PolicyType q)) (p :: ps) → unit_typed (c_unit_of p ps).
Proof.
  intros Hall id d (q & Hq & ->)%c_unit_definitions. exists q. split; [done|]. rewrite Forall_forall in Hall. by apply Hall.
Qed.
Lemma c_doc_typed : unit_typed c_doc_unit.
Proof. apply c_unit_typed. by repeat constructor. Qed.
Lemma c_alice_typed : unit_typed c_alice_unit.
Proof. apply c_unit_typed. by repeat constructor. Qed.

(** What compilation reports tells what it returns. *)
Lemma c_compiles_ok u : c_compiles u = Some (true, true) → ∃ rps, Compile u None = Some (Some rps, None).
Proof.
  unfold c_compiles. destruct (Compile u None) as [[rps err]|]; [|done]. cbn. intros [= H1 H2].
  apply bool_decide_eq_true in H1 as [r ->], H2 as ->. by exists r.
Qed.

Lemma c_compiles_fails u : c_compiles u = Some (false, false) → ∃ rps f, Compile u None = Some (rps, Some f).
Proof.
  unfold c_compiles. destruct (Compile u None) as [[rps err]|]; [|done]. cbn. intros [= _ H2]. apply bool_decide_eq_false in H2.
  destruct err as [f|]; [by exists rps, f|done].
Qed.

Lemma compile_accepts_well_formed_witness : unit_ok c_doc_unit None ∧ ¬ unit_ok c_orphan_unit None ∧ ¬ unit_ok c_cyclic_unit None.
Proof.
  destruct (c_compiles_ok c_doc_unit) as [x1 E1]; [vm_compute; reflexivity|].
  destruct (c_compiles_fails c_orphan_unit) as (x2 & f2 & E2); [vm_compute; reflexivity|].
  destruct (c_compiles_fails c_cyclic_unit) as (x3 & f3 & E3); [vm_compute; reflexivity|].
  assert (unit_typed c_orphan_unit) as T2 by (apply c_unit_typed; by repeat constructor).
  assert (unit_typed c_cyclic_unit) as T3 by (apply c_unit_typed; by repeat constructor).
  destruct (compile_accepts_well_formed c_doc_unit None c_doc_typed) as (r1 & e1 & C1 & O1 & _).
  destruct (compile_accepts_well_formed c_orphan_unit None T2) as (r2 & e2 & C2 & O2 & _).
  destruct (compile_accepts_well_formed c_cyclic_unit None T3) as (r3 & e3 & C3 & O3 & _).
  rewrite C1 in E1. rewrite C2 in E2. rewrite C3 in E3. injection E1 as _ E1. injection E2 as _ E2. injection E3 as _ E3.
  split; [apply O1; exact E1|]. split; intros Hok; [apply O2 in Hok|apply O3 in Hok]; congruence.
Defined.

Lemma compiled_sets_typed_witness : ∃ rps, Compile c_doc_unit None = Some (Some rps, None) ∧ set_typed rps.
Proof.
  destruct (c_compiles_ok c_doc_unit) as [rps E]; [vm_compute; reflexivity|]. exists rps. split; [exact E|].
  exact (compiled_sets_typed c_doc_unit None rps c_doc_typed E).
Defined.





Lemma principal_rows_of_source_witness : ∃ rps r, Compile c_alice_unit None = Some (Some rps, None) ∧ r ∈ policy_rows rps ∧
  r_Principal r = "alice" ∧ r_ActionSet r = ActionSet_Action "view" ∧ r_Condition r = Some (Cond_Expr (MkExpr "owner")) ∧ r_Name r = "doc_rule-002".
Proof.
  destruct (c_compiles_ok c_alice_unit) as [rps E]; [vm_compute; reflexivity|].
  destruct (principal_rows_of_source c_alice_unit None c_alice_policy c_alice rps c_alice_typed) as [_ Hc];
    [vm_compute; reflexivity|reflexivity|discriminate|vm_compute; reflexivity|exact E|].
  destruct (Hc (policyv1.MkPrincipalRule "doc" [policyv1.MkAction "delete" None EFFECT_DENY "" None; policyv1.MkAction "view" (c_if "owner") EFFECT_ALLOW "" None])
    1 (policyv1.MkAction "view" (c_if "owner") EFFECT_ALLOW "" None)) as (r & Hr & Hrow); [left|reflexivity|].
  exists rps, r. split; [exact E|]. split; [exact Hr|]. pose proof (ra_effect _ _ _ _ _ _ Hrow) as He. cbn in He. injection He as _ He.
  split; [apply Hrow|]. split; [apply Hrow|]. split; [exact He|exact (ra_name _ _ _ _ _ _ Hrow)].
Defined.

(** A store of two policies. *)
Definition c_root_unit : CompilationUnit := c_unit_of c_root_policy [].
Definition c_store : SourceStore := {|
  store_GetFirstMatch := λ _, Some (Some c_root_unit);
  store_GetAll := Some [c_root_unit; c_alice_unit];
  store_GetAllMatching := λ _, Some [];
  store_GetCompilationUnits := λ _, Some ∅;
  store_Iter := None;
|}.
Definition c_loaded : list RunnablePolicySet :=
  match LoadAll (loader_of c_store) with Some l => omap (λ r, match r with inl rps => rps | inr _ => None end) l | None => [] end.
Definition c_empty_manager : Manager := MkManager (initBuildState (emptyRuleTable NewProtoRuletable [])) None.

Lemma c_loaded_deliverable all p : LoadAll (loader_of c_store) = Some all → inl (Some p) ∈ all → TableSpec.deliverable plain_row named p.
Proof.
  intros E Hp. assert (p ∈ c_loaded) as Hin by (unfold c_loaded; rewrite E; apply list_elem_of_omap; exists (inl (Some p)); split; [exact Hp|reflexivity]).
  assert (Forall (λ p, TableSpec.deliverable plain_row named p) c_loaded) as Hall; [|by rewrite Forall_forall in Hall; apply Hall].
  assert (forallb (λ p, bool_decide (GetFqn p ≠ "") && bool_decide (Forall plain_row (policy_rows p))) c_loaded = true) as Hd by (vm_compute; reflexivity).
  apply Forall_forall. intros q Hq. rewrite forallb_forall in Hd. apply list_elem_of_In, Hd, andb_true_iff in Hq as [Hn Hr].
  apply bool_decide_eq_true in Hn. split; [exact Hn|]. by apply plain_rows.
Qed.

Definition c_reloads : bool := match reload (loader_of c_store) c_empty_manager with Some m => bool_decide (lastReloadErr m = None) | None => false end.

Lemma c_empty_inv : TableSpec.table_inv plain_row named (mgr_RuleTable c_empty_manager) ∅.
Proof. apply (emptyRuleTable_inv plain_row named []). by intros bm ?%elem_of_nil. Qed.

Lemma source_reload_witness : ∃ m' added rows', reload (loader_of c_store) c_empty_manager = Some m' ∧
  rows_of_units [c_root_unit; c_alice_unit] added ∧ extends ∅ rows' added ∧ TableSpec.table_inv plain_row named (mgr_RuleTable m') rows'.
Proof.
  assert (Forall unit_typed [c_root_unit; c_alice_unit]) as Ht by (repeat constructor; apply c_unit_typed; by repeat constructor).
  destruct (source_reload plain_row plain_no_collisions named named_distinct c_store [c_root_unit; c_alice_unit] c_empty_manager ∅
    c_checked_compiles c_empty_inv) as (m' & E & Hm).
  - right. split; reflexivity.
  - exact Ht.
  - exact c_loaded_deliverable.
  - intros all E. assert (match LoadAll (loader_of c_store) with Some all => (N.of_nat (length (all_rows all)) <? 2 ^ 32)%N | None => true end = true) as Hl
      by (vm_compute; reflexivity). rewrite E in Hl. by apply N.ltb_lt in Hl.
  - assert (c_reloads = true) as Hr by (vm_compute; reflexivity). unfold c_reloads in Hr.
    rewrite E in Hr. apply bool_decide_eq_true in Hr. unfold reloaded in Hm. rewrite Hr in Hm. destruct Hm as (added & rows' & H1 & H2 & H3 & _).
    exists m', added, rows'. split; [exact E|]. split; [exact H1|]. split; [exact H2|exact H3].
Defined.
