(* ===== verification/StoreTheorems.v ===== *)
(** What the index of policy files promises: it follows the files through any
    history of updates, its events and dependents are exact, units have exactly
    what a policy needs, a build accepts the files that fit together, and the rule
    table loaded from them stands for what they say. *)
From S2P Require Import Prelude GoRuntime Bitmap Arena LazyDim Dimension GlobDim Namer Policy ScopePerms IndexCore IndexQuery IndexQuerySpec IndexLookup Index IndexSpec ParentRoles RuleTableBuild RuleTable Manager Eval Check TableSpec ManagerSpec PlanExpr CompileSource CompileDefs Compile CompileVarSpec CompileModuleSpec CompilePolicySpec CompileManager StoreIndex StoreIndexSpec StoreUnitSpec StoreBuild Concrete CompileConcrete.

Local Open Scope string_scope.
Local Open Scope list_scope.
Open Scope nat_scope.

(** * Histories of updates *)

(** A file that has a policy now, or is gone. *)
Inductive file_op := Put (file : string) (w : Wrapper) | Remove (file : string) (w : option Wrapper).

Section history.
Context `{GoMapOrder} `{StringHash}.
Implicit Types (idx : index) (entries : gmap string Wrapper).

Definition run_op idx (op : file_op) : option (index * (Event * option IndexErr)) :=
  match op with
  | Put f w => AddOrUpdate idx (MkEntry f (Some w))
  | Remove f w => Some (Delete idx (MkEntry f w))
  end.
Fixpoint run_ops idx (ops : list file_op) : option (index * list (Event * option IndexErr)) :=
  match ops with
  | [] => Some (idx, [])
  | op :: ops =>
      '(idx, out) ← run_op idx op;
      '(idx, outs) ← run_ops idx ops;
      Some (idx, out :: outs)
  end.

(** What an update does to the policies by file, and what it reports. *)
Inductive op_effect entries : file_op → gmap string Wrapper → Event * option IndexErr → Prop :=
  | put_duplicate f w otherFile w' :
      otherFile ≠ f → entries !! otherFile = Some w' → w_ID w' = w_ID w →
      op_effect entries (Put f w) entries (Manager.MkEvent EventAddOrUpdatePolicy (w_ID w) None [], Some (ErrDuplicatePolicy otherFile))
  | put_accepted f w deps :
      ¬ duplicates entries f w → lists_importers (<[f := w]> entries) (w_ID w) deps →
      op_effect entries (Put f w) (<[f := w]> entries) (Manager.MkEvent EventAddOrUpdatePolicy (w_ID w) (replaced entries f w) deps, None)
  | remove_known f w0 w deps :
      entries !! f = Some w → lists_importers (delete f entries) (w_ID w) deps →
      op_effect entries (Remove f w0) (delete f entries) (Manager.MkEvent EventDeleteOrDisablePolicy (w_ID w) None deps, None)
  | remove_unknown f w0 : entries !! f = None → op_effect entries (Remove f w0) entries (NopEvent, None).
Inductive op_effects : gmap string Wrapper → list file_op → gmap string Wrapper → list (Event * option IndexErr) → Prop :=
  | no_effects entries : op_effects entries [] entries []
  | more_effects entries op entries1 out ops entries2 outs :
      op_effect entries op entries1 out → op_effects entries1 ops entries2 outs → op_effects entries (op :: ops) entries2 (out :: outs).

Definition op_typed (op : file_op) : Prop := match op with Put _ w => is_Some (Wrapper_Dependencies w) | Remove _ _ => True end.

Lemma defines_elsewhere_dec entries f w : duplicates entries f w ∨ ¬ duplicates entries f w.
Proof.
  destruct (decide (map_Exists (λ f' w', f' ≠ f ∧ w_ID w' = w_ID w) entries)) as [Hd|Hd].
  - left. destruct Hd as (f' & w' & ? & ? & ?). by exists f', w'.
  - right. intros (f' & w' & ? & ? & ?). apply Hd. by exists f', w'.
Qed.

Lemma run_op_runs idx entries op :
  index_for entries idx → op_typed op →
  ∃ idx' out entries', run_op idx op = Some (idx', out) ∧ op_effect entries op entries' out ∧ index_for entries' idx'.
Proof.
  intros Hi Ht. destruct op as [f w|f w0]; cbn [run_op].
  - destruct (defines_elsewhere_dec entries f w) as [Hd|Hd].
    + destruct (AddOrUpdate_duplicate entries idx f w Hi Hd) as (f' & w' & Hne & Hf' & E & ->).
      exists idx. eexists. exists entries. split; [done|]. split; [by eapply put_duplicate|done].
    + destruct (AddOrUpdate_accepted entries idx f w Hi Hd Ht) as (idx' & deps & -> & Hi' & Hdeps).
      exists idx'. eexists. exists (<[f := w]> entries). split; [done|]. split; [by apply put_accepted|done].
  - destruct (entries !! f) as [w|] eqn:Hf.
    + destruct (Delete_accepted entries idx f w w0 Hi Hf) as (idx' & deps & -> & Hi' & Hdeps).
      exists idx'. eexists. exists (delete f entries). split; [done|]. split; [by eapply remove_known|done].
    + rewrite (Delete_unknown entries idx f w0 Hi Hf). exists idx. eexists. exists entries. split; [done|]. split; [by apply remove_unknown|done].
Qed.

(** C29: The index follows its files.  From an index that stands for some policies
    by file, any history of [AddOrUpdate] and [Delete] returns; each update that
    would define a module in a second file is refused and changes nothing, each other
    one changes exactly its file, and its event names the module, the module the
    file held before when that is another one, and exactly the modules that import
    it; and the index stands for the policies by file that this leaves. *)
Theorem store_history ops idx entries :
  index_for entries idx → Forall op_typed ops →
  ∃ idx' outs entries', run_ops idx ops = Some (idx', outs) ∧ op_effects entries ops entries' outs ∧ index_for entries' idx'.
Proof.
  intros Hi Ht. revert idx entries Hi. induction Ht as [|op ops Hop _ IH]; intros idx entries Hi; cbn [run_ops].
  - exists idx, [], entries. split; [done|]. split; [constructor|done].
  - destruct (run_op_runs idx entries op Hi Hop) as (idx1 & out & entries1 & -> & He1 & Hi1). rewrite bind_some.
    destruct (IH idx1 entries1 Hi1) as (idx2 & outs & entries2 & -> & He2 & Hi2). rewrite bind_some.
    exists idx2, (out :: outs), entries2. split; [done|]. split; [by econstructor|done].
Qed.

(** C33: [GetDependents] terminates, also when policies import each other in a
    circle, and gives for each module exactly those that import it, directly or
    through others. *)
Theorem dependents_closure idx entries ids :
  index_for entries idx →
  ∃ results, GetDependents idx ids = Some results ∧ dom results = list_to_set ids ∧
    ∀ id set, results !! id = Some set → ∀ d, d ∈ set ↔ depends_on entries d id.
Proof. apply GetDependents_spec. Qed.

(** * Units *)

Section units.
Context (fsys : FileSystem) (sourceAttributes : string → string).

(** C30: Compilation units are exact.  When the files still hold the policies the
    index knows of, assembling units terminates; it fails only for a policy
    some of whose imports or ancestors no file defines, and otherwise the unit
    of each module that is defined holds exactly the policy, its ancestors and
    everything they import directly or not, as the files have them. *)
Theorem units_exact entries idx ids :
  wrapped entries → index_for entries idx → files_hold fsys sourceAttributes entries →
  ∃ r, GetCompilationUnits fsys sourceAttributes idx ids = Some r ∧
    match r with
    | inl m => (∀ id, id ∈ ids → defines entries id → is_Some (m !! id)) ∧ ∀ id cu, m !! id = Some cu → id ∈ ids ∧ loaded entries id cu
    | inr e => ∃ id, id ∈ ids ∧ defines entries id ∧ unit_incomplete entries id e
    end.
Proof. intros Hw Hi Hf. exact (GetCompilationUnits_runs fsys sourceAttributes entries idx Hw Hi Hf ids). Qed.
End units.
End history.

(** * Files *)

Section files.
Context `{GlobEngine} `{GoMapOrder} `{StringHash}.
Context (fsys : FileSystem) (sourceAttributes : string → string).
Context (names : string → Prop) (Hnames : ∀ a b, names a → names b → GenModuleIDFromFQN a = GenModuleIDFromFQN b → a = b).

(** C28: The builder accepts the files that fit together.  Over distinct files, it
    returns; it accepts only files that all read, that define distinct modules, where
    every import is defined, every ancestor of a policy is defined or has a role
    policy that stands in for it, and no two policies in one scope disagree on scope
    permissions, and the index stands for exactly the policies of the files; and
    files with all this and every ancestor defined are accepted. *)
Theorem build_accepts files :
  NoDup files → files_known fsys sourceAttributes names files →
  ∃ r, build fsys sourceAttributes files = Some r ∧
    (∀ idx, r = inl idx → acceptable fsys sourceAttributes files ∧ index_for (policies_of fsys sourceAttributes files) idx) ∧
    (acceptable fsys sourceAttributes files →
     (∀ f w fqn, policies_of fsys sourceAttributes files !! f = Some w → requires w fqn →
        defines (policies_of fsys sourceAttributes files) (GenModuleIDFromFQN fqn)) →
     ∃ idx, r = inl idx).
Proof using Hnames. intros Hnd Hk. exact (build_runs fsys sourceAttributes names Hnames files Hnd Hk). Qed.

Context `{CelChecker} `{GL : !GraphLaws G} `{CelRuntime} `{ContentHash} `{DerivedRoleHash}.
Context (known : RuleRow → Prop) (Hnc : no_collisions known) (policy_known : string → Prop) (Hfqn : fqns_distinct policy_known).

(** C14: From files to the rule table.  When the builder accepts some files, the
    store over its index goes over distinct units, each exactly what its policy
    needs, with one for every complete policy that is to be compiled, which is all
    of them when every ancestor is defined; and a reload of the rule table through the
    compile manager returns a table that stands for exactly the rows of the policies
    these units compile to, or keeps the table and reports an error that an
    ill-formed unit or conflicting permissions explain. *)
Theorem files_to_table files idx m rows :
  (∀ src, is_Some (checked src) → is_Some (cel_compile src)) → parses_well fsys →
  NoDup files → files_known fsys sourceAttributes names files → build fsys sourceAttributes files = Some (inl idx) →
  let entries := policies_of fsys sourceAttributes files in
  let ld := loader_of (store_of fsys sourceAttributes idx) in
  TableSpec.table_inv known policy_known (mgr_RuleTable m) rows →
  (∀ all p, LoadAll ld = Some all → inl (Some p) ∈ all → TableSpec.deliverable known policy_known p) →
  (∀ all, LoadAll ld = Some all → (N.of_nat (length (all_rows all)) < 2 ^ 32)%N) →
  ∃ us m', delivers entries (toCompile idx) us ∧ reload ld m = Some m' ∧ reloaded known policy_known us m m' ∧
    ((∀ f w fqn, entries !! f = Some w → requires w fqn → defines entries (GenModuleIDFromFQN fqn)) →
     ∀ f w, entries !! f = Some w → executable_kind (w_Kind w) → w_ID w ∈ cu_ModID <$> us).
Proof using Hnames GL Hnc Hfqn.
  intros Hprog Hp Hnd Hk Eb entries ld Hi Hd Hroom.
  destruct (build_runs fsys sourceAttributes names Hnames files Hnd Hk) as (r & E & Hacc & _). rewrite Eb in E. injection E as <-.
  destruct (Hacc idx eq_refl) as [Hok Hidx].
  destruct (store_units fsys sourceAttributes names Hnames files idx Hp Hk Hidx) as (us & Eiter & Hus & Hty).
  destruct (source_reload_runs known Hnc policy_known Hfqn Hprog (store_of fsys sourceAttributes idx) us m rows Hi) as (m' & Em & Hm); [by left|done..|].
  exists us, m'. split; [exact Hus|]. split; [exact Em|]. split; [exact Hm|]. intros Hanc f w Hf Hex. apply (de_complete _ _ _ Hus).
  - apply (elem_of_toCompile entries idx Hidx). split; [by exists f, w|]. left. by apply (if_executed _ _ Hidx f).
  - apply complete_all; [|apply Hok|exact Hanc|by exists f, w]. apply (known_wrapped names Hnames). by apply policies_known.
Qed.
End files.

(** * The theorems on concrete files *)

Definition c_file (p : policyv1.Policy) : string * FileContents := (policyv1.p_SourceFile p, MkFile [(p, true)] false).
Definition c_policies : list policyv1.Policy := [c_alice_policy; c_roles_policy; c_root_policy; c_doc_policy; c_limits_policy; c_shared_policy].
Definition c_fs : FileSystem := list_to_map (c_file <$> c_policies).
Definition c_files : list string := policyv1.p_SourceFile <$> c_policies.
Definition c_entries : gmap string Wrapper := policies_of c_fs id c_files.
(** The tenant's policy without its parent, without its imports; two files that define the same. *)
Definition c_orphans : list string := ["alice.yaml"; "common.yaml"; "doc_acme.yaml"; "limits.yaml"; "shared.yaml"].
Definition c_unresolved : list string := ["doc.yaml"; "doc_acme.yaml"; "limits.yaml"; "shared.yaml"].

Definition c_build (files : list string) : option (option index) :=
  r ← build c_fs id files; Some (match r with inl idx => Some idx | inr _ => None end).
Definition c_accepts (files : list string) : bool := match c_build files with Some (Some _) => true | _ => false end.

Lemma c_names (a b : string) : True → True → GenModuleIDFromFQN a = GenModuleIDFromFQN b → a = b.
Proof. intros _ _ E. by apply encode_N_inj in E. Qed.
Lemma c_known files : files_known c_fs id (λ _, True) files.
Proof.
  intros f w _ Hf. unfold file_policy, read_policy in Hf. destruct (c_fs !! f) as [[docs errs]|]; [|done]. rewrite bind_some in Hf. cbn [fc_Errors fc_Docs] in Hf.
  destruct errs; [done|]. destruct docs as [|[p v] [|]]; try done. destruct (policyv1.p_Disabled p); [done|]. destruct (Validate (Some p)); [|done].
  change (Wrap (WithMetadata id p f) = Some w) in Hf. destruct (wrap_FQN _ _ Hf) as (_ & _ & Ep & _). split; [by rewrite Ep|done..].
Qed.
Lemma c_parses : parses_well c_fs.
Proof.
  intros f c Hc%elem_of_list_to_map_2 _. apply list_elem_of_fmap in Hc as (p & [= -> ->] & _). by repeat constructor.
Qed.
Lemma c_files_distinct : NoDup c_files.
Proof. apply (bool_decide_eq_true (NoDup c_files)). vm_compute. reflexivity. Qed.

Lemma c_build_index files idx : NoDup files → c_build files = Some (Some idx) → index_for (policies_of c_fs id files) idx.
Proof.
  intros Hnd E. destruct (build_runs c_fs id (λ _, True) c_names files Hnd (c_known files)) as (r & Er & Hacc & _).
  unfold c_build in E. rewrite Er in E. cbn in E. destruct r as [idx'|]; [|done]. injection E as <-. by destruct (Hacc idx' eq_refl).
Qed.

Definition c_index : index := match c_build c_files with Some (Some idx) => idx | _ => MkIndex ∅ ∅ ∅ ∅ ∅ end.
Lemma c_index_for : index_for c_entries c_index.
Proof.
  apply c_build_index; [exact c_files_distinct|]. unfold c_index. assert (c_accepts c_files = true) as Ha by (vm_compute; reflexivity).
  unfold c_accepts in Ha. destruct (c_build c_files) as [[idx|]|]; [reflexivity|discriminate Ha|discriminate Ha].
Qed.

Lemma build_accepts_witness : ∃ idx, build c_fs id c_files = Some (inl idx) ∧ acceptable c_fs id c_files ∧ index_for c_entries idx.
Proof.
  destruct (build_accepts c_fs id (λ _, True) c_names c_files c_files_distinct (c_known c_files)) as (r & E & Hacc & _).
  assert (c_accepts c_files = true) as Ha by (vm_compute; reflexivity). unfold c_accepts, c_build in Ha. rewrite E in Ha.
  destruct r as [idx|]; [|discriminate Ha]. exists idx. split; [exact E|]. exact (Hacc idx eq_refl).
Defined.

Example builds_refused : c_accepts <$> [c_files; c_orphans; c_unresolved; ["doc.yaml"; "missing.yaml"]] = [true; false; false; false].
Proof. vm_compute. reflexivity. Qed.

Definition c_wrapper (p : policyv1.Policy) : Wrapper := default (MkWrapper p "" "" "" "" 0%N KIND_RESOURCE) (Wrap p).
Definition c_ops : list file_op := [
  Put "a.yaml" (c_wrapper c_limits_policy); Put "b.yaml" (c_wrapper c_doc_policy); Put "c.yaml" (c_wrapper c_limits_policy);
  Put "a.yaml" (c_wrapper c_roles_policy); Remove "b.yaml" None; Remove "b.yaml" None].

Lemma store_history_witness : ∃ idx' outs entries', run_ops (MkIndex ∅ ∅ ∅ ∅ ∅) c_ops = Some (idx', outs) ∧
  op_effects ∅ c_ops entries' outs ∧ index_for entries' idx'.
Proof. apply (store_history c_ops (MkIndex ∅ ∅ ∅ ∅ ∅) ∅ index_for_empty). repeat constructor; by eexists. Defined.

(** The third update is refused, the fourth replaces the constants. *)
Definition c_report (out : Event * option IndexErr) : option ModuleID * nat * bool :=
  (ev_OldPolicyID out.1, length (ev_Dependents out.1), bool_decide (is_Some out.2)).
Example c_ops_reported :
  match run_ops (MkIndex ∅ ∅ ∅ ∅ ∅) c_ops with Some (_, outs) => c_report <$> outs | None => [] end =
  [(None, 0, false); (None, 0, false); (None, 0, true); (Some (c_id c_limits_policy), 1, false); (None, 0, false); (None, 0, false)].
Proof. vm_compute. reflexivity. Qed.

Lemma dependents_closure_witness : ∃ results set, GetDependents c_index [c_id c_limits_policy] = Some results ∧
  results !! c_id c_limits_policy = Some set ∧ ∀ d, d ∈ set ↔ depends_on c_entries d (c_id c_limits_policy).
Proof.
  destruct (dependents_closure c_index c_entries [c_id c_limits_policy] c_index_for) as (results & E & Hdom & Hres).
  assert (c_id c_limits_policy ∈ dom results) as [set Hset]%elem_of_dom by (rewrite Hdom; apply elem_of_list_to_set; left).
  exists results, set. split; [exact E|]. split; [exact Hset|]. exact (Hres _ set Hset).
Defined.

Lemma c_wrapped : wrapped c_entries.
Proof. apply (known_wrapped (λ _, True) c_names), policies_known, c_known. Qed.
Lemma c_hold : files_hold c_fs id c_entries.
Proof. apply (policies_hold c_fs id (λ _, True)); [exact c_parses|apply c_known]. Qed.
Lemma c_doc_defined : defines c_entries (c_id c_doc_policy).
Proof.
  assert (match c_entries !! "doc_acme.yaml" with Some w => bool_decide (w_ID w = c_id c_doc_policy) | None => false end = true) as Hd by (vm_compute; reflexivity).
  destruct (c_entries !! "doc_acme.yaml") as [w|] eqn:E; [|discriminate Hd]. apply bool_decide_eq_true in Hd. by exists "doc_acme.yaml", w.
Qed.

Definition c_units (ids : list ModuleID) : option nat :=
  match GetCompilationUnits c_fs id c_index ids with Some (inl m) => Some (sum_list ((λ x, size (cu_Definitions x.2)) <$> map_to_list m)) | _ => None end.

Lemma units_exact_witness : ∃ m cu, GetCompilationUnits c_fs id c_index [c_id c_doc_policy] = Some (inl m) ∧
  m !! c_id c_doc_policy = Some cu ∧ loaded c_entries (c_id c_doc_policy) cu.
Proof.
  destruct (units_exact c_fs id c_entries c_index [c_id c_doc_policy] c_wrapped c_index_for c_hold) as (r & E & Hr).
  assert (c_units [c_id c_doc_policy] = Some 5) as Hu by (vm_compute; reflexivity). unfold c_units in Hu. rewrite E in Hu.
  destruct r as [m|]; [|discriminate Hu]. destruct Hr as [Hd Hm]. destruct (Hd (c_id c_doc_policy)) as [cu Hcu]; [left|exact c_doc_defined|].
  exists m, cu. split; [exact E|]. split; [exact Hcu|]. by apply Hm.
Defined.

(** ** Tables *)

Definition c_few : list string := ["alice.yaml"; "doc.yaml"].
Definition c_few_index : index := match c_build c_few with Some (Some idx) => idx | _ => MkIndex ∅ ∅ ∅ ∅ ∅ end.
Definition c_few_loader : PolicyLoader := loader_of (store_of c_fs id c_few_index).
Definition c_few_sets : list RunnablePolicySet :=
  match LoadAll c_few_loader with Some l => omap (λ r, match r with inl rps => rps | inr _ => None end) l | None => [] end.
Definition c_manager : Manager := MkManager (initBuildState (emptyRuleTable NewProtoRuletable [])) None.

Lemma c_few_builds : build c_fs id c_few = Some (inl c_few_index).
Proof.
  assert (c_accepts c_few = true) as Ha by (vm_compute; reflexivity). unfold c_accepts, c_few_index, c_build in *.
  destruct (build c_fs id c_few) as [[idx|]|]; [reflexivity|discriminate Ha|discriminate Ha].
Qed.
Lemma c_few_deliverable all p : LoadAll c_few_loader = Some all → inl (Some p) ∈ all → TableSpec.deliverable plain_row named p.
Proof.
  intros E Hp. assert (p ∈ c_few_sets) as Hin by (unfold c_few_sets; rewrite E; apply list_elem_of_omap; exists (inl (Some p)); split; [exact Hp|reflexivity]).
  assert (forallb (λ p, bool_decide (GetFqn p ≠ "") && bool_decide (Forall plain_row (policy_rows p))) c_few_sets = true) as Hd by (vm_compute; reflexivity).
  rewrite forallb_forall in Hd. apply list_elem_of_In, Hd, andb_true_iff in Hin as [Hn Hr].
  apply bool_decide_eq_true in Hn. split; [exact Hn|]. by apply plain_rows.
Qed.
Lemma c_manager_inv : TableSpec.table_inv plain_row named (mgr_RuleTable c_manager) ∅.
Proof. apply (emptyRuleTable_inv plain_row named []). by intros bm ?%elem_of_nil. Qed.

Lemma files_to_table_witness : ∃ us m', delivers (policies_of c_fs id c_few) (toCompile c_few_index) us ∧
  reload c_few_loader c_manager = Some m' ∧ reloaded plain_row named us c_manager m'.
Proof.
  assert (NoDup c_few) as Hnd by (apply (bool_decide_eq_true (NoDup c_few)); vm_compute; reflexivity).
  destruct (files_to_table c_fs id (λ _, True) c_names plain_row plain_no_collisions named named_distinct c_few c_few_index c_manager ∅
    c_checked_compiles c_parses Hnd (c_known c_few) c_few_builds c_manager_inv c_few_deliverable) as (us & m' & Hus & E & Hm & _).
  - intros all E. assert (match LoadAll c_few_loader with Some all => (N.of_nat (length (all_rows all)) <? 2 ^ 32)%N | None => true end = true) as Hl
      by (vm_compute; reflexivity). unfold c_few_loader in Hl. rewrite E in Hl. by apply N.ltb_lt in Hl.
  - exists us, m'. split; [exact Hus|]. split; [exact E|exact Hm].
Defined.

Example c_few_rows : (λ m, (bool_decide (lastReloadErr m = None), length (c_few_sets ≫= policy_rows))) <$> reload c_few_loader c_manager = Some (true, 3).
Proof. vm_compute. reflexivity. Qed.
