(* ===== verification/Delivery.v ===== *)
(** Delivery of storage events: [src/internal/storage/subscriptionmgr.go] and
    [src/internal/storage/reload.go].

    A subscription manager has a buffered channel of batches, one goroutine that
    takes batches from it and hands each event to every subscriber, and callers that
    put events into the channel; a caller may wait until its batch has been handed
    out.  The step relation has one step for every operation on a channel or lock. *)
From S2P Require Import Prelude.

Local Open Scope list_scope.
Open Scope nat_scope.

Section delivery.
Context {E : Type} (is_nop : E → bool).

(** * The subscription manager *)

Definition eventBufferSize : nat := 32.

(** The [done] channel of a batch is named by the caller that waits on it. *)
Record eventBatch := MkBatch { bt_done : option N; bt_events : list E }.

Inductive SubscriptionErr := ErrContext | ErrSubscriptionManagerStopped.

(** A caller: of [NotifySubscribers], with the events still to send; of
    [NotifySubscribersAndWait], before and after its batch is in the channel; and
    one whose call has returned. *)
Inductive caller :=
  | C_notify (events : list E)
  | C_send (events : list E)
  | C_wait (events : list E)
  | C_returned (events : list E) (err : option SubscriptionErr).

Record SubscriptionManager := MkSM {
  eventChan : list eventBatch;
  subscribers : gset string;
  stopped : bool;
  handling : option (list E * option N);  (* what [handleEvents] has left of its batch *)
  handler_alive : bool;
  closed : gset N;                        (* the [done] channels that are closed *)
  callers : gmap N caller;
}.

Definition withoutNopEvents (events : list E) : list E := filter (λ e, is_nop e = false) events.

Definition set_eventChan (c : list eventBatch) (s : SubscriptionManager) : SubscriptionManager :=
  MkSM c (subscribers s) (stopped s) (handling s) (handler_alive s) (closed s) (callers s).
Definition set_caller (t : N) (c : caller) (s : SubscriptionManager) : SubscriptionManager :=
  MkSM (eventChan s) (subscribers s) (stopped s) (handling s) (handler_alive s) (closed s) (<[t := c]> (callers s)).
Definition set_handling (h : option (list E * option N)) (s : SubscriptionManager) : SubscriptionManager :=
  MkSM (eventChan s) (subscribers s) (stopped s) h (handler_alive s) (closed s) (callers s).
Definition set_subscribers (x : gset string) (s : SubscriptionManager) : SubscriptionManager :=
  MkSM (eventChan s) x (stopped s) (handling s) (handler_alive s) (closed s) (callers s).
Definition close_done (d : option N) (s : SubscriptionManager) : SubscriptionManager :=
  MkSM (eventChan s) (subscribers s) (stopped s) (handling s) (handler_alive s) (match d with Some t => {[t]} ∪ closed s | None => closed s end) (callers s).
Definition stop (s : SubscriptionManager) : SubscriptionManager :=
  MkSM (eventChan s) (subscribers s) true (handling s) (handler_alive s) (closed s) (callers s).
Definition end_handler (s : SubscriptionManager) : SubscriptionManager :=
  MkSM (eventChan s) (subscribers s) (stopped s) (handling s) false (closed s) (callers s).

Definition NewSubscriptionManager : SubscriptionManager := MkSM [] ∅ false None true ∅ ∅.

(** What has happened: the events put into the channel and handed out, in order; what
    each subscriber was given, and when it joined; and how many events were in the
    channel or had passed it when a waiting caller had sent its batch. *)
Record history := MkHistory {
  h_accepted : list E;
  h_distributed : list E;
  h_given : gmap string (list E);
  h_joined : gmap string nat;
  h_sent : gmap N nat;
}.
Definition no_history : history := MkHistory [] [] ∅ ∅ ∅.

(** [distributeEvent]: every subscriber is given the event. *)
Definition give (x : gset string) (e : E) (g : gmap string (list E)) : gmap string (list E) :=
  set_fold (λ id g, <[id := default [] (g !! id) ++ [e]]> g) g x.

Inductive sm_step : SubscriptionManager * history → SubscriptionManager * history → Prop :=
  (* callers *)
  | sm_notify s h t events : callers s !! t = None → sm_step (s, h) (set_caller t (C_notify events) s, h)
  | sm_skip s h t e events : callers s !! t = Some (C_notify (e :: events)) → is_nop e = true →
      sm_step (s, h) (set_caller t (C_notify events) s, h)
  | sm_send s h t e events : callers s !! t = Some (C_notify (e :: events)) → is_nop e = false → length (eventChan s) < eventBufferSize →
      sm_step (s, h) (set_eventChan (eventChan s ++ [MkBatch None [e]]) (set_caller t (C_notify events) s),
        MkHistory (h_accepted h ++ [e]) (h_distributed h) (h_given h) (h_joined h) (h_sent h))
  | sm_notify_stopped s h t e events : callers s !! t = Some (C_notify (e :: events)) → is_nop e = false → stopped s = true →
      sm_step (s, h) (set_caller t (C_notify []) s, h)
  | sm_notify_and_wait s h t events : callers s !! t = None →
      sm_step (s, h) (set_caller t (match withoutNopEvents events with [] => C_returned [] None | l => C_send l end) s, h)
  | sm_send_batch s h t events : callers s !! t = Some (C_send events) → length (eventChan s) < eventBufferSize →
      sm_step (s, h) (set_eventChan (eventChan s ++ [MkBatch (Some t) events]) (set_caller t (C_wait events) s),
        MkHistory (h_accepted h ++ events) (h_distributed h) (h_given h) (h_joined h) (<[t := length (h_accepted h) + length events]> (h_sent h)))
  | sm_done s h t events : callers s !! t = Some (C_wait events) → t ∈ closed s →
      sm_step (s, h) (set_caller t (C_returned events None) s, h)
  | sm_cancelled s h t events : callers s !! t = Some (C_send events) ∨ callers s !! t = Some (C_wait events) →
      sm_step (s, h) (set_caller t (C_returned events (Some ErrContext)) s, h)
  | sm_wait_stopped s h t events : callers s !! t = Some (C_send events) ∨ callers s !! t = Some (C_wait events) → stopped s = true →
      sm_step (s, h) (set_caller t (C_returned events (Some ErrSubscriptionManagerStopped)) s, h)
  (* handleEvents *)
  | sm_receive s h b chan : handler_alive s = true → handling s = None → eventChan s = b :: chan →
      sm_step (s, h) (set_handling (Some (bt_events b, bt_done b)) (set_eventChan chan s), h)
  | sm_distribute s h e events d : handling s = Some (e :: events, d) →
      sm_step (s, h) (set_handling (Some (events, d)) s,
        MkHistory (h_accepted h) (h_distributed h ++ [e]) (give (subscribers s) e (h_given h)) (h_joined h) (h_sent h))
  | sm_close s h d : handling s = Some ([], d) → sm_step (s, h) (set_handling None (close_done d s), h)
  | sm_end s h : handling s = None → stopped s = true → sm_step (s, h) (end_handler s, h)
  (* the rest *)
  | sm_stop s h : sm_step (s, h) (stop s, h)
  | sm_subscribe s h id : sm_step (s, h) (set_subscribers ({[id]} ∪ subscribers s) s,
        MkHistory (h_accepted h) (h_distributed h) (h_given h)
          (if decide (id ∈ subscribers s) then h_joined h else <[id := length (h_distributed h)]> (h_joined h)) (h_sent h))
  | sm_unsubscribe s h id : sm_step (s, h) (set_subscribers (subscribers s ∖ {[id]}) s, h).

(** * The invariant *)

(** The batches in the channel end where their callers noted. *)
Fixpoint batches_at (sent : gmap N nat) (n : nat) (chan : list eventBatch) : Prop :=
  match chan with
  | [] => True
  | b :: chan => (∀ t, bt_done b = Some t → sent !! t = Some (n + length (bt_events b))) ∧ batches_at sent (n + length (bt_events b)) chan
  end.

Definition in_hand (s : SubscriptionManager) : list E := match handling s with Some (l, _) => l | None => [] end.

Record delivery_ok (s : SubscriptionManager) (h : history) : Prop := {
  dl_order : h_accepted h = h_distributed h ++ in_hand s ++ (eventChan s ≫= bt_events);
  dl_buffer : length (eventChan s) ≤ eventBufferSize;
  dl_chan : batches_at (h_sent h) (length (h_distributed h) + length (in_hand s)) (eventChan s);
  dl_hand : ∀ l t, handling s = Some (l, Some t) → h_sent h !! t = Some (length (h_distributed h) + length l);
  dl_closed : ∀ t, t ∈ closed s → ∃ n, h_sent h !! t = Some n ∧ n ≤ length (h_distributed h);
  dl_sent : ∀ t n, h_sent h !! t = Some n → n ≤ length (h_accepted h) ∧ ∃ events, callers s !! t = Some (C_wait events) ∨ ∃ r, callers s !! t = Some (C_returned events r);
  dl_wait : ∀ t events, callers s !! t = Some (C_wait events) → ∃ n, h_sent h !! t = Some n ∧ events `suffix_of` take n (h_accepted h);
  dl_returned : ∀ t events, callers s !! t = Some (C_returned events None) →
    events = [] ∨ ∃ n, h_sent h !! t = Some n ∧ n ≤ length (h_distributed h) ∧ events `suffix_of` take n (h_accepted h);
  dl_alive : handler_alive s = false → stopped s = true;
  dl_given : ∀ id, id ∈ subscribers s → ∃ n, h_joined h !! id = Some n ∧ n ≤ length (h_distributed h) ∧
    drop n (h_distributed h) `suffix_of` default [] (h_given h !! id);
}.

Lemma delivery_ok_new : delivery_ok NewSubscriptionManager no_history.
Proof.
  split; cbn; try done; try lia.
Qed.

(** A subscriber is given the event once. *)
Lemma give_lookup x e g id : give x e g !! id = if decide (id ∈ x) then Some (default [] (g !! id) ++ [e]) else g !! id.
Proof.
  unfold give, set_fold. cbn. assert (∀ l, NoDup l → foldr (λ id g, <[id := default [] (g !! id) ++ [e]]> g) g l !! id =
    if decide (id ∈ l) then Some (default [] (g !! id) ++ [e]) else g !! id) as Hgen.
  { induction l as [|i l IH]; intros Hnd; [by rewrite decide_False by apply not_elem_of_nil|]. apply NoDup_cons in Hnd as [Hi Hnd]. cbn [foldr].
    assert (foldr (λ id g, <[id := default [] (g !! id) ++ [e]]> g) g l !! i = if decide (i ∈ l) then Some (default [] (g !! i) ++ [e]) else g !! i) as IHi.
    { clear IH. induction l as [|j l IHl]; [by rewrite decide_False by apply not_elem_of_nil|]. apply not_elem_of_cons in Hi as [Hij Hi].
      apply NoDup_cons in Hnd as [_ Hnd]. cbn [foldr]. rewrite lookup_insert_ne, (IHl Hi Hnd) by done.
      rewrite !decide_False; [done| |done]. by apply not_elem_of_cons. }
    rewrite decide_False in IHi by done. destruct (decide (i = id)) as [->|Hne].
    - rewrite lookup_insert_eq, IHi, decide_True by left. done.
    - rewrite lookup_insert_ne, (IH Hnd) by done. destruct (decide (id ∈ l)); [rewrite decide_True by (by right); done|].
      rewrite decide_False; [done|]. by intros [?|?]%elem_of_cons. }
  rewrite Hgen by apply NoDup_elements. destruct (decide (id ∈ x)); [rewrite decide_True by (by apply elem_of_elements); done|].
  by rewrite decide_False by (by rewrite elem_of_elements).
Qed.

Lemma batches_at_app sent n chan b :
  batches_at sent n chan → (∀ t, bt_done b = Some t → sent !! t = Some (n + length (chan ≫= bt_events) + length (bt_events b))) →
  batches_at sent n (chan ++ [b]).
Proof.
  revert n. induction chan as [|c chan IH]; intros n Hc Hb; cbn [app batches_at].
  - split; [|done]. intros t Ht. rewrite (Hb t Ht). f_equal. cbn. lia.
  - destruct Hc as [Hc1 Hc2]. split; [done|]. apply IH; [done|]. intros t Ht. rewrite (Hb t Ht). f_equal. cbn [mbind list_bind]. rewrite length_app. unfold mbind. lia.
Qed.

Lemma batches_at_mono sent sent' n chan : sent ⊆ sent' → batches_at sent n chan → batches_at sent' n chan.
Proof.
  intros Hs. revert n. induction chan as [|c chan IH]; intros n; [done|]. intros [H1' H2']. split; [|by apply IH].
  intros t Ht. eapply lookup_weaken; [by apply H1'|done].
Qed.

Lemma suffix_take_app {A} (l k : list A) n x : n ≤ length l → x `suffix_of` take n l → x `suffix_of` take n (l ++ k).
Proof. intros Hn Hx. by rewrite take_app_le. Qed.

(** A change of one caller that sends nothing. *)
Lemma set_caller_ok s h t c :
  delivery_ok s h →
  (∀ n, h_sent h !! t = Some n → ∃ events, c = C_wait events ∨ ∃ r, c = C_returned events r) →
  (∀ events, c = C_wait events → callers s !! t = Some (C_wait events)) →
  (∀ events, c = C_returned events None → events = [] ∨ ∃ n, h_sent h !! t = Some n ∧ n ≤ length (h_distributed h) ∧ events `suffix_of` take n (h_accepted h)) →
  delivery_ok (set_caller t c s) h.
Proof.
  intros [] Hs Hw Hr. split; try done; cbn.
  - intros t' n Hn. destruct (decide (t = t')) as [<-|]; [rewrite lookup_insert_eq|rewrite lookup_insert_ne by done; auto].
    split; [by apply (dl_sent0 t n)|]. destruct (Hs n Hn) as (events & Hc). exists events. destruct Hc as [->|[r ->]]; eauto.
  - intros t' events [[<- ->]|[_ Hc]]%lookup_insert_Some; [apply dl_wait0; by apply Hw|auto].
  - intros t' events [[<- ->]|[_ Hc]]%lookup_insert_Some; [by apply Hr|auto].
Qed.

Lemma not_sent s h t : delivery_ok s h → (∀ events, callers s !! t ≠ Some (C_wait events)) → (∀ events r, callers s !! t ≠ Some (C_returned events r)) → h_sent h !! t = None.
Proof.
  intros Hd Hw Hr. destruct (h_sent h !! t) as [n|] eqn:Es; [|done]. exfalso. destruct (dl_sent _ _ Hd t n Es) as (_ & events & [Hc|[r Hc]]); [by eapply Hw|by eapply Hr].
Qed.

(** Putting a batch into the channel. *)
Lemma put_batch_ok s h t d events c :
  delivery_ok s h → length (eventChan s) < eventBufferSize → h_sent h !! t = None →
  (d = None ∧ (∃ l, c = C_notify l) ∨ d = Some t ∧ c = C_wait events) →
  delivery_ok (set_eventChan (eventChan s ++ [MkBatch d events]) (set_caller t c s))
    (MkHistory (h_accepted h ++ events) (h_distributed h) (h_given h) (h_joined h)
      (match d with Some t => <[t := length (h_accepted h) + length events]> (h_sent h) | None => h_sent h end)).
Proof.
  intros Hd Hroom Hs Hc. pose proof Hd as []. set (sent' := match d with Some _ => _ | None => _ end).
  assert (h_sent h ⊆ sent') as Hsub by (unfold sent'; destruct d as [t'|]; [|done]; apply insert_subseteq; by destruct Hc as [[? _]|[[= ->] _]]).
  assert (∀ t' n, sent' !! t' = Some n → h_sent h !! t' = Some n ∨ t' = t ∧ d = Some t ∧ c = C_wait events ∧ n = length (h_accepted h) + length events) as Hinv.
  { unfold sent'. intros t' n. destruct d as [t0|]; [|by left]. destruct Hc as [[? _]|[[= ->] Hc]]; [done|]. intros [[<- <-]|[_ ?]]%lookup_insert_Some; auto. }
  assert (length (h_accepted h) = length (h_distributed h) + length (in_hand s) + length (eventChan s ≫= bt_events)) as Hlen by (rewrite dl_order0, !length_app; lia).
  split; cbn.
  - rewrite dl_order0. change (in_hand (set_eventChan _ _)) with (in_hand s). rewrite bind_app. cbn. by rewrite app_nil_r, <-!app_assoc.
  - rewrite length_app. cbn. lia.
  - change (in_hand (set_eventChan _ _)) with (in_hand s). apply batches_at_app; [by eapply batches_at_mono|]. cbn. intros t' ->. unfold sent'.
    rewrite Hlen. by rewrite lookup_insert_eq.
  - intros l t' Hh. eapply lookup_weaken; [by apply dl_hand0|done].
  - intros t' Ht'. destruct (dl_closed0 t' Ht') as (n & ? & ?). exists n. split; [by eapply lookup_weaken|done].
  - rewrite length_app. intros t' n [Hn|(-> & _ & -> & ->)]%Hinv.
    + destruct (dl_sent0 t' n Hn) as [Hle Hex]. split; [lia|]. rewrite lookup_insert_ne; [done|]. intros <-. congruence.
    + split; [lia|]. exists events. left. by rewrite lookup_insert_eq.
  - intros t' ev [[<- ->]|[Hne Hw]]%lookup_insert_Some.
    + destruct Hc as [[_ [l Hc]]|[-> [= ->]]]; [done|]. unfold sent'. exists (length (h_accepted h) + length events). rewrite lookup_insert_eq. split; [done|].
      rewrite take_ge by (rewrite length_app; lia). by eexists.
    + destruct (dl_wait0 t' ev Hw) as (n & Hn & Hx). exists n. split; [by eapply lookup_weaken|]. apply suffix_take_app; [by apply (dl_sent0 t')|done].
  - intros t' ev [[<- ->]|[Hne Hw]]%lookup_insert_Some; [by destruct Hc as [[_ [l Hc]]|[_ Hc]]|].
    destruct (dl_returned0 t' ev Hw) as [->|(n & Hn & Hle & Hx)]; [by left|]. right. exists n. split_and!; [by eapply lookup_weaken|done|].
    apply suffix_take_app; [by apply (dl_sent0 t')|done].
  - done.
  - done.
Qed.

Lemma receive_ok s h b chan : delivery_ok s h → handling s = None → eventChan s = b :: chan →
  delivery_ok (set_handling (Some (bt_events b, bt_done b)) (set_eventChan chan s)) h.
Proof.
  intros [] Hh Hc. unfold in_hand in *. rewrite Hh, Hc in *. cbn in *. destruct dl_chan0 as [Hb Hrest]. split; try done; cbn.
  - lia.
  - by rewrite Nat.add_0_r in Hrest.
  - intros l t [= <- Ht]. rewrite Hb, Nat.add_0_r by done. done.
Qed.

Lemma distribute_ok s h e events d : delivery_ok s h → handling s = Some (e :: events, d) →
  delivery_ok (set_handling (Some (events, d)) s)
    (MkHistory (h_accepted h) (h_distributed h ++ [e]) (give (subscribers s) e (h_given h)) (h_joined h) (h_sent h)).
Proof.
  intros [] Hh. unfold in_hand in *. rewrite Hh in *. cbn in *. split; try done; cbn; rewrite ?length_app; cbn.
  - by rewrite dl_order0, <-app_assoc.
  - replace (length (h_distributed h) + 1 + length events) with (length (h_distributed h) + S (length events)) by lia. done.
  - intros l t [= <- ->]. rewrite (dl_hand0 _ _ eq_refl). f_equal. cbn. lia.
  - intros t Ht. destruct (dl_closed0 t Ht) as (n & ? & ?). exists n. split; [done|lia].
  - intros t ev Hr. destruct (dl_returned0 t ev Hr) as [->|(n & ? & ? & ?)]; [by left|]. right. exists n. split_and!; [done|lia|done].
  - intros id Hid. destruct (dl_given0 id Hid) as (n & Hj & Hn & [k Hk]). exists n. split_and!; [done|lia|]. rewrite give_lookup, decide_True by done. cbn.
    exists k. rewrite Hk, drop_app_le by done. by rewrite app_assoc.
Qed.

Lemma close_ok s h d : delivery_ok s h → handling s = Some ([], d) → delivery_ok (set_handling None (close_done d s)) h.
Proof.
  intros [] Hh. unfold in_hand in *. rewrite Hh in *. cbn in *. split; try done; cbn.
  destruct d as [t|]; [|done]. intros t' [->%elem_of_singleton|?]%elem_of_union; [|auto].
  exists (length (h_distributed h)). split; [|lia]. rewrite (dl_hand0 _ _ eq_refl). cbn. f_equal. lia.
Qed.

Lemma subscribe_ok s h id : delivery_ok s h →
  delivery_ok (set_subscribers ({[id]} ∪ subscribers s) s)
    (MkHistory (h_accepted h) (h_distributed h) (h_given h)
      (if decide (id ∈ subscribers s) then h_joined h else <[id := length (h_distributed h)]> (h_joined h)) (h_sent h)).
Proof.
  intros []. split; try done; cbn. intros id' Hid.
  destruct (decide (id ∈ subscribers s)) as [Hin|Hn]; [apply dl_given0; set_solver|].
  destruct (decide (id = id')) as [<-|Hne].
  - exists (length (h_distributed h)). rewrite lookup_insert_eq. split_and!; [done..|]. rewrite drop_ge by done. apply suffix_nil.
  - rewrite lookup_insert_ne by done. apply dl_given0. set_solver.
Qed.

(** Every step keeps the invariant. *)
Lemma delivery_step p p' : sm_step p p' → delivery_ok p.1 p.2 → delivery_ok p'.1 p'.2.
Proof.
  intros Hstep Hd. destruct Hstep as [s h t events Ec|s h t e events Ec Hn|s h t e events Ec Hn Hl|s h t e events Ec Hn Hs|s h t events Ec|s h t events Ec Hl
    |s h t events Ec Hc|s h t events Ec|s h t events Ec Hs|s h b chan _ Hh Hc|s h e events d Hh|s h d Hh|s h Hh Hs|s h|s h id|s h id]; cbn [fst snd] in *.
  - pose proof (not_sent s h t Hd) as Hns. rewrite Ec in Hns. apply set_caller_ok; [done|rewrite Hns by done|..]; done.
  - pose proof (not_sent s h t Hd) as Hns. rewrite Ec in Hns. apply set_caller_ok; [done|rewrite Hns by done|..]; done.
  - pose proof (not_sent s h t Hd) as Hns. rewrite Ec in Hns. apply (put_batch_ok s h t None [e]); [done|done|by apply Hns|eauto].
  - pose proof (not_sent s h t Hd) as Hns. rewrite Ec in Hns. apply set_caller_ok; [done|rewrite Hns by done|..]; done.
  - pose proof (not_sent s h t Hd) as Hns. rewrite Ec in Hns. apply set_caller_ok; [done|rewrite Hns by done; done|..]; destruct (withoutNopEvents events); try done.
    intros ev [= <-]. by left.
  - pose proof (not_sent s h t Hd) as Hns. rewrite Ec in Hns. apply (put_batch_ok s h t (Some t) events); [done|done|by apply Hns|auto].
  - apply set_caller_ok; [done|eauto|done|]. intros ev [= <-]. right. destruct (dl_closed _ _ Hd t Hc) as (n & Hs & Hle). exists n. split_and!; [done..|].
    destruct (dl_wait _ _ Hd t events Ec) as (n' & Hs' & Hx). congruence.
  - apply set_caller_ok; [done|eauto|done|done].
  - apply set_caller_ok; [done|eauto|done|done].
  - by apply receive_ok.
  - by eapply distribute_ok.
  - by apply close_ok.
  - destruct Hd. by split.
  - destruct Hd. by split.
  - by apply subscribe_ok.
  - destruct Hd. split; try done. cbn. intros id' Hid. apply dl_given0. set_solver.
Qed.

Lemma delivery_reachable p : rtc sm_step (NewSubscriptionManager, no_history) p → delivery_ok p.1 p.2.
Proof.
  intros Hp. assert (∀ q, rtc sm_step q p → delivery_ok q.1 q.2 → delivery_ok p.1 p.2) as Hgen.
  { clear Hp. induction 1 as [|q q1 p Hstep _ IH]; [done|]. intros Hq. apply IH. by eapply delivery_step. }
  apply (Hgen _ Hp). apply delivery_ok_new.
Qed.

(** The steps of [handleEvents]. *)
Definition handler_can_go (s : SubscriptionManager) (h : history) : Prop :=
  ∃ p, sm_step (s, h) p ∧ handling p.1 ≠ handling s.

Lemma handler_goes s h : delivery_ok s h → stopped s = false → handling s ≠ None ∨ eventChan s ≠ [] → handler_can_go s h.
Proof.
  intros Hd Hs Hw. destruct (handling s) as [[[|e l] d]|] eqn:Eh.
  - eexists. split; [by eapply sm_close|]. cbn. by rewrite Eh.
  - eexists. split; [by eapply sm_distribute|]. cbn. rewrite Eh. intros [= El]. apply (f_equal length) in El. cbn in El. lia.
  - destruct Hw as [|Hw]; [done|]. destruct (eventChan s) as [|b chan] eqn:Ec; [done|]. eexists. split; [eapply sm_receive; [|done|done]|by cbn; rewrite Eh].
    destruct (handler_alive s) eqn:Ea; [done|]. rewrite (dl_alive _ _ Hd Ea) in Hs. done.
Qed.

(** C12: Events are delivered in the order in which they were accepted, whatever the
    interleaving of callers, subscriptions and the handler.  The events handed out, the
    rest of the batch being handled and the channel are together the events accepted;
    a subscriber has been given every event handed out since it joined, in order and
    once; a call of [NotifySubscribersAndWait] that returned without an error had its
    events, and all those accepted before them, handed out; and unless the manager is
    stopped the handler can always go on with what is waiting. *)
Theorem delivered_in_order s h :
  rtc sm_step (NewSubscriptionManager, no_history) (s, h) →
  h_accepted h = h_distributed h ++ in_hand s ++ (eventChan s ≫= bt_events) ∧
  (∀ id, id ∈ subscribers s → ∃ n before, h_joined h !! id = Some n ∧ n ≤ length (h_distributed h) ∧
     default [] (h_given h !! id) = before ++ drop n (h_distributed h)) ∧
  (∀ t events, callers s !! t = Some (C_returned events None) → events ≠ [] →
     ∃ before, h_sent h !! t = Some (length (before ++ events)) ∧ (before ++ events) `prefix_of` h_distributed h) ∧
  (stopped s = false → handling s ≠ None ∨ eventChan s ≠ [] → handler_can_go s h).
Proof.
  intros Hr. pose proof (delivery_reachable (s, h) Hr) as Hd. cbn in Hd. split_and!; [apply Hd| | |by apply handler_goes].
  - intros id Hid. destruct (dl_given _ _ Hd id Hid) as (n & ? & ? & [before ?]). by exists n, before.
  - intros t events Hc Hne. destruct (dl_returned _ _ Hd t events Hc) as [|(n & Hs & Hle & [before Hb])]; [done|]. exists before.
    rewrite (dl_order _ _ Hd), take_app_le in Hb by done. rewrite <-Hb, length_take_le by done. split; [done|].
    exists (drop n (h_distributed h)). by rewrite take_drop.
Qed.
End delivery.

(** A caller waits while another one sends: both events are delivered, in order. *)
Lemma delivered_in_order_witness :
  ∃ s h, rtc (sm_step (λ e, e =? 0)) (NewSubscriptionManager, no_history) (s, h) ∧
    callers s !! 1%N = Some (C_returned [7] None) ∧ [5; 7] `prefix_of` h_distributed h.
Proof.
  assert (∃ s h, rtc (sm_step (λ e, e =? 0)) (NewSubscriptionManager, no_history) (s, h) ∧
    callers s !! 1%N = Some (C_returned [7] None) ∧ h_accepted h = [5; 7] ∧ h_sent h !! 1%N = Some 2) as (s & h & Hr & Hc & Ha & Hs).
  { do 2 eexists. split.
    - eapply rtc_l; [apply (sm_subscribe _ _ _ "engine.RuleTable"%string)|]. eapply rtc_l; [by apply (sm_notify _ _ _ 0 [0; 5])|].
      eapply rtc_l; [by apply (sm_skip _ _ _ 0 0 [5])|]. eapply rtc_l; [apply (sm_send _ _ _ 0 5 []); [done..|cbn; unfold eventBufferSize; lia]|].
      eapply rtc_l; [by apply (sm_notify_and_wait _ _ _ 1 [7])|]. eapply rtc_l; [apply (sm_send_batch _ _ _ 1 [7]); [done|cbn; unfold eventBufferSize; lia]|].
      eapply rtc_l; [by eapply sm_receive|]. eapply rtc_l; [by eapply sm_distribute|]. eapply rtc_l; [by eapply sm_close|].
      eapply rtc_l; [by eapply sm_receive|]. eapply rtc_l; [by eapply sm_distribute|]. eapply rtc_l; [by eapply sm_close|].
      eapply rtc_l; [by apply (sm_done _ _ _ 1 [7])|]. apply rtc_refl.
    - split_and!; reflexivity. }
  destruct (delivered_in_order (λ e, e =? 0) s h Hr) as (Ho & _ & Hw & _).
  exists s, h. split; [exact Hr|]. split; [exact Hc|]. destruct (Hw 1%N [7] Hc) as (before & Hs' & Hp); [discriminate|].
  rewrite Hs in Hs'. injection Hs' as Hl. destruct before as [|b [|b' before]]; [discriminate Hl| |rewrite !length_app in Hl; cbn in Hl; lia].
  destruct Hp as [rest Hp]. rewrite Ha, Hp in Ho. cbn in Ho. injection Ho as <- Ho. exists rest. exact Hp.
Defined.

(** * Reloads *)

(** [Reload] of [reload.go].  Calls are merged by a [singleflight.Group] under one
    key: a call joins the flight that is registered, or registers a new one; [Forget]
    unregisters it, and so does its end if it is still registered.  A flight takes the
    mutex, forgets the key, reloads the store and releases the mutex.  The clock
    counts steps. *)
Inductive flight_phase := F_called | F_locked | F_forgotten | F_reloading | F_done.
#[export] Instance flight_phase_eq_dec : EqDecision flight_phase.
Proof. solve_decision. Defined.

Record reloads := MkReloads {
  rl_registered : option nat;
  rl_mutex : option nat;
  rl_flights : gmap nat flight_phase;
  rl_calls : gmap N (nat * nat);    (* the flight of a call, and when it was made *)
  rl_returned : gset N;
  rl_started : gmap nat nat;        (* when a flight began to reload the store *)
  rl_clock : nat;
}.
Definition no_reloads : reloads := MkReloads None None ∅ ∅ ∅ ∅ 0.

Inductive reload_step : reloads → reloads → Prop :=
  | rl_join s c f : rl_registered s = Some f → rl_calls s !! c = None →
      reload_step s (MkReloads (Some f) (rl_mutex s) (rl_flights s) (<[c := (f, rl_clock s)]> (rl_calls s)) (rl_returned s) (rl_started s) (rl_clock s + 1))
  | rl_call s c f : rl_registered s = None → rl_calls s !! c = None → rl_flights s !! f = None →
      reload_step s (MkReloads (Some f) (rl_mutex s) (<[f := F_called]> (rl_flights s)) (<[c := (f, rl_clock s)]> (rl_calls s)) (rl_returned s) (rl_started s) (rl_clock s + 1))
  | rl_lock s f : rl_flights s !! f = Some F_called → rl_mutex s = None →
      reload_step s (MkReloads (rl_registered s) (Some f) (<[f := F_locked]> (rl_flights s)) (rl_calls s) (rl_returned s) (rl_started s) (rl_clock s + 1))
  | rl_forget s f : rl_flights s !! f = Some F_locked →
      reload_step s (MkReloads None (rl_mutex s) (<[f := F_forgotten]> (rl_flights s)) (rl_calls s) (rl_returned s) (rl_started s) (rl_clock s + 1))
  | rl_start s f : rl_flights s !! f = Some F_forgotten →
      reload_step s (MkReloads (rl_registered s) (rl_mutex s) (<[f := F_reloading]> (rl_flights s)) (rl_calls s) (rl_returned s) (<[f := rl_clock s]> (rl_started s)) (rl_clock s + 1))
  | rl_unlock s f : rl_flights s !! f = Some F_reloading →
      reload_step s (MkReloads (if decide (rl_registered s = Some f) then None else rl_registered s) None (<[f := F_done]> (rl_flights s)) (rl_calls s) (rl_returned s) (rl_started s) (rl_clock s + 1))
  | rl_return s c f t : rl_calls s !! c = Some (f, t) → rl_flights s !! f = Some F_done →
      reload_step s (MkReloads (rl_registered s) (rl_mutex s) (rl_flights s) (rl_calls s) ({[c]} ∪ rl_returned s) (rl_started s) (rl_clock s + 1)).

Record reloads_ok (s : reloads) : Prop := {
  rk_registered : ∀ f, rl_registered s = Some f ↔ rl_flights s !! f = Some F_called ∨ rl_flights s !! f = Some F_locked;
  rk_mutex : ∀ f p, rl_flights s !! f = Some p → p = F_locked ∨ p = F_forgotten ∨ p = F_reloading → rl_mutex s = Some f;
  rk_started : ∀ f, is_Some (rl_started s !! f) ↔ rl_flights s !! f = Some F_reloading ∨ rl_flights s !! f = Some F_done;
  rk_calls : ∀ c f t, rl_calls s !! c = Some (f, t) → t < rl_clock s ∧ is_Some (rl_flights s !! f) ∧ ∀ t', rl_started s !! f = Some t' → t < t';
  rk_returned : ∀ c, c ∈ rl_returned s → ∃ f t, rl_calls s !! c = Some (f, t) ∧ rl_flights s !! f = Some F_done;
}.

(** Looking up a flight after the step of flight [f]. *)
Ltac flight f g :=
  destruct (decide (f = g)) as [<-|?]; [rewrite ?lookup_insert_eq in *|rewrite ?lookup_insert_ne in * by done].

Lemma join_ok s c f (flights : gmap nat flight_phase) : reloads_ok s → rl_calls s !! c = None → (∀ g p, rl_flights s !! g = Some p → flights !! g = Some p) →
  is_Some (flights !! f) → rl_started s !! f = None →
  (∀ c' g t, <[c := (f, rl_clock s)]> (rl_calls s) !! c' = Some (g, t) → t < rl_clock s + 1 ∧ is_Some (flights !! g) ∧ ∀ t', rl_started s !! g = Some t' → t < t') ∧
  (∀ c', c' ∈ rl_returned s → ∃ g t, <[c := (f, rl_clock s)]> (rl_calls s) !! c' = Some (g, t) ∧ flights !! g = Some F_done).
Proof.
  intros [_ _ _ Hc Hre] Hn Hsub Hf Hst. split.
  - intros c' g t [[<- [= <- <-]]|[_ Hl]]%lookup_insert_Some.
    + split_and!; [lia|done|]. intros t'. by rewrite Hst.
    + destruct (Hc _ _ _ Hl) as (? & [p ?] & ?). split_and!; [lia|by exists p; apply Hsub|done].
  - intros c' Hin. destruct (Hre c' Hin) as (g & t & Hl & Hd). exists g, t. split; [|by apply Hsub]. rewrite lookup_insert_ne; [done|]. intros ->. congruence.
Qed.

(** A flight that moves on without starting or ending. *)
Lemma advance_ok s f p q : reloads_ok s → rl_flights s !! f = Some p → p ≠ F_done →
  (∀ c' g t, rl_calls s !! c' = Some (g, t) → t < rl_clock s + 1 ∧ is_Some (<[f := q]> (rl_flights s) !! g) ∧ ∀ t', rl_started s !! g = Some t' → t < t') ∧
  (∀ c', c' ∈ rl_returned s → ∃ g t, rl_calls s !! c' = Some (g, t) ∧ <[f := q]> (rl_flights s) !! g = Some F_done).
Proof.
  intros [_ _ _ Hc Hre] Hf Hp. split.
  - intros c' g t Hl. destruct (Hc _ _ _ Hl) as (? & ? & ?). split_and!; [lia| |done]. flight f g; [by eexists|done].
  - intros c' Hin. destruct (Hre c' Hin) as (g & t & Hl & Hd). exists g, t. split; [done|]. flight f g; [congruence|done].
Qed.

Lemma reload_step_ok s s' : reload_step s s' → reloads_ok s → reloads_ok s'.
Proof.
  intros Hstep Hs. pose proof Hs as [Hr Hm Hst Hc Hre].
  destruct Hstep as [s c f E1 E2|s c f E1 E2 E3|s f E1 E2|s f E1|s f E1|s f E1|s c f t E1 E2].
  - assert (rl_flights s !! f = Some F_called ∨ rl_flights s !! f = Some F_locked) as Hf by by apply Hr.
    destruct (join_ok s c f (rl_flights s) Hs E2) as [Hc' Hre']; [done|by destruct Hf as [->| ->]| |].
    { destruct (rl_started s !! f) eqn:E; [|done]. assert (is_Some (rl_started s !! f)) as [Hx|Hx]%Hst by (by rewrite E); destruct Hf; congruence. }
    split; cbn; try done. intros g. rewrite <-E1. apply Hr.
  - destruct (join_ok s c f (<[f := F_called]> (rl_flights s)) Hs E2) as [Hc' Hre'].
    { intros g p Hg. flight f g; [congruence|done]. }
    { by rewrite lookup_insert_eq. }
    { destruct (rl_started s !! f) eqn:E; [|done]. assert (is_Some (rl_started s !! f)) as [Hx|Hx]%Hst by (by rewrite E); congruence. }
    split; cbn; try done.
    + intros g. specialize (Hr g). rewrite E1 in Hr. flight f g; [naive_solver|]. split; [congruence|]. intros Hx%Hr. done.
    + intros g p. flight f g; [naive_solver|apply Hm].
    + intros g. specialize (Hst g). flight f g; [|done]. rewrite Hst, E3. naive_solver.
  - destruct (advance_ok s f F_called F_locked Hs E1) as [Hc' Hre']; [done|]. split; cbn; try done.
    + intros g. specialize (Hr g). flight f g; [rewrite Hr, E1; naive_solver|done].
    + intros g p. specialize (Hm g p). flight f g; [done|]. intros Hg Hp. specialize (Hm Hg Hp). congruence.
    + intros g. specialize (Hst g). flight f g; [rewrite Hst, E1; naive_solver|done].
  - destruct (advance_ok s f F_locked F_forgotten Hs E1) as [Hc' Hre']; [done|].
    assert (rl_registered s = Some f) as Ef by (apply Hr; by right). split; cbn; try done.
    + intros g. specialize (Hr g). flight f g; [naive_solver|]. split; [done|]. intros Hx%Hr. congruence.
    + intros g p. specialize (Hm g p). flight f g; [|done]. intros _ _. apply (rk_mutex _ Hs f F_locked); auto.
    + intros g. specialize (Hst g). flight f g; [rewrite Hst, E1; naive_solver|done].
  - destruct (advance_ok s f F_forgotten F_reloading Hs E1) as [Hc' Hre']; [done|]. split; cbn; try done.
    + intros g. specialize (Hr g). flight f g; [rewrite Hr, E1; naive_solver|done].
    + intros g p. specialize (Hm g p). flight f g; [|done]. intros _ _. apply (rk_mutex _ Hs f F_forgotten); auto.
    + intros g. specialize (Hst g). flight f g; [|done]. split; [by left|]. intros _. by eexists.
    + intros c g t Hl. destruct (Hc' c g t Hl) as (? & ? & Hlt). split_and!; [done..|]. intros t'. flight f g; [|apply Hlt].
      intros [= <-]. by destruct (Hc c f t Hl).
  - destruct (advance_ok s f F_reloading F_done Hs E1) as [Hc' Hre']; [done|].
    assert (rl_registered s ≠ Some f) as Ef by (intros [?|?]%Hr; congruence). rewrite decide_False by done. split; cbn; try done.
    + intros g. specialize (Hr g). flight f g; [naive_solver|done].
    + intros g p. specialize (Hm g p). flight f g; [naive_solver|]. intros Hg Hp. specialize (Hm Hg Hp).
      pose proof (rk_mutex _ Hs f F_reloading E1). rewrite Hm in *. naive_solver.
    + intros g. specialize (Hst g). flight f g; [rewrite Hst, E1; naive_solver|done].
  - split; cbn; try done.
    + intros c' g t' Hl. destruct (Hc _ _ _ Hl) as (? & ? & ?). split_and!; [lia|done..].
    + intros c' [->%elem_of_singleton|Hin]%elem_of_union; [by exists f, t|by apply Hre].
Qed.

(** C13: Reloads of the store never overlap, and every call that has returned was served
    by a reload that started after the call, whatever the interleaving of the calls. *)
Theorem reload_serves_later s :
  rtc reload_step no_reloads s →
  (∀ f g, rl_flights s !! f = Some F_reloading → rl_flights s !! g = Some F_reloading → f = g) ∧
  (∀ c, c ∈ rl_returned s → ∃ f t t', rl_calls s !! c = Some (f, t) ∧ rl_flights s !! f = Some F_done ∧ rl_started s !! f = Some t' ∧ t < t').
Proof.
  intros Hr. assert (reloads_ok s) as Hs.
  { assert (∀ q, rtc reload_step q s → reloads_ok q → reloads_ok s) as Hgen.
    { clear Hr. induction 1 as [|q q1 s Hstep _ IH]; [done|]. intros Hq. apply IH. by eapply reload_step_ok. }
    apply (Hgen _ Hr). split; cbn; try done. intros f. split; [done|]. by intros [?|?].
    intros f. split; [by intros [? ?]|]. by intros [?|?]. }
  split.
  - intros f g Hf Hg. pose proof (rk_mutex _ Hs f _ Hf ltac:(auto)). pose proof (rk_mutex _ Hs g _ Hg ltac:(auto)). congruence.
  - intros c Hc. destruct (rk_returned _ Hs c Hc) as (f & t & Hl & Hd). destruct (proj2 (rk_started _ Hs f) ltac:(by right)) as [t' Ht'].
    exists f, t, t'. split_and!; [done..|]. destruct (rk_calls _ Hs _ _ _ Hl) as (_ & _ & Hlt). by apply Hlt.
Qed.

(** A call during a reload waits for the next one. *)
Ltac simpl_reloads := cbn [no_reloads rl_registered rl_mutex rl_flights rl_calls rl_returned rl_started rl_clock Nat.add].

Lemma reload_serves_later_witness :
  ∃ s, rtc reload_step no_reloads s ∧ 2%N ∈ rl_returned s ∧ ∃ f t t', rl_calls s !! 2%N = Some (f, t) ∧ rl_started s !! f = Some t' ∧ t < t' ∧ f = 2.
Proof.
  assert (∃ s, rtc reload_step no_reloads s ∧ rl_calls s !! 2%N = Some (2, 4) ∧ 2%N ∈ rl_returned s) as (s & Hr & Hl & Hin).
  { eexists. split; [|split].
    - eapply rtc_l; [apply (rl_call _ 1%N 1); vm_compute; reflexivity|simpl_reloads]. eapply rtc_l; [apply (rl_lock _ 1); vm_compute; reflexivity|simpl_reloads]. eapply rtc_l; [apply (rl_forget _ 1); vm_compute; reflexivity|simpl_reloads].
      eapply rtc_l; [apply (rl_start _ 1); vm_compute; reflexivity|simpl_reloads]. eapply rtc_l; [apply (rl_call _ 2%N 2); vm_compute; reflexivity|simpl_reloads]. eapply rtc_l; [apply (rl_unlock _ 1); vm_compute; reflexivity|simpl_reloads].
      eapply rtc_l; [apply (rl_lock _ 2); vm_compute; reflexivity|simpl_reloads]. eapply rtc_l; [apply (rl_forget _ 2); vm_compute; reflexivity|simpl_reloads]. eapply rtc_l; [apply (rl_start _ 2); vm_compute; reflexivity|simpl_reloads].
      eapply rtc_l; [apply (rl_unlock _ 2); vm_compute; reflexivity|simpl_reloads]. eapply rtc_l; [apply (rl_return _ 2%N 2 4); vm_compute; reflexivity|simpl_reloads]. apply rtc_refl.
    - reflexivity.
    - apply elem_of_union_l, elem_of_singleton. reflexivity. }
  destruct (reload_serves_later s Hr) as [_ Hret]. exists s. split; [exact Hr|]. split; [exact Hin|].
  destruct (Hret 2%N Hin) as (f & t & t' & Hf & _ & Hs & Hlt). exists f, t, t'. rewrite Hl in Hf. injection Hf as <- <-. split_and!; [exact Hl|exact Hs|exact Hlt|reflexivity].
Defined.
