(* ===== verification/GoStrings.v ===== *)
(** Functions on Go strings, which are sequences of bytes: splitting and joining at
    a byte, as package [strings] does. *)
From S2P Require Import Prelude Namer.

Local Open Scope string_scope.
Local Open Scope list_scope.
Open Scope nat_scope.

(** * Bytes of a string *)

Definition contains_byte (c : ascii) (s : string) : bool := ContainsChar (λ a, bool_decide (a = c)) s.

(** [strings.ReplaceAll] of one byte by another. *)
Fixpoint replace_byte (a b : ascii) (s : string) : string :=
  match s with
  | EmptyString => ""
  | String c s => String (if decide (c = a) then b else c) (replace_byte a b s)
  end.

(** [strings.Split] at one byte. *)
Fixpoint split_at (c : ascii) (s : string) : list string :=
  match s with
  | EmptyString => [""]
  | String a s =>
      if decide (a = c) then "" :: split_at c s
      else match split_at c s with
           | [] => [String a ""]
           | e :: l => String a e :: l
           end
  end.

(** [strings.Join] with one byte. *)
Fixpoint join_with (c : ascii) (l : list string) : string :=
  match l with
  | [] => ""
  | [e] => e
  | e :: l => e +:+ String c (join_with c l)
  end.

(** [strings.SplitN]: the last of [n] parts is the rest. *)
Fixpoint split_n (c : ascii) (n : nat) (s : string) : list string :=
  match n with
  | 0 => []
  | 1 => [s]
  | S n => match split_at c s with
           | [] | [_] => [s]
           | e :: l => e :: split_n c n (join_with c l)
           end
  end.

(** [s[:strings.LastIndex(s, c)]]; there is none when [c] does not occur. *)
Fixpoint before_last (c : ascii) (s : string) : option string :=
  match s with
  | EmptyString => None
  | String a s =>
      match before_last c s with
      | Some p => Some (String a p)
      | None => if decide (a = c) then Some "" else None
      end
  end.

(** * Lemmas *)

Lemma contains_byte_cons c a s : contains_byte c (String a s) = bool_decide (a = c) || contains_byte c s.
Proof. done. Qed.
Lemma contains_byte_app c s t : contains_byte c (s +:+ t) = contains_byte c s || contains_byte c t.
Proof. apply ContainsChar_app. Qed.

Lemma split_at_nonempty c s : split_at c s ≠ [].
Proof. destruct s as [|a s]; cbn; [done|]. case_decide; [done|]. by destruct (split_at c s). Qed.

Lemma split_at_cons c s : ∃ e l, split_at c s = e :: l.
Proof. pose proof (split_at_nonempty c s). destruct (split_at c s); [done|eauto]. Qed.

Lemma split_at_elem c s e : e ∈ split_at c s → contains_byte c e = false.
Proof.
  revert e. induction s as [|a s IH]; intros e; cbn.
  - by intros ->%list_elem_of_singleton.
  - case_decide as Ha.
    + intros [->|]%elem_of_cons; [done|]. by apply IH.
    + destruct (split_at_cons c s) as (e' & l & E). rewrite E in *. intros [->|]%elem_of_cons.
      * rewrite contains_byte_cons, bool_decide_false by done. apply IH. left.
      * apply IH. by right.
Qed.

Lemma split_at_none c s : contains_byte c s = false → split_at c s = [s].
Proof.
  induction s as [|a s IH]; [done|]. rewrite contains_byte_cons. intros [Ha Hs]%orb_false_iff.
  apply bool_decide_eq_false in Ha. cbn. by rewrite decide_False, IH.
Qed.

Lemma split_at_app c s t : split_at c (s +:+ String c t) = split_at c s ++ split_at c t.
Proof.
  induction s as [|a s IH].
  { change ("" +:+ String c t) with (String c t). cbn [split_at].
    by rewrite decide_True. }
  rewrite string_app_cons. cbn [split_at].
  rewrite IH. case_decide; [done|]. by destruct (split_at_cons c s) as (e & l & ->).
Qed.

Lemma join_with_cons c e l : l ≠ [] → join_with c (e :: l) = e +:+ String c (join_with c l).
Proof. by destruct l. Qed.

Lemma join_split c s : join_with c (split_at c s) = s.
Proof.
  induction s as [|a s IH]; [done|]. cbn. case_decide as Ha.
  - rewrite join_with_cons by apply split_at_nonempty. by rewrite IH, Ha.
  - destruct (split_at_cons c s) as (e & l & E). rewrite E in *. rewrite <-IH. by destruct l.
Qed.

Lemma split_join c l : l ≠ [] → Forall (λ e, contains_byte c e = false) l → split_at c (join_with c l) = l.
Proof.
  induction l as [|e l IH]; [done|]. intros _ [He Hl]%Forall_cons. destruct l as [|e' l]; [by apply split_at_none|].
  by rewrite join_with_cons, split_at_app, IH, split_at_none.
Qed.

Lemma join_with_app c l1 l2 : l1 ≠ [] → l2 ≠ [] → join_with c (l1 ++ l2) = join_with c l1 +:+ String c (join_with c l2).
Proof.
  induction l1 as [|e l1 IH]; [done|]. intros _ H2. destruct l1 as [|e' l1]; [by cbn [app]; rewrite join_with_cons|].
  rewrite <-app_comm_cons, !join_with_cons by done. rewrite IH by done. by rewrite string_app_assoc, string_app_cons.
Qed.

Lemma replace_byte_app a b s t : replace_byte a b (s +:+ t) = replace_byte a b s +:+ replace_byte a b t.
Proof. induction s as [|c s IH]; [done|]. rewrite !string_app_cons. cbn. by rewrite IH, string_app_cons. Qed.

Lemma replace_byte_id a b s : contains_byte a s = false → replace_byte a b s = s.
Proof.
  induction s as [|c s IH]; [done|]. rewrite contains_byte_cons. intros [Hc Hs]%orb_false_iff.
  apply bool_decide_eq_false in Hc. cbn. by rewrite decide_False, IH.
Qed.

Lemma replace_byte_none a b s : a ≠ b → contains_byte a (replace_byte a b s) = false.
Proof.
  intros Hab. induction s as [|c s IH]; [done|]. cbn [replace_byte]. rewrite contains_byte_cons, IH, orb_false_r.
  apply bool_decide_eq_false. case_decide; congruence.
Qed.

(** Replacing back what was replaced. *)
Lemma replace_byte_back a b s : contains_byte b s = false → replace_byte b a (replace_byte a b s) = s.
Proof.
  induction s as [|c s IH]; [done|]. rewrite contains_byte_cons. intros [Hc Hs]%orb_false_iff.
  apply bool_decide_eq_false in Hc. cbn. rewrite IH by done. f_equal. repeat case_decide; congruence.
Qed.

Lemma replace_byte_contains a b c s : c ≠ a → c ≠ b → contains_byte c (replace_byte a b s) = contains_byte c s.
Proof.
  intros Ha Hb. induction s as [|d s IH]; [done|]. cbn [replace_byte]. rewrite !contains_byte_cons, IH. f_equal.
  apply bool_decide_ext. case_decide; subst; split; intros; congruence.
Qed.

Lemma before_last_None c s : before_last c s = None ↔ contains_byte c s = false.
Proof.
  induction s as [|a s IH]; [done|]. cbn [before_last]. rewrite contains_byte_cons, orb_false_iff, bool_decide_eq_false.
  destruct (before_last c s) as [p|].
  - split; [done|]. intros [_ Hs]. by apply IH in Hs.
  - case_decide; [naive_solver|]. rewrite <-IH. naive_solver.
Qed.

Lemma before_last_app c s t : contains_byte c t = false → before_last c (s +:+ String c t) = Some s.
Proof.
  intros Ht%before_last_None. induction s as [|a s IH]; [|by rewrite string_app_cons; cbn [before_last]; rewrite IH].
  change ("" +:+ String c t) with (String c t). cbn [before_last]. by rewrite Ht, decide_True.
Qed.

Lemma split_n_length c n s : 0 < n → length (split_n c n s) = length (split_at c s) `min` n.
Proof.
  revert s. induction n as [|n IH]; intros s Hn; [lia|]. destruct n as [|n].
  - destruct (split_at_cons c s) as (e & l & E). cbn. rewrite E. cbn. lia.
  - change (split_n c (S (S n)) s) with (match split_at c s with [] | [_] => [s] | e :: l => e :: split_n c (S n) (join_with c l) end).
    destruct (split_at c s) as [|e [|e' l]] eqn:E; [by apply split_at_nonempty in E|done|].
    cbn [length]. rewrite IH by lia. rewrite split_join; [cbn; lia|done|].
    apply Forall_forall. intros x Hx. apply (split_at_elem c s). rewrite E. by right.
Qed.

Lemma string_prefix_cons a p c s : String.prefix (String a p) (String c s) = bool_decide (a = c) && String.prefix p s.
Proof.
  change (String.prefix (String a p) (String c s)) with (if ascii_dec a c then String.prefix p s else false).
  destruct (ascii_dec a c); [by rewrite bool_decide_true|by rewrite bool_decide_false].
Qed.

(** * Splitting at a string *)

(** What follows of a byte of a part. *)
Definition cons_head (c : ascii) (l : list string) : list string :=
  match l with [] => [String c ""] | e :: l => String c e :: l end.

(** [skip] bytes of a separator are still to be passed over. *)
Fixpoint split_sep (sep : string) (skip : nat) (s : string) : list string :=
  match s with
  | EmptyString => [""]
  | String c s' =>
      match skip with
      | S k => split_sep sep k s'
      | O => if String.prefix sep s then "" :: split_sep sep (String.length sep - 1) s' else cons_head c (split_sep sep 0 s')
      end
  end.

(** The length of the UTF-8 sequence at the start, and 1 when there is none. *)
Definition byte_in (lo hi : nat) (c : option ascii) : bool :=
  match c with Some c => bool_decide (lo ≤ nat_of_ascii c ∧ nat_of_ascii c ≤ hi) | None => false end.
Definition rune_length (s : string) : nat :=
  let at_ n := String.get n s in
  let cont n := byte_in 128 191 (at_ n) in
  if byte_in 194 223 (at_ 0) && cont 1 then 2
  else if ((byte_in 224 224 (at_ 0) && byte_in 160 191 (at_ 1)) || (byte_in 225 236 (at_ 0) && cont 1) ||
           (byte_in 237 237 (at_ 0) && byte_in 128 159 (at_ 1)) || (byte_in 238 239 (at_ 0) && cont 1)) && cont 2 then 3
  else if ((byte_in 240 240 (at_ 0) && byte_in 144 191 (at_ 1)) || (byte_in 241 243 (at_ 0) && cont 1) ||
           (byte_in 244 244 (at_ 0) && byte_in 128 143 (at_ 1))) && cont 2 && cont 3 then 4
  else 1.

(** [left] bytes of a rune are still to come. *)
Fixpoint explode (left : nat) (s : string) : list string :=
  match s with
  | EmptyString => []
  | String c s' =>
      match left with
      | S (S k) => cons_head c (explode (S k) s')
      | 1 => String c "" :: explode 0 s'
      | O => match rune_length s with
             | S (S k) => cons_head c (explode (S k) s')
             | _ => String c "" :: explode 0 s'
             end
      end
  end.

(** [strings.Split] *)
Definition Split (s sep : string) : list string :=
  if decide (sep = "") then explode 0 s else split_sep sep 0 s.

(** [strings.Join] *)
Fixpoint Join_strings (l : list string) (sep : string) : string :=
  match l with
  | [] => ""
  | [e] => e
  | e :: l => e +:+ sep +:+ Join_strings l sep
  end.

Fixpoint drop_bytes (n : nat) (s : string) : string :=
  match n, s with
  | S n, String _ s => drop_bytes n s
  | _, _ => s
  end.

Lemma cons_head_join c l sep : l ≠ [] → Join_strings (cons_head c l) sep = String c (Join_strings l sep).
Proof. destruct l as [|e l]; [done|]. by destruct l. Qed.

Lemma split_sep_nonempty sep skip s : split_sep sep skip s ≠ [].
Proof.
  revert skip. induction s as [|c s IH]; intros skip; [done|]. cbn [split_sep]. destruct skip; [|apply IH].
  destruct (String.prefix _ _); [done|]. by destruct (split_sep sep 0 s).
Qed.

Lemma prefix_drop sep s : String.prefix sep s = true → s = sep +:+ drop_bytes (String.length sep) s.
Proof.
  revert s. induction sep as [|a sep IH]; intros s; [by destruct s|]. destruct s as [|c s]; [done|].
  rewrite string_prefix_cons. intros [<-%bool_decide_eq_true Hp]%andb_true_iff. rewrite string_app_cons. cbn. by rewrite <-IH.
Qed.

Lemma Join_split_sep sep skip s : sep ≠ "" → Join_strings (split_sep sep skip s) sep = drop_bytes skip s.
Proof.
  intros Hs. revert skip. induction s as [|c s IH]; intros skip; [by destruct skip|]. cbn [split_sep]. destruct skip as [|k]; [|apply IH].
  destruct (String.prefix sep (String c s)) eqn:E.
  - destruct (split_sep sep (String.length sep - 1) s) as [|e l] eqn:El; [by apply split_sep_nonempty in El|].
    change (Join_strings ("" :: e :: l) sep) with (sep +:+ Join_strings (e :: l) sep). rewrite <-El, IH. apply prefix_drop in E.
    cbn [drop_bytes]. rewrite E. f_equal. destruct sep as [|a sep]; [done|]. cbn [String.length]. by rewrite Nat.sub_succ, Nat.sub_0_r.
  - rewrite cons_head_join by apply split_sep_nonempty. by rewrite IH.
Qed.

Lemma Join_explode left s : Join_strings (explode left s) "" = s.
Proof.
  assert (∀ c l, Join_strings (cons_head c l) "" = String c (Join_strings l "")) as Hc by (intros c [|e [|e' l]]; done).
  assert (∀ c l, Join_strings (String c "" :: l) "" = String c (Join_strings l "")) as Ho by (intros c [|e l]; done).
  revert left. induction s as [|c s IH]; intros left; [done|]. cbn [explode].
  destruct left as [|[|k]]; [destruct (rune_length _) as [|[|k]]|..]; by rewrite ?Hc, ?Ho, IH.
Qed.

(** Joining undoes splitting, for every separator. *)
Lemma Join_Split s sep : Join_strings (Split s sep) sep = s.
Proof.
  unfold Split. case_decide as Hs; [subst; apply Join_explode|]. by apply Join_split_sep.
Qed.
