(* ===== verification/CelPath.v ===== *)
(** Path functions of conditions: [src/internal/conditions/crosspath/crosspath.go] and
    [pathHasPrefix], [pathMatchAnyOf] of [src/internal/conditions/cerbos_lib.go].

    Paths of Windows are encoded as paths of Unix, on which package
    [path/filepath] works.  Its functions are defined by what their documentation
    says of Unix paths; shell patterns ([filepath.Match]) are the parameter
    [ShellPattern]. *)
From S2P Require Import Prelude Namer GoStrings.

Local Open Scope string_scope.
Local Open Scope list_scope.
Open Scope nat_scope.

Abbreviation slash := "/"%char (only parsing).
Abbreviation backslash := "\"%char (only parsing).

(** * Package [path/filepath] on Unix *)

Definition is_abs (path : string) : bool := String.prefix "/" path.

(** One element of a path after those already kept, the last first. *)
Definition clean_step (rooted : bool) (out : list string) (e : string) : list string :=
  if decide (e = "" ∨ e = ".") then out
  else if decide (e = "..") then
    match out with
    | [] => if rooted then [] else [".."]
    | d :: rest => if decide (d = "..") then ".." :: out else rest
    end
  else e :: out.
Definition elements (path : string) : list string :=
  rev (foldl (clean_step (is_abs path)) [] (split_at slash path)).
Definition render (rooted : bool) (l : list string) : string :=
  if rooted then "/" +:+ join_with slash l
  else match l with [] => "." | _ => join_with slash l end.
Definition filepath_Clean (path : string) : string := render (is_abs path) (elements path).

(** The last element, without the slashes at the end. *)
Definition filepath_Base (path : string) : string :=
  if decide (path = "") then "." else default "/" (last (filter (λ e, e ≠ "") (split_at slash path))).

Definition filepath_Dir (path : string) : string :=
  filepath_Clean (match before_last slash path with Some dir => dir +:+ "/" | None => "" end).

(** The suffix beginning at the last dot of the last element. *)
Fixpoint from_last_dot (s : string) : option string :=
  match s with
  | EmptyString => None
  | String c s' =>
      match from_last_dot s' with
      | Some ext => Some ext
      | None => if decide (c = "."%char) then Some s else None
      end
  end.
Definition filepath_Ext (path : string) : string :=
  default "" (last (split_at slash path) ≫= from_last_dot).

Fixpoint filepath_Join (elem : list string) : string :=
  match elem with
  | [] => ""
  | e :: rest => if decide (e = "") then filepath_Join rest else filepath_Clean (join_with slash elem)
  end.

Inductive PathErr := ErrUnsupportedWin32Path | ErrRel | ErrBadPattern.

(** What is left of two lists after their common beginning. *)
Fixpoint strip_common (b t : list string) : list string * list string :=
  match b, t with
  | x :: b', y :: t' => if decide (x = y) then strip_common b' t' else (b, t)
  | _, _ => (b, t)
  end.
Definition filepath_Rel (basePath targPath : string) : string + PathErr :=
  if decide (is_abs basePath = is_abs targPath) then
    let '(b, t) := strip_common (elements basePath) (elements targPath) in
    if decide (head b = Some "..") then inr ErrRel
    else inl (render false (((λ _, "..") <$> b) ++ t))
  else inr ErrRel.

Class ShellPattern := filepath_Match : string → string → bool + PathErr.

(** * Encoded paths *)

Inductive PathKind := KindUnknown | KindDrive | KindUNC.
#[export] Instance PathKind_eq_dec : EqDecision PathKind.
Proof. solve_decision. Defined.

Record Encoded := MkEncoded { value : string; kind : PathKind; win32 : bool; root : bool }.
Definition set_value (e : Encoded) (v : string) : Encoded := MkEncoded v (kind e) (win32 e) (root e).

Definition validDriveLetter (letter : ascii) : bool := in_range "a" "z" letter || in_range "A" "Z" letter.
Definition isUNCPath (path : string) : bool := String.prefix "\\" path.
Definition isDrivePath (path : string) : bool :=
  match path with String l (String c _) => validDriveLetter l && bool_decide (c = ":"%char) | _ => false end.
Definition toSlash (path : string) : string := replace_byte backslash slash path.
Definition toBackslash (path : string) : string := replace_byte slash backslash path.

(** [path[2:]], of a path that has two bytes. *)
Definition drop_two (path : string) : string := String.substring 2 (String.length path - 2) path.
Definition noOfPartsInUNCPaths : nat := 3.

Definition Encode (path : string) : Encoded + PathErr :=
  let win32 := contains_byte backslash path in
  if isUNCPath path then
    inl (MkEncoded (filepath_Clean (toSlash path)) KindUNC win32
           (bool_decide (length (split_n backslash noOfPartsInUNCPaths (drop_two path)) = 2)))
  else if isDrivePath path then
    if negb win32 && bool_decide (2 < String.length path) then inr ErrUnsupportedWin32Path
    else inl (MkEncoded (filepath_Clean (toSlash ("\" +:+ path))) KindDrive win32
                (bool_decide (String.length path = 2 ∨ String.length path = 3)))
  else
    inl (MkEncoded (filepath_Clean (if win32 then toSlash path else path)) KindUnknown win32
           (negb win32 && bool_decide (path = "/"))).

Definition Decode (encoded : Encoded) : string :=
  match kind encoded with
  | KindUNC => "\" +:+ toBackslash (value encoded)
  | KindDrive => TrimPrefix (toBackslash (value encoded)) "\"
  | KindUnknown => if win32 encoded then toBackslash (value encoded) else value encoded
  end.

(** * Functions of paths *)

(** Running the rest on an encoded path. *)
Definition encoded {A} (path : string) (k : Encoded → A + PathErr) : A + PathErr :=
  match Encode path with inl e => k e | inr err => inr err end.

Definition Base (path : string) : string + PathErr := encoded path (λ e, inl (filepath_Base (value e))).
Definition Ext (path : string) : string + PathErr := encoded path (λ e, inl (filepath_Ext (value e))).

(** [None]: a slice of a string up to a negative index panics. *)
Definition Dir (path : string) : option (string + PathErr) :=
  match Encode path with
  | inr err => Some (inr err)
  | inl e =>
      let up := v ← before_last slash (value e); Some (inl (Decode (set_value e v))) in
      match kind e with
      | KindUNC => if root e then Some (inl (Decode e)) else up
      | KindDrive => if root e then Some (inl (Decode e +:+ "\")) else up
      | KindUnknown => if win32 e then up else Some (inl (Decode (set_value e (filepath_Dir (value e)))))
      end
  end.

Definition join_path (result : Encoded + PathErr) (path : string) : Encoded + PathErr :=
  match result with
  | inl r => encoded path (λ e, inl (set_value r (filepath_Join [value r; value e])))
  | inr err => inr err
  end.
Definition Join (paths : list string) : string + PathErr :=
  match paths with
  | [] => inl ""
  | [path] => inl path
  | path :: paths =>
      match foldl join_path (Encode path) paths with
      | inl result => inl (Decode result)
      | inr err => inr err
      end
  end.

Definition Rel (basePath targetPath : string) : string + PathErr :=
  encoded basePath (λ base, encoded targetPath (λ target,
    match filepath_Rel (value base) (value target) with
    | inr err => inr err
    | inl rel =>
        if decide (rel = "." ∨ rel = "..") then inl rel
        else if decide (kind target = KindUNC ∧ String.prefix "\" rel = false) then inl (toBackslash rel)
        else inl (Decode (set_value target rel))
    end)).

(** The share of a UNC path has a host and a name. *)
Definition VolumeName (path : string) : string :=
  if isUNCPath path then
    match split_n backslash noOfPartsInUNCPaths (drop_two path) with
    | host :: share :: _ => if decide (host ≠ "" ∧ share ≠ "") then "\\" +:+ host +:+ "\" +:+ share else ""
    | _ => ""
    end
  else if isDrivePath path then String.substring 0 2 path
  else "".

Section patterns.
Context `{ShellPattern}.

Definition Match (path pattern : string) : bool + PathErr :=
  encoded path (λ encodedPath, encoded pattern (λ encodedPattern, filepath_Match (value encodedPattern) (value encodedPath))).

(** The first pattern that matches, or does not parse, ends the loop. *)
Fixpoint pathMatchAnyOf (path : string) (patterns : list string) : bool + PathErr :=
  match patterns with
  | [] => inl false
  | pattern :: patterns =>
      match Match path pattern with
      | inr err => inr err
      | inl true => inl true
      | inl false => pathMatchAnyOf path patterns
      end
  end.
End patterns.

Definition pathHasPrefix (path prefix : string) : bool + PathErr :=
  if decide (prefix = path) then inl true
  else match Rel prefix path with
       | inr err => inr err
       | inl rel => inl match rel with
                        | EmptyString => false
                        | String c _ => bool_decide (c ≠ "."%char ∧ c ≠ slash)
                        end
       end.

(** * What paths mean

    What paths mean: a path is a list of elements from the root or from where one
    is, cleaning keeps it, and relative paths lead to their targets. *)

Implicit Types (out l : list string) (p : string).

(** * Clean paths *)

Definition plain (e : string) : Prop := e ≠ "" ∧ e ≠ "." ∧ contains_byte slash e = false.

(** The elements kept, the last first: going up comes before everything else, and
    not from the root. *)
Fixpoint stack_ok (rooted : bool) out : Prop :=
  match out with
  | [] => True
  | d :: out => plain d ∧ (d = ".." → rooted = false ∧ Forall (λ e, e = "..") out) ∧ stack_ok rooted out
  end.
Definition clean (rooted : bool) l : Prop := stack_ok rooted (rev l).

Lemma plain_up : plain "..".
Proof. done. Qed.

Lemma stack_ok_app rooted out1 out2 : stack_ok rooted (out1 ++ out2) → stack_ok rooted out1 ∧ stack_ok rooted out2.
Proof.
  induction out1 as [|d out1 IH]; [done|]. cbn. intros (Hd & Hup & Hs). destruct (IH Hs) as [H1 H2].
  split_and!; try done. intros E. destruct (Hup E) as [? Hf]. split; [done|]. by apply Forall_app in Hf as [? _].
Qed.

Lemma stack_ok_plain rooted out e : stack_ok rooted out → e ∈ out → plain e.
Proof.
  induction out as [|d out IH]; [by intros _ ?%elem_of_nil|]. cbn. intros (? & _ & ?) [->|]%elem_of_cons; auto.
Qed.

Lemma clean_plain rooted l e : clean rooted l → e ∈ l → plain e.
Proof. intros Hc He. apply (stack_ok_plain rooted (rev l)); [done|]. rewrite list_elem_of_In, <-in_rev. by apply list_elem_of_In. Qed.

Lemma clean_app rooted l1 l2 : clean rooted (l1 ++ l2) → clean rooted l1 ∧ clean rooted l2.
Proof. unfold clean. rewrite rev_app_distr. intros [? ?]%stack_ok_app. done. Qed.

Lemma clean_step_ok rooted out e :
  stack_ok rooted out → contains_byte slash e = false → stack_ok rooted (clean_step rooted out e).
Proof.
  intros Hs He. unfold clean_step. case_decide as Hd; [done|]. case_decide as Hu.
  - subst e. destruct out as [|d out].
    + destruct rooted; [done|]. cbn. split_and!; done.
    + cbn in Hs. destruct Hs as (Hp & Hup & Hs). case_decide as E; [|done]. subst d. destruct (Hup eq_refl) as [-> Hf].
      cbn. split_and!; try done. intros _. split; [done|]. by constructor.
  - cbn. split_and!; try done. split_and!; [tauto..|done].
Qed.

Lemma foldl_clean_ok rooted l out :
  stack_ok rooted out → Forall (λ e, contains_byte slash e = false) l → stack_ok rooted (foldl (clean_step rooted) out l).
Proof.
  revert out. induction l as [|e l IH]; intros out Hs; [done|]. intros [He Hl]%Forall_cons. cbn.
  apply IH; [|done]. by apply clean_step_ok.
Qed.

Lemma elements_clean p : clean (is_abs p) (elements p).
Proof.
  unfold clean, elements. rewrite rev_involutive. apply foldl_clean_ok; [done|].
  apply Forall_forall. intros e. apply split_at_elem.
Qed.

Lemma clean_step_push rooted out e : stack_ok rooted (e :: out) → clean_step rooted out e = e :: out.
Proof.
  cbn. intros ((He & Hd & _) & Hup & _). unfold clean_step. rewrite decide_False by tauto. case_decide as E; [|done].
  subst e. destruct (Hup eq_refl) as [-> Hf]. destruct out as [|d out]; [done|]. apply Forall_cons in Hf as [-> _]. by rewrite decide_True.
Qed.

(** Elements that are clean on top of others are kept as they are. *)
Lemma foldl_clean_push rooted l out : stack_ok rooted (rev l ++ out) → foldl (clean_step rooted) out l = rev l ++ out.
Proof.
  revert out. induction l as [|e l IH]; intros out; [done|]. cbn. rewrite <-app_assoc. cbn. intros Hs.
  pose proof (stack_ok_app _ _ _ Hs) as [_ He]. rewrite (clean_step_push _ _ _ He). by apply IH.
Qed.

Lemma foldl_clean_dot rooted out : foldl (clean_step rooted) out ["."] = out.
Proof. done. Qed.

(** * Rendering *)

Lemma is_abs_cons c s : is_abs (String c s) = bool_decide (c = slash).
Proof. unfold is_abs. rewrite string_prefix_cons. replace (String.prefix "" s) with true by (by destruct s). rewrite andb_true_r. by apply bool_decide_ext. Qed.

Lemma plain_cons e : plain e → ∃ c s, e = String c s ∧ c ≠ slash.
Proof.
  intros (He & _ & Hs). destruct e as [|c s]; [done|]. rewrite contains_byte_cons in Hs.
  apply orb_false_iff in Hs as [Hc%bool_decide_eq_false _]. eauto.
Qed.

Lemma join_head e l : ∃ s, join_with slash (e :: l) = e +:+ s.
Proof. destruct l; [by exists ""; rewrite string_app_nil_r|by eexists]. Qed.

Lemma is_abs_join l : Forall plain l → is_abs (join_with slash l) = false.
Proof.
  destruct l as [|e l]; [done|]. intros [He _]%Forall_cons. destruct (plain_cons e He) as (c & s & -> & Hc).
  destruct (join_head (String c s) l) as [s' ->]. rewrite string_app_cons, is_abs_cons. by apply bool_decide_eq_false.
Qed.

Lemma clean_Forall rooted l : clean rooted l → Forall plain l.
Proof. intros Hc. apply Forall_forall. intros e. by apply clean_plain with rooted. Qed.

Lemma is_abs_render rooted l : Forall plain l → is_abs (render rooted l) = rooted.
Proof. intros Hl. unfold render. destruct rooted; [by apply is_abs_cons|]. destruct l; [done|]. by apply is_abs_join. Qed.

(** Folding the elements of a rendered relative path over others. *)
Lemma foldl_render_rel rooted out l :
  Forall plain l → foldl (clean_step rooted) out (split_at slash (render false l)) = foldl (clean_step rooted) out l.
Proof.
  intros Hl. unfold render. destruct l as [|e l]; [done|]. rewrite split_join; [done|done|].
  eapply Forall_impl; [exact Hl|]. by intros ? (_ & _ & ?).
Qed.

Lemma foldl_slash rooted out p : foldl (clean_step rooted) out (split_at slash ("/" +:+ p)) = foldl (clean_step rooted) out (split_at slash p).
Proof. change ("/" +:+ p) with (String slash p). cbn [split_at]. by rewrite decide_True. Qed.

Lemma elements_render rooted l : clean rooted l → elements (render rooted l) = l.
Proof.
  intros Hc. pose proof (clean_Forall _ _ Hc) as Hl. unfold elements. rewrite (is_abs_render rooted l Hl).
  assert (foldl (clean_step rooted) [] (split_at slash (render rooted l)) = foldl (clean_step rooted) [] l) as ->.
  { destruct rooted; [|by apply foldl_render_rel]. unfold render. rewrite foldl_slash.
    destruct l as [|e l]; [done|]. rewrite split_join; [done|done|]. eapply Forall_impl; [exact Hl|]. by intros ? (_ & _ & ?). }
  rewrite foldl_clean_push by (rewrite app_nil_r; done). by rewrite app_nil_r, rev_involutive.
Qed.

Lemma is_abs_Clean p : is_abs (filepath_Clean p) = is_abs p.
Proof. apply is_abs_render, (clean_Forall (is_abs p)), elements_clean. Qed.
Lemma elements_Clean p : elements (filepath_Clean p) = elements p.
Proof. apply elements_render, elements_clean. Qed.
Lemma Clean_Clean p : filepath_Clean (filepath_Clean p) = filepath_Clean p.
Proof. unfold filepath_Clean at 1. by rewrite is_abs_Clean, elements_Clean. Qed.
Lemma render_nonempty rooted l : Forall plain l → render rooted l ≠ "".
Proof.
  intros Hl. unfold render. destruct rooted; [done|]. destruct l as [|e l]; [done|]. apply Forall_cons in Hl as [He _].
  destruct (plain_cons e He) as (c & s & -> & _). by destruct (join_head (String c s) l) as [s' ->].
Qed.
Lemma Clean_nonempty p : filepath_Clean p ≠ "".
Proof. apply render_nonempty, (clean_Forall (is_abs p)), elements_clean. Qed.

(** * Joining *)

Lemma is_abs_app p s : p ≠ "" → is_abs (p +:+ s) = is_abs p.
Proof. destruct p as [|c p]; [done|]. intros _. by rewrite string_app_cons, !is_abs_cons. Qed.

Lemma elements_app p s :
  p ≠ "" → elements (p +:+ "/" +:+ s) = rev (foldl (clean_step (is_abs p)) (rev (elements p)) (split_at slash s)).
Proof.
  intros Hp. unfold elements. rewrite is_abs_app by done. rewrite rev_involutive.
  change ("/" +:+ s) with (String slash s). by rewrite split_at_app, foldl_app.
Qed.

Lemma filepath_Join_two p s : p ≠ "" → filepath_Join [p; s] = filepath_Clean (p +:+ "/" +:+ s).
Proof. intros Hp. cbn [filepath_Join]. by rewrite decide_False. Qed.

(** * Relative paths *)

Lemma strip_common_spec b t bs ts :
  strip_common b t = (bs, ts) → ∃ c, b = c ++ bs ∧ t = c ++ ts ∧ (∀ x y, head bs = Some x → head ts = Some y → x ≠ y).
Proof.
  revert t. induction b as [|x b IH]; intros t; cbn.
  - intros [= <- <-]. by exists [].
  - destruct t as [|y t]; [intros [= <- <-]; by exists []|]. case_decide as Hx.
    + subst y. intros (c & -> & -> & Hd)%IH. by exists (x :: c).
    + intros [= <- <-]. exists []. split_and!; [done..|]. by intros ?? [= <-] [= <-].
Qed.

Lemma ups_eq {A} (l : list A) : (λ _, "..") <$> l = replicate (length l) "..".
Proof. induction l as [|x l IH]; [done|]. cbn. by rewrite IH. Qed.

(** Going up as often as there are elements that do not go up themselves. *)
Lemma foldl_clean_pop rooted bs out :
  Forall (λ e, e ≠ "..") bs → foldl (clean_step rooted) (bs ++ out) (replicate (length bs) "..") = out.
Proof.
  induction bs as [|d bs IH]; [done|]. intros [Hd Hbs]%Forall_cons. cbn [length replicate foldl app].
  unfold clean_step at 2. rewrite decide_False by (intros [|]; done). rewrite decide_True by done. rewrite decide_False by done. by apply IH.
Qed.

(** In a clean path nothing goes up after an element that does not. *)
Lemma stack_ok_no_up rooted out : stack_ok rooted out → last out ≠ Some ".." → Forall (λ e, e ≠ "..") out.
Proof.
  induction out as [|d out IH]; [done|]. cbn [stack_ok]. intros (_ & Hup & Hs) Hl.
  destruct (decide (d = "..")) as [->|Hd].
  - destruct (Hup eq_refl) as [_ Hf]. exfalso. apply Hl. destruct out as [|e out]; [done|].
    rewrite last_cons. destruct (last (e :: out)) as [x|] eqn:E; [|done]. apply last_Some_elem_of in E.
    f_equal. by eapply Forall_forall in Hf.
  - constructor; [done|]. apply IH; [done|]. intros E. apply Hl. by rewrite last_cons, E.
Qed.

Lemma clean_no_up rooted c bs : clean rooted (c ++ bs) → head bs ≠ Some ".." → Forall (λ e, e ≠ "..") bs.
Proof.
  intros [_ Hb]%clean_app Hh. apply Forall_forall. intros e He.
  assert (Forall (λ e, e ≠ "..") (rev bs)) as Hf.
  { apply (stack_ok_no_up rooted); [done|]. destruct bs as [|x bs]; [done|]. cbn [rev]. by rewrite last_snoc. }
  eapply Forall_forall in Hf; [exact Hf|]. rewrite list_elem_of_In, <-in_rev. by apply list_elem_of_In.
Qed.

Definition relative (b t : list string) (rel : list string) : Prop :=
  ∃ c bs ts, b = c ++ bs ∧ t = c ++ ts ∧ (head bs ≠ Some ".." ∧ ∀ x y, head bs = Some x → head ts = Some y → x ≠ y) ∧
    rel = replicate (length bs) ".." ++ ts.

Lemma filepath_Rel_inl b t r :
  filepath_Rel b t = inl r → is_abs b = is_abs t ∧ ∃ rel, relative (elements b) (elements t) rel ∧ r = render false rel.
Proof.
  unfold filepath_Rel. case_decide as Ha; [|done]. destruct (strip_common _ _) as [bs ts] eqn:E.
  case_decide as Hh; [done|]. intros [= <-]. split; [done|]. apply strip_common_spec in E as (c & Hb & Ht & Hd).
  eexists. split; [by exists c, bs, ts|]. by rewrite ups_eq.
Qed.

Lemma stack_ok_ups n : stack_ok false (replicate n "..").
Proof.
  induction n as [|n IH]; [done|]. cbn. split_and!; [done| |done]. intros _. split; [done|].
  clear. induction n; by constructor.
Qed.

Lemma stack_ok_relative rooted out : stack_ok rooted out → stack_ok false out.
Proof. induction out as [|d out IH]; [done|]. cbn. intros (? & Hup & ?). split_and!; [done| |auto]. intros E. split; [done|]. by apply Hup. Qed.

Lemma stack_ok_on_ups n out : stack_ok false out → stack_ok false (out ++ replicate n "..").
Proof.
  induction out as [|d out IH]; [intros _; apply stack_ok_ups|]. cbn. intros (? & Hup & ?). split_and!; [done| |auto].
  intros E. split; [done|]. apply Forall_app. split; [by apply Hup|]. clear. induction n; by constructor.
Qed.

Lemma rev_replicate {A} n (x : A) : rev (replicate n x) = replicate n x.
Proof. induction n as [|n IH]; [done|]. cbn. rewrite IH. clear. induction n as [|n IH]; [done|]. cbn. by rewrite IH. Qed.

Lemma relative_clean rooted b t rel : clean rooted t → relative b t rel → clean false rel.
Proof.
  intros Ht (c & bs & ts & -> & -> & _ & ->). apply clean_app in Ht as [_ Ht]. unfold clean in *.
  rewrite rev_app_distr, rev_replicate. apply stack_ok_on_ups. by eapply stack_ok_relative.
Qed.

(** Following a relative path leads to its target. *)
Lemma relative_leads rooted b t rel :
  clean rooted b → clean rooted t → relative b t rel → foldl (clean_step rooted) (rev b) rel = rev t.
Proof.
  intros Hb Ht (c & bs & ts & -> & -> & [Hh _] & ->). rewrite foldl_app, rev_app_distr.
  rewrite <-(length_rev bs). rewrite foldl_clean_pop.
  - unfold clean in Ht. rewrite rev_app_distr in Ht. rewrite foldl_clean_push by done. by rewrite rev_app_distr.
  - pose proof (clean_no_up _ _ _ Hb Hh) as Hf. apply Forall_forall. intros e He. rewrite list_elem_of_In, <-in_rev, <-list_elem_of_In in He.
    by eapply Forall_forall in Hf.
Qed.

(** * Encoding *)

Lemma contains_join c l : c ≠ slash → (∀ e, e ∈ l → contains_byte c e = false) → contains_byte c (join_with slash l) = false.
Proof.
  intros Hc. induction l as [|e l IH]; [done|]. intros Hl. destruct l as [|e' l]; [apply Hl; left|].
  rewrite join_with_cons by done. rewrite contains_byte_app, contains_byte_cons, bool_decide_false by done.
  rewrite (Hl e) by left. cbn [orb]. apply IH. intros x Hx. apply Hl. by right.
Qed.

Lemma foldl_clean_bytes c rooted l out :
  c ≠ "."%char → Forall (λ e, contains_byte c e = false) l → Forall (λ e, contains_byte c e = false) out →
  Forall (λ e, contains_byte c e = false) (foldl (clean_step rooted) out l).
Proof.
  intros Hc. revert out. induction l as [|e l IH]; intros out; [done|]. intros [He Hl]%Forall_cons Ho. cbn. apply IH; [done|].
  assert (contains_byte c ".." = false) by (rewrite !contains_byte_cons, !bool_decide_false by done; done).
  unfold clean_step. case_decide; [done|]. case_decide; [|by constructor].
  destruct out as [|d out]; [destruct rooted; by constructor|]. case_decide; [by constructor|]. by apply Forall_cons in Ho as [_ ?].
Qed.

Lemma split_at_bytes c d p : contains_byte c p = false → Forall (λ e, contains_byte c e = false) (split_at d p).
Proof.
  induction p as [|a p IH]; [by repeat constructor|]. rewrite contains_byte_cons. intros [Ha Hp]%orb_false_iff. cbn [split_at].
  specialize (IH Hp). destruct (decide (a = d)); [by constructor|]. destruct (split_at_cons d p) as (e & l & E). rewrite E in *.
  apply Forall_cons in IH as [He Hl]. constructor; [|done]. by rewrite contains_byte_cons, Ha, He.
Qed.

Lemma elements_bytes c p : c ≠ "."%char → contains_byte c p = false → ∀ e, e ∈ elements p → contains_byte c e = false.
Proof.
  intros Hc Hp e He. unfold elements in He. rewrite list_elem_of_In, <-in_rev, <-list_elem_of_In in He. revert e He. apply Forall_forall.
  apply foldl_clean_bytes; [done| |done]. by apply split_at_bytes.
Qed.

Lemma contains_render c rooted l : c ≠ slash → c ≠ "."%char → (∀ e, e ∈ l → contains_byte c e = false) → contains_byte c (render rooted l) = false.
Proof.
  intros Hs Hd Hl. unfold render. pose proof (contains_join c l Hs Hl) as Hj. destruct rooted.
  - change ("/" +:+ ?x) with (String slash x). by rewrite contains_byte_cons, Hj, bool_decide_false.
  - destruct l; [|done]. by rewrite contains_byte_cons, bool_decide_false.
Qed.

(** What is encoded is a clean path without backslashes. *)
Lemma Encode_value p e : Encode p = inl e → value e = filepath_Clean (value e) ∧ contains_byte backslash (value e) = false.
Proof.
  assert (∀ q, contains_byte backslash q = false →
    filepath_Clean q = filepath_Clean (filepath_Clean q) ∧ contains_byte backslash (filepath_Clean q) = false) as Hq.
  { intros q Hq. split; [by rewrite Clean_Clean|]. apply contains_render; [done..|]. by apply elements_bytes. }
  assert (∀ q, contains_byte backslash (toSlash q) = false) as Hs by (intros q; by apply replace_byte_none).
  unfold Encode. destruct (isUNCPath p); [intros [= <-]; by apply Hq|]. destruct (isDrivePath p).
  - destruct (_ && _); [done|]. intros [= <-]. by apply Hq.
  - intros [= <-]. apply Hq. by destruct (contains_byte backslash p) eqn:E.
Qed.

(** ** Relative paths in the style of their target *)

Section relative.
Context (l : list string) (rel : string) (Hl : clean false l) (Hrel : rel = render false l) (Hb : contains_byte backslash rel = false).

Lemma rel_first : ∃ c s, rel = String c s ∧ c ≠ slash ∧ c ≠ backslash.
Proof using Hl Hrel Hb.
  assert (∃ c s, rel = String c s ∧ c ≠ slash) as (c & s & E & Hc).
  { subst rel. unfold render. destruct l as [|e l']; [by exists "."%char, ""|].
    pose proof (clean_plain _ _ e Hl (list_elem_of_here _ _)) as He. destruct (plain_cons e He) as (c & s & -> & Hc).
    destruct (join_head (String c s) l') as [s' ->]. eauto. }
  exists c, s. split_and!; [done..|]. intros ->. rewrite E, contains_byte_cons, bool_decide_true in Hb by done. done.
Qed.

Context (r : string) (Hr : r = rel ∨ r = toBackslash rel).

Lemma restyled_first : ∃ c s, r = String c s ∧ rel = String c (toSlash s) ∧ c ≠ slash ∧ c ≠ backslash.
Proof using Hl Hrel Hb Hr.
  destruct rel_first as (c & s & E & Hc & Hc'). rewrite E, contains_byte_cons in Hb. apply orb_false_iff in Hb as [_ Hs].
  destruct Hr as [->| ->].
  - exists c, s. rewrite E. split_and!; try done. f_equal. symmetry. by apply replace_byte_id.
  - exists c, (toBackslash s). rewrite E. split_and!; try done; [cbn; by rewrite decide_False|]. f_equal. symmetry. by apply replace_byte_back.
Qed.

Lemma restyled_toSlash : toSlash r = rel.
Proof using Hl Hrel Hb Hr.
  destruct restyled_first as (c & s & -> & -> & Hc & Hc'). cbn. by rewrite decide_False.
Qed.

Lemma restyled_not_UNC : isUNCPath r = false.
Proof using Hl Hrel Hb Hr.
  destruct restyled_first as (c & s & -> & _ & _ & Hc). unfold isUNCPath. rewrite string_prefix_cons, bool_decide_false by congruence. done.
Qed.

(** The elements of a path with a drive do not go up. *)
Lemma drive_no_up : isDrivePath rel = true → clean true l.
Proof using Hl Hrel Hb Hr.
  intros Hd. unfold clean in *. assert (Forall (λ e, e ≠ "..") (rev l)) as Hn.
  { apply (stack_ok_no_up false); [done|]. destruct l as [|e l']; [done|]. cbn [rev]. rewrite last_snoc. intros [= ->].
    subst rel. unfold render in Hd. by destruct (join_head ".." l') as [s Hs]; rewrite Hs in Hd. }
  revert Hl Hn. clear. induction (rev l) as [|d out IH]; [done|]. cbn. intros (? & Hup & ?) [Hd Hn]%Forall_cons. split_and!; [done|done|auto].
Qed.

Lemma isDrivePath_restyled : isDrivePath r = isDrivePath rel.
Proof using Hl Hrel Hb Hr.
  destruct restyled_first as (c & s & -> & -> & _ & _). destruct s as [|a s]; [done|]. cbn [isDrivePath toSlash replace_byte].
  f_equal. apply bool_decide_ext. case_decide as Ha; [|done]. subst a. done.
Qed.

Definition unsupported (r : string) : Prop := isDrivePath r = true ∧ contains_byte backslash r = false ∧ 2 < String.length r.

Lemma Encode_restyled :
  match Encode r with
  | inr err => err = ErrUnsupportedWin32Path ∧ unsupported r
  | inl e => ∀ rooted out, foldl (clean_step rooted) out (split_at slash (value e)) = foldl (clean_step rooted) out l
  end.
Proof using Hl Hrel Hb Hr.
  unfold Encode. rewrite restyled_not_UNC. destruct (isDrivePath r) eqn:Hd.
  - destruct (_ && _) eqn:Hu.
    { apply andb_true_iff in Hu as [Hw Hlen%bool_decide_eq_true]. apply negb_true_iff in Hw. by split. }
    cbn [value]. intros rooted out. rewrite isDrivePath_restyled in Hd. pose proof (drive_no_up Hd) as Hc.
    replace (toSlash ("\" +:+ r)) with ("/" +:+ rel) by (rewrite <-restyled_toSlash; done).
    assert (elements ("/" +:+ rel) = l) as He.
    { unfold elements. change (is_abs ("/" +:+ rel)) with (is_abs (String slash rel)). rewrite is_abs_cons, bool_decide_true by done.
      rewrite foldl_slash, Hrel, foldl_render_rel by by apply (clean_Forall false). rewrite foldl_clean_push by (rewrite app_nil_r; done).
      by rewrite app_nil_r, rev_involutive. }
    unfold filepath_Clean. change (is_abs ("/" +:+ rel)) with (is_abs (String slash rel)). rewrite is_abs_cons, bool_decide_true by done.
    rewrite He. unfold render. rewrite foldl_slash. destruct l as [|e l'] eqn:El; [done|]. rewrite split_join; [done|done|].
    eapply Forall_impl; [by apply (clean_Forall false)|]. by intros ? (_ & _ & ?).
  - cbn [value]. intros rooted out.
    assert ((if contains_byte backslash r then toSlash r else r) = rel) as ->.
    { destruct (contains_byte backslash r) eqn:E; [apply restyled_toSlash|]. rewrite <-restyled_toSlash. symmetry. by apply replace_byte_id. }
    unfold filepath_Clean. rewrite Hrel, is_abs_render by by apply (clean_Forall false). rewrite elements_render by done.
    by apply foldl_render_rel, (clean_Forall false).
Qed.
End relative.

(** * The functions *)

Lemma value_clean p e : Encode p = inl e → clean (is_abs (value e)) (elements (value e)).
Proof. intros _. apply elements_clean. Qed.

Lemma relative_bytes b t l : relative b t l → (∀ e, e ∈ t → contains_byte backslash e = false) → contains_byte backslash (render false l) = false.
Proof.
  intros (c & bs & ts & _ & -> & _ & ->) Ht. apply contains_render; [done..|]. intros e [He|He]%elem_of_app; [|apply Ht, elem_of_app; by right].
  by apply elem_of_replicate in He as [-> _].
Qed.

Lemma toBackslash_cons c s : c ≠ slash → toBackslash (String c s) = String c (toBackslash s).
Proof. intros Hc. unfold toBackslash. cbn [replace_byte]. by rewrite decide_False. Qed.
Lemma TrimPrefix_ne a p c s : a ≠ c → TrimPrefix (String c s) (String a p) = String c s.
Proof. intros Hc. unfold TrimPrefix. cbn [strip_prefix]. by rewrite decide_False. Qed.

(** What [Rel] returns, in the style of the target. *)
Lemma Rel_inl base target eb et r :
  Encode base = inl eb → Encode target = inl et → Rel base target = inl r →
  is_abs (value eb) = is_abs (value et) ∧ ∃ l, relative (elements (value eb)) (elements (value et)) l ∧ clean false l ∧
    contains_byte backslash (render false l) = false ∧ (r = render false l ∨ r = toBackslash (render false l)).
Proof.
  intros Eb Et. unfold Rel, encoded. rewrite Eb, Et. destruct (filepath_Rel _ _) as [rel|] eqn:E; [|done].
  apply filepath_Rel_inl in E as (Ha & l & Hl & ->). intros Hr. split; [done|]. exists l.
  pose proof (relative_clean _ _ _ _ (elements_clean (value et)) Hl) as Hc.
  pose proof (Encode_value _ _ Et) as [_ Hbt].
  assert (contains_byte backslash (render false l) = false) as Hb by (eapply relative_bytes; [done|]; by apply elements_bytes).
  split_and!; try done. case_decide; [left; congruence|]. case_decide; [right; congruence|]. apply (inj inl) in Hr as <-.
  unfold Decode, set_value. cbn [kind value win32].
  destruct (kind et) eqn:Ek; [destruct (win32 et); auto|right|].
  - destruct (rel_first l _ Hc eq_refl Hb) as (c & s & -> & Hs & Hbs). by rewrite toBackslash_cons, TrimPrefix_ne by congruence.
  - exfalso. match goal with Hn : ¬ (_ ∧ _) |- _ => apply Hn end. split; [done|].
    destruct (rel_first l _ Hc eq_refl Hb) as (c & s & -> & _ & Hbs). by rewrite string_prefix_cons, bool_decide_false by congruence.
Qed.

Lemma Join_two p q ep :
  Encode p = inl ep →
  Join [p; q] = encoded q (λ eq, inl (Decode (set_value ep (filepath_Join [value ep; value eq])))).
Proof. intros E. unfold Join. cbn [foldl join_path]. rewrite E. unfold join_path, encoded. by destruct (Encode q). Qed.

Lemma Rel_joins base target eb et r :
  Encode base = inl eb → Encode target = inl et → Rel base target = inl r →
  Join [base; r] = (match Encode r with inl _ => inl (Decode (set_value eb (value et))) | inr _ => inr ErrUnsupportedWin32Path end) ∧
  (is_Some (match Encode r with inr err => Some err | inl _ => None end) → unsupported r).
Proof.
  intros Eb Et Hr. destruct (Rel_inl _ _ _ _ _ Eb Et Hr) as (Ha & l & Hl & Hc & Hb & Hs).
  pose proof (Encode_restyled l _ Hc eq_refl Hb r Hs) as He. rewrite (Join_two _ _ _ Eb). unfold encoded.
  destruct (Encode r) as [er|err]; [|destruct He as [-> Hu]; split; [done|by intros _]].
  split; [|by intros [? ?]]. do 3 f_equal. destruct (Encode_value _ _ Eb) as [Hvb _]. destruct (Encode_value _ _ Et) as [Hvt _].
  assert (value eb ≠ "") as Hne by (rewrite Hvb; apply Clean_nonempty).
  rewrite filepath_Join_two by done. rewrite Hvt. unfold filepath_Clean at 1.
  rewrite is_abs_app, elements_app by done. rewrite He.
  rewrite (relative_leads (is_abs (value eb)) _ (elements (value et)) l); [|apply elements_clean| |done].
  - rewrite rev_involutive, Ha. reflexivity.
  - rewrite Ha. apply elements_clean.
Qed.

(** ** Prefixes *)

(** The elements below a prefix, the first of which is not hidden. *)
Definition below (prefix path : list string) : Prop :=
  ∃ c s rest, path = prefix ++ String c s :: rest ∧ c ≠ "."%char.

Lemma head_join c s l : ∃ s', join_with slash (String c s :: l) = String c s'.
Proof. destruct (join_head (String c s) l) as [s' ->]. eauto. Qed.

Lemma relative_first prefix path l :
  relative prefix path l → clean false l →
  (∃ c s, render false l = String c s ∧ c ≠ "."%char ∧ c ≠ slash) ↔ below prefix path.
Proof.
  intros (c0 & bs & ts & -> & -> & [_ Hh] & ->) Hc. pose proof (clean_Forall _ _ Hc) as Hp. split.
  - intros (c & s & E & Hd & Hs). destruct bs as [|d bs].
    + rewrite app_nil_r. cbn [length replicate app] in *. destruct ts as [|e ts]; [by injection E as <- _|].
      apply Forall_cons in Hp as [He _]. destruct (plain_cons e He) as (c' & s' & -> & _).
      destruct (head_join c' s' ts) as [s2 Hj]. unfold render in E. rewrite Hj in E. injection E as -> _. by exists c, s', ts.
    + exfalso. apply Hd. unfold render in E. cbn [length replicate app] in E.
      match type of E with context [join_with _ (".." :: ?k)] => destruct (head_join "." "." k) as [s2 Hj] end.
      rewrite Hj in E. by injection E.
  - intros (c & s & rest & E & Hd). rewrite <-app_assoc in E. apply app_inv_head in E.
    destruct bs as [|d bs]; cbn [app] in E.
    + subst ts. cbn [length replicate app] in *. apply Forall_cons in Hp as [He _].
      destruct (plain_cons _ He) as (c' & s' & [= <- <-] & Hs). destruct (head_join c s rest) as [s2 Hj].
      exists c, s2. unfold render. by rewrite Hj.
    + exfalso. by apply (Hh d d); [|rewrite E|].
Qed.

Lemma pathHasPrefix_inl path prefix b :
  pathHasPrefix path prefix = inl b →
  b = true ↔ path = prefix ∨ ∃ ep eq, Encode prefix = inl ep ∧ Encode path = inl eq ∧ is_abs (value ep) = is_abs (value eq) ∧
    below (elements (value ep)) (elements (value eq)).
Proof.
  unfold pathHasPrefix. case_decide as Hpp; [intros [= <-]; naive_solver|]. destruct (Rel prefix path) as [r|] eqn:E; [|done]. intros [= <-].
  destruct (Encode prefix) as [ep|] eqn:Ep; [|unfold Rel, encoded in E; by rewrite Ep in E].
  destruct (Encode path) as [eq|] eqn:Eq; [|unfold Rel, encoded in E; by rewrite Ep, Eq in E].
  destruct (Rel_inl _ _ _ _ _ Ep Eq E) as (Ha & l & Hl & Hc & Hb & Hs). pose proof (relative_first _ _ _ Hl Hc) as Hf.
  destruct (restyled_first l _ Hc eq_refl Hb r Hs) as (c & s & -> & Er & Hc1 & Hc2). rewrite bool_decide_eq_true. split.
  - intros [Hd _]. right. exists ep, eq. split_and!; try done. apply Hf. eauto.
  - intros [->|(ep' & eq' & [= <-] & [= <-] & _ & Hbel)]; [done|]. apply Hf in Hbel as (c' & s' & E' & Hd & Hs'). rewrite Er in E'. by injection E' as <- _.
Qed.

(** ** Panics *)

Lemma is_abs_contains p : is_abs p = true → contains_byte slash p = true.
Proof. destruct p as [|c p]; [done|]. rewrite is_abs_cons, contains_byte_cons. by intros ->. Qed.

Lemma Encode_abs p e : Encode p = inl e → kind e ≠ KindUnknown → contains_byte slash (value e) = true.
Proof.
  unfold Encode. destruct (isUNCPath p) eqn:Hu.
  - intros [= <-] _. apply is_abs_contains. cbn [value]. rewrite is_abs_Clean. unfold isUNCPath in Hu.
    destruct p as [|c p]; [done|]. rewrite string_prefix_cons in Hu. apply andb_true_iff in Hu as [<-%bool_decide_eq_true _]. by apply is_abs_cons.
  - destruct (isDrivePath p).
    + destruct (_ && _); [done|]. intros [= <-] _. apply is_abs_contains. cbn [value]. rewrite is_abs_Clean. by apply is_abs_cons.
    + by intros [= <-].
Qed.

(** Going up panics for relative paths with a backslash that have one element. *)
Lemma Dir_None path : Dir path = None ↔ ∃ e, Encode path = inl e ∧ kind e = KindUnknown ∧ win32 e = true ∧ contains_byte slash (value e) = false.
Proof.
  unfold Dir. destruct (Encode path) as [e|] eqn:E; [|split; [done|by intros (? & ? & _)]]. pose proof (Encode_abs _ _ E) as Ha.
  assert ((v ← before_last slash (value e); Some (inl (Decode (set_value e v))) : option (string + PathErr)) = None ↔ contains_byte slash (value e) = false) as Hup.
  { rewrite <-before_last_None. by destruct (before_last slash (value e)). }
  split.
  - intros Hn. exists e. split; [done|]. destruct (kind e) eqn:Ek; [by destruct (win32 e); [apply Hup in Hn|]|exfalso..].
    all: destruct (root e); [done|]; apply Hup in Hn; rewrite Ha in Hn by done; done.
  - intros (e' & [= <-] & -> & -> & Hs). by apply Hup.
Qed.
