(* ===== verification/CelFunctions.v ===== *)
(** Functions of conditions: [src/internal/conditions/cerbos_lib.go] and the
    hierarchies of [src/internal/conditions/types/hierarchy.go].

    Values are those of cel-go, as far as these functions tell them apart.  What
    cel-go does with lists and errors is the class [CelTypes], with the
    laws its documentation states as [CelTypesLaws].  A function into [option]
    may panic, as indexing and slicing do. *)
From S2P Require Import Prelude Namer GoStrings CelPath.

Local Open Scope string_scope.
Local Open Scope list_scope.
Open Scope nat_scope.

(** * Values *)

Inductive CelErr :=
  | NoSuchOverload
  | NotFoundInActivation (fn : string)
  | NotANowFunc (fn : string)
  | IndexOutOfRange
  | UnsupportedIndex
  | TypeConversion
  | ListConversion
  | FromPath (err : PathErr)
  | OtherErr (n : N).

(** Times and durations in nanoseconds. *)
Inductive Val :=
  | VBool (b : bool)
  | VInt (z : Z)
  | VString (s : string)
  | VTimestamp (t : Z)
  | VDuration (d : Z)
  | VList (l : list Val)
  | VHierarchy (h : list string)
  | VError (e : CelErr)
  | VUnknown (id : N)
  | VOther (n : N).

Definition Hierarchy : Type := list string.

Class CelTypes := {
  (** [Lister.Contains], [Lister.ConvertToNative] to strings. *)
  Contains : list Val → Val → Val;
  ConvertToStrings : list Val → option (list string);
  (** [types.MaybeNoSuchOverloadErr]; [types.ValOrErr] with a message. *)
  MaybeNoSuchOverloadErr : Val → Val;
  ValOrErr : option Val → CelErr → Val;
}.

Definition IsUnknown (v : Val) : bool := match v with VUnknown _ => true | _ => false end.
Definition IsError (v : Val) : bool := match v with VError _ => true | _ => false end.

(** A list contains what equals one of its elements; errors and unknown values
    are passed on. *)
Class CelTypesLaws `{CelTypes} (equal : Val → Val → bool) := {
  Contains_equal l v : Contains l v = VBool (existsb (equal v) l);
  equal_sym v w : equal v w = equal w v;
  ConvertToStrings_strings l : ConvertToStrings (VString <$> l) = Some l;
  MaybeNoSuchOverloadErr_law v : MaybeNoSuchOverloadErr v = if IsUnknown v || IsError v then v else VError NoSuchOverload;
  ValOrErr_law v e : ValOrErr v e = match v with Some v => if IsUnknown v || IsError v then v else VError e | None => VError e end;
}.

Section functions.
Context `{CelTypes}.
Implicit Types (h : Hierarchy) (v : Val).

(** * Hierarchies *)

Definition hierarchyDelim : string := ".".

Definition unaryHierarchyFnImpl v : Val :=
  match v with
  | VHierarchy h => VHierarchy h
  | VString hv => VHierarchy (Split hv hierarchyDelim)
  | VList l => match ConvertToStrings l with Some h => VHierarchy h | None => VError ListConversion end
  | _ => MaybeNoSuchOverloadErr v
  end.

Definition binaryHierarchyFnImpl v (delim : Val) : Val :=
  match v, delim with
  | VString vStr, VString delimStr => VHierarchy (Split vStr delimStr)
  | _, _ => VError NoSuchOverload
  end.

(** To a string, and to the type of types, which is some other value. *)
Inductive TypeVal := StringType | TypeType | OtherType.
Definition Hierarchy_ConvertToType (hierarchyType : Val) h (typeVal : TypeVal) : Val :=
  match typeVal with
  | StringType => VString (Join_strings h hierarchyDelim)
  | TypeType => hierarchyType
  | OtherType => VError TypeConversion
  end.

(** The loop that compares elements up to the end of the first list; [None] is an
    index out of the range of the second. *)
Fixpoint agree (s k : list string) : option bool :=
  match s, k with
  | [], _ => Some true
  | x :: s, y :: k => if decide (y ≠ x) then Some false else agree s k
  | _ :: _, [] => None
  end.

Definition Hierarchy_Equal h (other : Val) : option Val :=
  match other with
  | VHierarchy otherH =>
      if decide (length otherH ≠ length h) then Some (VBool false)
      else b ← agree h otherH; Some (VBool b)
  | _ => Some (MaybeNoSuchOverloadErr other)
  end.

Definition Hierarchy_Get h (index : Val) : option Val :=
  match index with
  | VInt i =>
      if decide (i < 0 ∨ Z.of_nat (length h) ≤ i)%Z then Some (VError IndexOutOfRange)
      else s ← h !! Z.to_nat i; Some (VString s)
  | _ => Some (ValOrErr (Some index) UnsupportedIndex)
  end.

Definition Hierarchy_Size h : Val := VInt (Z.of_nat (length h)).

Definition toHierarchy v : Hierarchy + Val :=
  match v with VHierarchy h => inl h | _ => inr (MaybeNoSuchOverloadErr v) end.
(** Running the rest on the argument when it is a hierarchy. *)
Definition on_hierarchy (path : Val) (k : Hierarchy → option Val) : option Val :=
  match toHierarchy path with inl h => k h | inr err => Some err end.

Definition hierarchyAncestorOf h (path : Val) : option Val :=
  on_hierarchy path (λ childHierarchy,
    if decide (length childHierarchy ≤ length h) then Some (VBool false)
    else b ← agree h childHierarchy; Some (VBool b)).

(** [l[:len(l)-1]] *)
Definition drop_last (l : list string) : option (list string) :=
  match l with [] => None | _ => Some (take (length l - 1) l) end.
(** The loop that keeps elements while they are the same. *)
Fixpoint common (s l : list string) : option (list string) :=
  match s, l with
  | [], _ => Some []
  | x :: s, y :: l => if decide (y ≠ x) then Some [] else cons x <$> common s l
  | _ :: _, [] => None
  end.
Definition hierarchyCommonAncestors h (path : Val) : option Val :=
  on_hierarchy path (λ otherHierarchy,
    let '(longList, shortList) := if decide (length otherHierarchy < length h) then (h, otherHierarchy) else (otherHierarchy, h) in
    '(longList, shortList) ← (if decide (length longList = length shortList)
                              then l ← drop_last longList; s ← drop_last shortList; Some (l, s)
                              else Some (longList, shortList));
    ancestors ← common shortList longList;
    Some (VHierarchy ancestors)).

Definition hierarchyDescendentOf h (path : Val) : option Val :=
  on_hierarchy path (λ parentHierarchy, hierarchyAncestorOf parentHierarchy (VHierarchy h)).

Definition hierarchyImmediateParentOf h (path : Val) : option Val :=
  on_hierarchy path (λ childHierarchy,
    if decide (length childHierarchy ≠ length h + 1) then Some (VBool false)
    else b ← agree h childHierarchy; Some (VBool b)).

Definition hierarchyImmediateChildOf h (path : Val) : option Val :=
  on_hierarchy path (λ parentHierarchy, hierarchyImmediateParentOf parentHierarchy (VHierarchy h)).

(** The loop is over the indexes before the last, of which there are none in an
    empty hierarchy. *)
Definition hierarchySiblingOf h (path : Val) : option Val :=
  on_hierarchy path (λ otherHierarchy,
    if decide (length otherHierarchy ≠ length h) then Some (VBool false)
    else b ← agree (take (length h - 1) h) otherHierarchy; Some (VBool b)).

Definition hierarchyOverlaps h (path : Val) : option Val :=
  on_hierarchy path (λ otherHierarchy,
    let '(longList, shortList) := if decide (length otherHierarchy < length h) then (h, otherHierarchy) else (otherHierarchy, h) in
    b ← agree shortList longList; Some (VBool b)).

(** [hierarchyOneArgOverloads] *)
Definition hierarchyOneArgOverloads (function : string) : option (Hierarchy → Val → option Val) :=
  if decide (function = "ancestorOf") then Some hierarchyAncestorOf
  else if decide (function = "commonAncestors") then Some hierarchyCommonAncestors
  else if decide (function = "descendentOf") then Some hierarchyDescendentOf
  else if decide (function = "immediateChildOf") then Some hierarchyImmediateChildOf
  else if decide (function = "immediateParentOf") then Some hierarchyImmediateParentOf
  else if decide (function = "overlaps") then Some hierarchyOverlaps
  else if decide (function = "siblingOf") then Some hierarchySiblingOf
  else None.

Definition Hierarchy_Receive h (function : string) (args : list Val) : option Val :=
  match args with
  | [arg] => match hierarchyOneArgOverloads function with Some f => f h arg | None => Some (VError NoSuchOverload) end
  | _ => Some (VError NoSuchOverload)
  end.

(** * Sets *)

(** The operands of a function of two lists.  What is not a list and not unknown
    is nil after the failed assertion, and that is what the error is made of. *)
Definition on_lists (lhs rhs : Val) (k : list Val → list Val → Val) : Val :=
  match lhs with
  | VList a =>
      match rhs with
      | VList b => k a b
      | _ => if IsUnknown rhs then rhs else ValOrErr None NoSuchOverload
      end
  | _ => if IsUnknown lhs then lhs else ValOrErr None NoSuchOverload
  end.

Definition is_bool (b : bool) v : bool := match v with VBool b' => Bool.eqb b b' | _ => false end.

Definition exceptList (lhs rhs : Val) : Val :=
  on_lists lhs rhs (λ a b, VList (List.filter (λ va, is_bool false (Contains b va)) a)).

Definition intersect (lhs rhs : Val) : Val :=
  on_lists lhs rhs (λ a b,
    let '(a, b) := if decide (length b < length a) then (b, a) else (a, b) in
    VList (List.filter (λ va, is_bool true (Contains b va)) a)).

Definition setsContains (sublist list_ : Val) : Val :=
  on_lists sublist list_ (λ sub l,
    let fix loop it := match it with
      | [] => VBool true
      | v :: it => let exists_ := Contains l v in if is_bool true exists_ then loop it else exists_
      end in loop sub).

Definition setsIntersects (lhs rhs : Val) : Val :=
  on_lists lhs rhs (λ a b, VBool (existsb (λ v, is_bool true (Contains b v)) a)).

(** * Calling functions of Go *)

Definition callInStringStringOutBool (fn : string → string → bool + PathErr) (lhsVal rhsVal : Val) : Val :=
  match lhsVal with
  | VString lhs =>
      match rhsVal with
      | VString rhs => match fn lhs rhs with inl b => VBool b | inr err => VError (FromPath err) end
      | _ => MaybeNoSuchOverloadErr rhsVal
      end
  | _ => MaybeNoSuchOverloadErr lhsVal
  end.

Definition callInStringOutString (fn : string → string) (val : Val) : Val :=
  match val with VString s => VString (fn s) | _ => MaybeNoSuchOverloadErr val end.

Definition from_path (r : string + PathErr) : Val :=
  match r with inl s => VString s | inr err => VError (FromPath err) end.

Definition callInStringOutStringErr (fn : string → option (string + PathErr)) (val : Val) : option Val :=
  match val with VString s => r ← fn s; Some (from_path r) | _ => Some (MaybeNoSuchOverloadErr val) end.

Definition callInStringStringOutStringErr (fn : string → string → string + PathErr) (lhsVal rhsVal : Val) : Val :=
  match lhsVal with
  | VString lhs => match rhsVal with VString rhs => from_path (fn lhs rhs) | _ => MaybeNoSuchOverloadErr rhsVal end
  | _ => MaybeNoSuchOverloadErr lhsVal
  end.

Definition callInStringSliceOutStringErr (fn : list string → string + PathErr) (val : Val) : Val :=
  match val with
  | VList l => match ConvertToStrings l with Some elements => from_path (fn elements) | None => VError ListConversion end
  | _ => MaybeNoSuchOverloadErr val
  end.

Definition callInStringStringSliceOutBoolErr (fn : string → list string → bool + PathErr) (lhsVal rhsVal : Val) : Val :=
  match lhsVal with
  | VString lhs =>
      match rhsVal with
      | VList l =>
          match ConvertToStrings l with
          | Some elements => match fn lhs elements with inl b => VBool b | inr err => VError (FromPath err) end
          | None => VError ListConversion
          end
      | _ => MaybeNoSuchOverloadErr rhsVal
      end
  | _ => MaybeNoSuchOverloadErr lhsVal
  end.

(** * Time *)

Definition minDuration : Z := (- 2 ^ 63)%Z.
Definition maxDuration : Z := (2 ^ 63 - 1)%Z.
(** [time.Time.Sub] returns the nearest duration when the difference is none. *)
Definition Time_Sub (t u : Z) : Z := Z.max minDuration (Z.min maxDuration (t - u)).

(** What is bound to a name while a program is evaluated.  A [NowFunc] has to
    return the same time whenever it is called: it is that time. *)
Inductive Bound := BNowFunc (now : Z) | BVal (v : Val).
Definition Activation : Type := string → option Bound.
Definition CELNowFnActivationKey : string := "_cerbos_now_fn".

Definition now_func (fn : string) (activation : Activation) : Z + Val :=
  match activation CELNowFnActivationKey with
  | None => inr (VError (NotFoundInActivation fn))
  | Some (BNowFunc now) => inl now
  | Some (BVal _) => inr (VError (NotANowFunc fn))
  end.

Definition nowInterp_Eval (activation : Activation) : Val :=
  match now_func "now" activation with inl now => VTimestamp now | inr err => err end.

Definition timeSinceInterp_Eval (arg : Activation → Val) (activation : Activation) : Val :=
  match now_func "timeSince" activation with
  | inr err => err
  | inl now =>
      let argVal := arg activation in
      if IsError argVal then argVal
      else match argVal with VTimestamp ts => VDuration (Time_Sub now ts) | _ => VError NoSuchOverload end
  end.

(** [timeDecorator] bakes the time in when a program is planned. *)
Definition timeDecorator_now (nowFunc : Z) : Val := VTimestamp nowFunc.
Definition timeDecorator_timeSince (nowFunc : Z) (values : list Val) : Val :=
  match values with
  | [VTimestamp ts] => VDuration (Time_Sub nowFunc ts)
  | _ => VError NoSuchOverload
  end.

(** * The library *)

Section lib.
Context `{ShellPattern}.

Definition unary (f : Val → option Val) (args : list Val) : option Val :=
  match args with [v] => f v | _ => Some (VError NoSuchOverload) end.
Definition binary (f : Val → Val → Val) (args : list Val) : option Val :=
  match args with [v; w] => Some (f v w) | _ => Some (VError NoSuchOverload) end.

(** The functions of lists, paths and hierarchies that [CompileOptions] declares. *)
Definition cerbosLib_function (name : string) : option (list Val → option Val) :=
  if decide (name = "except") then Some (binary exceptList)
  else if decide (name = "hasIntersection" ∨ name = "has_intersection") then Some (binary setsIntersects)
  else if decide (name = "intersect") then Some (binary intersect)
  else if decide (name = "isSubset" ∨ name = "is_subset") then Some (binary setsContains)
  else if decide (name = "id") then Some (unary Some)
  else if decide (name = "basePath") then Some (unary (callInStringOutStringErr (λ p, Some (Base p))))
  else if decide (name = "dirPath") then Some (unary (callInStringOutStringErr Dir))
  else if decide (name = "extPath") then Some (unary (callInStringOutStringErr (λ p, Some (Ext p))))
  else if decide (name = "joinPath") then Some (unary (λ v, Some (callInStringSliceOutStringErr Join v)))
  else if decide (name = "pathHasPrefix") then Some (binary (callInStringStringOutBool pathHasPrefix))
  else if decide (name = "pathMatch") then Some (binary (callInStringStringOutBool Match))
  else if decide (name = "pathMatchAnyOf") then Some (binary (callInStringStringSliceOutBoolErr pathMatchAnyOf))
  else if decide (name = "relPath") then Some (binary (callInStringStringOutStringErr Rel))
  else if decide (name = "volumeName") then Some (unary (λ v, Some (callInStringOutString VolumeName v)))
  else if decide (name = "hierarchy") then
    Some (λ args, match args with [v] => Some (unaryHierarchyFnImpl v) | [v; w] => Some (binaryHierarchyFnImpl v w) | _ => Some (VError NoSuchOverload) end)
  else None.
End lib.
End functions.
