(* ===== verification/CelTheorems.v ===== *)
(** What the functions of conditions promise: hierarchies are ordered by their
    beginnings, functions of lists agree on what a list contains, a prefix of a path
    is a list of elements it begins with, but for two exceptions, and a relative path leads to its target. *)
From S2P Require Import Prelude Namer GoStrings CelPath CelFunctions.

Local Open Scope string_scope.
Local Open Scope list_scope.
Open Scope nat_scope.

(** * Hierarchies *)

Section hierarchies.
Context `{CelTypes}.
Implicit Types (h k p q : Hierarchy).

Definition answers (r : option Val) (P : Prop) : Prop := ∃ b, r = Some (VBool b) ∧ (b = true ↔ P).

Lemma agree_prefix s k : length s ≤ length k → ∃ b, agree s k = Some b ∧ (b = true ↔ s `prefix_of` k).
Proof.
  revert k. induction s as [|x s IH]; intros k Hk; [exists true; split; [done|]; split; [intros _; apply prefix_nil|done]|].
  destruct k as [|y k]; [cbn in Hk; lia|]. cbn. case_decide as Hx.
  - exists false. split; [done|]. split; [done|]. intros ?%prefix_cons_inv_1. congruence.
  - assert (y = x) as -> by (destruct (decide (y = x)); [done|by exfalso]). destruct (IH k) as (b & -> & Hb); [cbn in Hk; lia|].
    exists b. split; [done|]. rewrite Hb. split; [apply prefix_cons|apply prefix_cons_inv_2].
Qed.

Lemma answers_agree s k (P : Prop) : length s ≤ length k → (s `prefix_of` k ↔ P) → answers (b ← agree s k; Some (VBool b)) P.
Proof. intros Hl HP. destruct (agree_prefix s k Hl) as (b & -> & Hb). exists b. split; [done|]. by rewrite Hb. Qed.
Lemma answers_false (P : Prop) : ¬ P → answers (Some (VBool false)) P.
Proof. intros HP. exists false. by split. Qed.

Lemma AncestorOf_spec h k : answers (hierarchyAncestorOf h (VHierarchy k)) (∃ x rest, k = h ++ x :: rest).
Proof.
  unfold hierarchyAncestorOf, on_hierarchy. cbn [toHierarchy]. case_decide as Hl.
  - apply answers_false. intros (x & rest & ->). rewrite length_app in Hl. cbn in Hl. lia.
  - apply answers_agree; [lia|]. split; [|intros (x & rest & ->); by apply prefix_app_r].
    intros [[|x rest] ->]; [rewrite app_nil_r in Hl; lia|eauto].
Qed.

Lemma ImmediateParentOf_spec h k : answers (hierarchyImmediateParentOf h (VHierarchy k)) (∃ x, k = h ++ [x]).
Proof.
  unfold hierarchyImmediateParentOf, on_hierarchy. cbn [toHierarchy]. case_decide as Hl.
  - apply answers_false. intros (x & ->). rewrite length_app in Hl. cbn in Hl. lia.
  - apply answers_agree; [lia|]. split; [|intros (x & ->); by apply prefix_app_r].
    intros [rest ->]. rewrite length_app in Hl. destruct rest as [|x [|y rest]]; cbn in Hl; [lia|eauto|lia].
Qed.

Lemma SiblingOf_spec h k : answers (hierarchySiblingOf h (VHierarchy k)) ((h = [] ∧ k = []) ∨ ∃ p x y, h = p ++ [x] ∧ k = p ++ [y]).
Proof.
  unfold hierarchySiblingOf, on_hierarchy. cbn [toHierarchy]. case_decide as Hl.
  - apply answers_false. intros [[-> ->]|(p & x & y & -> & ->)]; [done|]. rewrite !length_app in Hl. cbn in Hl. lia.
  - apply answers_agree; [rewrite length_take; lia|]. split.
    + intros [rest Hk]. destruct h as [|x h _] using rev_ind; [left; split; [done|]; destruct k; cbn in Hl; [done|lia]|right].
      rewrite length_app in *. cbn [length] in *. replace (length h + 1 - 1) with (length h) in Hk by lia. rewrite take_app_length in Hk.
      subst k. rewrite length_app in Hl. destruct rest as [|y [|z rest]]; cbn in Hl; [lia| |lia]. eauto.
    + intros [[-> ->]|(p & x & y & -> & ->)]; [done|]. rewrite length_app. cbn [length].
      replace (length p + 1 - 1) with (length p) by lia. rewrite take_app_length. by apply prefix_app_r.
Qed.

Lemma Overlaps_spec h k : answers (hierarchyOverlaps h (VHierarchy k)) (h `prefix_of` k ∨ k `prefix_of` h).
Proof.
  unfold hierarchyOverlaps, on_hierarchy. cbn [toHierarchy]. case_decide as Hl; (apply answers_agree; [lia|]); split; auto.
  - intros [Hp|]; [|done]. apply prefix_length in Hp. lia.
  - intros [|Hp]; [done|]. pose proof (prefix_length _ _ Hp). destruct Hp as [rest ->]. rewrite length_app in *.
    destruct rest; [by rewrite app_nil_r|cbn in *; lia].
Qed.

(** ** Common ancestors *)

(** A beginning of both, and a proper one when they are equally deep. *)
Definition common_ancestor p h k : Prop := p `prefix_of` h ∧ p `prefix_of` k ∧ (length h = length k → length p < length h).

Lemma common_spec s l : length s ≤ length l →
  ∃ p, common s l = Some p ∧ p `prefix_of` s ∧ p `prefix_of` l ∧ ∀ q, q `prefix_of` s → q `prefix_of` l → q `prefix_of` p.
Proof.
  revert l. induction s as [|x s IH]; intros l Hl; [exists []; split_and!; [done|apply prefix_nil..|done]|].
  destruct l as [|y l]; [cbn in Hl; lia|]. cbn. case_decide as Hx.
  - exists []. split_and!; [done|apply prefix_nil..|]. intros [|z q] H1 H2; [done|].
    apply prefix_cons_inv_1 in H1, H2. congruence.
  - assert (y = x) as -> by (destruct (decide (y = x)); [done|by exfalso]). destruct (IH l) as (p & -> & H1 & H2 & Hm); [cbn in Hl; lia|].
    exists (x :: p). split_and!; [done|by apply prefix_cons..|]. intros [|z q] Hq1 Hq2; [apply prefix_nil|].
    pose proof (prefix_cons_inv_1 _ _ _ _ Hq1) as ->. apply prefix_cons, Hm; by eapply prefix_cons_inv_2.
Qed.

Lemma prefix_take_proper q l : l ≠ [] → q `prefix_of` take (length l - 1) l ↔ q `prefix_of` l ∧ length q < length l.
Proof.
  intros Hl. assert (0 < length l) by (destruct l; [done|cbn; lia]). split.
  - intros Hq. pose proof (prefix_length _ _ Hq) as Hlen. rewrite length_take in Hlen. split; [|lia].
    etrans; [exact Hq|]. exists (drop (length l - 1) l). by rewrite take_drop.
  - intros [[rest ->] Hlen]. rewrite length_app in *. rewrite take_app_ge by lia. by apply prefix_app_r.
Qed.

Lemma CommonAncestors_spec h k :
  (h = [] ∧ k = [] ∧ hierarchyCommonAncestors h (VHierarchy k) = None) ∨
  ∃ p, hierarchyCommonAncestors h (VHierarchy k) = Some (VHierarchy p) ∧ common_ancestor p h k ∧ ∀ q, common_ancestor q h k → q `prefix_of` p.
Proof.
  unfold hierarchyCommonAncestors, on_hierarchy, common_ancestor. cbn [toHierarchy].
  destruct (decide (length h = length k)) as [El|El].
  - rewrite decide_False by lia. rewrite decide_True by lia. destruct h as [|x h].
    { left. destruct k; [done|cbn in El; lia]. }
    right. destruct k as [|y k]; [cbn in El; lia|]. cbn [drop_last]. rewrite !bind_some.
    destruct (common_spec (take (length (x :: h) - 1) (x :: h)) (take (length (y :: k) - 1) (y :: k))) as (p & -> & H1 & H2 & Hm).
    { rewrite !length_take. lia. }
    rewrite prefix_take_proper in H1, H2 by done. destruct H1 as [H1 Hlen], H2 as [H2 _]. exists p. split_and!; [done..|].
    intros q (Hq1 & Hq2 & Hq). specialize (Hq El). apply Hm; apply prefix_take_proper; try done. by rewrite <-El.
  - right. case_decide as Hlt.
    + rewrite decide_False by lia. rewrite bind_some. destruct (common_spec k h) as (p & -> & H1 & H2 & Hm); [lia|].
      exists p. split_and!; [done..|]. intros q (? & ? & _). by apply Hm.
    + rewrite decide_False by lia. rewrite bind_some. destruct (common_spec h k) as (p & -> & H1 & H2 & Hm); [lia|].
      exists p. split_and!; [done..|]. intros q (? & ? & _). by apply Hm.
Qed.

(** Hierarchies are ordered by their beginnings.  The ancestors of a hierarchy
    are its proper beginnings and its descendents those it is one of, parents and
    children are one element apart, siblings differ in the last element only,
    hierarchies overlap when one begins with the other, and common ancestors are
    the longest beginning of both, shorter than they are when they are equally
    deep; there is none of two empty hierarchies, and asking for it panics. *)
Theorem hierarchy_relations h k :
  answers (hierarchyAncestorOf h (VHierarchy k)) (∃ x rest, k = h ++ x :: rest) ∧
  answers (hierarchyDescendentOf h (VHierarchy k)) (∃ x rest, h = k ++ x :: rest) ∧
  answers (hierarchyImmediateParentOf h (VHierarchy k)) (∃ x, k = h ++ [x]) ∧
  answers (hierarchyImmediateChildOf h (VHierarchy k)) (∃ x, h = k ++ [x]) ∧
  answers (hierarchySiblingOf h (VHierarchy k)) ((h = [] ∧ k = []) ∨ ∃ p x y, h = p ++ [x] ∧ k = p ++ [y]) ∧
  answers (hierarchyOverlaps h (VHierarchy k)) (h `prefix_of` k ∨ k `prefix_of` h) ∧
  ((h = [] ∧ k = [] ∧ hierarchyCommonAncestors h (VHierarchy k) = None) ∨
   ∃ p, hierarchyCommonAncestors h (VHierarchy k) = Some (VHierarchy p) ∧ common_ancestor p h k ∧ ∀ q, common_ancestor q h k → q `prefix_of` p).
Proof.
  split_and!; [apply AncestorOf_spec|apply AncestorOf_spec|apply ImmediateParentOf_spec|apply ImmediateParentOf_spec|
    apply SiblingOf_spec|apply Overlaps_spec|apply CommonAncestors_spec].
Qed.

(** Converting to a string and back, with the default delimiter and with any other. *)
Lemma hierarchy_string s hierarchyType :
  ∃ h, unaryHierarchyFnImpl (VString s) = VHierarchy h ∧ Hierarchy_ConvertToType hierarchyType h StringType = VString s.
Proof. eexists. split; [reflexivity|]. cbn. by rewrite Join_Split. Qed.
End hierarchies.

(** * Functions of lists *)

Section sets.
Context `{CelTypes} (equal : Val → Val → bool) `{!CelTypesLaws equal}.
Implicit Types (a b l : list Val).

Definition member v l : bool := existsb (equal v) l.

Lemma is_bool_Contains x l v : is_bool x (Contains l v) = Bool.eqb x (member v l).
Proof. by rewrite Contains_equal. Qed.

Lemma except_spec a b : exceptList (VList a) (VList b) = VList (List.filter (λ v, negb (member v b)) a).
Proof. unfold exceptList. cbn. f_equal. apply List.filter_ext. intros v. rewrite is_bool_Contains. by destruct (member v b). Qed.

Lemma contains_spec a b : setsContains (VList a) (VList b) = VBool (forallb (λ v, member v b) a).
Proof.
  unfold setsContains, on_lists. induction a as [|v a IH]; [done|]. rewrite is_bool_Contains. cbn [forallb].
  destruct (member v b) eqn:E; [exact IH|]. rewrite Contains_equal. unfold member in E. by rewrite E.
Qed.

Lemma intersects_spec a b : setsIntersects (VList a) (VList b) = VBool (existsb (λ v, member v b) a).
Proof.
  unfold setsIntersects. cbn. f_equal. induction a as [|v a IH]; [done|]. cbn. rewrite is_bool_Contains, IH. by destruct (member v b).
Qed.

(** The longer list is searched for the elements of the shorter one. *)
Definition shared a b : list Val :=
  let '(a, b) := if decide (length b < length a) then (b, a) else (a, b) in List.filter (λ v, member v b) a.
Lemma intersect_spec a b : intersect (VList a) (VList b) = VList (shared a b).
Proof.
  unfold intersect, shared, on_lists. case_decide; f_equal; apply List.filter_ext; intros v; rewrite is_bool_Contains; by destruct (member _ _).
Qed.

Lemma some_member_sym a b : existsb (λ v, member v b) a = existsb (λ v, member v a) b.
Proof.
  apply eq_true_iff_eq. unfold member. split; intros (v & Hv & (w & Hw & E)%existsb_elem_of)%existsb_elem_of;
    (apply existsb_elem_of; exists w; split; [done|]; apply existsb_elem_of; exists v; split; [done|]; by rewrite equal_sym).
Qed.

Lemma filter_nil (f : Val → bool) l : List.filter f l = [] ↔ existsb f l = false.
Proof. induction l as [|v l IH]; [done|]. cbn. by destruct (f v). Qed.

Lemma shared_nil a b : shared a b = [] ↔ existsb (λ v, member v b) a = false.
Proof. unfold shared. case_decide; rewrite filter_nil; [by rewrite some_member_sym|done]. Qed.

(** The functions of lists agree on what a list contains.  Of two lists, the
    difference is the elements of the first, in their order, that do not equal one
    of the second; the first is a subset when the difference is empty; the lists
    have an intersection, whichever comes first, when one element of the first
    equals one of the second, and then exactly the intersection, made of elements
    of the shorter list, is not empty. *)
Theorem list_functions a b :
  exceptList (VList a) (VList b) = VList (List.filter (λ v, negb (member v b)) a) ∧
  setsContains (VList a) (VList b) = VBool (forallb (λ v, member v b) a) ∧
  (setsContains (VList a) (VList b) = VBool true ↔ exceptList (VList a) (VList b) = VList []) ∧
  setsIntersects (VList a) (VList b) = VBool (existsb (λ v, member v b) a) ∧
  setsIntersects (VList a) (VList b) = setsIntersects (VList b) (VList a) ∧
  intersect (VList a) (VList b) = VList (shared a b) ∧
  (setsIntersects (VList a) (VList b) = VBool true ↔ intersect (VList a) (VList b) ≠ VList []).
Proof.
  rewrite except_spec, contains_spec, !intersects_spec, intersect_spec. split_and!; try done.
  - split.
    + intros [= E]. f_equal. apply filter_nil. clear -E. induction a as [|v a IH]; [done|]. cbn in *.
      apply andb_true_iff in E as [-> E]. by rewrite IH.
    + intros [= E%filter_nil]. f_equal. clear -E. induction a as [|v a IH]; [done|]. cbn in *.
      apply orb_false_iff in E as [->%negb_false_iff E]. by apply IH.
  - by rewrite some_member_sym.
  - split.
    + intros [= E] [= En%shared_nil]. congruence.
    + intros Hn. f_equal. apply not_false_is_true. intros E. apply Hn. f_equal. by apply shared_nil.
Qed.
End sets.

(** Equality of strings and numbers, for examples. *)
Definition simple_equal (v w : Val) : bool :=
  match v, w with
  | VString s, VString t => bool_decide (s = t)
  | VInt i, VInt j => bool_decide (i = j)
  | _, _ => false
  end.
Definition strings_of (l : list Val) : option (list string) := mapM (λ v, match v with VString s => Some s | _ => None end) l.
#[local] Instance simple_types : CelTypes := {|
  Contains l v := VBool (existsb (simple_equal v) l);
  ConvertToStrings := strings_of;
  MaybeNoSuchOverloadErr v := if IsUnknown v || IsError v then v else VError NoSuchOverload;
  ValOrErr v e := match v with Some v => if IsUnknown v || IsError v then v else VError e | None => VError e end;
|}.
#[local] Instance simple_laws : CelTypesLaws simple_equal.
Proof.
  split; try done.
  - intros [] []; try done; cbn; apply bool_decide_ext; done.
  - intros l. cbn. unfold strings_of. induction l as [|s l IH]; [done|]. cbn. by rewrite IH.
Qed.

Lemma list_functions_witness :
  intersect (VList [VString "design"; VString "engineering"]) (VList [VString "sales"; VString "design"; VString "legal"]) = VList [VString "design"].
Proof.
  destruct (list_functions simple_equal [VString "design"; VString "engineering"] [VString "sales"; VString "design"; VString "legal"])
    as (_ & _ & _ & _ & _ & E & _). exact E.
Defined.

(** * Paths *)

(** What the documentation of [pathHasPrefix] says
    ([docs/modules/policies/pages/conditions.adoc:488]): the second path is a prefix of
    the first, element by element, and both start at the root or both do not. *)
Definition documented_prefix (path prefix : string) : Prop :=
  ∃ ep eq, Encode prefix = inl ep ∧ Encode path = inl eq ∧ is_abs (value ep) = is_abs (value eq) ∧ elements (value ep) `prefix_of` elements (value eq).

(** C35: Where [pathHasPrefix] departs from its documentation.  The documentation says
    that it is true if the second path is a prefix of the first.  When the function
    returns for a prefix that encodes, true is only returned for a prefix in this sense; but false is returned
    for some prefixes, namely exactly for those, not written like the path itself, that
    are either the same path in other characters (a slash at the end) or below which the
    path goes on with an element that begins with a dot (a hidden file). *)
Theorem path_prefix_departs path prefix b e :
  pathHasPrefix path prefix = inl b → Encode prefix = inl e →
  (b = true → documented_prefix path prefix) ∧
  (b = false ∧ documented_prefix path prefix ↔ path ≠ prefix ∧ ∃ ep eq rest, Encode prefix = inl ep ∧ Encode path = inl eq ∧
     is_abs (value ep) = is_abs (value eq) ∧ elements (value eq) = elements (value ep) ++ rest ∧ (rest = [] ∨ ∃ s rest', rest = String "." s :: rest')).
Proof.
  intros Eb Ee. pose proof (pathHasPrefix_inl _ _ _ Eb) as Hb. split.
  - intros [->|(ep' & eq & Ep & Eq' & Ha & (c & s & rest & El & _))]%Hb; [by exists e, e|].
    exists ep', eq. split_and!; [congruence|done|done|]. by exists (String c s :: rest).
  - split.
    + intros (-> & ep' & eq & Ep & Eq' & Ha & rest & El). assert (path ≠ prefix) as Hne by (intros E; by pose proof (proj2 Hb (or_introl E))). split; [done|].
      exists ep', eq, rest. split_and!; [congruence|done|done|done|]. destruct rest as [|x rest]; [by left|right].
      pose proof (clean_Forall _ _ (elements_clean (value eq))) as Hp. rewrite El in Hp. apply Forall_app in Hp as [_ Hp]. apply Forall_cons in Hp as [Hx _].
      destruct (plain_cons x Hx) as (c & s & -> & _). exists s, rest. f_equal. f_equal. destruct (decide (c = "."%char)) as [|Hc]; [done|].
      exfalso. apply (Bool.diff_false_true), Hb. right. exists ep', eq. split_and!; [congruence|done..|]. by exists c, s, rest.
    + intros (Hne & ep' & eq & rest & Ep & Eq' & Ha & El & Hrest). split.
      * destruct b; [|done]. destruct (proj1 Hb eq_refl) as [?|(ep1 & eq1 & Ep1 & Eq1 & _ & (c & s & rest1 & El1 & Hc))]; [done|].
        assert (ep1 = ep') as -> by congruence. assert (eq1 = eq) as -> by congruence. rewrite El in El1. apply app_inv_head in El1.
        destruct Hrest as [->|(s' & rest' & ->)]; [done|]. by injection El1 as <- _ _.
      * exists ep', eq. split_and!; [congruence|done..|]. by exists rest.
Qed.

Lemma path_prefix_departs_witness :
  pathHasPrefix "/team/.secrets/key" "/team" = inl false ∧ documented_prefix "/team/.secrets/key" "/team".
Proof.
  assert (pathHasPrefix "/team/.secrets/key" "/team" = inl false) as E by (vm_compute; reflexivity). split; [exact E|].
  refine (proj2 (proj2 (proj2 (path_prefix_departs _ _ _ (MkEncoded "/team" KindUnknown false false) E eq_refl)) _)).
  split; [discriminate|].
  exists (MkEncoded "/team" KindUnknown false false), (MkEncoded "/team/.secrets/key" KindUnknown false false), [".secrets"; "key"].
  split; [vm_compute; reflexivity|]. split; [vm_compute; reflexivity|]. split; [vm_compute; reflexivity|]. split; [vm_compute; reflexivity|].
  right. eexists _, _. reflexivity.
Defined.

(** A relative path leads to its target.  When [Rel] returns a path, joining it
    to the base gives the clean target in the style of the base, as the comment
    of [Rel] says; joining is refused only for a relative path that looks like one
    with a drive but has no backslash. *)
Theorem relative_path_joins base target eb et r :
  Encode base = inl eb → Encode target = inl et → Rel base target = inl r →
  Join [base; r] = inl (Decode (set_value eb (value et))) ∨
  Join [base; r] = inr ErrUnsupportedWin32Path ∧ isDrivePath r = true ∧ contains_byte backslash r = false ∧ 2 < String.length r.
Proof.
  intros Eb Et Hr. destruct (Rel_joins _ _ _ _ _ Eb Et Hr) as [Hj Hu]. destruct (Encode r) as [e|err]; [by left|right].
  split; [done|]. apply Hu. by exists err.
Qed.

Lemma relative_path_joins_witness :
  Rel "C:\teams\sales" "C:\teams\legal\notes.txt" = inl "..\legal\notes.txt" ∧
  Join ["C:\teams\sales"; "..\legal\notes.txt"] = inl "C:\teams\legal\notes.txt".
Proof.
  assert (Rel "C:\teams\sales" "C:\teams\legal\notes.txt" = inl "..\legal\notes.txt") as E by (vm_compute; reflexivity).
  split; [exact E|].
  assert (Encode "C:\teams\sales" = inl (MkEncoded "/C:/teams/sales" KindDrive true false)) as Eb by (vm_compute; reflexivity).
  assert (Encode "C:\teams\legal\notes.txt" = inl (MkEncoded "/C:/teams/legal/notes.txt" KindDrive true false)) as Et by (vm_compute; reflexivity).
  destruct (relative_path_joins _ _ _ _ _ Eb Et E) as [Hj|(_ & Hd & _)]; [rewrite Hj; vm_compute; reflexivity|].
  assert (isDrivePath "..\legal\notes.txt" = false) as Hd' by (vm_compute; reflexivity). rewrite Hd' in Hd. discriminate Hd.
Defined.

(** The directory of a path panics exactly for Windows paths without a drive or
    a share that have one element when clean, such as the name of a directory with
    a backslash at its end; every other path has a directory or is refused. *)
Theorem dir_panics path :
  Dir path = None ↔ ∃ e, Encode path = inl e ∧ kind e = KindUnknown ∧ win32 e = true ∧ contains_byte slash (value e) = false.
Proof. apply Dir_None. Qed.

(** Going up past a drive leaves it. *)
Example drive_lost : Join ["C:\teams"; "..\..\windows"] = inl "windows".
Proof. vm_compute. reflexivity. Qed.
Example dir_of_dir : Dir "teams\" = None.
Proof. vm_compute. reflexivity. Qed.
Example prefix_with_slash : pathHasPrefix "/teams/" "/teams" = inl false.
Proof. vm_compute. reflexivity. Qed.

(** The error of an argument is replaced: the value that is not a list is nil by then. *)
Example error_replaced : setsIntersects (VError IndexOutOfRange) (VList []) = VError NoSuchOverload.
Proof. vm_compute. reflexivity. Qed.
