(* ===== verification/Schema.v ===== *)
(** Validation of attributes against JSON schemas: [src/internal/schema].

    Schemas are compiled, and values validated, by github.com/santhosh-tekuri/jsonschema
    ([JsonSchemas]); [net/url], HTTP and files are parameters too.  The manager keeps
    compiled schemas in a cache, which storage events invalidate. *)
From S2P Require Import Prelude GoRuntime Bitmap Arena LazyDim Dimension GlobDim Namer Policy ScopePerms IndexCore IndexQuery IndexLookup Index RuleTableBuild RuleTable Eval Check PlanExpr PlanFilter PlanNode Plan Concrete GoStrings CelPath.

Local Open Scope string_scope.
Local Open Scope list_scope.
Open Scope nat_scope.

(** * The library *)

(** A validation error and its causes. *)
Inductive JsonValidationError := MkJsonError (InstanceLocation KeywordLocation Message : string) (Causes : list JsonValidationError).
Inductive SchemaFailure := Invalid (e : JsonValidationError) | NotValidated (msg : string).

Inductive LoadErr := NotFound (url scheme fullPath : string) | LoaderNotFound (path : string) | OtherLoadErr (msg : string).

(** [Compile] asks the loader for the document at a URL and for those it refers to
    ([schema_urls]); [AddResource] rejects text that is not JSON. *)
Class JsonSchemas := {
  json_schema : Type;
  schema_AddResource : string → string → bool;
  schema_LoadURL : string → string + LoadErr;  (* the loader of a new compiler *)
  schema_Compile : (string → string + LoadErr) → string → json_schema + LoadErr;
  schema_Validate : json_schema → gmap string Value → option SchemaFailure;
  schema_urls : (string → string + LoadErr) → string → list string;
}.
Class JsonSchemasLaws `{JsonSchemas} := {
  compile_loads : ∀ load load' url, (∀ u, u ∈ schema_urls load url → load' u = load u) → schema_Compile load' url = schema_Compile load url;
}.

(** [net/url], [filepath.Abs] and the [%q] of messages. *)
Record URL := MkURL { u_Scheme : string; u_Path : string; u_String : string }.
Class GoUrls := {
  url_Parse : string → option URL;
  filepath_Abs : string → option string;
  go_quote : string → string;
}.

Definition SchemasDirectory : string := "_schemas".
Definition URLScheme : string := "cerbos".
Definition fileURLScheme : string := "file".
Definition HasSuffix (s suffix : string) : bool :=
  (String.length suffix <=? String.length s) && bool_decide (drop_bytes (String.length s - String.length suffix) s = suffix).

(** * Configuration and errors *)

Inductive Enforcement := EnforcementNone | EnforcementWarn | EnforcementReject.
#[export] Instance Enforcement_eq_dec : EqDecision Enforcement.
Proof. solve_decision. Defined.

Definition newValidationError (location message : string) (source : ErrSource) : ValidationError :=
  MkValidationError (if decide (location = "") then "/" else location) message source.

(** The leaves that the filter lets through; the filter sees the keyword location. *)
Fixpoint newValidationErrorList (e : JsonValidationError) (source : ErrSource) (filter : option (string → bool)) : list ValidationError :=
  match e with
  | MkJsonError loc kw msg [] => if (match filter with None => true | Some f => f kw end) then [newValidationError loc msg source] else []
  | MkJsonError _ _ _ causes => concat (map (λ c, newValidationErrorList c source filter) causes)
  end.

(** What is left of a schema that cannot be loaded. *)
Inductive SchemaErr := SchemaMissing (path : string) | ReferencedMissing (path by_url : string) | Unresolved (url : string) | LoadFailed (e : LoadErr).

Section validate.
Context `{GlobEngine} `{JsonSchemas} `{GoUrls}.
Context (err_text : SchemaErr → string).

Definition NewLoadErr (source : ErrSource) (schema : string) (err : SchemaErr) : list ValidationError :=
  let kind := match source with ErrSourcePrincipal => "principal" | ErrSourceResource => "resource" end in
  [MkValidationError "" ("Failed to load " +:+ kind +:+ " schema " +:+ go_quote schema +:+ ": " +:+ err_text err) source].

Fixpoint filterActionsToValidate (ignore actions : list string) : list string :=
  match ignore with
  | [] => actions
  | glob :: ignore =>
      match FilterGlobNotMatches glob actions with [] => [] | filtered => filterActionsToValidate ignore filtered end
  end.

(** All the actions are excluded from validation. *)
Definition all_ignored (s : SchemaRef) (actions : list string) : bool :=
  match IgnoreWhen s with
  | Some (a :: ignore) => match filterActionsToValidate (a :: ignore) actions with [] => true | _ => false end
  | _ => false
  end.

(** ** Validation, over a loader with state *)

Section loader.
Context {S : Type} (load : string → S → (json_schema + SchemaErr) * S).

(** [inl] the list of errors, which may be empty, or [inr] another error. *)
Definition validateAttr (src : ErrSource) (schemaRef : option SchemaRef) (attr : gmap string Value) (actions : list string) (errorFilter : option (string → bool)) (st : S) :
    (list ValidationError + string) * S :=
  match schemaRef with
  | None => (inl [], st)
  | Some r =>
      if decide (schema_Ref r = "") then (inl [], st)
      else if all_ignored r actions then (inl [], st)
      else
        let '(schema, st) := load (schema_Ref r) st in
        (match schema with
         | inr err => inl (NewLoadErr src (schema_Ref r) err)
         | inl schema =>
             match schema_Validate schema attr with
             | None => inl []
             | Some (Invalid e) => inl (newValidationErrorList e src errorFilter)
             | Some (NotValidated msg) => inr ("unable to validate " +:+ match src with ErrSourcePrincipal => "P.attr" | ErrSourceResource => "R.attr" end +:+ ": " +:+ msg)
             end
         end, st)
  end.

Definition validate (enforcement : Enforcement) (schemas : option Schemas_) (principalAttr resourceAttr : gmap string Value) (actions : list string)
    (resourceErrorFilter : option (string → bool)) (st : S) : ((list ValidationError * bool) + string) * S :=
  let reject := bool_decide (enforcement = EnforcementReject) in
  match schemas with
  | None => (inl ([], reject), st)
  | Some schemas =>
      let '(p, st) := validateAttr ErrSourcePrincipal (PrincipalSchemaRef schemas) principalAttr actions None st in
      match p with
      | inr msg => (inr ("failed to validate the principal: " +:+ msg), st)
      | inl principalErrs =>
          let '(r, st) := validateAttr ErrSourceResource (ResourceSchemaRef schemas) resourceAttr actions resourceErrorFilter st in
          (match r with
           | inr msg => inr ("failed to validate the resource: " +:+ msg)
           | inl resourceErrs => inl (principalErrs ++ resourceErrs, reject)
           end, st)
      end
  end.

(** With no enforcement the manager is the one that does nothing. *)
Definition validateCheckInput (enforcement : Enforcement) (schemas : option Schemas_) (input : CheckInput) (st : S) : ((list ValidationError * bool) + string) * S :=
  match enforcement with
  | EnforcementNone => (inl ([], false), st)
  | _ => validate enforcement schemas (pr_Attr (ci_Principal input)) (rs_Attr (ci_Resource input)) (ci_Actions input) None st
  end.

(** Resource attributes are optional for planning. *)
Definition not_required (keywordLocation : string) : bool := negb (HasSuffix keywordLocation "/required").
Definition validatePlanResourcesInput (enforcement : Enforcement) (schemas : option Schemas_) (input : PlanInput) (st : S) : ((list ValidationError * bool) + string) * S :=
  match enforcement with
  | EnforcementNone => (inl ([], false), st)
  | _ => validate enforcement schemas (pr_Attr (pi_Principal input)) (pi_Attr input) (pi_Actions input) (Some not_required) st
  end.
End loader.

(** * Static schemas *)

(** [preCompileSchemas]: the schemas that policies refer to, compiled over the raw ones. *)
Definition refs_of (s : Schemas_) : list string := filter (λ r, r ≠ "") [GetRef (PrincipalSchemaRef s); GetRef (ResourceSchemaRef s)].
Definition raw_loader (raw : gmap string string) (url : string) : string + LoadErr :=
  match raw !! url with Some c => inl c | None => schema_LoadURL url end.
Fixpoint precompile (raw : gmap string string) (refs : list string) (compiled : gmap string json_schema) : gmap string json_schema + LoadErr :=
  match refs with
  | [] => inl compiled
  | r :: refs =>
      match compiled !! r with
      | Some _ => precompile raw refs compiled
      | None => match schema_Compile (raw_loader raw) r with inr e => inr e | inl c => precompile raw refs (<[r := c]> compiled) end
      end
  end.
Definition preCompileSchemas (schemas : list Schemas_) (raw : gmap string string) : gmap string json_schema + LoadErr :=
  if forallb (λ kv, schema_AddResource kv.1 kv.2) (map_to_list raw) then precompile raw (schemas ≫= refs_of) ∅
  else inr (OtherLoadErr "failed to add schema").

Definition static_LoadSchema (compiled : gmap string json_schema) (url : string) (st : unit) : (json_schema + SchemaErr) * unit :=
  (match compiled !! url with Some s => inl s | None => inr (SchemaMissing url) end, st).

(** A static manager is what checks and plans ask of a schema manager. *)
Definition static_manager (enforcement : Enforcement) (compiled : gmap string json_schema) : SchemaManager :=
  {| ValidateCheckInput := λ schemas input, (validateCheckInput (static_LoadSchema compiled) enforcement schemas input tt).1 |}.
Definition static_plan_manager (enforcement : Enforcement) (compiled : gmap string json_schema) : PlanSchemaManager :=
  {| ValidatePlanResourcesInput := λ schemas input, (validatePlanResourcesInput (static_LoadSchema compiled) enforcement schemas input tt).1 |}.

(** Every schema that a policy names is compiled, and nothing else is in the map. *)
Lemma precompile_spec raw refs compiled compiled' : precompile raw refs compiled = inl compiled' →
  map_Forall (λ r c, schema_Compile (raw_loader raw) r = inl c) compiled →
  map_Forall (λ r c, schema_Compile (raw_loader raw) r = inl c) compiled' ∧ dom compiled' = dom compiled ∪ list_to_set refs.
Proof.
  revert compiled. induction refs as [|r refs IH]; intros compiled E Hc; cbn [precompile] in E; [injection E as <-; set_solver|].
  destruct (compiled !! r) eqn:Er.
  - destruct (IH _ E Hc) as [? ->]. split; [done|]. apply elem_of_dom_2 in Er. set_solver.
  - destruct (schema_Compile (raw_loader raw) r) as [c|] eqn:Ec; [|done].
    destruct (IH _ E) as [? ->]; [by apply map_Forall_insert_2|]. split; [done|]. rewrite dom_insert_L. set_solver.
Qed.

Theorem precompiled_loads schemas raw compiled : preCompileSchemas schemas raw = inl compiled →
  ∀ s r, s ∈ schemas → r ∈ refs_of s → ∃ c, static_LoadSchema compiled r tt = (inl c, tt) ∧ schema_Compile (raw_loader raw) r = inl c.
Proof.
  unfold preCompileSchemas. destruct (forallb _ _); [|done]. intros E s r Hs Hr.
  destruct (precompile_spec _ _ _ _ E) as [Hc Hd]; [apply map_Forall_empty|].
  assert (r ∈ dom compiled) as [c Hcr]%elem_of_dom by (rewrite Hd; apply elem_of_union_r, elem_of_list_to_set, list_elem_of_bind; by exists s).
  exists c. unfold static_LoadSchema. rewrite Hcr. split; [done|]. by apply Hc.
Qed.

(** * Loading from the store *)

(** What is outside: the schemas of the store by relative path, HTTP and files. *)
Inductive StoreErr := ErrNotExist (path : string) | OtherStoreErr (msg : string).
Record World := MkWorld { w_store : string → string + StoreErr; w_http : string → option (N * string); w_files : string → string + bool }.

Definition loadCerbosURL (w : World) (u : URL) : string + LoadErr :=
  match w_store w (TrimPrefix (u_Path u) "/") with
  | inl c => inl c
  | inr (ErrNotExist path) =>
      inr (NotFound (u_String u) (u_Scheme u) (if String.prefix SchemasDirectory path then path else filepath_Join [SchemasDirectory; path]))
  | inr (OtherStoreErr msg) => inr (OtherLoadErr msg)
  end.

(** The body is closed when the function returns, so reading it fails. *)
Definition loadHTTPURL (w : World) (u : URL) : string + LoadErr :=
  match w_http w (u_String u) with
  | None => inr (OtherLoadErr "request failed")
  | Some (404%N, _) => inr (NotFound (u_String u) (u_Scheme u) (u_String u))
  | Some (200%N, _) => inr (OtherLoadErr "http: read on closed response body")
  | Some (_, _) => inr (OtherLoadErr "status code")
  end.

(** An error other than a missing file leaves a nil file, on which reading fails. *)
Definition loadFileURL (w : World) (u : URL) : string + LoadErr :=
  match w_files w (u_Path u) with
  | inl c => inl c
  | inr true => inr (NotFound (u_String u) (u_Scheme u) (u_Path u))
  | inr false => inr (OtherLoadErr "invalid argument")
  end.

Definition DefaultResolver (w : World) (path : string) : string + LoadErr :=
  match url_Parse path with
  | None => inr (OtherLoadErr "invalid URL")
  | Some u =>
      if decide (u_Scheme u = "" ∨ u_Scheme u = URLScheme) then loadCerbosURL w u
      else if decide (u_Scheme u = "http" ∨ u_Scheme u = "https") then loadHTTPURL w u
      else if decide (u_Scheme u = fileURLScheme) then loadFileURL w u
      else inr (LoaderNotFound path)
  end.

(** Which document is missing: the schema or one it refers to. *)
Definition missing_schema (schemaURL url scheme fullPath : string) : SchemaErr :=
  let absolutePath := if decide (scheme = fileURLScheme) then default "" (filepath_Abs schemaURL) else "" in
  if decide (scheme = fileURLScheme ∧ fullPath = absolutePath) then SchemaMissing schemaURL
  else if decide (url ≠ schemaURL) then ReferencedMissing fullPath schemaURL
  else SchemaMissing fullPath.

(** A schema compiled afresh. *)
Definition fresh (w : World) (schemaURL : string) : json_schema + SchemaErr :=
  match schema_Compile (DefaultResolver w) schemaURL with
  | inl s => inl s
  | inr (NotFound url scheme fullPath) => inr (missing_schema schemaURL url scheme fullPath)
  | inr e => inr (LoadFailed e)
  end.

(** ** The cache *)

Definition schema_cache : Type := gmap string (json_schema + SchemaErr).

Definition LoadSchema (w : World) (schemaURL : string) (cache : schema_cache) : (json_schema + SchemaErr) * schema_cache :=
  match cache !! schemaURL with
  | Some entry => (entry, cache)
  | None => let e := fresh w schemaURL in (e, <[schemaURL := e]> cache)
  end.

Inductive SchemaEvent := EventAddOrUpdateSchema (file : string) | EventDeleteSchema (file : string) | EventReloadStore | EventOfPolicy.
Definition cacheKey (file : string) : string := URLScheme +:+ ":///" +:+ file.
Definition schema_OnStorageEvent (cache : schema_cache) (event : SchemaEvent) : schema_cache :=
  match event with
  | EventAddOrUpdateSchema file | EventDeleteSchema file => delete (cacheKey file) cache
  | EventReloadStore => ∅
  | EventOfPolicy => cache
  end.

(** ** Steps

    A load that misses compiles first and puts the result into the cache later
    ([inflight] in between); the cache may evict an entry at any time; the store
    changes first and its event is handled later ([pending] in between). *)

Record schema_sys := MkSys {
  sy_world : World;
  sy_cache : schema_cache;
  sy_inflight : list (string * (json_schema + SchemaErr));
  sy_pending : list SchemaEvent;
}.

Inductive schema_op :=
  | Op_Miss (url : string)
  | Op_Set (i : nat)
  | Op_Evict (url : string)
  | Op_Change (file : string) (content : string + StoreErr)
  | Op_Reload (store : string → string + StoreErr)
  | Op_Event.

Definition set_store (w : World) (store : string → string + StoreErr) : World := MkWorld store (w_http w) (w_files w).
Definition event_of_change (file : string) (content : string + StoreErr) : SchemaEvent :=
  match content with inr (ErrNotExist _) => EventDeleteSchema file | _ => EventAddOrUpdateSchema file end.

Definition schema_step (s : schema_sys) (op : schema_op) : schema_sys :=
  let '(MkSys w cache inflight pending) := s in
  match op with
  | Op_Miss url => match cache !! url with Some _ => s | None => MkSys w cache (inflight ++ [(url, fresh w url)]) pending end
  | Op_Set i => match inflight !! i with Some (url, e) => MkSys w (<[url := e]> cache) (delete i inflight) pending | None => s end
  | Op_Evict url => MkSys w (delete url cache) inflight pending
  | Op_Change file content =>
      MkSys (set_store w (λ f, if decide (f = file) then content else w_store w f)) cache inflight (pending ++ [event_of_change file content])
  | Op_Reload store => MkSys (set_store w store) cache inflight (pending ++ [EventReloadStore])
  | Op_Event => match pending with e :: pending => MkSys w (schema_OnStorageEvent cache e) inflight pending | [] => s end
  end.
Definition schema_run (ops : list schema_op) (s : schema_sys) : schema_sys := fold_left schema_step ops s.

(** The schemas of the store that refer to no other document. *)
Definition stored (url : string) : Prop := ∃ f, url = cacheKey f ∧ url_Parse url = Some (MkURL URLScheme ("/" +:+ f) url).
Definition self_contained (w : World) (url : string) : Prop := ∀ u, u ∈ schema_urls (DefaultResolver w) url → u = url.
Definition concerns (e : SchemaEvent) (url : string) : Prop :=
  match e with
  | EventAddOrUpdateSchema f | EventDeleteSchema f => url = cacheKey f
  | EventReloadStore => True
  | EventOfPolicy => False
  end.

(** Loads are of such schemas, and none is in flight while its event is handled. *)
Definition op_allowed (s : schema_sys) (op : schema_op) : Prop :=
  match op with
  | Op_Miss url => stored url ∧ self_contained (sy_world s) url
  | Op_Event => ∀ e, head (sy_pending s) = Some e → ∀ u, u ∈ (sy_inflight s).*1 → ¬ concerns e u
  | _ => True
  end.
Fixpoint ops_allowed (s : schema_sys) (ops : list schema_op) : Prop :=
  match ops with [] => True | op :: ops => op_allowed s op ∧ ops_allowed (schema_step s op) ops end.

(** ** The cache and the store *)

(** Compiled from the document that is in the store now. *)
Definition current (w : World) (url : string) (e : json_schema + SchemaErr) : Prop :=
  ∃ w0, e = fresh w0 url ∧ self_contained w0 url ∧ DefaultResolver w url = DefaultResolver w0 url.
Definition entry_ok (w : World) (pending : list SchemaEvent) (url : string) (e : json_schema + SchemaErr) : Prop :=
  stored url ∧ (Exists (λ ev, concerns ev url) pending ∨ current w url e).
Definition sys_ok (s : schema_sys) : Prop :=
  map_Forall (entry_ok (sy_world s) (sy_pending s)) (sy_cache s) ∧ Forall (λ p, entry_ok (sy_world s) (sy_pending s) p.1 p.2) (sy_inflight s).

Lemma current_fresh `{!JsonSchemasLaws} w url e : current w url e → e = fresh w url.
Proof.
  intros (w0 & -> & Hself & E). unfold fresh.
  rewrite (compile_loads (DefaultResolver w0) (DefaultResolver w)); [done|]. by intros u ->%Hself.
Qed.

Lemma stored_resolves w w' url f : url_Parse url = Some (MkURL URLScheme ("/" +:+ f) url) → w_store w f = w_store w' f →
  DefaultResolver w url = DefaultResolver w' url.
Proof.
  intros Hp E. unfold DefaultResolver. rewrite Hp. simpl. unfold loadCerbosURL.
  change (TrimPrefix (u_Path (MkURL URLScheme ("/" +:+ f) url)) "/") with (TrimPrefix ("/" +:+ f) "/").
  rewrite TrimPrefix_app. by rewrite E.
Qed.

Lemma entry_ok_fresh w pending url : stored url → self_contained w url → entry_ok w pending url (fresh w url).
Proof. intros Hs Hc. split; [done|]. right. by exists w. Qed.

(** A change of the store concerns an entry or leaves its document alone. *)
Lemma entry_ok_change w pending url e store ev : (∀ f, concerns ev (cacheKey f) ∨ store f = w_store w f) →
  entry_ok w pending url e → entry_ok (set_store w store) (pending ++ [ev]) url e.
Proof.
  intros Hev [(f & Hu & Hp) [Hc|(w0 & -> & Hself & E)]]; (split; [by exists f|]); [left; apply Exists_app; by left|].
  destruct (Hev f) as [Hc|Hf]; [left; apply Exists_app; right; constructor; by rewrite Hu|].
  right. exists w0. split_and!; [done..|]. rewrite <- E. by apply (stored_resolves _ _ _ f).
Qed.

(** An event that does not concern an entry can go. *)
Lemma entry_ok_handled w ev pending url e : ¬ concerns ev url → entry_ok w (ev :: pending) url e → entry_ok w pending url e.
Proof. intros Hn [Hs [Hc|Hc]]; (split; [done|]); [left; by apply Exists_cons in Hc as [?|?]|by right]. Qed.

Lemma handled_entry cache ev url e : schema_OnStorageEvent cache ev !! url = Some e → cache !! url = Some e ∧ ¬ concerns ev url.
Proof.
  destruct ev; simpl; [| | |by auto]; [intros [? ?]%lookup_delete_Some..|intros E; discriminate E]; (split; [done|]); by intros ->.
Qed.

Lemma sys_ok_change w cache inflight pending store ev : (∀ f, concerns ev (cacheKey f) ∨ store f = w_store w f) →
  sys_ok (MkSys w cache inflight pending) → sys_ok (MkSys (set_store w store) cache inflight (pending ++ [ev])).
Proof.
  intros Hev [Hc Hi]. split; simpl in *.
  - intros u e Hu. by apply entry_ok_change; [|apply Hc].
  - eapply Forall_impl; [exact Hi|]. intros p Hp. by apply entry_ok_change.
Qed.

Lemma sys_ok_step s op : op_allowed s op → sys_ok s → sys_ok (schema_step s op).
Proof.
  destruct s as [w cache inflight pending], op as [url|i|url|f c|store|]; simpl; intros Ha [Hc Hi]; simpl in *.
  - destruct (cache !! url); split; try done. simpl. apply Forall_app_2; [done|].
    constructor; [|done]. destruct Ha. by apply entry_ok_fresh.
  - destruct (inflight !! i) as [[url e]|] eqn:El; split; simpl; try done.
    + apply map_Forall_insert_2; [|done]. by apply (Forall_lookup_1 _ _ _ _ Hi El).
    + by apply Forall_delete.
  - split; [by apply map_Forall_delete|done].
  - apply sys_ok_change; [|done]. intros f'. destruct (decide (f' = f)) as [->|]; [left|by right].
    unfold event_of_change. by destruct c as [|[]].
  - apply sys_ok_change; [by left|done].
  - destruct pending as [|ev pending]; split; simpl in *; try done.
    + intros u e [Hu Hn]%handled_entry. by apply (entry_ok_handled _ ev), Hc.
    + apply Forall_forall. intros [u e] Hin. apply (entry_ok_handled _ ev); [|by apply (proj1 (Forall_forall _ _) Hi)].
      apply (Ha ev); [done|]. apply list_elem_of_fmap. by exists (u, e).
Qed.

Lemma sys_ok_run ops s : ops_allowed s ops → sys_ok s → sys_ok (schema_run ops s).
Proof. revert s. induction ops as [|op ops IH]; simpl; intros s Ha Hs; [done|]. destruct Ha. apply IH; [done|]. by apply sys_ok_step. Qed.

Lemma sys_ok_start w : sys_ok (MkSys w ∅ [] []).
Proof. split; [apply map_Forall_empty|apply Forall_nil_2]. Qed.

(** ** Validation *)

(** Two loaders that agree, as long as a property of their states lasts, validate alike. *)
Lemma validateAttr_agrees {S S'} (load : string → S → (json_schema + SchemaErr) * S) (load' : string → S' → (json_schema + SchemaErr) * S') (P : S → S' → Prop)
    src r attr actions filter st st' :
  (∀ u st st', P st st' → (load u st).1 = (load' u st').1 ∧ P (load u st).2 (load' u st').2) → P st st' →
  (validateAttr load src r attr actions filter st).1 = (validateAttr load' src r attr actions filter st').1 ∧
  P (validateAttr load src r attr actions filter st).2 (validateAttr load' src r attr actions filter st').2.
Proof.
  intros Hl HP. unfold validateAttr. destruct r as [r|]; [|done]. destruct (decide _); [done|]. destruct (all_ignored r actions); [done|].
  destruct (Hl (schema_Ref r) st st' HP) as [E HP'].
  destruct (load (schema_Ref r) st), (load' (schema_Ref r) st'); simpl in *. by subst.
Qed.

Lemma validate_agrees {S S'} (load : string → S → (json_schema + SchemaErr) * S) (load' : string → S' → (json_schema + SchemaErr) * S') (P : S → S' → Prop)
    enf schemas pattr rattr actions filter st st' :
  (∀ u st st', P st st' → (load u st).1 = (load' u st').1 ∧ P (load u st).2 (load' u st').2) → P st st' →
  (validate load enf schemas pattr rattr actions filter st).1 = (validate load' enf schemas pattr rattr actions filter st').1.
Proof.
  intros Hl HP. unfold validate. destruct schemas as [schemas|]; [|done].
  destruct (validateAttr_agrees load load' P ErrSourcePrincipal (PrincipalSchemaRef schemas) pattr actions None st st' Hl HP) as [E HP'].
  destruct (validateAttr load ErrSourcePrincipal _ _ _ _ _) as [[perrs|msg] st1], (validateAttr load' ErrSourcePrincipal _ _ _ _ _) as [p' st1'];
    simpl in *; subst; [|done].
  destruct (validateAttr_agrees load load' P ErrSourceResource (ResourceSchemaRef schemas) rattr actions filter st1 st1' Hl HP') as [E' _].
  destruct (validateAttr load ErrSourceResource _ _ _ _ _), (validateAttr load' ErrSourceResource _ _ _ _ _); simpl in *. by subst.
Qed.

(** The loader without a cache. *)
Definition fresh_loader (w : World) (url : string) (st : unit) : (json_schema + SchemaErr) * unit := (fresh w url, st).

Definition cache_current (w : World) (cache : schema_cache) : Prop := map_Forall (λ url e, e = fresh w url) cache.

Lemma LoadSchema_current w u cache (st : unit) : cache_current w cache →
  (LoadSchema w u cache).1 = (fresh_loader w u st).1 ∧ cache_current w (LoadSchema w u cache).2.
Proof.
  intros Hc. unfold LoadSchema. destruct (cache !! u) as [e|] eqn:E; simpl; [by rewrite (Hc u e E)|].
  split; [done|]. by apply map_Forall_insert_2.
Qed.

Lemma sys_ok_current `{!JsonSchemasLaws} s : sys_ok s → sy_pending s = [] → cache_current (sy_world s) (sy_cache s).
Proof.
  intros [Hc _] Hp u e Hu. destruct (Hc u e Hu) as [_ [He|He]]; [|by apply current_fresh].
  rewrite Hp in He. by apply Exists_nil in He.
Qed.

(** ** What validation reports *)

(** The leaves of an error: instance location, keyword location and message. *)
Fixpoint leaves (e : JsonValidationError) : list (string * string * string) :=
  match e with
  | MkJsonError loc kw msg [] => [(loc, kw, msg)]
  | MkJsonError _ _ _ causes => concat (map leaves causes)
  end.
Definition let_through (filter : option (string → bool)) (kw : string) : bool := match filter with None => true | Some f => f kw end.
Definition leaf_error (source : ErrSource) (l : string * string * string) : ValidationError := newValidationError l.1.1 l.2 source.

Fixpoint newValidationErrorList_leaves (e : JsonValidationError) source f {struct e} :
  newValidationErrorList e source f = map (leaf_error source) (List.filter (λ l, let_through f l.1.2) (leaves e)).
Proof.
  destruct e as [loc kw msg [|c causes]].
  - simpl. unfold let_through. by destruct f as [f|]; [destruct (f kw)|].
  - change (concat (map (λ c, newValidationErrorList c source f) (c :: causes)) =
      map (leaf_error source) (List.filter (λ l, let_through f l.1.2) (concat (map leaves (c :: causes))))).
    generalize (c :: causes). fix go 1. intros [|d l]; [done|]. cbn [map concat]. rewrite List.filter_app, map_app. f_equal; [|apply go].
    apply newValidationErrorList_leaves.
Qed.

Definition ignored_action (ignore : list string) (a : string) : bool := existsb (λ g, MatchesGlob g a) ignore.

Lemma FilterGlobNotMatches_filter g values : FilterGlobNotMatches g values = List.filter (λ v, negb (MatchesGlob g v)) values.
Proof.
  enough (∀ out, foldl (λ out v, if negb (MatchesGlob g v) then out ++ [v] else out) out values = out ++ List.filter (λ v, negb (MatchesGlob g v)) values) as E
    by apply (E []).
  induction values as [|v values IH]; simpl; intros out; [by rewrite app_nil_r|].
  rewrite IH. destruct (negb (MatchesGlob g v)); [by rewrite <- app_assoc|done].
Qed.

Lemma filterActionsToValidate_filter ignore actions : filterActionsToValidate ignore actions = List.filter (λ a, negb (ignored_action ignore a)) actions.
Proof.
  revert actions. induction ignore as [|g ignore IH]; intros actions; cbn [filterActionsToValidate].
  - symmetry. apply List.forallb_filter_id. by apply forallb_forall.
  - rewrite FilterGlobNotMatches_filter.
    transitivity (List.filter (λ a, negb (ignored_action ignore a)) (List.filter (λ a, negb (MatchesGlob g a)) actions)).
    + rewrite <- IH. by destruct (List.filter _ actions) eqn:E; [destruct ignore|].
    + clear. induction actions as [|a actions IH]; [done|]. simpl. destruct (MatchesGlob g a); simpl; [done|].
      unfold ignored_action at 1. by rewrite IH.
Qed.

(** Some action is not excluded from validation. *)
Definition wanted (r : SchemaRef) (actions : list string) : Prop :=
  schema_Ref r ≠ "" ∧
  match IgnoreWhen r with Some (g :: ignore) => ∃ a, a ∈ actions ∧ ignored_action (g :: ignore) a = false | _ => True end.

Lemma all_ignored_false r actions :
  all_ignored r actions = false ↔ match IgnoreWhen r with Some (g :: ignore) => ∃ a, a ∈ actions ∧ ignored_action (g :: ignore) a = false | _ => True end.
Proof.
  unfold all_ignored. destruct (IgnoreWhen r) as [[|g ignore]|]; [done| |done]. rewrite filterActionsToValidate_filter.
  assert (∀ a, In a (List.filter (λ a, negb (ignored_action (g :: ignore) a)) actions) ↔ a ∈ actions ∧ ignored_action (g :: ignore) a = false) as E
    by (intros a; rewrite filter_In, negb_true_iff, list_elem_of_In; done).
  destruct (List.filter _ actions) as [|a l]; split; [done| | |done].
  - intros (a & Ha). by apply E in Ha.
  - intros _. exists a. apply E. by left.
Qed.

(** What is wrong with the attributes of one side, with schemas loaded from the store. *)
Inductive reported (w : World) (src : ErrSource) (r : SchemaRef) (attr : gmap string Value) (filter : option (string → bool)) : ValidationError → Prop :=
  | reported_load e x : fresh w (schema_Ref r) = inr e → x ∈ NewLoadErr src (schema_Ref r) e → reported w src r attr filter x
  | reported_leaf schema e l : fresh w (schema_Ref r) = inl schema → schema_Validate schema attr = Some (Invalid e) → l ∈ leaves e → let_through filter l.1.2 = true →
      reported w src r attr filter (leaf_error src l).

Lemma validateAttr_reports w src r attr actions filter errs :
  (validateAttr (fresh_loader w) src r attr actions filter tt).1 = inl errs →
  ∀ e, e ∈ errs ↔ ∃ s, r = Some s ∧ wanted s actions ∧ reported w src s attr filter e.
Proof.
  intros E e. unfold validateAttr in E. destruct r as [r|]; simpl in E; [|injection E as <-; set_solver].
  destruct (decide (schema_Ref r = "")) as [Hr|Hr]; [injection E as <-; split; [set_solver|intros (? & [= <-] & [Hn _] & _); congruence]|].
  destruct (all_ignored r actions) eqn:Hi.
  { injection E as <-. split; [set_solver|]. intros (? & [= <-] & [_ Hw] & _). apply all_ignored_false in Hw. congruence. }
  assert (wanted r actions) as Hw by (split; [done|by apply all_ignored_false]). simpl in E.
  transitivity (reported w src r attr filter e); [|naive_solver].
  destruct (fresh w (schema_Ref r)) as [schema|err] eqn:Ef.
  - destruct (schema_Validate schema attr) as [[j|msg]|] eqn:Ev; simpl in E; [|done|]; injection E as <-.
    + rewrite newValidationErrorList_leaves. rewrite list_elem_of_In, in_map_iff. split.
      * intros (l & <- & [Hl Hf]%filter_In). eapply reported_leaf; [done..|by apply list_elem_of_In|done].
      * intros H'. destruct H' as [err x Hn|schema' j' l Hs Hv Hl Hf]; [congruence|]. rewrite Ef in Hs. injection Hs as <-. rewrite Ev in Hv. injection Hv as <-. exists l.
        split; [done|]. apply filter_In. split; [by apply list_elem_of_In|done].
    + split; [set_solver|]. intros H'. destruct H'; congruence.
  - simpl in E. injection E as <-. split.
    + by apply reported_load.
    + intros H'. destruct H' as [err' x Hn|]; congruence.
Qed.

Lemma validate_reports w enf schemas pattr rattr actions filter errs reject :
  (validate (fresh_loader w) enf (Some schemas) pattr rattr actions filter tt).1 = inl (errs, reject) →
  (reject = true ↔ enf = EnforcementReject) ∧
  ∀ e, e ∈ errs ↔ (∃ s, PrincipalSchemaRef schemas = Some s ∧ wanted s actions ∧ reported w ErrSourcePrincipal s pattr None e) ∨
                  (∃ s, ResourceSchemaRef schemas = Some s ∧ wanted s actions ∧ reported w ErrSourceResource s rattr filter e).
Proof.
  intros E. unfold validate in E.
  destruct (validateAttr _ ErrSourcePrincipal _ _ _ _ _) as [p []] eqn:Ep. apply (f_equal fst) in Ep. destruct p as [perrs|]; [|done].
  destruct (validateAttr _ ErrSourceResource _ _ _ _ _) as [r []] eqn:Er. apply (f_equal fst) in Er. destruct r as [rerrs|]; [|done].
  simpl in E. injection E as <- <-. split; [apply bool_decide_eq_true|]. intros e.
  by rewrite elem_of_app, (validateAttr_reports _ _ _ _ _ _ _ Ep), (validateAttr_reports _ _ _ _ _ _ _ Er).
Qed.

(** C18: A request is validated against the schemas that its policy names, the
    principal's attributes against the one and the resource's against the other,
    unless every action of the request is excluded by the schema's ignore list: the
    errors reported are exactly the leaves of the library's errors, with their
    location and message, or the failure to load a schema.  For a plan, a missing
    property of the resource is no error. *)
Theorem validation_reports w enf schemas (check : CheckInput) (plan : PlanInput) errs errs' reject reject' : enf ≠ EnforcementNone →
  (validateCheckInput (fresh_loader w) enf (Some schemas) check tt).1 = inl (errs, reject) →
  (validatePlanResourcesInput (fresh_loader w) enf (Some schemas) plan tt).1 = inl (errs', reject') →
  (reject = true ↔ enf = EnforcementReject) ∧ (reject' = true ↔ enf = EnforcementReject) ∧
  (∀ e, e ∈ errs ↔
    (∃ s, PrincipalSchemaRef schemas = Some s ∧ wanted s (ci_Actions check) ∧ reported w ErrSourcePrincipal s (pr_Attr (ci_Principal check)) None e) ∨
    (∃ s, ResourceSchemaRef schemas = Some s ∧ wanted s (ci_Actions check) ∧ reported w ErrSourceResource s (rs_Attr (ci_Resource check)) None e)) ∧
  (∀ e, e ∈ errs' ↔
    (∃ s, PrincipalSchemaRef schemas = Some s ∧ wanted s (pi_Actions plan) ∧ reported w ErrSourcePrincipal s (pr_Attr (pi_Principal plan)) None e) ∨
    (∃ s, ResourceSchemaRef schemas = Some s ∧ wanted s (pi_Actions plan) ∧ reported w ErrSourceResource s (pi_Attr plan) (Some not_required) e)).
Proof.
  intros Hn Hc Hp. unfold validateCheckInput, validatePlanResourcesInput in *.
  destruct enf; [done|..]; apply validate_reports in Hc as [? ?], Hp as [? ?]; by split_and!.
Qed.

(** C17: Whatever loads, evictions, changes of the store and reloads came before, and
    however they interleaved, once every event has been handled a request is validated
    as if each schema were loaded from the store at that moment, cached or not: for
    schemas of the store that refer to no other document, and with no load of a schema
    in flight while an event of that schema is handled. *)
Theorem validated_as_stored `{!JsonSchemasLaws} w ops enf schemas (check : CheckInput) (plan : PlanInput) :
  ops_allowed (MkSys w ∅ [] []) ops →
  let s := schema_run ops (MkSys w ∅ [] []) in
  sy_pending s = [] →
  (validateCheckInput (LoadSchema (sy_world s)) enf schemas check (sy_cache s)).1 =
    (validateCheckInput (fresh_loader (sy_world s)) enf schemas check tt).1 ∧
  (validatePlanResourcesInput (LoadSchema (sy_world s)) enf schemas plan (sy_cache s)).1 =
    (validatePlanResourcesInput (fresh_loader (sy_world s)) enf schemas plan tt).1.
Proof.
  intros Ha s Hp. pose proof (sys_ok_current s (sys_ok_run ops _ Ha (sys_ok_start w)) Hp) as Hc.
  assert (∀ u st (st' : unit), cache_current (sy_world s) st →
    (LoadSchema (sy_world s) u st).1 = (fresh_loader (sy_world s) u st').1 ∧ cache_current (sy_world s) (LoadSchema (sy_world s) u st).2) as Hl
    by (intros u st st'; apply LoadSchema_current).
  unfold validateCheckInput, validatePlanResourcesInput. clearbody s.
  destruct enf; [done|..]; split; by apply (validate_agrees _ _ (λ cache _, cache_current (sy_world s) cache)).
Qed.
End validate.

(** * A concrete library

    A document names the attribute that it requires, or the document that it refers
    to. *)

Definition toy_compile (load : string → string + LoadErr) (url : string) : string + LoadErr :=
  match load url with
  | inl doc => match after "ref:" doc with Some u => load u | None => inl doc end
  | inr e => inr e
  end.
#[export] Instance c_json_schemas : JsonSchemas := {|
  json_schema := string;
  schema_AddResource := λ _ _, true;
  schema_LoadURL := λ u, inr (LoaderNotFound u);
  schema_Compile := toy_compile;
  schema_Validate := λ key attr, match attr !! key with Some _ => None | None => Some (Invalid (MkJsonError "" "/required" ("missing properties: " +:+ key) [])) end;
  schema_urls := λ load url, url :: match load url with inl doc => match after "ref:" doc with Some u => [u] | None => [] end | inr _ => [] end;
|}.
#[export] Instance c_json_schemas_laws : JsonSchemasLaws.
Proof.
  constructor. simpl. intros load load' url Hl. unfold toy_compile.
  rewrite (Hl url) by set_solver. destruct (load url) as [doc|]; [|done]. destruct (after "ref:" doc); [|done]. apply Hl. set_solver.
Qed.
#[export] Instance c_urls : GoUrls := {|
  url_Parse := λ s, match after "cerbos:///" s with Some f => Some (MkURL "cerbos" ("/" +:+ f) s) | None => Some (MkURL "" s s) end;
  filepath_Abs := Some;
  go_quote := λ s, s;
|}.

Definition c_store (docs : gmap string string) : World :=
  MkWorld (λ f, match docs !! f with Some c => inl c | None => inr (ErrNotExist f) end) (λ _, None) (λ _, inr true).
Definition c_two : World := c_store (list_to_map [("a.json", "ref:cerbos:///b.json"); ("b.json", "team")]).

(** A schema stays compiled against a document it refers to after the event of that
    document's change. *)
Theorem stale_schema_reference :
  let s := schema_run [Op_Miss (cacheKey "a.json"); Op_Set 0; Op_Change "b.json" (inl "level"); Op_Event] (MkSys c_two ∅ [] []) in
  sy_pending s = [] ∧ (LoadSchema (sy_world s) (cacheKey "a.json") (sy_cache s)).1 = inl "team" ∧ fresh (sy_world s) (cacheKey "a.json") = inl "level".
Proof. by vm_compute. Qed.

(** An event that is handled during a load does not invalidate what the load puts
    into the cache. *)
Theorem stale_schema_load :
  let s := schema_run [Op_Miss (cacheKey "b.json"); Op_Change "b.json" (inl "level"); Op_Event; Op_Set 0] (MkSys c_two ∅ [] []) in
  sy_pending s = [] ∧ (LoadSchema (sy_world s) (cacheKey "b.json") (sy_cache s)).1 = inl "team" ∧ fresh (sy_world s) (cacheKey "b.json") = inl "level".
Proof. by vm_compute. Qed.

(** ** Witnesses *)

Definition c_text (e : SchemaErr) : string := match e with SchemaMissing p => p | ReferencedMissing p _ => p | Unresolved u => u | LoadFailed _ => "" end.
Definition c_resource_schema (ignore : list string) : Schemas_ :=
  MkSchemas (Some (MkSchemaRef (cacheKey "missing.json") None)) (Some (MkSchemaRef (cacheKey "b.json") (Some ignore))).
Definition c_check (attr : list (string * Value)) : CheckInput := ask ["user"] attr ["view"; "edit"].
Definition c_plan : PlanInput := MkPlanInput "q" ["view"] (alice ["user"]) "doc" ∅ "" "" ∅.
Definition c_history : list schema_op :=
  [Op_Miss (cacheKey "b.json"); Op_Set 0; Op_Change "b.json" (inl "level"); Op_Event; Op_Miss (cacheKey "b.json"); Op_Miss (cacheKey "b.json"); Op_Set 0; Op_Evict "x"; Op_Set 0].

Lemma c_stored f : after "cerbos:///" (cacheKey f) = Some f → stored (cacheKey f).
Proof. intros E. exists f. split; [done|]. cbn [url_Parse c_urls]. by rewrite E. Qed.

Theorem validation_reports_witness :
  ∃ errs errs',
    (validateCheckInput c_text (fresh_loader c_two) EnforcementWarn (Some (c_resource_schema ["edit"])) (c_check []) tt).1 = inl (errs, false) ∧
    (validatePlanResourcesInput c_text (fresh_loader c_two) EnforcementWarn (Some (c_resource_schema ["edit"])) c_plan tt).1 = inl (errs', false) ∧
    length errs = 2 ∧ length errs' = 1 ∧
    ∀ e, e ∈ errs' ↔
      (∃ s, PrincipalSchemaRef (c_resource_schema ["edit"]) = Some s ∧ wanted s ["view"] ∧ reported c_text c_two ErrSourcePrincipal s ∅ None e) ∨
      (∃ s, ResourceSchemaRef (c_resource_schema ["edit"]) = Some s ∧ wanted s ["view"] ∧ reported c_text c_two ErrSourceResource s ∅ (Some not_required) e).
Proof.
  eexists _, _.
  assert ((validateCheckInput c_text (fresh_loader c_two) EnforcementWarn (Some (c_resource_schema ["edit"])) (c_check []) tt).1 = inl (_, false)) as E1
    by (vm_compute; reflexivity).
  assert ((validatePlanResourcesInput c_text (fresh_loader c_two) EnforcementWarn (Some (c_resource_schema ["edit"])) c_plan tt).1 = inl (_, false)) as E2
    by (vm_compute; reflexivity).
  split; [exact E1|]. split; [exact E2|]. do 2 (split; [reflexivity|]).
  exact (proj2 (proj2 (proj2 (validation_reports c_text c_two EnforcementWarn (c_resource_schema ["edit"]) (c_check []) c_plan _ _ false false
    ltac:(done) E1 E2)))).
Defined.

Lemma c_history_allowed : ops_allowed (MkSys c_two ∅ [] []) c_history.
Proof.
  assert (stored (cacheKey "b.json")) as Hs by by apply c_stored.
  assert (∀ w, (∃ d, w_store w "b.json" = inl d ∧ after "ref:" d = None) → self_contained w (cacheKey "b.json")) as Hc.
  { intros w (d & Hd & Hr) u Hu. revert Hu. unfold schema_urls. simpl. unfold DefaultResolver. simpl. unfold loadCerbosURL. simpl.
    replace (TrimPrefix _ "/") with "b.json" by by vm_compute. rewrite Hd, Hr. by intros ?%list_elem_of_singleton. }
  repeat split; try done; try (apply Hc; eexists; split; [vm_compute; reflexivity|reflexivity]).
  - intros e _ u Hu. vm_compute in Hu. by apply not_elem_of_nil in Hu.
Qed.

Definition c_end : schema_sys := schema_run c_history (MkSys c_two ∅ [] []).
Theorem validated_as_stored_witness :
  ops_allowed (MkSys c_two ∅ [] []) c_history ∧ sy_pending c_end = [] ∧ sy_cache c_end !! cacheKey "b.json" = Some (inl "level") ∧
  (validateCheckInput c_text (LoadSchema (sy_world c_end)) EnforcementReject (Some (c_resource_schema [])) (c_check [("level", V_bool true)]) (sy_cache c_end)).1 =
    (validateCheckInput c_text (fresh_loader (sy_world c_end)) EnforcementReject (Some (c_resource_schema [])) (c_check [("level", V_bool true)]) tt).1.
Proof.
  split; [exact c_history_allowed|]. split; [reflexivity|]. split; [reflexivity|].
  exact (proj1 (validated_as_stored c_text c_two c_history EnforcementReject (Some (c_resource_schema [])) (c_check [("level", V_bool true)]) c_plan
    c_history_allowed eq_refl)).
Defined.
