(* ===== verification/Findings.v ===== *)
(** Behaviours of the code that its documentation, its comments or its intent do
    not suggest, each on a concrete input. *)
From S2P Require Import Prelude GoRuntime Bitmap Arena LazyDim Dimension GlobDim Namer Policy ScopePerms IndexCore IndexQuery Index IndexSpec RuleTableBuild RuleTable Manager Eval Check TableSpec Serving PlanExpr PlanFilter PlanSem PlanNode Plan Concrete PlanConcrete CompileSource CompileDefs Compile CompileManager StoreIndex StoreBuild CompileConcrete.

Local Open Scope string_scope.
Local Open Scope list_scope.
Open Scope nat_scope.

(** Updating one policy through a storage event. *)
Definition update (id : ModuleID) (p : RunnablePolicySet) (rt : RuleTable) : option (RuleTable * bool) :=
  '(rt, e) ← processPolicyEvent (MkLoader (λ _, Some (Some p)) (λ _, None) None) rt (MkEvent EventAddOrUpdatePolicy id None []);
  Some (rt, match e with None => true | Some _ => false end).
Definition doc_id : ModuleID := ResourcePolicyModuleID "doc" "default" "".

(** The policy no longer has derived roles, but a condition still mentions one. *)
Definition doc_without_roles : RunnablePolicySet :=
  resource_policy "doc" "" SCOPE_PERMISSIONS_UNSPECIFIED [] [] [rule "r1" ["view"] ["user"] [] EFFECT_ALLOW (Some "role:doc_owner")].

(** Derived roles survive an incremental update that removes them.  A table
    to which [doc_policy] and then its new version without derived roles are
    added by events allows what a table freshly built from the new version
    denies: [doDeletePolicy] does not forget the compiled derived roles of the
    policy it deletes, and they are picked up again. *)
Theorem stale_derived_roles :
  let q := ask ["user"] owned ["view"] in
  (rt ← table []; '(rt, _) ← update doc_id doc_policy rt; '(rt, _) ← update doc_id doc_without_roles rt; decide_ rt q) = Some [("view", EFFECT_ALLOW)] ∧
  (rt ← table [doc_without_roles]; decide_ rt q) = Some [("view", EFFECT_DENY)].
Proof. split; vm_compute; reflexivity. Qed.

(** A principal policy whose condition mentions a derived role. *)
Definition alice_if_owner : RunnablePolicySet :=
  principal_policy "alice" "" "doc" [MkActionRule "publish" "p1" (Some (Cond_Expr (MkExpr "role:doc_owner"))) EFFECT_ALLOW None None].

(** The decision on one action depends on the others in the request.  The
    evaluation context keeps the derived roles of the last resource scope, so a
    condition in a principal policy sees none of them for the first action of a
    request, and those of the previous action for the next. *)
Theorem action_order_changes_decision :
  (rt ← table [doc_policy; alice_if_owner]; decide_ rt (ask ["user"] owned ["publish"])) = Some [("publish", EFFECT_DENY)] ∧
  (rt ← table [doc_policy; alice_if_owner]; decide_ rt (ask ["user"] owned ["view"; "publish"])) = Some [("view", EFFECT_ALLOW); ("publish", EFFECT_ALLOW)].
Proof. split; vm_compute; reflexivity. Qed.

Definition slash_role : RunnablePolicySet := role_policy "1/admin" "acme" ["user"] "doc" ["view"].

(** A role with a slash in its name is not cleaned up.  Its scope is read
    back wrongly from the name of its policy, so after the policy is deleted its
    parent roles are still recorded. *)
Theorem slash_role_left_behind :
  ScopeFromFQN (RolePolicyFQN "1/admin" "default" "acme") = "admin.vdefault/acme" ∧
  (rt ← table [slash_role]; rt ← doDeletePolicy rt (RolePolicyModuleID "1/admin" "default" "acme");
   Some (AddParentRoles (rt_idx rt) ["acme"] ["1/admin"])) = Some ["1/admin"; "user"].
Proof. split; vm_compute; reflexivity. Qed.

(** A policy with a variable that does not compile. *)
Definition broken_doc : RunnablePolicySet :=
  resource_policy "doc" "" SCOPE_PERMISSIONS_UNSPECIFIED [] [("v", "syntax error")] [rule "r1" ["view"] ["user"] [] EFFECT_ALLOW None].

(** A failed update is not undone.  When the new version of a policy has a
    row that does not compile, the update reports an error, but the rows of the
    version in use are already deleted: what was allowed before is then denied. *)
Theorem failed_update_drops_policy :
  let q := ask ["user"] [] ["view"] in
  (rt ← table [doc_policy]; decide_ rt q) = Some [("view", EFFECT_ALLOW)] ∧
  (rt ← table [doc_policy]; '(rt, ok) ← update doc_id broken_doc rt; l ← decide_ rt q; Some (ok, l)) = Some (false, [("view", EFFECT_DENY)]).
Proof. split; vm_compute; reflexivity. Qed.

(** A role policy in a child scope that says nothing about documents, the policy of
    documents in the root scope, and one in the child scope that adds nothing. *)
Definition admin_images : RunnablePolicySet := role_policy "admin" "acme" [] "img" ["view"].
Definition admin_docs : RunnablePolicySet :=
  resource_policy "doc" "" SCOPE_PERMISSIONS_UNSPECIFIED [] [] [rule "r1" ["view"; "edit"] ["admin"] [] EFFECT_ALLOW None].
Definition admin_docs_acme : RunnablePolicySet :=
  resource_policy "doc" "acme" SCOPE_PERMISSIONS_REQUIRE_PARENTAL_CONSENT_FOR_ALLOWS [] [] [rule "c1" ["edit"] ["admin"] [] EFFECT_ALLOW None].

(** A role policy does not refuse resources its scope has no rows for.  The
    role policy lists no action on documents, yet viewing one is allowed by the
    policy of the root scope; once the child scope has a rule for another action,
    the same request is denied. *)
Theorem role_policy_passed_over :
  let q := MkCheckInput "q" (MkResource "doc" "" "d1" ∅ "acme") (alice ["admin"]) ["view"] ∅ in
  (rt ← table [admin_docs; admin_images]; decide_ rt q) = Some [("view", EFFECT_ALLOW)] ∧
  (rt ← table [admin_docs; admin_docs_acme; admin_images]; decide_ rt q) = Some [("view", EFFECT_DENY)] ∧
  (rt ← table [admin_docs; admin_docs_acme]; decide_ rt q) = Some [("view", EFFECT_ALLOW)].
Proof. split_and!; vm_compute; reflexivity. Qed.

(** ** Between two critical sections *)

(** A principal policy that denies what the resource policy allows, and its new
    version, which denies it as well. *)
Definition alice_denied (name : string) : RunnablePolicySet :=
  principal_policy "alice" "" "doc" [MkActionRule "view" name None EFFECT_DENY None None].
Definition alice_event : Event := MkEvent EventAddOrUpdatePolicy (PrincipalPolicyModuleID "alice" "default" "") None [].
Definition alice_loader : PolicyLoader := MkLoader (λ _, Some (Some (alice_denied "p2"))) (λ _, None) None.

(** C40: An update opens a window.  The policy is deleted and added again in separate
    critical sections, so a check that gets the lock between them is answered from a
    table without the policy: an action that the policy denies before and after the
    update is allowed. *)
Theorem update_window_allows :
  let q := ask ["user"] owned ["view"] in
  ∃ rt s s', table [doc_policy; alice_denied "p1"] = Some rt ∧ decide_ rt q = Some [("view", EFFECT_DENY)] ∧
    rtc (step alice_loader) (MkSystem (MkManager rt None) [] [alice_event]) s ∧
    decide_ (mgr_RuleTable (sys_mgr s)) q = Some [("view", EFFECT_ALLOW)] ∧
    rtc (step alice_loader) s s' ∧ sys_tasks s' = [] ∧ sys_queue s' = [] ∧
    decide_ (mgr_RuleTable (sys_mgr s')) q = Some [("view", EFFECT_DENY)].
Proof.
  intros q. set (id := PrincipalPolicyModuleID "alice" "default" "").
  assert ((rt ← table [doc_policy; alice_denied "p1"]; l ← decide_ rt q; Some (l, checkPolicy rt (Some (alice_denied "p2")) None)) = Some ([("view", EFFECT_DENY)], None)) as H1 by (vm_compute; reflexivity).
  assert ((rt ← table [doc_policy; alice_denied "p1"]; rt ← doDeletePolicy rt id; decide_ rt q) = Some [("view", EFFECT_ALLOW)]) as H2 by (vm_compute; reflexivity).
  assert ((rt ← table [doc_policy; alice_denied "p1"]; rt ← doDeletePolicy rt id; '(rt, ok) ← addPolicy rt (Some (alice_denied "p2")); l ← decide_ rt q; Some (l, ok)) =
    Some ([("view", EFFECT_DENY)], true)) as H3 by (vm_compute; reflexivity).
  destruct (table [doc_policy; alice_denied "p1"]) as [rt|]; [|discriminate H1]. cbn [mbind option_bind] in H1, H2, H3.
  destruct (doDeletePolicy rt id) as [rt1|] eqn:E1; [|discriminate H2]. cbn [mbind option_bind] in H2, H3.
  destruct (addPolicy rt1 (Some (alice_denied "p2"))) as [[rt2 ok]|] eqn:E2; [|discriminate H3]. cbn [mbind option_bind] in H3.
  destruct (decide_ rt q) as [l|] eqn:E0; [|discriminate H1]. cbn [mbind option_bind] in H1. injection H1 as -> H1.
  destruct (decide_ rt2 q) as [l|] eqn:E3; [|discriminate H3]. cbn [mbind option_bind] in H3. injection H3 as -> ->.
  exists rt, (update_window alice_loader (MkManager rt None) alice_event [] (Some (alice_denied "p2")) rt1), (MkSystem (MkManager rt2 None) [] []).
  split_and!; [reflexivity|exact E0| |exact H2| |reflexivity|reflexivity|exact E3].
  - apply update_window_reached; [reflexivity|reflexivity|exact H1|exact E1].
  - eapply rtc_l; [left; apply step_task; cbn [run_task set_table mgr_RuleTable]; rewrite E2; reflexivity|]. apply rtc_once. left. apply step_task. reflexivity.
Qed.

(** * Plans *)

(** Whether the filter of a plan selects a resource with the given attributes. *)
Definition plan_selects_ (l : list RunnablePolicySet) (roles actions : list string) (attr : list (string * Value)) : option bool :=
  rt ← table l; f ← plan_ rt (plan_ask roles actions); filter_holds (c_env (list_to_map attr)) f.
Definition check_ (l : list RunnablePolicySet) (roles actions : list string) (attr : list (string * Value)) : option (list (string * Effect)) :=
  rt ← table l; decide_ rt (ask roles attr actions).

(** A resource policy that only denies, and a principal policy that allows. *)
Definition deny_owner : RunnablePolicySet :=
  resource_policy "doc" "" SCOPE_PERMISSIONS_UNSPECIFIED [] [] [rule "r1" ["view"] ["user"] [] EFFECT_DENY (Some "owner")].
Definition alice_public : RunnablePolicySet :=
  principal_policy "alice" "" "doc" [MkActionRule "view" "p1" (Some (Cond_Expr (MkExpr "R.public"))) EFFECT_ALLOW None None].

(** A plan can select a resource that the check denies.  The resource policies
    have a conditional DENY for the action and no ALLOW, so the node of the plan
    starts from the negated DENY; the conditional ALLOW of a principal policy is
    then added as an alternative to it.  A resource for which neither condition
    holds is selected, although nothing allows the action. *)
Theorem plan_selects_denied :
  let attr := [("owner", V_string "bob"); ("public", V_bool false)] in
  plan_selects_ [deny_owner; alice_public] ["user"] ["view"] attr = Some true ∧
  check_ [deny_owner; alice_public] ["user"] ["view"] attr = Some [("view", EFFECT_DENY)].
Proof. split; vm_compute; reflexivity. Qed.

(** One role may view, another may not view what the principal owns. *)
Definition two_roles : RunnablePolicySet :=
  resource_policy "doc" "" SCOPE_PERMISSIONS_UNSPECIFIED [] []
    [rule "r1" ["view"] ["user"] [] EFFECT_ALLOW (Some "R.public"); rule "r2" ["view"] ["guest"] [] EFFECT_DENY (Some "owner")].

(** A conditional DENY for one role is applied to all roles in plans, but only to
    that role in checks: the check allows what the plan leaves out. *)
Theorem plan_mixes_roles :
  let attr := [("owner", V_string "alice"); ("public", V_bool true)] in
  plan_selects_ [two_roles] ["user"; "guest"] ["view"] attr = Some false ∧
  check_ [two_roles] ["user"; "guest"] ["view"] attr = Some [("view", EFFECT_ALLOW)].
Proof. split; vm_compute; reflexivity. Qed.

(** A scope that overrides its parents, below one that needs their consent. *)
Definition scoped_docs : list RunnablePolicySet :=
  [resource_policy "doc" "acme.hr" SCOPE_PERMISSIONS_OVERRIDE_PARENT [] [] [rule "r1" ["view"] ["user"] [] EFFECT_ALLOW (Some "owner")];
   resource_policy "doc" "acme" SCOPE_PERMISSIONS_REQUIRE_PARENTAL_CONSENT_FOR_ALLOWS [] [] [rule "r2" ["view"] ["user"] [] EFFECT_ALLOW None];
   resource_policy "doc" "" SCOPE_PERMISSIONS_OVERRIDE_PARENT [] [] [rule "r3" ["edit"] ["user"] [] EFFECT_ALLOW None]].

(** The ALLOW of a scope that overrides its parents is lost in plans when a parent
    scope allows pending the consent of its own parents, which do not give it; the
    check has allowed before it gets to the parent scope. *)
Theorem plan_loses_override :
  (rt ← table scoped_docs; plan_ rt (MkPlanInput "q" ["view"] (alice ["user"]) "doc" ∅ "" "acme.hr" ∅)) = Some (MkFilter KIND_ALWAYS_DENIED None) ∧
  (rt ← table scoped_docs; decide_ rt (MkCheckInput "q" (MkResource "doc" "" "d1" (list_to_map owned) "acme.hr") (alice ["user"]) ["view"] ∅)) = Some [("view", EFFECT_ALLOW)].
Proof. split; vm_compute; reflexivity. Qed.

(** * The compiler and the index of policy files

    Behaviours of the compiler and of the index of policy files that their
    documentation or their intent do not suggest, each on a concrete input. *)

(** * Files *)

Definition f_fs (ps : list policyv1.Policy) : FileSystem := list_to_map ((λ p, (policyv1.p_SourceFile p, MkFile [(p, true)] false)) <$> ps).
Definition f_index (ps : list policyv1.Policy) : option index :=
  r ← build (f_fs ps) id (policyv1.p_SourceFile <$> ps); match r with inl idx => Some idx | inr _ => None end.
Definition f_store (ps : list policyv1.Policy) (idx : index) : SourceStore := store_of (f_fs ps) id idx.
Definition f_manager : Manager := MkManager (initBuildState (emptyRuleTable NewProtoRuletable [])) None.

(** A resource policy imports derived roles, which import variables. *)
Definition f_shared (open : string) : policyv1.Policy :=
  c_policy "shared.yaml" (policyv1.Policy_ExportVariables (policyv1.MkExportVariables "shared" {["open" := open]})).
Definition f_roles : policyv1.Policy :=
  c_policy "roles.yaml" (policyv1.Policy_DerivedRoles (policyv1.MkDerivedRoles "roles" [policyv1.MkRoleDef "reader" ["user"] (c_if "V.open")]
    (Some (policyv1.MkVariables ["shared"] ∅)) None)).
Definition f_docs : policyv1.Policy :=
  c_policy "docs.yaml" (policyv1.Policy_ResourcePolicy (policyv1.MkResourcePolicy "doc" "default" ["roles"]
    [policyv1.MkResourceRule ["view"] ["reader"] [] None EFFECT_ALLOW "" None] "" None None SCOPE_PERMISSIONS_UNSPECIFIED None)).
Definition f_before : list policyv1.Policy := [f_docs; f_roles; f_shared "true"].
Definition f_after : list policyv1.Policy := [f_docs; f_roles; f_shared "false"].

(** Changing the variables: the event, the table that follows it, and one loaded
    afresh. *)
Definition f_change : option (Event * Manager * Manager) :=
  idx ← f_index f_before;
  w ← Wrap (f_shared "false");
  '(idx', (evt, _)) ← AddOrUpdate idx (MkEntry "shared.yaml" (Some w));
  m ← reload (loader_of (f_store f_before idx)) f_manager;
  m1 ← OnStorageEvent1 (loader_of (f_store f_after idx')) m evt;
  m2 ← reload (loader_of (f_store f_after idx')) f_manager;
  Some (evt, m1, m2).
Definition f_dependents : option (list ModuleID * gset ModuleID) :=
  idx ← f_index f_before;
  results ← GetDependents idx [c_id (f_shared "true")];
  set ← results !! c_id (f_shared "true");
  '(evt, _, _) ← f_change;
  Some (ev_Dependents evt, set).
Definition f_decisions (q : CheckInput) : option (option (list (string * Effect)) * option (list (string * Effect))) :=
  '(_, followed, fresh) ← f_change; Some (decide_ (mgr_RuleTable followed) q, decide_ (mgr_RuleTable fresh) q).

(** A change to variables does not reach the policies that use them through
    derived roles.  The event of [AddOrUpdate] lists the direct importers only, here
    the derived roles, which compile to nothing on their own; the resource policy that
    imports the roles, which [GetDependents] does list, is not reloaded, and the
    table that follows the event allows what a table loaded afresh denies. *)
Theorem change_misses_indirect_importers :
  (∃ set, f_dependents = Some ([c_id f_roles], set) ∧ c_id f_docs ∈ set) ∧
  f_decisions (ask ["user"] [] ["view"]) = Some (Some [("view", EFFECT_ALLOW)], Some [("view", EFFECT_DENY)]).
Proof.
  split; [|vm_compute; reflexivity].
  assert (match f_dependents with Some (l, set) => bool_decide (l = [c_id f_roles]) && bool_decide (c_id f_docs ∈ set) | None => false end = true) as Hd
    by (vm_compute; reflexivity).
  destruct f_dependents as [[l set]|]; [|discriminate Hd]. apply andb_true_iff in Hd as [Hl Hs].
  apply bool_decide_eq_true in Hl, Hs. exists set. by rewrite Hl.
Qed.

(** * Ancestors that role policies stand in for *)

Definition f_rule : policyv1.ResourceRule := policyv1.MkResourceRule ["view"] [] ["user"] None EFFECT_ALLOW "" None.
Definition f_resource (file scope : string) : policyv1.Policy :=
  c_policy file (policyv1.Policy_ResourcePolicy
    (policyv1.MkResourcePolicy "doc" "default" [] [f_rule] scope None None SCOPE_PERMISSIONS_UNSPECIFIED None)).
(** The resource policy of the scope between is missing, a role policy is there. *)
Definition f_scoped : list policyv1.Policy := [
  f_resource "hr.yaml" "acme.hr"; f_resource "root.yaml" "";
  c_policy "role.yaml" (policyv1.Policy_RolePolicy (policyv1.MkRolePolicy "user" "default" [] "acme" [policyv1.MkRoleRule "doc" ["view"] None "" None] None None))].
Definition f_child : ModuleID := c_id (f_resource "hr.yaml" "acme.hr").

(** A policy that the builder accepts can be left out of the rule table without
    an error.  A resource policy without its parent is accepted when a role policy for
    the resource is in the parent's scope; but its compilation unit cannot be
    assembled, [GetAll] skips the units that fail, and the reload reports no error:
    the policy, to be compiled according to the index, is in no unit. *)
Theorem accepted_policy_left_out :
  ∃ idx units m, f_index f_scoped = Some idx ∧ f_child ∈ toCompile idx ∧
    (∃ e, GetCompilationUnits (f_fs f_scoped) id idx [f_child] = Some (inr e)) ∧
    GetAllCompilationUnits (f_fs f_scoped) id idx = Some units ∧ (f_child ∉ cu_ModID <$> units) ∧
    reload (loader_of (f_store f_scoped idx)) f_manager = Some m ∧ lastReloadErr m = None.
Proof.
  assert (match f_index f_scoped with
    | Some idx => bool_decide (f_child ∈ toCompile idx) &&
        match GetCompilationUnits (f_fs f_scoped) id idx [f_child] with Some (inr _) => true | _ => false end &&
        match GetAllCompilationUnits (f_fs f_scoped) id idx with Some us => bool_decide (f_child ∉ cu_ModID <$> us) | None => false end &&
        match reload (loader_of (f_store f_scoped idx)) f_manager with Some m => bool_decide (lastReloadErr m = None) | None => false end
    | None => false
    end = true) as Hx by (vm_compute; reflexivity).
  destruct (f_index f_scoped) as [idx|] eqn:E1; [|discriminate Hx]. apply andb_true_iff in Hx as [Hx H4]. apply andb_true_iff in Hx as [Hx H3].
  apply andb_true_iff in Hx as [H1 H2]. apply bool_decide_eq_true in H1.
  destruct (GetCompilationUnits _ _ idx [f_child]) as [[|e]|] eqn:E2; [discriminate H2| |discriminate H2].
  destruct (GetAllCompilationUnits _ _ idx) as [us|] eqn:E3; [|discriminate H3]. apply bool_decide_eq_true in H3.
  destruct (reload _ _) as [m|] eqn:E4; [|discriminate H4]. apply bool_decide_eq_true in H4.
  exists idx, us, m. split; [done|]. split; [exact H1|]. split; [by exists e|]. split; [done|]. split; [exact H3|]. by split.
Qed.
